(* ===== verification/_CoqProject ===== *)
-Q . S2P
Prelude.v
Trace.v
TraceState.v
Baggage.v
Context.v
Propagator.v
Data.v
AttributeSet.v
SpanLimits.v
Views.v
Series.v
BatchWorker.v
SpanProcessor.v
LogProcessor.v
Double.v
Sampler.v
Spans.v
Metrics.v
ExpHistogram.v
Meter.v
MeterSpec.v
Readers.v
RetryEngine.v
ProtoReader.v
GrpcStatus.v
Wire.v
Http2Connect.v
Http2.v
Http2Spec.v
Http2Run.v
Http2Close.v
GrpcCodec.v
HttpCodec.v
Exporter.v
OtlpMessages.v
OtlpEncoder.v
LeafTime.v
IndexedList.v
LeafTable.v
LeafResource.v
LeafOptions.v
LeafReceiver.v
LeafThreads.v
OtlpDecoder.v
OtlpRoundtrip.v
LeafKv.v
LeafMem.v
LeafHeap.v
LeafCore.v
LeafBatch.v
LeafSpec.v
LeafRefine.v
LeafEncode.v
LeafRun.v
LeafLimits.v
Registry.v
Config.v
EnvResolver.v
ConfigValidator.v
TomlLoader.v
ResourceBuilder.v
Auth.v
Builder.v
ExportTransport.v
