(* ===== verification/Prelude.v ===== *)
(** * Verification of microtel

    microtel is a C++ OpenTelemetry SDK with its own OTLP exporters, an HTTP/2 client,
    a concentrator for leaf devices and a C library for those leaves. This library
    models its core as executable definitions and proves what makes each part correct.
    Paths below are relative to the repository root.

    ** How the program is put together

    An application thread carries a [Context] (a [SpanContext] and a [Baggage]) in a
    thread-local slot; propagators read and write it as W3C headers. A tracer makes
    spans: a sampler decides which are recorded, and a recorded span enforces its
    limits as it goes. Ended spans and emitted log records are offered to a batch
    processor, whose worker thread drains a bounded queue, groups the batch and hands
    it to an exporter. Instruments record into the storages of the streams their views
    select; a reader thread collects them periodically. An exporter has batches
    encoded as OTLP messages, joins them into requests, sends these through a wire
    codec (gRPC or HTTP) and passes the results to the retry engine, which accounts
    for every outcome. The codecs share one HTTP/2 connection, served by one I/O
    thread.

    A leaf device fills a buffer of fixed size through the C library and encodes it as
    an OTLP payload. The concentrator's receiver decodes such payloads, identifies the
    leaf, corrects its clock, adds its Resource, and offers the spans to the same
    batch processor.

    ** Files

    - [Prelude] (this file): strings as octet lists, machine integers, list and
      header-splitting lemmas, tactics and hint databases.
    - [Trace], [TraceState], [Baggage], [Context], [Propagator]: [src/api]: ids and
      hex, the two W3C grammars with their class invariants, the current-context slot,
      the propagators.
    - [Data]: record, resource and option types; [Resource::Merge]. [Double]: binary64
      over the Standard Library's IEEE specification.
    - [Sampler], [SpanLimits], [Spans]: [src/sdk/sampler_*.cpp], [span_limits.cpp],
      [sdk_span.cpp], [sdk_tracer.cpp]; a sampler is a tree with its mutable state, a
      span its members and the calls it makes.
    - [BatchWorker], [SpanProcessor], [LogProcessor]: the two batch processors; what
      they share is proved once over the class [BatchQueue], which each instantiates.
    - [AttributeSet], [Views], [Series], [Metrics], [ExpHistogram], [Meter],
      [MeterSpec], [Readers]: the metrics SDK ([src/sdk/metric_*], [sdk_meter.cpp],
      [view_registry.cpp], the two readers): attribute sets, view resolution, series
      maps, the four storages, instruments and streams, collection, the reader thread
      as a transition system.
    - [RetryEngine], [Exporter]: [src/exporter] and
      [src/wire/encoder/trace_request_concat.cpp]; a codec is the class [IWireCodec],
      of which the HTTP codec and the custom codec are instances.
    - [ProtoReader], [GrpcStatus], [Wire], [GrpcCodec], [HttpCodec]: [src/wire]: the
      protobuf reader and partial-success parser, the gRPC status table and base64,
      what the codecs share, the two codecs.
    - [OtlpMessages], [OtlpEncoder], [OtlpDecoder], [OtlpRoundtrip]:
      [src/wire/encoder]: the messages as values, the encoder of the three signals,
      the trace decoder with its capped allocator, and the round trips.
    - [Http2Connect], [Http2], [Http2Spec], [Http2Run], [Http2Close]:
      [src/transport/http2_transport.cpp]: connection set-up, the transport as a
      transition system, its invariant, responses and memory, the end of the I/O
      thread with sample runs.
    - [LeafTime], [IndexedList], [LeafTable], [LeafResource], [LeafOptions],
      [LeafReceiver], [LeafThreads]: the concentrator ([src/sdk/leaf_*.cpp]): clock
      models, the leaf table as a list with an index of iterators, Resource layers,
      options, [Ingest] as a whole, and any number of its calls interleaved step by
      step with the pipeline.
    - [LeafKv], [LeafMem], [LeafHeap], [LeafCore], [LeafBatch], [LeafSpec],
      [LeafRefine], [LeafEncode], [LeafRun], [LeafLimits]: the leaf C library
      ([src/leaf/src]): the buffer byte by byte with its allocator and compaction, the
      operations, the batch cursors, an abstract leaf, the refinement proof for the
      operations and for whole runs, limits.
    - [ExportTransport]: [src/wire/custom]: the channel to an application's own
      transport as a transition system over its callers, and its codec, a third
      instance of [IWireCodec].
    - [Config], [EnvResolver], [ConfigValidator], [TomlLoader], [Auth]:
      [src/common/config]: the configuration and its tables, the environment overlay,
      the validator, the loader of the TOML file (over the tree toml++ parses), the
      auth providers.
    - [ResourceBuilder], [Registry], [Builder]: [src/sdk/resource_builder.cpp];
      [provider_registry.cpp], sequentially and step by step; [sdk_builder.cpp]: how
      file, environment and code become the arguments of every part of the pipeline.

    ** What the theorems show

    - Batching (C1-C3): under every interleaving of producers, flushes, option
      changes, shutdown and the worker, accepted records are exported exactly once and
      in order or counted as dropped; a completed flush covers what was accepted
      before it; shutdown ends within a stated number of worker steps.
    - Export (C4-C6, C36, C37): the retry contract, the exporter's queue, and end to
      end that every accepted batch is counted once; when a gRPC response is a
      success, retryable or terminal; what the channel to an application transport
      promises under every interleaving: who may send, with which deadline, and the
      one Cancel.
    - Transport (C7-C11, C38): every request is answered once, Close answers the open
      ones and ends, responses are what the peer sent and within their budgets, a TLS
      session is a verified one.
    - Spans, sampling and context (C12, C13, C39, C40): limits enforced call by call
      equal trimming once, a span is handed on once, header languages and round trips,
      the exact sampling threshold.
    - Metrics (C14-C17): each reported point aggregates exactly the measurements of
      its series since the last collection, in every interleaving; exponential
      histograms hold the observations that map to each bucket; the reader's cycles
      and its shutdown.
    - OTLP (C18-C21): what survives the encoder, stated exactly; what the decoder
      accepts and counts; the memory of a decode.
    - Concentrator (C22, C25, C26, C28): from the payload to the exporter each
      accepted span once, with calls interleaved step by step; a call run alone has no
      undefined behaviour and keeps its contract, unless the process ends in one of
      two known ways; spans handed on are valid and belong to their leaf; the table
      refines a plain list.
    - Leaf library (C23, C24, C27): every run of the C API returns, does what the
      abstract leaf says, faults nowhere, and delivers each ended span once.
    - Configuration (C29-C35): which source decides each setting, what is accepted and
      derived, that a configuration written as a document is read back; when the auth
      callback is called; the requests sent are legal; builds and concurrent
      registrations give a profile name to one provider, when no slot is freed
      meanwhile.
    - Theorems without a number complete these groups: flush of the exporter,
      exclusive Connect, reader shutdown, unknown leaves, limits of baggage, canonical
      [traceparent], truncation at UTF-8 boundaries, and others stated beside the
      definitions they are about.

    ** Conventions

    - Data keeps the source's names; a method that mutates returns the new state. Null
      pointers, empty handles and [std::optional] are [option].
    - Undefined behaviour (signed overflow, out-of-range conversion, null dereference,
      [pop_front] on an empty queue) is an outer [None], and theorems say when it
      cannot happen.
    - Counters of fixed width keep their wrap-around ([to_uint 64]); sizes of objects
      in memory are exact.
    - Concurrency: a body that holds a mutex is one atomic transition, a run is an
      arbitrary list of transitions; a call with several such sections is a program
      counter or, for [Ingest], a tree of steps. Condition variables may wake at any
      time.
    - Fuel: loops over a shrinking buffer run on its length ([walk_fuel],
      [search_fuel], [search_total]); the downscale loop of exponential histograms on
      32, the limit of a shift ([downscale_terminates]); the id and lookup loops of
      the leaf on the number of slots or chunks ([leaf_total]). Retry loops recur on
      the remaining attempts.
    - Code outside the repository is a parameter with its documented behaviour as
      hypothesis: [std::pow] (none), [std::log2] (its range), [std::hash] (equal
      keys), zlib ([gzip_lossless]), nghttp2 ([ng_action]), OpenSSL and sockets (their
      answers), upb (a program over the allocator it is given; concatenated requests
      parse to their union). Clocks, jitter, transport and auth answers are inputs.

    ** What is not modelled

    - Calls into libraries and the kernel: gzip, the epoll reactor and socket I/O,
      RAII wrappers, the OpenTelemetry C++ and spdlog adapters (type conversions).
    - Allocation failure, except where the code handles it as a result ([Ingest], the
      decoder's allocator, [new (std::nothrow)]) or where it ends [Ingest].
    - The provider's wiring and its health counters, the resource detectors, the
      simple processors, the logger and the internal log sink: glue around the
      modelled parts, left for later. *)
From Stdlib Require Export Ascii String ZArith NArith Lia.
From Stdlib Require DecimalString.
From stdpp Require Export base sets numbers strings list.

(** ** Scope and notations

    [str] is the model of [std::string] and [std::string_view]: the list of its
    octets.  [char] is a C++ [char]; every character test of the sources compares
    against ASCII constants, for which signed and unsigned [char] agree, so an
    octet is an [ascii] and [code] gives its unsigned value. *)
Declare Scope microtel_scope.
Delimit Scope microtel_scope with mt.

Abbreviation char := ascii.
Abbreviation str := (list ascii).

(** A string literal of the sources. *)
Definition lit (s : string) : str := list_ascii_of_string s.
Notation "$ s" := (lit s%string) (at level 9, s at level 8, format "$ s") : microtel_scope.
Open Scope microtel_scope.
Open Scope Z_scope.

Definition code (c : char) : Z := Z.of_N (N_of_ascii c).
Definition chr (z : Z) : char := ascii_of_N (Z.to_N z).
Definition size {A} (l : list A) : Z := Z.of_nat (length l).

(** [lo <= c && c <= hi] on [char]. *)
Definition in_range (lo hi c : char) : bool := (code lo <=? code c) && (code c <=? code hi).
Definition ceqb (a b : char) : bool := Ascii.eqb a b.
Notation "a =c b" := (ceqb a b) (at level 70) : microtel_scope.
Definition seqb (a b : str) : bool := bool_decide (a = b).
Notation "a =s b" := (seqb a b) (at level 70) : microtel_scope.

(** ** Tactics and hint databases *)

Create HintDb mt discriminated.
Create Rewrite HintDb mt.

(** Boolean hypotheses of the code's conditions, turned into propositions. *)
Ltac bool_hyps :=
  repeat match goal with
  | H : _ && _ = true |- _ => apply andb_true_iff in H; destruct H
  | H : _ || _ = false |- _ => apply orb_false_iff in H; destruct H
  | H : negb _ = true |- _ => apply negb_true_iff in H
  | H : negb _ = false |- _ => apply negb_false_iff in H
  | H : bool_decide _ = true |- _ => apply bool_decide_eq_true in H
  | H : bool_decide _ = false |- _ => apply bool_decide_eq_false in H
  | H : (_ =? _) = true |- _ => apply Z.eqb_eq in H
  | H : (_ =? _) = false |- _ => apply Z.eqb_neq in H
  | H : (_ <? _) = true |- _ => apply Z.ltb_lt in H
  | H : (_ <? _) = false |- _ => apply Z.ltb_ge in H
  | H : (_ <=? _) = true |- _ => apply Z.leb_le in H
  | H : (_ <=? _) = false |- _ => apply Z.leb_gt in H
  end.

(** Case split on the scrutinee of the first [if] or [match] found. *)
Ltac split_if :=
  match goal with
  | |- context [if ?b then _ else _] => destruct b eqn:?
  | H : context [if ?b then _ else _] |- _ => destruct b eqn:?
  end.
Ltac split_match :=
  match goal with
  | |- context [match ?x with _ => _ end] => destruct x eqn:?
  | H : context [match ?x with _ => _ end] |- _ => destruct x eqn:?
  end.

(** ** Characters *)

Lemma code_range c : 0 <= code c < 256.
Proof. unfold code. pose proof (N_ascii_bounded c). lia. Qed.

Lemma chr_code c : chr (code c) = c.
Proof. unfold chr, code. rewrite N2Z.id. apply ascii_N_embedding. Qed.

Lemma code_chr z : 0 <= z < 256 → code (chr z) = z.
Proof. intros. unfold code, chr. rewrite N_ascii_embedding by lia. lia. Qed.

Lemma code_inj a b : code a = code b → a = b.
Proof. intros H. rewrite <- (chr_code a), <- (chr_code b). by rewrite H. Qed.

Lemma ceqb_true a b : (a =c b) = true ↔ a = b.
Proof. apply Ascii.eqb_eq. Qed.
Lemma ceqb_false a b : (a =c b) = false ↔ a ≠ b.
Proof. apply Ascii.eqb_neq. Qed.
Lemma ceqb_refl a : (a =c a) = true.
Proof. by apply ceqb_true. Qed.
Lemma seqb_true a b : (a =s b) = true ↔ a = b.
Proof. apply bool_decide_eq_true. Qed.
Lemma seqb_false a b : (a =s b) = false ↔ a ≠ b.
Proof. apply bool_decide_eq_false. Qed.
Lemma seqb_refl a : (a =s a) = true.
Proof. by apply seqb_true. Qed.
#[export] Hint Rewrite ceqb_refl seqb_refl : mt.

(** There are 256 octets, so a boolean fact about every octet is decided by
    evaluation: [by_octets] closes [forall c, P c = true]. *)
Definition all_octets : list char := chr <$> seqZ 0 256.

Lemma forall_octets (P : char → bool) : forallb P all_octets = true → ∀ c, P c = true.
Proof.
  rewrite forallb_forall. intros H c. apply H.
  rewrite <- (chr_code c). apply in_map. apply list_elem_of_In, elem_of_seqZ.
  pose proof (code_range c). lia.
Qed.

(** [by_octet_cases c P]: the goal about the octet [c] follows from the boolean
    fact [P c], which is checked on all 256 octets. *)
Ltac by_octet_cases c P :=
  let H := fresh in
  assert (H : P c = true) by (apply (forall_octets P); vm_compute; reflexivity);
  simpl in H; intros; repeat match goal with
  | E : ?b = true, H : implb ?b _ = true |- _ => rewrite E in H; simpl in H
  | E : ?b = false, H : implb (negb ?b) _ = true |- _ => rewrite E in H; simpl in H
  end; bool_hyps; repeat split; (assumption || congruence || lia).

(** ** [std::string_view]: find, substr, trimming *)

(** [s.find(c)]; [None] is [npos]. *)
Fixpoint find_char (c : char) (s : str) : option nat :=
  match s with
  | [] => None
  | x :: s' => if x =c c then Some 0%nat else S <$> find_char c s'
  end.

(** [s.substr(0, n)], where [n] may be [npos]. *)
Definition substr_to (s : str) (n : option nat) : str :=
  match n with None => s | Some n => take n s end.

Lemma find_char_None c s : find_char c s = None ↔ c ∉ s.
Proof.
  induction s as [|x s IH]; simpl; [set_solver|].
  destruct (x =c c) eqn:E.
  - apply ceqb_true in E. subst. split; [done|set_solver].
  - apply ceqb_false in E. rewrite fmap_None, IH. set_solver.
Qed.

Lemma find_char_Some c s n :
  find_char c s = Some n → s = take n s ++ c :: drop (S n) s ∧ c ∉ take n s.
Proof.
  revert n. induction s as [|x s IH]; simpl; [done|]. intros n.
  destruct (x =c c) eqn:E.
  - apply ceqb_true in E. intros [= <-]. subst. by rewrite drop_0; simpl; set_solver.
  - apply ceqb_false in E. intros (m & Hm & ->)%fmap_Some.
    destruct (IH m Hm) as [Hs Hn]. simpl. split; [by f_equal|set_solver].
Qed.

Lemma find_char_app c s t : c ∉ s → find_char c (s ++ c :: t) = Some (length s).
Proof.
  induction s as [|x s IH]; simpl; intros H; [by rewrite ceqb_refl|].
  apply not_elem_of_cons in H as [Hx Hs].
  assert ((x =c c) = false) as -> by (apply ceqb_false; congruence).
  by rewrite IH.
Qed.

Lemma drop_past_app {A} (c : A) s t : drop (S (length s)) (s ++ c :: t) = t.
Proof. induction s; simpl; [done|]. done. Qed.

(** The two loops of [TrimOptionalWhitespace]: [remove_prefix(1)] while the front
    is whitespace, then [remove_suffix(1)] while the back is. *)
Fixpoint drop_while (p : char → bool) (s : str) : str :=
  match s with
  | [] => []
  | c :: s' => if p c then drop_while p s' else s
  end.
Definition drop_while_back (p : char → bool) (s : str) : str :=
  reverse (drop_while p (reverse s)).
Definition trim (p : char → bool) (s : str) : str := drop_while_back p (drop_while p s).

Definition starts_in (p : char → bool) (s : str) : bool :=
  match s with [] => false | c :: _ => p c end.
Definition ends_in (p : char → bool) (s : str) : bool := starts_in p (reverse s).

Lemma drop_while_id p s : starts_in p s = false → drop_while p s = s.
Proof. destruct s; simpl; [done|]. by intros ->. Qed.
Lemma trim_id p s : starts_in p s = false → ends_in p s = false → trim p s = s.
Proof.
  intros Hs He. unfold trim, drop_while_back.
  rewrite (drop_while_id p s Hs), (drop_while_id p (reverse s) He). apply reverse_involutive.
Qed.
Lemma starts_in_app p s t : s ≠ [] → starts_in p (s ++ t) = starts_in p s.
Proof. by destruct s. Qed.
Lemma ends_in_app p s t : t ≠ [] → ends_in p (s ++ t) = ends_in p t.
Proof.
  intros H. unfold ends_in. rewrite reverse_app. apply starts_in_app.
  intros E. apply H. rewrite <- (reverse_involutive t), E. done.
Qed.
Lemma starts_in_forallb p q s :
  (∀ c, q c = true → p c = false) → forallb q s = true → starts_in p s = false.
Proof. intros Hpq. destruct s; simpl; [done|]. intros H. bool_hyps. auto. Qed.
Lemma forallb_elem {A} (q : A → bool) s x : forallb q s = true → x ∈ s → q x = true.
Proof. rewrite forallb_forall. intros H Hx. by apply H, list_elem_of_In. Qed.
Lemma forallb_elem_2 {A} (q : A → bool) s : (∀ x, x ∈ s → q x = true) → forallb q s = true.
Proof. intros H. apply forallb_forall. intros x Hx. by apply H, list_elem_of_In. Qed.
Lemma forallb_not_elem {A} (q : A → bool) s x : forallb q s = true → q x = false → x ∉ s.
Proof. intros H Hx Hin. pose proof (forallb_elem _ _ _ H Hin). congruence. Qed.
Lemma forallb_reverse {A} (q : A → bool) s : forallb q (reverse s) = forallb q s.
Proof.
  apply eq_true_iff_eq. rewrite !forallb_forall. setoid_rewrite <- list_elem_of_In.
  by setoid_rewrite elem_of_reverse.
Qed.
Lemma ends_in_forallb p q s :
  (∀ c, q c = true → p c = false) → forallb q s = true → ends_in p s = false.
Proof.
  intros Hpq H. apply (starts_in_forallb p q); [done|]. by rewrite forallb_reverse.
Qed.
Lemma drop_while_starts p s : starts_in p (drop_while p s) = false.
Proof. induction s as [|c s IH]; simpl; [done|]. by destruct (p c) eqn:E. Qed.
Lemma drop_while_suffix p s : ∃ pre, s = pre ++ drop_while p s.
Proof.
  induction s as [|c s [pre IH]]; simpl; [by exists []|].
  destruct (p c); [exists (c :: pre); simpl; by f_equal|by exists []].
Qed.
Lemma drop_while_back_ends p s : ends_in p (drop_while_back p s) = false.
Proof. unfold ends_in, drop_while_back. rewrite reverse_involutive. apply drop_while_starts. Qed.
Lemma drop_while_back_prefix p s : ∃ post, s = drop_while_back p s ++ post.
Proof.
  unfold drop_while_back. destruct (drop_while_suffix p (reverse s)) as [pre H].
  exists (reverse pre). rewrite <- reverse_app, <- H. by rewrite reverse_involutive.
Qed.
Lemma trim_infix p s : ∃ pre post, s = pre ++ trim p s ++ post.
Proof.
  unfold trim. destruct (drop_while_suffix p s) as [pre H1].
  destruct (drop_while_back_prefix p (drop_while p s)) as [post H2].
  exists pre, post. by rewrite <- H2.
Qed.
Lemma trim_elem p s c : c ∈ trim p s → c ∈ s.
Proof. destruct (trim_infix p s) as (pre & post & E). rewrite E at 2. set_solver. Qed.
Lemma trim_ends p s : ends_in p (trim p s) = false.
Proof. apply drop_while_back_ends. Qed.

Lemma drop_while_replicate p c n s : p c = true → drop_while p (replicate n c ++ s) = drop_while p s.
Proof. intros H. induction n as [|n IH]; [done|]. cbn. by rewrite H. Qed.
Lemma drop_while_back_pad p s c n :
  p c = true → ends_in p s = false → drop_while_back p (s ++ replicate n c) = s.
Proof.
  intros Hc He. unfold drop_while_back. rewrite reverse_app, reverse_replicate, drop_while_replicate by done.
  rewrite drop_while_id by exact He. apply reverse_involutive.
Qed.

(** ** Separator loops

    [splits sep s] is the sequence of pieces visited by
    [while (true) { n = s.find(sep); use(s.substr(0, n)); if (n == npos) return;
    s = s.substr(n + 1); }], and [segments sep s] the one visited by
    [while (!s.empty()) { n = s.find(sep); use(s.substr(0, n));
    s = (n == npos) ? {} : s.substr(n + 1); }], which does not visit the empty
    piece after a trailing separator.  [splits_unfold] and [segments_unfold]
    are these loops. *)
Fixpoint splits (sep : char) (s : str) : list str :=
  match s with
  | [] => [[]]
  | c :: s' =>
      if c =c sep then [] :: splits sep s'
      else match splits sep s' with
           | [] => [[c]]
           | piece :: rest => (c :: piece) :: rest
           end
  end.

Fixpoint drop_last_empty (l : list str) : list str :=
  match l with
  | [] => []
  | [[]] => []
  | p :: l' => p :: drop_last_empty l'
  end.
Definition segments (sep : char) (s : str) : list str := drop_last_empty (splits sep s).

(** [a ++ sep ++ b ++ sep ++ ...]: how the serialisers write a list. *)
Fixpoint join (sep : char) (l : list str) : str :=
  match l with
  | [] => []
  | [p] => p
  | p :: l' => p ++ sep :: join sep l'
  end.

Lemma splits_nonempty sep s : splits sep s ≠ [].
Proof. destruct s as [|c s]; simpl; [done|]. destruct (c =c sep); [done|]. by destruct (splits sep s). Qed.

Lemma splits_no_sep sep s : sep ∉ s → splits sep s = [s].
Proof.
  induction s as [|c s IH]; simpl; [done|]. intros H.
  apply not_elem_of_cons in H as [Hc Hs].
  assert ((c =c sep) = false) as -> by (apply ceqb_false; congruence).
  by rewrite IH.
Qed.

Lemma splits_app sep p s : sep ∉ p → splits sep (p ++ sep :: s) = p :: splits sep s.
Proof.
  induction p as [|c p IH]; simpl; intros H; [by rewrite ceqb_refl|].
  apply not_elem_of_cons in H as [Hc Hs].
  assert ((c =c sep) = false) as -> by (apply ceqb_false; congruence).
  by rewrite IH.
Qed.

Lemma splits_unfold sep s :
  splits sep s = substr_to s (find_char sep s)
                 :: match find_char sep s with
                    | None => []
                    | Some n => splits sep (drop (S n) s)
                    end.
Proof.
  destruct (find_char sep s) as [n|] eqn:E; simpl.
  - destruct (find_char_Some _ _ _ E) as [Hs Hn]. rewrite Hs at 1. by apply splits_app.
  - by apply splits_no_sep, find_char_None.
Qed.

Lemma drop_last_empty_cons p l : l ≠ [] → drop_last_empty (p :: l) = p :: drop_last_empty l.
Proof. by destruct p, l. Qed.

Lemma segments_unfold sep s :
  segments sep s =
  match s with
  | [] => []
  | _ => substr_to s (find_char sep s)
         :: match find_char sep s with
            | None => []
            | Some n => segments sep (drop (S n) s)
            end
  end.
Proof.
  unfold segments. destruct s as [|c s]; [done|].
  rewrite (splits_unfold sep (c :: s)).
  destruct (find_char sep (c :: s)) as [n|] eqn:E; [|done].
  by rewrite drop_last_empty_cons by apply splits_nonempty.
Qed.

Lemma splits_join sep l :
  l ≠ [] → Forall (λ p, sep ∉ p) l → splits sep (join sep l) = l.
Proof.
  induction l as [|p l IH]; [done|]. intros _ Hl.
  inversion_clear Hl as [|? ? Hp Hl']. destruct l as [|q l].
  - by apply splits_no_sep.
  - change (join sep (p :: q :: l)) with (p ++ sep :: join sep (q :: l)).
    rewrite splits_app by done. by rewrite IH.
Qed.

Lemma drop_last_empty_id l : Forall (λ p, p ≠ []) l → drop_last_empty l = l.
Proof.
  induction 1 as [|p l Hp Hl IH]; [done|].
  destruct l; [by destruct p|]. rewrite drop_last_empty_cons by done. by rewrite IH.
Qed.

Lemma segments_join sep l :
  Forall (λ p, p ≠ [] ∧ sep ∉ p) l → segments sep (join sep l) = l.
Proof.
  intros H. unfold segments. destruct l as [|p l]; [done|].
  rewrite splits_join; [|done|by eapply Forall_impl; [exact H|]; intros ? []].
  apply drop_last_empty_id. eapply Forall_impl; [exact H|]. by intros ? [].
Qed.

Lemma splits_pieces sep s : Forall (λ p, sep ∉ p) (splits sep s).
Proof.
  induction s as [|c s IH]; simpl; [by repeat constructor; set_solver|].
  destruct (c =c sep) eqn:E; [constructor; [set_solver|done]|].
  apply ceqb_false in E. destruct (splits sep s) as [|p l] eqn:Ep.
  - by apply splits_nonempty in Ep.
  - inversion IH; subst. constructor; [|done].
    apply not_elem_of_cons. split; congruence.
Qed.

Lemma elem_of_splits sep s p c : p ∈ splits sep s → c ∈ p → c ∈ s.
Proof.
  revert p. induction s as [|x s IH]; simpl; intros p Hp Hc.
  { apply list_elem_of_singleton in Hp. by subst. }
  destruct (x =c sep).
  { apply elem_of_cons in Hp as [->|Hp]; [by apply elem_of_nil in Hc|right; eauto]. }
  destruct (splits sep s) as [|q l].
  - apply list_elem_of_singleton in Hp. subst. set_solver.
  - apply elem_of_cons in Hp as [->|Hp]; [|right; eapply IH; [by right|done]].
    apply elem_of_cons in Hc as [->|Hc]; [by left|right; eapply IH; [by left|done]].
Qed.

(** A fold that appends a separator between rendered items, as the [ToHeader]
    loops do ([if (!header.empty()) header.push_back(sep)]), is [join] when no
    item renders to the empty string. *)
Definition append_sep (sep : char) (out piece : str) : str :=
  (match out with [] => [] | _ => out ++ [sep] end) ++ piece.

Lemma fold_append_sep {A} sep (f : A → str) (l : list A) (out : str) :
  out ≠ [] → Forall (λ a, f a ≠ []) l →
  fold_left (λ h a, append_sep sep h (f a)) l out = join sep (out :: (f <$> l)).
Proof.
  revert out. induction l as [|a l IH]; intros out Hout Hl; [done|].
  inversion_clear Hl as [|? ? Ha Hl']. cbn [fold_left fmap list_fmap].
  assert (append_sep sep out (f a) = out ++ sep :: f a) as ->.
  { unfold append_sep. destruct out; [done|]. by rewrite <- app_assoc. }
  rewrite IH by (done || by destruct out). destruct (f <$> l) as [|b m]; [done|].
  cbn [join]. by rewrite <- app_assoc.
Qed.

Lemma fold_append_sep_join {A} sep (f : A → str) (l : list A) :
  Forall (λ a, f a ≠ []) l → fold_left (λ h a, append_sep sep h (f a)) l [] = join sep (f <$> l).
Proof.
  destruct l as [|a l]; intros Hl; [done|]. inversion_clear Hl.
  cbn [fold_left]. unfold append_sep at 2. cbn [app]. by apply fold_append_sep.
Qed.

(** ** Association lists with unique keys

    Several components keep a short vector of keyed entries and look them up by
    the first match. *)
Section keyed.
Context {A : Type} (key : A → str).

Definition has_key (k : str) (l : list A) : bool := existsb (λ a, key a =s k) l.
Definition find_key (k : str) (l : list A) : option A := find (λ a, key a =s k) l.
Definition without_key (k : str) (l : list A) : list A := List.filter (λ a, negb (key a =s k)) l.

Lemma has_key_true k l : has_key k l = true ↔ k ∈ key <$> l.
Proof.
  unfold has_key. rewrite existsb_exists. setoid_rewrite seqb_true.
  setoid_rewrite <- list_elem_of_In. rewrite list_elem_of_fmap. naive_solver.
Qed.
Lemma has_key_false k l : has_key k l = false ↔ k ∉ key <$> l.
Proof. rewrite <- not_true_iff_false, has_key_true. done. Qed.
Lemma find_key_None k l : find_key k l = None ↔ k ∉ key <$> l.
Proof.
  unfold find_key. split.
  - intros H [a [-> Ha]]%list_elem_of_fmap.
    apply list_elem_of_In, (find_none _ _ H), seqb_false in Ha. done.
  - intros H. destruct (find _ l) as [a|] eqn:E; [|done].
    apply find_some in E as [Ha Ek]. apply seqb_true in Ek. subst. exfalso. apply H.
    apply list_elem_of_fmap_2. by apply list_elem_of_In.
Qed.
Lemma find_key_Some k l a : find_key k l = Some a → a ∈ l ∧ key a = k.
Proof.
  intros H. apply find_some in H as [Ha Ek]. apply seqb_true in Ek.
  by rewrite list_elem_of_In.
Qed.
Lemma find_key_has k l : has_key k l = bool_decide (is_Some (find_key k l)).
Proof.
  destruct (find_key k l) as [a|] eqn:E.
  - rewrite bool_decide_true by eauto. apply has_key_true.
    apply find_key_Some in E as [Ha <-]. by apply list_elem_of_fmap_2.
  - rewrite bool_decide_false by (by intros []). by apply has_key_false, find_key_None.
Qed.
Lemma without_key_elem k l a : a ∈ without_key k l ↔ a ∈ l ∧ key a ≠ k.
Proof.
  unfold without_key. rewrite !list_elem_of_In, filter_In, negb_true_iff, seqb_false. done.
Qed.
Lemma without_key_id k l : k ∉ key <$> l → without_key k l = l.
Proof.
  induction l as [|a l IH]; simpl; [done|]. intros H.
  apply not_elem_of_cons in H as [Ha Hl].
  assert ((key a =s k) = false) as -> by (apply seqb_false; congruence).
  simpl. f_equal. by apply IH.
Qed.
Lemma without_key_keys k l : key <$> without_key k l = List.filter (λ x, negb (x =s k)) (key <$> l).
Proof.
  induction l as [|a l IH]; simpl; [done|]. destruct (key a =s k); simpl; [exact IH|f_equal; exact IH].
Qed.
Lemma without_key_NoDup k l : NoDup (key <$> l) → NoDup (key <$> without_key k l).
Proof.
  rewrite without_key_keys, !NoDup_ListNoDup. intros H. by apply List.NoDup_filter.
Qed.
Lemma without_key_notin k l : k ∉ key <$> without_key k l.
Proof. intros [a [-> Ha]]%list_elem_of_fmap. by apply without_key_elem in Ha as [_ ?]. Qed.
Lemma without_key_length k l : (length (without_key k l) <= length l)%nat.
Proof. unfold without_key. apply List.filter_length_le. Qed.
Lemma without_key_length_has k l :
  NoDup (key <$> l) → k ∈ key <$> l → length l = S (length (without_key k l)).
Proof.
  induction l as [|a l IH]; simpl; [set_solver|]. intros [Ha Hl]%NoDup_cons Hk.
  destruct (key a =s k) eqn:E; simpl.
  - apply seqb_true in E. subst. by rewrite without_key_id.
  - apply seqb_false in E. rewrite IH; [done|done|set_solver].
Qed.
Lemma find_key_without k j l : j ≠ k → find_key j (without_key k l) = find_key j l.
Proof.
  intros Hjk. unfold find_key, without_key. induction l as [|a l IH]; simpl; [done|].
  destruct (key a =s k) eqn:Ek; simpl.
  - apply seqb_true in Ek. assert ((key a =s j) = false) as -> by (apply seqb_false; congruence).
    done.
  - destruct (key a =s j); [done|]. done.
Qed.
End keyed.

(** ** Decimal rendering *)

(** [std::to_string] of a non-negative integer, and of any integer. *)
Definition decimal (z : Z) : str := lit (DecimalString.NilZero.string_of_uint (N.to_uint (Z.to_N z))).
Definition to_string (z : Z) : str := if z <? 0 then "-"%char :: decimal (- z) else decimal z.

(** ** Machine integers and byte arrays *)

Definition u8_max : Z := 2 ^ 8 - 1.
Definition u32_max : Z := 2 ^ 32 - 1.
Definition u64_max : Z := 2 ^ 64 - 1.
Definition i64_max : Z := 2 ^ 63 - 1.
Definition i64_min : Z := - 2 ^ 63.

(** Conversion to an unsigned type of [w] bits, and to a signed one. *)
Definition to_uint (w z : Z) : Z := z mod 2 ^ w.
Definition to_sint (w z : Z) : Z :=
  let u := z mod 2 ^ w in if u <? 2 ^ (w - 1) then u else u - 2 ^ w.

Definition is_u8 (z : Z) : Prop := 0 <= z <= u8_max.
Definition is_u32 (z : Z) : Prop := 0 <= z <= u32_max.
Definition is_u64 (z : Z) : Prop := 0 <= z <= u64_max.
Definition is_i64 (z : Z) : Prop := i64_min <= z <= i64_max.

(** [std::array<std::uint8_t, n>]. *)
Definition is_bytes (n : nat) (l : list Z) : Prop := length l = n ∧ Forall is_u8 l.

Lemma size_app {A} (l k : list A) : size (l ++ k) = size l + size k.
Proof. unfold size. rewrite length_app. lia. Qed.
Lemma size_cons {A} (x : A) l : size (x :: l) = 1 + size l.
Proof. unfold size. simpl. lia. Qed.
Lemma size_fmap {A B} (f : A → B) l : size (f <$> l) = size l.
Proof. unfold size. by rewrite length_fmap. Qed.
Lemma size_nonneg {A} (l : list A) : 0 <= size l.
Proof. unfold size. lia. Qed.
Lemma size_nil_iff {A} (l : list A) : size l = 0 ↔ l = [].
Proof. unfold size. destruct l; simpl; split; (done || lia). Qed.
#[export] Hint Rewrite @size_app @size_cons : mt.
Definition bz (b : bool) : Z := if b then 1 else 0.
(** How many elements a predicate holds of. *)
Lemma count_insert {A} (f : A → bool) (l : list A) i x y : l !! i = Some x →
  size (List.filter f (<[i := y]> l)) = size (List.filter f l) - (if f x then 1 else 0) + (if f y then 1 else 0).
Proof.
  intros H. pose proof (lookup_lt_Some _ _ _ H) as Hl. rewrite insert_take_drop by done.
  rewrite <- (take_drop_middle l i x H) at 3. rewrite !List.filter_app, !size_app. cbn [List.filter].
  destruct (f x), (f y); rewrite ?size_cons; lia.
Qed.
Lemma count_snoc {A} (f : A → bool) l x : size (List.filter f (l ++ [x])) = size (List.filter f l) + (if f x then 1 else 0).
Proof. rewrite List.filter_app, size_app. cbn. by destruct (f x). Qed.
Lemma count_pos {A} (f : A → bool) (l : list A) i x : l !! i = Some x → f x = true → 1 <= size (List.filter f l).
Proof.
  intros Hi Hf. assert (x ∈ List.filter f l) as Hin by (apply list_elem_of_In, filter_In; split; [apply list_elem_of_In; by eapply list_elem_of_lookup_2|done]).
  apply list_elem_of_split in Hin as (l1 & l2 & ->). rewrite size_app, size_cons. pose proof (size_nonneg l1). pose proof (size_nonneg l2). lia.
Qed.
(** One step of a thread: where another thread is. *)
Lemma lookup_moved {A} (i : nat) (x : A) (l : list A) j y : <[i := x]> l !! j = Some y → (j = i ∧ y = x) ∨ (j ≠ i ∧ l !! j = Some y).
Proof.
  intros H. destruct (decide (j = i)) as [->|Hne]; [left|right; by rewrite list_lookup_insert_ne in H].
  split; [done|]. pose proof (lookup_lt_Some _ _ _ H) as Hl. rewrite length_insert in Hl. rewrite list_lookup_insert_eq in H by done. by injection H.
Qed.
Lemma lookup_joined {A} (l : list A) x i y : (l ++ [x]) !! i = Some y → (l !! i = Some y ∧ (i < length l)%nat) ∨ (i = length l ∧ y = x).
Proof.
  intros Hi. destruct (decide (i < length l)%nat) as [Hl|Hl].
  - rewrite lookup_app_l in Hi by done. by left.
  - pose proof (lookup_lt_Some _ _ _ Hi) as Hb. rewrite length_app in Hb. cbn in Hb. assert (i = length l) as -> by lia.
    rewrite list_lookup_middle in Hi by done. right. by injection Hi.
Qed.

(** Every element of [{lo, ..., hi - 1}] satisfies [P], by evaluation. *)
Lemma forall_below (P : Z → bool) (n : Z) :
  forallb P (seqZ 0 n) = true → ∀ z, 0 <= z < n → P z = true.
Proof.
  rewrite forallb_forall. intros H z Hz. apply H. apply list_elem_of_In, elem_of_seqZ. lia.
Qed.

(** [lia] with the integer limits evaluated. *)
Ltac width_lia :=
  unfold is_u8, is_u32, is_u64, is_i64 in *;
  repeat change u8_max with 255 in *; repeat change u32_max with 4294967295 in *;
  repeat change u64_max with 18446744073709551615 in *;
  repeat change i64_max with 9223372036854775807 in *;
  repeat change i64_min with (-9223372036854775808) in *; lia.

Lemma to_uint64_id z : 0 <= z <= u64_max → to_uint 64 z = z.
Proof. intros H. apply Z.mod_small. change (2 ^ 64) with 18446744073709551616. width_lia. Qed.

Lemma to_uint_u64 z : is_u64 (to_uint 64 z).
Proof.
  pose proof (Z.mod_pos_bound z (2 ^ 64) eq_refl) as H. unfold to_uint. change (2 ^ 64) with 18446744073709551616 in *.
  width_lia.
Qed.
Lemma to_uint32_id z : is_u32 z → to_uint 32 z = z.
Proof. intros H. apply Z.mod_small. change (2 ^ 32) with 4294967296. width_lia. Qed.
Lemma to_uint_u32 z : is_u32 (to_uint 32 z).
Proof.
  pose proof (Z.mod_pos_bound z (2 ^ 32) eq_refl) as H. unfold to_uint. change (2 ^ 32) with 4294967296 in *. width_lia.
Qed.
Lemma to_uint32_add_l z y : to_uint 32 (to_uint 32 z + y) = to_uint 32 (z + y).
Proof. unfold to_uint. by rewrite Zplus_mod_idemp_l. Qed.
(** Reading the low [b] bits of a sign-extended [b]-bit number. *)
Lemma to_sint_to_uint w b z :
  0 < b <= w → - 2 ^ (b - 1) <= z < 2 ^ (b - 1) → to_sint b (to_uint w z) = z.
Proof.
  intros Hb Hz. unfold to_sint, to_uint.
  rewrite Z.mod_mod_divide by (exists (2 ^ (w - b)); rewrite <- Z.pow_add_r by lia; f_equal; lia).
  assert (2 ^ b = 2 * 2 ^ (b - 1)) as E by (rewrite <- Z.pow_succ_r by lia; f_equal; lia).
  destruct (Z.lt_ge_cases z 0).
  - replace (z mod 2 ^ b) with (z + 2 ^ b) by (apply (Z.mod_unique _ _ (-1)); lia).
    rewrite (proj2 (Z.ltb_ge _ _)) by lia. lia.
  - rewrite Z.mod_small by lia. rewrite (proj2 (Z.ltb_lt _ _)) by lia. done.
Qed.

(** [n] bits are closed under bitwise or. *)
Lemma lor_bound n a b : 0 < n → 0 <= a < 2 ^ n → 0 <= b < 2 ^ n → 0 <= Z.lor a b < 2 ^ n.
Proof.
  intros Hn [Ha Ha'] [Hb Hb']. assert (0 <= Z.lor a b) as H0 by (by apply Z.lor_nonneg).
  split; [done|]. destruct (Z.eq_dec (Z.lor a b) 0) as [->|H]; [apply Z.pow_pos_nonneg; lia|].
  apply Z.log2_lt_pow2; [lia|]. rewrite Z.log2_lor by done. apply Z.max_lub_lt.
  - destruct (Z.eq_dec a 0) as [->|]; [cbn; lia|]. apply Z.log2_lt_pow2; lia.
  - destruct (Z.eq_dec b 0) as [->|]; [cbn; lia|]. apply Z.log2_lt_pow2; lia.
Qed.

(** Witnesses of each element, collected in order. *)
Lemma Forall_Exists_choice {A B} (R : A → B → Prop) (l : list A) :
  Forall (λ a, ∃ b, R a b) l → ∃ k, Forall2 R l k.
Proof.
  induction 1 as [|a l [b Hb] _ [k IH]]; [by exists []; constructor|].
  exists (b :: k). by constructor.
Qed.

(** A shifted value and a value below the shift do not overlap. *)
Lemma land_shiftl_low k a b : 0 <= k → 0 <= b < 2 ^ k → Z.land (Z.shiftl a k) b = 0.
Proof.
  intros Hk Hb. apply Z.bits_inj'; intros n Hn. rewrite Z.land_spec, Z.bits_0.
  destruct (Z.lt_ge_cases n k); [by rewrite Z.shiftl_spec_low by lia|].
  destruct (Z.eq_dec b 0) as [->|]; [by rewrite Z.bits_0, andb_false_r|].
  rewrite (Z.bits_above_log2 b n); [by rewrite andb_false_r|lia|]. apply Z.log2_lt_pow2; [lia|].
  apply Z.lt_le_trans with (2 ^ k); [lia|]. apply Z.pow_le_mono_r; lia.
Qed.
Lemma lor_shiftl_low k a b : 0 <= k → 0 <= b < 2 ^ k → Z.lor (Z.shiftl a k) b = a * 2 ^ k + b.
Proof.
  intros Hk Hb. pose proof (land_shiftl_low k a b Hk Hb) as H0.
  rewrite <- Z.lxor_lor, <- Z.add_nocarry_lxor by done. by rewrite Z.shiftl_mul_pow2.
Qed.

(** The object representation of an integer of [n] octets, little-endian. *)
Fixpoint le_bytes (n : nat) (v : Z) : list Z :=
  match n with O => [] | S n' => v mod 256 :: le_bytes n' (v / 256) end.
(** [s.starts_with(p)]. *)
Fixpoint starts_with (s p : str) : bool :=
  match p, s with
  | [], _ => true
  | _, [] => false
  | c :: p', x :: s' => (x =c c) && starts_with s' p'
  end.
Lemma starts_with_prefix s p : starts_with s p = true ↔ p `prefix_of` s.
Proof.
  revert s. induction p as [|c p IH]; intros s.
  - split; [|by destruct s]. intros _. apply prefix_nil.
  - destruct s as [|x s]; cbn.
    + split; [done|]. intros [k Hk]. discriminate.
    + rewrite andb_true_iff, ceqb_true, IH. split.
      * intros [-> H]. by apply prefix_cons.
      * intros H. split; [symmetry; by eapply prefix_cons_inv_1|by eapply prefix_cons_inv_2].
Qed.

(** ** Sums *)

Definition zsum {A} (f : A → Z) (l : list A) : Z := fold_right (λ a t, f a + t) 0 l.
Lemma zsum_app {A} (f : A → Z) l k : zsum f (l ++ k) = zsum f l + zsum f k.
Proof. unfold zsum. induction l; cbn; lia. Qed.
Lemma zsum_cons {A} (f : A → Z) a l : zsum f (a :: l) = f a + zsum f l.
Proof. done. Qed.
Lemma zsum_nonneg {A} (f : A → Z) l : (∀ a, a ∈ l → 0 <= f a) → 0 <= zsum f l.
Proof.
  intros H. unfold zsum. induction l as [|a l IH]; cbn; [done|].
  pose proof (H a (list_elem_of_here _ _)). assert (∀ b, b ∈ l → 0 <= f b) by (intros; apply H; by right).
  specialize (IH ltac:(done)). lia.
Qed.
Lemma zsum_ext {A} (f g : A → Z) l : (∀ a, a ∈ l → f a = g a) → zsum f l = zsum g l.
Proof.
  intros H. unfold zsum. induction l as [|a l IH]; cbn; [done|].
  rewrite H by left. rewrite IH; [done|]. intros; apply H. by right.
Qed.
Lemma zsum_fmap {A B} (f : B → Z) (g : A → B) l : zsum f (g <$> l) = zsum (f ∘ g) l.
Proof. unfold zsum. induction l; cbn; [done|]. by f_equal. Qed.
#[export] Hint Rewrite @zsum_app @zsum_cons : mt.
Lemma zsum_perm {A} (f : A → Z) l k : l ≡ₚ k → zsum f l = zsum f k.
Proof. unfold zsum. induction 1; cbn; lia. Qed.
Lemma zsum_add {A} (f g h : A → Z) l : (∀ a, a ∈ l → h a = f a + g a) → zsum h l = zsum f l + zsum g l.
Proof.
  intros E. unfold zsum. induction l as [|a l IH]; cbn; [done|]. rewrite E by left.
  rewrite IH; [lia|]. intros; apply E. by right.
Qed.
Lemma to_uint_add_l z y : to_uint 64 (to_uint 64 z + y) = to_uint 64 (z + y).
Proof. unfold to_uint. by rewrite Zplus_mod_idemp_l. Qed.
Lemma to_uint_add_r z y : to_uint 64 (z + to_uint 64 y) = to_uint 64 (z + y).
Proof. unfold to_uint. by rewrite Zplus_mod_idemp_r. Qed.
Lemma to_uint_twice z : to_uint 64 (to_uint 64 z) = to_uint 64 z.
Proof. unfold to_uint. apply Z.mod_mod. done. Qed.
