(* ===== verification/TraceState.v ===== *)
(** * W3C [tracestate]

    Model of [src/api/trace_state.cpp] ([microtel::TraceState]): the entry list
    behind a shared pointer to const (here [option (list Entry)], null is the
    empty state), the section 3.3 key and value grammars, the whole-header parser,
    the serialiser and the copy-on-write mutators.  The list is immutable once
    built, so sharing it between copies is not observable and values model it.

    The theorems: the class invariant [wf] is established by [FromHeader] and
    kept by [Set_] and [Erase]; [FromHeader] inverts [ToHeader]; [FromHeader] is
    all-or-nothing; [Get] after [Set_] and [Erase]. *)
From S2P Require Import Prelude.

(** [internal::TraceStateImpl::Entry]. *)
Record Entry := mkEntry { key : str; value : str }.

(** [TraceState]: [m_entries] is the shared entry list, [None] the null pointer. *)
Record TraceState := mkTraceState { m_entries : option (list Entry) }.

Definition kMaxEntries : Z := 32.
Definition kListSeparator : char := ",".
Definition kKeyValueSeparator : char := "=".
Definition kTenantSeparator : char := "@".
Definition kMaxSimpleKeyChars : Z := 256.
Definition kMaxTenantIdChars : Z := 241.
Definition kMaxSystemIdChars : Z := 14.
Definition kMaxValueChars : Z := 256.
Definition kValueLowestChar : char := " ".
Definition kValueHighestChar : char := "~".

(** ** Grammar *)

Definition IsLowerAlpha (c : char) : bool := in_range "a" "z" c.
Definition IsDigit (c : char) : bool := in_range "0" "9" c.
Definition IsKeyTailChar (c : char) : bool :=
  IsLowerAlpha c || IsDigit c || (c =c "_") || (c =c "-") || (c =c "*") || (c =c "/").
Definition IsOptionalWhitespace (c : char) : bool := (c =c " ") || (c =c "009").

Definition HasValidKeyTail (component : str) : bool := forallb IsKeyTailChar (drop 1 component).

Definition IsLowerAlphaLedComponent (component : str) (max_chars : Z) : bool :=
  match component with
  | [] => false
  | front :: _ =>
      if max_chars <? size component then false
      else IsLowerAlpha front && HasValidKeyTail component
  end.

Definition IsTenantId (component : str) : bool :=
  match component with
  | [] => false
  | first :: _ =>
      if kMaxTenantIdChars <? size component then false
      else (IsLowerAlpha first || IsDigit first) && HasValidKeyTail component
  end.

Definition IsValidKey (key : str) : bool :=
  match find_char kTenantSeparator key with
  | None => IsLowerAlphaLedComponent key kMaxSimpleKeyChars
  | Some at_ => IsTenantId (take at_ key)
                && IsLowerAlphaLedComponent (drop (S at_) key) kMaxSystemIdChars
  end.

Definition IsValueChar (c : char) : bool :=
  in_range kValueLowestChar kValueHighestChar c
  && negb (c =c kListSeparator) && negb (c =c kKeyValueSeparator).

Definition IsValidValue (value : str) : bool :=
  match last value with
  | None => false
  | Some back =>
      if kMaxValueChars <? size value then false
      else if back =c kValueLowestChar then false
      else forallb IsValueChar value
  end.

Definition TrimOptionalWhitespace (member : str) : str := trim IsOptionalWhitespace member.

(** ** Parsing and serialising *)

Definition Contains (entries : list Entry) (k : str) : bool := has_key key k entries.

(** [AppendExcept(source, key, destination)]; [None] is the null source. *)
Definition AppendExcept (source : option (list Entry)) (k : str) (destination : list Entry)
  : list Entry :=
  match source with
  | None => destination
  | Some entries => destination ++ without_key key k entries
  end.

Definition ParseMember (member : str) : option Entry :=
  match find_char kKeyValueSeparator member with
  | None => None
  | Some equals =>
      let k := take equals member in
      let v := drop (S equals) member in
      if negb (IsValidKey k) || negb (IsValidValue v) then None
      else Some (mkEntry k v)
  end.

(** The body of [ParseMembers]' loop, over the raw members the loop visits
    ([segments]); [None] is [return false]. *)
Fixpoint ParseMembers_loop (raw : list str) (entries : list Entry) : option (list Entry) :=
  match raw with
  | [] => Some entries
  | r :: raw' =>
      let member := TrimOptionalWhitespace r in
      match member with
      | [] => ParseMembers_loop raw' entries
      | _ =>
          if size entries =? kMaxEntries then None
          else match ParseMember member with
               | None => None
               | Some entry =>
                   if Contains entries (key entry) then None
                   else ParseMembers_loop raw' (entries ++ [entry])
               end
      end
  end.
Definition ParseMembers (header : str) : option (list Entry) :=
  ParseMembers_loop (segments kListSeparator header) [].

Definition FromHeader (header : str) : TraceState :=
  match ParseMembers header with
  | None => mkTraceState None
  | Some [] => mkTraceState None
  | Some entries => mkTraceState (Some entries)
  end.

Definition RenderMember (e : Entry) : str := key e ++ kKeyValueSeparator :: value e.
Definition ToHeader (s : TraceState) : str :=
  match m_entries s with
  | None => []
  | Some entries => fold_left (λ h e, append_sep kListSeparator h (RenderMember e)) entries []
  end.

(** ** Observers and mutators *)

Definition Size (s : TraceState) : Z :=
  match m_entries s with None => 0 | Some entries => size entries end.
Definition Empty (s : TraceState) : bool := Size s =? 0.

Definition Get (s : TraceState) (k : str) : option str :=
  match m_entries s with
  | None => None
  | Some entries => value <$> find_key key k entries
  end.
Definition has_value {A} (o : option A) : bool := match o with Some _ => true | None => false end.

(** [TraceState::Set]. *)
Definition Set_ (s : TraceState) (k v : str) : TraceState :=
  let replaces_existing := has_value (Get s k) in
  let would_overflow := negb replaces_existing && (kMaxEntries <=? Size s) in
  if negb (IsValidKey k) || negb (IsValidValue v) || would_overflow then s
  else mkTraceState (Some (AppendExcept (m_entries s) k [mkEntry k v])).

Definition Erase (s : TraceState) (k : str) : TraceState :=
  if negb (has_value (Get s k)) then s
  else if Size s =? 1 then mkTraceState None
  else mkTraceState (Some (AppendExcept (m_entries s) k [])).

(** ** Invariant *)

Definition wf_entry (e : Entry) : Prop := IsValidKey (key e) = true ∧ IsValidValue (value e) = true.
Definition wf_entries (l : list Entry) : Prop :=
  l ≠ [] ∧ size l <= kMaxEntries ∧ NoDup (key <$> l) ∧ Forall wf_entry l.
(** The class invariant: a non-null list is non-empty, within the W3C maximum,
    grammatical and without duplicate keys. *)
Definition wf (s : TraceState) : Prop :=
  match m_entries s with None => True | Some l => wf_entries l end.

(** The entries of a state, in order. *)
Definition entries_of (s : TraceState) : list Entry := default [] (m_entries s).

(** ** Grammar facts *)

Definition IsKeyChar (c : char) : bool := IsKeyTailChar c || (c =c kTenantSeparator).

Lemma key_char_not_structural c :
  IsKeyChar c = true →
  (c =c kListSeparator) = false ∧ (c =c kKeyValueSeparator) = false ∧ IsOptionalWhitespace c = false.
Proof.
  by_octet_cases c (λ c, implb (IsKeyChar c)
    (negb (c =c kListSeparator) && negb (c =c kKeyValueSeparator) && negb (IsOptionalWhitespace c))).
Qed.

Lemma value_char_not_structural c :
  IsValueChar c = true → (c =c kListSeparator) = false ∧ (c =c kKeyValueSeparator) = false.
Proof.
  by_octet_cases c (λ c, implb (IsValueChar c)
    (negb (c =c kListSeparator) && negb (c =c kKeyValueSeparator))).
Qed.

Lemma value_char_whitespace c :
  IsValueChar c = true → (c =c kValueLowestChar) = false → IsOptionalWhitespace c = false.
Proof.
  by_octet_cases c (λ c, implb (IsValueChar c) (implb (negb (c =c kValueLowestChar))
    (negb (IsOptionalWhitespace c)))).
Qed.

Lemma component_chars k m :
  IsLowerAlphaLedComponent k m = true → k ≠ [] ∧ forallb IsKeyTailChar k = true ∧ size k <= m.
Proof.
  unfold IsLowerAlphaLedComponent, HasValidKeyTail. destruct k as [|c k]; [done|].
  split_if; [done|]. intros H. bool_hyps. simpl in *. rewrite drop_0 in *.
  split_and!; [done| |lia]. unfold IsKeyTailChar at 1. by rewrite H, H0.
Qed.

Lemma tenant_chars k :
  IsTenantId k = true → k ≠ [] ∧ forallb IsKeyTailChar k = true ∧ size k <= kMaxTenantIdChars.
Proof.
  unfold IsTenantId, HasValidKeyTail. destruct k as [|c k]; [done|].
  split_if; [done|]. intros H. bool_hyps. simpl in *. rewrite drop_0 in *.
  split_and!; [done| |lia]. unfold IsKeyTailChar at 1. by rewrite H, H0.
Qed.

Lemma forallb_tail_key k : forallb IsKeyTailChar k = true → forallb IsKeyChar k = true.
Proof.
  rewrite !forallb_forall. intros H c Hc. unfold IsKeyChar. by rewrite (H c Hc).
Qed.

Lemma valid_key_chars k : IsValidKey k = true → k ≠ [] ∧ forallb IsKeyChar k = true.
Proof.
  unfold IsValidKey. destruct (find_char kTenantSeparator k) as [n|] eqn:E; intros H.
  - bool_hyps. apply tenant_chars in H as (? & Ht & _). apply component_chars in H0 as (_ & Hs & _).
    destruct (find_char_Some _ _ _ E) as [-> _]. split; [by destruct (take n k)|].
    rewrite forallb_app. simpl. rewrite (forallb_tail_key _ Ht), (forallb_tail_key _ Hs). done.
  - apply component_chars in H as (? & ? & _). auto using forallb_tail_key.
Qed.

Lemma valid_value_spec v :
  IsValidValue v = true →
  v ≠ [] ∧ forallb IsValueChar v = true ∧ ends_in IsOptionalWhitespace v = false.
Proof.
  unfold IsValidValue. destruct (last v) as [b|] eqn:E; [|done].
  apply last_Some in E as [l ->]. repeat (split_if; [done|]). intros H.
  split_and!; [by destruct l|done|].
  unfold ends_in. rewrite reverse_snoc. simpl. rewrite forallb_app in H. simpl in H.
  bool_hyps. by apply value_char_whitespace.
Qed.

(** ** Round trip of one member *)

Lemma render_member_comma e : wf_entry e → kListSeparator ∉ RenderMember e.
Proof.
  intros [Hk Hv]. apply valid_key_chars in Hk as [_ Hk]. apply valid_value_spec in Hv as (_ & Hv & _).
  unfold RenderMember. rewrite not_elem_of_app, not_elem_of_cons. split_and!; [|done|].
  - by apply (forallb_not_elem IsKeyChar).
  - by apply (forallb_not_elem IsValueChar).
Qed.

Lemma render_member_nonempty e : RenderMember e ≠ [].
Proof. unfold RenderMember. by destruct (key e). Qed.

Lemma render_member_trim e : wf_entry e → TrimOptionalWhitespace (RenderMember e) = RenderMember e.
Proof.
  intros [Hk Hv]. apply valid_key_chars in Hk as [Hne Hk]. apply valid_value_spec in Hv as (Hvne & _ & Hv).
  unfold RenderMember. apply trim_id.
  - rewrite starts_in_app by done. eapply starts_in_forallb; [|exact Hk].
    intros c Hc. by apply key_char_not_structural.
  - rewrite ends_in_app by done. change (?x :: value e) with ([x] ++ value e).
    by rewrite ends_in_app.
Qed.

Lemma parse_render_member e : wf_entry e → ParseMember (RenderMember e) = Some e.
Proof.
  intros [Hk Hv]. unfold ParseMember, RenderMember.
  rewrite find_char_app by (apply (forallb_not_elem IsKeyChar); [by apply valid_key_chars|done]).
  rewrite take_app_length, drop_past_app. simpl. rewrite Hk, Hv. by destruct e.
Qed.

Lemma parse_member_wf m e : ParseMember m = Some e → wf_entry e.
Proof.
  unfold ParseMember. destruct (find_char _ m); [|done]. split_if; [done|].
  intros [= <-]. bool_hyps. by split.
Qed.

(** ** Parser: soundness and the invariant *)

Lemma parse_loop_wf raw es es' :
  ParseMembers_loop raw es = Some es' →
  size es <= kMaxEntries → NoDup (key <$> es) → Forall wf_entry es →
  size es' <= kMaxEntries ∧ NoDup (key <$> es') ∧ Forall wf_entry es'.
Proof.
  revert es. induction raw as [|r raw IH]; simpl; intros es Heq Hsz Hnd Hwf.
  { by injection Heq as <-. }
  destruct (TrimOptionalWhitespace r) as [|c m]; [by eapply IH|].
  split_if; [done|]. bool_hyps. destruct (ParseMember (c :: m)) as [e|] eqn:Ep; [|done].
  split_if; [done|]. eapply IH; [exact Heq|..].
  - autorewrite with mt. change (size []) with 0. unfold kMaxEntries in *. lia.
  - rewrite fmap_app, NoDup_app. split_and!; [done| |apply NoDup_singleton].
    apply has_key_false in Heqb0. intros x Hx ->%list_elem_of_singleton. done.
  - apply Forall_app. split; [done|]. by repeat constructor; eapply parse_member_wf.
Qed.

Lemma FromHeader_wf_aux header : wf (FromHeader header).
Proof.
  unfold FromHeader, wf. destruct (ParseMembers header) as [[|e es]|] eqn:E; [done| |done].
  apply parse_loop_wf in E as (? & ? & ?); [|done|constructor|constructor]. by repeat split.
Qed.

Lemma parse_loop_render l acc :
  Forall wf_entry l → NoDup (key <$> acc ++ l) → size (acc ++ l) <= kMaxEntries →
  ParseMembers_loop (RenderMember <$> l) acc = Some (acc ++ l).
Proof.
  revert acc. induction l as [|e l IH]; intros acc Hwf Hnd Hsz; simpl.
  { by rewrite app_nil_r. }
  inversion_clear Hwf as [|? ? He Hl]. rewrite render_member_trim by done.
  destruct (RenderMember e) as [|c m] eqn:Er; [by apply render_member_nonempty in Er|].
  autorewrite with mt in Hsz. pose proof (size_nonneg l).
  destruct (size acc =? kMaxEntries) eqn:Es; bool_hyps; [lia|].
  rewrite <- Er, parse_render_member by done.
  assert (Contains acc (key e) = false) as ->.
  { apply has_key_false. rewrite fmap_app in Hnd. apply NoDup_app in Hnd as (_ & Hd & _).
    intros Hin. apply (Hd _ Hin). simpl. by left. }
  rewrite IH; rewrite <- ?app_assoc; simpl; try done.
  autorewrite with mt. lia.
Qed.

Lemma ToHeader_join l : ToHeader (mkTraceState (Some l)) = join kListSeparator (RenderMember <$> l).
Proof.
  unfold ToHeader. simpl. apply fold_append_sep_join.
  apply Forall_forall. intros. apply render_member_nonempty.
Qed.

Lemma FromHeader_ToHeader_aux s : wf s → FromHeader (ToHeader s) = s.
Proof.
  destruct s as [[l|]]; unfold wf; simpl; [|done].
  intros (Hne & Hsz & Hnd & Hwf). rewrite ToHeader_join.
  unfold FromHeader, ParseMembers. rewrite segments_join.
  - rewrite parse_loop_render by done. simpl. by destruct l.
  - apply Forall_fmap. eapply Forall_impl; [exact Hwf|]. intros e He. simpl.
    split; [apply render_member_nonempty|by apply render_member_comma].
Qed.

(** ** Mutators keep the invariant *)

Lemma Get_has s k : has_value (Get s k) = has_key key k (entries_of s).
Proof.
  unfold Get, entries_of. destruct (m_entries s) as [l|]; [|done]. simpl.
  rewrite find_key_has. by destruct (find_key key k l).
Qed.

Lemma Size_entries s : Size s = size (entries_of s).
Proof. unfold Size, entries_of. by destruct (m_entries s). Qed.

Lemma wf_entries_of s :
  wf s → size (entries_of s) <= kMaxEntries ∧ NoDup (key <$> entries_of s) ∧ Forall wf_entry (entries_of s).
Proof.
  unfold wf, entries_of. destruct (m_entries s); simpl; [by intros (_ & ?)|].
  intros _. by repeat constructor.
Qed.

Lemma AppendExcept_entries s k d :
  AppendExcept (m_entries s) k d = d ++ without_key key k (entries_of s).
Proof. unfold AppendExcept, entries_of. destruct (m_entries s); [done|]. cbn. by rewrite app_nil_r. Qed.

Lemma without_key_wf k l : Forall wf_entry l → Forall wf_entry (without_key key k l).
Proof. rewrite !Forall_forall. intros H e [He _]%without_key_elem. by apply H. Qed.

Lemma Set_wf_aux s k v : wf s → wf (Set_ s k v).
Proof.
  intros Hwf. pose proof (wf_entries_of s Hwf) as (Hsz & Hnd & He). unfold Set_.
  rewrite Get_has, Size_entries, AppendExcept_entries. split_if; [done|]. bool_hyps.
  unfold wf; simpl. split_and!; [done| | |].
  - autorewrite with mt. destruct (has_key key k (entries_of s)) eqn:Ek; simpl in *.
    + apply has_key_true in Ek. pose proof (without_key_length_has _ _ _ Hnd Ek). unfold size in *. lia.
    + bool_hyps. pose proof (without_key_length key k (entries_of s)).
      unfold size, kMaxEntries in *. lia.
  - simpl. apply NoDup_cons. split; [apply without_key_notin|by apply without_key_NoDup].
  - constructor; [by split|by apply without_key_wf].
Qed.

Lemma Erase_wf_aux s k : wf s → wf (Erase s k).
Proof.
  intros Hwf. pose proof (wf_entries_of s Hwf) as (Hsz & Hnd & He). unfold Erase.
  rewrite Get_has, Size_entries, AppendExcept_entries. split_if; [done|]. split_if; [done|].
  bool_hyps. apply has_key_true in Heqb. pose proof (without_key_length_has _ _ _ Hnd Heqb).
  unfold wf; simpl. split_and!.
  - unfold size in *. by destruct (without_key key k (entries_of s)); simpl in *; [lia|].
  - unfold size in *. lia.
  - by apply without_key_NoDup.
  - by apply without_key_wf.
Qed.

(** ** Specification of the parser and of the grammar *)

(** The non-blank members of a header, in order. *)
Definition members (header : str) : list str :=
  List.filter (λ m, negb (m =s [])) (TrimOptionalWhitespace <$> segments kListSeparator header).

(** What [FromHeader] promises: the members all parse, within the limits. *)
Definition well_formed_header (header : str) (l : list Entry) : Prop :=
  Forall2 (λ m e, ParseMember m = Some e) (members header) l
  ∧ NoDup (key <$> l) ∧ size l <= kMaxEntries.

Lemma parse_loop_spec raw acc res :
  NoDup (key <$> acc) → size acc <= kMaxEntries →
  ParseMembers_loop raw acc = Some res ↔
  ∃ l, res = acc ++ l
       ∧ Forall2 (λ m e, ParseMember m = Some e)
           (List.filter (λ m, negb (m =s [])) (TrimOptionalWhitespace <$> raw)) l
       ∧ NoDup (key <$> acc ++ l) ∧ size (acc ++ l) <= kMaxEntries.
Proof.
  revert acc. induction raw as [|r raw IH]; intros acc Hnd Hsz; simpl.
  { split.
    - intros [= <-]. exists []. rewrite app_nil_r. by repeat constructor.
    - intros (l & -> & Hl & _). inversion Hl. by rewrite app_nil_r. }
  destruct (TrimOptionalWhitespace r) as [|c m]; [by apply IH|].
  assert (((c :: m) =s []) = false) as -> by (apply seqb_false; done). simpl.
  split.
  - split_if; [done|]. destruct (ParseMember (c :: m)) as [e|] eqn:Ep; [|done].
    split_if; [done|]. intros H. apply IH in H.
    + destruct H as (l & -> & Hl & Hnd' & Hsz'). rewrite <- app_assoc in Hnd', Hsz' |- *.
      exists (e :: l). by repeat constructor.
    + rewrite fmap_app, NoDup_app. split_and!; [done| |apply NoDup_singleton].
      apply has_key_false in Heqb0. intros x Hx ->%list_elem_of_singleton. done.
    + autorewrite with mt. change (size []) with 0. bool_hyps. unfold kMaxEntries in *. lia.
  - intros (l & -> & Hl & Hnd' & Hsz'). inversion Hl as [|? e ? l' Hp Hl']; subst.
    assert (size acc < kMaxEntries) as Hlt.
    { autorewrite with mt in Hsz'. pose proof (size_nonneg l'). lia. }
    assert ((size acc =? kMaxEntries) = false) as -> by (apply Z.eqb_neq; lia).
    rewrite Hp. assert (Contains acc (key e) = false) as ->.
    { apply has_key_false. rewrite fmap_app in Hnd'. apply NoDup_app in Hnd' as (_ & Hd & _).
      intros Hin. apply (Hd _ Hin). simpl. by left. }
    rewrite cons_middle, app_assoc in Hnd', Hsz'. apply IH.
    + rewrite (fmap_app key (acc ++ [e]) l') in Hnd'. apply NoDup_app in Hnd' as [Hx _]. exact Hx.
    + autorewrite with mt. change (size []) with 0. lia.
    + exists l'. by rewrite <- app_assoc in *.
Qed.

(** The ABNF of W3C Trace Context section 3.3, [key]. *)
Inductive w3c_component (first : char → bool) (max : Z) : str → Prop :=
  | component_intro c t :
      first c = true → Forall (λ x, IsKeyTailChar x = true) t → size (c :: t) <= max →
      w3c_component first max (c :: t).
Inductive w3c_key : str → Prop :=
  | simple_key k : w3c_component IsLowerAlpha 256 k → w3c_key k
  | multi_tenant_key tenant system :
      w3c_component (λ c, IsLowerAlpha c || IsDigit c) 241 tenant →
      w3c_component IsLowerAlpha 14 system →
      w3c_key (tenant ++ kTenantSeparator :: system).

Lemma component_spec k m : IsLowerAlphaLedComponent k m = true ↔ w3c_component IsLowerAlpha m k.
Proof.
  unfold IsLowerAlphaLedComponent, HasValidKeyTail. split.
  - destruct k as [|c k]; [done|]. split_if; [done|]. intros H. bool_hyps.
    simpl in *. rewrite drop_0 in *. constructor; [done| |lia].
    apply Forall_forall. intros x Hx. by eapply forallb_elem.
  - intros [c t Hc Ht Hs]. assert ((m <? size (c :: t)) = false) as -> by (apply Z.ltb_ge; lia).
    simpl. rewrite Hc, drop_0. simpl. apply forallb_elem_2. by rewrite Forall_forall in Ht.
Qed.

Lemma tenant_spec k :
  IsTenantId k = true ↔ w3c_component (λ c, IsLowerAlpha c || IsDigit c) kMaxTenantIdChars k.
Proof.
  unfold IsTenantId, HasValidKeyTail. split.
  - destruct k as [|c k]; [done|]. split_if; [done|]. intros H. bool_hyps.
    simpl in *. rewrite drop_0 in *. constructor; [done| |lia].
    apply Forall_forall. intros x Hx. by eapply forallb_elem.
  - intros [c t Hc Ht Hs].
    assert ((kMaxTenantIdChars <? size (c :: t)) = false) as -> by (apply Z.ltb_ge; lia).
    simpl. rewrite Hc, drop_0. simpl. apply forallb_elem_2. by rewrite Forall_forall in Ht.
Qed.

Lemma component_no_at first m k :
  (∀ c, first c = true → c ≠ kTenantSeparator) → w3c_component first m k → kTenantSeparator ∉ k.
Proof.
  intros Hf [c t Hc Ht _]. apply not_elem_of_cons. split.
  - intros <-. by apply (Hf _ Hc).
  - rewrite Forall_forall in Ht. intros Hin. by specialize (Ht _ Hin).
Qed.

(** States reachable through the public surface. *)
Inductive reachable : TraceState → Prop :=
  | reach_default : reachable (mkTraceState None)
  | reach_header h : reachable (FromHeader h)
  | reach_set s k v : reachable s → reachable (Set_ s k v)
  | reach_erase s k : reachable s → reachable (Erase s k).

(** ** Claims *)

(** Every [TraceState] a caller can build, by parsing any header and then
    applying any sequence of [Set] and [Erase], satisfies the class invariant:
    null or a non-empty list of at most 32 entries, with valid and pairwise
    distinct keys and valid values. *)
Theorem trace_state_invariant s : reachable s → wf s.
Proof. induction 1; auto using FromHeader_wf_aux, Set_wf_aux, Erase_wf_aux. done. Qed.

Lemma trace_state_invariant_witness :
  wf (Erase (Set_ (FromHeader ($"rojo=00f067aa0ba902b7, congo=t61rcWkgMzE")) ($"es") ($"1")) ($"rojo")).
Proof. apply trace_state_invariant. repeat constructor. Defined.

(** Parsing the serialised form of a [TraceState] that satisfies the class
    invariant gives the same state back, entry for entry and in order. *)
Theorem trace_state_roundtrip s : wf s → FromHeader (ToHeader s) = s.
Proof. apply FromHeader_ToHeader_aux. Qed.

Lemma trace_state_roundtrip_witness :
  let s := mkTraceState (Some [mkEntry ($"fw529a3039@dt") ($"FfAAAAA 3"); mkEntry ($"es") ($"s:1")]) in
  wf s ∧ FromHeader (ToHeader s) = s.
Proof.
  assert (wf (mkTraceState (Some [mkEntry ($"fw529a3039@dt") ($"FfAAAAA 3"); mkEntry ($"es") ($"s:1")])))
    as Hwf.
  { split_and!; [done|vm_compute; discriminate| |].
    - apply NoDup_cons; split; [|apply NoDup_singleton]. vm_compute.
      intros H. apply list_elem_of_singleton in H. discriminate.
    - repeat constructor. }
  split; [exact Hwf|]. apply trace_state_roundtrip. exact Hwf.
Defined.

(** [FromHeader] is all-or-nothing. It yields the entry list [l] exactly when
    [l] is non-empty and every non-blank member of the header parses, in order,
    to the entries of [l], with no duplicate key and no more than 32 members; in
    every other case the whole header is discarded. *)
Theorem FromHeader_spec header l :
  FromHeader header = mkTraceState (Some l) ↔ l ≠ [] ∧ well_formed_header header l.
Proof.
  unfold FromHeader, ParseMembers, well_formed_header, members.
  pose proof (parse_loop_spec (segments kListSeparator header) []) as S. simpl in S.
  split.
  - intros H. destruct (ParseMembers_loop _ _) as [[|e es]|] eqn:E; [done| |done].
    injection H as <-. destruct (proj1 (S _ (NoDup_nil_2) ltac:(done)) eq_refl) as (l' & <- & ?). done.
  - intros (Hne & H1 & H2 & H3).
    assert (ParseMembers_loop (segments kListSeparator header) [] = Some l) as ->.
    { apply S; [constructor|done|]. by exists l. }
    by destruct l.
Qed.

(** [IsValidKey] decides the W3C [key] production: a simple key of at most 256
    characters, or a tenant id of at most 241, an at sign, and a system id of at
    most 14. *)
Theorem IsValidKey_abnf k : IsValidKey k = true ↔ w3c_key k.
Proof.
  unfold IsValidKey. split.
  - destruct (find_char _ k) as [n|] eqn:E; intros H.
    + bool_hyps. destruct (find_char_Some _ _ _ E) as [-> _].
      apply multi_tenant_key; [by apply tenant_spec|by apply component_spec].
    + by apply simple_key, component_spec.
  - intros [k' Hk|t sys Ht Hs].
    + assert (kTenantSeparator ∉ k') as Hn
        by (eapply component_no_at; [|exact Hk]; intros c Hc ->; done).
      apply find_char_None in Hn as ->. by apply component_spec.
    + rewrite find_char_app by (eapply component_no_at; [|exact Ht]; intros c Hc ->; done).
      rewrite take_app_length, drop_past_app. apply andb_true_iff.
      split; [by apply tenant_spec|by apply component_spec].
Qed.

(** [Set] on a state satisfying the invariant. A refused mutation (bad key, bad
    value, or a 33rd key) returns the state unchanged; otherwise the new member
    leads, the members under other keys follow in their old order, [Get] of the
    key is the new value and [Get] of any other key is unchanged. *)
Theorem Set_spec s k v :
  wf s →
  (if IsValidKey k && IsValidValue v
      && (has_value (Get s k) || (Size s <? kMaxEntries))
   then entries_of (Set_ s k v) = mkEntry k v :: without_key key k (entries_of s)
        ∧ Get (Set_ s k v) k = Some v
        ∧ ∀ j, j ≠ k → Get (Set_ s k v) j = Get s j
   else Set_ s k v = s).
Proof.
  intros Hwf. unfold Set_.
  destruct (IsValidKey k), (IsValidValue v); simpl; [|done..].
  rewrite Z.ltb_antisym. destruct (has_value (Get s k)) eqn:Eg; simpl.
  2: destruct (kMaxEntries <=? Size s) eqn:El; simpl; [done|].
  all: rewrite AppendExcept_entries; unfold Get at 1 2; simpl; split; [done|].
  all: unfold find_key at 1; simpl; rewrite seqb_refl; split; [done|intros j Hj].
  all: unfold find_key; simpl; rewrite (proj2 (seqb_false k j)) by done.
  all: change (value <$> find_key key j (without_key key k (entries_of s)) = Get s j).
  all: rewrite find_key_without by done; unfold Get, entries_of; by destruct (m_entries s).
Qed.

Lemma Set_spec_witness :
  Get (Set_ (FromHeader ($"a=1,b=2")) ($"b") ($"3")) ($"b") = Some ($"3").
Proof. exact (proj1 (proj2 (Set_spec (FromHeader ($"a=1,b=2")) ($"b") ($"3")
         (FromHeader_wf_aux ($"a=1,b=2"))))). Defined.
