(* ===== verification/Baggage.v ===== *)
(** * W3C [baggage]

    Model of [src/api/baggage.cpp] ([microtel::Baggage]): list-members with a
    percent-decoded value, an opaque canonical property tail and a cached
    serialised length; the per-member parser with its three limits; the
    percent codec; the serialiser and the copy-on-write mutators.  Null
    [m_impl] is [None].

    The theorems: the class invariant holds for everything reachable through
    the public surface; [FromHeader] inverts [ToHeader]; the cached lengths are
    exact, so the header written never exceeds the W3C limits; the percent codec
    is lossless on arbitrary octets; a malformed member never costs its
    neighbours; the behaviour of [Set_]. *)
From S2P Require Import Prelude.

(** [internal::BaggageImpl::Entry]. *)
Record Entry := mkEntry {
  key : str;
  value : str;
  properties : str;
  member_bytes : Z
}.

(** [Baggage]: [m_impl] is the shared list, [None] the null pointer. *)
Record Baggage := mkBaggage { m_impl : option (list Entry) }.

Definition kMaxEntries : Z := 180.
Definition kMaxEntryBytes : Z := 4096.
Definition kMaxTotalBytes : Z := 8192.
Definition kListSeparator : char := ",".
Definition kKeyValueSeparator : char := "=".
Definition kPropertySeparator : char := ";".
Definition kEscapePrefix : char := "%".
Definition kUpperHexDigits : str := $"0123456789ABCDEF".
Definition kTokenSpecials : str := $"!#$%&'*+-.^_`|~".
Definition kEscapeChars : Z := 3.

(** ** Grammar *)

Definition IsDigit (c : char) : bool := in_range "0" "9" c.
Definition IsAlpha (c : char) : bool := in_range "a" "z" c || in_range "A" "Z" c.
Definition IsTokenChar (c : char) : bool :=
  IsAlpha c || IsDigit c || match find_char c kTokenSpecials with Some _ => true | None => false end.
Definition IsToken (text : str) : bool :=
  match text with [] => false | _ => forallb IsTokenChar text end.

Definition IsBaggageOctet (c : char) : bool :=
  if (code c <? 33) || (126 <? code c) then false
  else negb (c =c "034") && negb (c =c kListSeparator) && negb (c =c kPropertySeparator)
       && negb (c =c "\").
Definition IsWireValue (text : str) : bool := forallb IsBaggageOctet text.
Definition IsOptionalWhitespace (c : char) : bool := (c =c " ") || (c =c "009").
Definition TrimOptionalWhitespace (text : str) : str := trim IsOptionalWhitespace text.

(** ** Percent codec *)

Definition IsHexDigit (c : char) : bool := IsDigit c || in_range "a" "f" c || in_range "A" "F" c.
Definition HexDigitValue (c : char) : Z :=
  if IsDigit c then code c - code "0"
  else let base := if in_range "a" "f" c then code "a" else code "A" in code c - base + 10.

(** [DecodeValue(raw, out)]; [None] is [return false]. *)
Fixpoint DecodeValue (raw : str) : option str :=
  match raw with
  | [] => Some []
  | c :: rest =>
      if negb (IsBaggageOctet c) then None
      else if negb (c =c kEscapePrefix) then cons c <$> DecodeValue rest
      else match rest with
           | high :: low :: rest' =>
               if negb (IsHexDigit high) || negb (IsHexDigit low) then None
               else cons (chr (Z.lor (Z.shiftl (HexDigitValue high) 4) (HexDigitValue low)))
                      <$> DecodeValue rest'
           | _ => None
           end
  end.

Definition NeedsEscape (c : char) : bool := negb (IsBaggageOctet c) || (c =c kEscapePrefix).

Fixpoint EncodedSize (decoded : str) : Z :=
  match decoded with
  | [] => 0
  | c :: rest => (if NeedsEscape c then kEscapeChars else 1) + EncodedSize rest
  end.

Definition hex_digit (n : Z) : char := nth (Z.to_nat n) kUpperHexDigits "0"%char.

(** [AppendEncoded(decoded, out)], as the text appended to [out]. *)
Fixpoint AppendEncoded (decoded : str) : str :=
  match decoded with
  | [] => []
  | c :: rest =>
      if negb (NeedsEscape c) then c :: AppendEncoded rest
      else let octet := code c in
           kEscapePrefix :: hex_digit (Z.land (Z.shiftr octet 4) 15)
             :: hex_digit (Z.land octet 15) :: AppendEncoded rest
  end.

(** ** Members *)

(** [AppendProperty(property, out)]; [None] is [return false]. *)
Definition AppendProperty (property out : str) : option str :=
  let equals := find_char kKeyValueSeparator property in
  let name := TrimOptionalWhitespace (substr_to property equals) in
  if negb (IsToken name) then None
  else match equals with
       | Some n =>
           let value := TrimOptionalWhitespace (drop (S n) property) in
           if negb (IsWireValue value) then None
           else Some (append_sep kPropertySeparator out (name ++ kKeyValueSeparator :: value))
       | None => Some (append_sep kPropertySeparator out name)
       end.

(** The loop of [ParseProperties] over the pieces it visits ([splits]). *)
Fixpoint ParseProperties_loop (pieces : list str) (out : str) : option str :=
  match pieces with
  | [] => Some out
  | p :: pieces' =>
      match AppendProperty (TrimOptionalWhitespace p) out with
      | None => None
      | Some out' => ParseProperties_loop pieces' out'
      end
  end.
Definition ParseProperties (tail : str) : option str :=
  ParseProperties_loop (splits kPropertySeparator tail) [].

Definition MakeEntry (k v props : str) : Entry :=
  let property_bytes := match props with [] => 0 | _ => 1 + size props end in
  mkEntry k v props (size k + 1 + EncodedSize v + property_bytes).

Definition ParseMember (member : str) : option Entry :=
  let semicolon := find_char kPropertySeparator member in
  let head := substr_to member semicolon in
  match find_char kKeyValueSeparator head with
  | None => None
  | Some equals =>
      let k := TrimOptionalWhitespace (take equals head) in
      if negb (IsToken k) then None
      else match DecodeValue (TrimOptionalWhitespace (drop (S equals) head)) with
           | None => None
           | Some v =>
               match semicolon with
               | None => Some (MakeEntry k v [])
               | Some n => match ParseProperties (drop (S n) member) with
                           | None => None
                           | Some props => Some (MakeEntry k v props)
                           end
               end
           end
  end.

Definition Contains (entries : list Entry) (k : str) : bool := has_key key k entries.

Definition TotalWith (total count member_bytes : Z) : Z :=
  let separator := if count =? 0 then 0 else 1 in total + separator + member_bytes.

(** The loop of [SerialisedSize], with its two counters. *)
Definition SerialisedSize (entries : list Entry) : Z :=
  fst (fold_left (λ '(total, count) e, (TotalWith total count (member_bytes e), count + 1))
         entries (0, 0)).

Inductive Admission := Accepted | Skipped | Stopped.

Definition Admit (candidate : Entry) (entries : list Entry) (total : Z) : Admission :=
  if kMaxEntryBytes <? member_bytes candidate then Skipped
  else if Contains entries (key candidate) then Skipped
  else if kMaxEntries <=? size entries then Stopped
  else if kMaxTotalBytes <? TotalWith total (size entries) (member_bytes candidate) then Stopped
  else Accepted.

(** The loop of [ParseMembers] over the raw members it visits ([segments]). *)
Fixpoint ParseMembers_loop (raw : list str) (total : Z) (entries : list Entry) : list Entry :=
  match raw with
  | [] => entries
  | r :: raw' =>
      let member := TrimOptionalWhitespace r in
      match (match member with [] => None | _ => ParseMember member end) with
      | None => ParseMembers_loop raw' total entries
      | Some entry =>
          match Admit entry entries total with
          | Stopped => entries
          | Skipped => ParseMembers_loop raw' total entries
          | Accepted =>
              ParseMembers_loop raw' (TotalWith total (size entries) (member_bytes entry))
                (entries ++ [entry])
          end
      end
  end.
Definition ParseMembers (header : str) : list Entry :=
  ParseMembers_loop (segments kListSeparator header) 0 [].

Definition Seal (entries : list Entry) : option (list Entry) :=
  match entries with [] => None | _ => Some entries end.

(** ** The class *)

Definition FromHeader (header : str) : Baggage := mkBaggage (Seal (ParseMembers header)).

Definition RenderMember (e : Entry) : str :=
  key e ++ kKeyValueSeparator :: AppendEncoded (value e)
  ++ match properties e with [] => [] | p => kPropertySeparator :: p end.
Definition ToHeader (b : Baggage) : str :=
  match m_impl b with
  | None => []
  | Some entries => fold_left (λ h e, append_sep kListSeparator h (RenderMember e)) entries []
  end.

Definition Get (b : Baggage) (k : str) : option str :=
  match m_impl b with
  | None => None
  | Some entries => value <$> find_key key k entries
  end.
Definition Size (b : Baggage) : Z :=
  match m_impl b with None => 0 | Some entries => size entries end.
Definition Empty (b : Baggage) : bool := Size b =? 0.
Definition has_value {A} (o : option A) : bool := match o with Some _ => true | None => false end.

(** [*existing = candidate] at the first entry with the key, else [push_back]. *)
Fixpoint assign_or_append (candidate : Entry) (entries : list Entry) : list Entry :=
  match entries with
  | [] => [candidate]
  | e :: entries' =>
      if key e =s key candidate then candidate :: entries'
      else e :: assign_or_append candidate entries'
  end.

(** [Baggage::Set]. *)
Definition Set_ (b : Baggage) (k v : str) : Baggage :=
  let replaces_existing := has_value (Get b k) in
  if negb (IsToken k) || (negb replaces_existing && (kMaxEntries <=? Size b)) then b
  else
    let candidate := MakeEntry k v [] in
    if kMaxEntryBytes <? member_bytes candidate then b
    else
      let entries := assign_or_append candidate (default [] (m_impl b)) in
      if kMaxTotalBytes <? SerialisedSize entries then b
      else mkBaggage (Seal entries).

Definition Erase (b : Baggage) (k : str) : Baggage :=
  if negb (has_value (Get b k)) then b
  else mkBaggage (Seal (without_key key k (default [] (m_impl b)))).

(** ** Percent codec facts *)

Lemma escape_roundtrip c :
  let h := hex_digit (Z.land (Z.shiftr (code c) 4) 15) in
  let l := hex_digit (Z.land (code c) 15) in
  IsHexDigit h = true ∧ IsHexDigit l = true
  ∧ IsBaggageOctet h = true ∧ IsBaggageOctet l = true
  ∧ chr (Z.lor (Z.shiftl (HexDigitValue h) 4) (HexDigitValue l)) = c.
Proof.
  pose (P := λ c,
    let h := hex_digit (Z.land (Z.shiftr (code c) 4) 15) in
    let l := hex_digit (Z.land (code c) 15) in
    IsHexDigit h && IsHexDigit l && IsBaggageOctet h && IsBaggageOctet l
    && (chr (Z.lor (Z.shiftl (HexDigitValue h) 4) (HexDigitValue l)) =c c)).
  assert (P c = true) as H by (apply (forall_octets P); vm_compute; reflexivity).
  unfold P in H. cbv zeta in *. bool_hyps. split_and!; try done. by apply ceqb_true.
Qed.

Lemma DecodeValue_escape h l rest :
  IsHexDigit h = true → IsHexDigit l = true →
  DecodeValue (kEscapePrefix :: h :: l :: rest)
  = cons (chr (Z.lor (Z.shiftl (HexDigitValue h) 4) (HexDigitValue l))) <$> DecodeValue rest.
Proof. intros Hh Hl. cbn [DecodeValue]. by rewrite Hh, Hl. Qed.

Lemma DecodeValue_plain c rest :
  NeedsEscape c = false → DecodeValue (c :: rest) = cons c <$> DecodeValue rest.
Proof. unfold NeedsEscape. intros E. bool_hyps. cbn [DecodeValue]. by rewrite H, H0. Qed.

Lemma decode_encode v : DecodeValue (AppendEncoded v) = Some v.
Proof.
  induction v as [|c v IH]; [done|]. cbn [AppendEncoded].
  destruct (NeedsEscape c) eqn:E; cbn [negb].
  - destruct (escape_roundtrip c) as (Hh & Hl & _ & _ & Hc).
    rewrite DecodeValue_escape by done. rewrite Hc, IH. done.
  - rewrite DecodeValue_plain by done. by rewrite IH.
Qed.

Lemma encoded_size v : size (AppendEncoded v) = EncodedSize v.
Proof.
  induction v as [|c v IH]; [done|]. cbn [AppendEncoded EncodedSize].
  destruct (NeedsEscape c); cbn [negb]; autorewrite with mt; rewrite IH; unfold kEscapeChars; lia.
Qed.

Lemma encoded_octets v : forallb IsBaggageOctet (AppendEncoded v) = true.
Proof.
  induction v as [|c v IH]; [done|]. cbn [AppendEncoded].
  destruct (NeedsEscape c) eqn:E; cbn [negb forallb].
  - destruct (escape_roundtrip c) as (_ & _ & Hh & Hl & _). by rewrite Hh, Hl, IH.
  - unfold NeedsEscape in E. bool_hyps. rewrite H. done.
Qed.

(** ** Character classes *)

Lemma token_char_facts c :
  IsTokenChar c = true →
  (c =c kListSeparator) = false ∧ (c =c kKeyValueSeparator) = false
  ∧ (c =c kPropertySeparator) = false ∧ IsOptionalWhitespace c = false.
Proof.
  by_octet_cases c (λ c, implb (IsTokenChar c) (negb (c =c kListSeparator)
    && negb (c =c kKeyValueSeparator) && negb (c =c kPropertySeparator)
    && negb (IsOptionalWhitespace c))).
Qed.

Lemma octet_facts c :
  IsBaggageOctet c = true →
  (c =c kListSeparator) = false ∧ (c =c kPropertySeparator) = false ∧ IsOptionalWhitespace c = false.
Proof.
  by_octet_cases c (λ c, implb (IsBaggageOctet c) (negb (c =c kListSeparator)
    && negb (c =c kPropertySeparator) && negb (IsOptionalWhitespace c))).
Qed.

Lemma token_chars k : IsToken k = true → k ≠ [] ∧ forallb IsTokenChar k = true.
Proof. by destruct k. Qed.

Lemma trim_token k : IsToken k = true → TrimOptionalWhitespace k = k.
Proof.
  intros [_ Hk]%token_chars. apply trim_id.
  - eapply starts_in_forallb; [|exact Hk]. intros c Hc. by apply token_char_facts.
  - eapply ends_in_forallb; [|exact Hk]. intros c Hc. by apply token_char_facts.
Qed.

Lemma trim_octets v : forallb IsBaggageOctet v = true → TrimOptionalWhitespace v = v.
Proof.
  intros Hv. apply trim_id.
  - eapply starts_in_forallb; [|exact Hv]. intros c Hc. by apply octet_facts.
  - eapply ends_in_forallb; [|exact Hv]. intros c Hc. by apply octet_facts.
Qed.

(** ** Canonical property tails *)

(** [property = key] or [property = key "=" value], without whitespace. *)
Definition canonical_prop (p : str) : Prop :=
  ∃ name rest, IsToken name = true ∧ p = name ++ rest
    ∧ (rest = [] ∨ ∃ v, IsWireValue v = true ∧ rest = kKeyValueSeparator :: v).
Definition canonical_properties (p : str) : Prop :=
  ∃ ps, Forall canonical_prop ps ∧ p = join kPropertySeparator ps.

Lemma canonical_prop_chars p :
  canonical_prop p →
  p ≠ [] ∧ kListSeparator ∉ p ∧ kPropertySeparator ∉ p ∧ TrimOptionalWhitespace p = p.
Proof.
  intros (name & rest & Hn & -> & Hr). apply token_chars in Hn as [Hne Hn].
  assert (∀ c, c ∈ name ++ rest → IsTokenChar c = true ∨ c = kKeyValueSeparator ∨ IsBaggageOctet c = true) as Hc.
  { intros c [H|H]%elem_of_app.
    - left. by eapply forallb_elem.
    - destruct Hr as [->|(v & Hv & ->)]; [by apply elem_of_nil in H|].
      apply elem_of_cons in H as [->|H]; [auto|]. right; right.
      by eapply forallb_elem. }
  assert (∀ c, IsTokenChar c = true ∨ c = kKeyValueSeparator ∨ IsBaggageOctet c = true →
               (c =c kListSeparator) = false ∧ (c =c kPropertySeparator) = false
               ∧ IsOptionalWhitespace c = false) as Hf.
  { intros c [H|[->|H]]; [by apply token_char_facts in H as (? & ? & ? & ?)|done|by apply octet_facts]. }
  split_and!.
  - by destruct name.
  - intros H%Hc%Hf. by destruct H.
  - intros H%Hc%Hf. by destruct H as (_ & ? & _).
  - assert (forallb (λ c, negb (IsOptionalWhitespace c)) (name ++ rest) = true) as Hw.
    { apply forallb_elem_2. intros c H%Hc%Hf. by destruct H as (_ & _ & ->). }
    apply trim_id; [eapply starts_in_forallb|eapply ends_in_forallb]; try exact Hw.
    all: intros c; apply negb_true_iff.
Qed.

Lemma AppendProperty_canonical p out :
  canonical_prop p → AppendProperty p out = Some (append_sep kPropertySeparator out p).
Proof.
  intros (name & rest & Hn & -> & Hr). apply token_chars in Hn as Hn'. destruct Hn' as [_ Hc].
  assert (kKeyValueSeparator ∉ name) as Heq by (by apply (forallb_not_elem IsTokenChar)).
  unfold AppendProperty. destruct Hr as [->|(v & Hv & ->)].
  - rewrite app_nil_r. apply find_char_None in Heq as ->. simpl. by rewrite trim_token, Hn.
  - rewrite find_char_app by done. simpl. rewrite take_app_length, drop_past_app.
    rewrite trim_token, Hn by done. simpl. by rewrite trim_octets, Hv.
Qed.

Lemma ParseProperties_loop_canonical ps out :
  Forall canonical_prop ps →
  ParseProperties_loop ps out = Some (fold_left (λ h p, append_sep kPropertySeparator h p) ps out).
Proof.
  intros H. revert out. induction H as [|p ps Hp _ IH]; intros out; [done|]. simpl.
  rewrite (proj2 (proj2 (proj2 (canonical_prop_chars p Hp)))).
  by rewrite AppendProperty_canonical.
Qed.

Lemma ParseProperties_canonical p :
  p ≠ [] → canonical_properties p → ParseProperties p = Some p.
Proof.
  intros Hne (ps & Hps & ->). unfold ParseProperties.
  rewrite splits_join; [|by intros ->|eapply Forall_impl; [exact Hps|by intros ? (?&?&?&?)%canonical_prop_chars]].
  rewrite ParseProperties_loop_canonical by done. f_equal.
  rewrite (fold_append_sep_join _ id), list_fmap_id; [done|].
  eapply Forall_impl; [exact Hps|]. by intros ? (?&_)%canonical_prop_chars.
Qed.

Lemma AppendProperty_sound p out out' :
  AppendProperty p out = Some out' →
  ∃ q, canonical_prop q ∧ out' = append_sep kPropertySeparator out q.
Proof.
  unfold AppendProperty. cbv zeta. split_if; [done|]. bool_hyps.
  destruct (find_char _ p) as [n|]; simpl in *.
  - split_if; [done|]. intros [= <-]. bool_hyps. eexists. split; [|done].
    eexists _, _. split; [exact Heqb|]. split; [done|]. right. eauto.
  - intros [= <-]. eexists. split; [|done]. eexists _, []. rewrite app_nil_r. eauto.
Qed.

Lemma append_sep_join ps q :
  Forall canonical_prop ps →
  append_sep kPropertySeparator (join kPropertySeparator ps) q = join kPropertySeparator (ps ++ [q]).
Proof.
  intros H. induction H as [|p ps Hp Hps IH]; [done|].
  apply canonical_prop_chars in Hp as (Hne & _). destruct ps as [|p' ps]; cbn [app join] in *.
  - unfold append_sep. by destruct p; [|rewrite <- app_assoc].
  - rewrite <- IH. unfold append_sep at 1. destruct (p ++ _) eqn:E; [by destruct p|].
    rewrite <- E. rewrite <- !app_assoc. cbn [app]. do 2 f_equal.
    unfold append_sep. inversion Hps as [|? ? Hp' _]; subst.
    apply canonical_prop_chars in Hp' as (Hne' & _).
    destruct p' as [|c p']; [done|]. destruct ps; cbn; by rewrite <- ?app_assoc.
Qed.

Lemma ParseProperties_loop_sound pieces out res :
  ParseProperties_loop pieces out = Some res → canonical_properties out → canonical_properties res.
Proof.
  revert out. induction pieces as [|p pieces IH]; simpl; intros out H Hout; [by injection H as <-|].
  destruct (AppendProperty _ out) as [out'|] eqn:E; [|done].
  apply AppendProperty_sound in E as (q & Hq & ->). eapply IH; [exact H|].
  destruct Hout as (ps & Hps & ->). rewrite append_sep_join by done.
  exists (ps ++ [q]). split; [|done]. apply Forall_app. by repeat constructor.
Qed.

Lemma ParseProperties_sound tail res : ParseProperties tail = Some res → canonical_properties res.
Proof. intros H. eapply ParseProperties_loop_sound; [exact H|]. by exists []. Qed.

Lemma canonical_no_comma p : canonical_properties p → kListSeparator ∉ p.
Proof.
  intros (ps & Hps & ->). induction Hps as [|q ps Hq _ IH]; [apply not_elem_of_nil|].
  apply canonical_prop_chars in Hq as (_ & Hq & _). destruct ps; [done|].
  cbn [join]. rewrite not_elem_of_app, not_elem_of_cons. done.
Qed.

(** ** Invariant *)

Definition wf_entry (e : Entry) : Prop :=
  IsToken (key e) = true ∧ canonical_properties (properties e)
  ∧ e = MakeEntry (key e) (value e) (properties e) ∧ member_bytes e <= kMaxEntryBytes.
Definition wf_list (l : list Entry) : Prop :=
  size l <= kMaxEntries ∧ NoDup (key <$> l) ∧ Forall wf_entry l
  ∧ SerialisedSize l <= kMaxTotalBytes.
(** The class invariant. *)
Definition wf (b : Baggage) : Prop :=
  match m_impl b with None => True | Some l => l ≠ [] ∧ wf_list l end.
Definition entries_of (b : Baggage) : list Entry := default [] (m_impl b).

(** ** One member *)

Lemma MakeEntry_bytes e :
  e = MakeEntry (key e) (value e) (properties e) → member_bytes e = size (RenderMember e).
Proof.
  intros ->. unfold RenderMember, MakeEntry. cbn [key value properties member_bytes].
  autorewrite with mt. rewrite encoded_size.
  destruct (properties e); autorewrite with mt; [change (size []) with 0|]; lia.
Qed.

Lemma bag_render_member_nonempty e : RenderMember e ≠ [].
Proof. unfold RenderMember. by destruct (key e). Qed.

Lemma head_chars e c :
  IsToken (key e) = true → c ∈ key e ++ kKeyValueSeparator :: AppendEncoded (value e) →
  (c =c kListSeparator) = false ∧ (c =c kPropertySeparator) = false ∧ IsOptionalWhitespace c = false.
Proof.
  intros [_ Hk]%token_chars [H|[->|H]%elem_of_cons]%elem_of_app; [| done |].
  - by apply (forallb_elem _ _ _ Hk), token_char_facts in H as (? & ? & ? & ?).
  - apply octet_facts. eapply forallb_elem; [apply encoded_octets|done].
Qed.

Lemma bag_render_member_comma e : wf_entry e → kListSeparator ∉ RenderMember e.
Proof.
  intros (Hk & Hp & _ & _). unfold RenderMember.
  rewrite app_comm_cons, app_assoc, not_elem_of_app. split.
  - intros [H _]%head_chars; done.
  - destruct (properties e) eqn:E; [apply not_elem_of_nil|]. rewrite not_elem_of_cons.
    split; [done|]. rewrite <- E in *. by apply canonical_no_comma.
Qed.

Lemma canonical_ends p :
  p ≠ [] → canonical_properties p → ends_in IsOptionalWhitespace p = false.
Proof.
  intros Hne (ps & Hps & ->). revert Hne. induction Hps as [|q ps Hq Hps IH]; [done|]. intros _.
  apply canonical_prop_chars in Hq as (Hne & _ & _ & Ht). destruct ps as [|r ps].
  - simpl. rewrite <- Ht. apply trim_ends.
  - cbn [join]. rewrite ends_in_app by done. change (?x :: ?y) with ([x] ++ y).
    assert (join kPropertySeparator (r :: ps) ≠ []) as Hj.
    { inversion Hps as [|? ? Hr _]; subst. apply canonical_prop_chars in Hr as (? & _).
      destruct r; [done|]. by destruct ps. }
    rewrite ends_in_app by done. by apply IH.
Qed.

Lemma bag_render_member_trim e : wf_entry e → TrimOptionalWhitespace (RenderMember e) = RenderMember e.
Proof.
  intros (Hk & Hp & _ & _). unfold RenderMember. apply trim_id.
  - apply token_chars in Hk as [Hne Hk]. rewrite starts_in_app by done.
    eapply starts_in_forallb; [|exact Hk]. intros c Hc. by apply token_char_facts.
  - rewrite app_comm_cons, app_assoc. destruct (properties e) as [|c p] eqn:E.
    + rewrite app_nil_r. eapply (ends_in_forallb _ (λ c, negb (IsOptionalWhitespace c))).
      { intros c. apply negb_true_iff. }
      apply forallb_elem_2. intros c Hc. apply negb_true_iff. by eapply head_chars.
    + rewrite ends_in_app by done. change (?x :: c :: p) with ([x] ++ (c :: p)).
      rewrite ends_in_app by done. by apply canonical_ends.
Qed.

Lemma bag_parse_render_member e : wf_entry e → ParseMember (RenderMember e) = Some e.
Proof.
  intros (Hk & Hp & He & _). unfold ParseMember, RenderMember.
  rewrite app_comm_cons, app_assoc.
  set (head := key e ++ kKeyValueSeparator :: AppendEncoded (value e)).
  assert (kPropertySeparator ∉ head) as Hsemi by (intros (_ & H & _)%head_chars; done).
  assert (find_char kKeyValueSeparator head = Some (length (key e))) as Hfind.
  { apply find_char_app. apply token_chars in Hk as [_ ?]. by apply (forallb_not_elem IsTokenChar). }
  assert (take (length (key e)) head = key e) as Htake by apply take_app_length.
  assert (drop (S (length (key e))) head = AppendEncoded (value e)) as Hdrop by apply drop_past_app.
  destruct (properties e) as [|c p] eqn:Ep.
  - rewrite app_nil_r. apply find_char_None in Hsemi as ->. simpl.
    rewrite Hfind, Htake, Hdrop, trim_token, Hk by done. simpl.
    rewrite trim_octets, decode_encode by apply encoded_octets. by f_equal.
  - rewrite find_char_app by done. simpl substr_to. rewrite take_app_length, drop_past_app.
    rewrite Hfind, Htake, Hdrop, trim_token, Hk by done. simpl.
    rewrite trim_octets, decode_encode by apply encoded_octets.
    rewrite ParseProperties_canonical by done. by f_equal.
Qed.

Lemma MakeEntry_eta k v p :
  MakeEntry k v p = MakeEntry (key (MakeEntry k v p)) (value (MakeEntry k v p)) (properties (MakeEntry k v p)).
Proof. done. Qed.

Lemma bag_parse_member_wf m e :
  ParseMember m = Some e → member_bytes e <= kMaxEntryBytes → wf_entry e.
Proof.
  unfold ParseMember. cbv zeta. intros H Hb. unfold wf_entry.
  destruct (find_char kKeyValueSeparator _) as [n|]; [|done].
  destruct (IsToken _) eqn:Hk; [|done]. cbn [negb] in H.
  destruct (DecodeValue _) as [v|]; [|done]. destruct (find_char kPropertySeparator m) as [i|].
  - destruct (ParseProperties _) as [props|] eqn:Ep; [|done]. injection H as <-. cbn in Hb |- *.
    split_and!; [done|by eapply ParseProperties_sound|done|done].
  - injection H as <-. cbn in Hb |- *. split_and!; [done|by exists []|done|done].
Qed.

(** ** Sizes *)

Lemma SerialisedSize_snoc l e :
  SerialisedSize (l ++ [e]) = TotalWith (SerialisedSize l) (size l) (member_bytes e).
Proof.
  assert (∀ l t c, snd (fold_left (λ '(total, count) e,
             (TotalWith total count (member_bytes e), count + 1)) l (t, c)) = c + size l) as Hc.
  { clear. induction l as [|x l IH]; intros t c; [unfold size; simpl; lia|].
    cbn [fold_left]. rewrite IH. autorewrite with mt. lia. }
  unfold SerialisedSize. rewrite fold_left_app. specialize (Hc l 0 0).
  destruct (fold_left _ l (0, 0)) as [t c]. cbn in *. by subst.
Qed.

Lemma SerialisedSize_exact l :
  Forall (λ e, e = MakeEntry (key e) (value e) (properties e)) l →
  SerialisedSize l = size (join kListSeparator (RenderMember <$> l)).
Proof.
  induction l as [|e l IH] using rev_ind; [done|]. intros [Hl He]%Forall_app.
  inversion_clear He as [|? ? He' _]. rewrite SerialisedSize_snoc, (MakeEntry_bytes e He'), IH by done.
  unfold TotalWith. rewrite fmap_app. clear. destruct l as [|x l]; [done|].
  assert ((size (x :: l) =? 0) = false) as -> by (autorewrite with mt; pose proof (size_nonneg l); apply Z.eqb_neq; lia).
  revert x. induction l as [|y l IH]; intros x.
  - cbn [fmap list_fmap app join]. autorewrite with mt. lia.
  - cbn [fmap list_fmap app join] in *. autorewrite with mt. specialize (IH y). lia.
Qed.

Lemma SerialisedSize_prefix l k :
  Forall (λ e, 0 <= member_bytes e) k → SerialisedSize l <= SerialisedSize (l ++ k).
Proof.
  induction k as [|e k IH] using rev_ind; [intros; rewrite app_nil_r; lia|].
  intros [Hk He]%Forall_app. inversion_clear He as [|? ? He' _].
  rewrite app_assoc, SerialisedSize_snoc. unfold TotalWith. specialize (IH Hk). split_if; lia.
Qed.

Lemma wf_member_nonneg l : Forall wf_entry l → Forall (λ e, 0 <= member_bytes e) l.
Proof.
  intros H. eapply Forall_impl; [exact H|]. intros e (_ & _ & He & _). simpl.
  rewrite (MakeEntry_bytes e He). apply size_nonneg.
Qed.

(** ** The parser *)

Lemma bag_parse_loop_wf raw total es :
  total = SerialisedSize es → wf_list es → wf_list (ParseMembers_loop raw total es).
Proof.
  revert total es. induction raw as [|r raw IH]; simpl; intros total es Ht Hwf; [done|].
  destruct (match TrimOptionalWhitespace r with [] => None | _ => _ end) as [e|] eqn:Em; [|by apply IH].
  destruct (Admit e es total) eqn:Ea; [|by apply IH|done].
  unfold Admit in Ea. repeat (split_if; try discriminate; []). bool_hyps.
  destruct Hwf as (Hsz & Hnd & He & Htot). apply IH; [by rewrite SerialisedSize_snoc, Ht|].
  split_and!.
  - autorewrite with mt. change (size []) with 0. lia.
  - rewrite fmap_app, NoDup_app. split_and!; [done| |apply NoDup_singleton].
    apply has_key_false in Heqb0. intros x Hx ->%list_elem_of_singleton. done.
  - apply Forall_app. split; [done|]. constructor; [|done].
    destruct (TrimOptionalWhitespace r); [done|]. eapply bag_parse_member_wf; [exact Em|lia].
  - by rewrite SerialisedSize_snoc, <- Ht.
Qed.

Lemma Seal_wf l : wf_list l → wf (mkBaggage (Seal l)).
Proof. intros H. unfold wf, Seal; simpl. by destruct l. Qed.

Lemma wf_list_nil : wf_list [].
Proof. split_and!; (done || constructor). Qed.

Lemma bag_FromHeader_wf_aux header : wf (FromHeader header).
Proof. apply Seal_wf, bag_parse_loop_wf; [done|apply wf_list_nil]. Qed.

Lemma bag_wf_entries_of b : wf b → wf_list (entries_of b).
Proof. unfold wf, entries_of. destruct (m_impl b); simpl; [by intros []|]. intros _. apply wf_list_nil. Qed.

Lemma bag_parse_loop_render l acc :
  wf_list (acc ++ l) →
  ParseMembers_loop (RenderMember <$> l) (SerialisedSize acc) acc = acc ++ l.
Proof.
  revert acc. induction l as [|e l IH]; intros acc Hwf; simpl; [by rewrite app_nil_r|].
  pose proof Hwf as (Hsz & Hnd & Hent & Htot).
  pose proof Hent as [_ Hel]%Forall_app. inversion Hel as [|? ? He Hl]; subst.
  rewrite bag_render_member_trim by done.
  destruct (RenderMember e) as [|c m] eqn:Er; [by apply bag_render_member_nonempty in Er|].
  rewrite <- Er, bag_parse_render_member by done.
  assert (Admit e acc (SerialisedSize acc) = Accepted) as ->.
  { unfold Admit. destruct He as (_ & _ & _ & Hb).
    rewrite (proj2 (Z.ltb_ge _ _)) by done.
    rewrite fmap_app in Hnd. apply NoDup_app in Hnd as (_ & Hd & _).
    assert (Contains acc (key e) = false) as ->.
    { apply has_key_false. intros Hin. apply (Hd _ Hin). simpl. by left. }
    autorewrite with mt in Hsz. pose proof (size_nonneg l).
    rewrite (proj2 (Z.leb_gt _ _)) by lia.
    rewrite <- SerialisedSize_snoc. rewrite cons_middle, app_assoc in Htot.
    pose proof (SerialisedSize_prefix (acc ++ [e]) l (wf_member_nonneg _ Hl)).
    by rewrite (proj2 (Z.ltb_ge _ _)) by lia. }
  rewrite <- SerialisedSize_snoc, IH; by rewrite <- app_assoc.
Qed.

Lemma bag_ToHeader_join l : ToHeader (mkBaggage (Some l)) = join kListSeparator (RenderMember <$> l).
Proof.
  unfold ToHeader. simpl. apply fold_append_sep_join.
  apply Forall_forall. intros. apply bag_render_member_nonempty.
Qed.

Lemma bag_FromHeader_ToHeader_aux b : wf b → FromHeader (ToHeader b) = b.
Proof.
  destruct b as [[l|]]; unfold wf; simpl; [|done]. intros [Hne Hwf]. rewrite bag_ToHeader_join.
  unfold FromHeader, ParseMembers. rewrite segments_join.
  - change 0 with (SerialisedSize []). rewrite (bag_parse_loop_render l []) by done. by destruct l.
  - destruct Hwf as (_ & _ & Hwf & _). apply Forall_fmap. eapply Forall_impl; [exact Hwf|].
    intros e He. simpl. split; [apply bag_render_member_nonempty|by apply bag_render_member_comma].
Qed.

(** ** Mutators *)

Lemma assign_or_append_keys e l :
  key <$> assign_or_append e l
  = if has_key key (key e) l then key <$> l else (key <$> l) ++ [key e].
Proof.
  unfold has_key. induction l as [|x l IH]; [done|]. cbn [assign_or_append existsb].
  destruct (key x =s key e) eqn:E; cbn [orb].
  - apply seqb_true in E. cbn. by rewrite E.
  - cbn. rewrite IH. by destruct (existsb _ l).
Qed.

Lemma assign_or_append_Forall (P : Entry → Prop) e l :
  P e → Forall P l → Forall P (assign_or_append e l).
Proof.
  intros He. induction 1 as [|x l Hx Hl IH]; cbn; [by repeat constructor|].
  destruct (_ =s _); by constructor.
Qed.

Lemma find_assign_or_append e l k :
  find_key key k (assign_or_append e l) = if key e =s k then Some e else find_key key k l.
Proof.
  unfold find_key. induction l as [|x l IH]; cbn; [done|].
  destruct (key x =s key e) eqn:E; cbn.
  - apply seqb_true in E. rewrite E. by destruct (key e =s k).
  - rewrite IH. destruct (key x =s k) eqn:Ek; [|done].
    apply seqb_true in Ek. subst k. apply seqb_false in E.
    assert ((key e =s key x) = false) as -> by (apply seqb_false; congruence). done.
Qed.

Lemma assign_or_append_nonempty e l : assign_or_append e l ≠ [].
Proof. destruct l; cbn; [done|]. by destruct (_ =s _). Qed.

Lemma Get_find b k : Get b k = value <$> find_key key k (entries_of b).
Proof. unfold Get, entries_of. by destruct (m_impl b). Qed.
Lemma Size_size b : Size b = size (entries_of b).
Proof. unfold Size, entries_of. by destruct (m_impl b). Qed.
Lemma has_value_has_key b k : has_value (Get b k) = has_key key k (entries_of b).
Proof. rewrite Get_find, find_key_has. by destruct (find_key _ _ _). Qed.

Lemma assign_or_append_wf e l :
  wf_entry e → wf_list l → (has_key key (key e) l = true ∨ size l < kMaxEntries) →
  SerialisedSize (assign_or_append e l) <= kMaxTotalBytes → wf_list (assign_or_append e l).
Proof.
  intros He (Hsz & Hnd & Hl & _) Hroom Htot. split_and!; [| |by apply assign_or_append_Forall|done].
  - rewrite <- (size_fmap key), assign_or_append_keys.
    destruct (has_key _ _ _); [by rewrite size_fmap|]. destruct Hroom as [?|Hroom]; [done|].
    autorewrite with mt. rewrite size_fmap. change (size []) with 0. lia.
  - rewrite assign_or_append_keys. destruct (has_key _ _ _) eqn:Ek; [done|].
    apply has_key_false in Ek. rewrite NoDup_app. split_and!; [done| |apply NoDup_singleton].
    intros x Hx ->%list_elem_of_singleton. done.
Qed.

Lemma Set_wf b k v : wf b → wf (Set_ b k v).
Proof.
  intros Hb. unfold Set_. destruct (negb _ || _) eqn:Eg; [done|].
  destruct (kMaxEntryBytes <? _) eqn:Eb; [done|]. cbv zeta.
  destruct (kMaxTotalBytes <? _) eqn:Et; [done|]. bool_hyps.
  rewrite has_value_has_key, Size_size in *. fold (entries_of b) in *.
  apply Seal_wf, assign_or_append_wf; [|by apply bag_wf_entries_of| |done].
  - unfold wf_entry. cbn in *. split_and!; [done|by exists []|done|done].
  - cbn. destruct (has_key _ _ _); [by left|right]. cbn in *. bool_hyps. done.
Qed.

Lemma TotalWith_mono t t' c c' x :
  t <= t' → 0 <= c <= c' → TotalWith t c x <= TotalWith t' c' x.
Proof.
  intros. unfold TotalWith. destruct (Z.eqb_spec c 0), (Z.eqb_spec c' 0); lia.
Qed.

Lemma SerialisedSize_without k l :
  Forall (λ e, 0 <= member_bytes e) l → SerialisedSize (without_key key k l) <= SerialisedSize l.
Proof.
  induction l as [|e l IH] using rev_ind; [reflexivity|]. intros [Hl He]%Forall_app.
  specialize (IH Hl). inversion He as [|? ? He' _]; subst. unfold without_key in *.
  rewrite List.filter_app. cbn [List.filter]. rewrite SerialisedSize_snoc.
  destruct (negb _).
  - rewrite SerialisedSize_snoc. apply TotalWith_mono; [done|].
    pose proof (List.filter_length_le (λ a, negb (key a =s k)) l). unfold size. lia.
  - rewrite app_nil_r. unfold TotalWith. split_if; lia.
Qed.

Lemma Erase_wf b k : wf b → wf (Erase b k).
Proof.
  intros Hb. unfold Erase. split_if; [done|]. fold (entries_of b).
  destruct (bag_wf_entries_of b Hb) as (Hsz & Hnd & Hl & Ht). apply Seal_wf. split_and!.
  - pose proof (without_key_length key k (entries_of b)). unfold size in *. lia.
  - by apply without_key_NoDup.
  - apply Forall_forall. intros e [He _]%without_key_elem. by eapply Forall_forall in Hl.
  - pose proof (SerialisedSize_without k _ (wf_member_nonneg _ Hl)). lia.
Qed.

(** Everything the public surface can build: the default-constructed baggage, a
    parsed header and the two mutators. *)
Inductive reachable : Baggage → Prop :=
| reach_empty : reachable (mkBaggage None)
| reach_header h : reachable (FromHeader h)
| reach_set b k v : reachable b → reachable (Set_ b k v)
| reach_erase b k : reachable b → reachable (Erase b k).

Lemma reachable_wf b : reachable b → wf b.
Proof.
  induction 1; [done|apply bag_FromHeader_wf_aux|by apply Set_wf|by apply Erase_wf].
Qed.

Lemma wf_header_size b : wf b → size (ToHeader b) = SerialisedSize (entries_of b).
Proof.
  destruct b as [[l|]]; [|done]. intros [_ (_ & _ & Hl & _)]. rewrite bag_ToHeader_join.
  symmetry. apply SerialisedSize_exact. eapply Forall_impl; [exact Hl|]. by intros e (_ & _ & ? & _).
Qed.

(** Every [Baggage] reachable through the public surface holds at most
    180 entries with distinct token keys, canonical property tails and exact
    cached lengths of at most 4096 octets, and is never a non-null empty list. *)
Theorem baggage_invariant b : reachable b → wf b.
Proof. apply reachable_wf. Qed.

Definition sample : Baggage :=
  Erase (Set_ (FromHeader $"a = 1%20x ; p=q ; r , bad member, b=2, a=3") $"c" $"x y,") $"b".

Lemma sample_reachable : reachable sample.
Proof. repeat constructor. Qed.

Lemma baggage_invariant_witness : wf sample ∧ ToHeader sample = $"a=1%20x;p=q;r,c=x%20y%2C".
Proof. split; [apply (baggage_invariant sample), sample_reachable|vm_compute; reflexivity]. Defined.

(** The serialised header parses back to the very same baggage, values
    with arbitrary octets, property tails, order and cached lengths included. *)
Theorem baggage_roundtrip b : reachable b → FromHeader (ToHeader b) = b.
Proof. intros H. by apply bag_FromHeader_ToHeader_aux, reachable_wf. Qed.

Lemma baggage_roundtrip_witness : FromHeader (ToHeader sample) = sample.
Proof. apply (baggage_roundtrip sample), sample_reachable. Defined.

(** The incremental length accounting is exact, so the header a baggage
    writes is within the W3C limits: its length is the accounted total, at most
    8192 octets, and each member is its cached length, at most 4096. *)
Theorem baggage_limits b :
  reachable b →
  size (ToHeader b) = SerialisedSize (entries_of b) ∧ size (ToHeader b) <= kMaxTotalBytes
  ∧ Size b <= kMaxEntries
  ∧ Forall (λ e, size (RenderMember e) = member_bytes e ∧ member_bytes e <= kMaxEntryBytes)
      (entries_of b).
Proof.
  intros Hb%reachable_wf. pose proof (wf_header_size b Hb) as Hs.
  destruct (bag_wf_entries_of b Hb) as (Hsz & Hnd & Hl & Ht). rewrite Size_size.
  split_and!; [done|lia|done|]. eapply Forall_impl; [exact Hl|].
  intros e (_ & _ & He & Hb'). split; [symmetry; by apply MakeEntry_bytes|done].
Qed.

Lemma baggage_limits_witness :
  size (ToHeader sample) = SerialisedSize (entries_of sample) ∧ SerialisedSize (entries_of sample) = 24.
Proof. split; [apply (baggage_limits sample), sample_reachable|vm_compute; reflexivity]. Defined.

(** The percent codec is lossless on arbitrary octets, writes only octets
    the grammar admits, and [EncodedSize] is the exact encoded length. *)
Theorem percent_codec v :
  DecodeValue (AppendEncoded v) = Some v ∧ IsWireValue (AppendEncoded v) = true
  ∧ size (AppendEncoded v) = EncodedSize v.
Proof. split_and!; [apply decode_encode|apply encoded_octets|apply encoded_size]. Qed.

(** A raw member the parser drops: blank, or outside the grammar. *)
Definition rejected (raw : str) : bool :=
  match TrimOptionalWhitespace raw with
  | [] => true
  | m => match ParseMember m with None => true | Some _ => false end
  end.

Lemma parse_loop_filter raw total es :
  ParseMembers_loop raw total es
  = ParseMembers_loop (List.filter (λ r, negb (rejected r)) raw) total es.
Proof.
  revert total es. induction raw as [|r raw IH]; intros total es; [done|].
  cbn [ParseMembers_loop List.filter]. unfold rejected at 1.
  destruct (TrimOptionalWhitespace r) as [|c m] eqn:Et; [by apply IH|].
  destruct (ParseMember (c :: m)) as [e|] eqn:Ep; [|by apply IH].
  cbn [negb ParseMembers_loop]. rewrite Et, Ep. destruct (Admit e es total); (reflexivity || apply IH).
Qed.

(** A malformed or blank list-member costs only itself: two headers whose
    members differ only in rejected ones parse to the same baggage. *)
Theorem baggage_drops_only_malformed h h' :
  List.filter (λ r, negb (rejected r)) (segments kListSeparator h)
  = List.filter (λ r, negb (rejected r)) (segments kListSeparator h') →
  FromHeader h = FromHeader h'.
Proof.
  intros H. unfold FromHeader, ParseMembers.
  by rewrite (parse_loop_filter (segments _ h)), H, <- parse_loop_filter.
Qed.

Lemma baggage_drops_only_malformed_witness :
  FromHeader $"a=1,b@d=2, ,c=%zz,d=4" = FromHeader $"a=1,d=4".
Proof. apply baggage_drops_only_malformed. vm_compute. reflexivity. Defined.

(** [Set_] either leaves the baggage unchanged (key not a token, no
    room for a new key, member or total over the limit) or replaces the entry in
    place / appends it, drops its properties, and changes [Get] at that key only. *)
Theorem baggage_set_spec b k v :
  let c := MakeEntry k v [] in
  let l := entries_of b in
  let admissible := IsToken k && (has_key key k l || (size l <? kMaxEntries))
                    && (member_bytes c <=? kMaxEntryBytes)
                    && (SerialisedSize (assign_or_append c l) <=? kMaxTotalBytes) in
  Set_ b k v = (if admissible then mkBaggage (Some (assign_or_append c l)) else b)
  ∧ (admissible = true → ∀ j, Get (Set_ b k v) j = if k =s j then Some v else Get b j).
Proof.
  cbv zeta. unfold Set_. rewrite has_value_has_key, Size_size. fold (entries_of b).
  rewrite !Z.ltb_antisym. 
  destruct (IsToken k); cbn [negb orb andb]; [|done].
  destruct (has_key _ _ _); cbn [negb orb andb].
  2: destruct (kMaxEntries <=? _); cbn [negb orb andb]; [done|].
  all: destruct (_ <=? kMaxEntryBytes); cbn [negb andb]; [|done].
  all: destruct (_ <=? kMaxTotalBytes); cbn [negb]; [|done].
  all: assert (Seal (assign_or_append (MakeEntry k v []) (entries_of b))
    = Some (assign_or_append (MakeEntry k v []) (entries_of b))) as -> by
    (unfold Seal; destruct (assign_or_append _ _) eqn:E; [by apply assign_or_append_nonempty in E|done]).
  all: split; [done|]; intros _ j; rewrite !Get_find;
    change (entries_of (mkBaggage (Some ?l))) with l; rewrite find_assign_or_append; cbn [key MakeEntry]; by destruct (k =s j).
Qed.

Lemma baggage_set_spec_witness :
  Get (Set_ sample $"a" $"new") $"a" = Some $"new" ∧ Get (Set_ sample $"a" $"new") $"c" = Get sample $"c".
Proof.
  split.
  - rewrite (proj2 (baggage_set_spec sample $"a" $"new")); vm_compute; reflexivity.
  - rewrite (proj2 (baggage_set_spec sample $"a" $"new")); vm_compute; reflexivity.
Defined.
