(* ===== verification/Context.v ===== *)
(** * Contexts and the current-context slot

    Model of [SpanContext] ([include/microtel/trace.hpp]), [Context]
    ([include/microtel/context.hpp]) and of the thread-local slot with its
    [ScopedContext] guard ([src/api/context.cpp]).  A thread is its slot and its
    live guard objects, newest first; threads are a finite map, since the slot is
    [thread_local].

    The theorems: for every interleaving of threads in which each thread destroys
    its armed guards newest first, the slot of a thread behaves as the top of a
    stack of installed contexts of that thread alone, and a thread that has
    destroyed its guards sees the context it started from. *)
From stdpp Require Import gmap.
From S2P Require Import Prelude Trace TraceState Baggage.

(** [SpanContext]. *)
Record SpanContext := mkSpanContext {
  trace_id : list Z;
  span_id : list Z;
  trace_flags : Z;
  trace_state : TraceState.TraceState;
  remote : bool
}.

Definition TraceState_default : TraceState.TraceState := TraceState.mkTraceState None.
Definition Baggage_default : Baggage.Baggage := mkBaggage None.
Definition SpanContext_default : SpanContext :=
  mkSpanContext (replicate TraceId_kSizeBytes 0) (replicate SpanId_kSizeBytes 0) 0
    TraceState_default false.

(** [SpanContext::IsValid]. *)
Definition SpanContext_IsValid (c : SpanContext) : bool :=
  Trace.IsValid (trace_id c) && Trace.IsValid (span_id c).

(** What the member types of [SpanContext] guarantee. *)
Definition wf_span_context (c : SpanContext) : Prop :=
  wf_trace_id (trace_id c) ∧ wf_span_id (span_id c) ∧ is_u8 (trace_flags c).

(** [Context]. *)
Record Context := mkContext {
  active_span_context : SpanContext;
  baggage : Baggage.Baggage
}.
Definition Context_default : Context := mkContext SpanContext_default Baggage_default.

(** ** [ScopedContext] and [tl_current] *)

Record ScopedContext := mkScopedContext { m_previous : Context; m_armed : bool }.

(** [ScopedContext::ScopedContext(Context)]: the guard, and the new [tl_current]. *)
Definition ScopedContext_install (tl_current ctx : Context) : ScopedContext * Context :=
  (mkScopedContext tl_current true, ctx).
(** The move constructor: the new guard, and [other] afterwards, whose moved-from
    [m_previous] is the empty context and is never read again. *)
Definition ScopedContext_move (other : ScopedContext) : ScopedContext * ScopedContext :=
  (mkScopedContext (m_previous other) (m_armed other), mkScopedContext Context_default false).
(** The destructor: [tl_current] afterwards. *)
Definition ScopedContext_destroy (s : ScopedContext) (tl_current : Context) : Context :=
  if m_armed s then m_previous s else tl_current.

(** ** One thread *)

Record Thread := mkThread { tl_current : Context; guards : list ScopedContext }.
Definition Thread_start : Thread := mkThread Context_default [].
(** [CurrentContext]. *)
Definition CurrentContext (t : Thread) : Context := tl_current t.

(** What a thread can do with guards: construct one, construct an inert one,
    move guard [i] into a new one (a factory returning its local), destroy
    guard [i]. *)
Inductive Op := Install (ctx : Context) | Inert | MoveGuard (i : nat) | Destroy (i : nat).

Definition exec (t : Thread) (o : Op) : Thread :=
  match o with
  | Install ctx =>
      let '(g, cur) := ScopedContext_install (tl_current t) ctx in mkThread cur (g :: guards t)
  | Inert => mkThread (tl_current t) (mkScopedContext Context_default false :: guards t)
  | MoveGuard i =>
      match guards t !! i with
      | None => t
      | Some other =>
          let '(g, other') := ScopedContext_move other in
          mkThread (tl_current t) (g :: <[i := other']> (guards t))
      end
  | Destroy i =>
      match guards t !! i with
      | None => t
      | Some g => mkThread (ScopedContext_destroy g (tl_current t)) (delete i (guards t))
      end
  end.

(** The documented discipline: an armed guard is moved or destroyed only while no
    newer armed guard lives.  Disarmed guards die in any order. *)
Definition disciplined (t : Thread) (o : Op) : bool :=
  match o with
  | Install _ | Inert => true
  | MoveGuard i | Destroy i =>
      match guards t !! i with
      | None => false
      | Some g => negb (m_armed g) || forallb (λ g, negb (m_armed g)) (take i (guards t))
      end
  end.

(** ** Reference: a stack of contexts *)

Definition Stack := list Context.
(** The top of the stack, over the context the thread started from. *)
Definition top (base : Context) (s : Stack) : Context := hd base s.

(** The effect of an operation on the stack: only [Install] and the destruction
    of an armed guard change it. *)
Definition abstract_op (t : Thread) (o : Op) (s : Stack) : Stack :=
  match o with
  | Install ctx => ctx :: s
  | Destroy i => match guards t !! i with
                 | Some g => if m_armed g then tl s else s
                 | None => s
                 end
  | _ => s
  end.

(** The armed guards, newest first, hold the stack below its top. *)
Fixpoint restores (base : Context) (gs : list ScopedContext) (s : Stack) : Prop :=
  match gs with
  | [] => s = []
  | g :: gs' =>
      if m_armed g then
        match s with [] => False | _ :: s' => m_previous g = top base s' ∧ restores base gs' s' end
      else restores base gs' s
  end.
Definition simulates (base : Context) (t : Thread) (s : Stack) : Prop :=
  tl_current t = top base s ∧ restores base (guards t) s.

Lemma restores_delete_disarmed base gs s i g :
  gs !! i = Some g → m_armed g = false → restores base gs s → restores base (delete i gs) s.
Proof.
  revert i s. induction gs as [|h gs IH]; intros i s Hi Ha Hr; [done|].
  destruct i as [|i]; simpl in *; [injection Hi as ->; by rewrite Ha in Hr|].
  destruct (m_armed h); [|by eapply IH].
  destruct s as [|c s]; [done|]. destruct Hr. split; [done|]. by eapply IH.
Qed.

Lemma restores_delete_armed base gs s i g :
  gs !! i = Some g → m_armed g = true → forallb (λ g, negb (m_armed g)) (take i gs) = true →
  restores base gs s → m_previous g = top base (tl s) ∧ restores base (delete i gs) (tl s).
Proof.
  revert i s. induction gs as [|h gs IH]; intros i s Hi Ha Hp Hr; [done|].
  destruct i as [|i]; simpl in *.
  - injection Hi as ->. rewrite Ha in Hr. by destruct s.
  - bool_hyps. rewrite H in *. by eapply IH.
Qed.

Lemma restores_disarm base gs s i g :
  gs !! i = Some g → restores base (delete i gs) s →
  restores base (<[i := mkScopedContext Context_default false]> gs) s.
Proof.
  revert i s. induction gs as [|h gs IH]; intros i s Hi Hr; [done|].
  destruct i as [|i]; simpl in *; [done|]. destruct (m_armed h); [|by eapply IH].
  destruct s; [done|]. destruct Hr. split; [done|]. by eapply IH.
Qed.

Lemma restores_armed_nonempty base gs s i g :
  gs !! i = Some g → m_armed g = true → restores base gs s → ∃ c s', s = c :: s'.
Proof.
  revert i. induction gs as [|h gs IH]; intros i Hi Ha Hr; [done|].
  destruct i as [|i]; simpl in *.
  - injection Hi as ->. rewrite Ha in Hr. destruct s; [done|]. eauto.
  - destruct (m_armed h); [destruct s; [done|]; eauto|by eapply IH].
Qed.

Lemma exec_simulates base t s o :
  simulates base t s → disciplined t o = true → simulates base (exec t o) (abstract_op t o s).
Proof.
  intros [Hc Hr] Hd. destruct o as [ctx| |i|i]; simpl in *; try done.
  - destruct (guards t !! i) as [g|] eqn:Hi; [|done]. unfold simulates. simpl.
    split; [done|]. destruct (m_armed g) eqn:Ha.
    + destruct (restores_armed_nonempty _ _ _ _ _ Hi Ha Hr) as (c & s' & ->).
      destruct (restores_delete_armed _ _ _ _ _ Hi Ha Hd Hr) as [Hp Hr'].
      split; [done|]. by eapply restores_disarm.
    + eapply restores_disarm; [done|]. by eapply restores_delete_disarmed.
  - destruct (guards t !! i) as [g|] eqn:Hi; [|done].
    unfold simulates, ScopedContext_destroy. simpl. destruct (m_armed g) eqn:Ha.
    + by eapply restores_delete_armed.
    + split; [done|]. by eapply restores_delete_disarmed.
Qed.

(** ** All threads *)

Abbreviation Threads := (gmap nat Thread).
Definition thread (ts : Threads) (tid : nat) : Thread := default Thread_start (ts !! tid).
(** One step of thread [tid]: [tl_current] is that thread's slot. *)
Definition step (ts : Threads) (e : nat * Op) : Threads := <[fst e := exec (thread ts (fst e)) (snd e)]> ts.
Definition run (ts : Threads) (es : list (nat * Op)) : Threads := fold_left step es ts.

(** The operations of one thread, in program order. *)
Definition project (tid : nat) (es : list (nat * Op)) : list Op :=
  omap (λ e, if (fst e =? tid)%nat then Some (snd e) else None) es.

Lemma step_thread ts i o tid :
  thread (step ts (i, o)) tid = if (i =? tid)%nat then exec (thread ts tid) o else thread ts tid.
Proof.
  unfold step. cbn [fst snd]. destruct (Nat.eqb_spec i tid) as [->|Hn].
  - unfold thread. by rewrite lookup_insert_eq.
  - unfold thread. by rewrite lookup_insert_ne.
Qed.

Lemma run_thread ts es tid :
  thread (run ts es) tid = fold_left exec (project tid es) (thread ts tid).
Proof.
  revert ts. induction es as [|[i o] es IH]; intros ts; [done|].
  cbn [run fold_left project omap list_omap fst snd]. unfold run in IH. rewrite IH, step_thread.
  by destruct (i =? tid)%nat.
Qed.

Fixpoint disciplined_run (t : Thread) (os : list Op) : bool :=
  match os with [] => true | o :: os' => disciplined t o && disciplined_run (exec t o) os' end.
Fixpoint abstract_run (t : Thread) (os : list Op) (s : Stack) : Stack :=
  match os with [] => s | o :: os' => abstract_run (exec t o) os' (abstract_op t o s) end.

Lemma run_simulates base t s os :
  simulates base t s → disciplined_run t os = true →
  simulates base (fold_left exec os t) (abstract_run t os s).
Proof.
  revert t s. induction os as [|o os IH]; intros t s Hs Hd; [done|]. simpl in *.
  bool_hyps. apply IH; [by apply exec_simulates|done].
Qed.

Lemma no_armed_guards base gs s :
  forallb (λ g, negb (m_armed g)) gs = true → restores base gs s → s = [].
Proof.
  induction gs as [|g gs IH]; simpl; [done|]. intros H. bool_hyps. rewrite H. auto.
Qed.

(** The slot of a thread refines a stack of contexts: in every interleaving
    in which the thread follows the destruction discipline, its current context
    is the innermost context installed by that thread and not yet restored,
    whatever the other threads do. *)
Theorem current_context_stack ts es tid :
  guards (thread ts tid) = [] → disciplined_run (thread ts tid) (project tid es) = true →
  CurrentContext (thread (run ts es) tid)
  = top (CurrentContext (thread ts tid)) (abstract_run (thread ts tid) (project tid es) []).
Proof.
  intros Hg Hd. rewrite run_thread.
  apply (run_simulates (tl_current (thread ts tid)) _ []); [|done].
  split; [done|]. by rewrite Hg.
Qed.

Definition ctx_a : Context :=
  mkContext (mkSpanContext (replicate 16 7) (replicate 8 9) 1 TraceState_default false) Baggage_default.
Definition ctx_b : Context := mkContext SpanContext_default (Baggage.Set_ Baggage_default $"k" $"v").
Definition two_threads : list (nat * Op) :=
  [(1%nat, Install ctx_a); (2%nat, Install ctx_b); (1%nat, MoveGuard 0); (1%nat, Destroy 1);
   (2%nat, Destroy 0); (1%nat, Install ctx_b); (1%nat, Destroy 0)].

Lemma current_context_stack_witness :
  CurrentContext (thread (run ∅ two_threads) 1) = ctx_a
  ∧ CurrentContext (thread (run ∅ two_threads) 2) = Context_default.
Proof.
  split; rewrite current_context_stack; (vm_compute; reflexivity).
Defined.

(** A thread whose armed guards are all gone sees exactly the context it
    had before the first one, and a thread that installs nothing is never
    affected by the others. *)
Theorem scopes_restore ts es tid :
  guards (thread ts tid) = [] → disciplined_run (thread ts tid) (project tid es) = true →
  forallb (λ g, negb (m_armed g)) (guards (thread (run ts es) tid)) = true →
  CurrentContext (thread (run ts es) tid) = CurrentContext (thread ts tid).
Proof.
  intros Hg Hd Hall. rewrite run_thread in *.
  destruct (run_simulates (tl_current (thread ts tid)) (thread ts tid) [] (project tid es))
    as [Hc Hr]; [by unfold simulates; rewrite Hg|done|].
  apply no_armed_guards in Hr; [|done]. rewrite Hr in Hc. done.
Qed.

Lemma scopes_restore_witness :
  CurrentContext (thread (run {[1%nat := mkThread ctx_b []]} (two_threads ++ [(1%nat, Destroy 0)])) 1) = ctx_b.
Proof. rewrite scopes_restore; vm_compute; reflexivity. Defined.
