(* ===== verification/Propagator.v ===== *)
(** * W3C propagators

    Model of [src/api/propagator.cpp]: the [traceparent] parser and formatter,
    [W3CTraceContextPropagator] and [W3CBaggagePropagator].  A [HeaderSetter] or
    [HeaderGetter] that may be an empty [std::function] is an [option]; an
    injection is the sequence of header writes it makes.

    The theorems characterise the accepted [traceparent] language exactly, give
    the round trips of both propagators over a carrier, and say what a failed
    extraction leaves. *)
From S2P Require Import Prelude Trace TraceState Baggage Context.

Definition kTraceparentHeader : str := $"traceparent".
Definition kTracestateHeader : str := $"tracestate".
Definition kBaggageHeader : str := $"baggage".
Definition kLowerHexDigits : str := $"0123456789abcdef".
Definition kFieldSeparator : char := "-".
Definition kHexCharsPerByte : nat := 2.
Definition kSeparatorChars : nat := 1.
Definition kVersionOffset : nat := 0.
Definition kVersionChars : nat := 2.
Definition kTraceIdOffset : nat := kVersionOffset + kVersionChars + kSeparatorChars.
Definition kTraceIdChars : nat := TraceId_kSizeBytes * kHexCharsPerByte.
Definition kSpanIdOffset : nat := kTraceIdOffset + kTraceIdChars + kSeparatorChars.
Definition kSpanIdChars : nat := SpanId_kSizeBytes * kHexCharsPerByte.
Definition kFlagsOffset : nat := kSpanIdOffset + kSpanIdChars + kSeparatorChars.
Definition kFlagsChars : nat := kHexCharsPerByte.
Definition kTraceparentChars : nat := kFlagsOffset + kFlagsChars.
Definition kInjectedVersion : str := $"00".
Definition kVersion00 : Z := 0.
Definition kForbiddenVersion : Z := 255.

Definition IsLowerHexDigit (c : char) : bool := in_range "0" "9" c || in_range "a" "f" c.
Definition HexDigitValue (c : char) : Z :=
  if in_range "0" "9" c then code c - code "0" else code c - code "a" + 10.

(** The loop of [ParseLowerHexBytes] over the [n] bytes of [out]. *)
Fixpoint ParseLowerHexBytes_loop (n : nat) (hex : str) : option (list Z) :=
  match n with
  | O => Some []
  | S n' =>
      match hex with
      | high :: low :: hex' =>
          if negb (IsLowerHexDigit high) || negb (IsLowerHexDigit low) then None
          else cons (to_uint 8 (Z.lor (Z.shiftl (HexDigitValue high) 4) (HexDigitValue low)))
                 <$> ParseLowerHexBytes_loop n' hex'
      | _ => None
      end
  end.
Definition ParseLowerHexBytes (n : nat) (hex : str) : option (list Z) :=
  if negb (length hex =? n * kHexCharsPerByte)%nat then None else ParseLowerHexBytes_loop n hex.

(** [header[i]], read only below the length. *)
Definition at_ (header : str) (i : nat) : char := nth i header "000"%char.
Definition substr (s : str) (pos n : nat) : str := take n (drop pos s).

Definition HasFixedSeparators (header : str) : bool :=
  (at_ header (kTraceIdOffset - kSeparatorChars) =c kFieldSeparator)
  && (at_ header (kSpanIdOffset - kSeparatorChars) =c kFieldSeparator)
  && (at_ header (kFlagsOffset - kSeparatorChars) =c kFieldSeparator).

Definition HasParsableLength (header : str) (version : Z) : bool :=
  if (length header =? kTraceparentChars)%nat then true
  else negb (version =? kVersion00) && (at_ header kTraceparentChars =c kFieldSeparator).

Definition front (l : list Z) : Z := nth 0 l 0.

Definition HasParsableShape (header : str) : bool :=
  if (length header <? kTraceparentChars)%nat then false
  else if negb (HasFixedSeparators header) then false
  else match ParseLowerHexBytes 1 (substr header kVersionOffset kVersionChars) with
       | None => false
       | Some version =>
           if front version =? kForbiddenVersion then false
           else HasParsableLength header (front version)
       end.

(** [ParseTraceparent(header, out)]: [out] afterwards, or [None] for [false],
    which leaves [out] as it was. *)
Definition ParseTraceparent (header : str) (out : SpanContext) : option SpanContext :=
  if negb (HasParsableShape header) then None
  else
    match ParseLowerHexBytes TraceId_kSizeBytes (substr header kTraceIdOffset kTraceIdChars),
          ParseLowerHexBytes SpanId_kSizeBytes (substr header kSpanIdOffset kSpanIdChars),
          ParseLowerHexBytes 1 (substr header kFlagsOffset kFlagsChars) with
    | Some trace_bytes, Some span_bytes, Some flags =>
        if negb (Trace.IsValid trace_bytes) || negb (Trace.IsValid span_bytes) then None
        else Some (mkSpanContext trace_bytes span_bytes (front flags) (trace_state out) (remote out))
    | _, _, _ => None
    end.

Definition FormatTraceparent (context : SpanContext) : str :=
  let flags := trace_flags context in
  kInjectedVersion ++ kFieldSeparator :: ToHex (trace_id context)
  ++ kFieldSeparator :: ToHex (span_id context)
  ++ kFieldSeparator
     :: [at_ kLowerHexDigits (Z.to_nat (Z.land (Z.shiftr flags 4) 15));
         at_ kLowerHexDigits (Z.to_nat (Z.land flags 15))].

(** ** The propagators *)

Definition Header := (str * str)%type.
Definition HeaderGetter := str → option str.

(** [W3CTraceContextPropagator::Inject]: the calls of [setter]; [setter] itself is
    only tested for being empty. *)
Definition TraceContext_Inject (context : SpanContext) (setter : bool) : list Header :=
  if negb (SpanContext_IsValid context) || negb setter then []
  else
    (kTraceparentHeader, FormatTraceparent context)
    :: match TraceState.ToHeader (trace_state context) with
       | [] => []
       | state => [(kTracestateHeader, state)]
       end.

Definition TraceContext_Extract (getter : option HeaderGetter) : SpanContext :=
  match getter with
  | None => SpanContext_default
  | Some get =>
      match get kTraceparentHeader with
      | None => SpanContext_default
      | Some traceparent =>
          match ParseTraceparent traceparent SpanContext_default with
          | None => SpanContext_default
          | Some context =>
              let state := match get kTracestateHeader with
                           | Some h => TraceState.FromHeader h
                           | None => trace_state context
                           end in
              mkSpanContext (trace_id context) (span_id context) (trace_flags context) state true
          end
      end
  end.

Definition Baggage_Inject (b : Baggage.Baggage) (setter : bool) : list Header :=
  if Baggage.Empty b || negb setter then [] else [(kBaggageHeader, Baggage.ToHeader b)].

Definition Baggage_Extract (getter : option HeaderGetter) : Baggage.Baggage :=
  match getter with
  | None => Baggage_default
  | Some get => match get kBaggageHeader with
                | None => Baggage_default
                | Some h => Baggage.FromHeader h
                end
  end.

(** ** Hex *)

Lemma nibble_digit n :
  0 <= n < 16 →
  IsLowerHexDigit (NibbleToHex n) = true ∧ HexDigitValue (NibbleToHex n) = n
  ∧ at_ kLowerHexDigits (Z.to_nat n) = NibbleToHex n.
Proof.
  intros Hn.
  pose proof (forall_below (λ n, IsLowerHexDigit (NibbleToHex n) && (HexDigitValue (NibbleToHex n) =? n)
    && (at_ kLowerHexDigits (Z.to_nat n) =c NibbleToHex n)) 16 eq_refl n Hn) as H.
  cbn beta in H. bool_hyps. split_and!; [done|done|by apply ceqb_true].
Qed.

Lemma digit_nibble c :
  IsLowerHexDigit c = true → 0 <= HexDigitValue c < 16 ∧ NibbleToHex (HexDigitValue c) = c.
Proof.
  intros Hc.
  pose proof (forall_octets (λ c, implb (IsLowerHexDigit c)
    ((0 <=? HexDigitValue c) && (HexDigitValue c <? 16) && (NibbleToHex (HexDigitValue c) =c c))) eq_refl c) as H.
  cbn beta in H. rewrite Hc in H. cbn [implb] in H. bool_hyps. split; [lia|by apply ceqb_true].
Qed.

Lemma nibbles_split h l :
  0 <= h < 16 → 0 <= l < 16 →
  let b := to_uint 8 (Z.lor (Z.shiftl h 4) l) in
  is_u8 b ∧ Z.shiftr b 4 = h ∧ Z.land b 15 = l.
Proof.
  intros Hh Hl.
  pose proof (forall_below (λ h, forallb (λ l, let b := to_uint 8 (Z.lor (Z.shiftl h 4) l) in
    (0 <=? b) && (b <=? 255) && (Z.shiftr b 4 =? h) && (Z.land b 15 =? l)) (seqZ 0 16)) 16 eq_refl h Hh) as H.
  cbn beta in H. pose proof (forall_below _ 16 H l Hl) as H'. cbv beta zeta in *. bool_hyps.
  unfold is_u8. change u8_max with 255. split_and!; done.
Qed.

Lemma byte_hex_join b :
  is_u8 b → to_uint 8 (Z.lor (Z.shiftl (Z.shiftr b 4) 4) (Z.land b 15)) = b.
Proof.
  intros H. rewrite nibbles_join by done. unfold to_uint. unfold is_u8 in H. change u8_max with 255 in H. change (2 ^ 8) with 256.
  apply Z.mod_small. lia.
Qed.

Lemma ParseLowerHexBytes_loop_iff n hex bytes :
  length hex = (n * 2)%nat →
  ParseLowerHexBytes_loop n hex = Some bytes ↔ is_bytes n bytes ∧ hex = BytesToLowerHex bytes.
Proof.
  revert hex bytes. induction n as [|n IH]; intros hex bytes Hlen.
  { destruct hex; [|done]. simpl. unfold is_bytes. split.
    - intros [= <-]. by repeat constructor.
    - intros [[Hb _] _]. by destruct bytes. }
  destruct hex as [|h [|l hex]]; [done|done|]. simpl. specialize (IH hex). split.
  - destruct (_ || _) eqn:Ed; [done|]. bool_hyps. intros (bs & Hbs & ->)%fmap_Some.
    apply IH in Hbs as [[Hlb Hb] ->]; [|simpl in Hlen; lia].
    apply digit_nibble in H as [Hr Hh], H0 as [Hr' Hh'].
    destruct (nibbles_split _ _ Hr Hr') as (Hu & Hs & Ha). split.
    + split; [simpl; lia|by constructor].
    + cbn [BytesToLowerHex]. by rewrite Hs, Ha, Hh, Hh'.
  - intros [[Hlb Hb] Hx]. destruct bytes as [|b bytes]; [done|]. simpl in Hx.
    inversion Hb as [|? ? Hb0 Hb']; subst. injection Hx as -> -> ->.
    destruct (nibble_digit _ (nibble_hi_range _ Hb0)) as (Hd & Hv & _).
    destruct (nibble_digit _ (nibble_lo_range b)) as (Hd' & Hv' & _).
    rewrite Hd, Hd', Hv, Hv', byte_hex_join by done. simpl.
    rewrite (proj2 (IH bytes ltac:(simpl in Hlen; lia))); [done|].
    split; [|done]. split; [simpl in Hlb; lia|done].
Qed.

Lemma ParseLowerHexBytes_iff n hex bytes :
  ParseLowerHexBytes n hex = Some bytes ↔ is_bytes n bytes ∧ hex = BytesToLowerHex bytes.
Proof.
  unfold ParseLowerHexBytes, kHexCharsPerByte.
  destruct (Nat.eqb_spec (length hex) (n * 2)); simpl; [by apply ParseLowerHexBytes_loop_iff|].
  split; [done|]. intros [[Hb _] ->]. pose proof (ToHex_length bytes). unfold ToHex in *. lia.
Qed.

(** ** The [traceparent] language *)

Lemma at_drop (s : str) i : (i < length s)%nat → drop i s = at_ s i :: drop (S i) s.
Proof.
  intros H. unfold at_. revert i H. induction s as [|x s IH]; intros i H; [simpl in H; lia|].
  destruct i; [done|]. simpl in *. apply IH. lia.
Qed.

(** A header with its version, id and flags fields in place, and [suffix]. *)
Definition layout (version : Z) (t s : list Z) (flags : Z) (suffix : str) : str :=
  BytesToLowerHex [version] ++ kFieldSeparator :: BytesToLowerHex t
  ++ kFieldSeparator :: BytesToLowerHex s ++ kFieldSeparator :: BytesToLowerHex [flags] ++ suffix.

Lemma layout_fields version t s flags suffix :
  length t = TraceId_kSizeBytes → length s = SpanId_kSizeBytes →
  let h := layout version t s flags suffix in
  length h = (kTraceparentChars + length suffix)%nat ∧ HasFixedSeparators h = true
  ∧ substr h kVersionOffset kVersionChars = BytesToLowerHex [version]
  ∧ substr h kTraceIdOffset kTraceIdChars = BytesToLowerHex t
  ∧ substr h kSpanIdOffset kSpanIdChars = BytesToLowerHex s
  ∧ substr h kFlagsOffset kFlagsChars = BytesToLowerHex [flags]
  ∧ drop kTraceparentChars h = suffix.
Proof.
  intros Ht Hs h.
  destruct t as [|t0 [|t1 [|t2 [|t3 [|t4 [|t5 [|t6 [|t7 [|t8 [|t9 [|t10 [|t11 [|t12 [|t13 [|t14 [|t15 [|]]]]]]]]]]]]]]]]];
    try discriminate Ht.
  destruct s as [|s0 [|s1 [|s2 [|s3 [|s4 [|s5 [|s6 [|s7 [|]]]]]]]]]; try discriminate Hs.
  subst h. repeat split; reflexivity.
Qed.

Lemma layout_of_fields h :
  (kTraceparentChars <= length h)%nat → HasFixedSeparators h = true →
  h = substr h kVersionOffset kVersionChars ++ kFieldSeparator
      :: substr h kTraceIdOffset kTraceIdChars ++ kFieldSeparator
      :: substr h kSpanIdOffset kSpanIdChars ++ kFieldSeparator
      :: substr h kFlagsOffset kFlagsChars ++ drop kTraceparentChars h.
Proof.
  intros Hlen H. unfold HasFixedSeparators in H. bool_hyps.
  apply ceqb_true in H as Ha, H0 as Hc, H1 as Hb.
  change kTraceparentChars with 55%nat in Hlen.
  do 55 (destruct h as [|? h]; [simpl in Hlen; lia|]).
  cbn in Ha, Hb, Hc. subst. reflexivity.
Qed.

(** What may follow the flags: nothing, or a [-]-separated tail of a later
    version. *)
Definition valid_suffix (version : Z) (suffix : str) : Prop :=
  suffix = [] ∨ (version ≠ kVersion00 ∧ ∃ rest, suffix = kFieldSeparator :: rest).

Lemma HasParsableLength_iff h version :
  (kTraceparentChars <= length h)%nat →
  HasParsableLength h version = true ↔ valid_suffix version (drop kTraceparentChars h).
Proof.
  intros Hlen. unfold HasParsableLength, valid_suffix.
  destruct (Nat.eqb_spec (length h) kTraceparentChars) as [E|E].
  - rewrite drop_ge by lia. split; [by left|done].
  - rewrite at_drop by lia. rewrite andb_true_iff, negb_true_iff, Z.eqb_neq, ceqb_true.
    split; [intros [? ->]; eauto|]. intros [?|[? [rest [= ? ?]]]]; done.
Qed.

Lemma is_bytes_1 l : is_bytes 1 l ↔ ∃ b, is_u8 b ∧ l = [b].
Proof.
  unfold is_bytes. split.
  - intros [Hl Hf]. destruct l as [|b [|]]; try done. inversion Hf; subst. eauto.
  - intros (b & Hb & ->). split; [done|by apply Forall_singleton].
Qed.

Lemma HasParsableShape_layout version t s flags suffix :
  is_u8 version → length t = TraceId_kSizeBytes → length s = SpanId_kSizeBytes →
  version ≠ kForbiddenVersion → valid_suffix version suffix →
  HasParsableShape (layout version t s flags suffix) = true.
Proof.
  intros Hv Ht Hs Hf Hx. destruct (layout_fields version t s flags suffix Ht Hs)
    as (Hlen & Hsep & Hver & _ & _ & _ & Hsuf).
  unfold HasParsableShape. rewrite Hlen. rewrite (proj2 (Nat.ltb_ge _ _)) by lia.
  rewrite Hsep, Hver. cbn [negb].
  rewrite (proj2 (ParseLowerHexBytes_iff 1 _ [version])); [|split; [apply is_bytes_1; eauto|done]].
  cbn [front nth]. rewrite (proj2 (Z.eqb_neq _ _)) by done.
  apply HasParsableLength_iff; [lia|]. by rewrite Hsuf.
Qed.

Lemma HasParsableShape_inv h :
  HasParsableShape h = true →
  (kTraceparentChars <= length h)%nat ∧ HasFixedSeparators h = true
  ∧ ∃ version, is_u8 version ∧ version ≠ kForbiddenVersion
    ∧ substr h kVersionOffset kVersionChars = BytesToLowerHex [version]
    ∧ valid_suffix version (drop kTraceparentChars h).
Proof.
  unfold HasParsableShape. destruct (Nat.ltb_spec (length h) kTraceparentChars); [done|].
  destruct (HasFixedSeparators h); [|done]. cbn [negb].
  destruct (ParseLowerHexBytes 1 _) as [v|] eqn:Ev; [|done].
  apply ParseLowerHexBytes_iff in Ev as [(b & Hb & ->)%is_bytes_1 Ev]. cbn [front nth].
  destruct (Z.eqb_spec b kForbiddenVersion); [done|]. intros Hl.
  apply HasParsableLength_iff in Hl; [|done]. split_and!; [done|done|]. by exists b.
Qed.

Lemma ParseTraceparent_layout version t s flags suffix out :
  is_u8 version → version ≠ kForbiddenVersion → valid_suffix version suffix →
  wf_trace_id t → wf_span_id s → is_u8 flags →
  Trace.IsValid t = true → Trace.IsValid s = true →
  ParseTraceparent (layout version t s flags suffix) out
  = Some (mkSpanContext t s flags (trace_state out) (remote out)).
Proof.
  intros Hv Hf Hx Ht Hs Hfl Hvt Hvs. pose proof (proj1 Ht) as Hlt. pose proof (proj1 Hs) as Hls.
  unfold ParseTraceparent. rewrite HasParsableShape_layout by done.
  destruct (layout_fields version t s flags suffix Hlt Hls) as (_ & _ & _ & -> & -> & -> & _).
  rewrite (proj2 (ParseLowerHexBytes_iff _ _ t)) by done.
  rewrite (proj2 (ParseLowerHexBytes_iff _ _ s)) by done.
  rewrite (proj2 (ParseLowerHexBytes_iff 1 _ [flags])); [|split; [apply is_bytes_1; eauto|done]].
  by rewrite Hvt, Hvs.
Qed.

Lemma ParseTraceparent_inv h out c :
  ParseTraceparent h out = Some c →
  ∃ version suffix, is_u8 version ∧ version ≠ kForbiddenVersion ∧ valid_suffix version suffix
    ∧ h = layout version (trace_id c) (span_id c) (trace_flags c) suffix
    ∧ wf_span_context c ∧ SpanContext_IsValid c = true
    ∧ trace_state c = trace_state out ∧ remote c = remote out.
Proof.
  unfold ParseTraceparent. destruct (HasParsableShape h) eqn:Eh; [|done]. cbn [negb].
  apply HasParsableShape_inv in Eh as (Hlen & Hsep & v & Hv & Hf & Hver & Hx).
  destruct (ParseLowerHexBytes TraceId_kSizeBytes _) as [t|] eqn:Et; [|done].
  destruct (ParseLowerHexBytes SpanId_kSizeBytes _) as [s|] eqn:Es; [|done].
  destruct (ParseLowerHexBytes 1 _) as [fl|] eqn:Efl; [|done].
  apply ParseLowerHexBytes_iff in Et as [Ht Et], Es as [Hs Es], Efl as [(b & Hb & ->)%is_bytes_1 Efl].
  destruct (_ || _) eqn:Ev; [done|]. bool_hyps. intros [= <-]. cbn [front nth].
  exists v, (drop kTraceparentChars h). unfold wf_span_context, SpanContext_IsValid. cbn.
  rewrite H, H0. split_and!; try done.
  rewrite (layout_of_fields h Hlen Hsep) at 1. by rewrite Hver, Et, Es, Efl.
Qed.

Lemma FormatTraceparent_layout c :
  is_u8 (trace_flags c) →
  FormatTraceparent c = layout kVersion00 (trace_id c) (span_id c) (trace_flags c) [].
Proof.
  intros Hf. unfold FormatTraceparent, layout, ToHex.
  assert (0 <= Z.land (Z.shiftr (trace_flags c) 4) 15 < 16) as H1 by apply nibble_lo_range.
  destruct (nibble_digit _ H1) as (_ & _ & ->).
  destruct (nibble_digit _ (nibble_lo_range (trace_flags c))) as (_ & _ & ->).
  assert (Z.land (Z.shiftr (trace_flags c) 4) 15 = Z.shiftr (trace_flags c) 4) as ->.
  { change 15 with (Z.ones 4). rewrite Z.land_ones by lia. apply Z.mod_small.
    apply (nibble_hi_range _ Hf). }
  by rewrite app_nil_r.
Qed.

(** C39: [ParseTraceparent] accepts exactly the W3C language: lower-case hex
    fields at fixed offsets, a version other than [ff], ids that are not all
    zero, and nothing after the flags except a [-]-separated tail of a version
    other than [00]; on success only the ids and the flags of [out] change. *)
Theorem ParseTraceparent_language h out c :
  ParseTraceparent h out = Some c ↔
  ∃ version t s flags suffix,
    is_u8 version ∧ version ≠ kForbiddenVersion ∧ valid_suffix version suffix
    ∧ wf_trace_id t ∧ wf_span_id s ∧ is_u8 flags
    ∧ Trace.IsValid t = true ∧ Trace.IsValid s = true
    ∧ h = layout version t s flags suffix
    ∧ c = mkSpanContext t s flags (trace_state out) (remote out).
Proof.
  split.
  - intros (v & x & Hv & Hf & Hx & Hh & (Ht & Hs & Hfl) & Hval & Hst & Hr)%ParseTraceparent_inv.
    unfold SpanContext_IsValid in Hval. bool_hyps.
    exists v, (trace_id c), (span_id c), (trace_flags c), x.
    split_and!; try done. rewrite <- Hst, <- Hr. by destruct c.
  - intros (v & t & s & fl & x & Hv & Hf & Hx & Ht & Hs & Hfl & Hvt & Hvs & -> & ->).
    by apply ParseTraceparent_layout.
Qed.

Definition sample_context : SpanContext :=
  mkSpanContext (replicate 16 171) (replicate 8 205) 3
    (TraceState.FromHeader $"vendor=x, other@sys=1") false.

(** Version 00 is canonical: the formatter's output parses back to the ids
    and flags formatted, and every accepted 55-character version-00 header is the
    formatter's output for the context it parses to. *)
Theorem traceparent_canonical h c :
  wf_span_context c → SpanContext_IsValid c = true →
  (ParseTraceparent h c = Some c ∧ take 2 h = kInjectedVersion) ↔ h = FormatTraceparent c.
Proof.
  intros (Ht & Hs & Hf) Hv. unfold SpanContext_IsValid in Hv. bool_hyps.
  rewrite FormatTraceparent_layout by done. split.
  - intros [(v & x & Hver & Hff & Hx & Hh & _)%ParseTraceparent_inv Hpre].
    assert (v = kVersion00) as ->.
    { rewrite Hh in Hpre. cbn [layout BytesToLowerHex app take] in Hpre.
      assert (ParseLowerHexBytes 1 (BytesToLowerHex [v]) = Some [v]) as E.
      { apply ParseLowerHexBytes_iff. split; [apply is_bytes_1; eauto|done]. }
      cbn [BytesToLowerHex] in E. rewrite Hpre in E. vm_compute in E. by injection E as <-. }
    destruct Hx as [->|[? _]]; [|done]. done.
  - intros ->. split; [|done]. rewrite ParseTraceparent_layout; try done; [by destruct c|by left].
Qed.

Lemma sample_context_wf : wf_span_context sample_context ∧ SpanContext_IsValid sample_context = true.
Proof.
  split; [|done]. split_and!; repeat split; try done; apply Forall_replicate; done.
Qed.

Lemma traceparent_canonical_witness :
  ParseTraceparent (FormatTraceparent sample_context) sample_context = Some sample_context.
Proof.
  apply (traceparent_canonical (FormatTraceparent sample_context) sample_context);
    [apply sample_context_wf|apply sample_context_wf|reflexivity].
Defined.

(** A fresh carrier that stores the header writes it receives. *)
Definition carrier (writes : list Header) : HeaderGetter :=
  λ name, snd <$> find_key fst name writes.

(** C40: a context injected into a carrier is extracted on the other side with
    its ids, flags and vendor [tracestate] intact, and marked remote. *)
Theorem trace_context_roundtrip c :
  wf_span_context c → TraceState.wf (trace_state c) → SpanContext_IsValid c = true →
  TraceContext_Extract (Some (carrier (TraceContext_Inject c true)))
  = mkSpanContext (trace_id c) (span_id c) (trace_flags c) (trace_state c) true.
Proof.
  intros (Ht & Hs & Hf) Hst Hv. unfold TraceContext_Inject. rewrite Hv. cbn [negb orb].
  unfold SpanContext_IsValid in Hv. bool_hyps.
  unfold TraceContext_Extract, carrier. cbn [find_key find fst fmap option_fmap option_map snd].
  rewrite seqb_refl. cbn [fmap option_fmap option_map snd].
  rewrite FormatTraceparent_layout by done.
  rewrite ParseTraceparent_layout; try done; [|by left]. cbn [trace_id span_id trace_flags trace_state].
  pose proof (TraceState.FromHeader_ToHeader_aux _ Hst) as Hrt.
  change (kTraceparentHeader =s kTracestateHeader) with false. cbn iota.
  destruct (TraceState.ToHeader (trace_state c)) as [|x h]; cbn; by rewrite <- Hrt.
Qed.

Lemma trace_context_roundtrip_witness :
  TraceContext_Extract (Some (carrier (TraceContext_Inject sample_context true)))
  = mkSpanContext (replicate 16 171) (replicate 8 205) 3 (trace_state sample_context) true.
Proof.
  apply (trace_context_roundtrip sample_context);
    [apply sample_context_wf|apply TraceState.FromHeader_wf_aux|reflexivity].
Defined.

(** Baggage injected into a carrier is extracted unchanged, and an empty
    baggage writes no header. *)
Theorem baggage_carrier_roundtrip b :
  Baggage.reachable b →
  Baggage_Extract (Some (carrier (Baggage_Inject b true))) = b
  ∧ (Baggage_Inject b true = [] ↔ b = Baggage_default)
  ∧ Forall (λ w, snd w ≠ []) (Baggage_Inject b true).
Proof.
  intros Hb%Baggage.reachable_wf. pose proof (bag_FromHeader_ToHeader_aux b Hb) as Hrt.
  unfold Baggage_Inject, Baggage.Empty, Baggage.Size, Baggage_default.
  destruct b as [[l|]]; cbn [m_impl] in *; [|repeat split; try done; constructor].
  destruct Hb as [Hne _]. rewrite (proj2 (Z.eqb_neq _ _)) by (rewrite size_nil_iff; done).
  cbn [orb negb]. split_and!; [exact Hrt|done|]. apply Forall_singleton. cbn [snd].
  intros E. rewrite E in Hrt. vm_compute in Hrt. injection Hrt as Hl. by subst.
Qed.

Lemma baggage_carrier_roundtrip_witness :
  Baggage_Extract (Some (carrier (Baggage_Inject Baggage.sample true))) = Baggage.sample.
Proof. apply (baggage_carrier_roundtrip Baggage.sample), Baggage.sample_reachable. Defined.

(** Whatever the carrier holds, an extraction yields the default context or a
    valid remote one whose [tracestate] satisfies the class invariant; a missing
    or malformed [traceparent] discards the [tracestate] with it, and a malformed
    [tracestate] never costs the ids. *)
Theorem extract_safe get :
  let c := TraceContext_Extract (Some get) in
  (c = SpanContext_default ∧
   ∀ h, get kTraceparentHeader = Some h → ParseTraceparent h SpanContext_default = None)
  ∨ (∃ h, get kTraceparentHeader = Some h
      ∧ ParseTraceparent h SpanContext_default
        = Some (mkSpanContext (trace_id c) (span_id c) (trace_flags c) TraceState_default false)
      ∧ wf_span_context c ∧ SpanContext_IsValid c = true ∧ remote c = true
      ∧ TraceState.wf (trace_state c)
      ∧ trace_state c = match get kTracestateHeader with
                        | Some st => TraceState.FromHeader st
                        | None => TraceState_default
                        end).
Proof.
  cbv zeta. unfold TraceContext_Extract.
  destruct (get kTraceparentHeader) as [h|]; [|by left].
  destruct (ParseTraceparent h SpanContext_default) as [c|] eqn:E; [|left; split; [done|by intros ? [= <-]]].
  right. exists h. split; [done|]. pose proof E as Hp.
  apply ParseTraceparent_inv in E as (_ & _ & _ & _ & _ & _ & Hwf & Hv & Hst & Hr).
  cbn [trace_id span_id trace_flags trace_state remote]. rewrite Hst.
  destruct (get kTracestateHeader); split_and!; try done.
  1,3: rewrite Hp; destruct c; cbn in *; by subst.
  apply TraceState.FromHeader_wf_aux.
Qed.
