(* ===== verification/Data.v ===== *)
(** * Records that flow through the SDK

    Model of the data types of [include/microtel/attribute.hpp], [resource.hpp],
    [log_record.hpp], [internal/batch.hpp], [status.hpp], [provider.hpp]
    ([DropReason]) and [sdk_builder.hpp] ([BatchOptions], [DropPolicy],
    [MemoryLimitOptions]), and of [Resource::Merge].

    A [double] attribute is its 64-bit pattern; a [system_clock] time point is its
    nanosecond count; a [shared_ptr<const Resource>] is the identity of the object
    it points to ([None] is null), because the code compares such pointers. *)
From S2P Require Import Prelude Context.

Inductive AttributeValue :=
| AvBool (b : bool)
| AvInt (z : Z)
| AvDouble (bits : Z)
| AvString (s : str)
| AvBools (l : list bool)
| AvInts (l : list Z)
| AvDoubles (l : list Z)
| AvStrings (l : list str).

Record KeyValue := mkKeyValue { kv_key : str; kv_value : AttributeValue }.

#[export] Instance AttributeValue_eq_dec : EqDecision AttributeValue.
Proof. solve_decision. Defined.
#[export] Instance KeyValue_eq_dec : EqDecision KeyValue.
Proof. solve_decision. Defined.

(** ** Attribute equality

    [std::variant]'s [operator==]: same alternative and equal values, a double
    comparing by value, so NaN differs from itself and the two zeros agree. *)
Definition bits_is_nan (b : Z) : bool :=
  (Z.land (Z.shiftr b 52) 2047 =? 2047) && negb (Z.land b (2 ^ 52 - 1) =? 0).
Definition bits_is_zero (b : Z) : bool := Z.land b (2 ^ 63 - 1) =? 0.
Definition bits_eqb (a b : Z) : bool :=
  negb (bits_is_nan a) && negb (bits_is_nan b) && ((bits_is_zero a && bits_is_zero b) || (a =? b)).
Fixpoint list_eqb {A} (eqb : A → A → bool) (l k : list A) : bool :=
  match l, k with
  | [], [] => true
  | a :: l', b :: k' => eqb a b && list_eqb eqb l' k'
  | _, _ => false
  end.
Definition value_eqb (a b : AttributeValue) : bool :=
  match a, b with
  | AvBool x, AvBool y => Bool.eqb x y
  | AvInt x, AvInt y => x =? y
  | AvDouble x, AvDouble y => bits_eqb x y
  | AvString x, AvString y => x =s y
  | AvBools x, AvBools y => list_eqb Bool.eqb x y
  | AvInts x, AvInts y => list_eqb Z.eqb x y
  | AvDoubles x, AvDoubles y => list_eqb bits_eqb x y
  | AvStrings x, AvStrings y => list_eqb seqb x y
  | _, _ => false
  end.

(** [Resource]: its attribute list. *)
Record Resource := mkResource { m_attributes : list KeyValue }.
(** The pointee's identity. *)
Definition ResourcePtr := nat.

(** [it->value = kv.value] at the first key match, else [push_back]. *)
Fixpoint merge_one (merged : list KeyValue) (kv : KeyValue) : list KeyValue :=
  match merged with
  | [] => [kv]
  | m :: merged' =>
      if kv_key m =s kv_key kv then mkKeyValue (kv_key m) (kv_value kv) :: merged'
      else m :: merge_one merged' kv
  end.
(** [Resource::Merge]. *)
Definition Merge (base overriding : Resource) : Resource :=
  mkResource (fold_left merge_one (m_attributes overriding) (m_attributes base)).

Record InstrumentationScope := mkScope { scope_name : str; scope_version : str }.
#[export] Instance InstrumentationScope_eq_dec : EqDecision InstrumentationScope.
Proof. solve_decision. Defined.

Inductive SpanKind := KindInternal | KindServer | KindClient | KindProducer | KindConsumer.
Inductive StatusCode := CodeUnset | CodeOk | CodeError.

Record SpanEvent := mkSpanEvent {
  ev_name : str; ev_timestamp : Z; ev_attributes : list KeyValue }.
Record SpanLink := mkSpanLink {
  ln_context : SpanContext; ln_attributes : list KeyValue }.
Record SpanRecord := mkSpanRecord {
  sr_context : SpanContext;
  sr_parent_context : SpanContext;
  sr_name : str;
  sr_kind : SpanKind;
  sr_status_code : StatusCode;
  sr_status_description : str;
  sr_start_time : Z;
  sr_end_time : Z;
  sr_attributes : list KeyValue;
  sr_events : list SpanEvent;
  sr_links : list SpanLink;
  sr_resource : option ResourcePtr
}.

Record LogRecord := mkLogRecord {
  lr_time : Z;
  lr_observed_time : Z;
  lr_severity_number : Z;
  lr_severity_text : str;
  lr_body : AttributeValue;
  lr_attributes : list KeyValue;
  lr_dropped_attributes_count : Z;
  lr_trace_id : list Z;
  lr_span_id : list Z;
  lr_trace_flags : Z;
  lr_event_name : str
}.

Inductive DropReason :=
| QueueFull | RecordTooLarge | SpanAttributeLimit | SpanEventLimit | SpanLinkLimit
| EventAttributeLimit | LinkAttributeLimit | AttributeValueTruncated | PostShutdown
| ResponseTooLarge | DecompressionTooLarge | MalformedResponse | PartialSuccessRejection
| NonRetryableFailure | RetryableFailureRecovered | RetryBudgetExhausted | TransportBusy
| ConnectFailure | ForceFlushTimeout | ShutdownTimeout | CardinalityOverflow
| MetricCallbackTimeout | NonFiniteValue | LogAttributeLimit | LeafPayloadMalformed
| LeafPayloadTooLarge | LeafUnknown.
#[export] Instance DropReason_eq_dec : EqDecision DropReason.
Proof. solve_decision. Defined.

Inductive Status := Completed | TimedOut | AlreadyShutDown | Failed | InvalidArgument | Unsupported.

Inductive DropPolicy := DropNewest | DropOldest.
Record BatchOptions := mkBatchOptions {
  max_queue_size : Z;
  max_export_batch_size : Z;
  schedule_delay : Z;
  drop_policy : DropPolicy
}.
Record MemoryLimitOptions := mkMemoryLimitOptions {
  max_total_queue_bytes : Z;
  max_record_bytes : Z;
  max_response_bytes : Z;
  max_trailer_bytes : Z;
  max_decompressed_bytes : Z
}.

(** ** Resource merging *)

Definition lookup_attr (k : str) (l : list KeyValue) : option AttributeValue :=
  kv_value <$> find_key kv_key k l.
(** The value the last attribute with key [k] gives. *)
Definition last_attr (k : str) (l : list KeyValue) : option AttributeValue :=
  lookup_attr k (reverse l).

Lemma merge_one_lookup l kv k :
  lookup_attr k (merge_one l kv) = if kv_key kv =s k then Some (kv_value kv) else lookup_attr k l.
Proof.
  unfold lookup_attr, find_key. induction l as [|m l IH]; cbn; [by destruct (_ =s k)|].
  destruct (kv_key m =s kv_key kv) eqn:E; cbn.
  - apply seqb_true in E. rewrite E. by destruct (kv_key kv =s k).
  - destruct (kv_key m =s k) eqn:Ek; [|done].
    apply seqb_true in Ek. apply seqb_false in E. subst k.
    by rewrite (proj2 (seqb_false _ _)) by congruence.
Qed.

Lemma merge_one_keys l kv :
  kv_key <$> merge_one l kv
  = if has_key kv_key (kv_key kv) l then kv_key <$> l else (kv_key <$> l) ++ [kv_key kv].
Proof.
  unfold has_key. induction l as [|m l IH]; [done|]. cbn [merge_one existsb].
  destruct (kv_key m =s kv_key kv); cbn; [done|]. rewrite IH. by destruct (existsb _ l).
Qed.

Lemma merge_fold_lookup over l k :
  lookup_attr k (fold_left merge_one over l)
  = match last_attr k over with Some v => Some v | None => lookup_attr k l end.
Proof.
  unfold last_attr. revert l. induction over as [|kv over IH] using rev_ind; intros l; [done|].
  rewrite fold_left_app. cbn [fold_left]. rewrite merge_one_lookup, IH, reverse_app.
  change (reverse [kv]) with [kv]. unfold lookup_attr at 3, find_key. cbn.
  by destruct (kv_key kv =s k).
Qed.

Lemma merge_fold_keys over l :
  NoDup (kv_key <$> l) → NoDup (kv_key <$> fold_left merge_one over l).
Proof.
  revert l. induction over as [|kv over IH]; intros l H; [done|]. apply IH.
  rewrite merge_one_keys. destruct (has_key _ _ _) eqn:E; [done|]. apply has_key_false in E.
  rewrite NoDup_app. split_and!; [done| |apply NoDup_singleton].
  intros x Hx ->%list_elem_of_singleton. done.
Qed.

Lemma merge_fold_prefix over l : (kv_key <$> l) `prefix_of` (kv_key <$> fold_left merge_one over l).
Proof.
  revert l. induction over as [|kv over IH]; intros l; [done|].
  etrans; [|apply IH]. rewrite merge_one_keys. destruct (has_key _ _ _); [done|]. by eexists.
Qed.

(** [Resource::Merge] is a key-level merge: for every key the overriding
    resource wins (its last value for the key), otherwise the base's value stays;
    the base's keys keep their order in front and no key is duplicated. *)
Theorem resource_merge_spec base over :
  (∀ k, lookup_attr k (m_attributes (Merge base over))
        = match last_attr k (m_attributes over) with
          | Some v => Some v
          | None => lookup_attr k (m_attributes base)
          end)
  ∧ (kv_key <$> m_attributes base) `prefix_of` (kv_key <$> m_attributes (Merge base over))
  ∧ (NoDup (kv_key <$> m_attributes base) → NoDup (kv_key <$> m_attributes (Merge base over))).
Proof.
  split_and!; [intros k; apply merge_fold_lookup|apply merge_fold_prefix|apply merge_fold_keys].
Qed.

Lemma resource_merge_spec_witness :
  let base := mkResource [mkKeyValue $"a" (AvInt 1); mkKeyValue $"b" (AvBool true)] in
  NoDup (kv_key <$> m_attributes (Merge base (mkResource [mkKeyValue $"a" (AvInt 2)]))).
Proof.
  apply (resource_merge_spec _ (mkResource [mkKeyValue $"a" (AvInt 2)])). cbn.
  apply NoDup_cons; split; [by intros ?%list_elem_of_singleton|apply NoDup_singleton].
Defined.
