(* ===== verification/AttributeSet.v ===== *)
(** * Metric attribute sets

    Model of [src/sdk/metric_attribute_set.cpp]: the normalised, hashed attribute
    set metric series are keyed on.  [std::hash] is a parameter ([Hash]), of which
    only the library's own guarantee is assumed: equal arguments hash equally
    ([hash_respects]; the two zeros of [double] compare equal).

    [std::ranges::sort] leaves the order of equal keys unspecified; the model's
    sort is stable, and theorems assume distinct keys where it matters.

    The theorems: equality ignores the order in which attributes were given and
    coincides with equality of attribute maps, the hash never separates equal
    sets, and probing with a borrowed span is equivalent to building a set first. *)
From Stdlib Require Import Sorted.
From stdpp Require Import sorting.
From S2P Require Import Prelude Context Data.

(** ** [std::string] order *)

(** [lhs <= rhs] on strings: lexicographic on unsigned octets. *)
Fixpoint str_leb (a b : str) : bool :=
  match a, b with
  | [], _ => true
  | _, [] => false
  | x :: a', y :: b' => if code x <? code y then true else if code x =? code y then str_leb a' b' else false
  end.
Definition key_le (a b : KeyValue) : Prop := str_leb (kv_key a) (kv_key b) = true.
#[export] Instance key_le_dec a b : Decision (key_le a b).
Proof. unfold key_le. apply _. Defined.

Lemma str_leb_total a b : str_leb a b = true ∨ str_leb b a = true.
Proof.
  revert b. induction a as [|x a IH]; intros [|y b]; cbn; auto.
  destruct (Z.ltb_spec (code x) (code y)), (Z.ltb_spec (code y) (code x)), (Z.eqb_spec (code x) (code y)),
    (Z.eqb_spec (code y) (code x)); auto; lia.
Qed.
Lemma str_leb_antisym a b : str_leb a b = true → str_leb b a = true → a = b.
Proof.
  revert b. induction a as [|x a IH]; intros [|y b]; cbn; try done.
  destruct (Z.ltb_spec (code x) (code y)), (Z.ltb_spec (code y) (code x)), (Z.eqb_spec (code x) (code y)),
    (Z.eqb_spec (code y) (code x)); try done; try lia.
  intros. f_equal; [by apply code_inj|auto].
Qed.
Lemma str_leb_trans a b c : str_leb a b = true → str_leb b c = true → str_leb a c = true.
Proof.
  revert b c. induction a as [|x a IH]; intros [|y b] [|z c]; cbn; try done.
  destruct (Z.ltb_spec (code x) (code y)), (Z.ltb_spec (code y) (code z)), (Z.ltb_spec (code x) (code z)),
    (Z.eqb_spec (code x) (code y)), (Z.eqb_spec (code y) (code z)), (Z.eqb_spec (code x) (code z)); try done; try lia.
  apply IH.
Qed.
#[export] Instance key_le_total : Total key_le.
Proof. intros a b. apply str_leb_total. Qed.
#[export] Instance key_le_trans : Transitive key_le.
Proof. intros a b c. apply str_leb_trans. Qed.

(** ** Hashing *)

(** [std::hash] of the scalar types; doubles are bit patterns. *)
Record Hash := mkHash {
  hash_bool : bool → Z; hash_int : Z → Z; hash_double : Z → Z; hash_string : str → Z }.

Section hashing.
Context (H : Hash).

Definition kGolden : Z := 11400714819323198485.
(** [HashCombine]: the new seed. *)
Definition HashCombine (seed value : Z) : Z :=
  Z.lxor seed (to_uint 64 (value + kGolden + to_uint 64 (Z.shiftl seed 6) + Z.shiftr seed 2)).
(** [HashArray]. *)
Definition HashArray {A} (h : A → Z) (vec : list A) : Z :=
  fold_left (λ hash elem, HashCombine hash (h elem)) vec 0.
(** [HashValue]. *)
Definition HashValue (value : AttributeValue) : Z :=
  match value with
  | AvBool b => hash_bool H b
  | AvInt z => hash_int H z
  | AvDouble d => hash_double H d
  | AvString s => hash_string H s
  | AvBools l => HashArray (hash_bool H) l
  | AvInts l => HashArray (hash_int H) l
  | AvDoubles l => HashArray (hash_double H) l
  | AvStrings l => HashArray (hash_string H) l
  end.
(** [HashPair]. *)
Definition HashPair (pair : KeyValue) : Z := HashCombine (hash_string H (kv_key pair)) (HashValue (kv_value pair)).
(** [HashPairs]. *)
Definition HashPairs (attrs : list KeyValue) : Z :=
  fold_left (λ total pair, to_uint 64 (total + HashPair pair)) attrs 0.

(** ** [AttributeSet] *)

Record AttributeSet := mkAttributeSet { m_pairs : list KeyValue; m_hash : Z }.

(** [PairEqual]. *)
Definition PairEqual (lhs rhs : KeyValue) : bool :=
  (kv_key lhs =s kv_key rhs) && value_eqb (kv_value lhs) (kv_value rhs).
(** The constructor. *)
Definition AttributeSet_of (attrs : list KeyValue) : AttributeSet :=
  mkAttributeSet (merge_sort key_le attrs) (HashPairs attrs).
(** [HashOf]. *)
Definition HashOf (attrs : list KeyValue) : Z := HashPairs attrs.
(** [operator==]. *)
Definition AttributeSet_eqb (a b : AttributeSet) : bool :=
  if negb (m_hash a =? m_hash b) || negb (size (m_pairs a) =? size (m_pairs b)) then false
  else list_eqb PairEqual (m_pairs a) (m_pairs b).
(** [MatchesSpan]. *)
Definition MatchesSpan (s : AttributeSet) (attrs : list KeyValue) : bool :=
  if negb (size (m_pairs s) =? size attrs) then false
  else forallb (λ mine, match find_key kv_key (kv_key mine) attrs with
                        | Some found => value_eqb (kv_value found) (kv_value mine)
                        | None => false
                        end) (m_pairs s).
(** [OverflowAttributeSet]. *)
Definition OverflowAttributeSet : AttributeSet :=
  AttributeSet_of [mkKeyValue $"otel.metric.overflow" (AvBool true)].
End hashing.

(** ** Equality of values *)

Lemma bits_eqb_sym a b : bits_eqb a b = bits_eqb b a.
Proof.
  unfold bits_eqb. rewrite (Z.eqb_sym a b). destruct (bits_is_nan a), (bits_is_nan b); cbn; try done.
  by rewrite (andb_comm (bits_is_zero a)).
Qed.
Lemma bits_eqb_trans a b c : bits_eqb a b = true → bits_eqb b c = true → bits_eqb a c = true.
Proof.
  unfold bits_eqb. intros. bool_hyps.
  repeat match goal with H : bits_is_nan _ = _ |- _ => rewrite H; clear H end. cbn.
  repeat match goal with H : _ || _ = true |- _ => apply orb_true_iff in H; destruct H end; bool_hyps; subst;
    apply orb_true_iff; repeat match goal with H : bits_is_zero _ = true |- _ => rewrite H in * end; cbn;
    rewrite ?Z.eqb_refl; auto.
Qed.

Lemma list_eqb_Forall2 {A} (eqb : A → A → bool) l k :
  list_eqb eqb l k = true ↔ Forall2 (λ a b, eqb a b = true) l k.
Proof.
  revert k. induction l as [|a l IH]; intros [|b k]; cbn.
  - split; [constructor|done].
  - split; [done|inversion 1].
  - split; [done|inversion 1].
  - rewrite andb_true_iff, IH. split; [intros []; by constructor|by inversion 1].
Qed.
Lemma list_eqb_sym {A} (eqb : A → A → bool) l k :
  (∀ a b, eqb a b = eqb b a) → list_eqb eqb l k = list_eqb eqb k l.
Proof. intros E. revert k. induction l as [|a l IH]; intros [|b k]; cbn; try done. by rewrite E, IH. Qed.
Lemma list_eqb_trans {A} (eqb : A → A → bool) l k m :
  (∀ a b c, eqb a b = true → eqb b c = true → eqb a c = true) →
  list_eqb eqb l k = true → list_eqb eqb k m = true → list_eqb eqb l m = true.
Proof.
  intros E. revert k m. induction l as [|a l IH]; intros [|b k] [|c m]; cbn; try done.
  intros. bool_hyps. apply andb_true_iff. eauto.
Qed.
Lemma seqb_sym a b : (a =s b) = (b =s a).
Proof. unfold seqb. apply bool_decide_ext. split; done. Qed.

Lemma value_eqb_sym a b : value_eqb a b = value_eqb b a.
Proof.
  destruct a, b; cbn; try done; auto using Z.eqb_sym, bits_eqb_sym, seqb_sym.
  - by destruct b0, b.
  - apply list_eqb_sym. by intros [] [].
  - apply list_eqb_sym, Z.eqb_sym.
  - apply list_eqb_sym, bits_eqb_sym.
  - apply list_eqb_sym, seqb_sym.
Qed.
Lemma value_eqb_trans a b c : value_eqb a b = true → value_eqb b c = true → value_eqb a c = true.
Proof.
  destruct a, b; cbn; try done; destruct c; cbn; try done.
  - rewrite !eqb_true_iff. congruence.
  - rewrite !Z.eqb_eq. congruence.
  - apply bits_eqb_trans.
  - rewrite !seqb_true. congruence.
  - apply list_eqb_trans. intros [] [] []; done.
  - apply list_eqb_trans. intros ???. rewrite !Z.eqb_eq. congruence.
  - apply list_eqb_trans, bits_eqb_trans.
  - apply list_eqb_trans. intros ???. rewrite !seqb_true. congruence.
Qed.

Lemma PairEqual_sym a b : PairEqual a b = PairEqual b a.
Proof. unfold PairEqual. by rewrite seqb_sym, value_eqb_sym. Qed.
Lemma PairEqual_trans a b c : PairEqual a b = true → PairEqual b c = true → PairEqual a c = true.
Proof.
  unfold PairEqual. intros. bool_hyps. apply andb_true_iff. rewrite seqb_true in *.
  split; [congruence|by eapply value_eqb_trans].
Qed.

(** No double among the values is a NaN. *)
Definition value_regular (v : AttributeValue) : bool :=
  match v with
  | AvDouble d => negb (bits_is_nan d)
  | AvDoubles l => forallb (negb ∘ bits_is_nan) l
  | _ => true
  end.
Definition regular (attrs : list KeyValue) : bool := forallb (value_regular ∘ kv_value) attrs.

Lemma bits_eqb_refl d : bits_is_nan d = false → bits_eqb d d = true.
Proof. intros E. unfold bits_eqb. rewrite E, Z.eqb_refl. cbn. apply orb_true_r. Qed.
Lemma list_eqb_refl {A} (eqb : A → A → bool) l : (∀ a, a ∈ l → eqb a a = true) → list_eqb eqb l l = true.
Proof.
  intros E. apply list_eqb_Forall2, Forall2_same_length_lookup_2; [done|]. intros i a b Ha Hb.
  assert (a = b) as -> by congruence. apply E. by eapply list_elem_of_lookup_2.
Qed.
Lemma value_eqb_refl v : value_regular v = true → value_eqb v v = true.
Proof.
  destruct v; cbn; intros E; try done; bool_hyps.
  - by destruct b.
  - apply Z.eqb_refl.
  - by apply bits_eqb_refl.
  - apply seqb_refl.
  - apply list_eqb_refl. by intros [].
  - apply list_eqb_refl. intros. apply Z.eqb_refl.
  - apply list_eqb_refl. intros a Ha. apply bits_eqb_refl.
    pose proof (forallb_elem _ _ _ E Ha) as Hn. cbn in Hn. by bool_hyps.
  - apply list_eqb_refl. intros. apply seqb_refl.
Qed.

(** ** Attribute maps *)

Definition opt_eqb (a b : option AttributeValue) : bool :=
  match a, b with Some v, Some w => value_eqb v w | None, None => true | _, _ => false end.
(** Two attribute lists denote the same map. *)
Definition same_map (a b : list KeyValue) : Prop := ∀ k, opt_eqb (lookup_attr k a) (lookup_attr k b) = true.

Lemma lookup_attr_cons kv l k :
  lookup_attr k (kv :: l) = if kv_key kv =s k then Some (kv_value kv) else lookup_attr k l.
Proof. unfold lookup_attr, find_key. cbn. by destruct (_ =s k). Qed.
Lemma lookup_attr_None k l : lookup_attr k l = None ↔ k ∉ kv_key <$> l.
Proof. unfold lookup_attr. rewrite fmap_None. apply find_key_None. Qed.
Lemma lookup_attr_elem l k v :
  NoDup (kv_key <$> l) → lookup_attr k l = Some v ↔ mkKeyValue k v ∈ l.
Proof.
  induction l as [|kv l IH]; cbn [fmap list_fmap].
  { intros _. split; [done|]. by intros ?%elem_of_nil. }
  intros [Hn Hd]%NoDup_cons. rewrite lookup_attr_cons, elem_of_cons, <- IH by done.
  destruct (kv_key kv =s k) eqn:E; [apply seqb_true in E|apply seqb_false in E].
  - subst k. split; [intros [= <-]; left; by destruct kv|]. intros [<-|Hl]; [done|]. exfalso. apply Hn.
    apply list_elem_of_fmap. eexists (mkKeyValue _ v). split; [done|]. by apply IH.
  - split; [auto|]. intros [<-|?]; [done|done].
Qed.
Lemma lookup_attr_perm l l' k : NoDup (kv_key <$> l) → l ≡ₚ l' → lookup_attr k l = lookup_attr k l'.
Proof.
  intros Hd Hp. assert (NoDup (kv_key <$> l')) as Hd' by (by rewrite <- Hp). apply option_eq. intros v.
  rewrite !lookup_attr_elem by done. by rewrite Hp.
Qed.

Lemma pairs_same_map l k : Forall2 (λ a b, PairEqual a b = true) l k → same_map l k.
Proof.
  intros F key. induction F as [|a b l k E F IH]; [done|]. rewrite !lookup_attr_cons.
  unfold PairEqual in E. bool_hyps. apply seqb_true in H. rewrite H. by destruct (_ =s key).
Qed.

Lemma sorted_same_map l k :
  NoDup (kv_key <$> l) → NoDup (kv_key <$> k) → StronglySorted key_le l → StronglySorted key_le k →
  same_map l k → Forall2 (λ a b, PairEqual a b = true) l k.
Proof.
  revert k. induction l as [|x l IH]; intros k Hl Hk Sl Sk M.
  - destruct k as [|y k]; [constructor|]. specialize (M (kv_key y)). rewrite lookup_attr_cons, seqb_refl in M. done.
  - destruct k as [|y k].
    { specialize (M (kv_key x)). by rewrite lookup_attr_cons, seqb_refl in M. }
    apply StronglySorted_inv in Sl as [Sl Fx], Sk as [Sk Fy]. cbn [fmap list_fmap] in Hl, Hk.
    apply NoDup_cons in Hl as [Nx Hl], Hk as [Ny Hk].
    assert (∀ z (m n : list KeyValue) w, same_map (z :: m) (w :: n) → Forall (key_le w) n →
      str_leb (kv_key w) (kv_key z) = true) as Low.
    { intros z m n w Hm Hw. specialize (Hm (kv_key z)). rewrite !lookup_attr_cons, seqb_refl in Hm.
      destruct (kv_key w =s kv_key z) eqn:E.
      - apply seqb_true in E. rewrite E. by destruct (str_leb_total (kv_key z) (kv_key z)).
      - destruct (lookup_attr (kv_key z) n) as [v|] eqn:El; [|done]. rewrite Forall_forall in Hw.
        apply (f_equal is_Some) in El. destruct (decide (kv_key z ∈ kv_key <$> n)) as [Hin|Hn].
        + apply list_elem_of_fmap in Hin as (c & Hc & Hin). rewrite Hc. by apply Hw.
        + apply lookup_attr_None in Hn. rewrite Hn in El. exfalso. assert (is_Some (@None AttributeValue)) as []; [|done].
          rewrite El. eauto. }
    assert (same_map (y :: k) (x :: l)) as M'.
    { intros key. specialize (M key). unfold opt_eqb in *. destruct (lookup_attr key (x :: l)), (lookup_attr key (y :: k)); try done.
      by rewrite value_eqb_sym. }
    assert (kv_key x = kv_key y) as Exy by (apply str_leb_antisym; eapply Low; eauto).
    constructor.
    + specialize (M (kv_key x)). rewrite !lookup_attr_cons, seqb_refl, <- Exy, seqb_refl in M.
      unfold PairEqual. rewrite Exy, seqb_refl. done.
    + apply IH; [done..|]. intros key. specialize (M key). rewrite !lookup_attr_cons, <- Exy in M.
      destruct (kv_key x =s key) eqn:E; [|done]. apply seqb_true in E. subst key.
      rewrite (proj2 (lookup_attr_None _ _) Nx). rewrite Exy, (proj2 (lookup_attr_None _ _) Ny). done.
Qed.

(** ** The set *)

Section facts.
Context (H : Hash).
(** The guarantee of [std::hash<double>]: equal arguments hash equally. *)
Context (hash_respects : ∀ a b, bits_eqb a b = true → hash_double H a = hash_double H b).

Lemma HashPairs_sum l : HashPairs H l = to_uint 64 (zsum (HashPair H) l).
Proof.
  unfold HashPairs. assert (∀ t, fold_left (λ total pair, to_uint 64 (total + HashPair H pair)) l (to_uint 64 t)
    = to_uint 64 (t + zsum (HashPair H) l)) as G; [|by rewrite <- (Z.add_0_l (zsum _ _)), <- G].
  induction l as [|kv l IH]; intros t; [cbn; by rewrite Z.add_0_r|]. cbn [fold_left]. rewrite zsum_cons, Z.add_assoc, <- IH.
  f_equal. unfold to_uint. by rewrite Zplus_mod_idemp_l.
Qed.
Lemma HashArray_respects {A} (h : A → Z) (eqb : A → A → bool) l k :
  (∀ a b, eqb a b = true → h a = h b) → list_eqb eqb l k = true → HashArray h l = HashArray h k.
Proof.
  intros E. unfold HashArray. generalize 0. revert k. induction l as [|a l IH]; intros [|b k] z; cbn; try done.
  intros. bool_hyps. rewrite (E a b) by done. by apply IH.
Qed.
Lemma HashPair_respects a b : PairEqual a b = true → HashPair H a = HashPair H b.
Proof.
  unfold PairEqual, HashPair. intros. bool_hyps. apply seqb_true in H0. rewrite H0. f_equal.
  destruct (kv_value a), (kv_value b); cbn in *; try done; try apply hash_respects; try done.
  - apply eqb_prop in H1. by subst.
  - apply Z.eqb_eq in H1. by subst.
  - apply seqb_true in H1. by subst.
  - eapply HashArray_respects; [|done]. intros ?? ->%eqb_prop. done.
  - eapply HashArray_respects; [|done]. intros ?? ->%Z.eqb_eq. done.
  - eapply HashArray_respects; [|done]. exact hash_respects.
  - eapply HashArray_respects; [|done]. intros ?? ->%seqb_true. done.
Qed.
Lemma HashPairs_perm l k : l ≡ₚ k → HashPairs H l = HashPairs H k.
Proof. intros P. rewrite !HashPairs_sum. by rewrite (zsum_perm _ l k). Qed.
Lemma HashPairs_respects l k : Forall2 (λ a b, PairEqual a b = true) l k → HashPairs H l = HashPairs H k.
Proof.
  intros F. rewrite !HashPairs_sum. f_equal. induction F as [|a b l k E F IH]; [done|].
  rewrite !zsum_cons, IH. f_equal. by apply HashPair_respects.
Qed.

Lemma set_eqb_pairs a b :
  AttributeSet_eqb (AttributeSet_of H a) (AttributeSet_of H b) = true
  ↔ Forall2 (λ x y, PairEqual x y = true) (merge_sort key_le a) (merge_sort key_le b).
Proof.
  unfold AttributeSet_eqb. cbn [m_hash m_pairs AttributeSet_of]. rewrite <- list_eqb_Forall2.
  destruct (list_eqb PairEqual _ _) eqn:E; [|split; [by case_match|done]].
  split; [done|]. intros _. apply list_eqb_Forall2 in E.
  assert (HashPairs H a = HashPairs H b) as ->.
  { rewrite <- (HashPairs_perm _ _ (merge_sort_Permutation key_le a)), <- (HashPairs_perm _ _ (merge_sort_Permutation key_le b)).
    by apply HashPairs_respects. }
  rewrite Z.eqb_refl. unfold size. rewrite (Forall2_length _ _ _ E), Z.eqb_refl. done.
Qed.

Lemma set_eqb_same_map a b :
  NoDup (kv_key <$> a) → NoDup (kv_key <$> b) →
  AttributeSet_eqb (AttributeSet_of H a) (AttributeSet_of H b) = true ↔ same_map a b.
Proof.
  intros Ha Hb. rewrite set_eqb_pairs. pose proof (merge_sort_Permutation key_le a) as Pa.
  pose proof (merge_sort_Permutation key_le b) as Pb.
  assert (same_map (merge_sort key_le a) (merge_sort key_le b) ↔ same_map a b) as <-.
  { unfold same_map. by setoid_rewrite (lookup_attr_perm a _ _ Ha (symmetry Pa)); setoid_rewrite (lookup_attr_perm b _ _ Hb (symmetry Pb)). }
  split; [apply pairs_same_map|].
  apply sorted_same_map; [by rewrite Pa|by rewrite Pb| |]; apply StronglySorted_merge_sort; apply _.
Qed.

Lemma same_map_keys a b k : same_map a b → (k ∈ kv_key <$> a ↔ k ∈ kv_key <$> b).
Proof.
  intros M. specialize (M k). destruct (lookup_attr k a) eqn:Ea, (lookup_attr k b) eqn:Eb; try done.
  - split; intros _; apply dec_stable; rewrite <- lookup_attr_None; congruence.
  - rewrite lookup_attr_None in Ea, Eb. done.
Qed.

Lemma matches_same_map a b :
  NoDup (kv_key <$> a) → NoDup (kv_key <$> b) → MatchesSpan (AttributeSet_of H a) b = true ↔ same_map a b.
Proof.
  intros Ha Hb. unfold MatchesSpan. cbn [m_pairs AttributeSet_of]. unfold size.
  pose proof (merge_sort_Permutation key_le a) as Pa. rewrite (Permutation_length Pa).
  destruct (Z.eqb_spec (Z.of_nat (length a)) (Z.of_nat (length b))) as [El|El]; cbn [negb].
  - rewrite forallb_forall. setoid_rewrite <- list_elem_of_In. setoid_rewrite Pa. split.
    + intros Hall. assert (∀ k v, lookup_attr k a = Some v → ∃ w, lookup_attr k b = Some w ∧ value_eqb v w = true) as Hin.
      { intros k v Hk. apply lookup_attr_elem in Hk; [|done]. specialize (Hall _ Hk). cbn [kv_key kv_value] in Hall.
        unfold lookup_attr. destruct (find_key kv_key k b) as [kv|]; [|done]. exists (kv_value kv).
        by rewrite value_eqb_sym. }
      assert ((kv_key <$> a) ≡ₚ (kv_key <$> b)) as Pk.
      { apply submseteq_length_Permutation; [|rewrite !length_fmap; lia]. apply NoDup_submseteq; [done|].
        intros k Hk. apply dec_stable. rewrite <- lookup_attr_None. intros En.
        destruct (lookup_attr k a) as [v|] eqn:Ea; [|by apply lookup_attr_None in Ea].
        destruct (Hin _ _ Ea) as (w & Ew & _). congruence. }
      intros k. destruct (lookup_attr k a) as [v|] eqn:Ea.
      * destruct (Hin _ _ Ea) as (w & -> & ?). done.
      * apply lookup_attr_None in Ea. rewrite Pk, <- lookup_attr_None in Ea. by rewrite Ea.
    + intros M [k v] Hkv. apply lookup_attr_elem in Hkv; [|done]. cbn [kv_key kv_value]. specialize (M k).
      rewrite Hkv in M. unfold lookup_attr in M. destruct (find_key kv_key k b) as [kv|]; [|done]. cbn in M.
      by rewrite value_eqb_sym.
  - split; [done|]. intros M. exfalso. apply El. f_equal.
    rewrite <- (length_fmap kv_key a), <- (length_fmap kv_key b). apply Permutation_length, NoDup_Permutation; [done..|].
    intros k. by apply same_map_keys.
Qed.

(** Equality of sets is a partial equivalence, total on sets without NaN. *)
Lemma set_eqb_sym x y : AttributeSet_eqb x y = AttributeSet_eqb y x.
Proof.
  unfold AttributeSet_eqb. rewrite (Z.eqb_sym (m_hash x)), (Z.eqb_sym (size (m_pairs x))).
  by rewrite (list_eqb_sym _ (m_pairs x)) by apply PairEqual_sym.
Qed.
Lemma set_eqb_trans x y z :
  AttributeSet_eqb x y = true → AttributeSet_eqb y z = true → AttributeSet_eqb x z = true.
Proof.
  unfold AttributeSet_eqb. destruct (m_hash x =? m_hash y) eqn:E1, (m_hash y =? m_hash z) eqn:E2,
    (size (m_pairs x) =? size (m_pairs y)) eqn:E3, (size (m_pairs y) =? size (m_pairs z)) eqn:E4; cbn; try done.
  bool_hyps. rewrite E1, E2, E3, E4, !Z.eqb_refl. cbn. apply list_eqb_trans, PairEqual_trans.
Qed.
Lemma set_eqb_refl a : regular a = true → AttributeSet_eqb (AttributeSet_of H a) (AttributeSet_of H a) = true.
Proof.
  intros R. unfold AttributeSet_eqb. rewrite !Z.eqb_refl. cbn [negb orb]. apply list_eqb_refl.
  intros kv Hin. cbn in Hin. rewrite (merge_sort_Permutation key_le a) in Hin.
  unfold PairEqual. rewrite seqb_refl. apply value_eqb_refl. exact (forallb_elem _ _ _ R Hin).
Qed.
End facts.

(** Attribute sets are equal exactly when they are the same map from keys to
    values, in whatever order the attributes were given: the hash comparison that
    comes first never separates equal sets, probing with a borrowed span agrees
    with building a set, and [HashOf] the span is the hash of the set. *)
Theorem attribute_set_equality H a b :
  (∀ x y, bits_eqb x y = true → hash_double H x = hash_double H y) →
  NoDup (kv_key <$> a) → NoDup (kv_key <$> b) →
  (AttributeSet_eqb (AttributeSet_of H a) (AttributeSet_of H b) = true ↔ same_map a b)
  ∧ MatchesSpan (AttributeSet_of H a) b = AttributeSet_eqb (AttributeSet_of H a) (AttributeSet_of H b)
  ∧ (AttributeSet_eqb (AttributeSet_of H a) (AttributeSet_of H b) = true → HashOf H a = HashOf H b)
  ∧ ∀ a', a ≡ₚ a' → regular a = true →
      AttributeSet_eqb (AttributeSet_of H a) (AttributeSet_of H a') = true.
Proof.
  intros HR Ha Hb. split_and!.
  - by apply set_eqb_same_map.
  - apply eq_true_iff_eq. rewrite matches_same_map, set_eqb_same_map by done. done.
  - unfold AttributeSet_eqb, HashOf. cbn. destruct (Z.eqb_spec (HashPairs H a) (HashPairs H b)); [done|]. done.
  - intros a' P R. apply set_eqb_same_map; [done|done|by rewrite <- P|].
    intros k. rewrite <- (lookup_attr_perm a a' k Ha P). destruct (lookup_attr k a) as [v|] eqn:E; [|done].
    apply value_eqb_refl. apply lookup_attr_elem in E; [|done]. exact (forallb_elem _ _ _ R E).
Qed.

(** A concrete [std::hash], for evaluation. *)
Definition demo_hash : Hash :=
  mkHash (λ b, if b then 1 else 0) (to_uint 64) (λ d, if bits_is_zero d then 0 else d)
    (λ s, fold_left (λ h c, to_uint 64 (h * 31 + code c)) s 7).
Lemma demo_hash_respects x y : bits_eqb x y = true → hash_double demo_hash x = hash_double demo_hash y.
Proof.
  unfold bits_eqb. cbn. intros. bool_hyps. apply orb_true_iff in H0 as [Z0|E]; bool_hyps; [|by subst].
  by rewrite H0, H2.
Qed.

Lemma attribute_set_equality_witness :
  let a := [mkKeyValue $"b" (AvInt 1); mkKeyValue $"a" (AvDouble 0)] in
  let b := [mkKeyValue $"a" (AvDouble (2 ^ 63)); mkKeyValue $"b" (AvInt 1)] in
  same_map a b ∧ MatchesSpan (AttributeSet_of demo_hash a) b = true.
Proof.
  cbn zeta.
  destruct (attribute_set_equality demo_hash [mkKeyValue $"b" (AvInt 1); mkKeyValue $"a" (AvDouble 0)]
    [mkKeyValue $"a" (AvDouble (2 ^ 63)); mkKeyValue $"b" (AvInt 1)] demo_hash_respects) as (H1 & H2 & _).
  1, 2: cbn; apply NoDup_cons; split; [by intros ?%list_elem_of_singleton|apply NoDup_singleton].
  split; [apply H1; vm_compute; reflexivity|rewrite H2; vm_compute; reflexivity].
Defined.
