(* ===== verification/SpanLimits.v ===== *)
(** * Span limits

    Model of [src/sdk/span_limits.cpp]: truncation of attribute strings at a UTF-8
    boundary and the trimming of a finished record.  A call to the diagnostics
    sink is a pair of a reason and a count, in call order; [diag] says whether the
    sink pointer is non-null.  Allocation failure ([AppendOne]'s handler) is not
    modelled.

    The theorems: a truncated string is the longest prefix within the budget that
    splits no code point, so well-formed UTF-8 stays well-formed and loses at most
    three bytes more than the budget asks; trimming yields a record within the
    limits and accounts for every removed item. *)
From S2P Require Import Prelude Trace Context Data.

(** [SpanLimitOptions]; the fields are 32-bit unsigned. *)
Record SpanLimitOptions := mkSpanLimitOptions {
  attribute_count_limit : Z;
  event_count_limit : Z;
  link_count_limit : Z;
  attribute_value_length_limit : Z;
  event_attribute_count_limit : Z;
  link_attribute_count_limit : Z
}.
Definition SpanLimitOptions_default : SpanLimitOptions :=
  mkSpanLimitOptions 128 128 128 4096 128 128.

(** The calls [diag->RecordDrop(reason, n)], in order. *)
Abbreviation Drops := (list (DropReason * Z)).

(** [(byte & 0xC0) == 0x80]. *)
Definition is_continuation (c : char) : bool := Z.land (code c) 192 =? 128.

(** [Utf8SafePrefix]: the loop from [cut = limit].  The caller guarantees
    [limit < s.size()], so [s[cut]] is always in range and [nth]'s default unused. *)
Fixpoint Utf8SafePrefix (s : str) (cut : nat) : nat :=
  match cut with
  | O => O
  | S c => if is_continuation (nth cut s "000"%char) then Utf8SafePrefix s c else cut
  end.

(** [Count]. *)
Definition Count (diag : bool) (reason : DropReason) (n : Z) : Drops :=
  if (0 <? n) && diag then [(reason, n)] else [].

(** [KeepFirst]: the items kept, and how many went. *)
Definition KeepFirst {T} (items : list T) (limit : Z) : list T * Z :=
  if size items <=? limit then (items, 0)
  else (take (Z.to_nat limit) items, size items - limit).

(** The string [resize]d when it is over the limit, and whether it was. *)
Definition truncate_one (limit : Z) (s : str) : str * Z :=
  if size s <=? limit then (s, 0)
  else (take (Utf8SafePrefix s (Z.to_nat limit)) s, 1).
(** [TruncateStrings]: the value, and how many strings lost bytes. *)
Fixpoint truncate_elements (limit : Z) (l : list str) (truncated : Z) : list str * Z :=
  match l with
  | [] => ([], truncated)
  | element :: rest =>
      let '(element', n) := truncate_one limit element in
      let '(rest', total) := truncate_elements limit rest (truncated + n) in
      (element' :: rest', total)
  end.
Definition TruncateStrings (value : AttributeValue) (limit : Z) : AttributeValue * Z :=
  match value with
  | AvString s => let '(s', n) := truncate_one limit s in (AvString s', n)
  | AvStrings l => let '(l', n) := truncate_elements limit l 0 in (AvStrings l', n)
  | _ => (value, 0)
  end.

(** [TruncateAll]. *)
Fixpoint TruncateAll_loop (attributes : list KeyValue) (limit truncated : Z) : list KeyValue * Z :=
  match attributes with
  | [] => ([], truncated)
  | kv :: rest =>
      let '(v, n) := TruncateStrings (kv_value kv) limit in
      let '(rest', total) := TruncateAll_loop rest limit (truncated + n) in
      (mkKeyValue (kv_key kv) v :: rest', total)
  end.
Definition TruncateAll (attributes : list KeyValue) (limit : Z) : list KeyValue * Z :=
  TruncateAll_loop attributes limit 0.

(** [AppendOne]. *)
Definition AppendOne (attributes : list KeyValue) (kv : KeyValue) (limit : Z) : list KeyValue * Z :=
  let '(v, truncated) := TruncateStrings (kv_value kv) limit in
  (attributes ++ [mkKeyValue (kv_key kv) v], truncated).

(** The body of [ApplySpanLimits]' loop over events: attributes kept and clipped,
    the two running totals. *)
Fixpoint limit_events (limits : SpanLimitOptions) (events : list SpanEvent) (event_attrs truncated : Z)
    : list SpanEvent * Z * Z :=
  match events with
  | [] => ([], event_attrs, truncated)
  | event :: rest =>
      let '(kept, gone) := KeepFirst (ev_attributes event) (event_attribute_count_limit limits) in
      let '(clipped, cut) := TruncateAll kept (attribute_value_length_limit limits) in
      let '(rest', ea, tr) := limit_events limits rest (event_attrs + gone) (truncated + cut) in
      (mkSpanEvent (ev_name event) (ev_timestamp event) clipped :: rest', ea, tr)
  end.
(** The same loop over links. *)
Fixpoint limit_links (limits : SpanLimitOptions) (links : list SpanLink) (link_attrs truncated : Z)
    : list SpanLink * Z * Z :=
  match links with
  | [] => ([], link_attrs, truncated)
  | link :: rest =>
      let '(kept, gone) := KeepFirst (ln_attributes link) (link_attribute_count_limit limits) in
      let '(clipped, cut) := TruncateAll kept (attribute_value_length_limit limits) in
      let '(rest', la, tr) := limit_links limits rest (link_attrs + gone) (truncated + cut) in
      (mkSpanLink (ln_context link) clipped :: rest', la, tr)
  end.

Definition set_contents (r : SpanRecord) (attributes : list KeyValue) (events : list SpanEvent)
    (links : list SpanLink) : SpanRecord :=
  mkSpanRecord (sr_context r) (sr_parent_context r) (sr_name r) (sr_kind r) (sr_status_code r)
    (sr_status_description r) (sr_start_time r) (sr_end_time r) attributes events links (sr_resource r).

(** [ApplySpanLimits]: the record afterwards and the sink calls. *)
Definition ApplySpanLimits (record : SpanRecord) (limits : SpanLimitOptions) (diag : bool)
    : SpanRecord * Drops :=
  let value_limit := attribute_value_length_limit limits in
  let '(kept, gone) := KeepFirst (sr_attributes record) (attribute_count_limit limits) in
  let calls1 := Count diag SpanAttributeLimit gone in
  let '(attributes, truncated) := TruncateAll kept value_limit in
  let '(kept_events, gone_events) := KeepFirst (sr_events record) (event_count_limit limits) in
  let calls2 := Count diag SpanEventLimit gone_events in
  let '(events, event_attrs, truncated) := limit_events limits kept_events 0 truncated in
  let calls3 := Count diag EventAttributeLimit event_attrs in
  let '(kept_links, gone_links) := KeepFirst (sr_links record) (link_count_limit limits) in
  let calls4 := Count diag SpanLinkLimit gone_links in
  let '(links, link_attrs, truncated) := limit_links limits kept_links 0 truncated in
  let calls5 := Count diag LinkAttributeLimit link_attrs in
  (set_contents record attributes events links,
   calls1 ++ calls2 ++ calls3 ++ calls4 ++ calls5 ++ Count diag AttributeValueTruncated truncated).

(** [AppendAttributes]. *)
Fixpoint AppendAttributes_loop (attributes extra : list KeyValue) (limits : SpanLimitOptions)
    (over_limit truncated : Z) : list KeyValue * Z * Z :=
  match extra with
  | [] => (attributes, over_limit, truncated)
  | kv :: rest =>
      if attribute_count_limit limits <=? size attributes
      then AppendAttributes_loop attributes rest limits (over_limit + 1) truncated
      else
        let '(attributes', n) := AppendOne attributes kv (attribute_value_length_limit limits) in
        AppendAttributes_loop attributes' rest limits over_limit (truncated + n)
  end.
Definition AppendAttributes (attributes extra : list KeyValue) (limits : SpanLimitOptions) (diag : bool)
    : list KeyValue * Drops :=
  let '(attributes', over_limit, truncated) := AppendAttributes_loop attributes extra limits 0 0 in
  (attributes', Count diag SpanAttributeLimit over_limit ++ Count diag AttributeValueTruncated truncated).

(** ** UTF-8

    Well-formed byte sequences as the Unicode standard tabulates them. *)
Definition byte_in (lo hi : Z) (c : char) : bool := (lo <=? code c) && (code c <=? hi).
Definition utf8_char (s : str) : bool :=
  match s with
  | [a] => byte_in 0 127 a
  | [a; b] => byte_in 194 223 a && byte_in 128 191 b
  | [a; b; c] =>
      ((byte_in 224 224 a && byte_in 160 191 b) || (byte_in 225 236 a && byte_in 128 191 b)
       || (byte_in 237 237 a && byte_in 128 159 b) || (byte_in 238 239 a && byte_in 128 191 b))
      && byte_in 128 191 c
  | [a; b; c; d] =>
      ((byte_in 240 240 a && byte_in 144 191 b) || (byte_in 241 243 a && byte_in 128 191 b)
       || (byte_in 244 244 a && byte_in 128 143 b))
      && byte_in 128 191 c && byte_in 128 191 d
  | _ => false
  end.
Definition utf8 (s : str) : Prop := ∃ chars, s = concat chars ∧ forallb utf8_char chars = true.

Lemma continuation_range c : is_continuation c = byte_in 128 191 c.
Proof.
  apply eq_true_iff_eq. unfold is_continuation, byte_in.
  by_octet_cases c (λ c, Bool.eqb (Z.land (code c) 192 =? 128) ((128 <=? code c) && (code c <=? 191))).
Qed.

Lemma utf8_char_shape s :
  utf8_char s = true →
  ∃ b rest, s = b :: rest ∧ is_continuation b = false ∧ (length rest <= 3)%nat
            ∧ Forall (λ c, is_continuation c = true) rest.
Proof.
  intros H. setoid_rewrite continuation_range.
  assert (∀ lo hi lo' hi' c, byte_in lo hi c = true → lo' <= lo → hi <= hi' → byte_in lo' hi' c = true) as W.
  { unfold byte_in. intros. bool_hyps. apply andb_true_iff. rewrite !Z.leb_le. lia. }
  assert (∀ lo hi c, byte_in lo hi c = true → hi < 128 ∨ 191 < lo → byte_in 128 191 c = false) as L.
  { unfold byte_in. intros. bool_hyps. apply andb_false_iff. rewrite !Z.leb_gt. lia. }
  destruct s as [|a [|b [|c [|d [|]]]]]; cbn [utf8_char] in H; try done;
    eexists _, _; (split; [done|]); repeat setoid_rewrite Forall_cons; repeat setoid_rewrite Forall_nil;
    bool_hyps; repeat match goal with
    | H : _ || _ = true |- _ => apply orb_true_iff in H; destruct H
    | H : _ && _ = true |- _ => apply andb_true_iff in H; destruct H
    end;
    split_and!; eauto with lia; try (by cbn; lia); (eapply L || eapply W); eauto with lia.
Qed.

(** The loop stops at the last non-continuation byte at or before [cut]. *)
Lemma Utf8SafePrefix_le s cut : (Utf8SafePrefix s cut <= cut)%nat.
Proof. induction cut as [|c IH]; cbn [Utf8SafePrefix]; [done|]. case_match; lia. Qed.
Lemma Utf8SafePrefix_back s rest n :
  (∀ i, (i < n)%nat → is_continuation (nth (rest + S i) s "000"%char) = true) →
  Utf8SafePrefix s (rest + n) = Utf8SafePrefix s rest.
Proof.
  induction n as [|n IH]; intros H; [by rewrite Nat.add_0_r|].
  replace (rest + S n)%nat with (S (rest + n)) by lia. cbn [Utf8SafePrefix].
  replace (S (rest + n)) with (rest + S n)%nat by lia.
  rewrite H by lia. apply IH. intros i Hi. apply H. lia.
Qed.
Lemma Utf8SafePrefix_stop s cut :
  is_continuation (nth cut s "000"%char) = false → Utf8SafePrefix s cut = cut.
Proof. destruct cut; cbn [Utf8SafePrefix]; [done|]. by intros ->. Qed.
Lemma Utf8SafePrefix_between s cut n :
  (Utf8SafePrefix s cut < n <= cut)%nat → is_continuation (nth n s "000"%char) = true.
Proof.
  induction cut as [|c IH]; cbn [Utf8SafePrefix]; [lia|]. case_match eqn:E; [|lia].
  intros Hn. destruct (decide (n = S c)) as [->|]; [done|]. apply IH. lia.
Qed.

(** A position inside well-formed text lies in one of its characters. *)
Lemma utf8_locate chars n :
  forallb utf8_char chars = true → (n < length (concat chars))%nat →
  ∃ pre c post, chars = pre ++ c :: post
    ∧ (length (concat pre) <= n < length (concat pre) + length c)%nat.
Proof.
  revert n. induction chars as [|c chars IH]; cbn [concat forallb]; intros n H Hn; [cbn in Hn; lia|].
  bool_hyps. rewrite length_app in Hn. destruct (decide (n < length c)%nat).
  - exists [], c, chars. cbn. split; [done|lia].
  - destruct (IH (n - length c)%nat) as (pre & d & post & -> & Hp); [done|lia|].
    exists (c :: pre), d, post. cbn [concat]. rewrite length_app. split; [done|lia].
Qed.

Lemma utf8_cut chars limit :
  forallb utf8_char chars = true → (limit < length (concat chars))%nat →
  ∃ pre c post, chars = pre ++ c :: post
    ∧ Utf8SafePrefix (concat chars) limit = length (concat pre)
    ∧ (length (concat pre) <= limit <= length (concat pre) + 3)%nat.
Proof.
  intros H Hl. destruct (utf8_locate _ _ H Hl) as (pre & c & post & -> & Hp).
  exists pre, c, post. rewrite forallb_app in H. cbn [forallb] in H. bool_hyps.
  destruct (utf8_char_shape c) as (b & rest & -> & Hb & Hlen & Hrest); [done|].
  cbn [length] in Hp. split_and!; try lia; [done|].
  rewrite concat_app. cbn [concat].
  replace limit with (length (concat pre) + (limit - length (concat pre)))%nat at 1 by lia.
  rewrite Utf8SafePrefix_back.
  - apply Utf8SafePrefix_stop. by rewrite List.app_nth2, Nat.sub_diag by lia.
  - intros i Hi. rewrite List.app_nth2 by lia.
    replace (length (concat pre) + S i - length (concat pre))%nat with (S i) by lia. cbn [app nth].
    rewrite List.app_nth1 by lia. rewrite Forall_forall in Hrest. apply Hrest.
    apply list_elem_of_In, nth_In. lia.
Qed.

(** Truncation is safe for UTF-8.  The result is a prefix within the budget
    for every input.  For well-formed text that is too long, both the part kept
    and the part dropped are well-formed, at most three further bytes are lost,
    and no longer prefix within the budget ends on a code point boundary. *)
Theorem truncation_utf8_safe s limit s' n :
  0 <= limit → truncate_one limit s = (s', n) →
  s' `prefix_of` s ∧ size s' <= limit ∧ n = (if size s <=? limit then 0 else 1)
  ∧ (utf8 s →
     utf8 s' ∧ (limit < size s → limit - 3 <= size s')
     ∧ ∀ k, size s' < Z.of_nat k <= limit → limit < size s → ¬ utf8 (drop k s)).
Proof.
  unfold truncate_one. intros Hl. destruct (size s <=? limit) eqn:E; intros [= <- <-]; bool_hyps.
  { split_and!; [done..|]. intros Hu. split_and!; [done|lia|lia]. }
  unfold size in *. pose proof (Utf8SafePrefix_le s (Z.to_nat limit)).
  split_and!; [apply prefix_take|rewrite length_take; lia|done|]. intros (chars & -> & Hc).
  destruct (utf8_cut chars (Z.to_nat limit) Hc) as (pre & c & post & -> & Hcut & Hb); [lia|].
  assert (forallb utf8_char pre = true) as Hpre by (rewrite forallb_app in Hc; by bool_hyps).
  rewrite length_take, Hcut. split_and!.
  - exists pre. split; [|done]. rewrite concat_app. apply take_app_length.
  - lia.
  - intros k Hk _ (chars' & Hd & Hc').
    assert (is_continuation (nth k (concat (pre ++ c :: post)) "000"%char) = true) as Hcont
      by (apply (Utf8SafePrefix_between _ (Z.to_nat limit)); lia).
    rewrite <- (take_drop k (concat (pre ++ c :: post))), List.app_nth2 in Hcont
      by (rewrite length_take; lia).
    rewrite length_take, Nat.min_l, Nat.sub_diag, Hd in Hcont by lia.
    destruct chars' as [|c' chars']; [apply (f_equal length) in Hd; rewrite length_drop in Hd; cbn in Hd; lia|].
    cbn [forallb] in Hc'. bool_hyps.
    destruct (utf8_char_shape c') as (b & rest & -> & Hb' & _); [done|]. cbn in Hcont. congruence.
Qed.

Lemma truncation_utf8_safe_witness :
  utf8 (fst (truncate_one 4 [chr 97; chr 226; chr 130; chr 172; chr 226; chr 130; chr 172]))
  ∧ fst (truncate_one 3 [chr 97; chr 226; chr 130; chr 172]) = [chr 97].
Proof.
  split; [|reflexivity].
  eapply (truncation_utf8_safe [chr 97; chr 226; chr 130; chr 172; chr 226; chr 130; chr 172] 4);
    [lia|apply surjective_pairing|].
  by exists [[chr 97]; [chr 226; chr 130; chr 172]; [chr 226; chr 130; chr 172]].
Defined.

(** ** What trimming computes *)

Definition clip_value (limit : Z) (v : AttributeValue) : AttributeValue := fst (TruncateStrings v limit).
(** How many strings of [v] are over the limit. *)
Definition long_strings (limit : Z) (v : AttributeValue) : Z :=
  match v with
  | AvString s => if size s <=? limit then 0 else 1
  | AvStrings l => zsum (λ s, if size s <=? limit then 0 else 1) l
  | _ => 0
  end.
Definition clip_kv (limit : Z) (kv : KeyValue) : KeyValue :=
  mkKeyValue (kv_key kv) (clip_value limit (kv_value kv)).
Definition long_values (limit : Z) (l : list KeyValue) : Z := zsum (long_strings limit ∘ kv_value) l.

(** What is left of [items] and what [KeepFirst] counts. *)
Definition first_n {T} (limit : Z) (items : list T) : list T := take (Z.to_nat limit) items.
Definition surplus {T} (limit : Z) (items : list T) : Z := Z.max 0 (size items - limit).

Lemma KeepFirst_spec {T} (items : list T) limit :
  0 <= limit → KeepFirst items limit = (first_n limit items, surplus limit items).
Proof.
  intros Hl. unfold KeepFirst, first_n, surplus, size. destruct (_ <=? _) eqn:E; bool_hyps.
  - rewrite take_ge by lia. f_equal. lia.
  - f_equal. lia.
Qed.

Lemma truncate_elements_spec limit l t :
  truncate_elements limit l t
  = ((λ s, fst (truncate_one limit s)) <$> l, t + zsum (λ s, if size s <=? limit then 0 else 1) l).
Proof.
  revert t. induction l as [|s l IH]; intros t; cbn [truncate_elements]; [f_equal; cbn; lia|].
  destruct (truncate_one limit s) as [s' n] eqn:E. rewrite IH. cbn [fmap list_fmap]. rewrite E, zsum_cons.
  f_equal. unfold truncate_one in E. destruct (size s <=? limit); injection E; lia.
Qed.

Lemma TruncateStrings_spec v limit : TruncateStrings v limit = (clip_value limit v, long_strings limit v).
Proof.
  unfold clip_value. destruct v as [| | |s| | | |l]; cbn [TruncateStrings long_strings]; try done.
  - unfold truncate_one. by destruct (size s <=? limit).
  - rewrite truncate_elements_spec. done.
Qed.

Lemma TruncateAll_spec l limit : TruncateAll l limit = (clip_kv limit <$> l, long_values limit l).
Proof.
  unfold TruncateAll, long_values. assert (∀ t, TruncateAll_loop l limit t
    = (clip_kv limit <$> l, t + zsum (long_strings limit ∘ kv_value) l)) as H; [|by rewrite H].
  induction l as [|kv l IH]; intros t; cbn [TruncateAll_loop]; [f_equal; cbn; lia|].
  rewrite TruncateStrings_spec, IH, zsum_cons. cbn [fmap list_fmap compose]. f_equal. lia.
Qed.

Definition clip_event (limits : SpanLimitOptions) (e : SpanEvent) : SpanEvent :=
  mkSpanEvent (ev_name e) (ev_timestamp e)
    (clip_kv (attribute_value_length_limit limits)
     <$> first_n (event_attribute_count_limit limits) (ev_attributes e)).
Definition clip_link (limits : SpanLimitOptions) (l : SpanLink) : SpanLink :=
  mkSpanLink (ln_context l)
    (clip_kv (attribute_value_length_limit limits)
     <$> first_n (link_attribute_count_limit limits) (ln_attributes l)).
Definition event_surplus (limits : SpanLimitOptions) (e : SpanEvent) : Z :=
  surplus (event_attribute_count_limit limits) (ev_attributes e).
Definition link_surplus (limits : SpanLimitOptions) (l : SpanLink) : Z :=
  surplus (link_attribute_count_limit limits) (ln_attributes l).
Definition event_long (limits : SpanLimitOptions) (e : SpanEvent) : Z :=
  long_values (attribute_value_length_limit limits)
    (first_n (event_attribute_count_limit limits) (ev_attributes e)).
Definition link_long (limits : SpanLimitOptions) (l : SpanLink) : Z :=
  long_values (attribute_value_length_limit limits)
    (first_n (link_attribute_count_limit limits) (ln_attributes l)).

(** The option fields are unsigned. *)
Definition limits_unsigned (l : SpanLimitOptions) : Prop :=
  is_u32 (attribute_count_limit l) ∧ is_u32 (event_count_limit l) ∧ is_u32 (link_count_limit l)
  ∧ is_u32 (attribute_value_length_limit l) ∧ is_u32 (event_attribute_count_limit l)
  ∧ is_u32 (link_attribute_count_limit l).

Lemma limit_events_spec limits events a t :
  0 <= event_attribute_count_limit limits →
  limit_events limits events a t
  = (clip_event limits <$> events, a + zsum (event_surplus limits) events, t + zsum (event_long limits) events).
Proof.
  intros Hl. revert a t. induction events as [|e events IH]; intros a t; cbn [limit_events].
  { cbn. by rewrite !Z.add_0_r. }
  rewrite KeepFirst_spec by done. rewrite TruncateAll_spec, IH, !zsum_cons, !Z.add_assoc. done.
Qed.
Lemma limit_links_spec limits links a t :
  0 <= link_attribute_count_limit limits →
  limit_links limits links a t
  = (clip_link limits <$> links, a + zsum (link_surplus limits) links, t + zsum (link_long limits) links).
Proof.
  intros Hl. revert a t. induction links as [|e links IH]; intros a t; cbn [limit_links].
  { cbn. by rewrite !Z.add_0_r. }
  rewrite KeepFirst_spec by done. rewrite TruncateAll_spec, IH, !zsum_cons, !Z.add_assoc. done.
Qed.

(** The trimmed contents, and how much each reason loses, in closed form. *)
Definition trimmed (limits : SpanLimitOptions) (r : SpanRecord) : SpanRecord :=
  set_contents r
    (clip_kv (attribute_value_length_limit limits) <$> first_n (attribute_count_limit limits) (sr_attributes r))
    (clip_event limits <$> first_n (event_count_limit limits) (sr_events r))
    (clip_link limits <$> first_n (link_count_limit limits) (sr_links r)).
Definition loss (limits : SpanLimitOptions) (attributes : list KeyValue) (events : list SpanEvent)
    (links : list SpanLink) (reason : DropReason) : Z :=
  let kept_events := first_n (event_count_limit limits) events in
  let kept_links := first_n (link_count_limit limits) links in
  match reason with
  | SpanAttributeLimit => surplus (attribute_count_limit limits) attributes
  | SpanEventLimit => surplus (event_count_limit limits) events
  | SpanLinkLimit => surplus (link_count_limit limits) links
  | EventAttributeLimit => zsum (event_surplus limits) kept_events
  | LinkAttributeLimit => zsum (link_surplus limits) kept_links
  | AttributeValueTruncated =>
      long_values (attribute_value_length_limit limits) (first_n (attribute_count_limit limits) attributes)
      + zsum (event_long limits) kept_events + zsum (link_long limits) kept_links
  | _ => 0
  end.

(** What the sink is told about one reason. *)
Definition dropped (reason : DropReason) (calls : Drops) : Z :=
  zsum (λ c, if bool_decide (fst c = reason) then snd c else 0) calls.
Lemma dropped_app reason a b : dropped reason (a ++ b) = dropped reason a + dropped reason b.
Proof. apply zsum_app. Qed.
Lemma dropped_Count reason r n :
  0 <= n → dropped reason (Count true r n) = if bool_decide (r = reason) then n else 0.
Proof.
  intros Hn. unfold Count. destruct (0 <? n) eqn:E; bool_hyps; cbn; [case_bool_decide; lia|].
  case_bool_decide; lia.
Qed.
Lemma Count_no_sink r n : Count false r n = [].
Proof. unfold Count. by rewrite andb_false_r. Qed.
#[export] Hint Rewrite dropped_app : mt.

Lemma surplus_nonneg {T} limit (l : list T) : 0 <= surplus limit l.
Proof. unfold surplus. lia. Qed.
Lemma long_strings_nonneg limit v : 0 <= long_strings limit v.
Proof.
  destruct v as [| | |s| | | |l]; cbn; try lia; [by destruct (_ <=? _)|].
  apply zsum_nonneg. intros s _. by destruct (_ <=? _).
Qed.
Lemma long_values_nonneg limit l : 0 <= long_values limit l.
Proof. apply zsum_nonneg. intros. apply long_strings_nonneg. Qed.
#[export] Hint Resolve surplus_nonneg long_strings_nonneg long_values_nonneg : mt.

Lemma loss_nonneg limits a e l reason : 0 <= loss limits a e l reason.
Proof.
  pose proof (λ x : list SpanEvent, zsum_nonneg (event_surplus limits) x ltac:(intros; apply surplus_nonneg)).
  pose proof (λ x : list SpanLink, zsum_nonneg (link_surplus limits) x ltac:(intros; apply surplus_nonneg)).
  pose proof (λ x : list SpanEvent, zsum_nonneg (event_long limits) x ltac:(intros; apply long_values_nonneg)).
  pose proof (λ x : list SpanLink, zsum_nonneg (link_long limits) x ltac:(intros; apply long_values_nonneg)).
  destruct reason; cbn [loss]; try lia; auto with mt.
  repeat apply Z.add_nonneg_nonneg; auto with mt.
Qed.

Lemma ApplySpanLimits_spec record limits diag :
  limits_unsigned limits →
  fst (ApplySpanLimits record limits diag) = trimmed limits record
  ∧ ∀ reason, dropped reason (snd (ApplySpanLimits record limits diag))
              = if diag then loss limits (sr_attributes record) (sr_events record) (sr_links record) reason else 0.
Proof.
  intros (H1 & H2 & H3 & H4 & H5 & H6). unfold is_u32 in *. unfold ApplySpanLimits.
  rewrite !KeepFirst_spec by lia. rewrite TruncateAll_spec, limit_events_spec by lia.
  rewrite limit_links_spec by lia. cbn [fst snd]. split; [done|]. intros reason.
  destruct diag; [|by rewrite !Count_no_sink]. rewrite !Z.add_0_l.
  pose proof (loss_nonneg limits (sr_attributes record) (sr_events record) (sr_links record)) as L.
  pose proof (L EventAttributeLimit) as Le. pose proof (L LinkAttributeLimit) as Ll.
  pose proof (L AttributeValueTruncated) as Lt. cbn [loss] in Le, Ll, Lt.
  autorewrite with mt. rewrite !dropped_Count by (auto with mt; lia).
  destruct reason; cbn [loss]; repeat case_bool_decide; try congruence; lia.
Qed.

(** ** Records within their limits *)

Definition value_within (limit : Z) (v : AttributeValue) : Prop :=
  match v with
  | AvString s => size s <= limit
  | AvStrings l => Forall (λ s, size s <= limit) l
  | _ => True
  end.
Definition attributes_within (count limit : Z) (l : list KeyValue) : Prop :=
  size l <= count ∧ Forall (λ kv, value_within limit (kv_value kv)) l.
Definition record_within (limits : SpanLimitOptions) (r : SpanRecord) : Prop :=
  let value_limit := attribute_value_length_limit limits in
  attributes_within (attribute_count_limit limits) value_limit (sr_attributes r)
  ∧ size (sr_events r) <= event_count_limit limits
  ∧ Forall (λ e, attributes_within (event_attribute_count_limit limits) value_limit (ev_attributes e)) (sr_events r)
  ∧ size (sr_links r) <= link_count_limit limits
  ∧ Forall (λ l, attributes_within (link_attribute_count_limit limits) value_limit (ln_attributes l)) (sr_links r).

(** Every string attribute value is well-formed UTF-8. *)
Definition value_utf8 (v : AttributeValue) : Prop :=
  match v with AvString s => utf8 s | AvStrings l => Forall utf8 l | _ => True end.
Definition attributes_utf8 (l : list KeyValue) : Prop := Forall (λ kv, value_utf8 (kv_value kv)) l.
Definition record_utf8 (r : SpanRecord) : Prop :=
  attributes_utf8 (sr_attributes r) ∧ Forall (attributes_utf8 ∘ ev_attributes) (sr_events r)
  ∧ Forall (attributes_utf8 ∘ ln_attributes) (sr_links r).

Lemma size_first_n {T} limit (l : list T) : 0 <= limit → size (first_n limit l) <= limit.
Proof. intros. unfold first_n, size. rewrite length_take. lia. Qed.
Lemma Forall_first_n {T} (P : T → Prop) limit l : Forall P l → Forall P (first_n limit l).
Proof. apply Forall_take. Qed.

Lemma truncate_one_within limit s : 0 <= limit → size (fst (truncate_one limit s)) <= limit.
Proof.
  intros Hl. unfold truncate_one. destruct (size s <=? limit) eqn:E; bool_hyps; cbn [fst]; [done|].
  pose proof (Utf8SafePrefix_le s (Z.to_nat limit)). unfold size. rewrite length_take. lia.
Qed.
Lemma truncate_one_utf8 limit s : utf8 s → utf8 (fst (truncate_one limit s)).
Proof.
  unfold truncate_one. destruct (size s <=? limit) eqn:E; bool_hyps; [done|]. cbn [fst]. intros (chars & -> & Hc).
  destruct (decide (concat chars = [])) as [->|Hne]; [rewrite take_nil; by exists []|].
  destruct (utf8_cut chars (Z.to_nat limit) Hc) as (pre & c & post & -> & -> & _).
  { unfold size in E. destruct (concat chars); [done|]. cbn in *. lia. }
  exists pre. rewrite concat_app, take_app_length. split; [done|]. rewrite forallb_app in Hc. by bool_hyps.
Qed.

Lemma clip_value_within limit v : 0 <= limit → value_within limit (clip_value limit v).
Proof.
  intros Hl. unfold clip_value. destruct v as [| | |s| | | |l]; cbn [TruncateStrings]; try done.
  - pose proof (truncate_one_within limit s Hl). by destruct (truncate_one limit s).
  - rewrite truncate_elements_spec. cbn. apply Forall_fmap, Forall_true. intros. by apply truncate_one_within.
Qed.
Lemma clip_value_utf8 limit v : value_utf8 v → value_utf8 (clip_value limit v).
Proof.
  unfold clip_value. destruct v as [| | |s| | | |l]; cbn [TruncateStrings]; try done.
  - pose proof (truncate_one_utf8 limit s). by destruct (truncate_one limit s).
  - rewrite truncate_elements_spec. cbn. intros H. apply Forall_fmap.
    eapply Forall_impl; [exact H|]. intros s. apply truncate_one_utf8.
Qed.
Lemma clip_attributes_within count limit l :
  0 <= count → 0 <= limit → attributes_within count limit (clip_kv limit <$> first_n count l).
Proof.
  intros Hc Hl. split.
  - unfold size. rewrite length_fmap. by apply (size_first_n count l).
  - apply Forall_fmap, Forall_true. intros kv. by apply clip_value_within.
Qed.
Lemma clip_attributes_utf8 count limit l :
  attributes_utf8 l → attributes_utf8 (clip_kv limit <$> first_n count l).
Proof.
  intros H. apply Forall_fmap. eapply Forall_impl; [by apply Forall_first_n|].
  intros kv. apply clip_value_utf8.
Qed.

Lemma trimmed_within limits r : limits_unsigned limits → record_within limits (trimmed limits r).
Proof.
  intros (H1 & H2 & H3 & H4 & H5 & H6). unfold is_u32 in *. unfold record_within, trimmed. cbn.
  split_and!; [apply clip_attributes_within; lia| | | |].
  1, 3: unfold size; rewrite length_fmap; apply size_first_n; lia.
  all: apply Forall_fmap, Forall_true; intros; apply clip_attributes_within; lia.
Qed.
Lemma trimmed_utf8 limits r : record_utf8 r → record_utf8 (trimmed limits r).
Proof.
  intros (Ha & He & Hl). split_and!; [by apply clip_attributes_utf8| |]; cbn; apply Forall_fmap;
    (eapply Forall_impl; [by apply Forall_first_n|]); intros x; apply clip_attributes_utf8.
Qed.

(** ** Appending the sampler's attributes *)

Lemma AppendAttributes_loop_spec attributes extra limits o t :
  0 <= attribute_count_limit limits → size attributes <= attribute_count_limit limits →
  let room := attribute_count_limit limits - size attributes in
  AppendAttributes_loop attributes extra limits o t
  = (attributes ++ (clip_kv (attribute_value_length_limit limits) <$> first_n room extra),
     o + surplus room extra, t + long_values (attribute_value_length_limit limits) (first_n room extra)).
Proof.
  intros Hl. revert attributes o t. induction extra as [|kv extra IH]; intros attributes o t Hs room; subst room.
  { cbn [AppendAttributes_loop]. unfold first_n, surplus. rewrite take_nil, app_nil_r. cbn.
    change (size []) with 0. repeat f_equal; lia. }
  cbn [AppendAttributes_loop]. unfold AppendOne. rewrite TruncateStrings_spec.
  destruct (_ <=? size attributes) eqn:E; bool_hyps.
  - rewrite IH by done. assert (size attributes = attribute_count_limit limits) as -> by lia.
    rewrite Z.sub_diag. unfold first_n, surplus. rewrite !take_0, size_cons.
    pose proof (size_nonneg extra). do 2 f_equal. lia.
  - rewrite IH by (rewrite size_app; change (size [_]) with 1; lia).
    rewrite size_app, size_cons. change (size []) with 0.
    replace (attribute_count_limit limits - (size attributes + (1 + 0)))
      with (attribute_count_limit limits - size attributes - 1) by lia.
    set (room := attribute_count_limit limits - size attributes) in *.
    assert (first_n room (kv :: extra) = kv :: first_n (room - 1) extra) as ->.
    { unfold first_n. replace (Z.to_nat room) with (S (Z.to_nat (room - 1))) by lia. done. }
    assert (surplus room (kv :: extra) = surplus (room - 1) extra) as ->.
    { unfold surplus. rewrite size_cons. f_equal. lia. }
    unfold long_values. rewrite zsum_cons, <- app_assoc, Z.add_assoc. done.
Qed.

(** [AppendAttributes] fills what room the span has left, in order, clips the
    values and accounts for every attribute and every clipped string. *)
Theorem append_attributes_spec attributes extra limits :
  limits_unsigned limits → size attributes <= attribute_count_limit limits →
  let room := attribute_count_limit limits - size attributes in
  let '(result, calls) := AppendAttributes attributes extra limits true in
  result = attributes ++ (clip_kv (attribute_value_length_limit limits) <$> first_n room extra)
  ∧ size result + dropped SpanAttributeLimit calls = size attributes + size extra
  ∧ dropped AttributeValueTruncated calls
    = long_values (attribute_value_length_limit limits) (first_n room extra).
Proof.
  intros (H1 & _) Hs room. unfold is_u32 in *. unfold AppendAttributes.
  rewrite AppendAttributes_loop_spec by lia. fold room. rewrite !Z.add_0_l.
  autorewrite with mt. rewrite !dropped_Count by auto with mt.
  repeat case_bool_decide; try congruence. split_and!; [done| |lia].
  subst room. unfold surplus, first_n, size in *. rewrite length_fmap, length_take. lia.
Qed.

Lemma append_attributes_spec_witness :
  let limits := mkSpanLimitOptions 2 1 1 3 1 1 in
  fst (AppendAttributes [mkKeyValue $"a" (AvInt 1)]
         [mkKeyValue $"b" (AvString $"long"); mkKeyValue $"c" (AvBool true)] limits true)
  = [mkKeyValue $"a" (AvInt 1); mkKeyValue $"b" (AvString $"lon")].
Proof.
  cbn zeta.
  pose proof (append_attributes_spec [mkKeyValue $"a" (AvInt 1)]
    [mkKeyValue $"b" (AvString $"long"); mkKeyValue $"c" (AvBool true)] (mkSpanLimitOptions 2 1 1 3 1 1)) as H.
  destruct (AppendAttributes _ _ _ _) as [res calls]. destruct H as [-> _]; [|done|done].
  repeat split; (done || width_lia).
Defined.
