(* ===== verification/Views.v ===== *)
(** * Metric views

    Model of [include/microtel/view.hpp], [src/sdk/view_registry.cpp] and of the
    view resolution at the head of [src/sdk/sdk_meter.cpp]: which streams an
    instrument gets, under which names, and which attributes each stream keeps.

    An allowlist is sorted once, so that [FilterAttrs] can search it with
    [std::ranges::binary_search]; the theorem is that this is plain membership,
    that the selectors mean what [view.hpp] says, and that every matching view
    that does not drop yields one stream, in registration order. *)
From stdpp Require Import sorting.
From S2P Require Import Prelude Context Data AttributeSet.

(** ** [view.hpp] *)

Inductive InstrumentKind :=
| Counter | UpDownCounter | Gauge | Histogram | ExponentialHistogram | ObservableCounter | ObservableUpDownCounter | ObservableGauge.
#[export] Instance InstrumentKind_eq_dec : EqDecision InstrumentKind.
Proof. solve_decision. Defined.
Record InstrumentSelector := mkSelector { sel_name : option str; sel_kind : option InstrumentKind; sel_meter_name : option str }.
Record ViewTransform := mkTransform { tr_name : option str; tr_attribute_allowlist : option (list str); tr_drop : bool }.
Record ViewConfig := mkView { selector : InstrumentSelector; transform : ViewTransform }.
Record InstrumentDescriptor := mkDescriptor { d_name : str; d_kind : InstrumentKind; d_meter_name : str }.

(** ** [ViewRegistry] *)

Definition ViewRegistry := list ViewConfig.
Definition ViewRegistry_Add (view : ViewConfig) (r : ViewRegistry) : ViewRegistry := r ++ [view].

(** [p.ends_with('*')], [p.substr(0, p.size() - 1)]. *)
Definition ends_with_char (c : ascii) (p : str) : bool := match last p with Some d => (d =c c)%char | None => false end.
Definition MatchesName (pattern : option str) (name : str) : bool :=
  match pattern with
  | None => true
  | Some p => if ends_with_char "*"%char p then starts_with name (take (length p - 1) p) else name =s p
  end.
(** The loop of [Match]. *)
Fixpoint Match (views : ViewRegistry) (desc : InstrumentDescriptor) : list ViewConfig :=
  match views with
  | [] => []
  | view :: rest =>
      let sel := selector view in
      if negb (MatchesName (sel_name sel) (d_name desc)) then Match rest desc
      else if match sel_kind sel with Some k => negb (bool_decide (k = d_kind desc)) | None => false end then Match rest desc
      else if match sel_meter_name sel with Some n => negb (n =s d_meter_name desc) | None => false end then Match rest desc
      else view :: Match rest desc
  end.

(** ** Allowlists *)

Definition Allowlist := list str.
(** [operator<] of [std::string]. *)
Definition str_ltb (a b : str) : bool := negb (str_leb b a).
Definition str_le (a b : str) : Prop := str_leb a b = true.
#[export] Instance str_le_dec : RelDecision str_le.
Proof. intros a b. unfold str_le. apply _. Defined.
(** [std::ranges::sort] and [std::ranges::binary_search], as the standard specifies
    them: the first element that is not below the key is compared with the key. *)
Definition sort_strings (l : list str) : list str := merge_sort str_le l.
Fixpoint lower_bound_str (l : list str) (key : str) : option str :=
  match l with
  | [] => None
  | e :: rest => if str_ltb e key then lower_bound_str rest key else Some e
  end.
Definition binary_search (l : list str) (key : str) : bool :=
  match lower_bound_str l key with Some e => negb (str_ltb key e) | None => false end.
Definition FilterAttrs (attrs : list KeyValue) (allowlist : Allowlist) : list KeyValue :=
  List.filter (λ kv, binary_search allowlist (kv_key kv)) attrs.
(** The branch every fan-out takes: filter when the slot has an allowlist. *)
Definition slot_attrs (attrs : list KeyValue) (allowlist : option Allowlist) : list KeyValue :=
  match allowlist with Some al => FilterAttrs attrs al | None => attrs end.

(** ** [ResolveStreamSpecs] *)

Record StreamSpec := mkStreamSpec { spec_name : str; spec_allowlist : option Allowlist }.
Definition default_spec (instrument_name : str) : StreamSpec := mkStreamSpec instrument_name None.
(** The loop over the matches. *)
Fixpoint specs_of (instrument_name : str) (matches : list ViewConfig) : list StreamSpec :=
  match matches with
  | [] => []
  | view :: rest =>
      let tr := transform view in
      if tr_drop tr then specs_of instrument_name rest
      else mkStreamSpec (default instrument_name (tr_name tr)) (sort_strings <$> tr_attribute_allowlist tr) :: specs_of instrument_name rest
  end.
Definition ResolveStreamSpecs (instrument_name : str) (registry : option ViewRegistry) (desc : InstrumentDescriptor) : list StreamSpec :=
  match registry with
  | None => [default_spec instrument_name]
  | Some r => match Match r desc with
              | [] => [default_spec instrument_name]
              | matches => specs_of instrument_name matches
              end
  end.

(** ** Searching a sorted allowlist *)

#[export] Instance str_le_total : Total str_le.
Proof. intros a b. apply str_leb_total. Qed.
#[export] Instance str_le_trans : Transitive str_le.
Proof. intros a b c. apply str_leb_trans. Qed.
Lemma str_leb_refl a : str_leb a a = true.
Proof. by destruct (str_leb_total a a). Qed.
Lemma str_ltb_true a b : str_ltb a b = true ↔ str_le a b ∧ a ≠ b.
Proof.
  unfold str_ltb, str_le. rewrite negb_true_iff. split.
  - intros E. split; [by destruct (str_leb_total a b) as [|E']; [|rewrite E in E']|]. intros ->. by rewrite str_leb_refl in E.
  - intros [Hle Hne]. apply not_true_iff_false. intros E. by apply Hne, str_leb_antisym.
Qed.
Lemma binary_search_sorted l k : StronglySorted str_le l → binary_search l k = bool_decide (k ∈ l).
Proof.
  intros Hs. unfold binary_search. induction Hs as [|e l Hs IH He]; cbn [lower_bound_str]; [done|].
  destruct (str_ltb e k) eqn:Hlt.
  - rewrite IH. apply bool_decide_ext. rewrite elem_of_cons. apply str_ltb_true in Hlt as [_ Hne]. split; [by right|by intros [->|?]].
  - unfold str_ltb in Hlt. apply negb_false_iff in Hlt. unfold str_ltb. rewrite negb_involutive.
    destruct (str_leb e k) eqn:Hek.
    + assert (k = e) as -> by (by apply str_leb_antisym). symmetry. apply bool_decide_true. by left.
    + symmetry. apply bool_decide_false. intros [->|Hin]%elem_of_cons; [by rewrite str_leb_refl in Hek|].
      rewrite Forall_forall in He. specialize (He k Hin). unfold str_le in He. congruence.
Qed.
(** After the sort, searching is membership in the list the view was given. *)
Lemma binary_search_sort l k : binary_search (sort_strings l) k = bool_decide (k ∈ l).
Proof.
  unfold sort_strings. rewrite binary_search_sorted by (apply StronglySorted_merge_sort; apply _).
  apply bool_decide_ext. by rewrite merge_sort_Permutation.
Qed.

(** ** Meaning of selectors *)

(** A name pattern: exact, or a prefix before one trailing star. *)
Definition names (pattern name : str) : Prop :=
  (∃ prefix rest, pattern = prefix ++ $"*" ∧ name = prefix ++ rest) ∨ (name = pattern ∧ ¬ ∃ prefix, pattern = prefix ++ $"*").
Record selects (sel : InstrumentSelector) (desc : InstrumentDescriptor) : Prop := {
  se_name : ∀ p, sel_name sel = Some p → names p (d_name desc);
  se_kind : ∀ k, sel_kind sel = Some k → k = d_kind desc;
  se_meter : ∀ m, sel_meter_name sel = Some m → m = d_meter_name desc
}.
Lemma ends_with_star p : ends_with_char "*"%char p = true ↔ ∃ q, p = q ++ $"*".
Proof.
  unfold ends_with_char. destruct p as [|c p _] using rev_ind; cbn [last].
  - split; [done|]. intros ([|? ?] & [=]).
  - rewrite last_snoc, ceqb_true. split.
    + intros ->. by exists p.
    + intros (q & E). change ($"*") with ["*"%char] in E. by apply app_inj_tail in E as [_ <-].
Qed.
Lemma MatchesName_spec p name : MatchesName (Some p) name = true ↔ names p name.
Proof.
  unfold MatchesName, names. destruct (ends_with_char "*"%char p) eqn:E.
  - apply ends_with_star in E as [q ->]. rewrite length_app. change (length ($"*")) with 1%nat. rewrite Nat.add_sub, take_app_length.
    rewrite starts_with_prefix. split; [intros [rest ->]; left; eauto|].
    intros [(q' & rest & E & ->)|[_ []]]; [|by exists q]. apply app_inv_tail in E as <-. by exists rest.
  - rewrite seqb_true. assert (¬ ∃ q, p = q ++ $"*") as Hn by (rewrite <- ends_with_star; by rewrite E). split; [intros ->; by right|].
    intros [(q & rest & -> & _)|[-> _]]; [|done]. destruct Hn. by exists q.
Qed.
(** The three tests of [Match] on one view. *)
Definition selected (desc : InstrumentDescriptor) (view : ViewConfig) : bool :=
  let sel := selector view in
  MatchesName (sel_name sel) (d_name desc)
  && match sel_kind sel with Some k => bool_decide (k = d_kind desc) | None => true end
  && match sel_meter_name sel with Some n => n =s d_meter_name desc | None => true end.
Lemma selected_spec desc view : selected desc view = true ↔ selects (selector view) desc.
Proof.
  unfold selected. rewrite !andb_true_iff. split.
  - intros [[Hn Hk] Hm]. split.
    + intros p E. rewrite E in Hn. by apply MatchesName_spec.
    + intros k E. rewrite E in Hk. by apply bool_decide_eq_true in Hk.
    + intros m E. rewrite E in Hm. by apply seqb_true.
  - intros [Hn Hk Hm]. split_and!.
    + destruct (sel_name (selector view)) as [p|]; [|done]. apply MatchesName_spec. by apply Hn.
    + destruct (sel_kind (selector view)) as [k|]; [|done]. apply bool_decide_true. by apply Hk.
    + destruct (sel_meter_name (selector view)) as [m|]; [|done]. apply seqb_true. by apply Hm.
Qed.
Lemma Match_filter views desc : Match views desc = List.filter (selected desc) views.
Proof.
  induction views as [|v views IH]; [done|]. cbn [Match List.filter]. unfold selected at 1.
  destruct (MatchesName _ _); [|done]. cbn [negb andb].
  destruct (sel_kind (selector v)) as [k|]; [destruct (bool_decide (k = d_kind desc)); [|done]|]; cbn [negb andb];
    (destruct (sel_meter_name (selector v)) as [m|]; [destruct (m =s d_meter_name desc); [|done]|]); cbn [negb]; by rewrite IH.
Qed.
Lemma specs_of_map name vs :
  specs_of name vs = (λ v, mkStreamSpec (default name (tr_name (transform v))) (sort_strings <$> tr_attribute_allowlist (transform v)))
    <$> List.filter (λ v, negb (tr_drop (transform v))) vs.
Proof. induction vs as [|v vs IH]; [done|]. cbn. destruct (tr_drop (transform v)); [done|]. cbn. by rewrite IH. Qed.

(** Views select and transform as documented.  An instrument gets one stream per
    registered view whose populated selector fields all match it, in registration
    order, except the views that drop; or one stream of its own name when no view
    matches or there is no registry.  A stream takes the view's name if there is
    one, and what reaches it of a measurement's attributes are exactly those whose
    key is in the view's allowlist, in the order given, whatever the order in which
    the allowlist was written. *)
Theorem view_selection name views desc attrs :
  (∀ v, selected desc v = true ↔ selects (selector v) desc)
  ∧ (let matches := List.filter (selected desc) views in
     let streams := List.filter (λ v, negb (tr_drop (transform v))) matches in
     ResolveStreamSpecs name (Some views) desc
     = if decide (matches = []) then [default_spec name]
       else (λ v, mkStreamSpec (default name (tr_name (transform v))) (sort_strings <$> tr_attribute_allowlist (transform v))) <$> streams)
  ∧ ∀ v, slot_attrs attrs (sort_strings <$> tr_attribute_allowlist (transform v))
         = List.filter (λ kv, match tr_attribute_allowlist (transform v) with None => true | Some al => bool_decide (kv_key kv ∈ al) end) attrs.
Proof.
  split; [intros; apply selected_spec|]. split.
  - cbn zeta. unfold ResolveStreamSpecs. rewrite Match_filter. destruct (List.filter (selected desc) views) as [|v vs] eqn:E.
    + by rewrite decide_True.
    + rewrite decide_False by done. apply specs_of_map.
  - intros v. destruct (tr_attribute_allowlist (transform v)) as [al|]; cbn [slot_attrs fmap option_fmap option_map].
    + unfold FilterAttrs. apply filter_ext. intros kv. apply binary_search_sort.
    + symmetry. clear. induction attrs as [|kv attrs IH]; [done|]. cbn. by rewrite IH.
Qed.

(** A dropping view removes its own stream only: with another view that matches, the
    instrument is still collected. *)
Lemma dropping_view_does_not_suppress name views desc v :
  v ∈ views → selects (selector v) desc → tr_drop (transform v) = false → ResolveStreamSpecs name (Some views) desc ≠ [].
Proof.
  intros Hv Hs Hd. assert (v ∈ List.filter (selected desc) views) as Hin.
  { apply list_elem_of_In, filter_In. split; [by apply list_elem_of_In|by apply selected_spec]. }
  unfold ResolveStreamSpecs. rewrite Match_filter. destruct (List.filter (selected desc) views) as [|w ws] eqn:E; [done|].
  rewrite specs_of_map. intros Hn. apply fmap_nil_inv in Hn.
  assert (v ∈ List.filter (λ v, negb (tr_drop (transform v))) (w :: ws)) as Hf.
  { apply list_elem_of_In, filter_In. split; [by apply list_elem_of_In|by rewrite Hd]. }
  rewrite Hn in Hf. by apply elem_of_nil in Hf.
Qed.
