(* ===== verification/Series.v ===== *)
(** * Series maps

    What the four metric storages share: an [unordered_map] from attribute sets to
    aggregation points with a cardinality cap and an overflow series, the code at
    the head of [SumStorage::Add], [GaugeStorage::Record],
    [HistogramStorage::Record] and [ExponentialHistogramStorage::Record].

    A map is the list of its entries.  Iteration order is unspecified in C++, and
    no theorem depends on it; an iterator is an index.  [find] compares with
    [operator==], under which a set holding a NaN differs from itself.

    The main lemma, [record_placed], says which measurements each point aggregates:
    a series holds exactly the measurements made with its attributes, the overflow
    series those of every set that has no series of its own, and a set that differs
    from itself gets a series per measurement while there is room.  Where no such set
    occurs the points are a function of the log alone ([record_inv]). *)
From S2P Require Import Prelude Context Data AttributeSet SpanLimits.

Section series.
Context {V : Type}.
Abbreviation Points := (list (AttributeSet * V)).

(** [m_points.find(key)]. *)
Fixpoint find_index {W} (key : AttributeSet) (pts : list (AttributeSet * W)) : option nat :=
  match pts with
  | [] => None
  | (k, _) :: rest => if AttributeSet_eqb k key then Some 0%nat else S <$> find_index key rest
  end.
(** [m_points.try_emplace(key, init).first]. *)
Definition try_emplace (key : AttributeSet) (init : V) (pts : Points) : nat * Points :=
  match find_index key pts with
  | Some i => (i, pts)
  | None => (length pts, pts ++ [(key, init)])
  end.

Context (H : Hash).

(** The lookup every storage performs: the iterator, the map and the sink calls. *)
Definition locate (max_cardinality : Z) (diag : bool) (key : AttributeSet) (init : V) (pts : Points)
    : nat * Points * Drops :=
  match find_index key pts with
  | Some i => (i, pts, [])
  | None =>
      let needs_drop := max_cardinality <=? size pts in
      let key := if needs_drop then OverflowAttributeSet H else key in
      let '(it, pts') := try_emplace key init pts in
      (it, pts', if needs_drop && diag then [(CardinalityOverflow, 1)] else [])
  end.

(** [locate], then the update of [it->second]; [None] when the update is
    undefined.  Also returns [it->first]. *)
Definition record_point (max_cardinality : Z) (diag : bool) (key : AttributeSet) (init : V)
    (upd : V → option V) (pts : Points) : option (AttributeSet * Points * Drops) :=
  let '(it, pts', calls) := locate max_cardinality diag key init pts in
  match pts' !! it with
  | None => None
  | Some (k, v) => match upd v with
                   | None => None
                   | Some v' => Some (k, <[it := (k, v')]> pts', calls)
                   end
  end.
End series.

(** ** What the map holds *)

Section routing.
Context {V O : Type} (H : Hash) (init : V) (upd : O → V → option V) (max : Z) (diag : bool).
Context (Hmax : 0 <= max).
Abbreviation Points := (list (AttributeSet * V)).
Abbreviation ovf := (OverflowAttributeSet H).

Definition good (k : AttributeSet) : Prop := AttributeSet_eqb k k = true.
Definition is_ovf (k : AttributeSet) : bool := AttributeSet_eqb k ovf.

Lemma ovf_good : good ovf.
Proof. by apply set_eqb_refl. Qed.

Lemma find_index_Some {W} key (pts : list (AttributeSet * W)) i :
  find_index key pts = Some i → ∃ k v, pts !! i = Some (k, v) ∧ AttributeSet_eqb k key = true.
Proof.
  revert i. induction pts as [|[k v] pts IH]; intros i; cbn; [done|].
  destruct (AttributeSet_eqb k key) eqn:E; [intros [= <-]; eauto|].
  intros (j & Ej & ->)%fmap_Some. by apply IH.
Qed.
Lemma find_index_None {W} key (pts : list (AttributeSet * W)) :
  find_index key pts = None ↔ ∀ k v, (k, v) ∈ pts → AttributeSet_eqb k key = false.
Proof.
  induction pts as [|[k v] pts IH]; cbn.
  { split; [|done]. intros _ k v Hin. by apply elem_of_nil in Hin. }
  destruct (AttributeSet_eqb k key) eqn:E.
  - split; [done|]. intros Hall. specialize (Hall k v ltac:(left)). congruence.
  - rewrite fmap_None, IH. split; [|intros Hall k' v' Hin; apply (Hall k' v'); by right].
    intros Hall k' v' [[= -> ->]|Hin]%elem_of_cons; [done|eauto].
Qed.

(** An entry other than the overflow series covers [k]. *)
Definition covered (pts : Points) (k : AttributeSet) : bool :=
  existsb (λ p, negb (is_ovf (fst p)) && AttributeSet_eqb (fst p) k) pts.
(** A measurement with attributes [k] belongs to the entry keyed [p]. *)
Definition belongs (pts : Points) (p k : AttributeSet) : bool :=
  if is_ovf p then negb (covered pts k) else AttributeSet_eqb p k.
Definition routed (pts : Points) (p : AttributeSet) (log : list (AttributeSet * O)) : list O :=
  omap (λ e, if belongs pts p (fst e) then Some (snd e) else None) log.
(** The point a list of measurements aggregates to. *)
Definition aggregate (os : list O) : option V := foldl (λ v o, v ≫= upd o) (Some init) os.

Record inv (pts : Points) (log : list (AttributeSet * O)) : Prop := {
  inv_good : ∀ k v, (k, v) ∈ pts → good k;
  inv_distinct : ∀ i j ki vi kj vj, pts !! i = Some (ki, vi) → pts !! j = Some (kj, vj) →
    AttributeSet_eqb ki kj = true → i = j;
  inv_points : ∀ k v, (k, v) ∈ pts → aggregate (routed pts k log) = Some v;
  inv_covered : ∀ k o, (k, o) ∈ log →
    covered pts k = true ∨ ∃ p v, (p, v) ∈ pts ∧ is_ovf p = true;
  inv_full : ∀ k o, (k, o) ∈ log →
    (∀ p v, (p, v) ∈ pts → AttributeSet_eqb p k = false) → max <= size pts;
  inv_size : size pts <= max ∨ (size pts <= max + 1 ∧ ∃ p v, (p, v) ∈ pts ∧ is_ovf p = true)
}.

Lemma inv_empty : inv [] [].
Proof.
  split; try (by intros * ?%elem_of_nil); try done. left. change (size []) with 0. lia.
Qed.

Lemma covered_true pts k :
  covered pts k = true ↔ ∃ p v, (p, v) ∈ pts ∧ is_ovf p = false ∧ AttributeSet_eqb p k = true.
Proof.
  unfold covered. rewrite existsb_exists. setoid_rewrite <- list_elem_of_In. split.
  - intros ([p v] & Hin & E). bool_hyps. eauto.
  - intros (p & v & Hin & E1 & E2). exists (p, v). cbn. by rewrite E1, E2.
Qed.
Lemma covered_false pts k :
  covered pts k = false ↔ ∀ p v, (p, v) ∈ pts → is_ovf p = false → AttributeSet_eqb p k = false.
Proof.
  rewrite <- not_true_iff_false, covered_true. split.
  - intros Hn p v Hin Ho. apply not_true_iff_false. intros E. apply Hn. eauto 6.
  - intros Hall (p & v & Hin & Ho & E). rewrite (Hall p v) in E; done.
Qed.

(** Equal keys are interchangeable. *)
Lemma eqb_left a b c : AttributeSet_eqb a b = true → AttributeSet_eqb a c = AttributeSet_eqb b c.
Proof.
  intros E. apply eq_true_iff_eq. split; intros E'; eapply set_eqb_trans; try done. by rewrite set_eqb_sym.
Qed.
Lemma eqb_right a b c : AttributeSet_eqb a b = true → AttributeSet_eqb c a = AttributeSet_eqb c b.
Proof. intros E. rewrite (set_eqb_sym c a), (set_eqb_sym c b). by apply eqb_left. Qed.

(** Only the keys of the map matter. *)
Lemma covered_keys pts pts' k : fst <$> pts = fst <$> pts' → covered pts k = covered pts' k.
Proof.
  revert pts'. induction pts as [|[p v] pts IH]; intros [|[p' v'] pts']; cbn; try done.
  intros [= -> E]. f_equal. by apply IH.
Qed.
Lemma routed_ext pts pts' p log :
  (∀ k o, (k, o) ∈ log → belongs pts p k = belongs pts' p k) → routed pts p log = routed pts' p log.
Proof.
  intros E. unfold routed. induction log as [|[k o] log IH]; [done|]. cbn.
  rewrite (E k o) by left. rewrite IH; [done|]. intros. apply (E _ o0). by right.
Qed.
Lemma routed_snoc pts p log k o :
  routed pts p (log ++ [(k, o)]) = routed pts p log ++ (if belongs pts p k then [o] else []).
Proof. unfold routed. rewrite omap_app. cbn. by destruct (belongs pts p k). Qed.
Lemma routed_nil pts p log : (∀ k o, (k, o) ∈ log → belongs pts p k = false) → routed pts p log = [].
Proof.
  intros E. unfold routed. induction log as [|[k o] log IH]; [done|]. cbn. rewrite (E k o) by left.
  apply IH. intros. apply (E _ o0). by right.
Qed.
Lemma aggregate_snoc os o : aggregate (os ++ [o]) = aggregate os ≫= upd o.
Proof. unfold aggregate. by rewrite foldl_app. Qed.

Lemma covered_app pts p v k :
  covered (pts ++ [(p, v)]) k = covered pts k || (negb (is_ovf p) && AttributeSet_eqb p k).
Proof. unfold covered. rewrite existsb_app. cbn. by rewrite orb_false_r. Qed.

Definition distinct_keys (pts : Points) : Prop := ∀ i j ki vi kj vj,
  pts !! i = Some (ki, vi) → pts !! j = Some (kj, vj) → AttributeSet_eqb ki kj = true → i = j.
(** A measurement belongs to one entry only. *)
Lemma belongs_one pts i j p v q w k :
  distinct_keys pts → pts !! i = Some (p, v) → pts !! j = Some (q, w) →
  belongs pts p k = true → belongs pts q k = true → i = j.
Proof.
  intros I Hi Hj. unfold belongs. destruct (is_ovf p) eqn:Ep, (is_ovf q) eqn:Eq; intros Bp Bq; bool_hyps.
  - eapply (I i j); [done..|]. unfold is_ovf in *. rewrite (eqb_right q ovf) by done. done.
  - rewrite covered_false in Bp. rewrite (Bp q w) in Bq; [done|by eapply list_elem_of_lookup_2|done].
  - rewrite covered_false in Bq. rewrite (Bq p v) in Bp; [done|by eapply list_elem_of_lookup_2|done].
  - eapply (I i j); [done..|]. by rewrite (eqb_left p k), set_eqb_sym.
Qed.
Lemma belongs_unique pts log i j p v q w k :
  inv pts log → pts !! i = Some (p, v) → pts !! j = Some (q, w) →
  belongs pts p k = true → belongs pts q k = true → i = j.
Proof. intros I. apply belongs_one. exact (inv_distinct _ _ I). Qed.

(** The entry a measurement belongs to is updated. *)
Lemma inv_update pts log i p v v' k o :
  inv pts log → pts !! i = Some (p, v) → belongs pts p k = true → upd o v = Some v' →
  covered pts k = true ∨ (∃ q w, (q, w) ∈ pts ∧ is_ovf q = true) →
  ((∀ q w, (q, w) ∈ pts → AttributeSet_eqb q k = false) → max <= size pts) →
  inv (<[i := (p, v')]> pts) (log ++ [(k, o)]).
Proof.
  intros I Hi Hb Hu HC HF. set (pts' := <[i := (p, v')]> pts).
  assert (fst <$> pts' = fst <$> pts) as Hkeys.
  { unfold pts'. rewrite list_fmap_insert. apply list_insert_id. by rewrite list_lookup_fmap, Hi. }
  assert (∀ j q w, pts' !! j = Some (q, w) → ∃ w0, pts !! j = Some (q, w0) ∧ (j ≠ i → w0 = w)) as Hlook.
  { intros j q w Hj. unfold pts' in Hj. destruct (decide (i = j)) as [<-|Hn].
    - rewrite list_lookup_insert_eq in Hj by (by eapply lookup_lt_Some). injection Hj as <- <-.
      exists v. by split.
    - rewrite list_lookup_insert_ne in Hj by done. by exists w. }
  assert (∀ q w, (q, w) ∈ pts → ∃ w', (q, w') ∈ pts') as Hmem.
  { intros q w [j Hj]%list_elem_of_lookup_1. destruct (decide (j = i)) as [->|Hn].
    - rewrite Hi in Hj. injection Hj as -> ->. exists v'. apply (list_elem_of_lookup_2 _ i).
      apply list_lookup_insert_eq. by eapply lookup_lt_Some.
    - exists w. apply (list_elem_of_lookup_2 _ j). unfold pts'. by rewrite list_lookup_insert_ne. }
  assert (∀ q w, (q, w) ∈ pts' → ∃ w0, (q, w0) ∈ pts) as Hmem'.
  { intros q w [j Hj]%list_elem_of_lookup_1. destruct (Hlook _ _ _ Hj) as (w0 & Hw & _).
    exists w0. by eapply list_elem_of_lookup_2. }
  assert (∀ q c, belongs pts' q c = belongs pts q c) as Hbel.
  { intros q c. unfold belongs. by rewrite (covered_keys pts' pts). }
  assert (size pts' = size pts) as Hsize by (unfold size, pts'; by rewrite length_insert).
  split.
  - intros q w Hq. destruct (Hmem' _ _ Hq) as [w0 ?]. by eapply (inv_good _ _ I).
  - intros a b ka va kb vb Ha Hb'. destruct (Hlook _ _ _ Ha) as (? & ? & _), (Hlook _ _ _ Hb') as (? & ? & _).
    by eapply (inv_distinct _ _ I).
  - intros q w [j Hj]%list_elem_of_lookup_1. destruct (Hlook _ _ _ Hj) as (w0 & Hw & Hne).
    rewrite routed_snoc, Hbel, (routed_ext pts' pts) by (intros; apply Hbel).
    destruct (decide (j = i)) as [->|Hn].
    + rewrite Hi in Hw. injection Hw as <- <-. rewrite Hb, aggregate_snoc.
      rewrite (inv_points _ _ I p v) by (by eapply list_elem_of_lookup_2). cbn. rewrite Hu.
      unfold pts' in Hj. rewrite list_lookup_insert_eq in Hj by (by eapply lookup_lt_Some). congruence.
    + destruct (belongs pts q k) eqn:Eq; [exfalso; apply Hn; symmetry; by eapply belongs_unique|].
      rewrite app_nil_r. rewrite <- Hne by done. apply (inv_points _ _ I). by eapply list_elem_of_lookup_2.
  - intros c oc [Hc|[= -> ->]%list_elem_of_singleton]%elem_of_app; rewrite (covered_keys pts' pts) by done.
    + destruct (inv_covered _ _ I _ _ Hc) as [?|(q & w & Hq & ?)]; [by left|].
      destruct (Hmem _ _ Hq) as [w' ?]. right. eauto.
    + destruct HC as [?|(q & w & Hq & ?)]; [by left|]. destruct (Hmem _ _ Hq) as [w' ?]. right. eauto.
  - intros c oc Hc Hall. rewrite Hsize.
    assert (∀ q w, (q, w) ∈ pts → AttributeSet_eqb q c = false) as Hall'.
    { intros q w Hq. destruct (Hmem _ _ Hq) as [w' ?]. by eapply Hall. }
    apply elem_of_app in Hc as [Hc|[= -> ->]%list_elem_of_singleton]; [by eapply (inv_full _ _ I)|by apply HF].
  - rewrite Hsize. destruct (inv_size _ _ I) as [?|(? & q & w & Hq & ?)]; [by left|right].
    destruct (Hmem _ _ Hq) as [w' ?]. split; [done|]. eauto.
Qed.

(** A fresh entry aggregates nothing yet. *)
Lemma inv_emplace pts log key :
  inv pts log → good key → (∀ q w, (q, w) ∈ pts → AttributeSet_eqb q key = false) →
  (∀ k o, (k, o) ∈ log → belongs (pts ++ [(key, init)]) key k = false
    ∧ covered (pts ++ [(key, init)]) k = covered pts k) →
  (size pts < max ∨ (size pts <= max ∧ is_ovf key = true)) →
  inv (pts ++ [(key, init)]) log.
Proof.
  intros I Hg Hfresh Hlog Hs. assert (size (pts ++ [(key, init)]) = size pts + 1) as Hsize by (by rewrite size_app).
  split.
  - intros q w [Hq|[= -> ->]%list_elem_of_singleton]%elem_of_app; [by eapply (inv_good _ _ I)|done].
  - intros a b ka va kb vb Ha Hb E. apply lookup_app_Some in Ha as [Ha|[La Ha]], Hb as [Hb|[Lb Hb]].
    + by eapply (inv_distinct _ _ I).
    + apply list_lookup_singleton_Some in Hb as [Hb [= <- <-]].
      rewrite (Hfresh ka va) in E; [done|by eapply list_elem_of_lookup_2].
    + apply list_lookup_singleton_Some in Ha as [Ha [= <- <-]].
      rewrite set_eqb_sym, (Hfresh kb vb) in E; [done|by eapply list_elem_of_lookup_2].
    + apply list_lookup_singleton_Some in Ha as [Ha _], Hb as [Hb _]. lia.
  - intros q w [Hq|[= -> ->]%list_elem_of_singleton]%elem_of_app.
    + rewrite (routed_ext _ pts); [by apply (inv_points _ _ I)|]. intros k o Hk. unfold belongs.
      by rewrite (proj2 (Hlog _ _ Hk)).
    + rewrite routed_nil; [done|]. intros k o Hk. by apply (Hlog k o).
  - intros k o Hk. rewrite (proj2 (Hlog _ _ Hk)). destruct (inv_covered _ _ I _ _ Hk) as [?|(q & w & ? & ?)]; [by left|].
    right. exists q, w. split; [apply elem_of_app; by left|done].
  - intros k o Hk Hall. rewrite Hsize. enough (max <= size pts) by lia. eapply (inv_full _ _ I); [done|].
    intros q w Hq. apply (Hall q w). apply elem_of_app. by left.
  - rewrite Hsize. destruct Hs as [?|[? ?]]; [left; lia|]. right. split; [lia|]. exists key, init.
    split; [apply elem_of_app; right; by left|done].
Qed.

Lemma inv_emplace_key pts log key :
  inv pts log → good key → (∀ q w, (q, w) ∈ pts → AttributeSet_eqb q key = false) → size pts < max →
  inv (pts ++ [(key, init)]) log.
Proof.
  intros I Hg Hfresh Hs. apply inv_emplace; [done..| |by left]. intros k o Hk. rewrite covered_app. unfold belongs.
  assert (∃ q w, (q, w) ∈ pts ∧ AttributeSet_eqb q k = true) as (q & w & Hq & Eq).
  { destruct (find_index k pts) as [i|] eqn:E.
    - apply find_index_Some in E as (q & w & Hi & ?). exists q, w. split; [by eapply list_elem_of_lookup_2|done].
    - rewrite find_index_None in E. pose proof (inv_full _ _ I _ _ Hk E). lia. }
  assert (AttributeSet_eqb key k = false) as Ek.
  { apply not_true_iff_false. intros E. pose proof (Hfresh q w Hq) as Hf.
    rewrite (eqb_right key k) in Hf by done. congruence. }
  rewrite Ek, andb_false_r, orb_false_r. split; [|done].
  destruct (is_ovf key) eqn:Eo; [|done]. apply negb_false_iff. rewrite covered_app, Ek, andb_false_r, orb_false_r.
  apply covered_true. exists q, w. split_and!; [done| |done].
  apply not_true_iff_false. intros Eqo. pose proof (Hfresh q w Hq) as Hf. unfold is_ovf in *.
  rewrite (eqb_right key ovf) in Hf by done. congruence.
Qed.

Lemma inv_emplace_ovf pts log :
  inv pts log → (∀ q w, (q, w) ∈ pts → is_ovf q = false) → inv (pts ++ [(ovf, init)]) log.
Proof.
  intros I Hno. assert (is_ovf ovf = true) as Ho by apply ovf_good.
  assert (size pts <= max) as Hs.
  { destruct (inv_size _ _ I) as [?|(? & q & w & Hq & ?)]; [done|]. rewrite (Hno q w) in *; done. }
  apply inv_emplace; [done|apply ovf_good|done| |by right]. intros k o Hk. rewrite covered_app. unfold belongs.
  rewrite Ho, covered_app, Ho. cbn [negb andb]. rewrite orb_false_r. split; [|done].
  destruct (inv_covered _ _ I _ _ Hk) as [-> |(q & w & Hq & ?)]; [done|]. rewrite (Hno q w) in *; done.
Qed.

(** The entry [find] returns is where the measurement belongs. *)
Lemma found_belongs pts i p v key : pts !! i = Some (p, v) → AttributeSet_eqb p key = true → belongs pts p key = true.
Proof.
  intros Hi Ep. unfold belongs. destruct (is_ovf p) eqn:Eo; [|done]. apply negb_true_iff, covered_false. intros q w Hq Eq.
  apply not_true_iff_false. intros E. unfold is_ovf in *.
  rewrite (eqb_left q p) in Eq by (rewrite (eqb_left q key) by done; by rewrite set_eqb_sym). congruence.
Qed.

(** One measurement through the shared code. *)
Lemma record_inv pts log key o k pts' calls :
  inv pts log → good key → record_point H max diag key init (upd o) pts = Some (k, pts', calls) →
  inv pts' (log ++ [(key, o)])
  ∧ calls = (if bool_decide (find_index key pts = None) && (max <=? size pts) && diag
             then [(CardinalityOverflow, 1)] else []).
Proof.
  intros I Hg. unfold record_point, locate.
  destruct (find_index key pts) as [i|] eqn:Ef.
  - apply find_index_Some in Ef as (p & v & Hi & Ep). rewrite Hi. destruct (upd o v) as [v'|] eqn:Eu; [|done].
    intros [= <- <- <-]. split; [|done]. assert ((p, v) ∈ pts) as Hp by (by eapply list_elem_of_lookup_2).
    pose proof (found_belongs pts i p v key Hi Ep) as Hb.
    eapply inv_update; [done..| |].
    + destruct (is_ovf p) eqn:Eo; [right; eauto|left]. apply covered_true. eauto.
    + intros Hall. rewrite (Hall p v Hp) in Ep. done.
  - rewrite find_index_None in Ef. rewrite bool_decide_true by done. cbn [andb]. unfold try_emplace.
    destruct (max <=? size pts) eqn:Em; bool_hyps.
    + destruct (find_index ovf pts) as [i|] eqn:Eo.
      * apply find_index_Some in Eo as (p & v & Hi & Ep). rewrite Hi. destruct (upd o v) as [v'|] eqn:Eu; [|done].
        intros [= <- <- <-]. split; [|done]. assert ((p, v) ∈ pts) as Hp by (by eapply list_elem_of_lookup_2).
        eapply inv_update; [done|done| |done|by right; eauto|done].
        unfold belongs, is_ovf. rewrite Ep. apply negb_true_iff, covered_false. intros q w Hq _. by eapply Ef.
      * rewrite find_index_None in Eo. pose proof (inv_emplace_ovf pts log I Eo) as I'.
        rewrite list_lookup_middle by done. destruct (upd o init) as [v'|] eqn:Eu; [|done].
        intros [= <- <- <-]. split; [|done]. assert (is_ovf ovf = true) as Ho by apply ovf_good.
        eapply inv_update; [exact I'|by rewrite list_lookup_middle| |done|right|].
        -- unfold belongs. rewrite Ho, covered_app, Ho, orb_false_r. apply negb_true_iff, covered_false.
           intros q w Hq _. by eapply Ef.
        -- exists ovf, init. split; [apply elem_of_app; right; by left|done].
        -- intros _. rewrite size_app. change (size [_]) with 1. lia.
    + destruct (find_index key pts) as [i|] eqn:Ek.
      { apply find_index_Some in Ek as (p & v & Hi & Ep). rewrite (Ef p v) in Ep; [done|by eapply list_elem_of_lookup_2]. }
      pose proof (inv_emplace_key pts log key I Hg Ef Em) as I'.
      rewrite list_lookup_middle by done. destruct (upd o init) as [v'|] eqn:Eu; [|done].
      intros [= <- <- <-]. split; [|done].
      assert (belongs (pts ++ [(key, init)]) key key = true) as Hb.
      { unfold belongs. rewrite covered_app. destruct (is_ovf key) eqn:Eo; [|done]. cbn [negb andb]. rewrite orb_false_r.
        apply negb_true_iff, covered_false. intros q w Hq _. by eapply Ef. }
      eapply inv_update; [exact I'|by rewrite list_lookup_middle|done|done| |].
      * destruct (is_ovf key) eqn:Eo.
        -- right. exists key, init. split; [apply elem_of_app; right; by left|done].
        -- left. rewrite covered_app, Eo, Hg. by rewrite orb_true_r.
      * intros Hall. unfold good in Hg. rewrite (Hall key init) in Hg; [done|]. apply elem_of_app. right. by left.
Qed.

(** *** Every log, with the entry of each measurement *)

(** The values of the measurements placed in entry [i]. *)
Definition placed_at (places : list nat) (log : list (AttributeSet * O)) (i : nat) : list O :=
  omap (λ x, if (fst x =? i)%nat then Some (snd (snd x)) else None) (zip places log).
(** Entry [i] is the one for [k].  A set equal to itself goes where it [belongs]; one
    that is not goes to an entry of its own, or to the overflow series of a full map. *)
Definition home (pts : Points) (i : nat) (k : AttributeSet) : Prop :=
  ∃ p v, pts !! i = Some (p, v) ∧
    if AttributeSet_eqb k k then belongs pts p k = true else p = k ∨ (is_ovf p = true ∧ max <= size pts).
Record placed (pts : Points) (log : list (AttributeSet * O)) (places : list nat) : Prop := {
  pl_home : Forall2 (λ i e, home pts i (fst e)) places log;
  pl_points : ∀ i p v, pts !! i = Some (p, v) → aggregate (placed_at places log i) = Some v;
  pl_alone : ∀ i p v, pts !! i = Some (p, v) → AttributeSet_eqb p p = false → (length (placed_at places log i) <= 1)%nat;
  pl_distinct : distinct_keys pts;
  pl_full : ∀ k o, (k, o) ∈ log → good k →
    (∀ p v, (p, v) ∈ pts → AttributeSet_eqb p k = false) → max <= size pts;
  pl_size : size pts <= max ∨ (size pts <= max + 1 ∧ ∃ p v, (p, v) ∈ pts ∧ is_ovf p = true)
}.
Lemma placed_empty : placed [] [] [].
Proof.
  split; [by constructor|by intros *; rewrite lookup_nil|by intros *; rewrite lookup_nil|by intros ? ? *; rewrite lookup_nil|by intros k o ?%elem_of_nil|left; change (size []) with 0; lia].
Qed.

(** A set that differs from itself equals nothing. *)
Lemma eqb_good a b : AttributeSet_eqb a b = true → good a ∧ good b.
Proof.
  intros E. split; unfold good; [rewrite (eqb_right a b) by done; done|].
  rewrite <- (eqb_left a b) by done. done.
Qed.
Lemma placed_at_snoc places log j k o i : length places = length log →
  placed_at (places ++ [j]) (log ++ [(k, o)]) i = placed_at places log i ++ (if (j =? i)%nat then [o] else []).
Proof. intros Hl. unfold placed_at. rewrite zip_with_app by done. rewrite omap_app. cbn. by destruct (j =? i)%nat. Qed.
Lemma placed_bound pts log places i : placed pts log places → i ∈ places → (i < length pts)%nat.
Proof.
  intros P Hi. apply list_elem_of_lookup_1 in Hi as [n Hn]. destruct (Forall2_lookup_l _ _ _ _ _ (pl_home _ _ _ P) Hn) as (e & _ & p & v & Hp & _).
  by eapply lookup_lt_Some.
Qed.
Lemma placed_at_fresh places log i : (∀ j, j ∈ places → (j < i)%nat) → placed_at places log i = [].
Proof.
  unfold placed_at. revert log. induction places as [|j places IH]; intros [|e log] Hj; cbn; [done..|].
  pose proof (Hj j ltac:(by left)). rewrite (proj2 (Nat.eqb_neq j i)) by lia. apply IH. intros. apply Hj. by right.
Qed.

(** The entry of a measurement is updated. *)
Lemma placed_update pts log places i p v v' k o :
  placed pts log places → pts !! i = Some (p, v) → upd o v = Some v' → home pts i k →
  (good p ∨ placed_at places log i = []) →
  (good k → (∀ q w, (q, w) ∈ pts → AttributeSet_eqb q k = false) → max <= size pts) →
  placed (<[i := (p, v')]> pts) (log ++ [(k, o)]) (places ++ [i]).
Proof.
  intros P Hi Hu Hh Hp HF. set (pts' := <[i := (p, v')]> pts).
  assert (fst <$> pts' = fst <$> pts) as Hkeys.
  { unfold pts'. rewrite list_fmap_insert. apply list_insert_id. by rewrite list_lookup_fmap, Hi. }
  assert (∀ j q w, pts' !! j = Some (q, w) → ∃ w0, pts !! j = Some (q, w0) ∧ (j ≠ i → w0 = w)) as Hlook.
  { intros j q w [(-> & [= -> ->])|[Hn Hj]]%lookup_moved; [by exists v|by exists w]. }
  assert (∀ j q w, pts !! j = Some (q, w) → ∃ w', pts' !! j = Some (q, w')) as Hback.
  { intros j q w Hj. destruct (decide (i = j)) as [<-|Hn].
    - rewrite Hi in Hj. injection Hj as <- <-. exists v'. apply list_lookup_insert_eq. by eapply lookup_lt_Some.
    - exists w. unfold pts'. by rewrite list_lookup_insert_ne. }
  assert (∀ q w, (q, w) ∈ pts → ∃ w', (q, w') ∈ pts') as Hmem.
  { intros q w [j Hj]%list_elem_of_lookup_1. destruct (Hback _ _ _ Hj) as [w' H']. exists w'. by eapply list_elem_of_lookup_2. }
  assert (size pts' = size pts) as Hsize by (unfold size, pts'; by rewrite length_insert).
  assert (∀ j c, home pts j c → home pts' j c) as Hhome.
  { intros j c (q & w & Hj & Hc). destruct (Hback _ _ _ Hj) as [w' H']. exists q, w'. split; [done|]. rewrite Hsize. unfold belongs in *.
    by rewrite (covered_keys pts' pts). }
  pose proof (Forall2_length _ _ _ (pl_home _ _ _ P)) as Hlen. split.
  - apply Forall2_app; [eapply Forall2_impl; [apply (pl_home _ _ _ P)|]; intros; by apply Hhome|].
    constructor; [|constructor]. by apply Hhome.
  - intros j q w Hj. rewrite placed_at_snoc by done. destruct (i =? j)%nat eqn:E.
    + apply Nat.eqb_eq in E as <-. rewrite aggregate_snoc, (pl_points _ _ _ P _ _ _ Hi). cbn. unfold pts' in Hj.
      rewrite list_lookup_insert_eq in Hj by (by eapply lookup_lt_Some). rewrite Hu. congruence.
    + apply Nat.eqb_neq in E. rewrite app_nil_r. destruct (Hlook _ _ _ Hj) as (w0 & Hw & Hne). rewrite <- Hne by congruence. by apply (pl_points _ _ _ P j q).
  - intros j q w Hj Hq. destruct (Hlook _ _ _ Hj) as (w0 & Hw & _). rewrite placed_at_snoc by done.
    destruct (i =? j)%nat eqn:E; [|rewrite app_nil_r; by apply (pl_alone _ _ _ P j q w0)].
    apply Nat.eqb_eq in E as <-. rewrite Hi in Hw. injection Hw as -> ->. destruct Hp as [Hp|Hp]; [unfold good in Hp; congruence|rewrite Hp; cbn; lia].
  - intros a b ka va kb vb Ha Hb. destruct (Hlook _ _ _ Ha) as (? & ? & _), (Hlook _ _ _ Hb) as (? & ? & _). by eapply (pl_distinct _ _ _ P).
  - intros c oc Hc Hg Hall. rewrite Hsize.
    assert (∀ q w, (q, w) ∈ pts → AttributeSet_eqb q c = false) as Hall'.
    { intros q w Hq. destruct (Hmem _ _ Hq) as [w' ?]. by eapply Hall. }
    apply elem_of_app in Hc as [Hc|[= -> ->]%list_elem_of_singleton]; [by eapply (pl_full _ _ _ P)|by apply HF].
  - rewrite Hsize. destruct (pl_size _ _ _ P) as [?|(? & q & w & Hq & ?)]; [by left|right].
    destruct (Hmem _ _ Hq) as [w' ?]. split; [done|]. eauto.
Qed.

Lemma Forall2_impl_in {A B} (R R' : A → B → Prop) l k :
  Forall2 R l k → (∀ x y, y ∈ k → R x y → R' x y) → Forall2 R' l k.
Proof. induction 1 as [|x y l k Hxy _ IH]; intros Hi; constructor; [by apply Hi; [left|]|]. apply IH. intros. apply Hi; [by right|done]. Qed.
(** A fresh entry has no measurement yet. *)
Lemma placed_emplace pts log places key :
  placed pts log places → (∀ q w, (q, w) ∈ pts → AttributeSet_eqb q key = false) →
  (∀ k o, (k, o) ∈ log → good k → covered (pts ++ [(key, init)]) k = covered pts k) →
  (size pts < max ∨ (size pts <= max ∧ is_ovf key = true)) →
  placed (pts ++ [(key, init)]) log places ∧ placed_at places log (length pts) = [].
Proof.
  intros P Hfresh Hlog Hs. assert (size (pts ++ [(key, init)]) = size pts + 1) as Hsize by (by rewrite size_app).
  assert (placed_at places log (length pts) = []) as Hnew by (apply placed_at_fresh; intros j; by eapply placed_bound).
  split; [|done]. split.
  - eapply Forall2_impl_in; [exact (pl_home _ _ _ P)|]. intros i [k o] Hin (p & v & Hp & Hb). exists p, v.
    split; [by apply lookup_app_l_Some|]. cbn [fst] in *. destruct (AttributeSet_eqb k k) eqn:Eg.
    + unfold belongs in *. by rewrite (Hlog k o).
    + destruct Hb as [->|[? ?]]; [by left|right]. rewrite Hsize. split; [done|lia].
  - intros i p v [[Hi _]|[-> [= -> ->]]]%lookup_joined; [by apply (pl_points _ _ _ P i p)|by rewrite Hnew].
  - intros i p v [[Hi _]|[-> [= -> ->]]]%lookup_joined Hg; [by apply (pl_alone _ _ _ P i p v)|by rewrite Hnew; cbn; lia].
  - intros a b ka va kb vb [[Ha La]|[-> [= -> ->]]]%lookup_joined [[Hb Lb]|[-> [= -> ->]]]%lookup_joined E; [|exfalso..|done].
    + by eapply (pl_distinct _ _ _ P).
    + rewrite (Hfresh ka va) in E; [done|by eapply list_elem_of_lookup_2].
    + rewrite set_eqb_sym, (Hfresh kb vb) in E; [done|by eapply list_elem_of_lookup_2].
  - intros k o Hk Hg Hall. rewrite Hsize. enough (max <= size pts) by lia. eapply (pl_full _ _ _ P); [done..|].
    intros q w Hq. apply (Hall q w). apply elem_of_app. by left.
  - rewrite Hsize. destruct Hs as [?|[? ?]]; [left; lia|]. right. split; [lia|]. exists key, init.
    split; [apply elem_of_app; right; by left|done].
Qed.
(** Where nothing equals [k], it belongs to the overflow series or to a fresh entry. *)
Lemma unseen_belongs pts p k : (∀ q w, (q, w) ∈ pts → AttributeSet_eqb q k = false) →
  is_ovf p = true ∨ AttributeSet_eqb p k = true → belongs (pts ++ [(p, init)]) p k = true.
Proof.
  intros Hall Hp. unfold belongs. rewrite covered_app.
  assert (covered pts k = false) as -> by (apply covered_false; intros q w Hq _; by eapply Hall).
  destruct (is_ovf p); [done|]. by destruct Hp.
Qed.
(** A fresh entry below the limit changes nothing for the sets seen so far. *)
Lemma placed_emplace_key pts log places key :
  placed pts log places → (∀ q w, (q, w) ∈ pts → AttributeSet_eqb q key = false) → size pts < max →
  placed (pts ++ [(key, init)]) log places ∧ placed_at places log (length pts) = [].
Proof.
  intros P Hfresh Hs. apply placed_emplace; [done..| |by left]. intros k o Hk Hg. rewrite covered_app.
  assert (∃ q w, (q, w) ∈ pts ∧ AttributeSet_eqb q k = true) as (q & w & Hq & Eq).
  { destruct (find_index k pts) as [i|] eqn:E.
    - apply find_index_Some in E as (q & w & Hi & ?). exists q, w. split; [by eapply list_elem_of_lookup_2|done].
    - rewrite find_index_None in E. pose proof (pl_full _ _ _ P _ _ Hk Hg E). lia. }
  assert (AttributeSet_eqb key k = false) as ->; [|by rewrite andb_false_r, orb_false_r].
  apply not_true_iff_false. intros E. pose proof (Hfresh q w Hq) as Hf. rewrite (eqb_right key k) in Hf by done. congruence.
Qed.
Lemma placed_emplace_ovf pts log places :
  placed pts log places → (∀ q w, (q, w) ∈ pts → is_ovf q = false) →
  placed (pts ++ [(ovf, init)]) log places ∧ placed_at places log (length pts) = [].
Proof.
  intros P Hno. assert (is_ovf ovf = true) as Ho by apply ovf_good. apply placed_emplace; [done|done| |right; split; [|done]].
  - intros k o _ _. rewrite covered_app, Ho. by rewrite orb_false_r.
  - destruct (pl_size _ _ _ P) as [?|(? & q & w & Hq & ?)]; [done|]. rewrite (Hno q w) in *; done.
Qed.

(** One measurement through the shared code, whatever its attributes. *)
Lemma record_placed pts log places key o k pts' calls :
  placed pts log places → record_point H max diag key init (upd o) pts = Some (k, pts', calls) →
  ∃ i, placed pts' (log ++ [(key, o)]) (places ++ [i]).
Proof.
  intros P. unfold record_point, locate. destruct (find_index key pts) as [i|] eqn:Ef.
  { apply find_index_Some in Ef as (p & v & Hi & Ep). rewrite Hi. destruct (upd o v) as [v'|] eqn:Eu; [|done].
    intros [= <- <- <-]. destruct (eqb_good _ _ Ep) as [Gp Gk]. exists i. eapply placed_update; [done..| |by left|].
    - exists p, v. split; [done|]. unfold good in Gk. rewrite Gk. by eapply found_belongs.
    - intros _ Hall. rewrite (Hall p v) in Ep; [done|by eapply list_elem_of_lookup_2]. }
  rewrite find_index_None in Ef. unfold try_emplace. destruct (max <=? size pts) eqn:Em; bool_hyps.
  - destruct (find_index ovf pts) as [i|] eqn:Eo.
    + apply find_index_Some in Eo as (p & v & Hi & Ep). rewrite Hi. destruct (upd o v) as [v'|] eqn:Eu; [|done].
      intros [= <- <- <-]. exists i. eapply placed_update; [done..| |left; exact (proj1 (eqb_good _ _ Ep))|done].
      exists p, v. split; [done|]. destruct (AttributeSet_eqb key key); [|by right]. unfold belongs, is_ovf. rewrite Ep.
      apply negb_true_iff, covered_false. intros q w Hq _. by eapply Ef.
    + rewrite find_index_None in Eo. destruct (placed_emplace_ovf pts log places P Eo) as [P' Hnew].
      rewrite list_lookup_middle by done. destruct (upd o init) as [v'|] eqn:Eu; [|done].
      intros [= <- <- <-]. exists (length pts). assert (is_ovf ovf = true) as Ho by apply ovf_good.
      assert (max <= size (pts ++ [(ovf, init)])) as Hfull by (rewrite size_app; change (size [_]) with 1; lia).
      eapply placed_update; [exact P'|by rewrite list_lookup_middle|done| |by right|done].
      exists ovf, init. split; [by rewrite list_lookup_middle|]. destruct (AttributeSet_eqb key key); [|by right].
      apply unseen_belongs; [done|by left].
  - destruct (find_index key pts) as [i|] eqn:Ek.
    { apply find_index_Some in Ek as (p & v & Hi & Ep). rewrite (Ef p v) in Ep; [done|by eapply list_elem_of_lookup_2]. }
    destruct (placed_emplace_key pts log places key P Ef Em) as [P' Hnew].
    rewrite list_lookup_middle by done. destruct (upd o init) as [v'|] eqn:Eu; [|done].
    intros [= <- <- <-]. exists (length pts). eapply placed_update; [exact P'|by rewrite list_lookup_middle|done| |by right|].
    + exists key, init. split; [by rewrite list_lookup_middle|]. destruct (AttributeSet_eqb key key) eqn:Eg; [|by left].
      apply unseen_belongs; [done|by right].
    + intros Hg Hall. unfold good in Hg. rewrite (Hall key init) in Hg; [done|]. apply elem_of_app. right. by left.
Qed.

(** Of sets equal to themselves, an entry has exactly those that belong to it. *)
Lemma placed_routed pts log places i p v : placed pts log places → Forall (λ e, good (fst e)) log →
  pts !! i = Some (p, v) → placed_at places log i = routed pts p log.
Proof.
  intros P Hg Hi. pose proof (pl_distinct _ _ _ P) as Hd. pose proof (pl_home _ _ _ P) as Hh. clear P. unfold placed_at, routed.
  induction Hh as [|j [k o] places log Hj _ IH]; [done|]. apply Forall_cons_1 in Hg as [Hk Hg]. cbn [zip zip_with omap list_omap fst snd].
  rewrite (IH Hg). destruct Hj as (q & w & Hj & Hb). cbn [fst] in *. unfold good in Hk. rewrite Hk in Hb.
  assert ((j =? i)%nat = belongs pts p k) as ->; [|by destruct (belongs pts p k)].
  destruct (j =? i)%nat eqn:E.
  - apply Nat.eqb_eq in E as ->. rewrite Hi in Hj. injection Hj as -> ->. done.
  - apply Nat.eqb_neq in E. destruct (belongs pts p k) eqn:Ep; [|done]. destruct E. by eapply belongs_one.
Qed.
(** A set that differs from itself, in an entry of its own, is alone there. *)
Lemma placed_single pts log places n i k o v : placed pts log places → AttributeSet_eqb k k = false →
  places !! n = Some i → log !! n = Some (k, o) → pts !! i = Some (k, v) → placed_at places log i = [o].
Proof.
  intros P Hk Hn Hl Hi. pose proof (pl_alone _ _ _ P i k v Hi Hk) as Ha.
  assert (o ∈ placed_at places log i) as Hin.
  { unfold placed_at. apply list_elem_of_omap. exists (i, (k, o)). cbn. rewrite Nat.eqb_refl. split; [|done].
    apply (list_elem_of_lookup_2 _ n). rewrite lookup_zip_with, Hn. cbn. by rewrite Hl. }
  destruct (placed_at places log i) as [|x [|y l]]; [by apply elem_of_nil in Hin| |cbn in Ha; lia].
  by apply list_elem_of_singleton in Hin as ->.
Qed.
End routing.

(** ** Totality and totals *)

Lemma locate_lookup {V} H max diag key (init : V) pts it pts' calls :
  locate H max diag key init pts = (it, pts', calls) →
  ∃ k v, pts' !! it = Some (k, v)
    ∧ ((pts' = pts ∧ pts !! it = Some (k, v)) ∨ (pts' = pts ++ [(k, init)] ∧ it = length pts ∧ v = init)).
Proof.
  unfold locate, try_emplace. destruct (find_index key pts) as [i|] eqn:E.
  { intros [= <- <- <-]. apply find_index_Some in E as (k & v & Hi & _). eauto 6. }
  set (key' := if max <=? size pts then _ else _). destruct (find_index key' pts) as [i|] eqn:E'; intros [= <- <- <-].
  - apply find_index_Some in E' as (k & v & Hi & _). eauto 6.
  - exists key', init. split; [by rewrite list_lookup_middle|]. auto.
Qed.

(** Recording fails only when the update is undefined. *)
Lemma record_point_total {V} H max diag key (init : V) upd pts :
  (∀ v, is_Some (upd v)) → is_Some (record_point H max diag key init upd pts).
Proof.
  intros Ht. unfold record_point. destruct (locate _ _ _ _ _ _) as [[it pts'] calls] eqn:E.
  apply locate_lookup in E as (k & v & -> & _). destruct (Ht v) as [v' ->]. eauto.
Qed.

Lemma record_point_None {V} H max diag key (init : V) upd pts :
  record_point H max diag key init upd pts = None → ∃ v, (v = init ∨ v ∈ pts.*2) ∧ upd v = None.
Proof.
  unfold record_point. destruct (locate _ _ _ _ _ _) as [[it pts'] calls] eqn:E.
  apply locate_lookup in E as (k & v & -> & Hcase). destruct (upd v) eqn:Eu; [done|]. intros _. exists v. split; [|done].
  destruct Hcase as [[_ Hi]|(_ & _ & ->)]; [right|by left]. apply list_elem_of_fmap. exists (k, v). split; [done|by eapply list_elem_of_lookup_2].
Qed.

(** Recording changes one entry, by one update. *)
Lemma record_point_zsum {V} H max diag key (init : V) upd pts k pts' calls (f : V → Z) d :
  record_point H max diag key init upd pts = Some (k, pts', calls) →
  f init = 0 → (∀ v v', upd v = Some v' → f v' = f v + d) →
  zsum (f ∘ snd) pts' = zsum (f ∘ snd) pts + d.
Proof.
  intros Hr Hi Hd. unfold record_point in Hr. destruct (locate _ _ _ _ _ _) as [[it pts1] calls1] eqn:E.
  destruct (locate_lookup _ _ _ _ _ _ _ _ _ E) as (k1 & v & Hl & Hcase). rewrite Hl in Hr.
  destruct (upd v) as [v'|] eqn:Eu; [|done]. injection Hr as <- <- <-. specialize (Hd _ _ Eu).
  assert (zsum (f ∘ snd) (<[it := (k1, v')]> pts1) = zsum (f ∘ snd) pts1 + d) as ->.
  { apply list_elem_of_split_length in Hl as (l1 & l2 & -> & ->).
    rewrite insert_app_r_alt, Nat.sub_diag, !zsum_app by done. cbn. lia. }
  f_equal. destruct Hcase as [[-> _]|(-> & _ & _)]; [done|]. rewrite zsum_app. cbn. lia.
Qed.
