(* ===== verification/BatchWorker.v ===== *)
(** * The batching worker shared by the span and the log processor

    [BatchSpanProcessor] ([src/sdk/batch_span_processor.cpp]) and
    [BatchLogRecordProcessor] ([src/sdk/batch_log_record_processor.cpp]) differ in
    how a producer's record is admitted to the queue and in how a drained batch is
    exported; the rest (options, flush and shutdown handshake, worker loop) is the
    same code.  That common part is modelled here over the interface
    [BatchQueue], which each processor instantiates and whose laws each
    discharges.

    Every method body between taking and releasing [m_mu] is one atomic
    transition; the worker's iteration has three, because it drops the lock
    between collecting, exporting and acknowledging.  A run is an arbitrary
    interleaving of producer, control and worker transitions.  [wait_for] may
    always return by timeout, so collecting is enabled whenever the worker waits,
    and [notify_one] has no effect of its own.

    The theorems hold for every interleaving: each accepted record is exported
    exactly once and in order or counted as evicted; a completed [ForceFlush]
    covers everything accepted before it; after [Shutdown] nothing is accepted and
    the worker, whatever else runs, drains the queue and exits within a stated
    number of its own transitions. *)
From S2P Require Import Prelude Data.

(** ** What a processor promises the worker *)

(** [enqueue opts shutdown queue aux input] is the producer's critical section:
    the result, the queue and its bookkeeping afterwards, and the drops it
    records.  [released] is the bookkeeping of one [pop_front]. *)
Class BatchQueue (Input Item Aux : Type) := {
  enqueue : BatchOptions → bool → list Item → Aux → Input → bool * list Item * Aux * list DropReason;
  item_of : Input → Item;
  released : Aux → Item → Aux
}.

Class BatchQueueLaws {Input Item Aux} (Q : BatchQueue Input Item Aux) := {
  (** The options the processor may be given. *)
  valid_options : BatchOptions → Prop;
  (** What the bookkeeping says about the queue. *)
  tracks : list Item → Aux → Prop;
  enqueue_shutdown o q a x : enqueue o true q a x = (false, q, a, [PostShutdown]);
  (** An offer evicts a prefix, appends the new item last if at all, and records
      one drop per item lost. *)
  enqueue_spec o q a x ok q' a' ds :
    valid_options o → enqueue o false q a x = (ok, q', a', ds) →
    ∃ evicted kept, q = evicted ++ kept ∧ q' = kept ++ (if ok then [item_of x] else [])
      ∧ length ds = (length evicted + if ok then 0 else 1)%nat ∧ (tracks q a → tracks q' a');
  released_spec i q a : tracks (i :: q) a → tracks q (released a i)
}.

Section worker.
Context {Input Item Aux : Type} {Q : BatchQueue Input Item Aux}.

(** ** State *)

Record WakeResult := mkWake { batch : list Item; done : bool; pending_flush_seq : Z }.

(** Where the worker thread is in [WorkerLoop]. *)
Inductive Worker :=
| Waiting                        (** in [WaitAndCollect], before its critical section *)
| Collected (w : WakeResult)     (** about to export *)
| Exported (w : WakeResult)      (** about to acknowledge a flush and test [done] *)
| Exited.

(** The fields guarded by [m_mu], the sink, and the calls of [ExportBatch]. *)
Record State := mkState {
  m_opts : BatchOptions;
  m_queue : list Item;
  m_aux : Aux;
  m_shutdown : bool;
  m_flush_seq : Z;
  m_flush_done_seq : Z;
  m_diag : option (list DropReason);
  m_worker : Worker;
  exported : list (list Item)
}.

Definition set_queue (q : list Item) (a : Aux) (st : State) : State :=
  mkState (m_opts st) q a (m_shutdown st) (m_flush_seq st) (m_flush_done_seq st) (m_diag st)
    (m_worker st) (exported st).
Definition set_worker (w : Worker) (st : State) : State :=
  mkState (m_opts st) (m_queue st) (m_aux st) (m_shutdown st) (m_flush_seq st)
    (m_flush_done_seq st) (m_diag st) w (exported st).

(** ** Operations *)

Definition RecordDropped (st : State) (reason : DropReason) : State :=
  match m_diag st with
  | None => st
  | Some log =>
      mkState (m_opts st) (m_queue st) (m_aux st) (m_shutdown st) (m_flush_seq st)
        (m_flush_done_seq st) (Some (log ++ [reason])) (m_worker st) (exported st)
  end.

(** [Enqueue] / [OnEmit]. *)
Definition Enqueue (st : State) (x : Input) : bool * State :=
  let '(ok, q, a, drops) := enqueue (m_opts st) (m_shutdown st) (m_queue st) (m_aux st) x in
  (ok, set_queue q a (fold_left RecordDropped drops st)).

Definition SetOptions (st : State) (opts : BatchOptions) : State :=
  mkState opts (m_queue st) (m_aux st) (m_shutdown st) (m_flush_seq st) (m_flush_done_seq st)
    (m_diag st) (m_worker st) (exported st).

(** [ForceFlush] up to its wait: the target, or [None] for [AlreadyShutDown]. *)
Definition ForceFlush_begin (st : State) : option Z * State :=
  if m_shutdown st then (None, st)
  else
    let target := m_flush_seq st + 1 in
    (Some target,
     mkState (m_opts st) (m_queue st) (m_aux st) (m_shutdown st) target (m_flush_done_seq st)
       (m_diag st) (m_worker st) (exported st)).
(** The value [ForceFlush] returns when its wait ends in state [st]. *)
Definition ForceFlush_end (st : State) (target : option Z) : Status :=
  match target with
  | None => AlreadyShutDown
  | Some t => if t <=? m_flush_done_seq st then Completed else TimedOut
  end.

(** [Shutdown] up to the join; [None] when it goes on to join. *)
Definition Shutdown_begin (st : State) : option Status * State :=
  if m_shutdown st then (Some AlreadyShutDown, st)
  else
    (None,
     mkState (m_opts st) (m_queue st) (m_aux st) true (m_flush_seq st) (m_flush_done_seq st)
       (m_diag st) (m_worker st) (exported st)).

(** The loop of [WaitAndCollect] that moves [count] items out of the queue. *)
Fixpoint collect (count : nat) (q : list Item) (a : Aux) : list Item * list Item * Aux :=
  match count, q with
  | S n, i :: q' => let '(b, q'', a') := collect n q' (released a i) in (i :: b, q'', a')
  | _, _ => ([], q, a)
  end.

Definition WaitAndCollect (st : State) : WakeResult * State :=
  let count := Nat.min (length (m_queue st)) (Z.to_nat (max_export_batch_size (m_opts st))) in
  let '(b, q, a) := collect count (m_queue st) (m_aux st) in
  let empty := match q with [] => true | _ => false end in
  let pending := if (m_flush_done_seq st <? m_flush_seq st) && empty then m_flush_seq st else 0 in
  (mkWake b (m_shutdown st && empty) pending, set_queue q a st).

(** [ExportBatch] as an action of the environment: the batch is handed over. *)
Definition hand_over (b : list Item) (st : State) : State :=
  mkState (m_opts st) (m_queue st) (m_aux st) (m_shutdown st) (m_flush_seq st)
    (m_flush_done_seq st) (m_diag st) (m_worker st) (exported st ++ [b]).

Definition acknowledge (pending : Z) (st : State) : State :=
  if 0 <? pending then
    mkState (m_opts st) (m_queue st) (m_aux st) (m_shutdown st) (m_flush_seq st) pending
      (m_diag st) (m_worker st) (exported st)
  else st.

(** One transition of [WorkerLoop]. *)
Definition WorkerLoop_step (st : State) : State :=
  match m_worker st with
  | Waiting => let '(w, st') := WaitAndCollect st in set_worker (Collected w) st'
  | Collected w =>
      set_worker (Exported w) (match batch w with [] => st | b => hand_over b st end)
  | Exported w =>
      set_worker (if done w then Exited else Waiting) (acknowledge (pending_flush_seq w) st)
  | Exited => st
  end.

Definition init (opts : BatchOptions) (a : Aux) (diag : bool) : State :=
  mkState opts [] a false 0 0 (if diag then Some [] else None) Waiting [].

(** ** Runs with their history

    [h_accepted] lists the items accepted so far, [h_gone] those that have left
    the queue and how, [h_marks] the number of items accepted when each
    successful [ForceFlush] was called, [h_refused] the offers refused. *)
Inductive Fate := Taken | Evicted.
Record History := mkHistory {
  h_accepted : list Item;
  h_gone : list (Fate * Item);
  h_marks : list nat;
  h_refused : nat
}.

Inductive Event :=
| EvOffer (x : Input) | EvSetOptions (o : BatchOptions) | EvForceFlush | EvShutdown | EvWorker.

Definition tag (f : Fate) (l : list Item) : list (Fate * Item) := (λ i, (f, i)) <$> l.

Definition step (s : State * History) (e : Event) : State * History :=
  let '(st, h) := s in
  match e with
  | EvOffer x =>
      let '(ok, st') := Enqueue st x in
      let lost := (length (m_queue st) + (if ok then 1 else 0) - length (m_queue st'))%nat in
      (st', mkHistory (h_accepted h ++ if ok then [item_of x] else [])
              (h_gone h ++ tag Evicted (take lost (m_queue st)))
              (h_marks h) (h_refused h + if ok then 0 else 1))
  | EvSetOptions o => (SetOptions st o, h)
  | EvForceFlush =>
      let '(target, st') := ForceFlush_begin st in
      (st', match target with
            | None => h
            | Some _ => mkHistory (h_accepted h) (h_gone h) (h_marks h ++ [length (h_accepted h)])
                          (h_refused h)
            end)
  | EvShutdown => (snd (Shutdown_begin st), h)
  | EvWorker =>
      let st' := WorkerLoop_step st in
      (st', match m_worker st, m_worker st' with
            | Waiting, Collected w =>
                mkHistory (h_accepted h) (h_gone h ++ tag Taken (batch w)) (h_marks h) (h_refused h)
            | _, _ => h
            end)
  end.
Definition run (s : State * History) (es : list Event) : State * History := fold_left step es s.
Definition start (opts : BatchOptions) (a : Aux) (diag : bool) : State * History :=
  (init opts a diag, mkHistory [] [] [] 0).

Definition is_taken (p : Fate * Item) : bool := match fst p with Taken => true | Evicted => false end.
Definition taken (l : list (Fate * Item)) : list Item := snd <$> List.filter is_taken l.
Definition evicted (l : list (Fate * Item)) : list Item :=
  snd <$> List.filter (λ p, negb (is_taken p)) l.
(** The batch collected and not yet exported. *)
Definition in_flight (st : State) : list Item :=
  match m_worker st with Collected w => batch w | _ => [] end.

End worker.
Arguments WakeResult : clear implicits.
Arguments Worker : clear implicits.
Arguments State : clear implicits.
Arguments History : clear implicits.
Arguments Event : clear implicits.

Section worker_proofs.
Context {Input Item Aux : Type} {Q : BatchQueue Input Item Aux} {L : BatchQueueLaws Q}.

(** ** Generic facts *)

Lemma collect_spec count q a b q' a' :
  (count <= length q)%nat → collect count q a = (b, q', a') →
  q = b ++ q' ∧ length b = count ∧ (tracks q a → tracks q' a').
Proof.
  revert q a b q' a'. induction count as [|n IH]; intros q a b q' a' Hlen H.
  { injection H as <- <- <-. done. }
  destruct q as [|i q]; [simpl in Hlen; lia|]. cbn [collect] in H.
  destruct (collect n q (released a i)) as [[b0 q0] a0] eqn:E. injection H as <- <- <-.
  apply IH in E as (-> & <- & Ht); [|simpl in Hlen; lia].
  split_and!; [done|done|]. intros H. by apply Ht, released_spec.
Qed.

Lemma taken_app l k : taken (l ++ k) = taken (Item:=Item) l ++ taken k.
Proof. unfold taken. by rewrite List.filter_app, fmap_app. Qed.
Lemma evicted_app l k : evicted (l ++ k) = evicted (Item:=Item) l ++ evicted k.
Proof. unfold evicted. by rewrite List.filter_app, fmap_app. Qed.
Lemma taken_tag f (l : list Item) :
  taken (tag f l) = match f with Taken => l | Evicted => [] end.
Proof. induction l as [|i l IH]; [by destruct f|]. destruct f; cbn in *; [by f_equal|done]. Qed.
Lemma evicted_tag f (l : list Item) :
  evicted (tag f l) = match f with Taken => [] | Evicted => l end.
Proof. induction l as [|i l IH]; [by destruct f|]. destruct f; cbn in *; [done|by f_equal]. Qed.
Lemma snd_tag f (l : list Item) : snd <$> tag f l = l.
Proof. unfold tag. rewrite <- list_fmap_compose. apply list_fmap_id. Qed.
Lemma taken_take_prefix k l : taken (take k l) `prefix_of` taken (Item:=Item) l.
Proof. rewrite <- (take_drop k l) at 2. rewrite taken_app. by eexists. Qed.

Lemma RecordDropped_log (ds : list DropReason) (st : State Item Aux) :
  fold_left RecordDropped ds st
  = mkState (m_opts st) (m_queue st) (m_aux st) (m_shutdown st) (m_flush_seq st)
      (m_flush_done_seq st) ((λ log, log ++ ds) <$> m_diag st) (m_worker st) (exported st).
Proof.
  revert st. induction ds as [|d ds IH]; intros st; cbn [fold_left].
  - destruct st as [? ? ? ? ? ? [log|] ? ?]; cbn; [by rewrite app_nil_r|done].
  - rewrite IH. destruct st as [? ? ? ? ? ? [log|] ? ?]; cbn; [by rewrite <- app_assoc|done].
Qed.

(** ** The invariant of every run *)

Definition flushed (h : History Item) (out : list (list Item)) (n : Z) : Prop :=
  ∀ i k, Z.of_nat i < n → h_marks h !! i = Some k →
    (k <= length (h_gone h))%nat ∧ taken (take k (h_gone h)) `prefix_of` concat out.
Definition drained (h : History Item) (n : Z) : Prop :=
  ∀ i k, Z.of_nat i < n → h_marks h !! i = Some k → (k <= length (h_gone h))%nat.

Definition worker_ok (st : State Item Aux) (h : History Item) : Prop :=
  match m_worker st with
  | Waiting => True
  | Collected w | Exported w =>
      0 <= pending_flush_seq w <= m_flush_seq st
      ∧ (0 < pending_flush_seq w → m_flush_done_seq st < pending_flush_seq w)
      ∧ drained h (pending_flush_seq w)
      ∧ (done w = true → m_shutdown st = true ∧ m_queue st = [])
  | Exited => m_shutdown st = true ∧ m_queue st = []
  end.

Record Inv (s : State Item Aux * History Item) : Prop := {
  inv_fifo : h_accepted (snd s) = (snd <$> h_gone (snd s)) ++ m_queue (fst s);
  inv_taken : taken (h_gone (snd s)) = concat (exported (fst s)) ++ in_flight (fst s);
  inv_marks : Z.of_nat (length (h_marks (snd s))) = m_flush_seq (fst s);
  inv_marks_le : Forall (λ k, (k <= length (h_accepted (snd s)))%nat) (h_marks (snd s));
  inv_seq : 0 <= m_flush_done_seq (fst s) <= m_flush_seq (fst s);
  inv_flushed : flushed (snd s) (exported (fst s)) (m_flush_done_seq (fst s));
  inv_worker : worker_ok (fst s) (snd s);
  inv_tracks : tracks (m_queue (fst s)) (m_aux (fst s));
  inv_drops : ∀ log, m_diag (fst s) = Some log →
    length log = (length (evicted (h_gone (snd s))) + h_refused (snd s))%nat;
  inv_nonempty : Forall (λ b, b ≠ []) (exported (fst s));
  inv_options : valid_options (m_opts (fst s))
}.

Definition valid_event (e : Event Input) : Prop :=
  match e with EvSetOptions o => valid_options o | _ => True end.

Lemma Enqueue_cases (st : State Item Aux) x ok st' :
  valid_options (m_opts st) ∨ m_shutdown st = true → Enqueue st x = (ok, st') →
  ∃ ev kept ds a,
    m_queue st = ev ++ kept
    ∧ st' = mkState (m_opts st) (kept ++ if ok then [item_of x] else []) a (m_shutdown st)
              (m_flush_seq st) (m_flush_done_seq st) ((λ log, log ++ ds) <$> m_diag st)
              (m_worker st) (exported st)
    ∧ length ds = (length ev + if ok then 0 else 1)%nat
    ∧ (tracks (m_queue st) (m_aux st) → tracks (kept ++ if ok then [item_of x] else []) a)
    ∧ (m_shutdown st = true → ok = false ∧ ev = []).
Proof.
  intros Hv. unfold Enqueue. destruct (enqueue _ _ _ _ x) as [[[ok0 q] a] ds] eqn:E. intros [= <- <-].
  rewrite RecordDropped_log. unfold set_queue. cbn. destruct (m_shutdown st) eqn:Es.
  - rewrite enqueue_shutdown in E. injection E as <- <- <- <-.
    exists [], (m_queue st), [PostShutdown], (m_aux st). rewrite app_nil_r. by split_and!.
  - destruct Hv as [Hv|?]; [|done].
    apply enqueue_spec in E as (ev & kept & Hq & -> & Hd & Ht); [|done]. by exists ev, kept, ds, a.
Qed.

Lemma flushed_mono h h' out out' n :
  h_marks h' = h_marks h → (∃ g, h_gone h' = h_gone h ++ g) → concat out `prefix_of` concat out' →
  flushed h out n → flushed h' out' n.
Proof.
  intros Hm [g Hg] Ho H i k Hi Hk. rewrite Hm in Hk. destruct (H i k Hi Hk) as [Hlen Hp].
  rewrite Hg, length_app. split; [lia|]. rewrite take_app_le by lia. by etrans.
Qed.

Lemma drained_mono h h' n :
  h_marks h' = h_marks h → (∃ g, h_gone h' = h_gone h ++ g) → drained h n → drained h' n.
Proof.
  intros Hm [g Hg] H i k Hi Hk. rewrite Hm in Hk. specialize (H i k Hi Hk).
  rewrite Hg, length_app. lia.
Qed.
Lemma flushed_app_mark h k out n :
  n <= Z.of_nat (length (h_marks h)) → flushed h out n →
  flushed (mkHistory (h_accepted h) (h_gone h) (h_marks h ++ [k]) (h_refused h)) out n.
Proof.
  intros Hn H i j Hi Hj. cbn in *. apply (H i j Hi). rewrite lookup_app_l in Hj by lia. done.
Qed.
Lemma drained_app_mark h k n :
  n <= Z.of_nat (length (h_marks h)) → drained h n →
  drained (mkHistory (h_accepted h) (h_gone h) (h_marks h ++ [k]) (h_refused h)) n.
Proof.
  intros Hn H i j Hi Hj. cbn in *. apply (H i j Hi). rewrite lookup_app_l in Hj by lia. done.
Qed.

Lemma worker_ok_mono (st st' : State Item Aux) h h' :
  m_worker st' = m_worker st → m_flush_seq st <= m_flush_seq st' →
  m_flush_done_seq st' = m_flush_done_seq st →
  (m_shutdown st = true → m_shutdown st' = true) →
  (m_shutdown st = true → m_queue st = [] → m_queue st' = []) →
  (∀ n, n <= m_flush_seq st → drained h n → drained h' n) →
  worker_ok st h → worker_ok st' h'.
Proof.
  intros Hw Hf Hfd Hs Hq Hd H. unfold worker_ok in *. rewrite Hw, Hfd.
  destruct (m_worker st) as [|w|w|]; [done| | |naive_solver].
  all: destruct H as (Hp & Hpd & Hdr & Hdone); split_and!; [lia|lia|done|apply Hd; [lia|done]|naive_solver].
Qed.

Lemma step_offer_inv s x : Inv s → Inv (step s (EvOffer x)).
Proof.
  destruct s as [st h]. intros [I1 I2 I3 I4 I5 I6 I7 I8 I9 I10 I11]. cbn [fst snd] in *. cbn [step].
  destruct (Enqueue st x) as [ok st'] eqn:E.
  apply Enqueue_cases in E as (ev & kept & ds & a & Hq & -> & Hds & Ht & Hsd); [|by left]. cbn [m_queue].
  assert (take (length (m_queue st) + (if ok then 1 else 0)
     - length (kept ++ if ok then [item_of x] else [])) (m_queue st) = ev) as ->.
  { rewrite Hq, !length_app. replace (_ - _)%nat with (length ev) by (destruct ok; simpl; lia).
    apply take_app_length. }
  assert (∃ g, h_gone h ++ tag Evicted ev = h_gone h ++ g) as Hg by eauto.
  constructor; cbn [fst snd m_queue m_aux m_diag m_flush_seq m_flush_done_seq exported h_accepted
                    h_gone h_marks h_refused]; try done.
  - rewrite I1, fmap_app, snd_tag, Hq. by rewrite <- !app_assoc.
  - rewrite taken_app, taken_tag, app_nil_r. exact I2.
  - eapply Forall_impl; [exact I4|]. intros k Hk. simpl in *. rewrite length_app. lia.
  - by apply (flushed_mono h _ (exported st)).
  - eapply worker_ok_mono; [..|exact I7]; try done.
    + cbn. intros Hs Hn. destruct (Hsd Hs) as [-> ->]. rewrite Hn in Hq.
      cbn in Hq. by rewrite <- Hq.
    + intros n _. by apply drained_mono.
  - by apply Ht.
  - intros log Hl. apply fmap_Some in Hl as (log0 & Hl0 & ->).
    rewrite length_app, Hds, (I9 _ Hl0), evicted_app, evicted_tag, length_app. lia.
Qed.

Lemma step_flush_inv s : Inv s → Inv (step s EvForceFlush).
Proof.
  destruct s as [st h]. intros H. pose proof H as [I1 I2 I3 I4 I5 I6 I7 I8 I9 I10 I11].
  cbn [fst snd] in *. cbn [step]. unfold ForceFlush_begin. destruct (m_shutdown st) eqn:Es; [done|].
  constructor; cbn [fst snd m_queue m_aux m_diag m_flush_seq m_flush_done_seq exported h_accepted
                    h_gone h_marks h_refused]; try done.
  - rewrite length_app. simpl. lia.
  - apply Forall_app. split; [done|]. by apply Forall_singleton.
  - lia.
  - apply flushed_app_mark; [lia|done].
  - eapply worker_ok_mono; [..|exact I7]; cbn; try done; try lia; try congruence.
        intros n Hn. apply drained_app_mark. lia.
Qed.

Lemma step_collect_inv st h :
  m_worker st = Waiting → Inv (st, h) → Inv (step (st, h) EvWorker).
Proof.
  intros Hw [I1 I2 I3 I4 I5 I6 I7 I8 I9 I10 I11]. cbn [fst snd] in *.
  cbn [step]. unfold WorkerLoop_step, WaitAndCollect. rewrite Hw.
  destruct (collect _ (m_queue st) (m_aux st)) as [[b q] a] eqn:Ec.
  apply collect_spec in Ec as (Hq & _ & Ht); [|lia].
  set (empty := match q with [] => true | _ => false end).
  assert (empty = true → q = []) as Hempty by (subst empty; by destruct q).
  cbn [set_worker m_worker batch].
  constructor; cbn [fst snd m_queue m_aux m_diag m_flush_seq m_flush_done_seq exported h_accepted
                    h_gone h_marks h_refused set_queue set_worker]; try done.
  - rewrite I1, fmap_app, snd_tag, Hq. by rewrite app_assoc.
  - rewrite taken_app, taken_tag, I2. unfold in_flight. rewrite Hw. cbn. by rewrite app_nil_r.
  - apply (flushed_mono h _ (exported st)); [done| |done|exact I6]. cbn. eauto.
  - unfold worker_ok. cbn. split_and!; [split_if; lia|split_if; lia|split_if; bool_hyps; lia| |].
    + destruct (_ && empty) eqn:Ep; [|intros i k Hi; lia]. bool_hyps.
      intros i k _ Hk. cbn. eapply Forall_lookup_1 in I4; [|exact Hk].
      rewrite I1, Hq, (Hempty ltac:(done)) in I4. rewrite !length_app, length_fmap in I4.
      rewrite length_app. unfold tag. rewrite length_fmap. simpl in *. lia.
    + intros Hd. bool_hyps. auto.
  - auto.
  - intros log Hl. rewrite evicted_app, evicted_tag, app_nil_r. auto.
Qed.

Lemma step_export_inv st h w :
  m_worker st = Collected w → Inv (st, h) → Inv (step (st, h) EvWorker).
Proof.
  intros Hw [I1 I2 I3 I4 I5 I6 I7 I8 I9 I10 I11]. cbn [fst snd] in *.
  unfold in_flight in I2. unfold worker_ok in I7. cbn [step]. unfold WorkerLoop_step. rewrite Hw in *.
  assert (∃ out, (match batch w with [] => st | b => hand_over b st end)
     = mkState (m_opts st) (m_queue st) (m_aux st) (m_shutdown st) (m_flush_seq st)
         (m_flush_done_seq st) (m_diag st) (m_worker st) out
     ∧ concat out = concat (exported st) ++ batch w ∧ Forall (λ b, b ≠ []) out) as (out & -> & Hout & Hne).
  { destruct (batch w) as [|i b].
    - exists (exported st). split; [by destruct st|]. by rewrite app_nil_r.
    - exists (exported st ++ [i :: b]). split; [done|]. rewrite concat_app. cbn. rewrite app_nil_r.
      split; [done|]. apply Forall_app. split; [done|]. by apply Forall_singleton. }
  constructor; cbn [fst snd m_queue m_aux m_diag m_flush_seq m_flush_done_seq exported h_accepted
                    h_gone h_marks h_refused set_worker]; try done.
  - unfold in_flight. cbn. by rewrite Hout, app_nil_r.
  - apply (flushed_mono h _ (exported st)); [done|by exists []; rewrite app_nil_r| |exact I6].
    rewrite Hout. by eexists.
Qed.

Lemma step_ack_inv st h w :
  m_worker st = Exported w → Inv (st, h) → Inv (step (st, h) EvWorker).
Proof.
  intros Hw [I1 I2 I3 I4 I5 I6 I7 I8 I9 I10 I11]. cbn [fst snd] in *.
  unfold in_flight in I2. unfold worker_ok in I7. cbn [step]. unfold WorkerLoop_step. rewrite Hw in *.
  destruct I7 as (Hp & _ & Hd & Hdone). rewrite app_nil_r in I2.
  assert (∃ n, acknowledge (pending_flush_seq w) st
     = mkState (m_opts st) (m_queue st) (m_aux st) (m_shutdown st) (m_flush_seq st) n
         (m_diag st) (m_worker st) (exported st)
     ∧ 0 <= n <= m_flush_seq st ∧ flushed h (exported st) n) as (n & -> & Hn & Hfl).
  { unfold acknowledge. destruct (0 <? _) eqn:E; bool_hyps.
    - exists (pending_flush_seq w). split_and!; [done|lia|lia|]. intros i k Hi Hk.
      split; [by eapply Hd|]. rewrite <- I2. apply taken_take_prefix.
    - exists (m_flush_done_seq st). split_and!; [by destruct st|lia|lia|done]. }
  constructor; cbn [fst snd m_queue m_aux m_diag m_flush_seq m_flush_done_seq exported h_accepted
                    h_gone h_marks h_refused set_worker]; try done.
  - unfold in_flight. cbn. destruct (done w); by rewrite app_nil_r.
  - unfold worker_ok. cbn. destruct (done w); [auto|done].
Qed.

Lemma step_inv s e : valid_event e → Inv s → Inv (step s e).
Proof.
  intros He H. destruct e as [x|o| | |].
  - by apply step_offer_inv.
  - destruct s as [st h], H as [I1 I2 I3 I4 I5 I6 I7 I8 I9 I10 I11]. by constructor.
  - by apply step_flush_inv.
  - destruct s as [st h]. cbn. unfold Shutdown_begin. destruct (m_shutdown st) eqn:E; [done|].
    destruct H as [I1 I2 I3 I4 I5 I6 I7 I8 I9 I10 I11]. constructor; try done. cbn [fst snd].
    by eapply worker_ok_mono; [..|exact I7].
  - destruct s as [st h]. destruct (m_worker st) as [|w|w|] eqn:Ew.
    + by apply step_collect_inv.
    + by eapply step_export_inv.
    + by eapply step_ack_inv.
    + cbn. unfold WorkerLoop_step. by rewrite Ew.
Qed.

Lemma start_inv opts a diag : valid_options opts → tracks [] a → Inv (start opts a diag).
Proof.
  intros Ho Ha. constructor; cbn; try done; try apply Forall_nil_2.
  destruct diag; [|done]. by intros log [= <-].
Qed.

Lemma run_inv s es : Forall valid_event es → Inv s → Inv (run s es).
Proof.
  intros Hes. revert s. induction Hes as [|e es He _ IH]; intros s H; [done|]. by apply IH, step_inv.
Qed.
Lemma worker_events n : Forall valid_event (replicate n EvWorker).
Proof. by apply Forall_replicate. Qed.

(** ** Progress

    The worker's distance to its exit once [m_shutdown] is set: three transitions
    per iteration, at least one item per iteration. *)
Definition distance (st : State Item Aux) : nat :=
  match m_worker st with
  | Waiting => 3 * length (m_queue st) + 3
  | Collected w => if done w then 2 else 3 * length (m_queue st) + 5
  | Exported w => if done w then 1 else 3 * length (m_queue st) + 4
  | Exited => 0
  end.

Definition live_options (e : Event Input) : bool :=
  match e with EvSetOptions o => 0 <? max_export_batch_size o | _ => true end.
Definition is_worker (e : Event Input) : bool := match e with EvWorker => true | _ => false end.

Lemma worker_distance (st : State Item Aux) h :
  m_shutdown st = true → 0 < max_export_batch_size (m_opts st) →
  (distance (fst (step (st, h) EvWorker)) <= distance st - 1)%nat
  ∧ m_shutdown (fst (step (st, h) EvWorker)) = true
  ∧ m_opts (fst (step (st, h) EvWorker)) = m_opts st.
Proof.
  intros Hs Hb. cbn [step fst]. unfold distance at 2, WorkerLoop_step.
  destruct (m_worker st) as [|w|w|] eqn:Ew.
  - unfold WaitAndCollect.
    destruct (collect _ (m_queue st) (m_aux st)) as [[b q] a] eqn:Ec.
    apply collect_spec in Ec as (Hq & Hlen & _); [|lia]. split; [|done].
    unfold distance. cbn. rewrite Hs. cbn [andb]. destruct q as [|i q]; cbn [done]; [lia|].
    assert (length b ≠ 0%nat); rewrite Hq, length_app in *; simpl in *; lia.
  - split_and!; [|by destruct (batch w)..].
    unfold distance. cbn. destruct (done w); [lia|]. by destruct (batch w); cbn; lia.
  - unfold acknowledge. split_and!; [|by destruct (0 <? _)..].
    unfold distance. cbn. destruct (done w); [lia|]. destruct (0 <? _); cbn; lia.
  - unfold distance. rewrite Ew. split_and!; [lia|done|done].
Qed.

Lemma other_distance (st : State Item Aux) h e :
  m_shutdown st = true → is_worker e = false →
  distance (fst (step (st, h) e)) = distance st
  ∧ m_shutdown (fst (step (st, h) e)) = true
  ∧ match e with
    | EvSetOptions o => m_opts (fst (step (st, h) e)) = o
    | _ => m_opts (fst (step (st, h) e)) = m_opts st
    end.
Proof.
  intros Hs He. destruct e as [x|o| | |]; [| | | |done]; cbn [step fst].
  - destruct (Enqueue st x) as [ok st'] eqn:E.
    apply Enqueue_cases in E as (ev & kept & ds & a & Hq & -> & _ & _ & Hsd); [|by right].
    destruct (Hsd Hs) as [-> ->]. cbn in Hq. unfold distance. cbn. rewrite app_nil_r, <- Hq. done.
  - done.
  - unfold ForceFlush_begin. by rewrite Hs.
  - unfold Shutdown_begin. by rewrite Hs.
Qed.

Lemma shutdown_progress es s :
  m_shutdown (fst s) = true → 0 < max_export_batch_size (m_opts (fst s)) →
  forallb live_options es = true →
  (distance (fst (run s es)) <= distance (fst s) - length (List.filter is_worker es))%nat.
Proof.
  revert s. induction es as [|e es IH]; intros [st h] Hs Hb Hl; [cbn; lia|].
  cbn [forallb] in Hl. bool_hyps. change (run (st, h) (e :: es)) with (run (step (st, h) e) es).
  cbn [List.filter fst] in *. destruct (is_worker e) eqn:Ew.
  - destruct e; try discriminate Ew. destruct (worker_distance st h Hs Hb) as (Hd & Hs' & Ho).
    specialize (IH (step (st, h) EvWorker) Hs' ltac:(by rewrite Ho) ltac:(done)). cbn [length]. lia.
  - destruct (other_distance st h e Hs Ew) as (Hd & Hs' & Ho).
    specialize (IH (step (st, h) e) Hs'). rewrite <- Hd. apply IH; [|done].
    destruct e; rewrite Ho; try done. cbn in H. by bool_hyps.
Qed.

(** After its exit the worker has handed over everything that was accepted and
    not evicted. *)
Lemma exited_complete s :
  Inv s → m_worker (fst s) = Exited →
  m_queue (fst s) = [] ∧ h_accepted (snd s) = (snd <$> h_gone (snd s))
  ∧ concat (exported (fst s)) = taken (h_gone (snd s)).
Proof.
  intros [I1 I2 _ _ _ _ I7 _ _ _ _] Hw. unfold worker_ok in I7. unfold in_flight in I2.
  rewrite Hw in *. destruct I7 as [_ Hq]. rewrite Hq, app_nil_r in *. done.
Qed.

Lemma distance_exited (st : State Item Aux) : distance st = 0%nat → m_worker st = Exited.
Proof. unfold distance. destruct (m_worker st) as [|w|w|]; [lia| | |done]; destruct (done w); lia. Qed.

(** The worker's distance to acknowledging every flush requested so far. *)
Definition flush_distance (st : State Item Aux) : nat :=
  if m_flush_seq st <=? m_flush_done_seq st then 0
  else match m_worker st with
       | Waiting => 3 * length (m_queue st) + 3
       | Collected w => if pending_flush_seq w =? m_flush_seq st then 2 else 3 * length (m_queue st) + 5
       | Exported w => if pending_flush_seq w =? m_flush_seq st then 1 else 3 * length (m_queue st) + 4
       | Exited => 0
       end.

Lemma worker_flush_distance (st : State Item Aux) h :
  Inv (st, h) → m_shutdown st = false → 0 < max_export_batch_size (m_opts st) →
  let st' := fst (step (st, h) EvWorker) in
  (flush_distance st' <= flush_distance st - 1)%nat
  ∧ m_shutdown st' = false ∧ m_opts st' = m_opts st ∧ m_flush_seq st' = m_flush_seq st.
Proof.
  intros [_ _ _ _ I5 _ I7 _ _ _ _] Hs Hb. unfold worker_ok in I7. cbn [step fst snd] in *.
  unfold WorkerLoop_step. destruct (m_worker st) as [|w|w|] eqn:Ew.
  - unfold WaitAndCollect. destruct (collect _ (m_queue st) (m_aux st)) as [[b q] a] eqn:Ec.
    apply collect_spec in Ec as (Hq & Hlen & _); [|lia]. split; [|done].
    unfold flush_distance. cbn. rewrite Ew. destruct (_ <=? m_flush_done_seq st) eqn:E; [lia|].
    bool_hyps. rewrite (proj2 (Z.ltb_lt _ _)) by done. cbn [andb].
    destruct q as [|i q]; [rewrite Z.eqb_refl; lia|].
    rewrite (proj2 (Z.eqb_neq _ _)) by lia.
    assert (length b ≠ 0%nat); rewrite Hq, length_app in *; simpl in *; lia.
  - split_and!; [|by destruct (batch w)..].
    unfold flush_distance. rewrite Ew. destruct (batch w); cbn; repeat split_if; lia.
  - destruct I7 as (Hp & Hpd & _ & Hd). destruct (done w); [destruct Hd; [done|congruence]|].
    unfold acknowledge. split_and!; [|by destruct (0 <? _)..].
    unfold flush_distance. rewrite Ew. destruct (0 <? _) eqn:E0; cbn; repeat split_if; bool_hyps; lia.
  - destruct I7. congruence.
Qed.

Lemma flush_progress n (s : State Item Aux * History Item) :
  Inv s → m_shutdown (fst s) = false → 0 < max_export_batch_size (m_opts (fst s)) →
  (flush_distance (fst (run s (replicate n EvWorker))) <= flush_distance (fst s) - n)%nat
  ∧ m_flush_seq (fst (run s (replicate n EvWorker))) = m_flush_seq (fst s)
  ∧ m_shutdown (fst (run s (replicate n EvWorker))) = false.
Proof.
  revert s. induction n as [|n IH]; intros [st h] Hi Hs Hb; [cbn; split_and!; (done || lia)|].
  destruct (worker_flush_distance st h Hi Hs Hb) as (Hd & Hs' & Ho & Hf).
  change (run (st, h) (replicate (S n) EvWorker)) with (run (step (st, h) EvWorker) (replicate n EvWorker)).
  destruct (IH (step (st, h) EvWorker)) as (Hd' & Hf' & Hs''); [by apply step_inv|done|by rewrite Ho|].
  split_and!; [cbn [fst] in *; lia|by rewrite Hf'|done].
Qed.

Lemma flush_distance_done (s : State Item Aux * History Item) :
  Inv s → m_shutdown (fst s) = false → flush_distance (fst s) = 0%nat →
  m_flush_seq (fst s) <= m_flush_done_seq (fst s).
Proof.
  intros [_ _ _ _ _ _ I7 _ _ _ _] Hs. unfold flush_distance, worker_ok in *.
  destruct (_ <=? _) eqn:E; bool_hyps; [done|].
  destruct (m_worker (fst s)) as [|w|w|]; [lia| | |destruct I7; congruence]; destruct (_ =? _); lia.
Qed.

(** ** What the invariant and the distances give a processor *)

Lemma inv_flush_complete s (H : Inv s) i k item :
  Z.of_nat i < m_flush_done_seq (fst s) → h_marks (snd s) !! i = Some k →
  item ∈ take k (h_accepted (snd s)) →
  item ∈ concat (exported (fst s)) ∨ item ∈ evicted (h_gone (snd s)).
Proof.
  destruct s as [st h], H as [I1 _ _ _ _ I6 _ _ _ _ _]. cbn [fst snd] in *. intros Hi Hk Hitem.
  destruct (I6 i k Hi Hk) as [Hlen [rest Hp]].
  rewrite I1, take_app_le in Hitem by (by rewrite length_fmap).
  rewrite <- fmap_take in Hitem. apply list_elem_of_fmap in Hitem as ([f item'] & -> & Hin). cbn.
  destruct f; [left|right].
  - rewrite Hp. apply elem_of_app. left. unfold taken. apply list_elem_of_fmap. exists (Taken, item').
    split; [done|]. apply list_elem_of_In, filter_In. by rewrite <- list_elem_of_In.
  - unfold evicted. apply list_elem_of_fmap. exists (Evicted, item').
    split; [done|]. apply list_elem_of_In, filter_In. rewrite <- list_elem_of_In.
    split; [|done]. rewrite <- (take_drop k (h_gone h)). apply elem_of_app. by left.
Qed.

Lemma flush_distance_bound (st : State Item Aux) :
  (flush_distance st <= 3 * length (m_queue st) + 5)%nat.
Proof.
  unfold flush_distance. destruct (_ <=? _); [lia|]. destruct (m_worker st); try destruct (_ =? _); lia.
Qed.
Lemma distance_bound (st : State Item Aux) : (distance st <= 3 * length (m_queue st) + 5)%nat.
Proof. unfold distance. destruct (m_worker st) as [|w|w|]; try destruct (done w); lia. Qed.

Lemma inv_flush_progress s (H : Inv s) n target :
  m_shutdown (fst s) = false → 0 < max_export_batch_size (m_opts (fst s)) →
  target <= m_flush_seq (fst s) → (3 * length (m_queue (fst s)) + 5 <= n)%nat →
  ForceFlush_end (fst (run s (replicate n EvWorker))) (Some target) = Completed.
Proof.
  intros Hs Hb Ht Hn. destruct (flush_progress n _ H Hs Hb) as (Hd & Hf & Hs').
  pose proof (flush_distance_bound (fst s)).
  pose proof (flush_distance_done _ (run_inv _ _ (worker_events n) H) Hs' ltac:(lia)) as Hdone.
  cbn [ForceFlush_end]. by rewrite (proj2 (Z.leb_le _ _)) by lia.
Qed.

Lemma inv_shutdown_drains s (H : Inv s) es :
  Forall valid_event es →
  m_shutdown (fst s) = true → 0 < max_export_batch_size (m_opts (fst s)) →
  forallb live_options es = true →
  (3 * length (m_queue (fst s)) + 5 <= length (List.filter is_worker es))%nat →
  m_worker (fst (run s es)) = Exited ∧ m_queue (fst (run s es)) = []
  ∧ h_accepted (snd (run s es)) = (snd <$> h_gone (snd (run s es)))
  ∧ concat (exported (fst (run s es))) = taken (h_gone (snd (run s es))).
Proof.
  intros Hes Hs Hb Hl Hn. pose proof (shutdown_progress es s Hs Hb Hl).
  pose proof (distance_bound (fst s)).
  assert (m_worker (fst (run s es)) = Exited) as Hw by (apply distance_exited; lia).
  split; [done|]. apply exited_complete; [by apply run_inv|done].
Qed.

End worker_proofs.
