(* ===== verification/SpanProcessor.v ===== *)
(** * BatchSpanProcessor

    Model of [src/sdk/batch_span_processor.cpp]: the size estimate, admission
    under the two queue caps, and the grouping of a drained batch into one handle
    per (Resource, scope).  Options, flush, shutdown and the worker loop are those
    of [BatchWorker], which this file instantiates.

    [m_queue_bytes] is a [uint64_t] and keeps its wrap-around; the sizes summed by
    [EstimateRecordBytes] are of objects in memory, so that sum is exact. *)
From S2P Require Import Prelude Context Data BatchWorker.

Definition kRecordFixedBytes : Z := 64.
Definition kEventFixedBytes : Z := 16.
Definition kLinkFixedBytes : Z := 32.
Definition kScalarValueBytes : Z := 8.

Definition sum_by {A} (f : A → Z) (l : list A) : Z := fold_left (λ t a, t + f a) l 0.

Definition ValueBytes (v : AttributeValue) : Z :=
  match v with
  | AvString s => size s
  | AvStrings l => sum_by size l
  | AvBools l => size l
  | AvInts l => size l * 8
  | AvDoubles l => size l * 8
  | AvBool _ | AvInt _ | AvDouble _ => kScalarValueBytes
  end.
Definition AttributesBytes (attributes : list KeyValue) : Z :=
  sum_by (λ kv, size (kv_key kv) + ValueBytes (kv_value kv)) attributes.
Definition EstimateRecordBytes (r : SpanRecord) : Z :=
  kRecordFixedBytes + size (sr_name r) + size (sr_status_description r)
  + AttributesBytes (sr_attributes r)
  + sum_by (λ e, kEventFixedBytes + size (ev_name e) + AttributesBytes (ev_attributes e)) (sr_events r)
  + sum_by (λ l, kLinkFixedBytes + AttributesBytes (ln_attributes l)) (sr_links r).

Record QueuedSpan := mkQueuedSpan {
  q_record : SpanRecord; q_scope : InstrumentationScope; q_bytes : Z }.

(** ** Admission *)

Section admission.
(** [m_max_record_bytes] and [m_max_total_queue_bytes]. *)
Context (m_max_record_bytes m_max_total_queue_bytes : Z).

(** The loop of [MakeRoomFor]; it recurs on the queue it shortens.  The result,
    the queue, [m_queue_bytes] and the drops recorded. *)
Fixpoint MakeRoomFor (o : BatchOptions) (record_bytes : Z) (q : list QueuedSpan) (qbytes : Z)
    : bool * list QueuedSpan * Z * list DropReason :=
  if (max_queue_size o <=? size q) || (m_max_total_queue_bytes <? to_uint 64 (qbytes + record_bytes))
  then
    match drop_policy o with
    | DropNewest => (false, q, qbytes, [QueueFull])
    | DropOldest =>
        match q with
        | [] => (false, q, qbytes, [QueueFull])
        | front :: q' =>
            let '(ok, q'', qbytes', drops) :=
              MakeRoomFor o record_bytes q' (to_uint 64 (qbytes - q_bytes front)) in
            (ok, q'', qbytes', QueueFull :: drops)
        end
    end
  else (true, q, qbytes, []).

(** The critical section of [BatchSpanProcessor::Enqueue]. *)
Definition span_enqueue (o : BatchOptions) (shutdown : bool) (q : list QueuedSpan) (qbytes : Z)
    (x : SpanRecord * InstrumentationScope) : bool * list QueuedSpan * Z * list DropReason :=
  let record_bytes := EstimateRecordBytes (fst x) in
  if shutdown then (false, q, qbytes, [PostShutdown])
  else if m_max_record_bytes <? record_bytes then (false, q, qbytes, [RecordTooLarge])
  else
    let '(room, q', qbytes', drops) := MakeRoomFor o record_bytes q qbytes in
    if negb room then (false, q', qbytes', drops)
    else (true, q' ++ [mkQueuedSpan (fst x) (snd x) record_bytes],
          to_uint 64 (qbytes' + record_bytes), drops).

#[export] Instance SpanQueue : BatchQueue (SpanRecord * InstrumentationScope) QueuedSpan Z := {
  enqueue := span_enqueue;
  item_of x := mkQueuedSpan (fst x) (snd x) (EstimateRecordBytes (fst x));
  released qbytes i := to_uint 64 (qbytes - q_bytes i)
}.

(** ** Admission facts *)

Fixpoint queued_bytes (q : list QueuedSpan) : Z :=
  match q with [] => 0 | i :: q' => q_bytes i + queued_bytes q' end.
(** Estimates are exact and within the record limit. *)
Definition measured (i : QueuedSpan) : Prop :=
  q_bytes i = EstimateRecordBytes (q_record i) ∧ 0 <= q_bytes i <= m_max_record_bytes.
Definition queue_tracks (q : list QueuedSpan) (qbytes : Z) : Prop :=
  qbytes = queued_bytes q ∧ qbytes <= m_max_total_queue_bytes ∧ Forall measured q.

(** The limits are a [uint32_t] and a [uint64_t], the latter not within one record
    of wrapping. *)
Definition sane_limits : Prop :=
  0 <= m_max_record_bytes <= u32_max ∧ 0 <= m_max_total_queue_bytes <= u64_max - u32_max.

Lemma sum_by_acc {A} (f : A → Z) l t : fold_left (λ t a, t + f a) l t = t + sum_by f l.
Proof.
  unfold sum_by. revert t. induction l as [|a l IH]; intros t; cbn [fold_left]; [lia|].
  rewrite (IH (t + f a)), (IH (0 + f a)). lia.
Qed.
Lemma sum_by_nonneg {A} (f : A → Z) l : (∀ a, 0 <= f a) → 0 <= sum_by f l.
Proof.
  intros H. unfold sum_by. induction l as [|a l IH]; cbn [fold_left]; [lia|]. rewrite sum_by_acc.
  specialize (H a). unfold sum_by in *. lia.
Qed.
Lemma ValueBytes_nonneg v : 0 <= ValueBytes v.
Proof.
  destruct v; cbn; unfold kScalarValueBytes; try lia.
  all: try apply sum_by_nonneg; intros; try (pose proof (size_nonneg l); lia); apply size_nonneg.
Qed.
Lemma AttributesBytes_nonneg l : 0 <= AttributesBytes l.
Proof.
  apply sum_by_nonneg. intros kv.
  pose proof (ValueBytes_nonneg (kv_value kv)). pose proof (size_nonneg (kv_key kv)). lia.
Qed.
Lemma EstimateRecordBytes_lower r : kRecordFixedBytes <= EstimateRecordBytes r.
Proof.
  unfold EstimateRecordBytes. pose proof (size_nonneg (sr_name r)).
  pose proof (size_nonneg (sr_status_description r)). pose proof (AttributesBytes_nonneg (sr_attributes r)).
  assert (0 <= sum_by (λ e, kEventFixedBytes + size (ev_name e) + AttributesBytes (ev_attributes e)) (sr_events r)).
  { apply sum_by_nonneg. intros e. pose proof (size_nonneg (ev_name e)).
    pose proof (AttributesBytes_nonneg (ev_attributes e)). unfold kEventFixedBytes. lia. }
  assert (0 <= sum_by (λ l, kLinkFixedBytes + AttributesBytes (ln_attributes l)) (sr_links r)).
  { apply sum_by_nonneg. intros l. pose proof (AttributesBytes_nonneg (ln_attributes l)).
    unfold kLinkFixedBytes. lia. }
  lia.
Qed.

Lemma queued_bytes_nonneg q : Forall measured q → 0 <= queued_bytes q.
Proof. induction 1 as [|i q [_ ?] _ IH]; cbn [queued_bytes]; lia. Qed.
Lemma queued_bytes_app q k : queued_bytes (q ++ k) = queued_bytes q + queued_bytes k.
Proof. induction q as [|i q IH]; cbn [queued_bytes app]; lia. Qed.

(** One record evicted keeps the running total exact. *)
Lemma tracks_released i q a :
  sane_limits → queue_tracks (i :: q) a → queue_tracks q (to_uint 64 (a - q_bytes i)).
Proof.
  intros [_ [_ Hs]] (-> & Hle & Hm). inversion Hm as [|? ? [_ Hi] Hq]; subst. cbn [queued_bytes] in *.
  pose proof (queued_bytes_nonneg q Hq). unfold queue_tracks.
  rewrite to_uint64_id by width_lia. split_and!; [lia|lia|done].
Qed.

(** The shape of an admission: a prefix is evicted, one drop per record lost; it
    succeeds exactly when the rest is within both caps. *)
Lemma MakeRoomFor_spec o rb q a ok q' a' ds :
  MakeRoomFor o rb q a = (ok, q', a', ds) →
  ∃ ev, q = ev ++ q' ∧ ds = replicate (length ev + if ok then 0 else 1) QueueFull
    ∧ (drop_policy o = DropNewest → ev = [])
    ∧ (ok = true → size q' < max_queue_size o ∧ to_uint 64 (a' + rb) <= m_max_total_queue_bytes)
    ∧ (ok = false → drop_policy o = DropOldest → q' = [])
    ∧ (sane_limits → queue_tracks q a → queue_tracks q' a').
Proof.
  revert a ok q' a' ds. induction q as [|i q IH]; intros a ok q' a' ds H; cbn [MakeRoomFor] in H.
  all: destruct (_ || _) eqn:E; [|injection H as <- <- <- <-; bool_hyps; exists []; by split_and!].
  all: destruct (drop_policy o) eqn:Ed;
    [injection H as <- <- <- <-; exists []; by split_and!|].
  - injection H as <- <- <- <-. exists []. by split_and!.
  - destruct (MakeRoomFor o rb q _) as [[[ok0 q0] a0] ds0] eqn:Er. injection H as <- <- <- <-.
    apply IH in Er as (ev & -> & -> & _ & Hok & Hno & Ht).
    exists (i :: ev). split_and!; try done. intros Hs Htr. apply Ht; [done|]. by apply tracks_released.
Qed.

#[export] Instance SpanQueueLaws (Hsane : sane_limits) : BatchQueueLaws SpanQueue.
Proof.
  refine {| valid_options _ := True; tracks := queue_tracks |}.
  - done.
  - intros o q a x ok q' a' ds _ H. cbn in H. unfold span_enqueue in H.
    destruct (_ <? _) eqn:Eb in H; bool_hyps.
    { injection H as <- <- <- <-. exists [], q. rewrite app_nil_r. by split_and!. }
    destruct (MakeRoomFor _ _ _ _) as [[[room q0] a0] ds0] eqn:Em.
    apply MakeRoomFor_spec in Em as (ev & -> & -> & _ & Hok & _ & Ht).
    destruct room; cbn in H; injection H as <- <- <- <-; exists ev, q0.
    + split_and!; [done|done|by rewrite length_replicate|]. intros Htr.
      destruct (Ht Hsane Htr) as (-> & Hle & Hm). destruct (Hok eq_refl) as [_ Hcap].
      pose proof (EstimateRecordBytes_lower (fst x)) as Hlow. unfold kRecordFixedBytes in Hlow.
      pose proof (queued_bytes_nonneg _ Hm). destruct Hsane as [[_ ?] [_ ?]].
      rewrite to_uint64_id in * by width_lia.
      unfold queue_tracks. rewrite queued_bytes_app. cbn [queued_bytes q_bytes]. split_and!; [lia|lia|].
      apply Forall_app. split; [done|]. apply Forall_singleton. split; [done|]. cbn. lia.
    + rewrite app_nil_r. split_and!; [done|done|by rewrite length_replicate|auto].
  - intros i q a. by apply tracks_released.
Defined.
End admission.

(** ** Grouping a drained batch *)

Record BatchHandle := mkBatchHandle {
  bh_records : list SpanRecord; bh_resource : option ResourcePtr; bh_scope : InstrumentationScope }.

Record Group := mkGroup {
  g_resource : option ResourcePtr;
  g_owner : option ResourcePtr;
  g_scope : InstrumentationScope;
  g_records : list SpanRecord;
  g_count : nat
}.

Section export.
(** The processor's own Resource. *)
Context (m_resource : option ResourcePtr).

Definition owner_of (item : QueuedSpan) : option ResourcePtr :=
  match sr_resource (q_record item) with Some r => Some r | None => m_resource end.
Definition same_group (item : QueuedSpan) (g : Group) : bool :=
  bool_decide (g_resource g = owner_of item)
  && (scope_name (g_scope g) =s scope_name (q_scope item))
  && (scope_version (g_scope g) =s scope_version (q_scope item)).

(** [std::ranges::find_if], as an index. *)
Fixpoint find_if {A} (p : A → bool) (l : list A) : option nat :=
  match l with
  | [] => None
  | x :: l' => if p x then Some 0%nat else S <$> find_if p l'
  end.

(** The body of the first loop: [groups] and [group_of] after [item]. *)
Definition assign_group (s : list Group * list nat) (item : QueuedSpan) : list Group * list nat :=
  let '(groups, group_of) := s in
  let count_one g := mkGroup (g_resource g) (g_owner g) (g_scope g) (g_records g) (S (g_count g)) in
  match find_if (same_group item) groups with
  | Some i => (alter count_one i groups, group_of ++ [i])
  | None =>
      let g := mkGroup (owner_of item) (owner_of item) (q_scope item) [] 0 in
      (groups ++ [count_one g], group_of ++ [length groups])
  end.

(** The body of the second loop: [groups[group_of[i]].records.push_back(...)]. *)
Definition push_record (groups : list Group) (p : QueuedSpan * nat) : list Group :=
  alter (λ g, mkGroup (g_resource g) (g_owner g) (g_scope g)
                (g_records g ++ [q_record (fst p)]) (g_count g)) (snd p) groups.

(** The handles built by [ExportBatch]. *)
Definition batch_handles (batch : list QueuedSpan) : list BatchHandle :=
  let '(groups, group_of) := fold_left assign_group batch ([], []) in
  let filled := fold_left push_record (zip batch group_of) groups in
  (λ g, mkBatchHandle (g_records g) (g_owner g) (g_scope g)) <$> filled.

(** The exporter calls of [ExportBatch]: one [ExportGroup], or one [Export] each. *)
Inductive ExportCall := CallExportGroup (hs : list BatchHandle) | CallExport (h : BatchHandle).
Definition ExportBatch (group_exporter : bool) (batch : list QueuedSpan) : list ExportCall :=
  let handles := batch_handles batch in
  if group_exporter then [CallExportGroup handles] else CallExport <$> handles.

(** ** Reference: partition by key in first-seen order *)

Definition GroupKey := (option ResourcePtr * InstrumentationScope)%type.
Definition key_of (item : QueuedSpan) : GroupKey := (owner_of item, q_scope item).
Definition gkey (g : Group) : GroupKey := (g_resource g, g_scope g).

Definition see (ks : list GroupKey) (k : GroupKey) : list GroupKey :=
  if bool_decide (k ∈ ks) then ks else ks ++ [k].
Definition first_seen (l : list GroupKey) : list GroupKey := fold_left see l [].
Definition records_of (k : GroupKey) (batch : list QueuedSpan) : list SpanRecord :=
  q_record <$> List.filter (λ i, bool_decide (key_of i = k)) batch.
Definition grouped (batch : list QueuedSpan) : list BatchHandle :=
  (λ k, mkBatchHandle (records_of k batch) (fst k) (snd k)) <$> first_seen (key_of <$> batch).

(** *** First pass *)

Lemma same_group_iff item g : same_group item g = true ↔ gkey g = key_of item.
Proof.
  unfold same_group, gkey, key_of. rewrite !andb_true_iff, bool_decide_eq_true, !seqb_true.
  destruct (g_scope g), (q_scope item). cbn. split.
  - intros [[-> ->] ->]. done.
  - intros [= -> -> ->]. done.
Qed.

Lemma find_if_Some {A} (p : A → bool) l i :
  find_if p l = Some i → ∃ x, l !! i = Some x ∧ p x = true.
Proof.
  revert i. induction l as [|y l IH]; intros i H; cbn in H; [done|].
  destruct (p y) eqn:E; [injection H as <-; by exists y|].
  apply fmap_Some in H as (j & Hj & ->). by apply IH.
Qed.
Lemma find_if_None {A} (p : A → bool) l : find_if p l = None → ∀ x, x ∈ l → p x = false.
Proof.
  induction l as [|y l IH]; intros H x Hx; [by apply elem_of_nil in Hx|]. cbn in H.
  destruct (p y) eqn:E; [done|]. apply fmap_None in H.
  apply elem_of_cons in Hx as [->|Hx]; [done|auto].
Qed.

Lemma alter_gkey (f : Group → Group) (i : nat) (gs : list Group) :
  (∀ g, gkey (f g) = gkey g) → gkey <$> alter f i gs = gkey <$> gs.
Proof.
  intros H. apply list_eq. intros j. rewrite !list_lookup_fmap.
  destruct (decide (i = j)) as [->|Hn].
  - rewrite list_lookup_alter_eq. destruct (gs !! j); cbn; by rewrite ?H.
  - by rewrite list_lookup_alter_ne.
Qed.

(** Groups carry no records yet, and own the Resource they are keyed by. *)
Definition fresh (g : Group) : Prop := g_records g = [] ∧ g_owner g = g_resource g.

Lemma assign_group_step gs idx item :
  Forall fresh gs → NoDup (gkey <$> gs) →
  ∃ gs' j, assign_group (gs, idx) item = (gs', idx ++ [j])
    ∧ gkey <$> gs' = see (gkey <$> gs) (key_of item)
    ∧ (gkey <$> gs') !! j = Some (key_of item) ∧ Forall fresh gs'.
Proof.
  intros Hf Hnd. unfold assign_group. destruct (find_if _ gs) as [j|] eqn:E.
  - apply find_if_Some in E as (g & Hg & Hs). apply same_group_iff in Hs.
    eexists _, j. split; [done|]. rewrite alter_gkey by done. unfold see.
    assert ((gkey <$> gs) !! j = Some (key_of item)) as Hj by (by rewrite list_lookup_fmap, Hg, <- Hs).
    rewrite bool_decide_true by (by eapply list_elem_of_lookup_2). split_and!; [done|done|].
    apply Forall_alter; [done|]. intros g' _ Hg'. exact Hg'.
  - pose proof (find_if_None _ _ E) as Hn.
    assert (key_of item ∉ gkey <$> gs) as Hnew.
    { intros (g & Hk & Hg)%list_elem_of_fmap. specialize (Hn g Hg).
      symmetry in Hk. apply same_group_iff in Hk. congruence. }
    eexists _, (length gs). split; [done|]. rewrite fmap_app. unfold see.
    rewrite bool_decide_false by done. split_and!.
    + done.
    + rewrite lookup_app_r by (by rewrite length_fmap). by rewrite length_fmap, Nat.sub_diag.
    + apply Forall_app. split; [done|]. by apply Forall_singleton.
Qed.

Lemma see_NoDup ks k : NoDup ks → NoDup (see ks k).
Proof.
  intros H. unfold see. case_bool_decide as Hk; [done|]. rewrite NoDup_app.
  split_and!; [done| |apply NoDup_singleton]. intros x Hx ->%list_elem_of_singleton. done.
Qed.
Lemma see_prefix ks k j x : ks !! j = Some x → see ks k !! j = Some x.
Proof.
  intros H. unfold see. case_bool_decide; [done|]. by apply lookup_app_l_Some.
Qed.
Lemma fold_see_lookup l ks j x : ks !! j = Some x → fold_left see l ks !! j = Some x.
Proof. revert ks. induction l as [|k l IH]; intros ks H; [done|]. by apply IH, see_prefix. Qed.
Lemma fold_see_NoDup l ks : NoDup ks → NoDup (fold_left see l ks).
Proof. revert ks. induction l as [|k l IH]; intros ks H; [done|]. by apply IH, see_NoDup. Qed.

Lemma first_pass items gs idx :
  Forall fresh gs → NoDup (gkey <$> gs) →
  ∃ gs' js, fold_left assign_group items (gs, idx) = (gs', idx ++ js)
    ∧ gkey <$> gs' = fold_left see (key_of <$> items) (gkey <$> gs)
    ∧ Forall2 (λ item j, (gkey <$> gs') !! j = Some (key_of item)) items js ∧ Forall fresh gs'.
Proof.
  revert gs idx. induction items as [|item items IH]; intros gs idx Hf Hnd.
  { exists gs, []. rewrite app_nil_r. split_and!; [done|done|constructor|done]. }
  destruct (assign_group_step gs idx item Hf Hnd) as (gs1 & j & E & Hk & Hj & Hf1).
  cbn [fold_left fmap list_fmap]. rewrite E.
  destruct (IH gs1 (idx ++ [j])) as (gs' & js & E' & Hk' & H2 & Hf'); [done|by rewrite Hk; apply see_NoDup|].
  exists gs', (j :: js). rewrite E', <- app_assoc. split_and!; [done|by rewrite <- Hk| |done].
  constructor; [|done]. rewrite Hk'. by apply fold_see_lookup.
Qed.

(** *** Second pass *)

Definition for_group (j : nat) (ps : list (QueuedSpan * nat)) : list SpanRecord :=
  (λ p, q_record (fst p)) <$> List.filter (λ p, snd p =? j)%nat ps.
Definition add_records (rs : list SpanRecord) (g : Group) : Group :=
  mkGroup (g_resource g) (g_owner g) (g_scope g) (g_records g ++ rs) (g_count g).

Lemma second_pass ps gs j :
  fold_left push_record ps gs !! j = add_records (for_group j ps) <$> gs !! j.
Proof.
  revert gs. induction ps as [|[i k] ps IH]; intros gs.
  - cbn. destruct (gs !! j) as [[]|]; cbn; [|done]. unfold add_records. cbn. by rewrite app_nil_r.
  - cbn [fold_left]. rewrite IH. unfold push_record, for_group. cbn [fst snd List.filter].
    destruct (Nat.eqb_spec k j) as [->|Hn].
    + rewrite list_lookup_alter_eq. destruct (gs !! j) as [[]|]; cbn; [|done].
      unfold add_records. cbn. by rewrite <- app_assoc.
    + by rewrite list_lookup_alter_ne.
Qed.

Lemma for_group_key ks items js j k :
  NoDup ks → Forall2 (λ item j, ks !! j = Some (key_of item)) items js → ks !! j = Some k →
  for_group j (zip items js) = records_of k items.
Proof.
  intros Hnd H Hk. unfold for_group, records_of.
  induction H as [|item i items js Hi _ IH]; [done|]. cbn [zip zip_with List.filter snd].
  destruct (Nat.eqb_spec i j) as [->|Hn].
  - rewrite bool_decide_true by congruence. cbn. by f_equal.
  - rewrite bool_decide_false; [done|]. intros <-. apply Hn. by eapply NoDup_lookup.
Qed.

Lemma batch_handles_grouped batch : batch_handles batch = grouped batch.
Proof.
  unfold batch_handles. destruct (first_pass batch [] []) as (gs & js & E & Hk & H2 & Hf);
    [constructor|constructor|]. rewrite E. cbn [app].
  assert (NoDup (gkey <$> gs)) as Hnd by (rewrite Hk; apply fold_see_NoDup; constructor).
  change (gkey <$> gs = first_seen (key_of <$> batch)) in Hk.
  unfold grouped. rewrite <- Hk.
  apply list_eq. intros j. rewrite !list_lookup_fmap, second_pass.
  destruct (gs !! j) as [g|] eqn:Hg; [|done]. cbn. f_equal.
  assert ((gkey <$> gs) !! j = Some (gkey g)) as Hj by (by rewrite list_lookup_fmap, Hg).
  rewrite (for_group_key _ _ _ _ _ Hnd H2 Hj).
  eapply Forall_lookup_1 in Hf as [-> ->]; [|exact Hg]. done.
Qed.

Lemma first_seen_elem l ks k : k ∈ fold_left see l ks ↔ k ∈ ks ∨ k ∈ l.
Proof.
  revert ks. induction l as [|x l IH]; intros ks; cbn [fold_left].
  - split; [by left|]. by intros [?|?%elem_of_nil].
  - rewrite IH, elem_of_cons. unfold see. case_bool_decide as Hx.
    + split; [intros [?|?]; auto|intros [?|[->|?]]; auto].
    + rewrite elem_of_app, list_elem_of_singleton. tauto.
Qed.

(** A drained batch is exported as a partition: one handle per (Resource,
    scope), in first-seen order with no key twice, each holding exactly the
    records of that key in queue order, so the two-pass routine equals the
    reference definition and loses or duplicates nothing. *)
Theorem export_batch_partition batch :
  batch_handles batch = grouped batch
  ∧ NoDup ((λ h, (bh_resource h, bh_scope h)) <$> batch_handles batch)
  ∧ (∀ item, item ∈ batch →
       ∃ h, h ∈ batch_handles batch ∧ (bh_resource h, bh_scope h) = key_of item
            ∧ bh_records h = records_of (key_of item) batch)
  ∧ Forall (λ h, bh_records h ≠ []) (batch_handles batch).
Proof.
  rewrite batch_handles_grouped. unfold grouped. split_and!; [done| | |].
  - rewrite <- list_fmap_compose. rewrite (list_fmap_ext _ id); [|by intros ? [] ?].
    rewrite list_fmap_id. apply fold_see_NoDup. constructor.
  - intros item Hi. eexists. split; [apply list_elem_of_fmap_2, first_seen_elem; right;
      by apply list_elem_of_fmap_2|]. done.
  - apply Forall_fmap, Forall_forall. intros k Hk. cbn.
    apply first_seen_elem in Hk as [?%elem_of_nil|Hk]; [done|].
    apply list_elem_of_fmap in Hk as (item & -> & Hi). unfold records_of.
    intros E. apply fmap_nil_inv in E. assert (item ∈ List.filter (λ i, bool_decide (key_of i = key_of item)) batch) as H.
    { apply list_elem_of_In, filter_In. rewrite <- list_elem_of_In. by rewrite bool_decide_true. }
    rewrite E in H. by apply elem_of_nil in H.
Qed.

End export.

Lemma export_batch_partition_witness :
  let i n s := mkQueuedSpan (mkSpanRecord SpanContext_default SpanContext_default n KindInternal CodeUnset
                 [] 0 0 [] [] [] None) (mkScope s []) 64 in
  let batch := [i $"a" $"x"; i $"b" $"y"; i $"c" $"x"] in
  (∃ h, h ∈ batch_handles None batch ∧ (bh_resource h, bh_scope h) = key_of None (i $"c" $"x")
        ∧ bh_records h = records_of None (key_of None (i $"c" $"x")) batch)
  ∧ length (records_of None (key_of None (i $"c" $"x")) batch) = 2%nat.
Proof.
  cbv zeta. split; [|vm_compute; reflexivity].
  apply export_batch_partition. right. right. left.
Defined.

(** ** The processor *)

Section processor.
Context (limits : MemoryLimitOptions).
(** [BatchSpanProcessor] with its two memory limits. *)
Notation Q := (SpanQueue (max_record_bytes limits) (max_total_queue_bytes limits)).
Definition limits_ok : Prop := sane_limits (max_record_bytes limits) (max_total_queue_bytes limits).

Definition span_start (opts : BatchOptions) (diag : bool) := start (Item:=QueuedSpan) opts 0 diag.
Definition span_run (opts : BatchOptions) (diag : bool) (es : list (Event (SpanRecord * InstrumentationScope))) :=
  run (Q:=Q) (span_start opts diag) es.

Lemma span_valid_events (H : limits_ok) es : Forall (valid_event (L:=SpanQueueLaws _ _ H)) es.
Proof. apply Forall_forall. by intros []. Qed.

Lemma span_run_inv opts diag es (H : limits_ok) :
  Inv (L:=SpanQueueLaws _ _ H) (span_run opts diag es).
Proof.
  apply run_inv; [apply span_valid_events|]. apply start_inv; [done|]. cbn. split_and!; [done|by destruct H as [_ [? _]]|constructor].
Qed.

(** C1: exactly once and in order: in every interleaving of producers, flushes,
    option changes, shutdown and the worker, the accepted records are, in order,
    those that left the queue followed by those still in it; the ones that left
    were either evicted or handed to the exporter, the latter in acceptance order
    and only once; every batch handed over is non-empty; and the drop counter is
    the number of evictions plus the number of refused offers. *)
Theorem span_exactly_once opts diag es (Hlim : limits_ok) :
  let st := fst (span_run opts diag es) in let h := snd (span_run opts diag es) in
  h_accepted h = (snd <$> h_gone h) ++ m_queue st
  ∧ taken (h_gone h) = concat (exported st) ++ in_flight st
  ∧ Forall (λ b, b ≠ []) (exported st)
  ∧ (∀ log, m_diag st = Some log → length log = (length (evicted (h_gone h)) + h_refused h)%nat).
Proof.
  destruct (span_run_inv opts diag es Hlim). by split_and!.
Qed.

(** The queue never exceeds its byte budget: [m_queue_bytes] is exactly the
    sum of the estimates of the queued records, is at most
    [max_total_queue_bytes], and no queued record is larger than
    [max_record_bytes]. *)
Theorem span_queue_bytes opts diag es (Hlim : limits_ok) :
  let st := fst (span_run opts diag es) in
  m_aux st = queued_bytes (m_queue st) ∧ m_aux st <= max_total_queue_bytes limits
  ∧ Forall (λ i, q_bytes i = EstimateRecordBytes (q_record i) ∧ q_bytes i <= max_record_bytes limits)
      (m_queue st).
Proof.
  cbv zeta. destruct (span_run_inv opts diag es Hlim) as [_ _ _ _ _ _ _ (H1 & H2 & H3) _ _ _].
  split_and!; [done|done|]. eapply Forall_impl; [exact H3|]. by intros i [? [? ?]].
Qed.

(** An offer's outcome on every branch: refused after shutdown, over the
    record limit, or for want of room; accepted, it ends last in a queue within
    the count cap; [DropNewest] never evicts, and [DropOldest] refuses only once
    the whole queue has been evicted. *)
Theorem span_enqueue_spec o shutdown q qb x ok q' qb' ds :
  span_enqueue (max_record_bytes limits) (max_total_queue_bytes limits) o shutdown q qb x
    = (ok, q', qb', ds) →
  let bytes := EstimateRecordBytes (fst x) in
  (shutdown = true ∧ ok = false ∧ q' = q ∧ ds = [PostShutdown])
  ∨ (shutdown = false ∧ max_record_bytes limits < bytes ∧ ok = false ∧ q' = q ∧ ds = [RecordTooLarge])
  ∨ (shutdown = false ∧ bytes <= max_record_bytes limits ∧ ∃ ev kept,
      q = ev ++ kept ∧ ds = replicate (length ev + if ok then 0 else 1) QueueFull
      ∧ q' = kept ++ (if ok then [mkQueuedSpan (fst x) (snd x) bytes] else [])
      ∧ (ok = true → size q' <= max_queue_size o ∧ qb' <= max_total_queue_bytes limits)
      ∧ (drop_policy o = DropNewest → ev = [])
      ∧ (drop_policy o = DropOldest → ok = false → q' = [])).
Proof.
  unfold span_enqueue. intros H. cbv zeta.
  destruct shutdown; [injection H as <- <- <- <-; by left|].
  destruct (_ <? _) eqn:Eb in H; bool_hyps; [injection H as <- <- <- <-; right; left; by split_and!|].
  destruct (MakeRoomFor _ _ _ _ _) as [[[room q0] qb0] ds0] eqn:Em.
  apply (MakeRoomFor_spec (max_record_bytes limits)) in Em as (ev & -> & -> & Hnew & Hok & Hold & _).
  right; right. split_and!; [done|done|].
  destruct room; cbn [negb] in H; injection H as <- <- <- <-; exists ev, q0.
  - split_and!; try done. intros _. destruct (Hok eq_refl). rewrite size_app.
    change (size [_]) with 1. split; [lia|done].
  - rewrite app_nil_r. split_and!; try done. auto.
Qed.

(** C2: a [ForceFlush] that returns [Completed] has done its job: every record
    accepted before the call has been handed to the exporter, unless it was
    evicted to make room for a newer one. *)
Theorem span_flush_complete opts diag es (Hlim : limits_ok) target i k item :
  let st := fst (span_run opts diag es) in let h := snd (span_run opts diag es) in
  ForceFlush_end st (Some target) = Completed →
  Z.of_nat i = target - 1 → h_marks h !! i = Some k →
  item ∈ take k (h_accepted h) →
  item ∈ concat (exported st) ∨ item ∈ evicted (h_gone h).
Proof.
  cbv zeta. cbn [ForceFlush_end]. destruct (_ <=? _) eqn:E; [|done]. bool_hyps. intros _ Hi Hk Hitem.
  by apply (inv_flush_complete _ (span_run_inv opts diag es Hlim) i k item); [lia|..].
Qed.

(** A [ForceFlush] completes: from any reachable state that is not shut
    down, with a positive batch size, the worker acknowledges every flush
    requested so far within [3 * queue length + 5] of its own transitions when no
    further record is offered. *)
Theorem span_flush_progress opts diag es (Hlim : limits_ok) n target :
  let s := span_run opts diag es in
  m_shutdown (fst s) = false → 0 < max_export_batch_size (m_opts (fst s)) →
  target <= m_flush_seq (fst s) →
  (3 * length (m_queue (fst s)) + 5 <= n)%nat →
  ForceFlush_end (fst (run (Q:=Q) s (replicate n EvWorker))) (Some target) = Completed.
Proof.
  cbv zeta. intros Hs Hb Ht Hn. pose proof (span_run_inv opts diag es Hlim) as H.
  by apply (inv_flush_progress _ H).
Qed.

(** C3: shutdown drains: once [m_shutdown] is set, whatever producers, flushes
    and option changes (to a positive batch size) are interleaved, the worker
    exits within [3 * queue length + 5] of its own transitions; then the queue is
    empty and every accepted record was exported or evicted. *)
Theorem span_shutdown_drains opts diag es es' (Hlim : limits_ok) :
  let s := span_run opts diag es in
  let st' := fst (run (Q:=Q) s es') in let h' := snd (run (Q:=Q) s es') in
  m_shutdown (fst s) = true → 0 < max_export_batch_size (m_opts (fst s)) →
  forallb live_options es' = true →
  (3 * length (m_queue (fst s)) + 5 <= length (List.filter is_worker es'))%nat →
  m_worker st' = Exited ∧ m_queue st' = []
  ∧ h_accepted h' = (snd <$> h_gone h') ∧ concat (exported st') = taken (h_gone h').
Proof.
  apply (inv_shutdown_drains _ (span_run_inv opts diag es Hlim)), span_valid_events.
Qed.
End processor.

(** *** Witnesses: a run that evicts, flushes and shuts down *)

Definition demo_limits : MemoryLimitOptions := mkMemoryLimitOptions 200 100 0 0 0.
Definition demo_opts : BatchOptions := mkBatchOptions 3 2 5000 DropOldest.
Definition demo_span (n : str) : SpanRecord * InstrumentationScope :=
  (mkSpanRecord SpanContext_default SpanContext_default n KindInternal CodeUnset [] 0 0 [] [] [] None,
   mkScope $"lib" []).
Definition demo_item (n : str) : QueuedSpan :=
  mkQueuedSpan (fst (demo_span n)) (snd (demo_span n)) 65.
Definition demo_events : list (Event (SpanRecord * InstrumentationScope)) :=
  [EvOffer (demo_span $"a"); EvOffer (demo_span $"b"); EvOffer (demo_span $"c"); EvOffer (demo_span $"d");
   EvForceFlush; EvWorker; EvOffer (demo_span $"e"); EvWorker; EvWorker; EvWorker; EvWorker; EvWorker].

Lemma demo_limits_ok : limits_ok demo_limits.
Proof. unfold limits_ok, sane_limits. cbn. width_lia. Qed.

Lemma span_exactly_once_witness :
  let st := fst (span_run demo_limits demo_opts true demo_events) in
  let h := snd (span_run demo_limits demo_opts true demo_events) in
  taken (h_gone h) = concat (exported st) ++ in_flight st ∧ length (evicted (h_gone h)) = 1%nat.
Proof.
  split; [|vm_compute; reflexivity].
  exact (proj1 (proj2 (span_exactly_once demo_limits demo_opts true demo_events demo_limits_ok))).
Defined.

Lemma span_queue_bytes_witness :
  let st := fst (span_run demo_limits demo_opts true (take 4 demo_events)) in
  m_aux st = queued_bytes (m_queue st) ∧ m_aux st = 195.
Proof.
  split; [|vm_compute; reflexivity].
  exact (proj1 (span_queue_bytes demo_limits demo_opts true (take 4 demo_events) demo_limits_ok)).
Defined.

Lemma span_enqueue_spec_witness :
  ∃ ev kept, [demo_item $"a"; demo_item $"b"; demo_item $"c"] = ev ++ kept ∧ length ev = 1%nat.
Proof.
  destruct (span_enqueue_spec demo_limits demo_opts false [demo_item $"a"; demo_item $"b"; demo_item $"c"] 195
    (demo_span $"d") true [demo_item $"b"; demo_item $"c"; demo_item $"d"] 195 [QueueFull])
    as [(? & _)|[(_ & _ & ? & _)|(_ & _ & ev & kept & Hq & Hd & _)]]; [vm_compute; reflexivity|done|done|].
  exists ev, kept. split; [exact Hq|]. apply (f_equal length) in Hd. rewrite length_replicate in Hd.
  cbn in Hd. lia.
Defined.

Lemma span_flush_complete_witness :
  let st := fst (span_run demo_limits demo_opts true demo_events) in
  demo_item $"b" ∈ concat (exported st) ∨ demo_item $"b" ∈ evicted (h_gone (snd (span_run demo_limits demo_opts true demo_events))).
Proof.
  apply (span_flush_complete demo_limits demo_opts true demo_events demo_limits_ok 1 0 4 (demo_item $"b"));
    [vm_compute; reflexivity|reflexivity|vm_compute; reflexivity|].
  vm_compute. right. left.
Defined.

Lemma span_flush_progress_witness :
  ForceFlush_end (fst (run (Q:=SpanQueue 100 200) (span_run demo_limits demo_opts true (take 5 demo_events))
    (replicate 14 EvWorker))) (Some 1) = Completed.
Proof.
  apply (span_flush_progress demo_limits demo_opts true (take 5 demo_events) demo_limits_ok);
    vm_compute; (reflexivity || discriminate || lia).
Defined.

Lemma span_shutdown_drains_witness :
  m_worker (fst (run (Q:=SpanQueue 100 200) (span_run demo_limits demo_opts true (take 4 demo_events ++ [EvShutdown]))
    (EvOffer (demo_span $"late") :: replicate 14 EvWorker))) = Exited.
Proof.
  apply (span_shutdown_drains demo_limits demo_opts true (take 4 demo_events ++ [EvShutdown])
    (EvOffer (demo_span $"late") :: replicate 14 EvWorker) demo_limits_ok);
    vm_compute; (reflexivity || lia).
Defined.
