(* ===== verification/LogProcessor.v ===== *)
(** * BatchLogRecordProcessor

    Model of [src/sdk/batch_log_record_processor.cpp]: admission under the count
    cap and grouping by scope; the rest is [BatchWorker].  [OnEmit] evicts with an
    unconditional [pop_front], which is undefined on an empty queue, so the
    processor relies on [max_queue_size > 0]; [CheckBatchOptions]
    ([src/common/config/config_validator.cpp]), through which every
    [BatchOptions] passes, is modelled here and gives it. *)
From S2P Require Import Prelude Data BatchWorker.

(** [CheckBatchOptions]: the fault's field and message, if any. *)
Definition CheckBatchOptions (o : BatchOptions) : option (str * str) :=
  if max_queue_size o =? 0 then
    Some ($"sdk.max_queue_size", $"max_queue_size must be greater than zero")
  else if max_export_batch_size o =? 0 then
    Some ($"sdk.max_export_batch_size", $"max_export_batch_size must be greater than zero")
  else if max_queue_size o <? max_export_batch_size o then
    Some ($"sdk.max_export_batch_size", $"max_export_batch_size must not exceed max_queue_size")
  else if schedule_delay o <=? 0 then
    Some ($"sdk.schedule_delay_ms", $"schedule_delay must be greater than zero")
  else None.
(** The fields are [uint32_t]. *)
Definition wf_options (o : BatchOptions) : Prop :=
  is_u32 (max_queue_size o) ∧ is_u32 (max_export_batch_size o).
Definition validated (o : BatchOptions) : Prop := wf_options o ∧ CheckBatchOptions o = None.

Lemma validated_pos o : validated o →
  0 < max_export_batch_size o ∧ max_export_batch_size o <= max_queue_size o.
Proof.
  intros [[Hq Hb] H]. unfold CheckBatchOptions in H. repeat (split_if; [done|]). bool_hyps. width_lia.
Qed.

Record QueuedLog := mkQueuedLog { ql_record : LogRecord; ql_scope : InstrumentationScope }.

(** The critical section of [OnEmit]; [tl] is [pop_front], undefined on the empty
    queue. *)
Definition log_enqueue (o : BatchOptions) (shutdown : bool) (q : list QueuedLog) (a : unit)
    (x : LogRecord * InstrumentationScope) : bool * list QueuedLog * unit * list DropReason :=
  let item := mkQueuedLog (fst x) (snd x) in
  if shutdown then (false, q, a, [PostShutdown])
  else if max_queue_size o <=? size q then
    match drop_policy o with
    | DropOldest => (true, tl q ++ [item], a, [QueueFull])
    | DropNewest => (false, q, a, [QueueFull])
    end
  else (true, q ++ [item], a, []).

#[export] Instance LogQueue : BatchQueue (LogRecord * InstrumentationScope) QueuedLog unit := {
  enqueue := log_enqueue;
  item_of x := mkQueuedLog (fst x) (snd x);
  released a _ := a
}.
#[export] Instance LogQueueLaws : BatchQueueLaws LogQueue.
Proof.
  refine {| valid_options := validated; tracks _ _ := True |}.
  - done.
  - intros o q a x ok q' a' ds Ho%validated_pos H. cbn in H. unfold log_enqueue in H.
    destruct (_ <=? _) eqn:E in H; bool_hyps.
    + destruct (drop_policy o); injection H as <- <- <- <-.
      * exists [], q. rewrite app_nil_r. by split_and!.
      * destruct q as [|i q]; [change (size []) with 0 in E; lia|]. by exists [i], q.
    + injection H as <- <- <- <-. by exists [], q.
  - done.
Defined.

(** ** Export *)

Record LogBatchHandle := mkLogBatchHandle {
  lb_records : list LogRecord; lb_resource : option ResourcePtr; lb_scope : InstrumentationScope }.

Definition same_scope (a b : InstrumentationScope) : bool :=
  (scope_name a =s scope_name b) && (scope_version a =s scope_version b).

(** The loop body: append to the group of the item's scope, creating it last. *)
Fixpoint add_to_group (groups : list (InstrumentationScope * list LogRecord)) (item : QueuedLog)
    : list (InstrumentationScope * list LogRecord) :=
  match groups with
  | [] => [(ql_scope item, [ql_record item])]
  | (sc, records) :: groups' =>
      if same_scope sc (ql_scope item) then (sc, records ++ [ql_record item]) :: groups'
      else (sc, records) :: add_to_group groups' item
  end.
(** The handles exported by [ExportBatch], in order. *)
Definition log_ExportBatch (m_resource : option ResourcePtr) (batch : list QueuedLog) : list LogBatchHandle :=
  (λ g, mkLogBatchHandle (snd g) m_resource (fst g)) <$> fold_left add_to_group batch [].

(** ** Facts *)

Lemma same_scope_iff a b : same_scope a b = true ↔ a = b.
Proof.
  unfold same_scope. rewrite andb_true_iff, !seqb_true. destruct a, b. cbn. split.
  - by intros [-> ->].
  - by intros [= -> ->].
Qed.
Lemma same_scope_false a b : same_scope a b = false ↔ a ≠ b.
Proof. rewrite <- not_true_iff_false, same_scope_iff. done. Qed.

Definition logs_of (sc : InstrumentationScope) (batch : list QueuedLog) : list LogRecord :=
  ql_record <$> List.filter (λ i, same_scope sc (ql_scope i)) batch.

Lemma add_to_group_scopes groups item :
  fst <$> add_to_group groups item
  = if bool_decide (ql_scope item ∈ fst <$> groups) then fst <$> groups
    else (fst <$> groups) ++ [ql_scope item].
Proof.
  induction groups as [|[sc rs] groups IH]; [done|]. cbn [add_to_group].
  destruct (same_scope sc (ql_scope item)) eqn:E.
  - apply same_scope_iff in E. subst. rewrite bool_decide_true; [done|]. cbn. left.
  - apply same_scope_false in E. cbn. rewrite IH. case_bool_decide as H1.
    + rewrite bool_decide_true; [done|]. by right.
    + rewrite bool_decide_false; [done|]. intros [?|?]%elem_of_cons; congruence.
Qed.

(** The groups built so far hold exactly the records of their scopes. *)
Definition groups_of (groups : list (InstrumentationScope * list LogRecord)) (batch : list QueuedLog) : Prop :=
  NoDup (fst <$> groups) ∧ Forall (λ g, snd g = logs_of (fst g) batch ∧ snd g ≠ []) groups
  ∧ ∀ i, i ∈ batch → ql_scope i ∈ fst <$> groups.

Lemma logs_of_snoc sc batch item :
  logs_of sc (batch ++ [item])
  = logs_of sc batch ++ if same_scope sc (ql_scope item) then [ql_record item] else [].
Proof.
  unfold logs_of. rewrite List.filter_app, fmap_app. cbn. by destruct (same_scope _ _).
Qed.

Lemma logs_of_none sc batch : (∀ i, i ∈ batch → ql_scope i ≠ sc) → logs_of sc batch = [].
Proof.
  intros H. unfold logs_of. induction batch as [|i batch IH]; [done|]. cbn.
  rewrite (proj2 (same_scope_false _ _)); [|intros ->; by apply (H i); [left|]].
  apply IH. intros j Hj. apply H. by right.
Qed.

Lemma add_to_group_records groups item batch :
  NoDup (fst <$> groups) → Forall (λ g, snd g = logs_of (fst g) batch ∧ snd g ≠ []) groups →
  (ql_scope item ∉ fst <$> groups → logs_of (ql_scope item) batch = []) →
  Forall (λ g, snd g = logs_of (fst g) (batch ++ [item]) ∧ snd g ≠ []) (add_to_group groups item).
Proof.
  induction groups as [|[sc rs] groups IH]; intros Hnd Hf Hnew; cbn [add_to_group].
  - apply Forall_singleton. cbn. rewrite logs_of_snoc, Hnew by apply not_elem_of_nil.
    by rewrite (proj2 (same_scope_iff _ _)).
  - inversion Hf as [|? ? [H1 H2] Hf']; subst. cbn in Hnd, H1, H2. apply NoDup_cons in Hnd as [Hsc Hnd].
    destruct (same_scope sc (ql_scope item)) eqn:E.
    + apply same_scope_iff in E as Es. constructor.
      * cbn. rewrite logs_of_snoc, E, <- H1. split; [done|]. by destruct rs.
      * apply Forall_forall. intros g Hg. rewrite Forall_forall in Hf'.
        destruct (Hf' g Hg) as [Hr Hn]. split; [|done]. rewrite logs_of_snoc, <- Hr.
        rewrite (proj2 (same_scope_false _ _)); [by rewrite app_nil_r|].
        intros Heq. apply Hsc. rewrite Es, <- Heq. by apply list_elem_of_fmap_2.
    + constructor; [cbn; rewrite logs_of_snoc, E, app_nil_r; done|]. apply IH; [done|done|].
      intros Hn. apply Hnew. apply same_scope_false in E. cbn. apply not_elem_of_cons. split; congruence.
Qed.

Lemma fold_groups batch : groups_of (fold_left add_to_group batch []) batch.
Proof.
  induction batch as [|item batch (Hnd & Hf & Hall)] using rev_ind.
  { split_and!; [constructor|constructor|]. by intros i ?%elem_of_nil. }
  rewrite fold_left_app. cbn [fold_left]. set (groups := fold_left add_to_group batch []) in *.
  split_and!.
  - rewrite add_to_group_scopes. case_bool_decide as H; [done|]. rewrite NoDup_app.
    split_and!; [done| |apply NoDup_singleton]. intros x Hx ->%list_elem_of_singleton. done.
  - apply add_to_group_records; [done|done|]. intros Hn. apply logs_of_none. intros i Hi E. apply Hn. rewrite <- E. auto.
  - intros i Hi. rewrite add_to_group_scopes. apply elem_of_app in Hi as [Hi| ->%list_elem_of_singleton].
    + case_bool_decide; [auto|]. apply elem_of_app. auto.
    + case_bool_decide; [done|]. apply elem_of_app. right. left.
Qed.

(** A drained log batch is exported as a partition by scope: no scope has two
    handles, every handle holds exactly the records of its scope in queue order,
    every record's scope has a handle, and all carry the processor's Resource. *)
Theorem log_export_partition res batch :
  let hs := log_ExportBatch res batch in
  NoDup (lb_scope <$> hs)
  ∧ Forall (λ h, lb_records h = logs_of (lb_scope h) batch ∧ lb_records h ≠ [] ∧ lb_resource h = res) hs
  ∧ Forall (λ i, ql_scope i ∈ lb_scope <$> hs) batch.
Proof.
  cbv zeta. unfold log_ExportBatch. destruct (fold_groups batch) as (Hnd & Hf & Hall).
  rewrite <- list_fmap_compose. split_and!; [done| |by apply Forall_forall].
  apply Forall_fmap. eapply Forall_impl; [exact Hf|]. cbn. by intros g [? ?].
Qed.

(** ** The processor *)

Definition log_run (opts : BatchOptions) (diag : bool) (es : list (Event (LogRecord * InstrumentationScope))) :=
  run (Q:=LogQueue) (start (Item:=QueuedLog) opts tt diag) es.
Definition validated_event (e : Event (LogRecord * InstrumentationScope)) : Prop :=
  match e with EvSetOptions o => validated o | _ => True end.

Lemma log_run_inv opts diag es :
  validated opts → Forall validated_event es → Inv (log_run opts diag es).
Proof.
  intros Ho Hes. apply run_inv; [|by apply start_inv]. eapply Forall_impl; [exact Hes|]. by intros [].
Qed.

(** The log processor keeps the same contract: under validated options every
    accepted log record is exported once and in order or counted as evicted, and
    after shutdown the worker drains the queue and exits within
    [3 * queue length + 5] of its own transitions whatever else runs. *)
Theorem log_processor_contract opts diag es es' :
  validated opts → Forall validated_event es → Forall validated_event es' →
  let s := log_run opts diag es in
  (h_accepted (snd s) = (snd <$> h_gone (snd s)) ++ m_queue (fst s)
   ∧ taken (h_gone (snd s)) = concat (exported (fst s)) ++ in_flight (fst s))
  ∧ (m_shutdown (fst s) = true →
     (3 * length (m_queue (fst s)) + 5 <= length (List.filter is_worker es'))%nat →
     m_worker (fst (run s es')) = Exited ∧ m_queue (fst (run s es')) = []
     ∧ concat (exported (fst (run s es'))) = taken (h_gone (snd (run s es')))).
Proof.
  intros Ho Hes Hes'. cbv zeta. pose proof (log_run_inv opts diag es Ho Hes) as H.
  split; [by destruct H|]. intros Hs Hn.
  destruct (inv_shutdown_drains _ H es') as (? & ? & _ & ?); try done.
  - destruct H. cbn in *. by apply validated_pos.
  - apply forallb_elem_2. intros e He. rewrite Forall_forall in Hes'. specialize (Hes' e He).
    destruct e; try done. cbn. apply Z.ltb_lt. exact (proj1 (validated_pos _ Hes')).
Qed.

Definition demo_log (n : str) : LogRecord * InstrumentationScope :=
  (mkLogRecord 0 0 9 [] (AvString n) [] 0 [] [] 0 [], mkScope $"lib" []).
Definition demo_log_events : list (Event (LogRecord * InstrumentationScope)) :=
  [EvOffer (demo_log $"a"); EvOffer (demo_log $"b"); EvOffer (demo_log $"c"); EvShutdown].

Lemma log_processor_contract_witness :
  m_worker (fst (run (log_run (mkBatchOptions 2 2 5000 DropOldest) true demo_log_events)
    (replicate 11 EvWorker))) = Exited.
Proof.
  apply (log_processor_contract (mkBatchOptions 2 2 5000 DropOldest) true demo_log_events (replicate 11 EvWorker));
    [split; [split; cbn; width_lia|reflexivity]|repeat constructor|by apply Forall_replicate|vm_compute; reflexivity|vm_compute; lia].
Defined.
