(* ===== verification/Double.v ===== *)
(** * IEEE 754 doubles

    The C++ [double] operations the sources use, over the Standard Library's
    binary64 specification ([SpecFloat]): comparison, [std::isnan], [std::clamp],
    multiplication and the truncating conversion to [uint64_t], which is undefined
    ([None]) when the truncated value is not representable.

    The lemmas: multiplying a double in (0, 1) by 2^64 is exact, so converting the
    product is the floor of the real product; order of doubles is order of those
    floors. *)
From Stdlib Require Export SpecFloat.
From S2P Require Import Prelude.

Definition double := spec_float.
Definition prec : Z := 53.
Definition emax : Z := 1024.
(** What every value of type [double] satisfies. *)
Definition is_double (x : double) : Prop := valid_binary prec emax x = true.

Definition d_zero : double := S754_zero false.
Definition d_one : double := S754_finite false 4503599627370496 (-52).
(** [static_cast<double>(UINT64_MAX)], rounded to nearest: 2^64. *)
Definition d_of_u64_max : double := binary_normalize prec emax u64_max 0 false.
Definition isnan (x : double) : bool := match x with S754_nan => true | _ => false end.
Definition d_ltb (x y : double) : bool := SFltb x y.
Definition d_leb (x y : double) : bool := SFleb x y.
Definition d_eqb (x y : double) : bool := SFeqb x y.
Definition d_mul (x y : double) : double := SFmul prec emax x y.
(** [std::clamp(v, lo, hi)]. *)
Definition d_clamp (v lo hi : double) : double :=
  if d_ltb v lo then lo else if d_ltb hi v then hi else v.

(** [static_cast<double>(n)]. *)
Definition d_of_int (n : Z) : double := binary_normalize prec emax n 0 false.
Definition d_add (x y : double) : double := SFadd prec emax x y.
Definition d_sub (x y : double) : double := SFsub prec emax x y.
(** [std::min(a, b)] and [std::max(a, b)]. *)
Definition d_min (a b : double) : double := if d_ltb b a then b else a.
Definition d_max (a b : double) : double := if d_ltb a b then b else a.
Definition isfinite (x : double) : bool :=
  match x with S754_zero _ | S754_finite _ _ _ => true | _ => false end.

(** [m * 2^e], truncated. *)
Definition scaled (m e : Z) : Z := if 0 <=? e then m * 2 ^ e else m / 2 ^ (- e).
(** [static_cast<std::uint64_t>(x)]. *)
Definition to_u64 (x : double) : option Z :=
  match x with
  | S754_zero _ => Some 0
  | S754_finite false m e =>
      let z := scaled (Zpos m) e in if z <=? u64_max then Some z else None
  | S754_finite true m e => if scaled (Zpos m) e =? 0 then Some 0 else None
  | _ => None
  end.

(** ** Facts *)

Lemma d_of_u64_max_value : d_of_u64_max = S754_finite false 4503599627370496 12.
Proof. vm_compute. reflexivity. Qed.

Lemma digits2_log2 p : Zpos (digits2_pos p) = Z.log2 (Zpos p) + 1.
Proof.
  induction p as [p IH|p IH|]; cbn [digits2_pos]; [| |done]; rewrite Pos2Z.inj_succ, IH.
  - rewrite Pos2Z.inj_xI, Z.log2_succ_double by lia. lia.
  - rewrite Pos2Z.inj_xO, Z.log2_double by lia. lia.
Qed.
Lemma Zdigits2_log2 z : 0 < z → Zdigits2 z = Z.log2 z + 1.
Proof. destruct z; try lia. intros _. apply digits2_log2. Qed.

Lemma shr_1_even k : 0 < k → shr_1 (Build_shr_record (2 * k) false false) = Build_shr_record k false false.
Proof. destruct k; try lia. done. Qed.
Lemma shr_iter p k :
  0 < k → SpecFloat.iter_pos shr_1 p (Build_shr_record (k * 2 ^ Zpos p) false false) = Build_shr_record k false false.
Proof.
  revert k. induction p as [p IH|p IH|]; intros k Hk; cbn [SpecFloat.iter_pos].
  - replace (k * 2 ^ Zpos p~1) with (2 * (k * 2 ^ Zpos p * 2 ^ Zpos p)).
    + rewrite shr_1_even by (apply Z.mul_pos_pos; [apply Z.mul_pos_pos|]; lia).
      rewrite IH, IH; [done|done|apply Z.mul_pos_pos; lia].
    + replace (Zpos p~1) with (1 + (Zpos p + Zpos p)) by lia. rewrite !Z.pow_add_r by lia. ring.
  - replace (k * 2 ^ Zpos p~0) with (k * 2 ^ Zpos p * 2 ^ Zpos p).
    + rewrite IH, IH; [done|done|apply Z.mul_pos_pos; lia].
    + rewrite <- Z.mul_assoc, <- Z.pow_add_r by lia. do 2 f_equal. lia.
  - change (k * 2 ^ 1) with (k * 2). rewrite Z.mul_comm. by apply shr_1_even.
Qed.

(** An exact right shift by [n >= 0]. *)
Lemma shr_exact k e n :
  0 < k → 0 <= n → shr (Build_shr_record (k * 2 ^ n) false false) e n
  = (Build_shr_record k false false, e + n).
Proof.
  intros Hk Hn. destruct n as [|p|p]; [|cbn [shr]; by rewrite shr_iter|lia].
  cbn [shr]. by rewrite Z.mul_1_r, Z.add_0_r.
Qed.

Lemma fexp_normal d e : emin prec emax <= d + e - prec → fexp prec emax (d + e) = d + e - prec.
Proof. unfold fexp. lia. Qed.

(** [std::ldexp(1.0, k)] for [k] in the normal range. *)
Definition d_pow2 (k : Z) : double := S754_finite false 4503599627370496 (k - 52).

(** Multiplying by a power of two keeps the [log2 m + 1] significant bits and
    moves the exponent, while the result stays in the normal range. *)
Lemma mul_pow2 s m e k :
  let d := Z.log2 (Zpos m) in let n := 52 - d in
  d < prec → emin prec emax <= d + e + k - 52 → e + k - n <= emax - prec →
  ∃ m', d_mul (S754_finite s m e) (d_pow2 k) = S754_finite s m' (e + k - n)
    ∧ Zpos m' = Zpos m * 2 ^ n.
Proof.
  intros d n Hm Hlo Hhi. unfold prec in *.
  assert (0 <= d) as Hd by apply Z.log2_nonneg. assert (0 <= n) by lia.
  assert (0 < Zpos m * 2 ^ n) as Hpos by (apply Z.mul_pos_pos; [lia|apply Z.pow_pos_nonneg; lia]).
  unfold d_mul, d_pow2. cbn [SFmul]. rewrite xorb_false_r. unfold binary_round_aux, shr_fexp.
  change (emin 53 emax) with (-1074) in *. cbn [shr_record_of_loc].
  assert (Zpos (m * 4503599627370496) = Zpos m * 2 ^ 52) as -> by (rewrite Pos2Z.inj_mul; done).
  assert (0 < Zpos m * 2 ^ 52) as Hpos52 by lia.
  rewrite Zdigits2_log2, Z.log2_mul_pow2 by lia. fold d.
  replace (52 + d + 1 + (e + (k - 52))) with ((53 + d) + (e + (k - 52))) by lia.
  rewrite (fexp_normal (53 + d)) by (unfold prec; change (emin 53 emax) with (-1074); lia).
  unfold prec. replace (53 + d + (e + (k - 52)) - 53 - (e + (k - 52))) with d by lia.
  replace (Zpos m * 2 ^ 52) with (Zpos m * 2 ^ n * 2 ^ d)
    by (rewrite <- Z.mul_assoc, <- Z.pow_add_r by lia; do 2 f_equal; lia).
  rewrite shr_exact by done. cbn [shr_m loc_of_shr_record round_nearest_even].
  rewrite Zdigits2_log2, Z.log2_mul_pow2 by lia. fold d.
  replace (n + d + 1 + (e + (k - 52) + d)) with (53 + (e + (k - 52) + d)) by lia.
  rewrite (fexp_normal 53) by (unfold prec; change (emin 53 emax) with (-1074); lia).
  unfold prec. replace (53 + (e + (k - 52) + d) - 53 - (e + (k - 52) + d)) with 0 by lia. cbn [shr shr_m].
  destruct (Zpos m * 2 ^ n) as [|m'|m'] eqn:Em; [lia| |lia].
  rewrite (proj2 (Z.leb_le _ _)) by (change emax with 1024 in *; lia).
  exists m'. split; [|done]. f_equal. lia.
Qed.
(** In particular by 2^64, even from a subnormal. *)
Lemma mul_2_64 m e :
  Z.log2 (Zpos m) < prec → emin prec emax <= e → e + 64 <= emax - prec →
  let n := 52 - Z.log2 (Zpos m) in
  ∃ m', d_mul (S754_finite false m e) d_of_u64_max = S754_finite false m' (e + 64 - n)
    ∧ Zpos m' = Zpos m * 2 ^ n.
Proof.
  intros Hm Hlo Hhi n. rewrite d_of_u64_max_value. change (S754_finite false 4503599627370496 12) with (d_pow2 64).
  pose proof (Z.log2_nonneg (Zpos m)). unfold prec in *. apply mul_pow2; unfold prec; lia.
Qed.

(** ** Integers as doubles *)

Lemma shr_1_bound r : 0 <= shr_m r → 0 <= shr_m (shr_1 r) <= shr_m r.
Proof. destruct r as [[|[p|p|]|p] a b]; cbn; lia. Qed.
Lemma shr_iter_bound p r : 0 <= shr_m r → 0 <= shr_m (SpecFloat.iter_pos shr_1 p r) <= shr_m r.
Proof.
  revert r. induction p as [p IH|p IH|]; intros r Hr; cbn [SpecFloat.iter_pos]; [| |by apply shr_1_bound].
  - pose proof (shr_1_bound r Hr). pose proof (IH (shr_1 r) ltac:(lia)).
    pose proof (IH (SpecFloat.iter_pos shr_1 p (shr_1 r)) ltac:(lia)). lia.
  - pose proof (IH r Hr). pose proof (IH (SpecFloat.iter_pos shr_1 p r) ltac:(lia)). lia.
Qed.
Lemma Zdigits2_bound m b : 0 <= m < 2 ^ b → 0 <= b → Zdigits2 m <= b.
Proof.
  intros Hm Hb. destruct (Z.eq_dec m 0) as [->|]; [done|]. rewrite Zdigits2_log2 by lia.
  assert (Z.log2 m < b) by (apply Z.log2_lt_pow2; lia). lia.
Qed.
(** The exponent a rounding step can reach. *)
Lemma shr_fexp_bound m e l r e' b :
  0 <= m < 2 ^ b → 0 <= b → shr_fexp prec emax m e l = (r, e') →
  0 <= shr_m r <= m ∧ e' <= Z.max e (Z.max (b + e - prec) (emin prec emax)).
Proof.
  intros Hm Hb. pose proof (Zdigits2_bound m b Hm Hb) as Hd. unfold shr_fexp.
  assert (shr_m (shr_record_of_loc m l) = m) as Hr by (by destruct l as [|[]]).
  unfold fexp. set (n := Z.max (Zdigits2 m + e - prec) (emin prec emax) - e). unfold shr.
  destruct n as [|p|p] eqn:En; intros [= <- <-]; rewrite ?Hr; (split; [|lia]); [lia| |lia].
  pose proof (shr_iter_bound p (shr_record_of_loc m l)). lia.
Qed.
Lemma shl_align_value m e e' mz ez :
  shl_align m e e' = (mz, ez) → ez <= e ∧ Zpos mz = Zpos m * 2 ^ (e - ez) ∧ (ez = e ∨ ez = e').
Proof.
  unfold shl_align. destruct (e' - e) as [|d|d] eqn:Ed; intros [= <- <-].
  - replace (e - e) with 0 by lia. lia.
  - replace (e - e) with 0 by lia. lia.
  - split_and!; [lia| |by right]. replace (e - e') with (Zpos d) by lia. clear.
    induction d as [|d IH] using Pos.peano_ind; [cbn; lia|].
    rewrite Pos.iter_succ, Pos2Z.inj_succ, Z.pow_succ_r, Pos2Z.inj_xO, IH by lia. lia.
Qed.

(** Every 64-bit integer converts to a finite double. *)
Lemma d_of_int_finite z : Z.abs z < 2 ^ 64 → isfinite (d_of_int z) = true.
Proof.
  intros Hz. unfold d_of_int.
  assert (∀ s p, Zpos p < 2 ^ 64 → isfinite (binary_round prec emax s p 0) = true) as G.
  { intros s p Hp. unfold binary_round. destruct (shl_align _ _ _) as [mz ez] eqn:Ea.
    apply shl_align_value in Ea as (He & Hm & Hez). rewrite Z.sub_0_l in Hm.
    assert (Zpos mz < 2 ^ 65 ∨ Zpos mz < 2 ^ 53) as Hmz.
    { destruct Hez as [->|Hez]; [left; change (2 ^ 65) with (2 * 2 ^ 64); cbn in Hm; lia|].
      rewrite digits2_log2, Z.add_0_r in Hez. unfold fexp, prec in Hez. change (emin 53 emax) with (-1074) in Hez.
      pose proof (Z.log2_nonneg (Zpos p)). right. rewrite Hm.
      replace (2 ^ 53) with (2 ^ (Z.log2 (Zpos p) + 1) * 2 ^ (- ez)) by (rewrite <- Z.pow_add_r by lia; f_equal; lia).
      apply Z.mul_lt_mono_pos_r; [apply Z.pow_pos_nonneg; lia|]. apply Z.log2_spec. lia. }
    assert (Zpos mz < 2 ^ 65) as Hmz' by (change (2 ^ 65) with (4096 * 2 ^ 53) in *; lia).
    unfold binary_round_aux. destruct (shr_fexp prec emax (Zpos mz) ez loc_Exact) as [r1 e1] eqn:E1.
    apply (shr_fexp_bound _ _ _ _ _ 65) in E1 as [Hr1 He1]; [|lia|lia].
    set (m2 := round_nearest_even _ _).
    assert (0 <= m2 < 2 ^ 66) as Hm2.
    { unfold m2, round_nearest_even. change (2 ^ 66) with (2 * 2 ^ 65). repeat case_match; lia. }
    destruct (shr_fexp prec emax m2 e1 loc_Exact) as [r2 e2] eqn:E2.
    apply (shr_fexp_bound _ _ _ _ _ 66) in E2 as [Hr2 He2]; [|lia|lia].
    unfold prec, emax in *. change (emin 53 1024) with (-1074) in *.
    destruct (shr_m r2) as [|m|m]; [done| |lia]. rewrite (proj2 (Z.leb_le _ _)) by lia. done. }
  destruct z as [|p|p]; cbn [binary_normalize]; [done|apply G; lia|apply G; lia].
Qed.

(** ** Doubles strictly between 0 and 1 *)

Lemma scaled_shift m k n : 0 < m → 0 <= n → scaled (m * 2 ^ n) (k - n) = scaled m k.
Proof.
  intros Hm Hn. unfold scaled. destruct (0 <=? k - n) eqn:E1, (0 <=? k) eqn:E2; bool_hyps; try lia.
  - rewrite <- Z.mul_assoc, <- Z.pow_add_r by lia. do 2 f_equal. lia.
  - replace n with (k + (- (k - n))) at 1 by lia. rewrite Z.pow_add_r, Z.mul_assoc by lia.
    apply Z.div_mul. apply Z.pow_nonzero; lia.
  - replace (- (k - n)) with (- k + n) by lia. rewrite Z.pow_add_r by lia.
    apply Z.div_mul_cancel_r; apply Z.pow_nonzero; lia.
Qed.
Lemma scaled_mono m m' k : 0 <= m <= m' → scaled m k <= scaled m' k.
Proof.
  intros H. unfold scaled. destruct (0 <=? k) eqn:E; bool_hyps.
  - apply Z.mul_le_mono_nonneg_r; [|lia]. apply Z.pow_nonneg. lia.
  - apply Z.div_le_mono; [apply Z.pow_pos_nonneg; lia|lia].
Qed.
Lemma scaled_nonneg m k : 0 <= m → 0 <= scaled m k.
Proof.
  intros H. unfold scaled. destruct (0 <=? k) eqn:E; bool_hyps.
  - apply Z.mul_nonneg_nonneg; [done|]. apply Z.pow_nonneg. lia.
  - apply Z.div_pos; [done|]. apply Z.pow_pos_nonneg; lia.
Qed.

(** The canonical form of a double in (0, 1). *)
Definition fraction (m e : Z) : Prop :=
  0 < m < 2 ^ 53 ∧ emin prec emax <= e <= -53 ∧ (emin prec emax < e → 2 ^ 52 <= m).

Lemma fraction_inv r :
  is_double r → d_ltb r d_one = true → d_ltb d_zero r = true →
  ∃ m e, r = S754_finite false m e ∧ fraction (Zpos m) e.
Proof.
  intros H Hlt Hpos. unfold d_ltb, SFltb, d_zero, d_one in Hlt, Hpos.
  destruct r as [s|s| |s m e]; [done|by destruct s|done|]. destruct s; [done|]. clear Hpos.
  unfold is_double, valid_binary, bounded, canonical_mantissa in H. bool_hyps. unfold fexp in H. rewrite digits2_log2 in H.
  change (emin prec emax) with (-1074) in *. unfold prec, emax in *.
  assert (Z.log2 (Zpos m) <= 52) by lia.
  assert (Zpos m < 2 ^ 53) by (apply Z.log2_lt_pow2; lia).
  assert (-1074 < e → 2 ^ 52 <= Zpos m).
  { intros ?. apply Z.log2_le_pow2; lia. }
  exists m, e. split; [done|]. unfold fraction. change (emin prec emax) with (-1074).
  split_and!; try lia. cbn [SFcompare] in Hlt.
  destruct (Z.compare_spec e (-52)) as [->|Hc|Hc]; [|lia|done].
  assert (2 ^ 52 <= Zpos m) as Hm by lia. change (2 ^ 52) with (Zpos 4503599627370496) in Hm.
  generalize dependent 4503599627370496%positive. intros k Hlt Hm. cbn in Hlt.
  change (Pos.compare_cont Eq m k) with (m ?= k)%positive in Hlt.
  destruct (Pos.compare_spec m k); [done|lia|done].
Qed.

(** The product with 2^64, converted, is the floor of the real product, and stays
    2^11 below 2^64. *)
Lemma fraction_to_u64 m e :
  fraction (Zpos m) e →
  to_u64 (d_mul (S754_finite false m e) d_of_u64_max) = Some (scaled (Zpos m) (e + 64))
  ∧ 0 <= scaled (Zpos m) (e + 64) <= 2 ^ 64 - 2 ^ 11.
Proof.
  intros ([Hm Hm'] & [He He'] & _).
  assert (Z.log2 (Zpos m) < prec) as Hlog by (apply Z.log2_lt_pow2; [lia|done]).
  pose proof (Z.log2_nonneg (Zpos m)) as Hlog0.
  destruct (mul_2_64 m e Hlog He) as (m' & Hmul & Hm2); [unfold prec, emax; lia|].
  assert (0 <= scaled (Zpos m) (e + 64) <= 2 ^ 64 - 2 ^ 11) as Hb.
  { split; [apply scaled_nonneg; lia|].
    transitivity (scaled ((2 ^ 53 - 1) * 2 ^ (11 - (e + 64))) (e + 64)).
    - apply scaled_mono. split; [lia|]. rewrite <- (Z.mul_1_r (Zpos m)).
      apply Z.mul_le_mono_nonneg; [lia|lia|lia|].
      assert (0 < 2 ^ (11 - (e + 64))) by (apply Z.pow_pos_nonneg; lia). lia.
    - replace (e + 64) with (11 - (11 - (e + 64))) at 2 by lia. rewrite scaled_shift by lia. done. }
  rewrite Hmul. cbn [to_u64]. unfold prec in Hlog. rewrite Hm2, scaled_shift by lia.
  rewrite (proj2 (Z.leb_le _ _)); [done|]. change u64_max with (2 ^ 64 - 1). lia.
Qed.

Lemma fraction_mono m1 e1 m2 e2 :
  fraction (Zpos m1) e1 → fraction (Zpos m2) e2 →
  d_leb (S754_finite false m1 e1) (S754_finite false m2 e2) = true →
  scaled (Zpos m1) (e1 + 64) <= scaled (Zpos m2) (e2 + 64).
Proof.
  intros ([Hp1 Hm1] & [He1 _] & _) ([Hp2 Hm2] & [He2 _] & Hn) H.
  unfold d_leb, SFleb in H. cbn in H.
  destruct (Z.compare_spec e1 e2) as [->|Hc|Hc]; [| |done].
  - apply scaled_mono. split; [lia|].
    change (Pos.compare_cont Eq m1 m2) with (m1 ?= m2)%positive in H.
    destruct (Pos.compare_spec m1 m2); [subst; lia|lia|done].
  - specialize (Hn ltac:(lia)). replace (e1 + 64) with (e2 + 64 - (e2 - e1)) by lia.
    rewrite <- (scaled_shift (Zpos m2) (e2 + 64) (e2 - e1)) by lia. apply scaled_mono. split; [lia|].
    assert (2 ^ 1 <= 2 ^ (e2 - e1)) by (apply Z.pow_le_mono_r; lia).
    transitivity (2 ^ 52 * 2 ^ 1); [change (2 ^ 52 * 2 ^ 1) with (2 ^ 53); lia|].
    apply Z.mul_le_mono_nonneg; lia.
Qed.

Lemma d_leb_trans x y z : d_leb x y = true → d_leb y z = true → d_leb x z = true.
Proof.
  unfold d_leb, SFleb. destruct x as [|[]| |[] mx ex], y as [|[]| |[] my ey], z as [|[]| |[] mz ez];
    try done; cbn [SFcompare]; intros Hxy Hyz.
  all: change (Pos.compare_cont Eq ?a ?b) with (a ?= b)%positive in *.
  all: destruct (Z.compare_spec ex ey), (Z.compare_spec ey ez), (Z.compare_spec ex ez); subst; try done; try lia.
  all: destruct (Pos.compare_spec mx my), (Pos.compare_spec my mz), (Pos.compare_spec mx mz); subst; try done; lia.
Qed.

(** Finite doubles are totally ordered. *)
Lemma d_not_ltb x y : isfinite x = true → isfinite y = true → d_ltb y x = false → d_leb x y = true.
Proof.
  unfold d_leb, d_ltb, SFleb, SFltb. destruct x as [|[]| |[] mx ex], y as [|[]| |[] my ey]; try done; cbn [SFcompare].
  all: change (Pos.compare_cont Eq ?a ?b) with (a ?= b)%positive.
  all: rewrite (Z.compare_antisym ex ey), (Pos.compare_antisym mx my).
  all: destruct (ex ?= ey), (mx ?= my)%positive; done.
Qed.
Lemma d_ltb_leb x y : d_ltb x y = true → d_leb x y = true.
Proof. unfold d_leb, d_ltb, SFleb, SFltb. destruct (SFcompare x y) as [[]|]; done. Qed.
Lemma d_leb_refl x : isfinite x = true → d_leb x x = true.
Proof.
  unfold d_leb, SFleb. destruct x as [|[]| |[] m e]; try done; cbn [SFcompare]; rewrite Z.compare_refl;
    change (Pos.compare_cont Eq m m) with (m ?= m)%positive; by rewrite Pos.compare_refl.
Qed.
Lemma d_leb_ltb_false x y : d_leb x y = true → d_ltb y x = false.
Proof.
  unfold d_leb, d_ltb, SFleb, SFltb. destruct x as [|[]| |[] mx ex], y as [|[]| |[] my ey]; try done; cbn [SFcompare].
  all: change (Pos.compare_cont Eq ?a ?b) with (a ?= b)%positive.
  all: rewrite (Z.compare_antisym ex ey), (Pos.compare_antisym mx my).
  all: destruct (ex ?= ey), (mx ?= my)%positive; done.
Qed.
Lemma d_min_spec a b :
  isfinite a = true → isfinite b = true →
  d_leb (d_min a b) a = true ∧ d_leb (d_min a b) b = true ∧ isfinite (d_min a b) = true.
Proof.
  intros Ha Hb. unfold d_min. destruct (d_ltb b a) eqn:E; split_and!; auto using d_leb_refl, d_ltb_leb, d_not_ltb.
Qed.
Lemma d_max_spec a b :
  isfinite a = true → isfinite b = true →
  d_leb a (d_max a b) = true ∧ d_leb b (d_max a b) = true ∧ isfinite (d_max a b) = true.
Proof.
  intros Ha Hb. unfold d_max. destruct (d_ltb a b) eqn:E; split_and!; auto using d_leb_refl, d_ltb_leb, d_not_ltb.
Qed.
