(* ===== verification/Sampler.v ===== *)
(** * Samplers

    Model of [src/sdk/sampler_factories.cpp] (always-on, always-off, trace-id
    ratio, parent-based), [src/sdk/sampler_chains.cpp] (attribute, name and kind
    rules, the two chain modes) and [src/sdk/sampler_description.hpp] (the
    append-only description slot).  A sampler is the tree of objects a
    [SamplerHandle] owns, with each object's mutable state; [None] is an empty
    handle, [Custom] a user's [ISampler], whose [TrySetRatio] is the default.

    [ShouldSample] of a parent-based sampler with an empty root dereferences a
    null pointer, hence the [option]; allocation failure while rendering a
    description is not modelled.

    The theorems: the ratio threshold is exactly the floor of ratio times 2^64 and
    the sentinel is unambiguous; raising the ratio only adds traces; the two chain
    modes and the rules meet their specification; retuning is all-or-nothing, is
    equivalent to building a fresh tree, and never invalidates a description. *)
From S2P Require Import Prelude Trace Context Data Double.

Inductive SamplingDecision := Drop | RecordOnly | RecordAndSample.
#[export] Instance SamplingDecision_eq_dec : EqDecision SamplingDecision.
Proof. solve_decision. Defined.

Record SamplingContext := mkSamplingContext {
  sc_parent : SpanContext;
  sc_span_kind : SpanKind;
  sc_span_name : str;
  sc_initial_attributes : list KeyValue;
  sc_links : list SpanLink;
  sc_trace_id : list Z
}.
Record SamplingResult := mkSamplingResult {
  decision : SamplingDecision;
  additional_attributes : list KeyValue;
  sr_trace_state : option TraceState.TraceState
}.
Definition result_of (d : SamplingDecision) : SamplingResult := mkSamplingResult d [] None.
Definition DropResult : SamplingResult := result_of Drop.

(** ** The description slot *)

(** [DescriptionSlot]: [m_strings]; [m_current] is the last. *)
Record DescriptionSlot := mkSlot { m_strings : list str }.
Definition Slot_init (initial : str) : DescriptionSlot := mkSlot [initial].
Definition Slot_Get (s : DescriptionSlot) : str := default [] (last (m_strings s)).
Definition Slot_Publish (s : DescriptionSlot) (text : str) : DescriptionSlot := mkSlot (m_strings s ++ [text]).

(** ** Formatting *)

Definition pad3 (z : Z) : str :=
  [chr (code "0" + z / 100); chr (code "0" + z / 10 mod 10); chr (code "0" + z mod 10)].
(** [m * 2^e * 1000], rounded to nearest, ties to even. *)
Definition thousandths (m e : Z) : Z :=
  if 0 <=? e then m * 2 ^ e * 1000
  else
    let d := 2 ^ (- e) in
    let q := m * 1000 / d in let r := m * 1000 mod d in
    if (d <? 2 * r) || ((2 * r =? d) && Z.odd q) then q + 1 else q.
(** [std::format("{:.3f}", x)]. *)
Definition format_3f (x : double) : str :=
  let sign (s : bool) := if s then $"-" else [] in
  match x with
  | S754_nan => $"nan"
  | S754_infinity s => sign s ++ $"inf"
  | S754_zero s => sign s ++ $"0.000"
  | S754_finite s m e =>
      let n := thousandths (Zpos m) e in sign s ++ decimal (n / 1000) ++ $"." ++ pad3 (n mod 1000)
  end.

(** ** The sampler tree *)

Inductive ChainMode := FirstMatch | AllMustAgree.
Inductive RulePredicate :=
| AttributeRule (m_key : str) (m_expected_value : AttributeValue)
| SpanNameRule (m_name : str)
| SpanKindRule (m_kind : SpanKind).

Inductive Sampler :=
| AlwaysOn
| AlwaysOff
| TraceIdRatio (m_ratio : double) (m_threshold : Z) (m_description : DescriptionSlot)
| ParentBased (m_root : option Sampler) (m_description : DescriptionSlot)
| RuleSampler (rule : RulePredicate) (m_on_match m_on_no_match : option Sampler)
    (m_description : DescriptionSlot)
| ChainSampler (m_children : list Sampler) (m_mode : ChainMode) (m_description : DescriptionSlot)
| Custom (should_sample : SamplingContext → SamplingResult) (description : str).

(** [Description]. *)
Definition Description (s : Sampler) : str :=
  match s with
  | AlwaysOn => $"AlwaysOnSampler"
  | AlwaysOff => $"AlwaysOffSampler"
  | TraceIdRatio _ _ d | ParentBased _ d | RuleSampler _ _ _ d | ChainSampler _ _ d => Slot_Get d
  | Custom _ d => d
  end.
Definition DescriptionOf (h : option Sampler) : str :=
  match h with None => $"<null>" | Some s => Description s end.

(** *** Trace-id ratio *)

Definition NormaliseRatio (ratio : double) : double :=
  if isnan ratio then d_zero else d_clamp ratio d_zero d_one.
Definition ComputeThreshold (ratio : double) : option Z :=
  if d_leb d_one ratio then Some u64_max
  else if d_leb ratio d_zero then Some 0
  else to_u64 (d_mul ratio d_of_u64_max).
(** [ReadLowerBE64]: bytes 8 to 15, big-endian. *)
Definition ReadLowerBE64 (tid : list Z) : Z :=
  fold_left (λ v b, Z.lor (to_uint 64 (Z.shiftl v 8)) b) (take 8 (drop 8 tid)) 0.
Definition SampleDecision (threshold : Z) (ctx : SamplingContext) : SamplingDecision :=
  if threshold =? u64_max then RecordAndSample
  else if ReadLowerBE64 (sc_trace_id ctx) <? threshold then RecordAndSample else Drop.
Definition ratio_description (ratio : double) : str := $"TraceIdRatioSampler{" ++ format_3f ratio ++ $"}".
(** [MakeTraceIdRatioSampler]; [None] would be an undefined conversion. *)
Definition MakeTraceIdRatioSampler (ratio : double) : option Sampler :=
  let r := NormaliseRatio ratio in
  t ← ComputeThreshold r; Some (TraceIdRatio r t (Slot_init (ratio_description r))).

(** *** Rules *)

Definition SpanKindName (k : SpanKind) : str :=
  match k with
  | KindInternal => $"Internal" | KindServer => $"Server" | KindClient => $"Client"
  | KindProducer => $"Producer" | KindConsumer => $"Consumer"
  end.
Definition kind_eqb (a b : SpanKind) : bool :=
  match a, b with
  | KindInternal, KindInternal | KindServer, KindServer | KindClient, KindClient
  | KindProducer, KindProducer | KindConsumer, KindConsumer => true
  | _, _ => false
  end.
(** [Matches]. *)
Definition Matches (rule : RulePredicate) (ctx : SamplingContext) : bool :=
  match rule with
  | AttributeRule k expected =>
      match find_key kv_key k (sc_initial_attributes ctx) with
      | None => false
      | Some found => value_eqb (kv_value found) expected
      end
  | SpanNameRule name => sc_span_name ctx =s name
  | SpanKindRule kind => kind_eqb (sc_span_kind ctx) kind
  end.
Definition rule_name (rule : RulePredicate) : str :=
  match rule with
  | AttributeRule _ _ => $"AttributeRuleSampler"
  | SpanNameRule _ => $"SpanNameRuleSampler"
  | SpanKindRule _ => $"SpanKindRuleSampler"
  end.
Definition rule_predicate (rule : RulePredicate) : str :=
  match rule with
  | AttributeRule k _ => $"key=" ++ k
  | SpanNameRule n => $"name=" ++ n
  | SpanKindRule k => $"kind=" ++ SpanKindName k
  end.

(** *** Descriptions of composites *)

Definition parent_Compose (root : option Sampler) : str :=
  $"ParentBasedSampler{" ++ DescriptionOf root ++ $"}".
Definition rule_Compose (rule : RulePredicate) (on_match on_no_match : option Sampler) : str :=
  rule_name rule ++ $"{" ++ rule_predicate rule ++ $", match=" ++ DescriptionOf on_match
  ++ $", else=" ++ DescriptionOf on_no_match ++ $"}".
Definition ChainModeName (m : ChainMode) : str :=
  match m with FirstMatch => $"FirstMatch" | AllMustAgree => $"AllMustAgree" end.
(** The loop of [ComposeDescription], with its [separator]. *)
Fixpoint compose_children (children : list Sampler) (separator : str) : str :=
  match children with
  | [] => []
  | c :: rest => separator ++ Description c ++ compose_children rest $", "
  end.
Definition ComposeDescription (children : list Sampler) (mode : ChainMode) : str :=
  $"ChainSampler{" ++ ChainModeName mode ++ $", [" ++ compose_children children [] ++ $"]}".

Definition MakeParentBasedSampler (root : option Sampler) : Sampler :=
  ParentBased root (Slot_init (parent_Compose root)).
Definition MakeRuleSampler (rule : RulePredicate) (on_match on_no_match : option Sampler) : Sampler :=
  RuleSampler rule on_match on_no_match (Slot_init (rule_Compose rule on_match on_no_match)).
(** [BuildChildren] discards empty handles. *)
Definition BuildChildren (children : list (option Sampler)) : list Sampler := omap id children.
Definition MakeChainSampler (children : list (option Sampler)) (mode : ChainMode) : Sampler :=
  let m_children := BuildChildren children in
  ChainSampler m_children mode (Slot_init (ComposeDescription m_children mode)).

(** *** [ShouldSample] *)

(** [child.rule == nullptr || child.rule->Matches(ctx)]. *)
Definition selects (ctx : SamplingContext) (child : Sampler) : bool :=
  match child with RuleSampler rule _ _ _ => Matches rule ctx | _ => true end.

Section evaluate.
Context (should_sample : Sampler → option SamplingResult) (ctx : SamplingContext).
Fixpoint EvaluateFirstMatch (children : list Sampler) : option SamplingResult :=
  match children with
  | [] => Some DropResult
  | c :: rest => if selects ctx c then should_sample c else EvaluateFirstMatch rest
  end.
Fixpoint EvaluateAllMustAgree (children : list Sampler) (result : SamplingResult) : option SamplingResult :=
  match children with
  | [] => Some result
  | c :: rest =>
      r ← should_sample c;
      match decision r with
      | RecordAndSample => EvaluateAllMustAgree rest r
      | _ => Some DropResult
      end
  end.
End evaluate.

Fixpoint ShouldSample (s : Sampler) (ctx : SamplingContext) : option SamplingResult :=
  match s with
  | AlwaysOn => Some (result_of RecordAndSample)
  | AlwaysOff => Some (result_of Drop)
  | TraceIdRatio _ threshold _ => Some (result_of (SampleDecision threshold ctx))
  | ParentBased root _ =>
      if SpanContext_IsValid (sc_parent ctx) && IsSampled (trace_flags (sc_parent ctx))
      then Some (result_of RecordAndSample)
      else match root with None => None | Some r => ShouldSample r ctx end
  | RuleSampler rule on_match on_no_match _ =>
      match (if Matches rule ctx then on_match else on_no_match) with
      | None => Some DropResult
      | Some d => ShouldSample d ctx
      end
  | ChainSampler children FirstMatch _ => EvaluateFirstMatch (λ c, ShouldSample c ctx) ctx children
  | ChainSampler children AllMustAgree _ =>
      EvaluateAllMustAgree (λ c, ShouldSample c ctx) children DropResult
  | Custom f _ => Some (f ctx)
  end.

(** *** [TrySetRatio]

    The result and the tree afterwards; [None] for the undefined conversion of a
    ratio the caller did not validate. *)
Definition try_handle (try_set : Sampler → option (bool * Sampler)) (h : option Sampler)
    : option (bool * option Sampler) :=
  match h with
  | None => Some (false, None)
  | Some s => match try_set s with None => None | Some (ok, s') => Some (ok, Some s') end
  end.
Fixpoint try_children (try_set : Sampler → option (bool * Sampler)) (l : list Sampler)
    : option (bool * list Sampler) :=
  match l with
  | [] => Some (false, [])
  | c :: rest =>
      match try_set c with
      | None => None
      | Some (ok, c') =>
          match try_children try_set rest with
          | None => None
          | Some (oks, rest') => Some (ok || oks, c' :: rest')
          end
      end
  end.

Fixpoint TrySetRatio (ratio : double) (s : Sampler) : option (bool * Sampler) :=
  match s with
  | AlwaysOn | AlwaysOff | Custom _ _ => Some (false, s)
  | TraceIdRatio m_ratio t d =>
      if d_eqb ratio m_ratio then Some (true, s)
      else match ComputeThreshold ratio with
           | None => None
           | Some t' => Some (true, TraceIdRatio ratio t' (Slot_Publish d (ratio_description ratio)))
           end
  | ParentBased root d =>
      match try_handle (TrySetRatio ratio) root with
      | None => None
      | Some (true, root') => Some (true, ParentBased root' (Slot_Publish d (parent_Compose root')))
      | Some (false, root') => Some (false, ParentBased root' d)
      end
  | RuleSampler rule a b d =>
      match try_handle (TrySetRatio ratio) a, try_handle (TrySetRatio ratio) b with
      | Some (ok1, a'), Some (ok2, b') =>
          if ok1 || ok2 then Some (true, RuleSampler rule a' b' (Slot_Publish d (rule_Compose rule a' b')))
          else Some (false, RuleSampler rule a' b' d)
      | _, _ => None
      end
  | ChainSampler l mode d =>
      match try_children (TrySetRatio ratio) l with
      | None => None
      | Some (true, l') => Some (true, ChainSampler l' mode (Slot_Publish d (ComposeDescription l' mode)))
      | Some (false, l') => Some (false, ChainSampler l' mode d)
      end
  end.

(** ** The ratio threshold *)

(** The ratios [Provider::SetSamplerRatio] lets through, and those the factory
    normalises to. *)
Definition valid_ratio (r : double) : Prop :=
  is_double r ∧ d_leb d_zero r = true ∧ d_leb r d_one = true.

Lemma ratio_cases r :
  is_double r → isnan r = false →
  d_leb d_one r = true ∨ d_leb r d_zero = true ∨ ∃ m e, r = S754_finite false m e ∧ fraction (Zpos m) e.
Proof.
  intros Hd Hn. destruct (d_leb d_one r) eqn:E1; [by left|right].
  destruct (d_leb r d_zero) eqn:E2; [by left|right].
  apply fraction_inv; [done| |].
  - unfold d_leb, d_ltb, SFleb, SFltb, d_one in *. destruct r as [|[]| |[] m e]; try done.
    cbn [SFcompare] in *. generalize dependent 4503599627370496%positive. intros k E1.
    rewrite Z.compare_antisym in E1. destruct (e ?= -52); try done. cbn [CompOpp] in E1.
    change (Pos.compare_cont Eq m k) with (m ?= k)%positive. change (Pos.compare_cont Eq k m) with (k ?= m)%positive in E1.
    rewrite Pos.compare_antisym in E1. by destruct (m ?= k)%positive.
  - unfold d_leb, d_ltb, SFleb, SFltb, d_zero in *. by destruct r as [|[]| |[] m e].
Qed.

Lemma ComputeThreshold_fraction m e :
  fraction (Zpos m) e →
  ComputeThreshold (S754_finite false m e) = Some (scaled (Zpos m) (e + 64)).
Proof.
  intros Hf. pose proof Hf as ([? ?] & [? ?] & _). unfold ComputeThreshold.
  assert (d_leb d_one (S754_finite false m e) = false) as ->.
  { unfold d_leb, SFleb, d_one. cbn [SFcompare].
    assert ((-52 ?= e) = Gt) as -> by (apply Z.compare_gt_iff; lia). done. }
  by destruct (fraction_to_u64 m e Hf) as [-> _].
Qed.

Lemma ComputeThreshold_total r : is_double r → isnan r = false → ∃ t, ComputeThreshold r = Some t ∧ is_u64 t.
Proof.
  intros Hd Hn. destruct (ratio_cases r Hd Hn) as [H|[H|(m & e & -> & Hf)]].
  - exists u64_max. unfold ComputeThreshold. rewrite H. split; [done|width_lia].
  - unfold ComputeThreshold. rewrite H. destruct (d_leb d_one r); eexists; (split; [done|width_lia]).
  - eexists. split; [by apply ComputeThreshold_fraction|].
    destruct (fraction_to_u64 m e Hf) as [_ Hb]. change (2 ^ 64 - 2 ^ 11) with 18446744073709549568 in Hb. width_lia.
Qed.

Lemma NormaliseRatio_valid r : is_double r → valid_ratio (NormaliseRatio r).
Proof.
  intros Hd. unfold NormaliseRatio. destruct (isnan r) eqn:En; [done|]. unfold d_clamp.
  destruct (d_ltb r d_zero) eqn:E1; [done|]. destruct (d_ltb d_one r) eqn:E2; [done|].
  split; [done|]. unfold d_ltb, d_leb, SFltb, SFleb, d_one, d_zero in *.
  destruct r as [|[]| |[] m e]; try done. split; [done|]. cbn [SFcompare] in *.
  generalize dependent 4503599627370496%positive. intros k E2.
  rewrite Z.compare_antisym in E2. destruct (e ?= -52); try done. cbn in *.
  change (Pos.compare_cont Eq m k) with (m ?= k)%positive. change (Pos.compare_cont Eq k m) with (k ?= m)%positive in E2.
  rewrite Pos.compare_antisym in E2. by destruct (m ?= k)%positive.
Qed.

Lemma valid_ratio_not_nan r : valid_ratio r → isnan r = false.
Proof. intros (_ & H & _). by destruct r. Qed.

Lemma be64_fold_bound l v :
  Forall is_u8 l → 0 <= v < 2 ^ 64 →
  0 <= fold_left (λ v b, Z.lor (to_uint 64 (Z.shiftl v 8)) b) l v < 2 ^ 64.
Proof.
  intros Hl. revert v. induction Hl as [|b l Hb _ IH]; intros v Hv; cbn [fold_left]; [done|].
  apply IH, lor_bound; [lia|apply Z.mod_pos_bound; lia|].
  change (2 ^ 64) with 18446744073709551616. width_lia.
Qed.
Lemma ReadLowerBE64_bound tid : Forall is_u8 tid → 0 <= ReadLowerBE64 tid < 2 ^ 64.
Proof. intros H. apply be64_fold_bound; [by apply Forall_take, Forall_drop|lia]. Qed.

(** The normalised threshold in the three ranges of a ratio. *)
Lemma threshold_high r : isnan r = false → d_leb d_one r = true → ComputeThreshold (NormaliseRatio r) = Some u64_max.
Proof.
  intros Hn H. unfold NormaliseRatio, d_clamp. rewrite Hn.
  destruct (d_ltb r d_zero) eqn:E1; [by destruct r as [|[]| |[] m e]|].
  destruct (d_ltb d_one r); [done|]. unfold ComputeThreshold. by rewrite H.
Qed.
Lemma threshold_low r : isnan r = false → d_leb r d_zero = true → ComputeThreshold (NormaliseRatio r) = Some 0.
Proof.
  intros Hn H. unfold NormaliseRatio, d_clamp. rewrite Hn.
  destruct (d_ltb r d_zero); [done|]. by destruct r as [|[]| |[] m e].
Qed.
Lemma threshold_mid m e :
  fraction (Zpos m) e →
  ComputeThreshold (NormaliseRatio (S754_finite false m e)) = Some (scaled (Zpos m) (e + 64)).
Proof.
  intros Hf. pose proof Hf as (_ & [_ ?] & _).
  assert (NormaliseRatio (S754_finite false m e) = S754_finite false m e) as ->;
    [|by apply ComputeThreshold_fraction].
  unfold NormaliseRatio, d_clamp. cbn [isnan].
  assert (d_ltb d_one (S754_finite false m e) = false) as ->; [|done].
  unfold d_ltb, SFltb, d_one. cbn [SFcompare].
  by assert ((-52 ?= e) = Gt) as -> by (apply Z.compare_gt_iff; lia).
Qed.

(** The ratio sampler is exact: for every ratio the factory accepts (any
    double, NaN included) no conversion is undefined; the sentinel [UINT64_MAX]
    is stored exactly for ratios of at least one; strictly between zero and one
    the threshold is the floor of [ratio * 2^64], at most [2^64 - 2^11]. *)
Theorem ratio_threshold_exact ratio :
  is_double ratio →
  let r := NormaliseRatio ratio in
  ∃ t, ComputeThreshold r = Some t ∧ is_u64 t
    ∧ (t = u64_max ↔ d_leb d_one ratio = true)
    ∧ (∀ m e, ratio = S754_finite false m e → fraction (Zpos m) e →
         t = scaled (Zpos m) (e + 64) ∧ t <= 2 ^ 64 - 2 ^ 11).
Proof.
  intros Hd. cbv zeta. destruct (isnan ratio) eqn:En.
  { destruct ratio; try discriminate En. exists 0. split_and!; try done; width_lia. }
  destruct (ratio_cases ratio Hd En) as [H|[H|(m & e & -> & Hf)]].
  - exists u64_max. rewrite H, threshold_high by done. split_and!; try done; try width_lia.
    intros m e -> (_ & [_ ?] & _). exfalso. revert H. unfold d_leb, SFleb, d_one. cbn [SFcompare].
    by assert ((-52 ?= e) = Gt) as -> by (apply Z.compare_gt_iff; lia).
  - exists 0. rewrite threshold_low by done. split_and!; try done; try width_lia.
    + split; [done|]. intros H'. by destruct ratio as [|[]| |[] m e].
    + by intros m e ->.
  - destruct (fraction_to_u64 m e Hf) as [_ [Hb1 Hb2]]. exists (scaled (Zpos m) (e + 64)).
    rewrite threshold_mid by done. pose proof Hf as (_ & [_ ?] & _).
    remember (scaled (Zpos m) (e + 64)) as t eqn:Et. change (2 ^ 64 - 2 ^ 11) with 18446744073709549568 in *.
    split; [reflexivity|]. split; [width_lia|]. split.
    + split; [intros E; width_lia|]. unfold d_leb, SFleb, d_one. cbn [SFcompare].
      by assert ((-52 ?= e) = Gt) as -> by (apply Z.compare_gt_iff; lia).
    + intros m' e' [= <- <-] _. split; [exact Et|lia].
Qed.

Definition half : double := S754_finite false 4503599627370496 (-53).
Definition quarter : double := S754_finite false 4503599627370496 (-54).

Lemma ratio_threshold_exact_witness :
  ∃ t, ComputeThreshold (NormaliseRatio half) = Some t ∧ t = 2 ^ 63 ∧ t <= 2 ^ 64 - 2 ^ 11.
Proof.
  destruct (ratio_threshold_exact half) as (t & Ht & _ & _ & Hm); [reflexivity|].
  assert (fraction (Zpos 4503599627370496) (-53)) as Hf.
  { unfold fraction. change (emin prec emax) with (-1074). change (2 ^ 53) with 9007199254740992.
    change (2 ^ 52) with 4503599627370496. lia. }
  destruct (Hm _ _ eq_refl Hf) as [-> Hb]. eexists. split; [exact Ht|]. split; [reflexivity|exact Hb].
Defined.

(** ** Raising the ratio only adds traces *)

Lemma threshold_mono r1 r2 t1 t2 :
  is_double r1 → is_double r2 → d_leb r1 r2 = true →
  ComputeThreshold (NormaliseRatio r1) = Some t1 → ComputeThreshold (NormaliseRatio r2) = Some t2 →
  t1 <= t2.
Proof.
  intros H1 H2 Hle E1 E2.
  assert (isnan r1 = false) as N1 by (by destruct r1).
  assert (isnan r2 = false) as N2 by (by destruct r1 as [|[]| |[]], r2).
  destruct (ComputeThreshold_total _ (proj1 (NormaliseRatio_valid r1 H1))
    (valid_ratio_not_nan _ (NormaliseRatio_valid r1 H1))) as (u1 & Eu1 & Hu1).
  destruct (ComputeThreshold_total _ (proj1 (NormaliseRatio_valid r2 H2))
    (valid_ratio_not_nan _ (NormaliseRatio_valid r2 H2))) as (u2 & Eu2 & Hu2).
  assert (u1 = t1) as -> by congruence. assert (u2 = t2) as -> by congruence.
  destruct (ratio_cases r1 H1 N1) as [Hc1|[Hc1|(m1 & e1 & -> & Hf1)]].
  - assert (d_leb d_one r2 = true) as Hc2 by (by eapply d_leb_trans).
    rewrite threshold_high in E2 by done. injection E2 as <-. width_lia.
  - rewrite threshold_low in E1 by done. injection E1 as <-. width_lia.
  - rewrite threshold_mid in E1 by done. injection E1 as <-.
    destruct (ratio_cases r2 H2 N2) as [Hc2|[Hc2|(m2 & e2 & -> & Hf2)]].
    + rewrite threshold_high in E2 by done. injection E2 as <-. width_lia.
    + exfalso. by destruct r2 as [[]|[]| |[]].
    + rewrite threshold_mid in E2 by done. injection E2 as <-. by apply fraction_mono.
Qed.

(** Sampling is consistent across ratios: a trace sampled at some ratio is
    sampled at every larger one, so raising the ratio never loses a trace. *)
Theorem ratio_sampling_consistent r1 r2 s1 s2 ctx :
  is_double r1 → is_double r2 → d_leb r1 r2 = true →
  MakeTraceIdRatioSampler r1 = Some s1 → MakeTraceIdRatioSampler r2 = Some s2 →
  Forall is_u8 (sc_trace_id ctx) →
  ShouldSample s1 ctx = Some (result_of RecordAndSample) →
  ShouldSample s2 ctx = Some (result_of RecordAndSample).
Proof.
  intros H1 H2 Hle M1 M2 Hid Hs. unfold MakeTraceIdRatioSampler in M1, M2.
  destruct (ComputeThreshold (NormaliseRatio r1)) as [t1|] eqn:E1; [|done].
  destruct (ComputeThreshold (NormaliseRatio r2)) as [t2|] eqn:E2; [|done].
  injection M1 as <-. injection M2 as <-. cbn [ShouldSample] in *.
  pose proof (threshold_mono _ _ _ _ H1 H2 Hle E1 E2). pose proof (ReadLowerBE64_bound _ Hid) as Hr.
  injection Hs as Hs. do 2 f_equal. unfold SampleDecision in *.
  destruct (ComputeThreshold_total _ (proj1 (NormaliseRatio_valid r2 H2))
    (valid_ratio_not_nan _ (NormaliseRatio_valid r2 H2))) as (u2 & Eu2 & Hu2).
  assert (u2 = t2) as -> by congruence.
  destruct (t2 =? u64_max) eqn:F2; [done|]. destruct (t1 =? u64_max) eqn:F1; bool_hyps.
  - exfalso. width_lia.
  - destruct (_ <? t1) eqn:F3; [|done]. bool_hyps. by rewrite (proj2 (Z.ltb_lt _ _)) by lia.
Qed.

Lemma ratio_sampling_consistent_witness :
  ∃ s1 s2, MakeTraceIdRatioSampler quarter = Some s1 ∧ MakeTraceIdRatioSampler half = Some s2
  ∧ ShouldSample s2 (mkSamplingContext SpanContext_default KindServer [] [] [] (replicate 16 3))
    = Some (result_of RecordAndSample).
Proof.
  eexists _, _. split; [vm_compute; reflexivity|]. split; [vm_compute; reflexivity|].
  apply (ratio_sampling_consistent quarter half
           (default AlwaysOff (MakeTraceIdRatioSampler quarter)) (default AlwaysOff (MakeTraceIdRatioSampler half)));
    try (vm_compute; reflexivity).
  apply Forall_replicate. width_lia.
Defined.

(** ** Induction over the tree *)

Definition on_handle (P : Sampler → Prop) (h : option Sampler) : Prop :=
  match h with None => True | Some s => P s end.

Lemma Sampler_tree_ind (P : Sampler → Prop) :
  P AlwaysOn → P AlwaysOff → (∀ r t d, P (TraceIdRatio r t d)) →
  (∀ h d, on_handle P h → P (ParentBased h d)) →
  (∀ rule a b d, on_handle P a → on_handle P b → P (RuleSampler rule a b d)) →
  (∀ l m d, Forall P l → P (ChainSampler l m d)) →
  (∀ f d, P (Custom f d)) → ∀ s, P s.
Proof.
  intros H1 H2 H3 H4 H5 H6 H7. fix IH 1. intros [| |r t d|h d|rule a b d|l m d|f d].
  - exact H1.
  - exact H2.
  - apply H3.
  - apply H4. destruct h as [s|]; [apply IH|exact I].
  - apply H5; [destruct a as [s|]; [apply IH|exact I]|destruct b as [s|]; [apply IH|exact I]].
  - apply H6. induction l as [|c l IHl]; constructor; [apply IH|exact IHl].
  - apply H7.
Qed.

(** No parent-based sampler has an empty root. *)
Fixpoint rooted (s : Sampler) : bool :=
  match s with
  | ParentBased h _ => match h with None => false | Some r => rooted r end
  | RuleSampler _ a b _ =>
      match a with None => true | Some s => rooted s end && match b with None => true | Some s => rooted s end
  | ChainSampler l _ _ => forallb rooted l
  | _ => true
  end.

Lemma first_match_find f ctx l :
  EvaluateFirstMatch f ctx l
  = match find (selects ctx) l with Some c => f c | None => Some DropResult end.
Proof. induction l as [|c l IH]; [done|]. cbn. by destruct (selects ctx c). Qed.

Definition sampled (r : SamplingResult) : bool := bool_decide (decision r = RecordAndSample).

Lemma all_must_agree_spec f l rs r0 :
  Forall2 (λ c r, f c = Some r) l rs →
  EvaluateAllMustAgree f l r0
  = Some (if forallb sampled rs then default r0 (last rs) else DropResult).
Proof.
  intros H. revert r0. induction H as [|c r l rs Hc H IH]; intros r0; [done|].
  cbn [EvaluateAllMustAgree]. rewrite Hc. cbn [mbind option_bind forallb]. unfold sampled at 1.
  destruct (decision r) eqn:Ed; cbn; [done|done|]. rewrite IH.
  destruct rs as [|r' rs]; [done|]. cbn [last]. by destruct (last (r' :: rs)) eqn:El; [|apply last_None in El].
Qed.

Lemma rooted_total s ctx : rooted s = true → ∃ r, ShouldSample s ctx = Some r.
Proof.
  induction s as [| |r t d|h d IH|rule a b d IHa IHb|l m d IH|f d] using Sampler_tree_ind;
    intros Hr; cbn [ShouldSample rooted] in *; eauto.
  - destruct (_ && _); [eauto|]. destruct h as [s|]; [by apply IH|done].
  - bool_hyps. destruct (Matches rule ctx); [destruct a|destruct b]; cbn in *; eauto.
  - assert (Forall (λ c, ∃ r, ShouldSample c ctx = Some r) l) as Hl.
    { apply Forall_forall. intros c Hc. rewrite Forall_forall in IH. apply IH; [done|].
      by eapply forallb_elem. }
    destruct m.
    + rewrite first_match_find. destruct (find _ l) as [c|] eqn:Ef; [|eauto].
      apply find_some in Ef as [Hc _]. rewrite Forall_forall in Hl. by apply Hl, list_elem_of_In.
    + apply Forall_Exists_choice in Hl as [rs Hrs]. erewrite all_must_agree_spec by exact Hrs. eauto.
Qed.

(** The chain modes meet their contract on every tree without an empty
    root (where sampling is total): [FirstMatch] answers with the first child
    that carries no predicate or whose predicate holds, and drops if there is
    none; [AllMustAgree] samples exactly when the chain is non-empty and every
    child samples, answering then with the last child's result, and otherwise
    drops without attributes. *)
Theorem chain_spec l d ctx :
  rooted (ChainSampler l AllMustAgree d) = true →
  ShouldSample (ChainSampler l FirstMatch d) ctx
  = match find (selects ctx) l with Some c => ShouldSample c ctx | None => Some DropResult end
  ∧ ∃ rs, Forall2 (λ c r, ShouldSample c ctx = Some r) l rs
    ∧ ShouldSample (ChainSampler l AllMustAgree d) ctx
      = Some (if forallb sampled rs then default DropResult (last rs) else DropResult).
Proof.
  intros Hr. cbn [ShouldSample rooted] in *. split; [apply first_match_find|].
  assert (Forall (λ c, ∃ r, ShouldSample c ctx = Some r) l) as Hl.
  { apply Forall_forall. intros c Hc. apply rooted_total. by eapply forallb_elem. }
  apply Forall_Exists_choice in Hl as [rs Hrs]. exists rs. split; [done|]. by apply all_must_agree_spec.
Qed.

Definition demo_chain : list Sampler :=
  [MakeRuleSampler (SpanKindRule KindServer) (Some AlwaysOn) None; MakeParentBasedSampler (Some AlwaysOff)].
Definition demo_ctx : SamplingContext :=
  mkSamplingContext SpanContext_default KindServer $"GET" [] [] (replicate 16 3).

Lemma chain_spec_witness :
  ShouldSample (ChainSampler demo_chain FirstMatch (Slot_init [])) demo_ctx = Some (result_of RecordAndSample)
  ∧ ShouldSample (ChainSampler demo_chain AllMustAgree (Slot_init [])) demo_ctx = Some DropResult.
Proof.
  split; [|vm_compute; reflexivity].
  rewrite (proj1 (chain_spec demo_chain (Slot_init []) demo_ctx eq_refl)). vm_compute. reflexivity.
Defined.

(** ** Retuning *)

(** Thresholds belong to their ratios and descriptions describe the tree. *)
Fixpoint coherent (s : Sampler) : bool :=
  match s with
  | AlwaysOn | AlwaysOff | Custom _ _ => true
  | TraceIdRatio r t d =>
      bool_decide (ComputeThreshold r = Some t) && (Slot_Get d =s ratio_description r)
  | ParentBased h d =>
      (Slot_Get d =s parent_Compose h) && match h with None => true | Some s => coherent s end
  | RuleSampler rule a b d =>
      (Slot_Get d =s rule_Compose rule a b) && match a with None => true | Some s => coherent s end
      && match b with None => true | Some s => coherent s end
  | ChainSampler l m d => (Slot_Get d =s ComposeDescription l m) && forallb coherent l
  end.
Definition on_option {A B} (f : A → B) (b : B) (h : option A) : B :=
  match h with None => b | Some s => f s end.
(** Some ratio sampler is reachable. *)
Fixpoint has_ratio (s : Sampler) : bool :=
  match s with
  | TraceIdRatio _ _ _ => true
  | ParentBased h _ => match h with None => false | Some s => has_ratio s end
  | RuleSampler _ a b _ =>
      match a with None => false | Some s => has_ratio s end || match b with None => false | Some s => has_ratio s end
  | ChainSampler l _ _ => existsb has_ratio l
  | _ => false
  end.
(** The same tree with every ratio sampler built for [ratio]. *)
Fixpoint rebuilt (ratio : double) (t : Z) (s : Sampler) : Sampler :=
  match s with
  | TraceIdRatio _ _ d => TraceIdRatio ratio t d
  | ParentBased h d => ParentBased (match h with None => None | Some s => Some (rebuilt ratio t s) end) d
  | RuleSampler rule a b d =>
      RuleSampler rule (match a with None => None | Some s => Some (rebuilt ratio t s) end)
        (match b with None => None | Some s => Some (rebuilt ratio t s) end) d
  | ChainSampler l m d => ChainSampler (map (rebuilt ratio t) l) m d
  | s => s
  end.
(** Every description slot of the tree, in preorder. *)
Fixpoint slots (s : Sampler) : list DescriptionSlot :=
  match s with
  | TraceIdRatio _ _ d => [d]
  | ParentBased h d => d :: match h with None => [] | Some s => slots s end
  | RuleSampler _ a b d =>
      d :: match a with None => [] | Some s => slots s end ++ match b with None => [] | Some s => slots s end
  | ChainSampler l _ d => d :: concat (map slots l)
  | _ => []
  end.
Definition extends (a b : list DescriptionSlot) : Prop :=
  Forall2 (λ x y, m_strings x `prefix_of` m_strings y) a b.

Definition same_sampling (s s' : Sampler) : Prop :=
  ∀ ctx, ShouldSample s ctx = ShouldSample s' ctx ∧ selects ctx s = selects ctx s'.

Lemma extends_refl a : extends a a.
Proof. induction a; constructor; [done|done]. Qed.
Lemma extends_app a a' b b' : extends a a' → extends b b' → extends (a ++ b) (a' ++ b').
Proof. apply Forall2_app. Qed.
Lemma publish_extends d text : m_strings d `prefix_of` m_strings (Slot_Publish d text).
Proof. by exists [text]. Qed.
Lemma publish_get d text : Slot_Get (Slot_Publish d text) = text.
Proof. unfold Slot_Get, Slot_Publish. cbn. by rewrite last_snoc. Qed.

Lemma d_eqb_threshold x y : d_eqb x y = true → ComputeThreshold x = ComputeThreshold y.
Proof.
  unfold d_eqb, SFeqb. destruct x as [|[]| |[] mx ex], y as [|[]| |[] my ey]; try done; cbn [SFcompare].
  all: change (Pos.compare_cont Eq ?a ?b) with (a ?= b)%positive in *.
  all: destruct (Z.compare_spec ex ey) as [->| |]; try done.
  all: destruct (Pos.compare_spec mx my) as [->| |]; done.
Qed.

Lemma evaluate_same ctx l l' :
  Forall2 same_sampling l l' →
  EvaluateFirstMatch (λ c, ShouldSample c ctx) ctx l = EvaluateFirstMatch (λ c, ShouldSample c ctx) ctx l'
  ∧ ∀ r, EvaluateAllMustAgree (λ c, ShouldSample c ctx) l r = EvaluateAllMustAgree (λ c, ShouldSample c ctx) l' r.
Proof.
  induction 1 as [|c c' l l' Hc _ [IH1 IH2]]; [done|]. destruct (Hc ctx) as [Hs Hm].
  cbn. rewrite Hs, Hm, IH1. split; [done|]. intros r. destruct (ShouldSample c' ctx) as [r'|]; cbn; [|done].
  by destruct (decision r').
Qed.

(** What one retune does to a subtree. *)
Definition retunes (ratio : double) (t : Z) (s : Sampler) : Prop :=
  coherent s = true →
  ∃ s', TrySetRatio ratio s = Some (has_ratio s, s') ∧ coherent s' = true
    ∧ (has_ratio s = false → s' = s) ∧ same_sampling s' (rebuilt ratio t s) ∧ extends (slots s) (slots s').

(** A handle: the same, with an empty one left alone. *)
Lemma retunes_handle ratio t h :
  on_handle (retunes ratio t) h → on_option coherent true h = true →
  ∃ h', try_handle (TrySetRatio ratio) h = Some (on_option has_ratio false h, h')
    ∧ on_option coherent true h' = true ∧ (on_option has_ratio false h = false → h' = h)
    ∧ (h = None ∧ h' = None ∨ ∃ s s', h = Some s ∧ h' = Some s' ∧ same_sampling s' (rebuilt ratio t s))
    ∧ extends (on_option slots [] h) (on_option slots [] h').
Proof.
  destruct h as [s|]; cbn; intros H Hc.
  - destruct (H Hc) as (s' & E & Hc' & Hu & Hs & Hx). rewrite E. exists (Some s'). cbn.
    split_and!; [done|done|intros; f_equal; auto|right; eauto|done].
  - exists None. split_and!; try done; [by left|constructor].
Qed.

Lemma retunes_children ratio t l :
  Forall (retunes ratio t) l → forallb coherent l = true →
  ∃ l', try_children (TrySetRatio ratio) l = Some (existsb has_ratio l, l')
    ∧ forallb coherent l' = true ∧ (existsb has_ratio l = false → l' = l)
    ∧ Forall2 same_sampling l' (map (rebuilt ratio t) l)
    ∧ extends (concat (map slots l)) (concat (map slots l')).
Proof.
  induction 1 as [|c l Hc _ IH]; cbn; intros Hco.
  - exists []. split_and!; try done; constructor.
  - bool_hyps. destruct (Hc H) as (c' & Ec & Hc' & Hu & Hs & Hx).
    destruct (IH H0) as (l' & El & Hl' & Hul & Hsl & Hxl). rewrite Ec, El. exists (c' :: l'). cbn.
    rewrite Hc', Hl'. split_and!; try done.
    + intros Hn. bool_hyps. rewrite Hu, Hul by done. done.
    + by constructor.
    + by apply extends_app.
Qed.

Lemma retunes_leaf ratio t r0 t0 d : ComputeThreshold ratio = Some t → retunes ratio t (TraceIdRatio r0 t0 d).
Proof.
  intros Ht Hc. cbn [coherent] in Hc. bool_hyps. cbn [TrySetRatio has_ratio]. destruct (d_eqb ratio r0) eqn:E.
  - assert (t0 = t) as -> by (apply d_eqb_threshold in E; congruence).
    eexists. split_and!; [done| |done|done|apply extends_refl]. cbn [coherent].
    rewrite bool_decide_true by done. done.
  - rewrite Ht. eexists. split_and!; [done| |done|done|].
    + cbn [coherent]. rewrite bool_decide_true, publish_get, seqb_refl by done. done.
    + constructor; [apply publish_extends|constructor].
Qed.

Lemma retunes_parent ratio t h d : on_handle (retunes ratio t) h → retunes ratio t (ParentBased h d).
Proof.
  intros IH Hc. cbn [coherent] in Hc. bool_hyps.
  destruct (retunes_handle ratio t h IH H0) as (h' & E & Hc' & Hu & Hs & Hx).
  cbn [TrySetRatio]. rewrite E. change (has_ratio (ParentBased h d)) with (on_option has_ratio false h).
  assert (∀ d0, same_sampling (ParentBased h' d0) (rebuilt ratio t (ParentBased h d))) as Hsame.
  { intros d0 ctx. split; [|done]. cbn. destruct (_ && _); [done|].
    destruct Hs as [[-> ->]|(s & s' & -> & -> & Hs)]; [done|]. by destruct (Hs ctx). }
  destruct (on_option has_ratio false h) eqn:Er.
  - eexists. split_and!; [done| |done|done|].
    + cbn [coherent]. rewrite publish_get, seqb_refl. exact Hc'.
    + constructor; [apply publish_extends|exact Hx].
  - rewrite (Hu eq_refl) in *. eexists. split_and!; [done| |done|done|].
    + cbn [coherent]. by rewrite H.
    + apply extends_refl.
Qed.

Lemma retunes_rule ratio t rule a b d :
  on_handle (retunes ratio t) a → on_handle (retunes ratio t) b → retunes ratio t (RuleSampler rule a b d).
Proof.
  intros IHa IHb Hc. cbn [coherent] in Hc. bool_hyps.
  destruct (retunes_handle ratio t a IHa H1) as (a' & Ea & Hca & Hua & Hsa & Hxa).
  destruct (retunes_handle ratio t b IHb H0) as (b' & Eb & Hcb & Hub & Hsb & Hxb).
  cbn [TrySetRatio]. rewrite Ea, Eb.
  change (has_ratio (RuleSampler rule a b d)) with (on_option has_ratio false a || on_option has_ratio false b).
  assert (∀ d0, same_sampling (RuleSampler rule a' b' d0) (rebuilt ratio t (RuleSampler rule a b d))) as Hsame.
  { intros d0 ctx. split; [|done]. cbn. destruct (Matches rule ctx).
    - destruct Hsa as [[-> ->]|(s & s' & -> & -> & Hs)]; [done|]. by destruct (Hs ctx).
    - destruct Hsb as [[-> ->]|(s & s' & -> & -> & Hs)]; [done|]. by destruct (Hs ctx). }
  destruct (_ || _) eqn:Er.
  - eexists. split_and!; [done| |done|done|].
    + cbn [coherent]. rewrite publish_get, seqb_refl. apply andb_true_iff. by split.
    + constructor; [apply publish_extends|by apply extends_app].
  - bool_hyps. rewrite Hua, Hub in * by done. eexists. split_and!; [done| |done|done|].
    + cbn [coherent]. rewrite H. apply andb_true_iff. by split.
    + apply extends_refl.
Qed.

Lemma retunes_chain ratio t l m d : Forall (retunes ratio t) l → retunes ratio t (ChainSampler l m d).
Proof.
  intros IH Hc. cbn [coherent] in Hc. bool_hyps.
  destruct (retunes_children ratio t l IH H0) as (l' & El & Hcl & Hul & Hsl & Hxl).
  cbn [TrySetRatio]. rewrite El. change (has_ratio (ChainSampler l m d)) with (existsb has_ratio l).
  assert (∀ d0, same_sampling (ChainSampler l' m d0) (rebuilt ratio t (ChainSampler l m d))) as Hsame.
  { intros d0 ctx. split; [|done]. destruct (evaluate_same ctx _ _ Hsl) as [H1 H2]. cbn. by destruct m. }
  destruct (existsb has_ratio l).
  - eexists. split_and!; [done| |done|done|].
    + cbn [coherent]. rewrite publish_get, seqb_refl. exact Hcl.
    + constructor; [apply publish_extends|exact Hxl].
  - rewrite (Hul eq_refl) in *. eexists. split_and!; [done| |done|done|].
    + cbn [coherent]. by rewrite H.
    + apply extends_refl.
Qed.

Lemma retunes_all ratio t s : ComputeThreshold ratio = Some t → retunes ratio t s.
Proof.
  intros Ht. induction s as [| |r0 t0 d|h d IH|rule a b d IHa IHb|l m d IH|f d] using Sampler_tree_ind.
  - intros _. exists AlwaysOn. by split_and!; try constructor.
  - intros _. exists AlwaysOff. by split_and!; try constructor.
  - by apply retunes_leaf.
  - by apply retunes_parent.
  - by apply retunes_rule.
  - by apply retunes_chain.
  - intros _. exists (Custom f d). by split_and!; try constructor.
Qed.

(** Retuning a coherent tree with a validated ratio: it succeeds exactly when
    some ratio sampler is reachable, and otherwise changes nothing; afterwards
    every decision is that of the tree rebuilt for the new ratio, thresholds and
    descriptions are coherent again, and every description ever handed out still
    exists. *)
Theorem retune_spec ratio s :
  valid_ratio ratio → coherent s = true →
  ∃ t s', ComputeThreshold ratio = Some t ∧ TrySetRatio ratio s = Some (has_ratio s, s')
    ∧ (has_ratio s = false → s' = s)
    ∧ (∀ ctx, ShouldSample s' ctx = ShouldSample (rebuilt ratio t s) ctx)
    ∧ coherent s' = true ∧ extends (slots s) (slots s').
Proof.
  intros Hv Hc. destruct (ComputeThreshold_total ratio (proj1 Hv) (valid_ratio_not_nan _ Hv)) as (t & Ht & _).
  destruct (retunes_all ratio t s Ht Hc) as (s' & E & Hc' & Hu & Hs & Hx).
  exists t, s'. split_and!; try done. intros ctx. apply Hs.
Qed.

Definition demo_tree : Sampler :=
  MakeChainSampler [Some (MakeParentBasedSampler (MakeTraceIdRatioSampler half)); None; Some AlwaysOn] FirstMatch.

Lemma retune_spec_witness :
  ∃ s', TrySetRatio quarter demo_tree = Some (true, s')
  ∧ Description s' = $"ChainSampler{FirstMatch, [ParentBasedSampler{TraceIdRatioSampler{0.250}}, AlwaysOnSampler]}"
  ∧ coherent s' = true.
Proof.
  destruct (retune_spec quarter demo_tree) as (t & s' & _ & E & _ & _ & Hc & _);
    [split; [reflexivity|split; reflexivity]|vm_compute; reflexivity|].
  exists s'. split; [exact E|]. split; [|exact Hc]. vm_compute in E. injection E as <-. vm_compute. reflexivity.
Defined.
