(* ===== verification/Spans.v ===== *)
(** * Spans and the tracer

    Model of [src/sdk/sdk_span.cpp], [src/sdk/noop_span.cpp] and
    [src/sdk/sdk_tracer.cpp].  A recording span is its members together with the
    two sequences of calls it makes: [RecordDrop] on the diagnostics sink and
    [OnEnd] on the processor.  The clock is an argument of the operations that
    read it.  [OnEnd] takes the record by rvalue reference; whether the processor
    moved it out is an argument of [End].  Allocation failure is modelled for
    [new (std::nothrow)] only.

    The theorems: a span enforces its limits as it goes exactly as trimming the
    unlimited record would, with the same accounting; it is handed to the
    processor exactly once, within its limits, and calls after that have no
    effect; a started span belongs to the trace its parent, sampler and current
    context prescribe. *)
From S2P Require Import Prelude Trace TraceState Baggage Context Data Sampler SpanLimits.

(** ** [SdkSpan] *)

Record SdkSpan := mkSdkSpan {
  m_scope : InstrumentationScope;
  m_limits : SpanLimitOptions;
  m_diagnostics : bool;
  m_record : SpanRecord;
  m_ended : bool;
  drops : Drops;
  on_end : list (SpanRecord * InstrumentationScope)
}.

Definition with_record (r : SpanRecord) (s : SdkSpan) : SdkSpan :=
  mkSdkSpan (m_scope s) (m_limits s) (m_diagnostics s) r (m_ended s) (drops s) (on_end s).
Definition with_attributes (l : list KeyValue) (r : SpanRecord) : SpanRecord :=
  set_contents r l (sr_events r) (sr_links r).
Definition with_events (l : list SpanEvent) (r : SpanRecord) : SpanRecord :=
  set_contents r (sr_attributes r) l (sr_links r).
Definition with_links (l : list SpanLink) (r : SpanRecord) : SpanRecord :=
  set_contents r (sr_attributes r) (sr_events r) l.
Definition with_header (name : str) (status : StatusCode) (description : str) (end_time : Z)
    (r : SpanRecord) : SpanRecord :=
  mkSpanRecord (sr_context r) (sr_parent_context r) name (sr_kind r) status description
    (sr_start_time r) end_time (sr_attributes r) (sr_events r) (sr_links r) (sr_resource r).

(** [(t == time_point{}) ? now() : t]. *)
Definition or_now (t now : Z) : Z := if t =? 0 then now else t.

(** The constructor. *)
Definition SdkSpan_new (context parent_context : SpanContext) (name : str) (kind : SpanKind)
    (start_time now : Z) (scope : InstrumentationScope) (limits : SpanLimitOptions)
    (diagnostics : bool) : SdkSpan :=
  mkSdkSpan scope limits diagnostics
    (mkSpanRecord context parent_context name kind CodeUnset [] (or_now start_time now) 0 [] [] [] None)
    false [] [].

(** [RecordDropped]. *)
Definition RecordDropped (s : SdkSpan) (reason : DropReason) (n : Z) : SdkSpan :=
  if m_diagnostics s
  then mkSdkSpan (m_scope s) (m_limits s) (m_diagnostics s) (m_record s) (m_ended s)
         (drops s ++ [(reason, n)]) (on_end s)
  else s.

(** [GetContext] and [IsSampled]. *)
Definition GetContext (s : SdkSpan) : SpanContext := sr_context (m_record s).
Definition SdkSpan_IsSampled (s : SdkSpan) : bool := true.

(** [ClipAttribute]. *)
Definition ClipAttribute (kv : KeyValue) (limit : Z) (diag : bool) : KeyValue * Drops :=
  let '(v, truncated) := TruncateStrings (kv_value kv) limit in
  (mkKeyValue (kv_key kv) v, if (0 <? truncated) && diag then [(AttributeValueTruncated, truncated)] else []).

(** The attribute loop of [BuildEvent] and [BuildLink], with its [break]. *)
Fixpoint build_attributes (count_limit value_limit : Z) (diag : bool) (attributes built : list KeyValue)
    : list KeyValue * Drops :=
  match attributes with
  | [] => (built, [])
  | kv :: rest =>
      if count_limit <=? size built then (built, [])
      else
        let '(copy, calls) := ClipAttribute kv value_limit diag in
        let '(built', calls') := build_attributes count_limit value_limit diag rest (built ++ [copy]) in
        (built', calls ++ calls')
  end.
(** The count made after the loop. *)
Definition count_surplus (diag : bool) (reason : DropReason) (attributes built : list KeyValue) : Drops :=
  if (size built <? size attributes) && diag then [(reason, size attributes - size built)] else [].

(** [BuildEvent]. *)
Definition BuildEvent (name : str) (attributes : list KeyValue) (timestamp now : Z)
    (limits : SpanLimitOptions) (diag : bool) : SpanEvent * Drops :=
  let '(built, calls) :=
    build_attributes (event_attribute_count_limit limits) (attribute_value_length_limit limits) diag attributes [] in
  (mkSpanEvent name (or_now timestamp now) built,
   calls ++ count_surplus diag EventAttributeLimit attributes built).
(** [BuildLink]. *)
Definition BuildLink (linked_context : SpanContext) (attributes : list KeyValue)
    (limits : SpanLimitOptions) (diag : bool) : SpanLink * Drops :=
  let '(built, calls) :=
    build_attributes (link_attribute_count_limit limits) (attribute_value_length_limit limits) diag attributes [] in
  (mkSpanLink linked_context built, calls ++ count_surplus diag LinkAttributeLimit attributes built).

Definition with_drops (calls : Drops) (s : SdkSpan) : SdkSpan :=
  mkSdkSpan (m_scope s) (m_limits s) (m_diagnostics s) (m_record s) (m_ended s) (drops s ++ calls) (on_end s).

(** [SetAttribute]. *)
Definition SetAttribute (s : SdkSpan) (key : str) (value : AttributeValue) : SdkSpan :=
  if m_ended s then s
  else if attribute_count_limit (m_limits s) <=? size (sr_attributes (m_record s))
  then RecordDropped s SpanAttributeLimit 1
  else
    let '(value', truncated) := TruncateStrings value (attribute_value_length_limit (m_limits s)) in
    let s' := if 0 <? truncated then RecordDropped s AttributeValueTruncated truncated else s in
    with_record (with_attributes (sr_attributes (m_record s) ++ [mkKeyValue key value']) (m_record s)) s'.

(** [AddEvent]. *)
Definition AddEvent (s : SdkSpan) (name : str) (attributes : list KeyValue) (timestamp now : Z) : SdkSpan :=
  if m_ended s then s
  else if event_count_limit (m_limits s) <=? size (sr_events (m_record s))
  then RecordDropped s SpanEventLimit 1
  else
    let '(ev, calls) := BuildEvent name attributes timestamp now (m_limits s) (m_diagnostics s) in
    with_record (with_events (sr_events (m_record s) ++ [ev]) (m_record s)) (with_drops calls s).

(** [AddLink]. *)
Definition AddLink (s : SdkSpan) (linked_context : SpanContext) (attributes : list KeyValue) : SdkSpan :=
  if m_ended s then s
  else if link_count_limit (m_limits s) <=? size (sr_links (m_record s))
  then RecordDropped s SpanLinkLimit 1
  else
    let '(lk, calls) := BuildLink linked_context attributes (m_limits s) (m_diagnostics s) in
    with_record (with_links (sr_links (m_record s) ++ [lk]) (m_record s)) (with_drops calls s).

Definition is_ok (c : StatusCode) : bool := match c with CodeOk => true | _ => false end.
(** [SetStatus]. *)
Definition SetStatus (s : SdkSpan) (status : StatusCode) (description : str) : SdkSpan :=
  let r := m_record s in
  if m_ended s then s
  else match status with
       | CodeOk => with_record (with_header (sr_name r) CodeOk [] (sr_end_time r) r) s
       | CodeError =>
           if is_ok (sr_status_code r) then s
           else with_record (with_header (sr_name r) CodeError description (sr_end_time r) r) s
       | CodeUnset => s
       end.

(** [UpdateName]. *)
Definition UpdateName (s : SdkSpan) (name : str) : SdkSpan :=
  let r := m_record s in
  if m_ended s then s
  else with_record (with_header name (sr_status_code r) (sr_status_description r) (sr_end_time r) r) s.

(** What the defaulted move of a [SpanRecord] leaves behind: arrays, flags, times
    and enumerations stay, vectors and shared pointers are empty.  (The contents
    of moved-from strings are unspecified; nothing reads them.) *)
Definition moved_context (c : SpanContext) : SpanContext :=
  mkSpanContext (trace_id c) (span_id c) (trace_flags c) TraceState_default (remote c).
Definition moved_from (r : SpanRecord) : SpanRecord :=
  mkSpanRecord (moved_context (sr_context r)) (moved_context (sr_parent_context r)) [] (sr_kind r)
    (sr_status_code r) [] (sr_start_time r) (sr_end_time r) [] [] [] None.

(** [End]; [taken] says whether the processor moved the record out. *)
Definition End_ (s : SdkSpan) (end_time now : Z) (taken : bool) : SdkSpan :=
  if m_ended s then s
  else
    let r := m_record s in
    let r' := with_header (sr_name r) (sr_status_code r) (sr_status_description r) (or_now end_time now) r in
    mkSdkSpan (m_scope s) (m_limits s) (m_diagnostics s) (if taken then moved_from r' else r') true
      (drops s) (on_end s ++ [(r', m_scope s)]).

(** The destructor. *)
Definition SdkSpan_destroy (s : SdkSpan) (now : Z) (taken : bool) : SdkSpan := End_ s 0 now taken.

(** A call on the span. *)
Inductive Op :=
| OpSetAttribute (key : str) (value : AttributeValue)
| OpAddEvent (name : str) (attributes : list KeyValue) (timestamp now : Z)
| OpAddLink (linked_context : SpanContext) (attributes : list KeyValue)
| OpSetStatus (status : StatusCode) (description : str)
| OpUpdateName (name : str)
| OpEnd (end_time now : Z) (taken : bool).
Definition exec (s : SdkSpan) (o : Op) : SdkSpan :=
  match o with
  | OpSetAttribute k v => SetAttribute s k v
  | OpAddEvent n a t now => AddEvent s n a t now
  | OpAddLink c a => AddLink s c a
  | OpSetStatus c d => SetStatus s c d
  | OpUpdateName n => UpdateName s n
  | OpEnd t now taken => End_ s t now taken
  end.
Definition run (s : SdkSpan) (os : list Op) : SdkSpan := fold_left exec os s.

(** ** Reference: a recorder without limits *)

Definition is_end (o : Op) : bool := match o with OpEnd _ _ _ => true | _ => false end.

(** One call, recorded in full. *)
Definition record_op (r : SpanRecord) (o : Op) : SpanRecord :=
  match o with
  | OpSetAttribute k v => with_attributes (sr_attributes r ++ [mkKeyValue k v]) r
  | OpAddEvent n a t now => with_events (sr_events r ++ [mkSpanEvent n (or_now t now) a]) r
  | OpAddLink c a => with_links (sr_links r ++ [mkSpanLink c a]) r
  | OpSetStatus CodeOk _ => with_header (sr_name r) CodeOk [] (sr_end_time r) r
  | OpSetStatus CodeError d =>
      if is_ok (sr_status_code r) then r else with_header (sr_name r) CodeError d (sr_end_time r) r
  | OpSetStatus CodeUnset _ => r
  | OpUpdateName n => with_header n (sr_status_code r) (sr_status_description r) (sr_end_time r) r
  | OpEnd _ _ _ => r
  end.
Definition unlimited (r : SpanRecord) (os : list Op) : SpanRecord := fold_left record_op os r.

(** The calls before the first [End], and that call's times; the destructor's
    [End] when there is none. *)
Fixpoint life (os : list Op) (destroyed : Z) : list Op * Z :=
  match os with
  | [] => ([], or_now 0 destroyed)
  | OpEnd t now _ :: _ => ([], or_now t now)
  | o :: rest => let '(before, at_) := life rest destroyed in (o :: before, at_)
  end.
Definition end_at (t : Z) (r : SpanRecord) : SpanRecord :=
  with_header (sr_name r) (sr_status_code r) (sr_status_description r) t r.

(** ** Limits as the span is built *)

Lemma first_n_snoc {T} limit (l : list T) x :
  0 <= limit → first_n limit (l ++ [x]) = if limit <=? size l then first_n limit l else first_n limit l ++ [x].
Proof.
  intros Hl. unfold first_n, size. destruct (_ <=? _) eqn:E; bool_hyps.
  - by rewrite take_app_le by lia.
  - rewrite (take_ge l), (take_ge (l ++ [x])); [done|rewrite length_app; cbn; lia|lia].
Qed.
Lemma surplus_snoc {T} limit (l : list T) x :
  surplus limit (l ++ [x]) = surplus limit l + (if limit <=? size l then 1 else 0).
Proof. unfold surplus. rewrite size_app. change (size [x]) with 1. destruct (_ <=? _) eqn:E; bool_hyps; lia. Qed.
Lemma leb_size_first_n {T} limit (l : list T) : 0 <= limit → (limit <=? size (first_n limit l)) = (limit <=? size l).
Proof. intros. apply eq_true_iff_eq. rewrite !Z.leb_le. unfold first_n, size. rewrite length_take. lia. Qed.

Lemma build_attributes_spec count limit diag attributes built :
  0 <= count → size built <= count →
  let kept := first_n (count - size built) attributes in
  fst (build_attributes count limit diag attributes built) = built ++ (clip_kv limit <$> kept)
  ∧ ∀ reason, dropped reason (snd (build_attributes count limit diag attributes built))
    = if diag && bool_decide (reason = AttributeValueTruncated) then long_values limit kept else 0.
Proof.
  intros Hc. revert built. induction attributes as [|kv rest IH]; intros built Hb kept; subst kept; cbn [build_attributes].
  { unfold first_n. rewrite take_nil, app_nil_r. split; [done|]. intros reason. by case_match. }
  destruct (_ <=? size built) eqn:E; bool_hyps.
  { assert (count - size built = 0) as -> by lia. unfold first_n. rewrite take_0, app_nil_r.
    split; [done|]. intros reason. by case_match. }
  unfold ClipAttribute. rewrite TruncateStrings_spec.
  destruct (IH (built ++ [clip_kv limit kv])) as [IH1 IH2].
  { rewrite size_app. change (size [_]) with 1. lia. }
  destruct (build_attributes _ _ _ rest _) as [built' calls']. cbn [fst snd] in *.
  change (mkKeyValue (kv_key kv) (clip_value limit (kv_value kv))) with (clip_kv limit kv).
  rewrite size_app in *. change (size [clip_kv limit kv]) with 1 in *.
  replace (count - (size built + 1)) with (count - size built - 1) in * by lia.
  assert (first_n (count - size built) (kv :: rest) = kv :: first_n (count - size built - 1) rest) as ->.
  { unfold first_n. replace (Z.to_nat (count - size built)) with (S (Z.to_nat (count - size built - 1))) by lia. done. }
  split; [rewrite IH1, <- app_assoc; done|]. intros reason. rewrite dropped_app, IH2.
  unfold long_values. rewrite zsum_cons. cbn [compose].
  change (if (0 <? long_strings limit (kv_value kv)) && diag then _ else _)
    with (Count diag AttributeValueTruncated (long_strings limit (kv_value kv))).
  destruct diag; [|by rewrite Count_no_sink]. rewrite dropped_Count by auto with mt. cbn [andb].
  repeat case_bool_decide; try congruence; lia.
Qed.

Lemma built_dropped count limit diag attributes over reason :
  0 <= count → over ≠ AttributeValueTruncated →
  let '(built, calls) := build_attributes count limit diag attributes [] in
  built = clip_kv limit <$> first_n count attributes
  ∧ dropped reason (calls ++ count_surplus diag over attributes built)
    = if diag then (if bool_decide (over = reason) then surplus count attributes else 0)
                   + (if bool_decide (reason = AttributeValueTruncated) then long_values limit (first_n count attributes) else 0)
      else 0.
Proof.
  intros Hc Ho. destruct (build_attributes_spec count limit diag attributes []) as [H1 H2]; [done|done|].
  change (size []) with 0 in *. rewrite Z.sub_0_r in *.
  destruct (build_attributes _ _ _ _ _) as [built calls]. cbn [fst snd] in *. cbn [app] in H1. subst built.
  split; [done|]. rewrite dropped_app, H2. unfold count_surplus.
  assert (size (clip_kv limit <$> first_n count attributes) = size attributes - surplus count attributes) as ->.
  { rewrite size_fmap. unfold first_n, surplus, size. rewrite length_take. lia. }
  destruct diag; [|by rewrite andb_false_r]. cbn [andb].
  replace (size attributes - (size attributes - surplus count attributes)) with (surplus count attributes) by lia.
  assert ((size attributes - surplus count attributes <? size attributes) = (0 <? surplus count attributes)) as ->.
  { apply eq_true_iff_eq. rewrite !Z.ltb_lt. lia. }
  change (if (0 <? surplus count attributes) && true then [(over, surplus count attributes)] else [])
    with (Count true over (surplus count attributes)).
  rewrite dropped_Count by auto with mt. lia.
Qed.

(** How one more attribute, event or link changes what is lost. *)
Definition if_reason (a b : DropReason) (n : Z) : Z := if bool_decide (a = b) then n else 0.

Lemma loss_attribute limits a e l kv reason :
  0 <= attribute_count_limit limits →
  loss limits (a ++ [kv]) e l reason
  = loss limits a e l reason
    + (if attribute_count_limit limits <=? size a then if_reason SpanAttributeLimit reason 1
       else if_reason AttributeValueTruncated reason
              (long_strings (attribute_value_length_limit limits) (kv_value kv))).
Proof.
  intros Hl. unfold if_reason, long_values.
  destruct reason; cbn [loss]; repeat case_bool_decide; try congruence; rewrite ?surplus_snoc, ?first_n_snoc by done;
    destruct (_ <=? size a); unfold long_values; rewrite ?zsum_app, ?zsum_cons; cbn; lia.
Qed.
Lemma loss_event limits a e l ev reason :
  0 <= event_count_limit limits →
  loss limits a (e ++ [ev]) l reason
  = loss limits a e l reason
    + (if event_count_limit limits <=? size e then if_reason SpanEventLimit reason 1
       else if_reason EventAttributeLimit reason (event_surplus limits ev)
            + if_reason AttributeValueTruncated reason (event_long limits ev)).
Proof.
  intros Hl. unfold if_reason.
  destruct reason; cbn [loss]; repeat case_bool_decide; try congruence; rewrite ?surplus_snoc, ?first_n_snoc by done;
    destruct (_ <=? size e); rewrite ?zsum_app, ?zsum_cons; cbn [zsum fold_right]; lia.
Qed.
Lemma loss_link limits a e l lk reason :
  0 <= link_count_limit limits →
  loss limits a e (l ++ [lk]) reason
  = loss limits a e l reason
    + (if link_count_limit limits <=? size l then if_reason SpanLinkLimit reason 1
       else if_reason LinkAttributeLimit reason (link_surplus limits lk)
            + if_reason AttributeValueTruncated reason (link_long limits lk)).
Proof.
  intros Hl. unfold if_reason.
  destruct reason; cbn [loss]; repeat case_bool_decide; try congruence; rewrite ?surplus_snoc, ?first_n_snoc by done;
    destruct (_ <=? size l); rewrite ?zsum_app, ?zsum_cons; cbn [zsum fold_right]; lia.
Qed.

(** A live span is the trimmed image of everything recorded so far. *)
Record live (scope : InstrumentationScope) (limits : SpanLimitOptions) (diag : bool)
    (s : SdkSpan) (u : SpanRecord) : Prop := {
  live_scope : m_scope s = scope;
  live_limits : m_limits s = limits;
  live_diag : m_diagnostics s = diag;
  live_not_ended : m_ended s = false;
  live_on_end : on_end s = [];
  live_record : m_record s = trimmed limits u;
  live_drops : ∀ reason, dropped reason (drops s)
    = if diag then loss limits (sr_attributes u) (sr_events u) (sr_links u) reason else 0
}.

Section live.
Context (scope : InstrumentationScope) (limits : SpanLimitOptions) (diag : bool).
Context (Hlimits : limits_unsigned limits).

(** Both shapes in which the members add to [drops]. *)
Lemma live_update s u r' u' calls :
  live scope limits diag s u → r' = trimmed limits u' →
  (∀ reason, dropped reason calls
    = if diag then loss limits (sr_attributes u') (sr_events u') (sr_links u') reason
                   - loss limits (sr_attributes u) (sr_events u) (sr_links u) reason else 0) →
  live scope limits diag (with_record r' (with_drops calls s)) u'.
Proof.
  intros [] Hr Hd. split; try done. intros reason.
  cbn [drops with_record with_drops]. rewrite dropped_app, Hd, live_drops0.
  destruct diag; lia.
Qed.
Lemma RecordDropped_eq s reason n :
  RecordDropped s reason n = with_drops (if m_diagnostics s then [(reason, n)] else []) s.
Proof.
  unfold RecordDropped, with_drops. destruct s as [? ? [] ? ? ? ?]; cbn; [done|]. by rewrite app_nil_r.
Qed.
Lemma with_record_id s : with_record (m_record s) s = s.
Proof. by destruct s. Qed.
Lemma with_drops_nil s : with_drops [] s = s.
Proof. unfold with_drops. rewrite app_nil_r. by destruct s. Qed.
Lemma dropped_single reason r n : dropped reason [(r, n)] = if_reason r reason n.
Proof. unfold dropped, if_reason. cbn. case_bool_decide; lia. Qed.

(** A rejected item is only counted. *)
Lemma live_reject s u u' over :
  live scope limits diag s u → trimmed limits u' = trimmed limits u →
  (∀ reason, loss limits (sr_attributes u') (sr_events u') (sr_links u') reason
    = loss limits (sr_attributes u) (sr_events u) (sr_links u) reason + if_reason over reason 1) →
  live scope limits diag (RecordDropped s over 1) u'.
Proof.
  intros HL Ht Hloss. rewrite RecordDropped_eq, (live_diag _ _ _ _ _ HL), <- (with_record_id (with_drops _ s)).
  apply (live_update _ u); [done|by rewrite Ht; apply (live_record _ _ _ _ _ HL)|].
  intros reason. rewrite Hloss. destruct diag; [rewrite dropped_single; lia|done].
Qed.

Lemma live_SetAttribute s u k v :
  live scope limits diag s u →
  live scope limits diag (SetAttribute s k v) (record_op u (OpSetAttribute k v)).
Proof.
  intros HL. destruct Hlimits as (H1 & _). unfold is_u32 in H1.
  unfold SetAttribute. rewrite (live_not_ended _ _ _ _ _ HL), (live_limits _ _ _ _ _ HL), (live_record _ _ _ _ _ HL).
  cbn [trimmed set_contents sr_attributes]. rewrite size_fmap, leb_size_first_n by lia.
  pose proof (λ reason, loss_attribute limits (sr_attributes u) (sr_events u) (sr_links u) (mkKeyValue k v) reason
    (proj1 H1)) as Hloss.
  destruct (_ <=? _) eqn:E.
  - apply (live_reject _ u); [done|unfold trimmed; cbn; by rewrite first_n_snoc, E by lia|exact Hloss].
  - rewrite TruncateStrings_spec. set (n := long_strings _ v).
    assert ((if 0 <? n then RecordDropped s AttributeValueTruncated n else s)
      = with_drops (Count diag AttributeValueTruncated n) s) as ->.
    { unfold Count. rewrite RecordDropped_eq, (live_diag _ _ _ _ _ HL).
      by destruct (0 <? n), diag; rewrite ?with_drops_nil. }
    apply (live_update _ u); [done| |].
    + unfold trimmed. cbn. rewrite first_n_snoc, E by lia. by rewrite fmap_app.
    + intros reason. cbn [record_op with_attributes set_contents sr_attributes sr_events sr_links]. rewrite Hloss.
      cbn [kv_value]. fold n. destruct diag; [|by rewrite Count_no_sink].
      rewrite dropped_Count by (unfold n; auto with mt). unfold if_reason. lia.
Qed.

Lemma live_AddEvent s u name attrs t now :
  live scope limits diag s u →
  live scope limits diag (AddEvent s name attrs t now) (record_op u (OpAddEvent name attrs t now)).
Proof.
  intros HL. destruct Hlimits as (_ & H1 & _ & _ & H2 & _). unfold is_u32 in H1, H2.
  unfold AddEvent. rewrite (live_not_ended _ _ _ _ _ HL), (live_limits _ _ _ _ _ HL), (live_record _ _ _ _ _ HL).
  cbn [trimmed set_contents sr_events]. rewrite size_fmap, leb_size_first_n by lia.
  set (ev := mkSpanEvent name (or_now t now) attrs).
  pose proof (λ reason, loss_event limits (sr_attributes u) (sr_events u) (sr_links u) ev reason
    (proj1 H1)) as Hloss.
  destruct (_ <=? _) eqn:E.
  - apply (live_reject _ u); [done|unfold trimmed; cbn; by rewrite first_n_snoc, E by lia|exact Hloss].
  - rewrite (live_diag _ _ _ _ _ HL). unfold BuildEvent.
    pose proof (λ reason, built_dropped (event_attribute_count_limit limits) (attribute_value_length_limit limits)
      diag attrs EventAttributeLimit reason ltac:(lia) ltac:(done)) as Hb.
    destruct (build_attributes _ _ _ _ _) as [built calls]. destruct (Hb QueueFull) as [-> _].
    apply (live_update _ u); [done| |].
    + unfold trimmed. cbn. rewrite first_n_snoc, E by lia. by rewrite fmap_app.
    + intros reason. destruct (Hb reason) as [_ ->].
      cbn [record_op with_events set_contents sr_attributes sr_events sr_links]. fold ev. rewrite Hloss.
      unfold if_reason, event_surplus, event_long. cbn [ev ev_attributes].
      destruct diag; [|done]. repeat case_bool_decide; try congruence; lia.
Qed.

Lemma live_AddLink s u c attrs :
  live scope limits diag s u →
  live scope limits diag (AddLink s c attrs) (record_op u (OpAddLink c attrs)).
Proof.
  intros HL. destruct Hlimits as (_ & _ & H1 & _ & _ & H2). unfold is_u32 in H1, H2.
  unfold AddLink. rewrite (live_not_ended _ _ _ _ _ HL), (live_limits _ _ _ _ _ HL), (live_record _ _ _ _ _ HL).
  cbn [trimmed set_contents sr_links]. rewrite size_fmap, leb_size_first_n by lia.
  set (lk := mkSpanLink c attrs).
  pose proof (λ reason, loss_link limits (sr_attributes u) (sr_events u) (sr_links u) lk reason
    (proj1 H1)) as Hloss.
  destruct (_ <=? _) eqn:E.
  - apply (live_reject _ u); [done|unfold trimmed; cbn; by rewrite first_n_snoc, E by lia|exact Hloss].
  - rewrite (live_diag _ _ _ _ _ HL). unfold BuildLink.
    pose proof (λ reason, built_dropped (link_attribute_count_limit limits) (attribute_value_length_limit limits)
      diag attrs LinkAttributeLimit reason ltac:(lia) ltac:(done)) as Hb.
    destruct (build_attributes _ _ _ _ _) as [built calls]. destruct (Hb QueueFull) as [-> _].
    apply (live_update _ u); [done| |].
    + unfold trimmed. cbn. rewrite first_n_snoc, E by lia. by rewrite fmap_app.
    + intros reason. destruct (Hb reason) as [_ ->].
      cbn [record_op with_links set_contents sr_attributes sr_events sr_links]. fold lk. rewrite Hloss.
      unfold if_reason, link_surplus, link_long. cbn [lk ln_attributes].
      destruct diag; [|done]. repeat case_bool_decide; try congruence; lia.
Qed.

(** Changes of name and status leave the contents alone. *)
Lemma live_header s u name status description :
  live scope limits diag s u →
  live scope limits diag
    (with_record (with_header name status description (sr_end_time (m_record s)) (m_record s)) s)
    (with_header name status description (sr_end_time u) u).
Proof.
  intros HL. rewrite <- (with_drops_nil s) at 3. apply (live_update _ u); [done| |].
  - by rewrite (live_record _ _ _ _ _ HL).
  - intros reason. cbn. destruct diag; [|done]. rewrite Z.sub_diag. done.
Qed.

Lemma live_exec s u o : is_end o = false → live scope limits diag s u → live scope limits diag (exec s o) (record_op u o).
Proof.
  intros Ho HL. destruct o as [k v|n a t now|c a|c d|n|]; cbn [exec]; [by apply live_SetAttribute|by apply live_AddEvent
    |by apply live_AddLink| | |done].
  - unfold SetStatus. rewrite (live_not_ended _ _ _ _ _ HL).
    assert (sr_status_code (m_record s) = sr_status_code u ∧ sr_name (m_record s) = sr_name u) as [Hs Hn]
      by (rewrite (live_record _ _ _ _ _ HL); done).
    rewrite Hs, Hn. destruct c; cbn [record_op]; [done| |destruct (is_ok _); [done|]]; by apply live_header.
  - unfold UpdateName. rewrite (live_not_ended _ _ _ _ _ HL).
    assert (sr_status_code (m_record s) = sr_status_code u ∧ sr_status_description (m_record s) = sr_status_description u)
      as [-> ->] by (rewrite (live_record _ _ _ _ _ HL); done).
    by apply live_header.
Qed.
Lemma live_run s u os :
  forallb (negb ∘ is_end) os = true → live scope limits diag s u →
  live scope limits diag (run s os) (unlimited u os).
Proof.
  revert s u. induction os as [|o os IH]; intros s u H HL; [done|]. cbn in *. bool_hyps.
  apply IH; [done|]. by apply live_exec.
Qed.
End live.

Definition base_record (context parent : SpanContext) (name : str) (kind : SpanKind) (start : Z) : SpanRecord :=
  mkSpanRecord context parent name kind CodeUnset [] start 0 [] [] [] None.

Section lifetime.
Context (context parent : SpanContext) (name : str) (kind : SpanKind) (start now : Z).
Context (scope : InstrumentationScope) (limits : SpanLimitOptions) (diag : bool).
Definition fresh : SdkSpan := SdkSpan_new context parent name kind start now scope limits diag.
Definition base : SpanRecord := base_record context parent name kind (or_now start now).
Context (Hlimits : limits_unsigned limits).

Lemma live_new : live scope limits diag fresh base.
Proof.
  split; try done.
  - unfold trimmed, first_n. cbn. by rewrite !take_nil.
  - destruct Hlimits as (H1 & H2 & H3 & _). unfold is_u32 in *. intros reason. destruct diag; [|done].
    destruct reason; cbn; unfold first_n, long_values, surplus; rewrite ?take_nil; cbn; change (size []) with 0; lia.
Qed.

Lemma run_ended s os : m_ended s = true → run s os = s.
Proof.
  intros H. induction os as [|o os IH]; [done|]. unfold run in *. cbn [fold_left].
  replace (exec s o) with s; [done|].
  destruct o; cbn [exec]; unfold SetAttribute, AddEvent, AddLink, SetStatus, UpdateName, End_; by rewrite H.
Qed.

Lemma life_spec os destroyed before t :
  life os destroyed = (before, t) →
  forallb (negb ∘ is_end) before = true
  ∧ ((os = before ∧ t = or_now 0 destroyed)
     ∨ ∃ e n taken after, os = before ++ OpEnd e n taken :: after ∧ t = or_now e n).
Proof.
  revert before t. induction os as [|o os IH]; intros before t; cbn [life]; [intros [= <- <-]; auto|].
  destruct (is_end o) eqn:Eo.
  - destruct o; try done. intros [= <- <-]. split; [done|]. right. by eexists _, _, _, _.
  - destruct (life os destroyed) as [b t'] eqn:E. specialize (IH b t' eq_refl) as [Hb IH].
    intros H. assert (before = o :: b ∧ t = t') as [-> ->] by (by destruct o; try done; injection H).
    split; [cbn; by rewrite Eo|]. destruct IH as [[-> ->]|(e & n & tk & after & -> & ->)]; [auto|].
    right. by eexists _, _, _, _.
Qed.

(** What [End] hands over, from a live span. *)
Lemma End_live s u e n taken :
  live scope limits diag s u →
  m_ended (End_ s e n taken) = true ∧ drops (End_ s e n taken) = drops s
  ∧ on_end (End_ s e n taken) = [(end_at (or_now e n) (trimmed limits u), scope)].
Proof.
  intros HL. unfold End_. rewrite (live_not_ended _ _ _ _ _ HL). cbn [m_ended drops on_end]. split_and!; [done..|].
  by rewrite (live_on_end _ _ _ _ _ HL), (live_scope _ _ _ _ _ HL), (live_record _ _ _ _ _ HL).
Qed.

Lemma lifetime os destroyed taken before t :
  life os destroyed = (before, t) →
  let final := SdkSpan_destroy (run fresh os) destroyed taken in
  m_ended final = true
  ∧ on_end final = [(end_at t (trimmed limits (unlimited base before)), scope)]
  ∧ ∀ reason, dropped reason (drops final)
      = if diag then loss limits (sr_attributes (unlimited base before)) (sr_events (unlimited base before))
                       (sr_links (unlimited base before)) reason else 0.
Proof.
  intros Hlife. apply life_spec in Hlife as [Hb Hcase]. cbn zeta.
  pose proof (live_run _ _ _ Hlimits _ _ _ Hb live_new) as HL.
  destruct Hcase as [[-> ->]|(e & n & tk & after & -> & ->)].
  - destruct (End_live _ _ 0 destroyed taken HL) as (H1 & H2 & H3). unfold SdkSpan_destroy.
    split_and!; [done..|]. intros reason. rewrite H2. apply HL.
  - destruct (End_live _ _ e n tk HL) as (H1 & H2 & H3).
    assert (SdkSpan_destroy (run fresh (before ++ OpEnd e n tk :: after)) destroyed taken
            = End_ (run fresh before) e n tk) as ->.
    { unfold run. rewrite fold_left_app. cbn [fold_left exec]. fold (run fresh before).
      fold (run (End_ (run fresh before) e n tk) after). rewrite run_ended by done.
      unfold SdkSpan_destroy. unfold End_ at 1. by rewrite H1. }
    split_and!; [done..|]. intros reason. rewrite H2. apply HL.
Qed.
End lifetime.

(** C12: a span enforces its limits call by call exactly as trimming would: for
    every sequence of calls before [End], its record is [ApplySpanLimits] of the
    record that keeps everything, and for every reason the diagnostics sink has
    been told the same number.  So leaf spans, which are trimmed, and local spans,
    which are built under the limits, are treated alike. *)
Theorem span_limits_equivalence context parent name kind start now scope limits diag os :
  limits_unsigned limits → forallb (negb ∘ is_end) os = true →
  let s := run (SdkSpan_new context parent name kind start now scope limits diag) os in
  let everything := unlimited (base_record context parent name kind (or_now start now)) os in
  m_record s = fst (ApplySpanLimits everything limits diag)
  ∧ ∀ reason, dropped reason (drops s) = dropped reason (snd (ApplySpanLimits everything limits diag)).
Proof.
  intros Hl Ho s everything. destruct (ApplySpanLimits_spec everything limits diag Hl) as [-> Hd].
  pose proof (live_run _ _ _ Hl _ _ _ Ho (live_new context parent name kind start now scope limits diag Hl)) as HL.
  split; [apply HL|]. intros reason. rewrite Hd. apply HL.
Qed.

Definition demo_limits : SpanLimitOptions := mkSpanLimitOptions 1 1 1 3 1 1.
Definition demo_ops : list Op :=
  [OpSetAttribute $"a" (AvString $"long"); OpAddEvent $"e" [mkKeyValue $"k" (AvInt 1); mkKeyValue $"l" (AvInt 2)] 0 7;
   OpSetAttribute $"b" (AvInt 1); OpSetStatus CodeError $"bad"; OpUpdateName $"renamed"].

Lemma span_limits_equivalence_witness :
  let s := run (SdkSpan_new SpanContext_default SpanContext_default $"n" KindServer 0 5 (mkScope [] []) demo_limits true) demo_ops in
  sr_attributes (m_record s) = [mkKeyValue $"a" (AvString $"lon")]
  ∧ dropped EventAttributeLimit (drops s) = 1 ∧ dropped AttributeValueTruncated (drops s) = 1.
Proof.
  cbn zeta.
  destruct (span_limits_equivalence SpanContext_default SpanContext_default $"n" KindServer 0 5 (mkScope [] [])
    demo_limits true demo_ops) as [H1 H2]; [repeat split; (done || width_lia)|done|].
  rewrite H1, !H2. done.
Defined.

(** C13: a recorded span is handed to the processor exactly once, whatever the
    sequence of calls and whoever ends it: an explicit [End] or the destructor.
    What is handed over is the span as it stood at the first [End], stamped with
    its end time, and nothing called after that changes it, counts a drop or
    reaches the processor. *)
Theorem span_ends_once context parent name kind start now scope limits diag os destroyed taken before t later :
  limits_unsigned limits → life os destroyed = (before, t) →
  let span := SdkSpan_new context parent name kind start now scope limits diag in
  let final := SdkSpan_destroy (run span os) destroyed taken in
  on_end final = [(end_at t (m_record (run span before)), scope)]
  ∧ (∀ reason, dropped reason (drops final) = dropped reason (drops (run span before)))
  ∧ run final later = final.
Proof.
  intros Hl Hlife span final. change span with (fresh context parent name kind start now scope limits diag) in *.
  destruct (lifetime context parent name kind start now scope limits diag Hl os destroyed taken before t Hlife)
    as (H1 & H2 & H3).
  apply life_spec in Hlife as [Hb _].
  pose proof (live_run _ _ _ Hl _ _ _ Hb (live_new context parent name kind start now scope limits diag Hl)) as HL.
  split_and!; [|intros reason|by apply run_ended].
  - rewrite (live_record _ _ _ _ _ HL). exact H2.
  - rewrite (live_drops _ _ _ _ _ HL). apply H3.
Qed.

Lemma span_ends_once_witness :
  let span := SdkSpan_new SpanContext_default SpanContext_default $"n" KindServer 3 5 (mkScope [] []) demo_limits true in
  on_end (SdkSpan_destroy (run span (demo_ops ++ [OpEnd 0 9 true; OpUpdateName $"late"; OpEnd 11 12 true])) 20 true)
  = [(end_at 9 (m_record (run span demo_ops)), mkScope [] [])].
Proof.
  cbn zeta. eapply span_ends_once with (later := []); [repeat split; (done || width_lia)|reflexivity].
Defined.

(** Every value a call carries is well-formed UTF-8. *)
Definition op_utf8 (o : Op) : Prop :=
  match o with
  | OpSetAttribute _ v => value_utf8 v
  | OpAddEvent _ a _ _ | OpAddLink _ a => attributes_utf8 a
  | _ => True
  end.

Lemma record_op_utf8 r o : op_utf8 o → record_utf8 r → record_utf8 (record_op r o).
Proof.
  intros Ho (Ha & He & Hl). destruct o as [| | |[] d| |]; cbn in *; try done; try (by destruct (is_ok _));
    split_and!; try done; cbn; unfold attributes_utf8; apply Forall_app; (split; [done|]); by repeat constructor.
Qed.
Lemma unlimited_utf8 os r : Forall op_utf8 os → record_utf8 r → record_utf8 (unlimited r os).
Proof.
  intros H. revert r. induction H as [|o os Ho _ IH]; intros r Hr; [done|]. apply IH. by apply record_op_utf8.
Qed.
Lemma life_prefix os destroyed before t : life os destroyed = (before, t) → before `prefix_of` os.
Proof.
  intros H. apply life_spec in H as [_ [[-> _]|(e & n & tk & after & -> & _)]]; [done|]. by eexists.
Qed.

(** The type of an exported span: whatever is called on a span, the record
    the processor receives respects every count and length limit, in the span and
    in each event and link, and if the caller passed well-formed UTF-8 then
    every string value in it is well-formed UTF-8. *)
Theorem exported_span_type context parent name kind start now scope limits diag os destroyed taken r sc :
  limits_unsigned limits →
  (r, sc) ∈ on_end (SdkSpan_destroy
    (run (SdkSpan_new context parent name kind start now scope limits diag) os) destroyed taken) →
  record_within limits r ∧ (Forall op_utf8 os → record_utf8 r).
Proof.
  intros Hl Hin. destruct (life os destroyed) as [before t] eqn:Hlife.
  destruct (lifetime context parent name kind start now scope limits diag Hl os destroyed taken before t Hlife)
    as (_ & Hend & _).
  unfold fresh in Hend. rewrite Hend in Hin. apply list_elem_of_singleton in Hin. injection Hin as -> ->.
  split; [apply (trimmed_within limits (unlimited _ before) Hl)|]. intros Hu.
  apply (trimmed_utf8 limits (unlimited _ before)). apply unlimited_utf8; [|by repeat constructor].
  destruct (life_prefix _ _ _ _ Hlife) as [rest ->]. by apply Forall_app in Hu as [].
Qed.

Lemma exported_span_type_witness :
  ∃ r, record_within demo_limits r ∧ size (sr_attributes r) = 1.
Proof.
  eexists. split; [|shelve].
  eapply (exported_span_type SpanContext_default SpanContext_default $"n" KindServer 3 5 (mkScope [] [])
    demo_limits true demo_ops 20 true); [repeat split; (done || width_lia)|].
  vm_compute. apply list_elem_of_singleton. reflexivity.
  Unshelve. reflexivity.
Defined.

(** ** Status and context *)

Definition status_calls (os : list Op) : list (StatusCode * str) :=
  omap (λ o, match o with OpSetStatus c d => Some (c, d) | _ => None end) os.
(** [Ok] is final; otherwise the last [Error] wins; [Unset] is ignored. *)
Definition final_status (calls : list (StatusCode * str)) : StatusCode * str :=
  if existsb (is_ok ∘ fst) calls then (CodeOk, [])
  else match last (List.filter (λ c, match fst c with CodeError => true | _ => false end) calls) with
       | Some c => c
       | None => (CodeUnset, [])
       end.

Lemma final_status_snoc calls c d :
  final_status (calls ++ [(c, d)])
  = match c with
    | CodeOk => (CodeOk, [])
    | CodeError => if is_ok (fst (final_status calls)) then final_status calls else (CodeError, d)
    | CodeUnset => final_status calls
    end.
Proof.
  assert (existsb (is_ok ∘ fst) calls = is_ok (fst (final_status calls))) as Hok.
  { unfold final_status. destruct (existsb _ _) eqn:E; [done|]. destruct (last _) as [[c' d']|] eqn:El; [|done].
    apply last_Some in El as [l El].
    assert ((c', d') ∈ List.filter (λ c, match fst c with CodeError => true | _ => false end) calls) as Hin
      by (rewrite El; set_solver).
    apply list_elem_of_In, filter_In in Hin as [_ Hc]. by destruct c'. }
  unfold final_status at 1. rewrite existsb_app, List.filter_app, Hok.
  destruct c; cbn [existsb compose fst is_ok List.filter orb]; rewrite ?orb_false_r, ?orb_true_r, ?app_nil_r; [|done|].
  - unfold final_status in *. destruct (existsb _ calls); rewrite <- Hok; done.
  - rewrite last_snoc. destruct (is_ok _) eqn:E; [|done]. unfold final_status in *. by rewrite Hok.
Qed.

Lemma unlimited_status os r :
  sr_status_code r = CodeUnset → sr_status_description r = [] →
  (sr_status_code (unlimited r os), sr_status_description (unlimited r os)) = final_status (status_calls os).
Proof.
  intros Hc Hd. induction os as [|o os IH] using rev_ind; [cbn; by rewrite Hc, Hd|].
  unfold unlimited, status_calls in *. rewrite fold_left_app, omap_app. cbn [fold_left].
  set (u := fold_left record_op os r) in *. destruct o as [| | |c d| |]; cbn [omap list_omap]; rewrite ?app_nil_r; try done.
  rewrite final_status_snoc, <- IH. destruct c; cbn [record_op]; [done|done|]. cbn [fst]. by destruct (is_ok _).
Qed.

(** The status of a span is the first [Ok] if there is one, else the last
    [Error] with its description: a later [Error] replaces an earlier one. *)
Theorem span_status_spec context parent name kind start now scope limits diag os :
  limits_unsigned limits → forallb (negb ∘ is_end) os = true →
  let r := m_record (run (SdkSpan_new context parent name kind start now scope limits diag) os) in
  (sr_status_code r, sr_status_description r) = final_status (status_calls os).
Proof.
  intros Hl Ho r.
  pose proof (live_run _ _ _ Hl _ _ _ Ho (live_new context parent name kind start now scope limits diag Hl)) as HL.
  apply live_record in HL. unfold r. unfold fresh in HL. rewrite HL. by apply unlimited_status.
Qed.

Lemma span_status_spec_witness :
  let span := SdkSpan_new SpanContext_default SpanContext_default $"n" KindServer 3 5 (mkScope [] []) demo_limits true in
  sr_status_description (m_record (run span [OpSetStatus CodeError $"first"; OpSetStatus CodeError $"second"])) = $"second".
Proof.
  pose proof (span_status_spec SpanContext_default SpanContext_default $"n" KindServer 3 5 (mkScope [] []) demo_limits true
    [OpSetStatus CodeError $"first"; OpSetStatus CodeError $"second"]) as H.
  apply (f_equal snd) in H; [exact H|repeat split; (done || width_lia)|done].
Defined.

(** After [End] has handed its record over, [GetContext] keeps the identifiers
    and flags but no longer the trace state. *)
Theorem context_after_end s e n :
  m_ended s = false →
  GetContext (End_ s e n true) = moved_context (GetContext s) ∧ GetContext (End_ s e n false) = GetContext s.
Proof. intros H. unfold GetContext, End_. by rewrite H. Qed.

Definition stateful_context : SpanContext :=
  mkSpanContext (replicate 16 1) (replicate 8 1) 1 (TraceState.FromHeader $"k=v") false.
Lemma context_after_end_witness :
  let s := SdkSpan_new stateful_context SpanContext_default $"n" KindServer 3 5 (mkScope [] []) demo_limits true in
  GetContext (End_ s 0 9 true) ≠ GetContext s.
Proof.
  intros s. rewrite (proj1 (context_after_end s 0 9 eq_refl)). vm_compute. discriminate.
Defined.

(** ** [SdkTracer] *)

Record StartSpanOptions := mkStartSpanOptions {
  so_kind : SpanKind;
  so_parent : option SpanContext;
  so_start_time : Z;
  so_attributes : list KeyValue
}.
Record SdkTracer := mkSdkTracer {
  t_sampler : Sampler;
  t_scope : InstrumentationScope;
  t_limits : SpanLimitOptions;
  t_diagnostics : bool
}.
(** What [StartSpanInternal] did: the parent it resolved, [*started], the handle
    ([None] is the no-op singleton) and the [OnStart] call. *)
Record Started := mkStarted {
  st_parent : SpanContext;
  st_context : SpanContext;
  st_handle : option SdkSpan;
  st_on_start : option Context
}.

(** [SeedAttributes]. *)
Definition SeedAttributes (span : SdkSpan) (attributes : list KeyValue) : SdkSpan :=
  fold_left (λ s kv, SetAttribute s (kv_key kv) (kv_value kv)) attributes span.
(** [ResolveTraceState]. *)
Definition ResolveTraceState (result : SamplingResult) (parent : SpanContext) : TraceState.TraceState :=
  match sr_trace_state result with
  | Some ts => ts
  | None => if SpanContext_IsValid parent then trace_state parent else TraceState_default
  end.

Section tracer.
(** [draw k] is the [k]-th output of the thread's [tl_rng]; the number of outputs
    consumed is threaded through. *)
Context (draw : nat → Z).

Definition GenerateSpanId (pos : nat) : list Z * nat := (le_bytes 8 (draw pos), S pos).
Definition GenerateTraceId (pos : nat) : list Z * nat :=
  (le_bytes 8 (draw pos) ++ le_bytes 8 (draw (S pos)), S (S pos)).

(** [StartSpanInternal] on a thread whose current context is [cur]; [alloc] says
    whether [new (std::nothrow)] succeeded.  [None]: the sampler dereferenced a
    null root. *)
Definition StartSpanInternal (t : SdkTracer) (cur : Context) (name : str) (opts : StartSpanOptions)
    (now : Z) (alloc : bool) (pos : nat) : option (Started * nat) :=
  let parent_ctx := match so_parent opts with Some p => p | None => active_span_context cur end in
  let '(tid, pos1) :=
    if SpanContext_IsValid parent_ctx then (trace_id parent_ctx, pos) else GenerateTraceId pos in
  let '(sid, pos2) := GenerateSpanId pos1 in
  match ShouldSample (t_sampler t)
          (mkSamplingContext parent_ctx (so_kind opts) name (so_attributes opts) [] tid) with
  | None => None
  | Some result =>
      let sampled := bool_decide (decision result = RecordAndSample) in
      let ctx := mkSpanContext tid sid (if sampled then kSampled else 0)
                   (ResolveTraceState result parent_ctx) false in
      if bool_decide (decision result = Drop) || negb alloc
      then Some (mkStarted parent_ctx ctx None None, pos2)
      else
        let raw := SdkSpan_new ctx parent_ctx name (so_kind opts) (so_start_time opts) now
                     (t_scope t) (t_limits t) (t_diagnostics t) in
        let raw := SeedAttributes raw (so_attributes opts) in
        let raw := SeedAttributes raw (additional_attributes result) in
        Some (mkStarted parent_ctx ctx (Some raw) (Some (mkContext parent_ctx (baggage cur))), pos2)
  end.

(** [StartSpan]: the handle. *)
Definition StartSpan (t : SdkTracer) (th : Thread) (name : str) (opts : StartSpanOptions)
    (now : Z) (alloc : bool) (pos : nat) : option (option SdkSpan * nat) :=
  match StartSpanInternal t (CurrentContext th) name opts now alloc pos with
  | None => None
  | Some (st, pos') => Some (st_handle st, pos')
  end.
(** [StartAsCurrentSpan]: the scope's handle, and the thread with the started
    context installed by the scope's guard. *)
Definition StartAsCurrentSpan (t : SdkTracer) (th : Thread) (name : str) (opts : StartSpanOptions)
    (now : Z) (alloc : bool) (pos : nat) : option (Started * Thread * nat) :=
  match StartSpanInternal t (CurrentContext th) name opts now alloc pos with
  | None => None
  | Some (st, pos') =>
      Some (st, Context.exec th (Install (mkContext (st_context st) (baggage (CurrentContext th)))), pos')
  end.
(** Destruction of the innermost [ScopedSpan]: the span ends, then the guard
    restores. *)
Definition ScopedSpan_destroy (handle : option SdkSpan) (th : Thread) (now : Z) (taken : bool)
    : option SdkSpan * Thread :=
  ((λ s, SdkSpan_destroy s now taken) <$> handle, Context.exec th (Destroy 0)).
End tracer.

Lemma SeedAttributes_run s l : SeedAttributes s l = run s ((λ kv, OpSetAttribute (kv_key kv) (kv_value kv)) <$> l).
Proof. unfold SeedAttributes, run. revert s. induction l as [|kv l IH]; intros s; [done|]. cbn. apply IH. Qed.
Lemma unlimited_seed r l :
  unlimited r ((λ kv, OpSetAttribute (kv_key kv) (kv_value kv)) <$> l) = with_attributes (sr_attributes r ++ l) r.
Proof.
  revert r. induction l as [|kv l IH]; intros r; cbn [fmap list_fmap unlimited fold_left].
  - rewrite app_nil_r. by destruct r.
  - unfold unlimited in IH. rewrite IH. cbn. rewrite <- app_assoc. by destruct kv.
Qed.

Lemma le_bytes_valid n v : 0 < v < 2 ^ (8 * Z.of_nat n) → Trace.IsValid (le_bytes n v) = true.
Proof.
  revert v. induction n as [|n IH]; intros v Hv; [cbn in Hv; lia|]. cbn [le_bytes Trace.IsValid].
  destruct (v mod 256 =? 0) eqn:E; bool_hyps; cbn [negb]; [|done].
  apply IH. replace (8 * Z.of_nat (S n)) with (8 * Z.of_nat n + 8) in Hv by lia.
  rewrite Z.pow_add_r in Hv by lia. change (2 ^ 8) with 256 in Hv.
  pose proof (Z.div_mod v 256). split; [lia|]. apply Z.div_lt_upper_bound; lia.
Qed.
Lemma IsValid_app a b : Trace.IsValid (a ++ b) = Trace.IsValid a || Trace.IsValid b.
Proof. induction a as [|x a IH]; cbn; [done|]. by destruct (x =? 0). Qed.

(** A fresh span with its start-time attributes. *)
Lemma seeded_span ctx parent name kind start now scope limits diag a b :
  limits_unsigned limits →
  let s := SeedAttributes (SeedAttributes (SdkSpan_new ctx parent name kind start now scope limits diag) a) b in
  GetContext s = ctx ∧ sr_parent_context (m_record s) = parent ∧ m_ended s = false
  ∧ sr_attributes (m_record s)
    = clip_kv (attribute_value_length_limit limits) <$> first_n (attribute_count_limit limits) (a ++ b).
Proof.
  intros Hl. cbn zeta. rewrite !SeedAttributes_run. unfold run. rewrite <- fold_left_app, <- fmap_app.
  set (os := (_ <$> _) : list Op).
  assert (forallb (negb ∘ is_end) os = true) as Ho
    by (apply forallb_forall; intros o [kv [<- _]]%in_map_iff; done).
  pose proof (live_run scope limits diag Hl _ _ _ Ho (live_new ctx parent name kind start now scope limits diag Hl)) as HL.
  unfold run, fresh in HL. unfold GetContext. rewrite (live_record _ _ _ _ _ HL), (live_not_ended _ _ _ _ _ HL).
  unfold os. by rewrite unlimited_seed.
Qed.

(** What starting a span does.  The parent is the explicit one, even an
    invalid one, else the thread's current span; a valid parent's trace is
    joined; the sampler is asked about exactly that trace and decides the sampled
    flag, whether a recording span exists at all, and may override the trace
    state; initial and sampler attributes share one limit; the processor is
    notified of recording spans only, with the resolved parent and the thread's
    baggage. *)
Theorem start_span_spec draw t cur name opts now alloc pos st pos' :
  limits_unsigned (t_limits t) →
  StartSpanInternal draw t cur name opts now alloc pos = Some (st, pos') →
  let ctx := st_context st in
  let parent := match so_parent opts with Some p => p | None => active_span_context cur end in
  st_parent st = parent ∧ remote ctx = false
  ∧ (SpanContext_IsValid parent = true → trace_id ctx = trace_id parent)
  ∧ ∃ result,
      ShouldSample (t_sampler t)
        (mkSamplingContext parent (so_kind opts) name (so_attributes opts) [] (trace_id ctx)) = Some result
      ∧ IsSampled (trace_flags ctx) = bool_decide (decision result = RecordAndSample)
      ∧ trace_state ctx = ResolveTraceState result parent
      ∧ (st_handle st = None ↔ decision result = Drop ∨ alloc = false)
      ∧ ∀ s, st_handle st = Some s →
          GetContext s = ctx ∧ sr_parent_context (m_record s) = parent ∧ m_ended s = false
          ∧ sr_attributes (m_record s)
            = clip_kv (attribute_value_length_limit (t_limits t))
              <$> first_n (attribute_count_limit (t_limits t)) (so_attributes opts ++ additional_attributes result)
          ∧ st_on_start st = Some (mkContext parent (baggage cur)).
Proof.
  intros Hl. unfold StartSpanInternal. set (parent := match so_parent opts with Some p => p | None => _ end).
  set (gen := if SpanContext_IsValid parent then _ else _). destruct gen as [tid pos1] eqn:Eg. cbn [GenerateSpanId].
  destruct (ShouldSample _ _) as [result|] eqn:Er; [|done].
  assert (SpanContext_IsValid parent = true → tid = trace_id parent) as Htid.
  { intros Hv. unfold gen in Eg. rewrite Hv in Eg. by injection Eg. }
  set (flags := if bool_decide (decision result = RecordAndSample) then kSampled else 0).
  assert (IsSampled flags = bool_decide (decision result = RecordAndSample)) as Hf.
  { unfold flags. by case_bool_decide. }
  destruct (bool_decide (decision result = Drop) || negb alloc) eqn:Ed; intros [= <- <-];
    cbn [st_parent st_context st_handle st_on_start trace_id trace_flags trace_state remote].
  - split_and!; [done..|]. exists result. split_and!; [done..| |done]. split; [|done]. intros _.
    apply orb_true_iff in Ed as [Hd|Ha]; bool_hyps; auto.
  - split_and!; [done..|]. exists result. split_and!; [done..| |].
    + split; [done|]. intros H. apply orb_false_iff in Ed as [Hd Ha]. bool_hyps. destruct H; congruence.
    + intros s [= <-].
      destruct (seeded_span (mkSpanContext tid (le_bytes 8 (draw pos1)) flags (ResolveTraceState result parent) false)
        parent name (so_kind opts) (so_start_time opts) now (t_scope t) (t_limits t) (t_diagnostics t)
        (so_attributes opts) (additional_attributes result) Hl) as (H1 & H2 & H3 & H4).
      split_and!; done.
Qed.

Definition demo_draw (k : nat) : Z := Z.of_nat k * 1000003 + 17.
Definition demo_tracer (s : Sampler) : SdkTracer := mkSdkTracer s (mkScope $"lib" []) demo_limits true.
Definition plain_options : StartSpanOptions := mkStartSpanOptions KindInternal None 0 [].

Lemma start_span_spec_witness :
  let opts := mkStartSpanOptions KindServer (Some stateful_context) 0 [mkKeyValue $"a" (AvString $"long")] in
  ∃ st pos', StartSpanInternal demo_draw (demo_tracer AlwaysOn) Context_default $"op" opts 5 true 0 = Some (st, pos')
    ∧ trace_id (st_context st) = replicate 16 1.
Proof.
  cbn zeta. eexists _, _. split; [vm_compute; reflexivity|].
  eapply (start_span_spec demo_draw (demo_tracer AlwaysOn) Context_default $"op"
    (mkStartSpanOptions KindServer (Some stateful_context) 0 [mkKeyValue $"a" (AvString $"long")]) 5 true 0);
    [repeat split; (done || width_lia)|vm_compute; reflexivity|reflexivity].
Defined.

(** ** Nested scopes *)

(** Scopes opened one inside the other on a thread, none naming a parent. *)
Fixpoint start_nested (draw : nat → Z) (t : SdkTracer) (th : Thread)
    (specs : list (str * StartSpanOptions * Z * bool)) (pos : nat) : option (list Started * Thread * nat) :=
  match specs with
  | [] => Some ([], th, pos)
  | (name, opts, now, alloc) :: rest =>
      match StartAsCurrentSpan draw t th name opts now alloc pos with
      | None => None
      | Some (st, th', pos') =>
          match start_nested draw t th' rest pos' with
          | None => None
          | Some (l, th'', pos'') => Some (st :: l, th'', pos'')
          end
      end
  end.
(** Closing scopes, innermost first. *)
Fixpoint close_nested (n : nat) (th : Thread) : Thread :=
  match n with O => th | S n' => close_nested n' (snd (ScopedSpan_destroy None th 0 false)) end.

(** Each scope is parented by the one around it, in the same trace. *)
Fixpoint linked (outer : SpanContext) (l : list Started) : Prop :=
  match l with
  | [] => True
  | st :: rest => st_parent st = outer ∧ trace_id (st_context st) = trace_id outer ∧ linked (st_context st) rest
  end.

Section nested.
Context (draw : nat → Z) (Hdraw : ∀ k, 0 < draw k < 2 ^ 64) (t : SdkTracer).

Lemma started_facts cur name opts now alloc pos st pos' :
  so_parent opts = None → StartSpanInternal draw t cur name opts now alloc pos = Some (st, pos') →
  st_parent st = active_span_context cur
  ∧ (SpanContext_IsValid (active_span_context cur) = true → trace_id (st_context st) = trace_id (active_span_context cur))
  ∧ SpanContext_IsValid (st_context st) = true.
Proof.
  intros Hp. unfold StartSpanInternal. rewrite Hp. unfold GenerateSpanId, GenerateTraceId.
  set (parent := active_span_context cur).
  set (gen := if SpanContext_IsValid parent then _ else _). destruct gen as [tid pos1] eqn:Eg.
  assert (Trace.IsValid tid = true ∧ (SpanContext_IsValid parent = true → tid = trace_id parent)) as [Hv Ht].
  { unfold gen in Eg. destruct (SpanContext_IsValid parent) eqn:E; apply (f_equal fst) in Eg; cbn [fst] in Eg; subst tid.
    - unfold SpanContext_IsValid in E. by bool_hyps.
    - split; [|done]. rewrite IsValid_app, (le_bytes_valid 8) by apply Hdraw. done. }
  destruct (ShouldSample _ _) as [result|]; [|done].
  destruct (_ || negb alloc); intros [= <- <-]; (split_and!; [done|done|]);
    unfold SpanContext_IsValid; cbn [st_context trace_id span_id]; rewrite Hv; apply (le_bytes_valid 8), Hdraw.
Qed.

Lemma nested_facts specs th pos l th' pos' :
  Forall (λ s, so_parent s.1.1.2 = None) specs → start_nested draw t th specs pos = Some (l, th', pos') →
  let cur := active_span_context (CurrentContext th) in
  (SpanContext_IsValid cur = true → linked cur l)
  ∧ match l with
    | [] => True
    | st :: rest => st_parent st = cur ∧ SpanContext_IsValid (st_context st) = true ∧ linked (st_context st) rest
    end
  ∧ baggage (CurrentContext th') = baggage (CurrentContext th)
  ∧ close_nested (length l) th' = th.
Proof.
  intros Hs. revert th pos l th' pos'. induction Hs as [|[[[name opts] now] alloc] specs Ho _ IH]; intros th pos l th' pos'.
  { intros [= <- <- <-]. done. }
  cbn [start_nested]. unfold StartAsCurrentSpan.
  destruct (StartSpanInternal _ _ _ _ _ _ _ _) as [[st pos1]|] eqn:Es; [|done].
  destruct (start_nested _ _ _ specs pos1) as [[[l1 th1] pos2]|] eqn:En; [|done]. intros [= <- <- <-].
  destruct (started_facts _ _ _ _ _ _ _ _ Ho Es) as (H1 & H2 & H3).
  destruct (IH _ _ _ _ _ En) as (I1 & _ & I3 & I4). cbn [CurrentContext Context.exec ScopedContext_install tl_current
    active_span_context baggage] in *. cbn zeta in *.
  split; [|split; [split_and!; [done|done|by apply I1]|split; [done|]]].
  - intros Hv. split_and!; [done|by apply H2|by apply I1].
  - assert (∀ n th0, close_nested (S n) th0 = snd (ScopedSpan_destroy None (close_nested n th0) 0 false)) as Hc.
    { clear. induction n as [|n IHn]; intros th0; [done|]. exact (IHn (snd (ScopedSpan_destroy None th0 0 false))). }
    cbn [length]. rewrite Hc, I4. by destruct th.
Qed.
End nested.

(** Scopes nested on a thread form one trace: each scope's span has the
    enclosing scope's span as its parent and all share the trace id of the
    outermost one, whatever the sampler decides, so that a dropped span never
    cuts a subtree off; baggage is untouched; and closing the scopes innermost
    first gives the thread back exactly as it was. *)
Theorem nested_scopes_one_trace draw t th specs pos l th' pos' :
  (∀ k, 0 < draw k < 2 ^ 64) →
  Forall (λ s, so_parent s.1.1.2 = None) specs → start_nested draw t th specs pos = Some (l, th', pos') →
  (∀ outer rest, l = outer :: rest →
     st_parent outer = active_span_context (CurrentContext th) ∧ linked (st_context outer) rest
     ∧ ∀ st, st ∈ l → trace_id (st_context st) = trace_id (st_context outer))
  ∧ baggage (CurrentContext th') = baggage (CurrentContext th)
  ∧ close_nested (length l) th' = th.
Proof.
  intros Hd Hs Hn. destruct (nested_facts draw Hd t specs th pos l th' pos' Hs Hn) as (_ & H2 & H3 & H4).
  split_and!; [|done|done]. intros outer rest ->. destruct H2 as (Hp & _ & Hl). split_and!; [done|done|].
  intros st [->|Hin]%elem_of_cons; [done|].
  clear -Hl Hin. generalize dependent outer. induction rest as [|a rest IH]; intros outer Hl; [by apply elem_of_nil in Hin|].
  destruct Hl as (_ & Ht & Hl). apply elem_of_cons in Hin as [->|Hin]; [done|]. rewrite <- Ht. by apply IH.
Qed.

Lemma nested_scopes_one_trace_witness :
  let specs := replicate 3 ($"op", plain_options, 5, true) in
  ∃ l th' pos', start_nested (λ k, Z.of_nat (k mod 1000) + 17) (demo_tracer AlwaysOff) Thread_start specs 0 = Some (l, th', pos')
    ∧ length l = 3%nat ∧ close_nested 3 th' = Thread_start.
Proof.
  cbn zeta. eexists _, _, _. split; [vm_compute; reflexivity|]. split; [reflexivity|].
  edestruct (nested_scopes_one_trace (λ k, Z.of_nat (k mod 1000) + 17) (demo_tracer AlwaysOff) Thread_start
    (replicate 3 ($"op", plain_options, 5, true)) 0) as (_ & _ & H);
    [|by repeat constructor|vm_compute; reflexivity|exact H].
  intros k. pose proof (Nat.mod_upper_bound k 1000). change (2 ^ 64) with 18446744073709551616. lia.
Defined.
