(* ===== verification/Metrics.v ===== *)
(** * Metric storages

    Model of [src/sdk/metric_sum_storage.cpp], [metric_gauge_storage.cpp] and
    [metric_histogram_storage.cpp], over the series maps of [Series].  Each method
    holds the storage's mutex throughout, so a concurrent history is a sequence
    of calls.  The measurement type [T] is [int64_t] or [double] (class
    [Measurement]); signed overflow of an [int64_t] sum is undefined ([None]).

    [span] is what the current-span source answers, [None] without a source;
    [diag] says whether there is a diagnostics sink.

    The theorems: every collected point aggregates exactly the measurements its
    attributes select since the last reset, a set that holds a NaN selecting one
    measurement; nothing measured is lost across
    cumulative and delta collections; cardinality stays bounded; histogram counts
    are the exact bucket occupancy. *)
From S2P Require Import Prelude Trace Context Data Double AttributeSet SpanLimits Series.

(** ** Measurements and points *)

Inductive MetricValue := MvInt (z : Z) | MvDouble (d : double).
(** [internal::Exemplar]; the filtered attributes are always empty. *)
Record Exemplar := mkExemplar { ex_span_context : SpanContext; ex_time : Z; ex_value : MetricValue }.
Inductive AggregationTemporality := Cumulative | Delta.

(** What the storages use of the template parameter [T]. *)
Class Measurement (T : Type) := {
  m_zero : T;
  m_add : T → T → option T;
  m_double : T → double;
  m_value : T → MetricValue
}.
#[export] Instance measurement_i64 : Measurement Z := {
  m_zero := 0;
  m_add a b := if (i64_min <=? a + b) && (a + b <=? i64_max) then Some (a + b) else None;
  m_double := d_of_int;
  m_value := MvInt
}.
#[export] Instance measurement_double : Measurement double := {
  m_zero := d_zero;
  m_add a b := Some (d_add a b);
  m_double x := x;
  m_value := MvDouble
}.

(** A storage's two maps, and the options its constructor takes. *)
Record Storage (V : Type) := mkStorage {
  m_points : list (AttributeSet * V);
  m_exemplars : list (AttributeSet * Exemplar)
}.
Arguments mkStorage {V}.
Arguments m_points {V}.
Arguments m_exemplars {V}.
Definition Storage_new {V} : Storage V := mkStorage [] [].
Record StorageOptions := mkStorageOptions { max_cardinality : Z; so_diag : bool }.

(** The exemplar taken when the current span is valid and sampled. *)
Definition capture (span : option SpanContext) (now : Z) (value : MetricValue) : option Exemplar :=
  match span with
  | Some s => if SpanContext_IsValid s && IsSampled (trace_flags s) then Some (mkExemplar s now value) else None
  | None => None
  end.
(** [m_exemplars.insert_or_assign(key, exemplar)]. *)
Definition insert_or_assign {W} (key : AttributeSet) (w : W) (l : list (AttributeSet * W)) : list (AttributeSet * W) :=
  match find_index key l with
  | Some i => match l !! i with Some (k, _) => <[i := (k, w)]> l | None => l end
  | None => l ++ [(key, w)]
  end.
(** [RecordNonFinite]. *)
Definition RecordNonFinite (diag : bool) : Drops := if diag then [(NonFiniteValue, 1)] else [].

(** One reported point: attributes, aggregate, exemplars. *)
Record Reported (V : Type) := mkReported {
  rp_attributes : list KeyValue; rp_point : V; rp_exemplars : list Exemplar }.
Arguments mkReported {V}.
Arguments rp_attributes {V}.
Arguments rp_point {V}.
Arguments rp_exemplars {V}.
(** The loop of every [Collect]. *)
Definition snapshot {V} (st : Storage V) : list (Reported V) :=
  (λ p, mkReported (AttributeSet.m_pairs (fst p)) (snd p)
          match find_index (fst p) (m_exemplars st) with
          | Some i => match m_exemplars st !! i with Some (_, ex) => [ex] | None => [] end
          | None => []
          end) <$> m_points st.
Definition is_delta (t : AggregationTemporality) : bool := match t with Delta => true | Cumulative => false end.
(** [Collect] of the sum and histogram storages: the data, and the storage. *)
Definition Collect {V} (st : Storage V) (temporality : AggregationTemporality) : list (Reported V) * Storage V :=
  (snapshot st, mkStorage (if is_delta temporality then [] else m_points st) []).

Section storages.
Context (H : Hash).

(** The tail of every record method, under the lock: find or create the series,
    update it, keep the exemplar. *)
Definition record_series {V} (opts : StorageOptions) (attrs : list KeyValue) (init : V) (upd : V → option V)
    (exemplar : option Exemplar) (st : Storage V) : option (Storage V * Drops) :=
  match record_point H (max_cardinality opts) (so_diag opts) (AttributeSet_of H attrs) init upd (m_points st) with
  | None => None
  | Some (key, points, calls) =>
      Some (mkStorage points match exemplar with
                             | Some e => insert_or_assign key e (m_exemplars st)
                             | None => m_exemplars st
                             end, calls)
  end.

(** *** [SumStorage] and [GaugeStorage] *)

(** [SumStorage::Add]. *)
Definition SumStorage_Add {T} `{Measurement T} (opts : StorageOptions) (value : T) (attrs : list KeyValue)
    (span : option SpanContext) (now : Z) (st : Storage T) : option (Storage T * Drops) :=
  if negb (isfinite (m_double value)) then Some (st, RecordNonFinite (so_diag opts))
  else record_series opts attrs m_zero (λ v, m_add v value) (capture span now (m_value value)) st.

(** [GaugeStorage::Record]. *)
Definition GaugeStorage_Record {T} `{Measurement T} (opts : StorageOptions) (value : T) (attrs : list KeyValue)
    (span : option SpanContext) (now : Z) (st : Storage T) : option (Storage T * Drops) :=
  if negb (isfinite (m_double value)) then Some (st, RecordNonFinite (so_diag opts))
  else record_series opts attrs m_zero (λ _, Some value) (capture span now (m_value value)) st.
(** [GaugeStorage::Collect]: no temporality. *)
Definition GaugeStorage_Collect {T} (st : Storage T) : list (Reported T) * Storage T :=
  (snapshot st, mkStorage (m_points st) []).

(** *** [HistogramStorage] *)

Record Point := mkPoint {
  p_count : Z; p_sum : double; p_min : double; p_max : double; p_bucket_counts : list Z }.
Definition Point_new : Point := mkPoint 0 d_zero d_zero d_zero [].

(** [std::ranges::lower_bound(m_boundaries, observation) - begin]: the number of
    leading boundaries below the observation, which is what the standard specifies
    for sorted boundaries, its precondition. *)
Fixpoint lower_bound (bounds : list double) (x : double) : nat :=
  match bounds with
  | [] => O
  | b :: rest => if d_ltb b x then S (lower_bound rest x) else O
  end.
(** The body of [HistogramStorage::Record] on the point. *)
Definition Point_record (bounds : list double) (observation : double) (p : Point) : Point :=
  let fresh := match p_bucket_counts p with [] => true | _ => false end in
  let counts := if fresh then replicate (S (length bounds)) 0 else p_bucket_counts p in
  mkPoint (to_uint 64 (p_count p + 1)) (d_add (p_sum p) observation)
    (if fresh then observation else d_min (p_min p) observation)
    (if fresh then observation else d_max (p_max p) observation)
    (alter (λ c, to_uint 64 (c + 1)) (lower_bound bounds observation) counts).
(** [HistogramStorage::Record]. *)
Definition HistogramStorage_Record {T} `{Measurement T} (bounds : list double) (opts : StorageOptions) (value : T)
    (attrs : list KeyValue) (span : option SpanContext) (now : Z) (st : Storage Point)
    : option (Storage Point * Drops) :=
  let observation := m_double value in
  if negb (isfinite observation) then Some (st, RecordNonFinite (so_diag opts))
  else record_series opts attrs Point_new (λ p, Some (Point_record bounds observation p))
         (capture span now (MvDouble observation)) st.
End storages.

(** ** The storage interface

    What the four storages promise their streams: which updates a measurement
    stands for, and what a collection resets. *)
Class MetricStorage (H : Hash) (T V : Type) := {
  ms_double : T → double;
  ms_init : V;
  ms_update : T → V → option V;
  ms_resets : bool;
  ms_record : StorageOptions → T → list KeyValue → option SpanContext → Z → Storage V → option (Storage V * Drops);
  ms_collect : Storage V → AggregationTemporality → list (Reported V) * Storage V;
  ms_record_nonfinite opts v attrs span now st : isfinite (ms_double v) = false →
    ms_record opts v attrs span now st = Some (st, RecordNonFinite (so_diag opts));
  ms_record_finite opts v attrs span now st : isfinite (ms_double v) = true →
    ∃ ex, ms_record opts v attrs span now st = record_series H opts attrs ms_init (ms_update v) ex st;
  ms_collect_eq st t :
    ms_collect st t = (snapshot st, mkStorage (if is_delta t && ms_resets then [] else m_points st) [])
}.

#[export] Instance SumStorage {T} `{M : Measurement T} (H : Hash) : MetricStorage H T T.
Proof.
  refine {| ms_double := m_double; ms_init := m_zero; ms_update value v := m_add v value; ms_resets := true;
    ms_record := SumStorage_Add H; ms_collect := Collect |}.
  - intros * Hf. unfold SumStorage_Add. by rewrite Hf.
  - intros * Hf. unfold SumStorage_Add. rewrite Hf. eauto.
  - intros. unfold Collect. by rewrite andb_true_r.
Defined.

Definition GaugeStorage {T} `{M : Measurement T} (H : Hash) : MetricStorage H T T.
Proof.
  refine {| ms_double := m_double; ms_init := m_zero; ms_update value _ := Some value; ms_resets := false;
    ms_record := GaugeStorage_Record H; ms_collect st _ := GaugeStorage_Collect st |}.
  - intros * Hf. unfold GaugeStorage_Record. by rewrite Hf.
  - intros * Hf. unfold GaugeStorage_Record. rewrite Hf. eauto.
  - intros. unfold GaugeStorage_Collect. by rewrite andb_false_r.
Defined.
Definition HistogramStorage {T} `{M : Measurement T} (H : Hash) (bounds : list double) : MetricStorage H T Point.
Proof.
  refine {| ms_double := m_double; ms_init := Point_new;
    ms_update value p := Some (Point_record bounds (m_double value) p); ms_resets := true;
    ms_record := HistogramStorage_Record H bounds; ms_collect := Collect |}.
  - intros * Hf. unfold HistogramStorage_Record. by rewrite Hf.
  - intros * Hf. unfold HistogramStorage_Record. rewrite Hf. eauto.
  - intros. unfold Collect. by rewrite andb_true_r.
Defined.

(** ** Histories *)

Inductive Call (T : Type) :=
| CallRecord (value : T) (attrs : list KeyValue) (span : option SpanContext) (now : Z)
| CallCollect (temporality : AggregationTemporality).
Arguments CallRecord {T}.
Arguments CallCollect {T}.

Section histories.
Context {T V : Type} {H : Hash} `{S : !MetricStorage H T V}.
Context (opts : StorageOptions).

(** One call: the storage, the data reported so far, the sink calls so far. *)
Definition exec (s : Storage V * list (list (Reported V)) * Drops) (c : Call T)
    : option (Storage V * list (list (Reported V)) * Drops) :=
  let '(st, reports, drops) := s in
  match c with
  | CallRecord v attrs span now =>
      match ms_record opts v attrs span now st with
      | None => None
      | Some (st', calls) => Some (st', reports, drops ++ calls)
      end
  | CallCollect t => let '(data, st') := ms_collect st t in Some (st', reports ++ [data], drops)
  end.
Definition run (calls : list (Call T)) : option (Storage V * list (list (Reported V)) * Drops) :=
  foldl (λ s c, s ≫= λ s, exec s c) (Some (Storage_new, [], [])) calls.

(** The measurements since the last reset, with their attribute sets. *)
Definition log_step (log : list (AttributeSet * T)) (c : Call T) : list (AttributeSet * T) :=
  match c with
  | CallRecord v attrs _ _ => if isfinite (ms_double v) then log ++ [(AttributeSet_of H attrs, v)] else log
  | CallCollect t => if is_delta t && ms_resets then [] else log
  end.
Definition since_reset (calls : list (Call T)) : list (AttributeSet * T) := foldl log_step [] calls.

Lemma record_series_points v attrs ex st st' calls :
  record_series H opts attrs ms_init (ms_update v) ex st = Some (st', calls) →
  ∃ k, record_point H (max_cardinality opts) (so_diag opts) (AttributeSet_of H attrs) ms_init (ms_update v) (m_points st)
       = Some (k, m_points st', calls).
Proof.
  unfold record_series. destruct (record_point _ _ _ _ _ _ _) as [[[k pts] c]|]; [|done]. intros [= <- <-]. eauto.
Qed.

(** Whatever the attributes: some assignment of the measurements to the entries. *)
Lemma history_placed calls st reports drops :
  0 <= max_cardinality opts → run calls = Some (st, reports, drops) →
  ∃ places, placed H ms_init ms_update (max_cardinality opts) (m_points st) (since_reset calls) places.
Proof.
  intros Hmax. revert st reports drops. induction calls as [|c calls IH] using rev_ind; intros st reports drops.
  { intros [= <- <- <-]. exists []. by apply placed_empty. }
  unfold run, since_reset. rewrite !foldl_app. cbn [foldl]. fold (run calls) (since_reset calls).
  destruct (run calls) as [[[st0 reports0] drops0]|] eqn:E; [|done].
  destruct (IH _ _ _ eq_refl) as [places P]. cbn [mbind option_bind]. destruct c as [v attrs span now|t]; cbn [exec log_step].
  - destruct (isfinite (ms_double v)) eqn:Ef; [|rewrite ms_record_nonfinite by done; intros [= <- <- <-]; by exists places].
    destruct (ms_record_finite opts v attrs span now st0 Ef) as [ex ->].
    destruct (record_series _ _ _ _ _ _ _) as [[st1 calls1]|] eqn:Er; [|done]. intros [= <- <- <-].
    apply record_series_points in Er as [k Er]. eapply record_placed in Er as [i P']; [by eexists|done].
  - rewrite ms_collect_eq. intros [= <- <- <-]. cbn. destruct (is_delta t && ms_resets); [|by exists places].
    exists []. by apply placed_empty.
Qed.

(** A history fails where a point cannot take a measurement. *)
Lemma run_undefined calls : run calls = None →
  ∃ before v attrs span now after st reports drops,
    calls = before ++ CallRecord v attrs span now :: after ∧ run before = Some (st, reports, drops)
    ∧ ∃ p, (p = ms_init ∨ p ∈ (m_points st).*2) ∧ ms_update v p = None.
Proof.
  induction calls as [|c calls IH] using rev_ind; [done|]. unfold run. rewrite foldl_app. cbn [foldl]. fold (run calls).
  destruct (run calls) as [[[st reports] drops]|] eqn:E.
  - cbn [mbind option_bind]. destruct c as [v attrs span now|t]; cbn [exec]; [|by destruct (ms_collect st t)].
    destruct (isfinite (ms_double v)) eqn:Ef; [|by rewrite ms_record_nonfinite].
    destruct (ms_record_finite opts v attrs span now st Ef) as [ex ->]. unfold record_series.
    destruct (record_point _ _ _ _ _ _ _) as [[[k pts] c1]|] eqn:Er; [done|]. intros _. apply record_point_None in Er.
    exists calls, v, attrs, span, now, [], st, reports, drops. by split_and!.
  - intros _. destruct (IH eq_refl) as (before & v & attrs & span & now & after & st & reports & drops & -> & Hr & Hp).
    exists before, v, attrs, span, now, (after ++ [c]), st, reports, drops. split; [by rewrite <- app_assoc|done].
Qed.

(** No history fails unless an update is undefined. *)
Lemma run_total calls : (∀ v p, is_Some (ms_update v p)) → is_Some (run calls).
Proof.
  intros Ht. induction calls as [|c calls [[[st reports] drops] E]] using rev_ind; [eauto|].
  unfold run in *. rewrite foldl_app. cbn [foldl]. rewrite E. cbn [mbind option_bind].
  destruct c as [v attrs span now|t]; cbn [exec].
  - destruct (isfinite (ms_double v)) eqn:Ef.
    + destruct (ms_record_finite opts v attrs span now st Ef) as [ex ->]. unfold record_series.
      destruct (record_point_total H (max_cardinality opts) (so_diag opts) (AttributeSet_of H attrs) ms_init
        (ms_update v) (m_points st) (Ht v)) as [[[k pts] calls1] ->]. eauto.
    + rewrite ms_record_nonfinite by done. eauto.
  - destruct (ms_collect st t). eauto.
Qed.
End histories.

(** The entry of the map a measurement with attributes [k] is aggregated in. *)
Definition owner {V} (H : Hash) (pts : list (AttributeSet * V)) (k : AttributeSet) (i : nat) : Prop :=
  ∃ p v, pts !! i = Some (p, v) ∧ belongs H pts p k = true.

(** Every measurement has exactly one entry. *)
Lemma inv_owner {V O} H (init : V) (upd : O → V → option V) max pts log k (o : O) :
  inv H init upd max pts log → (k, o) ∈ log → ∃ i, owner H pts k i ∧ ∀ j, owner H pts k j → j = i.
Proof.
  intros I Hin. assert (∃ p w, (p, w) ∈ pts ∧ belongs H pts p k = true) as (p & w & Hp & Hb).
  { destruct (covered H pts k) eqn:Ec.
    - apply covered_true in Ec as (p & w & Hp & Eo & E). exists p, w. split; [done|]. unfold belongs. by rewrite Eo.
    - destruct (inv_covered _ _ _ _ _ _ I _ _ Hin) as [|(p & w & Hp & Eo)]; [congruence|].
      exists p, w. split; [done|]. unfold belongs. by rewrite Eo, Ec. }
  apply list_elem_of_lookup_1 in Hp as [i Hi]. exists i. split; [by exists p, w|].
  intros j (q & w' & Hj & Hq). by eapply belongs_unique.
Qed.

Lemma placed_owner {V O} H (init : V) (upd : O → V → option V) max pts log places i k (o : O) :
  placed H init upd max pts log places → AttributeSet_eqb k k = true → home H max pts i k → (k, o) ∈ log →
  (owner H pts k i ∧ ∀ j, owner H pts k j → j = i)
  ∧ ((∃ p w, (p, w) ∈ pts ∧ AttributeSet_eqb p k = true) ∨ max <= size pts).
Proof.
  intros P Hk (p & v & Hp & Hb) Hin. rewrite Hk in Hb. split.
  - split; [by exists p, v|]. intros j (q & w & Hq & Hbq). by eapply belongs_one; [eapply pl_distinct|..].
  - destruct (find_index k pts) as [j|] eqn:E.
    + left. apply find_index_Some in E as (q & w & Hq & Eq). exists q, w. split; [by eapply list_elem_of_lookup_2|done].
    + right. rewrite find_index_None in E. by eapply pl_full.
Qed.

(** C14: a collection reports exactly what was measured.  For every storage and every
    history of measurements and collections, whatever the attributes, a NaN among their
    values included: the run fails only where updating the point a measurement goes to
    is undefined (the signed overflow of an [int64_t] sum); otherwise each finite
    measurement since the last reset has one point, and each reported point is the
    aggregate, in order, of the measurements that have it.  A set of attributes equal to
    itself, one without NaN, has the one point with those attributes, or the overflow
    series, and that only in a full map.  A set holding a NaN, which [operator==] tells
    apart from itself, has for every measurement a point of its own, with exactly that
    measurement, or the overflow series of a full map.  Without NaN the points are
    determined by the log alone ([routed]).  There is at most one more point than the
    cardinality limit. *)
Theorem collected_series_exact H T V (S : MetricStorage H T V) opts calls t :
  0 <= max_cardinality opts →
  match run opts calls with
  | None => ∃ before v attrs span now after st reports drops,
      calls = before ++ CallRecord v attrs span now :: after ∧ run opts before = Some (st, reports, drops)
      ∧ ∃ p, (p = ms_init ∨ p ∈ (m_points st).*2) ∧ ms_update v p = None
  | Some (st, reports, drops) =>
      let log := since_reset calls in
      let points := m_points st in
      let report := fst (ms_collect st t) in
      length report = length points ∧ size report <= max_cardinality opts + 1
      ∧ (∃ places, length places = length log
         ∧ (∀ i p w point, points !! i = Some (p, w) → report !! i = Some point →
              rp_attributes point = AttributeSet.m_pairs p
              ∧ aggregate ms_init ms_update (placed_at places log i) = Some (rp_point point))
         ∧ ∀ n i k v, places !! n = Some i → log !! n = Some (k, v) →
             if AttributeSet_eqb k k
             then (owner H points k i ∧ ∀ j, owner H points k j → j = i)
                  ∧ ((∃ p w, (p, w) ∈ points ∧ AttributeSet_eqb p k = true) ∨ max_cardinality opts <= size points)
             else ∃ p w, points !! i = Some (p, w)
                  ∧ ((p = k ∧ placed_at places log i = [v]) ∨ (is_ovf H p = true ∧ max_cardinality opts <= size points)))
      ∧ (Forall (λ e, AttributeSet_eqb (fst e) (fst e) = true) log →
           Forall2 (λ entry point,
               rp_attributes point = AttributeSet.m_pairs (fst entry)
               ∧ aggregate ms_init ms_update (routed H points (fst entry) log) = Some (rp_point point))
             points report)
  end.
Proof.
  intros Hmax. destruct (run opts calls) as [[[st reports] drops]|] eqn:Hrun; [|by apply run_undefined]. cbv zeta.
  destruct (history_placed opts calls st reports drops Hmax Hrun) as [places P].
  pose proof (Forall2_length _ _ _ (pl_home _ _ _ _ _ _ _ P)) as Hlen. rewrite ms_collect_eq. cbn [fst]. unfold snapshot.
  split_and!; [by rewrite length_fmap| |exists places; split_and!; [done|..]|].
  - unfold size. rewrite length_fmap. destruct (pl_size _ _ _ _ _ _ _ P) as [Hs|[Hs _]]; unfold size in Hs; lia.
  - intros i p w point Hi. rewrite list_lookup_fmap, Hi. intros [= <-]. split; [done|]. by apply (pl_points _ _ _ _ _ _ _ P i p).
  - intros n i k v Hn Hl. destruct (Forall2_lookup_lr _ _ _ _ _ _ (pl_home _ _ _ _ _ _ _ P) Hn Hl) as (p & w & Hp & Hb). cbn [fst] in *.
    destruct (AttributeSet_eqb k k) eqn:Ek; [|exists p, w; split; [done|]].
    + eapply placed_owner; [exact P|done| |by eapply list_elem_of_lookup_2]. exists p, w. by rewrite Ek.
    + destruct Hb as [->|Hb]; [left|by right]. split; [done|]. by eapply placed_single.
  - intros Hg. rewrite Forall2_fmap_r. apply Forall_Forall2_diag, Forall_forall. intros [k v] [i Hi]%list_elem_of_lookup_1. cbn.
    split; [done|]. rewrite <- (placed_routed H ms_init ms_update (max_cardinality opts) _ _ places i k v P Hg Hi).
    by apply (pl_points _ _ _ _ _ _ _ P i k).
Qed.

Definition demo_attrs (n : Z) : list KeyValue := [mkKeyValue $"k" (AvInt n)].
Definition demo_calls : list (Call Z) :=
  [CallRecord 5 (demo_attrs 1) None 0; CallRecord 7 (demo_attrs 2) None 0; CallCollect Cumulative;
   CallRecord (-2) (demo_attrs 1) None 0; CallRecord 100 (demo_attrs 3) None 0; CallRecord 10 (demo_attrs 4) None 0].

(** Below the limit of three each measurement under a NaN has its own point. *)
Definition nan_attrs : list KeyValue := [mkKeyValue $"k" (AvDouble 9221120237041090560)].
Definition nan_calls : list (Call Z) :=
  [CallRecord 5 (demo_attrs 1) None 0; CallRecord 4 nan_attrs None 0; CallRecord 6 nan_attrs None 0;
   CallRecord 2 (demo_attrs 1) None 0; CallRecord 7 (demo_attrs 2) None 0; CallRecord 8 nan_attrs None 0].
Lemma collected_series_exact_witness :
  ∃ st reports drops, run (S := SumStorage demo_hash) (mkStorageOptions 3 true) nan_calls = Some (st, reports, drops)
    ∧ size (fst (Collect st Delta)) <= 4 ∧ (rp_point <$> fst (Collect st Delta)) = [7; 4; 6; 15]
    ∧ ∃ places, length places = 6%nat ∧ ∀ i v, places !! 2%nat = Some i → (m_points st).*1 !! i = Some v →
        is_ovf demo_hash v = false → placed_at places (since_reset (S := SumStorage demo_hash) nan_calls) i = [6].
Proof.
  assert (0 <= max_cardinality (mkStorageOptions 3 true)) as Hmax by done.
  pose proof (collected_series_exact demo_hash Z Z (SumStorage demo_hash) (mkStorageOptions 3 true) nan_calls Delta Hmax) as Hc.
  destruct (run (S := SumStorage demo_hash) (mkStorageOptions 3 true) nan_calls) as [[[st reports] drops]|] eqn:Hr.
  2: { vm_compute in Hr. discriminate. }
  exists st, reports, drops. cbn [ms_collect SumStorage] in Hc. destruct Hc as (_ & Hs & (places & Hl & _ & Hp) & _).
  split; [reflexivity|]. split; [exact Hs|]. split; [vm_compute in Hr; injection Hr as <- _ _; vm_compute; reflexivity|].
  exists places. split; [exact Hl|]. intros i q Hi Hq Ho. destruct (since_reset (S := SumStorage demo_hash) nan_calls !! 2%nat) as [[k v]|] eqn:Hk; [|vm_compute in Hk; discriminate].
  specialize (Hp 2%nat i k v Hi Hk). assert (AttributeSet_eqb k k = false ∧ v = 6) as [Ek ->] by (vm_compute in Hk; injection Hk as <- <-; split; vm_compute; reflexivity).
  rewrite Ek in Hp. destruct Hp as (p & w & Hp & [[_ ->]|[Hov _]]); [reflexivity|]. rewrite list_lookup_fmap, Hp in Hq. injection Hq as <-. congruence.
Defined.

(** ** Sums *)

Definition temporalities {T} (calls : list (Call T)) : list AggregationTemporality :=
  omap (λ c, match c with CallCollect t => Some t | _ => None end) calls.
(** What the delta reports add up to. *)
Definition delta_total (ts : list AggregationTemporality) (reports : list (list (Reported Z))) : Z :=
  zsum (λ tr, if is_delta (fst tr) then zsum rp_point (snd tr) else 0) (zip ts reports).
(** What was measured. *)
Definition measured (calls : list (Call Z)) : Z :=
  zsum (λ c, match c with CallRecord v _ _ _ => v | CallCollect _ => 0 end) calls.
Definition call_i64 (c : Call Z) : Prop :=
  match c with CallRecord v _ _ _ => is_i64 v | CallCollect _ => True end.

Lemma i64_finite z : is_i64 z → isfinite (d_of_int z) = true.
Proof. intros Hz. apply d_of_int_finite. change (2 ^ 64) with 18446744073709551616. width_lia. Qed.

Lemma snapshot_total (st : Storage Z) : zsum rp_point (snapshot st) = zsum snd (m_points st).
Proof. unfold snapshot. by rewrite zsum_fmap. Qed.

Lemma SumStorage_Add_total H opts v attrs span now st st' calls :
  is_i64 v → SumStorage_Add H opts v attrs span now st = Some (st', calls) →
  zsum snd (m_points st') = zsum snd (m_points st) + v.
Proof.
  intros Hv. unfold SumStorage_Add. cbn [m_double measurement_i64]. rewrite i64_finite by done. cbn [negb].
  unfold record_series. destruct (record_point _ _ _ _ _ _ _) as [[[k pts] c]|] eqn:E; [|done]. intros [= <- <-].
  cbn [m_points]. apply (record_point_zsum _ _ _ _ _ _ _ _ _ _ id v E); [done|].
  intros a b. cbn. case_match; [|done]. by intros [= <-].
Qed.

Lemma run_reports {T V} {H} {S : MetricStorage H T V} opts (calls : list (Call T)) st reports drops :
  run opts calls = Some (st, reports, drops) → length reports = length (temporalities calls).
Proof.
  revert st reports drops. induction calls as [|c calls IH] using rev_ind; intros st reports drops.
  { by intros [= <- <- <-]. }
  unfold run, temporalities. rewrite foldl_app, omap_app, length_app. cbn [foldl]. fold (run opts calls).
  destruct (run opts calls) as [[[st0 reports0] drops0]|]; [|done]. specialize (IH _ _ _ eq_refl). unfold temporalities in IH.
  cbn [mbind option_bind]. destruct c as [v attrs span now|t]; cbn [exec].
  - destruct (ms_record _ _ _ _ _ _) as [[st1 calls1]|]; [|done]. intros [= <- <- <-]. cbn. lia.
  - destruct (ms_collect st0 t). intros [= <- <- <-]. rewrite length_app. cbn. lia.
Qed.

(** A 64-bit sum loses nothing: over every history of additions and
    collections of either temporality, what the delta reports add up to together
    with what is still live equals everything ever added, across all series and
    including those folded into the overflow series; so consecutive delta reports
    sum to the cumulative value. *)
Theorem sum_conservation H opts calls st reports drops :
  Forall call_i64 calls → run (S := SumStorage H) opts calls = Some (st, reports, drops) →
  delta_total (temporalities calls) reports + zsum snd (m_points st) = measured calls.
Proof.
  intros Hi. revert st reports drops. induction calls as [|c calls IH] using rev_ind; intros st reports drops.
  { by intros [= <- <- <-]. }
  apply Forall_app in Hi as [Hi Hc]. rewrite Forall_singleton in Hc.
  unfold run, temporalities, measured. rewrite foldl_app, omap_app, zsum_app. cbn [foldl].
  fold (run (S := SumStorage H) opts calls). destruct (run opts calls) as [[[st0 reports0] drops0]|] eqn:E; [|done].
  specialize (IH Hi _ _ _ eq_refl). apply run_reports in E. unfold measured, temporalities in IH, E.
  cbn [mbind option_bind]. destruct c as [v attrs span now|t]; cbn [exec].
  - cbn [ms_record SumStorage]. destruct (SumStorage_Add _ _ _ _ _ _ _) as [[st1 calls1]|] eqn:Ea; [|done].
    intros [= <- <- <-]. apply SumStorage_Add_total in Ea; [|done]. cbn [omap list_omap zsum fold_right].
    rewrite app_nil_r. lia.
  - cbn [ms_collect SumStorage Collect]. intros [= <- <- <-]. cbn [omap list_omap].
    unfold delta_total in *. rewrite zip_with_app by done. rewrite zsum_app. cbn [zip_with].
    rewrite !zsum_cons. cbn [fst snd m_points]. rewrite snapshot_total.
    destruct (is_delta t); change (@zsum ?A ?f []) with 0; lia.
Qed.

Lemma sum_conservation_witness :
  ∃ st reports drops,
    run (S := SumStorage demo_hash) (mkStorageOptions 2 true) (demo_calls ++ [CallCollect Delta; CallRecord 1 (demo_attrs 9) None 0])
      = Some (st, reports, drops)
    ∧ delta_total [Cumulative; Delta] reports + zsum snd (m_points st) = 121.
Proof.
  eexists _, _, _. split; [vm_compute; reflexivity|].
  eapply (sum_conservation demo_hash (mkStorageOptions 2 true)
    (demo_calls ++ [CallCollect Delta; CallRecord 1 (demo_attrs 9) None 0])); [|vm_compute; reflexivity].
  repeat constructor; cbn; width_lia.
Defined.

(** ** Histograms *)

Definition in_bucket (bounds : list double) (i : nat) (x : double) : bool := (lower_bound bounds x =? i)%nat.
Definition occupancy (bounds : list double) (i : nat) (os : list double) : Z :=
  Z.of_nat (length (List.filter (in_bucket bounds i) os)).

Lemma lower_bound_le bounds x : (lower_bound bounds x <= length bounds)%nat.
Proof. induction bounds as [|b bounds IH]; cbn; [lia|]. destruct (d_ltb b x); lia. Qed.

(** Sum and extrema of the observations [os]. *)
Record summary (os : list double) (sum mn mx : double) : Prop := {
  sm_sum : sum = foldl d_add d_zero os;
  sm_min : ∀ o, o ∈ os → d_leb mn o = true;
  sm_max : ∀ o, o ∈ os → d_leb o mx = true;
  sm_attained : mn ∈ os ∧ mx ∈ os
}.
(** What a histogram point is after the observations [os]. *)
Record describes (bounds : list double) (os : list double) (p : Point) : Prop := {
  ds_count : p_count p = to_uint 64 (size os);
  ds_buckets : p_bucket_counts p = (λ i, to_uint 64 (occupancy bounds i os)) <$> seq 0 (S (length bounds));
  ds_summary : summary os (p_sum p) (p_min p) (p_max p)
}.

Lemma summary_first o : isfinite o = true → summary [o] (d_add d_zero o) o o.
Proof.
  intros Hf. split; [done|..|split; by left]; intros x ->%list_elem_of_singleton; by apply d_leb_refl.
Qed.
Lemma summary_next os o sum mn mx :
  Forall (λ x, isfinite x = true) (os ++ [o]) → summary os sum mn mx →
  summary (os ++ [o]) (d_add sum o) (d_min mn o) (d_max mx o).
Proof.
  intros Hf [Hs Hmin Hmax [Ain Aax]]. apply Forall_app in Hf as [Hf Ho]. rewrite Forall_singleton in Ho.
  rewrite Forall_forall in Hf. destruct (d_min_spec mn o) as (M1 & M2 & M3); [auto|done|].
  destruct (d_max_spec mx o) as (X1 & X2 & X3); [auto|done|]. split.
  - by rewrite Hs, foldl_app.
  - intros x [Hx| ->%list_elem_of_singleton]%elem_of_app; [|done]. eapply d_leb_trans; [exact M1|auto].
  - intros x [Hx| ->%list_elem_of_singleton]%elem_of_app; [|done]. eapply d_leb_trans; [|exact X1]. auto.
  - unfold d_min, d_max. split; apply elem_of_app; destruct (d_ltb _ _); auto; right; by left.
Qed.

Lemma occupancy_snoc bounds i os o :
  occupancy bounds i (os ++ [o]) = occupancy bounds i os + (if in_bucket bounds i o then 1 else 0).
Proof.
  unfold occupancy. rewrite List.filter_app, length_app. cbn. destruct (in_bucket bounds i o); cbn; lia.
Qed.

Lemma alter_buckets bounds os o :
  alter (λ c, to_uint 64 (c + 1)) (lower_bound bounds o)
    ((λ i, to_uint 64 (occupancy bounds i os)) <$> seq 0 (S (length bounds)))
  = (λ i, to_uint 64 (occupancy bounds i (os ++ [o]))) <$> seq 0 (S (length bounds)).
Proof.
  apply list_eq. intros i. pose proof (lower_bound_le bounds o).
  destruct (decide (i < S (length bounds))%nat) as [Hi|Hi].
  - destruct (decide (i = lower_bound bounds o)) as [->|Hn].
    + rewrite list_lookup_alter_eq, !list_lookup_fmap, lookup_seq_lt by lia. cbn [fmap option_fmap option_map].
      rewrite to_uint_add_l, occupancy_snoc. unfold in_bucket. by rewrite Nat.eqb_refl.
    + rewrite list_lookup_alter_ne, !list_lookup_fmap, lookup_seq_lt by lia. cbn [fmap option_fmap option_map].
      rewrite occupancy_snoc. unfold in_bucket. rewrite (proj2 (Nat.eqb_neq _ _)) by (cbn; lia). by rewrite Z.add_0_r.
  - rewrite (lookup_ge_None_2 (alter _ _ _)), (lookup_ge_None_2 (_ <$> seq _ _)); [done|..];
      rewrite ?length_alter, length_fmap, length_seq; lia.
Qed.

Lemma histogram_first bounds o :
  isfinite o = true → describes bounds [o] (Point_record bounds o Point_new).
Proof.
  intros Hf. split; [done| |by apply summary_first]. cbn [Point_record p_bucket_counts Point_new].
  assert (replicate (S (length bounds)) 0 = (λ i, to_uint 64 (occupancy bounds i [])) <$> seq 0 (S (length bounds))) as ->.
  { generalize (S (length bounds)) as n. intros n. generalize 0%nat as k. induction n as [|n IH]; intros k; [done|].
    cbn [replicate seq fmap list_fmap]. f_equal. apply IH. }
  apply (alter_buckets bounds [] o).
Qed.

Lemma histogram_next bounds os o p :
  Forall (λ x, isfinite x = true) (os ++ [o]) →
  describes bounds os p → describes bounds (os ++ [o]) (Point_record bounds o p).
Proof.
  intros Hf [Hc Hb Hs]. assert (match p_bucket_counts p with [] => true | _ => false end = false) as Hfresh by (by rewrite Hb).
  unfold Point_record. cbn zeta. rewrite Hfresh. split; cbn [p_count p_bucket_counts p_sum p_min p_max].
  - by rewrite Hc, to_uint_add_l, size_app.
  - rewrite Hb. apply alter_buckets.
  - by apply summary_next.
Qed.

Lemma histogram_describes bounds os :
  os ≠ [] → Forall (λ x, isfinite x = true) os →
  ∃ p, foldl (λ v o, v ≫= λ p, Some (Point_record bounds o p)) (Some Point_new) os = Some p ∧ describes bounds os p.
Proof.
  induction os as [|o os IH] using rev_ind; [done|]. intros _ Hf. rewrite foldl_app. cbn [foldl].
  destruct os as [|o' os'].
  - cbn. eexists. split; [done|]. apply histogram_first. apply Forall_app in Hf as [_ Hf]. by rewrite Forall_singleton in Hf.
  - destruct IH as (p & -> & Hd); [done|by apply Forall_app in Hf as []|]. eexists. split; [done|].
    by apply histogram_next.
Qed.

(** Boundaries sorted increasingly split the line into half-open intervals. *)
Definition sorted_bounds (bounds : list double) : Prop :=
  ∀ i j a b, bounds !! i = Some a → bounds !! j = Some b → (i < j)%nat → d_ltb a b = true.

Lemma lower_bound_below bounds x i b : (i < lower_bound bounds x)%nat → bounds !! i = Some b → d_ltb b x = true.
Proof.
  revert i. induction bounds as [|c bounds IH]; intros i; cbn [lower_bound]; [lia|].
  destruct (d_ltb c x) eqn:E; [|lia]. destruct i as [|i]; cbn; [by intros _ [= <-]|]. intros Hi. apply IH. lia.
Qed.
Lemma lower_bound_at bounds x b : bounds !! lower_bound bounds x = Some b → d_ltb b x = false.
Proof.
  induction bounds as [|c bounds IH]; cbn [lower_bound]; [done|]. destruct (d_ltb c x) eqn:E; [apply IH|by intros [= <-]].
Qed.

Lemma lower_bound_intervals bounds x :
  Forall (λ b, isfinite b = true) bounds → sorted_bounds bounds → isfinite x = true →
  ∀ j b, bounds !! j = Some b → d_leb x b = bool_decide (lower_bound bounds x <= j)%nat.
Proof.
  intros Hfb Hs Hx j b Hj. rewrite Forall_forall in Hfb.
  assert (isfinite b = true) as Hb by (apply Hfb; by eapply list_elem_of_lookup_2).
  destruct (decide (lower_bound bounds x <= j)%nat) as [Hle|Hgt].
  - rewrite bool_decide_true by done. apply d_not_ltb; [auto|done|].
    destruct (decide (j = lower_bound bounds x)) as [->|Hn]; [by eapply lower_bound_at|].
    apply not_true_iff_false. intros Hlt.
    destruct (lookup_lt_is_Some_2 bounds (lower_bound bounds x)) as [c Hc].
    { apply lookup_lt_Some in Hj. lia. }
    pose proof (lower_bound_at _ _ _ Hc) as Hcf. pose proof (Hs _ _ _ _ Hc Hj ltac:(lia)) as Hcb.
    assert (d_leb x c = true) as Hvc by (apply d_not_ltb; auto; apply Hfb; by eapply list_elem_of_lookup_2).
    pose proof (d_leb_trans _ _ _ Hvc (d_ltb_leb _ _ Hcb)) as Hvb. apply d_leb_ltb_false in Hvb. congruence.
  - rewrite bool_decide_false by done. apply not_true_iff_false. intros Hle'. apply d_leb_ltb_false in Hle'.
    rewrite (lower_bound_below bounds _ j b) in Hle'; [done|lia|done].
Qed.

(** A histogram point is exact.  With sorted finite boundaries, after any
    non-empty sequence of finite observations: the count and every bucket count are
    the numbers of observations (modulo 2^64), the sum is the floating-point sum in
    order, min and max are attained and bound every observation, and an observation
    falls in bucket [i] iff it is above every boundary before [i] and not above the
    boundaries from [i] on: the upper-inclusive intervals of OTLP. *)
Theorem histogram_exact {T} `{M : Measurement T} H bounds (values : list T) :
  Forall (λ b, isfinite b = true) bounds → sorted_bounds bounds →
  values ≠ [] → Forall (λ v, isfinite (m_double v) = true) values →
  let S := HistogramStorage H bounds in
  ∃ p, aggregate ms_init ms_update values = Some p
    ∧ describes bounds (m_double <$> values) p
    ∧ ∀ v, v ∈ values → ∀ j b, bounds !! j = Some b →
        d_leb (m_double v) b = bool_decide (lower_bound bounds (m_double v) <= j)%nat.
Proof.
  intros Hfb Hs Hne Hf S. destruct (histogram_describes bounds (m_double <$> values)) as (p & Hp & Hd);
    [by destruct values|by rewrite Forall_fmap|].
  exists p. split_and!; [|done|].
  - unfold aggregate. cbn [ms_init ms_update S HistogramStorage].
    change (foldl (λ (v : option Point) (o : T), v ≫= λ p, Some (Point_record bounds (m_double o) p)) (Some Point_new) values = Some p).
    rewrite <- Hp. clear. generalize (Some Point_new). induction values as [|v values IH]; intros o; [done|]. cbn. apply IH.
  - intros v Hv. rewrite Forall_forall in Hf. apply lower_bound_intervals; auto.
Qed.

Lemma histogram_exact_witness :
  ∃ p, aggregate (ms_init (MetricStorage := HistogramStorage (T := Z) demo_hash [d_of_int 5; d_of_int 10]))
         (ms_update (MetricStorage := HistogramStorage (T := Z) demo_hash [d_of_int 5; d_of_int 10])) [5; 6; 100] = Some p
    ∧ p_bucket_counts p = [1; 1; 1].
Proof.
  destruct (histogram_exact demo_hash [d_of_int 5; d_of_int 10] [5; 6; 100]) as (p & Hp & Hd & _);
    [by repeat constructor| |done|by repeat constructor|].
  { intros [|[|i]] [|[|j]] a b Ha Hb Hij; cbn in *; simplify_eq; try done; lia. }
  exists p. split; [exact Hp|]. rewrite (ds_buckets _ _ _ Hd). vm_compute. reflexivity.
Defined.

(** ** NaN attributes *)

Lemma bits_eqb_nan a b : bits_is_nan b = true → bits_eqb a b = false.
Proof. intros E. unfold bits_eqb. rewrite E. by rewrite andb_false_r. Qed.
Lemma value_eqb_irregular v w : value_regular w = false → value_eqb v w = false.
Proof.
  destruct v, w; cbn; try done; intros E; bool_hyps; [by apply bits_eqb_nan|].
  revert l E. induction l0 as [|d l0 IH]; intros [|c l]; cbn; try done. intros E.
  apply andb_false_iff in E as [E|E]; [|by rewrite IH, andb_false_r].
  apply negb_false_iff in E. by rewrite bits_eqb_nan.
Qed.
Lemma irregular_elem attrs : regular attrs = false → ∃ kv, kv ∈ attrs ∧ value_regular (kv_value kv) = false.
Proof.
  unfold regular. induction attrs as [|kv attrs IH]; cbn; [done|]. intros E. apply andb_false_iff in E as [E|E].
  - exists kv. split; [by left|done].
  - destruct (IH E) as (kv' & ? & ?). exists kv'. split; [by right|done].
Qed.

Lemma irregular_not_found {W} H attrs (pts : list (AttributeSet * W)) :
  regular attrs = false → find_index (AttributeSet_of H attrs) pts = None.
Proof.
  intros Hr. apply find_index_None. intros k v _. unfold AttributeSet_eqb. case_match; [done|].
  apply not_true_iff_false. rewrite list_eqb_Forall2. intros F.
  destruct (irregular_elem attrs Hr) as (kv & Hin & Hv). cbn [m_pairs AttributeSet_of] in F.
  rewrite <- (sorting.merge_sort_Permutation key_le attrs) in Hin. apply list_elem_of_lookup_1 in Hin as [i Hi].
  destruct (Forall2_lookup_r _ _ _ _ _ F Hi) as (kv' & _ & E). unfold PairEqual in E.
  rewrite (value_eqb_irregular _ _ Hv), andb_false_r in E. done.
Qed.

(** The sets equal to themselves are those without NaN. *)
Lemma self_equal_regular H attrs : AttributeSet_eqb (AttributeSet_of H attrs) (AttributeSet_of H attrs) = regular attrs.
Proof.
  destruct (regular attrs) eqn:E; [by apply set_eqb_refl|].
  pose proof (irregular_not_found H attrs [(AttributeSet_of H attrs, tt)] E) as Hn. rewrite find_index_None in Hn.
  apply (Hn _ tt). by left.
Qed.

(** An attribute set holding a NaN is never found again: below the cardinality
    limit every measurement made with it opens a series of its own. *)
Theorem nan_attributes_never_found H T opts (M : Measurement T) (value : T) attrs span now st st' calls :
  regular attrs = false → isfinite (m_double value) = true → size (m_points st) < max_cardinality opts →
  SumStorage_Add H opts value attrs span now st = Some (st', calls) →
  size (m_points st') = size (m_points st) + 1.
Proof.
  intros Hr Hf Hs. unfold SumStorage_Add. rewrite Hf. cbn [negb]. unfold record_series, record_point, locate, try_emplace.
  rewrite irregular_not_found, (proj2 (Z.leb_gt _ _)) by done. rewrite irregular_not_found, list_lookup_middle by done.
  destruct (m_add m_zero value); [|done]. intros [= <- <-]. cbn [m_points]. unfold size.
  rewrite length_insert, length_app. cbn. lia.
Qed.

Definition nan_store : Storage Z := mkStorage [(AttributeSet_of demo_hash nan_attrs, 1)] [].
Lemma nan_attributes_never_found_witness :
  ∃ st' calls, SumStorage_Add demo_hash (mkStorageOptions 9 true) 1 nan_attrs None 0 nan_store = Some (st', calls)
    ∧ size (m_points st') = 1 + 1.
Proof.
  eexists _, _. split; [vm_compute; reflexivity|].
  eapply (nan_attributes_never_found demo_hash Z (mkStorageOptions 9 true) measurement_i64 1 nan_attrs None 0 nan_store);
    [..|vm_compute; reflexivity]; vm_compute; reflexivity.
Defined.
