(* ===== verification/ExpHistogram.v ===== *)
(** * Exponential histograms

    Model of [src/sdk/metric_exp_histogram_storage.cpp].  32-bit index arithmetic
    is checked: signed overflow, an out-of-range shift or conversion and an
    out-of-range element access are undefined behaviour and give [None].
    [std::log2] is a parameter, of which only the range of its results is used
    ([log2_contract]); [std::ldexp(1.0, k)] and [std::ceil] are exact and defined
    here.

    The theorems: the downscale loop terminates with the least sufficient change;
    and for every sequence of observations each bucket of the point holds exactly
    the observations that map to it at the final scale, although buckets were
    merged on the way, within the bucket budget.  Two theorems delimit this: a
    budget of one bucket makes the loop run past every defined shift, and at the
    documented default scale of 20 two extreme observations overflow the span
    computation. *)
From S2P Require Import Prelude Trace Context Data Double AttributeSet SpanLimits Series Metrics.

Definition i32_min : Z := - 2 ^ 31.
Definition i32_max : Z := 2 ^ 31 - 1.
(** The value of a 32-bit signed computation, if it does not overflow. *)
Definition i32 (z : Z) : option Z := if (i32_min <=? z) && (z <=? i32_max) then Some z else None.

(** ** Buckets *)

Record ExpBuckets := mkExpBuckets { offset : Z; counts : list Z }.
Record ExpHistoPoint := mkExpHistoPoint {
  eh_scale : Z; eh_zero_count : Z; eh_count : Z; eh_sum : double; eh_min : double; eh_max : double;
  eh_positive : ExpBuckets; eh_negative : ExpBuckets }.
Definition ExpBuckets_new : ExpBuckets := mkExpBuckets 0 [].
Definition ExpHistoPoint_new : ExpHistoPoint :=
  mkExpHistoPoint 0 0 0 d_zero d_zero d_zero ExpBuckets_new ExpBuckets_new.

(** [FloorDivPow2]; [1U << 31] converts to the most negative integer. *)
Definition FloorDivPow2 (value by_ : Z) : option Z :=
  if (0 <=? by_) && (by_ <? 32) then
    let divisor := to_sint 32 (2 ^ by_) in
    let quotient := Z.quot value divisor in
    Some (if negb (Z.rem value divisor =? 0) && (value <? 0) then quotient - 1 else quotient)
  else None.

(** [LastIndex]. *)
Definition LastIndex (b : ExpBuckets) : option Z := i32 (offset b + size (counts b)) ≫= λ s, i32 (s - 1).

(** [MergedSpan]. *)
Definition MergedSpan (b : ExpBuckets) (index change : Z) : option Z :=
  low ← FloorDivPow2 (Z.min (offset b) index) change;
  last ← LastIndex b;
  high ← FloorDivPow2 (Z.max last index) change;
  d ← i32 (high - low);
  i32 (d + 1).

(** [RequiredDownscale]: the loop from [change = 1].  A shift by 32 is undefined,
    so 32 iterations of fuel are never exhausted before the code's own limit. *)
Fixpoint downscale_loop (fuel : nat) (b : ExpBuckets) (index max_buckets change : Z) : option Z :=
  match fuel with
  | O => None
  | S fuel' =>
      span ← MergedSpan b index change;
      if max_buckets <? span then downscale_loop fuel' b index max_buckets (change + 1) else Some change
  end.
Definition RequiredDownscale (b : ExpBuckets) (index max_buckets : Z) : option Z :=
  downscale_loop 32 b index max_buckets 1.

(** [Rescale]. *)
Fixpoint merge_loop (off by_ new_offset : Z) (k : Z) (cs merged : list Z) : option (list Z) :=
  match cs with
  | [] => Some merged
  | c :: rest =>
      if c =? 0 then merge_loop off by_ new_offset (k + 1) rest merged
      else
        abs_index ← i32 (off + k);
        q ← FloorDivPow2 abs_index by_;
        slot ← i32 (q - new_offset);
        if slot <? 0 then None else
        old ← merged !! Z.to_nat slot;
        merge_loop off by_ new_offset (k + 1) rest (<[Z.to_nat slot := to_uint 64 (old + c)]> merged)
  end.
Definition Rescale (b : ExpBuckets) (by_ : Z) : option ExpBuckets :=
  match counts b with
  | [] => Some b
  | _ =>
      new_offset ← FloorDivPow2 (offset b) by_;
      last ← LastIndex b;
      new_last ← FloorDivPow2 last by_;
      d ← i32 (new_last - new_offset);
      new_span ← i32 (d + 1);
      merged ← merge_loop (offset b) by_ new_offset 0 (counts b) (replicate (Z.to_nat new_span) 0);
      Some (mkExpBuckets new_offset merged)
  end.

(** [Place]. *)
Definition grow (b : ExpBuckets) (index : Z) : option ExpBuckets :=
  match counts b with
  | [] => Some (mkExpBuckets index [0])
  | _ =>
      if index <? offset b then
        prepend ← i32 (offset b - index);
        Some (mkExpBuckets index (replicate (Z.to_nat prepend) 0 ++ counts b))
      else
        last ← LastIndex b;
        if last <? index then
          d ← i32 (index - offset b);
          width ← i32 (d + 1);
          Some (mkExpBuckets (offset b) (resize (Z.to_nat width) 0 (counts b)))
        else Some b
  end.
Definition Place (b : ExpBuckets) (index : Z) : option ExpBuckets :=
  b' ← grow b index;
  slot ← i32 (index - offset b');
  if slot <? 0 then None else
  old ← counts b' !! Z.to_nat slot;
  Some (mkExpBuckets (offset b') (<[Z.to_nat slot := to_uint 64 (old + 1)]> (counts b'))).

(** ** Values to indices *)

(** [std::ldexp(1.0, k)]. *)
Definition ldexp_one (k : Z) : double := binary_normalize prec emax 1 k false.
(** [static_cast<std::int32_t>(std::ceil(x))]. *)
Definition ceil_div (v e : Z) : Z := if 0 <=? e then v * 2 ^ e else - ((- v) / 2 ^ (- e)).
Definition ceil_i32 (x : double) : option Z :=
  match x with
  | S754_zero _ => Some 0
  | S754_finite s m e => i32 (ceil_div (cond_Zopp s (Zpos m)) e)
  | _ => None
  end.

Definition with_buckets (p : ExpHistoPoint) (scale : Z) (pos neg : ExpBuckets) : ExpHistoPoint :=
  mkExpHistoPoint scale (eh_zero_count p) (eh_count p) (eh_sum p) (eh_min p) (eh_max p) pos neg.
Definition is_empty {A} (l : list A) : bool := match l with [] => true | _ => false end.

Section exp_histogram.
Context (log2 : double → double).

(** [MapIndex]. *)
Definition MapIndex (abs_value : double) (scale : Z) : option Z :=
  c ← ceil_i32 (d_mul (log2 abs_value) (ldexp_one scale));
  i32 (c - 1).

(** [InsertValue]. *)
Definition InsertValue (p : ExpHistoPoint) (abs_value : double) (is_negative : bool) (max_buckets : Z)
    : option ExpHistoPoint :=
  index ← MapIndex abs_value (eh_scale p);
  let target := if is_negative then eh_negative p else eh_positive p in
  over ← (if is_empty (counts target) then Some false
          else span ← MergedSpan target index 0; Some (max_buckets <? span));
  if (over : bool) then
    change ← RequiredDownscale target index max_buckets;
    pos ← Rescale (eh_positive p) change;
    neg ← Rescale (eh_negative p) change;
    scale ← i32 (eh_scale p - change);
    index' ← FloorDivPow2 index change;
    if is_negative
    then neg' ← Place neg index'; Some (with_buckets p scale pos neg')
    else pos' ← Place pos index'; Some (with_buckets p scale pos' neg)
  else if is_negative
  then neg' ← Place (eh_negative p) index; Some (with_buckets p (eh_scale p) (eh_positive p) neg')
  else pos' ← Place (eh_positive p) index; Some (with_buckets p (eh_scale p) pos' (eh_negative p)).

(** The body of [Record] on the point. *)
Definition exp_record (max_scale max_buckets : Z) (observation : double) (p : ExpHistoPoint)
    : option ExpHistoPoint :=
  let fresh := eh_count p =? 0 in
  let p' := mkExpHistoPoint (if fresh then max_scale else eh_scale p) (eh_zero_count p)
              (to_uint 64 (eh_count p + 1)) (d_add (eh_sum p) observation)
              (if fresh then observation else d_min (eh_min p) observation)
              (if fresh then observation else d_max (eh_max p) observation)
              (eh_positive p) (eh_negative p) in
  if d_eqb observation d_zero
  then Some (mkExpHistoPoint (eh_scale p') (to_uint 64 (eh_zero_count p' + 1)) (eh_count p') (eh_sum p')
               (eh_min p') (eh_max p') (eh_positive p') (eh_negative p'))
  else InsertValue p' (SFabs observation) (d_ltb observation d_zero) max_buckets.

(** [ExponentialHistogramStorage::Record]: the exemplar of a zero is not kept. *)
Definition ExponentialHistogramStorage_Record {T} `{Measurement T} (H : Hash) (max_scale max_buckets : Z)
    (opts : StorageOptions) (value : T) (attrs : list KeyValue) (span : option SpanContext) (now : Z)
    (st : Storage ExpHistoPoint) : option (Storage ExpHistoPoint * Drops) :=
  let observation := m_double value in
  if negb (isfinite observation) then Some (st, RecordNonFinite (so_diag opts))
  else record_series H opts attrs ExpHistoPoint_new (exp_record max_scale max_buckets observation)
         (if d_eqb observation d_zero then None else capture span now (MvDouble observation)) st.
End exp_histogram.

(** ** Index arithmetic *)

Lemma i32_Some z : i32_min <= z <= i32_max → i32 z = Some z.
Proof. intros Hz. unfold i32. by rewrite !(proj2 (Z.leb_le _ _)) by lia. Qed.
Lemma i32_inv z y : i32 z = Some y → y = z ∧ i32_min <= z <= i32_max.
Proof. unfold i32. destruct (_ && _) eqn:E; [|done]. intros [= <-]. bool_hyps. lia. Qed.

(** Indices of real observations stay in this range, see [MapIndex_range]. *)
Definition small (i : Z) : Prop := - 2 ^ 30 < i < 2 ^ 30.

Lemma FloorDivPow2_spec v k : 0 <= k <= 30 → FloorDivPow2 v k = Some (v / 2 ^ k).
Proof.
  intros Hk. unfold FloorDivPow2. rewrite (proj2 (Z.leb_le _ _)), (proj2 (Z.ltb_lt _ _)) by lia. cbn [andb].
  assert (0 < 2 ^ k) as Hp by (apply Z.pow_pos_nonneg; lia).
  assert (to_sint 32 (2 ^ k) = 2 ^ k) as ->.
  { unfold to_sint. assert (2 ^ k <= 2 ^ 30) by (apply Z.pow_le_mono_r; lia).
    change (2 ^ 30) with 1073741824 in *. change (2 ^ (32 - 1)) with 2147483648. change (2 ^ 32) with 4294967296.
    rewrite Z.mod_small by lia. by rewrite (proj2 (Z.ltb_lt _ _)) by lia. }
  f_equal. set (d := 2 ^ k) in *. pose proof (Z.quot_rem' v d) as Hqr.
  destruct (v <? 0) eqn:Ev; bool_hyps.
  - pose proof (Z.rem_bound_pos_neg v d ltac:(lia) ltac:(lia)) as Hr.
    destruct (Z.rem v d =? 0) eqn:Er; bool_hyps; cbn [negb andb].
    + apply (Z.div_unique v d _ 0); lia.
    + apply (Z.div_unique v d _ (Z.rem v d + d)); lia.
  - rewrite andb_false_r. apply Z.quot_div_nonneg; lia.
Qed.

Lemma div_pow2_bounds i k : 0 <= k → small i → small (i / 2 ^ k).
Proof.
  intros Hk Hi. unfold small in *. assert (0 < 2 ^ k) by (apply Z.pow_pos_nonneg; lia).
  split; [apply Z.lt_le_trans with (- 2 ^ 30 + 1); [lia|]; apply Z.div_le_lower_bound; nia|apply Z.div_lt_upper_bound; nia].
Qed.
Lemma div_pow2_collapse i k : 30 <= k → small i → -1 <= i / 2 ^ k <= 0.
Proof.
  intros Hk Hi. unfold small in *. assert (2 ^ 30 <= 2 ^ k) by (apply Z.pow_le_mono_r; lia).
  split; [apply Z.div_le_lower_bound; lia|].
  enough (i / 2 ^ k < 1) by lia. apply Z.div_lt_upper_bound; lia.
Qed.
Lemma div_div_pow2 i a b : 0 <= a → 0 <= b → i / 2 ^ a / 2 ^ b = i / 2 ^ (a + b).
Proof. intros Ha Hb. rewrite Z.pow_add_r by lia. apply Z.div_div; [|apply Z.pow_pos_nonneg; lia]. apply Z.pow_nonzero; lia. Qed.

Ltac small_lia := unfold small, i32_min, i32_max in *; lia.

(** A non-empty bucket array whose indices are small. *)
Definition last_of (b : ExpBuckets) : Z := offset b + size (counts b) - 1.
Definition small_buckets (b : ExpBuckets) : Prop := counts b ≠ [] ∧ small (offset b) ∧ small (last_of b).

(** Both, on concrete arrays. *)
Ltac solve_small := unfold small_buckets, small, last_of, size; cbn; split_and!; (done || lia).

Lemma LastIndex_spec b : small_buckets b → LastIndex b = Some (last_of b).
Proof.
  intros (Hne & Ho & Hl). unfold LastIndex, last_of in *.
  rewrite i32_Some by small_lia. cbn. rewrite i32_Some by small_lia. f_equal.
Qed.
Lemma last_of_ge b : counts b ≠ [] → offset b <= last_of b.
Proof. unfold last_of, size. destruct (counts b); [done|]. cbn. lia. Qed.

(** The span [MergedSpan] computes. *)
Definition span_after (b : ExpBuckets) (index change : Z) : Z :=
  Z.max (last_of b) index / 2 ^ change - Z.min (offset b) index / 2 ^ change + 1.

Lemma MergedSpan_spec b index change :
  small_buckets b → small index → 0 <= change <= 30 → MergedSpan b index change = Some (span_after b index change).
Proof.
  intros Hb Hi Hc. destruct Hb as (Hne & Ho & Hl). unfold MergedSpan. rewrite FloorDivPow2_spec by done. cbn.
  rewrite LastIndex_spec by done. cbn. rewrite FloorDivPow2_spec by done. cbn.
  pose proof (div_pow2_bounds (Z.min (offset b) index) change ltac:(lia) ltac:(small_lia)).
  pose proof (div_pow2_bounds (Z.max (last_of b) index) change ltac:(lia) ltac:(small_lia)).
  rewrite i32_Some by small_lia. cbn. rewrite i32_Some by small_lia. done.
Qed.

Lemma downscale_loop_spec fuel b index max_buckets change c :
  small_buckets b → small index → 1 <= change <= c → c <= 30 → c < change + Z.of_nat fuel →
  span_after b index c <= max_buckets →
  ∃ c', downscale_loop fuel b index max_buckets change = Some c' ∧ change <= c' <= c
    ∧ span_after b index c' <= max_buckets ∧ ∀ k, change <= k < c' → max_buckets < span_after b index k.
Proof.
  intros Hb Hi. revert change. induction fuel as [|fuel IH]; intros change Hc Hc30 Hfuel Hfit; [lia|].
  cbn [downscale_loop]. rewrite MergedSpan_spec by (done || lia). cbn [mbind option_bind].
  destruct (max_buckets <? span_after b index change) eqn:E; bool_hyps.
  - assert (change ≠ c) by (intros ->; lia).
    destruct (IH (change + 1)) as (c' & Hl & Hr & Hf & Hmin); [lia|lia|lia|done|].
    exists c'. split_and!; [done|lia|lia|done|]. intros k Hk.
    destruct (Z.eq_dec k change) as [->|]; [done|]. apply Hmin. lia.
  - exists change. split_and!; [done|lia|lia|done|]. intros k Hk. lia.
Qed.

(** Downscaling by enough leaves at most two indices. *)
Lemma span_collapse b index k :
  small_buckets b → small index → 30 <= k → span_after b index k <= 2.
Proof.
  intros (Hne & Ho & Hl) Hi Hk. unfold span_after.
  pose proof (div_pow2_collapse (Z.max (last_of b) index) k Hk ltac:(small_lia)).
  pose proof (div_pow2_collapse (Z.min (offset b) index) k Hk ltac:(small_lia)). lia.
Qed.

(** The downscale loop terminates.  For a bucket budget of at least two, any
    bucket array and any new index in the range real observations produce, it
    stops within 30 iterations, without undefined behaviour, at the smallest
    change under which everything fits the budget. *)
Theorem downscale_terminates b index max_buckets :
  2 <= max_buckets → small_buckets b → small index →
  ∃ change, RequiredDownscale b index max_buckets = Some change ∧ 1 <= change <= 30
    ∧ span_after b index change <= max_buckets
    ∧ ∀ k, 1 <= k < change → max_buckets < span_after b index k.
Proof.
  intros Hm Hb Hi.
  destruct (downscale_loop_spec 32 b index max_buckets 1 30) as (c & Hl & Hr & Hf & Hmin);
    [done|done|lia|lia|lia|pose proof (span_collapse b index 30 Hb Hi ltac:(lia)); lia|].
  exists c. split_and!; [exact Hl|lia|lia|done|done].
Qed.

Lemma downscale_terminates_witness :
  ∃ change, RequiredDownscale (mkExpBuckets 0 [1; 0; 2]) 1000 160 = Some change
    ∧ span_after (mkExpBuckets 0 [1; 0; 2]) 1000 change <= 160.
Proof.
  destruct (downscale_terminates (mkExpBuckets 0 [1; 0; 2]) 1000 160) as (c & Hc & _ & Hs & _);
    [lia|solve_small|solve_small|].
  exists c. split; [exact Hc|exact Hs].
Defined.

(** A shift by 31: the divisor is the most negative integer. *)
Lemma FloorDivPow2_31 v : small v → FloorDivPow2 v 31 = Some (if v <? 0 then -1 else 0).
Proof.
  intros Hv. unfold FloorDivPow2. change (to_sint 32 (2 ^ 31)) with (-2147483648). cbn [Z.leb Z.ltb Z.compare andb].
  assert (Z.quot v (-2147483648) = 0 ∧ Z.rem v (-2147483648) = v) as [-> ->].
  { unfold small in Hv. change (2 ^ 30) with 1073741824 in Hv.
    assert (Z.quot v (-2147483648) = 0) as Hq by (apply Z.quot_small_iff; lia).
    pose proof (Z.quot_rem' v (-2147483648)) as Hqr. rewrite Hq in Hqr. split; [done|lia]. }
  destruct (v <? 0) eqn:E; bool_hyps; [|by rewrite andb_false_r].
  rewrite (proj2 (Z.eqb_neq _ _)) by lia. done.
Qed.
Lemma downscale_loop_diverges fuel b index max_buckets change :
  (∀ k, change <= k → MergedSpan b index k = None ∨ ∃ s, MergedSpan b index k = Some s ∧ max_buckets < s) →
  downscale_loop fuel b index max_buckets change = None.
Proof.
  revert change. induction fuel as [|fuel IH]; intros change Hk; [done|]. cbn [downscale_loop].
  destruct (Hk change ltac:(lia)) as [->|(s & -> & Hs)]; [done|]. cbn [mbind option_bind].
  rewrite (proj2 (Z.ltb_lt _ _)) by done. apply IH. intros k ?. apply Hk. lia.
Qed.

(** With a budget below two, observations on both sides of 1 never fit: the loop
    runs on until the shift is undefined. *)
Theorem single_bucket_diverges b index max_buckets :
  max_buckets <= 1 → small_buckets b → small index →
  Z.min (offset b) index < 0 <= Z.max (last_of b) index →
  RequiredDownscale b index max_buckets = None.
Proof.
  intros Hm Hb Hi Hst. apply downscale_loop_diverges. intros k Hk. destruct Hb as (Hne & Ho & Hl).
  destruct (Z.le_gt_cases k 30) as [Hk30|Hk30]; [|destruct (Z.eq_dec k 31) as [->|Hk31]].
  - right. eexists. split; [apply MergedSpan_spec; [done|done|lia]|]. unfold span_after.
    assert (0 < 2 ^ k) by (apply Z.pow_pos_nonneg; lia).
    assert (Z.min (offset b) index / 2 ^ k < 0) by (apply Z.div_lt_upper_bound; lia).
    assert (0 <= Z.max (last_of b) index / 2 ^ k) by (apply Z.div_pos; lia). lia.
  - right. unfold MergedSpan. rewrite FloorDivPow2_31 by small_lia. cbn [mbind option_bind].
    rewrite LastIndex_spec by done. cbn [mbind option_bind]. rewrite FloorDivPow2_31 by small_lia.
    rewrite (proj2 (Z.ltb_lt _ _)), (proj2 (Z.ltb_ge _ _)) by lia. cbn. eexists. split; [done|lia].
  - left. unfold MergedSpan, FloorDivPow2. rewrite (proj2 (Z.ltb_ge k 32)) by lia. by rewrite andb_false_r.
Qed.

Lemma single_bucket_diverges_witness : RequiredDownscale (mkExpBuckets (-5) [1]) 3 1 = None.
Proof.
  apply (single_bucket_diverges (mkExpBuckets (-5) [1]) 3 1);
    [lia|solve_small|solve_small|cbn; lia].
Defined.

(** ** Bucket arrays as histograms of indices *)

Definition count_idx (j : Z) (l : list Z) : Z := zsum (λ i, if i =? j then 1 else 0) l.
(** The count for an absolute index. *)
Definition bucket_at (b : ExpBuckets) (j : Z) : Z :=
  if offset b <=? j then default 0 (counts b !! Z.to_nat (j - offset b)) else 0.

(** [b] is the histogram of the indices [l], with no slack at either end. *)
Record holds (b : ExpBuckets) (l : list Z) : Prop := {
  h_empty : counts b = [] ↔ l = [];
  h_count : ∀ j, bucket_at b j = to_uint 64 (count_idx j l);
  h_low : l ≠ [] → offset b ∈ l;
  h_high : l ≠ [] → last_of b ∈ l;
  h_range : ∀ i, i ∈ l → offset b <= i <= last_of b
}.

Lemma count_idx_app j l k : count_idx j (l ++ k) = count_idx j l + count_idx j k.
Proof. apply zsum_app. Qed.
Lemma count_idx_single j i : count_idx j [i] = if i =? j then 1 else 0.
Proof. unfold count_idx. cbn. lia. Qed.
Lemma count_idx_notin j l : j ∉ l → count_idx j l = 0.
Proof.
  unfold count_idx. induction l as [|i l IH]; [done|]. intros [Hi Hl]%not_elem_of_cons.
  rewrite zsum_cons, (proj2 (Z.eqb_neq _ _)) by done. by rewrite IH.
Qed.

Lemma bucket_at_out b j : j < offset b ∨ last_of b < j → bucket_at b j = 0.
Proof.
  unfold bucket_at, last_of, size. intros Hj. destruct (offset b <=? j) eqn:E; bool_hyps; [|done].
  by rewrite lookup_ge_None_2 by lia.
Qed.
Lemma bucket_at_in b j : offset b <= j <= last_of b → counts b !! Z.to_nat (j - offset b) = Some (bucket_at b j).
Proof.
  unfold bucket_at, last_of, size. intros Hj. rewrite (proj2 (Z.leb_le _ _)) by lia.
  destruct (lookup_lt_is_Some_2 (counts b) (Z.to_nat (j - offset b))) as [c Hc]; [lia|]. by rewrite Hc.
Qed.
Lemma bucket_at_insert b j c k :
  offset b <= j <= last_of b →
  bucket_at (mkExpBuckets (offset b) (<[Z.to_nat (j - offset b) := c]> (counts b))) k
  = if k =? j then c else bucket_at b k.
Proof.
  unfold bucket_at, last_of, size. cbn [offset counts]. intros Hj. destruct (offset b <=? k) eqn:E; bool_hyps.
  - destruct (Z.eqb_spec k j) as [->|Hn]; [by rewrite list_lookup_insert_eq by lia|].
    by rewrite list_lookup_insert_ne by lia.
  - by rewrite (proj2 (Z.eqb_neq _ _)) by lia.
Qed.

Lemma holds_new : holds ExpBuckets_new [].
Proof.
  split; try done; [|by intros i ?%elem_of_nil]. intros j. unfold bucket_at. cbn. by case_match.
Qed.
Lemma holds_small b l : holds b l → l ≠ [] → Forall small l → small_buckets b.
Proof.
  intros Hh Hne Hs. rewrite Forall_forall in Hs. split_and!; [by rewrite (h_empty _ _ Hh)|..]; apply Hs;
    [by apply (h_low _ _ Hh)|by apply (h_high _ _ Hh)].
Qed.

(** *** [Place] *)

Lemma lookup_resize_default (l : list Z) n i :
  (length l <= n)%nat → default 0 (resize n 0 l !! i) = default 0 (l !! i).
Proof.
  intros Hn. destruct (decide (i < n)%nat) as [Hi|Hi].
  - destruct (decide (i < length l)%nat); [by rewrite lookup_resize|].
    rewrite lookup_resize_new by lia. by rewrite (lookup_ge_None_2 l) by lia.
  - rewrite (lookup_ge_None_2 (resize _ _ _)), (lookup_ge_None_2 l); [done|lia|rewrite length_resize; lia].
Qed.

(** Growing covers the new index and changes no count. *)
Lemma grow_spec b index :
  small index → counts b ≠ [] → small_buckets b →
  ∃ b', grow b index = Some b' ∧ offset b' = Z.min (offset b) index ∧ last_of b' = Z.max (last_of b) index
    ∧ ∀ j, bucket_at b' j = bucket_at b j.
Proof.
  intros Hi Hne Hb. pose proof (last_of_ge b Hne) as Hge. pose proof (LastIndex_spec b Hb) as HL. destruct Hb as (_ & Ho & Hl).
  unfold grow. destruct (counts b) as [|c0 cs0] eqn:Ec; [done|]. rewrite <- Ec in *.
  destruct (index <? offset b) eqn:E1; bool_hyps.
  - rewrite i32_Some by small_lia. cbn [mbind option_bind]. eexists. split; [done|]. cbn [offset].
    split_and!; [lia| |].
    + unfold last_of in *. cbn [offset counts]. rewrite size_app. unfold size at 1. rewrite length_replicate. lia.
    + intros j. unfold bucket_at. cbn [offset counts]. destruct (offset b <=? j) eqn:E2; bool_hyps.
      * rewrite (proj2 (Z.leb_le _ _)) by lia. rewrite lookup_app_r by (rewrite length_replicate; lia).
        rewrite length_replicate. do 2 f_equal. lia.
      * destruct (index <=? j) eqn:E3; bool_hyps; [|done]. rewrite lookup_app_l by (rewrite length_replicate; lia).
        rewrite lookup_replicate_2 by lia. done.
  - rewrite HL. cbn [mbind option_bind]. destruct (last_of b <? index) eqn:E2; bool_hyps; [|exists b; split_and!; [done|lia|lia|done]].
    rewrite i32_Some by small_lia. cbn [mbind option_bind]. rewrite i32_Some by small_lia. cbn [mbind option_bind].
    eexists. split; [done|]. split_and!; [cbn; lia| |].
    + unfold last_of, size in *. cbn [offset counts]. rewrite length_resize. lia.
    + intros j. unfold bucket_at. cbn [offset counts]. destruct (offset b <=? j); [|done].
      apply lookup_resize_default. unfold last_of, size in *. lia.
Qed.

Lemma Place_spec b l index :
  holds b l → Forall small l → small index →
  ∃ b', Place b index = Some b' ∧ holds b' (l ++ [index])
    ∧ size (counts b') = (if is_empty (counts b) then 1 else span_after b index 0).
Proof.
  intros Hh Hs Hi. unfold Place.
  assert (∃ b1, grow b index = Some b1 ∧ offset b1 <= index <= last_of b1 ∧ (∀ j, bucket_at b1 j = bucket_at b j)
    ∧ offset b1 ∈ l ++ [index] ∧ last_of b1 ∈ l ++ [index] ∧ (∀ i, i ∈ l → offset b1 <= i <= last_of b1)
    ∧ size (counts b1) = (if is_empty (counts b) then 1 else span_after b index 0))
    as (b1 & -> & Hin & Hb1 & Hlo & Hhi & Hr & Hsz).
  { destruct (decide (l = [])) as [->|Hne].
    - assert (counts b = []) as Ec by (by apply (h_empty _ _ Hh)). unfold grow. rewrite Ec. eexists. split; [done|].
      assert (last_of (mkExpBuckets index [0]) = index) as Hlast by (unfold last_of, size; cbn; lia).
      rewrite Hlast. cbn [offset app]. split_and!; [lia|lia| |by left|by left|by intros i ?%elem_of_nil|done].
      intros j. rewrite (h_count _ _ Hh). unfold bucket_at. cbn. case_match; [|done].
      by destruct (Z.to_nat (j - index)).
    - assert (counts b ≠ []) as Ec by (by rewrite (h_empty _ _ Hh)).
      destruct (grow_spec b index Hi Ec (holds_small _ _ Hh Hne Hs)) as (b1 & Hg & H1 & H2 & H3).
      pose proof (h_low _ _ Hh Hne) as Hlo. pose proof (h_high _ _ Hh Hne) as Hhi.
      exists b1. rewrite H1, H2. split_and!; [done|lia|lia|done| | | |].
      + destruct (Z.min_spec (offset b) index) as [[_ ->]|[_ ->]]; set_solver.
      + destruct (Z.max_spec (last_of b) index) as [[_ ->]|[_ ->]]; set_solver.
      + intros i Hil. pose proof (h_range _ _ Hh i Hil). lia.
      + destruct (counts b); [done|]. cbn [is_empty]. unfold span_after. rewrite Z.pow_0_r, !Z.div_1_r, <- H1, <- H2.
        unfold last_of. lia. }
  cbn [mbind option_bind].
  assert (small (offset b1)) as Ho.
  { apply elem_of_app in Hlo as [Hlo|Hlo%list_elem_of_singleton]; [by rewrite Forall_forall in Hs; apply Hs|by rewrite Hlo]. }
  rewrite i32_Some by small_lia. cbn [mbind option_bind]. rewrite (proj2 (Z.ltb_ge _ _)) by lia.
  rewrite bucket_at_in by done. cbn [mbind option_bind].
  assert (∀ c, last_of (mkExpBuckets (offset b1) (<[Z.to_nat (index - offset b1) := c]> (counts b1))) = last_of b1) as Hlast.
  { intros c. unfold last_of, size. cbn. by rewrite length_insert. }
  eexists. split; [done|]. split; [|cbn; unfold size in *; by rewrite length_insert].
  split; [| | | |]; rewrite ?Hlast; cbn [offset]; try done.
  - cbn [counts]. split; [|by intros [_ ?]%app_nil]. intros Hn%(f_equal length). rewrite length_insert in Hn.
    unfold last_of, size in Hin. cbn in Hn. lia.
  - intros j. rewrite bucket_at_insert by done. rewrite count_idx_app, count_idx_single, !Hb1, !(h_count _ _ Hh).
    destruct (Z.eqb_spec j index) as [->|Hn].
    + by rewrite Z.eqb_refl, to_uint_add_l.
    + rewrite (proj2 (Z.eqb_neq index j)) by done. by rewrite !Z.add_0_r.
  - intros i [Hil|Hil%list_elem_of_singleton]%elem_of_app; [by apply Hr|by subst].
Qed.

(** *** [Rescale] *)

(** What the counts [cs], starting at index [i], add to the merged index [j]. *)
Fixpoint contrib (by_ i : Z) (cs : list Z) (j : Z) : Z :=
  match cs with
  | [] => 0
  | c :: rest => (if i / 2 ^ by_ =? j then c else 0) + contrib by_ (i + 1) rest j
  end.

Lemma contrib_count by_ l j cs i :
  (∀ m, (m < length cs)%nat → cs !! m = Some (to_uint 64 (count_idx (i + Z.of_nat m) l))) →
  to_uint 64 (contrib by_ i cs j)
  = to_uint 64 (zsum (λ x, if (i <=? x) && (x <? i + size cs) && (x / 2 ^ by_ =? j) then 1 else 0) l).
Proof.
  revert i. induction cs as [|c cs IH]; intros i Hc.
  - cbn [contrib]. f_equal. symmetry. rewrite (zsum_ext _ (λ _, 0)).
    + clear. unfold zsum. induction l; cbn; lia.
    + intros x _. change (size (@nil Z)) with 0. case_match eqn:E; [|done]. bool_hyps. lia.
  - cbn [contrib].
    assert (c = to_uint 64 (count_idx i l)) as ->.
    { specialize (Hc 0%nat ltac:(cbn; lia)). cbn in Hc. injection Hc as ->. do 2 f_equal. lia. }
    assert (to_uint 64 (contrib by_ (i + 1) cs j) = to_uint 64 (zsum
      (λ x, if (i + 1 <=? x) && (x <? i + 1 + size cs) && (x / 2 ^ by_ =? j) then 1 else 0) l)) as IH'.
    { apply IH. intros m Hm. etransitivity; [apply (Hc (S m)); cbn; lia|]. do 3 f_equal. lia. }
    rewrite <- to_uint_add_r, IH', to_uint_add_r.
    transitivity (to_uint 64 (zsum (λ x, if i / 2 ^ by_ =? j then if x =? i then 1 else 0 else 0) l
      + zsum (λ x, if (i + 1 <=? x) && (x <? i + 1 + size cs) && (x / 2 ^ by_ =? j) then 1 else 0) l)).
    + assert (zsum (λ x, if i / 2 ^ by_ =? j then if x =? i then 1 else 0 else 0) l
        = if i / 2 ^ by_ =? j then count_idx i l else 0) as ->.
      { destruct (i / 2 ^ by_ =? j); [done|]. clear. unfold zsum. induction l; cbn; lia. }
      destruct (i / 2 ^ by_ =? j); [apply to_uint_add_l|done].
    + f_equal. symmetry. apply zsum_add. intros x _. rewrite size_cons. destruct (Z.eqb_spec x i) as [->|Hn].
      * rewrite (proj2 (Z.leb_le i i)), (proj2 (Z.leb_gt (i + 1) i)), (proj2 (Z.ltb_lt _ _))
          by (pose proof (size_nonneg cs); lia).
        cbn [andb]. by destruct (i / 2 ^ by_ =? j).
      * replace (i + (1 + size cs)) with (i + 1 + size cs) by lia.
        assert ((i <=? x) = (i + 1 <=? x)) as -> by (apply eq_true_iff_eq; rewrite !Z.leb_le; lia).
        destruct (i / 2 ^ by_ =? j), (_ && _ && _); done.
Qed.

Lemma merge_loop_spec off by_ no k cs merged :
  0 <= by_ <= 30 → small no →
  (∀ m, 0 <= m < size cs → small (off + k + m) ∧ no <= (off + k + m) / 2 ^ by_ < no + size merged) →
  Forall (λ c, to_uint 64 c = c) merged →
  ∃ res, merge_loop off by_ no k cs merged = Some res ∧ length res = length merged
    ∧ Forall (λ c, to_uint 64 c = c) res
    ∧ ∀ j, bucket_at (mkExpBuckets no res) j
        = to_uint 64 (bucket_at (mkExpBuckets no merged) j
                      + if (no <=? j) && (j <? no + size merged) then contrib by_ (off + k) cs j else 0).
Proof.
  intros Hby Hno. revert k merged. induction cs as [|c cs IH]; intros k merged Hm Hu.
  - exists merged. split_and!; [done..|]. intros j. cbn [contrib].
    assert (to_uint 64 (bucket_at (mkExpBuckets no merged) j) = bucket_at (mkExpBuckets no merged) j) as Hid.
    { unfold bucket_at. cbn. case_match; [|done]. destruct (merged !! _) as [c|] eqn:E; [|done]. cbn.
      rewrite Forall_forall in Hu. apply Hu. by eapply list_elem_of_lookup_2. }
    case_match; by rewrite Z.add_0_r.
  - destruct (Hm 0) as [Hs0 Hr0]; [rewrite size_cons; pose proof (size_nonneg cs); lia|]. rewrite Z.add_0_r in Hs0, Hr0.
    assert (∀ m, 0 <= m < size cs → small (off + (k + 1) + m) ∧ no <= (off + (k + 1) + m) / 2 ^ by_ < no + size merged) as Hm'.
    { intros m ?. replace (off + (k + 1) + m) with (off + k + (m + 1)) by lia. apply Hm. rewrite size_cons. lia. }
    cbn [merge_loop]. destruct (c =? 0) eqn:Ec; bool_hyps.
    + subst c. destruct (IH (k + 1) merged Hm' Hu) as (res & -> & Hlen & Hur & Hb). exists res. split_and!; [done..|].
      intros j. rewrite Hb. cbn [contrib]. replace (off + (k + 1)) with (off + k + 1) by lia.
      destruct (_ && _); [|done]. by destruct (_ / _ =? j).
    + rewrite i32_Some by small_lia. cbn [mbind option_bind]. rewrite FloorDivPow2_spec by done. cbn [mbind option_bind].
      set (q := (off + k) / 2 ^ by_) in *.
      assert (small q) as Hq by (apply div_pow2_bounds; [lia|done]).
      rewrite i32_Some by small_lia. cbn [mbind option_bind]. rewrite (proj2 (Z.ltb_ge _ _)) by lia.
      set (b0 := mkExpBuckets no merged). assert (offset b0 <= q <= last_of b0) as Hin by (unfold last_of; cbn; lia).
      assert (merged !! Z.to_nat (q - no) = Some (bucket_at b0 q)) as -> by (by apply (bucket_at_in b0 q)).
      cbn [mbind option_bind]. set (merged' := <[Z.to_nat (q - no) := to_uint 64 (bucket_at b0 q + c)]> merged).
      assert (size merged' = size merged) as Hsize by (unfold size, merged'; by rewrite length_insert).
      destruct (IH (k + 1) merged') as (res & -> & Hlen & Hur & Hb).
      { rewrite Hsize. exact Hm'. }
      { unfold merged'. apply Forall_insert; [done|]. apply to_uint_twice. }
      exists res. unfold size in Hsize. split_and!; [done|lia|done|]. fold (size merged') (size merged) in Hsize.
      intros j. cbn [contrib]. rewrite Hb, Hsize. replace (off + (k + 1)) with (off + k + 1) by lia. fold q.
      assert (bucket_at (mkExpBuckets no merged') j = if j =? q then to_uint 64 (bucket_at b0 q + c) else bucket_at b0 j) as ->
        by (by apply (bucket_at_insert b0 q)).
      unfold last_of in Hin. cbn [offset counts b0] in Hin. fold b0. destruct (Z.eqb_spec j q) as [->|Hn].
      * rewrite Z.eqb_refl, (proj2 (Z.leb_le _ _)), (proj2 (Z.ltb_lt _ _)) by lia. cbn [andb].
        rewrite to_uint_add_l. f_equal. lia.
      * rewrite (proj2 (Z.eqb_neq q j)) by done. by rewrite Z.add_0_l.
Qed.

Lemma Rescale_spec b l by_ :
  holds b l → Forall small l → 0 <= by_ <= 30 →
  ∃ b', Rescale b by_ = Some b' ∧ holds b' ((λ i, i / 2 ^ by_) <$> l)
    ∧ (l ≠ [] → offset b' = offset b / 2 ^ by_ ∧ last_of b' = last_of b / 2 ^ by_).
Proof.
  intros Hh Hs Hby. unfold Rescale. destruct (decide (l = [])) as [->|Hne].
  { assert (counts b = []) as -> by (by apply (h_empty _ _ Hh)). exists b. by split_and!. }
  pose proof (holds_small _ _ Hh Hne Hs) as Hb. pose proof Hb as (Hc & Ho & Hl).
  assert (0 < 2 ^ by_) as Hp by (apply Z.pow_pos_nonneg; lia).
  pose proof (last_of_ge b Hc) as Hge.
  pose proof (Z.div_le_mono (offset b) (last_of b) (2 ^ by_) Hp Hge) as Hdge.
  pose proof (div_pow2_bounds (offset b) by_ ltac:(lia) Ho) as Hno. pose proof (div_pow2_bounds (last_of b) by_ ltac:(lia) Hl) as Hnl.
  destruct (counts b) as [|c0 cs0] eqn:Ec; [done|]. rewrite <- Ec.
  rewrite FloorDivPow2_spec by done. cbn [mbind option_bind]. rewrite LastIndex_spec by done. cbn [mbind option_bind].
  rewrite FloorDivPow2_spec by done. cbn [mbind option_bind]. rewrite i32_Some by small_lia. cbn [mbind option_bind].
  rewrite i32_Some by small_lia. cbn [mbind option_bind].
  set (no := offset b / 2 ^ by_) in *. set (nl := last_of b / 2 ^ by_) in *. set (n := nl - no + 1).
  assert (size (replicate (Z.to_nat n) 0) = n) as Hn by (unfold size; rewrite length_replicate; lia).
  destruct (merge_loop_spec (offset b) by_ no 0 (counts b) (replicate (Z.to_nat n) 0)) as (res & -> & Hlen & _ & Hres);
    [done|done| |by apply Forall_replicate|].
  { intros m Hm. rewrite Z.add_0_r, Hn. assert (offset b <= offset b + m <= last_of b) as Hr by (unfold last_of; lia).
    pose proof (Z.div_le_mono _ _ (2 ^ by_) Hp (proj1 Hr)) as D1. pose proof (Z.div_le_mono _ _ (2 ^ by_) Hp (proj2 Hr)) as D2.
    fold no in D1. fold nl in D2. split; [small_lia|lia]. }
  cbn [mbind option_bind]. eexists. split; [done|].
  assert (last_of (mkExpBuckets no res) = nl) as Hlast.
  { unfold last_of, size in *. cbn. rewrite Hlen. lia. }
  split; [|intros _; by split]. split; rewrite ?Hlast; cbn [offset counts].
  - split; [|by destruct l]. intros ->. unfold size in Hn. cbn in Hlen. lia.
  - intros j. rewrite Hres, Z.add_0_r, Hn.
    assert (bucket_at (mkExpBuckets no (replicate (Z.to_nat n) 0)) j = 0) as ->.
    { unfold bucket_at. cbn. case_match; [|done]. destruct (replicate _ _ !! _) eqn:E; [|done].
      by apply lookup_replicate in E as [-> _]. }
    assert (to_uint 64 (contrib by_ (offset b) (counts b) j) = to_uint 64 (count_idx j ((λ i, i / 2 ^ by_) <$> l))) as HC.
    { rewrite (contrib_count by_ l).
      - f_equal. unfold count_idx. rewrite zsum_fmap. apply zsum_ext. intros x Hx.
        pose proof (h_range _ _ Hh x Hx) as Hr. unfold last_of in Hr.
        rewrite (proj2 (Z.leb_le _ _)), (proj2 (Z.ltb_lt _ _)) by lia. done.
      - intros m Hm. rewrite <- (h_count _ _ Hh).
        replace m with (Z.to_nat (offset b + Z.of_nat m - offset b)) at 1 by lia. apply bucket_at_in.
        unfold last_of, size. lia. }
    rewrite Z.add_0_l. destruct ((no <=? j) && (j <? no + n)) eqn:Ej; [exact HC|].
    rewrite count_idx_notin; [done|]. intros (x & -> & Hx)%list_elem_of_fmap.
    pose proof (h_range _ _ Hh x Hx) as [R1 R2].
    pose proof (Z.div_le_mono _ _ (2 ^ by_) Hp R1) as D1. pose proof (Z.div_le_mono _ _ (2 ^ by_) Hp R2) as D2.
    fold no in D1. fold nl in D2. apply andb_false_iff in Ej as [Ej|Ej]; bool_hyps; lia.
  - intros _. apply list_elem_of_fmap. exists (offset b). split; [done|]. by apply (h_low _ _ Hh).
  - intros _. apply list_elem_of_fmap. exists (last_of b). split; [done|]. by apply (h_high _ _ Hh).
  - intros i (x & -> & Hx)%list_elem_of_fmap. pose proof (h_range _ _ Hh x Hx) as [R1 R2].
    split; by apply Z.div_le_mono.
Qed.

(** ** Index of a value at different scales *)

Lemma ldexp_one_pow2 k : -64 <= k < 64 → ldexp_one k = d_pow2 k.
Proof.
  intros Hk. pose proof (forall_below (λ z, match ldexp_one (z - 64) with
    | S754_finite false m e => (Zpos m =? 4503599627370496) && (e =? z - 64 - 52) | _ => false end) 128) as H.
  specialize (H ltac:(vm_compute; reflexivity) (k + 64) ltac:(lia)). cbv beta in H. replace (k + 64 - 64) with k in H by lia.
  destruct (ldexp_one k) as [| | |[] m e]; try done. apply andb_true_iff in H as [Hm He].
  apply Z.eqb_eq in Hm, He. injection Hm as ->. unfold d_pow2. by rewrite He.
Qed.

Lemma ceil_div_shift v t n : 0 <= n → ceil_div (v * 2 ^ n) (t - n) = ceil_div v t.
Proof.
  intros Hn. unfold ceil_div. destruct (0 <=? t - n) eqn:E1, (0 <=? t) eqn:E2; bool_hyps; try lia.
  - rewrite <- Z.mul_assoc, <- Z.pow_add_r by lia. do 2 f_equal. lia.
  - replace (2 ^ n) with (2 ^ t * 2 ^ (- (t - n))) by (rewrite <- Z.pow_add_r by lia; f_equal; lia).
    rewrite Z.mul_assoc, <- Z.mul_opp_l, Z.div_mul by (apply Z.pow_nonzero; lia). lia.
  - replace (2 ^ (- (t - n))) with (2 ^ (- t) * 2 ^ n) by (rewrite <- Z.pow_add_r by lia; f_equal; lia).
    rewrite <- Z.mul_opp_l, Z.div_mul_cancel_r by (apply Z.pow_nonzero; lia). done.
Qed.
(** Dividing the index by [2^K] is the same as mapping at a scale lower by [K]. *)
Lemma ceil_div_coarser v t K : 0 <= K → ceil_div v (t - K) - 1 = (ceil_div v t - 1) / 2 ^ K.
Proof.
  intros HK. assert (0 < 2 ^ K) as Hp by (apply Z.pow_pos_nonneg; lia).
  assert (ceil_div v (t - K) = - ((- ceil_div v t) / 2 ^ K)) as ->.
  { unfold ceil_div. destruct (0 <=? t - K) eqn:E1, (0 <=? t) eqn:E2; bool_hyps; try lia.
    - replace (2 ^ t) with (2 ^ (t - K) * 2 ^ K) by (rewrite <- Z.pow_add_r by lia; f_equal; lia).
      rewrite Z.mul_assoc, <- Z.mul_opp_l, Z.div_mul by lia. lia.
    - replace (2 ^ K) with (2 ^ (- (t - K)) * 2 ^ t) by (rewrite <- Z.pow_add_r by lia; f_equal; lia).
      rewrite <- Z.mul_opp_l, Z.div_mul_cancel_r by (apply Z.pow_nonzero; lia). done.
    - rewrite Z.opp_involutive, div_div_pow2 by lia. do 3 f_equal. lia. }
  set (c := ceil_div v t). set (D := 2 ^ K) in *. pose proof (Z.div_mod c D ltac:(lia)) as Hdm.
  pose proof (Z.mod_pos_bound c D Hp) as Hmb. destruct (Z.eq_dec (c mod D) 0) as [E|E].
  - rewrite Z.div_opp_l_z by lia. apply (Z.div_unique _ _ _ (D - 1)); lia.
  - rewrite Z.div_opp_l_nz by lia. apply (Z.div_unique _ _ _ (c mod D - 1)); lia.
Qed.

Section log2.
Context (log2 : double → double).

(** [std::log2] of a positive finite value lies between -1074 and 1024, and its
    magnitude is not tiny unless it is zero. *)
Definition log2_contract : Prop := ∀ v, isfinite v = true → d_ltb d_zero v = true →
  match log2 v with
  | S754_zero _ => True
  | S754_finite _ m e => Z.log2 (Zpos m) < 53 ∧ -60 <= Z.log2 (Zpos m) + e ∧ e <= 0 ∧ Zpos m <= 1074 * 2 ^ (- e)
  | _ => False
  end.
Context (Hlog : log2_contract).

(** [MapIndex] is exact in the logarithm. *)
Lemma MapIndex_exact v :
  isfinite v = true → d_ltb d_zero v = true →
  ∃ n t, t <= 0 ∧ Z.abs n <= 1074 * 2 ^ (- t) ∧ ∀ k, -60 <= k <= 60 →
    MapIndex log2 v k = i32 (ceil_div n (t + k)) ≫= λ c, i32 (c - 1).
Proof.
  intros Hf Hp. specialize (Hlog v Hf Hp). unfold MapIndex. destruct (log2 v) as [s|s| |s m e]; try done.
  - exists 0, 0. split_and!; [lia|lia|]. intros k Hk. rewrite ldexp_one_pow2 by lia. unfold d_pow2, d_mul. cbn [SFmul ceil_i32].
    unfold ceil_div. case_match; [done|]. by rewrite Z.opp_0, Z.div_0_l by (apply Z.pow_nonzero; bool_hyps; lia).
  - destruct Hlog as (H1 & H2 & H3 & H4). exists (cond_Zopp s (Zpos m)), e. split_and!; [done|by destruct s|].
    intros k Hk. rewrite ldexp_one_pow2 by lia. pose proof (Z.log2_nonneg (Zpos m)).
    destruct (mul_pow2 s m e k) as (m' & -> & Hm'); [unfold prec; lia|unfold prec; change (emin 53 emax) with (-1074); lia
      |unfold prec, emax; lia|].
    cbn [ceil_i32]. assert (cond_Zopp s (Zpos m') = cond_Zopp s (Zpos m) * 2 ^ (52 - Z.log2 (Zpos m))) as ->
      by (rewrite Hm'; destruct s; cbn [cond_Zopp]; lia).
    by rewrite ceil_div_shift by lia.
Qed.

Lemma MapIndex_coarser v S K i :
  isfinite v = true → d_ltb d_zero v = true → -20 <= S <= 20 → 0 <= K <= 40 →
  MapIndex log2 v S = Some i → MapIndex log2 v (S - K) = Some (i / 2 ^ K).
Proof.
  intros Hf Hp HS HK. destruct (MapIndex_exact v Hf Hp) as (n & t & _ & _ & E). rewrite !E by lia.
  destruct (i32 (ceil_div n (t + S))) as [c|] eqn:Ec; [|done]. cbn [mbind option_bind].
  apply i32_inv in Ec as [-> Hc]. intros [-> Hi]%i32_inv.
  pose proof (ceil_div_coarser n (t + S) K ltac:(lia)) as Hcc. replace (t + (S - K)) with (t + S - K) by lia.
  set (i := ceil_div n (t + S) - 1) in *. assert (0 < 2 ^ K) as Hpos by (apply Z.pow_pos_nonneg; lia).
  assert (Z.min i (-1) <= i / 2 ^ K <= Z.max i 0) as Hb.
  { split; [apply Z.div_le_lower_bound; nia|]. apply Z.div_le_upper_bound; nia. }
  rewrite (i32_Some (ceil_div n (t + S - K))) by (unfold i32_min, i32_max in *; lia).
  cbn [mbind option_bind]. rewrite Hcc, i32_Some; [done|]. unfold i32_min, i32_max in *. lia.
Qed.

(** Below scale 20 every positive finite value has an index in range. *)
Lemma MapIndex_range v S :
  isfinite v = true → d_ltb d_zero v = true → -20 <= S <= 19 → ∃ i, MapIndex log2 v S = Some i ∧ small i.
Proof.
  intros Hf Hp HS. destruct (MapIndex_exact v Hf Hp) as (n & t & Ht & Hn & E). rewrite E by lia.
  set (B := 563085312). assert (- B <= ceil_div n (t + 19) <= B) as H19.
  { change B with (1074 * 2 ^ 19). unfold ceil_div. destruct (0 <=? t + 19) eqn:E1; bool_hyps.
    - assert (1074 * 2 ^ 19 = 1074 * 2 ^ (- t) * 2 ^ (t + 19)) as ->
        by (rewrite <- Z.mul_assoc, <- Z.pow_add_r by lia; do 2 f_equal; lia).
      assert (0 < 2 ^ (t + 19)) by (apply Z.pow_pos_nonneg; lia). nia.
    - assert (0 < 2 ^ (- (t + 19))) as Hp2 by (apply Z.pow_pos_nonneg; lia).
      assert (1074 * 2 ^ (- t) = 1074 * 2 ^ 19 * 2 ^ (- (t + 19))) as Hs
        by (rewrite <- Z.mul_assoc, <- Z.pow_add_r by lia; do 2 f_equal; lia).
      rewrite Hs in Hn. change (1074 * 2 ^ 19) with B in *.
      assert (- B <= - n / 2 ^ (- (t + 19))) by (apply Z.div_le_lower_bound; nia).
      assert (- n / 2 ^ (- (t + 19)) <= B) by (apply Z.div_le_upper_bound; nia). lia. }
  assert (0 < 2 ^ (19 - S)) by (apply Z.pow_pos_nonneg; lia). assert (0 < B) by done.
  pose proof (ceil_div_coarser n (t + 19) (19 - S) ltac:(lia)) as Hcc.
  replace (t + 19 - (19 - S)) with (t + S) in Hcc by lia.
  assert (- B - 1 <= (ceil_div n (t + 19) - 1) / 2 ^ (19 - S)) by (apply Z.div_le_lower_bound; nia).
  assert ((ceil_div n (t + 19) - 1) / 2 ^ (19 - S) < B) by (apply Z.div_lt_upper_bound; nia).
  assert (B < 1073741823) by done. unfold small. change (2 ^ 30) with 1073741824.
  rewrite i32_Some by (unfold i32_min, i32_max; lia). cbn [mbind option_bind].
  rewrite i32_Some by (unfold i32_min, i32_max; lia). eexists. split; [done|lia].
Qed.
End log2.

(** ** The point *)

Definition is_pos (o : double) : bool := d_ltb d_zero o.
Definition is_neg (o : double) : bool := d_ltb o d_zero.
Definition is_zero (o : double) : bool := d_eqb o d_zero.

Lemma sign_cases o :
  isfinite o = true →
  (is_zero o = true ∧ is_pos o = false ∧ is_neg o = false)
  ∨ (is_zero o = false ∧ is_pos o = true ∧ is_neg o = false ∧ isfinite (SFabs o) = true ∧ is_pos (SFabs o) = true)
  ∨ (is_zero o = false ∧ is_pos o = false ∧ is_neg o = true ∧ isfinite (SFabs o) = true ∧ is_pos (SFabs o) = true).
Proof. destruct o as [[]|[]| |[] m e]; try done; intros _; auto 10. Qed.

Section point.
Context (log2 : double → double) (Hlog : log2_contract log2).
Context (max_scale max_buckets : Z) (Hscale : -20 <= max_scale <= 20) (Hbuckets : 2 <= max_buckets).

(** The index at the starting scale, and the indices after [K] halvings. *)
Definition index_of (o : double) : Z := default 0 (MapIndex log2 (SFabs o) max_scale).
Definition indices (K : Z) (side : double → bool) (os : list double) : list Z :=
  (λ o, index_of o / 2 ^ K) <$> List.filter side os.
(** Observations whose starting index is in range. *)
Definition indexed (o : double) : Prop :=
  isfinite o = true ∧ (is_zero o = false → ∃ i, MapIndex log2 (SFabs o) max_scale = Some i ∧ small i).

Record exp_inv (K : Z) (os : list double) (p : ExpHistoPoint) : Prop := {
  ei_K : 0 <= K <= 30;
  ei_scale : eh_scale p = max_scale - K;
  ei_zero : eh_zero_count p = to_uint 64 (size (List.filter is_zero os));
  ei_pos : holds (eh_positive p) (indices K is_pos os);
  ei_neg : holds (eh_negative p) (indices K is_neg os);
  ei_pos_size : size (counts (eh_positive p)) <= max_buckets;
  ei_neg_size : size (counts (eh_negative p)) <= max_buckets
}.

Lemma indices_snoc K side os o :
  indices K side (os ++ [o]) = indices K side os ++ (if side o then [index_of o / 2 ^ K] else []).
Proof. unfold indices. rewrite List.filter_app, fmap_app. cbn. by destruct (side o). Qed.
Lemma indices_coarser K c side os : 0 <= K → 0 <= c → (λ i, i / 2 ^ c) <$> indices K side os = indices (K + c) side os.
Proof.
  intros HK Hc. unfold indices. rewrite <- list_fmap_compose. apply list_fmap_ext. intros i o _. cbn. by apply div_div_pow2.
Qed.

Lemma index_small o : indexed o → is_zero o = false → small (index_of o).
Proof. intros [_ Hi] Hz. destruct (Hi Hz) as (i & E & Hs). unfold index_of. by rewrite E. Qed.
Lemma indices_elem K side os i :
  (∀ o, side o = true → is_zero o = false) → Forall indexed os → i ∈ indices K side os →
  ∃ x, small x ∧ i = x / 2 ^ K.
Proof.
  intros Hside Hos (o & -> & Hin)%list_elem_of_fmap. apply list_elem_of_In, filter_In in Hin as [Hin Ho].
  apply list_elem_of_In in Hin. rewrite Forall_forall in Hos. exists (index_of o). split; [|done].
  apply index_small; auto.
Qed.
Lemma indices_small K side os :
  0 <= K → (∀ o, side o = true → is_zero o = false) → Forall indexed os → Forall small (indices K side os).
Proof.
  intros HK Hside Hos. apply Forall_forall. intros i Hi.
  destruct (indices_elem K side os i Hside Hos Hi) as (x & Hx & ->). by apply div_pow2_bounds.
Qed.
Lemma pos_nonzero o : is_pos o = true → is_zero o = false.
Proof. by destruct o as [[]|[]| |[] m e]. Qed.
Lemma neg_nonzero o : is_neg o = true → is_zero o = false.
Proof. by destruct o as [[]|[]| |[] m e]. Qed.

(** Halving indices never lengthens an array. *)
Lemma div_span a b k : 0 <= k → a <= b → b / 2 ^ k - a / 2 ^ k <= b - a.
Proof.
  intros Hk Hab. assert (0 < 2 ^ k) as Hp by (apply Z.pow_pos_nonneg; lia).
  enough (b / 2 ^ k <= (a + (b - a) * 2 ^ k) / 2 ^ k) as E by (rewrite Z.div_add in E; lia).
  apply Z.div_le_mono; nia.
Qed.
Lemma Rescale_size b l by_ b' :
  holds b l → Forall small l → 0 <= by_ <= 30 → Rescale b by_ = Some b' → size (counts b') <= size (counts b).
Proof.
  intros Hh Hs Hby Hr. destruct (Rescale_spec b l by_ Hh Hs Hby) as (b2 & Hr2 & Hh2 & Hends).
  rewrite Hr in Hr2. injection Hr2 as <-. destruct (decide (l = [])) as [->|Hne].
  - assert (counts b' = []) as -> by (by apply (h_empty _ _ Hh2)). change (size []) with 0. apply size_nonneg.
  - destruct (Hends Hne) as [H1 H2]. assert (counts b ≠ []) as Hc by (by rewrite (h_empty _ _ Hh)).
    pose proof (last_of_ge b Hc). pose proof (div_span (offset b) (last_of b) by_ ltac:(lia) ltac:(lia)).
    unfold last_of in *. lia.
Qed.

Lemma max_div x y d : 0 < d → Z.max (x / d) (y / d) = Z.max x y / d.
Proof.
  intros Hd. destruct (Z.max_spec x y) as [[? ->]|[? ->]]; [rewrite Z.max_r|rewrite Z.max_l]; try done; apply Z.div_le_mono; lia.
Qed.
Lemma min_div x y d : 0 < d → Z.min (x / d) (y / d) = Z.min x y / d.
Proof.
  intros Hd. destruct (Z.min_spec x y) as [[? ->]|[? ->]]; [rewrite Z.min_l|rewrite Z.min_r]; try done; apply Z.div_le_mono; lia.
Qed.

(** After enough halvings of indices at [K] only -1 and 0 are left. *)
Lemma side_collapse b side os index x K k :
  (∀ o, side o = true → is_zero o = false) → Forall indexed os → 0 <= K <= 30 → 0 <= k → 30 - K <= k →
  holds b (indices K side os) → indices K side os ≠ [] → small x → index = x / 2 ^ K →
  span_after b index k <= 2.
Proof.
  intros Hside Hos HK Hk0 Hk Hh Hl Hx ->. unfold span_after.
  assert (∀ a, a = offset b ∨ a = last_of b ∨ a = x / 2 ^ K → -1 <= a / 2 ^ k <= 0) as Hc.
  { intros a Ha. assert (∃ z, small z ∧ a = z / 2 ^ K) as (z & Hz & ->).
    { destruct Ha as [->|[->| ->]]; [| |by exists x]; eapply (indices_elem K side os); try done;
        [by apply (h_low _ _ Hh)|by apply (h_high _ _ Hh)]. }
    rewrite div_div_pow2 by lia. apply div_pow2_collapse; [lia|done]. }
  pose proof (Hc (Z.min (offset b) (x / 2 ^ K)) ltac:(lia)). pose proof (Hc (Z.max (last_of b) (x / 2 ^ K)) ltac:(lia)). lia.
Qed.

(** One side after an insertion, with or without downscaling. *)
Lemma insert_side b side os o K :
  (∀ o, side o = true → is_zero o = false) → Forall indexed (os ++ [o]) → 0 <= K <= 30 → side o = true →
  holds b (indices K side os) → size (counts b) <= max_buckets →
  let index := index_of o / 2 ^ K in
  (is_empty (counts b) = true ∨ span_after b index 0 <= max_buckets →
   ∃ b', Place b index = Some b' ∧ holds b' (indices K side (os ++ [o])) ∧ size (counts b') <= max_buckets)
  ∧ (is_empty (counts b) = false → max_buckets < span_after b index 0 →
     ∃ c, RequiredDownscale b index max_buckets = Some c ∧ 1 <= c ∧ K + c <= 30
       ∧ ∃ b1 b2, Rescale b c = Some b1 ∧ FloorDivPow2 index c = Some (index_of o / 2 ^ (K + c))
           ∧ Place b1 (index_of o / 2 ^ (K + c)) = Some b2 ∧ holds b2 (indices (K + c) side (os ++ [o]))
           ∧ size (counts b2) <= max_buckets).
Proof.
  intros Hside Hos HK Ho Hh Hsz index. apply Forall_app in Hos as [Hos Hoo]. rewrite Forall_singleton in Hoo.
  pose proof (index_small o Hoo (Hside o Ho)) as Hso.
  pose proof (indices_small K side os ltac:(lia) Hside Hos) as Hsm.
  pose proof (div_pow2_bounds (index_of o) K ltac:(lia) Hso) as Hsi.
  split.
  - intros Hfit. destruct (Place_spec b _ index Hh Hsm Hsi) as (b' & Hp & Hh' & Hsz'). exists b'.
    rewrite indices_snoc, Ho. split_and!; [done|done|]. rewrite Hsz'. destruct Hfit as [->|Hfit]; [lia|].
    destruct (is_empty _); lia.
  - intros Hne Hover. assert (indices K side os ≠ []) as Hl.
    { intros E. apply (h_empty _ _ Hh) in E. by rewrite E in Hne. }
    pose proof (holds_small _ _ Hh Hl Hsm) as Hsb.
    assert (∀ k, 0 <= k → 30 - K <= k → span_after b index k <= 2) as Hcollapse
      by (intros k Hk0 Hk; by eapply (side_collapse b side os index (index_of o) K k)).
    assert (K < 30) as HK30.
    { destruct (Z.eq_dec K 30) as [->|]; [|lia]. specialize (Hcollapse 0 ltac:(lia) ltac:(lia)). lia. }
    destruct (downscale_loop_spec 32 b index max_buckets 1 (30 - K)) as (c & Hd & Hc & Hfit & _);
      [done|done|lia|lia|lia|specialize (Hcollapse (30 - K) ltac:(lia) ltac:(lia)); lia|].
    exists c. split_and!; [exact Hd|lia|lia|].
    destruct (Rescale_spec b _ c Hh Hsm ltac:(lia)) as (b1 & Hr & Hh1 & Hends). destruct (Hends Hl) as [E1 E2].
    rewrite indices_coarser in Hh1 by lia.
    assert (small (index_of o / 2 ^ (K + c))) as Hsi' by (apply div_pow2_bounds; [lia|done]).
    destruct (Place_spec b1 _ (index_of o / 2 ^ (K + c)) Hh1
      (indices_small (K + c) side os ltac:(lia) Hside Hos) Hsi') as (b2 & Hp & Hh2 & Hsz2).
    exists b1, b2. split_and!; [done| |done|by rewrite indices_snoc, Ho|].
    + rewrite FloorDivPow2_spec by lia. unfold index. by rewrite div_div_pow2 by lia.
    + rewrite Hsz2. destruct (is_empty (counts b1)); [lia|]. etransitivity; [|exact Hfit].
      unfold span_after. rewrite E1, E2, Z.pow_0_r, !Z.div_1_r. unfold index. rewrite <- (div_div_pow2 (index_of o) K c) by lia.
      rewrite max_div, min_div by (apply Z.pow_pos_nonneg; lia). lia.
Qed.

Lemma InsertValue_spec K os o p :
  Forall indexed (os ++ [o]) → is_zero o = false → exp_inv K os p →
  ∃ K' pos neg, InsertValue log2 p (SFabs o) (is_neg o) max_buckets = Some (with_buckets p (max_scale - K') pos neg)
    ∧ exp_inv K' (os ++ [o]) (with_buckets p (max_scale - K') pos neg).
Proof.
  intros Hos Hz [HK Hsc Hze Hpos Hneg Hps Hns]. pose proof Hos as [Hos1 Hoo]%Forall_app. rewrite Forall_singleton in Hoo.
  destruct Hoo as [Hf Hi]. destruct (Hi Hz) as (i & Ei & Hsi). assert (index_of o = i) as Eo by (unfold index_of; by rewrite Ei).
  assert (isfinite (SFabs o) = true ∧ is_pos (SFabs o) = true) as [Haf Hap]
    by (destruct (sign_cases o Hf) as [[? _]|[(_ & _ & _ & ? & ?)|(_ & _ & _ & ? & ?)]]; [congruence|done|done]).
  assert (MapIndex log2 (SFabs o) (eh_scale p) = Some (index_of o / 2 ^ K)) as HM.
  { rewrite Hsc, Eo. by apply MapIndex_coarser; [done|done|done|done|lia|]. }
  assert (eh_zero_count p = to_uint 64 (size (List.filter is_zero (os ++ [o])))) as Hze'.
  { rewrite List.filter_app. cbn. by rewrite Hz, app_nil_r. }
  unfold InsertValue. rewrite HM. cbn [mbind option_bind].
  pose proof (indices_small K is_pos os ltac:(lia) pos_nonzero Hos1) as Smp.
  pose proof (indices_small K is_neg os ltac:(lia) neg_nonzero Hos1) as Smn.
  pose proof (div_pow2_bounds (index_of o) K ltac:(lia) ltac:(by rewrite Eo)) as Hsi'.
  destruct (sign_cases o Hf) as [[? _]|[(_ & Ep & En & _)|(_ & Ep & En & _)]]; [congruence| |]; rewrite En.
  - destruct (insert_side (eh_positive p) is_pos os o K pos_nonzero Hos HK Ep Hpos Hps) as [Hfit Hover].
    assert (∀ k, indices k is_neg (os ++ [o]) = indices k is_neg os) as Eneg
      by (intros k; by rewrite indices_snoc, En, app_nil_r).
    destruct (is_empty (counts (eh_positive p))) eqn:Ee; cbn [mbind option_bind].
    + destruct Hfit as (b' & -> & ? & ?); [by left|]. cbn [mbind option_bind].
      exists K, b', (eh_negative p). rewrite Hsc. split; [done|]. split; cbn; rewrite ?Eneg; done.
    + assert (small_buckets (eh_positive p)) as Hsb
        by (eapply holds_small; [exact Hpos| |done]; intros E%(h_empty _ _ Hpos); by rewrite E in Ee).
      rewrite MergedSpan_spec by (done || lia). cbn [mbind option_bind].
      destruct (max_buckets <? _) eqn:Es; bool_hyps.
      * destruct (Hover eq_refl Es) as (c & -> & Hc1 & Hc2 & b1 & b2 & Hr1 & HF & Hp & Hh & Hsz). cbn [mbind option_bind].
        rewrite Hr1. cbn [mbind option_bind].
        destruct (Rescale_spec (eh_negative p) _ c Hneg Smn ltac:(lia)) as (n1 & Hn1 & Hhn & _).
        rewrite indices_coarser in Hhn by lia. pose proof (Rescale_size _ _ c _ Hneg Smn ltac:(lia) Hn1) as Hsn.
        rewrite Hn1. cbn [mbind option_bind]. rewrite i32_Some by (unfold i32_min, i32_max; lia). cbn [mbind option_bind].
        rewrite HF. cbn [mbind option_bind]. rewrite Hp. cbn [mbind option_bind]. exists (K + c), b2, n1. replace (eh_scale p - c) with (max_scale - (K + c)) by lia.
        split; [done|]. split; cbn; rewrite ?Eneg; try done; lia.
      * destruct Hfit as (b' & -> & ? & ?); [by right|]. cbn [mbind option_bind].
        exists K, b', (eh_negative p). rewrite Hsc. split; [done|]. split; cbn; rewrite ?Eneg; done.
  - destruct (insert_side (eh_negative p) is_neg os o K neg_nonzero Hos HK En Hneg Hns) as [Hfit Hover].
    assert (∀ k, indices k is_pos (os ++ [o]) = indices k is_pos os) as Epos
      by (intros k; by rewrite indices_snoc, Ep, app_nil_r).
    destruct (is_empty (counts (eh_negative p))) eqn:Ee; cbn [mbind option_bind].
    + destruct Hfit as (b' & -> & ? & ?); [by left|]. cbn [mbind option_bind].
      exists K, (eh_positive p), b'. rewrite Hsc. split; [done|]. split; cbn; rewrite ?Epos; done.
    + assert (small_buckets (eh_negative p)) as Hsb
        by (eapply holds_small; [exact Hneg| |done]; intros E%(h_empty _ _ Hneg); by rewrite E in Ee).
      rewrite MergedSpan_spec by (done || lia). cbn [mbind option_bind].
      destruct (max_buckets <? _) eqn:Es; bool_hyps.
      * destruct (Hover eq_refl Es) as (c & -> & Hc1 & Hc2 & b1 & b2 & Hr1 & HF & Hp & Hh & Hsz). cbn [mbind option_bind].
        destruct (Rescale_spec (eh_positive p) _ c Hpos Smp ltac:(lia)) as (n1 & Hn1 & Hhn & _).
        rewrite indices_coarser in Hhn by lia. pose proof (Rescale_size _ _ c _ Hpos Smp ltac:(lia) Hn1) as Hsn.
        rewrite Hn1. cbn [mbind option_bind]. rewrite Hr1. cbn [mbind option_bind].
        rewrite i32_Some by (unfold i32_min, i32_max; lia). cbn [mbind option_bind]. rewrite HF. cbn [mbind option_bind].
        rewrite Hp. cbn [mbind option_bind]. exists (K + c), n1, b2. replace (eh_scale p - c) with (max_scale - (K + c)) by lia.
        split; [done|]. split; cbn; rewrite ?Epos; try done; lia.
      * destruct Hfit as (b' & -> & ? & ?); [by right|]. cbn [mbind option_bind].
        exists K, (eh_positive p), b'. rewrite Hsc. split; [done|]. split; cbn; rewrite ?Epos; done.
Qed.
End point.

(** What a point is after the observations [os]. *)
Definition observed_at (log2 : double → double) (scale : Z) (side : double → bool) (j : Z) (os : list double) : Z :=
  size (List.filter (λ o, side o && bool_decide (MapIndex log2 (SFabs o) scale = Some j)) os).
Record exp_describes (log2 : double → double) (max_scale max_buckets : Z) (os : list double) (p : ExpHistoPoint) : Prop := {
  ed_count : eh_count p = to_uint 64 (size os);
  ed_zero : eh_zero_count p = to_uint 64 (size (List.filter is_zero os));
  ed_scale : max_scale - 30 <= eh_scale p <= max_scale;
  ed_positive : ∀ j, bucket_at (eh_positive p) j = to_uint 64 (observed_at log2 (eh_scale p) is_pos j os);
  ed_negative : ∀ j, bucket_at (eh_negative p) j = to_uint 64 (observed_at log2 (eh_scale p) is_neg j os);
  ed_budget : size (counts (eh_positive p)) <= max_buckets ∧ size (counts (eh_negative p)) <= max_buckets;
  ed_summary : summary os (eh_sum p) (eh_min p) (eh_max p)
}.

Section exact.
Context (log2 : double → double) (Hlog : log2_contract log2).
Context (max_scale max_buckets : Z) (Hscale : -20 <= max_scale <= 20) (Hbuckets : 2 <= max_buckets).
Abbreviation Indexed := (indexed log2 max_scale).
Abbreviation Inv := (exp_inv log2 max_scale max_buckets).

(** Indices counted are observations that map there at the current scale. *)
Lemma indices_observed K side os j :
  0 <= K <= 30 → (∀ o, side o = true → is_zero o = false) → Forall Indexed os →
  count_idx j (indices log2 max_scale K side os) = observed_at log2 (max_scale - K) side j os.
Proof.
  intros HK Hside Hos. unfold count_idx, indices, observed_at. rewrite zsum_fmap.
  induction Hos as [|o os Ho _ IH]; [done|]. cbn [List.filter]. destruct (side o) eqn:Es; cbn [andb]; [|done].
  destruct Ho as [Hf Hi]. specialize (Hi (Hside o Es)) as (i & Ei & _).
  assert (isfinite (SFabs o) = true ∧ is_pos (SFabs o) = true) as [Haf Hap].
  { pose proof (Hside o Es) as Hz. destruct (sign_cases o Hf) as [[? _]|[(_ & _ & _ & ? & ?)|(_ & _ & _ & ? & ?)]]; [congruence|done|done]. }
  rewrite (MapIndex_coarser log2 Hlog _ _ K i) by (done || lia). rewrite zsum_cons, IH. cbn [compose]. unfold index_of at 1. rewrite Ei. cbn.
  destruct (Z.eqb_spec (i / 2 ^ K) j) as [->|Hn].
  - rewrite bool_decide_true by done. by rewrite size_cons.
  - rewrite bool_decide_false by congruence. done.
Qed.

Lemma exp_inv_new : Inv 0 [] (mkExpHistoPoint max_scale 0 0 d_zero d_zero d_zero ExpBuckets_new ExpBuckets_new).
Proof.
  split; cbn [eh_scale eh_zero_count eh_positive eh_negative]; [lia|lia|done|apply holds_new|apply holds_new|..];
    change (size (counts ExpBuckets_new)) with 0; lia.
Qed.

(** The counters and extrema do not matter to the buckets. *)
Lemma exp_inv_ext K os p p' :
  eh_scale p' = eh_scale p → eh_zero_count p' = eh_zero_count p →
  eh_positive p' = eh_positive p → eh_negative p' = eh_negative p → Inv K os p → Inv K os p'.
Proof. intros E1 E2 E3 E4 []. split; rewrite ?E1, ?E2, ?E3, ?E4; done. Qed.

Lemma exp_record_spec os o p :
  Forall Indexed (os ++ [o]) → size (os ++ [o]) < 2 ^ 64 →
  (os = [] ∧ p = ExpHistoPoint_new
   ∨ os ≠ [] ∧ eh_count p = to_uint 64 (size os) ∧ summary os (eh_sum p) (eh_min p) (eh_max p) ∧ ∃ K, Inv K os p) →
  ∃ p', exp_record log2 max_scale max_buckets o p = Some p' ∧ eh_count p' = to_uint 64 (size (os ++ [o]))
    ∧ summary (os ++ [o]) (eh_sum p') (eh_min p') (eh_max p') ∧ ∃ K, Inv K (os ++ [o]) p'.
Proof.
  intros Hos Hsize Hp. pose proof Hos as [_ Ho]%Forall_app. rewrite Forall_singleton in Ho.
  assert (Forall (λ x, isfinite x = true) (os ++ [o])) as Hfin by (eapply Forall_impl; [exact Hos|]; by intros x []).
  unfold exp_record. cbv zeta. set (fresh := eh_count p =? 0).
  set (q := mkExpHistoPoint (if fresh then max_scale else _) (eh_zero_count p) _ _ _ _ _ _).
  assert (eh_count q = to_uint 64 (size (os ++ [o])) ∧ summary (os ++ [o]) (eh_sum q) (eh_min q) (eh_max q) ∧ ∃ K, Inv K os q)
    as (Hc & Hs & K & HI).
  { destruct Hp as [[-> ->]|(Hne & Hc & Hs & K & HI)].
    - unfold q, fresh. cbn. split_and!; [done|apply summary_first; apply Ho|]. exists 0.
      eapply exp_inv_ext; cycle 4; [apply exp_inv_new|done..].
    - assert (fresh = false) as Ef.
      { unfold fresh. rewrite Hc. rewrite size_app in Hsize. change (size [o]) with 1 in Hsize. pose proof (size_nonneg os).
        assert (size os ≠ 0) by (by rewrite size_nil_iff).
        rewrite to_uint64_id by (unfold u64_max; lia). by apply Z.eqb_neq. }
      unfold q. rewrite Ef. cbn [eh_count eh_sum eh_min eh_max]. split_and!.
      + by rewrite Hc, to_uint_add_l, size_app.
      + by apply summary_next.
      + exists K. by apply (exp_inv_ext K os p). }
  change (d_eqb o d_zero) with (is_zero o). destruct (is_zero o) eqn:Ez.
  - eexists. split; [done|]. cbn [eh_count eh_sum eh_min eh_max]. split_and!; [done|done|]. exists K.
    assert (is_pos o = false ∧ is_neg o = false) as [Ep En].
    { split; apply not_true_iff_false; intros E; [apply pos_nonzero in E|apply neg_nonzero in E]; congruence. }
    destruct HI as [HK Hsc Hze Hpos Hneg Hps Hns]. split; cbn [eh_scale eh_zero_count eh_positive eh_negative]; try done.
    + rewrite List.filter_app. cbn [List.filter]. rewrite Ez, size_app. change (eh_zero_count p) with (eh_zero_count q).
      by rewrite Hze, to_uint_add_l.
    + by rewrite indices_snoc, Ep, app_nil_r.
    + by rewrite indices_snoc, En, app_nil_r.
  - destruct (InsertValue_spec log2 Hlog max_scale max_buckets Hscale Hbuckets K os o q Hos Ez HI) as (K' & pos & neg & HI' & HE).
    change (d_ltb o d_zero) with (is_neg o). rewrite HI'. eexists. split; [done|]. split_and!; [done|done|]. by exists K'.
Qed.

Lemma exp_fold os :
  os ≠ [] → Forall Indexed os → size os < 2 ^ 64 →
  ∃ p, foldl (λ v o, v ≫= exp_record log2 max_scale max_buckets o) (Some ExpHistoPoint_new) os = Some p
    ∧ eh_count p = to_uint 64 (size os) ∧ summary os (eh_sum p) (eh_min p) (eh_max p) ∧ ∃ K, Inv K os p.
Proof.
  induction os as [|o os IH] using rev_ind; [done|]. intros _ Hos Hsize. rewrite foldl_app. cbn [foldl].
  pose proof Hos as [Hos1 _]%Forall_app.
  destruct (decide (os = [])) as [->|Hne].
  - apply exp_record_spec; auto.
  - destruct IH as (p & -> & Hc & Hs & HK); [done|done|rewrite size_app in Hsize; change (size [o]) with 1 in Hsize; lia|].
    cbn [mbind option_bind]. apply exp_record_spec; [done|done|]. right. auto.
Qed.

Lemma exp_describes_fold os :
  os ≠ [] → Forall Indexed os → size os < 2 ^ 64 →
  ∃ p, foldl (λ v o, v ≫= exp_record log2 max_scale max_buckets o) (Some ExpHistoPoint_new) os = Some p
    ∧ exp_describes log2 max_scale max_buckets os p.
Proof.
  intros Hne Hos Hsize. destruct (exp_fold os Hne Hos Hsize) as (p & Hp & Hc & Hs & K & [HK Hsc Hze Hpos Hneg Hps Hns]).
  exists p. split; [done|]. split; [done|done|lia| | |done|done].
  - intros j. rewrite (h_count _ _ Hpos), Hsc. f_equal. apply indices_observed; [done|apply pos_nonzero|done].
  - intros j. rewrite (h_count _ _ Hneg), Hsc. f_equal. apply indices_observed; [done|apply neg_nonzero|done].
Qed.
End exact.

(** The exponential storage implements the storage interface. *)
Definition ExponentialHistogramStorage {T} `{M : Measurement T} (log2 : double → double) (H : Hash)
    (max_scale max_buckets : Z) : MetricStorage H T ExpHistoPoint.
Proof.
  refine {| ms_double := m_double; ms_init := ExpHistoPoint_new;
    ms_update value := exp_record log2 max_scale max_buckets (m_double value); ms_resets := true;
    ms_record := ExponentialHistogramStorage_Record log2 H max_scale max_buckets; ms_collect := Collect |}.
  - intros * Hf. unfold ExponentialHistogramStorage_Record. by rewrite Hf.
  - intros * Hf. unfold ExponentialHistogramStorage_Record. rewrite Hf. eauto.
  - intros. unfold Collect. by rewrite andb_true_r.
Defined.

(** C15: an exponential histogram point is exact.  For every starting scale up to
    19, every bucket budget of at least two and every non-empty sequence of
    finite measurements, recording is free of undefined behaviour and yields a
    point in which every bucket, positive and negative, holds exactly the number
    of measurements that map to it at the point's final scale, however often
    buckets were merged; both arrays are within the budget; zeros, count, sum and
    extrema are exact. *)
Theorem exp_histogram_exact log2 {T} `{M : Measurement T} H max_scale max_buckets (values : list T) :
  log2_contract log2 → -20 <= max_scale <= 19 → 2 <= max_buckets →
  values ≠ [] → Forall (λ v, isfinite (m_double v) = true) values → size values < 2 ^ 64 →
  let S := ExponentialHistogramStorage log2 H max_scale max_buckets in
  ∃ p, aggregate ms_init ms_update values = Some p
    ∧ exp_describes log2 max_scale max_buckets (m_double <$> values) p.
Proof.
  intros Hlog Hsc Hb Hne Hf Hsize S.
  destruct (exp_describes_fold log2 Hlog max_scale max_buckets ltac:(lia) Hb (m_double <$> values)) as (p & Hp & Hd).
  - by destruct values.
  - apply Forall_fmap. eapply Forall_impl; [exact Hf|]. intros v Hv. split; [exact Hv|]. intros Hz.
    destruct (sign_cases _ Hv) as [[? _]|[(_ & _ & _ & ? & ?)|(_ & _ & _ & ? & ?)]]; [congruence| |];
      by apply (MapIndex_range log2 Hlog).
  - unfold size in *. by rewrite length_fmap.
  - exists p. split; [|exact Hd]. rewrite <- Hp. unfold aggregate. cbn [ms_init ms_update S ExponentialHistogramStorage].
    clear. generalize (Some ExpHistoPoint_new). induction values as [|v values IH]; intros o; [done|]. cbn. apply IH.
Qed.

(** A logarithm for evaluation: exact on powers of two, rounded down elsewhere. *)
Definition demo_log2 (v : double) : double :=
  match v with
  | S754_finite false m e => d_of_int (Z.max (-1074) (Z.min 1024 (Z.log2 (Zpos m) + e)))
  | _ => d_zero
  end.
Lemma demo_log2_contract : log2_contract demo_log2.
Proof.
  intros v _ _. unfold demo_log2. destruct v as [| | |[] m e]; try done.
  set (z := Z.max (-1074) (Z.min 1024 (Z.log2 (Zpos m) + e))). assert (-1074 <= z <= 1024) as Hz by (unfold z; lia).
  pose proof (forall_below (λ k, match d_of_int (k - 1074) with
    | S754_zero _ => true
    | S754_finite _ m e => (Z.log2 (Zpos m) <? 53) && (-60 <=? Z.log2 (Zpos m) + e) && (e <=? 0) && (Zpos m <=? 1074 * 2 ^ (- e))
    | _ => false end) 2099) as H.
  specialize (H ltac:(vm_compute; reflexivity) (z + 1074) ltac:(lia)). cbv beta in H.
  replace (z + 1074 - 1074) with z in H by lia. destruct (d_of_int z); try done. by bool_hyps.
Qed.

Lemma exp_histogram_exact_witness :
  ∃ p, aggregate (ms_init (MetricStorage := ExponentialHistogramStorage (T := Z) demo_log2 demo_hash 3 4))
         (ms_update (MetricStorage := ExponentialHistogramStorage (T := Z) demo_log2 demo_hash 3 4)) [1; 2; 4; 0; -8; 64] = Some p
    ∧ exp_describes demo_log2 3 4 (d_of_int <$> [1; 2; 4; 0; -8; 64]) p ∧ eh_scale p = -1.
Proof.
  destruct (exp_histogram_exact demo_log2 demo_hash 3 4 [1; 2; 4; 0; -8; 64]) as (p & Hp & Hd);
    [apply demo_log2_contract|lia|lia|done|by repeat constructor|done|].
  exists p. split; [exact Hp|]. split; [exact Hd|].
  vm_compute in Hp. injection Hp as <-. reflexivity.
Defined.

(** At the documented default of scale 20 and 160 buckets, two finite positive
    observations far enough apart make the span computation overflow. *)
Theorem default_scale_overflows log2 :
  log2 (d_pow2 1023) = d_of_int 1023 → log2 (S754_finite false 1 (-1074)) = d_of_int (-1074) →
  ∃ p, exp_record log2 20 160 (d_pow2 1023) ExpHistoPoint_new = Some p
    ∧ exp_record log2 20 160 (S754_finite false 1 (-1074)) p = None.
Proof.
  intros H1 H2.
  assert (MapIndex log2 (d_pow2 1023) 20 = Some 1072693247) as M1 by (unfold MapIndex; rewrite H1; vm_compute; reflexivity).
  assert (MapIndex log2 (S754_finite false 1 (-1074)) 20 = Some (-1126170625)) as M2
    by (unfold MapIndex; rewrite H2; vm_compute; reflexivity).
  eexists. split.
  - unfold exp_record. cbv zeta. change (d_eqb (d_pow2 1023) d_zero) with false. change (d_ltb (d_pow2 1023) d_zero) with false.
    unfold InsertValue. cbn [eh_count ExpHistoPoint_new Z.eqb eh_scale]. change (SFabs (d_pow2 1023)) with (d_pow2 1023).
    rewrite M1. cbn [mbind option_bind]. vm_compute. reflexivity.
  - unfold exp_record. cbv zeta. cbn [eh_count Z.eqb].
    change (d_eqb (S754_finite false 1 (-1074)) d_zero) with false. change (d_ltb (S754_finite false 1 (-1074)) d_zero) with false.
    unfold InsertValue. cbn [eh_scale]. change (SFabs (S754_finite false 1 (-1074))) with (S754_finite false 1 (-1074)).
    rewrite M2. cbn [mbind option_bind eh_positive counts is_empty]. vm_compute. reflexivity.
Qed.

Lemma default_scale_overflows_witness :
  ∃ p, exp_record demo_log2 20 160 (S754_finite false 1 (-1074)) p = None.
Proof. destruct (default_scale_overflows demo_log2 eq_refl eq_refl) as (p & _ & E). exists p. exact E. Defined.
