(* ===== verification/Meter.v ===== *)
(** * Meters, metric streams and the producer

    Model of [src/sdk/sdk_meter.cpp], [metric_stream_impls.hpp],
    [metric_observable_instruments.hpp] and [metric_producer.cpp], over the views
    of [Views] and the storages of [Metrics] and [ExpHistogram].

    The producer owns the streams; instruments hold pointers to their storage.  A
    pointer is the stream's number in the producer's memory [m_streams], and the
    scope entries of [m_scopes] hold those numbers.  Streams are never removed.  A
    record method is [None] where the code has undefined behaviour.

    A user callback is a function of the number of the invocation: what it
    observes, and whether it then throws.  [span] is the current span, as the
    current-span source answers. *)
From stdpp Require Import sorting.
From S2P Require Import Prelude Trace Context Data Double AttributeSet SpanLimits Series Metrics ExpHistogram Views.

(** ** Streams *)

(** [ObservableCallback]. *)
Record Callback (T : Type) := mkCallback { cb_observed : nat → list (T * list KeyValue); cb_throws : nat → bool }.
Arguments mkCallback {T}.
Arguments cb_observed {T}.
Arguments cb_throws {T}.

(** The classes of [metric_stream_impls.hpp] and [metric_observable_instruments.hpp];
    an observable stream has its callback, behind the bridge with the view's
    allowlist, the count of its invocations, and the map of its result. *)
Inductive MetricStream (T : Type) :=
| MetricStreamSum (monotonic : bool) (storage : Storage T)
| MetricStreamGauge (storage : Storage T)
| MetricStreamHistogram (boundaries : list double) (storage : Storage Point)
| MetricStreamExpHistogram (max_scale max_buckets : Z) (storage : Storage ExpHistoPoint)
| MetricStreamObservableSum (monotonic : bool) (callback : Callback T) (allowlist : option Allowlist) (calls : nat) (result : list (AttributeSet * T))
| MetricStreamObservableGauge (callback : Callback T) (allowlist : option Allowlist) (calls : nat) (result : list (AttributeSet * T)).
Arguments MetricStreamSum {T}.
Arguments MetricStreamGauge {T}.
Arguments MetricStreamHistogram {T}.
Arguments MetricStreamExpHistogram {T}.
Arguments MetricStreamObservableSum {T}.
Arguments MetricStreamObservableGauge {T}.
Inductive AnyStream := Ints (s : MetricStream Z) | Doubles (s : MetricStream double).
(** [IMetricStream] with the members every class has; [st_span_source]: the storage
    has a current-span source. *)
Record Stream := mkStream {
  st_name : str; st_description : str; st_unit : str; st_options : StorageOptions; st_span_source : bool; st_impl : AnyStream }.
Definition with_impl (s : Stream) (i : AnyStream) : Stream :=
  mkStream (st_name s) (st_description s) (st_unit s) (st_options s) (st_span_source s) i.

(** ** Collected data *)

Inductive MetricData :=
| SumData (is_monotonic : bool) (temporality : AggregationTemporality) (points : list (Reported MetricValue))
| GaugeData (points : list (Reported MetricValue))
| HistogramData (temporality : AggregationTemporality) (boundaries : list double) (points : list (Reported Point))
| ExponentialHistogramData (temporality : AggregationTemporality) (points : list (Reported ExpHistoPoint)).
Record MetricRecord := mkMetricRecord { mr_name : str; mr_description : str; mr_unit : str; mr_data : MetricData }.
Record MetricBatchHandle := mkMetricBatch { mb_metrics : list MetricRecord; mb_scope : InstrumentationScope }.

(** [StorageSlot] and [InstrumentSlots]. *)
Record StorageSlot := mkSlot { sl_storage : nat; sl_allowlist : option Allowlist }.
Abbreviation Instrument := (list StorageSlot).

Section meter.
Context (H : Hash) (log2 : double → double).

Definition values {T} `{Measurement T} (points : list (Reported T)) : list (Reported MetricValue) :=
  (λ p, mkReported (rp_attributes p) (m_value (rp_point p)) (rp_exemplars p)) <$> points.

(** [ObservableResult::Observe]. *)
Definition Observe {T} (opts : StorageOptions) (value : T) (attrs : list KeyValue) (m_map : list (AttributeSet * T)) : list (AttributeSet * T) * Drops :=
  let key := AttributeSet_of H attrs in
  let is_new := match find_index key m_map with None => true | Some _ => false end in
  let needs_fold := is_new && (max_cardinality opts <=? size m_map) in
  let key := if needs_fold then OverflowAttributeSet H else key in
  (insert_or_assign key value m_map, if needs_fold && so_diag opts then [(CardinalityOverflow, 1)] else []).
(** The bridged callback on a cleared result: [SdkObservableResultAdapter::Observe]
    for each observation. *)
Definition run_callback {T} (opts : StorageOptions) (allowlist : option Allowlist) (observed : list (T * list KeyValue)) : list (AttributeSet * T) * Drops :=
  foldl (λ '(m, calls) '(value, attrs), let '(m, c) := Observe opts value (slot_attrs attrs allowlist) m in (m, calls ++ c)) ([], []) observed.
(** The points of the loops over [m_result.Map()]. *)
Definition observed_points {T} `{Measurement T} (m : list (AttributeSet * T)) : list (Reported MetricValue) :=
  (λ p, mkReported (AttributeSet.m_pairs (fst p)) (m_value (snd p)) []) <$> m.

(** [Collect] of each class.  [None]: the callback threw; the stream is as it was
    left. *)
Definition MetricStream_Collect {T} `{Measurement T} (opts : StorageOptions) (t : AggregationTemporality) (s : MetricStream T)
    : option MetricData * MetricStream T * Drops :=
  match s with
  | MetricStreamSum mono st => let '(points, st) := Collect st t in (Some (SumData mono t (values points)), MetricStreamSum mono st, [])
  | MetricStreamGauge st => let '(points, st) := GaugeStorage_Collect st in (Some (GaugeData (values points)), MetricStreamGauge st, [])
  | MetricStreamHistogram bounds st =>
      let '(points, st) := Collect st t in (Some (HistogramData t bounds points), MetricStreamHistogram bounds st, [])
  | MetricStreamExpHistogram ms mb st =>
      let '(points, st) := Collect st t in (Some (ExponentialHistogramData t points), MetricStreamExpHistogram ms mb st, [])
  | MetricStreamObservableSum mono cb al calls _ =>
      let '(m, drops) := run_callback opts al (cb_observed cb calls) in
      (if cb_throws cb calls then None else Some (SumData mono t (observed_points m)), MetricStreamObservableSum mono cb al (S calls) m, drops)
  | MetricStreamObservableGauge cb al calls _ =>
      let '(m, drops) := run_callback opts al (cb_observed cb calls) in
      (if cb_throws cb calls then None else Some (GaugeData (observed_points m)), MetricStreamObservableGauge cb al (S calls) m, drops)
  end.
Definition Stream_Collect (t : AggregationTemporality) (s : Stream) : option MetricRecord * Stream * Drops :=
  let named d := mkMetricRecord (st_name s) (st_description s) (st_unit s) d in
  match st_impl s with
  | Ints i => let '(d, i, drops) := MetricStream_Collect (st_options s) t i in (named <$> d, with_impl s (Ints i), drops)
  | Doubles i => let '(d, i, drops) := MetricStream_Collect (st_options s) t i in (named <$> d, with_impl s (Doubles i), drops)
  end.

(** [Storage().Add] and [Storage().Record] through a pointer; an observable stream
    has no storage to point to. *)
Definition MetricStream_Record {T} `{Measurement T} (opts : StorageOptions) (value : T) (attrs : list KeyValue) (span : option SpanContext) (now : Z)
    (s : MetricStream T) : option (MetricStream T * Drops) :=
  match s with
  | MetricStreamSum mono st => '(st, d) ← SumStorage_Add H opts value attrs span now st; Some (MetricStreamSum mono st, d)
  | MetricStreamGauge st => '(st, d) ← GaugeStorage_Record H opts value attrs span now st; Some (MetricStreamGauge st, d)
  | MetricStreamHistogram b st => '(st, d) ← HistogramStorage_Record H b opts value attrs span now st; Some (MetricStreamHistogram b st, d)
  | MetricStreamExpHistogram ms mb st =>
      '(st, d) ← ExponentialHistogramStorage_Record log2 H ms mb opts value attrs span now st; Some (MetricStreamExpHistogram ms mb st, d)
  | MetricStreamObservableSum _ _ _ _ _ | MetricStreamObservableGauge _ _ _ _ => None
  end.
Definition Stream_Record (value : MetricValue) (attrs : list KeyValue) (span : option SpanContext) (now : Z) (s : Stream) : option (Stream * Drops) :=
  let span := if st_span_source s then span else None in
  match st_impl s, value with
  | Ints i, MvInt v => '(i, d) ← MetricStream_Record (st_options s) v attrs span now i; Some (with_impl s (Ints i), d)
  | Doubles i, MvDouble v => '(i, d) ← MetricStream_Record (st_options s) v attrs span now i; Some (with_impl s (Doubles i), d)
  | _, _ => None
  end.

(** ** [MetricProducer] *)

Record ScopeEntry := mkScopeEntry { se_scope : InstrumentationScope; se_streams : list nat }.
Record MetricProducer := mkProducer { m_streams : list Stream; m_scopes : list ScopeEntry }.
Definition MetricProducer_new : MetricProducer := mkProducer [] [].

(** The loop of [AddStream] over the entries; [None]: no entry of that scope. *)
Fixpoint push_stream (scope : InstrumentationScope) (id : nat) (entries : list ScopeEntry) : option (list ScopeEntry) :=
  match entries with
  | [] => None
  | e :: rest =>
      if (scope_name (se_scope e) =s scope_name scope) && (scope_version (se_scope e) =s scope_version scope)
      then Some (mkScopeEntry (se_scope e) (se_streams e ++ [id]) :: rest)
      else cons e <$> push_stream scope id rest
  end.
(** [AddStream], and the address of the stream. *)
Definition AddStream (scope : InstrumentationScope) (s : Stream) (p : MetricProducer) : MetricProducer * nat :=
  let id := length (m_streams p) in
  (mkProducer (m_streams p ++ [s])
     match push_stream scope id (m_scopes p) with Some l => l | None => m_scopes p ++ [mkScopeEntry scope [id]] end, id).

(** The loops of [Collect]: the streams of one scope, then the scopes.  The first
    component is [None] when a callback threw; a dangling pointer is undefined. *)
Fixpoint collect_streams (t : AggregationTemporality) (ids : list nat) (mem : list Stream)
    : option (option (list MetricRecord) * list Stream * Drops) :=
  match ids with
  | [] => Some (Some [], mem, [])
  | id :: rest =>
      s ← mem !! id;
      let '(r, s, drops) := Stream_Collect t s in
      let mem := <[id := s]> mem in
      match r with
      | None => Some (None, mem, drops)
      | Some r => '(rs, mem, drops') ← collect_streams t rest mem; Some (option_map (cons r) rs, mem, drops ++ drops')
      end
  end.
Fixpoint collect_scopes (t : AggregationTemporality) (entries : list ScopeEntry) (mem : list Stream)
    : option (option (list MetricBatchHandle) * list Stream * Drops) :=
  match entries with
  | [] => Some (Some [], mem, [])
  | e :: rest =>
      '(rs, mem, drops) ← collect_streams t (se_streams e) mem;
      match rs with
      | None => Some (None, mem, drops)
      | Some rs =>
          '(hs, mem, drops') ← collect_scopes t rest mem;
          Some (option_map (cons (mkMetricBatch rs (se_scope e))) hs, mem, drops ++ drops')
      end
  end.
(** [Collect]: the snapshot of the scopes, then the loops. *)
Definition MetricProducer_Collect (t : AggregationTemporality) (p : MetricProducer)
    : option (option (list MetricBatchHandle) * MetricProducer * Drops) :=
  '(hs, mem, drops) ← collect_scopes t (m_scopes p) (m_streams p);
  Some (hs, mkProducer mem (m_scopes p), drops).

(** ** Instruments *)

(** [InstrumentSlots::ForEach], with the record method of the instrument. *)
Fixpoint ForEach (slots : Instrument) (value : MetricValue) (attrs : list KeyValue) (span : option SpanContext) (now : Z) (mem : list Stream)
    : option (list Stream * Drops) :=
  match slots with
  | [] => Some (mem, [])
  | slot :: rest =>
      s ← mem !! sl_storage slot;
      '(s, drops) ← Stream_Record value (slot_attrs attrs (sl_allowlist slot)) span now s;
      '(mem, drops') ← ForEach rest value attrs span now (<[sl_storage slot := s]> mem);
      Some (mem, drops ++ drops')
  end.
(** [Add] or [Record] of a synchronous instrument. *)
Definition Instrument_Record (slots : Instrument) (value : MetricValue) (attrs : list KeyValue) (span : option SpanContext) (now : Z) (p : MetricProducer)
    : option (MetricProducer * Drops) :=
  '(mem, drops) ← ForEach slots value attrs span now (m_streams p); Some (mkProducer mem (m_scopes p), drops).

(** ** [SdkMeter] *)

Record SdkMeter := mkMeter {
  m_scope : InstrumentationScope; m_max_cardinality : Z; m_diag : bool; m_registry : option ViewRegistry; m_span_source : bool }.
Definition meter_options (m : SdkMeter) : StorageOptions := mkStorageOptions (m_max_cardinality m) (m_diag m).

(** The loop of every [DoCreate]: one stream and one slot per spec. *)
Fixpoint create_slots (m : SdkMeter) (impl : AnyStream) (description unit : str) (specs : list StreamSpec) (p : MetricProducer) : Instrument * MetricProducer :=
  match specs with
  | [] => ([], p)
  | spec :: rest =>
      let '(p, id) := AddStream (m_scope m) (mkStream (spec_name spec) description unit (meter_options m) (m_span_source m) impl) p in
      let '(slots, p) := create_slots m impl description unit rest p in
      (mkSlot id (spec_allowlist spec) :: slots, p)
  end.
Definition DoCreate (m : SdkMeter) (kind : InstrumentKind) (impl : AnyStream) (name description unit : str) (p : MetricProducer) : Instrument * MetricProducer :=
  let desc := mkDescriptor name kind (scope_name (m_scope m)) in
  create_slots m impl description unit (ResolveStreamSpecs name (m_registry m) desc) p.

Definition DoCreateCounterI64 (m : SdkMeter) := DoCreate m Counter (Ints (MetricStreamSum true Storage_new)).
Definition DoCreateCounterDouble (m : SdkMeter) := DoCreate m Counter (Doubles (MetricStreamSum true Storage_new)).
Definition DoCreateUpDownCounterI64 (m : SdkMeter) := DoCreate m UpDownCounter (Ints (MetricStreamSum false Storage_new)).
Definition DoCreateUpDownCounterDouble (m : SdkMeter) := DoCreate m UpDownCounter (Doubles (MetricStreamSum false Storage_new)).
Definition DoCreateGaugeI64 (m : SdkMeter) := DoCreate m Gauge (Ints (MetricStreamGauge Storage_new)).
Definition DoCreateGaugeDouble (m : SdkMeter) := DoCreate m Gauge (Doubles (MetricStreamGauge Storage_new)).
Definition DoCreateHistogramI64 (m : SdkMeter) (bounds : list double) := DoCreate m Histogram (Ints (MetricStreamHistogram bounds Storage_new)).
Definition DoCreateHistogramDouble (m : SdkMeter) (bounds : list double) := DoCreate m Histogram (Doubles (MetricStreamHistogram bounds Storage_new)).
Definition DoCreateExponentialHistogramI64 (m : SdkMeter) (max_scale max_buckets : Z) :=
  DoCreate m ExponentialHistogram (Ints (MetricStreamExpHistogram max_scale max_buckets Storage_new)).
Definition DoCreateExponentialHistogramDouble (m : SdkMeter) (max_scale max_buckets : Z) :=
  DoCreate m ExponentialHistogram (Doubles (MetricStreamExpHistogram max_scale max_buckets Storage_new)).

(** [AddObservableSums] and [AddObservableGauges]: [mk] wraps the callback with the
    allowlist of the spec, as [BridgeCallback] does. *)
Fixpoint add_observables (m : SdkMeter) (mk : option Allowlist → AnyStream) (description unit : str) (specs : list StreamSpec) (p : MetricProducer) : MetricProducer :=
  match specs with
  | [] => p
  | spec :: rest =>
      add_observables m mk description unit rest
        (AddStream (m_scope m) (mkStream (spec_name spec) description unit (meter_options m) false (mk (spec_allowlist spec))) p).1
  end.
Definition RegisterObservable {T} (inj : MetricStream T → AnyStream) (m : SdkMeter) (kind : InstrumentKind) (name description unit : str) (callback : Callback T)
    (p : MetricProducer) : MetricProducer :=
  let desc := mkDescriptor name kind (scope_name (m_scope m)) in
  let specs := ResolveStreamSpecs name (m_registry m) desc in
  let mk al := inj (if bool_decide (kind = ObservableGauge) then MetricStreamObservableGauge callback al 0 []
                    else MetricStreamObservableSum (bool_decide (kind = ObservableCounter)) callback al 0 []) in
  add_observables m mk description unit specs p.
Definition DoCreateObservableCounterI64 (m : SdkMeter) := RegisterObservable Ints m ObservableCounter.
Definition DoCreateObservableCounterDouble (m : SdkMeter) := RegisterObservable Doubles m ObservableCounter.
Definition DoCreateObservableUpDownCounterI64 (m : SdkMeter) := RegisterObservable Ints m ObservableUpDownCounter.
Definition DoCreateObservableUpDownCounterDouble (m : SdkMeter) := RegisterObservable Doubles m ObservableUpDownCounter.
Definition DoCreateObservableGaugeI64 (m : SdkMeter) := RegisterObservable Ints m ObservableGauge.
Definition DoCreateObservableGaugeDouble (m : SdkMeter) := RegisterObservable Doubles m ObservableGauge.
End meter.
