(* ===== verification/MeterSpec.v ===== *)
(** * Metric pipelines are independent histories

    Application threads record through instruments while the reader collects; every
    access to a stream holds that stream's mutex, so any interleaving is a sequence
    of [Step]s, one per stream accessed.  The calls of [Meter] are such sequences.

    The theorems: in every interleaving each stream is exactly a storage that saw
    its own measurements and collections ([meter_pipeline_exact]), so what
    [Metrics.collected_series_exact] says of a storage holds of every stream of the
    SDK; and an observable stream reports what its callback observed in that cycle
    and nothing older ([observable_collect_exact]). *)
From stdpp Require Import sorting.
From S2P Require Import Prelude Trace Context Data Double AttributeSet SpanLimits Series Metrics ExpHistogram Views Meter.

Section steps.
Context (H : Hash) (log2 : double → double).

(** ** Steps *)

Inductive Step :=
| StepAdd (s : Stream)
| StepRecord (id : nat) (value : MetricValue) (attrs : list KeyValue) (span : option SpanContext) (now : Z)
| StepCollect (id : nat) (t : AggregationTemporality).
(** Memory, and the records collected so far with the stream they are of. *)
Definition Mem : Type := list Stream * list (nat * option MetricRecord) * Drops.
Definition exec_step (s : Mem) (e : Step) : option Mem :=
  let '(mem, outs, drops) := s in
  match e with
  | StepAdd s => Some (mem ++ [s], outs, drops)
  | StepRecord id value attrs span now =>
      s ← mem !! id; '(s, d) ← Stream_Record H log2 value attrs span now s; Some (<[id := s]> mem, outs, drops ++ d)
  | StepCollect id t => s ← mem !! id; let '(r, s, d) := Stream_Collect H t s in Some (<[id := s]> mem, outs ++ [(id, r)], drops ++ d)
  end.
Definition run_steps (s : Mem) (steps : list Step) : option Mem := foldl (λ s e, s ≫= λ s, exec_step s e) (Some s) steps.

Lemma run_steps_app s es es' : run_steps s (es ++ es') = run_steps s es ≫= λ s, run_steps s es'.
Proof.
  unfold run_steps. rewrite foldl_app. destruct (foldl _ (Some s) es) as [s'|]; [done|]. cbn. clear. induction es' as [|e es IH]; [done|]. apply IH.
Qed.
Lemma run_steps_cons s e es : run_steps s (e :: es) = exec_step s e ≫= λ s, run_steps s es.
Proof. apply (run_steps_app s [e] es). Qed.

(** [InstrumentSlots::ForEach] is one step per slot. *)
Definition record_steps (slots : Instrument) (value : MetricValue) (attrs : list KeyValue) (span : option SpanContext) (now : Z) : list Step :=
  (λ slot, StepRecord (sl_storage slot) value (slot_attrs attrs (sl_allowlist slot)) span now) <$> slots.
Lemma ForEach_steps slots value attrs span now : ∀ mem outs drops,
  run_steps (mem, outs, drops) (record_steps slots value attrs span now)
  = '(mem', d) ← ForEach H log2 slots value attrs span now mem; Some (mem', outs, drops ++ d).
Proof.
  induction slots as [|slot slots IH]; intros mem outs drops; cbn [ForEach record_steps fmap list_fmap mbind option_bind]; [unfold run_steps; cbn; by rewrite app_nil_r|].
  rewrite run_steps_cons. cbn [exec_step]. destruct (mem !! sl_storage slot) as [s|]; cbn [mbind option_bind]; [|done].
  destruct (Stream_Record _ _ _ _ _ _ s) as [[s' d]|]; cbn [mbind option_bind]; [|done].
  fold (record_steps slots value attrs span now). rewrite IH. destruct (ForEach _ _ slots _ _ _ _ _) as [[mem' d']|]; cbn [mbind option_bind]; [|done].
  by rewrite app_assoc.
Qed.
(** [MetricProducer::Collect] is one step per stream, in order; a throw ends it. *)
Definition collect_steps (t : AggregationTemporality) (ids : list nat) : list Step := (λ id, StepCollect id t) <$> ids.
Lemma collect_streams_steps t ids : ∀ mem rs mem' d outs drops,
  collect_streams H t ids mem = Some (Some rs, mem', d) →
  run_steps (mem, outs, drops) (collect_steps t ids) = Some (mem', outs ++ zip ids (Some <$> rs), drops ++ d) ∧ length rs = length ids.
Proof.
  induction ids as [|id ids IH]; intros mem rs mem' d outs drops; cbn [collect_streams collect_steps fmap list_fmap].
  { intros [= <- <- <-]. by rewrite !app_nil_r. }
  rewrite run_steps_cons. cbn [exec_step]. destruct (mem !! id) as [s|]; cbn [mbind option_bind]; [|done].
  destruct (Stream_Collect H t s) as [[[r|] s'] d0]; [|done]. destruct (collect_streams H t ids _) as [[[[rs0|] mem1] d1]|] eqn:E; cbn; try done.
  intros [= <- <- <-]. destruct (IH _ _ _ _ (outs ++ [(id, Some r)]) (drops ++ d0) E) as [E' El]. fold (collect_steps t ids). rewrite E'. cbn.
  split; [by rewrite <- !app_assoc|by rewrite El].
Qed.
Lemma collect_scopes_steps t entries : ∀ mem hs mem' d outs drops,
  collect_scopes H t entries mem = Some (Some hs, mem', d) →
  let ids := concat (se_streams <$> entries) in
  run_steps (mem, outs, drops) (collect_steps t ids) = Some (mem', outs ++ zip ids (Some <$> concat (mb_metrics <$> hs)), drops ++ d)
  ∧ mb_scope <$> hs = se_scope <$> entries ∧ length <$> (mb_metrics <$> hs) = length <$> (se_streams <$> entries).
Proof.
  induction entries as [|e entries IH]; intros mem hs mem' d outs drops; cbn [collect_scopes].
  { intros [= <- <- <-]. cbn. by rewrite !app_nil_r. }
  destruct (collect_streams H t (se_streams e) mem) as [[[[rs|] mem1] d1]|] eqn:E1; cbn [mbind option_bind]; try done.
  destruct (collect_scopes H t entries mem1) as [[[[hs0|] mem2] d2]|] eqn:E2; cbn [mbind option_bind option_map]; try done.
  intros [= <- <- <-]. destruct (collect_streams_steps _ _ _ _ _ _ outs drops E1) as [R1 L1].
  destruct (IH _ _ _ _ (outs ++ zip (se_streams e) (Some <$> rs)) (drops ++ d1) E2) as (R2 & S2 & L2).
  cbn [fmap list_fmap concat mb_metrics mb_scope]. split_and!.
  - unfold collect_steps. rewrite fmap_app, run_steps_app. fold (collect_steps t (se_streams e)). rewrite R1. cbn [mbind option_bind].
    fold (collect_steps t (concat (se_streams <$> entries))). rewrite R2, fmap_app, zip_with_app by (by rewrite length_fmap). by rewrite <- !app_assoc.
  - by rewrite <- S2.
  - rewrite <- L2. by rewrite L1.
Qed.

(** ** The stream classes as an interface *)

(** A stream class wraps a storage: what it records and collects is the storage's. *)
Class StreamClass {T V} `{Measurement T} (S : MetricStorage H T V) (mk : Storage V → MetricStream T) := {
  sc_data : AggregationTemporality → list (Reported V) → MetricData;
  sc_record opts v attrs span now st :
    MetricStream_Record H log2 opts v attrs span now (mk st) = '(st', d) ← ms_record opts v attrs span now st; Some (mk st', d);
  sc_collect opts t st :
    MetricStream_Collect H opts t (mk st) = (Some (sc_data t (ms_collect st t).1), mk (ms_collect st t).2, [])
}.
#[export] Instance sum_class {T} `{M : Measurement T} mono : StreamClass (SumStorage H) (@MetricStreamSum T mono).
Proof. by exists (λ t points, SumData mono t (values points)). Defined.
#[export] Instance gauge_class {T} `{M : Measurement T} : StreamClass (GaugeStorage H) (@MetricStreamGauge T).
Proof. by exists (λ t points, GaugeData (values points)). Defined.
#[export] Instance histogram_class {T} `{M : Measurement T} bounds : StreamClass (HistogramStorage H bounds) (@MetricStreamHistogram T bounds).
Proof. by exists (λ t points, HistogramData t bounds points). Defined.
#[export] Instance exp_histogram_class {T} `{M : Measurement T} ms mb :
  StreamClass (ExponentialHistogramStorage log2 H ms mb) (@MetricStreamExpHistogram T ms mb).
Proof. by exists (λ t points, ExponentialHistogramData t points). Defined.

(** The two value types. *)
Class ValueType (T : Type) `{Measurement T} := {
  vt_inj : MetricStream T → AnyStream;
  vt_of : MetricValue → option T;
  vt_record v attrs span now s i : st_impl s = vt_inj i →
    Stream_Record H log2 v attrs span now s
    = x ← vt_of v; '(i, d) ← MetricStream_Record H log2 (st_options s) x attrs (if st_span_source s then span else None) now i;
      Some (with_impl s (vt_inj i), d);
  vt_collect t s i : st_impl s = vt_inj i →
    Stream_Collect H t s
    = let '(d, i, drops) := MetricStream_Collect H (st_options s) t i in
      (mkMetricRecord (st_name s) (st_description s) (st_unit s) <$> d, with_impl s (vt_inj i), drops)
}.
#[export] Instance value_i64 : ValueType Z.
Proof.
  exists Ints (λ v, match v with MvInt z => Some z | MvDouble _ => None end).
  - intros v attrs span now s i E. unfold Stream_Record. rewrite E. by destruct v.
  - intros t s i E. unfold Stream_Collect. by rewrite E.
Defined.
#[export] Instance value_double : ValueType double.
Proof.
  exists Doubles (λ v, match v with MvDouble d => Some d | MvInt _ => None end).
  - intros v attrs span now s i E. unfold Stream_Record. rewrite E. by destruct v.
  - intros t s i E. unfold Stream_Collect. by rewrite E.
Defined.

(** ** One stream's view of a history *)

Section one.
Context {T V} `{M : Measurement T} `{VT : !ValueType T} (S : MetricStorage H T V) (mk : Storage V → MetricStream T) `{C : !StreamClass S mk}.
Context (s0 : Stream) (id : nat).

(** The calls a history makes on stream [id]. *)
Definition call_of (e : Step) : list (Call T) :=
  match e with
  | StepRecord j v attrs span now =>
      if decide (j = id) then match vt_of v with Some x => [CallRecord x attrs (if st_span_source s0 then span else None) now] | None => [] end else []
  | StepCollect j t => if decide (j = id) then [CallCollect t] else []
  | StepAdd _ => []
  end.
Definition calls_of (steps : list Step) : list (Call T) := concat (call_of <$> steps).
(** The records collected from it. *)
Definition records_of (outs : list (nat * option MetricRecord)) : list (option MetricRecord) :=
  omap (λ o, if decide (o.1 = id) then Some o.2 else None) outs.
Definition record_of (t : AggregationTemporality) (data : list (Reported V)) : option MetricRecord :=
  Some (mkMetricRecord (st_name s0) (st_description s0) (st_unit s0) (sc_data t data)).
Definition is_wrapping (s : Stream) (st : Storage V) : Prop := s = with_impl s0 (vt_inj (mk st)).

Lemma calls_of_snoc es e : calls_of (es ++ [e]) = calls_of es ++ call_of e.
Proof. unfold calls_of. rewrite fmap_app, concat_app. cbn. by rewrite app_nil_r. Qed.
Lemma run_snoc opts (cs : list (Call T)) c : Metrics.run (S := S) opts (cs ++ [c]) = Metrics.run opts cs ≫= λ s, exec opts s c.
Proof. unfold Metrics.run. by rewrite foldl_app. Qed.

(** Whatever the other streams do, [id] is the storage that saw its own calls. *)
Lemma stream_history mem0 outs0 drops0 steps mem outs drops :
  mem0 !! id = Some (with_impl s0 (vt_inj (mk Storage_new))) → records_of outs0 = [] →
  run_steps (mem0, outs0, drops0) steps = Some (mem, outs, drops) →
  ∃ s st reports d, mem !! id = Some s ∧ is_wrapping s st
  ∧ Metrics.run (S := S) (st_options s0) (calls_of steps) = Some (st, reports, d)
  ∧ records_of outs = zip_with record_of (temporalities (calls_of steps)) reports
  ∧ length (temporalities (calls_of steps)) = length reports.
Proof.
  intros H0 Ho. revert mem outs drops. induction steps as [|e steps IH] using rev_ind; intros mem outs drops.
  { intros [= <- <- <-]. eexists _, Storage_new, [], []. split_and!; [exact H0|done|done|done|done]. }
  rewrite run_steps_app. destruct (run_steps (mem0, outs0, drops0) steps) as [[[mem1 outs1] drops1]|]; cbn [mbind option_bind]; [|done].
  destruct (IH _ _ _ eq_refl) as (s & st & reports & d & Hs & Hw & Hr & Hrec & Hl). rewrite run_steps_cons.
  rewrite calls_of_snoc. unfold temporalities in *. rewrite omap_app. unfold run_steps. cbn [foldl].
  destruct e as [s1|j v attrs span now|j t]; cbn [exec_step call_of].
  - cbn [mbind option_bind]. intros [= <- <- <-]. rewrite app_nil_r. cbn [omap list_omap]. rewrite app_nil_r.
    exists s, st, reports, d. split_and!; try done. rewrite lookup_app_l; [done|by eapply lookup_lt_Some].
  - destruct (mem1 !! j) as [sj|] eqn:Ej; cbn [mbind option_bind]; [|done]. destruct (decide (j = id)) as [->|Hne].
    + assert (sj = s) as -> by congruence. rewrite (vt_record _ _ _ _ s (mk st)) by (by rewrite Hw).
      destruct (vt_of v) as [x|]; cbn [mbind option_bind]; [|done]. rewrite sc_record.
      assert (st_options s = st_options s0 ∧ st_span_source s = st_span_source s0) as [-> ->] by (by rewrite Hw).
      destruct (ms_record (st_options s0) x attrs _ now st) as [[st' d']|] eqn:Em; cbn [mbind option_bind]; [|done]. intros [= <- <- <-].
      exists (with_impl s (vt_inj (mk st'))), st', reports, (d ++ d'). cbn [omap list_omap]. rewrite app_nil_r.
      rewrite list_lookup_insert_eq by (by eapply lookup_lt_Some).
      split_and!; [done|unfold is_wrapping; by rewrite Hw| |done|done].
      rewrite run_snoc, Hr. cbn [mbind option_bind exec]. by rewrite Em.
    + destruct (Stream_Record _ _ _ _ _ _ sj) as [[sj' d']|]; cbn [mbind option_bind]; [|done]. intros [= <- <- <-]. rewrite app_nil_r. cbn [omap list_omap].
      rewrite app_nil_r. exists s, st, reports, d. split_and!; try done. by rewrite list_lookup_insert_ne.
  - destruct (mem1 !! j) as [sj|] eqn:Ej; cbn [mbind option_bind]; [|done]. destruct (decide (j = id)) as [->|Hne].
    + assert (sj = s) as -> by congruence. rewrite (vt_collect t s (mk st)) by (by rewrite Hw). rewrite sc_collect.
      intros [= <- <- <-]. destruct (ms_collect st t) as [data st'] eqn:Em. cbn [fst snd omap list_omap].
      exists (with_impl s (vt_inj (mk st'))), st', (reports ++ [data]), d.
      rewrite list_lookup_insert_eq by (by eapply lookup_lt_Some). split_and!; [done|unfold is_wrapping; by rewrite Hw| | |].
      * rewrite run_snoc, Hr. cbn [mbind option_bind exec]. by rewrite Em.
      * unfold records_of in *. rewrite omap_app, Hrec, zip_with_app by done. cbn. rewrite decide_True by done. by rewrite Hw.
      * rewrite !length_app. cbn. lia.
    + destruct (Stream_Collect H t sj) as [[r sj'] d']. intros [= <- <- <-]. rewrite app_nil_r. cbn [omap list_omap].
      rewrite app_nil_r. exists s, st, reports, d. split_and!; try done; [by rewrite list_lookup_insert_ne|].
      unfold records_of in *. rewrite omap_app, Hrec. cbn. rewrite decide_False by done. by rewrite app_nil_r.
Qed.
End one.
End steps.

(** ** Creating instruments *)

Definition stream_of (m : SdkMeter) (impl : AnyStream) (description unit : str) (spec : StreamSpec) : Stream :=
  mkStream (spec_name spec) description unit (meter_options m) (m_span_source m) impl.
Lemma create_slots_spec m impl description unit specs : ∀ p slots p',
  create_slots m impl description unit specs p = (slots, p') →
  m_streams p' = m_streams p ++ (stream_of m impl description unit <$> specs)
  ∧ sl_storage <$> slots = seq (length (m_streams p)) (length specs) ∧ sl_allowlist <$> slots = spec_allowlist <$> specs.
Proof.
  induction specs as [|spec specs IH]; intros p slots p'; cbn [create_slots].
  { intros [= <- <-]. by rewrite app_nil_r. }
  unfold AddStream. destruct (create_slots m impl description unit specs _) as [slots0 p0] eqn:E. intros [= <- <-].
  destruct (IH _ _ _ E) as (E1 & E2 & E3). cbn [m_streams] in *. rewrite length_app in E2. cbn [length] in E2. split_and!.
  - rewrite E1, <- app_assoc. done.
  - cbn. rewrite E2. by rewrite Nat.add_1_r.
  - cbn. by rewrite E3.
Qed.

(** C16: every metric stream is an independent storage, whatever the views and
    however the threads interleave.  For every synchronous instrument class and
    value type: creating an instrument yields one fresh stream per view the
    instrument resolves to, with the view's name and allowlist; a measurement
    through the instrument is one step per stream, with the attributes its view
    keeps; and after any interleaving of measurements, collections and creations,
    by any threads and through any instruments, each of the streams holds and has
    reported exactly what a storage alone would after the measurements and
    collections of that stream. *)
Theorem meter_pipeline_exact H log2 {T V} `{M : Measurement T} `{VT : !ValueType H log2 T} (S : MetricStorage H T V) (mk : Storage V → MetricStream T)
    `{C : !StreamClass H log2 S mk} m kind name description unit p0 slots p1 steps mem outs drops :
  DoCreate m kind (vt_inj H log2 (mk Storage_new)) name description unit p0 = (slots, p1) →
  run_steps H log2 (m_streams p1, [], []) steps = Some (mem, outs, drops) →
  let specs := ResolveStreamSpecs name (m_registry m) (mkDescriptor name kind (scope_name (m_scope m))) in
  Forall2 (λ slot spec, sl_allowlist slot = spec_allowlist spec
    ∧ ∃ s st reports d, mem !! sl_storage slot = Some s ∧ st_impl s = vt_inj H log2 (mk st) ∧ st_name s = spec_name spec
      ∧ let calls := calls_of H log2 s (sl_storage slot) steps in
        Metrics.run (S := S) (meter_options m) calls = Some (st, reports, d)
        ∧ records_of (sl_storage slot) outs = zip_with (record_of H log2 S mk s) (temporalities calls) reports) slots specs
  ∧ NoDup (sl_storage <$> slots)
  ∧ ∀ value attrs span now mem outs drops,
      run_steps H log2 (mem, outs, drops)
        ((λ slot, StepRecord (sl_storage slot) value (slot_attrs attrs (sl_allowlist slot)) span now) <$> slots)
      = '(mem', d) ← ForEach H log2 slots value attrs span now mem; Some (mem', outs, drops ++ d).
Proof.
  intros Hc Hr specs. unfold DoCreate in Hc. destruct (create_slots_spec _ _ _ _ _ _ _ _ Hc) as (Es & Ei & Ea). fold specs in Es, Ei, Ea.
  split_and!; [|rewrite Ei; apply NoDup_seq|intros; apply ForEach_steps].
  apply Forall2_same_length_lookup_2.
  { rewrite <- (length_fmap sl_storage slots), Ei. apply length_seq. }
  intros k slot spec Hs Hp.
  assert (sl_storage slot = length (m_streams p0) + k)%nat as Hid.
  { assert ((sl_storage <$> slots) !! k = Some (sl_storage slot)) as E by (by rewrite list_lookup_fmap, Hs).
    rewrite Ei in E. by apply lookup_seq in E as [<- _]. }
  split.
  { assert ((sl_allowlist <$> slots) !! k = Some (sl_allowlist slot)) as E by (by rewrite list_lookup_fmap, Hs).
    rewrite Ea, list_lookup_fmap, Hp in E. by injection E. }
  set (s0 := stream_of m (vt_inj H log2 (mk Storage_new)) description unit spec).
  assert (m_streams p1 !! sl_storage slot = Some s0) as H0.
  { rewrite Es, Hid, lookup_app_r, Nat.add_comm, Nat.add_sub, list_lookup_fmap, Hp by lia. done. }
  destruct (stream_history H log2 S mk s0 (sl_storage slot) (m_streams p1) [] [] steps mem outs drops) as (s & st & reports & d & Hm & Hw & Hrun & Hrec & _);
    [by rewrite H0|done|done|].
  exists s, st, reports, d. unfold is_wrapping in Hw. subst s. split_and!; [done|done|done|]. split; [exact Hrun|exact Hrec].
Qed.

(** Two views of one counter: one keeps every attribute, the other only [k]. *)
Definition demo_views : ViewRegistry :=
  [mkView (mkSelector (Some ($"http.*")) None None) (mkTransform None None false);
   mkView (mkSelector None (Some Counter) None) (mkTransform (Some ($"by_k")) (Some [$"z"; $"k"]) false);
   mkView (mkSelector (Some ($"other")) None None) (mkTransform None None true)].
Definition demo_meter : SdkMeter := mkMeter (mkScope ($"lib") ($"1")) 10 true (Some demo_views) false.
Definition demo_created : Instrument * MetricProducer := DoCreateCounterI64 demo_meter ($"http.requests") [] [] MetricProducer_new.
Definition demo_steps : list Step :=
  [StepRecord 0 (MvInt 4) (demo_attrs 1 ++ [mkKeyValue ($"user") (AvInt 7)]) None 0; StepRecord 1 (MvInt 4) (demo_attrs 1) None 0;
   StepCollect 0 Delta; StepRecord 1 (MvInt 2) (demo_attrs 1) None 0; StepCollect 1 Cumulative].
Lemma meter_pipeline_exact_witness :
  ∃ mem outs drops, run_steps demo_hash (λ d, d) (m_streams demo_created.2, [], []) demo_steps = Some (mem, outs, drops)
  ∧ length (records_of 1 outs) = 1%nat
  ∧ Forall2 (λ slot spec, sl_allowlist slot = spec_allowlist spec
      ∧ ∃ s, mem !! sl_storage slot = Some s ∧ st_name s = spec_name spec) demo_created.1
      [mkStreamSpec ($"http.requests") None; mkStreamSpec ($"by_k") (Some [$"k"; $"z"])].
Proof.
  assert (∃ x, run_steps demo_hash (λ d, d) (m_streams demo_created.2, [], []) demo_steps = Some x) as [[[mem outs] drops] E]
    by (eexists; vm_compute; reflexivity).
  destruct (meter_pipeline_exact demo_hash (λ d, d) (T := Z) (SumStorage demo_hash) (MetricStreamSum true) demo_meter Counter
    ($"http.requests") [] [] MetricProducer_new demo_created.1 demo_created.2 demo_steps mem outs drops) as [F _];
    [reflexivity|exact E|].
  exists mem, outs, drops. split; [exact E|]. split.
  - assert (option_map (λ x, length (records_of 1 x.1.2)) (run_steps demo_hash (λ d, d) (m_streams demo_created.2, [], []) demo_steps) = Some 1%nat) as El
      by (vm_compute; reflexivity).
    rewrite E in El. unfold option_map in El. apply (inj Some) in El. exact El.
  - eapply Forall2_impl; [exact F|]. intros slot spec (Ha & s & st & reports & d & Hm & _ & Hn & _). split; [exact Ha|]. exists s. split; [exact Hm|exact Hn].
Defined.

(** ** Collecting *)

(** Every stream is in exactly one scope entry, and no scope has two entries. *)
Record producer_wf (p : MetricProducer) : Prop := {
  pw_ids : concat (se_streams <$> m_scopes p) ≡ₚ seq 0 (length (m_streams p));
  pw_scopes : NoDup (se_scope <$> m_scopes p)
}.
Lemma push_stream_None scope id l : push_stream scope id l = None → scope ∉ (se_scope <$> l).
Proof.
  induction l as [|e l IH]; cbn; [intros _ ?%elem_of_nil; done|]. destruct (_ && _) eqn:E; [done|]. intros Hn%fmap_None.
  intros [->|Hin]%elem_of_cons; [|by apply IH]. by rewrite !seqb_refl in E.
Qed.
Lemma push_stream_Some scope id l l' :
  push_stream scope id l = Some l' → concat (se_streams <$> l') ≡ₚ id :: concat (se_streams <$> l) ∧ se_scope <$> l' = se_scope <$> l.
Proof.
  revert l'. induction l as [|e l IH]; intros l'; cbn; [done|]. destruct (_ && _) eqn:E.
  - intros [= <-]. cbn. split; [|done]. rewrite <- !app_assoc. cbn. symmetry. apply Permutation_middle.
  - intros (l1 & E1 & ->)%fmap_Some. destruct (IH _ E1) as [Hp Hs]. cbn. split; [|by rewrite Hs].
    rewrite Hp. symmetry. apply Permutation_middle.
Qed.
Lemma AddStream_wf scope s p : producer_wf p → producer_wf (AddStream scope s p).1.
Proof.
  intros [Hi Hs]. unfold AddStream. cbn [fst]. destruct (push_stream scope (length (m_streams p)) (m_scopes p)) as [l|] eqn:E; split; cbn [m_streams m_scopes].
  - apply push_stream_Some in E as [Hp _]. rewrite Hp, Hi, length_app, seq_app. cbn. apply Permutation_cons_append.
  - apply push_stream_Some in E as [_ Hsc]. by rewrite Hsc.
  - rewrite fmap_app, concat_app, Hi, length_app, seq_app. done.
  - apply push_stream_None in E. rewrite fmap_app. apply NoDup_app. split_and!; [done| |apply NoDup_singleton].
    intros x Hx ->%list_elem_of_singleton. done.
Qed.
(** The streams collected, in the order of collection. *)
Definition collected_ids (p : MetricProducer) : list nat := concat (se_streams <$> m_scopes p).

Lemma Stream_Collect_named H t s r s' d : Stream_Collect H t s = (Some r, s', d) → mr_name r = st_name s ∧ st_name s' = st_name s.
Proof.
  unfold Stream_Collect. destruct (st_impl s); (destruct (MetricStream_Collect _ _ _ _) as [[d0 i'] dr]); intros [= E <- _]; (destruct d0; [|done]); by injection E as <-.
Qed.
Lemma collect_streams_total H t ids : ∀ mem, Forall (λ id, (id < length mem)%nat) ids → is_Some (collect_streams H t ids mem).
Proof.
  induction ids as [|id ids IH]; intros mem Hf; cbn [collect_streams]; [done|]. apply Forall_cons in Hf as [Hid Hf].
  destruct (lookup_lt_is_Some_2 _ _ Hid) as [s ->]. cbn [mbind option_bind]. destruct (Stream_Collect H t s) as [[[r|] s'] d]; [|done].
  destruct (IH (<[id:=s']> mem)) as [[[rs mem'] d'] ->]; [|done]. eapply Forall_impl; [exact Hf|]. cbn. intros. by rewrite length_insert.
Qed.
Lemma collect_streams_length H t ids : ∀ mem r mem' d, collect_streams H t ids mem = Some (r, mem', d) → length mem' = length mem.
Proof.
  induction ids as [|id ids IH]; intros mem r mem' d; cbn [collect_streams]; [by intros [= _ <- _]|].
  destruct (mem !! id); cbn [mbind option_bind]; [|done]. destruct (Stream_Collect H t s) as [[[x|] s'] d0].
  - destruct (collect_streams H t ids _) as [[[rs mem1] d1]|] eqn:E; cbn [mbind option_bind]; [|done]. intros [= _ <- _].
    rewrite (IH _ _ _ _ E). apply length_insert.
  - intros [= _ <- _]. apply length_insert.
Qed.
Lemma collect_scopes_total H t entries : ∀ mem, Forall (λ id, (id < length mem)%nat) (concat (se_streams <$> entries)) → is_Some (collect_scopes H t entries mem).
Proof.
  induction entries as [|e entries IH]; intros mem Hf; cbn [collect_scopes]; [done|]. cbn in Hf. apply Forall_app in Hf as [H1 H2].
  destruct (collect_streams_total H t _ _ H1) as [[[[rs|] mem1] d1] E]; rewrite E; cbn [mbind option_bind]; [|done].
  destruct (IH mem1) as [[[hs mem2] d2] ->]; [|done]. by rewrite (collect_streams_length _ _ _ _ _ _ _ E).
Qed.

(** A collection cycle covers the producer.  However scopes and streams were
    registered, [Collect] follows no dangling pointer, and unless a callback throws
    it returns one batch per scope, in order of registration and never two for the
    same scope, and every stream registered is collected exactly once, with its
    record in the batch of its scope. *)
Theorem collection_complete H log2 (regs : list (InstrumentationScope * Stream)) t :
  let p := foldl (λ p r, (AddStream r.1 r.2 p).1) MetricProducer_new regs in
  ∃ hs p' d, MetricProducer_Collect H t p = Some (hs, p', d)
  ∧ m_streams p = regs.*2 ∧ collected_ids p ≡ₚ seq 0 (length regs) ∧ NoDup (se_scope <$> m_scopes p)
  ∧ ∀ batches, hs = Some batches →
      mb_scope <$> batches = se_scope <$> m_scopes p
      ∧ Forall2 (λ b e, length (mb_metrics b) = length (se_streams e)) batches (m_scopes p)
      ∧ run_steps H log2 (m_streams p, [], []) (collect_steps t (collected_ids p))
        = Some (m_streams p', zip (collected_ids p) (Some <$> concat (mb_metrics <$> batches)), d).
Proof.
  cbn zeta. set (p := foldl _ _ regs).
  assert (producer_wf p ∧ m_streams p = regs.*2) as [[Hi Hs] Hm].
  { unfold p. induction regs as [|[scope s] regs [IH Em]] using rev_ind; [split; [split; [done|constructor]|done]|].
    rewrite foldl_app. cbn [foldl fst snd]. split; [by apply AddStream_wf|]. rewrite fmap_app, <- Em. done. }
  assert (length (m_streams p) = length regs) as Hl by (by rewrite Hm, length_fmap).
  assert (Forall (λ id, (id < length (m_streams p))%nat) (concat (se_streams <$> m_scopes p))) as Hf.
  { rewrite Hi. apply Forall_forall. intros i Hin%elem_of_seq. lia. }
  destruct (collect_scopes_total H t _ _ Hf) as [[[hs mem] d] E]. exists hs, (mkProducer mem (m_scopes p)), d.
  unfold MetricProducer_Collect. rewrite E. split_and!; [done|done|by rewrite <- Hl|done|]. intros batches ->.
  destruct (collect_scopes_steps H log2 _ _ _ _ _ _ [] [] E) as (R & Esc & El). split_and!; [done| |exact R].
  apply Forall2_same_length_lookup_2.
  - rewrite <- (length_fmap mb_scope), Esc. apply length_fmap.
  - intros i b e Hb He. apply (f_equal (lookup i)) in El. rewrite !list_lookup_fmap, Hb, He in El. by injection El.
Qed.

(** ** Observable streams *)

Lemma insert_or_assign_locate {T} H (opts : StorageOptions) (value init : T) attrs (m : list (AttributeSet * T)) :
  ∃ k, record_point H (max_cardinality opts) (so_diag opts) (AttributeSet_of H attrs) init (λ _, Some value) m
       = Some (k, (Observe H opts value attrs m).1, (Observe H opts value attrs m).2).
Proof.
  unfold record_point, locate, Observe. set (key := AttributeSet_of H attrs). destruct (find_index key m) as [i|] eqn:E; cbn [andb].
  - pose proof E as E'. apply find_index_Some in E' as (k & v & Hi & _). rewrite Hi. exists k. unfold insert_or_assign. rewrite E, Hi. done.
  - unfold try_emplace, insert_or_assign. set (key' := if max_cardinality opts <=? size m then OverflowAttributeSet H else key).
    destruct (find_index key' m) as [i|] eqn:E'.
    + pose proof E' as E2. apply find_index_Some in E2 as (k & v & Hi & _). rewrite Hi. by exists k.
    + rewrite list_lookup_middle by done. exists key'. by rewrite insert_app_r_alt, Nat.sub_diag by done.
Qed.
Lemma run_callback_snoc {T} H opts al (obs : list (T * list KeyValue)) value attrs :
  run_callback H opts al (obs ++ [(value, attrs)])
  = let '(m, calls) := run_callback H opts al obs in
    let '(m, c) := Observe H opts value (slot_attrs attrs al) m in (m, calls ++ c).
Proof. unfold run_callback. rewrite foldl_app. by destruct (foldl _ _ obs) as [m calls]. Qed.

(** An observable stream reports exactly what its callback observed in that
    cycle, when no observed attribute value is a NaN.  Nothing is carried over from earlier cycles; each reported point is the
    last observation among those that belong to it, attributes taken after the
    view's allowlist; every observation belongs to exactly one point, the one of its
    own attributes or the overflow point when it has none; and there is at most one
    point more than the cardinality limit. *)
Theorem observable_collect_exact H {T} `{M : Measurement T} (opts : StorageOptions) al (observed : list (T * list KeyValue)) (zero : T) :
  0 <= max_cardinality opts → forallb (λ o, regular (slot_attrs o.2 al)) observed = true →
  let points := (run_callback H opts al observed).1 in
  let log := (λ o, (AttributeSet_of H (slot_attrs o.2 al), o.1)) <$> observed in
  Forall (λ p, p.2 = default zero (last (routed H points p.1 log))) points
  ∧ (∀ k v, (k, v) ∈ log → ∃ i, owner H points k i ∧ ∀ j, owner H points k j → j = i)
  ∧ size points <= max_cardinality opts + 1
  ∧ ∀ mono callback calls previous t, cb_observed callback calls = observed → cb_throws callback calls = false →
      (MetricStream_Collect H opts t (MetricStreamObservableSum mono callback al calls previous)).1.1 = Some (SumData mono t (observed_points points))
      ∧ (MetricStream_Collect H opts t (MetricStreamObservableGauge callback al calls previous)).1.1 = Some (GaugeData (observed_points points)).
Proof.
  intros Hmax Hreg. cbn zeta. set (points := (run_callback H opts al observed).1).
  set (log := (λ o, (AttributeSet_of H (slot_attrs o.2 al), o.1)) <$> observed).
  assert (inv H zero (λ value _, Some value) (max_cardinality opts) points log) as I.
  { unfold points, log. clear points log. induction observed as [|[value attrs] obs IH] using rev_ind; [by apply inv_empty|].
    rewrite forallb_app in Hreg. cbn in Hreg. bool_hyps. rewrite run_callback_snoc, fmap_app. cbn [fmap list_fmap snd].
    destruct (run_callback H opts al obs) as [m calls] eqn:E. cbn [fst] in IH.
    destruct (insert_or_assign_locate H opts value zero (slot_attrs attrs al) m) as [k Hk].
    destruct (Observe H opts value (slot_attrs attrs al) m) as [m' c]. cbn [fst snd] in *.
    assert (good (AttributeSet_of H (slot_attrs attrs al))) as Hg by (by apply set_eqb_refl). pose proof (IH ltac:(done)) as I.
    by destruct (record_inv H zero (λ v _, Some v) (max_cardinality opts) (so_diag opts) m _ _ value _ _ _ I Hg Hk) as [I' _]. }
  split_and!.
  - apply Forall_forall. intros [k v] Hin. pose proof (inv_points _ _ _ _ _ _ I _ _ Hin) as Ha. cbn [fst snd].
    generalize (routed H points k log) as os, Ha. clear. intros os. destruct os as [|o os _] using rev_ind; [by intros [= <-]|].
    unfold aggregate. rewrite foldl_app, last_snoc. cbn. destruct (foldl _ _ os); [by intros [= <-]|done].
  - intros k v. by eapply inv_owner.
  - destruct (inv_size _ _ _ _ _ _ I) as [Hsz|[Hsz _]]; lia.
  - intros mono cb calls previous t Eo Et. subst points. cbn [MetricStream_Collect]. rewrite Eo, Et.
    by destruct (run_callback H opts al observed) as [m d].
Qed.

(** A view that keeps only [k]: two rooms collapse into one series. *)
Definition demo_observed : list (Z * list KeyValue) :=
  [(20, demo_attrs 1 ++ [mkKeyValue ($"room") (AvInt 1)]); (22, demo_attrs 1 ++ [mkKeyValue ($"room") (AvInt 2)]); (30, demo_attrs 2)].
Definition demo_callback : Callback Z := mkCallback (λ _, demo_observed) (λ _, false).
Lemma observable_collect_exact_witness :
  size (run_callback demo_hash (mkStorageOptions 10 true) (Some [$"k"]) demo_observed).1 <= 11
  ∧ snd <$> (run_callback demo_hash (mkStorageOptions 10 true) (Some [$"k"]) demo_observed).1 = [22; 30].
Proof.
  destruct (observable_collect_exact demo_hash (mkStorageOptions 10 true) (Some [$"k"]) demo_observed 0) as (_ & _ & Hs & _);
    [done|vm_compute; reflexivity|]. split; [exact Hs|vm_compute; reflexivity].
Defined.

(** ** What a failing callback costs

    Under delta temporality a stream is reset when it is collected.  When a callback
    later in the cycle throws, [Collect] returns nothing, so what the earlier streams
    had counted since the last cycle is lost. *)
Definition demo_throwing : MetricProducer :=
  let '(slots, p) := DoCreateCounterI64 demo_meter ($"n") [] [] MetricProducer_new in
  let p := match Instrument_Record demo_hash (λ d, d) slots (MvInt 5) (demo_attrs 1) None 0 p with Some (p, _) => p | None => p end in
  DoCreateObservableGaugeI64 demo_meter ($"g") [] [] (mkCallback (λ _, []) (λ n, (n =? 0)%nat)) p.
Definition counter_points (p : MetricProducer) : list Z :=
  match st_impl <$> m_streams p !! 0%nat with Some (Ints (MetricStreamSum _ st)) => snd <$> m_points st | _ => [] end.
Lemma throwing_callback_loses_delta :
  counter_points demo_throwing = [5]
  ∧ option_map (λ x, (x.1.1, counter_points x.1.2)) (MetricProducer_Collect demo_hash Delta demo_throwing) = Some (None, []).
Proof. split; vm_compute; reflexivity. Qed.
