(* ===== verification/Readers.v ===== *)
(** * Metric readers

    Model of [src/sdk/periodic_exporting_metric_reader.cpp] and
    [synchronous_metric_reader.cpp].  The periodic reader is a transition system:
    the background thread and any number of callers of [Collect], [ForceFlush] and
    [Shutdown], each with a program counter; a scheduler picks the next thread and
    the answers of the producer, the exporter and the clock.  [exec] is one step,
    [None] when the thread is blocked.

    The mutexes [m_mu] and [m_collect_mu] are held within single steps only.  The
    log records what the threads ask of producer and exporter.

    The theorems: whatever the schedule, the log is a sequence of complete cycles,
    each exporting the batches of one collection in order up to the first failure,
    never interleaved; the background thread stops after at most one more cycle when
    the reader is shut down, and the exporter is shut down once, after that. *)
From stdpp Require Import base list.
From S2P Require Import Prelude Data.

Section reader.
Context {B : Type} `{!EqDecision B}.

(** What [MetricProducer::Collect] and [IMetricExporter::Export] answer. *)
Abbreviation Collected := (option (list B)).
Inductive ExportResult := ExportSuccess | ExportFailure | ExportDropped | ExportAlreadyShutDown.
Definition is_failure (r : ExportResult) : bool := match r with ExportFailure => true | _ => false end.
Inductive After := KLoop | KCollect | KFlush.
(** Program counters: the loop of [RunLoop], [DoCollectExport] with what follows it,
    and the tails of [ForceFlush] and [Shutdown]. *)
Inductive Pc :=
| LoopCheck | LoopWait | Exited
| ClaimSlot (k : After) | CallCollect (k : After) | CallExport (k : After) (rest : list B) | ReleaseSlot (k : After) (result : Status)
| FlushExporter | SetWake | JoinThread | ShutExporter | Returned (result : Status).
Inductive LogEntry :=
| LCollect (tid : nat) (answer : Collected) | LExport (tid : nat) (batch : B) (result : ExportResult) | LRelease (tid : nat) (result : Status)
| LFlush | LShutdown.
(** Thread 0 is the background thread. *)
Record PeriodicReader := mkReader {
  m_shut_down : bool; m_wake : bool; m_collecting : bool; m_interval : Z; threads : list Pc; log : list LogEntry }.
Definition PeriodicReader_new (interval : Z) : PeriodicReader := mkReader false false false interval [LoopCheck] [].

Inductive Call := CollectCall | ForceFlushCall | ShutdownCall.
Inductive Action :=
| AStart (c : Call)                                    (* a new caller enters a method *)
| ASetInterval (interval : Z)
| ARun (tid : nat)                                     (* the thread's next step, the wait ending by the flag *)
| ATimeout                                             (* the background thread's wait times out *)
| ACollected (tid : nat) (answer : Collected)
| AExported (tid : nat) (result : ExportResult)
| AExporter (tid : nat) (status : Status).             (* ForceFlush or Shutdown of the exporter *)

Definition set_pc (i : nat) (pc : Pc) (r : PeriodicReader) : PeriodicReader :=
  mkReader (m_shut_down r) (m_wake r) (m_collecting r) (m_interval r) (<[i := pc]> (threads r)) (log r).
Definition emit (e : LogEntry) (r : PeriodicReader) : PeriodicReader :=
  mkReader (m_shut_down r) (m_wake r) (m_collecting r) (m_interval r) (threads r) (log r ++ [e]).
Definition set_collecting (b : bool) (r : PeriodicReader) : PeriodicReader :=
  mkReader (m_shut_down r) (m_wake r) b (m_interval r) (threads r) (log r).
Definition set_wake (b : bool) (r : PeriodicReader) : PeriodicReader :=
  mkReader (m_shut_down r) b (m_collecting r) (m_interval r) (threads r) (log r).

(** Entering [Collect], [ForceFlush] and [Shutdown]. *)
Definition enter (c : Call) (r : PeriodicReader) : PeriodicReader :=
  let pc := if m_shut_down r then Returned AlreadyShutDown
            else match c with CollectCall => ClaimSlot KCollect | ForceFlushCall => ClaimSlot KFlush | ShutdownCall => SetWake end in
  let down := match c with ShutdownCall => true | _ => m_shut_down r end in
  mkReader down (m_wake r) (m_collecting r) (m_interval r) (threads r ++ [pc]) (log r).
(** What follows [DoCollectExport]. *)
Definition after (k : After) (result : Status) : Pc :=
  match k with KLoop => LoopCheck | KCollect => Returned result | KFlush => FlushExporter end.
(** A step without an answer from outside. *)
Definition run_thread (i : nat) (r : PeriodicReader) : option PeriodicReader :=
  pc ← threads r !! i;
  match pc with
  | LoopCheck => Some (set_pc i (if m_shut_down r then Exited else LoopWait) r)
  | LoopWait => if m_wake r then Some (set_pc i (ClaimSlot KLoop) (set_wake false r)) else None
  | ClaimSlot k => if m_collecting r then None else Some (set_pc i (CallCollect k) (set_collecting true r))
  | CallExport k [] => Some (set_pc i (ReleaseSlot k Completed) r)
  | ReleaseSlot k result => Some (emit (LRelease i result) (set_pc i (after k result) (set_collecting false r)))
  | SetWake => Some (set_pc i JoinThread (set_wake true r))
  | JoinThread => match threads r !! 0%nat with Some Exited => Some (set_pc i ShutExporter r) | _ => None end
  | _ => None
  end.
Definition exec (a : Action) (r : PeriodicReader) : option PeriodicReader :=
  match a with
  | AStart c => Some (enter c r)
  | ASetInterval interval => Some (mkReader (m_shut_down r) (m_wake r) (m_collecting r) interval (threads r) (log r))
  | ARun i => run_thread i r
  | ATimeout => match threads r !! 0%nat with Some LoopWait => Some (set_pc 0 (ClaimSlot KLoop) (set_wake false r)) | _ => None end
  | ACollected i answer =>
      match threads r !! i with
      | Some (CallCollect k) =>
          Some (emit (LCollect i answer) (set_pc i match answer with None => ReleaseSlot k Failed | Some batches => CallExport k batches end r))
      | _ => None
      end
  | AExported i result =>
      match threads r !! i with
      | Some (CallExport k (b :: rest)) =>
          Some (emit (LExport i b result)
            (set_pc i (if is_failure result then ReleaseSlot k Failed else CallExport k rest) r))
      | _ => None
      end
  | AExporter i status =>
      match threads r !! i with
      | Some FlushExporter => Some (emit LFlush (set_pc i (Returned status) r))
      | Some ShutExporter => Some (emit LShutdown (set_pc i (Returned status) r))
      | _ => None
      end
  end.
Definition exec_all (actions : list Action) (r : PeriodicReader) : option PeriodicReader :=
  foldl (λ r a, r ≫= exec a) (Some r) actions.

(** ** The language of the log *)

Inductive Cycle := Free | Open (tid : nat) (rest : list B) | Failing (tid : nat).
Definition next_cycle (c : Cycle) (e : LogEntry) : option Cycle :=
  match c, e with
  | Free, LCollect i (Some batches) => Some (Open i batches)
  | Free, LCollect i None => Some (Failing i)
  | Open i (b :: rest), LExport j b' result =>
      if bool_decide (i = j) && bool_decide (b = b') then Some (if is_failure result then Failing i else Open i rest) else None
  | Open i [], LRelease j Completed => if bool_decide (i = j) then Some Free else None
  | Failing i, LRelease j Failed => if bool_decide (i = j) then Some Free else None
  | _, (LFlush | LShutdown) => Some c
  | _, _ => None
  end.
Definition cycles (l : list LogEntry) : option Cycle := foldl (λ c e, c ≫= λ c, next_cycle c e) (Some Free) l.
Lemma cycles_snoc l e : cycles (l ++ [e]) = cycles l ≫= λ c, next_cycle c e.
Proof. unfold cycles. by rewrite foldl_app. Qed.

(** A thread inside the critical section, and what it must still log. *)
Definition in_cycle (i : nat) (pc : Pc) : option Cycle :=
  match pc with
  | CallCollect _ => Some Free
  | CallExport _ rest => Some (Open i rest)
  | ReleaseSlot _ Completed => Some (Open i [])
  | ReleaseSlot _ _ => Some (Failing i)
  | _ => None
  end.
Definition result_ok (pc : Pc) : Prop := match pc with ReleaseSlot _ r => r = Completed ∨ r = Failed | _ => True end.
Record serialized (r : PeriodicReader) : Prop := {
  sr_busy : m_collecting r = false → (∀ i pc, threads r !! i = Some pc → in_cycle i pc = None) ∧ cycles (log r) = Some Free;
  sr_owner : m_collecting r = true → ∃ i pc c, threads r !! i = Some pc ∧ in_cycle i pc = Some c ∧ cycles (log r) = Some c
    ∧ ∀ j pc', threads r !! j = Some pc' → j ≠ i → in_cycle j pc' = None;
  sr_result : ∀ i pc, threads r !! i = Some pc → result_ok pc
}.

Lemma in_cycle_owner r i pc c :
  serialized r → threads r !! i = Some pc → in_cycle i pc = Some c →
  m_collecting r = true ∧ cycles (log r) = Some c ∧ ∀ j pc', threads r !! j = Some pc' → j ≠ i → in_cycle j pc' = None.
Proof.
  intros [Hb Ho _] Hi Hc. destruct (m_collecting r) eqn:E; [|destruct (Hb eq_refl) as [H _]; specialize (H _ _ Hi); congruence].
  split; [done|]. destruct (Ho eq_refl) as (k & pk & ck & Hk & Hck & Hl & Hu). destruct (decide (i = k)) as [->|Hne].
  - assert (pk = pc) as -> by congruence. split; [congruence|done].
  - specialize (Hu _ _ Hi Hne). congruence.
Qed.
Lemma lookup_set_pc i pc r j pc' : threads (set_pc i pc r) !! j = Some pc' → (j = i ∧ pc' = pc) ∨ (j ≠ i ∧ threads r !! j = Some pc').
Proof. apply lookup_moved. Qed.

(** A step outside the critical section. *)
Lemma serialized_outside r i pc pc' wake down interval :
  serialized r → threads r !! i = Some pc → in_cycle i pc = None → in_cycle i pc' = None → result_ok pc' →
  serialized (mkReader down wake (m_collecting r) interval (<[i := pc']> (threads r)) (log r)).
Proof.
  intros [Hb Ho Hr] Hi Hc Hc' Hok. split; cbn [m_collecting threads log].
  - intros E. destruct (Hb E) as [H Hl]. split; [|done]. intros j pj Hj.
    apply (lookup_set_pc i pc' r) in Hj as [[-> ->]|[_ Hj]]; [done|by apply (H j)].
  - intros E. destruct (Ho E) as (k & pk & ck & Hk & Hck & Hl & Hu). assert (k ≠ i) as Hne by (intros ->; congruence).
    exists k, pk, ck. split_and!; [by rewrite list_lookup_insert_ne|done|done|]. intros j pj Hj Hjk.
    apply (lookup_set_pc i pc' r) in Hj as [[-> ->]|[_ Hj]]; [done|by apply (Hu j)].
  - intros j pj Hj. apply (lookup_set_pc i pc' r) in Hj as [[-> ->]|[_ Hj]]; [done|by apply (Hr j)].
Qed.
(** A step of the thread inside it: it logs [es] and keeps the slot. *)
Lemma serialized_inside r i pc pc' c c' es :
  serialized r → threads r !! i = Some pc → in_cycle i pc = Some c → in_cycle i pc' = Some c' → result_ok pc' →
  cycles (log r ++ es) = Some c' → serialized (mkReader (m_shut_down r) (m_wake r) (m_collecting r) (m_interval r) (<[i := pc']> (threads r)) (log r ++ es)).
Proof.
  intros S Hi Hc Hc' Hok Hl. destruct (in_cycle_owner _ _ _ _ S Hi Hc) as (E & _ & Hu). pose proof S as [_ _ Hr]. split; cbn [m_collecting threads log].
  - congruence.
  - intros _. exists i, pc', c'. split_and!; [by rewrite list_lookup_insert_eq by (by eapply lookup_lt_Some)|done|done|].
    intros j pj Hj Hji. apply (lookup_set_pc i pc' r) in Hj as [[-> ->]|[_ Hj]]; [done|by apply (Hu j)].
  - intros j pj Hj. apply (lookup_set_pc i pc' r) in Hj as [[-> ->]|[_ Hj]]; [done|by apply (Hr j)].
Qed.
(** Entries that are not part of a cycle. *)
Lemma serialized_side r e : serialized r → e = LFlush ∨ e = LShutdown → serialized (emit e r).
Proof.
  intros [Hb Ho Hr] He. assert (∀ c, next_cycle c e = Some c) as Hn by (by intros [| ? [|? ?]|]; destruct He as [-> | ->]).
  split; cbn [emit m_collecting threads log]; [| |done]; intros E.
  - destruct (Hb E) as [H Hl]. split; [done|]. rewrite cycles_snoc, Hl. cbn [mbind option_bind]. apply Hn.
  - destruct (Ho E) as (k & pk & ck & Hk & Hck & Hl & Hu). exists k, pk, ck. split_and!; [done|done| |done]. rewrite cycles_snoc, Hl. cbn [mbind option_bind]. apply Hn.
Qed.
Lemma serialized_enter c r : serialized r → serialized (enter c r).
Proof.
  intros [Hb Ho Hr]. unfold enter. set (pc := if m_shut_down r then _ else _).
  assert (∀ i, in_cycle i pc = None) as Hpc by (unfold pc; intros i; by destruct (m_shut_down r), c).
  assert (result_ok pc) as Hok by (unfold pc; by destruct (m_shut_down r), c).
  split; cbn [m_collecting threads log].
  - intros E. destruct (Hb E) as [H Hl]. split; [|done]. intros i pj [[Hi _]|[-> ->]]%lookup_joined; [by apply (H i)|apply Hpc].
  - intros E. destruct (Ho E) as (k & pk & ck & Hk & Hck & Hl & Hu). exists k, pk, ck. split_and!; [by apply lookup_app_l_Some|done|done|].
    intros i pj [[Hi _]|[-> ->]]%lookup_joined Hik; [by apply (Hu i)|apply Hpc].
  - intros i pj [[Hi _]|[-> ->]]%lookup_joined; [by apply (Hr i)|done].
Qed.

Lemma serialized_claim r i k : serialized r → threads r !! i = Some (ClaimSlot k) → m_collecting r = false →
  serialized (set_pc i (CallCollect k) (set_collecting true r)).
Proof.
  intros [Hb Ho Hr] Hi E. destruct (Hb E) as [H Hl]. split; cbn [set_pc set_collecting m_collecting threads log]; [done| |].
  - intros _. exists i, (CallCollect k), Free. split_and!; [by rewrite list_lookup_insert_eq by (by eapply lookup_lt_Some)|done|done|].
    intros j pj Hj Hji. apply (lookup_set_pc i (CallCollect k) r) in Hj as [[-> ->]|[_ Hj]]; [done|by apply (H j)].
  - intros j pj Hj. apply (lookup_set_pc i (CallCollect k) r) in Hj as [[-> ->]|[_ Hj]]; [done|by apply (Hr j)].
Qed.
Lemma release_in_cycle i k res : ∃ c, in_cycle i (ReleaseSlot k res) = Some c.
Proof. destruct res; by eexists. Qed.
Lemma serialized_release r i k res : serialized r → threads r !! i = Some (ReleaseSlot k res) →
  serialized (emit (LRelease i res) (set_pc i (after k res) (set_collecting false r))).
Proof.
  intros S Hi. destruct (release_in_cycle i k res) as [c Hc].
  destruct (in_cycle_owner _ _ _ _ S Hi Hc) as (E & Hl & Hu). pose proof S as [_ _ Hr].
  assert (∀ j, in_cycle j (after k res) = None) as Ha by (by destruct k). assert (result_ok (after k res)) as Hok by (by destruct k).
  split; cbn [emit set_pc set_collecting m_collecting threads log]; [|done|].
  - intros _. split.
    + intros j pj Hj. apply (lookup_set_pc i (after k res) r) in Hj as [[-> ->]|[Hji Hj]]; [apply Ha|by apply (Hu j)].
    + rewrite cycles_snoc, Hl. cbn [mbind option_bind]. pose proof (Hr _ _ Hi) as Hres. cbn in Hres.
      destruct Hres as [-> | ->]; injection Hc as <-; cbn; by rewrite bool_decide_true.
  - intros j pj Hj. apply (lookup_set_pc i (after k res) r) in Hj as [[-> ->]|[_ Hj]]; [done|by apply (Hr j)].
Qed.

Ltac outside r := eapply (serialized_outside r); [eassumption|eassumption|reflexivity|reflexivity|exact I].
Lemma serialized_run i r r' : serialized r → run_thread i r = Some r' → serialized r'.
Proof.
  intros S. unfold run_thread. destruct (threads r !! i) as [pc|] eqn:Hi; cbn [mbind option_bind]; [|done].
  destruct pc as [| | |k|k|k [|b rest]|k res| | | | |]; try done.
  - intros [= <-]. destruct (m_shut_down r); outside r.
  - destruct (m_wake r); [|done]. intros [= <-]. outside r.
  - destruct (m_collecting r) eqn:E; [done|]. intros [= <-]. by apply serialized_claim.
  - intros [= <-]. pose proof (in_cycle_owner _ _ _ _ S Hi eq_refl) as (_ & Hl & _).
    replace (set_pc i (ReleaseSlot k Completed) r) with (mkReader (m_shut_down r) (m_wake r) (m_collecting r) (m_interval r) (<[i:=ReleaseSlot k Completed]> (threads r)) (log r ++ []))
      by (unfold set_pc; by rewrite app_nil_r).
    eapply (serialized_inside r); [done|done|done|done|by left|by rewrite app_nil_r].
  - intros [= <-]. by apply serialized_release.
  - intros [= <-]. outside r.
  - destruct (threads r !! 0%nat) as [[]|]; try done. intros [= <-]. outside r.
Qed.
Lemma serialized_exec a r r' : serialized r → exec a r = Some r' → serialized r'.
Proof.
  intros S. destruct a as [c|interval|i| |i answer|i result|i status]; cbn [exec].
  - intros [= <-]. by apply serialized_enter.
  - intros [= <-]. by destruct S.
  - by apply serialized_run.
  - destruct (threads r !! 0%nat) as [[]|] eqn:Hi; try done. intros [= <-]. outside r.
  - destruct (threads r !! i) as [[]|] eqn:Hi; try done. intros [= <-]. pose proof (in_cycle_owner _ _ _ _ S Hi eq_refl) as (_ & Hl & _).
    destruct answer as [batches|]; (eapply (serialized_inside r); [exact S|exact Hi|reflexivity|reflexivity|first [exact I|by right]|]); rewrite cycles_snoc, Hl; done.
  - destruct (threads r !! i) as [[| | | | |k [|b rest]| | | | | |]|] eqn:Hi; try done. intros [= <-]. pose proof (in_cycle_owner _ _ _ _ S Hi eq_refl) as (_ & Hl & _).
    destruct (is_failure result) eqn:Ef; (eapply (serialized_inside r); [exact S|exact Hi|reflexivity|reflexivity|first [exact I|by right]|]);
      rewrite cycles_snoc, Hl; cbn; rewrite !bool_decide_true by done; cbn; by rewrite Ef.
  - destruct (threads r !! i) as [[]|] eqn:Hi; try done; intros [= <-]; (apply serialized_side; [|by auto]); outside r.
Qed.
Lemma serialized_new interval : serialized (PeriodicReader_new interval).
Proof. split; cbn [PeriodicReader_new m_collecting threads log]; [intros _; split; [|done]|done|]; by intros i pc [-> <-]%list_lookup_singleton_Some. Qed.
Lemma exec_all_snoc actions a r : exec_all (actions ++ [a]) r = exec_all actions r ≫= exec a.
Proof. unfold exec_all. by rewrite foldl_app. Qed.
Lemma serialized_all actions r r' : serialized r → exec_all actions r = Some r' → serialized r'.
Proof.
  intros S. revert r'. induction actions as [|a actions IH] using rev_ind; intros r'; [by intros [= <-]|].
  rewrite exec_all_snoc. destruct (exec_all actions r) as [r1|]; cbn [mbind option_bind]; [|done]. intros E. eapply serialized_exec; [|exact E]. by apply IH.
Qed.

(** ** Shutting down *)

Definition loop_pc (pc : Pc) : bool :=
  match pc with LoopCheck | LoopWait | Exited | ClaimSlot KLoop | CallCollect KLoop | CallExport KLoop _ | ReleaseSlot KLoop _ => true | _ => false end.
Definition shutting (pc : Pc) : bool := match pc with SetWake | JoinThread | ShutExporter => true | _ => false end.
Definition is_shutdown_entry (e : LogEntry) : bool := match e with LShutdown => true | _ => false end.
(** Shutdown calls under way, and the exporter's shutdowns. *)
Definition shutdowns (r : PeriodicReader) : Z := size (List.filter shutting (threads r)) + size (List.filter is_shutdown_entry (log r)).
Record stopping (r : PeriodicReader) : Prop := {
  sp_worker : ∃ pc, threads r !! 0%nat = Some pc ∧ loop_pc pc = true;
  sp_callers : ∀ i pc, threads r !! S i = Some pc → loop_pc pc = false;
  sp_once : shutdowns r = if m_shut_down r then 1 else 0;
  sp_joined : ∀ i, threads r !! i = Some ShutExporter → threads r !! 0%nat = Some Exited;
  sp_logged : LShutdown ∈ log r → threads r !! 0%nat = Some Exited;
  sp_exited : threads r !! 0%nat = Some Exited → m_shut_down r = true;
  sp_wake : ∀ i, threads r !! i = Some JoinThread → threads r !! 0%nat = Some LoopWait → m_wake r = true
}.
Lemma shutting_down r i pc : stopping r → threads r !! i = Some pc → shutting pc = true → m_shut_down r = true.
Proof.
  intros S Hi Hp. pose proof (sp_once _ S) as Ho. unfold shutdowns in Ho. pose proof (count_pos _ _ _ _ Hi Hp).
  pose proof (size_nonneg (List.filter is_shutdown_entry (log r))). destruct (m_shut_down r); [done|lia].
Qed.
(** One thread moves. *)
Lemma stopping_step r i pc pc' wake coll interval es :
  stopping r → threads r !! i = Some pc → pc ≠ Exited → loop_pc pc' = loop_pc pc →
  bz (shutting pc') + size (List.filter is_shutdown_entry es) = bz (shutting pc) →
  (pc' = ShutExporter ∨ LShutdown ∈ es → threads r !! 0%nat = Some Exited) →
  (pc' = Exited → m_shut_down r = true) → (pc' = LoopWait → m_shut_down r = false) →
  (pc' = JoinThread → wake = true) → (i ≠ 0%nat → m_wake r = true → wake = true) →
  stopping (mkReader (m_shut_down r) wake coll interval (<[i := pc']> (threads r)) (log r ++ es)).
Proof.
  intros S Hi Hne Hl Hc H0 Hx Hw Hj Hk. pose proof (lookup_lt_Some _ _ _ Hi) as Hlt.
  pose proof S as [(pw & Ew & Lw) S2 S3 S4 S5 S6 S7].
  assert (∀ j pj, <[i:=pc']> (threads r) !! j = Some pj → (j = i ∧ pj = pc') ∨ (j ≠ i ∧ threads r !! j = Some pj)) as Hlk.
  { intros j pj Hjj. destruct (decide (j = i)) as [->|]; [left; rewrite list_lookup_insert_eq in Hjj by done; split; [done|by injection Hjj]|].
    right. by rewrite list_lookup_insert_ne in Hjj. }
  assert (threads r !! 0%nat = Some Exited → <[i:=pc']> (threads r) !! 0%nat = Some Exited) as Hex.
  { intros E. rewrite list_lookup_insert_ne; [done|]. intros ->. congruence. }
  split; cbn [threads log m_shut_down m_wake].
  - destruct i as [|i]; [|by exists pw; rewrite list_lookup_insert_ne].
    exists pc'. rewrite list_lookup_insert_eq by done. split; [done|]. rewrite Hl. congruence.
  - intros j pj Hjj. apply Hlk in Hjj as [[<- ->]|[_ Hjj]]; [rewrite Hl; by apply (S2 j)|by apply (S2 j)].
  - unfold shutdowns in *. cbn [threads log]. rewrite (count_insert _ _ _ _ _ Hi), List.filter_app, size_app.
    destruct (shutting pc), (shutting pc'); cbn in Hc; lia.
  - intros j Hjj. apply Hlk in Hjj as [[-> Ep]|[_ Hjj]]; [apply Hex, H0; by left|by apply Hex, (S4 j)].
  - intros [Hin|Hin]%elem_of_app; [by apply Hex, S5|apply Hex, H0; by right].
  - intros E. apply Hlk in E as [[<- Ep]|[_ E]]; [by apply Hx|by apply S6].
  - intros j Hjj E0. apply Hlk in E0 as [[<- E0]|[H0i E0]].
    + assert (loop_pc JoinThread ≠ loop_pc pc') as Hd by (by rewrite <- E0). apply Hlk in Hjj as [[-> Ej]|[_ Hjj]]; [by rewrite Ej in Hd|].
      pose proof (shutting_down _ _ _ S Hjj eq_refl). by rewrite (Hw (eq_sym E0)) in *.
    + apply Hlk in Hjj as [[-> Ej]|[_ Hjj]]; [by apply Hj|]. apply Hk; [done|]. by apply (S7 j).
Qed.
Lemma stopping_step_quiet r i pc pc' wake coll interval :
  stopping r → threads r !! i = Some pc → pc ≠ Exited → loop_pc pc' = loop_pc pc → shutting pc' = shutting pc →
  (pc' = ShutExporter → threads r !! 0%nat = Some Exited) →
  (pc' = Exited → m_shut_down r = true) → (pc' = LoopWait → m_shut_down r = false) →
  (pc' = JoinThread → wake = true) → (i ≠ 0%nat → m_wake r = true → wake = true) →
  stopping (mkReader (m_shut_down r) wake coll interval (<[i := pc']> (threads r)) (log r)).
Proof.
  intros. rewrite <- (app_nil_r (log r)). eapply stopping_step; try done.
  - change (size (List.filter is_shutdown_entry [])) with 0. rewrite Z.add_0_r. congruence.
  - intros [?|Hin]; [auto|by apply elem_of_nil in Hin].
Qed.
Lemma loop_pc_zero r i pc : stopping r → threads r !! i = Some pc → loop_pc pc = true → i = 0%nat.
Proof. intros S Hi Hp. destruct i as [|i]; [done|]. rewrite (sp_callers _ S i pc Hi) in Hp. done. Qed.
Lemma stopping_enter c r : stopping r → stopping (enter c r).
Proof.
  intros S. pose proof S as [(pw & Ew & Lw) S2 S3 S4 S5 S6 S7]. unfold enter. set (pc := if m_shut_down r then _ else _).
  assert (loop_pc pc = false ∧ pc ≠ ShutExporter ∧ pc ≠ JoinThread) as (Hl & Hn1 & Hn2) by (unfold pc; by destruct (m_shut_down r), c).
  assert (∀ p, threads r !! 0%nat = Some p → (threads r ++ [pc]) !! 0%nat = Some p) as H0 by (intros; by apply lookup_app_l_Some).
  assert (∀ p, (threads r ++ [pc]) !! 0%nat = Some p → threads r !! 0%nat = Some p) as H0' by (intros p Hp; rewrite (H0 _ Ew) in Hp; congruence).
  split; cbn [threads log m_shut_down m_wake].
  - exists pw. by rewrite (H0 _ Ew).
  - intros i pj [[Hi _]|[_ ->]]%lookup_joined; [by apply (S2 i)|done].
  - unfold shutdowns in *. cbn [threads log]. rewrite count_snoc. unfold pc. destruct (m_shut_down r), c; cbn; lia.
  - intros i [[Hi _]|[_ E]]%lookup_joined; [by apply H0, (S4 i)|congruence].
  - intros Hin. by apply H0, S5.
  - intros E. specialize (S6 (H0' _ E)). by destruct c.
  - intros i [[Hi _]|[_ E]]%lookup_joined E0; [by apply (S7 i Hi), H0'|congruence].
Qed.
Lemma stopping_exec a r r' : stopping r → exec a r = Some r' → stopping r'.
Proof.
  intros S. destruct a as [c|interval|i| |i answer|i result|i status]; cbn [exec].
  - intros [= <-]. by apply stopping_enter.
  - intros [= <-]. by destruct S.
  - unfold run_thread. destruct (threads r !! i) as [pc|] eqn:Hi; cbn [mbind option_bind]; [|done].
    destruct pc as [| | |k|k|k [|b rest]|k res| | | | |]; try done.
    + intros [= <-]. destruct (m_shut_down r) eqn:Ed; (eapply (stopping_step_quiet r i LoopCheck); try done; congruence).
    + destruct (m_wake r) eqn:Ewk; [|done]. intros [= <-]. assert (i = 0%nat) as -> by (by eapply loop_pc_zero). by eapply (stopping_step_quiet r 0 LoopWait).
    + destruct (m_collecting r); [done|]. intros [= <-]. eapply (stopping_step_quiet r i (ClaimSlot k)); try done; by destruct k.
    + intros [= <-]. eapply (stopping_step_quiet r i (CallExport k [])); try done; by destruct k.
    + intros [= <-]. eapply (stopping_step r i (ReleaseSlot k res)); try done; try (by destruct k); try (by destruct k; intros; congruence).
      * intros [E|Hin%list_elem_of_singleton]; [by destruct k|done].
    + intros [= <-]. by eapply (stopping_step_quiet r i SetWake).
    + destruct (threads r !! 0%nat) as [[]|] eqn:E0; try done. intros [= <-]. by eapply (stopping_step_quiet r i JoinThread).
  - destruct (threads r !! 0%nat) as [[]|] eqn:Hi; try done. intros [= <-]. by eapply (stopping_step_quiet r 0 LoopWait).
  - destruct (threads r !! i) as [[]|] eqn:Hi; try done. intros [= <-].
    eapply (stopping_step r i (CallCollect k)); try done; try (by destruct answer, k); try (by destruct answer).
    intros [E|Hin%list_elem_of_singleton]; [by destruct answer|done].
  - destruct (threads r !! i) as [[| | | | |k [|b rest]| | | | | |]|] eqn:Hi; try done. intros [= <-].
    eapply (stopping_step r i (CallExport k (b :: rest))); try done; try (by destruct (is_failure result), k); try (by destruct (is_failure result)).
    intros [E|Hin%list_elem_of_singleton]; [by destruct (is_failure result)|done].
  - destruct (threads r !! i) as [[]|] eqn:Hi; try done; intros [= <-].
    + eapply (stopping_step r i FlushExporter); try done. intros [E|Hin%list_elem_of_singleton]; done.
    + eapply (stopping_step r i ShutExporter); try done. intros _. by apply (sp_joined _ S i).
Qed.
Lemma stopping_new interval : stopping (PeriodicReader_new interval).
Proof.
  split; cbn [PeriodicReader_new threads log m_shut_down m_wake]; try done.
  - by exists LoopCheck.
  - by intros i [_ [=]]%list_lookup_singleton_Some.
  - by intros Hin%elem_of_nil.
Qed.
Lemma stopping_all actions r r' : stopping r → exec_all actions r = Some r' → stopping r'.
Proof.
  intros S. revert r'. induction actions as [|a actions IH] using rev_ind; intros r'; [by intros [= <-]|].
  rewrite exec_all_snoc. destruct (exec_all actions r) as [r1|]; cbn [mbind option_bind]; [|done]. intros E. eapply stopping_exec; [|exact E]. by apply IH.
Qed.

(** *** What the background thread still does after the shutdown *)

Definition worker_entry (e : LogEntry) : bool := match e with LCollect 0 _ | LExport 0 _ _ | LRelease 0 _ => true | _ => false end.
Definition worker_collect (e : LogEntry) : bool := match e with LCollect 0 _ => true | _ => false end.
Definition worker_cycles (r : PeriodicReader) : Z := size (List.filter worker_collect (log r)).
(** A step appends at most one entry; the exited background thread appends none. *)
Definition logs (r r' : PeriodicReader) : Prop :=
  ∃ es, log r' = log r ++ es ∧ (length es <= 1)%nat ∧ Forall (λ e, worker_entry e = true → threads r !! 0%nat ≠ Some Exited) es.
Lemma logs_nothing r r' : log r' = log r → logs r r'.
Proof. intros E. exists []. rewrite app_nil_r. split; [done|]. split; [cbn; lia|constructor]. Qed.
Lemma logs_entry r r' e i pc : log r' = log r ++ [e] → threads r !! i = Some pc → pc ≠ Exited → (worker_entry e = true → i = 0%nat) → logs r r'.
Proof. intros E Hi Hne Hw. exists [e]. split; [done|]. split; [done|]. apply Forall_singleton. intros He. rewrite (Hw He) in Hi. congruence. Qed.
Lemma exec_logs a r r' : exec a r = Some r' → logs r r'.
Proof.
  destruct a as [c|interval|i| |i answer|i result|i status]; cbn [exec].
  1-2: intros [= <-]; by apply logs_nothing.
  - unfold run_thread. destruct (threads r !! i) as [pc|] eqn:Hi; cbn [mbind option_bind]; [|done].
    destruct pc as [| | |k|k|k [|b rest]|k res| | | | |]; try done; repeat case_match; try done; intros [= <-]; try by apply logs_nothing.
    eapply logs_entry; [reflexivity|exact Hi|done|by destruct i].
  - repeat case_match; try done; intros [= <-]; by apply logs_nothing.
  - destruct (threads r !! i) as [[]|] eqn:Hi; try done. intros [= <-]. eapply logs_entry; [reflexivity|exact Hi|done|by destruct i].
  - destruct (threads r !! i) as [[| | | | |k [|b rest]| | | | | |]|] eqn:Hi; try done. intros [= <-]. eapply logs_entry; [reflexivity|exact Hi|done|by destruct i].
  - destruct (threads r !! i) as [[]|] eqn:Hi; try done; intros [= <-]; (eapply logs_entry; [reflexivity|exact Hi|done|done]).
Qed.
Definition after_shutdown (l : list LogEntry) : Prop :=
  ∀ l1 l2, l = l1 ++ LShutdown :: l2 → Forall (λ e, worker_entry e = false ∧ is_shutdown_entry e = false) l2.
Lemma shutdown_count r : stopping r → size (List.filter is_shutdown_entry (log r)) <= 1.
Proof. intros S. pose proof (sp_once _ S) as Ho. unfold shutdowns in Ho. pose proof (size_nonneg (List.filter shutting (threads r))). destruct (m_shut_down r); lia. Qed.
Lemma after_shutdown_exec a r r' : stopping r → after_shutdown (log r) → exec a r = Some r' → after_shutdown (log r').
Proof.
  intros S A E. pose proof (shutdown_count _ (stopping_exec _ _ _ S E)) as Hc. destruct (exec_logs _ _ _ E) as (es & El & Hes & Hw). rewrite El in *.
  destruct es as [|e [|]]; cbn in Hes; [by rewrite app_nil_r|clear Hes|lia]. rewrite Forall_singleton in Hw.
  intros l1 l2 Heq. destruct l2 as [|e' l2 _] using rev_ind; [done|]. rewrite app_comm_cons, app_assoc in Heq.
  apply app_inj_tail in Heq as [Heq <-]. apply Forall_app. split; [by apply (A l1)|]. apply Forall_singleton. split.
  - destruct (worker_entry e); [|done]. exfalso. apply (Hw eq_refl), (sp_logged _ S). rewrite Heq. apply elem_of_app. right. left.
  - rewrite Heq, List.filter_app, size_app, List.filter_app, size_app in Hc. cbn [List.filter is_shutdown_entry] in Hc. rewrite size_cons in Hc.
    pose proof (size_nonneg (List.filter is_shutdown_entry l1)). pose proof (size_nonneg (List.filter is_shutdown_entry l2)).
    destruct (is_shutdown_entry e); [|done]. rewrite size_cons in Hc. change (size []) with 0 in Hc. lia.
Qed.
Lemma after_shutdown_all interval actions r : exec_all actions (PeriodicReader_new interval) = Some r → after_shutdown (log r).
Proof.
  revert r. induction actions as [|a actions IH] using rev_ind; intros r.
  - intros [= <-] l1 l2 Heq. by destruct l1.
  - rewrite exec_all_snoc. destruct (exec_all actions _) as [r1|] eqn:E1; cbn [mbind option_bind]; [|done].
    apply after_shutdown_exec; [by eapply stopping_all; [apply stopping_new|]|by apply IH].
Qed.
(** The program of a thread: one step from a program counter to the next, with what it logs. *)
Inductive moves (r : PeriodicReader) (a : Action) (i : nat) : Pc → Pc → list LogEntry → Prop :=
| move_check : moves r a i LoopCheck (if m_shut_down r then Exited else LoopWait) []
| move_wait : moves r a i LoopWait (ClaimSlot KLoop) []
| move_claim k : m_collecting r = false → moves r a i (ClaimSlot k) (CallCollect k) []
| move_collect k batches : a = ACollected i (Some batches) → moves r a i (CallCollect k) (CallExport k batches) [LCollect i (Some batches)]
| move_collect_failed k : moves r a i (CallCollect k) (ReleaseSlot k Failed) [LCollect i None]
| move_export k b rest result : is_failure result = false → moves r a i (CallExport k (b :: rest)) (CallExport k rest) [LExport i b result]
| move_export_failed k b rest result : is_failure result = true → moves r a i (CallExport k (b :: rest)) (ReleaseSlot k Failed) [LExport i b result]
| move_exported k : moves r a i (CallExport k []) (ReleaseSlot k Completed) []
| move_release k result : moves r a i (ReleaseSlot k result) (after k result) [LRelease i result]
| move_flush status : moves r a i FlushExporter (Returned status) [LFlush]
| move_wake : moves r a i SetWake JoinThread []
| move_join : threads r !! 0%nat = Some Exited → moves r a i JoinThread ShutExporter []
| move_shut status : moves r a i ShutExporter (Returned status) [LShutdown].
Definition external (a : Action) : bool := match a with AStart _ | ASetInterval _ => true | _ => false end.
Lemma exec_moves a r r' : exec a r = Some r' → external a = false →
  ∃ i pc pc' es, threads r !! i = Some pc ∧ threads r' = <[i := pc']> (threads r) ∧ log r' = log r ++ es ∧ m_shut_down r' = m_shut_down r ∧ moves r a i pc pc' es.
Proof.
  intros E Hx. assert (∀ i pc pc' es, threads r !! i = Some pc → threads r' = <[i := pc']> (threads r) → m_shut_down r' = m_shut_down r →
    log r' = log r ++ es → moves r a i pc pc' es → ∃ i pc pc' es, threads r !! i = Some pc ∧ threads r' = <[i := pc']> (threads r) ∧ log r' = log r ++ es
      ∧ m_shut_down r' = m_shut_down r ∧ moves r a i pc pc' es) as Hm by eauto 10.
  revert E. destruct a as [c|interval|i| |i answer|i result|i status]; cbn [exec]; try done.
  - unfold run_thread. destruct (threads r !! i) as [pc|] eqn:Hi; cbn [mbind option_bind]; [|done].
    destruct pc as [| | |k|k|k [|b rest]|k res| | | | |]; try done;
      [intros [= <-]; eapply Hm; [exact Hi|reflexivity|reflexivity|symmetry; apply app_nil_r|constructor]|..]; repeat case_match; try done; intros [= <-];
      (eapply Hm; [exact Hi|reflexivity|reflexivity|first [symmetry; apply app_nil_r|reflexivity]|by constructor]).
  - destruct (threads r !! 0%nat) as [[]|] eqn:Hi; try done. intros [= <-]. eapply Hm; [exact Hi|reflexivity|reflexivity|symmetry; apply app_nil_r|constructor].
  - destruct (threads r !! i) as [[]|] eqn:Hi; try done. intros [= <-]. destruct answer; (eapply Hm; [exact Hi|reflexivity|reflexivity|reflexivity|by constructor]).
  - destruct (threads r !! i) as [[| | | | |k [|b rest]| | | | | |]|] eqn:Hi; try done. intros [= <-].
    destruct (is_failure result) eqn:Ef; (eapply Hm; [exact Hi|reflexivity|reflexivity|reflexivity|by constructor]).
  - destruct (threads r !! i) as [[]|] eqn:Hi; try done; intros [= <-]; (eapply Hm; [exact Hi|reflexivity|reflexivity|reflexivity|constructor]).
Qed.
Lemma external_threads a r r' : exec a r = Some r' → external a = true →
  log r' = log r ∧ (m_shut_down r = true → m_shut_down r' = true) ∧ ∀ i pc, threads r !! i = Some pc → threads r' !! i = Some pc.
Proof. destruct a as [[]| | | | | |]; try done; intros [= <-] _; cbn; split_and!; try done; intros; by apply lookup_app_l_Some. Qed.

(** Once the flag is up, the background thread begins the cycle it owes and no other. *)
Definition pending (pc : Pc) : Z := match pc with LoopWait | ClaimSlot _ | CallCollect _ => 1 | _ => 0 end.
Definition worker_pc (r : PeriodicReader) : Pc := default Exited (threads r !! 0%nat).
Lemma worker_cycles_exec a r r' : stopping r → m_shut_down r = true → exec a r = Some r' →
  m_shut_down r' = true ∧ worker_cycles r' + pending (worker_pc r') = worker_cycles r + pending (worker_pc r).
Proof.
  intros S D E. unfold worker_cycles, worker_pc. destruct (sp_worker _ S) as (pw & Ew & Lw). destruct (external a) eqn:Hx.
  - destruct (external_threads _ _ _ E Hx) as (-> & Hd & Ht). rewrite (Ht _ _ Ew), Ew. auto with lia.
  - destruct (exec_moves _ _ _ E Hx) as (i & pc & pc' & es & Hi & -> & -> & -> & M). split; [done|]. rewrite List.filter_app, size_app.
    destruct i as [|i].
    + rewrite list_lookup_insert_eq by (by eapply lookup_lt_Some). rewrite Hi. cbn [default from_option]. destruct M as [| | | | | | | |k res| | | |]; rewrite ?D; unfold size; cbn; try lia. destruct k; cbn; lia.
    + rewrite list_lookup_insert_ne by done. rewrite Ew. destruct M; unfold size; cbn; lia.
Qed.
Lemma worker_cycles_all more r r' : stopping r → m_shut_down r = true → exec_all more r = Some r' →
  worker_cycles r' + pending (worker_pc r') = worker_cycles r + pending (worker_pc r).
Proof.
  intros S D. cut (exec_all more r = Some r' → m_shut_down r' = true ∧ worker_cycles r' + pending (worker_pc r') = worker_cycles r + pending (worker_pc r)); [intros H E; by apply H|].
  revert r'. induction more as [|a more IH] using rev_ind; intros r'; [intros [= <-]; by split|].
  rewrite exec_all_snoc. destruct (exec_all more r) as [r1|] eqn:E1; cbn [mbind option_bind]; [|done]. intros E.
  destruct (IH r1 eq_refl) as [D1 Hle]. destruct (worker_cycles_exec a r1 r' (stopping_all _ _ _ S E1) D1 E). split; [done|lia].
Qed.

(** *** Progress *)

(** Steps left to a thread when the reader is shut down and a collection yields at
    most [n] batches. *)
Definition tail_weight (k : After) : nat := match k with KLoop | KFlush => 1 | KCollect => 0 end.
Definition weight (n : nat) (pc : Pc) : nat :=
  match pc with
  | LoopCheck => 1 | LoopWait => n + 6 | Exited => 0
  | ClaimSlot k => n + 4 + tail_weight k | CallCollect k => n + 3 + tail_weight k | CallExport k rest => length rest + 2 + tail_weight k | ReleaseSlot k _ => 1 + tail_weight k
  | FlushExporter => 1 | SetWake => 3 | JoinThread => 2 | ShutExporter => 1 | Returned _ => 0
  end.
Definition weights (n : nat) (r : PeriodicReader) : nat := sum_list_with (weight n) (threads r).
(** The threads that run already, with collections of at most [n] batches. *)
Definition internal (n : nat) (a : Action) : bool :=
  match a with AStart _ | ASetInterval _ => false | ACollected _ (Some batches) => bool_decide (length batches <= n)%nat | _ => true end.
Definition finished (pc : Pc) : bool := match pc with Exited | Returned _ => true | _ => false end.
Lemma sum_insert (f : Pc → nat) l i x y : l !! i = Some x → (sum_list_with f (<[i := y]> l) + f x = sum_list_with f l + f y)%nat.
Proof. revert i. induction l as [|z l IH]; intros [|i] H; try done; [injection H as ->; cbn; lia|]. specialize (IH i H). cbn in *. rewrite <- !Nat.add_assoc. by f_equal. Qed.
Lemma weights_exec n a r r' : stopping r → m_shut_down r = true → exec a r = Some r' → internal n a = true →
  m_shut_down r' = true ∧ (weights n r' < weights n r)%nat.
Proof.
  intros S D E Hi. assert (external a = false) as Hx by (by destruct a).
  assert (∀ i batches, a = ACollected i (Some batches) → (length batches <= n)%nat) as Hb by (intros i batches ->; by apply bool_decide_eq_true in Hi).
  unfold weights. destruct (exec_moves _ _ _ E Hx) as (i & pc & pc' & es & Hpc & -> & El & -> & M). split; [done|].
  pose proof (sum_insert (weight n) _ _ _ pc' Hpc). enough (weight n pc' < weight n pc)%nat by lia.
  destruct M as [| |k|k batches|k|k b rest|k b rest| |k res| | | |]; rewrite ?D; cbn; try lia; [|destruct k; cbn; lia].
  enough (length batches <= n)%nat by lia. by eapply Hb.
Qed.
(** A step that neither a new caller nor the clock has to bring about. *)
Definition can_step (r : PeriodicReader) : Prop := ∃ a r', internal 0 a = true ∧ a ≠ ATimeout ∧ exec a r = Some r'.
Lemma cycle_steps r i pc c : threads r !! i = Some pc → in_cycle i pc = Some c → can_step r.
Proof.
  intros Hi Hc. destruct pc as [| | |k|k|k [|b rest]|k res| | | | |]; try done;
    [exists (ACollected i None)|exists (ARun i)|exists (AExported i ExportSuccess)|exists (ARun i)]; cbn [exec]; unfold run_thread; rewrite Hi; cbn [mbind option_bind]; eauto.
Qed.
Lemma claim_steps r i k : serialized r → threads r !! i = Some (ClaimSlot k) → can_step r.
Proof.
  intros [Hb Ho _] Hi. destruct (m_collecting r) eqn:E.
  - destruct (Ho eq_refl) as (j & pc & c & Hj & Hc & _). by eapply cycle_steps.
  - exists (ARun i). eexists. cbn [exec internal]. unfold run_thread. rewrite Hi. cbn [mbind option_bind]. by rewrite E.
Qed.
Lemma count_ex {A} (f : A → bool) l : 0 < size (List.filter f l) → ∃ i x, l !! i = Some x ∧ f x = true.
Proof.
  intros H. destruct (List.filter f l) as [|x l'] eqn:E; [done|]. assert (In x (List.filter f l)) as [Hin Hf]%filter_In by (rewrite E; by left).
  apply list_elem_of_In, list_elem_of_lookup_1 in Hin as [i Hi]. by exists i, x.
Qed.
(** No lost wake-up: a background thread waiting without the flag means that the
    caller of [Shutdown] has yet to set it. *)
Lemma waiting_steps r : stopping r → m_shut_down r = true → threads r !! 0%nat = Some LoopWait → can_step r.
Proof.
  intros S D E0. destruct (m_wake r) eqn:Ew; [exists (ARun 0); eexists; cbn [exec internal]; unfold run_thread; rewrite E0; cbn [mbind option_bind]; by rewrite Ew|].
  pose proof (sp_once _ S) as Ho. rewrite D in Ho. unfold shutdowns in Ho.
  destruct (decide (0 < size (List.filter shutting (threads r)))) as [(i & pc & Hi & Hp)%count_ex|Hn].
  - destruct pc; try done.
    + exists (ARun i). eexists. cbn [exec internal]. unfold run_thread. by rewrite Hi.
    + pose proof (sp_wake _ S i Hi E0). congruence.
    + pose proof (sp_joined _ S i Hi). congruence.
  - assert (0 < size (List.filter is_shutdown_entry (log r))) as (i & e & Hi & He)%count_ex by lia. destruct e; try done.
    assert (threads r !! 0%nat = Some Exited) by (apply (sp_logged _ S); by eapply list_elem_of_lookup_2). congruence.
Qed.
Lemma not_stuck r i pc : serialized r → stopping r → m_shut_down r = true → threads r !! i = Some pc → finished pc = false → can_step r.
Proof.
  intros Sr S D Hi Hf. assert (∀ pw, threads r !! 0%nat = Some pw → pw ≠ Exited → can_step r) as Hw.
  { intros pw E0 Hne. destruct (sp_worker _ S) as (pw' & E0' & Hl). assert (pw' = pw) as -> by congruence. destruct pw as [| | |k|k|k rest|k res| | | | |]; try done.
    - exists (ARun 0). cbn [exec internal]. unfold run_thread. rewrite E0. cbn [mbind option_bind]. eauto.
    - by apply waiting_steps.
    - by eapply claim_steps.
    - by eapply (cycle_steps r 0 (CallCollect k)).
    - by eapply (cycle_steps r 0 (CallExport k rest)).
    - destruct (release_in_cycle 0 k res) as [c Hc]. exact (cycle_steps _ _ _ _ E0 Hc). }
  destruct (sp_worker _ S) as (pw & E0 & Hl). destruct pc as [| | |k|k|k rest|k res| | | | |]; try done.
  - by apply (Hw LoopCheck); [rewrite <- (loop_pc_zero _ _ _ S Hi)|].
  - by apply (Hw LoopWait); [rewrite <- (loop_pc_zero _ _ _ S Hi)|].
  - by eapply claim_steps.
  - by eapply (cycle_steps r i (CallCollect k)).
  - by eapply (cycle_steps r i (CallExport k rest)).
  - destruct (release_in_cycle i k res) as [c Hc]. exact (cycle_steps _ _ _ _ Hi Hc).
  - exists (AExporter i Completed). cbn [exec internal]. rewrite Hi. eauto.
  - exists (ARun i). cbn [exec internal]. unfold run_thread. rewrite Hi. cbn [mbind option_bind]. eauto.
  - destruct (decide (finished pw = true)) as [Hp|Hp]; [|apply (Hw pw E0); by intros ->].
    destruct pw; try done. exists (ARun i). cbn [exec internal]. unfold run_thread. rewrite Hi. cbn [mbind option_bind]. rewrite E0. eauto.
  - exists (AExporter i Completed). cbn [exec internal]. rewrite Hi. eauto.
Qed.
Lemma internal_all n more r r' : stopping r → m_shut_down r = true → exec_all more r = Some r' → Forall (λ a, internal n a = true) more →
  m_shut_down r' = true ∧ (length more + weights n r' <= weights n r)%nat.
Proof.
  intros S D. revert r'. induction more as [|a more IH] using rev_ind; intros r'; [by intros [= <-]|].
  rewrite exec_all_snoc, Forall_app, Forall_singleton, length_app. destruct (exec_all more r) as [r1|] eqn:E1; cbn [mbind option_bind]; [|done].
  intros E [Hm Ha]. destruct (IH r1 eq_refl Hm) as [D1 Hle]. destruct (weights_exec n a r1 r' (stopping_all _ _ _ S E1) D1 E Ha). split; [done|]. cbn. lia.
Qed.

(** Whatever the schedule of the background thread and of any number of callers of
    Collect, ForceFlush and Shutdown, the requests to producer and exporter form a
    sequence of cycles that never interleave: each collects once, exports the batches
    of that collection in order up to the first failure, and releases the slot with
    Completed exactly when every batch went through.  At most one thread is inside a
    cycle, and none when the slot is free. *)
Theorem reader_cycles_serialized interval actions r : exec_all actions (PeriodicReader_new interval) = Some r →
  (∃ c, cycles (log r) = Some c ∧ (m_collecting r = false → c = Free))
  ∧ (m_collecting r = false → ∀ i pc, threads r !! i = Some pc → in_cycle i pc = None)
  ∧ ∀ i j pc pc', threads r !! i = Some pc → threads r !! j = Some pc' → is_Some (in_cycle i pc) → is_Some (in_cycle j pc') → i = j.
Proof.
  intros E. pose proof (serialized_all _ _ _ (serialized_new interval) E) as S. pose proof S as [Hb Ho _]. split_and!.
  - destruct (m_collecting r); [|exists Free; split; [by apply Hb|done]]. destruct (Ho eq_refl) as (i & pc & c & _ & _ & Hc & _). by exists c.
  - intros Em. by apply Hb.
  - intros i j pc pc' Hi Hj [c Hc] [c' Hc']. destruct (in_cycle_owner _ _ _ _ S Hi Hc) as (_ & _ & Hu).
    destruct (decide (j = i)) as [|Hne]; [done|]. specialize (Hu _ _ Hj Hne). congruence.
Qed.

(** Once Shutdown has raised its flag, the background thread collects exactly once
    more if it was waiting or about to collect, and not at all if it was past the
    collection of a cycle: so it stands when the exporter is shut down.  That happens
    at most once, the background thread has left its loop by then, and nothing of it
    is logged afterwards. *)
Theorem reader_shutdown_once interval actions r more r' :
  exec_all actions (PeriodicReader_new interval) = Some r → m_shut_down r = true → exec_all more r = Some r' → LShutdown ∈ log r' →
  worker_cycles r' = worker_cycles r + pending (worker_pc r)
  ∧ worker_pc r' = Exited ∧ size (List.filter is_shutdown_entry (log r')) = 1 ∧ after_shutdown (log r').
Proof.
  intros E D E' Hin. pose proof (stopping_all _ _ _ (stopping_new interval) E) as S. pose proof (stopping_all _ _ _ S E') as S'.
  pose proof (sp_logged _ S' Hin) as Hx. assert (worker_pc r' = Exited) as Hw by (unfold worker_pc; by rewrite Hx).
  pose proof (worker_cycles_all _ _ _ S D E') as Hc. rewrite Hw in Hc. cbn [pending] in Hc.
  assert (exec_all (actions ++ more) (PeriodicReader_new interval) = Some r') as Ea by (unfold exec_all in *; by rewrite foldl_app, E).
  split; [lia|]. split; [done|]. split; [|by eapply after_shutdown_all].
  pose proof (shutdown_count _ S'). apply list_elem_of_lookup_1 in Hin as [i Hi]. pose proof (count_pos _ _ _ _ Hi (eq_refl : is_shutdown_entry LShutdown = true)). lia.
Qed.

(** C17: Shutdown terminates without help from the clock.  From any reachable state
    with the flag raised, the threads already running can make only a bounded number
    of steps (the bound is computed from the state and from the number of batches a
    collection yields), and as long as one of them has not returned, some step other
    than a timeout is possible: no wake-up is lost and no caller stays blocked on the
    slot or on the join. *)
Theorem reader_shutdown_completes n interval actions r more r' :
  exec_all actions (PeriodicReader_new interval) = Some r → m_shut_down r = true →
  exec_all more r = Some r' → Forall (λ a, internal n a = true) more →
  (length more <= weights n r)%nat
  ∧ (∀ i pc, threads r' !! i = Some pc → finished pc = false → can_step r').
Proof.
  intros E D E' Hm. pose proof (stopping_all _ _ _ (stopping_new interval) E) as S. pose proof (serialized_all _ _ _ (serialized_new interval) E) as Sr.
  destruct (internal_all n _ _ _ S D E' Hm) as [D' Hle]. split; [lia|].
  intros i pc. apply not_stuck; [by eapply serialized_all|by eapply stopping_all|done].
Qed.
End reader.

(** ** [SynchronousMetricReader] *)

Section synchronous.
Context {B P E : Type} `{!EqDecision B}.
(** Producer and exporter, by the answers they give. *)
Context (producer_Collect : P → P * option (list B)) (exporter_Export : E → B → E * ExportResult)
        (exporter_ForceFlush exporter_Shutdown : E → E * Status).

Record SynchronousMetricReader := mkSyncReader { sm_shut_down : bool; sm_producer : P; sm_exporter : E }.
Fixpoint export_handles (exporter : E) (handles : list B) : E * Status :=
  match handles with
  | [] => (exporter, Completed)
  | handle :: rest => let '(exporter, result) := exporter_Export exporter handle in
                      if is_failure result then (exporter, Failed) else export_handles exporter rest
  end.
Definition SynchronousMetricReader_Collect (r : SynchronousMetricReader) : SynchronousMetricReader * Status :=
  if sm_shut_down r then (r, AlreadyShutDown)
  else let '(producer, answer) := producer_Collect (sm_producer r) in
       match answer with
       | None => (mkSyncReader false producer (sm_exporter r), Failed)
       | Some handles => let '(exporter, status) := export_handles (sm_exporter r) handles in (mkSyncReader false producer exporter, status)
       end.
Definition SynchronousMetricReader_ForceFlush (r : SynchronousMetricReader) : SynchronousMetricReader * Status :=
  if sm_shut_down r then (r, AlreadyShutDown)
  else let '(exporter, status) := exporter_ForceFlush (sm_exporter r) in (mkSyncReader false (sm_producer r) exporter, status).
Definition SynchronousMetricReader_Shutdown (r : SynchronousMetricReader) : SynchronousMetricReader * Status :=
  if sm_shut_down r then (r, AlreadyShutDown)
  else let '(exporter, status) := exporter_Shutdown (sm_exporter r) in (mkSyncReader true (sm_producer r) exporter, status).

(** The same cycle run by a caller of the periodic reader: its answers come from the
    same producer and exporter. *)
Fixpoint export_actions (i : nat) (exporter : E) (handles : list B) : list (Action (B := B)) :=
  match handles with
  | [] => [ARun i]
  | handle :: rest => let '(exporter, result) := exporter_Export exporter handle in
                      AExported i result :: if is_failure result then [] else export_actions i exporter rest
  end.
Definition collect_actions (i : nat) (producer : P) (exporter : E) : list (Action (B := B)) :=
  let answer := (producer_Collect producer).2 in
  ARun i :: ACollected i answer :: match answer with None => [] | Some handles => export_actions i exporter handles end ++ [ARun i].

Lemma exec_all_cons a actions r : exec_all (B := B) (a :: actions) r = exec a r ≫= exec_all actions.
Proof.
  unfold exec_all. cbn [foldl mbind option_bind]. destruct (exec a r) as [r1|]; [done|]. cbn.
  induction actions as [|b actions IH]; [done|]. exact IH.
Qed.
Lemma exec_all_app l l' r : exec_all (l ++ l') r = exec_all (B := B) l r ≫= exec_all l'.
Proof. revert r. induction l as [|a l IH]; intros r; [done|]. rewrite <- app_comm_cons, !exec_all_cons. destruct (exec a r); [apply IH|done]. Qed.
Lemma export_actions_run i k handles : ∀ exporter r, threads r !! i = Some (CallExport k handles) →
  ∃ r', exec_all (export_actions i exporter handles) r = Some r' ∧ threads r' !! i = Some (ReleaseSlot k (export_handles exporter handles).2)
    ∧ m_shut_down r' = m_shut_down r.
Proof.
  induction handles as [|handle rest IH]; intros exporter r Hi; pose proof (lookup_lt_Some _ _ _ Hi) as Hlt; cbn [export_actions export_handles].
  - exists (set_pc i (ReleaseSlot k Completed) r). rewrite exec_all_cons. cbn [exec]. unfold run_thread. rewrite Hi. cbn [mbind option_bind].
    split; [done|]. split; [by apply list_lookup_insert_eq|done].
  - destruct (exporter_Export exporter handle) as [exporter' result] eqn:Ex. rewrite exec_all_cons. cbn [exec]. rewrite Hi. cbn [mbind option_bind].
    destruct (is_failure result) eqn:Ef.
    + eexists. split; [done|]. split; [by apply list_lookup_insert_eq|done].
    + set (r1 := emit _ _). destruct (IH exporter' r1) as (r' & E1 & H1 & D1); [by apply list_lookup_insert_eq|]. exists r'. split; [exact E1|]. split; [exact H1|by rewrite D1].
Qed.

(** A manual Collect on the periodic reader, run without interference, and Collect
    on the synchronous reader are the same operation: over the same producer and
    exporter they answer the same status, AlreadyShutDown included, and the periodic
    caller never blocks. *)
Theorem manual_collect_is_synchronous (producer : P) (exporter : E) (r : PeriodicReader (B := B)) :
  m_collecting r = false →
  let i := length (threads r) in
  ∃ r', exec_all (AStart CollectCall :: if m_shut_down r then [] else collect_actions i producer exporter) r = Some r'
    ∧ threads r' !! i = Some (Returned (SynchronousMetricReader_Collect (mkSyncReader (m_shut_down r) producer exporter)).2).
Proof.
  intros Hfree i. rewrite exec_all_cons. cbn [exec mbind option_bind]. unfold SynchronousMetricReader_Collect. cbn [sm_shut_down sm_producer sm_exporter].
  assert (threads (enter CollectCall r) !! i = Some (if m_shut_down r then Returned AlreadyShutDown else ClaimSlot KCollect)) as Hi by (by apply list_lookup_middle).
  destruct (m_shut_down r) eqn:Ed; [by eexists|]. unfold collect_actions. rewrite exec_all_cons. cbn [exec]. unfold run_thread at 1. rewrite Hi. cbn [mbind option_bind enter m_collecting].
  rewrite Hfree. cbn [mbind option_bind]. set (r1 := set_pc _ _ _). pose proof (lookup_lt_Some _ _ _ Hi) as Hlt.
  assert (threads r1 !! i = Some (CallCollect KCollect)) as H1 by (by apply list_lookup_insert_eq).
  rewrite exec_all_cons. cbn [exec]. rewrite H1. cbn [mbind option_bind].
  destruct (producer_Collect producer) as [producer' answer]. cbn [snd]. set (r2 := emit _ _).
  assert (threads r2 !! i = Some match answer with None => ReleaseSlot KCollect Failed | Some batches => CallExport KCollect batches end) as H2
    by (apply list_lookup_insert_eq; by eapply lookup_lt_Some).
  assert (∀ r res, threads (B := B) r !! i = Some (ReleaseSlot KCollect res) → ∃ r', exec_all [ARun i] r = Some r' ∧ threads r' !! i = Some (Returned res)) as Hrel.
  { intros r' res Hr. rewrite exec_all_cons. cbn [exec]. unfold run_thread. rewrite Hr. cbn [mbind option_bind]. eexists. split; [done|]. apply list_lookup_insert_eq. by eapply lookup_lt_Some. }
  destruct answer as [handles|]; [|by apply Hrel].
  destruct (export_actions_run i KCollect handles exporter r2 H2) as (r3 & E3 & H3 & _). rewrite exec_all_app, E3. cbn [mbind option_bind].
  destruct (export_handles exporter handles) as [exporter' status]. by apply Hrel.
Qed.
End synchronous.

(** ** Runs *)

(** A caller collects while the background thread waits for its slot after a timeout;
    a second caller shuts the reader down while it waits again. *)
Definition reader_ex_start : list (Action (B := nat)) :=
  [ARun 0; AStart CollectCall; ARun 1; ATimeout; ACollected 1 (Some [7; 8]%nat); AExported 1 ExportSuccess; AExported 1 ExportFailure; ARun 1;
   ARun 0; ACollected 0 (Some [9]%nat); AExported 0 ExportDropped; ARun 0; ARun 0; ARun 0; AStart ShutdownCall].
Definition reader_ex_stop : list (Action (B := nat)) :=
  [ARun 2; ARun 0; ARun 0; ACollected 0 None; ARun 0; ARun 0; ARun 2; AExporter 2 Completed].
Definition reader_ex_mid : PeriodicReader (B := nat) := Eval vm_compute in default (PeriodicReader_new 1) (exec_all reader_ex_start (PeriodicReader_new 1)).
Definition reader_ex_end : PeriodicReader (B := nat) := Eval vm_compute in default (PeriodicReader_new 1) (exec_all reader_ex_stop reader_ex_mid).

(** The background thread is past the wait when the flag rises: the reader stops
    without the final cycle its documentation promises, and what was recorded since
    the last collection is never exported. *)
Lemma final_cycle_missed : option_map log (exec_all (B := nat) [AStart ShutdownCall; ARun 0; ARun 1; ARun 1; AExporter 1 Completed] (PeriodicReader_new 1)) = Some [LShutdown].
Proof. by vm_compute. Qed.

Lemma reader_cycles_serialized_witness : ∃ c, cycles (log reader_ex_end) = Some c ∧ (m_collecting reader_ex_end = false → c = Free).
Proof.
  assert (exec_all (reader_ex_start ++ reader_ex_stop) (PeriodicReader_new 1) = Some reader_ex_end) as E by (vm_compute; reflexivity).
  exact (proj1 (reader_cycles_serialized 1 _ reader_ex_end E)).
Defined.
Lemma reader_shutdown_once_witness : worker_cycles reader_ex_end = worker_cycles reader_ex_mid + pending (worker_pc reader_ex_mid) ∧ pending (worker_pc reader_ex_mid) = 1.
Proof.
  split; [|reflexivity]. refine (proj1 (reader_shutdown_once 1 reader_ex_start reader_ex_mid reader_ex_stop reader_ex_end _ _ _ _));
    [vm_compute; reflexivity|reflexivity|vm_compute; reflexivity|].
  apply list_elem_of_In. vm_compute. tauto.
Defined.
Lemma reader_shutdown_completes_witness : (length reader_ex_stop <= weights 2 reader_ex_mid)%nat.
Proof.
  refine (proj1 (reader_shutdown_completes 2 1 reader_ex_start reader_ex_mid reader_ex_stop reader_ex_end _ _ _ _));
    [vm_compute; reflexivity|reflexivity|vm_compute; reflexivity|].
  repeat constructor.
Defined.
Lemma manual_collect_is_synchronous_witness :
  ∃ r', exec_all (AStart CollectCall :: collect_actions (λ p : nat, (p, Some [7; 8]%nat)) (λ (e : nat) (b : nat), (b, if decide (b = 8%nat) then ExportFailure else ExportSuccess)) 1 0%nat 0%nat)
    (PeriodicReader_new 1) = Some r' ∧ threads r' !! 1%nat = Some (Returned Failed).
Proof.
  exact (manual_collect_is_synchronous (λ p : nat, (p, Some [7; 8]%nat)) (λ (e : nat) (b : nat), (b, if decide (b = 8%nat) then ExportFailure else ExportSuccess))
    0%nat 0%nat (PeriodicReader_new 1) eq_refl).
Defined.
