(* ===== verification/RetryEngine.v ===== *)
(** * Retry policy and retry engine

    Model of [src/exporter/retry_policy.cpp] and [src/exporter/retry_engine.cpp],
    the loop the three exporters share.  The world the loop runs in (clock
    readings, jitter draws, whether a sleep was aborted, the result of each
    attempt) is the record [Env], indexed by attempt; the diagnostics sink is the
    sequence of calls made to it.  [std::pow] is a parameter: the C++ standard
    leaves its accuracy to the implementation.

    Times are [int64_t] nanoseconds and durations [int64_t] milliseconds; a
    conversion or sum that overflows is undefined, hence [None].

    The theorems: how many retries are made and when; that every one of them was
    allowed by the policy, the server's [retry_after] and the budget; that one
    batch is accounted for exactly once. *)
From S2P Require Import Prelude Data Double.

(** ** [WireResult] and [Error] *)

Inductive ErrorKind :=
| KUnspecified | KNetwork | KProtocol | KResourceExhausted | KCancelled | KMalformed | KInternalFailure.
Record Error := mkError { error_kind : ErrorKind; error_message : str; os_errno : Z }.
Record WireResult := mkWireResult {
  success : bool;
  retryable : bool;
  retry_after : option Z;
  partial_success_rejected : Z;
  error : option Error;
  response_excerpt : str
}.

Record RetryPolicyConfig := mkRetryPolicyConfig {
  max_attempts : Z;
  initial_backoff : Z;
  max_backoff : Z;
  backoff_multiplier : double;
  jitter_fraction : double;
  retry_budget : Z
}.

(** ** [ComputeBackoff] *)

Definition kJitterScale : double := S754_finite false 4503599627370496 (-51).
Definition kJitterOrigin : double := d_one.
Definition kBackoffFloor : double := d_zero.
(** [static_cast<std::int64_t>(x)]. *)
Definition to_i64 (x : double) : option Z :=
  match x with
  | S754_zero _ => Some 0
  | S754_finite s m e =>
      let z := if s then - scaled (Zpos m) e else scaled (Zpos m) e in
      if (i64_min <=? z) && (z <=? i64_max) then Some z else None
  | _ => None
  end.

Section policy.
Context (std_pow : double → double → double).

Definition ComputeBackoff (attempt : Z) (config : RetryPolicyConfig) (server : option Z)
    (jitter_01 : double) : option Z :=
  let initial_ms := d_of_int (initial_backoff config) in
  let max_ms := d_of_int (max_backoff config) in
  let scaled := d_mul initial_ms (std_pow (backoff_multiplier config) (d_of_int attempt)) in
  let base_ms := d_min scaled max_ms in
  let jitter := d_mul (d_mul base_ms (jitter_fraction config))
                  (d_sub (d_mul kJitterScale jitter_01) kJitterOrigin) in
  let result_ms := d_max kBackoffFloor (d_add base_ms jitter) in
  match to_i64 result_ms with
  | None => None
  | Some backoff =>
      match server with
      | Some after => if backoff <? after then Some after else Some backoff
      | None => Some backoff
      end
  end.

(** ** [RetryEngine] *)

Record Env := mkEnv {
  clock_now : nat → Z;              (** reading 0 sets the deadline, reading [k] precedes retry [k] *)
  jitter_draw : nat → double;
  sleep_aborted : nat → bool;       (** [m_aborted] when the sleep before retry [k] ends *)
  attempt_result : nat → WireResult
}.
Context (m_policy : RetryPolicyConfig) (env : Env).

Definition in_i64 (z : Z) : bool := (i64_min <=? z) && (z <=? i64_max).
(** [time_point + milliseconds], in nanoseconds. *)
Definition plus_ms (t ms : Z) : option Z :=
  let ns := ms * 1000000 in if in_i64 ns && in_i64 (t + ns) then Some (t + ns) else None.

(** The retry made after a backoff: what it was based on and when. *)
Record Retry := mkRetry {
  r_attempt : nat;
  r_previous : WireResult;
  r_backoff : Z;
  r_now : Z;
  r_result : WireResult
}.

(** [BackOffBeforeRetry]: [Some (Some backoff)] is [true] after sleeping
    [backoff]. *)
Definition BackOffBeforeRetry (last : WireResult) (attempt : nat) (budget_deadline : Z)
    : option (option Z) :=
  if success last || negb (retryable last) then Some None
  else
    match ComputeBackoff (Z.of_nat attempt - 1) m_policy (retry_after last) (jitter_draw env attempt) with
    | None => None
    | Some backoff =>
        match plus_ms (clock_now env attempt) backoff with
        | None => None
        | Some wake =>
            if budget_deadline <=? wake then Some None
            else if sleep_aborted env attempt then Some None else Some (Some backoff)
        end
    end.

(** The [for] loop of [RunRetryLoop]; [remaining] is [max_attempts - attempt]. *)
Fixpoint retry_loop (remaining attempt : nat) (deadline : Z) (first : WireResult)
    (last : option WireResult) (log : list Retry) : option (option WireResult * list Retry) :=
  match remaining with
  | O => Some (last, log)
  | S remaining' =>
      let previous := default first last in
      match BackOffBeforeRetry previous attempt deadline with
      | None => None
      | Some None => Some (last, log)
      | Some (Some backoff) =>
          let r := attempt_result env attempt in
          retry_loop remaining' (S attempt) deadline first (Some r)
            (log ++ [mkRetry attempt previous backoff (clock_now env attempt) r])
      end
  end.

Definition effective_attempts : Z := if 0 <? max_attempts m_policy then max_attempts m_policy else 1.

Definition RunRetryLoop (first : WireResult) : option (option WireResult * list Retry) :=
  match plus_ms (clock_now env 0) (retry_budget m_policy) with
  | None => None
  | Some deadline => retry_loop (Z.to_nat (effective_attempts - 1)) 1 deadline first None []
  end.

(** ** Outcomes *)

Inductive DiagCall :=
| CallRecordDrop (reason : DropReason) (n : Z)
| CallBatchSent
| CallBatchFailed (e : Error)
| CallQueueDepth (depth : Z).

(** [Resolve]: the batch's result, the retries made, and the sink calls. *)
Definition Resolve (m_diag : bool) (first : WireResult) (batches : Z)
    : option (WireResult * list Retry * list DiagCall) :=
  if success first || negb (retryable first) then Some (first, [], [])
  else
    match RunRetryLoop first with
    | None => None
    | Some (None, log) => Some (first, log, [])
    | Some (Some retried, log) =>
        Some (retried, log,
              if success retried && m_diag then [CallRecordDrop RetryableFailureRecovered batches] else [])
    end.

Definition RecordOutcome (m_diag : bool) (result : WireResult) (failure_stage : str) (batches : Z)
    : list DiagCall :=
  if negb m_diag then []
  else if success result then
    (if 0 <? partial_success_rejected result
     then [CallRecordDrop PartialSuccessRejection (partial_success_rejected result)] else [])
    ++ replicate (Z.to_nat batches) CallBatchSent
  else
    CallRecordDrop (if retryable result then RetryBudgetExhausted else NonRetryableFailure) batches
    :: replicate (Z.to_nat batches)
         (CallBatchFailed (default (mkError KNetwork failure_stage 0) (error result))).

Definition Settle (m_diag : bool) (first : WireResult) (failure_stage : str) (batches : Z)
    : option (list Retry * list DiagCall) :=
  match Resolve m_diag first batches with
  | None => None
  | Some (result, log, calls) => Some (log, calls ++ RecordOutcome m_diag result failure_stage batches)
  end.

(** ** Facts *)

Lemma d_max_floor x : ∀ z, to_i64 (d_max kBackoffFloor x) = Some z → 0 <= z.
Proof.
  intros z. unfold d_max, kBackoffFloor, d_zero, d_ltb, SFltb.
  destruct x as [s|[]| |[] m e]; cbn; try (intros [= <-]; lia); try done.
  intros H. destruct (_ && _); [|done]. injection H as <-. by apply scaled_nonneg.
Qed.

Lemma ComputeBackoff_bounds attempt cfg server j b :
  ComputeBackoff attempt cfg server j = Some b →
  0 <= b ∧ ∀ after, server = Some after → after <= b.
Proof.
  unfold ComputeBackoff. cbv zeta. destruct (to_i64 _) as [z|] eqn:E; [|done].
  apply d_max_floor in E. destruct server as [after|].
  - destruct (z <? after) eqn:El; intros [= <-]; bool_hyps; (split; [lia|]); intros ? [= <-]; lia.
  - intros [= <-]. by split.
Qed.

(** A retry the policy allows: after a retryable failure, not before the server's
    delay, ending before the deadline, and not aborted. *)
Definition allowed (deadline : Z) (r : Retry) : Prop :=
  success (r_previous r) = false ∧ retryable (r_previous r) = true
  ∧ 0 <= r_backoff r ∧ (∀ after, retry_after (r_previous r) = Some after → after <= r_backoff r)
  ∧ r_now r + r_backoff r * 1000000 < deadline ∧ sleep_aborted env (r_attempt r) = false
  ∧ r_result r = attempt_result env (r_attempt r).

(** Each retry follows the result of the one before it. *)
Fixpoint chained (first : WireResult) (log : list Retry) : Prop :=
  match log with [] => True | r :: log' => r_previous r = first ∧ chained (r_result r) log' end.

Definition last_result (first : WireResult) (log : list Retry) : WireResult :=
  default first (r_result <$> last log).

Lemma chained_snoc first log r :
  chained first log → r_previous r = last_result first log → chained first (log ++ [r]).
Proof.
  revert first. induction log as [|x log IH]; intros first; cbn; [done|].
  intros [Hx Hl] Hr. split; [done|]. apply IH; [done|]. rewrite Hr.
  unfold last_result. rewrite last_cons. by destruct (last log).
Qed.
Lemma last_result_snoc first log r : last_result first (log ++ [r]) = r_result r.
Proof. unfold last_result. by rewrite last_snoc. Qed.

Lemma BackOff_allowed previous attempt deadline backoff :
  BackOffBeforeRetry previous attempt deadline = Some (Some backoff) →
  allowed deadline (mkRetry attempt previous backoff (clock_now env attempt) (attempt_result env attempt)).
Proof.
  unfold BackOffBeforeRetry. destruct (_ || _) eqn:Es; [done|]. bool_hyps.
  destruct (ComputeBackoff _ _ _ _) as [b|] eqn:Eb; [|done].
  destruct (plus_ms _ b) as [wake|] eqn:Ew; [|done].
  destruct (_ <=? wake) eqn:Ed; [done|]. destruct (sleep_aborted env attempt) eqn:Ea; [done|].
  intros [= <-]. apply ComputeBackoff_bounds in Eb as [Hb Ha]. bool_hyps.
  unfold plus_ms in Ew. destruct (_ && _); [|done]. injection Ew as <-. by split_and!.
Qed.

Lemma retry_loop_spec remaining attempt deadline first lst log out log' :
  chained first log → Forall (allowed deadline) log → lst = (r_result <$> last log) →
  retry_loop remaining attempt deadline first lst log = Some (out, log') →
  chained first log' ∧ Forall (allowed deadline) log' ∧ out = (r_result <$> last log')
  ∧ (length log' <= length log + remaining)%nat
  ∧ (length log' = (length log + remaining)%nat
     ∨ (∃ k, BackOffBeforeRetry (last_result first log') k deadline = Some None)).
Proof.
  revert attempt lst log. induction remaining as [|n IH]; intros attempt lst log Hc Ha Hl H; cbn in H.
  { injection H as <- <-. split_and!; try done; [lia|left; lia]. }
  assert (default first lst = last_result first log) as Hd by (by subst).
  destruct (BackOffBeforeRetry (default first lst) attempt deadline) as [[b|]|] eqn:Eb; [| |done].
  - apply BackOff_allowed in Eb as Hal. apply IH in H as (H1 & H2 & H3 & H4 & H5).
    + rewrite length_app in *. cbn in *. split_and!; try done; [lia|].
      destruct H5 as [?|?]; [left; lia|by right].
    + apply chained_snoc; [done|]. cbn. done.
    + apply Forall_app. split; [done|]. by apply Forall_singleton.
    + by rewrite last_snoc.
  - injection H as <- <-. split_and!; try done; [lia|]. right. rewrite Hd in Eb. eauto.
Qed.

(** C4: what the retry loop does: it makes at most [max_attempts - 1] retries
    (none if the first attempt succeeded or is not retryable); each one follows a
    retryable failure, sleeps at least the server's [retry_after] and never a
    negative time, ends its sleep before the budget deadline, and is not made
    once [Abort] was seen; it stops early only when the last result needs no
    retry, the next sleep would reach the deadline, or a sleep was aborted. *)
Theorem retry_loop_contract first out log deadline :
  plus_ms (clock_now env 0) (retry_budget m_policy) = Some deadline →
  RunRetryLoop first = Some (out, log) →
  chained first log ∧ Forall (allowed deadline) log ∧ out = (r_result <$> last log)
  ∧ (Z.of_nat (length log) <= effective_attempts - 1)
  ∧ (Z.of_nat (length log) = effective_attempts - 1
     ∨ ∃ k, BackOffBeforeRetry (last_result first log) k deadline = Some None).
Proof.
  intros Hd. unfold RunRetryLoop. rewrite Hd. intros H.
  apply retry_loop_spec in H as (H1 & H2 & H3 & H4 & H5); [|done|constructor|done]. cbn in *.
  assert (1 <= effective_attempts) by (unfold effective_attempts; destruct (_ <? _) eqn:E; bool_hyps; lia).
  split_and!; try done; [lia|]. destruct H5 as [?|?]; [left; lia|by right].
Qed.

(** ** Accounting *)

Definition sent (calls : list DiagCall) : nat :=
  length (List.filter (λ c, match c with CallBatchSent => true | _ => false end) calls).
Definition failed (calls : list DiagCall) : nat :=
  length (List.filter (λ c, match c with CallBatchFailed _ => true | _ => false end) calls).
Definition drops (calls : list DiagCall) : list (DropReason * Z) :=
  omap (λ c, match c with CallRecordDrop r n => Some (r, n) | _ => None end) calls.

Lemma sent_app a b : sent (a ++ b) = (sent a + sent b)%nat.
Proof. unfold sent. by rewrite List.filter_app, length_app. Qed.
Lemma failed_app a b : failed (a ++ b) = (failed a + failed b)%nat.
Proof. unfold failed. by rewrite List.filter_app, length_app. Qed.
Lemma drops_app a b : drops (a ++ b) = drops a ++ drops b.
Proof. unfold drops. apply omap_app. Qed.
Lemma count_replicate n c :
  sent (replicate n c) = (match c with CallBatchSent => n | _ => 0 end)%nat
  ∧ failed (replicate n c) = (match c with CallBatchFailed _ => n | _ => 0 end)%nat
  ∧ drops (replicate n c) = match c with CallRecordDrop r k => replicate n (r, k) | _ => [] end.
Proof.
  induction n as [|n (IH1 & IH2 & IH3)]; [by destruct c|].
  unfold sent, failed, drops in *. destruct c; cbn in *; rewrite ?IH1, ?IH2, ?IH3; done.
Qed.

Lemma settle_accounts_aux first stage batches log calls :
  0 <= batches → Settle true first stage batches = Some (log, calls) →
  let result := last_result first log in
  (success result = true ∧ sent calls = Z.to_nat batches ∧ failed calls = 0%nat
   ∧ drops calls
     = (if bool_decide (log = []) then [] else [(RetryableFailureRecovered, batches)])
       ++ (if 0 <? partial_success_rejected result
           then [(PartialSuccessRejection, partial_success_rejected result)] else []))
  ∨ (success result = false ∧ sent calls = 0%nat ∧ failed calls = Z.to_nat batches
     ∧ drops calls = [(if retryable result then RetryBudgetExhausted else NonRetryableFailure, batches)]).
Proof.
  intros Hb H. unfold Settle in H. destruct (Resolve true first batches) as [[[result log0] calls0]|] eqn:Er; [|done].
  injection H as <- <-. cbv zeta.
  assert (last_result first log0 = result ∧ calls0 = if success result && negb (bool_decide (log0 = []))
    then [CallRecordDrop RetryableFailureRecovered batches] else []) as [-> ->].
  { unfold Resolve in Er. destruct (success first || negb (retryable first)) eqn:Ef.
    - injection Er as <- <- <-. rewrite bool_decide_true by done. by rewrite andb_false_r.
    - bool_hyps. destruct (RunRetryLoop first) as [[[retried|] l]|] eqn:El; [| |done].
      all: unfold RunRetryLoop in El; destruct (plus_ms _ _) as [dl|]; [|done].
      all: apply retry_loop_spec in El as (_ & _ & Hout & _); [|done|constructor|done].
      all: injection Er as <- <- <-; unfold last_result; rewrite <- Hout; split; [done|].
      + rewrite bool_decide_false by (intros ->; discriminate Hout). done.
      + by rewrite H. }
  destruct (count_replicate (Z.to_nat batches) CallBatchSent) as (S1 & S2 & S3).
  destruct (count_replicate (Z.to_nat batches) (CallBatchFailed (default (mkError KNetwork stage 0) (error result)))) as (F1 & F2 & F3).
  unfold RecordOutcome. cbn [negb]. destruct (success result) eqn:Es; cbn [andb].
  - left. rewrite !sent_app, !failed_app, !drops_app, S1, S2, S3, app_nil_r.
    case_bool_decide; cbn [negb]; destruct (0 <? _); done.
  - right. cbn [app]. change (?c :: replicate ?n ?x) with ([c] ++ replicate n x).
    rewrite !sent_app, !failed_app, !drops_app, F1, F2, F3. done.
Qed.
Lemma settle_counts first stage batches log calls :
  0 <= batches → Settle true first stage batches = Some (log, calls) →
  (sent calls + failed calls = Z.to_nat batches)%nat.
Proof. intros Hb [(_ & -> & -> & _)|(_ & -> & -> & _)]%settle_accounts_aux; lia. Qed.

(** One request is accounted for exactly once: with a sink, [Settle] counts
    each of its batches either as sent or as failed, never both, and records the
    loss of a failed one under exactly one reason: [RetryBudgetExhausted] if the
    final result is retryable, [NonRetryableFailure] otherwise.  A delivery after
    a retry is counted as recovered and a partial rejection with the collector's
    count. *)
Theorem settle_accounts_once first stage batches log calls :
  0 <= batches → Settle true first stage batches = Some (log, calls) →
  let result := last_result first log in
  (success result = true ∧ sent calls = Z.to_nat batches ∧ failed calls = 0%nat
   ∧ drops calls
     = (if bool_decide (log = []) then [] else [(RetryableFailureRecovered, batches)])
       ++ (if 0 <? partial_success_rejected result
           then [(PartialSuccessRejection, partial_success_rejected result)] else []))
  ∨ (success result = false ∧ sent calls = 0%nat ∧ failed calls = Z.to_nat batches
     ∧ drops calls = [(if retryable result then RetryBudgetExhausted else NonRetryableFailure, batches)]).
Proof. apply settle_accounts_aux. Qed.
End policy.

(** *** Witnesses *)

(** Powers with a small integral exponent, by repeated multiplication. *)
Definition pow_by_mul (x y : double) : double :=
  match to_u64 y with
  | Some n => Nat.iter (Z.to_nat n) (d_mul x) d_one
  | None => S754_nan
  end.
Definition one_and_half : double := S754_finite false 6755399441055744 (-52).
Definition one_fifth : double := S754_finite false 7205759403792794 (-55).
Definition one_half : double := S754_finite false 4503599627370496 (-53).
Definition default_policy : RetryPolicyConfig :=
  mkRetryPolicyConfig 5 1000 32000 one_and_half one_fifth 300000.
Definition unavailable : WireResult := mkWireResult false true (Some 2000) 0 None [].
Definition delivered : WireResult := mkWireResult true false None 3 None [].
Definition demo_env : Env :=
  mkEnv (λ k, Z.of_nat k * 2000000000) (λ _, one_half) (λ _, false)
    (λ k, if (k =? 2)%nat then delivered else unavailable).

Lemma retry_loop_contract_witness :
  ∃ log, RunRetryLoop pow_by_mul default_policy demo_env unavailable = Some (Some delivered, log)
  ∧ r_backoff <$> log = [2000; 2000] ∧ chained unavailable log.
Proof.
  destruct (RunRetryLoop pow_by_mul default_policy demo_env unavailable) as [[out log]|] eqn:E;
    [|vm_compute in E; discriminate].
  destruct (retry_loop_contract pow_by_mul default_policy demo_env unavailable out log 300000000000)
    as (Hc & _); [reflexivity|exact E|].
  exists log. split; [|split; [|exact Hc]]; vm_compute in E; injection E as <- <-; reflexivity.
Defined.

Lemma settle_accounts_once_witness :
  ∃ log calls, Settle pow_by_mul default_policy demo_env true unavailable [] 2 = Some (log, calls)
  ∧ drops calls = [(RetryableFailureRecovered, 2); (PartialSuccessRejection, 3)] ∧ failed calls = 0%nat.
Proof.
  destruct (Settle pow_by_mul default_policy demo_env true unavailable [] 2) as [[log calls]|] eqn:E;
    [|vm_compute in E; discriminate].
  exists log, calls. split; [reflexivity|].
  destruct (settle_accounts_once pow_by_mul default_policy demo_env unavailable [] 2 log calls)
    as [(_ & _ & Hf & Hd)|(Hs & _)]; [lia|exact E| |].
  - split; [|exact Hf]. rewrite Hd. vm_compute in E. injection E as <- <-. reflexivity.
  - vm_compute in E. injection E as <- <-. discriminate Hs.
Defined.
