(* ===== verification/ProtoReader.v ===== *)
(** * Protobuf wire-format reader and the OTLP partial-success parser

    Model of [src/wire/otlp_response.cpp], and of the reader functions that
    [src/wire/grpc/grpc_wire_codec.cpp] repeats.  A [ByteSpan&] that a function
    advances is passed in and returned.  The message loops run until the span is
    empty; every iteration shortens it, so they recur with the span's length as
    fuel, and [walk_fuel] proves any larger fuel gives the same result.

    The theorems: reading inverts encoding for every 64-bit value; a message is
    accepted exactly when all of it splits into well-formed fields, and then
    yields the last rejected count, capped to 32 bits. *)
From S2P Require Import Prelude.

Definition Bytes := list Z.

Definition kVarintMaxShift : Z := 64.
Definition kMaxFieldNumber : Z := 2 ^ 29 - 1.

(** The loop of [ReadVarint]; the value and the advanced span. *)
Fixpoint ReadVarint_loop (buf : Bytes) (result shift : Z) : option (Z * Bytes) :=
  match buf with
  | [] => None
  | b :: buf' =>
      let result' := Z.lor result (to_uint 64 (Z.shiftl (Z.land b 127) shift)) in
      if Z.land b 128 =? 0 then Some (result', buf')
      else if kVarintMaxShift <=? shift + 7 then None
      else ReadVarint_loop buf' result' (shift + 7)
  end.
Definition ReadVarint (buf : Bytes) : option (Z * Bytes) := ReadVarint_loop buf 0 0.

Definition ReadLenDelim (buf : Bytes) : option (Bytes * Bytes) :=
  match ReadVarint buf with
  | None => None
  | Some (len, buf') =>
      if size buf' <? len then None
      else Some (take (Z.to_nat len) buf', drop (Z.to_nat len) buf')
  end.

Definition ReadTag (buf : Bytes) : option (Z * Z * Bytes) :=
  match ReadVarint buf with
  | None => None
  | Some (raw, buf') =>
      let field := Z.shiftr raw 3 in
      if (field =? 0) || (kMaxFieldNumber <? field) then None
      else Some (field, Z.land raw 7, buf')
  end.

(** [SkipField]: the advanced span, or [None] for [false]. *)
Definition SkipField (buf : Bytes) (wire_type : Z) : option Bytes :=
  if wire_type =? 0 then snd <$> ReadVarint buf
  else if wire_type =? 2 then snd <$> ReadLenDelim buf
  else if wire_type =? 1 then if size buf <? 8 then None else Some (drop 8 buf)
  else if wire_type =? 5 then if size buf <? 4 then None else Some (drop 4 buf)
  else None.

(** A message loop: [while (!data.empty()) { body }], where the body returns the
    new accumulator and the advanced span. *)
Fixpoint walk {A} (body : Bytes → A → option (A * Bytes)) (fuel : nat) (data : Bytes) (acc : A) : option A :=
  match data with
  | [] => Some acc
  | _ => match fuel with
         | O => None
         | S fuel' => match body data acc with
                      | None => None
                      | Some (acc', data') => walk body fuel' data' acc'
                      end
         end
  end.

(** ** Partial success *)

Inductive PartialSuccessOutcome := Absent | Parsed | Unparseable.
Record PartialSuccessResult := mkPartialSuccess { outcome : PartialSuccessOutcome; rejected : Z }.
Definition kUnparseable : PartialSuccessResult := mkPartialSuccess Unparseable 0.

Definition ReadRejected (data : Bytes) : option (Z * Bytes) :=
  match ReadVarint data with
  | None => None
  | Some (v, data') => Some (Z.min v u32_max, data')
  end.

(** One iteration of [ParsePartialSuccess]. *)
Definition partial_success_body (data : Bytes) (rej : Z) : option (Z * Bytes) :=
  match ReadTag data with
  | None => None
  | Some (field, wt, data') =>
      if (field =? 1) && (wt =? 0) then ReadRejected data'
      else match SkipField data' wt with None => None | Some d => Some (rej, d) end
  end.
Definition ParsePartialSuccess (data : Bytes) (rej : Z) : option Z :=
  walk partial_success_body (length data) data rej.

Definition ExtractPartialSuccess (data : Bytes) (r : PartialSuccessResult)
    : option (PartialSuccessResult * Bytes) :=
  match ReadLenDelim data with
  | None => None
  | Some (inner, data') =>
      match ParsePartialSuccess inner (rejected r) with
      | None => None
      | Some rej => Some (mkPartialSuccess Parsed rej, data')
      end
  end.

(** One iteration of [ParseResponse]. *)
Definition response_body (data : Bytes) (r : PartialSuccessResult)
    : option (PartialSuccessResult * Bytes) :=
  match ReadTag data with
  | None => None
  | Some (field, wt, data') =>
      if (field =? 1) && (wt =? 2) then ExtractPartialSuccess data' r
      else match SkipField data' wt with None => None | Some d => Some (r, d) end
  end.
Definition ParseResponse (data : Bytes) : PartialSuccessResult :=
  default kUnparseable (walk response_body (length data) data (mkPartialSuccess Absent 0)).

Definition ParseRejectedSpans (body : Bytes) : PartialSuccessResult :=
  match body with [] => mkPartialSuccess Absent 0 | _ => ParseResponse body end.

(** ** Varint facts *)

Lemma ReadVarint_loop_shorter buf r s v rest :
  ReadVarint_loop buf r s = Some (v, rest) → ∃ pre, pre ≠ [] ∧ buf = pre ++ rest.
Proof.
  revert r s. induction buf as [|b buf IH]; intros r s H; cbn in H; [done|].
  destruct (Z.land b 128 =? 0); [injection H as _ <-; by exists [b]|].
  destruct (_ <=? _); [done|]. apply IH in H as (pre & _ & ->). by exists (b :: pre).
Qed.
Lemma ReadVarint_shorter buf v rest :
  ReadVarint buf = Some (v, rest) → ∃ pre, pre ≠ [] ∧ buf = pre ++ rest.
Proof. apply ReadVarint_loop_shorter. Qed.
Lemma ReadLenDelim_shorter buf x rest :
  ReadLenDelim buf = Some (x, rest) → ∃ pre, pre ≠ [] ∧ buf = pre ++ rest.
Proof.
  unfold ReadLenDelim. destruct (ReadVarint buf) as [[len b]|] eqn:E; [|done].
  destruct (_ <? _); [done|]. intros [= <- <-]. apply ReadVarint_shorter in E as (pre & Hp & ->).
  exists (pre ++ take (Z.to_nat len) b). split; [by destruct pre|]. by rewrite <- app_assoc, take_drop.
Qed.
Lemma SkipField_shorter buf wt rest : SkipField buf wt = Some rest → ∃ pre, buf = pre ++ rest.
Proof.
  unfold SkipField. destruct (wt =? 0).
  { intros (p & Hp & ->)%fmap_Some. destruct p. apply ReadVarint_shorter in Hp as (pre & _ & ->). by exists pre. }
  destruct (wt =? 2).
  { intros (p & Hp & ->)%fmap_Some. destruct p. apply ReadLenDelim_shorter in Hp as (pre & _ & ->). by exists pre. }
  destruct (wt =? 1).
  { destruct (_ <? _); [done|]. intros [= <-]. exists (take 8 buf). by rewrite take_drop. }
  destruct (wt =? 5); [|done].
  destruct (_ <? _); [done|]. intros [= <-]. exists (take 4 buf). by rewrite take_drop.
Qed.
Lemma ReadTag_shorter buf f wt rest :
  ReadTag buf = Some (f, wt, rest) → (length rest < length buf)%nat.
Proof.
  unfold ReadTag. destruct (ReadVarint buf) as [[raw b]|] eqn:E; [|done].
  destruct (_ || _); [done|]. intros [= _ _ <-]. apply ReadVarint_shorter in E as (pre & Hp & ->).
  rewrite length_app. destruct pre; [done|]. cbn. lia.
Qed.

(** A body that always advances. *)
Definition advances {A} (body : Bytes → A → option (A * Bytes)) : Prop :=
  ∀ data acc acc' data', body data acc = Some (acc', data') → (length data' < length data)%nat.

(** Enough fuel is enough: more of it changes nothing. *)
Lemma walk_fuel {A} (body : Bytes → A → option (A * Bytes)) n k data acc :
  advances body → (length data <= n)%nat → (length data <= k)%nat →
  walk body n data acc = walk body k data acc.
Proof.
  intros Hadv. revert k data acc. induction n as [|n IH]; intros k data acc Hn Hk.
  { destruct data; [by destruct k|cbn in Hn; lia]. }
  destruct data as [|b data]; [by destruct k|]. destruct k as [|k]; [cbn in Hk; lia|].
  cbn [walk]. destruct (body (b :: data) acc) as [[acc' data']|] eqn:E; [|done].
  apply Hadv in E. cbn in *. apply IH; lia.
Qed.
(** The loop equation. *)
Lemma walk_unfold {A} (body : Bytes → A → option (A * Bytes)) data acc :
  advances body →
  walk body (length data) data acc
  = match data with
    | [] => Some acc
    | _ => match body data acc with
           | None => None
           | Some (acc', data') => walk body (length data') data' acc'
           end
    end.
Proof.
  intros Hadv. destruct data as [|b data]; [done|]. cbn [walk length].
  destruct (body (b :: data) acc) as [[acc' data']|] eqn:E; [|done].
  apply Hadv in E. cbn in E. apply walk_fuel; [done|lia|lia].
Qed.

Lemma walk_step {A} (body : Bytes → A → option (A * Bytes)) data acc :
  advances body → data ≠ [] →
  walk body (length data) data acc
  = match body data acc with None => None | Some (acc', data') => walk body (length data') data' acc' end.
Proof. intros Hadv Hne. rewrite walk_unfold by done. by destruct data. Qed.

Lemma partial_success_advances : advances partial_success_body.
Proof.
  intros data acc acc' data'. unfold partial_success_body.
  destruct (ReadTag data) as [[[f wt] d]|] eqn:Et; [|done]. apply ReadTag_shorter in Et.
  destruct (_ && _).
  - unfold ReadRejected. destruct (ReadVarint d) as [[v d']|] eqn:E; [|done]. intros [= <- <-].
    apply ReadVarint_shorter in E as (pre & _ & ->). rewrite length_app in Et. lia.
  - destruct (SkipField d wt) as [d'|] eqn:E; [|done]. intros [= <- <-].
    apply SkipField_shorter in E as (pre & ->). rewrite length_app in Et. lia.
Qed.
Lemma response_advances : advances response_body.
Proof.
  intros data acc acc' data'. unfold response_body.
  destruct (ReadTag data) as [[[f wt] d]|] eqn:Et; [|done]. apply ReadTag_shorter in Et.
  destruct (_ && _).
  - unfold ExtractPartialSuccess. destruct (ReadLenDelim d) as [[x d']|] eqn:E; [|done].
    destruct (ParsePartialSuccess _ _); [|done]. intros [= <- <-].
    apply ReadLenDelim_shorter in E as (pre & _ & ->). rewrite length_app in Et. lia.
  - destruct (SkipField d wt) as [d'|] eqn:E; [|done]. intros [= <- <-].
    apply SkipField_shorter in E as (pre & ->). rewrite length_app in Et. lia.
Qed.

(** ** The encoding *)

(** Base-128, least significant group first; ten groups cover 64 bits. *)
Fixpoint encode_varint (fuel : nat) (v : Z) : Bytes :=
  match fuel with
  | O => [Z.land v 127]
  | S fuel' =>
      if v <? 128 then [v] else Z.lor (Z.land v 127) 128 :: encode_varint fuel' (Z.shiftr v 7)
  end.
Definition varint (v : Z) : Bytes := encode_varint 9 v.

Lemma split_low7 v s :
  0 <= v → 0 <= s →
  Z.lor (Z.shiftl (Z.land v 127) s) (Z.shiftl (Z.shiftr v 7) (s + 7)) = Z.shiftl v s.
Proof.
  intros Hv Hs. apply Z.bits_inj'. intros n Hn. change 127 with (Z.ones 7).
  rewrite Z.lor_spec, !Z.shiftl_spec by lia. destruct (Z.lt_ge_cases n (s + 7)).
  - rewrite (Z.testbit_neg_r _ (n - (s + 7))) by lia. rewrite orb_false_r, Z.land_spec.
    destruct (Z.lt_ge_cases n s); [by rewrite !(Z.testbit_neg_r _ (n - s)) by lia|].
    rewrite Z.ones_spec_low by lia. by rewrite andb_true_r.
  - rewrite Z.land_spec, Z.ones_spec_high by lia. rewrite andb_false_r. cbn [orb].
    rewrite Z.shiftr_spec by lia. f_equal. lia.
Qed.

Lemma shiftl_bound v s : 0 <= v < 2 ^ (64 - s) → 0 <= s < 64 → 0 <= Z.shiftl v s <= u64_max.
Proof.
  intros [Hv Hv'] Hs. rewrite Z.shiftl_mul_pow2 by lia. split; [apply Z.mul_nonneg_nonneg; lia|].
  change u64_max with (2 ^ 64 - 1). apply Z.lt_le_pred.
  replace (2 ^ 64) with (2 ^ (64 - s) * 2 ^ s) by (rewrite <- Z.pow_add_r by lia; f_equal; lia).
  apply Z.mul_lt_mono_pos_r; [apply Z.pow_pos_nonneg; lia|done].
Qed.

Lemma low7_facts v : 0 <= v → Z.land (Z.lor (Z.land v 127) 128) 127 = Z.land v 127
  ∧ (Z.land (Z.lor (Z.land v 127) 128) 128 =? 0) = false.
Proof.
  intros Hv. split.
  - rewrite Z.land_lor_distr_l. change (Z.land 128 127) with 0. rewrite Z.lor_0_r.
    rewrite <- Z.land_assoc. done.
  - rewrite Z.land_lor_distr_l. change (Z.land 128 128) with 128. rewrite <- Z.land_assoc.
    change (Z.land 127 128) with 0. by rewrite Z.land_0_r.
Qed.
Lemma small7_facts v : 0 <= v < 128 → Z.land v 127 = v ∧ (Z.land v 128 =? 0) = true.
Proof.
  intros Hv.
  pose proof (forall_below (λ v, (Z.land v 127 =? v) && (Z.land v 128 =? 0)) 128 eq_refl v Hv) as H.
  cbv beta in H. bool_hyps. by rewrite H0.
Qed.

Lemma read_encode_loop fuel v r s rest :
  0 <= v < 2 ^ (64 - s) → v < 2 ^ (7 * (Z.of_nat fuel + 1)) → 0 <= s < 64 →
  ReadVarint_loop (encode_varint fuel v ++ rest) r s = Some (Z.lor r (Z.shiftl v s), rest).
Proof.
  revert v r s. induction fuel as [|fuel IH]; intros v r s Hv Hf Hs.
  - change (2 ^ (7 * (Z.of_nat 0 + 1))) with 128 in Hf. destruct (small7_facts v) as [H1 H2]; [lia|].
    cbn [encode_varint app ReadVarint_loop]. rewrite !H1, H2.
    by rewrite to_uint64_id by (by apply shiftl_bound).
  - cbn [encode_varint]. destruct (v <? 128) eqn:E; bool_hyps.
    + destruct (small7_facts v) as [H1 H2]; [lia|]. cbn [app ReadVarint_loop]. rewrite !H1, H2.
      by rewrite to_uint64_id by (by apply shiftl_bound).
    + cbn [app ReadVarint_loop]. destruct (low7_facts v) as [H1 H2]; [lia|]. rewrite H1, H2.
      assert (s + 7 < 64) as Hs7.
      { destruct (Z.lt_ge_cases (s + 7) 64); [done|]. assert (2 ^ (64 - s) <= 2 ^ 7) by (apply Z.pow_le_mono_r; lia).
        change (2 ^ 7) with 128 in *. lia. }
      rewrite (proj2 (Z.leb_gt _ _)) by (unfold kVarintMaxShift; lia).
      assert (0 <= Z.land v 127 <= v) as Hl.
      { split; [apply Z.land_nonneg; lia|]. change 127 with (Z.ones 7). rewrite Z.land_ones by lia.
        apply Z.mod_le; lia. }
      rewrite to_uint64_id by (apply shiftl_bound; lia).
      rewrite IH; [|..].
      * rewrite <- Z.lor_assoc, split_low7 by lia. done.
      * rewrite Z.shiftr_div_pow2 by lia. split; [apply Z.div_pos; lia|].
        apply Z.div_lt_upper_bound; [lia|]. rewrite <- Z.pow_add_r by lia.
        replace (7 + (64 - (s + 7))) with (64 - s) by lia. lia.
      * rewrite Z.shiftr_div_pow2 by lia. apply Z.div_lt_upper_bound; [lia|].
        rewrite <- Z.pow_add_r by lia. replace (7 + 7 * (Z.of_nat fuel + 1)) with (7 * (Z.of_nat (S fuel) + 1)) by lia. done.
      * lia.
Qed.

Lemma ReadVarint_varint v rest : is_u64 v → ReadVarint (varint v ++ rest) = Some (v, rest).
Proof.
  intros Hv. unfold ReadVarint, varint.
  assert (0 <= v < 2 ^ 64) as Hb by (change (2 ^ 64) with 18446744073709551616; width_lia).
  rewrite read_encode_loop; [by rewrite Z.shiftl_0_r|done| |lia].
  change (2 ^ (7 * (Z.of_nat 9 + 1))) with (2 ^ 70).
  assert (2 ^ 64 < 2 ^ 70) by (apply Z.pow_lt_mono_r; lia). lia.
Qed.

Lemma ReadLenDelim_encode x rest :
  size x <= u64_max → ReadLenDelim (varint (size x) ++ x ++ rest) = Some (x, rest).
Proof.
  intros Hx. pose proof (size_nonneg x). unfold ReadLenDelim. rewrite ReadVarint_varint by width_lia.
  rewrite size_app, (proj2 (Z.ltb_ge _ _)) by (pose proof (size_nonneg rest); lia).
  unfold size. rewrite Nat2Z.id. by rewrite take_app_length, drop_app_length.
Qed.

(** ** Fields: the reference reading of a message *)

Inductive Payload := PVarint (v : Z) | PFixed64 (b : Bytes) | PLen (b : Bytes) | PFixed32 (b : Bytes).
Record Field := mkField { number : Z; payload : Payload }.

Definition wire_type (p : Payload) : Z :=
  match p with PVarint _ => 0 | PFixed64 _ => 1 | PLen _ => 2 | PFixed32 _ => 5 end.
Definition encode_payload (p : Payload) : Bytes :=
  match p with PVarint v => varint v | PFixed64 b | PFixed32 b => b | PLen b => varint (size b) ++ b end.
Definition encode_field (f : Field) : Bytes :=
  varint (Z.lor (Z.shiftl (number f) 3) (wire_type (payload f))) ++ encode_payload (payload f).
Definition encode (fs : list Field) : Bytes := concat (encode_field <$> fs).

Definition valid_payload (p : Payload) : Prop :=
  match p with
  | PVarint v => is_u64 v
  | PFixed64 b => length b = 8%nat
  | PLen b => size b <= u64_max
  | PFixed32 b => length b = 4%nat
  end.
Definition valid_field (f : Field) : Prop := 1 <= number f <= kMaxFieldNumber ∧ valid_payload (payload f).

(** The next field, read with the code's primitives. *)
Definition read_field (data : Bytes) : option (Field * Bytes) :=
  match ReadTag data with
  | None => None
  | Some (n, wt, d) =>
      if wt =? 0 then match ReadVarint d with Some (v, d') => Some (mkField n (PVarint v), d') | None => None end
      else if wt =? 2 then match ReadLenDelim d with Some (x, d') => Some (mkField n (PLen x), d') | None => None end
      else if wt =? 1 then if size d <? 8 then None else Some (mkField n (PFixed64 (take 8 d)), drop 8 d)
      else if wt =? 5 then if size d <? 4 then None else Some (mkField n (PFixed32 (take 4 d)), drop 4 d)
      else None
  end.
Definition fields_body (data : Bytes) (acc : list Field) : option (list Field * Bytes) :=
  match read_field data with None => None | Some (f, d) => Some (acc ++ [f], d) end.
(** The whole message as fields; [None] if any part of it is malformed. *)
Definition fields (data : Bytes) : option (list Field) := walk fields_body (length data) data [].

Lemma read_field_shorter data f d : read_field data = Some (f, d) → (length d < length data)%nat.
Proof.
  unfold read_field. destruct (ReadTag data) as [[[n wt] d0]|] eqn:Et; [|done]. apply ReadTag_shorter in Et.
  assert (∀ d', (∃ pre, d0 = pre ++ d') → (length d' < length data)%nat) as Hs.
  { intros d' [pre ->]. rewrite length_app in Et. lia. }
  destruct (wt =? 0). { destruct (ReadVarint d0) as [[v d']|] eqn:E; [|done]. intros [= <- <-].
    apply ReadVarint_shorter in E as (pre & _ & ->). eauto. }
  destruct (wt =? 2). { destruct (ReadLenDelim d0) as [[v d']|] eqn:E; [|done]. intros [= <- <-].
    apply ReadLenDelim_shorter in E as (pre & _ & ->). eauto. }
  destruct (wt =? 1). { destruct (_ <? _); [done|]. intros [= <- <-]. apply Hs. exists (take 8 d0). by rewrite take_drop. }
  destruct (wt =? 5); [|done].
  destruct (_ <? _); [done|]. intros [= <- <-]. apply Hs. exists (take 4 d0). by rewrite take_drop.
Qed.
Lemma fields_advances : advances fields_body.
Proof.
  intros data acc acc' data'. unfold fields_body. destruct (read_field data) as [[f d]|] eqn:E; [|done].
  intros [= <- <-]. by eapply read_field_shorter.
Qed.

(** *** Encoding then reading *)

Lemma tag_facts n wt :
  1 <= n <= kMaxFieldNumber → 0 <= wt < 8 →
  let t := Z.lor (Z.shiftl n 3) wt in is_u64 t ∧ Z.shiftr t 3 = n ∧ Z.land t 7 = wt.
Proof.
  intros Hn Hw t. change kMaxFieldNumber with 536870911 in Hn.
  assert (t = n * 8 + wt) as Ht.
  { unfold t. rewrite lor_shiftl_low by (change (2 ^ 3) with 8; lia). done. }
  rewrite Ht. split_and!; [width_lia| |].
  - rewrite Z.shiftr_div_pow2 by lia. change (2 ^ 3) with 8. symmetry. apply (Z.div_unique _ _ _ wt); lia.
  - change 7 with (Z.ones 3). rewrite Z.land_ones by lia. change (2 ^ 3) with 8. symmetry.
    apply (Z.mod_unique _ _ n); lia.
Qed.

(** Reading a fixed-width payload. *)
Lemma fixed_width (b rest : Bytes) k z :
  length b = k → z = Z.of_nat k →
  (size (b ++ rest) <? z) = false ∧ take k (b ++ rest) = b ∧ drop k (b ++ rest) = rest.
Proof.
  intros <- ->. rewrite take_app_length, drop_app_length. split; [|done].
  apply Z.ltb_ge. rewrite size_app. pose proof (size_nonneg rest). unfold size at 1. lia.
Qed.

Lemma read_field_encode f rest :
  valid_field f → read_field (encode_field f ++ rest) = Some (f, rest).
Proof.
  intros [Hn Hp]. destruct f as [n p]. cbn [number payload] in *.
  assert (0 <= wire_type p < 8) as Hw by (destruct p; cbn; lia).
  destruct (tag_facts n (wire_type p) Hn Hw) as (Hu & Hs & Hl).
  unfold read_field, ReadTag, encode_field. cbn [number payload]. rewrite <- app_assoc.
  rewrite ReadVarint_varint by done. rewrite Hs, Hl.
  rewrite (proj2 (Z.eqb_neq n 0)), (proj2 (Z.ltb_ge kMaxFieldNumber n)) by lia. cbn [orb].
  destruct p as [v|b|b|b]; cbn [wire_type encode_payload valid_payload] in *.
  - cbn [Z.eqb Pos.eqb]. by rewrite ReadVarint_varint.
  - cbn [Z.eqb Pos.eqb]. by destruct (fixed_width b rest 8 8 Hp eq_refl) as (-> & -> & ->).
  - cbn [Z.eqb Pos.eqb]. rewrite <- app_assoc. by rewrite ReadLenDelim_encode.
  - cbn [Z.eqb Pos.eqb]. by destruct (fixed_width b rest 4 4 Hp eq_refl) as (-> & -> & ->).
Qed.

Lemma encode_field_nonempty f : encode_field f ≠ [].
Proof. unfold encode_field, varint. cbn. by destruct (_ <? _). Qed.

Lemma fields_encode_acc fs acc :
  Forall valid_field fs → walk fields_body (length (encode fs)) (encode fs) acc = Some (acc ++ fs).
Proof.
  intros H. revert acc. induction H as [|f fs Hf _ IH]; intros acc; [cbn; by rewrite app_nil_r|].
  rewrite walk_unfold by apply fields_advances.
  assert (encode (f :: fs) = encode_field f ++ encode fs) as -> by done.
  destruct (encode_field f ++ encode fs) as [|b d] eqn:E.
  { apply app_eq_nil in E as [E _]. by apply encode_field_nonempty in E. }
  rewrite <- E. unfold fields_body. rewrite read_field_encode by done.
  change (walk fields_body (length (encode fs)) (encode fs) (acc ++ [f]) = Some (acc ++ f :: fs)).
  rewrite IH, <- app_assoc. done.
Qed.

(** *** Reading a message is interpreting its fields *)

Fixpoint interpret {A} (step : A → Field → option A) (fs : list Field) (acc : A) : option A :=
  match fs with
  | [] => Some acc
  | f :: fs' => match step acc f with None => None | Some acc' => interpret step fs' acc' end
  end.
Definition interprets {A} (body : Bytes → A → option (A * Bytes)) (step : A → Field → option A) : Prop :=
  ∀ data acc, body data acc
    = match read_field data with
      | None => None
      | Some (f, d) => match step acc f with None => None | Some acc' => Some (acc', d) end
      end.

Lemma walk_fields_acc n data acc :
  walk fields_body n data acc = (λ l, acc ++ l) <$> walk fields_body n data [].
Proof.
  revert data acc. induction n as [|n IH]; intros data acc; destruct data as [|b data]; cbn [walk]; try done.
  - cbn. by rewrite app_nil_r.
  - cbn. by rewrite app_nil_r.
  - unfold fields_body at 1 3. destruct (read_field (b :: data)) as [[f d]|]; [|done].
    rewrite (IH d (acc ++ [f])), (IH d ([] ++ [f])). destruct (walk fields_body n d []); [|done].
    cbn. by rewrite <- app_assoc.
Qed.

Lemma walk_interpret {A} (body : Bytes → A → option (A * Bytes)) step n data acc :
  interprets body step →
  walk body n data acc
  = match walk fields_body n data [] with None => None | Some fs => interpret step fs acc end.
Proof.
  intros Hi. revert data acc. induction n as [|n IH]; intros data acc; destruct data as [|b data]; cbn [walk]; try done.
  rewrite Hi. unfold fields_body at 1. destruct (read_field (b :: data)) as [[f d]|]; [|done].
  rewrite walk_fields_acc. specialize (IH d). destruct (step acc f) as [acc'|] eqn:Es.
  - rewrite IH. destruct (walk fields_body n d []); cbn; [by rewrite Es|done].
  - destruct (walk fields_body n d []); cbn; [by rewrite Es|done].
Qed.

Lemma walk_is_interpret {A} (body : Bytes → A → option (A * Bytes)) step data acc :
  interprets body step →
  walk body (length data) data acc
  = match fields data with None => None | Some fs => interpret step fs acc end.
Proof. apply walk_interpret. Qed.

(** Skipping a field is reading it and ignoring it. *)
Lemma skip_is_read data n wt d :
  ReadTag data = Some (n, wt, d) →
  SkipField d wt = match read_field data with None => None | Some (_, d') => Some d' end.
Proof.
  intros Ht. unfold read_field, SkipField. rewrite Ht.
  destruct (wt =? 0); [by destruct (ReadVarint d) as [[]|]|].
  destruct (wt =? 2); [by destruct (ReadLenDelim d) as [[]|]|].
  destruct (wt =? 1); [by destruct (size d <? 8)|].
  destruct (wt =? 5); [by destruct (size d <? 4)|done].
Qed.

Definition rejected_step (rej : Z) (f : Field) : option Z :=
  match f with
  | mkField n (PVarint v) => if n =? 1 then Some (Z.min v u32_max) else Some rej
  | _ => Some rej
  end.
Definition response_step (r : PartialSuccessResult) (f : Field) : option PartialSuccessResult :=
  match f with
  | mkField n (PLen inner) =>
      if n =? 1 then
        match fields inner with
        | None => None
        | Some fs => mkPartialSuccess Parsed <$> interpret rejected_step fs (rejected r)
        end
      else Some r
  | _ => Some r
  end.

(** The fields of [read_field] by wire type. *)
Lemma read_field_kind data n wt d f d' :
  ReadTag data = Some (n, wt, d) → read_field data = Some (f, d') →
  number f = n ∧ wire_type (payload f) = wt.
Proof.
  intros Ht. unfold read_field. rewrite Ht.
  destruct (wt =? 0) eqn:E0; [destruct (ReadVarint d) as [[]|]; [|done]; intros [= <- <-]; by bool_hyps|].
  destruct (wt =? 2) eqn:E2; [destruct (ReadLenDelim d) as [[]|]; [|done]; intros [= <- <-]; by bool_hyps|].
  destruct (wt =? 1) eqn:E1; [destruct (size d <? 8); [done|]; intros [= <- <-]; by bool_hyps|].
  destruct (wt =? 5) eqn:E5; [destruct (size d <? 4); [done|]; intros [= <- <-]; by bool_hyps|done].
Qed.

Lemma partial_success_interprets : interprets partial_success_body rejected_step.
Proof.
  intros data rej. unfold partial_success_body. destruct (ReadTag data) as [[[n wt] d]|] eqn:Et.
  2: { unfold read_field. by rewrite Et. }
  destruct ((n =? 1) && (wt =? 0)) eqn:E.
  - bool_hyps. subst. unfold read_field, ReadRejected. rewrite Et. cbn [Z.eqb]. by destruct (ReadVarint d) as [[]|].
  - rewrite (skip_is_read data n wt d Et). destruct (read_field data) as [[f d']|] eqn:Er; [|done].
    destruct (read_field_kind _ _ _ _ _ _ Et Er) as [Hn Hw]. destruct f as [n' [v|b|b|b]]; try done.
    cbn in Hn, Hw. subst. cbn [rejected_step]. rewrite andb_true_r in E. by rewrite E.
Qed.

Lemma response_interprets : interprets response_body response_step.
Proof.
  intros data r. unfold response_body. destruct (ReadTag data) as [[[n wt] d]|] eqn:Et.
  2: { unfold read_field. by rewrite Et. }
  destruct ((n =? 1) && (wt =? 2)) eqn:E.
  - bool_hyps. subst. unfold read_field, ExtractPartialSuccess. rewrite Et. cbn [Z.eqb Pos.eqb].
    destruct (ReadLenDelim d) as [[x d']|]; [|done]. cbn [response_step Z.eqb Pos.eqb].
    unfold ParsePartialSuccess. rewrite (walk_is_interpret _ _ _ _ partial_success_interprets).
    destruct (fields x); [|done]. by destruct (interpret _ _ _).
  - rewrite (skip_is_read data n wt d Et). destruct (read_field data) as [[f d']|] eqn:Er; [|done].
    destruct (read_field_kind _ _ _ _ _ _ Et Er) as [Hn Hw]. destruct f as [n' [v|b|b|b]]; try done.
    cbn in Hn, Hw. subst. cbn [response_step]. rewrite andb_true_r in E. by rewrite E.
Qed.

Lemma parse_rejected_fields body :
  ParseRejectedSpans body
  = match fields body with
    | None => kUnparseable
    | Some fs => default kUnparseable (interpret response_step fs (mkPartialSuccess Absent 0))
    end.
Proof.
  unfold ParseRejectedSpans. destruct body as [|b body]; [done|]. unfold ParseResponse.
  rewrite (walk_is_interpret _ _ _ _ response_interprets). by destruct (fields (b :: body)).
Qed.

Lemma varint_size v : size (varint v) <= 10.
Proof.
  assert (∀ n v, (length (encode_varint n v) <= S n)%nat) as H.
  { clear. induction n as [|n IH]; intros v; cbn; [lia|]. destruct (_ <? _); cbn; [lia|].
    specialize (IH (Z.shiftr v 7)). lia. }
  specialize (H 9%nat v). unfold size, varint. lia.
Qed.

(** An encoded message is a byte string. *)
Lemma varint_u8 v : is_u64 v → Forall is_u8 (varint v).
Proof.
  intros Hv. assert (0 <= v) as H0 by width_lia. unfold varint. generalize 9%nat. clear Hv. intros n. revert v H0.
  induction n as [|n IH]; intros v H0; cbn [encode_varint].
  - apply Forall_singleton. change 127 with (Z.ones 7). rewrite Z.land_ones by lia.
    pose proof (Z.mod_pos_bound v (2 ^ 7) eq_refl) as H. change (2 ^ 7) with 128 in *. width_lia.
  - destruct (Z.ltb_spec v 128); [apply Forall_singleton; width_lia|]. apply Forall_cons; split.
    + assert (0 <= Z.lor (Z.land v 127) 128 < 2 ^ 8) as Hr; [|change (2 ^ 8) with 256 in Hr; width_lia].
      apply lor_bound; [lia| |change (2 ^ 8) with 256; lia]. change 127 with (Z.ones 7). rewrite Z.land_ones by lia.
      pose proof (Z.mod_pos_bound v (2 ^ 7) eq_refl). change (2 ^ 8) with 256. change (2 ^ 7) with 128 in *. lia.
    + apply IH. by apply Z.shiftr_nonneg.
Qed.
Definition payload_bytes (p : Payload) : Prop :=
  match p with PVarint _ => True | PFixed64 b | PLen b | PFixed32 b => Forall is_u8 b end.
Lemma encode_field_u8 f : valid_field f → payload_bytes (payload f) → Forall is_u8 (encode_field f).
Proof.
  intros [Hn Hv] Hb. apply Forall_app; split.
  { apply varint_u8. apply tag_facts; [done|]. destruct (payload f); cbn; lia. }
  destruct (payload f) as [v|b|b|b]; cbn [encode_payload valid_payload payload_bytes] in *; try done; [by apply varint_u8|].
  apply Forall_app; split; [|done]. apply varint_u8. pose proof (size_nonneg b). width_lia.
Qed.
Lemma encode_u8 fs :
  Forall valid_field fs → Forall (λ f, payload_bytes (payload f)) fs → Forall is_u8 (encode fs).
Proof.
  induction 1 as [|f fs Hf _ IH]; intros Hp; [done|]. apply Forall_cons in Hp as [Hb Hp].
  change (encode (f :: fs)) with (encode_field f ++ encode fs). apply Forall_app; split; [by apply encode_field_u8|auto].
Qed.

(** The partial-success parser trusts a count only when the whole response is
    well formed: it equals splitting the entire body into protobuf fields, refusing
    it as unparseable if any byte of it (or of an embedded message) does not belong
    to a well-formed field, and otherwise answering with the last rejected count,
    capped to 32 bits.  That splitting inverts encoding for every sequence of valid
    fields, so a collector's [partial_success {rejected, error_message}] yields
    exactly its count. *)
Theorem proto_roundtrip body fs n msg :
  Forall valid_field fs → is_u64 n → size msg <= u32_max →
  ParseRejectedSpans body
    = match fields body with
      | None => kUnparseable
      | Some fs => default kUnparseable (interpret response_step fs (mkPartialSuccess Absent 0))
      end
  ∧ fields (encode fs) = Some fs
  ∧ ParseRejectedSpans (encode [mkField 1 (PLen (encode [mkField 1 (PVarint n); mkField 2 (PLen msg)]))])
    = mkPartialSuccess Parsed (Z.min n u32_max).
Proof.
  intros Hfs Hn Hm. split; [apply parse_rejected_fields|]. split; [unfold fields; by rewrite fields_encode_acc|].
  set (inner := encode [mkField 1 (PVarint n); mkField 2 (PLen msg)]).
  assert (Forall valid_field [mkField 1 (PVarint n); mkField 2 (PLen msg)]) as Hi.
  { apply Forall_cons; split; [|apply Forall_singleton]; (split; [cbn; change kMaxFieldNumber with 536870911; lia|]);
    cbn [payload valid_payload]; width_lia. }
  assert (fields inner = Some [mkField 1 (PVarint n); mkField 2 (PLen msg)]) as Hin
    by (unfold fields, inner; by rewrite fields_encode_acc).
  assert (Forall valid_field [mkField 1 (PLen inner)]) as Ho.
  { apply Forall_singleton. split; [cbn; change kMaxFieldNumber with 536870911; lia|].
    cbn [payload valid_payload]. unfold inner, encode, encode_field. cbn [fmap list_fmap concat number payload wire_type encode_payload].
    rewrite !size_app. change (size []) with 0.
    repeat match goal with |- context [size (varint ?v)] => pose proof (varint_size v); generalize dependent (size (varint v)); intros end.
    width_lia. }
  rewrite parse_rejected_fields. unfold fields. rewrite fields_encode_acc by done. cbn [app interpret].
  cbn [response_step Z.eqb Pos.eqb]. rewrite Hin. done.
Qed.

Lemma proto_roundtrip_witness :
  fields (encode [mkField 7 (PVarint 300); mkField 2 (PFixed32 [1; 2; 3; 4])])
  = Some [mkField 7 (PVarint 300); mkField 2 (PFixed32 [1; 2; 3; 4])].
Proof.
  apply (proto_roundtrip [] [mkField 7 (PVarint 300); mkField 2 (PFixed32 [1; 2; 3; 4])] 5 [104; 105]).
  - apply Forall_cons; split; [|apply Forall_singleton]; (split; [cbn; change kMaxFieldNumber with 536870911; lia|]);
      cbn; [width_lia|reflexivity].
  - width_lia.
  - change (size [104; 105]) with 2. width_lia.
Defined.
