(* ===== verification/GrpcStatus.v ===== *)
(** * gRPC status and base64

    Model of [src/wire/grpc/grpc_status.cpp] (the status table, percent decoding
    of [grpc-message], error formatting) and of the base64 decoder of
    [src/wire/grpc/grpc_wire_codec.cpp].

    The theorem: decoding inverts RFC 4648 encoding, in either alphabet and with
    or without padding. *)
From S2P Require Import Prelude ProtoReader.

(** ** The status table *)

Record GrpcStatusInfo := mkGrpcStatusInfo { name : str; status_retryable : bool }.
Definition kGrpcStatusCount : Z := 17.
Definition kMaxGrpcMessageChars : nat := 256.
Definition kStatusTable : list GrpcStatusInfo :=
  [mkGrpcStatusInfo $"OK" false; mkGrpcStatusInfo $"CANCELLED" true; mkGrpcStatusInfo $"UNKNOWN" false;
   mkGrpcStatusInfo $"INVALID_ARGUMENT" false; mkGrpcStatusInfo $"DEADLINE_EXCEEDED" true;
   mkGrpcStatusInfo $"NOT_FOUND" false; mkGrpcStatusInfo $"ALREADY_EXISTS" false;
   mkGrpcStatusInfo $"PERMISSION_DENIED" false; mkGrpcStatusInfo $"RESOURCE_EXHAUSTED" false;
   mkGrpcStatusInfo $"FAILED_PRECONDITION" false; mkGrpcStatusInfo $"ABORTED" true;
   mkGrpcStatusInfo $"OUT_OF_RANGE" true; mkGrpcStatusInfo $"UNIMPLEMENTED" false;
   mkGrpcStatusInfo $"INTERNAL" false; mkGrpcStatusInfo $"UNAVAILABLE" true;
   mkGrpcStatusInfo $"DATA_LOSS" true; mkGrpcStatusInfo $"UNAUTHENTICATED" false].
Definition kUnrecognizedName : str := $"UNRECOGNIZED".

Definition LookupGrpcStatus (code : Z) : option GrpcStatusInfo :=
  if (code <? 0) || (kGrpcStatusCount <=? code) then None else kStatusTable !! Z.to_nat code.

Definition HexValue (c : char) : option Z :=
  if in_range "0" "9" c then Some (code c - code "0")
  else if in_range "a" "f" c then Some (code c - code "a" + 10)
  else if in_range "A" "F" c then Some (code c - code "A" + 10)
  else None.

(** [DecodeEscapeAt], on the text from position [i] on. *)
Definition DecodeEscapeAt (text : str) : option char :=
  match text with
  | p :: h :: l :: _ =>
      if p =c "%" then
        match HexValue h, HexValue l with
        | Some high, Some low => Some (chr (Z.lor (Z.shiftl high 4) low))
        | _, _ => None
        end
      else None
  | _ => None
  end.
(** The loop of [PercentDecode]; [skip] characters belong to a decoded escape. *)
Fixpoint PercentDecode_loop (text : str) (skip : nat) : str :=
  match text with
  | [] => []
  | c :: text' =>
      match skip with
      | S k => PercentDecode_loop text' k
      | O => match DecodeEscapeAt text with
             | Some d => d :: PercentDecode_loop text' 2
             | None => c :: PercentDecode_loop text' 0
             end
      end
  end.
Definition PercentDecode (text : str) : str := PercentDecode_loop text 0.

Definition FormatGrpcError (status : Z) (decoded_message : str) : str :=
  let status_name := match LookupGrpcStatus status with Some info => name info | None => kUnrecognizedName end in
  let message := take kMaxGrpcMessageChars decoded_message in
  status_name ++ $" (" ++ to_string status ++ $")"
  ++ match message with [] => [] | _ => $": " ++ message end.

(** ** Base64 *)

Definition B64CharValue (c : char) : Z :=
  if in_range "A" "Z" c then code c - code "A"
  else if in_range "a" "z" c then code c - code "a" + 26
  else if in_range "0" "9" c then code c - code "0" + 52
  else if (c =c "-") || (c =c "+") then 62
  else if (c =c "_") || (c =c "/") then 63
  else -1.

Definition u8 (z : Z) : Z := to_uint 8 z.
Definition b64_first (c0 c1 : Z) : Z := u8 (Z.lor (Z.shiftl c0 2) (Z.shiftr c1 4)).
Definition b64_second (c1 c2 : Z) : Z := u8 (Z.lor (Z.shiftl (Z.land c1 15) 4) (Z.shiftr c2 2)).
Definition b64_third (c2 c3 : Z) : Z := u8 (Z.lor (Z.shiftl (Z.land c2 3) 6) c3).

(** The loop of [Base64UrlDecode], one group of up to four characters a turn; a
    single leftover character ends it. *)
Fixpoint Base64UrlDecode_loop (sv : str) : option Bytes :=
  match sv with
  | a :: b :: rest =>
      let c0 := B64CharValue a in let c1 := B64CharValue b in
      if (c0 <? 0) || (c1 <? 0) then None
      else
        let o0 := b64_first c0 c1 in
        match rest with
        | [] => Some [o0]
        | c :: rest' =>
            let c2 := B64CharValue c in
            if c2 <? 0 then None
            else
              let o1 := b64_second c1 c2 in
              match rest' with
              | [] => Some [o0; o1]
              | d :: rest'' =>
                  let c3 := B64CharValue d in
                  if c3 <? 0 then None
                  else (λ out, o0 :: o1 :: b64_third c2 c3 :: out) <$> Base64UrlDecode_loop rest''
              end
        end
  | _ => Some []
  end.
Definition Base64UrlDecode (sv : str) : option Bytes :=
  Base64UrlDecode_loop (drop_while_back (λ c, c =c "=") sv).

(** ** Reference encoder (RFC 4648) *)

Definition std_alphabet : str := $"ABCDEFGHIJKLMNOPQRSTUVWXYZabcdefghijklmnopqrstuvwxyz0123456789+/".
Definition url_alphabet : str := $"ABCDEFGHIJKLMNOPQRSTUVWXYZabcdefghijklmnopqrstuvwxyz0123456789-_".
Section encode.
Context (alphabet : str).
Definition b64_char (v : Z) : char := nth (Z.to_nat v) alphabet "000"%char.
(** Six-bit groups of one to three bytes, without padding. *)
Fixpoint Base64Encode (bytes : Bytes) : str :=
  match bytes with
  | [] => []
  | [x] => [b64_char (Z.shiftr x 2); b64_char (Z.shiftl (Z.land x 3) 4)]
  | [x; y] => [b64_char (Z.shiftr x 2); b64_char (Z.lor (Z.shiftl (Z.land x 3) 4) (Z.shiftr y 4));
               b64_char (Z.shiftl (Z.land y 15) 2)]
  | x :: y :: z :: rest =>
      b64_char (Z.shiftr x 2) :: b64_char (Z.lor (Z.shiftl (Z.land x 3) 4) (Z.shiftr y 4))
      :: b64_char (Z.lor (Z.shiftl (Z.land y 15) 2) (Z.shiftr z 6)) :: b64_char (Z.land z 63)
      :: Base64Encode rest
  end.

Definition alphabet_ok : Prop := alphabet = std_alphabet ∨ alphabet = url_alphabet.

Lemma b64_char_value v : alphabet_ok → 0 <= v < 64 → B64CharValue (b64_char v) = v ∧ (b64_char v =c "=") = false.
Proof.
  intros Ha Hv.
  assert (∀ a, a = std_alphabet ∨ a = url_alphabet →
    forallb (λ v, (B64CharValue (nth (Z.to_nat v) a "000"%char) =? v)
                  && negb (nth (Z.to_nat v) a "000"%char =c "=")) (seqZ 0 64) = true) as H.
  { intros a [->| ->]; vm_compute; reflexivity. }
  pose proof (forall_below _ 64 (H alphabet Ha) v Hv) as H'. cbv beta in H'. bool_hyps. done.
Qed.

(** The six-bit groups of three bytes, and the bytes they give back. *)
Lemma bits_range x :
  is_u8 x → 0 <= Z.shiftr x 2 < 64 ∧ 0 <= Z.shiftl (Z.land x 3) 4 < 64 ∧ 0 <= Z.shiftr x 4 < 16
  ∧ 0 <= Z.shiftl (Z.land x 15) 2 < 64 ∧ 0 <= Z.shiftr x 6 < 4 ∧ 0 <= Z.land x 63 < 64.
Proof.
  intros Hx. assert (0 <= x < 256) as Hx' by width_lia.
  pose proof (forall_below (λ x, (0 <=? Z.shiftr x 2) && (Z.shiftr x 2 <? 64) && (0 <=? Z.shiftl (Z.land x 3) 4)
    && (Z.shiftl (Z.land x 3) 4 <? 64) && (0 <=? Z.shiftr x 4) && (Z.shiftr x 4 <? 16)
    && (0 <=? Z.shiftl (Z.land x 15) 2) && (Z.shiftl (Z.land x 15) 2 <? 64) && (0 <=? Z.shiftr x 6)
    && (Z.shiftr x 6 <? 4) && (0 <=? Z.land x 63) && (Z.land x 63 <? 64)) 256 eq_refl x Hx') as H.
  cbv beta in H. bool_hyps. lia.
Qed.
Lemma group_ranges x y :
  is_u8 x → is_u8 y → 0 <= Z.lor (Z.shiftl (Z.land x 3) 4) (Z.shiftr y 4) < 64
  ∧ 0 <= Z.lor (Z.shiftl (Z.land x 15) 2) (Z.shiftr y 6) < 64.
Proof.
  intros Hx Hy. pose proof (bits_range x Hx). pose proof (bits_range y Hy).
  split; apply (lor_bound 6); change (2 ^ 6) with 64; lia.
Qed.

Lemma group_first x y : is_u8 x → is_u8 y →
  b64_first (Z.shiftr x 2) (Z.lor (Z.shiftl (Z.land x 3) 4) (Z.shiftr y 4)) = x.
Proof.
  intros Hx Hy. assert (0 <= x < 256) as Hx' by width_lia. assert (0 <= y < 256) as Hy' by width_lia.
  pose proof (forall_below (λ x, forallb (λ y,
    b64_first (Z.shiftr x 2) (Z.lor (Z.shiftl (Z.land x 3) 4) (Z.shiftr y 4)) =? x) (seqZ 0 256)) 256
    ltac:(vm_compute; reflexivity) x Hx') as H.
  cbv beta in H. pose proof (forall_below _ 256 H y Hy') as H'. cbv beta in H'. by bool_hyps.
Qed.
Lemma group_second x y z : is_u8 x → is_u8 y → is_u8 z →
  b64_second (Z.lor (Z.shiftl (Z.land x 3) 4) (Z.shiftr y 4)) (Z.lor (Z.shiftl (Z.land y 15) 2) (Z.shiftr z 6)) = y.
Proof.
  intros Hx Hy Hz. assert (0 <= y < 256) as Hy' by width_lia.
  assert (0 <= Z.land x 3 < 4) as Hx'.
  { change 3 with (Z.ones 2). rewrite Z.land_ones by lia. apply Z.mod_pos_bound. lia. }
  destruct (bits_range z Hz) as (_ & _ & _ & _ & Hz' & _).
  pose proof (forall_below (λ y, forallb (λ a, forallb (λ b,
    b64_second (Z.lor (Z.shiftl a 4) (Z.shiftr y 4)) (Z.lor (Z.shiftl (Z.land y 15) 2) b) =? y)
    (seqZ 0 4)) (seqZ 0 4)) 256 ltac:(vm_compute; reflexivity) y Hy') as H.
  cbv beta in H. pose proof (forall_below _ 4 H _ Hx') as H'. cbv beta in H'.
  pose proof (forall_below _ 4 H' _ Hz') as H''. cbv beta in H''. by bool_hyps.
Qed.
Lemma group_third y z : is_u8 y → is_u8 z →
  b64_third (Z.lor (Z.shiftl (Z.land y 15) 2) (Z.shiftr z 6)) (Z.land z 63) = z.
Proof.
  intros Hy Hz. assert (0 <= z < 256) as Hz' by width_lia.
  assert (0 <= Z.land y 15 < 16) as Hy'.
  { change 15 with (Z.ones 4). rewrite Z.land_ones by lia. apply Z.mod_pos_bound. lia. }
  pose proof (forall_below (λ z, forallb (λ a,
    b64_third (Z.lor (Z.shiftl a 2) (Z.shiftr z 6)) (Z.land z 63) =? z) (seqZ 0 16)) 256
    ltac:(vm_compute; reflexivity) z Hz') as H.
  cbv beta in H. pose proof (forall_below _ 16 H _ Hy') as H'. cbv beta in H'. by bool_hyps.
Qed.
Lemma b64_pos v : alphabet_ok → 0 <= v < 64 → B64CharValue (b64_char v) = v ∧ (v <? 0) = false.
Proof. intros Ha Hv. destruct (b64_char_value v Ha Hv) as [H _]. split; [done|]. apply Z.ltb_ge. lia. Qed.

Lemma decode_loop_encode bytes :
  alphabet_ok → Forall is_u8 bytes → Base64UrlDecode_loop (Base64Encode bytes) = Some bytes.
Proof.
  intros Ha. assert (is_u8 0) as H0 by width_lia. revert bytes. fix IH 1.
  intros [|x [|y [|z rest]]] Hb; cbn [Base64Encode Base64UrlDecode_loop]; [done| | |].
  - rewrite Forall_singleton in Hb. pose proof (bits_range x Hb) as (R1 & R2 & _).
    destruct (b64_pos _ Ha R1) as [-> ->], (b64_pos _ Ha R2) as [-> ->]. cbn [orb]. do 2 f_equal.
    pose proof (group_first x 0 Hb H0) as H. by rewrite Z.lor_0_r in H.
  - apply Forall_cons in Hb as [Hx Hy]. rewrite Forall_singleton in Hy.
    pose proof (bits_range x Hx) as (R1 & _). pose proof (bits_range y Hy) as (_ & _ & _ & R4 & _).
    destruct (group_ranges x y Hx Hy) as [G1 _].
    destruct (b64_pos _ Ha R1) as [-> ->], (b64_pos _ Ha G1) as [-> ->], (b64_pos _ Ha R4) as [-> ->].
    cbn [orb]. rewrite group_first by done. do 3 f_equal.
    pose proof (group_second x y 0 Hx Hy H0) as H. by rewrite (Z.lor_0_r (Z.shiftl _ 2)) in H.
  - apply Forall_cons in Hb as [Hx Hb]. apply Forall_cons in Hb as [Hy Hb]. apply Forall_cons in Hb as [Hz Hb].
    pose proof (bits_range x Hx) as (R1 & _). pose proof (bits_range z Hz) as (_ & _ & _ & _ & _ & R6).
    destruct (group_ranges x y Hx Hy) as [G1 _], (group_ranges y z Hy Hz) as [_ G2].
    destruct (b64_pos _ Ha R1) as [-> ->], (b64_pos _ Ha G1) as [-> ->], (b64_pos _ Ha G2) as [-> ->],
      (b64_pos _ Ha R6) as [-> ->].
    cbn [orb]. rewrite (IH rest Hb). cbn. rewrite group_first, group_second, group_third by done. done.
Qed.

Lemma encode_no_pad bytes :
  alphabet_ok → Forall is_u8 bytes → forallb (λ c, negb (c =c "=")) (Base64Encode bytes) = true.
Proof.
  intros Ha. assert (∀ v, 0 <= v < 64 → negb (b64_char v =c "=") = true) as Hc.
  { intros v Hv. by destruct (b64_char_value v Ha Hv) as [_ ->]. }
  revert bytes. fix IH 1.
  intros [|x [|y [|z rest]]] Hb; cbn [Base64Encode forallb]; [done| | |].
  - rewrite Forall_singleton in Hb. pose proof (bits_range x Hb) as (R1 & R2 & _). by rewrite !Hc.
  - apply Forall_cons in Hb as [Hx Hy]. rewrite Forall_singleton in Hy.
    pose proof (bits_range x Hx) as (R1 & _). pose proof (bits_range y Hy) as (_ & _ & _ & R4 & _).
    destruct (group_ranges x y Hx Hy) as [G1 _]. by rewrite !Hc.
  - apply Forall_cons in Hb as [Hx Hb]. apply Forall_cons in Hb as [Hy Hb]. apply Forall_cons in Hb as [Hz Hb].
    pose proof (bits_range x Hx) as (R1 & _). pose proof (bits_range z Hz) as (_ & _ & _ & _ & _ & R6).
    destruct (group_ranges x y Hx Hy) as [G1 _], (group_ranges y z Hy Hz) as [_ G2].
    rewrite !Hc by done. apply (IH rest Hb).
Qed.

Lemma base64_roundtrip_aux bytes padding :
  alphabet_ok → Forall is_u8 bytes →
  Base64UrlDecode (Base64Encode bytes ++ replicate padding "="%char) = Some bytes.
Proof.
  intros Ha Hb. unfold Base64UrlDecode.
  rewrite drop_while_back_pad; [by apply decode_loop_encode|done|].
  eapply (ends_in_forallb _ (λ c, negb (c =c "="))); [intros c; apply negb_true_iff|]. by apply encode_no_pad.
Qed.

(** Decoding inverts base64 encoding: whatever the bytes, in the standard or
    the URL-safe alphabet, with any amount of padding or none. *)
Theorem base64_roundtrip bytes padding :
  alphabet_ok → Forall is_u8 bytes →
  Base64UrlDecode (Base64Encode bytes ++ replicate padding "="%char) = Some bytes.
Proof. apply base64_roundtrip_aux. Qed.

End encode.

Lemma base64_roundtrip_witness :
  Base64UrlDecode $"+/8=" = Some [251; 255] ∧ Base64Encode std_alphabet [251; 255] = $"+/8".
Proof.
  split; [|reflexivity].
  apply (base64_roundtrip std_alphabet [251; 255] 1); [by left|].
  apply Forall_cons; split; [width_lia|apply Forall_singleton; width_lia].
Defined.
