(* ===== verification/Wire.v ===== *)
(** * What the wire codecs share

    Headers, transport results, [std::from_chars], the auth header and the
    failures both codecs report: [include/microtel/internal/transport.hpp],
    [src/wire/auth_failure.hpp], and [FindHeaderValue] and [AppendAuthHeader],
    which [src/wire/grpc/grpc_wire_codec.cpp] and
    [src/wire/http/http_wire_codec.cpp] repeat.

    The transport and the auth provider are the record [World] of their answers;
    zlib is a parameter of the codecs with the contract [gzip_lossless].  [m_diag]
    is a flag, and the drops recorded and warnings logged are returned. *)
From Stdlib Require DecimalString DecimalN.
From S2P Require Import Prelude Data RetryEngine ProtoReader.

Definition bytes_to_str (b : Bytes) : str := chr <$> b.

(** ** Headers *)

Record HeaderField := mkHeaderField { hf_name : str; hf_value : str }.
Definition FindHeaderValue (headers : list HeaderField) (n : str) : option str :=
  hf_value <$> find_key hf_name n headers.

Definition is_digit (c : char) : bool := in_range "0" "9" c.
Fixpoint digits (s : str) : str :=
  match s with c :: s' => if is_digit c then c :: digits s' else [] | [] => [] end.
Definition digits_value (s : str) : Z := fold_left (λ v c, v * 10 + (code c - code "0")) s 0.
(** [std::from_chars] into an [int]: the longest [-]digits prefix; [None] is an
    error code (no digits, or out of range), which leaves the target alone. *)
Definition from_chars_int (s : str) : option Z :=
  let '(neg, t) := match s with c :: s' => if c =c "-" then (true, s') else (false, s) | [] => (false, s) end in
  match digits t with
  | [] => None
  | ds => let v := if neg then - digits_value ds else digits_value ds in
          if (- 2 ^ 31 <=? v) && (v <=? 2 ^ 31 - 1) then Some v else None
  end.
(** [std::from_chars] into a [uint32_t] (no sign): the value and the rest of the
    text after the digits. *)
Definition from_chars_u32 (s : str) : option (Z * str) :=
  match digits s with
  | [] => None
  | ds => if digits_value ds <=? u32_max then Some (digits_value ds, drop (length ds) s) else None
  end.

(** Reading a decimal numeral that [std::to_string] printed. *)
Definition digit_step (v : Z) (c : char) : Z := v * 10 + (code c - code "0").
Lemma fold_digits_acc d p :
  fold_left digit_step (lit (DecimalString.NilEmpty.string_of_uint d)) (Zpos p)
  = Zpos (Pos.of_uint_acc d p).
Proof.
  revert p. induction d; intros p; [done|..].
  all: cbn [DecimalString.NilEmpty.string_of_uint lit list_ascii_of_string fold_left Pos.of_uint_acc].
  all: rewrite <- IHd; unfold lit; f_equal; unfold digit_step;
    repeat match goal with |- context [code ?c] => let v := eval vm_compute in (code c) in change (code c) with v end; lia.
Qed.
Lemma fold_digits d :
  fold_left digit_step (lit (DecimalString.NilEmpty.string_of_uint d)) 0 = Z.of_N (N.of_uint d).
Proof.
  induction d; [done|..].
  { exact IHd. }
  all: apply (fold_digits_acc d).
Qed.
Lemma decimal_digits d : digits (lit (DecimalString.NilEmpty.string_of_uint d)) = lit (DecimalString.NilEmpty.string_of_uint d).
Proof. induction d; [done|..]. all: cbn; f_equal; apply IHd. Qed.
Lemma decimal_read z :
  0 <= z → digits (decimal z) = decimal z ∧ digits_value (decimal z) = z ∧ decimal z ≠ [].
Proof.
  intros Hz. unfold decimal. pose proof (DecimalN.Unsigned.of_to (Z.to_N z)) as Ht.
  destruct (N.to_uint (Z.to_N z)) as [| | | | | | | | | |] eqn:E; cbn [DecimalString.NilZero.string_of_uint].
  { split_and!; [done| |done]. cbn in Ht. cbn. lia. }
  all: split_and!; [apply decimal_digits| |done].
  all: change (digits_value ?l) with (fold_left digit_step l 0); rewrite fold_digits, Ht; lia.
Qed.

(** ** Transport *)

Inductive GzipDecompressError := Corrupt | GzipTooLarge.

(** [response_body] is [response_bytes] here. *)
Record TransportResult := mkTransportResult {
  tr_success : bool;
  response_headers : list HeaderField;
  response_trailers : list HeaderField;
  response_bytes : Bytes;
  tr_error : option Error;
  response_too_large : bool;
  transport_busy : bool
}.

(** A result, the drops recorded and the warnings logged. *)
Record Classified := mkClassified { result : WireResult; recorded : list DropReason; warnings : list str }.
Definition quiet (r : WireResult) : Classified := mkClassified r [] [].
Definition failure (retry : bool) (after : option Z) (e : option Error) (excerpt : str) : WireResult :=
  mkWireResult false retry after 0 e excerpt.
Definition drop_if (diag : bool) (r : DropReason) : list DropReason := if diag then [r] else [].

(** What the transport and the auth provider answer during one call: the [i]-th
    authorization and the response to the [i]-th request (one [Send] has one). *)
Record World := mkWorld {
  connected : bool;                                (** [GetState() == Connected] *)
  connect_error : option Error;                    (** [Connect]'s error, if any *)
  has_auth : bool;                                 (** [m_auth != nullptr] *)
  authorization : nat → option str + Error;        (** [GetAuthorization] *)
  answer : nat → option TransportResult            (** [None]: not ready by the deadline *)
}.

Definition AppendAuthHeader (w : World) (i : nat) (headers : list HeaderField) : list HeaderField + Error :=
  if negb (has_auth w) then inl headers
  else match authorization w i with
       | inr e => inr e
       | inl None => inl headers
       | inl (Some token) => inl (headers ++ [mkHeaderField $"authorization" token])
       end.

Definition AuthFailure (e : Error) : WireResult :=
  failure false None
    (Some (mkError (error_kind e) ($"authorization header unavailable: " ++ error_message e) (os_errno e))) [].

Definition is_protocol (e : Error) : bool := match error_kind e with KProtocol => true | _ => false end.
Definition deadline_exceeded : WireResult :=
  failure true None (Some (mkError KCancelled $"request deadline exceeded" 0)) [].

(** ** Contracts *)

Section gzip.
Context (GzipCompress : Bytes → option Bytes)
        (GzipDecompress : Bytes → Z → Bytes + GzipDecompressError).
(** zlib's contract: what [GzipCompress] writes inflates to the original under a
    ceiling that admits it. *)
Definition gzip_lossless : Prop :=
  ∀ b z max, GzipCompress b = Some z → size b <= max → GzipDecompress z max = inl b.
End gzip.

(** A store-only codec that satisfies zlib's contract, with its ceiling. *)
Definition store_compress (b : Bytes) : option Bytes := Some (31 :: b).
Definition store_decompress (z : Bytes) (max : Z) : Bytes + GzipDecompressError :=
  match z with
  | 31 :: b => if size b <=? max then inl b else inr GzipTooLarge
  | _ => inr Corrupt
  end.
Lemma store_lossless : gzip_lossless store_compress store_decompress.
Proof. intros b z max [= <-] Hb. cbn. by rewrite (proj2 (Z.leb_le _ _)). Qed.

(** What each classifier may answer. *)
Definition well_classified (r : WireResult) (ok retry : Prop) : Prop :=
  (success r = true ↔ ok) ∧ (retryable r = true ↔ retry)
  ∧ (ok → retry → False) ∧ (success r = true → error r = None)
  ∧ (is_Some (retry_after r) → retryable r = true).

#[export] Instance well_classified_proper r : Proper (iff ==> iff ==> iff) (well_classified r).
Proof. intros ok ok' H1 retry retry' H2. unfold well_classified. by rewrite H1, H2. Qed.
Lemma well_classified_iff r ok ok' retry retry' :
  well_classified r ok retry → (ok ↔ ok') → (retry ↔ retry') → well_classified r ok' retry'.
Proof. by intros H <- <-. Qed.
