(* ===== verification/Http2Connect.v ===== *)
(** * Connecting: endpoints, TCP and TLS

    Model of the connection set-up of [src/transport/http2_transport.cpp] that does
    not involve the HTTP/2 session: [ParseEndpoint], [TcpConnect], the credentials and
    the handshake of TLS, and [src/transport/connect_error.cpp].  The resolver, the
    sockets and OpenSSL are what they answer; what is asked of OpenSSL is the record
    [TlsConfig].  The sequel, from the HTTP/2 handshake on, is in [Http2.v]. *)
From stdpp Require Import base list.
From S2P Require Import Prelude Data RetryEngine Wire.

(** ** Endpoints *)

Record EndpointInfo := mkEndpoint { ep_host : str; ep_port : str; ep_use_tls : bool }.
(** [sv.rfind(c)]: what is before and after the last [c]. *)
Fixpoint rsplit (c : char) (s : str) : option (str * str) :=
  match s with
  | [] => None
  | d :: s' => match rsplit c s' with
               | Some (a, b) => Some (d :: a, b)
               | None => if d =c c then Some ([], s') else None
               end
  end.
Definition strip_scheme (endpoint : str) (insecure : bool) : bool * str :=
  if starts_with endpoint $"https://" then (true, drop 8 endpoint)
  else if starts_with endpoint $"http://" then (false, drop 7 endpoint)
  else (negb insecure, endpoint).
Definition network_error (message : str) : Error := mkError KNetwork message 0.
Definition ParseEndpoint (endpoint : str) (insecure : bool) : Error + EndpointInfo :=
  if bool_decide (endpoint = []) then inl (network_error $"empty endpoint")
  else
    let '(use_tls, sv) := strip_scheme endpoint insecure in
    let '(host, port) := match rsplit ":" sv with
                         | None => (sv, if use_tls : bool then $"443" else $"80")
                         | Some (host, port) => (host, port)
                         end in
    if bool_decide (host = []) || bool_decide (port = []) then inl (network_error $"malformed endpoint")
    else inr (mkEndpoint host port use_tls).

(** ** TCP *)

Definition ECONNREFUSED := 111.
Definition ECONNRESET := 104.
Definition EPIPE := 32.
Definition EINPROGRESS := 115.
Definition EAGAIN := 11.
Definition MergeConnectErrno (previous current : Z) : Z := if (current =? ECONNREFUSED) && negb (previous =? 0) then previous else current.

Section tcp.
(** [std::generic_category().message]. *)
Context (errno_text : Z → str).
Definition ConnectFailureError (err : Z) : Error :=
  let message := if (err =? 0) || (err =? ECONNREFUSED) then $"connection refused"
                 else if (err =? ECONNRESET) || (err =? EPIPE) then $"peer closed the connection during TCP connect: " ++ errno_text err
                 else $"connect failed: " ++ errno_text err in
  mkError KNetwork message err.
(** What one address of the list leads to: no socket, a [connect] that succeeds or
    fails at once, or one in progress ([late]: the deadline has passed; whether
    [poll] reports the socket; [SO_ERROR]). *)
Inductive AddressAttempt := NoSocket | ConnectOk | ConnectErrno (err : Z) | InProgress (late ready : bool) (sock_err : Z).
Fixpoint try_addresses (attempts : list AddressAttempt) (last_errno : Z) : option Error :=
  match attempts with
  | [] => Some (ConnectFailureError last_errno)
  | NoSocket :: rest => try_addresses rest last_errno
  | ConnectOk :: _ => None
  | ConnectErrno err :: rest => try_addresses rest (MergeConnectErrno last_errno err)
  | InProgress late ready sock_err :: rest =>
      if late then Some (mkError KCancelled $"connect timeout" 0)
      else if negb ready then try_addresses rest last_errno
      else if negb (sock_err =? 0) then try_addresses rest (MergeConnectErrno last_errno sock_err)
      else None
  end.
(** [None]: connected.  [resolved] is what [getaddrinfo] returns. *)
Definition TcpConnect (resolved : option (list AddressAttempt)) : option Error :=
  match resolved with None => Some (network_error $"DNS resolution failed") | Some attempts => try_addresses attempts 0 end.

(** The first address that takes the connection is used: those before it failed on
    their own, none of them by running out of time. *)
Definition attempt_fails (a : AddressAttempt) : bool :=
  match a with NoSocket | ConnectErrno _ => true | ConnectOk => false | InProgress late ready sock_err => negb late && (negb ready || negb (sock_err =? 0)) end.
Definition attempt_connects (a : AddressAttempt) : bool :=
  match a with ConnectOk => true | InProgress late ready sock_err => negb late && ready && (sock_err =? 0) | _ => false end.
Lemma try_addresses_connects attempts e :
  try_addresses attempts e = None ↔ ∃ before a rest, attempts = before ++ a :: rest ∧ forallb attempt_fails before = true ∧ attempt_connects a = true.
Proof.
  revert e. induction attempts as [|a rest IH]; intros e; cbn [try_addresses].
  { split; [done|]. intros (before & b & rest & Hb & _). by destruct before. }
  assert ((∃ before b rest', rest = before ++ b :: rest' ∧ forallb attempt_fails before = true ∧ attempt_connects b = true)
    → attempt_fails a = true → ∃ before b rest', a :: rest = before ++ b :: rest' ∧ forallb attempt_fails before = true ∧ attempt_connects b = true) as Hcons
    by (intros (before & b & rest' & -> & Hf & Hc) Ha; exists (a :: before), b, rest'; cbn; rewrite Ha; auto).
  assert ((∃ before b rest', a :: rest = before ++ b :: rest' ∧ forallb attempt_fails before = true ∧ attempt_connects b = true)
    → attempt_connects a = true ∨ attempt_fails a = true ∧ ∃ before b rest', rest = before ++ b :: rest' ∧ forallb attempt_fails before = true ∧ attempt_connects b = true) as Hinv
    by (intros ([|c before] & b & rest' & [= -> ->] & Hf & Hc); [by left|right; cbn in Hf; apply andb_true_iff in Hf as [Ha Hf]; eauto 10]).
  assert (attempt_connects a = true → ∃ before b rest', a :: rest = before ++ b :: rest' ∧ forallb attempt_fails before = true ∧ attempt_connects b = true) as Hnow
    by (intros Ha; by exists [], a, rest).
  destruct a as [| |err|[] [] sock_err]; cbn [negb]; rewrite ?IH; cbn in Hcons, Hinv, Hnow.
  all: try (destruct (sock_err =? 0) eqn:Es; cbn [negb]; rewrite ?IH; cbn in Hcons, Hinv, Hnow).
  all: split; [try done; intros; auto|intros Hx; try done; destruct (Hinv Hx) as [?|[? ?]]; try done].
Qed.
End tcp.
(** A connect that times out is reported as a refusal: the only address never
    answers, so [poll] runs out and no errno is kept. *)
Lemma timeout_reported_as_refused errno_text :
  TcpConnect errno_text (Some [InProgress false false 0]) = Some (mkError KNetwork $"connection refused" 0).
Proof. done. Qed.

Lemma rsplit_app c a b : c ∉ b → rsplit c (a ++ c :: b) = Some (a, b).
Proof.
  intros Hb. induction a as [|d a IH]; cbn; [|by rewrite IH].
  assert (rsplit c b = None) as ->; [|by rewrite ceqb_refl].
  induction b as [|d b IHb]; [done|]. apply not_elem_of_cons in Hb as [Hd Hb]. cbn. rewrite (IHb Hb).
  assert ((d =c c) = false) as -> by (apply ceqb_false; congruence). done.
Qed.
Lemma rsplit_none c b : c ∉ b → rsplit c b = None.
Proof.
  induction b as [|d b IH]; [done|]. intros [Hd Hb]%not_elem_of_cons. cbn. rewrite (IH Hb).
  assert ((d =c c) = false) as -> by (apply ceqb_false; congruence). done.
Qed.
(** What an operator writes is what is connected to: scheme, host and port, with the
    port of the scheme when none is given. *)
Definition scheme_text (tls : option bool) : str := match tls with None => [] | Some true => $"https://" | Some false => $"http://" end.
Lemma strip_scheme_text tls insecure rest :
  (tls = None → starts_with rest $"https://" = false ∧ starts_with rest $"http://" = false) →
  strip_scheme (scheme_text tls ++ rest) insecure = (default (negb insecure) tls, rest).
Proof.
  assert (starts_with rest [] = true) as H0 by (by destruct rest). unfold strip_scheme. destruct tls as [[]|].
  - intros _. cbn. by rewrite H0.
  - intros _. cbn. by rewrite H0.
  - intros H. destruct (H eq_refl) as [H1 H2]. cbn [scheme_text app]. by rewrite H1, H2.
Qed.
Lemma ParseEndpoint_reads tls insecure host port :
  host ≠ [] → port ≠ [] → ":"%char ∉ port →
  (tls = None → starts_with (host ++ ":"%char :: port) $"https://" = false ∧ starts_with (host ++ ":"%char :: port) $"http://" = false) →
  ParseEndpoint (scheme_text tls ++ host ++ ":"%char :: port) insecure = inr (mkEndpoint host port (default (negb insecure) tls)).
Proof.
  intros Hh Hp Hc Hs. unfold ParseEndpoint. rewrite bool_decide_false by (destruct tls as [[]|]; [done|done|by destruct host]).
  rewrite strip_scheme_text by exact Hs. rewrite rsplit_app by done. rewrite !bool_decide_false by done. done.
Qed.
Lemma ParseEndpoint_default_port tls insecure host :
  host ≠ [] → ":"%char ∉ host → (tls = None → starts_with host $"https://" = false ∧ starts_with host $"http://" = false) →
  ParseEndpoint (scheme_text tls ++ host) insecure
  = inr (mkEndpoint host (if default (negb insecure) tls then $"443" else $"80") (default (negb insecure) tls)).
Proof.
  intros Hh Hc Hs. unfold ParseEndpoint. rewrite bool_decide_false by (destruct tls as [[]|]; [done|done|by destruct host]).
  rewrite strip_scheme_text by exact Hs. rewrite rsplit_none by done. rewrite !bool_decide_false by (done || by destruct (default (negb insecure) tls)). done.
Qed.

(** ** TLS *)

Record TlsOptions := mkTlsOptions { to_insecure : bool; to_ca_bundle : str; to_client_cert : str; to_client_key : str; to_sni_override : str }.
(** What OpenSSL has been told: the floor of the protocol version, the trust store
    ([None]: the system's), peer verification, the client certificate with its key,
    the protocols offered, the server name sent, and the name the certificate must
    carry. *)
Record TlsConfig := mkTls {
  tls_min_1_2 : bool; tls_trust : option str; tls_verify_peer : bool; tls_client : option (str * str); tls_alpn : list str; tls_sni : str; tls_verify_host : option str }.
(** The answers of OpenSSL, in the order of the calls. *)
Inductive SslConnect := HandshakeDone | WantIo (late ready : bool) | HandshakeFailed.
Record TlsAnswers := mkTlsAnswers {
  ctx_ok : bool; ca_ok : bool; cert_ok : bool; key_ok : bool; session_ok : bool; bio_ok : bool; host_ok : bool; handshake : list SslConnect;
  verify_error : option str; selected_alpn : str }.

Definition LoadSslCtxCredentials (opts : TlsOptions) (a : TlsAnswers) : Error + (option str * bool * option (str * str)) :=
  let ca := to_ca_bundle opts in
  if negb (bool_decide (ca = [])) && negb (ca_ok a) then inl (network_error $"CA bundle load failed")
  else
    let trust := if bool_decide (ca = []) then None else Some ca in
    let verify := negb (to_insecure opts) in
    if bool_decide (to_client_cert opts = []) then inr (trust, verify, None)
    else if negb (cert_ok a) then inl (network_error $"client cert load failed")
    else if negb (key_ok a) then inl (network_error $"client key load failed")
    else inr (trust, verify, Some (to_client_cert opts, to_client_key opts)).
Definition TlsFailureMessage (a : TlsAnswers) : str :=
  match verify_error a with None => $"TLS handshake failed" | Some text => $"TLS certificate verification failed: " ++ text end.
(** [SslConnectLoop]: one entry of [rounds] per call of [SSL_connect]; the clock and
    [poll] of a round end it.  Without further rounds the loop is still waiting. *)
Fixpoint SslConnectLoop (a : TlsAnswers) (rounds : list SslConnect) : option (option Error) :=
  match rounds with
  | [] => None
  | HandshakeDone :: _ => Some None
  | HandshakeFailed :: _ => Some (Some (network_error (TlsFailureMessage a)))
  | WantIo late ready :: rest =>
      if late || negb ready then Some (Some (mkError KCancelled $"TLS handshake timeout" 0)) else SslConnectLoop a rest
  end.
Definition AlpnMismatchError (selected : str) : Error :=
  let negotiated := if bool_decide (selected = []) then $"none" else selected in
  mkError KProtocol ($"TLS peer did not negotiate h2 via ALPN (negotiated: " ++ negotiated
    ++ $") - this endpoint is not an HTTP/2 receiver; use OTLP/gRPC or an h2-capable OTLP/HTTP endpoint; see docs/compatibility-matrix.md") 0.
Definition kAlpnH2 : str := $"h2".
Definition TlsHandshake (opts : TlsOptions) (host : str) (a : TlsAnswers) : option (Error + TlsConfig) :=
  if negb (ctx_ok a) then Some (inl (network_error $"SSL_CTX_new failed"))
  else match LoadSslCtxCredentials opts a with
  | inl e => Some (inl e)
  | inr (trust, verify, client) =>
      if negb (session_ok a) then Some (inl (network_error $"SSL_new failed"))
      else if negb (bio_ok a) then Some (inl (network_error $"BIO_new failed"))
      else
        let sni := if bool_decide (to_sni_override opts = []) then host else to_sni_override opts in
        if negb (to_insecure opts) && negb (host_ok a) then Some (inl (network_error $"TLS verify hostname rejected"))
        else
          let config := mkTls true trust verify client [kAlpnH2] sni (if to_insecure opts then None else Some sni) in
          match SslConnectLoop a (handshake a) with
          | None => None
          | Some (Some e) => Some (inl e)
          | Some None => if selected_alpn a =s kAlpnH2 then Some (inr config) else Some (inl (AlpnMismatchError (selected_alpn a)))
          end
  end.

(** C38: A TLS session is only ever handed on when OpenSSL finished the handshake and
    the peer agreed on h2, over TLS 1.2 or newer and with the configured trust store
    and client certificate.  Unless the endpoint is declared insecure, the peer's
    certificate was to be verified against that store and against the very name sent
    as SNI: the override if there is one, the host otherwise. *)
Theorem tls_session_verified opts host a config : TlsHandshake opts host a = Some (inr config) →
  (∃ waits rest, handshake a = waits ++ HandshakeDone :: rest ∧ Forall (λ r, r = WantIo false true) waits)
  ∧ selected_alpn a = kAlpnH2 ∧ tls_alpn config = [kAlpnH2] ∧ tls_min_1_2 config = true
  ∧ tls_trust config = (if bool_decide (to_ca_bundle opts = []) then None else Some (to_ca_bundle opts))
  ∧ tls_client config = (if bool_decide (to_client_cert opts = []) then None else Some (to_client_cert opts, to_client_key opts))
  ∧ tls_sni config = (if bool_decide (to_sni_override opts = []) then host else to_sni_override opts)
  ∧ (to_insecure opts = false → tls_verify_peer config = true ∧ tls_verify_host config = Some (tls_sni config)).
Proof.
  unfold TlsHandshake. destruct (ctx_ok a); [|done]. cbn [negb].
  destruct (LoadSslCtxCredentials opts a) as [e|[[trust verify] client]] eqn:El; [done|].
  assert (trust = (if bool_decide (to_ca_bundle opts = []) then None else Some (to_ca_bundle opts)) ∧ verify = negb (to_insecure opts)
    ∧ client = if bool_decide (to_client_cert opts = []) then None else Some (to_client_cert opts, to_client_key opts)) as (-> & -> & ->).
  { revert El. unfold LoadSslCtxCredentials. repeat (case_match; try done); by intros [= <- <- <-]. }
  destruct (session_ok a); [|done]. destruct (bio_ok a); [|done]. cbn [negb].
  destruct (negb (to_insecure opts) && negb (host_ok a)); [done|].
  destruct (SslConnectLoop a (handshake a)) as [[e|]|] eqn:Es; [done| |done].
  destruct (selected_alpn a =s kAlpnH2) eqn:Ea; [|done]. intros [= <-]. cbn [tls_alpn tls_min_1_2 tls_trust tls_client tls_sni tls_verify_peer tls_verify_host].
  apply seqb_true in Ea. split_and!; try done; [|by intros ->].
  clear El. induction (handshake a) as [|r rest IH]; [done|]. cbn in Es. destruct r as [|late ready|]; [by exists [], rest|..|done].
  destruct (late || negb ready) eqn:Ew; [done|]. destruct (IH Es) as (waits & rest' & -> & Hw). exists (WantIo late ready :: waits), rest'.
  split; [done|]. constructor; [|done]. by destruct late, ready.
Qed.
Definition tls_ex_opts : TlsOptions := mkTlsOptions false $"ca.pem" [] [] $"collector.local".
Definition tls_ex_answers : TlsAnswers := mkTlsAnswers true true false false true true true [WantIo false true; HandshakeDone] None $"h2".
Definition tls_ex_config : TlsConfig := mkTls true (Some $"ca.pem") true None [kAlpnH2] $"collector.local" (Some $"collector.local").
Lemma tls_session_verified_witness : tls_verify_peer tls_ex_config = true ∧ tls_verify_host tls_ex_config = Some (tls_sni tls_ex_config).
Proof.
  assert (TlsHandshake tls_ex_opts $"10.0.0.7" tls_ex_answers = Some (inr tls_ex_config)) as E by reflexivity.
  pose proof (tls_session_verified tls_ex_opts $"10.0.0.7" tls_ex_answers tls_ex_config E) as (_ & _ & _ & _ & _ & _ & _ & H).
  exact (H eq_refl).
Defined.
