(* ===== verification/Http2.v ===== *)
(** * The HTTP/2 transport

    Model of [src/transport/http2_transport.cpp] from the HTTP/2 handshake on, as a
    transition system of the I/O thread ([IoThreadLoop], [OnIoEvent]), the caller of
    [Connect] and [Close], and any number of threads in [Send] and [Cancel].  [exec]
    is one step: at most one access to what threads share ([m_state], [m_stop], the
    two queues); [None] when the thread is blocked or the action does not apply.

    nghttp2 is what it does: an action that calls into it carries the callbacks it
    makes ([NgEvent]), the answer of [nghttp2_submit_request], the return value of
    [nghttp2_session_recv].  The reactor and the sockets are the events an action
    names.  A promise is a token; [kept] is the log of [set_value].  Reading the
    payload of a stream whose state is gone sets [dangling].

    [unordered_map]s are finite maps; their iteration order, which the code leaves
    open, is that of [map_to_list]. *)
From stdpp Require Import gmap list.
From S2P Require Import Prelude Data RetryEngine ProtoReader Wire Http2Connect.

(** ** State *)

Inductive ConnectionState := Disconnected | Connecting | Connected | Reconnecting | Closed.
#[export] Instance ConnectionState_eq_dec : EqDecision ConnectionState.
Proof. solve_decision. Defined.
Inductive ResponseOverflow := OverflowNone | OverflowBody | OverflowTrailers.
Record RequestSpec := mkSpec { rs_headers : list HeaderField; rs_payload : Bytes }.
Record PendingRequest := mkPending { pr_spec : RequestSpec; pr_promise : nat; pr_handle_id : Z }.
Record StreamState := mkStreamState {
  ss_spec : RequestSpec; payload_offset : nat; ss_promise : nat; ss_result : TransportResult; ss_handle_id : Z; trailer_bytes : Z; overflow : ResponseOverflow }.
Record Budgets := mkBudgets { m_max_response_bytes : Z; m_max_trailer_bytes : Z; m_max_pending_requests : Z }.
Definition default_budgets : Budgets := mkBudgets (2 ^ 20) (64 * 1024) 64.

(** What the callbacks of nghttp2 work on. *)
Record Conn := mkConn {
  m_goaway_received : bool; m_goaway_detail : str; m_settings_ack_received : bool; m_first_plaintext_recv : bool; m_peer_spoke_http1 : bool;
  m_peer_closed_on_send : bool; m_budgets : Budgets; m_streams : gmap Z StreamState; m_handle_to_stream : gmap Z Z;
  kept : list (nat * TransportResult); dangling : bool }.

Definition set_streams (s : gmap Z StreamState) (h : gmap Z Z) (c : Conn) : Conn :=
  mkConn (m_goaway_received c) (m_goaway_detail c) (m_settings_ack_received c) (m_first_plaintext_recv c) (m_peer_spoke_http1 c) (m_peer_closed_on_send c)
    (m_budgets c) s h (kept c) (dangling c).
(** [promise.set_value]. *)
Definition keep (promise : nat) (r : TransportResult) (c : Conn) : Conn :=
  mkConn (m_goaway_received c) (m_goaway_detail c) (m_settings_ack_received c) (m_first_plaintext_recv c) (m_peer_spoke_http1 c) (m_peer_closed_on_send c)
    (m_budgets c) (m_streams c) (m_handle_to_stream c) (kept c ++ [(promise, r)]) (dangling c).
Definition set_goaway (received : bool) (detail : str) (c : Conn) : Conn :=
  mkConn received detail (m_settings_ack_received c) (m_first_plaintext_recv c) (m_peer_spoke_http1 c) (m_peer_closed_on_send c)
    (m_budgets c) (m_streams c) (m_handle_to_stream c) (kept c) (dangling c).
Definition set_recv (ack first http1 closed : bool) (c : Conn) : Conn :=
  mkConn (m_goaway_received c) (m_goaway_detail c) ack first http1 closed
    (m_budgets c) (m_streams c) (m_handle_to_stream c) (kept c) (dangling c).
Definition set_budgets (b : Budgets) (c : Conn) : Conn :=
  mkConn (m_goaway_received c) (m_goaway_detail c) (m_settings_ack_received c) (m_first_plaintext_recv c) (m_peer_spoke_http1 c) (m_peer_closed_on_send c)
    b (m_streams c) (m_handle_to_stream c) (kept c) (dangling c).
Definition set_dangling (c : Conn) : Conn :=
  mkConn (m_goaway_received c) (m_goaway_detail c) (m_settings_ack_received c) (m_first_plaintext_recv c) (m_peer_spoke_http1 c) (m_peer_closed_on_send c)
    (m_budgets c) (m_streams c) (m_handle_to_stream c) (kept c) true.
Definition put_stream (id : Z) (s : StreamState) (c : Conn) : Conn := set_streams (<[id := s]> (m_streams c)) (m_handle_to_stream c) c.
(** Both [erase]s. *)
Definition erase_stream (id : Z) (s : StreamState) (c : Conn) : Conn :=
  set_streams (delete id (m_streams c)) (delete (ss_handle_id s) (m_handle_to_stream c)) c.

(** ** Results *)

Definition empty_result : TransportResult := mkTransportResult false [] [] [] None false false.
Definition failed_result (e : Error) : TransportResult := mkTransportResult false [] [] [] (Some e) false false.
Definition with_outcome (ok : bool) (e : option Error) (too_large : bool) (r : TransportResult) : TransportResult :=
  mkTransportResult ok (response_headers r) (response_trailers r) (response_bytes r) e too_large (transport_busy r).
Definition OversizedError (kind : ResponseOverflow) : Error :=
  mkError KMalformed (match kind with OverflowTrailers => $"response trailers exceed max_trailer_bytes" | _ => $"response exceeds max_response_bytes" end) 0.
Definition NGHTTP2_CANCEL := 8.
Definition no_overflow (o : ResponseOverflow) : bool := match o with OverflowNone => true | _ => false end.

(** [FulfillStream]: the result of a stream that closes with the given code. *)
Definition close_result (s : StreamState) (code : Z) : TransportResult :=
  let r := ss_result s in
  if negb (no_overflow (overflow s)) then with_outcome (tr_success r) (Some (OversizedError (overflow s))) true r
  else if code =? 0 then with_outcome true (tr_error r) (response_too_large r) r
  else if code =? NGHTTP2_CANCEL then with_outcome (tr_success r) (Some (mkError KCancelled $"request cancelled" 0)) (response_too_large r) r
  else with_outcome (tr_success r) (Some (network_error $"stream error")) (response_too_large r) r.
Definition FulfillStream (id code : Z) (c : Conn) : Conn :=
  match m_streams c !! id with
  | None => c
  | Some s => keep (ss_promise s) (close_result s code) (erase_stream id s c)
  end.

(** ** GOAWAY *)

Definition GoawayErrorName (code : Z) : str :=
  if code =? 0 then $"NO_ERROR" else if code =? 1 then $"PROTOCOL_ERROR" else if code =? 2 then $"INTERNAL_ERROR"
  else if code =? 11 then $"ENHANCE_YOUR_CALM" else $"unnamed".
Definition kGoawayDetailMax : nat := 96.
(** [snprintf] into the member buffer. *)
Definition goaway_detail (last_stream_id code : Z) : str :=
  take (kGoawayDetailMax - 1)
    ($"peer sent GOAWAY last_stream_id=" ++ to_string last_stream_id ++ $" error=" ++ to_string code ++ $" (" ++ GoawayErrorName code ++ $")").
Definition refuse_stream (c : Conn) (entry : Z * StreamState) : Conn :=
  let '(id, s) := entry in
  keep (ss_promise s) (with_outcome (tr_success (ss_result s)) (Some (network_error (m_goaway_detail c))) (response_too_large (ss_result s)) (ss_result s))
    (erase_stream id s c).
Definition RefuseStreamsAbove (last_stream_id : Z) (c : Conn) : Conn :=
  foldl refuse_stream c (filter (λ e, last_stream_id < e.1) (map_to_list (m_streams c))).
Definition OnGoaway (last_stream_id code : Z) (c : Conn) : Conn :=
  RefuseStreamsAbove last_stream_id (set_goaway true (goaway_detail last_stream_id code) c).

(** ** Responses *)

Definition set_result (r : TransportResult) (bytes : Z) (o : ResponseOverflow) (s : StreamState) : StreamState :=
  mkStreamState (ss_spec s) (payload_offset s) (ss_promise s) r (ss_handle_id s) bytes o.
(** The stream is also reset, which nghttp2 reports later by closing it. *)
Definition FailOversizedStream (kind : ResponseOverflow) (bytes : Z) (s : StreamState) : StreamState :=
  let r := ss_result s in
  set_result (mkTransportResult (tr_success r) (response_headers r) [] [] (tr_error r) (response_too_large r) (transport_busy r)) bytes kind s.
Definition header_on_stream (b : Budgets) (is_trailer : bool) (name value : str) (s : StreamState) : StreamState :=
  if negb (no_overflow (overflow s)) then s
  else
    let r := ss_result s in
    if is_trailer then
      let bytes := trailer_bytes s + (size name + size value) in
      if m_max_trailer_bytes b <? bytes then FailOversizedStream OverflowTrailers bytes s
      else set_result (mkTransportResult (tr_success r) (response_headers r) (response_trailers r ++ [mkHeaderField name value]) (response_bytes r) (tr_error r)
             (response_too_large r) (transport_busy r)) bytes (overflow s) s
    else set_result (mkTransportResult (tr_success r) (response_headers r ++ [mkHeaderField name value]) (response_trailers r) (response_bytes r) (tr_error r)
           (response_too_large r) (transport_busy r)) (trailer_bytes s) (overflow s) s.
Definition data_on_stream (b : Budgets) (data : Bytes) (s : StreamState) : StreamState :=
  if negb (no_overflow (overflow s)) then s
  else
    let r := ss_result s in
    if m_max_response_bytes b <? size (response_bytes r) + size data then FailOversizedStream OverflowBody (trailer_bytes s) s
    else set_result (mkTransportResult (tr_success r) (response_headers r) (response_trailers r) (response_bytes r ++ data) (tr_error r)
           (response_too_large r) (transport_busy r)) (trailer_bytes s) (overflow s) s.
Definition on_stream (f : StreamState → StreamState) (id : Z) (c : Conn) : Conn :=
  match m_streams c !! id with None => c | Some s => put_stream id (f s) c end.
Definition OnResponseHeader (id : Z) (is_trailer : bool) (name value : str) (c : Conn) : Conn := on_stream (header_on_stream (m_budgets c) is_trailer name value) id c.
Definition OnResponseData (id : Z) (data : Bytes) (c : Conn) : Conn := on_stream (data_on_stream (m_budgets c) data) id c.

(** [PayloadReadCb]: the bytes copied, whether it reports the end, the stream after. *)
Definition PayloadReadCb (length_ : nat) (s : StreamState) : Bytes * bool * StreamState :=
  let payload := rs_payload (ss_spec s) in
  let to_copy := Nat.min (length payload - payload_offset s) length_ in
  let offset := (payload_offset s + to_copy)%nat in
  (take to_copy (drop (payload_offset s) payload), (length payload <=? offset)%nat,
   mkStreamState (ss_spec s) offset (ss_promise s) (ss_result s) (ss_handle_id s) (trailer_bytes s) (overflow s)).

(** ** Sockets *)

(** [NgHttp2DoSend] failing with an errno other than [EAGAIN] on a plaintext socket. *)
Definition OnSendFailed (err : Z) (c : Conn) : Conn :=
  set_recv (m_settings_ack_received c) (m_first_plaintext_recv c) (m_peer_spoke_http1 c) ((err =? EPIPE) || (err =? ECONNRESET)) c.
(** [NgHttp2DoRecv] reading bytes from a plaintext socket, and [SniffHttp1Response]. *)
Definition SniffHttp1Response (buf : str) (c : Conn) : bool * Conn :=
  if negb (m_first_plaintext_recv c) then (false, c)
  else
    let http1 := starts_with buf $"HTTP/1." in
    (http1, set_recv (m_settings_ack_received c) false (m_peer_spoke_http1 c || http1) (m_peer_closed_on_send c) c).
Definition Http2HandshakeFailure (c : Conn) : Error :=
  if m_peer_spoke_http1 c then mkError KProtocol ($"peer answered the HTTP/2 preface with an HTTP/1.1 response - endpoint appears to be "
    ++ $"HTTP/1.1-only; use https:// (ALPN h2) or OTLP/gRPC; see docs/compatibility-matrix.md") 0
  else if m_peer_closed_on_send c then network_error $"peer closed the connection during the HTTP/2 handshake"
  else network_error $"nghttp2 recv failed during SETTINGS exchange".

(** ** Callbacks *)

Inductive NgEvent :=
| EvHeader (id : Z) (is_trailer : bool) (name value : str) | EvData (id : Z) (data : Bytes) | EvClose (id code : Z) | EvGoaway (last_stream_id code : Z)
| EvRead (id : Z) (length_ : nat) | EvSettingsAck | EvPlainRecv (buf : str) | EvSendFailed (err : Z).
Definition on_event (c : Conn) (e : NgEvent) : Conn :=
  match e with
  | EvHeader id is_trailer name value => OnResponseHeader id is_trailer name value c
  | EvData id data => OnResponseData id data c
  | EvClose id code => FulfillStream id code c
  | EvGoaway last code => OnGoaway last code c
  | EvRead id length_ => match m_streams c !! id with None => set_dangling c | Some s => put_stream id (PayloadReadCb length_ s).2 c end
  | EvSettingsAck => set_recv true (m_first_plaintext_recv c) (m_peer_spoke_http1 c) (m_peer_closed_on_send c) c
  | EvPlainRecv buf => (SniffHttp1Response buf c).2
  | EvSendFailed err => OnSendFailed err c
  end.
Definition run_events (events : list NgEvent) (c : Conn) : Conn := foldl on_event c events.

(** ** Threads *)

(** The I/O thread: the top of its loop, inside [WaitAndDispatch], entering
    [OnIoEvent] ([err], [rd]: the event mask), past the check of [m_state], about to
    publish [Reconnecting], about to retire the connection after a read, about to
    send; the gate of the loop, its drains, and the last step of a round. *)
Inductive IoPc :=
| IoTop | IoWait | IoEvent (err rd : bool) | IoHandle (err rd : bool) | IoStore | IoRetire | IoSend
| IoGate | IoDrain | IoSubmit (local : list PendingRequest) | IoCancel (local : list Z) | IoFinish | IoExited.
(** The caller of [Connect] and [Close], with the state [Connect] won from and the
    endpoint. *)
Inductive CallerPc :=
| CIdle | CParse (prior : ConnectionState) | CTcp (prior : ConnectionState) (ep : EndpointInfo) | CTls (prior : ConnectionState) (ep : EndpointInfo)
| CHandshake (prior : ConnectionState) | CSettings (prior : ConnectionState) | CRegister (prior : ConnectionState)
| CStop | CJoin | CFlush (in_time : bool).
Record ConnectOptions := mkConnectOptions { co_endpoint : str; co_tls : TlsOptions; co_budgets : Budgets }.
(** What the caller got back. *)
Inductive CallerResult := ConnectResult (e : option Error) | CloseResult (s : Status).

Record Transport := mkTransport {
  m_state : ConnectionState; m_stop : bool; m_io_done : bool; m_session : bool; m_pending_queue : list PendingRequest; m_cancel_queue : list Z;
  m_next_handle_id : Z; conn : Conn; io : IoPc; caller : CallerPc; submitting : list PendingRequest; promises : nat; returned : list CallerResult;
  opts : ConnectOptions }.
Definition Http2Transport_Create (o : ConnectOptions) : Transport :=
  mkTransport Disconnected false false false [] [] 1
    (mkConn false [] false false false false default_budgets ∅ ∅ [] false) IoTop CIdle [] 0 [] o.

Definition set_state (s : ConnectionState) (t : Transport) : Transport :=
  mkTransport s (m_stop t) (m_io_done t) (m_session t) (m_pending_queue t) (m_cancel_queue t) (m_next_handle_id t) (conn t) (io t) (caller t) (submitting t)
    (promises t) (returned t) (opts t).
Definition set_conn (c : Conn) (t : Transport) : Transport :=
  mkTransport (m_state t) (m_stop t) (m_io_done t) (m_session t) (m_pending_queue t) (m_cancel_queue t) (m_next_handle_id t) c (io t) (caller t) (submitting t)
    (promises t) (returned t) (opts t).
Definition set_io (p : IoPc) (t : Transport) : Transport :=
  mkTransport (m_state t) (m_stop t) (match p with IoExited => true | _ => m_io_done t end) (m_session t) (m_pending_queue t) (m_cancel_queue t)
    (m_next_handle_id t) (conn t) p (caller t) (submitting t) (promises t) (returned t) (opts t).
Definition set_caller (p : CallerPc) (t : Transport) : Transport :=
  mkTransport (m_state t) (m_stop t) (m_io_done t) (m_session t) (m_pending_queue t) (m_cancel_queue t) (m_next_handle_id t) (conn t) (io t) p (submitting t)
    (promises t) (returned t) (opts t).
Definition return_ (r : CallerResult) (t : Transport) : Transport :=
  mkTransport (m_state t) (m_stop t) (m_io_done t) (m_session t) (m_pending_queue t) (m_cancel_queue t) (m_next_handle_id t) (conn t) (io t) CIdle (submitting t)
    (promises t) (returned t ++ [r]) (opts t).
Definition set_queues (pending : list PendingRequest) (cancels : list Z) (t : Transport) : Transport :=
  mkTransport (m_state t) (m_stop t) (m_io_done t) (m_session t) pending cancels (m_next_handle_id t) (conn t) (io t) (caller t) (submitting t)
    (promises t) (returned t) (opts t).
Definition set_session (b : bool) (t : Transport) : Transport :=
  mkTransport (m_state t) (m_stop t) (m_io_done t) b (m_pending_queue t) (m_cancel_queue t) (m_next_handle_id t) (conn t) (io t) (caller t) (submitting t)
    (promises t) (returned t) (opts t).
Definition set_stop (t : Transport) : Transport :=
  mkTransport (m_state t) true (m_io_done t) (m_session t) (m_pending_queue t) (m_cancel_queue t) (m_next_handle_id t) (conn t) (io t) (caller t) (submitting t)
    (promises t) (returned t) (opts t).
Definition set_opts (o : ConnectOptions) (t : Transport) : Transport :=
  mkTransport (m_state t) (m_stop t) (m_io_done t) (m_session t) (m_pending_queue t) (m_cancel_queue t) (m_next_handle_id t) (conn t) (io t) (caller t) (submitting t)
    (promises t) (returned t) o.

(** ** [Send] and [Cancel] *)

Definition RefuseRequest (e : Error) (busy : bool) : TransportResult := mkTransportResult false [] [] [] (Some e) false busy.
Definition not_connected : Error := network_error $"not connected".
Definition queue_full : Error := mkError KResourceExhausted $"transport request queue full (max_pending_requests)" 0.
(** Up to the lock: a promise is made, and answered or taken to the queue. *)
Definition Send (spec : RequestSpec) (t : Transport) : Transport :=
  if bool_decide (m_state t = Connected)
  then mkTransport (m_state t) (m_stop t) (m_io_done t) (m_session t) (m_pending_queue t) (m_cancel_queue t) (to_uint 64 (m_next_handle_id t + 1)) (conn t) (io t)
         (caller t) (submitting t ++ [mkPending spec (promises t) (m_next_handle_id t)]) (S (promises t)) (returned t) (opts t)
  else mkTransport (m_state t) (m_stop t) (m_io_done t) (m_session t) (m_pending_queue t) (m_cancel_queue t) (m_next_handle_id t)
         (keep (promises t) (RefuseRequest not_connected false) (conn t)) (io t) (caller t) (submitting t) (S (promises t)) (returned t) (opts t).
(** Under the lock: the [i]-th of the threads waiting for it. *)
Definition Send_enqueue (i : nat) (t : Transport) : option Transport :=
  req ← submitting t !! i;
  let rest := delete i (submitting t) in
  let full := m_max_pending_requests (m_budgets (conn t)) <=? size (m_pending_queue t) in
  Some (mkTransport (m_state t) (m_stop t) (m_io_done t) (m_session t) (if full then m_pending_queue t else m_pending_queue t ++ [req]) (m_cancel_queue t)
    (m_next_handle_id t) (if full then keep (pr_promise req) (RefuseRequest queue_full true) (conn t) else conn t) (io t) (caller t) rest
    (promises t) (returned t) (opts t)).
Definition Cancel (handle : Z) (t : Transport) : Transport :=
  if handle =? 0 then t else set_queues (m_pending_queue t) (m_cancel_queue t ++ [handle]) t.

(** ** The I/O thread *)

Definition abandoned (message : str) : TransportResult := failed_result (mkError KCancelled message 0).
Definition AbandonInFlight (message : str) (c : Conn) : Conn :=
  let c := foldl (λ c e, keep (ss_promise e.2) (abandoned message) c) c (map_to_list (m_streams c)) in
  set_streams ∅ ∅ c.
(** [SubmitStream] with the answer of [nghttp2_submit_request]; what the send that
    follows calls back is in the action. *)
Definition SubmitStream (req : PendingRequest) (stream_id : Z) (c : Conn) : Conn :=
  if stream_id <? 0 then keep (pr_promise req) (failed_result (network_error $"nghttp2_submit_request failed")) c
  else set_streams (<[stream_id := mkStreamState (pr_spec req) 0 (pr_promise req) empty_result (pr_handle_id req) 0 OverflowNone]> (m_streams c))
         (<[pr_handle_id req := stream_id]> (m_handle_to_stream c)) c.
(** [FinishGoawayDrainIfIdle]: whether this call retired the connection. *)
Definition retires (t : Transport) : bool :=
  m_goaway_received (conn t) && bool_decide (m_streams (conn t) = ∅) && bool_decide (m_state t = Connected).

Inductive Action :=
| ASend (spec : RequestSpec) | AEnqueue (i : nat) | ACancel (handle : Z)
| AIo                                                     (* the I/O thread's next step, no answer needed *)
| AReady (err rd : bool) | AIdle                          (* an event to dispatch, or none left *)
| ARecv (events : list NgEvent) (rv : Z)                  (* nghttp2_session_recv *)
| AFlush (events : list NgEvent)                          (* nghttp2_session_send, in the callback or for a cancel *)
| ASubmit (stream_id : Z) (events : list NgEvent)         (* nghttp2_submit_request, then the send *)
| AConnect (o : ConnectOptions) | ACaller | AResolved (attempts : option (list AddressAttempt)) | ATls (a : TlsAnswers)
| ASession (ok : bool) (events : list NgEvent)            (* a new session; its preface is sent *)
| ARound (late : bool) (events : list NgEvent) (rv : Z)   (* one round of the SETTINGS loop *)
| ARegister (ok : bool) | AClose | AJoined (in_time : bool).

Definition NGHTTP2_ERR_WOULDBLOCK := -504.
Definition io_step (t : Transport) : option Transport :=
  match io t with
  | IoTop => Some (set_io (if m_stop t then IoExited else IoWait) t)
  | IoEvent err rd => Some (set_io (if bool_decide (m_state t = Connected) then IoHandle err rd else IoWait) t)
  | IoHandle true _ => Some (set_io IoStore (set_conn (AbandonInFlight $"connection lost" (conn t)) t))
  | IoHandle false false => Some (set_io IoSend t)
  | IoStore => Some (set_io IoWait (set_state Reconnecting t))
  | IoRetire => Some (if retires t then set_io IoWait (set_state Reconnecting t) else set_io IoSend t)
  | IoGate => Some (set_io (if bool_decide (m_state t = Connected) && m_session t then IoDrain else IoTop) t)
  | IoDrain => Some (set_io (IoSubmit (m_pending_queue t)) (set_queues [] (m_cancel_queue t) t))
  | IoSubmit [] => Some (set_io (IoCancel (m_cancel_queue t)) (set_queues (m_pending_queue t) [] t))
  | IoCancel [] => Some (set_io IoFinish t)
  | IoCancel (h :: rest) => match m_handle_to_stream (conn t) !! h with None => Some (set_io (IoCancel rest) t) | Some _ => None end
  | IoFinish => Some (set_io IoTop (if retires t then set_state Reconnecting t else t))
  | _ => None
  end.
(** [session_recv] and [session_send] on the I/O thread. *)
Definition io_recv (events : list NgEvent) (rv : Z) (t : Transport) : option Transport :=
  match io t with
  | IoHandle false true =>
      let c := run_events events (conn t) in
      Some (if rv =? 0 then set_io IoRetire (set_conn c t) else set_io IoStore (set_conn (AbandonInFlight $"connection lost" c) t))
  | _ => None
  end.
Definition io_flush (events : list NgEvent) (t : Transport) : option Transport :=
  match io t with
  | IoSend => Some (set_io IoWait (set_conn (run_events events (conn t)) t))
  | IoCancel (h :: rest) =>
      match m_handle_to_stream (conn t) !! h with Some _ => Some (set_io (IoCancel rest) (set_conn (run_events events (conn t)) t)) | None => None end
  | _ => None
  end.
Definition io_submit (stream_id : Z) (events : list NgEvent) (t : Transport) : option Transport :=
  match io t with
  | IoSubmit (req :: rest) =>
      let c := SubmitStream req stream_id (conn t) in
      Some (set_io (IoSubmit rest) (set_conn (if stream_id <? 0 then c else run_events events c) t))
  | _ => None
  end.

(** ** [Connect] and [Close] *)

(** The rollback of [Connect]. *)
Definition fail_connect (prior : ConnectionState) (e : Error) (t : Transport) : Transport :=
  return_ (ConnectResult (Some e)) (set_state prior (set_session false t)).
Definition connect (o : ConnectOptions) (t : Transport) : option Transport :=
  match caller t with
  | CIdle =>
      Some match m_state t with
           | Disconnected | Reconnecting =>
               set_caller (CParse (m_state t)) (set_state Connecting (set_opts o (set_conn (set_budgets (co_budgets o) (conn t)) t)))
           | Closed => return_ (ConnectResult (Some (network_error $"transport is closed"))) t
           | _ => return_ (ConnectResult (Some (network_error $"already connecting"))) t
           end
  | _ => None
  end.
Section os.
Context (errno_text : Z → str).
Definition caller_step (t : Transport) : option Transport :=
  match caller t with
  | CParse prior =>
      Some match ParseEndpoint (co_endpoint (opts t)) (to_insecure (co_tls (opts t))) with
           | inl e => fail_connect prior e t
           | inr ep => set_caller (CTcp prior ep) t
           end
  | CStop => Some (set_caller CJoin (set_stop t))
  | CFlush in_time =>
      let c := foldl (λ c req, keep (pr_promise req) (abandoned $"transport closed") c) (conn t) (m_pending_queue t) in
      Some (return_ (CloseResult (if in_time then Completed else TimedOut)) (set_session false (set_conn c (set_queues [] (m_cancel_queue t) t))))
  | _ => None
  end.
Definition connect_tcp (attempts : option (list AddressAttempt)) (t : Transport) : option Transport :=
  match caller t with
  | CTcp prior ep =>
      Some match TcpConnect errno_text attempts with
           | Some e => fail_connect prior e t
           | None => set_caller (if ep_use_tls ep then CTls prior ep else CHandshake prior) t
           end
  | _ => None
  end.
Definition connect_tls (a : TlsAnswers) (t : Transport) : option Transport :=
  match caller t with
  | CTls prior ep =>
      match TlsHandshake (co_tls (opts t)) (ep_host ep) a with
      | None => None
      | Some (inl e) => Some (fail_connect prior e t)
      | Some (inr _) => Some (set_caller (CHandshake prior) t)
      end
  | _ => None
  end.
(** [Http2Handshake] up to its loop, and a round of the loop. *)
Definition open_session (ok : bool) (events : list NgEvent) (t : Transport) : option Transport :=
  match caller t with
  | CHandshake prior =>
      let c := set_recv (m_settings_ack_received (conn t)) true false false (set_goaway false (m_goaway_detail (conn t)) (conn t)) in
      let c' := run_events events c in
      Some (if ok then set_caller (CSettings prior) (set_conn (set_recv false (m_first_plaintext_recv c') (m_peer_spoke_http1 c') (m_peer_closed_on_send c') c') t)
            else fail_connect prior (mkError KInternalFailure $"nghttp2_session_client_new failed" 0) (set_conn c t))
  | _ => None
  end.
Definition settings_round (late : bool) (events : list NgEvent) (rv : Z) (t : Transport) : option Transport :=
  match caller t with
  | CSettings prior =>
      if m_settings_ack_received (conn t) then Some (set_caller (CRegister prior) (set_session true t))
      else if late then Some (fail_connect prior (mkError KCancelled $"SETTINGS ACK timeout" 0) t)
      else
        let c := run_events events (conn t) in
        Some (if negb (m_settings_ack_received c) && negb (rv =? 0) && negb (rv =? NGHTTP2_ERR_WOULDBLOCK)
              then fail_connect prior (Http2HandshakeFailure c) (set_conn c t) else set_conn c t)
  | _ => None
  end.
Definition register (ok : bool) (t : Transport) : option Transport :=
  match caller t with
  | CRegister prior =>
      Some (if ok then return_ (ConnectResult None) (set_state Connected t) else fail_connect prior (mkError KInternalFailure $"reactor register failed" 0) t)
  | _ => None
  end.
Definition close (t : Transport) : option Transport :=
  match caller t with
  | CIdle => Some (if bool_decide (m_state t = Closed) then return_ (CloseResult AlreadyShutDown) t else set_caller CStop (set_state Closed t))
  | _ => None
  end.
Definition join (in_time : bool) (t : Transport) : option Transport :=
  match caller t, io t with
  | CJoin, IoExited => Some (set_caller (CFlush in_time) (set_conn (AbandonInFlight $"transport closed" (conn t)) t))
  | _, _ => None
  end.

Definition exec (a : Action) (t : Transport) : option Transport :=
  match a with
  | ASend spec => Some (Send spec t)
  | AEnqueue i => Send_enqueue i t
  | ACancel handle => Some (Cancel handle t)
  | AIo => io_step t
  | AReady err rd => match io t with IoWait => Some (set_io (IoEvent err rd) t) | _ => None end
  | AIdle => match io t with IoWait => Some (set_io IoGate t) | _ => None end
  | ARecv events rv => io_recv events rv t
  | AFlush events => io_flush events t
  | ASubmit stream_id events => io_submit stream_id events t
  | AConnect o => connect o t
  | ACaller => caller_step t
  | AResolved attempts => connect_tcp attempts t
  | ATls answers => connect_tls answers t
  | ASession ok events => open_session ok events t
  | ARound late events rv => settings_round late events rv t
  | ARegister ok => register ok t
  | AClose => close t
  | AJoined in_time => join in_time t
  end.
Definition exec_all (actions : list Action) (t : Transport) : option Transport := foldl (λ t a, t ≫= exec a) (Some t) actions.
End os.
