(* ===== verification/Http2Spec.v ===== *)
(** * The HTTP/2 transport keeps its promises

    Theorems about [Http2.v], for every interleaving of the I/O thread, the caller of
    Connect and Close, and the threads in Send and Cancel.  What is assumed of nghttp2
    is [ng_action]: it hands out increasing stream ids in a session, it reads the
    payload of a stream only between its submission and its closing, and a GOAWAY
    closes the streams above its last id.

    Promises are kept once and none is lost; payloads are read only from streams that
    exist; Connect has the session to itself; after Close every accepted request is
    answered; a response is what the peer sent, within its memory budget. *)
From stdpp Require Import gmap list.
From S2P Require Import Prelude Data RetryEngine ProtoReader Wire Http2Connect Http2.

(** ** What nghttp2 promises *)

Record Ng := mkNg { ng_open : gset Z; ng_last : Z }.
Definition ng_event (g : Ng) (e : NgEvent) : option Ng :=
  match e with
  | EvRead id _ => if bool_decide (id ∈ ng_open g) then Some g else None
  | EvClose id _ => Some (mkNg (ng_open g ∖ {[id]}) (ng_last g))
  | EvGoaway last _ => Some (mkNg (filter (λ id, id <= last) (ng_open g)) (ng_last g))
  | _ => Some g
  end.
Definition ng_events (events : list NgEvent) (g : Ng) : option Ng := foldl (λ g e, g ≫= λ g, ng_event g e) (Some g) events.
Definition ng_action (g : Ng) (a : Action) : option Ng :=
  match a with
  | ARecv events _ | AFlush events | ARound _ events _ => ng_events events g
  | ASubmit id events => if id <? 0 then Some g else if ng_last g <? id then ng_events events (mkNg (ng_open g ∪ {[id]}) id) else None
  | ASession _ events => ng_events events (mkNg ∅ 0)
  | _ => Some g
  end.
Definition ng_new : Ng := mkNg ∅ 0.
Definition ng_run (actions : list Action) (g : Ng) : option Ng := foldl (λ g a, g ≫= λ g, ng_action g a) (Some g) actions.

(** ** Callbacks *)

Definition promises_of (m : gmap Z StreamState) : list nat := (λ e, ss_promise e.2) <$> map_to_list m.
Definition tokens (c : Conn) : list nat := promises_of (m_streams c) ++ (kept c).*1.
Lemma promises_of_delete m id s : m !! id = Some s → ss_promise s :: promises_of (delete id m) ≡ₚ promises_of m.
Proof. intros H. unfold promises_of. by rewrite <- (map_to_list_delete _ _ _ H). Qed.
Lemma promises_of_insert m id s : m !! id = None → promises_of (<[id := s]> m) ≡ₚ ss_promise s :: promises_of m.
Proof. intros H. unfold promises_of. by rewrite (map_to_list_insert _ _ _ H). Qed.
Lemma promises_of_update m id s s' : m !! id = Some s → ss_promise s' = ss_promise s → promises_of (<[id := s']> m) ≡ₚ promises_of m.
Proof.
  intros H E. rewrite <- insert_delete_eq. rewrite promises_of_insert by apply lookup_delete_eq. rewrite E. by apply promises_of_delete.
Qed.
Lemma promises_of_empty m : promises_of m ≡ₚ [] → m = ∅.
Proof. intros H. apply map_to_list_empty_iff. apply Permutation_nil_r in H. by apply fmap_nil_inv in H. Qed.

(** One stream leaves with its promise kept. *)
Lemma tokens_keep_erase id s r c : m_streams c !! id = Some s → tokens (keep (ss_promise s) r (erase_stream id s c)) ≡ₚ tokens c.
Proof.
  intros H. unfold tokens. cbn [keep erase_stream set_streams m_streams kept]. rewrite fmap_app. cbn.
  rewrite <- (promises_of_delete _ _ _ H), app_assoc, <- Permutation_cons_append. done.
Qed.
Lemma tokens_update id s s' c : m_streams c !! id = Some s → ss_promise s' = ss_promise s → tokens (put_stream id s' c) ≡ₚ tokens c.
Proof. intros H E. unfold tokens. cbn [put_stream set_streams m_streams kept]. by rewrite (promises_of_update _ _ _ _ H E). Qed.

(** *** GOAWAY *)

Definition refused (detail : str) (s : StreamState) : TransportResult :=
  with_outcome (tr_success (ss_result s)) (Some (network_error detail)) (response_too_large (ss_result s)) (ss_result s).
Lemma refuse_fold l : ∀ c, NoDup l.*1 → (∀ e, e ∈ l → m_streams c !! e.1 = Some e.2) →
  let c' := foldl refuse_stream c l in
  (∀ id, m_streams c' !! id = if bool_decide (id ∈ l.*1) then None else m_streams c !! id)
  ∧ kept c' = kept c ++ ((λ e, (ss_promise e.2, refused (m_goaway_detail c) e.2)) <$> l)
  ∧ tokens c' ≡ₚ tokens c ∧ dangling c' = dangling c ∧ m_budgets c' = m_budgets c ∧ m_goaway_received c' = m_goaway_received c.
Proof.
  induction l as [|[id s] l IH]; intros c Hnd Hl; cbn [foldl].
  { split_and!; try done. by rewrite app_nil_r. }
  apply NoDup_cons in Hnd as [Hid Hnd]. pose proof (Hl (id, s) (list_elem_of_here _ _)) as Hs. cbn in Hs.
  destruct (IH (refuse_stream c (id, s)) Hnd) as (H1 & H2 & H3 & H4 & H5 & H6).
  { intros [id' s'] He. cbn [refuse_stream keep erase_stream set_streams m_streams fst snd]. rewrite lookup_delete_ne; [by apply (Hl (id', s')); right|].
    intros ->. apply Hid. by apply (list_elem_of_fmap_2 fst l (id', s')). }
  split_and!; try done.
  - intros id'. rewrite H1. cbn [refuse_stream keep erase_stream set_streams m_streams]. rewrite fmap_cons.
    destruct (decide (id' ∈ l.*1)) as [Hin|Hin]; [by rewrite !bool_decide_true by (done || by right)|]. rewrite (bool_decide_false _ Hin).
    destruct (decide (id' = id)) as [->|Hne]; [by rewrite lookup_delete_eq, bool_decide_true by left|].
    rewrite lookup_delete_ne by done. rewrite bool_decide_false; [done|]. by intros [?|?]%elem_of_cons.
  - rewrite H2. cbn [refuse_stream keep erase_stream set_streams kept m_goaway_detail]. by rewrite <- app_assoc.
  - rewrite H3. by apply tokens_keep_erase.
Qed.
Lemma above_entries last (m : gmap Z StreamState) :
  NoDup (filter (λ e : Z * StreamState, last < e.1) (map_to_list m)).*1
  ∧ (∀ e, e ∈ filter (λ e : Z * StreamState, last < e.1) (map_to_list m) ↔ last < e.1 ∧ m !! e.1 = Some e.2).
Proof.
  split.
  - eapply sublist_NoDup; [apply (NoDup_fst_map_to_list m)|]. apply fmap_sublist, sublist_filter.
  - intros [id s]. rewrite list_elem_of_filter, elem_of_map_to_list. done.
Qed.
Lemma OnGoaway_streams last code c id :
  m_streams (OnGoaway last code c) !! id = if last <? id then None else m_streams c !! id.
Proof.
  unfold OnGoaway, RefuseStreamsAbove. set (c0 := set_goaway _ _ c). destruct (above_entries last (m_streams c0)) as [Hnd Hin].
  destruct (refuse_fold _ c0 Hnd ltac:(intros e He; by apply Hin)) as [-> _]. change (m_streams c0) with (m_streams c). case_bool_decide as Hd.
  - apply list_elem_of_fmap_1 in Hd as ([id' s] & -> & [Hl _]%Hin). cbn in *. by apply Z.ltb_lt in Hl as ->.
  - destruct (last <? id) eqn:E; [|done]. apply Z.ltb_lt in E. destruct (m_streams c !! id) as [s|] eqn:Es; [|done].
    exfalso. apply Hd. apply (list_elem_of_fmap_2 fst _ (id, s)). by apply Hin.
Qed.
Lemma OnGoaway_tokens last code c : tokens (OnGoaway last code c) ≡ₚ tokens c ∧ dangling (OnGoaway last code c) = dangling c ∧ m_budgets (OnGoaway last code c) = m_budgets c.
Proof.
  unfold OnGoaway, RefuseStreamsAbove. set (c0 := set_goaway _ _ c). destruct (above_entries last (m_streams c0)) as [Hnd Hin].
  destruct (refuse_fold _ c0 Hnd ltac:(intros e He; by apply Hin)) as (_ & _ & H3 & H4 & H5 & _). by rewrite H3, H4, H5.
Qed.

(** *** What every callback keeps *)

Lemma on_stream_tokens f id c : (∀ s, ss_promise (f s) = ss_promise s) → tokens (on_stream f id c) ≡ₚ tokens c.
Proof. intros H. unfold on_stream. destruct (m_streams c !! id) eqn:E; [|done]. by apply (tokens_update _ _ _ _ E). Qed.
Lemma header_promise b tr name value s : ss_promise (header_on_stream b tr name value s) = ss_promise s.
Proof. unfold header_on_stream. by repeat case_match. Qed.
Lemma data_promise b data s : ss_promise (data_on_stream b data s) = ss_promise s.
Proof. unfold data_on_stream. by repeat case_match. Qed.
Lemma on_event_tokens c e : tokens (on_event c e) ≡ₚ tokens c.
Proof.
  destruct e as [id tr name value|id data|id code|last code|id len| |buf|err]; cbn [on_event].
  - apply on_stream_tokens. apply header_promise.
  - apply on_stream_tokens. apply data_promise.
  - unfold FulfillStream. destruct (m_streams c !! id) eqn:E; [|done]. by apply tokens_keep_erase.
  - apply OnGoaway_tokens.
  - destruct (m_streams c !! id) as [s|] eqn:E; [|done]. by apply (tokens_update _ _ _ _ E).
  - done.
  - unfold SniffHttp1Response. by destruct (m_first_plaintext_recv c).
  - done.
Qed.
Lemma run_events_cons e events c : run_events (e :: events) c = run_events events (on_event c e).
Proof. done. Qed.
Lemma run_events_tokens events c : tokens (run_events events c) ≡ₚ tokens c.
Proof. revert c. induction events as [|e events IH]; intros c; [done|]. by rewrite run_events_cons, IH, on_event_tokens. Qed.

Record wf_conn (g : Ng) (c : Conn) : Prop := {
  wc_open : ∀ id, id ∈ ng_open g → is_Some (m_streams c !! id);
  wc_last : ∀ id s, m_streams c !! id = Some s → id <= ng_last g;
  wc_dangling : dangling c = false
}.
Lemma on_stream_lookup f id c id' : m_streams (on_stream f id c) !! id' = if bool_decide (id' = id) then f <$> m_streams c !! id else m_streams c !! id'.
Proof.
  unfold on_stream. destruct (m_streams c !! id) as [s|] eqn:E.
  - cbn [put_stream set_streams m_streams]. case_bool_decide as H; [subst; by rewrite lookup_insert_eq|by rewrite lookup_insert_ne].
  - case_bool_decide as H; [by subst|done].
Qed.
Lemma wf_on_stream g f id c : wf_conn g c → wf_conn g (on_stream f id c).
Proof.
  intros [Ho Hl Hd]. split.
  - intros id' Hin. rewrite on_stream_lookup. case_bool_decide as H; [subst; destruct (Ho _ Hin) as [s ->]; by eexists|by apply Ho].
  - intros id' s. rewrite on_stream_lookup. case_bool_decide as H; [|by apply Hl]. subst. intros (s' & Hs & _)%fmap_Some. by eapply Hl.
  - unfold on_stream. by destruct (m_streams c !! id).
Qed.
Lemma on_event_wf g g' c e : wf_conn g c → ng_event g e = Some g' → wf_conn g' (on_event c e).
Proof.
  intros W. pose proof W as [Ho Hl Hd]. destruct e as [id tr name value|id data|id code|last code|id len| |buf|err]; cbn [ng_event on_event].
  - intros [= <-]. by apply wf_on_stream.
  - intros [= <-]. by apply wf_on_stream.
  - intros [= <-]. unfold FulfillStream. destruct (m_streams c !! id) as [s|] eqn:Es.
    + split; cbn [keep erase_stream set_streams m_streams dangling ng_open ng_last]; [| |done].
      * intros id' [Hin Hne]%elem_of_difference. rewrite lookup_delete_ne by set_solver. by apply Ho.
      * intros id' s'. rewrite lookup_delete_Some. intros [_ H]. by eapply Hl.
    + split; cbn [ng_open ng_last]; [|done|done]. intros id' [Hin _]%elem_of_difference. by apply Ho.
  - intros [= <-]. pose proof (OnGoaway_tokens last code c) as (_ & Hdd & _). split; cbn [ng_open ng_last]; [| |by rewrite Hdd].
    + intros id. rewrite elem_of_filter. intros [Hle Hin]. rewrite OnGoaway_streams. assert ((last <? id) = false) as -> by lia. by apply Ho.
    + intros id s. rewrite OnGoaway_streams. destruct (last <? id); [done|]. apply Hl.
  - case_bool_decide as Hin; [|done]. intros [= <-]. destruct (Ho _ Hin) as [s Es]. rewrite Es.
    pose proof (wf_on_stream g (λ s, (PayloadReadCb len s).2) id c W) as W'. unfold on_stream in W'. by rewrite Es in W'.
  - intros [= <-]. by split.
  - intros [= <-]. unfold SniffHttp1Response. destruct (m_first_plaintext_recv c); by split.
  - intros [= <-]. by split.
Qed.
Lemma run_events_wf events : ∀ g g' c, wf_conn g c → ng_events events g = Some g' → wf_conn g' (run_events events c).
Proof.
  induction events as [|e events IH] using rev_ind; intros g g' c W; [by intros [= <-]|]. unfold ng_events, run_events. rewrite !foldl_app. cbn [foldl].
  fold (ng_events events g). fold (run_events events c). destruct (ng_events events g) as [g1|] eqn:E; cbn [mbind option_bind]; [|done].
  apply on_event_wf. by apply (IH g).
Qed.
Lemma ng_events_empty events g g' : ng_events events g = Some g' → ng_open g = ∅ → ng_open g' = ∅.
Proof.
  intros E H0. revert g' E. induction events as [|e events IH] using rev_ind; intros g'; [by intros [= <-]|]. unfold ng_events. rewrite foldl_app. cbn [foldl].
  fold (ng_events events g). destruct (ng_events events g) as [g1|]; cbn [mbind option_bind]; [|done]. specialize (IH _ eq_refl).
  destruct e; cbn [ng_event]; try (by intros [= <-]); try (intros [= <-]; cbn; set_solver). intros E. case_bool_decide; [by injection E as <-|done].
Qed.
(** Callbacks open no stream. *)
Lemma run_events_streams events c id : m_streams c !! id = None → m_streams (run_events events c) !! id = None.
Proof.
  revert c. induction events as [|e events IH]; intros c H; [done|]. rewrite run_events_cons. apply IH.
  destruct e as [id' tr name value|id' data|id' code|last code|id' len| |buf|err]; cbn [on_event]; try done.
  - unfold OnResponseHeader. rewrite on_stream_lookup. case_bool_decide; [subst; by rewrite H|done].
  - unfold OnResponseData. rewrite on_stream_lookup. case_bool_decide; [subst; by rewrite H|done].
  - unfold FulfillStream. destruct (m_streams c !! id') eqn:E; [|done]. cbn. apply lookup_delete_None. by right.
  - rewrite OnGoaway_streams. by destruct (last <? id).
  - destruct (m_streams c !! id') eqn:E; [|done]. cbn. rewrite lookup_insert_ne; [done|congruence].
  - unfold SniffHttp1Response. by destruct (m_first_plaintext_recv c).
Qed.
Lemma run_events_no_streams events c : m_streams c = ∅ → m_streams (run_events events c) = ∅.
Proof. intros H. apply map_empty. intros id. apply run_events_streams. by rewrite H. Qed.
Lemma tokens_no_streams c c' : m_streams c = ∅ → m_streams c' = ∅ → tokens c ≡ₚ tokens c' → (kept c).*1 ≡ₚ (kept c').*1.
Proof. intros H H'. unfold tokens. by rewrite H, H'. Qed.

Lemma abandon_tokens message c : tokens (AbandonInFlight message c) ≡ₚ tokens c ∧ m_streams (AbandonInFlight message c) = ∅ ∧ dangling (AbandonInFlight message c) = dangling c.
Proof.
  unfold AbandonInFlight. set (fold := foldl _ c _).
  assert (∀ l c0, let c' := foldl (λ c e, keep (ss_promise e.2) (abandoned message) c) c0 l in
    (kept c').*1 = (kept c0).*1 ++ ((λ e : Z * StreamState, ss_promise e.2) <$> l) ∧ dangling c' = dangling c0) as H.
  { intros l. induction l as [|e l IH]; intros c0; cbn; [by rewrite app_nil_r|]. destruct (IH (keep (ss_promise e.2) (abandoned message) c0)) as [H1 H2].
    rewrite H1, H2. cbn [keep kept dangling]. rewrite fmap_app, <- app_assoc. done. }
  destruct (H (map_to_list (m_streams c)) c) as [H1 H2]. fold fold in H1, H2. split; [|done].
  unfold tokens. cbn [set_streams m_streams kept]. rewrite H1. unfold promises_of. rewrite map_to_list_empty. cbn. apply Permutation_app_comm.
Qed.

(** ** The invariant *)

Definition local_of (p : IoPc) : list PendingRequest := match p with IoSubmit local => local | _ => [] end.
(** Where a promise can be: with a thread in Send, in the queue, with the I/O thread,
    on a stream, or kept. *)
Definition issued (t : Transport) : list nat :=
  (pr_promise <$> submitting t) ++ (pr_promise <$> m_pending_queue t) ++ (pr_promise <$> local_of (io t)) ++ tokens (conn t).
(** The I/O thread is between the check of [m_state] and the end of its use of the
    session. *)
Definition uses_session (p : IoPc) : bool :=
  match p with IoHandle _ _ | IoRetire | IoSend | IoDrain | IoSubmit _ | IoCancel _ | IoFinish => true | _ => false end.
Definition live (t : Transport) : Prop := uses_session (io t) = true ∨ m_state t = Connected ∧ io t ≠ IoStore.
Definition caller_ok (t : Transport) : Prop :=
  match caller t with
  | CIdle => m_state t ≠ Connecting
  | CStop | CJoin => m_state t = Closed ∨ m_state t = Reconnecting
  | CFlush _ => (m_state t = Closed ∨ m_state t = Reconnecting) ∧ io t = IoExited ∧ m_streams (conn t) = ∅
  | CParse prior | CTcp prior _ | CTls prior _ | CHandshake prior | CSettings prior | CRegister prior =>
      m_state t = Connecting ∧ (prior = Disconnected ∨ prior = Reconnecting)
  end.
Definition settled (g : Ng) (t : Transport) : Prop := match caller t with CSettings _ | CRegister _ => ng_open g = ∅ | _ => True end.
Record inv (g : Ng) (t : Transport) : Prop := {
  i_tokens : issued t ≡ₚ seq 0 (promises t);
  i_idle : m_state t ≠ Connected → m_state t ≠ Closed → m_streams (conn t) = ∅ ∧ uses_session (io t) = false;
  i_store : io t = IoStore → m_streams (conn t) = ∅ ∧ (m_state t = Connected ∨ m_state t = Closed);
  i_caller : caller_ok t;
  i_live : live t → wf_conn g (conn t);
  i_settled : settled g t;
  i_dangling : dangling (conn t) = false
}.

(** Permutations of lists of promises, by counting. *)
Lemma perm_count (l l' : list nat) : l ≡ₚ l' ↔ ∀ x, count_occ Nat.eq_dec l x = count_occ Nat.eq_dec l' x.
Proof. apply Permutation_count_occ. Qed.
Ltac count_perm :=
  unfold issued in *; cbn [local_of] in *;
  repeat match goal with H : _ ≡ₚ _ |- _ => rewrite perm_count in H end;
  apply perm_count; let x := fresh "x" in intros x;
  repeat match goal with H : ∀ y : nat, count_occ _ _ y = _ |- _ => specialize (H x) end;
  repeat (rewrite ?fmap_app, ?count_occ_app in *; cbn [fmap list_fmap count_occ local_of pr_promise] in *);
  repeat case_match; try lia.

Lemma seq_snoc n : seq 0 (S n) = seq 0 n ++ [n].
Proof. by rewrite seq_S. Qed.
Lemma wf_dangling g c : wf_conn g c → dangling c = false.
Proof. by intros []. Qed.
Lemma wf_empty g c : m_streams c = ∅ → ng_open g = ∅ → dangling c = false → wf_conn g c.
Proof. intros Hs Hg Hd. split; [by rewrite Hg; intros id Hin%elem_of_empty| |done]. intros id s. by rewrite Hs, lookup_empty. Qed.

(** Steps that leave the streams, the state and the promises alone. *)
Lemma inv_io g t p : inv g t → local_of p = local_of (io t) →
  (uses_session p = true → live t ∧ (m_state t = Connected ∨ m_state t = Closed)) → p ≠ IoStore → (io t = IoStore → m_state t ≠ Connected) → (io t = IoExited → p = IoExited) →
  inv g (set_io p t).
Proof.
  intros [Ht Hi Hs Hc Hl Hst Hd] Hloc Hp Hne Hx Hex. split; cbn [set_io m_state conn io caller submitting m_pending_queue promises].
  - unfold issued in *. cbn [set_io conn io submitting m_pending_queue]. by rewrite Hloc.
  - intros H1 H2. destruct (Hi H1 H2) as [? ?]. split; [done|]. destruct (uses_session p) eqn:E; [|done]. destruct (Hp eq_refl) as [_ [?|?]]; congruence.
  - done.
  - unfold caller_ok in *. cbn [set_io m_state conn io caller]. destruct (caller t); try done. destruct Hc as (? & ? & ?). auto.
  - intros [H|[H _]]; cbn in H; [by apply Hl, Hp|]. apply Hl. right. split; [done|]. intros E. by apply Hx in E.
  - done.
  - done.
Qed.
Lemma uses_session_state g t : inv g t → uses_session (io t) = true → m_state t = Connected ∨ m_state t = Closed.
Proof. intros I H. destruct (decide (m_state t = Connected)), (decide (m_state t = Closed)); auto. destruct (i_idle _ _ I) as [_ ?]; auto; congruence. Qed.
(** Steps of the I/O thread on the session. *)
Lemma inv_session g g' t p c : inv g t → uses_session (io t) = true → p ≠ IoExited →
  (pr_promise <$> local_of p) ++ tokens c ≡ₚ (pr_promise <$> local_of (io t)) ++ tokens (conn t) →
  (p = IoStore → m_streams c = ∅) → (p ≠ IoStore → wf_conn g' c) → dangling c = false →
  inv g' (set_io p (set_conn c t)).
Proof.
  intros I Hu Hne Hp Hs Hw Hdd. pose proof (uses_session_state _ _ I Hu) as Hst. pose proof I as [Ht Hi Hss Hc Hl Hse Hd].
  split; cbn [set_io set_conn m_state conn io caller submitting m_pending_queue promises].
  - rewrite <- Ht. unfold issued. cbn [set_io set_conn conn io submitting m_pending_queue]. by rewrite Hp.
  - intros H1 H2. destruct Hst; congruence.
  - intros E. split; [by apply Hs|done].
  - unfold caller_ok in *. cbn [set_io set_conn m_state conn io caller]. destruct (caller t); try done. destruct Hc as (_ & E & _). by rewrite E in Hu.
  - intros [H|[_ H]]; cbn in H; [apply Hw; by intros ->|by apply Hw].
  - unfold settled, caller_ok in *. cbn [set_io set_conn caller]. destruct (caller t); try done; (destruct Hc as [E _]; destruct Hst; congruence).
  - done.
Qed.
(** The connection is given up. *)
Lemma inv_lost g t p : inv g t → m_streams (conn t) = ∅ → local_of (io t) = [] → (m_state t = Connected ∨ m_state t = Closed) → io t ≠ IoExited →
  p = IoWait ∨ p = IoTop → inv g (set_io p (set_state Reconnecting t)).
Proof.
  intros [Ht Hi Hss Hc Hl Hse Hd] Hs Hloc Hst Hne Hp. assert (uses_session p = false ∧ local_of p = [] ∧ p ≠ IoStore) as (Hu & Hlp & Hps) by (by destruct Hp as [-> | ->]).
  split; cbn [set_io set_state m_state conn io caller submitting m_pending_queue promises]; try done.
  - unfold issued in *. cbn [set_io set_state conn io submitting m_pending_queue]. by rewrite Hlp, <- Hloc.
  - unfold caller_ok in *. cbn [set_io set_state m_state conn io caller]. destruct (caller t); try done; try (destruct Hc as [E _]; destruct Hst; congruence).
    all: try by right. destruct Hc as (_ & ? & _). done.
  - intros [H|[H _]]; cbn in H; [by rewrite Hu in H|done].
Qed.
Lemma retires_streams t : retires t = true → m_streams (conn t) = ∅ ∧ m_state t = Connected.
Proof. unfold retires. intros H. bool_hyps. done. Qed.
Lemma inv_queues g t p pending cancels : inv g t → uses_session (io t) = true → uses_session p = true →
  (pr_promise <$> pending) ++ (pr_promise <$> local_of p) ≡ₚ (pr_promise <$> m_pending_queue t) ++ (pr_promise <$> local_of (io t)) →
  inv g (set_io p (set_queues pending cancels t)).
Proof.
  intros I Hu Hu' Hp. pose proof (uses_session_state _ _ I Hu) as Hst. pose proof I as [Ht Hi Hss Hc Hl Hse Hd].
  split; cbn [set_io set_queues m_state conn io caller submitting m_pending_queue promises].
  - rewrite <- Ht. unfold issued. cbn [set_io set_queues conn io submitting m_pending_queue]. rewrite !app_assoc. f_equiv.
    rewrite <- !app_assoc. f_equiv. by rewrite Hp.
  - intros H1 H2. destruct Hst; congruence.
  - intros ->. done.
  - unfold caller_ok in *. cbn [set_io set_queues m_state conn io caller]. destruct (caller t); try done. destruct Hc as (_ & E & _). by rewrite E in Hu.
  - intros _. apply Hl. by left.
  - done.
  - done.
Qed.
Lemma inv_io_step g t t' : inv g t → io_step t = Some t' → inv g t'.
Proof.
  intros I. pose proof I as [Ht Hi Hss Hc Hl Hse Hd]. pose proof (uses_session_state _ _ I) as Hus. pose proof (abandon_tokens $"connection lost" (conn t)) as (H1 & H2 & H3).
  unfold io_step. destruct (io t) as [| |err rd|err rd| | | | | |[|req local]|[|h rest]| |] eqn:Ep; try done; cbn [uses_session] in Hus.
  - intros [= <-]. apply inv_io; rewrite ?Ep; try done; by destruct (m_stop t).
  - intros [= <-]. apply inv_io; rewrite ?Ep; try done; try by case_bool_decide. case_bool_decide as E; [|done]. intros _. split; [right; by rewrite Ep|by left].
  - assert (inv g (set_io IoStore (set_conn (AbandonInFlight $"connection lost" (conn t)) t))) as Ha
      by (apply (inv_session g g); rewrite ?Ep; [done|done|done|by rewrite H1|done|intros []; done|by rewrite H3]).
    assert (inv g (set_io IoSend t)) as Hs by (apply inv_io; rewrite ?Ep; try done; intros _; split; [by left; rewrite Ep|auto]).
    destruct err, rd; try done; by intros [= <-].
  - intros [= <-]. destruct (Hss eq_refl) as [Hs Hst]. apply inv_lost; rewrite ?Ep; auto.
  - intros [= <-]. destruct (retires t) eqn:Er.
    + apply retires_streams in Er as [Hs Hst]. apply inv_lost; rewrite ?Ep; auto.
    + apply inv_io; rewrite ?Ep; try done. intros _. split; [by left; rewrite Ep|auto].
  - intros [= <-]. apply inv_io; rewrite ?Ep; try done; try by (destruct (_ && _)). destruct (bool_decide (m_state t = Connected)) eqn:E; [|done].
    apply bool_decide_eq_true in E. intros _. split; [right; by rewrite Ep|by left].
  - intros [= <-]. apply inv_queues; rewrite ?Ep; try done. cbn. by rewrite app_nil_r.
  - intros [= <-]. apply inv_queues; rewrite ?Ep; done.
  - intros [= <-]. apply inv_io; rewrite ?Ep; try done. intros _. split; [by left; rewrite Ep|auto].
  - destruct (_ !! h); [done|]. intros [= <-]. apply inv_io; rewrite ?Ep; try done. intros _. split; [by left; rewrite Ep|auto].
  - intros [= <-]. destruct (retires t) eqn:Er.
    + apply retires_streams in Er as [Hs Hst]. apply inv_lost; rewrite ?Ep; auto.
    + apply inv_io; rewrite ?Ep; done.
Qed.
Lemma wf_events g g' t events : inv g t → uses_session (io t) = true → ng_events events g = Some g' → wf_conn g' (run_events events (conn t)).
Proof. intros I Hu E. eapply run_events_wf; [|exact E]. apply (i_live _ _ I). by left. Qed.
Lemma inv_io_recv g g' t t' events rv : inv g t → ng_events events g = Some g' → io_recv events rv t = Some t' → inv g' t'.
Proof.
  intros I Eg. unfold io_recv. destruct (io t) as [| |err rd|[] []| | | | | |local|local| |] eqn:Ep; try done. intros [= <-].
  assert (uses_session (io t) = true) as Hu by (by rewrite Ep). pose proof (wf_events _ _ _ _ I Hu Eg) as W. pose proof (run_events_tokens events (conn t)) as Hp.
  destruct (rv =? 0).
  - apply (inv_session g g'); rewrite ?Ep; [done|done|done|by cbn; rewrite Hp|done|done|by eapply wf_dangling].
  - apply (inv_session g g'); rewrite ?Ep;
      [done|done|done|cbn [local_of]; by rewrite (proj1 (abandon_tokens _ _)), Hp|intros _; apply abandon_tokens|intros []; done|rewrite (proj2 (proj2 (abandon_tokens _ _))); by eapply wf_dangling].
Qed.
Lemma inv_io_flush g g' t t' events : inv g t → ng_events events g = Some g' → io_flush events t = Some t' → inv g' t'.
Proof.
  intros I Eg. unfold io_flush. destruct (io t) as [| |err rd|err rd| | | | | |local|[|h rest]| |] eqn:Ep; try done;
    [intros [= <-]|destruct (_ !! h); [intros [= <-]|done]].
  all: assert (uses_session (io t) = true) as Hu by (by rewrite Ep); pose proof (wf_events _ _ _ _ I Hu Eg) as W; pose proof (run_events_tokens events (conn t)) as Hp.
  all: apply (inv_session g g'); rewrite ?Ep; [done|done|done|by cbn; rewrite Hp|done|done|by eapply wf_dangling].
Qed.
Lemma SubmitStream_spec req id c :
  tokens (SubmitStream req id c) ≡ₚ tokens (keep (pr_promise req) empty_result c) ∨ 0 <= id ∧ is_Some (m_streams c !! id).
Proof.
  unfold SubmitStream. destruct (id <? 0) eqn:E; [left|].
  - unfold tokens. cbn [keep m_streams kept]. by rewrite !fmap_app.
  - destruct (m_streams c !! id) as [s|] eqn:Es; [right; split; [lia|by eexists]|left]. unfold tokens. cbn [set_streams keep m_streams kept].
    rewrite promises_of_insert by done. cbn [ss_promise]. rewrite fmap_app, app_assoc. cbn. by rewrite <- Permutation_cons_append.
Qed.
Lemma tokens_keep p r c : tokens (keep p r c) ≡ₚ p :: tokens c.
Proof. unfold tokens. cbn [keep m_streams kept]. rewrite fmap_app, app_assoc. cbn. by rewrite <- Permutation_cons_append. Qed.
Lemma inv_io_submit g g' t t' id events : inv g t → ng_action g (ASubmit id events) = Some g' → io_submit id events t = Some t' → inv g' t'.
Proof.
  intros I. unfold io_submit. destruct (io t) as [| |err rd|err rd| | | | | |[|req rest]|local| |] eqn:Ep; try done. cbn [ng_action].
  assert (uses_session (io t) = true) as Hu by (by rewrite Ep). pose proof (i_live _ _ I (or_introl Hu)) as W. pose proof W as [Wo Wl Wd].
  intros Eg [= <-]. pose proof (SubmitStream_spec req id (conn t)) as Htok. rewrite tokens_keep in Htok. destruct (id <? 0) eqn:Ei.
  - injection Eg as <-. destruct Htok as [Htok|[? _]]; [|lia]. apply (inv_session g g); rewrite ?Ep; [done|done|done| |done| |]; cbn [local_of].
    + rewrite Htok. cbn. by rewrite Permutation_middle.
    + intros _. unfold SubmitStream. rewrite Ei. by split.
    + unfold SubmitStream. by rewrite Ei.
  - destruct (ng_last g <? id) eqn:El; [|done]. destruct Htok as [Htok|[_ [s Hs]]]; [|apply Wl in Hs; lia].
    assert (wf_conn (mkNg (ng_open g ∪ {[id]}) id) (SubmitStream req id (conn t))) as W'.
    { unfold SubmitStream. rewrite Ei. split; cbn [set_streams m_streams ng_open ng_last dangling]; [| |done].
      - intros id' [Hin|Hin]%elem_of_union; [|apply elem_of_singleton in Hin as ->; rewrite lookup_insert_eq; by eexists].
        destruct (decide (id' = id)) as [->|]; [rewrite lookup_insert_eq; by eexists|rewrite lookup_insert_ne by done; by apply Wo].
      - intros id' s. rewrite lookup_insert_Some. intros [[<- _]|[_ H]]; [lia|]. apply Wl in H. lia. }
    pose proof (run_events_wf events _ _ _ W' Eg) as W''. pose proof (run_events_tokens events (SubmitStream req id (conn t))) as Hp.
    apply (inv_session g g'); rewrite ?Ep; [done|done|done| |done|done|by eapply wf_dangling]. cbn [local_of]. rewrite Hp, Htok. cbn. by rewrite Permutation_middle.
Qed.

(** Threads in [Send] and [Cancel]. *)
Lemma inv_Send g t spec : inv g t → inv g (Send spec t).
Proof.
  intros [Ht Hi Hss Hc Hl Hse Hd]. unfold Send. case_bool_decide as E.
  - split; [|exact Hi|exact Hss|exact Hc|exact Hl|exact Hse|exact Hd].
    cbn [promises]. rewrite seq_snoc, <- Ht. unfold issued. cbn [conn io submitting m_pending_queue]. count_perm.
  - split; [|exact Hi|exact Hss|exact Hc| |exact Hse|exact Hd].
    + cbn [promises]. rewrite seq_snoc, <- Ht. unfold issued. cbn [conn io submitting m_pending_queue]. rewrite tokens_keep. count_perm.
    + intros H. destruct (Hl H) as [? ? ?]. by split.
Qed.
Lemma inv_Send_enqueue g t t' i : inv g t → Send_enqueue i t = Some t' → inv g t'.
Proof.
  intros [Ht Hi Hss Hc Hl Hse Hd]. unfold Send_enqueue. destruct (submitting t !! i) as [req|] eqn:E; cbn [mbind option_bind]; [|done]. intros [= <-].
  pose proof (Permutation_map pr_promise (delete_Permutation _ _ _ E)) as Hp. change (List.map pr_promise) with (fmap (M := list) pr_promise) in Hp. rewrite fmap_cons in Hp.
  destruct (_ <=? _).
  - split; [|exact Hi|exact Hss|exact Hc| |exact Hse|exact Hd].
    + cbn [promises]. rewrite <- Ht. unfold issued. cbn [conn io submitting m_pending_queue]. rewrite tokens_keep, Hp. count_perm.
    + intros H. destruct (Hl H) as [? ? ?]. by split.
  - split; [|exact Hi|exact Hss|exact Hc|exact Hl|exact Hse|exact Hd].
    cbn [promises]. rewrite <- Ht. unfold issued. cbn [conn io submitting m_pending_queue]. rewrite Hp. count_perm.
Qed.
Lemma inv_Cancel g t h : inv g t → inv g (Cancel h t).
Proof. intros [Ht Hi Hss Hc Hl Hse Hd]. unfold Cancel. destruct (h =? 0); by split. Qed.

(** The caller of [Connect] and [Close]. *)
Lemma inv_set_caller g t p : inv g t → caller_ok (set_caller p t) → settled g (set_caller p t) → inv g (set_caller p t).
Proof. intros [Ht Hi Hss Hc Hl Hse Hd] ? ?. by split. Qed.
Lemma inv_return g t r : inv g t → m_state t ≠ Connecting → inv g (return_ r t).
Proof. intros [Ht Hi Hss Hc Hl Hse Hd] ?. by split. Qed.
Lemma inv_session_flag g t b : inv g t → inv g (set_session b t).
Proof. intros [Ht Hi Hss Hc Hl Hse Hd]. by split. Qed.
(** While [Connect] is under way the I/O thread keeps off the connection. *)
Lemma connecting_quiet g t : inv g t → m_state t = Connecting → m_streams (conn t) = ∅ ∧ uses_session (io t) = false ∧ io t ≠ IoStore.
Proof.
  intros I E. destruct (i_idle _ _ I) as [? ?]; [congruence|congruence|]. split_and!; try done. intros Es. destruct (i_store _ _ I Es) as [_ [?|?]]; congruence.
Qed.
Lemma inv_connecting g g' t c p : inv g t → m_state t = Connecting → m_streams c = ∅ → tokens c ≡ₚ tokens (conn t) → dangling c = false →
  caller_ok (set_caller p t) → settled g' (set_caller p t) → inv g' (set_caller p (set_conn c t)).
Proof.
  intros I E Hs Hp Hdd Hco Hse'. destruct (connecting_quiet _ _ I E) as (Hs0 & Hu & Hne). destruct I as [Ht Hi Hss Hc Hl Hse Hd].
  split; cbn [set_caller set_conn m_state conn io caller submitting m_pending_queue promises].
  - rewrite <- Ht. unfold issued. cbn [set_caller set_conn conn io submitting m_pending_queue]. by rewrite Hp.
  - done.
  - done.
  - unfold caller_ok in *. cbn [set_caller set_conn m_state conn io caller] in *. destruct p; try done. destruct Hco as (? & ? & _). done.
  - intros [H|[H _]]; cbn in H; congruence.
  - done.
  - done.
Qed.
Lemma inv_set_state g t s p : inv g t → m_state t = Connecting → s = Disconnected ∨ s = Reconnecting → p = CIdle → inv g (set_caller p (set_state s t)).
Proof.
  intros I E Hs ->. destruct (connecting_quiet _ _ I E) as (Hs0 & Hu & Hne). destruct I as [Ht Hi Hss Hc Hl Hse Hd]. split; cbn [set_caller set_state m_state conn io]; try done.
  - unfold caller_ok. cbn. by destruct Hs as [-> | ->].
  - intros [H|[H _]]; cbn in H; [congruence|]. destruct Hs; congruence.
Qed.
Lemma inv_fail_connect g t prior e : inv g t → m_state t = Connecting → prior = Disconnected ∨ prior = Reconnecting → inv g (fail_connect prior e t).
Proof.
  intros I E Hp. unfold fail_connect. pose proof (inv_set_state g (set_session false t) prior CIdle (inv_session_flag _ _ _ I) E Hp eq_refl) as [Ht Hi Hss Hc Hl Hse Hd]. by split.
Qed.
Lemma inv_connect g t t' o : inv g t → connect o t = Some t' → inv g t'.
Proof.
  intros I. unfold connect. destruct (caller t) eqn:Ec; try done. intros [= <-]. pose proof (i_caller _ _ I) as Hc. unfold caller_ok in Hc. rewrite Ec in Hc.
  assert (m_state t = Disconnected ∨ m_state t = Reconnecting → inv g (set_caller (CParse (m_state t)) (set_state Connecting (set_opts o (set_conn (set_budgets (co_budgets o) (conn t)) t))))) as Hok.
  { intros Hst. destruct (i_idle _ _ I) as [Hs Hu]; [destruct Hst; congruence|destruct Hst; congruence|]. pose proof I as [Ht Hi Hss _ Hl Hse Hd]. split; try done.
    - intros Es. destruct (Hss Es) as [_ Hb]. destruct Hst, Hb; congruence.
    - intros [H|[H _]]; cbn in H; congruence. }
  destruct (m_state t) eqn:Es; try (apply inv_return; [done|congruence]); apply Hok; auto.
Qed.
Lemma inv_register g t t' ok : inv g t → register ok t = Some t' → inv g t'.
Proof.
  intros I. unfold register. destruct (caller t) eqn:Ec; try done. intros [= <-]. pose proof (i_caller _ _ I) as Hc. unfold caller_ok in Hc. rewrite Ec in Hc. destruct Hc as [Est Hp].
  destruct ok; [|by apply inv_fail_connect]. destruct (connecting_quiet _ _ I Est) as (Hs0 & Hu & Hne). pose proof (i_settled _ _ I) as Hg. unfold settled in Hg. rewrite Ec in Hg.
  destruct I as [Ht Hi Hss Hc Hl Hse Hd]. split; try done. intros _. by apply wf_empty.
Qed.
Lemma inv_close g t t' : inv g t → close t = Some t' → inv g t'.
Proof.
  intros I. unfold close. destruct (caller t) eqn:Ec; try done. intros [= <-]. case_bool_decide as E; [apply inv_return; [done|congruence]|].
  destruct I as [Ht Hi Hss Hc Hl Hse Hd]. split; try done.
  - intros H. split; [by apply Hss|by right].
  - by left.
  - intros [H|[H _]]; cbn in H; [|done]. apply Hl. by left.
Qed.
Lemma inv_join g t t' in_time : inv g t → join in_time t = Some t' → inv g t'.
Proof.
  intros I. unfold join. destruct (caller t) eqn:Ec; try done. destruct (io t) eqn:Ei; try done. intros [= <-].
  pose proof (i_caller _ _ I) as Hc. unfold caller_ok in Hc. rewrite Ec in Hc.
  destruct I as [Ht Hi Hss _ Hl Hse Hd]. split; cbn [set_caller set_conn m_state conn io caller submitting m_pending_queue promises].
  - rewrite <- Ht. unfold issued. cbn [set_caller set_conn conn io submitting m_pending_queue]. by rewrite (proj1 (abandon_tokens _ _)).
  - intros _ _. split; [apply abandon_tokens|by rewrite Ei].
  - by rewrite Ei.
  - unfold caller_ok. cbn [set_caller set_conn m_state conn io caller]. split; [done|]. split; [done|]. apply abandon_tokens.
  - intros [H|[H _]]; cbn in H; [by rewrite Ei in H|]. destruct Hc; congruence.
  - done.
  - by rewrite (proj2 (proj2 (abandon_tokens _ _))).
Qed.
Lemma flush_tokens r l : ∀ c, let c' := foldl (λ c req, keep (pr_promise req) r c) c l in
  tokens c' ≡ₚ (pr_promise <$> l) ++ tokens c ∧ m_streams c' = m_streams c ∧ dangling c' = dangling c ∧ (kept c').*1 = (kept c).*1 ++ (pr_promise <$> l).
Proof.
  induction l as [|req l IH]; intros c; cbn; [by rewrite app_nil_r|]. destruct (IH (keep (pr_promise req) r c)) as (H1 & H2 & H3 & H4).
  rewrite H1, H2, H3, H4, tokens_keep. cbn [keep m_streams dangling kept]. rewrite fmap_app, <- app_assoc. split_and!; try done. by rewrite Permutation_middle.
Qed.
Section run.
Context (errno_text : Z → str).
Lemma inv_caller_step g t t' : inv g t → caller_step t = Some t' → inv g t'.
Proof.
  intros I. unfold caller_step. pose proof (i_caller _ _ I) as Hc. unfold caller_ok in Hc. destruct (caller t) eqn:Ec; try done.
  - intros [= <-]. destruct Hc as [Est Hp]. destruct (ParseEndpoint _ _) as [e|ep]; [by apply inv_fail_connect|]. by apply inv_set_caller.
  - intros [= <-]. destruct I as [Ht Hi Hss _ Hl Hse Hd]. by split.
  - intros [= <-]. destruct Hc as (Hst & Eio & Hs). pose proof (λ r, flush_tokens r (m_pending_queue t) (conn t)) as Hf. cbv zeta in Hf.
    apply inv_return; [|destruct Hst; cbn; congruence]. apply inv_session_flag.
    destruct I as [Ht Hi Hss _ Hl Hse Hd]. split; cbn [set_conn set_queues m_state conn io caller submitting m_pending_queue promises].
    + rewrite <- Ht. unfold issued. cbn [set_conn set_queues conn io submitting m_pending_queue]. rewrite (proj1 (Hf _)), Eio. count_perm.
    + intros _ _. rewrite (proj1 (proj2 (Hf _))). split; [done|by rewrite Eio].
    + by rewrite Eio.
    + unfold caller_ok. cbn [set_conn set_queues m_state conn io caller]. rewrite Ec, (proj1 (proj2 (Hf _))). done.
    + intros [H|[H _]]; cbn in H; [by rewrite Eio in H|]. destruct Hst; congruence.
    + unfold settled. cbn. by rewrite Ec.
    + by rewrite (proj1 (proj2 (proj2 (Hf _)))).
Qed.
Lemma inv_connect_tcp g t t' attempts : inv g t → connect_tcp errno_text attempts t = Some t' → inv g t'.
Proof.
  intros I. unfold connect_tcp. pose proof (i_caller _ _ I) as Hc. unfold caller_ok in Hc. destruct (caller t) eqn:Ec; try done. destruct Hc as [Est Hp].
  intros [= <-]. destruct (TcpConnect _ _); [by apply inv_fail_connect|]. apply inv_set_caller; by destruct (ep_use_tls ep).
Qed.
Lemma inv_connect_tls g t t' a : inv g t → connect_tls a t = Some t' → inv g t'.
Proof.
  intros I. unfold connect_tls. pose proof (i_caller _ _ I) as Hc. unfold caller_ok in Hc. destruct (caller t) eqn:Ec; try done. destruct Hc as [Est Hp].
  destruct (TlsHandshake _ _ _) as [[e|config]|]; try done; intros [= <-]; [by apply inv_fail_connect|by apply inv_set_caller].
Qed.
Lemma inv_open_session g g' t t' ok events : inv g t → ng_events events (mkNg ∅ 0) = Some g' → open_session ok events t = Some t' → inv g' t'.
Proof.
  intros I Eg. unfold open_session. pose proof (i_caller _ _ I) as Hc. unfold caller_ok in Hc. destruct (caller t) eqn:Ec; try done. destruct Hc as [Est Hp]. intros [= <-].
  destruct (connecting_quiet _ _ I Est) as (Hs & Hu & Hne). pose proof (i_dangling _ _ I) as Hd.
  set (c := set_recv _ true false false _). assert (wf_conn (mkNg ∅ 0) c) as W by (by apply wf_empty).
  pose proof (run_events_wf events _ _ _ W Eg) as W'. pose proof (run_events_tokens events c) as Hpt. pose proof (ng_events_empty _ _ _ Eg eq_refl) as Hg.
  destruct ok.
  - apply (inv_connecting g g'); [done|done|exact (run_events_no_streams events c Hs)|exact Hpt|exact (wf_dangling _ _ W')|done|done].
  - apply inv_fail_connect; [|done|done]. pose proof (inv_connecting g g' t c (CHandshake prior) I Est Hs) as H.
    assert (set_conn c t = set_caller (CHandshake prior) (set_conn c t)) as -> by (unfold set_caller, set_conn; cbn; by rewrite Ec).
    by apply H.
Qed.
Lemma inv_settings_round g g' t t' late events rv : inv g t → ng_events events g = Some g' → settings_round late events rv t = Some t' → inv g' t'.
Proof.
  intros I Eg. unfold settings_round. pose proof (i_caller _ _ I) as Hc. unfold caller_ok in Hc. destruct (caller t) eqn:Ec; try done. destruct Hc as [Est Hp].
  destruct (connecting_quiet _ _ I Est) as (Hs & Hu & Hne). pose proof (i_dangling _ _ I) as Hd. pose proof (i_settled _ _ I) as Hg. unfold settled in Hg. rewrite Ec in Hg.
  assert (wf_conn g (conn t)) as W by (by apply wf_empty). pose proof (run_events_wf events _ _ _ W Eg) as W'. pose proof (run_events_tokens events (conn t)) as Hpt.
  pose proof (ng_events_empty _ _ _ Eg Hg) as Hg'. pose proof (run_events_no_streams events _ Hs) as Hs'. apply wf_dangling in W'.
  assert (∀ c, m_streams c = ∅ → tokens c ≡ₚ tokens (conn t) → dangling c = false → inv g' (set_conn c t)) as Hstay.
  { intros c ? ? ?. assert (set_conn c t = set_caller (CSettings prior) (set_conn c t)) as -> by (unfold set_caller, set_conn; cbn; by rewrite Ec).
    by apply (inv_connecting g g'). }
  assert (inv g' t) as I' by (assert (t = set_conn (conn t) t) as -> by (by destruct t); by apply Hstay).
  destruct (m_settings_ack_received (conn t)); [intros [= <-]|destruct late; [intros [= <-]; by apply inv_fail_connect|]].
  - apply inv_set_caller; [by apply inv_session_flag|done|done].
  - destruct (_ && _ && _); intros [= <-]; [apply inv_fail_connect; [|done|done]|]; by apply Hstay.
Qed.
Lemma inv_exec g g' a t t' : inv g t → ng_action g a = Some g' → exec errno_text a t = Some t' → inv g' t'.
Proof.
  intros I. destruct a as [spec|i|handle| |err rd| |events rv|events|id events|o| |attempts|a|ok events|late events rv|ok| |in_time]; cbn [exec];
    try (cbn [ng_action]; intros [= <-]).
  - intros [= <-]. by apply inv_Send.
  - intros; by eapply inv_Send_enqueue.
  - intros [= <-]. by apply inv_Cancel.
  - intros; by eapply inv_io_step.
  - destruct (io t) eqn:Ep; try done. intros [= <-]. by apply inv_io; rewrite ?Ep.
  - destruct (io t) eqn:Ep; try done. intros [= <-]. by apply inv_io; rewrite ?Ep.
  - intros; by eapply inv_io_recv.
  - intros; by eapply inv_io_flush.
  - intros; by eapply inv_io_submit.
  - intros; by eapply inv_connect.
  - intros; by eapply inv_caller_step.
  - intros; by eapply inv_connect_tcp.
  - intros; by eapply inv_connect_tls.
  - intros; by eapply inv_open_session.
  - intros; by eapply inv_settings_round.
  - intros; by eapply inv_register.
  - intros; by eapply inv_close.
  - intros; by eapply inv_join.
Qed.
Lemma inv_new o : inv ng_new (Http2Transport_Create o).
Proof. by split. Qed.
Lemma transport_run_snoc actions a t : exec_all errno_text (actions ++ [a]) t = exec_all errno_text actions t ≫= exec errno_text a.
Proof. unfold exec_all. by rewrite foldl_app. Qed.
Lemma transport_run_app actions more t : exec_all errno_text (actions ++ more) t = exec_all errno_text actions t ≫= exec_all errno_text more.
Proof.
  induction more as [|a more IH] using rev_ind; [by rewrite app_nil_r; destruct (exec_all errno_text actions t)|].
  rewrite app_assoc, transport_run_snoc, IH. destruct (exec_all errno_text actions t) as [t1|]; cbn [mbind option_bind]; [|done]. by rewrite transport_run_snoc.
Qed.
Lemma ng_run_snoc actions a g : ng_run (actions ++ [a]) g = ng_run actions g ≫= λ g, ng_action g a.
Proof. unfold ng_run. by rewrite foldl_app. Qed.
Lemma inv_all actions g g' t t' : inv g t → ng_run actions g = Some g' → exec_all errno_text actions t = Some t' → inv g' t'.
Proof.
  intros I. revert g' t'. induction actions as [|a actions IH] using rev_ind; intros g' t'; [by intros [= <-] [= <-]|].
  rewrite ng_run_snoc, transport_run_snoc. destruct (ng_run actions g) as [g1|]; cbn [mbind option_bind]; [|done].
  destruct (exec_all errno_text actions t) as [t1|]; cbn [mbind option_bind]; [|done]. apply inv_exec. by apply IH.
Qed.

(** ** Promises *)

(** C7: In every interleaving of the I/O thread, of Connect and Close, and of any
    number of threads in Send and Cancel, with an nghttp2 that keeps its contract:
    every request accepted or refused so far has its promise in exactly one place - a
    thread still in Send, the request queue, the I/O thread's local batch, one stream -
    or kept, exactly once.  No callback ever reads the payload of a request whose
    stream is gone. *)
Theorem http2_promises_kept_once o actions g t :
  exec_all errno_text actions (Http2Transport_Create o) = Some t → ng_run actions ng_new = Some g →
  (pr_promise <$> submitting t) ++ (pr_promise <$> m_pending_queue t) ++ (pr_promise <$> local_of (io t))
    ++ promises_of (m_streams (conn t)) ++ (kept (conn t)).*1 ≡ₚ seq 0 (promises t)
  ∧ NoDup (kept (conn t)).*1 ∧ dangling (conn t) = false.
Proof.
  intros E Eg. pose proof (inv_all _ _ _ _ _ (inv_new o) Eg E) as I. pose proof (i_tokens _ _ I) as Hp. unfold issued, tokens in Hp.
  split; [done|]. split; [|by eapply i_dangling]. pose proof (NoDup_seq 0 (promises t)) as Hn. rewrite <- Hp in Hn. rewrite !NoDup_app in Hn. tauto.
Qed.

(** C8: When Close returns, every request accepted before is answered: queue, batches
    and streams are empty, the I/O thread has stopped, and the only promises still
    open are those of threads that passed the check in Send and have not reached the
    queue.  Without such a thread every promise ever made is kept. *)
Theorem http2_close_answers o actions g t0 in_time t :
  exec_all errno_text actions (Http2Transport_Create o) = Some t0 → ng_run actions ng_new = Some g →
  caller t0 = CFlush in_time → caller_step t0 = Some t →
  caller t = CIdle ∧ io t = IoExited ∧ m_pending_queue t = [] ∧ m_streams (conn t) = ∅
  ∧ (pr_promise <$> submitting t) ++ (kept (conn t)).*1 ≡ₚ seq 0 (promises t)
  ∧ (submitting t = [] → ∀ p, (p < promises t)%nat → ∃ r, (p, r) ∈ kept (conn t)).
Proof.
  intros E Eg Ec Es. pose proof (inv_all _ _ _ _ _ (inv_new o) Eg E) as I0. pose proof (inv_caller_step _ _ _ I0 Es) as I.
  pose proof (i_caller _ _ I0) as Hc. unfold caller_ok in Hc. rewrite Ec in Hc. destruct Hc as (_ & Eio & Hs).
  unfold caller_step in Es. rewrite Ec in Es. pose proof (λ r, flush_tokens r (m_pending_queue t0) (conn t0)) as Hf. cbv zeta in Hf.
  injection Es as <-. pose proof (i_tokens _ _ I) as Hp. unfold issued, tokens in Hp.
  cbn [return_ set_session set_conn set_queues caller io m_pending_queue conn submitting promises] in *. rewrite Eio in *. rewrite (proj1 (proj2 (Hf _))), Hs in *.
  unfold promises_of in Hp. rewrite map_to_list_empty in Hp. cbn [fmap list_fmap local_of app] in Hp. split_and!; try done.
  intros E0 p Hlt. rewrite E0 in Hp. cbn in Hp. assert (p ∈ seq 0 (promises t0)) as Hin by (apply elem_of_seq; lia). rewrite <- Hp in Hin.
  apply list_elem_of_fmap_1 in Hin as ([p' r] & -> & Hin). by exists r.
Qed.

(** Connect has the connection to itself, and nothing is left behind when the
    transport leaves it.  Whenever the state is neither Connected nor Closed - and so
    for the whole of Connect - no stream exists and the I/O thread is outside the code
    that touches session and socket; whenever it is inside, no Connect is under way. *)
Theorem http2_connect_exclusive o actions g t :
  exec_all errno_text actions (Http2Transport_Create o) = Some t → ng_run actions ng_new = Some g →
  (m_state t ≠ Connected → m_state t ≠ Closed → m_streams (conn t) = ∅ ∧ uses_session (io t) = false)
  ∧ (uses_session (io t) = true → m_state t = Connected ∨ m_state t = Closed)
  ∧ (uses_session (io t) = true → match caller t with CIdle | CStop | CJoin => True | _ => False end).
Proof.
  intros E Eg. pose proof (inv_all _ _ _ _ _ (inv_new o) Eg E) as I. split; [apply (i_idle _ _ I)|]. split; [by eapply uses_session_state|].
  intros Hu. pose proof (uses_session_state _ _ I Hu) as Hst. pose proof (i_caller _ _ I) as Hc. unfold caller_ok in Hc.
  destruct (caller t); try done; try (destruct Hc as [Hc _]; destruct Hst; congruence). destruct Hc as (_ & Hx & _). by rewrite Hx in Hu.
Qed.
End run.
