(* ===== verification/Http2Run.v ===== *)
(** * Responses, budgets and the end of the I/O thread

    More theorems about [Http2.v]: what the result of a stream is, in terms of the
    callbacks nghttp2 made for it; the memory held by responses and by the request
    queue; what a GOAWAY does; how Close ends the I/O thread; and two interleavings in
    which [Close] loses a race. *)
From stdpp Require Import gmap list.
From S2P Require Import Prelude Data RetryEngine ProtoReader Wire Http2Connect Http2 Http2Spec.

(** ** Responses *)

(** What nghttp2 delivered for a stream. *)
Definition event_headers (id : Z) (e : NgEvent) : list HeaderField :=
  match e with EvHeader id' false name value => if id' =? id then [mkHeaderField name value] else [] | _ => [] end.
Definition event_trailers (id : Z) (e : NgEvent) : list HeaderField :=
  match e with EvHeader id' true name value => if id' =? id then [mkHeaderField name value] else [] | _ => [] end.
Definition event_data (id : Z) (e : NgEvent) : list Z := match e with EvData id' data => if id' =? id then data else [] | _ => [] end.
Definition field_bytes (l : list HeaderField) : Z := foldr (λ h n, size (hf_name h) + size (hf_value h) + n) 0 l.
(** The stream is neither closed nor refused. *)
Definition keeps_open (id : Z) (e : NgEvent) : bool := match e with EvClose id' _ => negb (id' =? id) | EvGoaway last _ => id <=? last | _ => true end.

Definition the_headers (id : Z) (events : list NgEvent) : list HeaderField := concat (event_headers id <$> events).
Definition the_trailers (id : Z) (events : list NgEvent) : list HeaderField := concat (event_trailers id <$> events).
Definition the_body (id : Z) (events : list NgEvent) : list Z := concat (event_data id <$> events).
Definition within_budgets (b : Budgets) (id : Z) (events : list NgEvent) : bool :=
  (size (the_body id events) <=? m_max_response_bytes b) && (field_bytes (the_trailers id events) <=? m_max_trailer_bytes b).
(** The state of a stream submitted before [events]. *)
Record receiving (b : Budgets) (id : Z) (events : list NgEvent) (p : nat) (h : Z) (s : StreamState) : Prop := {
  rc_promise : ss_promise s = p; rc_handle : ss_handle_id s = h;
  rc_fits : within_budgets b id events = true →
    ss_result s = mkTransportResult false (the_headers id events) (the_trailers id events) (the_body id events) None false false
    ∧ trailer_bytes s = field_bytes (the_trailers id events) ∧ overflow s = OverflowNone;
  rc_over : within_budgets b id events = false →
    ∃ headers, headers `prefix_of` the_headers id events ∧ ss_result s = mkTransportResult false headers [] [] None false false ∧ overflow s ≠ OverflowNone
}.
Lemma field_bytes_app l l' : field_bytes (l ++ l') = field_bytes l + field_bytes l'.
Proof. induction l as [|h l IH]; cbn; [done|]. unfold field_bytes in *. cbn. rewrite IH. lia. Qed.
Lemma field_bytes_nonneg l : 0 <= field_bytes l.
Proof. induction l as [|h l IH]; cbn; [done|]. pose proof (size_nonneg (hf_name h)). pose proof (size_nonneg (hf_value h)). unfold field_bytes in IH. lia. Qed.
Lemma concat_fmap_snoc {A B} (f : A → list B) l x : concat (f <$> l ++ [x]) = concat (f <$> l) ++ f x.
Proof. rewrite fmap_app, concat_app. cbn. by rewrite app_nil_r. Qed.
Lemma the_headers_snoc id l e : the_headers id (l ++ [e]) = the_headers id l ++ event_headers id e.
Proof. apply concat_fmap_snoc. Qed.
Lemma the_trailers_snoc id l e : the_trailers id (l ++ [e]) = the_trailers id l ++ event_trailers id e.
Proof. apply concat_fmap_snoc. Qed.
Lemma the_body_snoc id l e : the_body id (l ++ [e]) = the_body id l ++ event_data id e.
Proof. apply concat_fmap_snoc. Qed.
Lemma within_budgets_snoc b id l e :
  within_budgets b id (l ++ [e]) = (size (the_body id l) + size (event_data id e) <=? m_max_response_bytes b)
    && (field_bytes (the_trailers id l) + field_bytes (event_trailers id e) <=? m_max_trailer_bytes b).
Proof. unfold within_budgets. by rewrite the_body_snoc, the_trailers_snoc, size_app, field_bytes_app. Qed.
Lemma within_snoc b id events e : within_budgets b id (events ++ [e]) = true → within_budgets b id events = true.
Proof.
  rewrite within_budgets_snoc. unfold within_budgets. intros H. bool_hyps.
  pose proof (size_nonneg (event_data id e)). pose proof (field_bytes_nonneg (event_trailers id e)). apply andb_true_iff. lia.
Qed.
Lemma within_same b id events e : event_data id e = [] → event_trailers id e = [] → within_budgets b id (events ++ [e]) = within_budgets b id events.
Proof. intros Hd Ht. unfold within_budgets. by rewrite the_body_snoc, the_trailers_snoc, Hd, Ht, !app_nil_r. Qed.
(** An event that brings the stream nothing. *)
Lemma receiving_same b id events e p h s s' : receiving b id events p h s →
  event_data id e = [] → event_trailers id e = [] → event_headers id e = [] →
  ss_promise s' = ss_promise s → ss_handle_id s' = ss_handle_id s → ss_result s' = ss_result s → trailer_bytes s' = trailer_bytes s → overflow s' = overflow s →
  receiving b id (events ++ [e]) p h s'.
Proof.
  intros [Hp Hh Hf Ho] Hd Ht Hhd E1 E2 E3 E4 E5.
  split; rewrite ?within_same, ?the_headers_snoc, ?the_trailers_snoc, ?the_body_snoc, ?Hd, ?Ht, ?Hhd, ?app_nil_r, ?E1, ?E2, ?E3, ?E4, ?E5 by done; done.
Qed.
(** A stream over its budget ignores what follows. *)
Lemma receiving_over b id events e p h s s' : receiving b id events p h s → within_budgets b id events = false → s' = s → receiving b id (events ++ [e]) p h s'.
Proof.
  intros [Hp Hh Hf Ho] Ew ->. destruct (Ho Ew) as (headers & Hpre & Er & Eo). split; [done|done|intros H; apply within_snoc in H; congruence|].
  intros _. exists headers. split; [|done]. rewrite the_headers_snoc. by apply prefix_app_r.
Qed.
Lemma receiving_header b id events tr name value p h s : receiving b id events p h s →
  receiving b id (events ++ [EvHeader id tr name value]) p h (header_on_stream b tr name value s).
Proof.
  intros R. pose proof R as [Hp Hh Hf Ho]. set (e := EvHeader id tr name value). set (one := [mkHeaderField name value]).
  assert (event_data id e = []) as Hd by done.
  assert (event_headers id e = if tr then [] else one) as Hhd by (unfold e; cbn; rewrite Z.eqb_refl; by destruct tr).
  assert (event_trailers id e = if tr then one else []) as Ht by (unfold e; cbn; rewrite Z.eqb_refl; by destruct tr).
  assert (field_bytes one = size name + size value) as Hone by (unfold one, field_bytes; cbn; lia).
  pose proof (within_budgets_snoc b id events e) as Hw. rewrite Hd, Ht in Hw. change (size []) with 0 in Hw.
  unfold header_on_stream. destruct (within_budgets b id events) eqn:Ew.
  2: { destruct (Ho eq_refl) as (_ & _ & _ & Eo). apply (receiving_over _ _ _ _ _ _ s); [done|done|]. by destruct (overflow s). }
  destruct (Hf eq_refl) as (Er & Et & Eo). rewrite Eo. cbn [no_overflow negb]. unfold within_budgets in Ew. bool_hyps.
  destruct tr; [destruct (m_max_trailer_bytes b <? _) eqn:Eb; bool_hyps|].
  - assert (within_budgets b id (events ++ [e]) = false) as Ew' by (rewrite Hw, Hone; apply andb_false_iff; right; lia).
    split; [done|done|congruence|]. intros _. exists (the_headers id events). rewrite the_headers_snoc, Hhd, app_nil_r. split; [done|].
    cbn [FailOversizedStream set_result ss_result overflow]. by rewrite Er.
  - assert (within_budgets b id (events ++ [e]) = true) as Ew' by (rewrite Hw, Hone; apply andb_true_iff; lia).
    split; [done|done| |congruence]. intros _. rewrite the_headers_snoc, the_trailers_snoc, the_body_snoc, Ht, Hd, Hhd, !app_nil_r, field_bytes_app, Hone.
    cbn [set_result ss_result trailer_bytes overflow]. by rewrite Er, Et, ?Eo.
  - assert (within_budgets b id (events ++ [e]) = true) as Ew' by (rewrite Hw; change (field_bytes []) with 0; apply andb_true_iff; lia).
    split; [done|done| |congruence]. intros _. rewrite the_headers_snoc, the_trailers_snoc, the_body_snoc, Ht, Hd, Hhd, !app_nil_r.
    cbn [set_result ss_result trailer_bytes overflow]. by rewrite Er, ?Eo.
Qed.
Lemma receiving_data b id events data p h s : receiving b id events p h s →
  receiving b id (events ++ [EvData id data]) p h (data_on_stream b data s).
Proof.
  intros R. pose proof R as [Hp Hh Hf Ho]. set (e := EvData id data).
  assert (event_data id e = data) as Hd by (unfold e; cbn; by rewrite Z.eqb_refl).
  assert (event_headers id e = [] ∧ event_trailers id e = []) as [Hhd Ht] by done.
  pose proof (within_budgets_snoc b id events e) as Hw. rewrite Hd, Ht in Hw. change (field_bytes []) with 0 in Hw.
  unfold data_on_stream. destruct (within_budgets b id events) eqn:Ew.
  2: { destruct (Ho eq_refl) as (_ & _ & _ & Eo). apply (receiving_over _ _ _ _ _ _ s); [done|done|]. by destruct (overflow s). }
  destruct (Hf eq_refl) as (Er & Et & Eo). rewrite Eo. cbn [no_overflow negb]. rewrite Er. cbn [response_bytes]. unfold within_budgets in Ew. bool_hyps.
  destruct (m_max_response_bytes b <? _) eqn:Eb; bool_hyps.
  - assert (within_budgets b id (events ++ [e]) = false) as Ew' by (rewrite Hw; apply andb_false_iff; left; apply Z.leb_gt; done).
    split; [done|done|congruence|]. intros _. exists (the_headers id events). rewrite the_headers_snoc, Hhd, app_nil_r. split; [done|].
    cbn [FailOversizedStream set_result ss_result overflow]. by rewrite Er.
  - assert (within_budgets b id (events ++ [e]) = true) as Ew' by (rewrite Hw; apply andb_true_iff; split; apply Z.leb_le; [done|lia]).
    split; [done|done| |congruence]. intros _. rewrite the_headers_snoc, the_trailers_snoc, the_body_snoc, Ht, Hd, Hhd, !app_nil_r.
    cbn [set_result ss_result trailer_bytes overflow response_headers response_trailers tr_success tr_error response_too_large transport_busy]. by rewrite ?Eo.
Qed.

Lemma on_event_receiving b id events c e p h s : m_budgets c = b → m_streams c !! id = Some s → receiving b id events p h s → keeps_open id e = true →
  m_budgets (on_event c e) = b ∧ ∃ s', m_streams (on_event c e) !! id = Some s' ∧ receiving b id (events ++ [e]) p h s'.
Proof.
  intros Hb Hs R Hk.
  assert (∀ f id' c0, m_budgets (on_stream f id' c0) = m_budgets c0) as Hob by (intros f id' c0; unfold on_stream; by destruct (m_streams c0 !! id')).
  assert (event_data id e = [] → event_trailers id e = [] → event_headers id e = [] → receiving b id (events ++ [e]) p h s) as Hsame by (intros; by eapply receiving_same).
  destruct e as [id' tr name value|id' data|id' code|last code|id' len| |buf|err]; cbn [on_event keeps_open] in *.
  - unfold OnResponseHeader. split; [by rewrite Hob|]. rewrite on_stream_lookup. case_bool_decide as E.
    + subst id'. rewrite Hs, Hb. eexists. split; [done|]. by apply receiving_header.
    + exists s. split; [done|]. assert ((id' =? id) = false) as En by lia. apply Hsame; cbn; rewrite ?En; by destruct tr.
  - unfold OnResponseData. split; [by rewrite Hob|]. rewrite on_stream_lookup. case_bool_decide as E.
    + subst id'. rewrite Hs, Hb. eexists. split; [done|]. by apply receiving_data.
    + exists s. split; [done|]. assert ((id' =? id) = false) as En by lia. by apply Hsame; cbn; rewrite ?En.
  - unfold FulfillStream. bool_hyps. split; [by destruct (m_streams c !! id')|]. exists s. split; [|by apply Hsame].
    destruct (m_streams c !! id'); [|done]. cbn. by rewrite lookup_delete_ne.
  - split; [by rewrite (proj2 (proj2 (OnGoaway_tokens last code c)))|]. exists s. rewrite OnGoaway_streams. assert ((last <? id) = false) as -> by lia. split; [done|by apply Hsame].
  - destruct (m_streams c !! id') as [s'|] eqn:E'; [|split; [done|]; exists s; split; [done|by apply Hsame]]. split; [done|]. cbn [put_stream set_streams m_streams].
    destruct (decide (id = id')) as [->|Hne]; [|rewrite lookup_insert_ne by done; exists s; split; [done|by apply Hsame]].
    rewrite lookup_insert_eq. eexists. split; [done|]. assert (s' = s) as -> by congruence. by eapply receiving_same.
  - split; [done|]. exists s. split; [done|by apply Hsame].
  - unfold SniffHttp1Response. destruct (m_first_plaintext_recv c); (split; [done|]; exists s; split; [done|by apply Hsame]).
  - split; [done|]. exists s. split; [done|by apply Hsame].
Qed.
Lemma run_receiving b id p h events : ∀ c s, m_budgets c = b → m_streams c !! id = Some s → receiving b id [] p h s → forallb (keeps_open id) events = true →
  m_budgets (run_events events c) = b ∧ ∃ s', m_streams (run_events events c) !! id = Some s' ∧ receiving b id events p h s'.
Proof.
  induction events as [|e events IH] using rev_ind; intros c s Hb Hs R Hk; [by eauto|]. rewrite forallb_app in Hk. apply andb_true_iff in Hk as [Hk He].
  cbn in He. rewrite andb_true_r in He. destruct (IH _ _ Hb Hs R Hk) as (Hb' & s' & Hs' & R'). unfold run_events. rewrite foldl_app. cbn [foldl]. by eapply on_event_receiving.
Qed.

Definition close_error (code : Z) : option Error :=
  if code =? 0 then None else if code =? NGHTTP2_CANCEL then Some (mkError KCancelled $"request cancelled" 0) else Some (network_error $"stream error").
(** C10: The result of a request is what the peer sent on its stream, no more and no
    less, however the frames of other streams, pings of the callbacks and payload reads
    are interleaved: from submission to close, the headers, the trailers and the body
    in order of arrival, a success exactly when the stream closed without error.  A
    response that exceeds the body or the trailer budget of the connection instead
    fails as too large, with nothing of body and trailers kept. *)
Theorem http2_response_exact req id c0 events code :
  0 <= id → 0 <= m_max_response_bytes (m_budgets c0) → 0 <= m_max_trailer_bytes (m_budgets c0) → forallb (keeps_open id) events = true →
  let b := m_budgets c0 in let c := run_events events (SubmitStream req id c0) in
  m_streams (FulfillStream id code c) !! id = None ∧
  ∃ r, kept (FulfillStream id code c) = kept c ++ [(pr_promise req, r)]
  ∧ (within_budgets b id events = true →
       r = mkTransportResult (code =? 0) (the_headers id events) (the_trailers id events) (the_body id events) (close_error code) false false)
  ∧ (within_budgets b id events = false →
       ∃ headers kind, headers `prefix_of` the_headers id events ∧ r = mkTransportResult false headers [] [] (Some (OversizedError kind)) true false).
Proof.
  intros Hid Hb1 Hb2 Hk b c. unfold c, SubmitStream. assert ((id <? 0) = false) as -> by lia. set (s0 := mkStreamState _ _ _ _ _ _ _). set (c1 := set_streams _ _ c0).
  assert (receiving b id [] (pr_promise req) (pr_handle_id req) s0) as R.
  { assert (within_budgets b id [] = true) as Hw by (apply andb_true_iff; split; by apply Z.leb_le). split; try done. by rewrite Hw. }
  destruct (run_receiving b id (pr_promise req) (pr_handle_id req) events c1 s0) as (_ & s & Es & [Hp Hh Hf Ho]); [done|apply lookup_insert_eq|done|done|].
  unfold FulfillStream. rewrite Es. cbn [keep erase_stream set_streams m_streams kept]. split; [apply lookup_delete_eq|]. rewrite Hp.
  exists (close_result s code). split; [done|]. unfold close_result. split; intros Ew.
  - destruct (Hf Ew) as (-> & _ & ->). cbn [no_overflow negb]. unfold close_error, with_outcome. by destruct (code =? 0), (code =? NGHTTP2_CANCEL).
  - destruct (Ho Ew) as (headers & Hpre & -> & Hn). exists headers, (overflow s). split; [done|]. by destruct (overflow s).
Qed.

(** A GOAWAY refuses exactly the streams the peer did not accept: each of them,
    and no other, gets a retryable network error that quotes the frame; the others
    stay as they are and may still be answered. *)
Theorem http2_goaway_refuses last code c :
  let c' := OnGoaway last code c in
  m_goaway_received c' = true
  ∧ (∀ id, m_streams c' !! id = if last <? id then None else m_streams c !! id)
  ∧ (∀ e, e ∈ kept c' ↔ e ∈ kept c ∨ ∃ id s, m_streams c !! id = Some s ∧ last < id ∧ e = (ss_promise s, refused (goaway_detail last code) s))
  ∧ (∀ s, tr_error (refused (goaway_detail last code) s) = Some (mkError KNetwork (goaway_detail last code) 0)).
Proof.
  cbv zeta. unfold OnGoaway at 1 3. unfold RefuseStreamsAbove. set (c1 := set_goaway _ _ c). destruct (above_entries last (m_streams c1)) as [Hnd Hin].
  destruct (refuse_fold _ c1 Hnd ltac:(intros e He; by apply Hin)) as (_ & -> & _ & _ & _ & ->). split; [done|]. split; [intros id; apply OnGoaway_streams|].
  split; [|done]. intros e. rewrite elem_of_app. change (kept c1) with (kept c). change (m_streams c1) with (m_streams c) in *. split; (intros [?|He]; [by left|right]).
  - apply list_elem_of_fmap_1 in He as ([id s] & -> & [Hl Hs]%Hin). by exists id, s.
  - destruct He as (id & s & Hs & Hl & ->). apply (list_elem_of_fmap_2' _ _ (id, s)); [by apply Hin|done].
Qed.

(** ** Memory *)

Definition fits (b : Budgets) (s : StreamState) : Prop :=
  size (response_bytes (ss_result s)) <= m_max_response_bytes b ∧ field_bytes (response_trailers (ss_result s)) <= m_max_trailer_bytes b
  ∧ (overflow s = OverflowNone → trailer_bytes s = field_bytes (response_trailers (ss_result s))).
Definition small (b : Budgets) (r : TransportResult) : Prop :=
  size (response_bytes r) <= m_max_response_bytes b ∧ field_bytes (response_trailers r) <= m_max_trailer_bytes b.
(** [top] bounds every budget the connection has had. *)
Record mem_conn (top : Budgets) (c : Conn) : Prop := {
  mm_budgets : 0 <= m_max_response_bytes (m_budgets c) <= m_max_response_bytes top ∧ 0 <= m_max_trailer_bytes (m_budgets c) <= m_max_trailer_bytes top
    ∧ m_max_pending_requests (m_budgets c) <= m_max_pending_requests top;
  mm_streams : ∀ id s, m_streams c !! id = Some s → fits (m_budgets c) s;
  mm_kept : ∀ e, e ∈ kept c → small top e.2
}.
Lemma small_empty top ok hs e tl tb : 0 <= m_max_response_bytes top → 0 <= m_max_trailer_bytes top → small top (mkTransportResult ok hs [] [] e tl tb).
Proof. by split. Qed.
Lemma mem_nonneg top c : mem_conn top c → 0 <= m_max_response_bytes top ∧ 0 <= m_max_trailer_bytes top.
Proof. intros [Hb _ _]. lia. Qed.
Lemma stream_small top c s : mem_conn top c → fits (m_budgets c) s → small top (ss_result s).
Proof. intros [Hb _ _] (H1 & H2 & _). split; lia. Qed.
Lemma mem_keep top c p r : mem_conn top c → small top r → mem_conn top (keep p r c).
Proof.
  intros [Hb Hs Hk] Hr. split; [done|done|]. intros e. cbn [keep kept]. rewrite elem_of_app. intros [?|Hin]; [by apply Hk|]. by apply list_elem_of_singleton in Hin as ->.
Qed.
Lemma mem_erase top c id s : mem_conn top c → mem_conn top (erase_stream id s c).
Proof. intros [Hb Hs Hk]. split; [done| |done]. intros id' s'. cbn. rewrite lookup_delete_Some. intros [_ H]. by eapply Hs. Qed.
Lemma mem_on_stream top f id c : mem_conn top c → (∀ s, fits (m_budgets c) s → fits (m_budgets c) (f s)) → mem_conn top (on_stream f id c).
Proof.
  intros [Hb Hs Hk] Hf. unfold on_stream. destruct (m_streams c !! id) as [s|] eqn:E; [|done]. split; [done| |done].
  intros id' s'. cbn. rewrite lookup_insert_Some. intros [[_ <-]|[_ H]]; [apply Hf|]; by eapply Hs.
Qed.
Lemma fits_open b s : fits b s → no_overflow (overflow s) = true → size (response_bytes (ss_result s)) <= m_max_response_bytes b
  ∧ field_bytes (response_trailers (ss_result s)) <= m_max_trailer_bytes b ∧ trailer_bytes s = field_bytes (response_trailers (ss_result s)).
Proof. intros (H1 & H2 & H3) Ho. split_and!; try done. apply H3. by destruct (overflow s). Qed.
Lemma fits_oversized b kind bytes s : 0 <= m_max_response_bytes b → 0 <= m_max_trailer_bytes b → kind ≠ OverflowNone → fits b (FailOversizedStream kind bytes s).
Proof. intros Hr Ht Hk. unfold fits. cbn [FailOversizedStream set_result ss_result response_bytes response_trailers overflow]. by split_and!. Qed.
Lemma fits_header b tr name value s : 0 <= m_max_response_bytes b → 0 <= m_max_trailer_bytes b → fits b s → fits b (header_on_stream b tr name value s).
Proof.
  intros Hr Ht F. unfold header_on_stream. destruct (no_overflow (overflow s)) eqn:Eo; cbn [negb]; [|done]. destruct (fits_open _ _ F Eo) as (H1 & H2 & H3).
  destruct tr; [destruct (m_max_trailer_bytes b <? _) eqn:Eb; bool_hyps; [by apply fits_oversized|]|].
  - unfold fits. cbn [set_result ss_result response_bytes response_trailers overflow trailer_bytes]. rewrite field_bytes_app.
    assert (field_bytes [mkHeaderField name value] = size name + size value) as -> by (unfold field_bytes; cbn; lia). split_and!; [done|lia|lia].
  - by unfold fits.
Qed.
Lemma fits_data b data s : 0 <= m_max_response_bytes b → 0 <= m_max_trailer_bytes b → fits b s → fits b (data_on_stream b data s).
Proof.
  intros Hr Ht F. unfold data_on_stream. destruct (no_overflow (overflow s)) eqn:Eo; cbn [negb]; [|done]. destruct (fits_open _ _ F Eo) as (H1 & H2 & H3).
  destruct (m_max_response_bytes b <? _) eqn:Eb; bool_hyps; [by apply fits_oversized|].
  unfold fits. cbn [set_result ss_result response_bytes response_trailers overflow trailer_bytes]. by rewrite size_app.
Qed.
Lemma mem_refuse top l : ∀ c, mem_conn top c → (∀ e, e ∈ l → small top (ss_result e.2)) → mem_conn top (foldl refuse_stream c l).
Proof.
  induction l as [|[id s] l IH]; intros c M Hl; [done|]. cbn [foldl]. apply IH; [|intros e He; apply Hl; by right].
  apply mem_keep; [by apply mem_erase|]. destruct (Hl (id, s) (list_elem_of_here _ _)) as [? ?]. by split.
Qed.
Lemma mem_event top c e : mem_conn top c → mem_conn top (on_event c e).
Proof.
  intros M. pose proof M as [Hb Hs Hk]. destruct e as [id tr name value|id data|id code|last code|id len| |buf|err]; cbn [on_event].
  - apply mem_on_stream; [done|]. intros s. apply fits_header; lia.
  - apply mem_on_stream; [done|]. intros s. apply fits_data; lia.
  - unfold FulfillStream. destruct (m_streams c !! id) as [s|] eqn:E; [|done]. apply mem_keep; [by apply mem_erase|].
    destruct (stream_small _ _ _ M (Hs _ _ E)) as [? ?]. unfold close_result. by repeat case_match.
  - assert (mem_conn top (set_goaway true (goaway_detail last code) c)) as M' by (by split). apply mem_refuse; [done|].
    intros [id s] [_ Hin]%list_elem_of_filter. apply elem_of_map_to_list in Hin. by apply (stream_small _ _ _ M), (Hs id).
  - pose proof (mem_on_stream top (λ s, (PayloadReadCb len s).2) id c M (λ s H, H)) as H. unfold on_stream in H. destruct (m_streams c !! id); [done|by split].
  - by split.
  - unfold SniffHttp1Response. destruct (m_first_plaintext_recv c); by split.
  - by split.
Qed.
Lemma mem_events top events c : mem_conn top c → mem_conn top (run_events events c).
Proof. revert c. induction events as [|e events IH]; intros c M; [done|]. rewrite run_events_cons. by apply IH, mem_event. Qed.
Lemma mem_keep_all {A} top (f : A → nat) r l : small top r → ∀ c, mem_conn top c → mem_conn top (foldl (λ c x, keep (f x) r c) c l).
Proof. intros Hr. induction l as [|x l IH]; intros c M; [done|]. cbn. apply IH. by apply mem_keep. Qed.
Lemma mem_abandon top message c : mem_conn top c → mem_conn top (AbandonInFlight message c).
Proof.
  intros M. unfold AbandonInFlight. destruct (mem_nonneg _ _ M). pose proof (mem_keep_all top (λ e : Z * StreamState, ss_promise e.2) (abandoned message) (map_to_list (m_streams c))
    (small_empty _ _ _ _ _ _ ltac:(done) ltac:(done)) c M) as [Hb _ Hk]. split; [done| |done]. intros id s. cbn. by rewrite lookup_empty.
Qed.
Lemma mem_submit top req id c : mem_conn top c → mem_conn top (SubmitStream req id c).
Proof.
  intros M. destruct (mem_nonneg _ _ M). unfold SubmitStream. destruct (id <? 0); [by apply mem_keep, small_empty|]. pose proof M as [Hb Hs Hk]. split; [done| |done].
  intros id' s. cbn. rewrite lookup_insert_Some. intros [[_ <-]|[_ Hx]]; [|by eapply Hs]. unfold fits. cbn. change (size []) with 0. lia.
Qed.

Record mem (top : Budgets) (t : Transport) : Prop := {
  me_conn : mem_conn top (conn t);
  me_queue : size (m_pending_queue t) <= Z.max 0 (m_max_pending_requests top)
}.
Definition budgets_within (top : Budgets) (a : Action) : Prop :=
  match a with
  | AConnect o => 0 <= m_max_response_bytes (co_budgets o) <= m_max_response_bytes top ∧ 0 <= m_max_trailer_bytes (co_budgets o) <= m_max_trailer_bytes top
      ∧ m_max_pending_requests (co_budgets o) <= m_max_pending_requests top
  | _ => True
  end.
(** Steps that touch neither the connection nor the queue. *)
Lemma mem_frame top t t' : mem top t → conn t' = conn t → m_pending_queue t' = m_pending_queue t → mem top t'.
Proof. intros [? ?] E1 E2. split; by rewrite ?E1, ?E2. Qed.
Lemma mem_set_conn top t c : mem top t → mem_conn top c → mem top (set_conn c t).
Proof. intros [? ?] ?. by split. Qed.
Section run.
Context (errno_text : Z → str).
Lemma mem_exec top g a t t' : inv g t → mem top t → budgets_within top a → exec errno_text a t = Some t' → mem top t'.
Proof.
  intros I M Hb. pose proof M as [Mc Mq]. destruct (mem_nonneg _ _ Mc) as [Hr Ht].
  assert (∀ r : TransportResult, response_bytes r = [] → response_trailers r = [] → small top r) as Hsm by (intros r E1 E2; split; by rewrite ?E1, ?E2).
  assert (∀ prior e t1, mem top t1 → mem top (fail_connect prior e t1)) as Hfail by (intros prior e t1 H; by eapply mem_frame).
  destruct a as [spec|i|handle| |err rd| |events rv|events|id events|o| |attempts|a|ok events|late events rv|ok| |in_time]; cbn [exec].
  - intros [= <-]. unfold Send. case_bool_decide; [by eapply mem_frame|]. split; [by apply mem_keep; [|apply Hsm]|done].
  - unfold Send_enqueue. destruct (submitting t !! i) as [req|]; cbn [mbind option_bind]; [|done]. intros [= <-]. destruct (_ <=? _) eqn:Ef.
    + split; [by apply mem_keep; [|apply Hsm]|done].
    + split; [done|]. cbn [m_pending_queue]. bool_hyps. rewrite size_app. change (size [req]) with 1. destruct Mc as [(_ & _ & ?) _ _]. lia.
  - intros [= <-]. unfold Cancel. destruct (handle =? 0); [done|by eapply mem_frame].
  - unfold io_step. destruct (io t) as [| |err rd|err rd| | | | | |[|req local]|[|h rest]| |]; try done; try (intros [= <-]; by eapply mem_frame).
    + destruct err, rd; try done; intros [= <-]; try by eapply mem_frame.
      all: eapply (mem_frame top (set_conn (AbandonInFlight $"connection lost" (conn t)) t)); [|done|done]; by apply mem_set_conn, mem_abandon.
    + intros [= <-]. destruct (retires t); by eapply mem_frame.
    + intros [= <-]. split; [done|]. unfold size; cbn; lia.
    + destruct (_ !! h); [done|]. intros [= <-]. by eapply mem_frame.
    + intros [= <-]. destruct (retires t); by eapply mem_frame.
  - destruct (io t); try done. intros [= <-]. by eapply mem_frame.
  - destruct (io t); try done. intros [= <-]. by eapply mem_frame.
  - unfold io_recv. destruct (io t) as [| |err rd|[] []| | | | | |local|local| |]; try done. intros [= <-]. destruct (rv =? 0).
    + eapply (mem_frame top (set_conn _ t)); [|done|done]. by apply mem_set_conn, mem_events.
    + eapply (mem_frame top (set_conn _ t)); [|done|done]. by apply mem_set_conn, mem_abandon, mem_events.
  - unfold io_flush. destruct (io t) as [| |err rd|err rd| | | | | |local|[|h rest]| |]; try done; [|destruct (_ !! h); [|done]]; intros [= <-];
      (eapply (mem_frame top (set_conn _ t)); [|done|done]; by apply mem_set_conn, mem_events).
  - unfold io_submit. destruct (io t) as [| |err rd|err rd| | | | | |[|req rest]|local| |]; try done. intros [= <-].
    eapply (mem_frame top (set_conn _ t)); [|done|done]. apply mem_set_conn; [done|]. destruct (id <? 0); [|apply mem_events]; by apply mem_submit.
  - unfold connect. destruct (caller t); try done. intros [= <-]. pose proof (i_idle _ _ I) as Hidle.
    assert (m_streams (conn t) = ∅ → mem_conn top (set_budgets (co_budgets o) (conn t))) as Hset.
    { intros Es. destruct Mc as [_ _ Mk]. split; [exact Hb| |done]. intros id s. cbn. by rewrite Es, lookup_empty. }
    destruct (m_state t); try (by eapply mem_frame); (split; [apply Hset, Hidle; done|done]).
  - unfold caller_step. destruct (caller t); try done; intros [= <-]; try by eapply mem_frame.
    + destruct (ParseEndpoint _ _); [by apply Hfail|by eapply mem_frame].
    + split; [|unfold size; cbn; lia]. apply (mem_keep_all top pr_promise); [by apply Hsm|done].
  - unfold connect_tcp. destruct (caller t); try done. intros [= <-]. destruct (TcpConnect _ _); [by apply Hfail|by eapply mem_frame].
  - unfold connect_tls. destruct (caller t); try done. destruct (TlsHandshake _ _ _) as [[e|]|]; try done; intros [= <-]; [by apply Hfail|by eapply mem_frame].
  - unfold open_session. destruct (caller t); try done. intros [= <-]. set (c := set_recv _ true false false _). assert (mem_conn top c) as Mc' by (by destruct Mc).
    destruct ok; [|apply Hfail; by apply mem_set_conn]. eapply (mem_frame top (set_conn _ t)); [|done|done]. apply mem_set_conn; [done|].
    pose proof (mem_events top events c Mc') as [? ? ?]. by split.
  - unfold settings_round. destruct (caller t); try done. destruct (m_settings_ack_received (conn t)); [intros [= <-]; by eapply mem_frame|].
    destruct late; [intros [= <-]; by apply Hfail|]. destruct (_ && _ && _); intros [= <-]; [apply Hfail|]; by apply mem_set_conn, mem_events.
  - unfold register. destruct (caller t); try done. intros [= <-]. destruct ok; [by eapply mem_frame|by apply Hfail].
  - unfold close. destruct (caller t); try done. intros [= <-]. case_bool_decide; by eapply mem_frame.
  - unfold join. destruct (caller t); try done. destruct (io t); try done. intros [= <-]. eapply (mem_frame top (set_conn _ t)); [|done|done]. by apply mem_set_conn, mem_abandon.
Qed.
Lemma mem_all top o actions g t : m_max_response_bytes default_budgets <= m_max_response_bytes top → m_max_trailer_bytes default_budgets <= m_max_trailer_bytes top →
  m_max_pending_requests default_budgets <= m_max_pending_requests top → Forall (budgets_within top) actions →
  exec_all errno_text actions (Http2Transport_Create o) = Some t → ng_run actions ng_new = Some g → mem top t.
Proof.
  intros H1 H2 H3. cbn in H1, H2, H3. revert g t. induction actions as [|a actions IH] using rev_ind; intros g t Hf.
  - intros [= <-] _. split; [split|]; cbn; [lia|intros id s; by rewrite lookup_empty|by intros e Hin%elem_of_nil|unfold size; cbn; lia].
  - apply Forall_app in Hf as [Hf Ha]. rewrite Forall_singleton in Ha. rewrite ng_run_snoc, transport_run_snoc.
    destruct (exec_all errno_text actions _) as [t1|] eqn:E1; cbn [mbind option_bind]; [|done]. destruct (ng_run actions ng_new) as [g1|] eqn:Eg1; cbn [mbind option_bind]; [|done].
    intros E Eg. apply (mem_exec top g1 a t1); [by eapply inv_all; [apply inv_new|..]|by eapply IH|done|done].
Qed.

(** C11: Memory stays within the budgets whatever the peer sends and however often the
    transport reconnects with other budgets: in every reachable state no response
    under way holds more body or trailer bytes than the budget of its connection, no
    result ever handed on does, and the request queue never exceeds its bound. *)
Theorem http2_memory_bounded top o actions g t :
  m_max_response_bytes default_budgets <= m_max_response_bytes top → m_max_trailer_bytes default_budgets <= m_max_trailer_bytes top →
  m_max_pending_requests default_budgets <= m_max_pending_requests top → Forall (budgets_within top) actions →
  exec_all errno_text actions (Http2Transport_Create o) = Some t → ng_run actions ng_new = Some g →
  (∀ id s, m_streams (conn t) !! id = Some s →
     size (response_bytes (ss_result s)) <= m_max_response_bytes (m_budgets (conn t)) ∧ field_bytes (response_trailers (ss_result s)) <= m_max_trailer_bytes (m_budgets (conn t)))
  ∧ (∀ p r, (p, r) ∈ kept (conn t) → size (response_bytes r) <= m_max_response_bytes top ∧ field_bytes (response_trailers r) <= m_max_trailer_bytes top)
  ∧ size (m_pending_queue t) <= m_max_pending_requests top.
Proof.
  intros H1 H2 H3 Hf E Eg. destruct (mem_all _ _ _ _ _ H1 H2 H3 Hf E Eg) as [[_ Hs Hk] Hq]. split_and!.
  - intros id s Hid. destruct (Hs _ _ Hid) as (? & ? & _). done.
  - intros p r Hin. exact (Hk _ Hin).
  - cbn in H3. lia.
Qed.
End run.
