(* ===== verification/Http2Close.v ===== *)
(** * The end of the HTTP/2 transport

    Close terminates: once it waits for the I/O thread, that thread leaves its loop
    within a number of steps computed from the state and the events still dispatched.
    Two interleavings show what Close does not exclude: a Send that has passed its
    check reaches the queue of a transport nobody serves, and an I/O thread about to
    report a lost connection overwrites Closed.  The file ends with a sample run and
    the witnesses of the theorems on the transport. *)
From stdpp Require Import gmap list.
From S2P Require Import Prelude Data RetryEngine ProtoReader Wire Http2Connect Http2 Http2Spec Http2Run.

Definition io_weight (p : IoPc) : nat :=
  match p with
  | IoExited => 0 | IoTop => 1 | IoFinish => 2 | IoCancel l => 3 + length l | IoSubmit l => 4 + length l | IoDrain => 5 | IoGate => 6 | IoWait => 7
  | IoSend => 8 | IoStore => 8 | IoRetire => 9 | IoHandle _ _ => 10 | IoEvent _ _ => 11
  end.
(** What the I/O thread may still do before it reads [m_stop] again. *)
Definition work (t : Transport) : nat := io_weight (io t) + length (m_pending_queue t) + length (submitting t) + length (m_cancel_queue t).
Definition io_action (a : Action) : bool := match a with AIo | AReady _ _ | AIdle | ARecv _ _ | AFlush _ | ASubmit _ _ => true | _ => false end.
Definition is_ready (a : Action) : bool := match a with AReady _ _ => true | _ => false end.
Definition is_cancel (a : Action) : bool := match a with ACancel _ => true | _ => false end.
Definition not_join (a : Action) : bool := match a with AJoined _ => false | _ => true end.
Definition tally (f : Action → bool) (l : list Action) : nat := length (List.filter f l).
Lemma tally_snoc f l a : tally f (l ++ [a]) = (tally f l + if f a then 1 else 0)%nat.
Proof. unfold tally. rewrite List.filter_app, length_app. cbn. by destruct (f a). Qed.

Section run.
Context (errno_text : Z → str).
(** While Close waits: the state is not Connected, and the flag is up. *)
Record joining (t : Transport) : Prop := { jo_caller : caller t = CJoin; jo_stop : m_stop t = true; jo_state : m_state t ≠ Connected }.
Lemma retires_connected t : m_state t ≠ Connected → retires t = false.
Proof. intros H. unfold retires. rewrite (bool_decide_false (m_state t = Connected)) by done. by rewrite andb_false_r. Qed.
Lemma joining_io_step t t' : joining t → io_step t = Some t' → joining t' ∧ (work t' < work t)%nat.
Proof.
  intros [Hc Hs Hst]. unfold io_step, work. pose proof (retires_connected _ Hst) as Hr.
  destruct (io t) as [| |err rd|err rd| | | | | |[|req local]|[|h rest]| |] eqn:Ep; try done.
  - intros [= <-]. rewrite Hs. split; [by split|]. cbn. lia.
  - intros [= <-]. rewrite bool_decide_false by done. split; [by split|]. cbn. lia.
  - destruct err, rd; try done; intros [= <-]; (split; [by split|cbn; lia]).
  - intros [= <-]. split; [by split|]. cbn. lia.
  - intros [= <-]. rewrite Hr. split; [by split|]. cbn. lia.
  - intros [= <-]. rewrite bool_decide_false by done. split; [by split|]. cbn. lia.
  - intros [= <-]. split; [by split|]. cbn. lia.
  - intros [= <-]. split; [by split|]. cbn. lia.
  - intros [= <-]. split; [by split|]. cbn. lia.
  - destruct (_ !! h); [done|]. intros [= <-]. split; [by split|]. cbn. lia.
  - intros [= <-]. rewrite Hr. split; [by split|]. cbn. lia.
Qed.
Lemma joining_exec a t t' : joining t → not_join a = true → exec errno_text a t = Some t' →
  joining t' ∧ (work t' + (if io_action a then 1 else 0) <= work t + (if is_ready a then 5 else 0) + (if is_cancel a then 1 else 0))%nat.
Proof.
  intros J. pose proof J as [Hc Hs Hst]. destruct a as [spec|i|handle| |err rd| |events rv|events|id events|o| |attempts|a|ok events|late events rv|ok| |in_time]; cbn [exec not_join io_action is_ready is_cancel]; try done.
  - intros _ [= <-]. unfold Send. rewrite bool_decide_false by done. split; [by split|]. unfold work. cbn. lia.
  - intros _. unfold Send_enqueue. destruct (submitting t !! i) as [req|] eqn:E; cbn [mbind option_bind]; [|done]. intros [= <-]. split; [by split|].
    unfold work. cbn. rewrite length_delete by (by rewrite E). pose proof (lookup_lt_Some _ _ _ E). destruct (_ <=? _); rewrite ?length_app; cbn; lia.
  - intros _ [= <-]. unfold Cancel. destruct (handle =? 0); [split; [done|lia]|]. split; [by split|]. unfold work. cbn. rewrite length_app. cbn. lia.
  - intros _ E. destruct (joining_io_step _ _ J E). split; [done|lia].
  - intros _. destruct (io t) eqn:Ep; try done. intros [= <-]. split; [by split|]. unfold work. rewrite Ep. cbn. lia.
  - intros _. destruct (io t) eqn:Ep; try done. intros [= <-]. split; [by split|]. unfold work. rewrite Ep. cbn. lia.
  - intros _. unfold io_recv. destruct (io t) as [| |err rd|[] []| | | | | |local|local| |] eqn:Ep; try done. intros [= <-].
    destruct (rv =? 0); (split; [by split|]); unfold work; rewrite Ep; cbn; lia.
  - intros _. unfold io_flush. destruct (io t) as [| |err rd|err rd| | | | | |local|[|h rest]| |] eqn:Ep; try done; [|destruct (_ !! h); [|done]]; intros [= <-];
      (split; [by split|]); unfold work; rewrite Ep; cbn; lia.
  - intros _. unfold io_submit. destruct (io t) as [| |err rd|err rd| | | | | |[|req rest]|local| |] eqn:Ep; try done. intros [= <-].
    split; [by split|]. unfold work. rewrite Ep. cbn. lia.
  - intros _. unfold connect. by rewrite Hc.
  - intros _. unfold caller_step. by rewrite Hc.
  - intros _. unfold connect_tcp. by rewrite Hc.
  - intros _. unfold connect_tls. by rewrite Hc.
  - intros _. unfold open_session. by rewrite Hc.
  - intros _. unfold settings_round. by rewrite Hc.
  - intros _. unfold register. by rewrite Hc.
  - intros _. unfold close. by rewrite Hc.
Qed.
Lemma joining_all more t t' : joining t → forallb not_join more = true → exec_all errno_text more t = Some t' →
  joining t' ∧ (work t' + tally io_action more <= work t + 5 * tally is_ready more + tally is_cancel more)%nat.
Proof.
  intros J. revert t'. induction more as [|a more IH] using rev_ind; intros t'; [intros _ [= <-]; split; [done|cbn; lia]|].
  rewrite forallb_app, transport_run_snoc. intros [Hm Ha]%andb_true_iff. cbn in Ha. rewrite andb_true_r in Ha.
  destruct (exec_all errno_text more t) as [t1|]; cbn [mbind option_bind]; [|done]. intros E. destruct (IH t1 Hm eq_refl) as [J1 Hle].
  destruct (joining_exec _ _ _ J1 Ha E) as [J' Hle']. split; [done|]. rewrite !tally_snoc. destruct (io_action a), (is_ready a), (is_cancel a); lia.
Qed.
(** The flag is up when Close waits. *)
Definition stop_ok (t : Transport) : Prop := match caller t with CJoin | CFlush _ => m_stop t = true | _ => True end.
Lemma stop_ok_exec a t t' : stop_ok t → exec errno_text a t = Some t' → stop_ok t'.
Proof.
  intros S. assert (∀ t1, caller t1 = caller t → m_stop t1 = m_stop t → stop_ok t1) as Hsame by (intros t1 E1 E2; unfold stop_ok in *; by rewrite E1, E2).
  assert (∀ t1 p e, stop_ok (fail_connect p e t1)) as Hfail by done.
  destruct a as [spec|i|handle| |err rd| |events rv|events|id events|o| |attempts|a|ok events|late events rv|ok| |in_time]; cbn [exec].
  - intros [= <-]. unfold Send. by case_bool_decide.
  - unfold Send_enqueue. destruct (submitting t !! i); cbn [mbind option_bind]; [|done]. by intros [= <-].
  - intros [= <-]. unfold Cancel. by destruct (handle =? 0).
  - unfold io_step. destruct (io t) as [| |err rd|err rd| | | | | |[|req local]|[|h rest]| |]; try done; try (by intros [= <-]).
    + destruct err, rd; try done; by intros [= <-].
    + intros [= <-]. by destruct (retires t).
    + destruct (_ !! h); [done|]. by intros [= <-].
    + intros [= <-]. by destruct (retires t).
  - destruct (io t); try done. by intros [= <-].
  - destruct (io t); try done. by intros [= <-].
  - unfold io_recv. destruct (io t) as [| |err rd|[] []| | | | | |local|local| |]; try done. intros [= <-]. by destruct (rv =? 0).
  - unfold io_flush. destruct (io t) as [| |err rd|err rd| | | | | |local|[|h rest]| |]; try done; [|destruct (_ !! h); [|done]]; by intros [= <-].
  - unfold io_submit. destruct (io t) as [| |err rd|err rd| | | | | |[|req rest]|local| |]; try done. by intros [= <-].
  - unfold connect. destruct (caller t); try done. intros [= <-]. by destruct (m_state t).
  - unfold caller_step. destruct (caller t); try done; intros [= <-]; [by destruct (ParseEndpoint _ _)|done|done].
  - unfold connect_tcp. destruct (caller t); try done. intros [= <-]. destruct (TcpConnect _ _); [done|]. unfold stop_ok. cbn. by destruct (ep_use_tls ep).
  - unfold connect_tls. destruct (caller t); try done. destruct (TlsHandshake _ _ _) as [[e|]|]; try done; by intros [= <-].
  - unfold open_session. destruct (caller t); try done. intros [= <-]. by destruct ok.
  - unfold settings_round. destruct (caller t) eqn:Ec; try done. destruct (m_settings_ack_received (conn t)); [by intros [= <-]|].
    destruct late; [by intros [= <-]|]. destruct (_ && _ && _); intros [= <-]; [done|by apply Hsame].
  - unfold register. destruct (caller t); try done. intros [= <-]. by destruct ok.
  - unfold close. destruct (caller t); try done. intros [= <-]. by case_bool_decide.
  - unfold join. destruct (caller t) eqn:Ec; try done. destruct (io t); try done. intros [= <-]. unfold stop_ok in *. by rewrite Ec in S.
Qed.
Lemma stop_ok_all actions t t' : stop_ok t → exec_all errno_text actions t = Some t' → stop_ok t'.
Proof.
  intros S. revert t'. induction actions as [|a actions IH] using rev_ind; intros t'; [by intros [= <-]|].
  rewrite transport_run_snoc. destruct (exec_all errno_text actions t) as [t1|]; cbn [mbind option_bind]; [|done]. intros E. eapply stop_ok_exec; [|exact E]. by apply IH.
Qed.
Lemma io_progress t : io t ≠ IoExited → ∃ a, io_action a = true ∧ is_ready a = false ∧ is_Some (exec errno_text a t).
Proof.
  intros Hne. assert (∀ a t', io_action a = true → is_ready a = false → exec errno_text a t = Some t' → ∃ a, io_action a = true ∧ is_ready a = false ∧ is_Some (exec errno_text a t)) as H by eauto.
  destruct (io t) as [| |err rd|err rd| | | | | |[|req local]|[|h rest]| |] eqn:Ep; try done;
    try (eapply (H AIo); [done|done|cbn [exec]; unfold io_step; rewrite Ep; reflexivity]).
  - eapply (H AIdle); [done|done|cbn [exec]; rewrite Ep; reflexivity].
  - destruct err, rd; try (eapply (H AIo); [done|done|cbn [exec]; unfold io_step; rewrite Ep; reflexivity]).
    eapply (H (ARecv [] 0)); [done|done|cbn [exec]; unfold io_recv; rewrite Ep; reflexivity].
  - eapply (H (AFlush [])); [done|done|cbn [exec]; unfold io_flush; rewrite Ep; reflexivity].
  - eapply (H (ASubmit (-1) [])); [done|done|cbn [exec]; unfold io_submit; rewrite Ep; reflexivity].
  - destruct (m_handle_to_stream (conn t) !! h) eqn:Eh.
    + eapply (H (AFlush [])); [done|done|cbn [exec]; unfold io_flush; rewrite Ep, Eh; reflexivity].
    + eapply (H AIo); [done|done|cbn [exec]; unfold io_step; rewrite Ep, Eh; reflexivity].
Qed.

(** C9: Close terminates.  While it waits for the I/O thread, that thread makes a
    number of steps bounded by the state and, five each, by the events the reactor
    still dispatches; it is never blocked, and once it has left its loop the join goes
    through. *)
Theorem http2_close_terminates o actions g t more t' :
  exec_all errno_text actions (Http2Transport_Create o) = Some t → ng_run actions ng_new = Some g → caller t = CJoin →
  exec_all errno_text more t = Some t' → forallb not_join more = true →
  (tally io_action more <= work t + 5 * tally is_ready more + tally is_cancel more)%nat
  ∧ (io t' = IoExited → is_Some (exec errno_text (AJoined true) t'))
  ∧ (io t' ≠ IoExited → ∃ a, io_action a = true ∧ is_ready a = false ∧ is_Some (exec errno_text a t')).
Proof.
  intros E Eg Ec E' Hm. pose proof (inv_all _ _ _ _ _ _ (inv_new o) Eg E) as I. pose proof (stop_ok_all actions (Http2Transport_Create o) t Logic.I E) as S.
  pose proof (i_caller _ _ I) as Hc. unfold caller_ok in Hc. unfold stop_ok in S. rewrite Ec in *.
  assert (joining t) as J by (split; [done|done|destruct Hc; congruence]). destruct (joining_all _ _ _ J Hm E') as [[Ec' _ _] Hle].
  split; [lia|]. split; [|apply io_progress]. intros Eio. cbn [exec]. unfold join. rewrite Ec', Eio. by eexists.
Qed.
End run.

(** ** Runs *)

Definition ex_text : Z → str := λ _, [].
Definition ex_budgets : Budgets := mkBudgets 8 16 2.
Definition ex_connect_options : ConnectOptions := mkConnectOptions $"http://collector:4318" (mkTlsOptions true [] [] [] []) ex_budgets.
Definition ex_request (b : Z) : RequestSpec := mkSpec [mkHeaderField $":method" $"POST"] [b; b].
(** Connect over plaintext, the second address taking the connection. *)
Definition ex_connect : list Action :=
  [AConnect ex_connect_options; ACaller; AResolved (Some [ConnectErrno ECONNREFUSED; ConnectOk]); ASession true []; ARound false [EvSettingsAck] 0;
   ARound false [] 0; ARegister true].
(** Three requests, the last one too many for the queue; two streams; a response and a
    GOAWAY that refuses the second stream; a second connection with a response that is
    too large. *)
Definition ex_traffic : list Action :=
  [ASend (ex_request 1); AEnqueue 0; ASend (ex_request 2); ASend (ex_request 3); AEnqueue 0; AEnqueue 0;
   AIo; AIdle; AIo; AIo; ASubmit 1 [EvRead 1 100]; ASubmit 3 []; AIo; AIo; AIo; AIo; AReady false true; AIo;
   ARecv [EvHeader 1 false $":status" $"200"; EvData 1 [1]; EvGoaway 1 0; EvData 1 [2]; EvClose 1 0; EvClose 3 7] 0; AIo]
  ++ ex_connect ++
  [ASend (ex_request 4); AEnqueue 0; AIdle; AIo; AIo; ASubmit 1 []; AIo; AIo; AIo; AIo; AReady false true; AIo; ARecv [EvData 1 [1; 2; 3; 4; 5; 6; 7; 8; 9]; EvClose 1 8] 0; AIo; AFlush []].
Definition ex_closing : list Action := [ASend (ex_request 5); AEnqueue 0; AClose; ACaller].
Definition ex_stopping : list Action := [AIdle; AIo; AIo].
Definition ex_state (actions : list Action) : Transport := default (Http2Transport_Create ex_connect_options) (exec_all ex_text actions (Http2Transport_Create ex_connect_options)).
Definition ex_ng (actions : list Action) : Ng := default ng_new (ng_run actions ng_new).
Definition ex_waiting : Transport := Eval vm_compute in ex_state (ex_connect ++ ex_traffic ++ ex_closing).
Definition ex_flushing : Transport := Eval vm_compute in ex_state (ex_connect ++ ex_traffic ++ ex_closing ++ ex_stopping ++ [AJoined true]).
Definition ex_closed : Transport := Eval vm_compute in ex_state (ex_connect ++ ex_traffic ++ ex_closing ++ ex_stopping ++ [AJoined true; ACaller]).
Definition ex_ng_end : Ng := Eval vm_compute in ex_ng (ex_connect ++ ex_traffic ++ ex_closing ++ ex_stopping ++ [AJoined true]).
Definition outcome (k : nat * TransportResult) : nat * bool * bool * list Z := (k.1, tr_success k.2, response_too_large k.2, response_bytes k.2).
Lemma ex_outcomes : outcome <$> kept (conn ex_closed)
  = [(2%nat, false, false, []); (1%nat, false, false, []); (0%nat, true, false, [1; 2]); (3%nat, false, true, []); (4%nat, false, false, [])].
Proof. by vm_compute. Qed.

(** A thread that has passed the check of Send when Close starts reaches the queue
    after Close has emptied it: Close has returned Completed, the I/O thread is gone,
    and nothing will ever keep the promise. *)
Lemma send_close_race :
  let t := ex_state (ex_connect ++ [AIo; ASend (ex_request 1); AClose; ACaller; AIdle; AIo; AIo; AJoined true; ACaller; AEnqueue 0]) in
  m_state t = Closed ∧ io t = IoExited ∧ last (returned t) = Some (CloseResult Completed) ∧ (pr_promise <$> m_pending_queue t) = [0%nat] ∧ kept (conn t) = [].
Proof. by vm_compute. Qed.
(** The I/O thread has seen an error event and passed the check of [m_state] when
    Close publishes Closed: it overwrites Closed with Reconnecting.  The closed
    transport then connects again, and takes requests that no thread serves. *)
Lemma close_resurrected :
  let t := ex_state (ex_connect ++ [AIo; AReady true false; AIo; AClose; AIo; AIo; ACaller; AIdle; AIo; AIo; AJoined true; ACaller]) in
  m_state t = Reconnecting ∧ last (returned t) = Some (CloseResult Completed)
  ∧ let t' := ex_state (ex_connect ++ [AIo; AReady true false; AIo; AClose; AIo; AIo; ACaller; AIdle; AIo; AIo; AJoined true; ACaller] ++ ex_connect ++ [ASend (ex_request 1); AEnqueue 0]) in
    m_state t' = Connected ∧ io t' = IoExited ∧ (pr_promise <$> m_pending_queue t') = [0%nat].
Proof. by vm_compute. Qed.

(** ** Witnesses *)

Definition ex_all : list Action := ex_connect ++ ex_traffic ++ ex_closing.
Definition ex_ng_waiting : Ng := Eval vm_compute in ex_ng ex_all.
Lemma ex_waiting_reached : exec_all ex_text ex_all (Http2Transport_Create ex_connect_options) = Some ex_waiting.
Proof. vm_compute. reflexivity. Qed.
Lemma ex_ng_reached : ng_run ex_all ng_new = Some ex_ng_waiting.
Proof. vm_compute. reflexivity. Qed.
Lemma ex_flushing_reached : exec_all ex_text (ex_all ++ ex_stopping ++ [AJoined true]) (Http2Transport_Create ex_connect_options) = Some ex_flushing.
Proof. vm_compute. reflexivity. Qed.
Lemma ex_ng_end_reached : ng_run (ex_all ++ ex_stopping ++ [AJoined true]) ng_new = Some ex_ng_end.
Proof. vm_compute. reflexivity. Qed.

Lemma http2_promises_kept_once_witness : NoDup (kept (conn ex_waiting)).*1 ∧ (kept (conn ex_waiting)).*1 = [2; 1; 0; 3]%nat.
Proof.
  split; [|reflexivity].
  exact (proj1 (proj2 (http2_promises_kept_once ex_text ex_connect_options ex_all ex_ng_waiting ex_waiting ex_waiting_reached ex_ng_reached))).
Defined.
Lemma http2_close_answers_witness :
  (∃ r, (4%nat, r) ∈ kept (conn ex_closed)) ∧ (pr_promise <$> submitting ex_closed) ++ (kept (conn ex_closed)).*1 ≡ₚ seq 0 (promises ex_closed).
Proof.
  pose proof (http2_close_answers ex_text ex_connect_options (ex_all ++ ex_stopping ++ [AJoined true]) ex_ng_end ex_flushing true ex_closed
    ex_flushing_reached ex_ng_end_reached eq_refl ltac:(vm_compute; reflexivity)) as (_ & _ & _ & _ & Hp & H).
  split; [exact (H eq_refl 4%nat ltac:(cbn; lia))|exact Hp].
Defined.
Lemma http2_connect_exclusive_witness : uses_session (io ex_waiting) = true → m_state ex_waiting = Connected ∨ m_state ex_waiting = Closed.
Proof. exact (proj1 (proj2 (http2_connect_exclusive ex_text ex_connect_options ex_all ex_ng_waiting ex_waiting ex_waiting_reached ex_ng_reached))). Defined.
Definition ex_stopped : Transport := Eval vm_compute in ex_state (ex_all ++ ex_stopping).
Lemma ex_stopped_reached : exec_all ex_text ex_stopping ex_waiting = Some ex_stopped.
Proof. vm_compute. reflexivity. Qed.
Lemma http2_close_terminates_witness :
  (tally io_action ex_stopping <= work ex_waiting + 5 * tally is_ready ex_stopping + tally is_cancel ex_stopping)%nat ∧ is_Some (exec ex_text (AJoined true) ex_stopped).
Proof.
  pose proof (http2_close_terminates ex_text ex_connect_options ex_all ex_ng_waiting ex_waiting ex_stopping ex_stopped
    ex_waiting_reached ex_ng_reached eq_refl ex_stopped_reached eq_refl) as (H1 & H2 & _).
  split; [exact H1|exact (H2 eq_refl)].
Defined.
Definition ex_top : Budgets := default_budgets.
Lemma http2_memory_bounded_witness : size (m_pending_queue ex_waiting) <= 64.
Proof.
  refine (proj2 (proj2 (http2_memory_bounded ex_text ex_top ex_connect_options ex_all ex_ng_waiting ex_waiting _ _ _ _ ex_waiting_reached ex_ng_reached))); try (cbn; lia).
  repeat (constructor; [cbn; first [exact I|lia]|]). constructor.
Defined.
Lemma http2_response_exact_witness :
  let req := mkPending (ex_request 1) 0 1 in let c0 := conn ex_waiting in let events := [EvHeader 5 false $":status" $"200"; EvData 3 [9]; EvData 5 [1]; EvRead 5 1; EvData 5 [2]] in
  ∃ r, kept (FulfillStream 5 0 (run_events events (SubmitStream req 5 c0))) = kept (run_events events (SubmitStream req 5 c0)) ++ [(0%nat, r)]
    ∧ r = mkTransportResult true [mkHeaderField $":status" $"200"] [] [1; 2] None false false.
Proof.
  intros req c0 events.
  destruct (http2_response_exact req 5 c0 events 0 ltac:(done) ltac:(done) ltac:(done) eq_refl) as (_ & r & Hk & Hr & _).
  exists r. split; [exact Hk|exact (Hr eq_refl)].
Defined.
