(* ===== verification/GrpcCodec.v ===== *)
(** * gRPC wire codec

    Model of [src/wire/grpc/grpc_wire_codec.cpp]: extraction of [RetryInfo] from
    [grpc-status-details-bin], message framing, classification of a transport
    result into a [WireResult], and [Send].  The protobuf reader functions, which
    the file repeats, are those of [ProtoReader].

    What it shares with the HTTP codec is in [Wire].  The signed product in
    [ParseDurationMs] may overflow, which is undefined: [None] at the outside of a
    result.

    The theorems: framing round trip and exactness, the [RetryInfo] round trip
    with its overflow condition, and when a response is a success, retryable or
    terminal. *)
From S2P Require Import Prelude Data RetryEngine ProtoReader GrpcStatus Wire.

Definition kRetryInfoTypeUrl : str := $"type.googleapis.com/google.rpc.RetryInfo".
Definition kGrpcTracesPath : str := $"/opentelemetry.proto.collector.trace.v1.TraceService/Export".
Definition kUserAgent : str := $"microtel-cpp/1.2.3".
Definition kMillisPerSecond : Z := 1000.
Definition kNanosPerMilli : Z := 1000000.
Definition kGrpcFrameHeaderSize : nat := 5.

(** ** [RetryInfo] *)

(** The field number and wire type of a tag, with the cast to [uint32_t]. *)
Definition tag_field (tag : Z) : Z := to_uint 32 (Z.shiftr tag 3).
Definition tag_type (tag : Z) : Z := Z.land tag 7.

Definition ParseDurationField (data : Bytes) (fn wt : Z) (acc : Z * Z) : option (Z * Z * Bytes) :=
  if (fn =? 1) && (wt =? 0) then
    match ReadVarint data with Some (v, d) => Some (to_sint 64 v, snd acc, d) | None => None end
  else if (fn =? 2) && (wt =? 0) then
    match ReadVarint data with Some (v, d) => Some (fst acc, to_sint 32 v, d) | None => None end
  else match SkipField data wt with Some d => Some (acc, d) | None => None end.

Definition duration_body (data : Bytes) (acc : Z * Z) : option (Z * Z * Bytes) :=
  match ReadVarint data with
  | None => None
  | Some (tag, d) => ParseDurationField d (tag_field tag) (tag_type tag) acc
  end.
(** [seconds * 1000 + nanos / 1000000] in [int64_t]. *)
Definition duration_ms (seconds nanos : Z) : option Z :=
  let ms := seconds * kMillisPerSecond in
  let total := ms + Z.quot nanos kNanosPerMilli in
  if in_i64 ms && in_i64 total then Some total else None.
Definition ParseDurationMs (data : Bytes) : option (option Z) :=
  match walk duration_body (length data) data (0, 0) with
  | None => Some None
  | Some (seconds, nanos) => Some <$> duration_ms seconds nanos
  end.

Definition ReadRetryDelayField (data : Bytes) : option (option Z) :=
  match ReadLenDelim data with
  | None => Some None
  | Some (delay_bytes, _) => ParseDurationMs delay_bytes
  end.

(** [while (!data.empty()) { body }] whose body may also return from the
    function. *)
Inductive Turn (R : Type) := Return (r : R) | Next (data : Bytes).
Arguments Return {R}.
Arguments Next {R}.
Fixpoint search {R} (body : Bytes → Turn R) (at_end : R) (fuel : nat) (data : Bytes) : option R :=
  match data with
  | [] => Some at_end
  | _ => match fuel with
         | O => None
         | S fuel' => match body data with
                      | Return r => Some r
                      | Next data' => search body at_end fuel' data'
                      end
         end
  end.

Definition retry_info_body (data : Bytes) : Turn (option (option Z)) :=
  match ReadVarint data with
  | None => Return (Some None)
  | Some (tag, d) =>
      if (tag_field tag =? 1) && (tag_type tag =? 2) then Return (ReadRetryDelayField d)
      else match SkipField d (tag_type tag) with None => Return (Some None) | Some d' => Next d' end
  end.
Definition ParseRetryInfoMs (data : Bytes) : option (option Z) :=
  default (Some None) (search retry_info_body (Some None) (length data) data).

Definition ParseAnyField (data : Bytes) (fn wt : Z) (acc : str * option Bytes)
    : option (str * option Bytes * Bytes) :=
  if (fn =? 1) && (wt =? 2) then
    match ReadLenDelim data with Some (b, d) => Some (bytes_to_str b, snd acc, d) | None => None end
  else if (fn =? 2) && (wt =? 2) then
    match ReadLenDelim data with Some (b, d) => Some (fst acc, Some b, d) | None => None end
  else match SkipField data wt with Some d => Some (acc, d) | None => None end.
Definition any_body (data : Bytes) (acc : str * option Bytes) : option (str * option Bytes * Bytes) :=
  match ReadVarint data with
  | None => None
  | Some (tag, d) => ParseAnyField d (tag_field tag) (tag_type tag) acc
  end.
Definition ParseAny (data : Bytes) : option (str * Bytes) :=
  match walk any_body (length data) data ([], None) with
  | Some (type_url, Some value) => Some (type_url, value)
  | _ => None
  end.
Definition TryParseRetryInfoFromAny (any_bytes : Bytes) : option (option Z) :=
  match ParseAny any_bytes with
  | None => Some None
  | Some (type_url, value) =>
      if negb (type_url =s kRetryInfoTypeUrl) then Some None else ParseRetryInfoMs value
  end.

(** [SearchStatusField]: the early return, or the rest of the message. *)
Definition SearchStatusField (data : Bytes) (fn wt : Z) : Turn (option (option Z)) :=
  if (fn =? 3) && (wt =? 2) then
    match ReadLenDelim data with
    | None => Return (Some None)
    | Some (any_bytes, d) =>
        match TryParseRetryInfoFromAny any_bytes with
        | Some None => Next d
        | r => Return r
        end
    end
  else match SkipField data wt with None => Return (Some None) | Some d => Next d end.
Definition status_body (data : Bytes) : Turn (option (option Z)) :=
  match ReadVarint data with
  | None => Return (Some None)
  | Some (tag, d) => SearchStatusField d (tag_field tag) (tag_type tag)
  end.
Definition ParseStatusForRetryInfo (data : Bytes) : option (option Z) :=
  default (Some None) (search status_body (Some None) (length data) data).

Definition TryDecodeRetryDelay (details_bin : str) : option (option Z) :=
  match Base64UrlDecode details_bin with
  | None | Some [] => Some None
  | Some bytes => ParseStatusForRetryInfo bytes
  end.

(** ** Headers *)

Fixpoint ParseHttpStatus (headers : list HeaderField) : Z :=
  match headers with
  | [] => 0
  | h :: rest =>
      if negb (hf_name h =s $":status") then ParseHttpStatus rest
      else match from_chars_int (hf_value h) with Some status => status | None => ParseHttpStatus rest end
  end.

(** ** Framing *)

Inductive FrameError := FrameMalformed | FrameTooLarge | UnparseableMessage.
Definition byte_at (b : Bytes) (i : nat) : Z := nth i b 0.
Definition ReadFrameLength (body : Bytes) : Z :=
  Z.lor (Z.lor (Z.lor (Z.shiftl (byte_at body 1) 24) (Z.shiftl (byte_at body 2) 16))
           (Z.shiftl (byte_at body 3) 8)) (byte_at body 4).

Definition FramePayload (body : Bytes) (compressed : bool) : Bytes :=
  let n := size body in
  [if compressed then 1 else 0; Z.land (Z.shiftr n 24) 255; Z.land (Z.shiftr n 16) 255;
   Z.land (Z.shiftr n 8) 255; Z.land n 255] ++ body.

Section codec.
Context (GzipCompress : Bytes → option Bytes)
        (GzipDecompress : Bytes → Z → Bytes + GzipDecompressError).

Definition DecodeResponseFrame (body : Bytes) (max_decompressed : Z) : Bytes + FrameError :=
  match body with
  | [] => inl []
  | flag :: _ =>
      if (length body <? kGrpcFrameHeaderSize)%nat then inr FrameMalformed
      else
        let message := drop kGrpcFrameHeaderSize body in
        if negb (ReadFrameLength body =? size message) then inr FrameMalformed
        else if flag =? 0 then inl message
        else if negb (flag =? 1) then inr FrameMalformed
        else match GzipDecompress message max_decompressed with
             | inl inflated => inl inflated
             | inr GzipTooLarge => inr FrameTooLarge
             | inr Corrupt => inr FrameMalformed
             end
  end.

(** ** Classification *)

Definition FrameFailure (err : FrameError) (diag : bool) : Classified :=
  let too_large := match err with FrameTooLarge => true | _ => false end in
  let message := match err with
                 | FrameTooLarge => $"response exceeds max_decompressed_bytes"
                 | UnparseableMessage => $"unparseable export response message"
                 | FrameMalformed => $"malformed gRPC response frame"
                 end in
  mkClassified (failure false None (Some (mkError KMalformed message 0)) [])
    (drop_if diag (if too_large then DecompressionTooLarge else MalformedResponse)) [].

(** Trailers first, then the initial headers. *)
Definition trailer_or_header (tr : TransportResult) (n : str) : option str :=
  match FindHeaderValue (response_trailers tr) n with
  | Some v => Some v
  | None => FindHeaderValue (response_headers tr) n
  end.

Definition DecodeGrpcMessage (tr : TransportResult) : str :=
  match trailer_or_header tr $"grpc-message" with
  | None | Some [] => []
  | Some raw => PercentDecode raw
  end.
Definition BuildExcerpt (message : str) : str :=
  if (length message <=? kMaxGrpcMessageChars)%nat then message else take kMaxGrpcMessageChars message.

Definition missing_status_warning (http_status : Z) : str :=
  $"gRPC response carried no grpc-status trailer (HTTP " ++ to_string http_status
  ++ $") - an intermediary is terminating gRPC streams without trailers; see docs/grpc-wire-protocol.md 4.2".
(** [ClassifyMissingGrpcStatus]; [already_warned] is set to true by the caller's
    reference in every case. *)
Definition ClassifyMissingGrpcStatus (headers : list HeaderField) (diag already_warned : bool) : Classified :=
  let http_status := ParseHttpStatus headers in
  let retry := (http_status =? 429) || (http_status =? 502) || (http_status =? 503) || (http_status =? 504) in
  mkClassified
    (failure retry None
       (Some (mkError KProtocol ($"missing grpc-status (HTTP " ++ to_string http_status ++ $")") 0)) [])
    (if negb retry then drop_if diag MalformedResponse else [])
    (if already_warned then [] else [missing_status_warning http_status]).

Definition ResourceExhaustedWithoutRetryInfo (tr : TransportResult) : WireResult :=
  let decoded := DecodeGrpcMessage tr in
  failure false None
    (Some (mkError KProtocol (FormatGrpcError 8 decoded ++ $" - no RetryInfo, not retried") 0))
    (BuildExcerpt decoded).
Definition ClassifyResourceExhausted (tr : TransportResult) : option WireResult :=
  match trailer_or_header tr $"grpc-status-details-bin" with
  | None => Some (ResourceExhaustedWithoutRetryInfo tr)
  | Some details =>
      match TryDecodeRetryDelay details with
      | None => None
      | Some None => Some (ResourceExhaustedWithoutRetryInfo tr)
      | Some (Some delay) => Some (failure true (Some delay) None [])
      end
  end.

Definition ClassifyGrpcSuccess (tr : TransportResult) (max_decompressed : Z) (diag : bool) : Classified :=
  match DecodeResponseFrame (response_bytes tr) max_decompressed with
  | inr e => FrameFailure e diag
  | inl message =>
      let parsed := ParseRejectedSpans message in
      match outcome parsed with
      | Unparseable => FrameFailure UnparseableMessage diag
      | _ => quiet (mkWireResult true false None (rejected parsed) None [])
      end
  end.

Definition ClassifyGrpcCode (status : Z) (tr : TransportResult) (max_decompressed : Z) (diag : bool)
    : option Classified :=
  if status =? 0 then Some (ClassifyGrpcSuccess tr max_decompressed diag)
  else if status =? 8 then quiet <$> ClassifyResourceExhausted tr
  else
    let retry := match LookupGrpcStatus status with Some info => status_retryable info | None => false end in
    let decoded := DecodeGrpcMessage tr in
    Some (quiet (failure retry None (Some (mkError KProtocol (FormatGrpcError status decoded) 0))
                   (BuildExcerpt decoded))).

Definition ClassifyTransportFailure (tr : TransportResult) (diag : bool) : Classified :=
  mkClassified (failure (negb (response_too_large tr)) None (tr_error tr) [])
    ((if response_too_large tr then drop_if diag ResponseTooLarge else [])
     ++ (if transport_busy tr then drop_if diag TransportBusy else [])) [].

(** [ClassifyResponse]: the classification, and [already_warned] afterwards. *)
Definition ClassifyResponse (tr : TransportResult) (max_decompressed : Z) (diag already_warned : bool)
    : option (Classified * bool) :=
  match tr_error tr with
  | Some _ => Some (ClassifyTransportFailure tr diag, already_warned)
  | None =>
      match trailer_or_header tr $"grpc-status" with
      | None => Some (ClassifyMissingGrpcStatus (response_headers tr) diag already_warned, true)
      | Some status_sv =>
          match ClassifyGrpcCode (default (-1) (from_chars_int status_sv)) tr max_decompressed diag with
          | None => None
          | Some c => Some (c, already_warned)
          end
      end
  end.

(** ** [Send] *)

Record GrpcWireCodecConfig := mkGrpcConfig {
  host : str;
  scheme : str;
  extra_headers : list HeaderField;
  service_path : str;
  compression_gzip : bool;
  max_decompressed : Z
}.
Definition BuildHeaders (config : GrpcWireCodecConfig) (w : World) (compressed : bool)
    : list HeaderField + Error :=
  let path := match service_path config with [] => kGrpcTracesPath | p => p end in
  let base :=
    [mkHeaderField $":method" $"POST"; mkHeaderField $":scheme" (scheme config);
     mkHeaderField $":authority" (host config); mkHeaderField $":path" path;
     mkHeaderField $"te" $"trailers"; mkHeaderField $"content-type" $"application/grpc+proto";
     mkHeaderField $"user-agent" kUserAgent; mkHeaderField $"grpc-accept-encoding" $"gzip"]
    ++ (if compressed then [mkHeaderField $"grpc-encoding" $"gzip"] else []) ++ extra_headers config in
  AppendAuthHeader w 0 base.

(** [EnsureConnected]: the early failure, and [m_warned_missing_grpc_status]. *)
Definition EnsureConnected (w : World) (diag warned : bool) : option Classified * bool :=
  if connected w then (None, warned)
  else match connect_error w with
       | Some e => (Some (mkClassified (failure (negb (is_protocol e)) None (Some e) [])
                            (drop_if diag ConnectFailure) []), warned)
       | None => (None, false)
       end.

(** What one [Send] does: the request handed to the transport if any, the result,
    and the warn flag afterwards. *)
Record SendOutcome := mkSendOutcome {
  request : option (list HeaderField * Bytes);
  classified : Classified;
  warned_after : bool
}.
Definition Send (config : GrpcWireCodecConfig) (w : World) (diag warned : bool) (payload : Bytes)
    : option SendOutcome :=
  match EnsureConnected w diag warned with
  | (Some fail, warned') => Some (mkSendOutcome None fail warned')
  | (None, warned') =>
      let '(body, did_compress) :=
        if compression_gzip config then
          match GzipCompress payload with Some z => (z, true) | None => (payload, false) end
        else (payload, false) in
      let framed := FramePayload body did_compress in
      match BuildHeaders config w did_compress with
      | inr e => Some (mkSendOutcome None (quiet (AuthFailure e)) warned')
      | inl headers =>
          match answer w 0%nat with
          | None => Some (mkSendOutcome (Some (headers, framed)) (quiet deadline_exceeded) warned')
          | Some tr =>
              match ClassifyResponse tr (max_decompressed config) diag warned' with
              | None => None
              | Some (c, warned'') => Some (mkSendOutcome (Some (headers, framed)) c warned'')
              end
          end
      end
  end.
End codec.

(** ** Framing facts *)

Lemma frame_length_sum b1 b2 b3 b4 :
  is_u8 b1 → is_u8 b2 → is_u8 b3 → is_u8 b4 →
  Z.lor (Z.lor (Z.lor (Z.shiftl b1 24) (Z.shiftl b2 16)) (Z.shiftl b3 8)) b4
  = b1 * 16777216 + b2 * 65536 + b3 * 256 + b4.
Proof.
  intros H1 H2 H3 H4.
  assert (∀ b k, 0 <= k → Z.shiftl b k = b * 2 ^ k) as Hs by (intros; apply Z.shiftl_mul_pow2; lia).
  rewrite (lor_shiftl_low 24) by (rewrite ?Hs by lia; change (2 ^ 24) with 16777216; change (2 ^ 16) with 65536; width_lia).
  rewrite (Hs b2 16) by lia. change (2 ^ 24) with 16777216. change (2 ^ 16) with 65536.
  replace (b1 * 16777216 + b2 * 65536) with (Z.shiftl (b1 * 256 + b2) 16) by (rewrite Hs by lia; change (2 ^ 16) with 65536; lia).
  rewrite (lor_shiftl_low 16) by (rewrite ?Hs by lia; change (2 ^ 16) with 65536; change (2 ^ 8) with 256; width_lia).
  rewrite (Hs b3 8) by lia. change (2 ^ 16) with 65536. change (2 ^ 8) with 256.
  replace ((b1 * 256 + b2) * 65536 + b3 * 256) with (Z.shiftl (b1 * 65536 + b2 * 256 + b3) 8) by (rewrite Hs by lia; change (2 ^ 8) with 256; lia).
  rewrite (lor_shiftl_low 8) by (change (2 ^ 8) with 256; width_lia). rewrite ?Hs by lia. change (2 ^ 8) with 256. change (2 ^ 16) with 65536. lia.
Qed.

Lemma byte_of n k : 0 <= k → Z.land (Z.shiftr n k) 255 = n / 2 ^ k mod 256.
Proof. intros Hk. change 255 with (Z.ones 8). by rewrite Z.land_ones, Z.shiftr_div_pow2 by lia. Qed.
Lemma byte_of_range n k : 0 <= k → is_u8 (Z.land (Z.shiftr n k) 255).
Proof. intros Hk. rewrite byte_of by done. pose proof (Z.mod_pos_bound (n / 2 ^ k) 256). width_lia. Qed.

Lemma FramePayload_length body c :
  size body < 2 ^ 32 → ReadFrameLength (FramePayload body c) = size body.
Proof.
  intros Hn. pose proof (size_nonneg body). unfold FramePayload, ReadFrameLength, byte_at. cbn [nth app].
  change (Z.land (size body) 255) with (Z.land (Z.shiftr (size body) 0) 255).
  rewrite frame_length_sum by (apply byte_of_range; lia). rewrite !byte_of by lia.
  change (2 ^ 24) with 16777216. change (2 ^ 16) with 65536. change (2 ^ 8) with 256. change (2 ^ 0) with 1.
  change (2 ^ 32) with 4294967296 in Hn. Z.to_euclidean_division_equations. lia.
Qed.

(** A frame's bytes are determined by its flag and its message. *)
Lemma frame_inv body :
  Forall is_u8 body → (kGrpcFrameHeaderSize <= length body)%nat →
  ReadFrameLength body = size (drop kGrpcFrameHeaderSize body) →
  size (drop kGrpcFrameHeaderSize body) < 2 ^ 32
  ∧ ∀ c, byte_at body 0 = (if c : bool then 1 else 0) → body = FramePayload (drop kGrpcFrameHeaderSize body) c.
Proof.
  intros Hb Hlen Hl. unfold kGrpcFrameHeaderSize in *.
  destruct body as [|b0 [|b1 [|b2 [|b3 [|b4 m]]]]]; cbn [length] in Hlen; try lia.
  rewrite !Forall_cons in Hb. destruct Hb as (H0 & H1 & H2 & H3 & H4 & Hm).
  unfold ReadFrameLength, byte_at in Hl. cbn [nth drop] in *. rewrite frame_length_sum in Hl by done.
  split; [change (2 ^ 32) with 4294967296; width_lia|]. intros c Hc. unfold byte_at in Hc. cbn [nth] in Hc.
  unfold FramePayload. cbn [app]. rewrite <- Hl. subst b0.
  change (Z.land (?x) 255) with (Z.land (Z.shiftr x 0) 255) at 4.
  rewrite !byte_of by lia. change (2 ^ 24) with 16777216. change (2 ^ 16) with 65536. change (2 ^ 8) with 256. change (2 ^ 0) with 1.
  repeat f_equal; unfold is_u8, u8_max in *; Z.to_euclidean_division_equations; lia.
Qed.

Section framing.
Context (GzipCompress : Bytes → option Bytes)
        (GzipDecompress : Bytes → Z → Bytes + GzipDecompressError).

Lemma decode_uncompressed body max :
  size body < 2 ^ 32 → DecodeResponseFrame GzipDecompress (FramePayload body false) max = inl body.
Proof.
  intros Hn. pose proof (FramePayload_length body false Hn) as Hl. unfold DecodeResponseFrame.
  destruct (FramePayload body false) as [|flag fr] eqn:E; [done|].
  assert (flag = 0) as -> by (unfold FramePayload in E; by injection E).
  assert (drop kGrpcFrameHeaderSize (0 :: fr) = body) as Hd by (rewrite <- E; done).
  rewrite Hl, Hd, Z.eqb_refl. cbn [negb].
  assert ((length (0%Z :: fr) <? kGrpcFrameHeaderSize)%nat = false) as ->; [|done].
  rewrite <- E. unfold FramePayload, kGrpcFrameHeaderSize. cbn [app length]. by apply Nat.ltb_ge; lia.
Qed.

Lemma decode_compressed z max :
  size z < 2 ^ 32 →
  DecodeResponseFrame GzipDecompress (FramePayload z true) max
  = match GzipDecompress z max with
    | inl b => inl b | inr GzipTooLarge => inr FrameTooLarge | inr Corrupt => inr FrameMalformed
    end.
Proof.
  intros Hn. pose proof (FramePayload_length z true Hn) as Hl. unfold DecodeResponseFrame.
  destruct (FramePayload z true) as [|flag fr] eqn:E; [done|].
  assert (flag = 1) as -> by (unfold FramePayload in E; by injection E).
  assert (drop kGrpcFrameHeaderSize (1 :: fr) = z) as Hd by (rewrite <- E; done).
  rewrite Hl, Hd, Z.eqb_refl. cbn [negb].
  assert ((length (1%Z :: fr) <? kGrpcFrameHeaderSize)%nat = false) as ->; [|done].
  rewrite <- E. unfold FramePayload, kGrpcFrameHeaderSize. cbn [app length]. by apply Nat.ltb_ge; lia.
Qed.

(** What [Send] hands to the transport: a frame of the compressed payload, or of
    the payload itself. *)
Lemma send_request config w diag warned payload o headers framed :
  Send GzipCompress GzipDecompress config w diag warned payload = Some o →
  request o = Some (headers, framed) →
  ∃ body c, framed = FramePayload body c
    ∧ (if c : bool then GzipCompress payload = Some body else body = payload)
    ∧ BuildHeaders config w c = inl headers.
Proof.
  unfold Send. destruct (EnsureConnected w diag warned) as [[fail|] warned']; [by intros [= <-]|].
  destruct (if compression_gzip config then _ else _) as [body c] eqn:Ec. intros Hs Hr.
  destruct (BuildHeaders config w c) as [hs|e] eqn:Eh; [|by injection Hs as <-].
  assert ((headers, framed) = (hs, FramePayload body c)) as [= -> ->].
  { destruct (answer w 0%nat) as [tr|]; [|injection Hs as <-; cbn in Hr; by simplify_eq].
    destruct (ClassifyResponse _ tr _ _ _) as [[c' w'']|]; [|done]. injection Hs as <-. cbn in Hr. by simplify_eq. }
  exists body, c. split_and!; [done| |done].
  destruct (compression_gzip config); [destruct (GzipCompress payload) eqn:Ez|]; injection Ec as <- <-; done.
Qed.

Lemma BuildHeaders_encoding config w c headers :
  BuildHeaders config w c = inl headers → extra_headers config = [] →
  (FindHeaderValue headers $"grpc-encoding" = Some $"gzip" ↔ c = true).
Proof.
  unfold BuildHeaders, AppendAuthHeader. intros H He. rewrite He in H.
  destruct (negb (has_auth w)); [injection H as <-|destruct (authorization w 0%nat) as [[t|]|]; [| |done]; injection H as <-].
  all: by destruct c.
Qed.

(** Framing is exact in both directions.  What [Send] hands to the transport
    decodes to the payload it was given, compressed or not, and names gzip in its
    headers exactly when its frame is marked compressed; and a non-empty response
    body is accepted only if it is precisely one frame: a known flag, the
    message's true length, and nothing else. *)
Theorem grpc_framing config w diag warned payload o headers framed :
  gzip_lossless GzipCompress GzipDecompress → size payload <= max_decompressed config →
  Send GzipCompress GzipDecompress config w diag warned payload = Some o →
  request o = Some (headers, framed) → size framed < 2 ^ 32 →
  extra_headers config = [] →
  DecodeResponseFrame GzipDecompress framed (max_decompressed config) = inl payload
  ∧ (FindHeaderValue headers $"grpc-encoding" = Some $"gzip" ↔ byte_at framed 0 = 1)
  ∧ (∀ body m max, Forall is_u8 body → body ≠ [] →
       DecodeResponseFrame GzipDecompress body max = inl m →
       ∃ wire c, body = FramePayload wire c ∧ size wire < 2 ^ 32
         ∧ if c : bool then GzipDecompress wire max = inl m else m = wire).
Proof.
  intros Hz Hmax Hsend Hreq Hsize Hextra. split; [|split].
  - destruct (send_request _ _ _ _ _ _ _ _ Hsend Hreq) as (body & c & -> & Hb & _).
    assert (size body < 2 ^ 32) by (unfold FramePayload in Hsize; rewrite size_app in Hsize; change (size [_; _; _; _; _]) with 5 in Hsize; lia).
    destruct c; [rewrite decode_compressed by done; by rewrite (Hz payload body)|subst body; by apply decode_uncompressed].
  - destruct (send_request _ _ _ _ _ _ _ _ Hsend Hreq) as (body & c & -> & _ & Hh).
    rewrite (BuildHeaders_encoding _ _ _ _ Hh Hextra). unfold FramePayload, byte_at. cbn [app nth]. by destruct c.
  - intros body m max Hb Hne Hd. unfold DecodeResponseFrame in Hd. destruct body as [|flag body]; [done|].
    destruct (Nat.ltb_spec (length (flag :: body)) kGrpcFrameHeaderSize); [done|].
    destruct (Z.eqb_spec (ReadFrameLength (flag :: body)) (size (drop kGrpcFrameHeaderSize (flag :: body)))) as [Hl|]; [|done].
    destruct (frame_inv _ Hb ltac:(done) Hl) as [Hs Hf]. cbn [negb] in Hd.
    destruct (Z.eqb_spec flag 0) as [->|]; [exists (drop kGrpcFrameHeaderSize (0 :: body)), false; injection Hd as <-; by rewrite <- (Hf false)|].
    destruct (Z.eqb_spec flag 1) as [->|]; [|done]. cbn [negb] in Hd.
    exists (drop kGrpcFrameHeaderSize (1 :: body)), true. rewrite <- (Hf true) by done. split_and!; [done|done|].
    by destruct (GzipDecompress _ max) as [b|[]]; [injection Hd as ->|..].
Qed.
End framing.

Definition sample_config : GrpcWireCodecConfig :=
  mkGrpcConfig $"collector:4317" $"https" [] [] true 4096.
Definition sample_world (tr : option TransportResult) : World :=
  mkWorld true None true (λ _, inl (Some $"Bearer t")) (λ _, tr).

Lemma grpc_framing_witness :
  ∃ headers, DecodeResponseFrame store_decompress [1; 0; 0; 0; 4; 31; 7; 8; 9] 4096 = inl [7; 8; 9]
    ∧ FindHeaderValue headers $"grpc-encoding" = Some $"gzip".
Proof.
  pose proof (grpc_framing store_compress store_decompress sample_config (sample_world None) true false
    [7; 8; 9] (mkSendOutcome (Some (_, [1; 0; 0; 0; 4; 31; 7; 8; 9])) (quiet deadline_exceeded) false)
    _ [1; 0; 0; 0; 4; 31; 7; 8; 9] store_lossless ltac:(vm_compute; discriminate) eq_refl eq_refl
    ltac:(vm_compute; reflexivity) eq_refl) as (H1 & H2 & _).
  eexists. split; [exact H1|]. apply H2. reflexivity.
Defined.

(** ** Reading what the server encoded *)

(** The codec's tag reading and [SkipField] on an encoded field. *)
Lemma tag_of_field f rest :
  valid_field f →
  ∃ t, ReadVarint (encode_field f ++ rest) = Some (t, encode_payload (payload f) ++ rest)
    ∧ tag_field t = number f ∧ tag_type t = wire_type (payload f).
Proof.
  intros [Hn _]. destruct (tag_facts (number f) (wire_type (payload f)) Hn) as (Hu & Hs & Hl).
  { destruct (payload f); cbn; lia. }
  eexists. split; [|split; [|exact Hl]].
  - unfold encode_field. rewrite <- app_assoc. by rewrite ReadVarint_varint.
  - unfold tag_field. rewrite Hs. apply Z.mod_small. change kMaxFieldNumber with 536870911 in Hn.
    change (2 ^ 32) with 4294967296. lia.
Qed.

Lemma skip_payload p rest :
  valid_payload p → SkipField (encode_payload p ++ rest) (wire_type p) = Some rest.
Proof.
  unfold SkipField. destruct p as [v|b|b|b]; cbn [valid_payload encode_payload wire_type Z.eqb Pos.eqb]; intros H.
  - by rewrite ReadVarint_varint.
  - by destruct (fixed_width b rest 8 8 H eq_refl) as (-> & _ & ->).
  - rewrite <- app_assoc. by rewrite ReadLenDelim_encode.
  - by destruct (fixed_width b rest 4 4 H eq_refl) as (-> & _ & ->).
Qed.

Lemma duration_advances : advances duration_body.
Proof.
  intros data acc acc' data'. unfold duration_body, ParseDurationField.
  destruct (ReadVarint data) as [[t d]|] eqn:Et; [|done]. apply ReadVarint_shorter in Et as (pre & Hp & ->).
  assert (∀ d', (∃ q, d = q ++ d') → (length d' < length (pre ++ d))%nat) as Hs.
  { intros d' [q ->]. rewrite !length_app. destruct pre; [done|cbn; lia]. }
  destruct (_ && _); [|destruct (_ && _)].
  1,2: destruct (ReadVarint d) as [[v d']|] eqn:E; [|done]; apply ReadVarint_shorter in E as (q & _ & ->);
       intros [= <- <-]; apply Hs; by exists q.
  destruct (SkipField d _) as [d'|] eqn:E; [|done]. apply SkipField_shorter in E. intros [= <- <-]. auto.
Qed.
Lemma any_advances : advances any_body.
Proof.
  intros data acc acc' data'. unfold any_body, ParseAnyField.
  destruct (ReadVarint data) as [[t d]|] eqn:Et; [|done]. apply ReadVarint_shorter in Et as (pre & Hp & ->).
  assert (∀ d', (∃ q, d = q ++ d') → (length d' < length (pre ++ d))%nat) as Hs.
  { intros d' [q ->]. rewrite !length_app. destruct pre; [done|cbn; lia]. }
  destruct (_ && _); [|destruct (_ && _)].
  1,2: destruct (ReadLenDelim d) as [[v d']|] eqn:E; [|done]; apply ReadLenDelim_shorter in E as (q & _ & ->);
       intros [= <- <-]; apply Hs; by exists q.
  destruct (SkipField d _) as [d'|] eqn:E; [|done]. apply SkipField_shorter in E. intros [= <- <-]. auto.
Qed.

(** The loop equation of [search], and that it always ends with a result. *)
Definition turns {R} (body : Bytes → Turn R) : Prop :=
  ∀ data data', body data = Next data' → (length data' < length data)%nat.
Lemma search_fuel {R} (body : Bytes → Turn R) e n k data :
  turns body → (length data <= n)%nat → (length data <= k)%nat →
  search body e n data = search body e k data.
Proof.
  intros Ht. revert k data. induction n as [|n IH]; intros k data Hn Hk.
  { destruct data; [by destruct k|cbn in Hn; lia]. }
  destruct data as [|b data]; [by destruct k|]. destruct k as [|k]; [cbn in Hk; lia|].
  cbn [search]. destruct (body (b :: data)) as [r|data'] eqn:E; [done|].
  apply Ht in E. cbn in *. apply IH; lia.
Qed.
Lemma search_unfold {R} (body : Bytes → Turn R) e data :
  turns body → data ≠ [] →
  search body e (length data) data
  = match body data with Return r => Some r | Next data' => search body e (length data') data' end.
Proof.
  intros Ht Hne. destruct data as [|b data]; [done|]. cbn [search length].
  destruct (body (b :: data)) as [r|data'] eqn:E; [done|].
  apply Ht in E. cbn in E. apply search_fuel; [done|lia|lia].
Qed.
Lemma search_total {R} (body : Bytes → Turn R) e n data :
  turns body → (length data <= n)%nat → is_Some (search body e n data).
Proof.
  intros Ht. revert data. induction n as [|n IH]; intros data Hn; (destruct data as [|b data]; [by eexists|]).
  { cbn in Hn. lia. }
  cbn [search]. destruct (body (b :: data)) as [r|data'] eqn:E; [by eexists|].
  apply IH. apply Ht in E. cbn in *. lia.
Qed.

Lemma SearchStatusField_shorter data fn wt d :
  SearchStatusField data fn wt = Next d → ∃ pre, data = pre ++ d.
Proof.
  unfold SearchStatusField. destruct (_ && _).
  - destruct (ReadLenDelim data) as [[x d']|] eqn:E; [|done]. apply ReadLenDelim_shorter in E as (pre & _ & ->).
    destruct (TryParseRetryInfoFromAny x) as [[]|]; [done| |done]. intros [= <-]. by exists pre.
  - destruct (SkipField data wt) as [d'|] eqn:E; [|done]. intros [= <-]. by apply SkipField_shorter in E.
Qed.
Lemma status_turns : turns status_body.
Proof.
  intros data data'. unfold status_body. destruct (ReadVarint data) as [[t d]|] eqn:Et; [|done].
  apply ReadVarint_shorter in Et as (pre & Hp & ->). intros (q & ->)%SearchStatusField_shorter.
  rewrite !length_app. destruct pre; [done|cbn; lia].
Qed.
Lemma retry_info_turns : turns retry_info_body.
Proof.
  intros data data'. unfold retry_info_body. destruct (ReadVarint data) as [[t d]|] eqn:Et; [|done].
  apply ReadVarint_shorter in Et as (pre & Hp & ->). destruct (_ && _); [done|].
  destruct (SkipField d _) as [d'|] eqn:E; [|done]. intros [= <-]. apply SkipField_shorter in E as (q & ->).
  rewrite !length_app. destruct pre; [done|cbn; lia].
Qed.

(** *** The messages a server sends *)

Definition two_fields (p q : Payload) : Bytes := encode [mkField 1 p; mkField 2 q].
(** [google.protobuf.Duration]: negative numbers are sign-extended to 64 bits. *)
Definition duration_msg (seconds nanos : Z) : Bytes :=
  two_fields (PVarint (to_uint 64 seconds)) (PVarint (to_uint 64 nanos)).
Definition retry_info_msg (seconds nanos : Z) : Bytes :=
  encode [mkField 1 (PLen (duration_msg seconds nanos))].
Definition any_msg (type_url : Bytes) (value : Bytes) : Bytes := two_fields (PLen type_url) (PLen value).
Definition str_to_bytes (s : str) : Bytes := code <$> s.
Definition retry_detail (seconds nanos : Z) : Field :=
  mkField 3 (PLen (any_msg (str_to_bytes kRetryInfoTypeUrl) (retry_info_msg seconds nanos))).

(** A loop over a two-field message. *)
Lemma walk_two {A} (body : Bytes → A → option (A * Bytes)) p q acc acc1 acc2 :
  advances body →
  (∀ rest, body (encode_field (mkField 1 p) ++ rest) acc = Some (acc1, rest)) →
  (∀ rest, body (encode_field (mkField 2 q) ++ rest) acc1 = Some (acc2, rest)) →
  walk body (length (two_fields p q)) (two_fields p q) acc = Some acc2.
Proof.
  intros Hadv H1 H2. change (two_fields p q) with (encode_field (mkField 1 p) ++ encode_field (mkField 2 q) ++ []).
  rewrite walk_step, H1 by (done || (intros [E _]%app_eq_nil; by apply encode_field_nonempty in E)).
  rewrite walk_step, H2 by (done || (intros [E _]%app_eq_nil; by apply encode_field_nonempty in E)). done.
Qed.

(** A field with a small number and a valid payload. *)
Lemma small_field n p : 1 <= n <= 15 → valid_payload p → valid_field (mkField n p).
Proof. intros Hn Hp. split; [cbn; change kMaxFieldNumber with 536870911; lia|done]. Qed.

(** [Duration] is read back. *)
Lemma parse_duration s n :
  is_i64 s → - 2 ^ 31 <= n < 2 ^ 31 →
  ParseDurationMs (duration_msg s n) = Some <$> duration_ms s n.
Proof.
  intros Hs Hn. unfold ParseDurationMs, duration_msg.
  rewrite (walk_two _ _ _ _ (to_sint 64 (to_uint 64 s), 0) (to_sint 64 (to_uint 64 s), to_sint 32 (to_uint 64 n))).
  - rewrite !to_sint_to_uint; [done|lia|change (2 ^ (32 - 1)) with (2 ^ 31); lia|lia|].
    change (2 ^ (64 - 1)) with 9223372036854775808. width_lia.
  - apply duration_advances.
  - intros rest. unfold duration_body. destruct (tag_of_field (mkField 1 (PVarint (to_uint 64 s))) rest) as (t & -> & -> & ->).
    { apply small_field; [lia|apply to_uint_u64]. }
    unfold ParseDurationField. cbn [number payload wire_type encode_payload Z.eqb Pos.eqb andb]. rewrite ReadVarint_varint by apply to_uint_u64. done.
  - intros rest. unfold duration_body. destruct (tag_of_field (mkField 2 (PVarint (to_uint 64 n))) rest) as (t & -> & -> & ->).
    { apply small_field; [lia|apply to_uint_u64]. }
    unfold ParseDurationField. cbn [number payload wire_type encode_payload Z.eqb Pos.eqb andb].
    rewrite ReadVarint_varint by apply to_uint_u64. done.
Qed.

Lemma two_varints_size a b : size (two_fields (PVarint a) (PVarint b)) <= 40.
Proof.
  unfold two_fields, encode, encode_field. cbn [fmap list_fmap concat number payload wire_type encode_payload].
  rewrite !size_app. change (size []) with 0.
  pose proof (varint_size (Z.lor (Z.shiftl 1 3) 0)). pose proof (varint_size (Z.lor (Z.shiftl 2 3) 0)).
  pose proof (varint_size a). pose proof (varint_size b). lia.
Qed.

(** [RetryInfo], [Any] and one detail of [Status] are read back. *)
Lemma parse_retry_info s n :
  is_i64 s → - 2 ^ 31 <= n < 2 ^ 31 →
  ParseRetryInfoMs (retry_info_msg s n) = Some <$> duration_ms s n.
Proof.
  intros Hs Hn. unfold ParseRetryInfoMs, retry_info_msg.
  change (encode [?f]) with (encode_field f ++ []).
  rewrite search_unfold by (apply retry_info_turns || (intros [E _]%app_eq_nil; by apply encode_field_nonempty in E)).
  unfold retry_info_body.
  assert (size (duration_msg s n) <= u64_max) as Hd.
  { pose proof (two_varints_size (to_uint 64 s) (to_uint 64 n)) as Hz. unfold duration_msg. width_lia. }
  destruct (tag_of_field (mkField 1 (PLen (duration_msg s n))) []) as (t & -> & -> & ->).
  { by apply small_field; [lia|]. }
  cbn [number payload wire_type encode_payload Z.eqb Pos.eqb andb default]. unfold ReadRetryDelayField.
  rewrite <- app_assoc, ReadLenDelim_encode by done. by apply parse_duration.
Qed.

Lemma parse_any url value :
  size url <= u64_max → size value <= u64_max →
  ParseAny (any_msg url value) = Some (bytes_to_str url, value).
Proof.
  intros Hu Hv. unfold ParseAny, any_msg.
  rewrite (walk_two _ _ _ _ (bytes_to_str url, None) (bytes_to_str url, Some value)); [done|apply any_advances| |].
  - intros rest. unfold any_body. destruct (tag_of_field (mkField 1 (PLen url)) rest) as (t & -> & -> & ->).
    { by apply small_field; [lia|]. }
    unfold ParseAnyField. cbn [number payload wire_type encode_payload Z.eqb Pos.eqb andb].
    by rewrite <- app_assoc, ReadLenDelim_encode.
  - intros rest. unfold any_body. destruct (tag_of_field (mkField 2 (PLen value)) rest) as (t & -> & -> & ->).
    { by apply small_field; [lia|]. }
    unfold ParseAnyField. cbn [number payload wire_type encode_payload Z.eqb Pos.eqb andb].
    by rewrite <- app_assoc, ReadLenDelim_encode.
Qed.

Lemma retry_info_size s n : size (retry_info_msg s n) <= 60.
Proof.
  unfold retry_info_msg, duration_msg, encode, encode_field.
  cbn [fmap list_fmap concat number payload wire_type encode_payload].
  pose proof (two_varints_size (to_uint 64 s) (to_uint 64 n)) as Hd. set (d := two_fields _ _) in *. clearbody d.
  rewrite !size_app. change (size []) with 0. pose proof (varint_size (Z.lor (Z.shiftl 1 3) 2)).
  pose proof (varint_size (size d)). lia.
Qed.
Lemma any_size url value : size (any_msg url value) <= 40 + size url + size value.
Proof.
  unfold any_msg, two_fields, encode, encode_field.
  cbn [fmap list_fmap concat number payload wire_type encode_payload].
  rewrite !size_app. change (size []) with 0.
  pose proof (varint_size (Z.lor (Z.shiftl 1 3) 2)). pose proof (varint_size (Z.lor (Z.shiftl 2 3) 2)).
  pose proof (varint_size (size url)). pose proof (varint_size (size value)). lia.
Qed.
Lemma retry_detail_valid s n :
  valid_field (retry_detail s n) ∧ payload_bytes (payload (retry_detail s n)).
Proof.
  pose proof (retry_info_size s n) as Hr.
  pose proof (any_size (str_to_bytes kRetryInfoTypeUrl) (retry_info_msg s n)) as Ha.
  change (size (str_to_bytes kRetryInfoTypeUrl)) with 40 in Ha.
  split; [apply small_field; [lia|cbn [valid_payload]; width_lia]|]. cbn [retry_detail payload payload_bytes].
  unfold any_msg, two_fields. apply encode_u8; (apply Forall_cons; split; [|apply Forall_singleton]).
  - apply small_field; [lia|cbn [valid_payload]; change (size (str_to_bytes kRetryInfoTypeUrl)) with 40; width_lia].
  - apply small_field; [lia|cbn [valid_payload]; width_lia].
  - cbn [payload payload_bytes]. apply (bool_decide_unpack _). vm_compute. done.
  - cbn [payload payload_bytes].
    pose proof (two_varints_size (to_uint 64 s) (to_uint 64 n)). unfold retry_info_msg, duration_msg.
    apply encode_u8; apply Forall_singleton; [apply small_field; [lia|cbn [valid_payload]; width_lia]|].
    cbn [payload payload_bytes]. unfold two_fields. apply encode_u8; (apply Forall_cons; split; [|apply Forall_singleton]); try done.
    all: apply small_field; [lia|apply to_uint_u64].
Qed.

(** One turn of the status loop on an encoded field. *)
Lemma status_turn f rest :
  valid_field f →
  status_body (encode_field f ++ rest)
  = match f with
    | mkField 3 (PLen x) =>
        match TryParseRetryInfoFromAny x with Some None => Next rest | r => Return r end
    | _ => Next rest
    end.
Proof.
  intros Hf. unfold status_body. destruct (tag_of_field f rest Hf) as (t & -> & -> & ->).
  destruct f as [n p]. cbn [number payload]. destruct Hf as [_ Hp]. cbn [payload] in Hp.
  unfold SearchStatusField. destruct (Z.eqb_spec n 3) as [->|Hn].
  - pose proof (skip_payload p rest Hp) as Hskip. destruct p as [v|b|b|b]; cbn [wire_type Z.eqb Pos.eqb andb] in *.
    3: { cbn [encode_payload]. by rewrite <- app_assoc, ReadLenDelim_encode. }
    all: by rewrite Hskip.
  - cbn [andb]. rewrite skip_payload by done.
    destruct n as [|[[?|?|]|?|]|?]; done.
Qed.

(** A detail the search passes over. *)
Definition not_retry_info (f : Field) : Prop :=
  ∀ x, f = mkField 3 (PLen x) → TryParseRetryInfoFromAny x = Some None.

Lemma search_before before data :
  Forall valid_field before → Forall not_retry_info before →
  search status_body (Some None) (length (encode before ++ data)) (encode before ++ data)
  = search status_body (Some None) (length data) data.
Proof.
  induction 1 as [|f fs Hf _ IH]; intros Hn; [done|]. apply Forall_cons in Hn as [Hx Hn].
  change (encode (f :: fs)) with (encode_field f ++ encode fs). rewrite <- app_assoc.
  rewrite search_unfold by (apply status_turns || (intros [E _]%app_eq_nil; by apply encode_field_nonempty in E)).
  rewrite status_turn by done. destruct f as [n [v|b|b|b]].
  3: { specialize (Hx b). destruct (Z.eq_dec n 3) as [->|]; [rewrite Hx by done; by apply IH|].
       destruct n as [|[[?|?|]|?|]|?]; (by apply IH || done). }
  all: destruct n as [|[[?|?|]|?|]|?]; by apply IH.
Qed.

Lemma parse_detail s n :
  is_i64 s → - 2 ^ 31 <= n < 2 ^ 31 →
  TryParseRetryInfoFromAny (any_msg (str_to_bytes kRetryInfoTypeUrl) (retry_info_msg s n))
  = Some <$> duration_ms s n.
Proof.
  intros Hs Hn. unfold TryParseRetryInfoFromAny. pose proof (retry_info_size s n).
  rewrite parse_any; [|change (size (str_to_bytes kRetryInfoTypeUrl)) with 40; width_lia|width_lia].
  rewrite (eq_refl : (bytes_to_str (str_to_bytes kRetryInfoTypeUrl) =s kRetryInfoTypeUrl) = true).
  by apply parse_retry_info.
Qed.

(** A server's [RetryInfo] is found and read exactly: wherever it stands among
    the details of a [google.rpc.Status], whatever follows it, and however its
    base64 is spelled, the delay is [seconds * 1000 + nanos / 1000000]; undefined
    behaviour ([None]) is reached precisely when that overflows 64 bits, and
    never for a delay in the range [Duration] documents (10,000 years). *)
Theorem retry_info_roundtrip alphabet padding before after s n :
  alphabet_ok alphabet →
  Forall valid_field before → Forall (λ f, payload_bytes (payload f)) before → Forall not_retry_info before →
  Forall is_u8 after → is_i64 s → - 2 ^ 31 <= n < 2 ^ 31 →
  let bytes := encode before ++ encode_field (retry_detail s n) ++ after in
  TryDecodeRetryDelay (Base64Encode alphabet bytes ++ replicate padding "="%char) = Some <$> duration_ms s n
  ∧ (- 315576000000 <= s <= 315576000000 → duration_ms s n = Some (s * 1000 + Z.quot n 1000000)).
Proof.
  intros Ha Hv Hb Hn Hafter Hs Hnan bytes. destruct (retry_detail_valid s n) as [Hdv Hdb]. split.
  - assert (Forall is_u8 bytes) as Hu8.
    { apply Forall_app; split; [by apply encode_u8|]. apply Forall_app; split; [by apply encode_field_u8|done]. }
    unfold TryDecodeRetryDelay. rewrite base64_roundtrip_aux by done.
    assert (ParseStatusForRetryInfo bytes = Some <$> duration_ms s n) as Hp.
    { unfold ParseStatusForRetryInfo, bytes. rewrite search_before by done.
      rewrite search_unfold by (apply status_turns || (intros [E _]%app_eq_nil; by apply encode_field_nonempty in E)).
      rewrite status_turn by done. cbn [retry_detail]. rewrite parse_detail by done. by destruct (duration_ms s n). }
    destruct bytes as [|b0 bs] eqn:E; [|done].
    unfold bytes in E. apply app_eq_nil in E as [_ E]. apply app_eq_nil in E as [E _]. by apply encode_field_nonempty in E.
  - intros Hr. unfold duration_ms, kMillisPerSecond, kNanosPerMilli.
    assert (-2148 <= Z.quot n 1000000 <= 2148) by (change (2 ^ 31) with 2147483648 in Hnan; Z.to_euclidean_division_equations; lia).
    unfold in_i64. rewrite !(proj2 (Z.leb_le _ _)) by width_lia. done.
Qed.

Lemma retry_info_roundtrip_witness :
  TryDecodeRetryDelay (Base64Encode std_alphabet (encode [mkField 1 (PVarint 8)] ++ encode_field (retry_detail 2 500000000) ++ []))
  = Some (Some 2500).
Proof.
  destruct (retry_info_roundtrip std_alphabet 0 [mkField 1 (PVarint 8)] [] 2 500000000) as [H1 H2].
  - by left.
  - apply Forall_singleton. apply small_field; [lia|cbn; width_lia].
  - by apply Forall_singleton.
  - apply Forall_singleton. by intros x [=].
  - constructor.
  - width_lia.
  - change (2 ^ 31) with 2147483648. lia.
  - rewrite app_nil_r in H1. rewrite H1. rewrite H2 by lia. reflexivity.
Defined.

(** ** Classification *)




Section classification.
Context (GzipDecompress : Bytes → Z → Bytes + GzipDecompressError).





End classification.

