(* ===== verification/HttpCodec.v ===== *)
(** * HTTP wire codec

    Model of [src/wire/http/http_wire_codec.cpp]: [Retry-After] and status
    parsing, response decoding, classification, headers, [Send] and the concurrent
    fan-out [SendAll].  What it shares with the gRPC codec is in [Wire].

    [SendAll] submits every request before it waits; the responses are inputs, so
    the model keeps the two passes, the in-flight list and the positions written,
    and the spans borrowed by the transport are values.

    The theorems: when a response is a success, retryable or terminal, and what
    delay it carries; [SendAll] gives each payload exactly what the interface's
    default loop over [Send] would. *)
From S2P Require Import Prelude Data RetryEngine ProtoReader Wire.

Definition kV1TracesPath : str := $"/v1/traces".
Definition kMaxExcerpt : nat := 256.

Inductive BodyError := BodyMalformed | BodyTooLarge.

(** ** Reading the response *)

Fixpoint ParseRetryAfter (headers : list HeaderField) : option Z :=
  match headers with
  | [] => None
  | h :: rest =>
      if negb (hf_name h =s $"retry-after") then ParseRetryAfter rest
      else match from_chars_u32 (hf_value h) with
           | Some (secs, []) => Some (secs * 1000)
           | _ => None
           end
  end.

Fixpoint ParseStatusCode (headers : list HeaderField) : Z :=
  match headers with
  | [] => 0
  | h :: rest =>
      if negb (hf_name h =s $":status") then ParseStatusCode rest
      else default 0 (from_chars_int (hf_value h))
  end.

Definition ClassifyStatus (status : Z) (headers : list HeaderField) : WireResult :=
  if (200 <=? status) && (status <? 300) then mkWireResult true false None 0 None []
  else if (status =? 429) || (status =? 502) || (status =? 503) || (status =? 504)
  then failure true (ParseRetryAfter headers) None []
  else failure false None (Some (mkError KProtocol ($"HTTP " ++ to_string status) 0)) [].

Definition BodyFailure (err : BodyError) (diag : bool) : Classified :=
  let too_large := match err with BodyTooLarge => true | BodyMalformed => false end in
  let message := if too_large then $"response exceeds max_decompressed_bytes"
                 else $"undecodable response content-encoding" in
  mkClassified (failure false None (Some (mkError KMalformed message 0)) [])
    (drop_if diag (if too_large then DecompressionTooLarge else MalformedResponse)) [].

Definition UnparseableBody (diag : bool) : Classified :=
  mkClassified (failure false None (Some (mkError KMalformed $"unparseable export response body" 0)) [])
    (drop_if diag MalformedResponse) [].

Definition TransportFailure (r : TransportResult) (diag : bool) : Classified :=
  let busy := if transport_busy r then drop_if diag TransportBusy else [] in
  if negb (response_too_large r) then mkClassified (failure true None (tr_error r) []) busy []
  else mkClassified (failure false None (tr_error r) []) (busy ++ drop_if diag ResponseTooLarge) [].

Definition BuildExcerpt (body : Bytes) : str :=
  match body with [] => [] | _ => bytes_to_str (take (Nat.min (length body) kMaxExcerpt) body) end.

(** ** The codec *)

Record HttpWireCodecConfig := mkHttpConfig {
  host : str;
  scheme : str;
  path : str;
  signal_path : str;
  extra_headers : list HeaderField;
  compression_gzip : bool;
  max_decompressed_bytes : Z
}.

Definition ResolvePath (config : HttpWireCodecConfig) : str :=
  match signal_path config with
  | _ :: _ => signal_path config
  | [] =>
      if (path config =s []) || (path config =s $"/") then kV1TracesPath
      else path config ++ kV1TracesPath
  end.

Definition BuildHeaders (config : HttpWireCodecConfig) (w : World) (i : nat) (content_length : Z)
    (compressed : bool) : list HeaderField + Error :=
  AppendAuthHeader w i
    ([mkHeaderField $":method" $"POST"; mkHeaderField $":scheme" (scheme config);
      mkHeaderField $":path" (ResolvePath config); mkHeaderField $":authority" (host config);
      mkHeaderField $"content-type" $"application/x-protobuf";
      mkHeaderField $"content-length" (to_string content_length);
      mkHeaderField $"accept-encoding" $"gzip"]
     ++ (if compressed then [mkHeaderField $"content-encoding" $"gzip"] else []) ++ extra_headers config).

Definition EnsureConnected (w : World) (diag : bool) : option Classified :=
  if connected w then None
  else match connect_error w with
       | Some e => Some (mkClassified (failure (negb (is_protocol e)) None (Some e) [])
                           (drop_if diag ConnectFailure) [])
       | None => None
       end.

Section codec.
Context (GzipCompress : Bytes → option Bytes)
        (GzipDecompress : Bytes → Z → Bytes + GzipDecompressError).
Context (config : HttpWireCodecConfig) (diag : bool).

Definition DecodeBody (r : TransportResult) : Bytes + BodyError :=
  let raw := response_bytes r in
  match FindHeaderValue (response_headers r) $"content-encoding", raw with
  | None, _ | Some [], _ | _, [] => inl raw
  | Some encoding, _ =>
      if encoding =s $"identity" then inl raw
      else if negb (encoding =s $"gzip") then inr BodyMalformed
      else match GzipDecompress raw (max_decompressed_bytes config) with
           | inl inflated => inl inflated
           | inr GzipTooLarge => inr BodyTooLarge
           | inr Corrupt => inr BodyMalformed
           end
  end.

(** [wire.partial_success_rejected = n] and [wire.response_excerpt = s]. *)
Definition set_rejected (n : Z) (r : WireResult) : WireResult :=
  mkWireResult (success r) (retryable r) (retry_after r) n (error r) (response_excerpt r).
Definition set_excerpt (s : str) (r : WireResult) : WireResult :=
  mkWireResult (success r) (retryable r) (retry_after r) (partial_success_rejected r) (error r) s.

Definition ClassifyResponse (r : TransportResult) : Classified :=
  match DecodeBody r with
  | inr e => BodyFailure e diag
  | inl body =>
      let wire := ClassifyStatus (ParseStatusCode (response_headers r)) (response_headers r) in
      let c :=
        if success wire && negb (match body with [] => true | _ => false end) then
          let parsed := ParseRejectedSpans body in
          let c' := match outcome parsed with Unparseable => UnparseableBody diag | _ => quiet wire end in
          mkClassified (set_rejected (rejected parsed) (result c')) (recorded c') (warnings c')
        else quiet wire in
      mkClassified (set_excerpt (BuildExcerpt body) (result c)) (recorded c) (warnings c)
  end.

Definition PrepareBody (raw : Bytes) : Bytes * bool :=
  if compression_gzip config then
    match GzipCompress raw with Some z => (z, true) | None => (raw, false) end
  else (raw, false).

(** From the future on: [CollectOneResult], and the same code in [Send]. *)
Definition CollectOneResult (a : option TransportResult) : Classified :=
  match a with
  | None => quiet deadline_exceeded
  | Some r => if negb (tr_success r) then TransportFailure r diag else ClassifyResponse r
  end.

(** One [Send]: the request handed to the transport if any, and the result. *)
Record Sent := mkSent { s_request : option (list HeaderField * Bytes); s_result : Classified }.
Definition Send (w : World) (payload : Bytes) : Sent :=
  match EnsureConnected w diag with
  | Some fail => mkSent None fail
  | None =>
      let '(body, compressed) := PrepareBody payload in
      match BuildHeaders config w 0 (size body) compressed with
      | inr e => mkSent None (quiet (AuthFailure e))
      | inl headers => mkSent (Some (headers, body)) (CollectOneResult (answer w 0%nat))
      end
  end.

(** [SendAll]: the requests in submission order with their payload's index, the
    results in the caller's order, and the drops recorded. *)
Record InFlight := mkInFlight { if_index : nat; if_headers : list HeaderField; if_body : Bytes }.
Record SentAll := mkSentAll {
  in_flight : list InFlight;
  results : list WireResult;
  all_recorded : list DropReason
}.
Definition WireResult_default : WireResult := mkWireResult false false None 0 None [].

(** The submission loop, from payload [i] on. *)
Fixpoint submit (w : World) (i : nat) (payloads : list Bytes) (rs : list WireResult)
    : list InFlight * list WireResult :=
  match payloads with
  | [] => ([], rs)
  | p :: rest =>
      let '(body, compressed) := PrepareBody p in
      match BuildHeaders config w i (size body) compressed with
      | inr e => submit w (S i) rest (<[i := AuthFailure e]> rs)
      | inl headers =>
          let '(fl, rs') := submit w (S i) rest rs in (mkInFlight i headers body :: fl, rs')
      end
  end.
(** One turn of the collecting loop. *)
Definition collect_one (w : World) (s : list WireResult * list DropReason) (item : InFlight)
    : list WireResult * list DropReason :=
  let c := CollectOneResult (answer w (if_index item)) in
  (<[if_index item := result c]> (fst s), snd s ++ recorded c).

Definition SendAll (w : World) (payloads : list Bytes) : SentAll :=
  match payloads with
  | [] => mkSentAll [] [] []
  | _ =>
      match EnsureConnected w diag with
      | Some fail => mkSentAll [] (replicate (length payloads) (result fail)) (recorded fail)
      | None =>
          let '(fl, rs) := submit w 0 payloads (replicate (length payloads) WireResult_default) in
          let '(rs', drops) := fold_left (collect_one w) fl (rs, []) in
          mkSentAll fl rs' drops
      end
  end.

(** The interface's default [SendAll] ([IWireCodec]), a loop over [Send]; the
    [i]-th call sees the [i]-th answers. *)
Definition at_index (i : nat) (w : World) : World :=
  mkWorld (connected w) (connect_error w) (has_auth w) (λ _, authorization w i) (λ _, answer w i).
Fixpoint SendAll_default (w : World) (i : nat) (payloads : list Bytes) : list Sent :=
  match payloads with
  | [] => []
  | p :: rest => Send (at_index i w) p :: SendAll_default w (S i) rest
  end.

(** ** [SendAll] facts *)

(** What one payload of a connected fan-out gets. *)
Lemma Send_connected w i p :
  EnsureConnected w diag = None →
  Send (at_index i w) p
  = let '(body, compressed) := PrepareBody p in
    match BuildHeaders config w i (size body) compressed with
    | inr e => mkSent None (quiet (AuthFailure e))
    | inl headers => mkSent (Some (headers, body)) (CollectOneResult (answer w i))
    end.
Proof. intros Hc. unfold Send. rewrite (Hc : EnsureConnected (at_index i w) diag = None). done. Qed.

(** Submission neither reads nor writes the results before its position. *)
Lemma submit_prefix w i ps l :
  length l = length ps →
  ∃ fl l', length l' = length l ∧ ∀ pre, length pre = i → submit w i ps (pre ++ l) = (fl, pre ++ l').
Proof.
  revert i l. induction ps as [|p ps IH]; intros i l Hl; [by exists [], l|].
  destruct l as [|d l]; [done|]. injection Hl as Hl.
  destruct (IH (S i) l Hl) as (fl & l' & Hl' & H). cbn [submit]. destruct (PrepareBody p) as [body c].
  destruct (BuildHeaders config w i (size body) c) as [hs|e].
  - exists (mkInFlight i hs body :: fl), (d :: l'). split; [cbn; lia|]. intros pre Hp.
    rewrite cons_middle, app_assoc, H by (rewrite length_app; cbn; lia). by rewrite <- app_assoc.
  - exists fl, (AuthFailure e :: l'). split; [cbn; lia|]. intros pre Hp.
    rewrite insert_app_r_alt by lia. rewrite Hp, Nat.sub_diag. cbn [insert list_insert].
    rewrite cons_middle, app_assoc, H by (rewrite length_app; cbn; lia). by rewrite <- app_assoc.
Qed.

Lemma submit_collect w i ps l pre ds :
  EnsureConnected w diag = None → length l = length ps → length pre = i →
  let s := submit w i ps (pre ++ l) in
  let each := SendAll_default w i ps in
  fold_left (collect_one w) (fst s) (snd s, ds)
  = (pre ++ ((λ x, result (s_result x)) <$> each), ds ++ concat ((λ x, recorded (s_result x)) <$> each))
  ∧ (λ f, (if_headers f, if_body f)) <$> fst s = omap s_request each.
Proof.
  intros Hc. revert i l pre ds. induction ps as [|p ps IH]; intros i l pre ds Hl Hp.
  { destruct l; [|done]. cbn. by rewrite !app_nil_r. }
  destruct l as [|d l]; [done|]. injection Hl as Hl. cbn [SendAll_default]. rewrite Send_connected by done.
  cbn [submit]. destruct (PrepareBody p) as [body c]. destruct (BuildHeaders config w i (size body) c) as [hs|e].
  - destruct (submit_prefix w (S i) ps l Hl) as (fl & l' & _ & H).
    set (r := CollectOneResult (answer w i)).
    specialize (IH (S i) l (pre ++ [result r]) (ds ++ recorded r) Hl ltac:(rewrite length_app; cbn; lia)).
    rewrite H in IH by (rewrite length_app; cbn; lia). cbv zeta. cbv zeta in IH. cbn [fst snd] in IH.
    rewrite cons_middle, app_assoc, H by (rewrite length_app; cbn; lia). cbn [fst snd fold_left].
    assert (collect_one w ((pre ++ [d]) ++ l', ds) (mkInFlight i hs body)
            = ((pre ++ [result r]) ++ l', ds ++ recorded r)) as ->.
    { unfold collect_one. cbn [if_index fst snd]. fold r. f_equal. rewrite <- !app_assoc. cbn [app].
      rewrite insert_app_r_alt by lia. by rewrite Hp, Nat.sub_diag. }
    destruct IH as [-> IH]. split; [|cbn; by rewrite IH].
    cbn [fmap list_fmap s_result concat]. by rewrite <- !app_assoc.
  - cbv zeta. rewrite insert_app_r_alt by lia. rewrite Hp, Nat.sub_diag. cbn [insert list_insert].
    rewrite cons_middle, app_assoc.
    destruct (IH (S i) l (pre ++ [AuthFailure e]) ds Hl ltac:(rewrite length_app; cbn; lia)) as [-> IH'].
    split; [|cbn; by rewrite IH']. cbn [fmap list_fmap s_result concat quiet result recorded app]. by rewrite <- app_assoc.
Qed.

Lemma SendAll_default_failed w i ps fail :
  EnsureConnected w diag = Some fail → SendAll_default w i ps = replicate (length ps) (mkSent None fail).
Proof.
  intros Hc. revert i. induction ps as [|p ps IH]; intros i; [done|]. cbn [SendAll_default length replicate]. f_equal; [|apply IH].
  unfold Send. by rewrite (Hc : EnsureConnected (at_index i w) diag = Some fail).
Qed.
End codec.

(** ** Theorems *)

Lemma retry_after_printed n rest :
  is_u32 n → ParseRetryAfter (mkHeaderField $"retry-after" (decimal n) :: rest) = Some (n * 1000).
Proof.
  intros Hn. assert (0 <= n) as H0 by width_lia. destruct (decimal_read n H0) as (Hd & Hv & Hne).
  cbn [ParseRetryAfter hf_name hf_value]. rewrite seqb_refl. cbn [negb]. unfold from_chars_u32.
  rewrite Hd. destruct (decimal n) as [|c ds]; [done|]. rewrite Hv, (proj2 (Z.leb_le _ _)) by width_lia.
  by rewrite drop_all.
Qed.

Section theorems.
Context (GzipDecompress : Bytes → Z → Bytes + GzipDecompressError).
Context (config : HttpWireCodecConfig) (diag : bool).
Abbreviation decode := (DecodeBody GzipDecompress config).
Abbreviation status_of r := (ParseStatusCode (response_headers r)).

(** Delivered: a 2xx whose body can be read and, unless empty, parses. *)
Definition delivered_by (r : TransportResult) : Prop :=
  tr_success r = true ∧ 200 <= status_of r < 300
  ∧ ∃ body, decode r = inl body ∧ (body = [] ∨ outcome (ParseRejectedSpans body) ≠ Unparseable).
(** Worth another attempt. *)
Definition transient (r : TransportResult) : Prop :=
  (tr_success r = false ∧ response_too_large r = false)
  ∨ (tr_success r = true ∧ status_of r ∈ [429; 502; 503; 504] ∧ ∃ body, decode r = inl body).

Lemma classify_status status headers :
  well_classified (ClassifyStatus status headers) (200 <= status < 300) (status ∈ [429; 502; 503; 504])
  ∧ (retryable (ClassifyStatus status headers) = true →
     retry_after (ClassifyStatus status headers) = ParseRetryAfter headers).
Proof.
  rewrite !elem_of_cons, elem_of_nil. unfold ClassifyStatus, well_classified.
  destruct (Z.leb_spec 200 status), (Z.ltb_spec status 300); cbn [andb].
  { cbn. split; [|done]. split_and!; try done; try lia; try by intros []. }
  all: destruct (_ || _) eqn:E; [apply orb_true_iff in E; rewrite !orb_true_iff, !Z.eqb_eq in E|rewrite !orb_false_iff, !Z.eqb_neq in E].
  all: cbn; split; [split_and!; try done; try lia; try by intros []|done].
Qed.

(** The excerpt and the rejected count do not matter to the classification. *)
Lemma well_classified_excerpt n s r ok retry :
  well_classified (set_excerpt s (set_rejected n r)) ok retry ↔ well_classified r ok retry.
Proof. done. Qed.

Lemma classify_response r :
  tr_success r = true →
  well_classified (result (ClassifyResponse GzipDecompress config diag r)) (delivered_by r) (transient r)
  ∧ (retryable (result (ClassifyResponse GzipDecompress config diag r)) = true →
     retry_after (result (ClassifyResponse GzipDecompress config diag r)) = ParseRetryAfter (response_headers r)).
Proof.
  intros Ht. unfold ClassifyResponse, delivered_by, transient. rewrite Ht.
  destruct (decode r) as [body|e].
  2: { cbn. split; [|done]. unfold well_classified. cbn. split_and!; try done; try by intros [].
       - split; [done|]. by intros (_ & _ & ? & ? & _).
       - split; [done|]. by intros [[? _]|(_ & _ & ? & ?)].
       - by intros (_ & _ & ? & ? & _). }
  destruct (classify_status (status_of r) (response_headers r)) as [Hc Ha].
  set (wire := ClassifyStatus (status_of r) (response_headers r)) in *.
  assert ((true = true ∧ 200 <= status_of r < 300
           ∧ ∃ b, (inl body : Bytes + BodyError) = inl b ∧ (b = [] ∨ outcome (ParseRejectedSpans b) ≠ Unparseable))
          ↔ 200 <= status_of r < 300 ∧ (body = [] ∨ outcome (ParseRejectedSpans body) ≠ Unparseable)) as ->.
  { split; [intros (_ & ? & ? & [= <-] & ?); done|intros [? ?]; eauto 10]. }
  assert ((true = false ∧ response_too_large r = false
           ∨ true = true ∧ status_of r ∈ [429; 502; 503; 504] ∧ ∃ b, (inl body : Bytes + BodyError) = inl b)
          ↔ status_of r ∈ [429; 502; 503; 504]) as ->.
  { split; [by intros [[? _]|(_ & ? & _)]|eauto 10]. }
  destruct (success wire && _) eqn:Es.
  - apply andb_true_iff in Es as [Es Hb]. destruct body as [|b0 bs]; [done|].
    assert (200 <= status_of r < 300) as H2 by (by apply Hc).
    assert (¬ status_of r ∈ [429; 502; 503; 504]) as H4 by (rewrite !elem_of_cons, elem_of_nil; lia).
    destruct (outcome (ParseRejectedSpans (b0 :: bs))) eqn:Eo.
    3: { cbn. split; [|done]. unfold well_classified. cbn. split_and!; try done; try by intros [].
         split; [done|]. by intros (_ & [?|?]). }
    all: cbn [quiet result]; split; [|intros; by apply Ha].
    all: apply well_classified_excerpt; eapply well_classified_iff; [exact Hc| |done]; split; [|by intros [? _]]; eauto.
  - split; [|intros H; by apply Ha].
    assert (well_classified wire (200 <= status_of r < 300 ∧ (body = [] ∨ outcome (ParseRejectedSpans body) ≠ Unparseable))
              (status_of r ∈ [429; 502; 503; 504])) as H; [|exact H].
    eapply well_classified_iff; [exact Hc| |done]. split; [|by intros [? _]]. intros H2. split; [done|].
    destruct body; [by left|]. cbn [negb] in Es. rewrite andb_true_r in Es. apply (proj1 Hc) in H2. congruence.
Qed.

(** The classification of an HTTP response.  Whatever the transport answers, the
    batch counts as delivered exactly for a 2xx whose body can be decoded and, unless
    empty, parses; it is retried exactly for an ordinary transport failure, a missed
    deadline, or a readable 429, 502, 503 or 504, and then with the server's
    [Retry-After]; and every whole number of seconds a server prints there is read
    back exactly. *)
Theorem http_classification a n rest :
  is_u32 n →
  let r := result (CollectOneResult GzipDecompress config diag a) in
  well_classified r (∃ t, a = Some t ∧ delivered_by t) (∀ t, a = Some t → transient t)
  ∧ (∀ t, a = Some t → tr_success t = true → retryable r = true →
       retry_after r = ParseRetryAfter (response_headers t))
  ∧ ParseRetryAfter (mkHeaderField $"retry-after" (decimal n) :: rest) = Some (n * 1000).
Proof.
  intros Hn r. split; [|split; [|by apply retry_after_printed]]; subst r; destruct a as [t|]; cbn [CollectOneResult].
  - eapply (well_classified_iff _ (delivered_by t) _ (transient t)); [|naive_solver|naive_solver].
    destruct (tr_success t) eqn:Et; cbn [negb]; [by apply classify_response|].
    unfold well_classified, delivered_by, transient, TransportFailure. rewrite Et.
    destruct (response_too_large t); cbn; naive_solver.
  - unfold well_classified. cbn. naive_solver.
  - intros t' [= <-] Et. rewrite Et. cbn [negb]. by apply classify_response.
  - done.
Qed.

Context (GzipCompress : Bytes → option Bytes).

Lemma send_all_each w payloads :
  let all := SendAll GzipCompress GzipDecompress config diag w payloads in
  let each := SendAll_default GzipCompress GzipDecompress config diag w 0 payloads in
  results all = (λ x, result (s_result x)) <$> each
  ∧ (λ f, (if_headers f, if_body f)) <$> in_flight all = omap s_request each
  ∧ all_recorded all
    = match EnsureConnected w diag, payloads with
      | Some fail, _ :: _ => recorded fail
      | _, _ => concat ((λ x, recorded (s_result x)) <$> each)
      end.
Proof.
  cbv zeta. destruct payloads as [|p ps]; [cbn; by destruct (EnsureConnected w diag)|].
  cbn [SendAll]. destruct (EnsureConnected w diag) as [fail|] eqn:Hc.
  - rewrite (SendAll_default_failed _ _ _ _ _ _ _ _ Hc). cbn [results in_flight all_recorded].
    rewrite fmap_replicate. split_and!; [done| |done]. cbn [fmap list_fmap]. induction (length (p :: ps)) as [|k IH]; [done|]. exact IH.
  - destruct (submit_collect GzipCompress GzipDecompress config diag w 0 (p :: ps)
      (replicate (length (p :: ps)) WireResult_default) [] [] Hc (length_replicate _ _) eq_refl) as [Hf Hr].
    cbn [app] in Hf, Hr. destruct (submit _ _ w 0 (p :: ps) _) as [fl rs]. cbn [fst snd] in Hf, Hr. rewrite Hf.
    cbn [results in_flight all_recorded]. by split_and!.
Qed.
Lemma send_all_length w payloads :
  length (results (SendAll GzipCompress GzipDecompress config diag w payloads)) = length payloads.
Proof.
  destruct (send_all_each w payloads) as [-> _]. rewrite length_fmap. generalize 0%nat.
  induction payloads as [|p ps IH]; intros i; [done|]. cbn [SendAll_default length]. by rewrite IH.
Qed.

(** The concurrent fan-out is position-wise the interface's default loop: the
    caller's [i]-th payload gets the result and makes the request it would get from a
    [Send] of its own, whichever payloads fail to authenticate, time out or fail
    in between; nothing is recorded that those calls would not record; and a failed
    connect answers every payload while being counted once. *)
Theorem http_send_all w payloads :
  let all := SendAll GzipCompress GzipDecompress config diag w payloads in
  let each := SendAll_default GzipCompress GzipDecompress config diag w 0 payloads in
  results all = (λ x, result (s_result x)) <$> each
  ∧ (λ f, (if_headers f, if_body f)) <$> in_flight all = omap s_request each
  ∧ all_recorded all
    = match EnsureConnected w diag, payloads with
      | Some fail, _ :: _ => recorded fail
      | _, _ => concat ((λ x, recorded (s_result x)) <$> each)
      end.
Proof. apply send_all_each. Qed.
End theorems.

Definition sample_http : HttpWireCodecConfig :=
  mkHttpConfig $"collector:4318" $"https" [] [] [] true 4096.
Definition throttled : TransportResult :=
  mkTransportResult true [mkHeaderField $":status" $"503"; mkHeaderField $"retry-after" $"7"] [] [] None false false.

Lemma http_classification_witness :
  transient store_decompress sample_http throttled
  ∧ retry_after (result (CollectOneResult store_decompress sample_http true (Some throttled))) = Some 7000.
Proof.
  destruct (http_classification store_decompress sample_http true (Some throttled) 7 []) as ((_ & H2 & _) & H3 & H4).
  - width_lia.
  - split; [by apply H2|]. rewrite (H3 throttled eq_refl eq_refl eq_refl). exact H4.
Defined.
