(* ===== verification/Exporter.v ===== *)
(** * OTLP exporters

    Model of [src/exporter/otlp_exporter.cpp], [otlp_log_exporter.cpp] and
    [otlp_metric_exporter.cpp], and of [src/wire/encoder/trace_request_concat.cpp]:
    grouping drained batches into requests, the fan-out through a wire codec with
    one [Settle] per request, and the worker with its queue, flush and shutdown.

    The encoder is a parameter; a codec is the class [IWireCodec], whose one law is
    that [SendAll] answers every payload.  An exception that escapes the encoder or
    an [at()] is a value ([DrainQueue] catches it).  Sizes of objects in memory and
    their sums are exact.

    A body that holds [m_mu] is one transition; the worker's drain has one per
    lock release.  The log and metric exporters are the same code without the span
    budget, the join of batches and the depth gauge, which are parameters here.

    The theorems: requests partition a drain within the limits; every batch of a
    drain is counted once; under every interleaving accepted batches are processed
    once and in order, flush and shutdown mean what they say. *)
From S2P Require Import Prelude Data RetryEngine ProtoReader Wire HttpCodec.

(** What a codec promises the exporters. *)
Class IWireCodec := {
  codec_send_all : list Bytes → list WireResult;
  codec_send_all_length payloads : length (codec_send_all payloads) = length payloads
}.

(** ** Requests *)

Record RequestRange := mkRange { first : nat; count : nat }.

Definition ConcatenateTraceRequests (parts : list Bytes) : Bytes :=
  match parts with
  | [part] => part
  | _ =>
      let total := fold_left (λ t part, t + size part) parts 0 in
      if total =? 0 then []
      else fold_left (λ bytes part, if 0 <? size part then bytes ++ part else bytes) parts []
  end.

Section requests.
Context (max_spans_per_request max_request_bytes : Z).

(** [++requests.back().count]. *)
Definition bump_back (requests : list RequestRange) : list RequestRange :=
  alter (λ r, mkRange (first r) (S (count r))) (length requests - 1)%nat requests.

(** The loop of [GroupIntoRequests] from batch [i] on, over each batch's span
    count and encoded size. *)
Fixpoint group_loop (i : nat) (items : list (Z * Z)) (requests : list RequestRange)
    (spans_in_request bytes_in_request : Z) : list RequestRange :=
  match items with
  | [] => requests
  | (spans, bytes) :: rest =>
      let over_spans := max_spans_per_request <? spans_in_request + spans in
      let over_bytes := negb (max_request_bytes =? 0)
                        && (max_request_bytes <? bytes_in_request + bytes) in
      if bool_decide (requests = []) || over_spans || over_bytes
      then group_loop (S i) rest (bump_back (requests ++ [mkRange i 0])) spans bytes
      else group_loop (S i) rest (bump_back requests) (spans_in_request + spans) (bytes_in_request + bytes)
  end.
Definition GroupIntoRequests (items : list (Z * Z)) : list RequestRange := group_loop 0 items [] 0 0.

(** The parts of one request. *)
Definition range {A} (r : RequestRange) (l : list A) : list A := take (count r) (drop (first r) l).

(** ** Fan-out *)

Context {Batch : Type} (item_count : Batch → Z) (Encode : Batch → Bytes + str).
Context (codec : IWireCodec).
Context (std_pow : Double.double → Double.double → Double.double) (policy : RetryPolicyConfig)
        (env : nat → Env) (m_diag : bool) (kFailureStage : str) (out_of_range : str).

(** The encodings, or the exception of the first batch that throws. *)
Fixpoint encode_all (batches : list Batch) : list Bytes + str :=
  match batches with
  | [] => inl []
  | b :: rest =>
      match Encode b with
      | inr what => inr what
      | inl bytes => match encode_all rest with inl parts => inl (bytes :: parts) | inr what => inr what end
      end
  end.

(** The settling loop from result [i] on: the sink calls and the exception that
    ends it, if any; [None] is undefined behaviour in the retry engine. *)
Fixpoint settle_all (counts : list nat) (i : nat) (results : list WireResult)
    : option (list DiagCall * option str) :=
  match results with
  | [] => Some ([], None)
  | r :: rest =>
      match counts !! i with
      | None => Some ([], Some out_of_range)
      | Some n =>
          match Settle std_pow policy (env i) m_diag r kFailureStage (Z.of_nat n) with
          | None => None
          | Some (_, calls) =>
              match settle_all counts (S i) rest with
              | None => None
              | Some (calls', e) => Some (calls ++ calls', e)
              end
          end
      end
  end.

Definition FanOutAndProcess (batches : list Batch) : option (list DiagCall * option str) :=
  match batches with
  | [] => Some ([], None)
  | _ =>
      match encode_all batches with
      | inr what => Some ([], Some what)
      | inl parts =>
          let requests := GroupIntoRequests (zip (item_count <$> batches) (size <$> parts)) in
          let payloads := (λ r, ConcatenateTraceRequests (range r parts)) <$> requests in
          settle_all (count <$> requests) 0 (codec_send_all payloads)
      end
  end.

(** [ProcessBatches] of the log and metric exporters. *)
Definition ProcessBatches (batches : list Batch) : option (list DiagCall * option str) :=
  match encode_all batches with
  | inr what => Some ([], Some what)
  | inl parts => settle_all (replicate (length batches) 1%nat) 0 (codec_send_all parts)
  end.

(** The body of [DrainQueue]'s [try] and [catch]. *)
Definition RecordDrainFailure (what : str) : list DiagCall :=
  if m_diag then [CallBatchFailed (mkError KInternalFailure what 0)] else [].
Definition caught (r : option (list DiagCall * option str)) : option (list DiagCall) :=
  match r with
  | None => None
  | Some (calls, None) => Some calls
  | Some (calls, Some what) => Some (calls ++ RecordDrainFailure what)
  end.
End requests.

(** ** Request facts *)

Lemma concatenate_concat parts : ConcatenateTraceRequests parts = @concat Z parts.
Proof.
  assert (∀ l acc, fold_left (λ bytes part, if 0 <? size part then bytes ++ part else bytes) l acc
                   = acc ++ @concat Z l) as Hf.
  { induction l as [|x l IH]; intros acc; cbn; [by rewrite app_nil_r|]. rewrite IH.
    destruct (Z.ltb_spec 0 (size x)); [by rewrite <- app_assoc|].
    destruct x; [done|rewrite size_cons in *; pose proof (size_nonneg x); lia]. }
  assert (∀ l t, 0 <= t → t <= fold_left (λ t part, t + size part) l t
          ∧ (fold_left (λ t part, t + size part) l t = 0 → @concat Z l = [])) as Ht.
  { induction l as [|x l IH]; intros t H0; cbn; [done|]. pose proof (size_nonneg x).
    destruct (IH (t + size x)) as [H1 H2]; [lia|]. split; [lia|]. intros E. rewrite H2 by done.
    destruct x; [done|rewrite size_cons in *; pose proof (size_nonneg x); lia]. }
  unfold ConcatenateTraceRequests. rewrite Hf.
  destruct parts as [|p [|q parts]]; [done|cbn; by rewrite app_nil_r|].
  destruct (Z.eqb_spec (fold_left (λ t part, t + size part) (p :: q :: parts) 0) 0) as [E|]; [|done].
  symmetry. by apply (Ht _ 0).
Qed.

Section request_facts.
Context (max_spans_per_request max_request_bytes : Z).
Abbreviation group_loop := (group_loop max_spans_per_request max_request_bytes).
Abbreviation GroupIntoRequests := (GroupIntoRequests max_spans_per_request max_request_bytes).

Definition total (f : Z * Z → Z) (l : list (Z * Z)) : Z := fold_right (λ x t, f x + t) 0 l.
Lemma total_app f l k : total f (l ++ k) = total f l + total f k.
Proof. unfold total. induction l as [|x l IH]; cbn; [done|]. rewrite IH. lia. Qed.

(** The documented limits of one joined request. *)
Definition within (l : list (Z * Z)) : bool :=
  (total fst l <=? max_spans_per_request) && ((max_request_bytes =? 0) || (total snd l <=? max_request_bytes)).

(** The reference: extend the current request while it stays within the limits. *)
Fixpoint pack (cur : list (Z * Z)) (items : list (Z * Z)) : list (list (Z * Z)) :=
  match items with
  | [] => [cur]
  | it :: rest => if within (cur ++ [it]) then pack (cur ++ [it]) rest else cur :: pack [it] rest
  end.
Definition packed (items : list (Z * Z)) : list (list (Z * Z)) :=
  match items with [] => [] | it :: rest => pack [it] rest end.
Fixpoint offsets {A} (from : nat) (groups : list (list A)) : list RequestRange :=
  match groups with
  | [] => []
  | g :: rest => mkRange from (length g) :: offsets (from + length g) rest
  end.

Lemma bump_back_snoc rs r : bump_back (rs ++ [r]) = rs ++ [mkRange (first r) (S (count r))].
Proof.
  unfold bump_back. rewrite length_app. cbn [length]. replace (length rs + 1 - 1)%nat with (length rs + 0)%nat by lia.
  by rewrite alter_app_r.
Qed.

Lemma group_loop_pack rest from cur rs i :
  i = (from + length cur)%nat → cur ≠ [] →
  group_loop i rest (rs ++ [mkRange from (length cur)]) (total fst cur) (total snd cur)
  = rs ++ offsets from (pack cur rest).
Proof.
  revert from cur rs i. induction rest as [|[s b] rest IH]; intros from cur rs i Hi Hne; [done|].
  cbn [Exporter.group_loop pack]. rewrite bool_decide_false by (by destruct rs). cbn [orb].
  assert ((max_spans_per_request <? total fst cur + s)
          || negb (max_request_bytes =? 0) && (max_request_bytes <? total snd cur + b)
          = negb (within (cur ++ [(s, b)]))) as ->.
  { unfold within. rewrite !total_app. cbn [total fold_right fst snd]. rewrite !Z.add_0_r.
    rewrite negb_andb, negb_orb, !Z.ltb_antisym. done. }
  destruct (within (cur ++ [(s, b)])); cbn [negb].
  - rewrite bump_back_snoc. cbn [first count].
    pose proof (IH from (cur ++ [(s, b)]) rs (S i)) as H. rewrite length_app, !total_app in H. cbn [length total fold_right fst snd] in H.
    rewrite Nat.add_1_r, !Z.add_0_r in H. apply H; [lia|by destruct cur].
  - rewrite bump_back_snoc. cbn [first count offsets].
    pose proof (IH i [(s, b)] (rs ++ [mkRange from (length cur)]) (S i)) as H. cbn [length total fold_right fst snd] in H.
    rewrite !Z.add_0_r in H. rewrite H by (done || lia). rewrite <- app_assoc. by subst i.
Qed.
Lemma GroupIntoRequests_packed items : GroupIntoRequests items = offsets 0 (packed items).
Proof.
  destruct items as [|[s b] rest]; [done|]. unfold Exporter.GroupIntoRequests. cbn [Exporter.group_loop packed].
  rewrite bool_decide_true by done. cbn [orb]. rewrite bump_back_snoc. cbn [first count].
  pose proof (group_loop_pack rest 0 [(s, b)] [] 1) as H. cbn [length total fold_right fst snd] in H.
  rewrite !Z.add_0_r in H. by apply H.
Qed.

Lemma pack_concat cur items : concat (pack cur items) = cur ++ items.
Proof.
  revert cur. induction items as [|it rest IH]; intros cur; cbn [pack]; [cbn; by rewrite app_nil_r|].
  destruct (within _); [rewrite IH; by rewrite <- app_assoc|]. cbn [concat]. by rewrite IH.
Qed.
Lemma pack_groups cur items :
  cur ≠ [] → length cur = 1%nat ∨ within cur = true →
  Forall (λ g, g ≠ [] ∧ (length g = 1%nat ∨ within g = true)) (pack cur items).
Proof.
  revert cur. induction items as [|it rest IH]; intros cur Hne Hw; cbn [pack]; [by apply Forall_singleton|].
  destruct (within (cur ++ [it])) eqn:E; [apply IH; [by destruct cur|by right]|].
  apply Forall_cons; split; [done|]. apply IH; [done|by left].
Qed.
(** The head of [pack] starts with the current request. *)
Lemma pack_head cur items : ∃ g gs, pack cur items = (cur ++ g) :: gs.
Proof.
  revert cur. induction items as [|it rest IH]; intros cur; cbn [pack]; [exists [], []; by rewrite app_nil_r|].
  destruct (within _); [|exists [], (pack [it] rest); by rewrite app_nil_r].
  destruct (IH (cur ++ [it])) as (g & gs & ->). exists (it :: g), gs. by rewrite <- app_assoc.
Qed.
Lemma pack_greedy cur items k g g' :
  pack cur items !! k = Some g → pack cur items !! S k = Some g' →
  ∃ it rest, g' = it :: rest ∧ within (g ++ [it]) = false.
Proof.
  revert cur k. induction items as [|it rest IH]; intros cur k; cbn [pack]; [by destruct k|].
  destruct (within (cur ++ [it])) eqn:E; [apply IH|]. destruct k as [|k]; [|apply IH].
  cbn. intros [= <-]. destruct (pack_head [it] rest) as (h & gs & ->). cbn. intros [= <-]. eauto.
Qed.

Lemma range_app {A} (pre l post : list A) :
  range (mkRange (length pre) (length l)) (pre ++ l ++ post) = l.
Proof. unfold range. cbn [first count]. by rewrite drop_app_length, take_app_length. Qed.
Lemma offsets_ranges {A} (pre : list A) (groups : list (list A)) :
  (λ r, range r (pre ++ concat groups)) <$> offsets (length pre) groups = groups.
Proof.
  revert pre. induction groups as [|g gs IH]; intros pre; [done|]. cbn [offsets concat fmap list_fmap]. f_equal; [apply range_app|].
  rewrite <- length_app, app_assoc. apply IH.
Qed.
Lemma offsets_lengths {A B} (groups : list (list A)) (groups' : list (list B)) from :
  length <$> groups = length <$> groups' → offsets from groups = offsets from groups'.
Proof.
  revert groups' from. induction groups as [|g gs IH]; intros [|g' gs'] from H; try done.
  injection H as H1 H2. cbn [offsets]. rewrite H1. f_equal. by apply IH.
Qed.
(** Cut a list like the groups of another one of the same length. *)
Lemma regroup {A B} (groups : list (list A)) (l : list B) :
  length l = length (concat groups) → ∃ gs, concat gs = l ∧ length <$> gs = length <$> groups.
Proof.
  revert l. induction groups as [|g groups IH]; intros l H; [destruct l; [by exists []|done]|].
  cbn [concat] in H. rewrite length_app in H. destruct (IH (drop (length g) l)) as (gs & H1 & H2); [rewrite length_drop; lia|].
  exists (take (length g) l :: gs). cbn. rewrite H1, H2, take_drop, length_take. split; [done|]. f_equal. lia.
Qed.

Lemma packed_groups items :
  concat (packed items) = items
  ∧ Forall (λ g, g ≠ [] ∧ (length g = 1%nat ∨ within g = true)) (packed items).
Proof.
  destruct items as [|it rest]; [done|]. cbn [packed]. split; [apply pack_concat|]. apply pack_groups; [done|by left].
Qed.
Lemma ranges_of_parts {B} items (l : list B) :
  length l = length items → concat ((λ r, range r l) <$> GroupIntoRequests items) = l.
Proof.
  intros Hl. rewrite GroupIntoRequests_packed. destruct (packed_groups items) as [Hc _].
  destruct (regroup (packed items) l) as (gs & <- & H); [by rewrite Hc|].
  rewrite <- (offsets_lengths gs _ _ H). pose proof (offsets_ranges [] gs) as Hr. cbn in Hr. by rewrite Hr.
Qed.
Lemma offsets_Forall2 {A} (pre : list A) (groups : list (list A)) :
  Forall2 (λ r g, range r (pre ++ concat groups) = g ∧ count r = length g) (offsets (length pre) groups) groups.
Proof.
  revert pre. induction groups as [|g gs IH]; intros pre; [constructor|]. cbn [offsets concat].
  constructor; [split; [apply range_app|done]|]. rewrite <- length_app, app_assoc. apply IH.
Qed.
Lemma offsets_seq {A} from (groups : list (list A)) :
  concat ((λ r, seq (first r) (count r)) <$> offsets from groups) = seq from (length (concat groups)).
Proof.
  revert from. induction groups as [|g gs IH]; intros from; [done|]. cbn [offsets concat fmap list_fmap first count].
  rewrite IH, length_app. by rewrite seq_app.
Qed.
Lemma requests_groups items :
  Forall2 (λ r g, range r items = g ∧ count r = length g) (GroupIntoRequests items) (packed items).
Proof.
  rewrite GroupIntoRequests_packed. destruct (packed_groups items) as [Hc _].
  pose proof (offsets_Forall2 [] (packed items)) as Hr. cbn [app length] in Hr. by rewrite Hc in Hr.
Qed.

(** The requests of a drain partition it: consecutive, non-empty, covering every
    batch once and in order, so the payloads are the batches' encodings cut at
    request boundaries and nothing else; a request of several batches is within
    both limits (a batch over a limit travels alone and whole), and a request ends
    only where the next batch would exceed one, as in the greedy reference. *)
Theorem requests_partition items (parts : list Bytes) :
  length parts = length items →
  let requests := GroupIntoRequests items in
  (λ r, range r items) <$> requests = packed items
  ∧ @concat Z ((λ r, ConcatenateTraceRequests (range r parts)) <$> requests) = @concat Z parts
  ∧ concat ((λ r, seq (first r) (count r)) <$> requests) = seq 0 (length items)
  ∧ Forall (λ r, (1 <= count r)%nat ∧ (count r = 1%nat ∨ within (range r items) = true)) requests
  ∧ (∀ k r r', requests !! k = Some r → requests !! S k = Some r' →
       ∃ it rest, range r' items = it :: rest ∧ within (range r items ++ [it]) = false).
Proof.
  intros Hl requests. pose proof (requests_groups items) as H2. destruct (packed_groups items) as [Hc Hg].
  split_and!.
  - unfold requests. clear -H2. induction H2 as [|r g rs gs [<- _] _ IH]; [done|]. cbn. by rewrite IH.
  - rewrite (list_fmap_ext _ (λ r, @concat Z (range r parts))) by (intros; apply concatenate_concat).
    transitivity (@concat Z (concat ((λ r, range r parts) <$> requests))); [|f_equal; by apply ranges_of_parts].
    clear. induction requests as [|r rs IH]; [done|]. cbn. by rewrite IH, concat_app.
  - unfold requests. by rewrite GroupIntoRequests_packed, offsets_seq, Hc.
  - eapply Forall_lookup. intros k r Hk. destruct (Forall2_lookup_l _ _ _ _ _ H2 Hk) as (g & Hgk & <- & Hcr).
    rewrite Forall_lookup in Hg. destruct (Hg _ _ Hgk) as [Hne Hw]. rewrite Hcr. split; [|done].
    destruct (range r items); [done|cbn; lia].
  - intros k r r' Hk Hk'. destruct (Forall2_lookup_l _ _ _ _ _ H2 Hk) as (g & Hgk & <- & _).
    destruct (Forall2_lookup_l _ _ _ _ _ H2 Hk') as (g' & Hgk' & <- & _).
    destruct items as [|it rest]; [done|]. cbn [packed] in *. by eapply pack_greedy.
Qed.
End request_facts.

(** ** Accounting *)

Section accounting.
Context (max_spans_per_request max_request_bytes : Z).
Context {Batch : Type} (item_count : Batch → Z) (Encode : Batch → Bytes + str).
Context (codec : IWireCodec).
Context (std_pow : Double.double → Double.double → Double.double) (policy : RetryPolicyConfig)
        (env : nat → Env) (kFailureStage out_of_range : str).
Abbreviation fan_out := (FanOutAndProcess max_spans_per_request max_request_bytes item_count Encode codec
                           std_pow policy env true kFailureStage out_of_range).
Abbreviation process_batches := (ProcessBatches Encode codec std_pow policy env true kFailureStage out_of_range).
Abbreviation settle_all := (settle_all std_pow policy env true kFailureStage out_of_range).

Lemma encode_all_spec batches :
  match encode_all Encode batches with
  | inl parts => Forall2 (λ b p, Encode b = inl p) batches parts
  | inr what => ∃ b, b ∈ batches ∧ Encode b = inr what
  end.
Proof.
  induction batches as [|b batches IH]; [constructor|]. cbn. destruct (Encode b) as [p|what] eqn:E.
  - destruct (encode_all Encode batches) as [parts|what]; [by constructor|].
    destruct IH as (b' & Hb & He). exists b'. split; [by right|done].
  - exists b. split; [left|done].
Qed.

Lemma settle_all_counts pre counts results calls e :
  length results = length counts →
  settle_all (pre ++ counts) (length pre) results = Some (calls, e) →
  e = None ∧ (sent calls + failed calls = sum_list counts)%nat.
Proof.
  revert pre counts calls. induction results as [|r results IH]; intros pre counts calls Hl H.
  { destruct counts; [|done]. cbn in H. by injection H as <- <-. }
  destruct counts as [|n counts]; [done|]. injection Hl as Hl. cbn [Exporter.settle_all] in H.
  rewrite lookup_app_r, Nat.sub_diag in H by lia. cbn [lookup list_lookup] in H.
  destruct (Settle _ _ _ _ _ _ _) as [[log c]|] eqn:Es; [|done].
  apply settle_counts in Es; [|lia]. rewrite Nat2Z.id in Es.
  rewrite cons_middle, app_assoc in H.
  destruct (Exporter.settle_all _ _ _ _ _ _ _ (S (length pre)) results) as [[c' e']|] eqn:Er; [|done].
  injection H as <- <-. rewrite <- (Nat.add_1_r (length pre)) in Er. change 1%nat with (length [n]) in Er.
  rewrite <- length_app in Er. apply IH in Er as [-> IHc]; [|done]. split; [done|].
  rewrite sent_app, failed_app. cbn. lia.
Qed.

Lemma offsets_count {A} from (gs : list (list A)) : sum_list (count <$> offsets from gs) = length (concat gs).
Proof.
  revert from. induction gs as [|g gs IH]; intros from; [done|].
  cbn [offsets fmap list_fmap concat count]. rewrite length_app, <- (IH (from + length g)%nat). done.
Qed.
Lemma sum_counts items :
  sum_list (count <$> GroupIntoRequests max_spans_per_request max_request_bytes items) = length items.
Proof.
  destruct (packed_groups max_spans_per_request max_request_bytes items) as [Hc _].
  by rewrite GroupIntoRequests_packed, offsets_count, Hc.
Qed.

Lemma drain_accounts_aux batches calls e :
  (fan_out batches = Some (calls, e) ∨ process_batches batches = Some (calls, e)) →
  (∀ b, b ∈ batches → ∃ bytes, Encode b = inl bytes)
    ∧ e = None ∧ (sent calls + failed calls = length batches)%nat
  ∨ (∃ b what, b ∈ batches ∧ Encode b = inr what ∧ e = Some what ∧ calls = []).
Proof.
  intros H. pose proof (encode_all_spec batches) as He. destruct (encode_all Encode batches) as [parts|what] eqn:Ep.
  2: { right. destruct He as (b & Hb & Hw). exists b, what. split_and!; try done.
       all: destruct H as [H|H]; unfold FanOutAndProcess, ProcessBatches in H; rewrite Ep in H;
            [destruct batches; [by apply not_elem_of_nil in Hb|]|]; by injection H. }
  left. assert (∀ b, b ∈ batches → ∃ bytes, Encode b = inl bytes) as Hall.
  { intros b (k & Hk)%list_elem_of_lookup_1. destruct (Forall2_lookup_l _ _ _ _ _ He Hk) as (p & _ & Hp). eauto. }
  split; [done|]. pose proof (Forall2_length _ _ _ He) as Hlen. destruct H as [H|H].
  - unfold FanOutAndProcess in H. rewrite Ep in H. destruct batches as [|b0 bs]; [by injection H as <- <-|].
    apply (settle_all_counts []) in H as [-> ->]; [|by rewrite codec_send_all_length, !length_fmap]. split; [done|].
    rewrite sum_counts. rewrite length_zip_with, !length_fmap. apply Nat.min_l. exact (Nat.eq_le_incl _ _ Hlen).
  - unfold ProcessBatches in H. rewrite Ep in H.
    apply (settle_all_counts []) in H as [-> ->]; [|rewrite codec_send_all_length, length_replicate; lia]. split; [done|].
    clear. induction (length batches) as [|n IH]; [done|]. cbn in *. by rewrite IH.
Qed.

(** Every batch of a drain is counted exactly once.  If every batch encodes,
    nothing is thrown and, one by one, each batch is counted as sent or as failed,
    in the trace exporter (whatever requests they were joined into) and in the log
    and metric exporters; a batch that cannot be encoded fails the drain with the
    encoder's message before anything is sent. *)
Theorem drain_accounts_once batches calls e :
  (fan_out batches = Some (calls, e) ∨ process_batches batches = Some (calls, e)) →
  (∀ b, b ∈ batches → ∃ bytes, Encode b = inl bytes)
    ∧ e = None ∧ (sent calls + failed calls = length batches)%nat
  ∨ (∃ b what, b ∈ batches ∧ Encode b = inr what ∧ e = Some what ∧ calls = []).
Proof. apply drain_accounts_aux. Qed.
End accounting.

(** The HTTP codec keeps the interface's promise. *)
#[export] Instance http_codec GzipCompress GzipDecompress config diag w : IWireCodec := {
  codec_send_all payloads := results (SendAll GzipCompress GzipDecompress config diag w payloads);
  codec_send_all_length := send_all_length GzipDecompress config diag GzipCompress w
}.

Lemma requests_partition_witness :
  GroupIntoRequests 10 0 [(4, 1); (5, 1); (2, 1); (20, 1)] = [mkRange 0 2; mkRange 2 1; mkRange 3 1]
  ∧ packed 10 0 [(4, 1); (5, 1); (2, 1); (20, 1)] = [[(4, 1); (5, 1)]; [(2, 1)]; [(20, 1)]].
Proof.
  split; [reflexivity|].
  destruct (requests_partition 10 0 [(4, 1); (5, 1); (2, 1); (20, 1)] [[1]; [2]; [3]; [4]] eq_refl) as [<- _].
  reflexivity.
Defined.

(** A world that answers 200 to everything. *)
Definition accepting : TransportResult :=
  mkTransportResult true [mkHeaderField $":status" $"200"] [] [] None false false.
Definition accepting_world : World := mkWorld true None false (λ _, inl None) (λ _, Some accepting).

Lemma drain_accounts_once_witness :
  let fan := FanOutAndProcess 10 0 (λ b : Bytes, size b) inl
               (http_codec store_compress store_decompress sample_http true accepting_world)
               pow_by_mul default_policy (λ _, demo_env) true $"stage" $"range" [[1]; [2; 3]] in
  ∃ calls, fan = Some (calls, None) ∧ (sent calls + failed calls = 2)%nat.
Proof.
  intros fan. destruct fan as [[calls e]|] eqn:E; [|vm_compute in E; discriminate E].
  destruct (drain_accounts_once 10 0 (λ b : Bytes, size b) inl
    (http_codec store_compress store_decompress sample_http true accepting_world)
    pow_by_mul default_policy (λ _, demo_env) $"stage" $"range" [[1]; [2; 3]] calls e (or_introl E))
    as [(_ & -> & H)|(b & what & _ & [=] & _)].
  by exists calls.
Defined.

(** ** The worker *)

Inductive ExportResult := ExportSuccess | ExportFailure | ExportDropped | ExportAlreadyShutDown.

Section worker.
Context {Batch : Type} (item_count : Batch → Z).
(** [max_queued_spans] is [None] for the log and metric exporters; [publishes] is
    the depth gauge of the trace exporter.  [process k] is what the sink sees of
    the [k]-th drain. *)
Context (max_queue_size : Z) (max_queued_spans : option Z) (publishes m_diag : bool)
        (process : nat → list Batch → list DiagCall).

(** Where the worker thread is: waiting on [m_cv], outside the lock with a drain in
    hand, past the loop, or done. *)
Inductive Worker := Waiting | Processing (batches : list Batch) | Leaving | Exited.
Record State := mkState {
  m_queue : list Batch;
  m_queued_spans : Z;
  m_flush_seq : Z;
  m_flush_done_seq : Z;
  m_shutdown : bool;
  m_worker : Worker;
  calls : list DiagCall;
  processed : list (list Batch)      (** ghost: the drains handed to the fan-out *)
}.
Definition start : State := mkState [] 0 0 0 false Waiting [] [].

Definition set_queue (q : list Batch) (n : Z) (st : State) : State :=
  mkState q n (m_flush_seq st) (m_flush_done_seq st) (m_shutdown st) (m_worker st) (calls st) (processed st).
Definition set_worker (w : Worker) (st : State) : State :=
  mkState (m_queue st) (m_queued_spans st) (m_flush_seq st) (m_flush_done_seq st) (m_shutdown st) w
    (calls st) (processed st).
Definition set_done (n : Z) (st : State) : State :=
  mkState (m_queue st) (m_queued_spans st) (m_flush_seq st) n (m_shutdown st) (m_worker st)
    (calls st) (processed st).
Definition emit (cs : list DiagCall) (st : State) : State :=
  mkState (m_queue st) (m_queued_spans st) (m_flush_seq st) (m_flush_done_seq st) (m_shutdown st)
    (m_worker st) (calls st ++ cs) (processed st).
(** The fan-out of a drain; the worker is back inside the loop with nothing in hand. *)
Definition hand_over (batches : list Batch) (st : State) : State :=
  mkState (m_queue st) (m_queued_spans st) (m_flush_seq st) (m_flush_done_seq st) (m_shutdown st)
    Waiting (calls st ++ process (length (processed st)) batches) (processed st ++ [batches]).

Definition RecordDropped (reason : DropReason) (n : Z) (st : State) : State :=
  if m_diag then emit [CallRecordDrop reason n] st else st.
Definition PublishQueueDepth (st : State) : State :=
  if publishes && m_diag then emit [CallQueueDepth (size (m_queue st))] st else st.

Definition EnqueueLocked (st : State) (batch : Batch) : ExportResult * State :=
  let span_count := item_count batch in
  if m_shutdown st then (ExportAlreadyShutDown, RecordDropped PostShutdown span_count st)
  else if (max_queue_size <=? size (m_queue st))
          || match max_queued_spans with Some m => m <? m_queued_spans st + span_count | None => false end
  then (ExportDropped, RecordDropped QueueFull span_count st)
  else (ExportSuccess,
        PublishQueueDepth (set_queue (m_queue st ++ [batch]) (m_queued_spans st + span_count) st)).
(** [ExportGroup] is one transition: it holds the lock for the whole group. *)
Definition ExportGroup (st : State) (batches : list Batch) : State :=
  fold_left (λ st b, snd (EnqueueLocked st b)) batches st.

Definition ForceFlush_begin (st : State) : State :=
  mkState (m_queue st) (m_queued_spans st) (m_flush_seq st + 1) (m_flush_done_seq st) (m_shutdown st)
    (m_worker st) (calls st) (processed st).
(** The wait's predicate: [true] is [Completed], [false] at the timeout is [TimedOut]. *)
Definition ForceFlush_end (st : State) : bool := m_flush_seq st <=? m_flush_done_seq st.
Definition Shutdown_begin (st : State) : option Status * State :=
  if m_shutdown st then (Some AlreadyShutDown, st)
  else (None, mkState (m_queue st) (m_queued_spans st) (m_flush_seq st + 1) (m_flush_done_seq st) true
                (m_worker st) (calls st) (processed st)).

(** The rest of the loop body once [DrainQueue] found the queue empty. *)
Definition finish (st : State) : State :=
  let st' := if m_flush_done_seq st <? m_flush_seq st then set_done (m_flush_seq st) st else st in
  set_worker (if m_shutdown st then Leaving else Waiting) st'.
(** The test of [DrainQueue]'s loop: take the whole queue, or leave. *)
Definition drain_or_finish (st : State) : State :=
  match m_queue st with
  | [] => finish st
  | batches => set_worker (Processing batches) (set_queue [] 0 st)
  end.
Definition wakes (st : State) : bool :=
  negb (bool_decide (m_queue st = [])) || (m_flush_done_seq st <? m_flush_seq st) || m_shutdown st.
Definition WorkerLoop_step (st : State) : State :=
  match m_worker st with
  | Waiting => if wakes st then drain_or_finish st else st
  | Processing batches => drain_or_finish (PublishQueueDepth (hand_over batches st))
  | Leaving => set_worker Exited (set_done (m_flush_seq st) st)
  | Exited => st
  end.

(** *** Runs *)

Inductive Event := EvExport (batch : Batch) | EvExportGroup (batches : list Batch) | EvFlush | EvShutdown | EvWorker.
(** Ghost: the accepted batches, and how many there were when each flush began. *)
Record History := mkHistory { accepted : list Batch; marks : list nat }.

Definition offer (s : State * History) (b : Batch) : State * History :=
  let '(r, st') := EnqueueLocked (fst s) b in
  (st', match r with
        | ExportSuccess => mkHistory (accepted (snd s) ++ [b]) (marks (snd s))
        | _ => snd s
        end).
Definition mark (h : History) : History := mkHistory (accepted h) (marks h ++ [length (accepted h)]).
Definition step (s : State * History) (ev : Event) : State * History :=
  match ev with
  | EvExport b => offer s b
  | EvExportGroup bs => fold_left offer bs s
  | EvFlush => (ForceFlush_begin (fst s), mark (snd s))
  | EvShutdown => (snd (Shutdown_begin (fst s)), if m_shutdown (fst s) then snd s else mark (snd s))
  | EvWorker => (WorkerLoop_step (fst s), snd s)
  end.
Definition run (s : State * History) (es : list Event) : State * History := fold_left step es s.
Definition exporter_run (es : list Event) : State * History := run (start, mkHistory [] []) es.

Definition in_hand (w : Worker) : list Batch := match w with Processing bs => bs | _ => [] end.
Definition total_items (q : list Batch) : Z := fold_right (λ b t, item_count b + t) 0 q.

(** The model's group export is the code's fold. *)
Lemma offers_state bs s : fst (fold_left offer bs s) = ExportGroup (fst s) bs.
Proof.
  revert s. induction bs as [|b bs IH]; intros s; [done|]. cbn [fold_left]. rewrite IH. unfold ExportGroup. cbn [fold_left].
  unfold offer. by destruct (EnqueueLocked (fst s) b).
Qed.

(** *** The invariant *)

Definition outcomes (st : State) : list DiagCall := concat (imap process (processed st)).
Record Inv (s : State * History) : Prop := mkInv {
  inv_order : accepted (snd s) = concat (processed (fst s)) ++ in_hand (m_worker (fst s)) ++ m_queue (fst s);
  inv_spans : m_queued_spans (fst s) = total_items (m_queue (fst s));
  inv_cap : size (m_queue (fst s)) <= Z.max 0 max_queue_size;
  inv_budget : ∀ m, max_queued_spans = Some m → m_queued_spans (fst s) <= Z.max 0 m;
  inv_seq : 0 <= m_flush_done_seq (fst s) <= m_flush_seq (fst s) ∧ m_flush_seq (fst s) = size (marks (snd s));
  inv_marks : Forall (λ k, k <= length (accepted (snd s)))%nat (marks (snd s));
  inv_done : ∀ i k, Z.of_nat i < m_flush_done_seq (fst s) → marks (snd s) !! i = Some k →
               (k <= length (concat (processed (fst s))))%nat;
  inv_gone : m_worker (fst s) = Leaving ∨ m_worker (fst s) = Exited →
               m_shutdown (fst s) = true ∧ m_queue (fst s) = [];
  inv_counts : sent (calls (fst s)) = sent (outcomes (fst s)) ∧ failed (calls (fst s)) = failed (outcomes (fst s))
}.

Ltac st_simpl :=
  cbn [fst snd accepted marks m_queue m_queued_spans m_flush_seq m_flush_done_seq m_shutdown m_worker calls
       processed emit set_queue set_worker set_done hand_over mark in_hand] in *.
(** Open an invariant, state the one to prove field by field. *)
Ltac inv_fields H :=
  let H1 := fresh "Horder" in let H2 := fresh "Hspans" in let H3 := fresh "Hcap" in
  let H4 := fresh "Hbudget" in let H5 := fresh "Hseq" in let H6 := fresh "Hmarks" in
  let H7 := fresh "Hdone" in let H8 := fresh "Hgone" in let H9 := fresh "Hcounts" in
  destruct H as [H1 H2 H3 H4 H5 H6 H7 H8 H9]; constructor; st_simpl; try done.

Lemma start_Inv : Inv (start, mkHistory [] []).
Proof. constructor; cbn; try done; try lia; [change (size _) with 0; lia|by intros []]. Qed.

(** Drops and the gauge count neither sent nor failed batches. *)
Lemma emit_Inv cs st h : sent cs = 0%nat → failed cs = 0%nat → Inv (st, h) → Inv (emit cs st, h).
Proof.
  intros Hs Hf Hi. inv_fields Hi. rewrite sent_app, failed_app, Hs, Hf. rewrite !Nat.add_0_r. exact Hcounts.
Qed.
Lemma RecordDropped_Inv reason n st h : Inv (st, h) → Inv (RecordDropped reason n st, h).
Proof. unfold RecordDropped. destruct m_diag; [|done]. by apply emit_Inv. Qed.
Lemma PublishQueueDepth_Inv st h : Inv (st, h) → Inv (PublishQueueDepth st, h).
Proof. unfold PublishQueueDepth. destruct (publishes && m_diag); [|done]. by apply emit_Inv. Qed.

Lemma offer_Inv s b : Inv s → Inv (offer s b).
Proof.
  destruct s as [st h]. intros Hi. unfold offer, EnqueueLocked. cbn [fst snd].
  destruct (m_shutdown st) eqn:Esd; [by apply RecordDropped_Inv|].
  destruct (_ || _) eqn:Ef; [by apply RecordDropped_Inv|]. apply PublishQueueDepth_Inv.
  apply orb_false_iff in Ef as [Ec Eb]. apply Z.leb_gt in Ec.
  inv_fields Hi.
  - by rewrite Horder, <- !app_assoc.
  - rewrite Hspans. unfold total_items. rewrite fold_right_app. cbn.
    generalize (m_queue st). induction l as [|x l IH]; cbn; lia.
  - rewrite size_app. change (size [b]) with 1. lia.
  - intros m ->. apply Z.ltb_ge in Eb. lia.
  - eapply Forall_impl; [exact Hmarks|]. intros k Hk. cbn in Hk. rewrite length_app. lia.
  - intros Hw. destruct (Hgone Hw) as [Hs _]. congruence.
Qed.
Lemma offers_Inv bs s : Inv s → Inv (fold_left offer bs s).
Proof. revert s. induction bs as [|b bs IH]; intros s Hi; [done|]. cbn. apply IH, offer_Inv, Hi. Qed.

(** Opening a flush. *)
Lemma mark_Inv st h sd :
  (m_shutdown st = true → sd = true) → Inv (st, h) →
  Inv (mkState (m_queue st) (m_queued_spans st) (m_flush_seq st + 1) (m_flush_done_seq st) sd
         (m_worker st) (calls st) (processed st), mark h).
Proof.
  intros Hsd Hi. inv_fields Hi.
  - split; [lia|]. rewrite size_app. change (size [_]) with 1. lia.
  - apply Forall_app; split; [done|]. by apply Forall_singleton.
  - intros i k Hik Hm. apply (Hdone i); [done|]. apply lookup_app_Some in Hm as [?|[Hl _]]; [done|].
    exfalso. unfold size in *. lia.
  - intros Hw. destruct (Hgone Hw). auto.
Qed.

(** Acknowledging is sound when everything accepted has been handed over. *)
Lemma done_Inv st h n :
  Inv (st, h) → in_hand (m_worker st) = [] → m_queue st = [] → m_flush_done_seq st <= n <= m_flush_seq st →
  Inv (set_done n st, h).
Proof.
  intros Hi Hw Hq Hn. inv_fields Hi; [lia|].
  intros i k _ Hm. rewrite Hw, Hq, !app_nil_r in Horder. rewrite <- Horder. by eapply (Forall_lookup_1 _ _ _ _ Hmarks).
Qed.
Lemma worker_Inv st h w :
  Inv (st, h) → in_hand w = in_hand (m_worker st) →
  (w = Leaving ∨ w = Exited → m_shutdown st = true ∧ m_queue st = []) → Inv (set_worker w st, h).
Proof. intros Hi Hw Hg. inv_fields Hi. by rewrite Hw. Qed.

Lemma drain_Inv st h :
  Inv (st, h) → in_hand (m_worker st) = [] → Inv (drain_or_finish st, h).
Proof.
  intros Hi Hw. unfold drain_or_finish. destruct (m_queue st) as [|b q] eqn:Eq.
  - unfold finish. pose proof (inv_seq _ Hi) as [Hs _]. cbn in Hs.
    assert (Inv (if m_flush_done_seq st <? m_flush_seq st then set_done (m_flush_seq st) st else st, h)) as Hi'.
    { destruct (_ <? _); [|done]. apply done_Inv; try done. lia. }
    apply worker_Inv; [done| |].
    + destruct (_ <? _), (m_shutdown st); st_simpl; by rewrite Hw.
    + destruct (m_shutdown st) eqn:Es; [|by intros []]. intros _. by destruct (_ <? _); st_simpl; rewrite Es, Eq.
  - inv_fields Hi.
    + by rewrite Horder, Hw, Eq, app_nil_r.
    + change (size _) with 0. lia.
    + intros m Hm. lia.
    + by intros [].
Qed.

Lemma WorkerLoop_step_Inv st h : Inv (st, h) → Inv (WorkerLoop_step st, h).
Proof.
  intros Hi. unfold WorkerLoop_step. destruct (m_worker st) as [|bs| |] eqn:Ew; [..|done].
  - destruct (wakes st); [|done]. apply drain_Inv; [done|by rewrite Ew].
  - apply drain_Inv; [|unfold PublishQueueDepth; by destruct (_ && _)]. apply PublishQueueDepth_Inv.
    inv_fields Hi.
    + rewrite Horder, Ew. st_simpl. rewrite concat_app. cbn. by rewrite app_nil_r, <- app_assoc.
    + intros i k Hik Hm. rewrite concat_app, length_app. specialize (Hdone i k Hik Hm). lia.
    + by intros [].
    + destruct Hcounts as [Hs Hf]. unfold outcomes in *. st_simpl. rewrite imap_app, concat_app. cbn.
      by rewrite app_nil_r, !sent_app, !failed_app, Nat.add_0_r, Hs, Hf.
  - destruct (inv_gone _ Hi) as [Hs Hq]; [by left|]. pose proof (inv_seq _ Hi) as [Hsq _]. st_simpl.
    apply worker_Inv; [apply done_Inv; try done; [by rewrite Ew|lia]|st_simpl; by rewrite Ew|by st_simpl].
Qed.

Lemma step_Inv s ev : Inv s → Inv (step s ev).
Proof.
  destruct s as [st h]. intros Hi. destruct ev as [b|bs| | |]; cbn [step fst snd].
  - by apply offer_Inv.
  - by apply offers_Inv.
  - by apply mark_Inv.
  - unfold Shutdown_begin. destruct (m_shutdown st) eqn:E; [done|]. by apply mark_Inv; [rewrite E|].
  - by apply WorkerLoop_step_Inv.
Qed.
Lemma run_Inv es s : Inv s → Inv (run s es).
Proof. revert s. induction es as [|ev es IH]; intros s Hi; [done|]. cbn. apply IH, step_Inv, Hi. Qed.

(** *** Progress *)

Definition is_worker (ev : Event) : bool := match ev with EvWorker => true | _ => false end.
Definition idle (st : State) : bool := bool_decide (m_queue st = []).
(** Worker transitions still needed to leave, and to acknowledge the flushes begun. *)
Definition exit_distance (st : State) : nat :=
  match m_worker st with
  | Exited => 0
  | Leaving => 1
  | Waiting | Processing _ => if idle st then 2 else 3
  end.
Definition flush_distance (st : State) : nat :=
  match m_worker st with
  | Waiting => if idle st then if m_flush_done_seq st <? m_flush_seq st then 1 else 0 else 2
  | _ => if idle st then 1 else 2
  end.

Lemma drain_cases st :
  (m_queue st = [] ∧ drain_or_finish st = finish st)
  ∨ (m_queue st ≠ [] ∧ drain_or_finish st = set_worker (Processing (m_queue st)) (set_queue [] 0 st)).
Proof. unfold drain_or_finish. destruct (m_queue st); [by left|by right]. Qed.
Lemma publish_fields st :
  m_queue (PublishQueueDepth st) = m_queue st ∧ m_shutdown (PublishQueueDepth st) = m_shutdown st
  ∧ m_flush_seq (PublishQueueDepth st) = m_flush_seq st
  ∧ m_flush_done_seq (PublishQueueDepth st) = m_flush_done_seq st.
Proof. unfold PublishQueueDepth. by destruct (_ && _). Qed.
Lemma finish_fields st :
  m_queue (finish st) = m_queue st ∧ m_shutdown (finish st) = m_shutdown st
  ∧ m_flush_seq (finish st) = m_flush_seq st ∧ m_flush_seq st <= m_flush_done_seq (finish st)
  ∧ m_worker (finish st) = if m_shutdown st then Leaving else Waiting.
Proof. unfold finish. destruct (Z.ltb_spec (m_flush_done_seq st) (m_flush_seq st)); st_simpl; split_and!; done || lia. Qed.

Lemma drain_shutdown st :
  m_shutdown st = true →
  m_shutdown (drain_or_finish st) = true ∧ (exit_distance (drain_or_finish st) <= if idle st then 1 else 2)%nat.
Proof.
  intros Hs. unfold exit_distance, idle. destruct (drain_cases st) as [[Hq ->]|[Hq ->]].
  - destruct (finish_fields st) as (-> & -> & _ & _ & ->). rewrite Hs, bool_decide_true by done. by split.
  - st_simpl. rewrite (bool_decide_false (m_queue st = [])) by done. by split.
Qed.
Lemma worker_shutdown st :
  m_shutdown st = true →
  m_shutdown (WorkerLoop_step st) = true ∧ (exit_distance (WorkerLoop_step st) <= pred (exit_distance st))%nat.
Proof.
  intros Hs. unfold WorkerLoop_step, exit_distance at 2. destruct (m_worker st) as [|bs| |] eqn:Ew.
  - unfold wakes. rewrite Hs, orb_true_r. destruct (drain_shutdown st Hs) as [H1 H2]. split; [done|]. by destruct (idle st).
  - set (st' := PublishQueueDepth (hand_over bs st)). destruct (publish_fields (hand_over bs st)) as (Hq & Hs' & _).
    fold st' in Hq, Hs'. st_simpl. rewrite Hs in Hs'. destruct (drain_shutdown st' Hs') as [H1 H2]. split; [done|].
    unfold idle in *. rewrite Hq in H2. by destruct (bool_decide (m_queue st = [])).
  - by split.
  - split; [done|]. unfold exit_distance. by rewrite Ew.
Qed.

(** After shutdown nothing but the worker's own steps matters. *)
Lemma offer_shutdown s b :
  m_shutdown (fst s) = true →
  m_shutdown (fst (offer s b)) = true ∧ exit_distance (fst (offer s b)) = exit_distance (fst s)
  ∧ accepted (snd (offer s b)) = accepted (snd s).
Proof. intros Hs. unfold offer, EnqueueLocked. rewrite Hs. unfold RecordDropped. by destruct m_diag. Qed.
Lemma step_shutdown s ev :
  m_shutdown (fst s) = true →
  m_shutdown (fst (step s ev)) = true ∧ accepted (snd (step s ev)) = accepted (snd s)
  ∧ (exit_distance (fst (step s ev)) <= exit_distance (fst s) - if is_worker ev then 1 else 0)%nat.
Proof.
  intros Hs. destruct ev as [b|bs| | |]; cbn [step is_worker].
  - destruct (offer_shutdown s b Hs) as (-> & -> & ->). split_and!; [done|done|lia].
  - revert s Hs. induction bs as [|b bs IH]; intros s Hs; [split_and!; [done|done|cbn; lia]|]. cbn [fold_left].
    destruct (offer_shutdown s b Hs) as (Hs' & <- & <-). by apply IH.
  - cbn. split_and!; [done|done|]. unfold exit_distance, idle. cbn. lia.
  - unfold Shutdown_begin. rewrite Hs. cbn. split_and!; [done|done|lia].
  - destruct (worker_shutdown (fst s) Hs) as [H1 H2]. cbn [fst snd]. split_and!; [done|done|lia].
Qed.
Lemma run_shutdown es s :
  m_shutdown (fst s) = true →
  m_shutdown (fst (run s es)) = true ∧ accepted (snd (run s es)) = accepted (snd s)
  ∧ (exit_distance (fst (run s es)) <= exit_distance (fst s) - length (List.filter is_worker es))%nat.
Proof.
  revert s. induction es as [|ev es IH]; intros s Hs; [cbn; split_and!; [done|done|lia]|]. cbn [run fold_left].
  destruct (step_shutdown s ev Hs) as (H1 & H2 & H3). destruct (IH _ H1) as (I1 & I2 & I3).
  unfold run in *. rewrite I2, H2. split_and!; [done|done|]. cbn [List.filter]. destruct (is_worker ev); cbn [length]; lia.
Qed.

Lemma drain_flush st :
  m_shutdown st = false →
  m_shutdown (drain_or_finish st) = false ∧ m_flush_seq (drain_or_finish st) = m_flush_seq st
  ∧ (flush_distance (drain_or_finish st) <= if idle st then 0 else 1)%nat.
Proof.
  intros Hs. unfold flush_distance, idle. destruct (drain_cases st) as [[Hq ->]|[Hq ->]].
  - destruct (finish_fields st) as (-> & -> & -> & Hd & ->). rewrite Hs, bool_decide_true, (proj2 (Z.ltb_ge _ _)) by done.
    by split_and!.
  - st_simpl. rewrite (bool_decide_false (m_queue st = [])) by done. by split_and!.
Qed.
Lemma worker_flush st :
  m_shutdown st = false → m_worker st ≠ Leaving → m_worker st ≠ Exited →
  m_shutdown (WorkerLoop_step st) = false ∧ (flush_distance (WorkerLoop_step st) <= pred (flush_distance st))%nat.
Proof.
  intros Hs HL HE. unfold WorkerLoop_step, flush_distance at 2. destruct (m_worker st) as [|bs| |] eqn:Ew; [| |done|done].
  - destruct (wakes st) eqn:Ewk.
    + destruct (drain_flush st Hs) as (H1 & _ & H2). split; [done|]. destruct (idle st); [|done].
      by destruct (_ <? _); [done|cbn; lia].
    + unfold wakes in Ewk. rewrite Hs, !orb_false_r in Ewk. apply orb_false_iff in Ewk as [Eq Ef].
      split; [done|]. unfold flush_distance, idle in *. rewrite Ew. apply negb_false_iff in Eq. rewrite Eq, Ef. done.
  - set (st' := PublishQueueDepth (hand_over bs st)). destruct (publish_fields (hand_over bs st)) as (Hq & Hs' & _).
    fold st' in Hq, Hs'. st_simpl. rewrite Hs in Hs'. destruct (drain_flush st' Hs') as (H1 & _ & H2). split; [done|].
    unfold idle in *. rewrite Hq in H2. by destruct (bool_decide (m_queue st = [])).
Qed.
Lemma run_flush n s :
  Inv s → m_shutdown (fst s) = false →
  let s' := run s (replicate n EvWorker) in
  Inv s' ∧ m_shutdown (fst s') = false ∧ (flush_distance (fst s') <= flush_distance (fst s) - n)%nat.
Proof.
  revert s. induction n as [|n IH]; intros s Hi Hs; [cbn; split_and!; [done|done|lia]|]. cbn [replicate run fold_left].
  assert (∀ w, w = Leaving ∨ w = Exited → m_worker (fst s) ≠ w) as Hw.
  { intros w Hw E. destruct (inv_gone _ Hi) as [? _]; [rewrite E; done|congruence]. }
  destruct (worker_flush (fst s) Hs) as [H1 H2]; [apply Hw; by left|apply Hw; by right|].
  destruct (IH (step s EvWorker)) as (I1 & I2 & I3); [by apply step_Inv|done|]. cbn [step fst] in I3.
  split_and!; [done|done|]. unfold run in *. cbn [step] in *. lia.
Qed.
Lemma flush_distance_0 s :
  Inv s → m_shutdown (fst s) = false → flush_distance (fst s) = 0%nat → ForceFlush_end (fst s) = true.
Proof.
  intros Hi Hs. unfold flush_distance, ForceFlush_end. destruct (m_worker (fst s)); destruct (idle (fst s)); try done.
  destruct (Z.ltb_spec (m_flush_done_seq (fst s)) (m_flush_seq (fst s))); [done|]. intros _. apply Z.leb_le. lia.
Qed.

(** *** Theorems *)

(** C5: exactly once and in order: in every interleaving of exports, group exports,
    flushes, shutdown and the worker, the accepted batches are, in order, those
    handed to the fan-out, the drain in the worker's hand and the queue; the queue
    stays within its batch bound and, in the trace exporter, its span budget, whose
    counter is exact; and the sink has counted as sent or failed exactly what the
    drains reported. *)
Theorem exporter_exactly_once es :
  let st := fst (exporter_run es) in let h := snd (exporter_run es) in
  accepted h = concat (processed st) ++ in_hand (m_worker st) ++ m_queue st
  ∧ size (m_queue st) <= Z.max 0 max_queue_size
  ∧ m_queued_spans st = total_items (m_queue st)
  ∧ (∀ m, max_queued_spans = Some m → m_queued_spans st <= Z.max 0 m)
  ∧ sent (calls st) = sent (concat (imap process (processed st)))
  ∧ failed (calls st) = failed (concat (imap process (processed st))).
Proof. destruct (run_Inv es _ start_Inv) as [H1 H2 H3 H4 _ _ _ _ [H5 H6]]. by split_and!. Qed.

(** A flush means what it says and is acknowledged: when a [ForceFlush] returns
    [Completed], everything accepted before any flush begun so far has been handed
    over; and if nothing is exported meanwhile, two worker transitions suffice. *)
Theorem exporter_flush es i k n :
  let s := exporter_run es in
  (ForceFlush_end (fst s) = true → marks (snd s) !! i = Some k →
     take k (accepted (snd s)) `prefix_of` concat (processed (fst s)))
  ∧ (m_shutdown (fst s) = false → (2 <= n)%nat →
     ForceFlush_end (fst (run s (replicate n EvWorker))) = true).
Proof.
  intros s. pose proof (run_Inv es _ start_Inv) as Hi. fold (exporter_run es) in Hi. fold s in Hi. split.
  - intros He Hm. pose proof (inv_seq _ Hi) as [Hs Hl]. unfold ForceFlush_end in He. apply Z.leb_le in He.
    assert (k <= length (concat (processed (fst s))))%nat as Hk.
    { apply (inv_done _ Hi i); [|done]. apply lookup_lt_Some in Hm. unfold size in Hl. lia. }
    rewrite (inv_order _ Hi), take_app_le by done. by apply prefix_take.
  - intros Hs Hn. destruct (run_flush n s Hi Hs) as (I1 & I2 & I3). apply flush_distance_0; [done|done|].
    assert (flush_distance (fst s) <= 2)%nat; [|lia]. unfold flush_distance.
    destruct (m_worker (fst s)), (idle (fst s)); try lia. destruct (_ <? _); lia.
Qed.

(** Shutdown drains: once it has begun, nothing more is accepted and, whatever
    else runs, three worker transitions take the worker to its exit with an empty
    queue and every accepted batch handed over. *)
Theorem exporter_shutdown es es' :
  let s := exporter_run es in let s' := run s es' in
  m_shutdown (fst s) = true → (3 <= length (List.filter is_worker es'))%nat →
  m_worker (fst s') = Exited ∧ m_queue (fst s') = []
  ∧ accepted (snd s') = accepted (snd s) ∧ concat (processed (fst s')) = accepted (snd s).
Proof.
  intros s s' Hs Hn. pose proof (run_Inv es _ start_Inv) as Hi. fold (exporter_run es) in Hi. fold s in Hi.
  destruct (run_shutdown es' s Hs) as (_ & Ha & Hd). fold s' in Ha, Hd.
  assert (exit_distance (fst s) <= 3)%nat by (unfold exit_distance; destruct (m_worker (fst s)), (idle (fst s)); lia).
  assert (m_worker (fst s') = Exited) as He.
  { assert (exit_distance (fst s') = 0)%nat as E0 by lia. unfold exit_distance in E0.
    by destruct (m_worker (fst s')), (idle (fst s')). }
  pose proof (run_Inv es' s Hi) as Hi'. fold s' in Hi'.
  destruct (inv_gone _ Hi') as [_ Hq]; [by right|]. pose proof (inv_order _ Hi') as Ho. rewrite He, Hq in Ho.
  cbn [in_hand app] in Ho. rewrite app_nil_r in Ho. split_and!; try done. congruence.
Qed.
End worker.

(** The log and metric exporters' [Export]. *)
Definition log_Export {Batch} (item_count : Batch → Z) (max_queue_size : Z) (m_diag : bool) :=
  EnqueueLocked item_count max_queue_size None false m_diag.
Definition metric_Export {Batch} (item_count : Batch → Z) (max_queue_size : Z) (m_diag : bool) :=
  EnqueueLocked item_count max_queue_size None false m_diag.

(** *** The pipeline end to end *)

Section pipeline.
Context {Batch : Type} (item_count : Batch → Z) (Encode : Batch → Bytes + str).
Context (max_queue_size max_queued_spans max_spans_per_request max_request_bytes : Z).
Context (codec : nat → IWireCodec) (std_pow : Double.double → Double.double → Double.double)
        (policy : RetryPolicyConfig) (env : nat → nat → Env) (kFailureStage out_of_range : str).

(** The [k]-th drain of the trace exporter, with the codec and the clock it meets. *)
Definition drain (k : nat) (batches : list Batch) : option (list DiagCall) :=
  caught true (FanOutAndProcess max_spans_per_request max_request_bytes item_count Encode (codec k)
                 std_pow policy (env k) true kFailureStage out_of_range batches).
Abbreviation pipeline := (exporter_run item_count max_queue_size (Some max_queued_spans) true true
                            (λ k bs, default [] (drain k bs))).

Lemma drain_counts k bs calls :
  (∀ b, b ∈ bs → ∃ bytes, Encode b = inl bytes) → drain k bs = Some calls →
  (sent calls + failed calls = length bs)%nat.
Proof.
  intros He. unfold drain, caught. destruct (FanOutAndProcess _ _ _ _ _ _ _ _ _ _ _ bs) as [[c e]|] eqn:Ef; [|done].
  destruct (drain_accounts_aux _ _ _ _ _ _ _ _ _ _ _ _ _ (or_introl Ef)) as [(_ & -> & Hc)|(b & what & Hb & Hw & _)].
  - by intros [= <-].
  - destruct (He b Hb) as [? ?]. congruence.
Qed.
Lemma drains_count k bss :
  (∀ b, b ∈ concat bss → ∃ bytes, Encode b = inl bytes) →
  (∀ i bs, bss !! i = Some bs → is_Some (drain (k + i) bs)) →
  let calls := concat (imap (λ i bs, default [] (drain (k + i) bs)) bss) in
  (sent calls + failed calls = length (concat bss))%nat.
Proof.
  revert k. induction bss as [|bs bss IH]; intros k He Hd; [done|]. cbn [concat imap].
  destruct (Hd 0%nat bs eq_refl) as [c Hc]. rewrite Nat.add_0_r in *. cbv zeta. rewrite Hc. change (default [] (Some c)) with c.
  rewrite sent_app, failed_app, length_app.
  assert (sent c + failed c = length bs)%nat.
  { apply (drain_counts k); [|done]. intros b Hb. apply He. cbn. apply elem_of_app. by left. }
  specialize (IH (S k)). cbv zeta in IH.
  rewrite (imap_ext _ (λ i bs, default [] (drain (S k + i) bs))) by (intros i x _; cbn; by rewrite Nat.add_succ_r).
  rewrite <- IH; [lia| |].
  - intros b Hb. apply He. cbn. apply elem_of_app. by right.
  - intros i x Hx. replace (S k + i)%nat with (k + S i)%nat by lia. by apply Hd.
Qed.

(** C6: the export pipeline end to end: under every interleaving, if every batch
    encodes, the batches the sink has counted as sent or failed are exactly those
    handed to the fan-out, each counted once; when the worker has exited, that is
    every batch the exporter ever accepted. *)
Theorem pipeline_accounts_all es :
  let st := fst (pipeline es) in let h := snd (pipeline es) in
  (∀ b, b ∈ accepted h → ∃ bytes, Encode b = inl bytes) →
  (∀ k bs, processed st !! k = Some bs → is_Some (drain k bs)) →
  (sent (calls st) + failed (calls st) = length (concat (processed st)))%nat
  ∧ (m_worker st = Exited → (sent (calls st) + failed (calls st) = length (accepted h))%nat).
Proof.
  intros st h He Hd. pose proof (run_Inv item_count max_queue_size (Some max_queued_spans) true true
    (λ k bs, default [] (drain k bs)) es _ (start_Inv _ _ _ _)) as Hi. fold st in Hi.
  pose proof (inv_order _ _ _ _ _ Hi) as Ho. destruct (inv_counts _ _ _ _ _ Hi) as [Hs Hf].
  change (accepted h = concat (processed st) ++ in_hand (m_worker st) ++ m_queue st) in Ho.
  change (sent (calls st) = sent (outcomes (λ k bs, default [] (drain k bs)) st)) in Hs.
  change (failed (calls st) = failed (outcomes (λ k bs, default [] (drain k bs)) st)) in Hf.
  assert (sent (calls st) + failed (calls st) = length (concat (processed st)))%nat as Hc.
  { rewrite Hs, Hf. apply (drains_count 0); [|done]. intros b Hb. apply He. rewrite Ho. apply elem_of_app. by left. }
  split; [done|]. intros Hx. rewrite Hc, Ho, Hx.
  destruct (inv_gone _ _ _ _ _ Hi) as [_ Hq]; [by right|]. change (m_queue st = []) in Hq. rewrite Hq. by rewrite !app_nil_r.
Qed.
End pipeline.

(** *** Witnesses *)

Definition demo_process (k : nat) (bs : list nat) : list DiagCall := replicate (length bs) CallBatchSent.
Abbreviation demo_run := (exporter_run Z.of_nat 8 (Some 100) true true demo_process).

Lemma exporter_flush_witness :
  let es := [EvExport 3%nat; EvExportGroup [4%nat; 5%nat]; EvFlush; EvWorker; EvExport 6%nat] in
  ForceFlush_end (fst (demo_run es)) = false
  ∧ ForceFlush_end (fst (run Z.of_nat 8 (Some 100) true true demo_process (demo_run es) (replicate 2 EvWorker))) = true.
Proof.
  split; [reflexivity|].
  apply (exporter_flush Z.of_nat 8 (Some 100) true true demo_process
    [EvExport 3%nat; EvExportGroup [4%nat; 5%nat]; EvFlush; EvWorker; EvExport 6%nat] 0 0 2); [reflexivity|lia].
Defined.

Lemma exporter_shutdown_witness :
  let s := demo_run [EvExport 3%nat; EvWorker; EvExport 4%nat; EvShutdown] in
  concat (processed (fst (run Z.of_nat 8 (Some 100) true true demo_process s [EvWorker; EvExport 5%nat; EvWorker; EvWorker])))
  = [3%nat; 4%nat].
Proof.
  apply (exporter_shutdown Z.of_nat 8 (Some 100) true true demo_process
    [EvExport 3%nat; EvWorker; EvExport 4%nat; EvShutdown] [EvWorker; EvExport 5%nat; EvWorker; EvWorker]); [reflexivity|cbn; lia].
Defined.

Lemma pipeline_accounts_all_witness :
  let codec := λ _ : nat, http_codec store_compress store_decompress sample_http true accepting_world in
  let st := fst (exporter_run (λ b : Bytes, size b) 8 (Some 100) true true
                   (λ k bs, default [] (drain (λ b : Bytes, size b) inl 10 0 codec pow_by_mul default_policy
                                          (λ _ _, demo_env) $"stage" $"range" k bs))
                   [EvExport [1]; EvExportGroup [[2; 3]; [4]]; EvShutdown; EvWorker; EvWorker; EvWorker]) in
  (sent (calls st) + failed (calls st) = 3)%nat.
Proof.
  intros codec.
  apply (pipeline_accounts_all (λ b : Bytes, size b) inl 8 100 10 0 codec pow_by_mul default_policy
    (λ _ _, demo_env) $"stage" $"range" [EvExport [1]; EvExportGroup [[2; 3]; [4]]; EvShutdown; EvWorker; EvWorker; EvWorker]).
  - intros b _. by exists b.
  - intros [|k] bs Hk; [|vm_compute in Hk; discriminate Hk]. vm_compute in Hk. injection Hk as <-. vm_compute. by eexists.
  - vm_compute. reflexivity.
Defined.
