(* ===== verification/OtlpMessages.v ===== *)
(** * OTLP messages

    The protobuf messages the encoder writes and the decoder reads, as values: what
    the accessors of [src/gen/opentelemetry/proto] get and set.  A repeated field is a
    list, [add_*] appending to it; a submessage is an option, [mutable_*] creating it
    empty when it is absent; a oneof is an inductive type.  A scalar field never set
    has its default, zero or empty.  Fields of the schema that neither side touches
    (trace state, flags of spans and links, dropped counts of spans, schema URLs,
    exemplars) are left out.  The accessors return null only when the allocator
    fails, which is not modelled.

    The bytes of a message are upb's matter: [serialize] and [upb_Decode] are
    parameters of the encoder and of the decoder. *)
From S2P Require Import Prelude Data Double.

(** ** [common.v1] *)

Inductive UAnyValue :=
| value_NOT_SET
| string_value (s : str)
| bool_value (b : bool)
| int_value (z : Z)
| double_value (d : Z)
| array_value (values : list UAnyValue)
| kvlist_value (values : list (str * option UAnyValue))
| bytes_value (b : list Z)
| string_value_strindex (i : Z).
Record UKeyValue := mkUKeyValue { uk_key : str; uk_value : option UAnyValue }.
Record UScope := mkUScope { us_name : str; us_version : str }.
(** [resource.v1.Resource]. *)
Record UResource := mkUResource { ur_attributes : list UKeyValue }.

(** ** [trace.v1] *)

Record UEvent := mkUEvent { ue_time_unix_nano : Z; ue_name : str; ue_attributes : list UKeyValue }.
Record ULink := mkULink { ul_trace_id : list Z; ul_span_id : list Z; ul_attributes : list UKeyValue }.
Record UStatus := mkUStatus { ut_message : str; ut_code : Z }.
Record USpan := mkUSpan {
  usp_trace_id : list Z;
  usp_span_id : list Z;
  usp_parent_span_id : list Z;
  usp_name : str;
  usp_kind : Z;
  usp_start_time_unix_nano : Z;
  usp_end_time_unix_nano : Z;
  usp_attributes : list UKeyValue;
  usp_events : list UEvent;
  usp_links : list ULink;
  usp_status : option UStatus
}.
Record UScopeSpans := mkUScopeSpans { uss_scope : option UScope; uss_spans : list USpan }.
Record UResourceSpans := mkUResourceSpans { urs_resource : option UResource; urs_scope_spans : list UScopeSpans }.
(** [ExportTraceServiceRequest]. *)
Record UTraceRequest := mkUTraceRequest { utr_resource_spans : list UResourceSpans }.

(** [_new]: every field has its default. *)
Definition USpan_new : USpan := mkUSpan [] [] [] [] 0 0 0 [] [] [] None.
Definition add_event (span : USpan) (ev : UEvent) : USpan :=
  mkUSpan (usp_trace_id span) (usp_span_id span) (usp_parent_span_id span) (usp_name span) (usp_kind span)
    (usp_start_time_unix_nano span) (usp_end_time_unix_nano span) (usp_attributes span) (usp_events span ++ [ev]) (usp_links span) (usp_status span).
Definition add_link (span : USpan) (lnk : ULink) : USpan :=
  mkUSpan (usp_trace_id span) (usp_span_id span) (usp_parent_span_id span) (usp_name span) (usp_kind span)
    (usp_start_time_unix_nano span) (usp_end_time_unix_nano span) (usp_attributes span) (usp_events span) (usp_links span ++ [lnk]) (usp_status span).
Definition set_status (span : USpan) (st : option UStatus) : USpan :=
  mkUSpan (usp_trace_id span) (usp_span_id span) (usp_parent_span_id span) (usp_name span) (usp_kind span)
    (usp_start_time_unix_nano span) (usp_end_time_unix_nano span) (usp_attributes span) (usp_events span) (usp_links span) st.

(** ** [metrics.v1] *)

Definition AGGREGATION_TEMPORALITY_DELTA : Z := 1.
Definition AGGREGATION_TEMPORALITY_CUMULATIVE : Z := 2.
Inductive UNumber := number_NOT_SET | as_int (z : Z) | as_double (d : double).
Record UNumberDataPoint := mkUNumberDataPoint {
  und_attributes : list UKeyValue; und_start_time_unix_nano : Z; und_time_unix_nano : Z; und_value : UNumber }.
(** [sum], [min] and [max] have explicit presence. *)
Record UHistogramDataPoint := mkUHistogramDataPoint {
  uhd_attributes : list UKeyValue;
  uhd_start_time_unix_nano : Z;
  uhd_time_unix_nano : Z;
  uhd_count : Z;
  uhd_sum : option double;
  uhd_min : option double;
  uhd_max : option double;
  uhd_bucket_counts : list Z;
  uhd_explicit_bounds : list double
}.
Inductive UMetricData :=
| data_NOT_SET
| data_gauge (points : list UNumberDataPoint)
| data_sum (points : list UNumberDataPoint) (temporality : Z) (is_monotonic : bool)
| data_histogram (points : list UHistogramDataPoint) (temporality : Z).
Record UMetric := mkUMetric { um_name : str; um_description : str; um_unit : str; um_data : UMetricData }.
Record UScopeMetrics := mkUScopeMetrics { usm_scope : option UScope; usm_metrics : list UMetric }.
Record UResourceMetrics := mkUResourceMetrics { urm_resource : option UResource; urm_scope_metrics : list UScopeMetrics }.
(** [ExportMetricsServiceRequest]. *)
Record UMetricsRequest := mkUMetricsRequest { umr_resource_metrics : list UResourceMetrics }.

(** ** [logs.v1] *)

Record ULogRecord := mkULogRecord {
  ulr_time_unix_nano : Z;
  ulr_observed_time_unix_nano : Z;
  ulr_severity_number : Z;
  ulr_severity_text : str;
  ulr_body : option UAnyValue;
  ulr_attributes : list UKeyValue;
  ulr_dropped_attributes_count : Z;
  ulr_flags : Z;
  ulr_trace_id : list Z;
  ulr_span_id : list Z;
  ulr_event_name : str
}.
Record UScopeLogs := mkUScopeLogs { usl_scope : option UScope; usl_log_records : list ULogRecord }.
Record UResourceLogs := mkUResourceLogs { url_resource : option UResource; url_scope_logs : list UScopeLogs }.
(** [ExportLogsServiceRequest]. *)
Record ULogsRequest := mkULogsRequest { ulq_resource_logs : list UResourceLogs }.
