(* ===== verification/LeafTime.v ===== *)
(** * Time correction of the leaf concentrator

    Model of [src/sdk/leaf_time.cpp] and [leaf_time.hpp]: saturating arithmetic,
    the three time modes and the boot-relative anchor.  Times are signed 64-bit
    nanoseconds; [system_clock] counts nanoseconds, so [ToNs] and [FromNs] are the
    identity.  The anchor keeps its samples in an array of 16 with a count, as the
    code does; [.at()] out of range throws in a [noexcept] function and is [None].

    The theorems: the arithmetic is the mathematical one clamped to the range, with
    no overflow on the way; a correction keeps every timestamp in range and every
    span ordered; the anchor is the second-smallest sample of the current boot and
    window. *)
From stdpp Require Import sorting.
From S2P Require Import Prelude Context Data.

Definition kMax : Z := i64_max.
Definition kMin : Z := i64_min.

(** The modes a payload declares, or a sender is configured with ([ModeUnix]). *)
Inductive LeafTimeMode := ModeConcentratorStamped | ModeSyncRelative | ModeBootRelative | ModeUnix.
#[export] Instance LeafTimeMode_eq_dec : EqDecision LeafTimeMode.
Proof. solve_decision. Defined.

(** ** Saturating arithmetic *)

Definition SaturatingAdd (a b : Z) : Z :=
  if (0 <? b) && (kMax - b <? a) then kMax
  else if (b <? 0) && (a <? kMin - b) then kMin
  else a + b.
Definition SaturatingSub (a b : Z) : Z :=
  if (b <? 0) && (kMax + b <? a) then kMax
  else if (0 <? b) && (a <? kMin + b) then kMin
  else a - b.

(** ** Corrections *)

Record TimeCorrection := mkTimeCorrection { tc_offset : Z; tc_fixed : option Z }.
Record SyncLimits := mkSyncLimits { max_sync_age : Z; max_clock_skew : Z }.

Definition Corrected (t : Z) (c : TimeCorrection) : Z :=
  match tc_fixed c with
  | Some f => f
  | None => Z.max 0 (SaturatingAdd t (tc_offset c))
  end.

Definition ConcentratorStamped (received : Z) (encode_time : option Z) : TimeCorrection :=
  match encode_time with
  | None => mkTimeCorrection 0 (Some (Z.max 0 received))
  | Some e => mkTimeCorrection (SaturatingSub received e) None
  end.

Definition SyncRelative (received encode_time sync_age : Z) (limits : SyncLimits) : option TimeCorrection :=
  let skew := SaturatingSub received encode_time in
  let abs_skew := if 0 <=? skew then skew else SaturatingSub 0 skew in
  let fresh := (0 <=? sync_age) && (sync_age <=? max_sync_age limits) in
  if negb fresh || (max_clock_skew limits <? abs_skew) then None
  else Some (mkTimeCorrection 0 None).

Definition correct_event (c : TimeCorrection) (e : SpanEvent) : SpanEvent :=
  mkSpanEvent (ev_name e) (Corrected (ev_timestamp e) c) (ev_attributes e).
Definition ApplyTimeCorrection (span : SpanRecord) (c : TimeCorrection) : SpanRecord :=
  mkSpanRecord (sr_context span) (sr_parent_context span) (sr_name span) (sr_kind span)
    (sr_status_code span) (sr_status_description span)
    (Corrected (sr_start_time span) c) (Corrected (sr_end_time span) c)
    (sr_attributes span) (correct_event c <$> sr_events span) (sr_links span) (sr_resource span).

(** ** The boot-relative anchor *)

Record BootSample := mkBootSample { bs_boot_id : Z; bs_offset : Z; bs_at : Z }.
Record Sample := mkSample { s_offset : Z; s_at : Z }.
Definition kMaxSamples : nat := 16.
Record BootAnchor := mkBootAnchor {
  m_boot_id : option Z; m_samples : list Sample; m_count : nat }.
Definition BootAnchor_new : BootAnchor :=
  mkBootAnchor None (replicate kMaxSamples (mkSample 0 0)) 0.

(** [m_samples.at(i) = s]. *)
Definition store (i : nat) (s : Sample) (arr : list Sample) : option (list Sample) :=
  if (i <? length arr)%nat then Some (<[i := s]> arr) else None.

(** [AgeOut]: the loop over the samples in use, [n] of them left. *)
Fixpoint AgeOut_loop (cutoff : Z) (n i kept : nat) (arr : list Sample) : option (list Sample * nat) :=
  match n with
  | O => Some (arr, kept)
  | S n' =>
      s ← arr !! i;
      if cutoff <=? s_at s
      then arr' ← store kept s arr; AgeOut_loop cutoff n' (S i) (S kept) arr'
      else AgeOut_loop cutoff n' (S i) kept arr
  end.
(** The loop that drops the oldest sample, [n] iterations left. *)
Fixpoint shift_loop (n i : nat) (arr : list Sample) : option (list Sample) :=
  match n with
  | O => Some arr
  | S n' => s ← arr !! i; arr' ← store (i - 1) s arr; shift_loop n' (S i) arr'
  end.
(** [Anchor]: the two smallest offsets in one pass. *)
Fixpoint Anchor_loop (n i : nat) (arr : list Sample) (lowest second : Z) : option (Z * Z) :=
  match n with
  | O => Some (lowest, second)
  | S n' =>
      s ← arr !! i;
      let b := s_offset s in
      if b <? lowest then Anchor_loop n' (S i) arr b lowest
      else if b <? second then Anchor_loop n' (S i) arr lowest b
      else Anchor_loop n' (S i) arr lowest second
  end.
Definition Anchor (a : BootAnchor) : option Z :=
  '(lowest, second) ← Anchor_loop (m_count a) 0 (m_samples a) kMax kMax;
  Some (if (m_count a <? 2)%nat then lowest else second).

(** [BootAnchor::Update]: the anchor, and its new state. *)
Definition Update (a : BootAnchor) (sample : BootSample) (window : Z) : option (Z * BootAnchor) :=
  let same := match m_boot_id a with Some b => b =? bs_boot_id sample | None => false end in
  let count := if same then m_count a else O in
  '(arr, count) ← AgeOut_loop (SaturatingSub (bs_at sample) window) count 0 0 (m_samples a);
  '(arr, count) ← (if (count =? kMaxSamples)%nat
                   then arr' ← shift_loop (count - 1) 1 arr; Some (arr', (count - 1)%nat)
                   else Some (arr, count));
  arr ← store count (mkSample (bs_offset sample) (bs_at sample)) arr;
  let a' := mkBootAnchor (Some (bs_boot_id sample)) arr (S count) in
  anchor ← Anchor a';
  Some (anchor, a').
Definition Size (a : BootAnchor) : nat := m_count a.

(** ** Arithmetic *)

Definition clamp64 (z : Z) : Z := Z.max kMin (Z.min kMax z).

Lemma SaturatingAdd_clamp a b : is_i64 a → is_i64 b → SaturatingAdd a b = clamp64 (a + b).
Proof.
  unfold SaturatingAdd, clamp64, kMax, kMin. intros Ha Hb.
  split_if; [bool_hyps; width_lia|]. split_if; bool_hyps; [width_lia|].
  repeat match goal with E : _ && _ = false |- _ => apply andb_false_iff in E; destruct E end; bool_hyps; width_lia.
Qed.
Lemma SaturatingSub_clamp a b : is_i64 a → is_i64 b → SaturatingSub a b = clamp64 (a - b).
Proof.
  unfold SaturatingSub, clamp64, kMax, kMin. intros Ha Hb.
  split_if; [bool_hyps; width_lia|]. split_if; bool_hyps; [width_lia|].
  repeat match goal with E : _ && _ = false |- _ => apply andb_false_iff in E; destruct E end; bool_hyps; width_lia.
Qed.
Lemma clamp64_i64 z : is_i64 (clamp64 z).
Proof. unfold clamp64, kMin, kMax. width_lia. Qed.
Lemma clamp64_id z : is_i64 z → clamp64 z = z.
Proof. unfold clamp64, kMin, kMax. width_lia. Qed.
Lemma clamp64_mono a b : a <= b → clamp64 a <= clamp64 b.
Proof. unfold clamp64. lia. Qed.

(** What the code computes before it adds or subtracts fits in 64 bits too. *)
Lemma saturating_guards b : is_i64 b →
  (0 < b → is_i64 (kMax - b) ∧ is_i64 (kMin + b)) ∧ (b < 0 → is_i64 (kMin - b) ∧ is_i64 (kMax + b)).
Proof. unfold kMax, kMin. intros. split; intros; width_lia. Qed.

(** ** Corrections *)

Definition correction_ok (c : TimeCorrection) : Prop :=
  is_i64 (tc_offset c) ∧ ∀ f, tc_fixed c = Some f → 0 <= f <= kMax.

Lemma Corrected_range t c : is_i64 t → correction_ok c → 0 <= Corrected t c <= kMax.
Proof.
  unfold Corrected. intros Ht [Ho Hf]. destruct (tc_fixed c) as [f|]; [by apply Hf|].
  rewrite SaturatingAdd_clamp by done. unfold clamp64, kMin, kMax. width_lia.
Qed.
Lemma Corrected_mono t u c : is_i64 t → is_i64 u → correction_ok c → t <= u → Corrected t c <= Corrected u c.
Proof.
  unfold Corrected. intros Ht Hu [Ho _] Hle. destruct (tc_fixed c); [lia|]. rewrite !SaturatingAdd_clamp by done.
  pose proof (clamp64_mono (t + tc_offset c) (u + tc_offset c) ltac:(lia)). lia.
Qed.
Lemma Corrected_exact t c :
  is_i64 t → is_i64 (tc_offset c) → tc_fixed c = None → 0 <= t + tc_offset c <= kMax → Corrected t c = t + tc_offset c.
Proof.
  unfold Corrected. intros Ht Ho -> Hr. rewrite SaturatingAdd_clamp, clamp64_id by (done || (unfold kMax in *; width_lia)). lia.
Qed.

(** The corrections the receiver chooses between. *)
Inductive Mode :=
| ByStamp (encode_time : option Z)
| BySync (encode_time sync_age : Z) (limits : SyncLimits)
| ByAnchor (anchor : Z)
| ByUnix.
Definition correction_of (received : Z) (m : Mode) : TimeCorrection :=
  match m with
  | ByStamp e => ConcentratorStamped received e
  | BySync e age limits => default (ConcentratorStamped received (Some e)) (SyncRelative received e age limits)
  | ByAnchor b => mkTimeCorrection b None
  | ByUnix => mkTimeCorrection 0 None
  end.
Definition mode_i64 (m : Mode) : Prop :=
  match m with
  | ByStamp e => ∀ t, e = Some t → is_i64 t
  | BySync e age _ => is_i64 e ∧ is_i64 age
  | ByAnchor b => is_i64 b
  | ByUnix => True
  end.

Lemma zero_correction_ok : correction_ok (mkTimeCorrection 0 None).
Proof. split; [cbn; width_lia|done]. Qed.
Lemma stamped_ok received e : is_i64 received → (∀ t, e = Some t → is_i64 t) → correction_ok (ConcentratorStamped received e).
Proof.
  intros Hr He. unfold ConcentratorStamped. destruct e as [e|]; split; cbn.
  - rewrite SaturatingSub_clamp by auto. apply clamp64_i64.
  - done.
  - width_lia.
  - intros f [= <-]. unfold kMax. width_lia.
Qed.
Lemma correction_of_ok received m : is_i64 received → mode_i64 m → correction_ok (correction_of received m).
Proof.
  intros Hr Hm. destruct m as [e|e age limits|b|]; cbn in *; [by apply stamped_ok| | |apply zero_correction_ok].
  - unfold SyncRelative. case_match; cbn [default from_option]; [|apply zero_correction_ok].
    apply (stamped_ok received (Some e)); [done|]. by intros t [= <-]; destruct Hm.
  - by split.
Qed.

(** Leaf timestamps are untrusted, and correcting them is safe.  Whatever the
    mode, the receive time and the 64-bit values a leaf sent, every corrected
    timestamp is a Unix time OTLP can carry, a span that ended after it started
    still does, and where nothing saturates the span's duration and the distance
    of its events are unchanged. *)
Theorem time_correction_safe received mode span :
  is_i64 received → mode_i64 mode →
  is_i64 (sr_start_time span) → is_i64 (sr_end_time span) → Forall (λ e, is_i64 (ev_timestamp e)) (sr_events span) →
  sr_start_time span <= sr_end_time span →
  let c := correction_of received mode in
  let out := ApplyTimeCorrection span c in
  0 <= sr_start_time out ∧ sr_start_time out <= sr_end_time out ∧ sr_end_time out <= kMax
  ∧ Forall (λ e, 0 <= ev_timestamp e <= kMax) (sr_events out)
  ∧ (tc_fixed c = None → 0 <= sr_start_time span + tc_offset c → sr_end_time span + tc_offset c <= kMax →
     sr_end_time out - sr_start_time out = sr_end_time span - sr_start_time span
     ∧ Forall2 (λ e e', sr_start_time span <= ev_timestamp e <= sr_end_time span →
          ev_timestamp e' - sr_start_time out = ev_timestamp e - sr_start_time span) (sr_events span) (sr_events out)).
Proof.
  intros Hr Hm Hs He Hev Hle c out. pose proof (correction_of_ok received mode Hr Hm : correction_ok c) as Hc.
  pose proof (Corrected_range _ c Hs Hc). pose proof (Corrected_range _ c He Hc).
  pose proof (Corrected_mono _ _ c Hs He Hc Hle).
  split; [cbn; lia|]. split; [cbn; lia|]. split; [cbn; lia|]. split.
  - cbn. apply Forall_fmap. eapply Forall_impl; [exact Hev|]. intros e Hi. cbn. by apply Corrected_range.
  - intros Hf Hlo Hhi. destruct Hc as [Ho _]. cbn [out ApplyTimeCorrection sr_start_time sr_end_time sr_events].
    rewrite (Corrected_exact (sr_start_time span)), (Corrected_exact (sr_end_time span)) by (done || lia).
    split; [lia|]. apply Forall2_fmap_r, Forall_Forall2_diag. eapply Forall_impl; [exact Hev|].
    intros e Hi Hb. cbn. rewrite Corrected_exact by (done || lia). lia.
Qed.

Definition demo_leaf_span (s e : Z) (evs : list Z) : SpanRecord :=
  mkSpanRecord SpanContext_default SpanContext_default [] KindInternal CodeUnset [] s e []
    ((λ t, mkSpanEvent [] t []) <$> evs) [] None.
Lemma time_correction_safe_witness :
  let out := ApplyTimeCorrection (demo_leaf_span 10 70 [20]) (correction_of 1000 (ByStamp (Some 100))) in
  sr_end_time out - sr_start_time out = 60 ∧ sr_end_time out <= kMax ∧ sr_start_time out = 910.
Proof.
  destruct (time_correction_safe 1000 (ByStamp (Some 100)) (demo_leaf_span 10 70 [20]))
    as (H1 & H2 & H3 & H4 & H5).
  - width_lia.
  - intros t [= <-]. width_lia.
  - cbn. width_lia.
  - cbn. width_lia.
  - repeat constructor; cbn; width_lia.
  - cbn. lia.
  - split; [|split; [exact H3|vm_compute; reflexivity]].
    apply H5; [reflexivity|vm_compute; congruence|vm_compute; congruence].
Defined.

(** The trust test of sync-relative payloads is the mathematical one: the limits
    the receiver passes are below [kMax], so saturation never widens it. *)
Theorem sync_relative_spec received encode_time sync_age limits :
  is_i64 received → is_i64 encode_time → max_clock_skew limits < kMax →
  SyncRelative received encode_time sync_age limits
  = if bool_decide (0 <= sync_age <= max_sync_age limits ∧ Z.abs (received - encode_time) <= max_clock_skew limits)
    then Some (mkTimeCorrection 0 None) else None.
Proof.
  intros Hr He Hl. unfold SyncRelative. rewrite (SaturatingSub_clamp _ _ Hr He).
  pose proof (clamp64_i64 (received - encode_time)) as Hc.
  assert ((if 0 <=? clamp64 (received - encode_time) then clamp64 (received - encode_time)
           else SaturatingSub 0 (clamp64 (received - encode_time))) = Z.min kMax (Z.abs (received - encode_time))) as ->.
  { destruct (0 <=? _) eqn:E; bool_hyps; [unfold clamp64, kMax, kMin in *; width_lia|].
    rewrite SaturatingSub_clamp by (done || width_lia). unfold clamp64, kMax, kMin in *. width_lia. }
  destruct (decide (0 <= sync_age <= max_sync_age limits ∧ Z.abs (received - encode_time) <= max_clock_skew limits)) as [H|H].
  - rewrite bool_decide_true by done. destruct H as [H1 H2].
    rewrite (proj2 (Z.leb_le _ _)), (proj2 (Z.leb_le _ _)), (proj2 (Z.ltb_ge _ _)) by lia. done.
  - rewrite bool_decide_false by done. destruct (negb _ || _) eqn:E; [done|].
    apply orb_false_iff in E as [E1 E2]. bool_hyps. destruct H. unfold kMax in *. width_lia.
Qed.
Lemma sync_relative_spec_witness :
  SyncRelative 1000 900 5 (mkSyncLimits 10 200) = Some (mkTimeCorrection 0 None).
Proof. rewrite (sync_relative_spec 1000 900 5 (mkSyncLimits 10 200)); [reflexivity|width_lia|width_lia|cbn; unfold kMax; width_lia]. Defined.

(** ** The anchor array as a list *)

Record anchor_wf (a : BootAnchor) : Prop := {
  aw_length : length (m_samples a) = kMaxSamples;
  aw_count : (m_count a <= kMaxSamples)%nat
}.
Definition in_use (a : BootAnchor) : list Sample := take (m_count a) (m_samples a).
Definition recent (cutoff : Z) (s : Sample) : Prop := cutoff <= s_at s.
#[export] Instance recent_dec cutoff s : Decision (recent cutoff s).
Proof. unfold recent. apply _. Defined.
(** The last [k] elements. *)
Definition lastn {A} (k : nat) (l : list A) : list A := drop (length l - k) l.

Lemma store_spec i s arr : (i < length arr)%nat → store i s arr = Some (<[i := s]> arr).
Proof. intros H. unfold store. by rewrite (proj2 (Nat.ltb_lt _ _) H). Qed.

Lemma drop_insert_before {A} (arr : list A) k i s : (k < i)%nat → drop i (<[k := s]> arr) = drop i arr.
Proof. apply drop_insert_lt. Qed.
Lemma take_insert_here {A} (arr : list A) k s :
  (k < length arr)%nat → take (S k) (<[k := s]> arr) = take k arr ++ [s].
Proof.
  intros H. rewrite (take_S_r _ _ s) by (rewrite list_lookup_insert_eq; done). by rewrite take_insert_ge.
Qed.
Lemma drop_lookup {A} (arr : list A) i x : arr !! i = Some x → drop i arr = x :: drop (S i) arr.
Proof. intros H. by rewrite (drop_S _ _ _ H). Qed.

Lemma AgeOut_loop_spec cutoff n i kept arr :
  (i + n <= length arr)%nat → (kept <= i)%nat →
  ∃ arr' kept', AgeOut_loop cutoff n i kept arr = Some (arr', kept')
    ∧ length arr' = length arr ∧ (kept' <= i + n)%nat
    ∧ take kept' arr' = take kept arr ++ filter (recent cutoff) (take n (drop i arr)).
Proof.
  revert i kept arr. induction n as [|n IH]; intros i kept arr Hn Hk; cbn [AgeOut_loop].
  { exists arr, kept. rewrite take_0. cbn. rewrite app_nil_r. split_and!; [done..|lia|done]. }
  destruct (lookup_lt_is_Some_2 arr i) as [s Hs]; [lia|]. rewrite Hs. cbn [mbind option_bind].
  rewrite (drop_lookup _ _ _ Hs). cbn [take]. destruct (cutoff <=? s_at s) eqn:E; bool_hyps.
  - rewrite store_spec by lia. cbn [mbind option_bind].
    destruct (IH (S i) (S kept) (<[kept := s]> arr)) as (arr' & kept' & -> & Hl & Hle & Ht);
      [rewrite length_insert; lia|lia|].
    exists arr', kept'. rewrite length_insert in Hl. rewrite Ht, take_insert_here, drop_insert_before by lia.
    rewrite (filter_cons_True (recent cutoff)) by done. rewrite <- app_assoc. split_and!; [done..|lia|done].
  - destruct (IH (S i) kept arr) as (arr' & kept' & -> & Hl & Hle & Ht); [lia|lia|].
    exists arr', kept'. rewrite (filter_cons_False (recent cutoff)) by (unfold recent; lia). split_and!; [done..|lia|done].
Qed.

Lemma shift_loop_spec n i arr :
  (0 < i)%nat → (i + n <= length arr)%nat →
  ∃ arr', shift_loop n i arr = Some arr' ∧ length arr' = length arr
    ∧ take (i - 1 + n) arr' = take (i - 1) arr ++ take n (drop i arr).
Proof.
  revert i arr. induction n as [|n IH]; intros i arr Hi Hn; cbn [shift_loop].
  { exists arr. rewrite take_0, app_nil_r, Nat.add_0_r. done. }
  destruct (lookup_lt_is_Some_2 arr i) as [s Hs]; [lia|]. rewrite Hs. cbn [mbind option_bind].
  rewrite store_spec by lia. cbn [mbind option_bind].
  destruct (IH (S i) (<[(i - 1)%nat := s]> arr)) as (arr' & -> & Hl & Ht); [lia|rewrite length_insert; lia|].
  exists arr'. rewrite length_insert in Hl. split_and!; [done..|].
  replace (i - 1 + S n)%nat with (S i - 1 + n)%nat by lia. rewrite Ht, drop_insert_before by lia.
  replace (S i - 1)%nat with (S (i - 1)) by lia. rewrite take_insert_here by lia.
  rewrite (drop_lookup _ _ _ Hs). cbn [take]. by rewrite <- app_assoc.
Qed.

(** *** The second-smallest sample *)

Definition at_most (x : Z) (l : list Z) : nat := length (filter (λ y, y <= x) l).
Definition below (x : Z) (l : list Z) : nat := length (filter (λ y, y < x) l).
(** [B] is the only sample, or the second-smallest of several. *)
Definition is_anchor (B : Z) (l : list Z) : Prop :=
  l = [B] ∨ ((2 <= at_most B l)%nat ∧ (below B l <= 1)%nat).

Lemma Anchor_loop_spec n i arr lo se rest pre :
  (i + n <= length arr)%nat → lo <= se → Forall (λ y, se <= y) rest → pre ≡ₚ lo :: se :: rest →
  ∃ lo' se' rest', Anchor_loop n i arr lo se = Some (lo', se')
    ∧ lo' <= se' ∧ Forall (λ y, se' <= y) rest' ∧ (s_offset <$> take n (drop i arr)) ++ pre ≡ₚ lo' :: se' :: rest'.
Proof.
  revert i lo se rest pre. induction n as [|n IH]; intros i lo se rest pre Hn Hls Hr Hp; cbn [Anchor_loop].
  { exists lo, se, rest. by rewrite take_0. }
  destruct (lookup_lt_is_Some_2 arr i) as [s Hs]; [lia|]. rewrite Hs. cbn [mbind option_bind].
  rewrite (drop_lookup _ _ _ Hs). cbn [take fmap list_fmap].
  assert (∀ lo1 se1 rest1, lo1 <= se1 → Forall (λ y, se1 <= y) rest1 → s_offset s :: pre ≡ₚ lo1 :: se1 :: rest1 →
    ∃ lo' se' rest', Anchor_loop n (S i) arr lo1 se1 = Some (lo', se')
    ∧ lo' <= se' ∧ Forall (λ y, se' <= y) rest'
    ∧ (s_offset s :: (s_offset <$> take n (drop (S i) arr))) ++ pre ≡ₚ lo' :: se' :: rest') as Hgo.
  { intros lo1 se1 rest1 H1 H2 H3. destruct (IH (S i) lo1 se1 rest1 (s_offset s :: pre)) as (lo' & se' & rest' & E & H4 & H5 & H6);
      [lia|done..|]. exists lo', se', rest'. split_and!; [done..|]. rewrite <- H6. cbn [app]. by rewrite Permutation_middle. }
  destruct (s_offset s <? lo) eqn:E1; [|destruct (s_offset s <? se) eqn:E2]; bool_hyps; eapply Hgo.
  - lia.
  - constructor; [exact Hls|]. eapply Forall_impl; [exact Hr|]. cbn. lia.
  - by rewrite Hp.
  - lia.
  - constructor; [apply Z.lt_le_incl; exact E2|]. eapply Forall_impl; [exact Hr|]. cbn. lia.
  - rewrite Hp. apply perm_swap.
  - done.
  - constructor; [exact E2|exact Hr].
  - rewrite Hp. etrans; [apply perm_swap|]. constructor. apply perm_swap.
Qed.

Lemma filter_all {A} (P : A → Prop) `{∀ x, Decision (P x)} l : Forall P l → filter P l = l.
Proof. induction 1 as [|x l Hx Hl IH]; [done|]. rewrite filter_cons_True by done. by rewrite IH. Qed.
Lemma filter_none {A} (P : A → Prop) `{∀ x, Decision (P x)} l : Forall (λ x, ¬ P x) l → filter P l = [].
Proof. induction 1 as [|x l Hx Hl IH]; [done|]. by rewrite filter_cons_False. Qed.

Lemma anchor_of_two_smallest l lo se rest :
  Forall (λ y, y <= kMax) l → l ++ [kMax; kMax] ≡ₚ lo :: se :: rest → lo <= se → Forall (λ y, se <= y) rest →
  (2 <= length l)%nat → is_anchor se l.
Proof.
  intros Hl Hp Hls Hr Hlen. right. unfold at_most, below.
  assert (∀ P `{∀ x, Decision (P x)}, length (filter P (l ++ [kMax; kMax])) = length (filter P (lo :: se :: rest))) as Hf
    by (intros P ?; by rewrite Hp).
  split.
  - destruct (decide (kMax <= se)) as [Hk|Hn].
    + rewrite filter_all; [done|]. eapply Forall_impl; [exact Hl|]. cbn. lia.
    + specialize (Hf (λ y, y <= se) _). rewrite filter_app, length_app in Hf.
      rewrite (filter_none _ [kMax; kMax]) in Hf by (repeat constructor; lia).
      rewrite !filter_cons_True in Hf by lia. cbn in Hf. lia.
  - specialize (Hf (λ y, y < se) _). rewrite filter_app, length_app in Hf.
    rewrite !filter_cons, (filter_none _ rest) in Hf by (eapply Forall_impl; [exact Hr|]; cbn; lia).
    rewrite (decide_False (P := se < se)) in Hf by lia. destruct (decide (lo < se)); cbn in Hf; lia.
Qed.

Lemma Anchor_spec a :
  anchor_wf a → (0 < m_count a)%nat → Forall (λ s, s_offset s <= kMax) (in_use a) →
  ∃ B, Anchor a = Some B ∧ is_anchor B (s_offset <$> in_use a).
Proof.
  intros [Hl Hc] Hpos Hmax. unfold Anchor.
  destruct (Anchor_loop_spec (m_count a) 0 (m_samples a) kMax kMax [] [kMax; kMax])
    as (lo & se & rest & -> & H1 & H2 & H3); [lia|lia|done|done|].
  cbn [mbind option_bind]. eexists. split; [done|]. rewrite drop_0 in H3. fold (in_use a) in H3.
  assert (length (in_use a) = m_count a) as Hlen by (unfold in_use; rewrite length_take; lia).
  assert (Forall (λ y, y <= kMax) (s_offset <$> in_use a)) as Hm by (by apply Forall_fmap).
  destruct (m_count a <? 2)%nat eqn:E.
  - apply Nat.ltb_lt in E. left. destruct (in_use a) as [|s [|? ?]]; cbn in Hlen, H3; try lia. cbn.
    apply Forall_cons_1 in Hmax as [Hs _].
    assert (lo <= s_offset s ∧ lo ∈ [s_offset s; kMax; kMax]) as [Hle Hin].
    { split; [|rewrite H3; left]. assert (s_offset s ∈ lo :: se :: rest) as Hin by (rewrite <- H3; left).
      rewrite Forall_forall in H2. apply elem_of_cons in Hin as [->|[->|Hin]%elem_of_cons]; [lia..|].
      specialize (H2 _ Hin). cbn in H2. lia. }
    rewrite !elem_of_cons, elem_of_nil in Hin. f_equal. lia.
  - apply Nat.ltb_ge in E. eapply anchor_of_two_smallest; [done|exact H3|done|done|]. rewrite length_fmap. lia.
Qed.

(** *** One update *)

Lemma lastn_all {A} k (l : list A) : (length l <= k)%nat → lastn k l = l.
Proof. intros H. unfold lastn. replace (length l - k)%nat with O by lia. done. Qed.
Lemma length_lastn {A} k (l : list A) : length (lastn k l) = (length l `min` k)%nat.
Proof. unfold lastn. rewrite length_drop. lia. Qed.
Lemma lastn_app {A} k (l1 l2 : list A) : (k <= length l2)%nat → lastn k (l1 ++ l2) = lastn k l2.
Proof. intros H. unfold lastn. rewrite length_app, drop_app_ge by lia. f_equal. lia. Qed.
Lemma lastn_lastn_snoc {A} k (l : list A) x : lastn k (lastn k l ++ [x]) = lastn k (l ++ [x]).
Proof.
  destruct (decide (length l <= k)%nat) as [H|H]; [by rewrite (lastn_all k l)|].
  rewrite <- (take_drop (length l - k) l) at 2. rewrite <- app_assoc. fold (lastn k l).
  rewrite (lastn_app k (take _ _)); [done|]. rewrite length_app, length_lastn. cbn. lia.
Qed.

Lemma anchor_new_wf : anchor_wf BootAnchor_new.
Proof. by split; cbn; [|lia]. Qed.

Definition sample_of (s : BootSample) : Sample := mkSample (bs_offset s) (bs_at s).
Definition same_boot (a : BootAnchor) (s : BootSample) : bool :=
  match m_boot_id a with Some b => b =? bs_boot_id s | None => false end.

Lemma Update_spec a s window :
  anchor_wf a → Forall (λ s, s_offset s <= kMax) (in_use a) → bs_offset s <= kMax →
  ∃ B a', Update a s window = Some (B, a') ∧ anchor_wf a' ∧ m_boot_id a' = Some (bs_boot_id s)
    ∧ in_use a' = lastn kMaxSamples
        (filter (recent (SaturatingSub (bs_at s) window)) (if same_boot a s then in_use a else []) ++ [sample_of s])
    ∧ is_anchor B (s_offset <$> in_use a').
Proof.
  intros Hwf Hmax Hs. unfold Update. fold (same_boot a s). set (cutoff := SaturatingSub _ _).
  destruct Hwf as [Hl Hc].
  destruct (AgeOut_loop_spec cutoff (if same_boot a s then m_count a else O) 0 0 (m_samples a))
    as (arr & count & -> & Hla & Hlec & Ht); [destruct (same_boot a s); lia|lia|].
  cbn [mbind option_bind]. rewrite take_0, drop_0 in Ht. cbn [app] in Ht.
  assert (take (if same_boot a s then m_count a else O) (m_samples a) = if same_boot a s then in_use a else []) as Hu
    by (by destruct (same_boot a s)).
  rewrite Hu in Ht. clear Hu. set (kept := filter (recent cutoff) (if same_boot a s then in_use a else [])) in *.
  assert (count <= kMaxSamples)%nat as Hck by (destruct (same_boot a s); lia).
  assert (length kept = count) as Hlk by (rewrite <- Ht, length_take; lia).
  assert (∃ arr1 count1,
    (if (count =? kMaxSamples)%nat then arr' ← shift_loop (count - 1) 1 arr; Some (arr', (count - 1)%nat) else Some (arr, count))
      = Some (arr1, count1) ∧ length arr1 = kMaxSamples ∧ (count1 < kMaxSamples)%nat
    ∧ take count1 arr1 ++ [sample_of s] = lastn kMaxSamples (kept ++ [sample_of s])) as (arr1 & count1 & -> & Hl1 & Hc1 & H1).
  { destruct (Nat.eqb_spec count kMaxSamples) as [->|Hn].
    - destruct (shift_loop_spec (kMaxSamples - 1) 1 arr) as (arr' & -> & Hl' & Ht'); [lia|unfold kMaxSamples in *; lia|].
      exists arr', (kMaxSamples - 1)%nat. cbn [mbind option_bind]. split; [done|]. split; [lia|]. split; [unfold kMaxSamples; lia|].
      change (1 - 1 + (kMaxSamples - 1))%nat with (kMaxSamples - 1)%nat in Ht'. rewrite Ht'. cbn [take Nat.sub app].
      rewrite <- Ht. unfold lastn. rewrite length_app, length_take, Hla, Hl. cbn [length].
      change (kMaxSamples `min` kMaxSamples + 1 - kMaxSamples)%nat with 1%nat.
      rewrite drop_app_le by (rewrite length_take; unfold kMaxSamples in *; lia). f_equal.
      rewrite take_drop_commute. done.
    - exists arr, count. split; [done|]. split; [lia|]. split; [lia|]. rewrite Ht, lastn_all; [done|].
      rewrite length_app. cbn. lia. }
  cbn [mbind option_bind]. rewrite store_spec by lia. cbn [mbind option_bind].
  set (a' := mkBootAnchor (Some (bs_boot_id s)) (<[count1 := mkSample (bs_offset s) (bs_at s)]> arr1) (S count1)).
  assert (in_use a' = lastn kMaxSamples (kept ++ [sample_of s])) as Hin.
  { unfold in_use. cbn [a' m_count m_samples]. rewrite take_insert_here by lia. exact H1. }
  assert (anchor_wf a') as Hwf' by (split; cbn [a' m_samples m_count]; [rewrite length_insert|]; lia).
  destruct (Anchor_spec a') as (B & -> & HB); [done|cbn; lia| |].
  { rewrite Hin. apply Forall_drop, Forall_app. split; [|by repeat constructor].
    apply Forall_forall. intros x [_ Hx]%list_elem_of_filter. rewrite Forall_forall in Hmax.
    destruct (same_boot a s); [by apply Hmax|by apply elem_of_nil in Hx]. }
  cbn [mbind option_bind]. by exists B, a'.
Qed.

(** *** Histories *)

Fixpoint take_while {A} (p : A → bool) (l : list A) : list A :=
  match l with [] => [] | x :: l' => if p x then x :: take_while p l' else [] end.
(** The samples of the boot the leaf is in: the longest run at the end with one
    boot id. *)
Definition current_boot (history : list BootSample) : list BootSample :=
  match last history with
  | None => []
  | Some s => reverse (take_while (λ p, bs_boot_id p =? bs_boot_id s) (reverse history))
  end.
(** The samples that count: of those, the ones within the window, 16 at most. *)
Definition counting (window : Z) (history : list BootSample) : list Sample :=
  match last history with
  | None => []
  | Some s => lastn kMaxSamples
      (filter (recent (SaturatingSub (bs_at s) window)) (sample_of <$> current_boot history))
  end.

Definition run_updates (window : Z) (history : list BootSample) : option (Z * BootAnchor) :=
  foldl (λ st s, '(_, a) ← st; Update a s window) (Some (0, BootAnchor_new)) history.

Definition monotone (history : list BootSample) : Prop :=
  ∀ i j s t, history !! i = Some s → history !! j = Some t → (i <= j)%nat → bs_at s <= bs_at t.
Definition sample_i64 (s : BootSample) : Prop := is_i64 (bs_offset s) ∧ is_i64 (bs_at s).

Lemma current_boot_snoc h s :
  current_boot (h ++ [s])
  = (match last h with Some p => if bs_boot_id p =? bs_boot_id s then current_boot h else [] | None => [] end) ++ [s].
Proof.
  unfold current_boot. rewrite last_snoc, reverse_app. change (reverse [s]) with [s]. cbn [app take_while].
  rewrite Z.eqb_refl, reverse_cons. f_equal.
  destruct (last h) as [p|] eqn:E.
  - apply last_Some in E as [h' ->]. rewrite reverse_app. change (reverse [p]) with [p]. cbn [app take_while]. rewrite Z.eqb_refl.
    destruct (bs_boot_id p =? bs_boot_id s) eqn:Eb; [|done]. bool_hyps. by rewrite Eb.
  - apply last_None in E as ->. done.
Qed.

Lemma take_while_prefix {A} (p : A → bool) l : take_while p l `prefix_of` l.
Proof. induction l as [|x l IH]; cbn; [done|]. destruct (p x); [by apply prefix_cons|apply prefix_nil]. Qed.
Lemma current_boot_suffix h : ∃ pre, h = pre ++ current_boot h.
Proof.
  unfold current_boot. destruct (last h) as [s|] eqn:E; [|exists h; by rewrite app_nil_r].
  destruct (take_while_prefix (λ p, bs_boot_id p =? bs_boot_id s) (reverse h)) as [k Hk].
  exists (reverse k). rewrite <- reverse_app, <- Hk. by rewrite reverse_involutive.
Qed.

(** On samples in time order, what a cutoff keeps is a suffix. *)
Definition in_order (l : list Sample) : Prop :=
  ∀ i j s t, l !! i = Some s → l !! j = Some t → (i <= j)%nat → s_at s <= s_at t.
Lemma in_order_tail x l : in_order (x :: l) → in_order l.
Proof. intros H i j s t Hi Hj Hij. apply (H (S i) (S j)); [done|done|lia]. Qed.
Lemma filter_suffix cutoff l : in_order l →
  ∃ old, l = old ++ filter (recent cutoff) l ∧ Forall (λ s, ¬ recent cutoff s) old.
Proof.
  induction l as [|x l IH]; intros Ho; [by exists []|]. destruct (decide (recent cutoff x)) as [Hx|Hx].
  - exists []. split; [|done]. rewrite filter_all; [done|]. apply Forall_lookup. intros i s Hi.
    pose proof (Ho O i x s eq_refl Hi ltac:(lia)). unfold recent in *. lia.
  - rewrite filter_cons_False by done. destruct (IH (in_order_tail _ _ Ho)) as (old & Hl & Hf).
    exists (x :: old). split; [cbn; by rewrite <- Hl|by constructor].
Qed.
Lemma lastn_filter_snoc k cutoff l x : in_order l →
  lastn k (filter (recent cutoff) (lastn k l) ++ [x]) = lastn k (filter (recent cutoff) l ++ [x]).
Proof.
  intros Ho. destruct (filter_suffix cutoff l Ho) as (old & Hl & Hf).
  set (new := filter (recent cutoff) l) in *.
  destruct (decide (k <= length new)%nat) as [Hk|Hk].
  - rewrite Hl, (lastn_app k old new) by done. rewrite filter_all.
    + apply lastn_lastn_snoc.
    + apply Forall_drop. apply Forall_forall. by intros y [Hy _]%list_elem_of_filter.
  - f_equal. f_equal. rewrite Hl. unfold lastn. rewrite length_app, drop_app_le by lia.
    rewrite filter_app, (filter_none _ (drop _ _)) by (by apply Forall_drop). cbn [app].
    unfold new. by rewrite list_filter_filter_l.
Qed.

Lemma in_order_boot h : monotone h → in_order (sample_of <$> current_boot h).
Proof.
  intros Hm i j s t Hi Hj Hij. rewrite list_lookup_fmap in Hi, Hj.
  apply fmap_Some in Hi as (a & Ha & ->). apply fmap_Some in Hj as (b & Hb & ->). cbn.
  destruct (current_boot_suffix h) as [pre Hpre].
  apply (Hm (length pre + i)%nat (length pre + j)%nat); [| |lia]; rewrite Hpre, lookup_app_r by lia.
  - by replace (length pre + i - length pre)%nat with i by lia.
  - by replace (length pre + j - length pre)%nat with j by lia.
Qed.

Lemma cutoff_mono a b window : is_i64 a → is_i64 b → is_i64 window → a <= b →
  SaturatingSub a window <= SaturatingSub b window.
Proof. intros. rewrite !SaturatingSub_clamp by done. apply clamp64_mono. lia. Qed.

Lemma counting_snoc window h s : 0 <= window → is_i64 window → Forall sample_i64 (h ++ [s]) → monotone (h ++ [s]) →
  counting window (h ++ [s])
  = lastn kMaxSamples (filter (recent (SaturatingSub (bs_at s) window))
      (match last h with Some p => if bs_boot_id p =? bs_boot_id s then counting window h else [] | None => [] end)
      ++ [sample_of s]).
Proof.
  intros Hpos Hw Hi Hm. unfold counting at 1. rewrite last_snoc, current_boot_snoc, fmap_app, filter_app.
  apply Forall_app in Hi as [Hi Hs]. rewrite Forall_singleton in Hs. destruct Hs as [_ Hs].
  assert (filter (recent (SaturatingSub (bs_at s) window)) (sample_of <$> [s])
          = filter (recent (SaturatingSub (bs_at s) window)) [sample_of s]) as -> by done.
  assert (monotone h) as Hmh.
  { intros i j a b Ha Hb Hij. apply (Hm i j); [by apply lookup_app_l_Some..|done]. }
  rewrite (filter_cons_True _ (sample_of s)) by
    (unfold recent; cbn; rewrite SaturatingSub_clamp by done; unfold clamp64, kMin, kMax; width_lia).
  change (filter _ []) with (@nil Sample).
  destruct (last h) as [p|] eqn:El; [|done]. destruct (bs_boot_id p =? bs_boot_id s) eqn:Eb; [|done].
  unfold counting. rewrite El. apply last_Some in El as [h' ->]. apply Forall_app in Hi as [_ Hp].
  rewrite Forall_singleton in Hp. destruct Hp as [_ Hp].
  assert (bs_at p <= bs_at s) as Hps.
  { apply (Hm (length h') (length (h' ++ [p]))); [|by rewrite list_lookup_middle by done|rewrite length_app; cbn; lia].
    rewrite <- app_assoc. cbn [app]. by rewrite list_lookup_middle. }
  set (c0 := SaturatingSub (bs_at p) window). set (c1 := SaturatingSub (bs_at s) window).
  assert (c0 <= c1) by (by apply cutoff_mono).
  pose proof (in_order_boot _ Hmh) as Ho. set (l := sample_of <$> current_boot (h' ++ [p])) in *.
  destruct (filter_suffix c0 l Ho) as (old & Hl & Hf).
  assert (in_order (filter (recent c0) l)) as Ho'.
  { intros i j a b Ha Hb Hij. apply (Ho (length old + i)%nat (length old + j)%nat); [| |lia];
      rewrite Hl, lookup_app_r by lia.
    - by replace (length old + i - length old)%nat with i by lia.
    - by replace (length old + j - length old)%nat with j by lia. }
  rewrite (lastn_filter_snoc kMaxSamples c1 (filter (recent c0) l)) by done.
  rewrite list_filter_filter_l by (unfold recent; intros; lia). done.
Qed.

Lemma counting_offsets window h : Forall sample_i64 h → Forall (λ s, s_offset s <= kMax) (counting window h).
Proof.
  intros Hi. unfold counting. destruct (last h) as [s|]; [|done]. apply Forall_drop, Forall_forall.
  intros x [_ Hx]%list_elem_of_filter. apply list_elem_of_fmap in Hx as (b & -> & Hb).
  destruct (current_boot_suffix h) as [pre Hpre]. rewrite Forall_forall in Hi.
  destruct (Hi b) as [Ho _]; [rewrite Hpre; apply elem_of_app; by right|]. cbn. unfold kMax. width_lia.
Qed.

Lemma run_updates_spec window h :
  0 <= window → is_i64 window → h ≠ [] → Forall sample_i64 h → monotone h →
  ∃ B a, run_updates window h = Some (B, a) ∧ anchor_wf a ∧ m_boot_id a = bs_boot_id <$> last h
    ∧ in_use a = counting window h ∧ is_anchor B (s_offset <$> in_use a).
Proof.
  intros Hpos Hw. induction h as [|s h IH] using rev_ind; [done|]. intros _ Hi Hm.
  assert (∃ B0 a0, run_updates window h = Some (B0, a0) ∧ anchor_wf a0 ∧ m_boot_id a0 = bs_boot_id <$> last h
    ∧ in_use a0 = counting window h) as (B0 & a0 & Hr & Hwf & Hb & Hu).
  { destruct h as [|x h]; [by exists 0, BootAnchor_new; split_and!; [|apply anchor_new_wf|..]|].
    destruct IH as (B & a & ? & ? & ? & ? & ?); [done|by apply Forall_app in Hi as []| |by exists B, a].
    intros i j a b Ha Hb Hij. apply (Hm i j); [by apply lookup_app_l_Some..|done]. }
  pose proof (counting_snoc window h s Hpos Hw Hi Hm) as Hc. apply Forall_app in Hi as [Hi Hs].
  rewrite Forall_singleton in Hs. destruct Hs as [Hso Hsa].
  destruct (Update_spec a0 s window) as (B & a & HU & Hwf' & Hb' & Hu' & HB); [done|..].
  { rewrite Hu. by apply counting_offsets. }
  { unfold kMax. width_lia. }
  exists B, a. unfold run_updates in *. rewrite foldl_app, Hr. cbn [foldl mbind option_bind]. rewrite HU, last_snoc.
  split_and!; [done..| |done]. rewrite Hu', Hc, Hu. unfold same_boot. rewrite Hb. by destruct (last h).
Qed.

Lemma list_filter_iff_elem {A} (P Q : A → Prop) `{∀ x, Decision (P x)} `{∀ x, Decision (Q x)} (l : list A) :
  (∀ x, x ∈ l → P x ↔ Q x) → filter P l = filter Q l.
Proof.
  induction l as [|x l IH]; intros Hl; [done|]. rewrite !filter_cons, IH by (intros; apply Hl; by right).
  pose proof (Hl x ltac:(left)). repeat case_decide; tauto || done.
Qed.
Lemma is_anchor_elem B l : is_anchor B l → B ∈ l.
Proof.
  intros [->|[Ha Hb]]; [by left|]. unfold at_most, below in *.
  destruct (decide (B ∈ l)) as [|Hn]; [done|]. exfalso.
  rewrite (list_filter_iff_elem (λ y, y <= B) (λ y, y < B)) in Ha; [lia|].
  intros y Hy. assert (y ≠ B) by (by intros ->). lia.
Qed.
(** Some other sample is at most the anchor. *)
Lemma is_anchor_robust B l i x : is_anchor B l → l !! i = Some x → (2 <= length l)%nat →
  ∃ j y, j ≠ i ∧ l !! j = Some y ∧ y <= B.
Proof.
  intros [->|[Ha _]] Hi Hlen; [cbn in Hlen; lia|].
  assert (filter (λ y, y <= B) (take i l ++ drop (S i) l) ≠ []) as Hne.
  { rewrite <- (take_drop_middle _ _ _ Hi) in Ha. unfold at_most in Ha. rewrite filter_app, filter_cons in Ha.
    rewrite filter_app. intros E. apply app_nil in E as [E1 E2]. rewrite E1, E2 in Ha. case_decide; cbn in Ha; lia. }
  destruct (filter _ _) as [|y ys] eqn:E; [done|].
  assert (y ∈ take i l ++ drop (S i) l ∧ y <= B) as [Hin Hy].
  { assert (y ∈ filter (λ y, y <= B) (take i l ++ drop (S i) l)) as Hf by (rewrite E; left).
    apply list_elem_of_filter in Hf. tauto. }
  apply elem_of_app in Hin as [Hin|Hin]; apply list_elem_of_lookup_1 in Hin as [j Hj].
  - apply lookup_take_Some in Hj as [Hj Hlt]. exists j, y. split_and!; [lia|done|done].
  - rewrite lookup_drop in Hj. exists (S i + j)%nat, y. split_and!; [lia|done|done].
Qed.

(** The boot-relative anchor is what the design asks for.  For every history
    of samples in receive order, the fixed array of 16 with its in-place ageing and
    shifting holds exactly the samples of the leaf's current boot within the
    window, the last 16 of them, and the anchor is the only one of these or the
    second-smallest, so that a single low outlier, whichever sample it is, never
    determines it. *)
Theorem boot_anchor_exact window history :
  0 <= window → is_i64 window → history ≠ [] → Forall sample_i64 history → monotone history →
  ∃ B a, run_updates window history = Some (B, a)
    ∧ in_use a = counting window history ∧ (Size a <= kMaxSamples)%nat
    ∧ is_anchor B (s_offset <$> counting window history)
    ∧ B ∈ s_offset <$> counting window history
    ∧ ∀ i x, (s_offset <$> counting window history) !! i = Some x → (2 <= Size a)%nat →
        ∃ j y, j ≠ i ∧ (s_offset <$> counting window history) !! j = Some y ∧ y <= B.
Proof.
  intros Hpos Hw Hne Hi Hm. destruct (run_updates_spec window history Hpos Hw Hne Hi Hm) as (B & a & Hr & [Hl Hc] & _ & Hu & HB).
  exists B, a. rewrite <- Hu. assert (length (s_offset <$> in_use a) = Size a) as Hsz.
  { unfold in_use. rewrite length_fmap, length_take. unfold Size. lia. }
  split_and!; [done..| |].
  - by apply is_anchor_elem.
  - intros i x Hx H2. apply (is_anchor_robust B _ i x); [done|done|lia].
Qed.

Definition demo_samples : list BootSample :=
  [mkBootSample 1 500 0; mkBootSample 2 900 10; mkBootSample 2 (-70) 20; mkBootSample 2 880 30; mkBootSample 2 890 35].
Lemma boot_anchor_exact_witness :
  ∃ B a, run_updates 100 demo_samples = Some (B, a) ∧ in_use a = counting 100 demo_samples ∧ B = 880.
Proof.
  destruct (boot_anchor_exact 100 demo_samples) as (B & a & H1 & H2 & _).
  - lia.
  - width_lia.
  - done.
  - repeat constructor; cbn; width_lia.
  - intros [|[|[|[|[|i]]]]] [|[|[|[|[|j]]]]] s t Hs Ht Hij; cbn in Hs, Ht; simplify_eq; cbn; lia.
  - exists B, a. split; [exact H1|]. split; [exact H2|].
    assert (fst <$> run_updates 100 demo_samples = Some 880) as E by (vm_compute; reflexivity).
    rewrite H1 in E. by injection E.
Defined.
