(* ===== verification/IndexedList.v ===== *)
(** * A list with an index of iterators

    [LeafTable] and [UnknownLeafCache] of [src/sdk/leaf_table.hpp] keep a
    [std::list] in an order of their own and a [std::unordered_map] from an
    element's id to its list iterator.  A node is an address with its element; an
    iterator is the address, and using one that is not in the list is undefined
    ([None]).

    The lemmas: as long as the index and the list are in step ([il_inv]) every
    operation is defined and acts on the plain list of elements, [view], as the
    same operation by id. *)
From stdpp Require Import gmap.
From S2P Require Import Prelude.

Section indexed_list.
Context {E : Type} (key : E → str).

Record IndexedList := mkIndexedList {
  il_nodes : list (nat * E);
  il_index : gmap str nat;
  il_next : nat
}.
Definition il_empty : IndexedList := mkIndexedList [] ∅ 0.
Definition view (l : IndexedList) : list E := snd <$> il_nodes l.

(** [*it]. *)
Definition il_deref (it : nat) (l : IndexedList) : option E :=
  snd <$> find (λ p, (fst p =? it)%nat) (il_nodes l).
Definition drop_node (it : nat) (nodes : list (nat * E)) : list (nat * E) :=
  List.filter (λ p, negb (fst p =? it)%nat) nodes.
(** [list.splice(list.begin(), list, it)]. *)
Definition il_splice (it : nat) (l : IndexedList) : option IndexedList :=
  e ← il_deref it l; Some (mkIndexedList ((it, e) :: drop_node it (il_nodes l)) (il_index l) (il_next l)).
(** A mutation of [*it]. *)
Definition il_update (it : nat) (f : E → E) (l : IndexedList) : IndexedList :=
  mkIndexedList ((λ p, if (fst p =? it)%nat then (fst p, f (snd p)) else p) <$> il_nodes l) (il_index l) (il_next l).
(** [index.erase(it->id); list.erase(it)]. *)
Definition il_erase (it : nat) (l : IndexedList) : option IndexedList :=
  e ← il_deref it l; Some (mkIndexedList (drop_node it (il_nodes l)) (delete (key e) (il_index l)) (il_next l)).
(** [list.push_front(e); index.emplace(e.id, list.begin())]; [emplace] keeps an
    entry that is already there. *)
Definition emplace (k : str) (it : nat) (m : gmap str nat) : gmap str nat :=
  match m !! k with Some _ => m | None => <[k := it]> m end.
Definition il_push_front (e : E) (l : IndexedList) : nat * IndexedList :=
  (il_next l, mkIndexedList ((il_next l, e) :: il_nodes l) (emplace (key e) (il_next l) (il_index l)) (S (il_next l))).
(** The same at the back. *)
Definition il_push_back (e : E) (l : IndexedList) : nat * IndexedList :=
  (il_next l, mkIndexedList (il_nodes l ++ [(il_next l, e)]) (emplace (key e) (il_next l) (il_index l)) (S (il_next l))).
(** [list.front()] and [list.back()] as iterators. *)
Definition il_front (l : IndexedList) : option nat := fst <$> head (il_nodes l).
Definition il_back (l : IndexedList) : option nat := fst <$> last (il_nodes l).

(** ** In step *)

Record il_inv (l : IndexedList) : Prop := {
  ii_fresh : ∀ n e, (n, e) ∈ il_nodes l → (n < il_next l)%nat;
  ii_nodes : NoDup (fst <$> il_nodes l);
  ii_keys : NoDup (key <$> view l);
  ii_index : ∀ k n, il_index l !! k = Some n ↔ ∃ e, (n, e) ∈ il_nodes l ∧ key e = k
}.

Lemma il_empty_inv : il_inv il_empty.
Proof.
  split; cbn.
  - intros n e Hin. by apply elem_of_nil in Hin.
  - constructor.
  - constructor.
  - intros k n. rewrite lookup_empty. split; [done|]. intros (e & Hin & _). by apply elem_of_nil in Hin.
Qed.

Lemma node_unique (nodes : list (nat * E)) n e e' : NoDup (fst <$> nodes) → (n, e) ∈ nodes → (n, e') ∈ nodes → e = e'.
Proof.
  intros Hn H1 H2. apply list_elem_of_lookup_1 in H1 as [i Hi]. apply list_elem_of_lookup_1 in H2 as [j Hj].
  assert (i = j) as ->; [|congruence].
  eapply NoDup_lookup; [exact Hn|..]; rewrite list_lookup_fmap; [by rewrite Hi|by rewrite Hj].
Qed.
Lemma key_unique l n n' e e' : il_inv l → (n, e) ∈ il_nodes l → (n', e') ∈ il_nodes l → key e = key e' → n = n' ∧ e = e'.
Proof.
  intros I H1 H2 Hk. apply list_elem_of_lookup_1 in H1 as [i Hi]. apply list_elem_of_lookup_1 in H2 as [j Hj].
  assert (i = j) as ->; [|split; congruence].
  eapply NoDup_lookup; [apply (ii_keys _ I)|..]; unfold view; rewrite !list_lookup_fmap; [by rewrite Hi|rewrite Hj; cbn; by rewrite Hk].
Qed.

Lemma il_deref_elem l n e : il_inv l → il_deref n l = Some e ↔ (n, e) ∈ il_nodes l.
Proof.
  intros I. unfold il_deref. split.
  - intros ([m e'] & Hf & [= ->])%fmap_Some. apply find_some in Hf as [Hin Hm].
    apply Nat.eqb_eq in Hm. cbn in Hm. subst. by apply list_elem_of_In.
  - intros Hin. destruct (find _ (il_nodes l)) as [[m e']|] eqn:F.
    + apply find_some in F as [Hin' Hm]. apply Nat.eqb_eq in Hm. cbn in *. subst. f_equal.
      eapply node_unique; [apply (ii_nodes _ I)|by apply list_elem_of_In|done].
    + apply list_elem_of_In in Hin. pose proof (find_none _ _ F _ Hin) as Hm. cbn in Hm. by rewrite Nat.eqb_refl in Hm.
Qed.

(** An id found in the index is the iterator of the element with that id. *)
Lemma il_index_find l k : il_inv l →
  match il_index l !! k with
  | Some n => ∃ e, il_deref n l = Some e ∧ find_key key k (view l) = Some e
  | None => find_key key k (view l) = None
  end.
Proof.
  intros I. destruct (il_index l !! k) as [n|] eqn:Ei.
  - apply (ii_index _ I) in Ei as (e & Hin & Hk). exists e. split; [by apply il_deref_elem|].
    destruct (find_key key k (view l)) as [e'|] eqn:F.
    + apply find_key_Some in F as [Hin' Hk']. apply list_elem_of_fmap in Hin' as ([n' e''] & -> & Hin'). cbn in *.
      f_equal. symmetry. eapply (key_unique l); [done|exact Hin|exact Hin'|congruence].
    + apply find_key_None in F. destruct F. subst k. apply list_elem_of_fmap_2. by apply (list_elem_of_fmap_2 snd _ (n, e)).
  - apply find_key_None. intros (e & -> & Hin)%list_elem_of_fmap. apply list_elem_of_fmap in Hin as ([n e'] & -> & Hin).
    cbn in *. assert (il_index l !! key e' = Some n) as F by (apply (ii_index _ I); eauto). congruence.
Qed.

Lemma drop_node_elem it nodes n e : (n, e) ∈ drop_node it nodes ↔ (n, e) ∈ nodes ∧ n ≠ it.
Proof.
  unfold drop_node. rewrite !list_elem_of_In, filter_In. cbn. rewrite negb_true_iff, Nat.eqb_neq. done.
Qed.
Lemma drop_node_view l it e : il_inv l → (it, e) ∈ il_nodes l →
  snd <$> drop_node it (il_nodes l) = without_key key (key e) (view l).
Proof.
  intros I Hin. pose proof (key_unique l it) as Hu.
  assert (∀ n e', (n, e') ∈ il_nodes l → negb (n =? it)%nat = negb (key e' =s key e)) as Hiff.
  { intros n e' Hin'. f_equal. apply eq_true_iff_eq. rewrite Nat.eqb_eq, seqb_true. split.
    - intros ->. f_equal. eapply node_unique; [apply (ii_nodes _ I)|exact Hin'|exact Hin].
    - intros Hk. by destruct (key_unique l n it e' e I Hin' Hin Hk). }
  unfold drop_node, without_key, view. clear Hu I Hin. induction (il_nodes l) as [|[n e'] nodes IH]; [done|].
  cbn. rewrite (Hiff n e') by left. rewrite <- IH by (intros; apply Hiff; by right). by destruct (negb (key e' =s key e)).
Qed.
Lemma drop_node_NoDup it nodes : NoDup (fst <$> nodes) → NoDup (fst <$> drop_node it nodes).
Proof.
  unfold drop_node. induction nodes as [|[n e] nodes IH]; [done|]. cbn. intros [Hn Hd]%NoDup_cons.
  destruct (negb (n =? it)%nat); [|by apply IH]. cbn. apply NoDup_cons. split; [|by apply IH].
  intros ([m e'] & -> & Hin)%list_elem_of_fmap. apply drop_node_elem in Hin as [Hin _].
  apply Hn. by apply (list_elem_of_fmap_2 fst _ (m, e')).
Qed.

Lemma il_splice_spec l it e : il_inv l → il_deref it l = Some e →
  ∃ l', il_splice it l = Some l' ∧ il_inv l' ∧ view l' = e :: without_key key (key e) (view l)
    ∧ il_deref it l' = Some e.
Proof.
  intros I He. unfold il_splice. rewrite He. cbn [mbind option_bind]. eexists. split; [done|].
  pose proof (proj1 (il_deref_elem _ _ _ I) He) as Hin.
  assert (∀ n e', (n, e') ∈ (it, e) :: drop_node it (il_nodes l) ↔ (n, e') ∈ il_nodes l) as Helem.
  { intros n e'. rewrite elem_of_cons, drop_node_elem. split; [intros [[= -> ->]|[? _]]; done|].
    intros H. destruct (decide (n = it)) as [->|]; [left|by right]. f_equal. eapply node_unique; [apply (ii_nodes _ I)|done|done]. }
  split; [|split].
  - split; cbn [il_nodes il_index il_next].
    + intros n e' H%Helem. by eapply (ii_fresh _ I).
    + cbn. apply NoDup_cons. split; [|apply drop_node_NoDup, (ii_nodes _ I)].
      intros ([m e'] & Hm & H)%list_elem_of_fmap. cbn in Hm. subst. by apply drop_node_elem in H as [_ ?].
    + unfold view. cbn. rewrite (drop_node_view l it e I Hin). apply NoDup_cons.
      split; [apply without_key_notin|apply without_key_NoDup, (ii_keys _ I)].
    + intros k n. rewrite (ii_index _ I). by setoid_rewrite Helem.
  - unfold view. cbn. by rewrite (drop_node_view l it e I Hin).
  - unfold il_deref. cbn. by rewrite Nat.eqb_refl.
Qed.

Lemma il_update_spec l it e f : il_inv l → il_deref it l = Some e → key (f e) = key e →
  let l' := il_update it f l in
  il_inv l' ∧ view l' = (λ x, if key x =s key e then f x else x) <$> view l ∧ il_deref it l' = Some (f e).
Proof.
  intros I He Hf l'. pose proof (proj1 (il_deref_elem _ _ _ I) He) as Hin.
  assert (∀ n e', (n, e') ∈ il_nodes l → (n =? it)%nat = (key e' =s key e)) as Hiff.
  { intros n e' Hin'. apply eq_true_iff_eq. rewrite Nat.eqb_eq, seqb_true. split.
    - intros ->. f_equal. eapply node_unique; [apply (ii_nodes _ I)|exact Hin'|exact Hin].
    - intros Hk. by destruct (key_unique l n it e' e I Hin' Hin Hk). }
  assert (∀ n e', (n, e') ∈ il_nodes l' ↔ ∃ e0, (n, e0) ∈ il_nodes l ∧ e' = (if key e0 =s key e then f e0 else e0)) as Helem.
  { intros n e'. cbn [l' il_update il_nodes]. rewrite list_elem_of_fmap. split.
    - intros ([m e0] & Hp & Hin'). exists e0. cbn in Hp. rewrite (Hiff m e0 Hin') in Hp. destruct (key e0 =s key e); by simplify_eq.
    - intros (e0 & Hin' & ->). exists (n, e0). cbn. rewrite (Hiff n e0 Hin'). by destruct (key e0 =s key e). }
  assert (∀ n e0, (n, e0) ∈ il_nodes l → key (if key e0 =s key e then f e0 else e0) = key e0) as Hkey.
  { intros n e0 Hin0. destruct (key e0 =s key e) eqn:Ek; [|done]. apply seqb_true in Ek.
    by destruct (key_unique l n it e0 e I Hin0 Hin Ek) as [_ ->]. }
  assert (view l' = (λ x, if key x =s key e then f x else x) <$> view l) as Hview.
  { unfold view. cbn [l' il_update il_nodes]. clear Helem Hkey Hin. induction (il_nodes l) as [|[n e0] nodes IH]; [done|].
    cbn. rewrite (Hiff n e0) by left. rewrite <- IH by (intros; apply Hiff; by right). by destruct (key e0 =s key e). }
  assert (il_inv l') as I'.
  { split.
    - intros n e' (e0 & H & _)%Helem. by eapply (ii_fresh _ I).
    - cbn [l' il_update il_nodes]. rewrite <- list_fmap_compose. erewrite list_fmap_ext; [apply (ii_nodes _ I)|].
      intros i [n e0] _. cbn. by destruct (n =? it)%nat.
    - rewrite Hview, <- list_fmap_compose. erewrite list_fmap_ext; [apply (ii_keys _ I)|].
      intros i x Hx. cbn. apply list_elem_of_lookup_2, list_elem_of_fmap in Hx as ([n e0] & -> & Hin0). by apply (Hkey n e0).
    - intros k n. cbn [l' il_update il_index]. rewrite (ii_index _ I). split.
      + intros (e0 & H0 & <-). eexists. split; [apply Helem; eauto|]. by apply (Hkey n e0).
      + intros (e' & (e0 & H0 & ->)%Helem & <-). exists e0. split; [done|]. symmetry. by apply (Hkey n e0). }
  split; [done|]. split; [done|]. apply (il_deref_elem _ _ _ I'), Helem. exists e. split; [done|].
  by rewrite seqb_refl.
Qed.

Lemma il_erase_spec l it e : il_inv l → il_deref it l = Some e →
  ∃ l', il_erase it l = Some l' ∧ il_inv l' ∧ view l' = without_key key (key e) (view l).
Proof.
  intros I He. unfold il_erase. rewrite He. cbn [mbind option_bind]. eexists. split; [done|].
  pose proof (proj1 (il_deref_elem _ _ _ I) He) as Hin.
  assert (view (mkIndexedList (drop_node it (il_nodes l)) (delete (key e) (il_index l)) (il_next l))
          = without_key key (key e) (view l)) as Hv by (unfold view; cbn; by apply drop_node_view).
  split; [|done]. split.
  - cbn. intros n e' [H _]%drop_node_elem. by eapply (ii_fresh _ I).
  - cbn. apply drop_node_NoDup, (ii_nodes _ I).
  - rewrite Hv. apply without_key_NoDup, (ii_keys _ I).
  - cbn. intros k n. rewrite lookup_delete_Some, (ii_index _ I). setoid_rewrite drop_node_elem. split.
    + intros (Hk & e' & H & <-). exists e'. split; [split; [done|]|done]. intros ->. apply Hk. f_equal.
      eapply node_unique; [apply (ii_nodes _ I)|done|done].
    + intros (e' & [H Hne] & <-). split; [|by exists e']. intros Hk. apply Hne.
      by destruct (key_unique l n it e' e I H Hin (eq_sym Hk)).
Qed.

Lemma il_push_inv l e nodes : il_inv l → key e ∉ key <$> view l → nodes ≡ₚ (il_next l, e) :: il_nodes l →
  il_inv (mkIndexedList nodes (emplace (key e) (il_next l) (il_index l)) (S (il_next l))).
Proof.
  intros I Hk Hp. assert (il_index l !! key e = None) as Hn.
  { destruct (il_index l !! key e) as [n|] eqn:Ei; [|done]. apply (ii_index _ I) in Ei as (e' & Hin & Hke). destruct Hk.
    rewrite <- Hke. apply list_elem_of_fmap_2. by apply (list_elem_of_fmap_2 snd _ (n, e')). }
  split; cbn.
  - intros n e'. rewrite Hp, elem_of_cons. intros [[= -> ->]|H]; [lia|]. apply (ii_fresh _ I) in H. lia.
  - rewrite Hp. cbn. apply NoDup_cons. split; [|apply (ii_nodes _ I)].
    intros ([n e'] & Heq & H)%list_elem_of_fmap. apply (ii_fresh _ I) in H. cbn in Heq. lia.
  - unfold view. cbn. rewrite Hp. cbn. apply NoDup_cons. split; [done|apply (ii_keys _ I)].
  - intros k n. unfold emplace. rewrite Hn. setoid_rewrite Hp. setoid_rewrite elem_of_cons.
    rewrite lookup_insert_Some, (ii_index _ I). split.
    + intros [[<- <-]|[Hne (e' & H & <-)]]; [by exists e; split; [left|]|]. exists e'. by split; [right|].
    + intros (e' & [[= -> ->]|H] & <-); [by left|]. right. split; [|by exists e'].
      intros Hke. apply Hk. rewrite Hke. apply list_elem_of_fmap_2. by apply (list_elem_of_fmap_2 snd _ (n, e')).
Qed.
Lemma il_push_front_spec l e : il_inv l → key e ∉ key <$> view l →
  let '(it, l') := il_push_front e l in il_inv l' ∧ view l' = e :: view l ∧ il_deref it l' = Some e.
Proof.
  intros I Hk. unfold il_push_front. split; [by apply il_push_inv|]. split; [done|].
  unfold il_deref. cbn. by rewrite Nat.eqb_refl.
Qed.
Lemma il_push_back_spec l e : il_inv l → key e ∉ key <$> view l →
  let '(it, l') := il_push_back e l in il_inv l' ∧ view l' = view l ++ [e].
Proof.
  intros I Hk. unfold il_push_back. split; [apply il_push_inv; [done..|]|].
  - by rewrite Permutation_app_comm.
  - unfold view. cbn. by rewrite fmap_app.
Qed.

Lemma il_back_spec l : il_inv l →
  match il_back l with
  | Some it => ∃ e rest, il_deref it l = Some e ∧ view l = rest ++ [e] ∧ without_key key (key e) (view l) = rest
  | None => view l = []
  end.
Proof.
  intros I. unfold il_back. destruct (last (il_nodes l)) as [[it e]|] eqn:El; cbn.
  - apply last_Some in El as [nodes Hn]. exists e, (snd <$> nodes).
    split; [apply il_deref_elem; [done|]; rewrite Hn; apply elem_of_app; right; by left|].
    pose proof (ii_keys _ I) as Hk. unfold view in *. rewrite Hn, !fmap_app in *. cbn in *. split; [done|].
    apply NoDup_app in Hk as (_ & Hk & _). unfold without_key. rewrite List.filter_app. cbn. rewrite seqb_refl. cbn.
    rewrite app_nil_r. apply without_key_id. intros H. by apply (Hk _ H), list_elem_of_singleton.
  - apply last_None in El. unfold view. by rewrite El.
Qed.
Lemma il_front_spec l : il_inv l →
  match il_front l with
  | Some it => ∃ e rest, il_deref it l = Some e ∧ view l = e :: rest ∧ without_key key (key e) (view l) = rest
  | None => view l = []
  end.
Proof.
  intros I. unfold il_front. destruct (il_nodes l) as [|[it e] nodes] eqn:El; cbn.
  - unfold view. by rewrite El.
  - exists e, (snd <$> nodes). pose proof (ii_keys _ I) as Hk. unfold view in *. rewrite El in *. cbn in *.
    split; [apply il_deref_elem; [done|]; rewrite El; by left|]. split; [done|].
    rewrite seqb_refl. cbn. apply NoDup_cons in Hk as [Hk _]. by apply without_key_id.
Qed.

(** Ids and elements are as many. *)
Lemma il_index_size l : il_inv l → Z.of_nat (base.size (il_index l)) = size (view l).
Proof.
  intros I. unfold size, view. rewrite length_fmap. f_equal.
  assert (il_index l = list_to_map ((λ p, (key (snd p), fst p)) <$> il_nodes l)) as ->.
  { apply map_eq. intros k. apply option_eq. intros n. rewrite (ii_index _ I).
    rewrite <- elem_of_list_to_map.
    - rewrite list_elem_of_fmap. split.
      + intros (e & Hin & <-). by exists (n, e).
      + intros ([m e] & [= -> ->] & Hin). by exists e.
    - rewrite <- list_fmap_compose. pose proof (ii_keys _ I) as Hk. unfold view in Hk. by rewrite <- list_fmap_compose in Hk. }
  rewrite map_size_list_to_map, length_fmap; [done|].
  rewrite <- list_fmap_compose. pose proof (ii_keys _ I) as Hk. unfold view in Hk. by rewrite <- list_fmap_compose in Hk.
Qed.
End indexed_list.
Arguments IndexedList E : clear implicits.
Arguments mkIndexedList {E}.
Arguments il_empty {E}.
