(* ===== verification/LeafTable.v ===== *)
(** * The leaf table

    Model of [src/sdk/leaf_table.cpp] and [leaf_table.hpp]: the concentrator's
    bounded cache of per-leaf state in order of last sighting ([LeafTable]) and the
    cache of negative answers in order of age ([UnknownLeafCache]).  Every method
    holds the object's mutex throughout, so a concurrent history is a sequence of
    calls.  Times are steady-clock nanoseconds; [alloc] says whether allocating a
    new entry succeeds, [Threw] is [std::bad_alloc] reaching the caller, and the
    outer [None] would be undefined behaviour or a throw out of [noexcept].

    The theorems: both structures refine plain lists, whatever is called and
    whenever memory runs out, with no undefined behaviour; the lists are bounded,
    free of duplicates, in order, and evict exactly what their documentation
    says. *)
From stdpp Require Import gmap sorting.
From S2P Require Import Prelude Context Data LeafTime IndexedList.

Inductive Result (A : Type) := Returned (a : A) | Threw.
Arguments Returned {A}.
Arguments Threw {A}.

Record LeafSettings := mkLeafSettings {
  configured : bool; ls_time_mode : option LeafTimeMode; ls_resource : list KeyValue }.

Record Entry := mkEntry {
  e_id : str;
  e_settings : option LeafSettings;
  e_declared_hash : Z;
  e_resource : option ResourcePtr;
  e_anchor : BootAnchor;
  e_last_seen : Z
}.
Definition Entry_new (id : str) (now : Z) : Entry := mkEntry id None 0 None BootAnchor_new now.
Definition set_seen (now : Z) (e : Entry) : Entry :=
  mkEntry (e_id e) (e_settings e) (e_declared_hash e) (e_resource e) (e_anchor e) now.
Definition set_settings (s : option LeafSettings) (e : Entry) : Entry :=
  mkEntry (e_id e) s (e_declared_hash e) (e_resource e) (e_anchor e) (e_last_seen e).
Definition set_resource (hash : Z) (r : option ResourcePtr) (e : Entry) : Entry :=
  mkEntry (e_id e) (e_settings e) hash r (e_anchor e) (e_last_seen e).
Definition set_anchor (a : BootAnchor) (e : Entry) : Entry :=
  mkEntry (e_id e) (e_settings e) (e_declared_hash e) (e_resource e) a (e_last_seen e).

Record LeafTable := mkLeafTable {
  m_max_leaves : Z;
  m_idle_timeout : Z;
  m_recency : IndexedList Entry;
  m_evicted : Z
}.
Definition LeafTable_new (max_leaves idle_timeout : Z) : LeafTable :=
  mkLeafTable (Z.max max_leaves 1) idle_timeout il_empty 0.
Definition with_recency (l : IndexedList Entry) (t : LeafTable) : LeafTable :=
  mkLeafTable (m_max_leaves t) (m_idle_timeout t) l (m_evicted t).

(** [Touch]: the iterator of the entry, marked seen, if there is one. *)
Definition Touch (t : LeafTable) (id : str) (now : Z) : option (LeafTable * option nat) :=
  match il_index (m_recency t) !! id with
  | None => Some (t, None)
  | Some it => l ← il_splice it (m_recency t); Some (with_recency (il_update it (set_seen now) l) t, Some it)
  end.
(** [EvictOldest]. *)
Definition EvictOldest (t : LeafTable) : option LeafTable :=
  it ← il_back (m_recency t);
  l ← il_erase e_id it (m_recency t);
  Some (mkLeafTable (m_max_leaves t) (m_idle_timeout t) l (to_uint 64 (m_evicted t + 1))).
(** [EvictIdle]: the loop, with fuel for every entry and the last test. *)
Fixpoint EvictIdle_loop (fuel : nat) (t : LeafTable) (now : Z) : option LeafTable :=
  match fuel with
  | O => None
  | S fuel' =>
      match il_back (m_recency t) with
      | None => Some t
      | Some it =>
          e ← il_deref it (m_recency t);
          if m_idle_timeout t <? now - e_last_seen e
          then t' ← EvictOldest t; EvictIdle_loop fuel' t' now
          else Some t
      end
  end.
Definition EvictIdle (t : LeafTable) (now : Z) : option LeafTable :=
  if m_idle_timeout t <=? 0 then Some t
  else EvictIdle_loop (S (length (il_nodes (m_recency t)))) t now.
(** [TouchOrInsert]. *)
Definition TouchOrInsert (t : LeafTable) (id : str) (now : Z) (alloc : bool) : option (LeafTable * Result nat) :=
  '(t, found) ← Touch t id now;
  match found with
  | Some it => Some (t, Returned it)
  | None =>
      t ← EvictIdle t now;
      t ← (if m_max_leaves t <=? Z.of_nat (base.size (il_index (m_recency t))) then EvictOldest t else Some t);
      if alloc
      then let '(it, l) := il_push_front e_id (Entry_new id now) (m_recency t) in
           Some (with_recency l t, Returned it)
      else Some (t, Threw)
  end.

(** [Settings]. *)
Definition Settings (t : LeafTable) (id : str) (now : Z) : option (LeafTable * option LeafSettings) :=
  '(t, found) ← Touch t id now;
  match found with
  | None => Some (t, None)
  | Some it => e ← il_deref it (m_recency t); Some (t, e_settings e)
  end.
(** [AdoptSettings]. *)
Definition AdoptSettings (t : LeafTable) (id : str) (settings : LeafSettings) (now : Z) (alloc : bool)
    : option (LeafTable * Result (option LeafSettings)) :=
  '(t, r) ← TouchOrInsert t id now alloc;
  match r with
  | Threw => Some (t, Threw)
  | Returned it =>
      e ← il_deref it (m_recency t);
      match e_settings e with
      | Some s => Some (t, Returned (Some s))
      | None => Some (with_recency (il_update it (set_settings (Some settings)) (m_recency t)) t, Returned (Some settings))
      end
  end.
(** [Find]. *)
Definition Find (t : LeafTable) (id : str) (declared_hash now : Z) : option (LeafTable * option ResourcePtr) :=
  '(t, found) ← Touch t id now;
  match found with
  | None => Some (t, None)
  | Some it => e ← il_deref it (m_recency t);
               Some (t, if e_declared_hash e =? declared_hash then e_resource e else None)
  end.
(** [Insert]; the resource is never null. *)
Definition Insert (t : LeafTable) (id : str) (declared_hash : Z) (resource : ResourcePtr) (now : Z) (alloc : bool)
    : option (LeafTable * Result (option ResourcePtr)) :=
  '(t, r) ← TouchOrInsert t id now alloc;
  match r with
  | Threw => Some (t, Threw)
  | Returned it =>
      e ← il_deref it (m_recency t);
      match e_resource e, e_declared_hash e =? declared_hash with
      | Some r, true => Some (t, Returned (Some r))
      | _, _ => Some (with_recency (il_update it (set_resource declared_hash (Some resource)) (m_recency t)) t,
                      Returned (Some resource))
      end
  end.
(** [UpdateBootAnchor]. *)
Definition UpdateBootAnchor (t : LeafTable) (id : str) (sample : BootSample) (window now : Z) (alloc : bool)
    : option (LeafTable * Result Z) :=
  '(t, r) ← TouchOrInsert t id now alloc;
  match r with
  | Threw => Some (t, Threw)
  | Returned it =>
      e ← il_deref it (m_recency t);
      '(anchor, a) ← Update (e_anchor e) sample window;
      Some (with_recency (il_update it (set_anchor a) (m_recency t)) t, Returned anchor)
  end.
Definition Size (t : LeafTable) : Z := Z.of_nat (base.size (il_index (m_recency t))).
Definition Evicted (t : LeafTable) : Z := m_evicted t.

(** ** [UnknownLeafCache] *)

Record Answer := mkAnswer { a_id : str; a_at : Z }.
Record UnknownLeafCache := mkUnknownLeafCache {
  m_capacity : Z; m_ttl : Z; m_age : IndexedList Answer }.
Definition UnknownLeafCache_new (capacity ttl : Z) : UnknownLeafCache :=
  mkUnknownLeafCache (Z.max capacity 1) ttl il_empty.
Definition with_age (l : IndexedList Answer) (c : UnknownLeafCache) : UnknownLeafCache :=
  mkUnknownLeafCache (m_capacity c) (m_ttl c) l.

(** [Contains]. *)
Definition Contains (c : UnknownLeafCache) (id : str) (now : Z) : option (UnknownLeafCache * bool) :=
  match il_index (m_age c) !! id with
  | None => Some (c, false)
  | Some it =>
      a ← il_deref it (m_age c);
      if m_ttl c <? now - a_at a then l ← il_erase a_id it (m_age c); Some (with_age l c, false)
      else Some (c, true)
  end.
(** [Erase(m_age.begin())]. *)
Definition erase_front (c : UnknownLeafCache) : option UnknownLeafCache :=
  it ← il_front (m_age c); l ← il_erase a_id it (m_age c); Some (with_age l c).
(** [Insert]: the expiry loop, then room, then the answer. *)
Fixpoint expire_loop (fuel : nat) (c : UnknownLeafCache) (now : Z) : option UnknownLeafCache :=
  match fuel with
  | O => None
  | S fuel' =>
      match il_front (m_age c) with
      | None => Some c
      | Some it =>
          a ← il_deref it (m_age c);
          if m_ttl c <? now - a_at a then c' ← erase_front c; expire_loop fuel' c' now else Some c
      end
  end.
Definition Unknown_Insert (c : UnknownLeafCache) (id : str) (now : Z) (alloc : bool)
    : option (UnknownLeafCache * Result unit) :=
  match il_index (m_age c) !! id with
  | Some _ => Some (c, Returned tt)
  | None =>
      c ← expire_loop (S (length (il_nodes (m_age c)))) c now;
      c ← (if m_capacity c <=? Z.of_nat (base.size (il_index (m_age c))) then erase_front c else Some c);
      if alloc then Some (with_age (snd (il_push_back a_id (mkAnswer id now) (m_age c))) c, Returned tt)
      else Some (c, Threw)
  end.
Definition Unknown_Size (c : UnknownLeafCache) : Z := Z.of_nat (base.size (il_index (m_age c))).

(** ** The table as a list

    The contract: entries by id, most recently seen first. *)
Record Lru := mkLru { l_max : Z; l_timeout : Z; l_entries : list Entry; l_evicted : Z }.
Definition Lru_new (max_leaves idle_timeout : Z) : Lru := mkLru (Z.max max_leaves 1) idle_timeout [] 0.
Definition with_entries (l : list Entry) (s : Lru) : Lru := mkLru (l_max s) (l_timeout s) l (l_evicted s).

Definition is_idle (timeout now : Z) (e : Entry) : bool := timeout <? now - e_last_seen e.
Fixpoint drop_idle (p : Entry → bool) (l : list Entry) : list Entry :=
  match l with [] => [] | e :: l' => if p e then drop_idle p l' else l end.
(** The idle entries at the back go, and then the last one if the table is full. *)
Definition after_idle (s : Lru) (now : Z) : list Entry :=
  if l_timeout s <=? 0 then l_entries s else reverse (drop_idle (is_idle (l_timeout s) now) (reverse (l_entries s))).
Definition make_room (max : Z) (l : list Entry) : list Entry :=
  if max <=? size l then take (length l - 1) l else l.

(** The entry of [id], in front and marked seen, created if absent; [false] when
    memory ran out. *)
Definition lru_touch (s : Lru) (id : str) (now : Z) : Lru * option Entry :=
  match find_key e_id id (l_entries s) with
  | Some e => (with_entries (set_seen now e :: without_key e_id id (l_entries s)) s, Some (set_seen now e))
  | None => (s, None)
  end.
Definition lru_entry (s : Lru) (id : str) (now : Z) (alloc : bool) : Lru * option Entry :=
  match find_key e_id id (l_entries s) with
  | Some e => lru_touch s id now
  | None =>
      let l := make_room (l_max s) (after_idle s now) in
      let evicted := to_uint 64 (l_evicted s + (size (l_entries s) - size l)) in
      if alloc then (mkLru (l_max s) (l_timeout s) (Entry_new id now :: l) evicted, Some (Entry_new id now))
      else (mkLru (l_max s) (l_timeout s) l evicted, None)
  end.
Definition set_front (e : Entry) (s : Lru) : Lru := with_entries (e :: tail (l_entries s)) s.

Inductive TableOp :=
| OpSettings (id : str) (now : Z)
| OpAdopt (id : str) (settings : LeafSettings) (now : Z) (alloc : bool)
| OpFind (id : str) (hash now : Z)
| OpInsert (id : str) (hash : Z) (resource : ResourcePtr) (now : Z) (alloc : bool)
| OpAnchor (id : str) (sample : BootSample) (window now : Z) (alloc : bool).
Inductive TableResult :=
| GotSettings (s : option LeafSettings) | GotResource (r : option ResourcePtr) | GotAnchor (b : Z) | GotThrow.

Definition as_result {A} (f : A → TableResult) (r : Result A) : TableResult :=
  match r with Returned a => f a | Threw => GotThrow end.
Definition exec (t : LeafTable) (o : TableOp) : option (LeafTable * TableResult) :=
  match o with
  | OpSettings id now => '(t, r) ← Settings t id now; Some (t, GotSettings r)
  | OpAdopt id s now alloc => '(t, r) ← AdoptSettings t id s now alloc; Some (t, as_result GotSettings r)
  | OpFind id h now => '(t, r) ← Find t id h now; Some (t, GotResource r)
  | OpInsert id h p now alloc => '(t, r) ← Insert t id h p now alloc; Some (t, as_result GotResource r)
  | OpAnchor id s w now alloc => '(t, r) ← UpdateBootAnchor t id s w now alloc; Some (t, as_result GotAnchor r)
  end.
Definition lru_exec (s : Lru) (o : TableOp) : Lru * TableResult :=
  match o with
  | OpSettings id now => let '(s, e) := lru_touch s id now in (s, GotSettings (e ≫= e_settings))
  | OpAdopt id v now alloc =>
      match lru_entry s id now alloc with
      | (s, None) => (s, GotThrow)
      | (s, Some e) => match e_settings e with
                       | Some v => (s, GotSettings (Some v))
                       | None => (set_front (set_settings (Some v) e) s, GotSettings (Some v))
                       end
      end
  | OpFind id h now =>
      let '(s, e) := lru_touch s id now in
      (s, GotResource (e ≫= λ e, if e_declared_hash e =? h then e_resource e else None))
  | OpInsert id h p now alloc =>
      match lru_entry s id now alloc with
      | (s, None) => (s, GotThrow)
      | (s, Some e) => match e_resource e, e_declared_hash e =? h with
                       | Some r, true => (s, GotResource (Some r))
                       | _, _ => (set_front (set_resource h (Some p) e) s, GotResource (Some p))
                       end
      end
  | OpAnchor id v w now alloc =>
      match lru_entry s id now alloc with
      | (s, None) => (s, GotThrow)
      | (s, Some e) => match Update (e_anchor e) v w with
                       | Some (b, a) => (set_front (set_anchor a e) s, GotAnchor b)
                       | None => (s, GotThrow)
                       end
      end
  end.
Definition run_table (t : LeafTable) (os : list TableOp) : option (LeafTable * list TableResult) :=
  foldl (λ st o, '(t, rs) ← st; '(t, r) ← exec t o; Some (t, rs ++ [r])) (Some (t, [])) os.
Definition run_lru (s : Lru) (os : list TableOp) : Lru * list TableResult :=
  foldl (λ st o, let '(s, r) := lru_exec (fst st) o in (s, snd st ++ [r])) (s, []) os.

(** ** Simulation *)

Definition entry_ok (e : Entry) : Prop :=
  anchor_wf (e_anchor e) ∧ Forall (λ s, s_offset s <= kMax) (in_use (e_anchor e)).
Definition op_ok (o : TableOp) : Prop :=
  match o with OpAnchor _ s _ _ _ => bs_offset s <= kMax | _ => True end.

Record sim (t : LeafTable) (s : Lru) : Prop := {
  sim_inv : il_inv e_id (m_recency t);
  sim_view : view (m_recency t) = l_entries s;
  sim_max : m_max_leaves t = l_max s;
  sim_timeout : m_idle_timeout t = l_timeout s;
  sim_evicted : m_evicted t = l_evicted s;
  sim_u64 : is_u64 (l_evicted s);
  sim_room : 1 <= l_max s;
  sim_ok : Forall entry_ok (l_entries s)
}.

Lemma sim_size t s : sim t s → Z.of_nat (base.size (il_index (m_recency t))) = size (l_entries s).
Proof. intros S. rewrite (il_index_size e_id) by apply S. by rewrite (sim_view _ _ S). Qed.

(** Mutating the front entry. *)
Lemma sim_update t s it e f :
  sim t s → il_deref it (m_recency t) = Some e → head (l_entries s) = Some e →
  e_id (f e) = e_id e → entry_ok (f e) →
  sim (with_recency (il_update it f (m_recency t)) t) (set_front (f e) s)
  ∧ il_deref it (il_update it f (m_recency t)) = Some (f e).
Proof.
  intros S He Hh Hk Hok. destruct S as [I V M T Ev U R O]. destruct (l_entries s) as [|e' rest] eqn:El; [done|].
  cbn in Hh. simplify_eq. destruct (il_update_spec e_id (m_recency t) it e f I He Hk) as (I' & V' & D').
  split; [|done]. pose proof (ii_keys _ _ I) as Hd. rewrite V in Hd. apply NoDup_cons in Hd as [Hd _].
  assert (view (il_update it f (m_recency t)) = f e :: rest) as V2.
  { rewrite V', V. cbn. rewrite seqb_refl. f_equal. rewrite <- (list_fmap_id rest) at 2. apply list_fmap_ext.
    intros i x Hx. cbn. rewrite (proj2 (seqb_false _ _)); [done|]. intros Ex. apply Hd. rewrite <- Ex.
    apply list_elem_of_fmap_2. by eapply list_elem_of_lookup_2. }
  split; cbn; rewrite ?El; try done. apply Forall_cons_1 in O as [_ O]. by constructor.
Qed.

Lemma Touch_sim t s id now : sim t s →
  ∃ t' r, Touch t id now = Some (t', r) ∧ sim t' (fst (lru_touch s id now))
    ∧ match snd (lru_touch s id now), r with
      | Some e, Some it => il_deref it (m_recency t') = Some e ∧ head (l_entries (fst (lru_touch s id now))) = Some e
      | None, None => True
      | _, _ => False
      end.
Proof.
  intros S. unfold Touch, lru_touch. pose proof (il_index_find e_id (m_recency t) id (sim_inv _ _ S)) as Hf.
  rewrite (sim_view _ _ S) in Hf. destruct (il_index (m_recency t) !! id) as [it|]; [|rewrite Hf; by exists t, None].
  destruct Hf as (e & He & Hfk). rewrite Hfk. apply find_key_Some in Hfk as [Hin <-].
  destruct (il_splice_spec e_id (m_recency t) it e (sim_inv _ _ S) He) as (l' & -> & I' & V' & D').
  cbn [mbind option_bind fst snd]. pose proof S as [I V M T Ev U R O]. rewrite V in V'. rewrite Forall_forall in O.
  assert (sim (with_recency l' t) (with_entries (e :: without_key e_id (e_id e) (l_entries s)) s)) as S1.
  { split; try done. cbn. constructor; [by apply O|]. apply Forall_forall. intros x [Hx _]%without_key_elem. by apply O. }
  destruct (sim_update _ _ it e (set_seen now) S1) as [S2 D2]; [done..|by apply (O e)|].
  eexists _, _. split; [done|]. split; [exact S2|]. by split.
Qed.

Lemma EvictOldest_sim t s : sim t s → l_entries s ≠ [] →
  ∃ t', EvictOldest t = Some t'
    ∧ sim t' (mkLru (l_max s) (l_timeout s) (take (length (l_entries s) - 1) (l_entries s)) (to_uint 64 (l_evicted s + 1))).
Proof.
  intros S Hne. pose proof (il_back_spec e_id (m_recency t) (sim_inv _ _ S)) as Hb. unfold EvictOldest.
  destruct (il_back (m_recency t)) as [it|]; [|by rewrite (sim_view _ _ S) in Hb].
  destruct Hb as (e & rest & He & Hv & Hw). cbn [mbind option_bind].
  destruct (il_erase_spec e_id (m_recency t) it e (sim_inv _ _ S) He) as (l' & -> & I' & V'). cbn [mbind option_bind].
  eexists. split; [done|]. destruct S as [I V M T Ev U R O]. rewrite <- V, Hv. rewrite length_app. cbn [length].
  replace (length rest + 1 - 1)%nat with (length rest) by lia. rewrite take_app_length.
  split; cbn; [done|congruence|done|done|by rewrite Ev|apply to_uint_u64|done|]. rewrite <- V, Hv in O. by apply Forall_app in O as [].
Qed.

Lemma drop_idle_suffix p l : ∃ k, (k <= length l)%nat ∧ drop_idle p l = drop k l.
Proof.
  induction l as [|e l (k & Hk & IH)]; cbn; [by exists O|]. destruct (p e); [exists (S k); cbn; split; [lia|done]|exists O; split; [lia|done]].
Qed.

Lemma sim_same t s l : sim t s → l = l_entries s →
  sim t (mkLru (l_max s) (l_timeout s) l (to_uint 64 (l_evicted s + (size l - size l)))).
Proof.
  intros [I V M T Ev U R O] ->. rewrite Z.sub_diag, Z.add_0_r, to_uint64_id by exact U. by split.
Qed.

Lemma EvictIdle_loop_sim fuel t s now : sim t s → (length (l_entries s) < fuel)%nat →
  let l := reverse (drop_idle (is_idle (l_timeout s) now) (reverse (l_entries s))) in
  ∃ t', EvictIdle_loop fuel t now = Some t'
    ∧ sim t' (mkLru (l_max s) (l_timeout s) l (to_uint 64 (l_evicted s + (size (l_entries s) - size l)))).
Proof.
  revert t s. induction fuel as [|fuel IH]; intros t s S Hf; [lia|]. cbn [EvictIdle_loop].
  pose proof (il_back_spec e_id (m_recency t) (sim_inv _ _ S)) as Hb. pose proof (sim_view _ _ S) as V.
  destruct (il_back (m_recency t)) as [it|].
  - destruct Hb as (e & rest & He & Hv & _). rewrite He. cbn [mbind option_bind]. rewrite V in Hv.
    rewrite Hv, reverse_app. change (reverse [e]) with [e]. cbn [app drop_idle].
    rewrite (sim_timeout _ _ S). fold (is_idle (l_timeout s) now e). destruct (is_idle (l_timeout s) now e) eqn:Ei.
    + destruct (EvictOldest_sim t s S) as (t1 & -> & S1); [rewrite Hv; by destruct rest|].
      cbn [mbind option_bind]. rewrite Hv, length_app in S1, Hf. cbn [length] in S1, Hf.
      replace (length rest + 1 - 1)%nat with (length rest) in S1 by lia. rewrite take_app_length in S1.
      destruct (IH t1 _ S1) as (t' & -> & S'); [cbn; lia|]. exists t'. split; [done|].
      cbn [l_entries l_max l_timeout l_evicted] in S'. rewrite to_uint_add_l in S'.
      replace (l_evicted s + 1 + (size rest - size (reverse (drop_idle (is_idle (l_timeout s) now) (reverse rest)))))
        with (l_evicted s + (size (rest ++ [e]) - size (reverse (drop_idle (is_idle (l_timeout s) now) (reverse rest))))) in S'
        by (rewrite size_app; change (size [e]) with 1; lia).
      exact S'.
    + exists t. split; [done|]. rewrite reverse_cons, reverse_involutive. by apply sim_same.
  - exists t. split; [done|]. rewrite V in Hb. rewrite Hb. apply (sim_same t s []); [done|by rewrite Hb].
Qed.

Lemma EvictIdle_sim t s now : sim t s →
  ∃ t', EvictIdle t now = Some t'
    ∧ sim t' (mkLru (l_max s) (l_timeout s) (after_idle s now)
                (to_uint 64 (l_evicted s + (size (l_entries s) - size (after_idle s now))))).
Proof.
  intros S. unfold EvictIdle, after_idle. rewrite (sim_timeout _ _ S). destruct (l_timeout s <=? 0).
  - exists t. split; [done|]. by apply sim_same.
  - apply EvictIdle_loop_sim; [done|]. pose proof (sim_view _ _ S) as V. unfold view in V. rewrite <- V, length_fmap. lia.
Qed.

Lemma after_idle_prefix s now : after_idle s now `prefix_of` l_entries s.
Proof.
  unfold after_idle. destruct (_ <=? _); [done|].
  destruct (drop_idle_suffix (is_idle (l_timeout s) now) (reverse (l_entries s))) as (k & _ & ->).
  exists (reverse (take k (reverse (l_entries s)))). by rewrite <- reverse_app, take_drop, reverse_involutive.
Qed.
Lemma make_room_prefix max l : make_room max l `prefix_of` l.
Proof. unfold make_room. destruct (_ <=? _); [apply prefix_take|done]. Qed.

Lemma make_room_sim t s : sim t s →
  ∃ t', (if m_max_leaves t <=? Z.of_nat (base.size (il_index (m_recency t))) then EvictOldest t else Some t) = Some t'
    ∧ sim t' (mkLru (l_max s) (l_timeout s) (make_room (l_max s) (l_entries s))
                (to_uint 64 (l_evicted s + (size (l_entries s) - size (make_room (l_max s) (l_entries s)))))).
Proof.
  intros S. rewrite (sim_size _ _ S), (sim_max _ _ S). unfold make_room. pose proof (sim_room _ _ S).
  destruct (l_max s <=? size (l_entries s)) eqn:E; bool_hyps.
  - destruct (EvictOldest_sim t s S) as (t' & -> & S'); [intros Hn; rewrite Hn in *; change (size []) with 0 in *; lia|].
    exists t'. split; [done|]. replace (size (l_entries s) - size (take (length (l_entries s) - 1) (l_entries s))) with 1; [done|].
    unfold size in *. rewrite length_take. lia.
  - exists t. split; [done|]. by apply sim_same.
Qed.

Lemma TouchOrInsert_sim t s id now alloc : sim t s →
  ∃ t' r, TouchOrInsert t id now alloc = Some (t', r) ∧ sim t' (fst (lru_entry s id now alloc))
    ∧ match snd (lru_entry s id now alloc), r with
      | Some e, Returned it => il_deref it (m_recency t') = Some e ∧ head (l_entries (fst (lru_entry s id now alloc))) = Some e
      | None, Threw => True
      | _, _ => False
      end.
Proof.
  intros S. unfold TouchOrInsert, lru_entry. destruct (Touch_sim t s id now S) as (t1 & r1 & -> & S1 & H1).
  cbn [mbind option_bind]. destruct (find_key e_id id (l_entries s)) as [e|] eqn:Hf.
  { unfold lru_touch in *. rewrite Hf in *. cbn [fst snd] in *. destruct r1 as [it|]; [|done]. by exists t1, (Returned it). }
  unfold lru_touch in S1, H1. rewrite Hf in S1, H1. cbn [fst snd] in S1, H1. destruct r1; [done|]. clear H1.
  destruct (EvictIdle_sim t1 s now S1) as (t2 & -> & S2). cbn [mbind option_bind].
  destruct (make_room_sim t2 _ S2) as (t3 & -> & S3). cbn [mbind option_bind l_max l_timeout l_entries l_evicted] in *.
  rewrite to_uint_add_l in S3. set (l := make_room (l_max s) (after_idle s now)) in *.
  replace (l_evicted s + (size (l_entries s) - size (after_idle s now)) + (size (after_idle s now) - size l))
    with (l_evicted s + (size (l_entries s) - size l)) in S3 by lia.
  destruct alloc; [|by exists t3, Threw].
  assert (e_id (Entry_new id now) ∉ e_id <$> view (m_recency t3)) as Hn.
  { rewrite (sim_view _ _ S3). cbn [l_entries e_id Entry_new]. apply find_key_None in Hf. intros Hin. apply Hf.
    destruct (make_room_prefix (l_max s) (after_idle s now)) as [k Hk]. destruct (after_idle_prefix s now) as [k' Hk'].
    rewrite Hk', Hk, !fmap_app, !elem_of_app. by left; left. }
  pose proof (il_push_front_spec e_id (m_recency t3) (Entry_new id now) (sim_inv _ _ S3) Hn) as Hp.
  destruct (il_push_front e_id (Entry_new id now) (m_recency t3)) as [it l'] eqn:Ep. destruct Hp as (I' & V' & D').
  exists (with_recency l' t3), (Returned it). split; [done|]. split; [|done].
  destruct S3 as [I V M T Ev U R O]. split; cbn in *; try done; [by rewrite V', V|].
  constructor; [|done]. split; [apply anchor_new_wf|constructor].
Qed.

Lemma lru_entry_ok t s id now alloc e : sim t (fst (lru_entry s id now alloc)) → snd (lru_entry s id now alloc) = Some e →
  head (l_entries (fst (lru_entry s id now alloc))) = Some e → entry_ok e.
Proof.
  intros S He Hh. pose proof (sim_ok _ _ S) as O. destruct (l_entries _) as [|x l]; [done|].
  cbn in Hh. simplify_eq. by apply Forall_cons_1 in O as [].
Qed.

Lemma exec_sim t s o : sim t s → op_ok o →
  ∃ t', exec t o = Some (t', snd (lru_exec s o)) ∧ sim t' (fst (lru_exec s o)).
Proof.
  intros S Ho. destruct o as [id now|id v now alloc|id h now|id h p now alloc|id v w now alloc]; cbn [exec lru_exec].
  - unfold Settings. destruct (Touch_sim t s id now S) as (t1 & r & -> & S1 & H1). cbn [mbind option_bind].
    destruct (lru_touch s id now) as [s1 e1]. cbn [fst snd] in *. destruct e1, r; try done.
    + destruct H1 as [-> _]. cbn. by exists t1.
    + cbn. by exists t1.
  - unfold AdoptSettings. destruct (TouchOrInsert_sim t s id now alloc S) as (t1 & r & -> & S1 & H1). cbn [mbind option_bind].
    pose proof (lru_entry_ok t1 s id now alloc) as Hok.
    destruct (lru_entry s id now alloc) as [s1 [e|]]; cbn [fst snd] in *; destruct r as [it|]; try done; [|by exists t1].
    destruct H1 as [D Hh]. rewrite D. cbn [mbind option_bind]. destruct (e_settings e) as [v'|]; [by exists t1|].
    destruct (sim_update t1 s1 it e (set_settings (Some v)) S1 D Hh) as [S2 _]; [done|by apply (Hok e)|]. cbn. by eexists.
  - unfold Find. destruct (Touch_sim t s id now S) as (t1 & r & -> & S1 & H1). cbn [mbind option_bind].
    destruct (lru_touch s id now) as [s1 e1]. cbn [fst snd] in *. destruct e1, r; try done.
    + destruct H1 as [-> _]. cbn. by exists t1.
    + cbn. by exists t1.
  - unfold Insert. destruct (TouchOrInsert_sim t s id now alloc S) as (t1 & r & -> & S1 & H1). cbn [mbind option_bind].
    pose proof (lru_entry_ok t1 s id now alloc) as Hok.
    destruct (lru_entry s id now alloc) as [s1 [e|]]; cbn [fst snd] in *; destruct r as [it|]; try done; [|by exists t1].
    destruct H1 as [D Hh]. rewrite D. cbn [mbind option_bind].
    destruct (sim_update t1 s1 it e (set_resource h (Some p)) S1 D Hh) as [S2 _]; [done|by apply (Hok e)|].
    destruct (e_resource e) as [r|], (e_declared_hash e =? h); cbn; by eexists.
  - unfold UpdateBootAnchor. destruct (TouchOrInsert_sim t s id now alloc S) as (t1 & r & -> & S1 & H1). cbn [mbind option_bind].
    pose proof (lru_entry_ok t1 s id now alloc) as Hok.
    destruct (lru_entry s id now alloc) as [s1 [e|]]; cbn [fst snd] in *; destruct r as [it|]; try done; [|by exists t1].
    destruct H1 as [D Hh]. rewrite D. cbn [mbind option_bind]. destruct (Hok e S1 eq_refl Hh) as [Hwf Hmax].
    destruct (Update_spec (e_anchor e) v w Hwf Hmax Ho) as (B & a & -> & Hwf' & _ & Hu & _). cbn [mbind option_bind].
    destruct (sim_update t1 s1 it e (set_anchor a) S1 D Hh) as [S2 _]; [done| |cbn; by eexists].
    split; [done|]. cbn. rewrite Hu. apply Forall_drop, Forall_app. split; [|by repeat constructor].
    apply Forall_forall. intros x [_ Hx]%list_elem_of_filter. rewrite Forall_forall in Hmax.
    destruct (same_boot _ _); [by apply Hmax|by apply elem_of_nil in Hx].
Qed.

Lemma sim_new max timeout : sim (LeafTable_new max timeout) (Lru_new max timeout).
Proof.
  split; cbn; [apply il_empty_inv|done|done|done|done|width_lia|lia|done].
Qed.

Lemma run_sim max timeout os : Forall op_ok os →
  ∃ t, run_table (LeafTable_new max timeout) os = Some (t, snd (run_lru (Lru_new max timeout) os))
    ∧ sim t (fst (run_lru (Lru_new max timeout) os)).
Proof.
  induction os as [|o os IH] using rev_ind; intros Ho.
  { eexists. split; [done|]. apply sim_new. }
  apply Forall_app in Ho as [Ho Hl]. rewrite Forall_singleton in Hl. destruct (IH Ho) as (t & Hr & S).
  unfold run_table, run_lru in *. rewrite !foldl_app, Hr. cbn [foldl mbind option_bind].
  destruct (exec_sim t _ o S Hl) as (t' & -> & S'). cbn [mbind option_bind].
  destruct (foldl _ (Lru_new max timeout, []) os) as [s rs]. cbn [fst snd] in *.
  destruct (lru_exec s o) as [s' r]. by exists t'.
Qed.

(** C28: the leaf table is the list its documentation describes.  Over every
    sequence of lookups, inserts and anchor updates, with allocation failing at any
    of them, the list and its index of iterators stay in step: no iterator
    dangles, the eviction loops end, every call returns what the plain
    most-recently-seen-first list would, and [Size] and [Evicted] are its counts. *)
Theorem leaf_table_refines max_leaves idle_timeout os :
  Forall op_ok os →
  let spec := run_lru (Lru_new max_leaves idle_timeout) os in
  ∃ t, run_table (LeafTable_new max_leaves idle_timeout) os = Some (t, snd spec)
    ∧ view (m_recency t) = l_entries (fst spec)
    ∧ il_inv e_id (m_recency t)
    ∧ Size t = size (l_entries (fst spec)) ∧ Evicted t = l_evicted (fst spec).
Proof.
  intros Ho spec. destruct (run_sim max_leaves idle_timeout os Ho) as (t & Hr & S). exists t.
  split; [exact Hr|]. split; [apply S|]. split; [apply S|]. split; [by apply sim_size|apply S].
Qed.

Definition demo_settings : LeafSettings := mkLeafSettings true None [].
Definition demo_table_ops : list TableOp :=
  [OpAdopt $"a" demo_settings 0 true; OpAdopt $"b" demo_settings 1 true; OpInsert $"a" 7 1%nat 2 true;
   OpAdopt $"c" demo_settings 3 true; OpSettings $"b" 4; OpFind $"a" 7 5; OpAdopt $"d" demo_settings 6 false;
   OpAnchor $"c" (mkBootSample 1 5 6) 10 7 true].
Lemma leaf_table_refines_witness :
  ∃ t, run_table (LeafTable_new 2 100) demo_table_ops = Some (t, snd (run_lru (Lru_new 2 100) demo_table_ops))
    ∧ Size t = 2 ∧ Evicted t = 2.
Proof.
  destruct (leaf_table_refines 2 100 demo_table_ops) as (t & H1 & _ & _ & H2 & H3).
  - repeat constructor. cbn. unfold kMax. width_lia.
  - exists t. split; [exact H1|]. rewrite H2, H3. split; vm_compute; reflexivity.
Defined.

(** ** What is evicted *)

Definition op_id (o : TableOp) : str :=
  match o with OpSettings id _ | OpAdopt id _ _ _ | OpFind id _ _ | OpInsert id _ _ _ _ | OpAnchor id _ _ _ _ => id end.
Definition op_now (o : TableOp) : Z :=
  match o with
  | OpSettings _ now | OpAdopt _ _ now _ | OpFind _ _ now | OpInsert _ _ _ now _ | OpAnchor _ _ _ now _ => now
  end.
Definition op_inserts (o : TableOp) : bool :=
  match o with OpSettings _ _ | OpFind _ _ _ => false | _ => true end.
Definition known (o : TableOp) (l : list Entry) : Prop := op_id o ∈ e_id <$> l.

Lemma lru_touch_shape s id now :
  (id ∉ e_id <$> l_entries s ∧ lru_touch s id now = (s, None))
  ∨ (id ∈ e_id <$> l_entries s ∧ ∃ e, e_id e = id ∧ e_last_seen e = now
     ∧ lru_touch s id now = (with_entries (e :: without_key e_id id (l_entries s)) s, Some e)).
Proof.
  unfold lru_touch. destruct (find_key e_id id (l_entries s)) as [e|] eqn:Hf.
  - apply find_key_Some in Hf as [Hin <-]. right. split; [by apply list_elem_of_fmap_2|].
    exists (set_seen now e). done.
  - apply find_key_None in Hf. by left.
Qed.
Lemma lru_entry_shape s id now alloc :
  (id ∈ e_id <$> l_entries s ∧ ∃ e, e_id e = id ∧ e_last_seen e = now
     ∧ lru_entry s id now alloc = (with_entries (e :: without_key e_id id (l_entries s)) s, Some e))
  ∨ (id ∉ e_id <$> l_entries s ∧ ∃ evicted,
     lru_entry s id now alloc
     = let l := make_room (l_max s) (after_idle s now) in
       if alloc then (mkLru (l_max s) (l_timeout s) (Entry_new id now :: l) evicted, Some (Entry_new id now))
       else (mkLru (l_max s) (l_timeout s) l evicted, None)).
Proof.
  unfold lru_entry. destruct (lru_touch_shape s id now) as [[Hn Ht]|[Hin (e & He & Hs & Ht)]].
  - right. split; [done|]. rewrite (proj2 (find_key_None _ _ _) Hn). cbn zeta. by eexists.
  - left. split; [done|]. exists e. split_and!; [done..|]. destruct (find_key e_id id (l_entries s)) eqn:Hf; [done|].
    by apply find_key_None in Hf.
Qed.

(** What one call does to the entries: nothing; or its leaf moves to the front; or
    the idle ones and, if still full, the last one go and the leaf is inserted
    unless memory ran out. *)
Lemma lru_exec_shape s o :
  let s' := fst (lru_exec s o) in
  l_max s' = l_max s ∧ l_timeout s' = l_timeout s
  ∧ ((¬ known o (l_entries s) ∧ op_inserts o = false ∧ l_entries s' = l_entries s)
     ∨ (known o (l_entries s) ∧ ∃ e, e_id e = op_id o ∧ e_last_seen e = op_now o
        ∧ l_entries s' = e :: without_key e_id (op_id o) (l_entries s))
     ∨ (¬ known o (l_entries s) ∧ op_inserts o = true
        ∧ ∃ new, l_entries s' = new ++ make_room (l_max s) (after_idle s (op_now o))
          ∧ (new = [] ∨ ∃ e, new = [e] ∧ e_id e = op_id o ∧ e_last_seen e = op_now o))).
Proof.
  unfold known. destruct o as [id now|id v now alloc|id h now|id h p now alloc|id v w now alloc]; cbn [lru_exec op_id op_now op_inserts].
  1, 3: destruct (lru_touch_shape s id now) as [[Hn ->]|[Hin (e & He & Hs & ->)]]; cbn;
    [split_and!; [done..|]; left; done|split_and!; [done..|]; right; left; split; [done|]; by exists e].
  all: destruct (lru_entry_shape s id now alloc) as [[Hin (e & He & Hs & ->)]|[Hn (ev & ->)]]; cbn zeta;
    [|destruct alloc].
  all: repeat match goal with
    | |- context [match ?x with _ => _ end] => destruct x as [] eqn:?
    end; cbn; split_and!; try done.
  all: try (right; left; split; [done|]; eexists; split_and!; [..|reflexivity]; done).
  all: right; right; split; [done|]; split; [done|].
  all: first [exists []; split; [done|by left] | eexists [_]; split; [reflexivity|]; right; eexists; split; [reflexivity|]; done].
Qed.

(** Most recently seen first. *)
Abbreviation seen_order := (StronglySorted (λ a b, e_last_seen b <= e_last_seen a)).
Record lru_ok (s : Lru) : Prop := {
  lo_bound : size (l_entries s) <= l_max s;
  lo_ids : NoDup (e_id <$> l_entries s);
  lo_order : seen_order (l_entries s)
}.

Lemma sublist_elem {A} (l k : list A) x : l `sublist_of` k → x ∈ l → x ∈ k.
Proof. induction 1; set_solver. Qed.
Lemma sublist_Forall {A} (P : A → Prop) (l k : list A) : l `sublist_of` k → Forall P k → Forall P l.
Proof. intros Hs Hk. rewrite Forall_forall in *. intros x Hx. apply Hk. by eapply sublist_elem. Qed.
Lemma sorted_sublist {A} (R : A → A → Prop) (l k : list A) : l `sublist_of` k → StronglySorted R k → StronglySorted R l.
Proof.
  induction 1 as [|x l k Hs IH|x l k Hs IH]; intros Hk; [done|..].
  - apply StronglySorted_inv in Hk as [Hk Hf]. constructor; [by apply IH|].
    rewrite Forall_forall in *. intros y Hy. apply Hf. by eapply sublist_elem.
  - apply StronglySorted_inv in Hk as [Hk _]. by apply IH.
Qed.
Lemma prefix_sublist {A} (l k : list A) : l `prefix_of` k → l `sublist_of` k.
Proof. intros [r ->]. apply sublist_inserts_r. done. Qed.
Lemma without_key_sublist {A} (key : A → str) k l : without_key key k l `sublist_of` l.
Proof. unfold without_key. induction l as [|x l IH]; cbn; [done|]. destruct (negb _); by constructor. Qed.

Lemma room_prefix s now : make_room (l_max s) (after_idle s now) `prefix_of` l_entries s.
Proof. etrans; [apply make_room_prefix|apply after_idle_prefix]. Qed.
Lemma make_room_size max l : 1 <= max → size l <= max → size (make_room max l) + 1 <= max.
Proof.
  intros Hm Hl. unfold make_room. destruct (max <=? size l) eqn:E; bool_hyps; [|lia].
  unfold size in *. rewrite length_take. lia.
Qed.
Lemma prefix_size {A} (l k : list A) : l `prefix_of` k → size l <= size k.
Proof. intros [r ->]. rewrite size_app. pose proof (size_nonneg r). lia. Qed.

(** Every entry the idle rule leaves was seen within the timeout; every entry it
    removes was not. *)
Lemma after_idle_spec s now : seen_order (l_entries s) → 0 < l_timeout s →
  ∃ gone, l_entries s = after_idle s now ++ gone
    ∧ Forall (λ e, is_idle (l_timeout s) now e = false) (after_idle s now)
    ∧ Forall (λ e, is_idle (l_timeout s) now e = true) gone.
Proof.
  unfold after_idle. intros Ho Ht. rewrite (proj2 (Z.leb_gt _ _)) by done.
  assert (∀ l, seen_order (reverse l) →
    ∃ gone, l = gone ++ drop_idle (is_idle (l_timeout s) now) l
      ∧ Forall (λ e, is_idle (l_timeout s) now e = false) (drop_idle (is_idle (l_timeout s) now) l)
      ∧ Forall (λ e, is_idle (l_timeout s) now e = true) gone) as H.
  { intros l. induction l as [|e l IH]; intros Hr; [by exists []|]. rewrite reverse_cons in Hr. cbn [drop_idle].
    destruct (is_idle _ now e) eqn:Ei.
    - destruct IH as (gone & Hl & H1 & H2); [eapply sorted_sublist; [|exact Hr]; by apply sublist_inserts_r|].
      exists (e :: gone). split; [cbn; by rewrite <- Hl|]. split; [done|by constructor].
    - exists []. split; [done|]. split; [|done]. constructor; [done|]. apply Forall_forall. intros x Hx.
      assert (e_last_seen e <= e_last_seen x) as Hle.
      { apply (StronglySorted_app_1_elem_of _ _ _ _ _ Hr); [by apply elem_of_reverse|by left]. }
      unfold is_idle in *. bool_hyps. apply Z.ltb_ge. lia. }
  destruct (H (reverse (l_entries s))) as (gone & Hl & H1 & H2); [by rewrite reverse_involutive|].
  exists (reverse gone). split; [rewrite <- reverse_app, <- Hl; by rewrite reverse_involutive|].
  by rewrite !Forall_reverse.
Qed.

Lemma lru_exec_ok s o : lru_ok s → 1 <= l_max s → Forall (λ e, e_last_seen e <= op_now o) (l_entries s) →
  lru_ok (fst (lru_exec s o)) ∧ Forall (λ e, e_last_seen e <= op_now o) (l_entries (fst (lru_exec s o))).
Proof.
  intros [Hb Hi Ho] Hm Hn. destruct (lru_exec_shape s o) as (Emax & _ & [(_ & _ & Hl)|[(Hk & e & He & Hs & Hl)|(Hk & _ & new & Hl & Hnew)]]).
  - split; [split; rewrite ?Emax, Hl; done|by rewrite Hl].
  - pose proof (without_key_sublist e_id (op_id o) (l_entries s)) as Hsub.
    assert (Forall (λ x, e_last_seen x <= op_now o) (without_key e_id (op_id o) (l_entries s))) as Hf
      by (by eapply sublist_Forall).
    split; [|rewrite Hl; constructor; [lia|done]]. split; rewrite ?Emax, Hl.
    + rewrite size_cons. pose proof (without_key_length_has e_id (op_id o) (l_entries s) Hi Hk). unfold size in *. lia.
    + cbn. apply NoDup_cons. split; [rewrite He; apply without_key_notin|by apply without_key_NoDup].
    + constructor; [by eapply sorted_sublist|]. rewrite Hs. done.
  - pose proof (room_prefix s (op_now o)) as Hp. set (l := make_room _ _) in *.
    assert (Forall (λ x, e_last_seen x <= op_now o) l) as Hf by (eapply sublist_Forall; [by apply prefix_sublist|done]).
    assert (size l + 1 <= l_max s) as Hsz.
    { apply make_room_size; [done|]. pose proof (prefix_size _ _ (after_idle_prefix s (op_now o))). lia. }
    assert (seen_order l) as Hol by (eapply sorted_sublist; [by apply prefix_sublist|done]).
    assert (NoDup (e_id <$> l)) as Hil.
    { destruct Hp as [k Hk']. rewrite Hk', fmap_app in Hi. by apply NoDup_app in Hi as []. }
    destruct Hnew as [->|(e & -> & He & Hs)]; cbn in Hl.
    + split; [split; rewrite ?Emax, Hl; [lia|done|done]|by rewrite Hl].
    + split; [split; rewrite ?Emax, Hl|rewrite Hl; constructor; [lia|done]].
      * rewrite size_cons. lia.
      * cbn. apply NoDup_cons. split; [|done]. rewrite He. intros Hin. apply Hk. destruct Hp as [k Hk'].
        unfold known. rewrite Hk', fmap_app. apply elem_of_app. by left.
      * constructor; [done|]. by rewrite Hs.
Qed.

Definition clock_monotone (os : list TableOp) : Prop := StronglySorted Z.le (op_now <$> os).

Lemma run_lru_max max timeout os : l_max (fst (run_lru (Lru_new max timeout) os)) = Z.max max 1
  ∧ l_timeout (fst (run_lru (Lru_new max timeout) os)) = timeout.
Proof.
  induction os as [|o os [IH1 IH2]] using rev_ind; [done|]. unfold run_lru in *. rewrite foldl_app. cbn [foldl].
  destruct (foldl _ (Lru_new max timeout, []) os) as [s rs]. cbn [fst snd] in *.
  pose proof (lru_exec_shape s o) as (H1 & H2 & _). destruct (lru_exec s o) as [s' r]. cbn [fst] in *. split; congruence.
Qed.

Lemma run_lru_ok max timeout os : clock_monotone os →
  lru_ok (fst (run_lru (Lru_new max timeout) os))
  ∧ (∀ now, Forall (λ o, op_now o <= now) os →
       Forall (λ e, e_last_seen e <= now) (l_entries (fst (run_lru (Lru_new max timeout) os)))).
Proof.
  induction os as [|o os IH] using rev_ind; intros Hc.
  { cbn. split; [split; cbn; [change (size []) with 0; lia|constructor|constructor]|constructor]. }
  unfold clock_monotone in Hc. rewrite fmap_app in Hc. cbn in Hc.
  destruct IH as [H1 H2]; [by eapply StronglySorted_app_1_l|].
  assert (Forall (λ x, op_now x <= op_now o) os) as Hle.
  { apply Forall_forall. intros x Hx. eapply (StronglySorted_app_1_elem_of Z.le); [exact Hc|by apply list_elem_of_fmap_2|by left]. }
  specialize (H2 _ Hle). pose proof (run_lru_max max timeout os) as [Hm _]. unfold run_lru in *. rewrite foldl_app. cbn [foldl].
  destruct (foldl _ (Lru_new max timeout, []) os) as [s rs]. cbn [fst snd] in *.
  destruct (lru_exec_ok s o H1) as [H3 H4]; [lia|done|]. destruct (lru_exec s o) as [s' r]. cbn [fst] in *.
  split; [done|]. intros now Hn. apply Forall_app in Hn as [_ Hn]. rewrite Forall_singleton in Hn.
  eapply Forall_impl; [exact H4|]. cbn. lia.
Qed.

(** An entry that leaves did so for a new leaf, as idle or for room, and was seen
    no later than any that stays. *)
Lemma lru_exec_evicts s o gone : lru_ok s → Forall (λ e, e_last_seen e <= op_now o) (l_entries s) →
  gone ∈ l_entries s → e_id gone ∉ e_id <$> l_entries (fst (lru_exec s o)) →
  ¬ known o (l_entries s) ∧ op_inserts o = true
  ∧ ((0 < l_timeout s ∧ l_timeout s < op_now o - e_last_seen gone) ∨ l_max s <= size (l_entries s))
  ∧ ∀ kept, kept ∈ l_entries (fst (lru_exec s o)) → e_last_seen gone <= e_last_seen kept.
Proof.
  intros [Hb Hi Ho] Hn Hg Hout. destruct (lru_exec_shape s o) as (_ & _ & [(_ & _ & Hl)|[(Hk & e & He & Hs & Hl)|(Hk & Hins & new & Hl & Hnew)]]).
  - destruct Hout. rewrite Hl. by apply list_elem_of_fmap_2.
  - destruct Hout. rewrite Hl. cbn. destruct (decide (e_id gone = op_id o)) as [->|Hne]; [rewrite <- He; left|].
    right. apply list_elem_of_fmap_2, without_key_elem. done.
  - split; [done|]. split; [done|]. set (l := make_room (l_max s) (after_idle s (op_now o))) in *.
    assert (gone ∉ l) as Hgl.
    { intros Hin. apply Hout. rewrite Hl, fmap_app. apply elem_of_app. right. by apply list_elem_of_fmap_2. }
    destruct (room_prefix s (op_now o)) as [rest Hrest]. fold l in Hrest. split.
    + assert (gone ∈ after_idle s (op_now o) → l_max s <= size (l_entries s)) as Hfull.
      { intros Ha. unfold l, make_room in Hgl. destruct (l_max s <=? _) eqn:E; [|done]. bool_hyps.
        pose proof (prefix_size _ _ (after_idle_prefix s (op_now o))). lia. }
      destruct (Z.le_gt_cases (l_timeout s) 0) as [Ht|Ht].
      { right. apply Hfull. unfold after_idle. by rewrite (proj2 (Z.leb_le _ _)). }
      destruct (after_idle_spec s (op_now o) Ho Ht) as (gs & Hgs & _ & Hidle).
      rewrite Hgs in Hg. apply elem_of_app in Hg as [Hg|Hg]; [right; by apply Hfull|]. left. split; [done|].
      rewrite Forall_forall in Hidle. specialize (Hidle _ Hg). cbv beta in Hidle. unfold is_idle in Hidle. by bool_hyps.
    + intros kept Hkept. rewrite Hl in Hkept. apply elem_of_app in Hkept as [Hkept|Hkept].
      * destruct Hnew as [->|(e & -> & _ & Hs)]; [by apply elem_of_nil in Hkept|].
        apply list_elem_of_singleton in Hkept as ->. rewrite Forall_forall in Hn. specialize (Hn _ Hg). cbv beta in Hn. lia.
      * rewrite Hrest in Ho, Hg. apply elem_of_app in Hg as [|Hg]; [done|].
        by apply (StronglySorted_app_1_elem_of _ _ _ _ _ Ho Hkept Hg).
Qed.

(** A new leaf's insert leaves nobody idle. *)
Lemma lru_exec_fresh s o : lru_ok s → 0 < l_timeout s → op_inserts o = true → ¬ known o (l_entries s) →
  Forall (λ e, op_now o - e_last_seen e <= l_timeout s) (l_entries (fst (lru_exec s o))).
Proof.
  intros [Hb Hi Ho] Ht Hins Hk. destruct (lru_exec_shape s o) as (_ & _ & [(_ & Hins' & _)|[(Hk' & _)|(_ & _ & new & Hl & Hnew)]]); [congruence|done|].
  destruct (after_idle_spec s (op_now o) Ho Ht) as (gs & _ & Hkeep & _). rewrite Hl. apply Forall_app. split.
  - destruct Hnew as [->|(e & -> & _ & Hs)]; [done|]. rewrite Forall_singleton. lia.
  - eapply sublist_Forall; [apply prefix_sublist, make_room_prefix|]. eapply Forall_impl; [exact Hkeep|].
    intros e E. unfold is_idle in E. bool_hyps. lia.
Qed.

Lemma lru_touch_front s e rest id later : l_entries s = e :: rest → e_id e = id →
  snd (lru_touch s id later) = Some (set_seen later e).
Proof. intros Hl Hid. unfold lru_touch, find_key. rewrite Hl. cbn. by rewrite Hid, seqb_refl. Qed.

Lemma insert_then_find s id h p now found h' later :
  GotResource found = snd (lru_exec s (OpInsert id h p now true)) →
  snd (lru_exec (fst (lru_exec s (OpInsert id h p now true))) (OpFind id h' later))
  = GotResource (if h =? h' then found else None).
Proof.
  cbn [lru_exec]. assert (∃ s1 e rest, lru_entry s id now true = (s1, Some e) ∧ l_entries s1 = e :: rest ∧ e_id e = id)
    as (s1 & e & rest & -> & Hl & Hid).
  { destruct (lru_entry_shape s id now true) as [[_ (e & He & _ & ->)]|[_ (ev & ->)]]; cbn zeta; by eexists _, _, _. }
  assert (∀ s2 e2, l_entries s2 = e2 :: rest → e_id e2 = id → e_declared_hash e2 = h → e_resource e2 = found →
    snd (let '(s, e) := lru_touch s2 id later in
      (s, GotResource (e ≫= λ e, if e_declared_hash e =? h' then e_resource e else None)))
    = GotResource (if h =? h' then found else None)) as Hfind.
  { intros s2 e2 Hl2 Hid2 <- <-. pose proof (lru_touch_front s2 e2 rest id later Hl2 Hid2) as Ht.
    destruct (lru_touch s2 id later) as [s3 e3]. cbn in Ht. by rewrite Ht. }
  assert (∀ r : option ResourcePtr, GotResource found = GotResource r → r = found) as Hinj by (by intros r [= ->]).
  destruct (e_resource e) as [r|] eqn:Er, (e_declared_hash e =? h) eqn:Eh; cbn [fst snd]; intros <-%Hinj; bool_hyps.
  - by apply (Hfind s1 e).
  - apply (Hfind _ (set_resource h (Some p) e)); [cbn; by rewrite Hl|done..].
  - apply (Hfind _ (set_resource h (Some p) e)); [cbn; by rewrite Hl|done..].
  - apply (Hfind _ (set_resource h (Some p) e)); [cbn; by rewrite Hl|done..].
Qed.

(** The table is bounded and evicts the right leaves.  With a clock that does
    not go back: it never holds more than [max_leaves] entries, at most one per leaf,
    most recently seen first; an entry disappears only when a new leaf is inserted,
    only if it was idle for longer than the timeout or the table was full, and
    never before one seen later; after inserting a new leaf no idle entry is left;
    and a Resource is found again under the hash it was inserted with, and under no
    other. *)
Theorem leaf_table_lru max_leaves idle_timeout os t rs :
  Forall op_ok os → clock_monotone os →
  run_table (LeafTable_new max_leaves idle_timeout) os = Some (t, rs) →
  let l := view (m_recency t) in
  size l <= Z.max max_leaves 1 ∧ NoDup (e_id <$> l) ∧ seen_order l
  ∧ ∀ o t' r, op_ok o → Forall (λ p, op_now p <= op_now o) os → exec t o = Some (t', r) →
      let l' := view (m_recency t') in
      (∀ gone, gone ∈ l → e_id gone ∉ e_id <$> l' →
         ¬ known o l ∧ op_inserts o = true
         ∧ ((0 < idle_timeout ∧ idle_timeout < op_now o - e_last_seen gone) ∨ Z.max max_leaves 1 <= size l)
         ∧ ∀ kept, kept ∈ l' → e_last_seen gone <= e_last_seen kept)
      ∧ (0 < idle_timeout → op_inserts o = true → ¬ known o l →
         Forall (λ e, op_now o - e_last_seen e <= idle_timeout) l')
      ∧ (∀ id h p now found, o = OpInsert id h p now true → r = GotResource found → ∀ h' later,
         option_map snd (exec t' (OpFind id h' later)) = Some (GotResource (if h =? h' then found else None))).
Proof.
  intros Ho Hc Hr l. destruct (run_sim max_leaves idle_timeout os Ho) as (t0 & Hr0 & S).
  rewrite Hr in Hr0. injection Hr0 as <- _. destruct (run_lru_ok max_leaves idle_timeout os Hc) as [Hok Hseen].
  destruct (run_lru_max max_leaves idle_timeout os) as [Hm Ht]. set (s := fst (run_lru _ _)) in *.
  pose proof (sim_view _ _ S) as V. unfold l. rewrite V, <- Hm. split; [apply Hok|]. split; [apply Hok|]. split; [apply Hok|].
  intros o t' r Hop Hnow He. destruct (exec_sim t s o S Hop) as (t1 & He1 & S1). rewrite He in He1. injection He1 as <- Hres.
  pose proof (sim_view _ _ S1) as V1. rewrite V1. specialize (Hseen _ Hnow). rewrite <- Ht.
  split; [intros gone; by apply lru_exec_evicts|]. split; [intros; by apply lru_exec_fresh|].
  intros id h p now found -> -> h' later. destruct (exec_sim t' _ (OpFind id h' later) S1 I) as (t2 & -> & _). cbn [option_map snd].
  f_equal. clear -Hres. cbn [lru_exec] in *. by apply (insert_then_find s id h p now found h' later).
Qed.

Lemma leaf_table_lru_witness :
  ∃ t rs, run_table (LeafTable_new 2 100) demo_table_ops = Some (t, rs)
    ∧ size (view (m_recency t)) <= 2
    ∧ ∀ t' r, exec t (OpAdopt $"z" demo_settings 500 true) = Some (t', r) →
        Forall (λ e, 500 - e_last_seen e <= 100) (view (m_recency t')).
Proof.
  assert ((λ p, e_id <$> view (m_recency (fst p))) <$> run_table (LeafTable_new 2 100) demo_table_ops
          = Some [$"c"; $"a"]) as V by (vm_compute; reflexivity).
  destruct (run_table (LeafTable_new 2 100) demo_table_ops) as [[t rs]|] eqn:E; [|discriminate].
  exists t, rs. split; [reflexivity|]. cbn in V. injection V as V.
  destruct (leaf_table_lru 2 100 demo_table_ops t rs) as (H1 & _ & _ & H2); [..|exact E|].
  - repeat constructor. cbn. unfold kMax. width_lia.
  - repeat constructor; done.
  - split; [exact H1|]. intros t' r He. destruct (H2 (OpAdopt $"z" demo_settings 500 true) t' r) as (_ & H3 & _).
    + exact I.
    + repeat constructor; cbn; lia.
    + exact He.
    + apply H3; [lia|reflexivity|]. unfold known. rewrite V. intros Hin. apply (bool_decide_eq_true_2 _) in Hin. vm_compute in Hin. discriminate.
Defined.

(** ** Negative answers *)

Inductive CacheOp := OpContains (id : str) (now : Z) | OpRemember (id : str) (now : Z) (alloc : bool).
Inductive CacheResult := Known (b : bool) | Stored | NotStored.
Definition cache_exec (c : UnknownLeafCache) (o : CacheOp) : option (UnknownLeafCache * CacheResult) :=
  match o with
  | OpContains id now => '(c, b) ← Contains c id now; Some (c, Known b)
  | OpRemember id now alloc =>
      '(c, r) ← Unknown_Insert c id now alloc;
      Some (c, match r with Returned _ => Stored | Threw => NotStored end)
  end.
Definition run_cache (c : UnknownLeafCache) (os : list CacheOp) : option (UnknownLeafCache * list CacheResult) :=
  foldl (λ st o, '(c, rs) ← st; '(c, r) ← cache_exec c o; Some (c, rs ++ [r])) (Some (c, [])) os.

(** The contract: answers in the order they were cached, oldest first. *)
Definition expired (ttl now : Z) (a : Answer) : bool := ttl <? now - a_at a.
Fixpoint drop_expired (ttl now : Z) (l : list Answer) : list Answer :=
  match l with [] => [] | a :: l' => if expired ttl now a then drop_expired ttl now l' else l end.
Definition fifo_exec (capacity ttl : Z) (l : list Answer) (o : CacheOp) : list Answer * CacheResult :=
  match o with
  | OpContains id now =>
      match find_key a_id id l with
      | None => (l, Known false)
      | Some a => if expired ttl now a then (without_key a_id id l, Known false) else (l, Known true)
      end
  | OpRemember id now alloc =>
      match find_key a_id id l with
      | Some _ => (l, Stored)
      | None =>
          let l := drop_expired ttl now l in
          let l := if capacity <=? size l then tail l else l in
          if alloc then (l ++ [mkAnswer id now], Stored) else (l, NotStored)
      end
  end.
Definition run_fifo (capacity ttl : Z) (os : list CacheOp) : list Answer * list CacheResult :=
  foldl (λ st o, let '(l, r) := fifo_exec capacity ttl (fst st) o in (l, snd st ++ [r])) ([], []) os.

Record cache_sim (capacity ttl : Z) (c : UnknownLeafCache) (l : list Answer) : Prop := {
  cs_inv : il_inv a_id (m_age c);
  cs_view : view (m_age c) = l;
  cs_capacity : m_capacity c = capacity;
  cs_ttl : m_ttl c = ttl;
  cs_bound : size l <= capacity
}.

Lemma erase_front_sim capacity ttl c a l : cache_sim capacity ttl c (a :: l) →
  ∃ c', erase_front c = Some c' ∧ cache_sim capacity ttl c' l.
Proof.
  intros [I V C T B]. pose proof (il_front_spec a_id (m_age c) I) as Hf. unfold erase_front.
  destruct (il_front (m_age c)) as [it|]; [|by rewrite V in Hf]. destruct Hf as (a' & rest & Ha & Hv & Hw).
  cbn [mbind option_bind]. destruct (il_erase_spec a_id (m_age c) it a' I Ha) as (l' & -> & I' & V'). cbn [mbind option_bind].
  rewrite V in Hv. simplify_eq. eexists. split; [done|]. rewrite size_cons in B. split; cbn; first [done|lia|by rewrite V'].
Qed.
Lemma expire_loop_sim capacity ttl fuel c l now : cache_sim capacity ttl c l → (length l < fuel)%nat →
  ∃ c', expire_loop fuel c now = Some c' ∧ cache_sim capacity ttl c' (drop_expired ttl now l).
Proof.
  revert c l. induction fuel as [|fuel IH]; intros c l S Hf; [lia|]. cbn [expire_loop].
  pose proof (il_front_spec a_id (m_age c) (cs_inv _ _ _ _ S)) as Hb. rewrite (cs_view _ _ _ _ S) in Hb.
  destruct (il_front (m_age c)) as [it|]; [|rewrite Hb in *; by exists c].
  destruct Hb as (a & rest & -> & -> & _). cbn [mbind option_bind drop_expired]. unfold expired.
  rewrite (cs_ttl _ _ _ _ S). destruct (ttl <? now - a_at a); [|by exists c].
  destruct (erase_front_sim _ _ _ _ _ S) as (c' & -> & S'). cbn [mbind option_bind]. apply IH; [done|]. cbn in Hf. lia.
Qed.
Lemma drop_expired_suffix ttl now l : ∃ k, l = k ++ drop_expired ttl now l ∧ Forall (λ a, expired ttl now a = true) k.
Proof.
  induction l as [|a l (k & Hk & Hf)]; cbn; [by exists []|]. destruct (expired ttl now a) eqn:E; [|by exists []].
  exists (a :: k). split; [cbn; by rewrite <- Hk|by constructor].
Qed.

Lemma cache_exec_sim capacity ttl c l o : 1 <= capacity → cache_sim capacity ttl c l →
  ∃ c', cache_exec c o = Some (c', snd (fifo_exec capacity ttl l o)) ∧ cache_sim capacity ttl c' (fst (fifo_exec capacity ttl l o)).
Proof.
  intros Hc S. destruct o as [id now|id now alloc]; cbn [cache_exec fifo_exec].
  - unfold Contains. pose proof (il_index_find a_id (m_age c) id (cs_inv _ _ _ _ S)) as Hf. rewrite (cs_view _ _ _ _ S) in Hf.
    destruct (il_index (m_age c) !! id) as [it|]; [|rewrite Hf; cbn; by exists c].
    destruct Hf as (a & Ha & Hf). rewrite Ha, Hf. cbn [mbind option_bind]. unfold expired. rewrite (cs_ttl _ _ _ _ S).
    destruct (ttl <? now - a_at a); [|cbn; by exists c].
    destruct S as [I V C T B]. destruct (il_erase_spec a_id (m_age c) it a I Ha) as (l' & -> & I' & V'). cbn.
    eexists. split; [done|]. apply find_key_Some in Hf as [_ <-]. pose proof (without_key_length a_id (a_id a) l).
    split; cbn; first [done|by rewrite V', V|unfold size in *; lia].
  - unfold Unknown_Insert. pose proof (il_index_find a_id (m_age c) id (cs_inv _ _ _ _ S)) as Hf. rewrite (cs_view _ _ _ _ S) in Hf.
    destruct (il_index (m_age c) !! id) as [it|]; [destruct Hf as (a & _ & ->); cbn; by exists c|]. rewrite Hf.
    destruct (expire_loop_sim capacity ttl (Datatypes.S (length (il_nodes (m_age c)))) c l now S) as (c1 & -> & S1).
    { pose proof (cs_view _ _ _ _ S) as V. unfold view in V. rewrite <- V, length_fmap. lia. }
    cbn [mbind option_bind]. set (l1 := drop_expired ttl now l) in *.
    assert (∃ c2, (if m_capacity c1 <=? Z.of_nat (base.size (il_index (m_age c1))) then erase_front c1 else Some c1) = Some c2
      ∧ cache_sim capacity ttl c2 (if capacity <=? size l1 then tail l1 else l1)) as (c2 & -> & S2).
    { rewrite (cs_capacity _ _ _ _ S1), (il_index_size a_id), (cs_view _ _ _ _ S1) by apply S1.
      destruct (capacity <=? size l1) eqn:E; [|by exists c1]. bool_hyps. destruct l1 as [|a l2]; [change (size []) with 0 in E; lia|].
      by apply erase_front_sim with a. }
    cbn [mbind option_bind]. set (l2 := if capacity <=? size l1 then tail l1 else l1) in *.
    destruct alloc; cbn [mbind option_bind fst snd]; [|by exists c2].
    assert (l2 `suffix_of` l) as Hsuf.
    { destruct (drop_expired_suffix ttl now l) as (k & Hk & _). fold l1 in Hk. transitivity l1; [|by exists k].
      unfold l2. destruct (_ <=? _); [|done]. destruct l1 as [|a l3]; [done|]. by exists [a]. }
    assert (a_id (mkAnswer id now) ∉ a_id <$> view (m_age c2)) as Hn.
    { rewrite (cs_view _ _ _ _ S2). apply find_key_None in Hf. intros Hin. apply Hf. destruct Hsuf as [k Hk]. rewrite Hk, fmap_app. apply elem_of_app. by right. }
    pose proof (il_push_back_spec a_id (m_age c2) (mkAnswer id now) (cs_inv _ _ _ _ S2) Hn) as Hp.
    destruct (il_push_back _ _ _) as [it l3]. destruct Hp as (I3 & V3). cbn [snd]. eexists. split; [done|].
    destruct S2 as [I V C T B]. split; cbn; [done|by rewrite V3, V|done|done|]. rewrite size_app. change (size [_]) with 1.
    unfold l2. destruct (capacity <=? size l1) eqn:E; bool_hyps; [|lia]. pose proof (cs_bound _ _ _ _ S1) as Hb.
    destruct l1 as [|a l4]; [change (size []) with 0 in E; lia|]. cbn [tail]. rewrite size_cons in Hb. lia.
Qed.

Lemma run_cache_sim capacity ttl os :
  ∃ c, run_cache (UnknownLeafCache_new capacity ttl) os = Some (c, snd (run_fifo (Z.max capacity 1) ttl os))
    ∧ cache_sim (Z.max capacity 1) ttl c (fst (run_fifo (Z.max capacity 1) ttl os)).
Proof.
  induction os as [|o os (c & Hr & S)] using rev_ind.
  { eexists. split; [done|]. split; cbn; first [done|apply il_empty_inv|change (size []) with 0; lia]. }
  unfold run_cache, run_fifo in *. rewrite !foldl_app, Hr. cbn [foldl mbind option_bind].
  destruct (foldl _ ([], []) os) as [l rs]. cbn [fst snd] in *.
  destruct (cache_exec_sim (Z.max capacity 1) ttl c l o ltac:(lia) S) as (c' & -> & S'). cbn [mbind option_bind].
  destruct (fifo_exec _ _ l o) as [l' r]. by exists c'.
Qed.

(** Where every cached answer comes from. *)
Lemma run_fifo_origin capacity ttl os a : a ∈ fst (run_fifo capacity ttl os) → OpRemember (a_id a) (a_at a) true ∈ os.
Proof.
  induction os as [|o os IH] using rev_ind; [cbn; intros H; by apply elem_of_nil in H|].
  unfold run_fifo in *. rewrite foldl_app. cbn [foldl]. destruct (foldl _ ([], []) os) as [l rs]. cbn [fst snd] in *.
  destruct (fifo_exec capacity ttl l o) as [l' r] eqn:E. cbn [fst]. intros Ha. rewrite elem_of_app.
  assert (a ∈ l ∨ o = OpRemember (a_id a) (a_at a) true) as [Hin|Hin]; [|left; by apply IH|subst o; right; by left].
  destruct o as [id now|id now alloc]; cbn [fifo_exec] in E.
  - destruct (find_key a_id id l); [destruct (expired _ _ _)|]; simplify_eq; [|by left..]. left.
    by apply without_key_elem in Ha as [].
  - destruct (find_key a_id id l); [simplify_eq; by left|].
    destruct (drop_expired_suffix ttl now l) as (k & Hk & _).
    assert (a ∈ (if capacity <=? size (drop_expired ttl now l) then tail (drop_expired ttl now l) else drop_expired ttl now l) → a ∈ l) as Hsub.
    { intros Hin. rewrite Hk. apply elem_of_app. right. destruct (_ <=? _); [|done]. by destruct (drop_expired ttl now l); [|right]. }
    destruct alloc; simplify_eq; [|left; by apply Hsub].
    apply elem_of_app in Ha as [Ha|Ha%list_elem_of_singleton]; [left; by apply Hsub|]. subst a. by right.
Qed.

(** The cache of unknown leaves is the bounded queue its documentation describes:
    every call returns what the plain list of answers would, with no dangling
    iterator whenever memory runs out; it never holds more than its capacity; and it
    answers "unknown" only for an id that was cached no longer than the TTL ago, so
    that a leaf configured later is asked about again. *)
Theorem unknown_cache_contract capacity ttl os :
  ∃ c, run_cache (UnknownLeafCache_new capacity ttl) os = Some (c, snd (run_fifo (Z.max capacity 1) ttl os))
    ∧ view (m_age c) = fst (run_fifo (Z.max capacity 1) ttl os)
    ∧ Unknown_Size c <= Z.max capacity 1
    ∧ ∀ id now c', Contains c id now = Some (c', true) →
        ∃ at_, OpRemember id at_ true ∈ os ∧ now - at_ <= ttl.
Proof.
  destruct (run_cache_sim capacity ttl os) as (c & Hr & S). exists c. split; [done|]. split; [apply S|].
  split; [unfold Unknown_Size; rewrite (il_index_size a_id), (cs_view _ _ _ _ S) by apply S; apply S|].
  intros id now c' Hc. unfold Contains in Hc.
  pose proof (il_index_find a_id (m_age c) id (cs_inv _ _ _ _ S)) as Hf. rewrite (cs_view _ _ _ _ S) in Hf.
  destruct (il_index (m_age c) !! id) as [it|]; [|done]. destruct Hf as (a & Ha & Hf). rewrite Ha in Hc. cbn in Hc.
  rewrite (cs_ttl _ _ _ _ S) in Hc. destruct (ttl <? now - a_at a) eqn:E.
  { destruct (il_erase _ _ _); by simplify_eq. }
  bool_hyps. apply find_key_Some in Hf as [Hin <-]. apply run_fifo_origin in Hin. eauto.
Qed.
