(* ===== verification/LeafResource.v ===== *)
(** * Leaf resources

    Model of [src/sdk/leaf_resource.cpp] and [leaf_resource.hpp]: reading the
    reserved wire attributes of a payload, the checks that need them, the hash of a
    declared Resource, and the layered merge of a leaf's Resource within its byte
    budget.  [std::size_t] sums of object sizes do not wrap.  The FNV hash reads
    object representations: little-endian, [sizeof(bool)] 1.

    The theorems: which value each key gets from the layers; the byte accounting of
    [Budget], kept key by key while admitting, is exactly the size of the merged
    Resource, which stays within the budget; reserved keys never get through. *)
From stdpp Require Import gmap.
From S2P Require Import Prelude Context Data AttributeSet SpanLimits LeafTime.

Definition kLeafReservedPrefix : str := $"microtel.leaf.".
Definition kLeafProtoVersion : Z := 1.
Definition kMaxLeafIdBytes : Z := 128.
Definition kServiceNameKey : str := $"service.name".
Definition kUnknownService : str := $"unknown_service".
Definition kScalarBytes : Z := 8.

(** ** The wire header *)

Record LeafWireInfo := mkLeafWireInfo {
  wi_proto : option Z; wi_time_mode : option Z; wi_encode_time : option Z; wi_sync_age : option Z;
  wi_boot_id : option Z; wi_dropped_spans : option Z; wi_dropped_items : option Z;
  wi_wrong_type : bool; wi_declared : bool
}.
Definition LeafWireInfo_new : LeafWireInfo := mkLeafWireInfo None None None None None None None false false.
Definition set_wrong_type (i : LeafWireInfo) : LeafWireInfo :=
  mkLeafWireInfo (wi_proto i) (wi_time_mode i) (wi_encode_time i) (wi_sync_age i) (wi_boot_id i)
    (wi_dropped_spans i) (wi_dropped_items i) true (wi_declared i).
Definition set_declared (i : LeafWireInfo) : LeafWireInfo :=
  mkLeafWireInfo (wi_proto i) (wi_time_mode i) (wi_encode_time i) (wi_sync_age i) (wi_boot_id i)
    (wi_dropped_spans i) (wi_dropped_items i) (wi_wrong_type i) true.

Definition IsReserved (key : str) : bool := starts_with key kLeafReservedPrefix.

Inductive Slot := SlotProto | SlotTimeMode | SlotEncodeTime | SlotSyncAge | SlotBootId | SlotDroppedSpans | SlotDroppedItems.
Definition slots : list (str * Slot) :=
  [($"microtel.leaf.proto", SlotProto); ($"microtel.leaf.time_mode", SlotTimeMode);
   ($"microtel.leaf.encode_time", SlotEncodeTime); ($"microtel.leaf.sync_age", SlotSyncAge);
   ($"microtel.leaf.boot_id", SlotBootId); ($"microtel.leaf.dropped_spans", SlotDroppedSpans);
   ($"microtel.leaf.dropped_items", SlotDroppedItems)].
(** [SlotFor]: the member a key fills. *)
Definition SlotFor (key : str) : option Slot := snd <$> find_key fst key slots.
(** [*slot = v]. *)
Definition fill (i : LeafWireInfo) (s : Slot) (v : Z) : LeafWireInfo :=
  let '(mkLeafWireInfo p t e a b ds di w d) := i in
  match s with
  | SlotProto => mkLeafWireInfo (Some v) t e a b ds di w d
  | SlotTimeMode => mkLeafWireInfo p (Some v) e a b ds di w d
  | SlotEncodeTime => mkLeafWireInfo p t (Some v) a b ds di w d
  | SlotSyncAge => mkLeafWireInfo p t e (Some v) b ds di w d
  | SlotBootId => mkLeafWireInfo p t e a (Some v) ds di w d
  | SlotDroppedSpans => mkLeafWireInfo p t e a b (Some v) di w d
  | SlotDroppedItems => mkLeafWireInfo p t e a b ds (Some v) w d
  end.
(** [ReadWireInfo]: the loop body, and the loop. *)
Definition read_one (info : LeafWireInfo) (kv : KeyValue) : LeafWireInfo :=
  if negb (IsReserved (kv_key kv)) then info
  else
    let info := set_declared info in
    match SlotFor (kv_key kv) with
    | None => info
    | Some slot => match kv_value kv with AvInt v => fill info slot v | _ => set_wrong_type info end
    end.
Definition ReadWireInfo (resource : list KeyValue) : LeafWireInfo := fold_left read_one resource LeafWireInfo_new.

(** [CheckWireInfo]. *)
Definition CheckWireInfo (info : LeafWireInfo) : option LeafTimeMode :=
  if negb (wi_declared info) then Some ModeUnix
  else if wi_wrong_type info || negb (bool_decide (wi_proto info = Some kLeafProtoVersion)) then None
  else match wi_time_mode info with
       | None => None
       | Some m =>
           if m =? 0 then Some ModeConcentratorStamped
           else if m =? 1 then
             if bool_decide (is_Some (wi_encode_time info)) && bool_decide (is_Some (wi_sync_age info))
             then Some ModeSyncRelative else None
           else if m =? 2 then
             if bool_decide (is_Some (wi_encode_time info)) && bool_decide (is_Some (wi_boot_id info))
             then Some ModeBootRelative else None
           else None
       end.

(** [TimeModeAllowed]. *)
Definition TimeModeAllowed (declared : LeafTimeMode) (configured : option LeafTimeMode) : bool :=
  if decide (declared = ModeUnix) then bool_decide (configured = Some ModeUnix)
  else match configured with
       | None => true
       | Some c => bool_decide (declared = c) || bool_decide (declared = ModeConcentratorStamped)
       end.

(** ** The declared hash *)

Definition kFnvOffset : Z := 14695981039346656037.
Definition kFnvPrime : Z := 1099511628211.
(** [Fnv::Add(data, size)]. *)
Definition Fnv_Add (h : Z) (bytes : list Z) : Z :=
  fold_left (λ h b, to_uint 64 (Z.lxor h b * kFnvPrime)) bytes h.
Definition Fnv_size (h n : Z) : Z := Fnv_Add h (le_bytes 8 (to_uint 64 n)).
Definition Fnv_string (h : Z) (s : str) : Z := Fnv_Add (Fnv_size h (size s)) (code <$> s).
Definition Fnv_bool (h : Z) (b : bool) : Z := Fnv_Add h [if b then 1 else 0].
(** [HashElements]. *)
Definition HashElements {A} (add : Z → A → Z) (h : Z) (values : list A) : Z :=
  fold_left add values (Fnv_size h (size values)).
Definition value_index (v : AttributeValue) : Z :=
  match v with
  | AvBool _ => 0 | AvInt _ => 1 | AvDouble _ => 2 | AvString _ => 3
  | AvBools _ => 4 | AvInts _ => 5 | AvDoubles _ => 6 | AvStrings _ => 7
  end.
(** [HashValue]. *)
Definition Fnv_HashValue (h : Z) (v : AttributeValue) : Z :=
  let h := Fnv_size h (value_index v) in
  match v with
  | AvString s => Fnv_string h s
  | AvBool b => Fnv_bool h b
  | AvInt i => Fnv_size h i
  | AvDouble d => Fnv_size h d
  | AvStrings l => HashElements Fnv_string h l
  | AvBools l => HashElements Fnv_bool h l
  | AvInts l => HashElements Fnv_size h l
  | AvDoubles l => HashElements Fnv_size h l
  end.
(** [HashDeclaredResource]. *)
Definition HashDeclaredResource (resource : list KeyValue) : Z :=
  fold_left (λ h kv, if IsReserved (kv_key kv) then h else Fnv_HashValue (Fnv_string h (kv_key kv)) (kv_value kv))
    resource kFnvOffset.

(** ** The budget *)

Definition ValueBytes (v : AttributeValue) : Z :=
  match v with
  | AvString s => size s
  | AvStrings l => zsum size l
  | AvBools l => size l * kScalarBytes
  | AvInts l => size l * kScalarBytes
  | AvDoubles l => size l * kScalarBytes
  | _ => kScalarBytes
  end.
Definition AttributeBytes (kv : KeyValue) : Z := size (kv_key kv) + ValueBytes (kv_value kv).

Record Budget := mkBudget { b_values : gmap str Z; b_total : Z }.
Definition Budget_new : Budget := mkBudget ∅ 0.
Definition TotalWith (b : Budget) (key : str) (value_bytes : Z) : Z :=
  match b_values b !! key with
  | None => b_total b + size key + value_bytes
  | Some old => b_total b - old + value_bytes
  end.
Definition Budget_Set (b : Budget) (key : str) (value_bytes : Z) : Budget :=
  mkBudget (<[key := value_bytes]> (b_values b)) (TotalWith b key value_bytes).
Definition Budget_Has (b : Budget) (key : str) : bool := bool_decide (is_Some (b_values b !! key)).

(** ** The layers *)

Record LeafResourceLayers := mkLayers {
  ly_defaults : list KeyValue;
  ly_declared : list KeyValue;
  ly_configured : list KeyValue;
  ly_id_key : str;
  ly_leaf_id : str;
  ly_budget : Z
}.
Definition is_empty (s : str) : bool := match s with [] => true | _ => false end.
Definition charge (b : Budget) (kv : KeyValue) : Budget := Budget_Set b (kv_key kv) (ValueBytes (kv_value kv)).

(** [ChargeFixedLayers]. *)
Definition ChargeFixedLayers (layers : LeafResourceLayers) : gset str * Budget :=
  let b := fold_left charge (ly_defaults layers) Budget_new in
  let b := fold_left charge (ly_configured layers) b in
  let pinned := list_to_set (kv_key <$> ly_configured layers) in
  let '(pinned, b) :=
    if is_empty (ly_id_key layers) then (pinned, b)
    else ({[ly_id_key layers]} ∪ pinned, Budget_Set b (ly_id_key layers) (size (ly_leaf_id layers))) in
  let b := if Budget_Has b kServiceNameKey then b else Budget_Set b kServiceNameKey (size kUnknownService) in
  (pinned, b).

(** [AdmitDeclared]. *)
Fixpoint AdmitDeclared (declared : list KeyValue) (pinned : gset str) (budget : Z) (b : Budget) (dropped : Z)
    : list KeyValue * Budget * Z :=
  match declared with
  | [] => ([], b, dropped)
  | kv :: rest =>
      if IsReserved (kv_key kv) || bool_decide (kv_key kv ∈ pinned) then AdmitDeclared rest pinned budget b dropped
      else if budget <? TotalWith b (kv_key kv) (ValueBytes (kv_value kv))
      then AdmitDeclared rest pinned budget b (dropped + 1)
      else let '(admitted, b', dropped') := AdmitDeclared rest pinned budget (charge b kv) dropped in
           (kv :: admitted, b', dropped')
  end.

(** [MergeResolverResource]: the loop, and the function. *)
Fixpoint merge_answer (answer : list KeyValue) (fixed : LeafResourceLayers) (configured : list KeyValue)
    (b : Budget) (dropped : Z) : list KeyValue * Z :=
  match answer with
  | [] => (configured, dropped)
  | kv :: rest =>
      if IsReserved (kv_key kv) || (negb (is_empty (ly_id_key fixed)) && (kv_key kv =s ly_id_key fixed))
      then merge_answer rest fixed configured b dropped
      else if ly_budget fixed <? TotalWith b (kv_key kv) (ValueBytes (kv_value kv))
      then merge_answer rest fixed configured b (dropped + 1)
      else merge_answer rest fixed (merge_one configured kv) (charge b kv) dropped
  end.
Definition with_layers (declared configured : list KeyValue) (l : LeafResourceLayers) : LeafResourceLayers :=
  mkLayers (ly_defaults l) declared configured (ly_id_key l) (ly_leaf_id l) (ly_budget l).
Definition MergeResolverResource (configured answer : list KeyValue) (fixed : LeafResourceLayers) : list KeyValue * Z :=
  merge_answer answer fixed configured (snd (ChargeFixedLayers (with_layers [] configured fixed))) 0.

(** [Layer] and [Names]. *)
Definition Layer (key value : str) : Resource := mkResource [mkKeyValue key (AvString value)].
Definition Names (r : Resource) (key : str) : bool := has_key kv_key key (m_attributes r).

(** [ResolveLeafResource]: the Resource and the declared attributes dropped. *)
Definition ResolveLeafResource (layers : LeafResourceLayers) : Resource * Z :=
  let '(pinned, b) := ChargeFixedLayers layers in
  let '(admitted, _, dropped) := AdmitDeclared (ly_declared layers) pinned (ly_budget layers) b 0 in
  let merged := Merge (mkResource (ly_defaults layers)) (mkResource admitted) in
  let merged := Merge merged (mkResource (ly_configured layers)) in
  let merged := if is_empty (ly_id_key layers) then merged else Merge merged (Layer (ly_id_key layers) (ly_leaf_id layers)) in
  let merged := if Names merged kServiceNameKey then merged else Merge merged (Layer kServiceNameKey kUnknownService) in
  (merged, dropped).

(** ** Byte accounting *)

Definition resource_bytes (l : list KeyValue) : Z := zsum AttributeBytes l.

(** The budget is the account of the list [l]. *)
Record accounts (b : Budget) (l : list KeyValue) : Prop := {
  ac_keys : NoDup (kv_key <$> l);
  ac_total : b_total b = resource_bytes l;
  ac_values : ∀ k, b_values b !! k = ValueBytes <$> lookup_attr k l
}.

Lemma bytes_merge_one l kv :
  resource_bytes (merge_one l kv)
  = match lookup_attr (kv_key kv) l with
    | Some v => resource_bytes l - ValueBytes v + ValueBytes (kv_value kv)
    | None => resource_bytes l + AttributeBytes kv
    end.
Proof.
  unfold resource_bytes. induction l as [|m l IH]; cbn [merge_one].
  { cbn. lia. }
  rewrite lookup_attr_cons. destruct (kv_key m =s kv_key kv) eqn:E.
  - apply seqb_true in E. rewrite !zsum_cons. unfold AttributeBytes. cbn. lia.
  - rewrite !zsum_cons, IH. destruct (lookup_attr _ l); lia.
Qed.
Lemma accounts_new : accounts Budget_new [].
Proof. split; [constructor|done|]. intros k. apply lookup_empty. Qed.
Lemma accounts_charge b l kv : accounts b l → accounts (charge b kv) (merge_one l kv).
Proof.
  intros [Hk Ht Hv]. split; cbn.
  - by apply (merge_fold_keys [kv] l).
  - unfold TotalWith. rewrite bytes_merge_one, Hv, Ht. destruct (lookup_attr _ l); cbn; [done|]. unfold AttributeBytes. lia.
  - intros k. rewrite merge_one_lookup. destruct (kv_key kv =s k) eqn:E.
    + apply seqb_true in E as ->. by rewrite lookup_insert_eq.
    + apply seqb_false in E. by rewrite lookup_insert_ne.
Qed.
Lemma accounts_fold l0 b l : accounts b l → accounts (fold_left charge l0 b) (fold_left merge_one l0 l).
Proof. revert b l. induction l0 as [|kv l0 IH]; intros b l H; [done|]. cbn. apply IH. by apply accounts_charge. Qed.
Lemma accounts_has b l k : accounts b l → Budget_Has b k = has_key kv_key k l.
Proof.
  intros H. unfold Budget_Has. rewrite (ac_values _ _ H), find_key_has. unfold lookup_attr.
  by destruct (find_key kv_key k l).
Qed.

(** Lists without duplicate keys and with the same lookups cost the same. *)
Lemma same_lookup_bytes a b :
  NoDup (kv_key <$> a) → NoDup (kv_key <$> b) → (∀ k, lookup_attr k a = lookup_attr k b) →
  resource_bytes a = resource_bytes b.
Proof.
  intros Ha Hb Hl. unfold resource_bytes. apply zsum_perm. apply NoDup_Permutation.
  - by apply NoDup_fmap_1 in Ha.
  - by apply NoDup_fmap_1 in Hb.
  - intros [k v]. by rewrite <- !lookup_attr_elem, Hl.
Qed.

Lemma lookup_attr_app k a b :
  lookup_attr k (a ++ b) = match lookup_attr k a with Some v => Some v | None => lookup_attr k b end.
Proof.
  induction a as [|kv a IH]; [done|]. cbn [app]. rewrite !lookup_attr_cons. by destruct (kv_key kv =s k).
Qed.
Lemma last_attr_app k a b :
  last_attr k (a ++ b) = match last_attr k b with Some v => Some v | None => last_attr k a end.
Proof. unfold last_attr. by rewrite reverse_app, lookup_attr_app. Qed.
Lemma last_attr_one k kv : last_attr k [kv] = if kv_key kv =s k then Some (kv_value kv) else None.
Proof. unfold last_attr. change (reverse [kv]) with [kv]. by rewrite lookup_attr_cons. Qed.
Lemma last_attr_NoDup k l : NoDup (kv_key <$> l) → last_attr k l = lookup_attr k l.
Proof.
  intros H. unfold last_attr. symmetry. apply lookup_attr_perm; [done|]. symmetry. apply reverse_Permutation.
Qed.
Lemma last_attr_None k l : last_attr k l = None ↔ k ∉ kv_key <$> l.
Proof. unfold last_attr. rewrite lookup_attr_None, fmap_reverse, elem_of_reverse. done. Qed.

(** ** The fixed layers *)

Definition id_layer (layers : LeafResourceLayers) : list KeyValue :=
  if is_empty (ly_id_key layers) then [] else [mkKeyValue (ly_id_key layers) (AvString (ly_leaf_id layers))].
Definition service_placeholder : KeyValue := mkKeyValue kServiceNameKey (AvString kUnknownService).
Definition add_service (l : list KeyValue) : list KeyValue :=
  if has_key kv_key kServiceNameKey l then l else merge_one l service_placeholder.
(** The defaults, the configured Resource, the id and the placeholder, merged. *)
Definition fixed_layers (layers : LeafResourceLayers) : list KeyValue :=
  add_service (fold_left merge_one (ly_defaults layers ++ ly_configured layers ++ id_layer layers) []).

Lemma accounts_service b l : accounts b l →
  accounts (if Budget_Has b kServiceNameKey then b else Budget_Set b kServiceNameKey (size kUnknownService)) (add_service l).
Proof.
  intros H. unfold add_service. rewrite (accounts_has _ _ _ H). destruct (has_key _ _ _); [done|].
  by apply (accounts_charge b l service_placeholder).
Qed.
Lemma ChargeFixedLayers_spec layers :
  accounts (snd (ChargeFixedLayers layers)) (fixed_layers layers)
  ∧ ∀ k, k ∈ fst (ChargeFixedLayers layers) ↔ k ∈ kv_key <$> ly_configured layers ∨ k ∈ kv_key <$> id_layer layers.
Proof.
  unfold ChargeFixedLayers, fixed_layers, id_layer.
  pose proof (accounts_fold (ly_configured layers) _ _ (accounts_fold (ly_defaults layers) _ _ accounts_new)) as H.
  destruct (is_empty (ly_id_key layers)); cbn [fst snd].
  - rewrite app_nil_r, fold_left_app. split; [by apply accounts_service|]. intros k. rewrite elem_of_list_to_set, elem_of_nil. tauto.
  - rewrite !fold_left_app. split.
    + apply accounts_service. cbn [fold_left].
      apply (accounts_charge _ _ (mkKeyValue (ly_id_key layers) (AvString (ly_leaf_id layers))) H).
    + intros k. cbn. rewrite elem_of_union, elem_of_singleton, elem_of_list_to_set, list_elem_of_singleton. tauto.
Qed.

Lemma add_service_lookup l k :
  lookup_attr k (add_service l)
  = match lookup_attr k l with
    | Some v => Some v
    | None => if kServiceNameKey =s k then Some (AvString kUnknownService) else None
    end.
Proof.
  unfold add_service. destruct (has_key _ _ l) eqn:E.
  - destruct (lookup_attr k l) eqn:El; [done|]. destruct (kServiceNameKey =s k) eqn:Ek; [|done].
    apply seqb_true in Ek as <-. apply has_key_true in E. apply lookup_attr_None in El. done.
  - rewrite merge_one_lookup. change (kv_key service_placeholder) with kServiceNameKey.
    destruct (kServiceNameKey =s k) eqn:Ek; [|by destruct (lookup_attr k l)].
    apply seqb_true in Ek as <-. apply has_key_false, lookup_attr_None in E. by rewrite E.
Qed.
Lemma add_service_keys l : NoDup (kv_key <$> l) → NoDup (kv_key <$> add_service l).
Proof. intros H. unfold add_service. destruct (has_key _ _ l); [done|]. by apply (merge_fold_keys [service_placeholder] l). Qed.

(** ** Admission *)

Definition candidate (pinned : gset str) (kv : KeyValue) : bool :=
  negb (IsReserved (kv_key kv) || bool_decide (kv_key kv ∈ pinned)).

Lemma AdmitDeclared_spec declared pinned budget b dropped adm b' dropped' l :
  accounts b l → AdmitDeclared declared pinned budget b dropped = (adm, b', dropped') →
  accounts b' (fold_left merge_one adm l)
  ∧ b_total b' <= Z.max budget (b_total b)
  ∧ adm `sublist_of` declared ∧ forallb (candidate pinned) adm = true
  ∧ dropped' = dropped + (size (List.filter (candidate pinned) declared) - size adm).
Proof.
  revert b dropped adm b' l. induction declared as [|kv rest IH]; intros b dropped adm b' l Ha; cbn [AdmitDeclared].
  { intros [= <- <- <-]. cbn. split_and!; [done|lia|done|done|]. change (size []) with 0. lia. }
  assert (candidate pinned kv = negb (IsReserved (kv_key kv) || bool_decide (kv_key kv ∈ pinned))) as Hc by done.
  cbn [List.filter]. rewrite Hc. destruct (IsReserved _ || _) eqn:E1; cbn [negb].
  { intros H. destruct (IH _ _ _ _ _ Ha H) as (? & ? & ? & ? & ?). split_and!; [done..|by constructor|done|done]. }
  rewrite size_cons. destruct (budget <? _) eqn:E2.
  { intros H. destruct (IH _ _ _ _ _ Ha H) as (? & ? & ? & ? & ?). split_and!; [done..|by constructor|done|lia]. }
  destruct (AdmitDeclared rest _ _ _ _) as [[adm1 b1] d1] eqn:Er. intros [= <- <- <-].
  destruct (IH _ _ _ _ _ (accounts_charge b l kv Ha) Er) as (H1 & H2 & H3 & H4 & H5). cbn [fold_left].
  bool_hyps. cbn [charge Budget_Set b_total] in H2. split_and!; [done|lia|by constructor| |rewrite size_cons; lia].
  cbn [forallb]. by rewrite Hc, H4.
Qed.

Lemma admitted_candidate pinned adm k kv : forallb (candidate pinned) adm = true → kv ∈ adm → kv_key kv = k →
  IsReserved k = false ∧ k ∉ pinned.
Proof.
  intros H Hin <-. pose proof (forallb_elem _ _ _ H Hin) as Hc. unfold candidate in Hc. bool_hyps. done.
Qed.
Lemma last_attr_elem k l v : last_attr k l = Some v → ∃ kv, kv ∈ l ∧ kv_key kv = k ∧ kv_value kv = v.
Proof.
  unfold last_attr, lookup_attr. intros (kv & Hf & ->)%fmap_Some. apply find_key_Some in Hf as [Hin Hk].
  exists kv. by rewrite <- elem_of_reverse.
Qed.

(** ** The resolved Resource *)

Definition admitted_of (layers : LeafResourceLayers) : list KeyValue :=
  let '(pinned, b) := ChargeFixedLayers layers in
  fst (fst (AdmitDeclared (ly_declared layers) pinned (ly_budget layers) b 0)).

Lemma resolve_eq layers :
  m_attributes (fst (ResolveLeafResource layers))
  = add_service (fold_left merge_one (admitted_of layers ++ ly_configured layers ++ id_layer layers) (ly_defaults layers)).
Proof.
  unfold ResolveLeafResource, admitted_of, id_layer, add_service, Names. destruct (ChargeFixedLayers layers) as [pinned b].
  destruct (AdmitDeclared _ _ _ _ _) as [[adm b'] d]. rewrite !fold_left_app. cbn [fst snd].
  destruct (is_empty (ly_id_key layers)); cbn [m_attributes Merge Layer fold_left]; by case_match.
Qed.

Lemma admitted_spec layers :
  let pinned := fst (ChargeFixedLayers layers) in
  let adm := admitted_of layers in
  resource_bytes (fold_left merge_one adm (fixed_layers layers)) <= Z.max (ly_budget layers) (resource_bytes (fixed_layers layers))
  ∧ adm `sublist_of` ly_declared layers ∧ forallb (candidate pinned) adm = true
  ∧ snd (ResolveLeafResource layers) = size (List.filter (candidate pinned) (ly_declared layers)) - size adm.
Proof.
  unfold admitted_of, ResolveLeafResource. destruct (ChargeFixedLayers_spec layers) as [Ha _].
  destruct (ChargeFixedLayers layers) as [pinned b]. cbn [fst snd] in *.
  destruct (AdmitDeclared _ _ _ _ _) as [[adm b'] d] eqn:E. cbn [fst snd].
  destruct (AdmitDeclared_spec _ _ _ _ _ _ _ _ _ Ha E) as (H1 & H2 & H3 & H4 & H5).
  rewrite <- (ac_total _ _ H1), <- (ac_total _ _ Ha). split_and!; [done..|lia].
Qed.

(** The value every key gets. *)
Definition layered (layers : LeafResourceLayers) (admitted : list KeyValue) (k : str) : option AttributeValue :=
  match last_attr k (id_layer layers) with
  | Some v => Some v
  | None => match last_attr k (ly_configured layers) with
    | Some v => Some v
    | None => match last_attr k admitted with
      | Some v => Some v
      | None => match lookup_attr k (ly_defaults layers) with
        | Some v => Some v
        | None => if kServiceNameKey =s k then Some (AvString kUnknownService) else None
        end
      end
    end
  end.

Lemma resolve_lookup layers k :
  lookup_attr k (m_attributes (fst (ResolveLeafResource layers))) = layered layers (admitted_of layers) k.
Proof.
  rewrite resolve_eq, add_service_lookup, merge_fold_lookup, !last_attr_app. unfold layered.
  destruct (last_attr k (id_layer layers)); [done|]. destruct (last_attr k (ly_configured layers)); [done|].
  by destruct (last_attr k (admitted_of layers)).
Qed.

(** What was charged is what was built. *)
Lemma resolve_bytes layers : NoDup (kv_key <$> ly_defaults layers) →
  resource_bytes (m_attributes (fst (ResolveLeafResource layers)))
  = resource_bytes (fold_left merge_one (admitted_of layers) (fixed_layers layers)).
Proof.
  intros Hd. destruct (admitted_spec layers) as (_ & _ & Hc & _). destruct (ChargeFixedLayers_spec layers) as [Ha Hp].
  apply same_lookup_bytes.
  - rewrite resolve_eq. by apply add_service_keys, merge_fold_keys.
  - apply merge_fold_keys, Ha.
  - intros k. rewrite resolve_lookup, merge_fold_lookup. unfold layered, fixed_layers.
    rewrite add_service_lookup, merge_fold_lookup, !last_attr_app. rewrite (last_attr_NoDup k _ Hd).
    destruct (last_attr k (admitted_of layers)) as [v|] eqn:E.
    + apply last_attr_elem in E as (kv & Hin & Hk & _).
      destruct (admitted_candidate _ _ k kv Hc Hin Hk) as [_ Hn]. rewrite Hp in Hn.
      rewrite (proj2 (last_attr_None k (id_layer layers))), (proj2 (last_attr_None k (ly_configured layers))) by tauto. done.
    + destruct (last_attr k (id_layer layers)); [done|]. destruct (last_attr k (ly_configured layers)); [done|].
      by destruct (lookup_attr k (ly_defaults layers)).
Qed.

(** What a leaf's Resource is, key by key: its id, else the operator's
    configured value, else the last admitted value of the leaf's own declaration,
    else the fleet default, and [unknown_service] for a service name nobody gave;
    the admitted attributes are a subsequence of the declared ones, none reserved
    for the wire contract and none overriding a configured key or the id; and the
    drop count is the number of remaining such attributes. *)
Theorem leaf_resource_layers layers :
  ∃ admitted, admitted `sublist_of` ly_declared layers
    ∧ (∀ kv, kv ∈ admitted → IsReserved (kv_key kv) = false
         ∧ kv_key kv ∉ kv_key <$> ly_configured layers ∧ kv_key kv ∉ kv_key <$> id_layer layers)
    ∧ (∀ k, lookup_attr k (m_attributes (fst (ResolveLeafResource layers))) = layered layers admitted k)
    ∧ snd (ResolveLeafResource layers)
      = size (List.filter (candidate (fst (ChargeFixedLayers layers))) (ly_declared layers)) - size admitted.
Proof.
  exists (admitted_of layers). destruct (admitted_spec layers) as (_ & H1 & H2 & H3).
  split; [done|]. split; [|split; [apply resolve_lookup|done]].
  intros kv Hin. destruct (admitted_candidate _ _ _ kv H2 Hin eq_refl) as [Hr Hn]. split; [done|].
  destruct (ChargeFixedLayers_spec layers) as [_ Hp]. rewrite Hp in Hn. tauto.
Qed.

(** The budget holds.  The running byte count kept while attributes are
    admitted is exactly the size of the merged Resource, and that size is within
    the budget, or where the operator's own layers already exceed it, no more than
    they are: nothing a leaf declares can push its Resource over. *)
Theorem leaf_resource_budget layers :
  NoDup (kv_key <$> ly_defaults layers) →
  let pinned := fst (ChargeFixedLayers layers) in
  let '(admitted, account, dropped) :=
    AdmitDeclared (ly_declared layers) pinned (ly_budget layers) (snd (ChargeFixedLayers layers)) 0 in
  let resolved := m_attributes (fst (ResolveLeafResource layers)) in
  let operator_only := m_attributes (fst (ResolveLeafResource (with_layers [] (ly_configured layers) layers))) in
  b_total account = resource_bytes resolved
  ∧ resource_bytes resolved <= Z.max (ly_budget layers) (resource_bytes operator_only).
Proof.
  intros Hd pinned. destruct (ChargeFixedLayers_spec layers) as [Ha _].
  pose proof (resolve_bytes layers Hd) as Hb. pose proof (resolve_bytes (with_layers [] (ly_configured layers) layers) Hd) as Hb0.
  pose proof (admitted_spec layers) as (Hle & _). unfold admitted_of in Hb, Hle.
  destruct (ChargeFixedLayers layers) as [p b] eqn:Ec. cbn [fst snd] in *. subst pinned.
  destruct (AdmitDeclared _ _ _ _ _) as [[adm b'] d] eqn:E. cbn [fst] in *.
  destruct (AdmitDeclared_spec _ _ _ _ _ _ _ _ _ Ha E) as (H1 & _). cbn zeta. rewrite Hb.
  split; [apply H1|]. rewrite Hb0.
  assert (admitted_of (with_layers [] (ly_configured layers) layers) = []) as ->.
  { unfold admitted_of. by destruct (ChargeFixedLayers _). }
  exact Hle.
Qed.

Definition demo_layers (budget : Z) : LeafResourceLayers :=
  mkLayers [mkKeyValue $"fleet" (AvString $"eu")]
    [mkKeyValue $"microtel.leaf.proto" (AvInt 1); mkKeyValue $"fw" (AvString $"1.2"); mkKeyValue $"site" (AvString $"x");
     mkKeyValue $"blob" (AvString $"0123456789"); mkKeyValue $"device.id" (AvString $"spoof")]
    [mkKeyValue $"site" (AvString $"berlin")] $"device.id" $"leaf-7" budget.
Lemma leaf_resource_budget_witness :
  let resolved := m_attributes (fst (ResolveLeafResource (demo_layers 70))) in
  resource_bytes resolved = 64 ∧ snd (ResolveLeafResource (demo_layers 70)) = 1
  ∧ resource_bytes resolved <= Z.max 70 (resource_bytes (m_attributes (fst (ResolveLeafResource
      (with_layers [] (ly_configured (demo_layers 70)) (demo_layers 70)))))).
Proof.
  split; [vm_compute; reflexivity|]. split; [vm_compute; reflexivity|].
  pose proof (leaf_resource_budget (demo_layers 70) (NoDup_singleton _)) as H. cbv zeta in H. revert H.
  destruct (AdmitDeclared (ly_declared (demo_layers 70)) (fst (ChargeFixedLayers (demo_layers 70)))
    (ly_budget (demo_layers 70)) (snd (ChargeFixedLayers (demo_layers 70))) 0) as [[adm b] d].
  intros [_ H]. exact H.
Defined.

(** ** A resolver's answer *)

Definition answerable (fixed : LeafResourceLayers) (kv : KeyValue) : bool :=
  negb (IsReserved (kv_key kv) || (negb (is_empty (ly_id_key fixed)) && (kv_key kv =s ly_id_key fixed))).

Lemma merge_answer_spec answer fixed configured b dropped l :
  accounts b l →
  ∃ kept b', merge_answer answer fixed configured b dropped
      = (fold_left merge_one kept configured, dropped + (size (List.filter (answerable fixed) answer) - size kept))
    ∧ kept `sublist_of` answer ∧ forallb (answerable fixed) kept = true
    ∧ accounts b' (fold_left merge_one kept l) ∧ b_total b' <= Z.max (ly_budget fixed) (b_total b).
Proof.
  revert configured b dropped l. induction answer as [|kv rest IH]; intros configured b dropped l Ha; cbn [merge_answer].
  { exists [], b. cbn. split_and!; [|done|done|done|lia]. f_equal. change (size []) with 0. lia. }
  assert (answerable fixed kv = negb (IsReserved (kv_key kv) || (negb (is_empty (ly_id_key fixed)) && (kv_key kv =s ly_id_key fixed)))) as Hc by done.
  cbn [List.filter]. rewrite Hc. destruct (IsReserved _ || _) eqn:E1; cbn [negb].
  { destruct (IH configured b dropped l Ha) as (kept & b' & H1 & H2 & H3 & H4 & H5). exists kept, b'.
    split_and!; [done|by constructor|done..]. }
  rewrite size_cons. destruct (ly_budget fixed <? _) eqn:E2.
  { destruct (IH configured b (dropped + 1) l Ha) as (kept & b' & H1 & H2 & H3 & H4 & H5). exists kept, b'.
    split_and!; [rewrite H1; f_equal; lia|by constructor|done..]. }
  destruct (IH (merge_one configured kv) (charge b kv) dropped (merge_one l kv) (accounts_charge b l kv Ha))
    as (kept & b' & H1 & H2 & H3 & H4 & H5).
  exists (kv :: kept), b'. cbn [fold_left forallb]. bool_hyps. cbn [charge Budget_Set b_total] in H5.
  split_and!; [rewrite H1, size_cons; f_equal; lia|by constructor|by rewrite Hc, H3|done|lia].
Qed.

(** A resolver's answer is merged over the configured Resource key by key, without
    its reserved and id keys, and never takes the operator's layers over the budget:
    they cost no more than the budget, or than they did before. *)
Theorem resolver_answer_spec configured answer fixed :
  NoDup (kv_key <$> ly_defaults fixed) → NoDup (kv_key <$> configured) →
  let '(merged, dropped) := MergeResolverResource configured answer fixed in
  ∃ kept, kept `sublist_of` answer ∧ forallb (answerable fixed) kept = true
    ∧ (∀ k, lookup_attr k merged = match last_attr k kept with Some v => Some v | None => lookup_attr k configured end)
    ∧ NoDup (kv_key <$> merged)
    ∧ dropped = size (List.filter (answerable fixed) answer) - size kept
    ∧ resource_bytes (fixed_layers (with_layers [] merged fixed))
      <= Z.max (ly_budget fixed) (resource_bytes (fixed_layers (with_layers [] configured fixed))).
Proof.
  intros Hd Hc. unfold MergeResolverResource. destruct (ChargeFixedLayers_spec (with_layers [] configured fixed)) as [Ha _].
  destruct (merge_answer_spec answer fixed configured _ 0 _ Ha) as (kept & b' & -> & H2 & H3 & H4 & H5).
  exists kept. split; [done|]. split; [done|]. split; [intros k; apply merge_fold_lookup|].
  split; [by apply merge_fold_keys|]. split; [lia|]. rewrite (ac_total _ _ H4), (ac_total _ _ Ha) in H5.
  etrans; [|exact H5]. apply Z.eq_le_incl, same_lookup_bytes.
  - apply add_service_keys, merge_fold_keys. constructor.
  - apply merge_fold_keys, Ha.
  - intros k. rewrite merge_fold_lookup. unfold fixed_layers. rewrite !add_service_lookup, !merge_fold_lookup, !last_attr_app.
    cbn [ly_defaults ly_configured with_layers]. change (id_layer (with_layers [] _ fixed)) with (id_layer fixed).
    rewrite (last_attr_NoDup k (fold_left _ _ _)), merge_fold_lookup, (last_attr_NoDup k configured) by (done || by apply merge_fold_keys).
    destruct (last_attr k kept) as [v|] eqn:E; [|done].
    assert (last_attr k (id_layer fixed) = None) as ->; [|done].
    apply last_attr_elem in E as (kv & Hin & <- & _). pose proof (forallb_elem _ _ _ H3 Hin) as Hk. unfold answerable in Hk.
    apply last_attr_None. unfold id_layer. destruct (is_empty (ly_id_key fixed)); [apply not_elem_of_nil|]. cbn.
    rewrite list_elem_of_singleton. bool_hyps. by apply seqb_false.
Qed.

Lemma resolver_answer_spec_witness :
  MergeResolverResource [mkKeyValue $"site" (AvString $"x")] [mkKeyValue $"site" (AvString $"berlin"); mkKeyValue $"device.id" (AvInt 3)]
    (demo_layers 70) = ([mkKeyValue $"site" (AvString $"berlin")], 0)
  ∧ resource_bytes (fixed_layers (with_layers [] [mkKeyValue $"site" (AvString $"berlin")] (demo_layers 70))) <= 70.
Proof.
  split; [vm_compute; reflexivity|].
  pose proof (resolver_answer_spec [mkKeyValue $"site" (AvString $"x")]
    [mkKeyValue $"site" (AvString $"berlin"); mkKeyValue $"device.id" (AvInt 3)] (demo_layers 70)
    (NoDup_singleton _) (NoDup_singleton _)) as H.
  destruct (MergeResolverResource _ _ _) as [m d] eqn:E. vm_compute in E. injection E as <- <-.
  destruct H as (kept & _ & _ & _ & _ & _ & H). etrans; [exact H|]. vm_compute. congruence.
Defined.

(** ** The wire header *)

Lemma fill_declared i s v : wi_declared (fill i s v) = wi_declared i.
Proof. by destruct i, s. Qed.
Lemma read_declared i kv : wi_declared (read_one i kv) = wi_declared i || IsReserved (kv_key kv).
Proof.
  unfold read_one. destruct (IsReserved (kv_key kv)); cbn [negb]; [|by rewrite orb_false_r]. rewrite orb_true_r.
  destruct (SlotFor (kv_key kv)); [|done]. destruct (kv_value kv); cbv zeta; by rewrite ?fill_declared.
Qed.

(** The header checks: [Unix] is inferred exactly from the absence of every
    reserved key, never read from the wire; an accepted mode has the attributes it
    needs; a sender configured for one mode gets that mode or concentrator stamping
    and nothing else; and the declared hash ignores the reserved keys. *)
Theorem wire_header_spec resource mode :
  CheckWireInfo (ReadWireInfo resource) = Some mode →
  let info := ReadWireInfo resource in
  (mode = ModeUnix ↔ existsb (IsReserved ∘ kv_key) resource = false)
  ∧ (mode = ModeSyncRelative → is_Some (wi_encode_time info) ∧ is_Some (wi_sync_age info))
  ∧ (mode = ModeBootRelative → is_Some (wi_encode_time info) ∧ is_Some (wi_boot_id info))
  ∧ (mode ≠ ModeUnix → wi_proto info = Some kLeafProtoVersion ∧ wi_wrong_type info = false)
  ∧ (∀ c, TimeModeAllowed mode (Some c) = true ↔ mode = c ∨ (mode = ModeConcentratorStamped))
  ∧ HashDeclaredResource resource = HashDeclaredResource (List.filter (negb ∘ IsReserved ∘ kv_key) resource).
Proof.
  intros Hc info. assert (wi_declared info = existsb (IsReserved ∘ kv_key) resource) as Hd.
  { unfold info, ReadWireInfo. clear Hc info. change (existsb (IsReserved ∘ kv_key) resource)
      with (wi_declared LeafWireInfo_new || existsb (IsReserved ∘ kv_key) resource).
    generalize LeafWireInfo_new. induction resource as [|kv l IH]; intros i; cbn; [by rewrite orb_false_r|].
    rewrite IH, read_declared. by rewrite orb_assoc. }
  rewrite <- Hd. fold info in Hc. unfold CheckWireInfo in Hc.
  assert (HashDeclaredResource resource = HashDeclaredResource (List.filter (negb ∘ IsReserved ∘ kv_key) resource)) as Hh.
  { unfold HashDeclaredResource. generalize kFnvOffset. clear. induction resource as [|kv l IH]; intros h; [done|]. cbn.
    destruct (IsReserved (kv_key kv)) eqn:E; cbn; [apply IH|]. rewrite E. apply IH. }
  assert (∀ c, TimeModeAllowed mode (Some c) = true ↔ mode = c ∨ mode = ModeConcentratorStamped) as Ht
    by (intros c; destruct mode, c; vm_compute; intuition congruence).
  destruct (wi_declared info) eqn:Ed; cbn [negb] in Hc; [|injection Hc as <-; by split_and!].
  destruct (wi_wrong_type info || _) eqn:E; [done|]. bool_hyps.
  destruct (wi_time_mode info) as [m|]; [|done].
  destruct (m =? 0); [injection Hc as <-; by split_and!|].
  destruct (m =? 1).
  { destruct (bool_decide _ && _) eqn:E1; [|done]. bool_hyps. injection Hc as <-. by split_and!. }
  destruct (m =? 2); [|done]. destruct (bool_decide _ && _) eqn:E1; [|done]. bool_hyps. injection Hc as <-. by split_and!.
Qed.
Lemma wire_header_spec_witness :
  let r := [mkKeyValue $"microtel.leaf.proto" (AvInt 1); mkKeyValue $"microtel.leaf.time_mode" (AvInt 2);
            mkKeyValue $"microtel.leaf.encode_time" (AvInt 5); mkKeyValue $"microtel.leaf.boot_id" (AvInt 9)] in
  CheckWireInfo (ReadWireInfo r) = Some ModeBootRelative ∧ is_Some (wi_boot_id (ReadWireInfo r)).
Proof.
  split; [vm_compute; reflexivity|].
  apply (wire_header_spec [mkKeyValue $"microtel.leaf.proto" (AvInt 1); mkKeyValue $"microtel.leaf.time_mode" (AvInt 2);
            mkKeyValue $"microtel.leaf.encode_time" (AvInt 5); mkKeyValue $"microtel.leaf.boot_id" (AvInt 9)] ModeBootRelative);
    vm_compute; reflexivity.
Defined.

(** Merging and the placeholder add at most what they carry. *)
Lemma value_bytes_nonneg v : 0 <= ValueBytes v.
Proof.
  unfold ValueBytes, kScalarBytes. destruct v as [| | |s|l|l|l|l]; try lia.
  - apply size_nonneg.
  - pose proof (size_nonneg l). lia.
  - pose proof (size_nonneg l). lia.
  - pose proof (size_nonneg l). lia.
  - apply zsum_nonneg. intros. apply size_nonneg.
Qed.
Lemma attribute_bytes_nonneg kv : 0 <= AttributeBytes kv.
Proof. unfold AttributeBytes. pose proof (size_nonneg (kv_key kv)). pose proof (value_bytes_nonneg (kv_value kv)). lia. Qed.
Lemma bytes_merge_fold over l : resource_bytes (fold_left merge_one over l) <= resource_bytes l + resource_bytes over.
Proof.
  revert l. induction over as [|kv over IH]; intros l; cbn [fold_left]; [unfold resource_bytes at 3; cbn; lia|].
  etrans; [apply IH|]. rewrite bytes_merge_one.
  assert (resource_bytes (kv :: over) = AttributeBytes kv + resource_bytes over) as -> by done.
  pose proof (attribute_bytes_nonneg kv). unfold AttributeBytes in *. pose proof (size_nonneg (kv_key kv)).
  destruct (lookup_attr _ l) as [v|]; [pose proof (value_bytes_nonneg v)|]; lia.
Qed.
Lemma bytes_add_service l : resource_bytes (add_service l) <= resource_bytes l + AttributeBytes service_placeholder.
Proof.
  unfold add_service. pose proof (attribute_bytes_nonneg service_placeholder). destruct (has_key _ _ l); [lia|].
  pose proof (bytes_merge_fold [service_placeholder] l) as H1. cbn [fold_left] in H1.
  unfold resource_bytes in *. rewrite zsum_cons in H1. cbn in H1. lia.
Qed.
