(* ===== verification/LeafOptions.v ===== *)
(** * Leaf receiver options

    Model of [LeafReceiverOptions] and [LeafConfig]
    ([include/microtel/leaf_receiver.hpp]) and of their validation at [Build()],
    [src/sdk/leaf_options.cpp].  Durations are seconds.

    The theorem: validation accepts exactly the documented options and otherwise
    names a field; what it accepts bounds the operator's layers of every leaf's
    Resource. *)
From stdpp Require Import gmap.
From S2P Require Import Prelude Context Data AttributeSet SpanLimits LeafTime LeafResource.

Record LeafConfig := mkLeafConfig { lc_time_mode : option LeafTimeMode; lc_resource : list KeyValue }.
Inductive UnknownLeafPolicy := AcceptUnknown | RejectUnknown.
Record LeafReceiverOptions := mkLeafReceiverOptions {
  enabled : bool;
  max_payload_bytes : Z;
  max_spans_per_payload : Z;
  max_leaves : Z;
  max_leaf_resource_bytes : Z;
  leaf_idle_timeout : Z;
  unknown_leaf : UnknownLeafPolicy;
  leaf_id_attribute : str;
  default_time_mode : option LeafTimeMode;
  lo_max_sync_age : Z;
  lo_max_clock_skew : Z;
  boot_anchor_window : Z;
  leaf_defaults_resource : list KeyValue;
  leaves : list (str * LeafConfig);
  max_node_resource_bytes : Z
}.

(** [ConfigError] of kind [InvalidValue]. *)
Record ConfigError := mkConfigError { ce_field : str; ce_message : str }.

(** [Bytes]. *)
Definition Bytes (attributes : list KeyValue) : Z := zsum AttributeBytes attributes.

(** [CheckKeys]. *)
Fixpoint CheckKeys (resource : list KeyValue) (field id_key : str) : option ConfigError :=
  match resource with
  | [] => None
  | kv :: rest =>
      if starts_with (kv_key kv) kLeafReservedPrefix
      then Some (mkConfigError field
             ($"'" ++ kv_key kv ++ $"' is reserved for the leaf wire contract and cannot be configured"))
      else if negb (is_empty id_key) && (kv_key kv =s id_key)
      then Some (mkConfigError field
             ($"'" ++ kv_key kv ++ $"' is the leaf_id_attribute; the leaf id always overrides it, so configuring it could never take effect"))
      else CheckKeys rest field id_key
  end.

Definition must_be_positive : str := $"must be greater than zero".
Fixpoint check_durations (l : list (str * Z)) : option ConfigError :=
  match l with
  | [] => None
  | (field, value) :: rest => if value <=? 0 then Some (mkConfigError field must_be_positive) else check_durations rest
  end.
(** [CheckLimits]. *)
Definition CheckLimits (o : LeafReceiverOptions) : option ConfigError :=
  if max_payload_bytes o =? 0 then Some (mkConfigError $"concentrator.max_payload_bytes" must_be_positive)
  else if max_spans_per_payload o =? 0 then Some (mkConfigError $"concentrator.max_spans_per_payload" must_be_positive)
  else if max_leaves o =? 0 then Some (mkConfigError $"concentrator.max_leaves" must_be_positive)
  else check_durations
    [($"concentrator.leaf_idle_timeout", leaf_idle_timeout o); ($"concentrator.max_sync_age", lo_max_sync_age o);
     ($"concentrator.max_clock_skew", lo_max_clock_skew o); ($"concentrator.boot_anchor_window", boot_anchor_window o)].

(** [BudgetFor]: the bytes and the setting that sets them. *)
Definition BudgetFor (o : LeafReceiverOptions) (mode : option LeafTimeMode) : Z * str :=
  if bool_decide (mode = Some ModeUnix) then (max_node_resource_bytes o, $"max_node_resource_bytes")
  else (max_leaf_resource_bytes o, $"max_leaf_resource_bytes").
Definition effective_mode (o : LeafReceiverOptions) (leaf : option LeafTimeMode) : option LeafTimeMode :=
  match leaf with Some m => Some m | None => default_time_mode o end.

(** [CheckLeaf]. *)
Definition CheckLeaf (o : LeafReceiverOptions) (id : str) (leaf : LeafConfig) : option ConfigError :=
  if is_empty id || (kMaxLeafIdBytes <? size id)
  then Some (mkConfigError $"concentrator.leaves" ($"a leaf id must be 1 to " ++ decimal kMaxLeafIdBytes ++ $" bytes long"))
  else
    let field := $"concentrator.leaves." ++ id ++ $".resource" in
    match CheckKeys (lc_resource leaf) field (leaf_id_attribute o) with
    | Some err => Some err
    | None =>
        let merged := Merge (mkResource (leaf_defaults_resource o)) (mkResource (lc_resource leaf)) in
        let '(bytes, setting) := BudgetFor o (effective_mode o (lc_time_mode leaf)) in
        if bytes <? Bytes (m_attributes merged)
        then Some (mkConfigError field ($"the leaf's configured Resource exceeds " ++ setting)) else None
    end.

Fixpoint check_leaves (o : LeafReceiverOptions) (l : list (str * LeafConfig)) : option ConfigError :=
  match l with
  | [] => None
  | (id, leaf) :: rest => match CheckLeaf o id leaf with Some err => Some err | None => check_leaves o rest end
  end.

(** [ValidateLeafReceiverOptions]: [None] accepts. *)
Definition ValidateLeafReceiverOptions (o : LeafReceiverOptions) : option ConfigError :=
  if negb (enabled o) then None
  else match CheckLimits o with
  | Some err => Some err
  | None =>
      let defaults_field := $"concentrator.leaf_defaults.resource" in
      match CheckKeys (leaf_defaults_resource o) defaults_field (leaf_id_attribute o) with
      | Some err => Some err
      | None =>
          let '(bytes, setting) := BudgetFor o (default_time_mode o) in
          if bytes <? Bytes (leaf_defaults_resource o)
          then Some (mkConfigError defaults_field ($"leaf_defaults.resource exceeds " ++ setting))
          else check_leaves o (leaves o)
      end
  end.

(** ** The documented options *)

Definition key_allowed (o : LeafReceiverOptions) (kv : KeyValue) : Prop :=
  IsReserved (kv_key kv) = false ∧ (leaf_id_attribute o ≠ [] → kv_key kv ≠ leaf_id_attribute o).
Definition leaf_allowed (o : LeafReceiverOptions) (p : str * LeafConfig) : Prop :=
  1 <= size (fst p) <= kMaxLeafIdBytes ∧ Forall (key_allowed o) (lc_resource (snd p))
  ∧ resource_bytes (m_attributes (Merge (mkResource (leaf_defaults_resource o)) (mkResource (lc_resource (snd p)))))
    <= fst (BudgetFor o (effective_mode o (lc_time_mode (snd p)))).
Record options_allowed (o : LeafReceiverOptions) : Prop := {
  oa_limits : max_payload_bytes o ≠ 0 ∧ max_spans_per_payload o ≠ 0 ∧ max_leaves o ≠ 0;
  oa_durations : 0 < leaf_idle_timeout o ∧ 0 < lo_max_sync_age o ∧ 0 < lo_max_clock_skew o ∧ 0 < boot_anchor_window o;
  oa_defaults : Forall (key_allowed o) (leaf_defaults_resource o);
  oa_defaults_fit : resource_bytes (leaf_defaults_resource o) <= fst (BudgetFor o (default_time_mode o));
  oa_leaves : Forall (leaf_allowed o) (leaves o)
}.

Lemma CheckKeys_spec o l field : CheckKeys l field (leaf_id_attribute o) = None ↔ Forall (key_allowed o) l.
Proof.
  induction l as [|kv l IH]; cbn [CheckKeys]; [split; [constructor|done]|].
  rewrite Forall_cons, <- IH. unfold key_allowed, IsReserved. destruct (starts_with _ _) eqn:E1; [split; [done|intros [[? _] _]; done]|].
  destruct (negb (is_empty _) && _) eqn:E2.
  - bool_hyps. apply seqb_true in H0. split; [done|]. intros [[_ Hn] _]. exfalso. apply Hn; [|done].
    intros Hnil. by rewrite Hnil in H.
  - split; [|tauto]. intros Hl. split; [|done]. split; [done|]. intros Hne Heq. apply andb_false_iff in E2 as [E2|E2].
    + by destruct (leaf_id_attribute o).
    + by apply seqb_false in E2.
Qed.

Lemma CheckLeaf_spec o id leaf : CheckLeaf o id leaf = None ↔ leaf_allowed o (id, leaf).
Proof.
  unfold CheckLeaf, leaf_allowed. cbn [fst snd].
  assert ((is_empty id || (kMaxLeafIdBytes <? size id)) = false ↔ 1 <= size id <= kMaxLeafIdBytes) as Hid.
  { unfold kMaxLeafIdBytes. rewrite orb_false_iff, Z.ltb_ge. destruct id as [|c id]; cbn; [change (size []) with 0; split; [by intros []|lia]|].
    rewrite size_cons. pose proof (size_nonneg id). split; [intros [_ ?]; lia|]. intros ?. split; [done|lia]. }
  destruct (is_empty id || _); [split; [done|intros [H _]; by apply Hid in H]|].
  destruct (CheckKeys _ _ _) as [err|] eqn:Ek.
  { split; [done|]. intros (_ & Hk & _). apply (CheckKeys_spec o _ ($"concentrator.leaves." ++ id ++ $".resource")) in Hk. congruence. }
  apply CheckKeys_spec in Ek. cbv zeta. destruct (BudgetFor _ _) as [bytes setting]. cbn [fst].
  change (Bytes ?l) with (resource_bytes l). destruct (bytes <? _) eqn:Eb; bool_hyps.
  - split; [done|]. intros (_ & _ & Hle). lia.
  - split; [|done]. intros _. split; [by apply Hid|done].
Qed.
Lemma check_leaves_spec o l : check_leaves o l = None ↔ Forall (leaf_allowed o) l.
Proof.
  induction l as [|[id leaf] l IH]; cbn [check_leaves]; [split; [constructor|done]|].
  rewrite Forall_cons, <- IH, <- CheckLeaf_spec. destruct (CheckLeaf o id leaf); [split; [done|by intros []]|tauto].
Qed.
Lemma CheckLimits_spec o : CheckLimits o = None ↔
  (max_payload_bytes o ≠ 0 ∧ max_spans_per_payload o ≠ 0 ∧ max_leaves o ≠ 0)
  ∧ (0 < leaf_idle_timeout o ∧ 0 < lo_max_sync_age o ∧ 0 < lo_max_clock_skew o ∧ 0 < boot_anchor_window o).
Proof.
  unfold CheckLimits. cbn [check_durations].
  repeat match goal with |- context [if ?b then _ else _] => destruct b eqn:? end; bool_hyps; split; try done; lia.
Qed.

(** Validation is exact.  Enabled options pass exactly when every limit and
    duration is positive, no configured key is reserved or the id key, every leaf id
    has 1 to 128 bytes and the configured layers of every leaf fit the budget of its
    effective time mode.  Then, for every configured leaf, what the operator's
    layers cost is the budget plus at most the id attribute and the
    [unknown_service] placeholder, which validation does not count; and no
    configured key is one the wire contract reserves. *)
Theorem leaf_options_validation o :
  enabled o = true →
  (ValidateLeafReceiverOptions o = None ↔ options_allowed o)
  ∧ (ValidateLeafReceiverOptions o = None → NoDup (kv_key <$> leaf_defaults_resource o) →
     ∀ id leaf declared, (id, leaf) ∈ leaves o →
       let budget := fst (BudgetFor o (effective_mode o (lc_time_mode leaf))) in
       let layers := mkLayers (leaf_defaults_resource o) declared (lc_resource leaf) (leaf_id_attribute o) id budget in
       resource_bytes (fixed_layers layers)
         <= budget + resource_bytes (id_layer layers) + AttributeBytes service_placeholder
       ∧ (IsReserved (leaf_id_attribute o) = false →
          ∀ k, IsReserved k = true → lookup_attr k (m_attributes (fst (ResolveLeafResource layers))) = None)).
Proof.
  intros He. assert (ValidateLeafReceiverOptions o = None ↔ options_allowed o) as Hv.
  { unfold ValidateLeafReceiverOptions. rewrite He. cbn [negb]. pose proof (CheckLimits_spec o) as Hl.
    destruct (CheckLimits o) as [c|]; [split; [discriminate|]; intros [H1 H2 _ _ _]; exfalso; by assert (Some c = None) by tauto|].
    destruct Hl as [Hl _]. destruct (Hl eq_refl) as [H1 H2]. clear Hl.
    destruct (CheckKeys _ _ _) as [err|] eqn:Ek.
    { split; [done|]. intros [_ _ Hk _ _]. apply (CheckKeys_spec o _ ($"concentrator.leaf_defaults.resource")) in Hk. congruence. }
    apply CheckKeys_spec in Ek. cbv zeta. change (Bytes ?l) with (resource_bytes l). destruct (BudgetFor o (default_time_mode o)) as [bytes setting] eqn:Eb.
    destruct (bytes <? _) eqn:Ef; bool_hyps.
    - split; [done|]. intros [_ _ _ Hf _]. rewrite Eb in Hf. cbn in Hf. lia.
    - rewrite check_leaves_spec. split; [intros H; split; try done; by rewrite Eb|by intros []]. }
  split; [done|]. intros Hok Hd id leaf declared Hin budget layers. apply Hv in Hok. destruct Hok as [_ _ Hdef _ Hleaves].
  rewrite Forall_forall in Hleaves. destruct (Hleaves _ Hin) as (_ & Hkeys & Hfit). cbn [fst snd] in *. fold budget in Hfit. split.
  - unfold fixed_layers. rewrite app_assoc, fold_left_app. cbn [ly_defaults ly_configured layers].
    set (base := fold_left merge_one (leaf_defaults_resource o ++ lc_resource leaf) []).
    assert (resource_bytes base <= budget) as Hb.
    { etrans; [|exact Hfit]. apply Z.eq_le_incl, same_lookup_bytes; [apply merge_fold_keys; constructor|by apply merge_fold_keys|].
      intros k. cbn [m_attributes Merge]. unfold base. rewrite !merge_fold_lookup, last_attr_app, (last_attr_NoDup k _ Hd).
      destruct (last_attr k (lc_resource leaf)); [done|]. by destruct (lookup_attr k (leaf_defaults_resource o)). }
    pose proof (bytes_add_service (fold_left merge_one (id_layer layers) base)). pose proof (bytes_merge_fold (id_layer layers) base). lia.
  - intros Hid k Hk. rewrite resolve_lookup. unfold layered. rewrite Forall_forall in Hkeys, Hdef.
    assert (last_attr k (id_layer layers) = None) as ->.
    { apply last_attr_None. unfold id_layer. cbn [ly_id_key layers]. destruct (is_empty _); [apply not_elem_of_nil|].
      cbn. intros ->%list_elem_of_singleton. congruence. }
    assert (last_attr k (lc_resource leaf) = None) as Hc.
    { apply last_attr_None. intros (kv & -> & Hkv)%list_elem_of_fmap. destruct (Hkeys _ Hkv) as [Hr _]. congruence. }
    cbn [ly_configured ly_defaults layers]. rewrite Hc. destruct (admitted_spec layers) as (_ & _ & Hcand & _).
    assert (last_attr k (admitted_of layers) = None) as ->.
    { apply last_attr_None. intros (kv & -> & Hkv)%list_elem_of_fmap.
      destruct (admitted_candidate _ _ _ kv Hcand Hkv eq_refl) as [Hr _]. congruence. }
    assert (lookup_attr k (leaf_defaults_resource o) = None) as ->.
    { apply lookup_attr_None. intros (kv & -> & Hkv)%list_elem_of_fmap. destruct (Hdef _ Hkv) as [Hr _]. congruence. }
    destruct (kServiceNameKey =s k) eqn:Es; [|done]. apply seqb_true in Es as <-. vm_compute in Hk. done.
Qed.

Definition demo_leaf_options : LeafReceiverOptions :=
  mkLeafReceiverOptions true 65536 512 1024 2048 3600 RejectUnknown $"device.id" None 3600 300 600
    [mkKeyValue $"fleet" (AvString $"eu")] [($"leaf-7", mkLeafConfig None [mkKeyValue $"site" (AvString $"berlin")])] 16384.
Lemma leaf_options_validation_witness :
  ValidateLeafReceiverOptions demo_leaf_options = None
  ∧ resource_bytes (fixed_layers (mkLayers (leaf_defaults_resource demo_leaf_options) []
      [mkKeyValue $"site" (AvString $"berlin")] $"device.id" $"leaf-7" 2048)) <= 2048 + 15 + 27.
Proof.
  split; [vm_compute; reflexivity|].
  destruct (leaf_options_validation demo_leaf_options eq_refl) as [_ H].
  destruct (H ltac:(vm_compute; reflexivity) (NoDup_singleton _) $"leaf-7"
    (mkLeafConfig None [mkKeyValue $"site" (AvString $"berlin")]) []) as [H1 _].
  - left.
  - exact H1.
Defined.
