(* ===== verification/LeafReceiver.v ===== *)
(** * The leaf receiver

    Model of [src/sdk/leaf_receiver.cpp] and [leaf_receiver.hpp]: [Ingest] with its
    whole pipeline (size limits, decode, validation, leaf identity, settings,
    resource resolution, time correction, span limits, sampling, enqueue), the
    counters and shutdown.  A computation is a tree of atomic steps on the receiver's
    state ([M]): it returns a value, throws [std::bad_alloc] ([Threw]), ends the process
    ([Terminate]: an exception leaves a [noexcept] function), or takes its next step.
    [run] takes all of them with nothing in between; [LeafThreads] interleaves them with
    the steps of other calls.

    The decoder, the resolver, the clocks and the memory allocator are parameters:
    the resolver may answer or throw differently at every call, and the [n]-th fallible
    allocation step succeeds when [alloc n] says so.  One that fails inside [EnqueueSpan]
    or [LogImpl], which are [noexcept], ends the process; one that fails while a sampler's
    attribute is copied drops the attribute in the code, which is not modelled.
    A Resource is an index into [heap]; the log and the calls of the diagnostics sink
    and of the processor are recorded in order.

    The theorems, about calls that run one at a time: every call returns or ends the
    process in one of two known ways; it is counted once, its result adds up, a refused payload leaves
    no trace but its count; every span handed on is valid, sampled, within the limits, in
    range and carries the Resource of its own leaf; unknown leaves never displace known
    ones. *)
From stdpp Require Import gmap.
From S2P Require Import Prelude Trace TraceState Context Data AttributeSet SpanLimits BatchWorker SpanProcessor.
From S2P Require Import Double Sampler LeafTime IndexedList LeafTable LeafResource LeafOptions.

(** ** What the receiver is given *)

Inductive IngestStatus := Accepted | PartiallyAccepted | Malformed | TooLarge | UnknownLeaf | ShutDown | Disabled | OutOfMemory.
#[export] Instance IngestStatus_eq_dec : EqDecision IngestStatus.
Proof. solve_decision. Defined.
Record IngestResult := mkIngestResult {
  status : IngestStatus; spans_accepted : Z; spans_sampled_out : Z; spans_dropped : Z }.
Record IngestRequest := mkIngestRequest { rq_leaf_id : str; rq_payload : str; rq_received_at : option Z }.

Record DecodeLimits := mkDecodeLimits { dl_max_spans : Z; dl_max_depth : Z; dl_max_arena_bytes : Z }.
Inductive DecodeFailure := DecodeMalformed | DecodeTooLarge.
Record DecodedScopeSpans := mkDecodedScopeSpans { ds_scope : InstrumentationScope; ds_spans : list SpanRecord }.
Record DecodedResourceSpans := mkDecodedResourceSpans {
  rs_resource : list KeyValue;
  rs_scopes : list DecodedScopeSpans;
  rs_dropped_span_attributes : Z;
  rs_dropped_resource_attributes : Z
}.

(** One call of the resolver. *)
Inductive ResolverAnswer :=
| Answers (a : option LeafConfig) | ThrewBadAlloc | ThrewException (what : str) | ThrewForeign.

(** Where accepted spans go: a processor, and whether it says it took the span. *)
Class SpanSink (K : Type) := sink_offer : K → SpanRecord * InstrumentationScope → K * bool.
(** [processor->OnEnd]: whatever happens there, the span counts as accepted. *)
Definition plain_sink {K} (on_end : K → SpanRecord * InstrumentationScope → K) : SpanSink K :=
  λ k x, (on_end k x, true).
(** [batch_processor->Enqueue]. *)
Definition batch_sink (limits : MemoryLimitOptions) : SpanSink (BatchWorker.State QueuedSpan Z) :=
  λ k x, let '(ok, k') := BatchWorker.Enqueue (Q:=SpanQueue (max_record_bytes limits) (max_total_queue_bytes limits)) k x in
         (k', ok).

Record LeafReceiverDeps := mkLeafReceiverDeps {
  d_sampler : Sampler;
  d_diagnostics : bool;
  d_span_limits : SpanLimitOptions;
  d_decode : str → DecodeLimits → DecodeFailure + list DecodedResourceSpans
}.
(** Outside the receiver: the resolver, if any, by the number of the call; the
    allocator, by the number of the step. *)
Record Environment := mkEnvironment {
  env_resolver : option (nat → str → ResolverAnswer);
  env_alloc : nat → bool
}.

Definition kDecodeMaxDepth : Z := 16.
Definition kArenaFactor : Z := 16.
Definition kArenaFloor : Z := 16 * 1024.
Definition kUnknownLeafCacheSize : Z := 256.
Definition kUnknownLeafTtl : Z := 60 * 1000000000.

(** ** State and effects *)

Inductive Counter :=
| payloads_accepted | payloads_rejected | leaf_reported_drops | payloads_out_of_memory
| resource_attributes_dropped | leaf_id_conflicts | time_fallbacks | payloads_post_shutdown.
#[export] Instance Counter_eq_dec : EqDecision Counter.
Proof. solve_decision. Defined.
Definition Counters := Counter → Z.
(** [fetch_add]. *)
Definition bump (c : Counter) (n : Z) (m : Counters) : Counters :=
  λ c', if decide (c' = c) then to_uint 64 (m c + n) else m c'.

Record Receiver (K : Type) := mkReceiver {
  m_table : LeafTable;
  m_unknown : UnknownLeafCache;
  m_counters : Counters;
  m_shut_down : bool;
  heap : list Resource;
  sink : K;
  offered : list (SpanRecord * InstrumentationScope * bool);
  drops : Drops;
  log : list str;
  result : IngestResult;
  asked : nat;
  allocs : nat
}.
Arguments mkReceiver {K}.
Arguments m_table {K}.
Arguments m_unknown {K}.
Arguments m_counters {K}.
Arguments m_shut_down {K}.
Arguments heap {K}.
Arguments sink {K}.
Arguments offered {K}.
Arguments drops {K}.
Arguments log {K}.
Arguments result {K}.
Arguments asked {K}.
Arguments allocs {K}.

Record Payload := mkPayload {
  p_decoded : list DecodedResourceSpans;
  p_modes : list LeafTimeMode;
  p_leaf_id : str;
  p_settings : option LeafSettings;
  p_received : Z;
  p_now : Z
}.

Section setters.
Context {K : Type}.
Definition set_table t (s : Receiver K) := mkReceiver t (m_unknown s) (m_counters s) (m_shut_down s) (heap s) (sink s) (offered s) (drops s) (log s) (result s) (asked s) (allocs s).
Definition set_unknown u (s : Receiver K) := mkReceiver (m_table s) u (m_counters s) (m_shut_down s) (heap s) (sink s) (offered s) (drops s) (log s) (result s) (asked s) (allocs s).
Definition set_counters c (s : Receiver K) := mkReceiver (m_table s) (m_unknown s) c (m_shut_down s) (heap s) (sink s) (offered s) (drops s) (log s) (result s) (asked s) (allocs s).
Definition set_shut_down b (s : Receiver K) := mkReceiver (m_table s) (m_unknown s) (m_counters s) b (heap s) (sink s) (offered s) (drops s) (log s) (result s) (asked s) (allocs s).
Definition add_resource r (s : Receiver K) := mkReceiver (m_table s) (m_unknown s) (m_counters s) (m_shut_down s) (heap s ++ [r]) (sink s) (offered s) (drops s) (log s) (result s) (asked s) (allocs s).
Definition set_sink (k : K) o (s : Receiver K) := mkReceiver (m_table s) (m_unknown s) (m_counters s) (m_shut_down s) (heap s) k (offered s ++ [o]) (drops s) (log s) (result s) (asked s) (allocs s).
Definition add_drops (d : Drops) (s : Receiver K) := mkReceiver (m_table s) (m_unknown s) (m_counters s) (m_shut_down s) (heap s) (sink s) (offered s) (drops s ++ d) (log s) (result s) (asked s) (allocs s).
Definition add_log line (s : Receiver K) := mkReceiver (m_table s) (m_unknown s) (m_counters s) (m_shut_down s) (heap s) (sink s) (offered s) (drops s) (log s ++ [line]) (result s) (asked s) (allocs s).
Definition set_result r (s : Receiver K) := mkReceiver (m_table s) (m_unknown s) (m_counters s) (m_shut_down s) (heap s) (sink s) (offered s) (drops s) (log s) r (asked s) (allocs s).
Definition next_question (s : Receiver K) := mkReceiver (m_table s) (m_unknown s) (m_counters s) (m_shut_down s) (heap s) (sink s) (offered s) (drops s) (log s) (result s) (S (asked s)) (allocs s).
Definition next_alloc (s : Receiver K) := mkReceiver (m_table s) (m_unknown s) (m_counters s) (m_shut_down s) (heap s) (sink s) (offered s) (drops s) (log s) (result s) (asked s) (S (allocs s)).
End setters.

(** Why [std::terminate] runs: call [n] of the resolver, for [id], threw what no handler
    catches, or allocation step [n] failed inside a [noexcept] function. *)
Inductive Death := ForeignThrow (n : nat) (id : str) | NoexceptAllocation (n : nat).
(** A computation on a receiver with sink [K], step by step: it has returned or thrown,
    it has ended the process, or its next step is an atomic action on the receiver as it then is, after
    which it goes on; an action that is [None] is undefined behaviour. *)
Inductive M (K A : Type) :=
| Ret (r : LeafTable.Result A)
| Terminate (d : Death)
| Step (f : Receiver K → option (Receiver K * M K A)).
Arguments Ret {K A}.
Arguments Terminate {K A}.
Arguments Step {K A}.
(** [try { a = m; f(a) } catch { handler }], where [handler] does not cover [f]. *)
Fixpoint try_with {K A B} (m : M K A) (f : A → M K B) (handler : M K B) : M K B :=
  match m with
  | Ret (Returned a) => f a
  | Ret Threw => handler
  | Terminate d => Terminate d
  | Step g => Step (λ s, match g s with
                         | Some (s', m') => Some (s', try_with m' f handler)
                         | None => None
                         end)
  end.
#[export] Instance M_ret {K} : MRet (M K) := λ A a, Ret (Returned a).
#[export] Instance M_bind {K} : MBind (M K) := λ A B f m, try_with m f (Ret Threw).

(** How a computation ends, and running one with no other in between. *)
Inductive Ending (A : Type) := Ends (r : LeafTable.Result A) | Terminated (d : Death).
Arguments Ends {A}.
Arguments Terminated {A}.
Fixpoint run {K A} (m : M K A) (s : Receiver K) : option (Receiver K * Ending A) :=
  match m with
  | Ret r => Some (s, Ends r)
  | Terminate d => Some (s, Terminated d)
  | Step f => match f s with Some (s', m') => run m' s' | None => None end
  end.

Section operations.
Context {K : Type} `{!SpanSink K}.
Context (m_options : LeafReceiverOptions) (m_deps : LeafReceiverDeps) (env : Environment).
Abbreviation M := (M K).

(** One atomic action. *)
Definition act {A} (f : Receiver K → option (Receiver K * LeafTable.Result A)) : M A :=
  Step (λ s, match f s with Some (s', r) => Some (s', Ret r) | None => None end).
Definition get {A} (f : Receiver K → A) : M A := act (λ s, Some (s, Returned (f s))).
Definition modify (f : Receiver K → Receiver K) : M unit := act (λ s, Some (f s, Returned tt)).
Definition undefined {A} : M A := act (λ _, None).
Definition throw {A} : M A := Ret Threw.
(** Whether the next fallible allocation step succeeds, and a step that throws. *)
Definition allocate : M bool := act (λ s, Some (next_alloc s, Returned (env_alloc env (allocs s)))).
Definition may_throw : M unit := ok ← allocate; if ok : bool then mret tt else throw.
(** An allocation step of a [noexcept] function. *)
Definition must_allocate : M unit := Step (λ s,
  Some (next_alloc s, if env_alloc env (allocs s) then Ret (Returned tt) else Terminate (NoexceptAllocation (allocs s)))).
Definition deref {A} (p : option A) : M A := match p with Some a => mret a | None => undefined end.
(** A method of the leaf table, or of the cache of unknown leaves, under its lock. *)
Definition table_op {A} (f : LeafTable → option (LeafTable * LeafTable.Result A)) : M A := act (λ s,
  match f (m_table s) with None => None | Some (t, r) => Some (set_table t s, r) end).
Definition unknown_op {A} (f : UnknownLeafCache → option (UnknownLeafCache * LeafTable.Result A)) : M A := act (λ s,
  match f (m_unknown s) with None => None | Some (u, r) => Some (set_unknown u s, r) end).
Definition no_throw {T A} (o : option (T * A)) : option (T * LeafTable.Result A) :=
  match o with Some (t, a) => Some (t, Returned a) | None => None end.
Definition add (c : Counter) (n : Z) : M unit := modify (λ s, set_counters (bump c n (m_counters s)) s).
(** [make_shared<const Resource>]. *)
Definition new_resource (r : Resource) : M ResourcePtr := act (λ s, Some (add_resource r s, Returned (length (heap s)))).
(** The number of the resolver's call. *)
Definition question : M nat := act (λ s, Some (next_question s, Returned (asked s))).
(** [LogImpl], which copies the sink first. *)
Definition LogImpl (line : str) : M unit := _ ← must_allocate; modify (add_log line).

(** [m_leaves]: a later entry for an id replaces an earlier one. *)
Definition m_leaves : gmap str LeafConfig := fold_left (λ m p, <[fst p := snd p]> m) (leaves m_options) ∅.

(** ** Helpers *)

(** [SaturatingNs]. *)
Definition SaturatingNs (seconds : Z) : Z :=
  let max_seconds := i64_max / 1000000000 in Z.max (- max_seconds) (Z.min max_seconds seconds) * 1000000000.

(** [StringValue] and [Declares]. *)
Definition StringValue (attrs : list KeyValue) (key : str) : option str :=
  match find_key kv_key key attrs with
  | Some kv => match kv_value kv with AvString s => Some s | _ => None end
  | None => None
  end.
Definition Declares (attrs : list KeyValue) (key : str) : bool := has_key kv_key key attrs.

(** [SpansValid]. *)
Definition span_invalid (s : SpanRecord) : bool :=
  negb (Trace.IsValid (trace_id (sr_context s))) || negb (Trace.IsValid (span_id (sr_context s)))
  || (sr_end_time s <? sr_start_time s).
Definition SpansValid (rs : DecodedResourceSpans) : bool :=
  forallb (λ scope, negb (existsb span_invalid (ds_spans scope))) (rs_scopes rs).

(** [NonNegative]. *)
Definition NonNegative (v : option Z) : Z := match v with Some z => if 0 <? z then z else 0 | None => 0 end.
Definition reported_drops (info : LeafWireInfo) : Z :=
  to_uint 64 (NonNegative (wi_dropped_spans info) + NonNegative (wi_dropped_items info)).

(** [CarriesSpansOrDrops]. *)
Definition CarriesSpansOrDrops (decoded : list DecodedResourceSpans) : bool :=
  existsb (λ rs, (0 <? reported_drops (ReadWireInfo (rs_resource rs)))
                 || existsb (λ scope, negb (bool_decide (ds_spans scope = []))) (rs_scopes rs)) decoded.

(** [RecordDrop]. *)
Definition RecordDrop (reason : DropReason) (n : Z) : M unit := modify (add_drops (Count (d_diagnostics m_deps) reason n)).

(** [Reject], assigned to [result]. *)
Definition Reject (st : IngestStatus) (reason : DropReason) : M unit :=
  _ ← RecordDrop reason 1;
  _ ← add payloads_rejected 1;
  modify (set_result (mkIngestResult st 0 0 0)).

(** [ReceivedNs]; [wall] is the clock's reading. *)
Definition ReceivedNs (request : IngestRequest) (wall : Z) : Z := default wall (rq_received_at request).

(** [RefusedBeforeDecode]. *)
Definition RefusedBeforeDecode (request : IngestRequest) (now : Z) : M bool :=
  match unknown_leaf m_options with
  | AcceptUnknown => mret false
  | RejectUnknown =>
      if is_empty (rq_leaf_id request) || bool_decide (is_Some (m_leaves !! rq_leaf_id request)) then mret false
      else match env_resolver env with
           | None => mret true
           | Some _ => unknown_op (λ u, no_throw (Contains u (rq_leaf_id request) now))
           end
  end.

(** ** Admission *)

Definition decode_limits : DecodeLimits :=
  mkDecodeLimits (max_spans_per_payload m_options) kDecodeMaxDepth (kArenaFactor * max_payload_bytes m_options + kArenaFloor).
(** The modes of the ResourceSpans up to the first bad one. *)
Fixpoint collect_modes (decoded : list DecodedResourceSpans) : list LeafTimeMode :=
  match decoded with
  | [] => []
  | rs :: rest =>
      match CheckWireInfo (ReadWireInfo (rs_resource rs)) with
      | None => []
      | Some mode => if negb (SpansValid rs) then [] else mode :: collect_modes rest
      end
  end.
(** [Admit]: the payload with its contents and modes, or [None] after a rejection. *)
Definition Admit (request : IngestRequest) (payload : Payload) : M (option Payload) :=
  if max_payload_bytes m_options <? size (rq_payload request)
  then _ ← Reject TooLarge LeafPayloadTooLarge; mret None
  else if kMaxLeafIdBytes <? size (rq_leaf_id request)
  then _ ← Reject Malformed LeafPayloadMalformed; mret None
  else
    refused ← RefusedBeforeDecode request (p_now payload);
    if refused : bool then _ ← Reject UnknownLeaf LeafUnknown; mret None
    else
      _ ← may_throw;
      match d_decode m_deps (rq_payload request) decode_limits with
      | inl DecodeTooLarge => _ ← Reject TooLarge LeafPayloadTooLarge; mret None
      | inl DecodeMalformed => _ ← Reject Malformed LeafPayloadMalformed; mret None
      | inr decoded =>
          _ ← may_throw;
          let modes := collect_modes decoded in
          if (length decoded =? 0)%nat || negb (length modes =? length decoded)%nat || negb (CarriesSpansOrDrops decoded)
          then _ ← Reject Malformed LeafPayloadMalformed; mret None
          else mret (Some (mkPayload decoded modes (p_leaf_id payload) (p_settings payload) (p_received payload) (p_now payload)))
      end.

(** ** Identity and settings *)

Fixpoint first_declared (id_key : str) (decoded : list DecodedResourceSpans) : str :=
  match decoded with
  | [] => []
  | rs :: rest => match StringValue (rs_resource rs) id_key with Some id => id | None => first_declared id_key rest end
  end.
(** [SettleLeafId]. *)
Definition SettleLeafId (request : IngestRequest) (payload : Payload) : str :=
  if negb (is_empty (rq_leaf_id request)) then rq_leaf_id request
  else if is_empty (leaf_id_attribute m_options) then []
  else first_declared (leaf_id_attribute m_options) (p_decoded payload).

(** [EffectiveMode] and [BudgetFor]. *)
Definition EffectiveMode (settings : LeafSettings) : option LeafTimeMode :=
  match ls_time_mode settings with Some m => Some m | None => default_time_mode m_options end.
Definition Receiver_BudgetFor (settings : LeafSettings) : Z * str :=
  if bool_decide (EffectiveMode settings = Some ModeUnix)
  then (max_node_resource_bytes m_options, $"max_node_resource_bytes")
  else (max_leaf_resource_bytes m_options, $"max_leaf_resource_bytes").

(** [ModesAllowed]. *)
Definition ModesAllowed (payload : Payload) : M bool :=
  settings ← deref (p_settings payload);
  mret (forallb (λ mode, TimeModeAllowed mode (EffectiveMode settings)) (p_modes payload)).

(** [CountIdConflict]. *)
Definition CountIdConflict (request : IngestRequest) (payload : Payload) : M unit :=
  let id_key := leaf_id_attribute m_options in
  if is_empty (rq_leaf_id request) || is_empty id_key then mret tt
  else
    let conflict := existsb (λ rs,
      Declares (rs_resource rs) id_key
      && match StringValue (rs_resource rs) id_key with None => true | Some id => negb (id =s p_leaf_id payload) end)
      (p_decoded payload) in
    if conflict then add leaf_id_conflicts 1 else mret tt.

(** [AskResolver].  What is no [std::exception] passes every handler and leaves the
    [noexcept] [Ingest]. *)
Definition AskResolver (leaf_id : str) : M (option LeafConfig) :=
  match env_resolver env with
  | None => mret None
  | Some resolver =>
      n ← question;
      match resolver n leaf_id with
      | Answers a => mret a
      | ThrewBadAlloc => throw
      | ThrewException what =>
          _ ← may_throw;
          _ ← LogImpl ($"leaf receiver: the leaf config resolver threw (" ++ what ++ $"); the leaf is treated as not configured");
          mret None
      | ThrewForeign => Terminate (ForeignThrow n leaf_id)
      end
  end.

(** [ResolveSettings]. *)
Definition static_settings (leaf_id : str) : LeafSettings :=
  match m_leaves !! leaf_id with
  | Some c => mkLeafSettings true (lc_time_mode c) (lc_resource c)
  | None => mkLeafSettings false None []
  end.
Definition ResolveSettings (leaf_id : str) : M LeafSettings :=
  _ ← may_throw;
  let settings := static_settings leaf_id in
  answer ← AskResolver leaf_id;
  match answer with
  | None => mret settings
  | Some a =>
      let mode := match lc_time_mode a with Some m => Some m | None => ls_time_mode settings end in
      let settings := mkLeafSettings true mode (ls_resource settings) in
      _ ← may_throw;
      let '(resource, dropped) := MergeResolverResource (ls_resource settings) (lc_resource a)
        (mkLayers (leaf_defaults_resource m_options) [] [] (leaf_id_attribute m_options) leaf_id
                  (fst (Receiver_BudgetFor settings))) in
      _ ← add resource_attributes_dropped dropped;
      mret (mkLeafSettings true mode resource)
  end.

(** [SettingsFor]. *)
Definition SettingsFor (leaf_id : str) (now : Z) : M (option LeafSettings) :=
  cached ← table_op (λ t, no_throw (Settings t leaf_id now));
  match cached : option LeafSettings with
  | Some c => mret (Some c)
  | None =>
      let rejects := match unknown_leaf m_options with RejectUnknown => true | AcceptUnknown => false end in
      refused ← (if rejects then unknown_op (λ u, no_throw (Contains u leaf_id now)) else mret false);
      if refused : bool then mret None
      else
        fresh ← ResolveSettings leaf_id;
        if rejects && negb (configured fresh)
        then ok ← allocate; _ ← unknown_op (λ u, Unknown_Insert u leaf_id now ok); mret None
        else _ ← may_throw; ok ← allocate; table_op (λ t, AdoptSettings t leaf_id fresh now ok)
  end.

(** [Identify]: the payload with its id and settings, or [None] after a rejection. *)
Definition Identify (request : IngestRequest) (payload : Payload) : M (option Payload) :=
  _ ← may_throw;
  let leaf_id := SettleLeafId request payload in
  if is_empty leaf_id || (kMaxLeafIdBytes <? size leaf_id)
  then _ ← Reject Malformed LeafPayloadMalformed; mret None
  else
    settings ← SettingsFor leaf_id (p_now payload);
    match settings : option LeafSettings with
    | None => _ ← Reject UnknownLeaf LeafUnknown; mret None
    | Some _ =>
        let payload := mkPayload (p_decoded payload) (p_modes payload) leaf_id settings (p_received payload) (p_now payload) in
        allowed ← ModesAllowed payload;
        if negb allowed then _ ← Reject Malformed LeafPayloadMalformed; mret None
        else _ ← CountIdConflict request payload; mret (Some payload)
    end.

(** ** Resources and time *)

(** [ResourceFor]. *)
Definition ResourceFor (payload : Payload) (declared : list KeyValue) : M (option ResourcePtr) :=
  let hash := HashDeclaredResource declared in
  cached ← table_op (λ t, no_throw (Find t (p_leaf_id payload) hash (p_now payload)));
  match cached : option ResourcePtr with
  | Some p => mret (Some p)
  | None =>
      settings ← deref (p_settings payload);
      let '(bytes, setting) := Receiver_BudgetFor settings in
      _ ← may_throw;
      let '(resource, dropped) := ResolveLeafResource
        (mkLayers (leaf_defaults_resource m_options) declared (ls_resource settings) (leaf_id_attribute m_options)
                  (p_leaf_id payload) bytes) in
      mine ← new_resource resource;
      _ ← add resource_attributes_dropped dropped;
      ok ← allocate;
      kept ← table_op (λ t, Insert t (p_leaf_id payload) hash mine (p_now payload) ok);
      _ ← (if (0 <? dropped) && bool_decide (kept = Some mine)
           then _ ← may_throw;
                LogImpl ($"leaf receiver: leaf '" ++ p_leaf_id payload ++ $"': dropped " ++ decimal dropped
                         ++ $" Resource attribute(s) over the " ++ decimal bytes ++ $"-byte budget; raise " ++ setting
                         ++ $" to keep them")
           else mret tt);
      mret kept
  end.

(** [CorrectionFor]: the correction and [fell_back]. *)
Definition CorrectionFor (payload : Payload) (mode : LeafTimeMode) (info : LeafWireInfo) (fell_back : bool)
    : M (TimeCorrection * bool) :=
  let received := p_received payload in
  match mode with
  | ModeUnix => mret (mkTimeCorrection 0 None, fell_back)
  | ModeSyncRelative =>
      let limits := mkSyncLimits (SaturatingNs (lo_max_sync_age m_options)) (SaturatingNs (lo_max_clock_skew m_options)) in
      match SyncRelative received (default 0 (wi_encode_time info)) (default 0 (wi_sync_age info)) limits with
      | Some trusted => mret (trusted, fell_back)
      | None => mret (ConcentratorStamped received (wi_encode_time info), true)
      end
  | ModeBootRelative =>
      let sample := mkBootSample (default 0 (wi_boot_id info))
                      (SaturatingSub received (default 0 (wi_encode_time info))) received in
      ok ← allocate;
      offset ← table_op (λ t, UpdateBootAnchor t (p_leaf_id payload) sample
                                (SaturatingNs (boot_anchor_window m_options)) (p_now payload) ok);
      mret (mkTimeCorrection offset None, fell_back)
  | ModeConcentratorStamped => mret (ConcentratorStamped received (wi_encode_time info), fell_back)
  end.

(** ** Spans *)

(** [result] is the caller's own, so its update and the step before it are one action. *)
Definition add_counts (r : IngestResult) (accepted sampled_out dropped : Z) : IngestResult :=
  mkIngestResult (status r) (to_uint 32 (spans_accepted r + accepted))
    (to_uint 32 (spans_sampled_out r + sampled_out)) (to_uint 32 (spans_dropped r + dropped)).
Definition offer (x : SpanRecord * InstrumentationScope) : M unit := modify (λ s,
  let '(k, ok) := sink_offer (sink s) x in
  set_result (if ok : bool then add_counts (result s) 1 0 0 else add_counts (result s) 0 0 1) (set_sink k (x, ok) s)).

(** The record after sampling: attributes, trace state, flags and resource. *)
Definition finish_record (span : SpanRecord) (attributes : list KeyValue) (sampling : SamplingResult)
    (resource : option ResourcePtr) : SpanRecord :=
  let c := sr_context span in
  let state := match sr_trace_state sampling with Some ts => ts | None => trace_state c end in
  mkSpanRecord (mkSpanContext (trace_id c) (span_id c) kSampled state (remote c)) (sr_parent_context span)
    (sr_name span) (sr_kind span) (sr_status_code span) (sr_status_description span)
    (sr_start_time span) (sr_end_time span) attributes (sr_events span) (sr_links span) resource.

(** [EnqueueSpan]; the copies of the trace state and the scope and the place in the
    queue are one allocation step. *)
Definition EnqueueSpan (span : SpanRecord) (scope : InstrumentationScope) (resource : option ResourcePtr)
    (correction : TimeCorrection) : M unit :=
  let span := ApplyTimeCorrection span correction in
  let '(span, calls) := ApplySpanLimits span (d_span_limits m_deps) (d_diagnostics m_deps) in
  _ ← modify (add_drops calls);
  let ctx := mkSamplingContext SpanContext_default (sr_kind span) (sr_name span) (sr_attributes span)
               (sr_links span) (trace_id (sr_context span)) in
  sampling ← deref (ShouldSample (d_sampler m_deps) ctx);
  if negb (bool_decide (decision sampling = RecordAndSample)) then modify (λ s, set_result (add_counts (result s) 0 1 0) s)
  else
    let '(attributes, calls) := AppendAttributes (sr_attributes span) (additional_attributes sampling)
                                  (d_span_limits m_deps) (d_diagnostics m_deps) in
    _ ← modify (add_drops calls);
    _ ← must_allocate;
    offer (finish_record span attributes sampling resource, scope).

Fixpoint enqueue_spans (spans : list SpanRecord) (scope : InstrumentationScope) (resource : option ResourcePtr)
    (correction : TimeCorrection) : M unit :=
  match spans with
  | [] => mret tt
  | span :: rest => _ ← EnqueueSpan span scope resource correction; enqueue_spans rest scope resource correction
  end.
(** [EnqueueResourceSpans]. *)
Fixpoint EnqueueResourceSpans (scopes : list DecodedScopeSpans) (resource : option ResourcePtr)
    (correction : TimeCorrection) : M unit :=
  match scopes with
  | [] => mret tt
  | scope :: rest =>
      _ ← enqueue_spans (ds_spans scope) (ds_scope scope) resource correction;
      EnqueueResourceSpans rest resource correction
  end.

(** [Enqueue]: the loop from index [i], and the function. *)
Fixpoint Enqueue_loop (payload : Payload) (rest : list DecodedResourceSpans) (i : nat) (fell_back : bool) : M bool :=
  match rest with
  | [] => mret fell_back
  | rs :: rest =>
      let info := ReadWireInfo (rs_resource rs) in
      _ ← add leaf_reported_drops (reported_drops info);
      _ ← add resource_attributes_dropped (rs_dropped_resource_attributes rs);
      _ ← RecordDrop SpanAttributeLimit (rs_dropped_span_attributes rs);
      mode ← deref (p_modes payload !! i);
      correction ← CorrectionFor payload mode info fell_back;
      resource ← ResourceFor payload (rs_resource rs);
      _ ← EnqueueResourceSpans (rs_scopes rs) resource (fst correction);
      Enqueue_loop payload rest (S i) (snd correction)
  end.
Definition Enqueue (payload : Payload) : M unit :=
  fell_back ← Enqueue_loop payload (p_decoded payload) 0 false;
  if fell_back : bool then add time_fallbacks 1 else mret tt.

(** ** The public operations *)

(** [result.status = st]. *)
Definition set_status (st : IngestStatus) (r : IngestResult) : IngestResult :=
  mkIngestResult st (spans_accepted r) (spans_sampled_out r) (spans_dropped r).
(** [IngestOrThrow]. *)
Definition IngestOrThrow (request : IngestRequest) (wall now : Z) : M unit :=
  let payload := mkPayload [] [] [] None (ReceivedNs request wall) now in
  admitted ← Admit request payload;
  match admitted with
  | None => mret tt
  | Some payload =>
      identified ← Identify request payload;
      match identified with
      | None => mret tt
      | Some payload =>
          _ ← Enqueue payload;
          _ ← modify (λ s, let r := result s in
                set_result (set_status (if 0 <? spans_dropped r then PartiallyAccepted else Accepted) r) s);
          add payloads_accepted 1
      end
  end.

(** [RecordOutOfMemory]. *)
Definition oom_line : str :=
  $"leaf receiver: allocation failed while ingesting a payload; it was not processed (payloads_out_of_memory in LeafReceiver::Stats)".
Definition RecordOutOfMemory : M unit :=
  count ← act (λ s, Some (set_counters (bump payloads_out_of_memory 1 (m_counters s)) s,
                          Returned (to_uint 64 (m_counters s payloads_out_of_memory + 1))));
  if Z.land count (to_uint 64 (count - 1)) =? 0 then LogImpl oom_line else mret tt.

(** [Ingest]. *)
Definition Ingest (request : IngestRequest) (wall now : Z) : M IngestResult :=
  down ← get m_shut_down;
  if down : bool then
    _ ← add payloads_post_shutdown 1;
    mret (mkIngestResult ShutDown 0 0 0)
  else
    _ ← modify (set_result (mkIngestResult Accepted 0 0 0));
    try_with (IngestOrThrow request wall now) (λ _, get result)
      (_ ← RecordOutOfMemory;
       _ ← modify (λ s, set_result (set_status OutOfMemory (result s)) s);
       get result).

Definition MarkShutDown (s : Receiver K) : Receiver K := set_shut_down true s.

Record LeafReceiverStats := mkStats { counter_values : Counters; leaves_tracked : Z; leaves_evicted : Z }.
Definition Stats (s : Receiver K) : LeafReceiverStats :=
  mkStats (m_counters s) (LeafTable.Size (m_table s)) (LeafTable.Evicted (m_table s)).

(** The constructor. *)
Definition SdkLeafReceiver (k : K) : Receiver K :=
  mkReceiver (LeafTable_new (max_leaves m_options) (SaturatingNs (leaf_idle_timeout m_options)))
    (UnknownLeafCache_new kUnknownLeafCacheSize kUnknownLeafTtl) (λ _, 0) false [] k [] [] []
    (mkIngestResult Disabled 0 0 0) 0 0.

(** A history of calls, one at a time, none of which ends the process; the pipeline
    behind the sink moves in between. *)
Inductive ReceiverOp := OpIngest (request : IngestRequest) (wall now : Z) | OpMarkShutDown | OpSink (f : K → K).
Definition with_sink (k : K) (s : Receiver K) : Receiver K :=
  mkReceiver (m_table s) (m_unknown s) (m_counters s) (m_shut_down s) (heap s) k (offered s) (drops s) (log s) (result s) (asked s) (allocs s).
Definition receiver_exec (s : Receiver K) (o : ReceiverOp) : option (Receiver K * option IngestResult) :=
  match o with
  | OpIngest request wall now =>
      match run (Ingest request wall now) s with Some (s, Ends (Returned r)) => Some (s, Some r) | _ => None end
  | OpMarkShutDown => Some (MarkShutDown s, None)
  | OpSink f => Some (with_sink (f (sink s)) s, None)
  end.
Fixpoint run_receiver (s : Receiver K) (os : list ReceiverOp) : option (Receiver K * list IngestResult) :=
  match os with
  | [] => Some (s, [])
  | o :: os => '(s, r) ← receiver_exec s o; '(s, rs) ← run_receiver s os; Some (s, option_list r ++ rs)
  end.

End operations.

(** ** The table under an entry invariant *)

(** What a call may do to its leaf's entry. *)
Definition op_effect (o : TableOp) (e e' : Entry) : Prop :=
  match o with
  | OpAdopt _ v _ _ => e' = set_settings (Some v) e
  | OpInsert _ h p _ _ => e' = set_resource h (Some p) e
  | OpAnchor _ _ _ _ _ => ∃ a, e' = set_anchor a e
  | _ => False
  end.

Section entries.
Context (P : Entry → Prop).
Context (Hseen : ∀ now e, P e → P (set_seen now e)).

Lemma lru_touch_Forall s id now : Forall P (l_entries s) →
  Forall P (l_entries (fst (lru_touch s id now))) ∧ ∀ e, snd (lru_touch s id now) = Some e →
    P e ∧ e_id e = id ∧ e ∈ l_entries (fst (lru_touch s id now)).
Proof.
  intros H. unfold lru_touch. destruct (find_key e_id id (l_entries s)) as [e|] eqn:Hf; [|done].
  apply find_key_Some in Hf as [Hin He]. assert (P (set_seen now e)) by (apply Hseen; by eapply Forall_forall in H).
  cbn. split; [constructor; [done|]|].
  - eapply sublist_Forall; [apply without_key_sublist|done].
  - intros e' [= <-]. split; [done|]. split; [done|]. left.
Qed.
Lemma lru_entry_Forall s id now alloc : Forall P (l_entries s) → P (Entry_new id now) →
  let '(s', r) := lru_entry s id now alloc in
  Forall P (l_entries s') ∧ ∀ e, r = Some e → P e ∧ e_id e = id ∧ head (l_entries s') = Some e.
Proof.
  intros H Hn. unfold lru_entry. destruct (find_key e_id id (l_entries s)) as [e|] eqn:Hf.
  - pose proof (lru_touch_Forall s id now H) as [H1 H2]. destruct (lru_touch s id now) as [s' r] eqn:Ht. cbn in *.
    split; [done|]. intros e' ->. destruct (H2 e' eq_refl) as (? & ? & _). split_and!; [done..|].
    unfold lru_touch in Ht. rewrite Hf in Ht. by simplify_eq.
  - assert (Forall P (make_room (l_max s) (after_idle s now))) as Hl
      by (eapply sublist_Forall; [apply prefix_sublist, room_prefix|done]).
    destruct alloc; cbn; [|done]. split; [by constructor|]. intros e [= <-]. done.
Qed.

Lemma front_Forall s e e' : Forall P (l_entries s) → head (l_entries s) = Some e → P e' → Forall P (l_entries (set_front e' s)).
Proof. intros H _ Hp. cbn. constructor; [done|]. destruct (l_entries s); [done|]. by apply Forall_cons_1 in H as [_ H]. Qed.

Lemma lru_exec_Forall s o :
  (∀ e e', P e → e_id e = op_id o → op_effect o e e' → P e') → P (Entry_new (op_id o) (op_now o)) →
  Forall P (l_entries s) → Forall P (l_entries (fst (lru_exec s o))).
Proof.
  intros Heff Hn H. destruct o as [id now|id v now alloc|id h now|id h p now alloc|id v w now alloc]; cbn [lru_exec op_id op_now] in *.
  1, 3: pose proof (lru_touch_Forall s id now H) as [H1 _]; by destruct (lru_touch s id now).
  all: pose proof (lru_entry_Forall s id now alloc H Hn) as He; destruct (lru_entry s id now alloc) as [s' [e|]];
    destruct He as [H1 H2]; [|done]; destruct (H2 e eq_refl) as (Hp & Hid & Hh).
  - destruct (e_settings e); [done|]. cbn [fst]. eapply front_Forall; [done..|]. by eapply Heff.
  - destruct (e_resource e); [destruct (_ =? _); [done|]|]; (cbn [fst]; eapply front_Forall; [done..|]; by eapply Heff).
  - destruct (Update _ _ _) as [[b a]|]; [|done]. cbn [fst]. eapply front_Forall; [done..|]. eapply Heff; [done..|]. by exists a.
Qed.
End entries.

(** A Resource the table returns is the one its entry keeps. *)
Definition returned_resource (o : TableOp) (p : ResourcePtr) (l : list Entry) : Prop :=
  match o with
  | OpFind id h _ | OpInsert id h _ _ _ => ∃ e, e ∈ l ∧ e_id e = id ∧ e_declared_hash e = h ∧ e_resource e = Some p
  | _ => True
  end.
Lemma lru_exec_resource s o p :
  snd (lru_exec s o) = GotResource (Some p) → returned_resource o p (l_entries (fst (lru_exec s o))).
Proof.
  destruct o as [id now|id v now alloc|id h now|id h q now alloc|id v w now alloc]; cbn [lru_exec returned_resource]; try done.
  - pose proof (lru_touch_Forall (λ _, True) (λ _ _ _, I) s id now) as [_ H]; [by apply Forall_true|].
    destruct (lru_touch s id now) as [s' [e|]]; cbn; [|done]. destruct (H e eq_refl) as (_ & Hid & Hin).
    destruct (e_declared_hash e =? h) eqn:E; [|done]. bool_hyps. intros [= Hp]. by exists e.
  - pose proof (lru_entry_Forall (λ _, True) (λ _ _ _, I) s id now alloc) as H.
    destruct (lru_entry s id now alloc) as [s' [e|]]; [|done].
    destruct H as [_ H]; [by apply Forall_true|done|]. destruct (H e eq_refl) as (_ & Hid & Hh). apply head_Some in Hh as [l Hl].
    destruct (e_resource e) as [r|] eqn:Er; [destruct (e_declared_hash e =? h) eqn:E|]; cbn; intros [= <-].
    + bool_hyps. exists e. rewrite Hl. split_and!; [left|done..].
    + exists (set_resource h (Some q) e). split_and!; [left|done..].
    + exists (set_resource h (Some q) e). split_and!; [left|done..].
Qed.
Lemma lru_exec_insert_kept s id h p now alloc :
  snd (lru_exec s (OpInsert id h p now alloc)) = GotThrow
  ∨ ∃ q, snd (lru_exec s (OpInsert id h p now alloc)) = GotResource (Some q).
Proof.
  cbn [lru_exec]. destruct (lru_entry s id now alloc) as [s' [e|]]; [|by left]. right.
  destruct (e_resource e) as [r|]; [destruct (_ =? _)|]; eauto.
Qed.
Lemma lru_exec_adopt_kept s id v now alloc :
  snd (lru_exec s (OpAdopt id v now alloc)) = GotThrow
  ∨ ∃ w, snd (lru_exec s (OpAdopt id v now alloc)) = GotSettings (Some w).
Proof.
  cbn [lru_exec]. destruct (lru_entry s id now alloc) as [s' [e|]]; [|by left]. right. destruct (e_settings e); eauto.
Qed.

(** ** Reasoning about computations *)

Section program.
Context {K A : Type} (P : M K A → Prop).
Context (Hret : ∀ r, P (Ret r)) (Hend : ∀ d, P (Terminate d)).
Context (Hstep : ∀ f, (∀ s s' m, f s = Some (s', m) → P m) → P (Step f)).
(** Induction over a computation. *)
Fixpoint M_induction (m : M K A) : P m :=
  match m with
  | Ret r => Hret r
  | Terminate d => Hend d
  | Step f => Hstep f (λ s s' m',
      match f s as o return o = Some (s', m') → P m' with
      | Some (_, m1) => λ E, match E in _ = o return match o with Some p => P (snd p) | None => True end with
                             | eq_refl => M_induction m1 end
      | None => λ E, match E in _ = o return match o with Some p => P (snd p) | None => True end with eq_refl => I end
      end)
  end.
End program.

(** When a computation may end the process. *)
Class Endings := may_end : Death → Prop.
(** [m] run alone is defined from [s], and ends in [Q] or throws in [E]. *)
Definition wp {K A} `{!Endings} (m : M K A) (Q : A → Receiver K → Prop) (E : Receiver K → Prop) (s : Receiver K) : Prop :=
  match run m s with
  | None => False
  | Some (s', Ends (Returned a)) => Q a s'
  | Some (s', Ends Threw) => E s'
  | Some (_, Terminated d) => may_end d
  end.
Section wp.
Context {K : Type} {ending : Endings}.
Implicit Types s : Receiver K.
Lemma wp_mono {A} (m : M K A) (Q Q' : A → Receiver K → Prop) (E E' : Receiver K → Prop) s :
  wp m Q E s → (∀ a s', Q a s' → Q' a s') → (∀ s', E s' → E' s') → wp m Q' E' s.
Proof. unfold wp. destruct (run m s) as [[s' [[a|]|]]|]; auto. Qed.
Lemma wp_try {A B} (m : M K A) (f : A → M K B) (h : M K B) Q E s :
  wp m (λ a s', wp (f a) Q E s') (wp h Q E) s → wp (try_with m f h) Q E s.
Proof.
  revert s. induction m as [[a|]|d|g IH] using M_induction; intros s; [done..|]. unfold wp at 1 4. cbn [run try_with].
  specialize (IH s). destruct (g s) as [[s' m']|]; [|done]. by apply (IH s' m').
Qed.
Lemma wp_bind {A B} (m : M K A) (f : A → M K B) Q E s :
  wp m (λ a s', wp (f a) Q E s') E s → wp (m ≫= f) Q E s.
Proof. intros H. apply wp_try. by eapply wp_mono. Qed.
Lemma wp_act {A} (f : Receiver K → option (Receiver K * LeafTable.Result A)) Q E s :
  match f s with None => False | Some (s', Returned a) => Q a s' | Some (s', Threw) => E s' end → wp (act f) Q E s.
Proof. unfold wp. cbn. by destruct (f s) as [[s' [a|]]|]. Qed.
Lemma wp_ret {A} (a : A) Q E s : Q a s → wp (mret a) Q E s.
Proof. done. Qed.
Lemma wp_forall {A I} `{!Inhabited I} (m : M K A) (Q : I → A → Receiver K → Prop) (E : I → Receiver K → Prop) s :
  (∀ i, wp m (Q i) (E i) s) → wp m (λ a s', ∀ i, Q i a s') (λ s', ∀ i, E i s') s.
Proof. unfold wp. intros H. specialize (H inhabitant) as H0. by destruct (run m s) as [[s' [[a|]|]]|]. Qed.

(** Sequencing under a reflexive and transitive relation of states. *)
Lemma wp_seq {A B} (R : Receiver K → Receiver K → Prop) (T : A → Receiver K → Prop) (U : B → Receiver K → Prop)
    (m : M K A) (f : A → M K B) s :
  (∀ a b c, R a b → R b c → R a c) →
  wp m (λ a s', R s s' ∧ T a s') (R s) s →
  (∀ a s', R s s' → T a s' → wp (f a) (λ b s'', R s' s'' ∧ U b s'') (R s') s') →
  wp (m ≫= f) (λ b s'', R s s'' ∧ U b s'') (R s) s.
Proof.
  intros Ht Hm Hf. apply wp_bind. eapply wp_mono; [exact Hm| |done]. intros a s' [H1 H2].
  eapply wp_mono; [by apply Hf| |]; [intros b s'' [? ?]; split; [by eapply Ht|done]|intros; by eapply Ht].
Qed.
End wp.

(** ** The invariant *)

Section invariant.
Context {K : Type} `{!SpanSink K}.
Context (o : LeafReceiverOptions) (deps : LeafReceiverDeps) (env : Environment).
Implicit Types s : Receiver K.

(** The process ends only when the resolver throws what is no [std::exception], or an
    allocation of a [noexcept] function fails. *)
Definition fatal (d : Death) : Prop :=
  match d with
  | ForeignThrow n id => ∃ resolver, env_resolver env = Some resolver ∧ resolver n id = ThrewForeign
  | NoexceptAllocation n => env_alloc env n = false
  end.
#[local] Instance fatal_endings : Endings := fatal.

(** A leaf the operator or the resolver has configured, at some time. *)
Definition known_leaf (id : str) : Prop :=
  is_Some (m_leaves o !! id) ∨ ∃ f n a, env_resolver env = Some f ∧ f n id = Answers (Some a).
(** A leaf [unknown_leaf] refuses. *)
Definition refusable (id : str) : Prop := unknown_leaf o = RejectUnknown ∧ ¬ known_leaf id.

(** A Resource resolved for the leaf [id] from a declared Resource with hash [h]. *)
Definition made_for (id : str) (h : Z) (r : Resource) : Prop :=
  ∃ declared configured budget, HashDeclaredResource declared = h
    ∧ r = fst (ResolveLeafResource
        (mkLayers (leaf_defaults_resource o) declared configured (leaf_id_attribute o) id budget)).
Definition entry_inv (hp : list Resource) (e : Entry) : Prop :=
  (∀ p, e_resource e = Some p → ∃ r, hp !! p = Some r ∧ made_for (e_id e) (e_declared_hash e) r)
  ∧ ¬ refusable (e_id e).

Definition Inv s : Prop :=
  (∃ lru, sim (m_table s) lru ∧ Forall (entry_inv (heap s)) (l_entries lru))
  ∧ ∃ l, cache_sim kUnknownLeafCacheSize kUnknownLeafTtl (m_unknown s) l.

Definition payload_counters : list Counter :=
  [payloads_accepted; payloads_rejected; payloads_out_of_memory; payloads_post_shutdown].
Definition tally (s : Receiver K) : list Z := m_counters s <$> payload_counters.

(** Nothing observable beyond the log, the caches and the diagnostic counters. *)
Record keeps (id : str) (s s' : Receiver K) : Prop := {
  k_inv : Inv s';
  k_heap : heap s `prefix_of` heap s';
  k_offered : offered s' = offered s;
  k_sink : sink s' = sink s;
  k_drops : drops s' = drops s;
  k_result : result s' = result s;
  k_shut : m_shut_down s' = m_shut_down s;
  k_tally : tally s' = tally s;
  k_table : refusable id → view (m_recency (m_table s')) = view (m_recency (m_table s))
}.
Lemma keeps_refl id s : Inv s → keeps id s s.
Proof. by split. Qed.
Lemma keeps_trans id s1 s2 s3 : keeps id s1 s2 → keeps id s2 s3 → keeps id s1 s3.
Proof.
  intros [] []. split; try done; try congruence; [by etrans|]. intros Hr.
  by rewrite k_table1, k_table0.
Qed.
Lemma entry_inv_mono hp hp' e : hp `prefix_of` hp' → entry_inv hp e → entry_inv hp' e.
Proof.
  intros [k ->] [H1 H2]. split; [|done]. intros p Hp. destruct (H1 p Hp) as (r & Hr & Hm). exists r. split; [|done].
  by apply lookup_app_l_Some.
Qed.

Lemma tally_other c n s : bool_decide (c ∈ payload_counters) = false →
  tally (set_counters (bump c n (m_counters s)) s) = tally s.
Proof.
  intros Hc%bool_decide_eq_false. unfold tally. apply list_fmap_ext. intros i c' Hi. cbn. unfold bump.
  destruct (decide (c' = c)) as [->|]; [|done]. destruct Hc. by eapply list_elem_of_lookup_2.
Qed.

(** *** Small steps *)

Abbreviation ok_wp id m Q s := (wp m (λ a s', keeps id s s' ∧ Q a s') (keeps id s) s).

Lemma keeps_step id s (f : Receiver K → Receiver K) :
  Inv s → m_table (f s) = m_table s → m_unknown (f s) = m_unknown s → heap s `prefix_of` heap (f s) →
  offered (f s) = offered s → sink (f s) = sink s → drops (f s) = drops s → result (f s) = result s →
  m_shut_down (f s) = m_shut_down s → tally (f s) = tally s → keeps id s (f s).
Proof.
  intros [(lru & Hs & Hf) (l & Hc)] Ht Hu Hh; intros. split; try done; [|by rewrite Ht]. split; [|rewrite Hu; by eexists].
  exists lru. rewrite Ht. split; [done|]. eapply Forall_impl; [exact Hf|]. intros e. by apply entry_inv_mono.
Qed.
Lemma allocate_ok id s : Inv s → ok_wp id (allocate env) (λ _ _, True) s.
Proof. intros H. split; [|done]. by apply (keeps_step id s next_alloc). Qed.
Lemma may_throw_ok id s : Inv s → ok_wp id (may_throw env) (λ _ _, True) s.
Proof.
  intros H. unfold may_throw. apply wp_bind. cbn. pose proof (keeps_step id s next_alloc H) as Hk.
  destruct (env_alloc env (allocs s)); [split; [|done]|]; by apply Hk.
Qed.
(** After an allocation step of a [noexcept] function. *)
Lemma wp_must_allocate {A} (m : M K A) Q E s : wp m Q E (next_alloc s) → wp (_ ← must_allocate env; m) Q E s.
Proof. intros H. apply wp_bind. unfold wp at 1. cbn. by destruct (env_alloc env (allocs s)) eqn:Ea. Qed.
Lemma LogImpl_ok id line s : Inv s → ok_wp id (LogImpl env line) (λ _ _, True) s.
Proof. intros H. apply wp_must_allocate, wp_act. split; [|done]. by apply (keeps_step id s (λ s, add_log line (next_alloc s))). Qed.
Lemma add_ok id c n s : bool_decide (c ∈ payload_counters) = false →
  Inv s → ok_wp id (add c n) (λ _ _, True) s.
Proof.
  intros Hc H. split; [|done]. apply (keeps_step id s (λ s, set_counters (bump c n (m_counters s)) s)); try done.
  by apply tally_other.
Qed.

(** *** Table and cache calls *)

Lemma table_exec id s op (Ho : op_ok op) :
  Inv s → (op_inserts op = true → ¬ refusable (op_id op) ∧ ¬ refusable id) → (refusable id → op_id op = id) →
  (∀ hash p now alloc, op = OpInsert (op_id op) hash p now alloc → ∃ r, heap s !! p = Some r ∧ made_for (op_id op) hash r) →
  ∃ t r, exec (m_table s) op = Some (t, r) ∧ keeps id s (set_table t s)
    ∧ (∀ p, r = GotResource (Some p) → match op with
       | OpFind i h _ | OpInsert i h _ _ _ => ∃ res, heap s !! p = Some res ∧ made_for i h res | _ => True end)
    ∧ (refusable (op_id op) → r = GotSettings None ∨ r = GotResource None)
    ∧ ∃ lru, r = snd (lru_exec lru op).
Proof.
  intros [(lru & Hs & Hf) (l & Hc)] Hins Hid Hres. destruct (exec_sim _ _ op Hs Ho) as (t & He & Hs').
  assert (op_inserts op = true → Forall (entry_inv (heap s)) (l_entries (fst (lru_exec lru op)))) as Hf1.
  { intros Hi. destruct (Hins Hi) as [Hnr _]. apply lru_exec_Forall; [by intros now e []| |by split; [done|]|done].
    intros e e' [H1 H2] Heid Heff. destruct op; cbn in Heff; try done.
    - subst. by split.
    - subst. split; [|done]. cbn. intros p [= <-]. cbn in Heid. rewrite Heid. by eapply Hres.
    - destruct Heff as [a ->]. by split. }
  assert (Forall (entry_inv (heap s)) (l_entries (fst (lru_exec lru op)))) as Hf'.
  { destruct (op_inserts op) eqn:Ei; [by apply Hf1|]. destruct op; try discriminate; cbn [lru_exec].
    all: pose proof (lru_touch_Forall (entry_inv (heap s)) (λ now e H, H) lru id0 now Hf) as [Ht _];
      by destruct (lru_touch lru id0 now). }
  assert (∀ i, refusable i → i ∉ e_id <$> l_entries lru) as Hout.
  { intros i Hr (e & -> & Hin)%list_elem_of_fmap. rewrite Forall_forall in Hf. by destruct (Hf e Hin). }
  exists t, (snd (lru_exec lru op)). split; [done|]. split; [|split; [|split; [|by exists lru]]].
  - split; try done; [split; [by eexists|by eexists]|]. intros Hr. cbn. rewrite (sim_view _ _ Hs'), (sim_view _ _ Hs).
    pose proof (lru_exec_shape lru op) as (_ & _ & [(_ & _ & Hl)|[(Hk & _)|(_ & Hi & _)]]); [done| |].
    + exfalso. apply (Hout _ Hr). unfold known in Hk. by rewrite <- (Hid Hr).
    + exfalso. by destruct (Hins Hi) as [_ []].
  - intros p Hp. apply lru_exec_resource in Hp. destruct op; try done; cbn in Hp; destruct Hp as (e & Hin & Hei & Hh & Hr);
      rewrite Forall_forall in Hf'; destruct (Hf' e Hin) as [H1 _]; destruct (H1 p Hr) as (res & Hl & Hm); exists res;
      split; try done; by rewrite Hei, Hh in Hm.
  - intros Hr. destruct (op_inserts op) eqn:Ei; [by destruct (Hins eq_refl) as [[] _]|].
    destruct op as [i now| |i h now| |]; try discriminate; cbn [lru_exec op_id] in *;
      (destruct (lru_touch_shape lru i now) as [[_ ->]|[Hin _]]; [cbn; auto|by destruct (Hout _ Hr)]).
Qed.

Lemma unknown_exec id s op : Inv s →
  ∃ u r, cache_exec (m_unknown s) op = Some (u, r) ∧ keeps id s (set_unknown u s).
Proof.
  intros [H (l & Hc)]. destruct (cache_exec_sim kUnknownLeafCacheSize kUnknownLeafTtl _ l op ltac:(done) Hc) as (u & He & Hc'). exists u. eexists. split; [exact He|].
  split; try done. split; [done|by eexists].
Qed.
Lemma Contains_ok id leaf now s : Inv s → ok_wp id (unknown_op (λ u, no_throw (Contains u leaf now))) (λ _ _, True) s.
Proof.
  intros H. destruct (unknown_exec id s (OpContains leaf now) H) as (u & r & He & Hk). cbn in He. apply wp_act; cbv beta.
  destruct (Contains (m_unknown s) leaf now) as [[u' b]|]; cbn in *; by simplify_eq.
Qed.
Lemma Remember_ok id leaf now ok s : Inv s → ok_wp id (unknown_op (λ u, Unknown_Insert u leaf now ok)) (λ _ _, True) s.
Proof.
  intros H. destruct (unknown_exec id s (OpRemember leaf now ok) H) as (u & r & He & Hk). cbn in He. apply wp_act; cbv beta.
  destruct (Unknown_Insert (m_unknown s) leaf now ok) as [[u' [[]|]]|]; cbn in *; by simplify_eq.
Qed.
Lemma Settings_ok id now s : Inv s →
  ok_wp id (table_op (λ t, no_throw (Settings t id now))) (λ r _, refusable id → r = None) s.
Proof.
  intros H. destruct (table_exec id s (OpSettings id now) I H) as (t & r & He & Hk & _ & Hr & _); [done..|].
  cbn in *. apply wp_act; cbv beta. destruct (Settings (m_table s) id now) as [[t' v]|]; cbn in *; simplify_eq.
  split; [done|]. intros Hu. destruct (Hr Hu); congruence.
Qed.
Lemma Adopt_ok id v now ok s : Inv s → ¬ refusable id →
  ok_wp id (table_op (λ t, AdoptSettings t id v now ok)) (λ r _, is_Some r) s.
Proof.
  intros H Hn. destruct (table_exec id s (OpAdopt id v now ok) I H) as (t & r & He & Hk & _ & _ & lru & Hl); [done..|].
  cbn [exec op_id] in *. apply wp_act; cbv beta. destruct (AdoptSettings (m_table s) id v now ok) as [[t' [w|]]|]; cbn in He; simplify_eq; [|done].
  split; [done|]. destruct (lru_exec_adopt_kept lru id v now ok) as [E|[x E]]; rewrite E in *; simplify_eq. by eexists.
Qed.
Lemma Find_ok id h now s : Inv s → ¬ refusable id →
  ok_wp id (table_op (λ t, no_throw (Find t id h now)))
    (λ r s', ∀ p, r = Some p → ∃ res, heap s' !! p = Some res ∧ made_for id h res) s.
Proof.
  intros H Hn. destruct (table_exec id s (OpFind id h now) I H) as (t & r & He & Hk & Hr & _); [done..|].
  cbn [exec op_id] in *. apply wp_act; cbv beta. destruct (Find (m_table s) id h now) as [[t' v]|]; cbn in *; simplify_eq.
  split; [done|]. intros p ->. by apply (Hr p).
Qed.
Lemma Insert_ok id h p now ok s : Inv s → ¬ refusable id → (∃ r, heap s !! p = Some r ∧ made_for id h r) →
  ok_wp id (table_op (λ t, Insert t id h p now ok))
    (λ r s', ∃ q res, r = Some q ∧ heap s' !! q = Some res ∧ made_for id h res) s.
Proof.
  intros H Hn Hp. destruct (table_exec id s (OpInsert id h p now ok) I H) as (t & r & He & Hk & Hr & _ & lru & Hl); [done..| |].
  { cbn [op_id]. intros hash q n a [= -> -> -> ->]. done. }
  cbn [exec op_id] in *. apply wp_act; cbv beta. destruct (Insert (m_table s) id h p now ok) as [[t' [w|]]|]; cbn in He; simplify_eq; [|done].
  split; [done|]. destruct (lru_exec_insert_kept lru id h p now ok) as [E|[q E]]; rewrite E in *; simplify_eq.
  destruct (Hr q eq_refl) as (res & ? & ?). by exists q, res.
Qed.
Lemma Anchor_ok id sample w now ok s : Inv s → ¬ refusable id → bs_offset sample <= kMax →
  ok_wp id (table_op (λ t, UpdateBootAnchor t id sample w now ok)) (λ _ _, True) s.
Proof.
  intros H Hn Hb. destruct (table_exec id s (OpAnchor id sample w now ok) Hb H) as (t & r & He & Hk & _); [done..|].
  cbn [exec op_id] in *. apply wp_act; cbv beta. destruct (UpdateBootAnchor _ _ _ _ _ _) as [[t' [w'|]]|]; cbn in He; by simplify_eq.
Qed.

(** *** Admission and identity *)

Definition verdicts : list (IngestStatus * DropReason) :=
  [(TooLarge, LeafPayloadTooLarge); (Malformed, LeafPayloadMalformed); (UnknownLeaf, LeafUnknown)].
Lemma verdict_spec st reason : (st, reason) ∈ verdicts ↔
  match st with
  | TooLarge => reason = LeafPayloadTooLarge
  | Malformed => reason = LeafPayloadMalformed
  | UnknownLeaf => reason = LeafUnknown
  | _ => False
  end.
Proof. unfold verdicts. rewrite !elem_of_cons, elem_of_nil. destruct st; intuition congruence. Qed.
Definition reject_state (v : IngestStatus * DropReason) s : Receiver K :=
  let s := add_drops (Count (d_diagnostics deps) (snd v) 1) s in
  set_result (mkIngestResult (fst v) 0 0 0) (set_counters (bump payloads_rejected 1 (m_counters s)) s).
(** The payload was refused, once, with one reason. *)
Definition rejects (id : str) (s s' : Receiver K) : Prop :=
  ∃ s1 v, v ∈ verdicts ∧ keeps id s s1 ∧ s' = reject_state v s1.

Lemma reject_ok {A} id st reason s s1 (Q : option A → Receiver K → Prop) :
  (st, reason) ∈ verdicts → keeps id s s1 → (∀ s', rejects id s s' → Q None s') →
  wp (_ ← Reject deps st reason; mret None) Q (keeps id s) s1.
Proof. intros Hv Hk HQ. apply HQ. by exists s1, (st, reason). Qed.

(** Sequencing where the rest may reject; with the step itself, or without. *)
Lemma keeps_bind_step {A B} id (m : M K A) (T : A → Receiver K → Prop) (f : A → M K B) (Q : B → Receiver K → Prop) s0 s :
  keeps id s0 s → ok_wp id m T s →
  (∀ a s', keeps id s0 s' → keeps id s s' → T a s' → wp (f a) Q (keeps id s0) s') → wp (m ≫= f) Q (keeps id s0) s.
Proof.
  intros Hk Hm Hf. apply wp_bind. eapply wp_mono; [exact Hm| |].
  - intros a s' [H1 H2]. apply Hf; [by eapply keeps_trans|done..].
  - intros s' H1. by eapply keeps_trans.
Qed.
Lemma keeps_bind {A B} id (m : M K A) (T : A → Receiver K → Prop) (f : A → M K B) (Q : B → Receiver K → Prop) s0 s :
  keeps id s0 s → ok_wp id m T s → (∀ a s', keeps id s0 s' → T a s' → wp (f a) Q (keeps id s0) s') →
  wp (m ≫= f) Q (keeps id s0) s.
Proof. intros Hk Hm Hf. eapply keeps_bind_step; [done..|]. auto. Qed.
Lemma heap_kept id s s' p r : keeps id s s' → heap s !! p = Some r → heap s' !! p = Some r.
Proof. intros Hk Hp. destruct (k_heap _ _ _ Hk) as [k ->]. by apply lookup_app_l_Some. Qed.
(** The last step of an operation that only keeps. *)
Lemma keeps_last {A} id (m : M K A) (T U : A → Receiver K → Prop) s0 s :
  keeps id s0 s → ok_wp id m T s → (∀ a s', T a s' → U a s') → wp m (λ a s', keeps id s0 s' ∧ U a s') (keeps id s0) s.
Proof.
  intros Hk Hm HT. eapply wp_mono; [exact Hm| |]; [intros a s' [H1 H2]; split; [by eapply keeps_trans|auto]|].
  intros s' H1. by eapply keeps_trans.
Qed.

(** One step of such a sequence, by its own lemma. *)
Ltac kstep lem := eapply keeps_bind_step; [eassumption|eapply lem; first [done|by eapply k_inv]|].
Ltac kbind lem := eapply keeps_bind; [eassumption|eapply lem; first [done|by eapply k_inv]|].

Lemma question_ok id s : Inv s → ok_wp id question (λ _ _, True) s.
Proof. intros H. split; [|done]. by apply (keeps_step id s next_question). Qed.

Lemma AskResolver_ok id leaf s : Inv s →
  ok_wp id (AskResolver env leaf) (λ a _, is_Some a → known_leaf leaf) s.
Proof.
  intros H. unfold AskResolver. pose proof (keeps_refl id s H) as Hr.
  destruct (env_resolver env) as [f|] eqn:Ef; [|split; [done|by intros []]].
  kbind question_ok. intros n s2 H2 _.
  destruct (f n leaf) as [a| |what|] eqn:Ea; [|done| |by exists f].
  - split; [done|]. intros [c ->]. right. by exists f, n, c.
  - kbind may_throw_ok. intros [] s3 H3 _. kbind LogImpl_ok. intros [] s4 H4 _. split; [done|by intros []].
Qed.

Lemma static_known leaf : configured (static_settings o leaf) = true → known_leaf leaf.
Proof. unfold static_settings. destruct (m_leaves o !! leaf) eqn:E; [|done]. intros _. left. by rewrite E. Qed.
Lemma ResolveSettings_ok id leaf s : Inv s →
  ok_wp id (ResolveSettings o env leaf) (λ v _, configured v = true → known_leaf leaf) s.
Proof.
  intros H. unfold ResolveSettings. pose proof (keeps_refl id s H) as Hr.
  kbind may_throw_ok. intros [] s1 H1 _. cbn zeta.
  kbind AskResolver_ok. intros [a|] s2 H2 Ha; [|by split; [|apply static_known]].
  kbind may_throw_ok. intros [] s3 H3 _. destruct (MergeResolverResource _ _ _) as [resource dropped].
  kbind add_ok. intros [] s4 H4 _. split; [done|]. intros _. by apply Ha.
Qed.

Lemma SettingsFor_ok id now s : Inv s →
  ok_wp id (SettingsFor o env id now) (λ v _, is_Some v → ¬ refusable id) s.
Proof.
  intros H. unfold SettingsFor. pose proof (keeps_refl id s H) as Hr. kbind Settings_ok. intros [c|] s1 H1 Hc.
  { split; [done|]. intros _ Hn. by specialize (Hc Hn). }
  cbn zeta. set (rejects_unknown := match unknown_leaf o with RejectUnknown => true | AcceptUnknown => false end).
  assert (ok_wp id (if rejects_unknown then unknown_op (λ u, no_throw (Contains u id now)) else mret false) (λ _ _, True) s1) as Hm.
  { destruct rejects_unknown; [apply Contains_ok; by eapply k_inv|]. split; [apply keeps_refl; by eapply k_inv|done]. }
  eapply keeps_bind; [exact H1|exact Hm|]. intros [] s2 H2 _; [by split; [|intros []]|].
  kbind ResolveSettings_ok. intros fresh s3 H3 Hf. destruct (rejects_unknown && negb (configured fresh)) eqn:E.
  - kbind allocate_ok. intros ok s4 H4 _. kbind Remember_ok. intros [] s5 H5 _. by split; [|intros []].
  - assert (¬ refusable id) as Hn.
    { intros [Hrej Hu]. subst rejects_unknown. rewrite Hrej in E. cbn in E. apply Hu, Hf. by apply negb_false_iff in E. }
    kbind may_throw_ok. intros [] s4 H4 _. kbind allocate_ok. intros ok s5 H5 _.
    eapply keeps_last; [exact H5|apply Adopt_ok; [by eapply k_inv|done]|done].
Qed.

Lemma RefusedBeforeDecode_ok id request now s : Inv s → ok_wp id (RefusedBeforeDecode o env request now) (λ _ _, True) s.
Proof.
  intros H. unfold RefusedBeforeDecode. pose proof (keeps_refl id s H). destruct (unknown_leaf o); [done|].
  destruct (_ || _); [done|]. destruct (env_resolver env); [by apply Contains_ok|done].
Qed.

(** What [Admit] lets through. *)
Record admitted (request : IngestRequest) (p0 p : Payload) : Prop := {
  ad_decoded : d_decode deps (rq_payload request) (decode_limits o) = inr (p_decoded p);
  ad_modes : p_modes p = collect_modes (p_decoded p);
  ad_length : length (p_modes p) = length (p_decoded p);
  ad_received : p_received p = p_received p0;
  ad_now : p_now p = p_now p0
}.
Lemma Admit_ok id request p0 s : Inv s →
  wp (Admit o deps env request p0)
     (λ r s', match r with None => rejects id s s' | Some p => keeps id s s' ∧ admitted request p0 p end) (keeps id s) s.
Proof.
  intros H. unfold Admit. pose proof (keeps_refl id s H) as Hr.
  assert ((TooLarge, LeafPayloadTooLarge) ∈ verdicts) as V1 by (by left).
  assert ((Malformed, LeafPayloadMalformed) ∈ verdicts) as V2 by (right; by left).
  assert ((UnknownLeaf, LeafUnknown) ∈ verdicts) as V3 by (right; right; by left).
  destruct (_ <? _); [by eapply reject_ok|]. destruct (_ <? _); [by eapply reject_ok|].
  kbind RefusedBeforeDecode_ok. intros [] s1 H1 _; [by eapply reject_ok|]. kbind may_throw_ok. intros [] s2 H2 _.
  destruct (d_decode _ _ _) as [[]|decoded] eqn:Ed; [by eapply reject_ok..|]. kbind may_throw_ok. intros [] s3 H3 _.
  cbn zeta. destruct (_ || _) eqn:E; [by eapply reject_ok|]. apply orb_false_iff in E as [E _]. apply orb_false_iff in E as [_ E].
  apply negb_false_iff, Nat.eqb_eq in E. by split; [|split].
Qed.

Lemma ModesAllowed_ok id p v s : p_settings p = Some v → Inv s → ok_wp id (ModesAllowed o p) (λ _ _, True) s.
Proof. intros E H. unfold ModesAllowed. rewrite E. split; [by apply keeps_refl|done]. Qed.
Lemma CountIdConflict_ok id request p s : Inv s → ok_wp id (CountIdConflict o request p) (λ _ _, True) s.
Proof.
  intros H. unfold CountIdConflict. pose proof (keeps_refl id s H). destruct (_ || _); [done|]. cbn zeta. destruct (existsb _ _); [|done].
  by apply add_ok.
Qed.
(** What [Identify] adds. *)
Record identified (request : IngestRequest) (p0 p : Payload) : Prop := {
  id_leaf : p_leaf_id p = SettleLeafId o request p0;
  id_settings : is_Some (p_settings p);
  id_known : ¬ refusable (p_leaf_id p);
  id_decoded : p_decoded p = p_decoded p0;
  id_modes : p_modes p = p_modes p0;
  id_received : p_received p = p_received p0
}.
Lemma Identify_ok request p0 s : Inv s →
  let id := SettleLeafId o request p0 in
  wp (Identify o deps env request p0)
     (λ r s', match r with None => rejects id s s' | Some p => keeps id s s' ∧ identified request p0 p end) (keeps id s) s.
Proof.
  intros H id. unfold Identify. pose proof (keeps_refl id s H) as Hr.
  assert ((Malformed, LeafPayloadMalformed) ∈ verdicts) as V2 by (right; by left).
  assert ((UnknownLeaf, LeafUnknown) ∈ verdicts) as V3 by (right; right; by left).
  kbind may_throw_ok. intros [] s1 H1 _. cbn zeta. destruct (_ || _); [by eapply reject_ok|].
  kbind SettingsFor_ok. intros [v|] s2 H2 Hn; [|by eapply reject_ok].
  eapply keeps_bind; [eassumption|eapply (ModesAllowed_ok id _ v); [done|by eapply k_inv]|]. intros [] s3 H3 _; [|by eapply reject_ok].
  kbind CountIdConflict_ok. intros [] s4 H4 _. split; [done|]. split; try done. apply Hn. by eexists.
Qed.

Lemma ResourceFor_ok p v declared s : p_settings p = Some v → ¬ refusable (p_leaf_id p) → Inv s →
  ok_wp (p_leaf_id p) (ResourceFor o env p declared)
    (λ r s', ∃ q res, r = Some q ∧ heap s' !! q = Some res ∧ made_for (p_leaf_id p) (HashDeclaredResource declared) res) s.
Proof.
  intros Ev Hn H. set (id := p_leaf_id p). unfold ResourceFor. pose proof (keeps_refl id s H) as Hr. cbn zeta.
  kbind Find_ok. intros [q|] s1 H1 Hc; [split; [done|]; destruct (Hc q eq_refl) as (res & ? & ?); by exists q, res|].
  rewrite Ev. eapply (keeps_bind id _ (λ a _, a = v)); [eassumption|split; [by eapply keeps_refl, k_inv|done]|]. intros ? s2 H2 ->.
  rewrite (surjective_pairing (Receiver_BudgetFor o v)). kbind may_throw_ok. intros [] s3 H3 _.
  destruct (ResolveLeafResource _) as [resource dropped] eqn:Er. eapply (keeps_bind id _ (λ mine s', heap s' !! mine = Some resource)); [eassumption|split|].
  { apply (keeps_step id s3 (add_resource resource)); try done; [by eapply k_inv|]. cbn. by eexists. }
  { cbn. by rewrite lookup_app_r, Nat.sub_diag by done. }
  intros mine s5 H5 Hmine. kstep add_ok. intros [] s6 H6 K6 _. apply (heap_kept _ _ _ _ _ K6) in Hmine.
  kstep allocate_ok. intros ok s7 H7 K7 _. apply (heap_kept _ _ _ _ _ K7) in Hmine.
  eapply keeps_bind; [eassumption|apply Insert_ok; [by eapply k_inv|done|]|].
  { exists resource. split; [done|]. exists declared, (ls_resource v), (fst (Receiver_BudgetFor o v)). split; [done|]. symmetry. exact (f_equal fst Er). }
  intros kept s8 H8 (q & res & -> & Hq & Hmade). eapply keeps_bind_step; [eassumption|instantiate (1 := λ _ _, True)|].
  - pose proof (keeps_refl id s8 (k_inv _ _ _ H8)) as R8. destruct (_ && _); [|done].
    kbind may_throw_ok. intros [] s9 H9 _. eapply keeps_last; [exact H9|apply LogImpl_ok; by eapply k_inv|done].
  - intros [] s9 H9 K9 _. split; [done|]. exists q, res. split_and!; [done|by eapply heap_kept|done].
Qed.

Lemma SaturatingSub_le a b : a <= kMax → SaturatingSub a b <= kMax.
Proof.
  intros H. unfold SaturatingSub. destruct ((b <? 0) && _) eqn:E1; [lia|]. destruct ((0 <? b) && _) eqn:E2; [unfold kMin, kMax; width_lia|].
  apply andb_false_iff in E1 as [E1|E1]; bool_hyps; lia.
Qed.
Definition fixed_ok (c : TimeCorrection) : Prop := ∀ f, tc_fixed c = Some f → 0 <= f <= kMax.
Lemma stamped_fixed received e : received <= kMax → fixed_ok (ConcentratorStamped received e).
Proof. intros H f. destruct e; cbn; [done|]. intros [= <-]. unfold kMax in *. width_lia. Qed.
Lemma CorrectionFor_ok p mode info fell_back s : p_received p <= kMax → ¬ refusable (p_leaf_id p) → Inv s →
  ok_wp (p_leaf_id p) (CorrectionFor o env p mode info fell_back) (λ c _, fixed_ok (fst c)) s.
Proof.
  intros Hrec Hn H. pose proof (keeps_refl (p_leaf_id p) s H) as Hr. destruct mode; cbn [CorrectionFor].
  - split; [done|]. by apply stamped_fixed.
  - destruct (SyncRelative _ _ _ _) as [c|] eqn:E; [|split; [done|by apply stamped_fixed]].
    split; [done|]. unfold SyncRelative in E. case_match; [done|]. by simplify_eq.
  - kbind allocate_ok. intros ok s1 H1 _.
    eapply keeps_bind; [eassumption|apply Anchor_ok; [by eapply k_inv|done|by apply SaturatingSub_le]|]. intros b s2 H2 _. done.
  - done.
Qed.

(** *** Spans *)

(** The spans of a payload with their scopes, in order. *)
Definition scope_spans (sc : DecodedScopeSpans) : list (SpanRecord * InstrumentationScope) :=
  (λ span, (span, ds_scope sc)) <$> ds_spans sc.
Definition resource_spans (rs : DecodedResourceSpans) : list (SpanRecord * InstrumentationScope) := rs_scopes rs ≫= scope_spans.
Definition all_spans (decoded : list DecodedResourceSpans) : list (SpanRecord * InstrumentationScope) :=
  decoded ≫= resource_spans.

(** What is handed to the processor for the span [src] of the leaf [id]. *)
Record delivers (id : str) (hp : list Resource) (src : SpanRecord * InstrumentationScope)
    (out : SpanRecord * InstrumentationScope * bool) : Prop := {
  dv_scope : snd (fst out) = snd src;
  dv_ids : trace_id (sr_context (fst (fst out))) = trace_id (sr_context (fst src))
           ∧ span_id (sr_context (fst (fst out))) = span_id (sr_context (fst src))
           ∧ sr_parent_context (fst (fst out)) = sr_parent_context (fst src);
  dv_valid : SpanContext_IsValid (sr_context (fst (fst out))) = true;
  dv_sampled : trace_flags (sr_context (fst (fst out))) = kSampled;
  dv_name : sr_name (fst (fst out)) = sr_name (fst src) ∧ sr_kind (fst (fst out)) = sr_kind (fst src)
            ∧ sr_status_code (fst (fst out)) = sr_status_code (fst src);
  dv_times : 0 <= sr_start_time (fst (fst out)) ∧ sr_start_time (fst (fst out)) <= sr_end_time (fst (fst out))
             ∧ sr_end_time (fst (fst out)) <= kMax;
  dv_events : Forall (λ e, 0 <= ev_timestamp e <= kMax) (sr_events (fst (fst out)));
  dv_within : record_within (d_span_limits deps) (fst (fst out));
  dv_resource : ∃ p r h, sr_resource (fst (fst out)) = Some p ∧ hp !! p = Some r ∧ made_for id h r
}.
Lemma delivers_mono id hp hp' src out : hp `prefix_of` hp' → delivers id hp src out → delivers id hp' src out.
Proof.
  intros [k ->] []. split; try done. destruct dv_resource0 as (p & r & h & ? & ? & ?). exists p, r, h.
  split_and!; [done|by apply lookup_app_l_Some|done].
Qed.

(** The sink took the offers in order, answering each as recorded. *)
Fixpoint offers (k : K) (new : list (SpanRecord * InstrumentationScope * bool)) (k' : K) : Prop :=
  match new with
  | [] => k' = k
  | (x, ok) :: new => ∃ k1, sink_offer k x = (k1, ok) ∧ offers k1 new k'
  end.
Lemma offers_app k a k' b k'' : offers k a k' → offers k' b k'' → offers k (a ++ b) k''.
Proof.
  revert k. induction a as [|[x ok] a IH]; intros k; cbn; [by intros ->|]. intros (k1 & H1 & H2) H3. exists k1. split; [done|]. by apply IH.
Qed.

Definition taken_count (new : list (SpanRecord * InstrumentationScope * bool)) : Z := size (List.filter snd new).
Definition refused_count (new : list (SpanRecord * InstrumentationScope * bool)) : Z := size (List.filter (negb ∘ snd) new).
Definition counts_u32 (r : IngestResult) : Prop :=
  is_u32 (spans_accepted r) ∧ is_u32 (spans_sampled_out r) ∧ is_u32 (spans_dropped r).

(** The spans [src] of the leaf [id] have gone through. *)
Record processed (id : str) (src : list (SpanRecord * InstrumentationScope)) (s s' : Receiver K) : Prop := {
  pr_inv : Inv s';
  pr_heap : heap s `prefix_of` heap s';
  pr_shut : m_shut_down s' = m_shut_down s;
  pr_tally : tally s' = tally s;
  pr_u32 : counts_u32 (result s');
  pr_work : ∃ kept new, kept `sublist_of` src ∧ offered s' = offered s ++ new
    ∧ Forall2 (delivers id (heap s')) kept new ∧ offers (sink s) new (sink s')
    ∧ result s' = add_counts (result s) (taken_count new) (size src - size new) (refused_count new)
}.

Lemma add_counts_u32 r a b d : counts_u32 (add_counts r a b d).
Proof. split_and!; apply to_uint_u32. Qed.
Lemma add_counts_0 r : counts_u32 r → add_counts r 0 0 0 = r.
Proof.
  intros (H1 & H2 & H3). destruct r as [st a b c]. unfold add_counts. cbn in *. rewrite !Z.add_0_r. by rewrite !to_uint32_id.
Qed.
Lemma add_counts_add r a b d a' b' d' :
  add_counts (add_counts r a b d) a' b' d' = add_counts r (a + a') (b + b') (d + d').
Proof. unfold add_counts. cbn. by rewrite !to_uint32_add_l, !Z.add_assoc. Qed.
Lemma taken_count_app a b : taken_count (a ++ b) = taken_count a + taken_count b.
Proof. unfold taken_count. by rewrite List.filter_app, size_app. Qed.
Lemma refused_count_app a b : refused_count (a ++ b) = refused_count a + refused_count b.
Proof. unfold refused_count. by rewrite List.filter_app, size_app. Qed.

Lemma keeps_processed id s s' : counts_u32 (result s) → keeps id s s' → processed id [] s s'.
Proof.
  intros Hu [? ? Ho Hs ? Hr ? ?]. split; try done; [by rewrite Hr|]. exists [], []. rewrite Ho, app_nil_r.
  split_and!; [done|done|constructor|done|]. rewrite Hr. change (size []) with 0. by rewrite add_counts_0.
Qed.
Lemma processed_trans id a b s s' s'' : processed id a s s' → processed id b s' s'' → processed id (a ++ b) s s''.
Proof.
  intros [I1 H1 S1 T1 U1 (k1 & n1 & Hk1 & Ho1 & Hd1 & Hf1 & Hr1)] [I2 H2 S2 T2 U2 (k2 & n2 & Hk2 & Ho2 & Hd2 & Hf2 & Hr2)].
  split; [done|by etrans|congruence|congruence|done|]. exists (k1 ++ k2), (n1 ++ n2).
  split_and!; [by apply sublist_app|by rewrite Ho2, Ho1, app_assoc| |by eapply offers_app|].
  - apply Forall2_app; [|done]. eapply Forall2_impl; [exact Hd1|]. intros x y. by apply delivers_mono.
  - rewrite Hr2, Hr1, add_counts_add, taken_count_app, refused_count_app, !size_app. f_equal. lia.
Qed.

Lemma Corrected_bounds t c : is_i64 t → fixed_ok c → 0 <= Corrected t c <= kMax.
Proof.
  unfold Corrected. intros Ht Hf. destruct (tc_fixed c) as [f|] eqn:E; [by apply Hf|]. unfold SaturatingAdd.
  destruct ((0 <? tc_offset c) && _) eqn:E1; [unfold kMax; width_lia|].
  destruct ((tc_offset c <? 0) && _) eqn:E2; [unfold kMax, kMin; width_lia|].
  unfold kMax, kMin in *. apply andb_false_iff in E1 as [E1|E1]; bool_hyps; width_lia.
Qed.
Lemma Corrected_monotone t u c : t <= u → is_i64 t → is_i64 u → Corrected t c <= Corrected u c.
Proof.
  unfold Corrected. intros Hle Ht Hu. destruct (tc_fixed c) as [f|]; [lia|]. apply Z.max_le_compat_l. unfold SaturatingAdd.
  destruct (0 <? tc_offset c) eqn:E1, (tc_offset c <? 0) eqn:E2; cbn [andb]; bool_hyps; [lia| | |lia].
  - destruct (_ <? t) eqn:A, (_ <? u) eqn:B; bool_hyps; lia.
  - destruct (t <? _) eqn:A, (u <? _) eqn:B; bool_hyps; lia.
Qed.

(** A decoded span with C++ values that passed [SpansValid]. *)
Record good_span (x : SpanRecord * InstrumentationScope) : Prop := {
  gs_start : is_i64 (sr_start_time (fst x));
  gs_end : is_i64 (sr_end_time (fst x));
  gs_events : Forall (λ e, is_i64 (ev_timestamp e)) (sr_events (fst x));
  gs_ordered : sr_start_time (fst x) <= sr_end_time (fst x);
  gs_valid : SpanContext_IsValid (sr_context (fst x)) = true
}.

Context (Hlimits : limits_unsigned (d_span_limits deps)) (Hsampler : rooted (d_sampler deps) = true).

Lemma appended_within attributes extra diag :
  let l := d_span_limits deps in
  attributes_within (attribute_count_limit l) (attribute_value_length_limit l) attributes →
  attributes_within (attribute_count_limit l) (attribute_value_length_limit l) (fst (AppendAttributes attributes extra l diag)).
Proof.
  intros l [Hs Hv]. subst l. destruct Hlimits as (H1 & H2 & H3 & H4 & _). unfold is_u32 in *. unfold AppendAttributes.
  rewrite AppendAttributes_loop_spec by lia. cbn [fst]. split.
  - rewrite size_app. unfold first_n, size in *. rewrite length_fmap, length_take. lia.
  - apply Forall_app. split; [done|]. apply Forall_fmap, Forall_forall. intros kv _. cbn. apply clip_value_within; lia.
Qed.

Lemma finished_delivers id hp x c attributes sampling p r h ok :
  good_span x → fixed_ok c → hp !! p = Some r → made_for id h r →
  let span := trimmed (d_span_limits deps) (ApplyTimeCorrection (fst x) c) in
  let l := d_span_limits deps in
  attributes_within (attribute_count_limit l) (attribute_value_length_limit l) attributes →
  delivers id hp x (finish_record span attributes sampling (Some p), snd x, ok).
Proof.
  intros [G1 G2 G3 G4 G5] Hc Hp Hm span l Ha. pose proof (trimmed_within _ (ApplyTimeCorrection (fst x) c) Hlimits) as (_ & W2 & W3 & W4 & W5).
  split; try done.
  - cbn. split; [by apply Corrected_bounds|]. split; [by apply Corrected_monotone|]. by apply Corrected_bounds.
  - cbn. apply Forall_fmap, Forall_first_n, Forall_fmap. eapply Forall_impl; [exact G3|]. intros e He. cbn. by apply Corrected_bounds.
  - by exists p, r, h.
Qed.

Lemma EnqueueSpan_ok id x p r h c s :
  Inv s → counts_u32 (result s) → good_span x → fixed_ok c → heap s !! p = Some r → made_for id h r →
  wp (EnqueueSpan deps env (fst x) (snd x) (Some p) c) (λ _ s', processed id [x] s s') (λ _, False) s.
Proof.
  intros H Hu Hg Hc Hp Hm. unfold EnqueueSpan. cbn zeta.
  destruct (ApplySpanLimits_spec (ApplyTimeCorrection (fst x) c) (d_span_limits deps) (d_diagnostics deps) Hlimits) as [Etrim _].
  destruct (ApplySpanLimits _ _ _) as [span calls]. cbn [fst] in Etrim. subst span. apply wp_bind, wp_act. cbv beta.
  set (span := trimmed _ _). set (ctx := mkSamplingContext _ _ _ _ _ _).
  destruct (rooted_total (d_sampler deps) ctx Hsampler) as [sampling Es]. rewrite Es. apply wp_bind, wp_ret.
  destruct (bool_decide (decision sampling = RecordAndSample)) eqn:Ed; cbn [negb].
  - pose proof (appended_within (sr_attributes span) (additional_attributes sampling) (d_diagnostics deps)) as Hw.
    destruct (AppendAttributes (sr_attributes span) _ _ _) as [attributes calls2] eqn:Ea. cbv zeta in Hw. rewrite Ea in Hw.
    apply wp_bind, wp_act. cbv beta. apply wp_must_allocate, wp_act. cbv beta.
    destruct (sink_offer _ _) as [k ok] eqn:Eo. cbn [sink add_drops next_alloc] in Eo. cbn [fst] in Hw.
    pose proof (finished_delivers id (heap s) x c attributes sampling p r h ok Hg Hc Hp Hm
      (Hw (proj1 (trimmed_within _ (ApplyTimeCorrection (fst x) c) Hlimits)))) as Hd.
    destruct ok; (split; [done|done|done|done|apply add_counts_u32|]; exists [x]; eexists [_]; split_and!;
      [done|reflexivity|by constructor|cbn; by exists k|reflexivity]).
  - apply wp_act. cbv beta. split; [done|done|done|done|apply add_counts_u32|]. exists [], []. rewrite app_nil_r.
    split_and!; [apply sublist_nil_l|done|constructor|done|reflexivity].
Qed.

Lemma enqueue_spans_ok id spans scope p r h c s :
  Inv s → counts_u32 (result s) → Forall (λ x, good_span (x, scope)) spans → fixed_ok c → heap s !! p = Some r → made_for id h r →
  wp (enqueue_spans deps env spans scope (Some p) c) (λ _ s', processed id ((λ x, (x, scope)) <$> spans) s s') (λ _, False) s.
Proof.
  revert s. induction spans as [|x spans IH]; intros s H Hu Hg Hc Hp Hm; cbn [enqueue_spans].
  { apply wp_ret. by apply keeps_processed, keeps_refl. }
  apply Forall_cons_1 in Hg as [Hx Hg]. apply wp_bind. eapply wp_mono; [by apply (EnqueueSpan_ok id (x, scope) p r h c s)| |done].
  intros [] s1 P1. assert (heap s1 !! p = Some r) as Hp1 by (destruct (pr_heap _ _ _ _ P1) as [k ->]; by apply lookup_app_l_Some).
  eapply wp_mono; [apply IH; try done; [by eapply pr_inv|by eapply pr_u32]| |done].
  intros [] s2 P2. by apply (processed_trans id [_] _ s s1 s2).
Qed.
Lemma EnqueueResourceSpans_ok id scopes p r h c s :
  Inv s → counts_u32 (result s) → Forall good_span (scopes ≫= scope_spans) → fixed_ok c → heap s !! p = Some r → made_for id h r →
  wp (EnqueueResourceSpans deps env scopes (Some p) c) (λ _ s', processed id (scopes ≫= scope_spans) s s') (λ _, False) s.
Proof.
  revert s. induction scopes as [|sc scopes IH]; intros s H Hu Hg Hc Hp Hm; cbn [EnqueueResourceSpans].
  { apply wp_ret. by apply keeps_processed, keeps_refl. }
  rewrite bind_cons in *. apply Forall_app in Hg as [Hx Hg]. apply wp_bind. eapply wp_mono; [apply (enqueue_spans_ok id _ _ p r h c); try done| |done].
  { unfold scope_spans in Hx. rewrite Forall_fmap in Hx. exact Hx. }
  intros [] s1 P1. assert (heap s1 !! p = Some r) as Hp1 by (destruct (pr_heap _ _ _ _ P1) as [k ->]; by apply lookup_app_l_Some).
  eapply wp_mono; [apply IH; try done; [by eapply pr_inv|by eapply pr_u32]| |done].
  intros [] s2 P2. by apply (processed_trans id (scope_spans sc) _ s s1 s2).
Qed.

(** Part of the spans have gone through when an allocation fails. *)
Definition interrupted (id : str) (src : list (SpanRecord * InstrumentationScope)) (s s' : Receiver K) : Prop :=
  ∃ finished, finished `prefix_of` src ∧ processed id finished s s'.
Lemma processed_keeps id a s s' s'' : processed id a s s' → keeps id s' s'' → processed id a s s''.
Proof.
  intros P Hk. rewrite <- (app_nil_r a). eapply processed_trans; [exact P|]. apply keeps_processed; [by eapply pr_u32|done].
Qed.
Lemma processed_bind {A B} id a src (m : M K A) (T : A → Receiver K → Prop) (f : A → M K B) Q s0 s :
  processed id a s0 s → a `prefix_of` src → (Inv s → ok_wp id m T s) →
  (∀ v s', processed id a s0 s' → T v s' → wp (f v) Q (interrupted id src s0) s') →
  wp (m ≫= f) Q (interrupted id src s0) s.
Proof.
  intros P Hpre Hm Hf. apply wp_bind. eapply wp_mono; [apply Hm; by eapply pr_inv| |].
  - intros v s' [Hk HT]. apply Hf; [by eapply processed_keeps|done].
  - intros s' Hk. exists a. split; [done|by eapply processed_keeps].
Qed.
Lemma RecordDrop_processed id reason n s s0 a : processed id a s0 s →
  wp (RecordDrop deps reason n) (λ _ s', processed id a s0 s') (λ _, False) s.
Proof. by intros [H1 H2 H3 H4 H5 H6]. Qed.

Lemma Enqueue_loop_ok p v rest i fell_back a src s0 s :
  let id := p_leaf_id p in
  p_settings p = Some v → ¬ refusable id → p_received p <= kMax →
  length (p_modes p) = (i + length rest)%nat → Forall good_span (all_spans rest) → src = a ++ all_spans rest →
  processed id a s0 s →
  wp (Enqueue_loop o deps env p rest i fell_back) (λ _ s', processed id src s0 s') (interrupted id src s0) s.
Proof.
  intros id Ev Hn Hrec. revert i fell_back a s. induction rest as [|rs rest IH]; intros i fb a s Hlen Hg Hsrc P; cbn [Enqueue_loop].
  { apply wp_ret. rewrite Hsrc. cbn. by rewrite app_nil_r. }
  unfold all_spans in *. rewrite bind_cons in *. apply Forall_app in Hg as [Hx Hg]. cbn zeta.
  assert (a `prefix_of` src) as Hpre by (rewrite Hsrc; by eexists).
  eapply processed_bind; [exact P|done|intros I0; by apply add_ok|]. intros [] s1 P1 _.
  eapply processed_bind; [exact P1|done|intros I1; by apply add_ok|]. intros [] s2 P2 _.
  apply wp_bind. eapply wp_mono; [by apply (RecordDrop_processed id _ _ s2 s0 a)| |done]. intros [] s3 P3.
  destruct (lookup_lt_is_Some_2 (p_modes p) i) as [mode Hmode]; [cbn in Hlen; lia|]. rewrite Hmode.
  eapply (processed_bind id a src _ (λ m _, m = mode)); [exact P3|done|intros I3; split; [by apply keeps_refl|done]|]. intros ? s4 P4 ->.
  eapply processed_bind; [exact P4|done|intros I4; by apply CorrectionFor_ok|]. intros [c fb'] s5 P5 Hc. cbn [fst snd] in *.
  eapply processed_bind; [exact P5|done|intros I5; by apply (ResourceFor_ok p v)|]. intros ptr s6 P6 (q & res & -> & Hq & Hm).
  apply wp_bind. eapply wp_mono; [eapply (EnqueueResourceSpans_ok id); try done; [by eapply pr_inv|by eapply pr_u32]| |done].
  intros [] s7 P7. apply (IH _ _ (a ++ resource_spans rs)); [cbn in Hlen; lia|done|by rewrite Hsrc, app_assoc|].
  by eapply processed_trans.
Qed.

Lemma Enqueue_ok p v s :
  let id := p_leaf_id p in let src := all_spans (p_decoded p) in
  p_settings p = Some v → ¬ refusable id → p_received p <= kMax → length (p_modes p) = length (p_decoded p) →
  Forall good_span src → Inv s → counts_u32 (result s) →
  wp (Enqueue o deps env p) (λ _ s', processed id src s s') (interrupted id src s) s.
Proof.
  intros id src Ev Hn Hrec Hlen Hg H Hu. unfold Enqueue. apply wp_bind.
  eapply wp_mono; [apply (Enqueue_loop_ok p v _ 0 false [] src); try done; by apply keeps_processed, keeps_refl| |done].
  intros fb s1 P1. assert (Inv s1) as I1 by exact (pr_inv _ _ _ _ P1). destruct fb; [|done].
  eapply wp_mono; [by apply (add_ok id time_fallbacks 1 s1)| |].
  - intros [] s2 [Hk _]. by eapply processed_keeps.
  - intros s2 Hk. exists src. split; [done|by eapply processed_keeps].
Qed.

(** *** A whole call *)

(** The decoder yields C++ values and no more spans than it is allowed. *)
Record typed_span (x : SpanRecord * InstrumentationScope) : Prop := {
  ty_start : is_i64 (sr_start_time (fst x));
  ty_end : is_i64 (sr_end_time (fst x));
  ty_events : Forall (λ e, is_i64 (ev_timestamp e)) (sr_events (fst x))
}.
Definition decoder_ok : Prop := ∀ payload limits decoded, d_decode deps payload limits = inr decoded →
  size (all_spans decoded) <= dl_max_spans limits ∧ Forall typed_span (all_spans decoded).
Context (Hdecoder : decoder_ok) (Hspans : is_u32 (max_spans_per_payload o)).

Lemma collect_modes_length decoded : (length (collect_modes decoded) <= length decoded)%nat.
Proof. induction decoded as [|rs l IH]; cbn; [done|]. destruct (CheckWireInfo _); cbn; [|lia]. destruct (negb _); cbn; lia. Qed.
Lemma collect_modes_valid decoded : length (collect_modes decoded) = length decoded → Forall (λ rs, SpansValid rs = true) decoded.
Proof.
  induction decoded as [|rs l IH]; cbn; [constructor|]. destruct (CheckWireInfo _); [|done].
  destruct (SpansValid rs) eqn:E; cbn; [|done]. intros [= Hl]. constructor; auto.
Qed.
Lemma SpansValid_spans rs : SpansValid rs = true → Forall (λ x, span_invalid (fst x) = false) (resource_spans rs).
Proof.
  unfold SpansValid, resource_spans. intros H. apply Forall_forall. intros x (sc & Hx & Hsc)%list_elem_of_bind.
  apply (forallb_elem _ _ sc) in H; [|done]. apply negb_true_iff in H. unfold scope_spans in Hx.
  apply list_elem_of_fmap in Hx as (span & -> & Hspan). cbn. destruct (span_invalid span) eqn:E; [|done].
  rewrite <- H. symmetry. apply existsb_exists. exists span. split; [by apply list_elem_of_In|done].
Qed.
Lemma admitted_spans request p0 p : admitted request p0 p →
  Forall good_span (all_spans (p_decoded p)) ∧ size (all_spans (p_decoded p)) <= max_spans_per_payload o.
Proof.
  intros [Hd Hm Hl _ _]. destruct (Hdecoder _ _ _ Hd) as [Hs Ht]. split; [|done]. rewrite Hm in Hl.
  apply collect_modes_valid in Hl. rewrite Forall_forall in Hl. pose proof (proj1 (Forall_forall _ _) Ht) as Ht'.  apply Forall_forall. intros x Hx. destruct (Ht' x Hx) as [T1 T2 T3].
  unfold all_spans in Hx. apply list_elem_of_bind in Hx as (rs & Hx & Hrs).
  pose proof (SpansValid_spans rs (Hl rs Hrs)) as Hv. rewrite Forall_forall in Hv. specialize (Hv x Hx).
  unfold span_invalid in Hv. apply orb_false_iff in Hv as [Hv Ho]. apply orb_false_iff in Hv as [Hv1 Hv2].
  apply negb_false_iff in Hv1, Hv2. bool_hyps. split; try done. unfold SpanContext_IsValid. by rewrite Hv1, Hv2.
Qed.

Definition accept_state s : Receiver K :=
  let r := result s in
  let s := set_result (mkIngestResult (if 0 <? spans_dropped r then PartiallyAccepted else Accepted)
             (spans_accepted r) (spans_sampled_out r) (spans_dropped r)) s in
  set_counters (bump payloads_accepted 1 (m_counters s)) s.
(** The leaf a payload is attributed to: the transport's id, if there is one. *)
Definition attributed (request : IngestRequest) (id : str) : Prop := rq_leaf_id request ≠ [] → id = rq_leaf_id request.
Lemma SettleLeafId_attributed request p : attributed request (SettleLeafId o request p).
Proof. intros H. unfold SettleLeafId. by destruct (rq_leaf_id request). Qed.

Definition payload_of (request : IngestRequest) (decoded : list DecodedResourceSpans) : Prop :=
  d_decode deps (rq_payload request) (decode_limits o) = inr decoded.
Lemma IngestOrThrow_ok request wall now s :
  Inv s → counts_u32 (result s) → ReceivedNs request wall <= kMax →
  wp (IngestOrThrow o deps env request wall now)
    (λ _ s', ∃ id, attributed request id
       ∧ (rejects id s s' ∨ ∃ decoded s1, payload_of request decoded ∧ ¬ refusable id
                              ∧ processed id (all_spans decoded) s s1 ∧ s' = accept_state s1))
    (λ s', ∃ id, attributed request id
       ∧ (keeps id s s' ∨ ∃ decoded, payload_of request decoded ∧ ¬ refusable id ∧ interrupted id (all_spans decoded) s s')) s.
Proof.
  intros H Hu Hrec. unfold IngestOrThrow. cbn zeta. set (p0 := mkPayload [] [] [] None (ReceivedNs request wall) now).
  apply wp_bind. eapply wp_mono; [apply (wp_forall _ _ _ s (λ id, Admit_ok id request p0 s H))| |].
  2: { intros s' Hk. exists (rq_leaf_id request). split; [done|left; by apply Hk]. }
  intros [p1|] s1 H1; [|exists (rq_leaf_id request); split; [done|left; by apply H1]].
  destruct (H1 []) as [_ Ha]. destruct (admitted_spans _ _ _ Ha) as [Hg Hn]. set (id := SettleLeafId o request p1).
  assert (attributed request id) as Hid by apply SettleLeafId_attributed.
  destruct (H1 id) as [K1 _]. clear H1. apply wp_bind. eapply wp_mono; [apply (Identify_ok request p1 s1 (k_inv _ _ _ K1))| |].
  2: { intros s' Hk. exists id. split; [done|left; by eapply keeps_trans]. }
  intros [p2|] s2; [|intros (s3 & v & Hv & Hk & ->); exists id; split; [done|left; exists s3, v; split_and!; [done|by eapply keeps_trans|done]]].
  intros [K2 [I1 [v I2] I3 I4 I5 I6]]. pose proof (keeps_trans _ _ _ _ K1 K2) as K12. pose proof (k_result _ _ _ K12) as Er.
  assert (p_received p2 <= kMax) as Hrec2 by (by rewrite I6, (ad_received _ _ _ Ha)).
  assert (length (p_modes p2) = length (p_decoded p2)) as Hl2 by (rewrite I4, I5; by eapply ad_length).
  assert (payload_of request (p_decoded p2)) as Hp2 by (rewrite I4; by eapply ad_decoded).
  apply wp_bind. eapply wp_mono; [apply (Enqueue_ok p2 v s2 I2 I3 Hrec2 Hl2); [by rewrite I4|by eapply k_inv|by rewrite Er]| |].
  - intros [] s3 P3. exists (p_leaf_id p2). rewrite I1. split; [done|]. right. exists (p_decoded p2), s3.
    rewrite I1 in *. split_and!; [done|done| |done]. by apply (processed_trans _ [] _ _ s2); [apply keeps_processed|].
  - intros s3 (fin & Hpre & P3). exists (p_leaf_id p2). rewrite I1 in *. split; [done|]. right. exists (p_decoded p2).
    split_and!; [done|done|]. exists fin. split; [done|]. by apply (processed_trans _ [] _ _ s2); [apply keeps_processed|].
Qed.

Definition counter_of (st : IngestStatus) : Counter :=
  match st with
  | Malformed | TooLarge | UnknownLeaf => payloads_rejected
  | ShutDown => payloads_post_shutdown
  | OutOfMemory => payloads_out_of_memory
  | _ => payloads_accepted
  end.
Definition is_accepted (st : IngestStatus) : bool :=
  match st with Accepted | PartiallyAccepted => true | _ => false end.

(** How many spans of the payload a call got through: all of an accepted one, some
    of one that ran out of memory, none otherwise. *)
Definition progress (request : IngestRequest) (st : IngestStatus) (finished : list (SpanRecord * InstrumentationScope)) : Prop :=
  match st with
  | Accepted | PartiallyAccepted => ∃ decoded, payload_of request decoded ∧ finished = all_spans decoded
  | OutOfMemory => finished = [] ∨ ∃ decoded, payload_of request decoded ∧ finished `prefix_of` all_spans decoded
  | Disabled => False
  | _ => finished = []
  end.

(** The contract of one call. *)
Record ingested (request : IngestRequest) (s s' : Receiver K) (r : IngestResult) : Prop := {
  in_inv : Inv s';
  in_heap : heap s `prefix_of` heap s';
  in_shut : m_shut_down s' = m_shut_down s ∧ (status r = ShutDown ↔ m_shut_down s = true);
  in_tally : tally s' = bump (counter_of (status r)) 1 (m_counters s) <$> payload_counters;
  in_partial : status r = PartiallyAccepted ∨ status r = Accepted →
    (status r = PartiallyAccepted ↔ 0 < spans_dropped r);
  in_reason : ∀ reason, (status r, reason) ∈ verdicts → drops s' = drops s ++ Count (d_diagnostics deps) reason 1;
  in_spans : ∃ id finished kept new, attributed request id ∧ progress request (status r) finished
    ∧ kept `sublist_of` finished ∧ offered s' = offered s ++ new ∧ Forall2 (delivers id (heap s')) kept new
    ∧ offers (sink s) new (sink s') ∧ spans_accepted r = taken_count new ∧ spans_dropped r = refused_count new
    ∧ spans_sampled_out r = size finished - size new
    ∧ (refusable id → is_accepted (status r) = false ∧ new = [] ∧ view (m_recency (m_table s')) = view (m_recency (m_table s)))
}.

Lemma new_counts (new : list (SpanRecord * InstrumentationScope * bool)) : taken_count new + refused_count new = size new ∧ 0 <= taken_count new ∧ 0 <= refused_count new.
Proof.
  unfold taken_count, refused_count, size, compose. induction new as [|[x []] new IH]; cbn [List.filter snd negb length]; lia.
Qed.
Lemma processed_counts id src s s' :
  result s = mkIngestResult Accepted 0 0 0 → size src <= u32_max → processed id src s s' →
  ∃ kept new, kept `sublist_of` src ∧ offered s' = offered s ++ new ∧ Forall2 (delivers id (heap s')) kept new
    ∧ offers (sink s) new (sink s')
    ∧ result s' = mkIngestResult Accepted (taken_count new) (size src - size new) (refused_count new).
Proof.
  intros Er Hs P. destruct (pr_work _ _ _ _ P) as (kept & new & Hk & Ho & Hd & Hf & Hr). exists kept, new. split_and!; [done..|].
  rewrite Hr, Er. unfold add_counts. cbn. rewrite !Z.add_0_l || idtac.
  pose proof (new_counts new) as (? & ? & ?). apply Forall2_length in Hd. apply sublist_length in Hk.
  assert (size new <= size src) by (unfold size; lia).
  rewrite !to_uint32_id by (width_lia). done.
Qed.

Lemma tally_bump st s s' : tally s' = tally s →
  bump (counter_of st) 1 (m_counters s') <$> payload_counters = bump (counter_of st) 1 (m_counters s) <$> payload_counters.
Proof.
  intros H. unfold tally, payload_counters in *. cbn in *. injection H as H1 H2 H3 H4. unfold bump.
  destruct st; cbn; by rewrite ?H1, ?H2, ?H3, ?H4.
Qed.
Lemma tally_set c n s : tally (set_counters (bump c n (m_counters s)) s) = bump c n (m_counters s) <$> payload_counters.
Proof. done. Qed.

Lemma Ingest_rejected request id s s' :
  m_shut_down s = false → attributed request id → rejects id s s' → ingested request s s' (result s').
Proof.
  intros Hs Hid (s1 & v & Hv & [] & ->).
  assert (status (result (reject_state v s1)) = fst v) as Est by done.
  assert (∃ st reason, v = (st, reason) ∧ counter_of st = payloads_rejected ∧ is_accepted st = false ∧ st ≠ ShutDown
          ∧ (∀ d, progress request st d ↔ d = []) ∧ ∀ reason', (st, reason') ∈ verdicts → reason' = reason) as (st & reason & -> & Hc & Ha & Hn & Hp & Hu).
  { destruct v as [st reason]. apply verdict_spec in Hv. exists st, reason. split; [done|].
    destruct st; try done; (split_and!; [done..|]; intros r' Hr%verdict_spec; congruence). }
  split; try done.
  - split; [done|]. cbn. split; [done|]. congruence.
  - rewrite Est. cbn [fst]. rewrite Hc. exact (tally_bump Malformed s s1 k_tally0).
  - cbn. intros [->| ->]; done.
  - intros reason'. cbn. intros Hin. rewrite (Hu _ Hin). by rewrite k_drops0.
  - exists id, [], [], []. cbn. rewrite k_offered0, k_sink0, app_nil_r. split_and!; try done; [by apply Hp|]. intros Hr. split_and!; [done..|]. by apply k_table0.
Qed.
Lemma Ingest_accepted request id decoded s s1 :
  m_shut_down s = false → result s = mkIngestResult Accepted 0 0 0 → attributed request id → payload_of request decoded → ¬ refusable id →
  processed id (all_spans decoded) s s1 → ingested request s (accept_state s1) (result (accept_state s1)).
Proof.
  intros Hs Er Hid Hp Hn P. destruct (Hdecoder _ _ _ Hp) as [Hlen _]. cbn in Hlen.
  destruct (processed_counts _ _ _ _ Er (Z.le_trans _ _ _ Hlen (proj2 Hspans)) P) as (kept & new & Hk & Ho & Hd & Hf & Hr).
  destruct P as [I1 I2 I3 I4 I5 _].
  assert (status (result (accept_state s1)) = if 0 <? refused_count new then PartiallyAccepted else Accepted) as Est by (cbn; by rewrite Hr).
  assert (is_accepted (status (result (accept_state s1))) = true) as Ha by (rewrite Est; by destruct (_ <? _)).
  assert (progress request (status (result (accept_state s1))) (all_spans decoded)) as Hpr
    by (rewrite Est; destruct (_ <? _); by exists decoded).
  split; try done.
  - split; [done|]. rewrite Est, Hs. by destruct (_ <? _).
  - transitivity (bump payloads_accepted 1 (m_counters s1) <$> payload_counters); [done|].
    rewrite Est. destruct (_ <? _); exact (tally_bump Accepted s s1 I4).
  - intros _. rewrite Est. cbn. rewrite Hr. cbn. destruct (0 <? refused_count new) eqn:E; bool_hyps; split; try done; lia.
  - intros reason Hin. exfalso. rewrite Est in Hin. destruct (_ <? _); by apply verdict_spec in Hin.
  - exists id, (all_spans decoded), kept, new. split_and!; try done; cbn; by rewrite Hr.
Qed.
(** The count, and perhaps a line in the log. *)
Definition oom_state (log' : list str) (allocs' : nat) s : Receiver K :=
  mkReceiver (m_table s) (m_unknown s) (bump payloads_out_of_memory 1 (m_counters s)) (m_shut_down s) (heap s)
    (sink s) (offered s) (drops s) log' (set_status OutOfMemory (result s)) (asked s) allocs'.
Lemma out_of_memory_ok E s :
  wp (_ ← RecordOutOfMemory env; _ ← modify (λ s, set_result (set_status OutOfMemory (result s)) s); get result)
    (λ r s', r = set_status OutOfMemory (result s) ∧ ∃ log' allocs', s' = oom_state log' allocs' s) E s.
Proof.
  apply wp_bind. unfold RecordOutOfMemory. apply wp_bind, wp_act. cbv beta.
  destruct (_ =? 0); [apply wp_must_allocate, wp_act|apply wp_ret]; apply wp_bind, wp_act; apply wp_act; (split; [done|by eexists _, _]).
Qed.
Lemma Ingest_interrupted log' allocs' request id finished s s1 :
  m_shut_down s = false → result s = mkIngestResult Accepted 0 0 0 → attributed request id → size finished <= u32_max →
  (finished = [] ∨ ∃ decoded, payload_of request decoded ∧ finished `prefix_of` all_spans decoded) →
  processed id finished s s1 →
  (refusable id → finished = [] ∧ view (m_recency (m_table s1)) = view (m_recency (m_table s))) →
  ingested request s (oom_state log' allocs' s1) (set_status OutOfMemory (result s1)).
Proof.
  intros Hs Er Hid Hlen Hfin P Ht. destruct (processed_counts _ _ _ _ Er Hlen P) as (kept & new & Hk & Ho & Hd & Hf & Hr).
  destruct P as [I1 I2 I3 I4 I5 _].
  rewrite Hr. unfold set_status. cbn [spans_accepted spans_sampled_out spans_dropped]. split; try done.
  - split; [done|]. cbn. by rewrite Hs.
  - exact (tally_bump OutOfMemory s s1 I4).
  - cbn. by intros [|].
  - cbn. intros reason Hin. exfalso. by apply verdict_spec in Hin.
  - exists id, finished, kept, new. split_and!; try done. intros Hr'. destruct (Ht Hr') as [-> Hv].
    apply sublist_nil_r in Hk as ->. by apply Forall2_nil_inv_l in Hd as ->.
Qed.

Lemma ingested_reset request x s s' r : ingested request (set_result x s) s' r → ingested request s s' r.
Proof. by intros []; split. Qed.

Lemma Ingest_ok request wall now s : Inv s → ReceivedNs request wall <= kMax →
  wp (Ingest o deps env request wall now) (λ r s', ingested request s s' r) (λ _, False) s.
Proof.
  intros H Hrec. unfold Ingest. apply wp_bind, wp_act. cbv beta. destruct (m_shut_down s) eqn:Hs.
  { apply wp_bind, wp_act, wp_ret. split; [done|done|by split|done|by intros [?|?]| |].
    - intros reason Hin. exfalso. by apply verdict_spec in Hin.
    - exists (rq_leaf_id request), [], [], []. cbn. rewrite app_nil_r. split_and!; try done. }
  apply wp_bind, wp_act. cbv beta. set (s0 := set_result (mkIngestResult Accepted 0 0 0) s).
  assert (Inv s0) as H0 by exact H. assert (counts_u32 (result s0)) as Hu by (unfold counts_u32; cbn [result s0 set_result spans_accepted spans_sampled_out spans_dropped]; split_and!; width_lia).
  apply wp_try. eapply wp_mono; [exact (IngestOrThrow_ok request wall now s0 H0 Hu Hrec)| |].
  - intros [] s1 (id & Hid & Hw). apply wp_act. cbv beta. apply (ingested_reset request (mkIngestResult Accepted 0 0 0)).
    destruct Hw as [Hr|(decoded & s2 & Hp & Hn & P & ->)];
      [by eapply (Ingest_rejected request id s0)|by eapply (Ingest_accepted request id decoded s0)].
  - intros s1 (id & Hid & Hw). eapply wp_mono; [apply (out_of_memory_ok (λ _, False))| |done]. intros r s2 (-> & log' & allocs' & ->).
    apply (ingested_reset request (mkIngestResult Accepted 0 0 0)). destruct Hw as [Hk|(decoded & Hp & Hn & fin & Hpre & P)].
    + apply (Ingest_interrupted log' allocs' request id [] s0 s1); try done; [by left|by apply keeps_processed|]. intros Hr. split; [done|by apply Hk].
    + apply (Ingest_interrupted log' allocs' request id fin s0 s1); try done; [|right; by exists decoded].
      destruct (Hdecoder _ _ _ Hp) as [Hlen _]. cbn in Hlen. apply prefix_size in Hpre. destruct Hspans. lia.
Qed.

(** *** Histories *)

Lemma SdkLeafReceiver_inv k : Inv (SdkLeafReceiver o k).
Proof.
  split.
  - exists (Lru_new (max_leaves o) (SaturatingNs (leaf_idle_timeout o))). split; [apply sim_new|constructor].
  - exists []. split; [apply il_empty_inv|done|done|done|done].
Qed.

(** Clock readings are 64-bit nanoseconds. *)
Definition op_typed (op : ReceiverOp (K:=K)) : Prop :=
  match op with OpIngest request wall _ => ReceivedNs request wall <= kMax | _ => True end.

Lemma Ingest_runs request wall now s : Inv s → ReceivedNs request wall <= kMax →
  ∃ s' e, run (Ingest o deps env request wall now) s = Some (s', e) ∧
    match e with
    | Ends (Returned r) => ingested request s s' r
    | Ends Threw => False
    | Terminated d => fatal d
    end.
Proof.
  intros H Hrec. pose proof (Ingest_ok request wall now s H Hrec) as Hw. unfold wp in Hw.
  destruct (run _ s) as [[s' e]|]; [|done]. exists s', e. split; [done|]. by destruct e as [[]|].
Qed.
Lemma Ingest_returned request wall now s s' r : Inv s → ReceivedNs request wall <= kMax →
  run (Ingest o deps env request wall now) s = Some (s', Ends (Returned r)) → ingested request s s' r.
Proof. intros H Hrec Hr. destruct (Ingest_runs request wall now s H Hrec) as (s1 & e & He & Hi). rewrite Hr in He. by injection He as <- <-. Qed.

Lemma exec_ok s op s' r : Inv s → op_typed op → receiver_exec o deps env s op = Some (s', r) →
  Inv s' ∧ match op, r with
    | OpIngest request wall now, Some r => ingested request s s' r
    | OpMarkShutDown, None => s' = MarkShutDown s
    | OpSink f, None => s' = with_sink (f (sink s)) s
    | _, _ => False
    end.
Proof.
  intros H Ht. destruct op as [request wall now| |f]; cbn [receiver_exec]; [|by intros [= <- <-]..].
  destruct (Ingest_runs request wall now s H Ht) as (s1 & e & -> & Hi). destruct e as [[r1|]|]; [|done..].
  intros [= <- <-]. split; [apply Hi|done].
Qed.
Lemma receiver_run_inv s os s' rs : Inv s → Forall op_typed os → run_receiver o deps env s os = Some (s', rs) → Inv s'.
Proof.
  revert s rs. induction os as [|op os IH]; intros s rs H Ht; cbn [run_receiver]; [by intros [= <- _]|].
  apply Forall_cons_1 in Ht as [Hop Ht]. destruct (receiver_exec o deps env s op) as [[s1 r]|] eqn:E; cbn; [|done].
  destruct (exec_ok s op s1 r H Hop E) as [H1 _]. destruct (run_receiver o deps env s1 os) as [[s2 rs2]|] eqn:E2; cbn; [|done].
  intros [= -> _]. by apply (IH s1 rs2).
Qed.
Definition is_ingest (op : ReceiverOp (K:=K)) : bool := match op with OpIngest _ _ _ => true | _ => false end.
Definition counted (c : Counter) (r : IngestResult) : bool := bool_decide (counter_of (status r) = c).
Lemma ingested_counter request s s' r c : c ∈ payload_counters → ingested request s s' r →
  m_counters s' c = bump (counter_of (status r)) 1 (m_counters s) c.
Proof.
  intros Hc Hi. pose proof (in_tally _ _ _ _ Hi) as Ht. unfold tally in Ht.
  apply list_elem_of_lookup in Hc as [i Hc]. apply (f_equal (lookup i)) in Ht. rewrite !list_lookup_fmap, Hc in Ht. by injection Ht.
Qed.
Lemma run_counters s os s' rs c : c ∈ payload_counters → Inv s → Forall op_typed os →
  run_receiver o deps env s os = Some (s', rs) →
  to_uint 64 (m_counters s' c) = to_uint 64 (m_counters s c + size (List.filter (counted c) rs))
  ∧ length rs = length (List.filter is_ingest os).
Proof.
  intros Hc. revert s rs. induction os as [|op os IH]; intros s rs H Ht; cbn [run_receiver].
  { intros [= <- <-]. by rewrite Z.add_0_r. }
  apply Forall_cons_1 in Ht as [Hop Ht]. destruct (receiver_exec o deps env s op) as [[s1 r]|] eqn:E; cbn [mbind option_bind]; [|done].
  destruct (exec_ok s op s1 r H Hop E) as [H1 Hr].
  destruct (run_receiver o deps env s1 os) as [[s2 rs2]|] eqn:Er; cbn; [|done]. intros [= <- <-].
  destruct (IH s1 rs2 H1 Ht Er) as [E1 E2]. rewrite E1.
  destruct op as [request wall now| |f], r as [r|]; try done; [|by subst..].
  change (option_list (Some r) ++ rs2) with (r :: rs2). cbn [List.filter is_ingest length].
  split; [|by rewrite E2]. rewrite (ingested_counter _ _ _ _ c Hc Hr). unfold bump.
  destruct (counted c r) eqn:Ec; unfold counted in Ec.
  - apply bool_decide_eq_true in Ec. rewrite decide_True, Ec, to_uint_add_l, size_cons by done. f_equal. lia.
  - apply bool_decide_eq_false in Ec. by rewrite decide_False by congruence.
Qed.
Lemma run_u64 s os s' rs c : c ∈ payload_counters → Inv s → is_u64 (m_counters s c) → Forall op_typed os →
  run_receiver o deps env s os = Some (s', rs) → is_u64 (m_counters s' c).
Proof.
  intros Hc. revert s rs. induction os as [|op os IH]; intros s rs H Hu Ht; cbn [run_receiver]; [by intros [= <- <-]|].
  apply Forall_cons_1 in Ht as [Hop Ht]. destruct (receiver_exec o deps env s op) as [[s1 r]|] eqn:E; cbn [mbind option_bind]; [|done].
  destruct (exec_ok s op s1 r H Hop E) as [H1 Hr].
  destruct (run_receiver o deps env s1 os) as [[s2 rs2]|] eqn:Er; cbn; [|done]. intros [= <- <-].
  apply (IH s1 rs2); try done. destruct op as [request wall now| |f], r as [r|]; try done; [|by subst..].
  rewrite (ingested_counter _ _ _ _ c Hc Hr). unfold bump. destruct (decide _); [apply to_uint_u64|done].
Qed.
Lemma made_for_id id h r : leaf_id_attribute o ≠ [] → made_for id h r →
  lookup_attr (leaf_id_attribute o) (m_attributes r) = Some (AvString id).
Proof.
  intros Hne (declared & configured & budget & _ & ->). rewrite resolve_lookup. unfold layered, id_layer.
  cbn [ly_id_key ly_leaf_id]. destruct (leaf_id_attribute o) eqn:E; [done|]. cbn [is_empty]. by rewrite last_attr_one, seqb_refl.
Qed.

End invariant.

(** ** The receiver's contract *)

Section contract.
Context {K : Type} `{!SpanSink K}.
Context (o : LeafReceiverOptions) (deps : LeafReceiverDeps) (env : Environment).

(** What the receiver relies on: documented behaviour of the decoder and a valid
    configuration.  Nothing is assumed of the resolver. *)
Record receiver_ok : Prop := {
  ro_limits : limits_unsigned (d_span_limits deps);
  ro_sampler : rooted (d_sampler deps) = true;
  ro_decoder : decoder_ok deps;
  ro_spans : is_u32 (max_spans_per_payload o)
}.
(** A state some history of calls leads to. *)
Definition reachable (s : Receiver K) : Prop :=
  ∃ k os rs, Forall op_typed os ∧ run_receiver o deps env (SdkLeafReceiver o k) os = Some (s, rs).

Lemma reachable_inv s : receiver_ok → reachable s → Inv o env s.
Proof.
  intros [] (k & os & rs & Ht & Hr).
  eapply (receiver_run_inv o deps env ro_limits0 ro_sampler0 ro_decoder0 ro_spans0); [apply SdkLeafReceiver_inv|done|exact Hr].
Qed.
Lemma run_app (s : Receiver K) a b s1 r1 s2 r2 :
  run_receiver o deps env s a = Some (s1, r1) → run_receiver o deps env s1 b = Some (s2, r2) →
  run_receiver o deps env s (a ++ b) = Some (s2, r1 ++ r2).
Proof.
  revert s r1. induction a as [|op a IH]; intros s r1; cbn [run_receiver app]; [by intros [= -> <-]|].
  destruct (receiver_exec o deps env s op) as [[s' r]|]; cbn [mbind option_bind]; [|done].
  destruct (run_receiver o deps env s' a) as [[s'' rs]|] eqn:E; cbn; [|done]. intros [= -> <-] Hb.
  rewrite (IH s' rs E Hb). cbn. by rewrite app_assoc.
Qed.
Lemma reachable_ingest s request wall now s' r : reachable s → ReceivedNs request wall <= kMax →
  run (Ingest o deps env request wall now) s = Some (s', Ends (Returned r)) → reachable s'.
Proof.
  intros (k & os & rs & Ht & Hr) Hrec Hi. exists k, (os ++ [OpIngest request wall now]), (rs ++ [r]). split.
  - apply Forall_app. split; [done|]. by constructor.
  - eapply run_app; [exact Hr|]. cbn [run_receiver receiver_exec]. rewrite Hi. done.
Qed.

(** C25: one [Ingest] call running alone, from every state that a history of such calls
    leads to and whatever the sender, the resolver, the clocks and the allocator do, has no undefined behaviour
    and lets no exception reach its caller: it returns, or it ends the process, and
    that only when the resolver threw something outside [std::exception], which no
    handler of the [noexcept] call catches, or when an allocation failed inside the
    [noexcept] [EnqueueSpan] or [LogImpl].  When it returns it keeps its contract
    [ingested]; for an accepted payload the three counts add up to the spans it decoded
    to; a payload that was refused or came too late has zero counts and hands nothing
    on; a payload that ran out of memory reports exactly what had been handed on. *)
Theorem ingest_contract s request wall now :
  receiver_ok → reachable s → ReceivedNs request wall <= kMax →
  ∃ s' e, run (Ingest o deps env request wall now) s = Some (s', e) ∧
    match e with
    | Terminated (ForeignThrow n id) => ∃ resolver, env_resolver env = Some resolver ∧ resolver n id = ThrewForeign
    | Terminated (NoexceptAllocation n) => env_alloc env n = false
    | Ends Threw => False
    | Ends (Returned r) =>
        reachable s' ∧ ingested o deps env request s s' r ∧ status r ≠ Disabled
        ∧ (is_accepted (status r) = true → ∃ decoded,
             d_decode deps (rq_payload request) (decode_limits o) = inr decoded
             ∧ spans_accepted r + spans_sampled_out r + spans_dropped r = size (all_spans decoded))
        ∧ (is_accepted (status r) = false → status r ≠ OutOfMemory →
             spans_accepted r = 0 ∧ spans_sampled_out r = 0 ∧ spans_dropped r = 0 ∧ offered s' = offered s ∧ sink s' = sink s)
    end.
Proof.
  intros Hok Hr Hrec. pose proof (reachable_inv s Hok Hr) as HI. destruct Hok as [H2 H3 H4 H5].
  destruct (Ingest_runs o deps env H2 H3 H4 H5 request wall now s HI Hrec) as (s' & e & Hi & Hc). exists s', e.
  split; [done|]. destruct e as [[r|]|[n id|n]]; [|done|exact Hc|exact Hc]. split; [by eapply reachable_ingest|]. split; [done|].
  destruct (in_spans _ _ _ _ _ _ _ Hc) as (id & fin & kept & new & _ & Hp & Hk & Ho & Hd & Hf & Ha & Hdr & Hs & _).
  pose proof (new_counts new) as (Hsum & _ & _). split; [intros E; by rewrite E in Hp|]. split.
  - intros Hacc. destruct (status r); try done; destruct Hp as (decoded & Hp & ->); exists decoded; (split; [done|]; lia).
  - intros Hacc Hoom. assert (fin = []) as -> by (by destruct (status r)). apply sublist_nil_r in Hk as ->.
    apply Forall2_nil_inv_l in Hd as ->. rewrite Ha, Hdr, Hs, Ho, app_nil_r. by cbn in Hf.
Qed.

Lemma to_uint_zsum {A} (f g : A → Z) l : (∀ x, x ∈ l → g x = to_uint 64 (f x)) → to_uint 64 (zsum g l) = to_uint 64 (zsum f l).
Proof.
  induction l as [|x l IH]; intros H; [done|]. rewrite !zsum_cons, (H x) by left. rewrite to_uint_add_l, <- to_uint_add_r, IH, to_uint_add_r;
    [done|]. intros y Hy. apply H. by right.
Qed.
Lemma counted_partition rs : zsum (λ c, size (List.filter (counted c) rs)) payload_counters = size rs.
Proof.
  unfold payload_counters. rewrite !zsum_cons. change (zsum _ []) with 0. induction rs as [|r rs IH]; [done|].
  cbn [List.filter]. assert (∀ c, counted c r = bool_decide (counter_of (status r) = c)) as E by done. rewrite !E, size_cons.
  destruct (status r); cbn [counter_of]; repeat first [rewrite bool_decide_true by done|rewrite bool_decide_false by done];
    rewrite ?size_cons; lia.
Qed.

(** Over every history of calls that the process survives, one at a time, with the
    pipeline behind the sink moving in between, each payload is counted in exactly one of the four payload counters,
    the one its result names, so the counters add up to the number of calls (mod
    2^64); after [MarkShutDown] nothing reaches the sink. *)
Theorem ingest_accounting k os s rs :
  receiver_ok → Forall op_typed os → run_receiver o deps env (SdkLeafReceiver o k) os = Some (s, rs) →
    length rs = length (List.filter is_ingest os)
    ∧ (∀ c, c ∈ payload_counters → counter_values (Stats s) c = to_uint 64 (size (List.filter (counted c) rs)))
    ∧ to_uint 64 (zsum (counter_values (Stats s)) payload_counters) = to_uint 64 (size rs)
    ∧ (∀ request wall now s' r, m_shut_down s = true → run (Ingest o deps env request wall now) s = Some (s', Ends (Returned r)) →
         status r = ShutDown ∧ sink s' = sink s ∧ offered s' = offered s).
Proof.
  intros [H2 H3 H4 H5] Ht Hr.
  assert (∀ c, c ∈ payload_counters → counter_values (Stats s) c = to_uint 64 (size (List.filter (counted c) rs))) as Hc.
  { intros c Hc. destruct (run_counters o deps env H2 H3 H4 H5 _ os s rs c Hc (SdkLeafReceiver_inv _ _ k) Ht Hr) as [E _].
    cbn in E. rewrite Z.add_0_l in E. rewrite <- E. symmetry. apply to_uint64_id.
    exact (run_u64 o deps env H2 H3 H4 H5 (SdkLeafReceiver o k) os s rs c Hc (SdkLeafReceiver_inv _ _ k)
             ltac:(cbn; width_lia) Ht Hr). }
  split; [by apply (run_counters o deps env H2 H3 H4 H5 _ os s rs payloads_accepted ltac:(by left) (SdkLeafReceiver_inv _ _ k) Ht Hr)|].
  split; [done|]. split.
  - rewrite <- (counted_partition rs). by apply to_uint_zsum.
  - intros request wall now s' r Hs Hi. cbn [run Ingest] in Hi. cbn in Hi. rewrite Hs in Hi. cbn in Hi. by injection Hi as <- <-.
Qed.
(** C26: what a call hands to the processor is well typed and belongs to its leaf:
    every span keeps its ids, name, kind and scope, in payload order; it has valid
    ids, the sampled flag alone, corrected times in range and in order, and respects
    the span limits; its Resource exists, stays valid from then on, and names the
    leaf the payload came from, whatever id the payload itself claimed. *)
Theorem leaf_spans_typed s request wall now s' r :
  receiver_ok → reachable s → ReceivedNs request wall <= kMax → run (Ingest o deps env request wall now) s = Some (s', Ends (Returned r)) →
  heap s `prefix_of` heap s'
  ∧ ∃ id sources new, (rq_leaf_id request ≠ [] → id = rq_leaf_id request) ∧ offered s' = offered s ++ new
    ∧ (∀ decoded, d_decode deps (rq_payload request) (decode_limits o) = inr decoded → sources `sublist_of` all_spans decoded)
    ∧ Forall2 (λ src out, let span := fst (fst out) in
        snd (fst out) = snd src ∧ sr_name span = sr_name (fst src) ∧ sr_kind span = sr_kind (fst src)
        ∧ trace_id (sr_context span) = trace_id (sr_context (fst src)) ∧ span_id (sr_context span) = span_id (sr_context (fst src))
        ∧ SpanContext_IsValid (sr_context span) = true ∧ trace_flags (sr_context span) = kSampled
        ∧ 0 <= sr_start_time span ∧ sr_start_time span <= sr_end_time span ∧ sr_end_time span <= kMax
        ∧ Forall (λ e, 0 <= ev_timestamp e <= kMax) (sr_events span)
        ∧ record_within (d_span_limits deps) span
        ∧ ∃ p res, sr_resource span = Some p ∧ heap s' !! p = Some res
          ∧ (leaf_id_attribute o ≠ [] → lookup_attr (leaf_id_attribute o) (m_attributes res) = Some (AvString id)))
      sources new.
Proof.
  intros Hok Hr Hrec Hi. pose proof (reachable_inv s Hok Hr) as HI. destruct Hok as [H2 H3 H4 H5].
  pose proof (Ingest_returned o deps env H2 H3 H4 H5 request wall now s s' r HI Hrec Hi) as Hc.
  split; [apply Hc|]. destruct (in_spans _ _ _ _ _ _ _ Hc) as (id & fin & kept & new & Hid & Hp & Hk & Ho & Hd & _).
  exists id, kept, new. split_and!; [done|done| |].
  - intros decoded Hdec. etrans; [exact Hk|]. unfold progress, payload_of in Hp.
    destruct (status r); try done; try (subst fin; apply sublist_nil_l); try (destruct Hp as (d & Hp & ->); congruence).
    + destruct Hp as (d & Hp & ->). rewrite Hdec in Hp. by injection Hp as ->.
    + destruct Hp as (d & Hp & ->). rewrite Hdec in Hp. by injection Hp as ->.
    + destruct Hp as [->|(d & Hp & Hpre)]; [apply sublist_nil_l|]. rewrite Hdec in Hp. injection Hp as ->. by apply prefix_sublist.
  - eapply Forall2_impl; [exact Hd|]. intros src out [D1 (D2 & D2' & _) D3 D4 (D5 & D5' & _) (D6 & D6' & D6'') D7 D8 (p & res & h & D9 & D10 & D11)].
    cbv zeta. split_and!; try done. exists p, res. split_and!; [done|done|]. intros Hne. by eapply made_for_id.
Qed.

(** Refused leaves cost the accepted ones nothing.  Under [unknown_leaf = Reject]
    no leaf that neither the configuration nor any resolver answer knows ever has a
    table entry; a payload whose transport names such a leaf is never accepted, hands
    nothing on, and leaves the table's entries, their order and their last sightings as
    they were, so it cannot evict anyone. *)
Theorem unknown_leaves_isolated s :
  receiver_ok → reachable s → unknown_leaf o = RejectUnknown →
  (∀ id, ¬ known_leaf o env id → id ∉ e_id <$> view (m_recency (m_table s)))
  ∧ ∀ request wall now s' r, ReceivedNs request wall <= kMax → rq_leaf_id request ≠ [] →
      ¬ known_leaf o env (rq_leaf_id request) → run (Ingest o deps env request wall now) s = Some (s', Ends (Returned r)) →
      is_accepted (status r) = false ∧ offered s' = offered s ∧ view (m_recency (m_table s')) = view (m_recency (m_table s)).
Proof.
  intros Hok Hr Hrej. pose proof (reachable_inv s Hok Hr) as HI. destruct Hok as [H2 H3 H4 H5]. split.
  - destruct HI as [(lru & Hs & Hf) _]. rewrite (sim_view _ _ Hs). intros id Hn (e & -> & He)%list_elem_of_fmap.
    rewrite Forall_forall in Hf. destruct (Hf e He) as [_ Hno]. by apply Hno.
  - intros request wall now s' r Hrec Hne Hun Hi.
    pose proof (Ingest_returned o deps env H2 H3 H4 H5 request wall now s s' r HI Hrec Hi) as Hc.
    destruct (in_spans _ _ _ _ _ _ _ Hc) as (id & fin & kept & new & Hid & _ & _ & Ho & _ & _ & _ & _ & _ & Hrf).
    rewrite (Hid Hne) in Hrf. destruct (Hrf (conj Hrej Hun)) as (? & -> & ?). by rewrite Ho, app_nil_r.
Qed.
End contract.

(** ** A receiver at work *)

(** A decoder that knows one payload. *)
Definition demo_decoded : list DecodedResourceSpans :=
  [mkDecodedResourceSpans
     [mkKeyValue $"microtel.leaf.proto" (AvInt 1); mkKeyValue $"microtel.leaf.time_mode" (AvInt 0);
      mkKeyValue $"microtel.leaf.encode_time" (AvInt 100); mkKeyValue $"device.id" (AvString $"leaf-9")]
     [mkDecodedScopeSpans (mkScope $"fw" [])
        [mkSpanRecord (mkSpanContext (replicate 16 7) (replicate 8 9) 0 TraceState_default false) SpanContext_default
           $"read" KindInternal CodeUnset [] 10 70 [] [] [] None]] 0 0].
Definition demo_decode (payload : str) (limits : DecodeLimits) : DecodeFailure + list DecodedResourceSpans :=
  if dl_max_spans limits <? 1 then inl DecodeTooLarge
  else if payload =s $"spans" then inr demo_decoded else inl DecodeMalformed.
Definition demo_deps : LeafReceiverDeps := mkLeafReceiverDeps AlwaysOn true SpanLimitOptions_default demo_decode.
Definition demo_env : Environment := mkEnvironment None (λ _, true).
(** A resolver whose first answer is an exception outside [std::exception]. *)
Definition foreign_env : Environment := mkEnvironment (Some (λ _ _, ThrewForeign)) (λ _, true).
Definition demo_request (id : str) : IngestRequest := mkIngestRequest id $"spans" None.

Lemma demo_receiver_ok : receiver_ok demo_leaf_options demo_deps.
Proof.
  split; [|done| |cbn; width_lia].
  - unfold limits_unsigned. cbn. split_and!; width_lia.
  - intros payload limits decoded. cbn. unfold demo_decode. destruct (_ <? _) eqn:E; [done|]. bool_hyps. destruct (_ =s _); [|done].
    intros [= <-]. split; [cbn; change (size [_]) with 1; lia|]. constructor; [|constructor]. split; cbn; [width_lia..|constructor].
Qed.
Definition demo_history (ids : list str) : list (ReceiverOp (K:=nat)) := (λ id, OpIngest (demo_request id) 1000 5) <$> ids.
#[local] Instance demo_sink : SpanSink nat := plain_sink (λ n _, S n).
Lemma demo_history_typed ids : Forall op_typed (demo_history ids).
Proof. unfold demo_history. apply Forall_fmap, Forall_forall. intros id _. cbn. unfold kMax. width_lia. Qed.
Definition demo_receiver : Receiver nat := SdkLeafReceiver demo_leaf_options 0%nat.
Lemma demo_reachable : reachable demo_leaf_options demo_deps demo_env demo_receiver.
Proof. by exists 0%nat, [], []. Qed.

Lemma demo_reachable_in env : reachable demo_leaf_options demo_deps env demo_receiver.
Proof. by exists 0%nat, [], []. Qed.
Lemma ingest_contract_witness :
  (∃ s' r, run (Ingest demo_leaf_options demo_deps demo_env (demo_request $"leaf-7") 1000 5) demo_receiver = Some (s', Ends (Returned r))
    ∧ status r = Accepted ∧ spans_accepted r + spans_sampled_out r + spans_dropped r = 1
    ∧ m_counters s' leaf_id_conflicts = 1)
  ∧ ∃ s' n id, run (Ingest demo_leaf_options demo_deps foreign_env (demo_request $"leaf-7") 1000 5) demo_receiver = Some (s', Terminated (ForeignThrow n id))
    ∧ ∃ resolver, env_resolver foreign_env = Some resolver ∧ resolver n id = ThrewForeign.
Proof.
  split.
  - destruct (ingest_contract demo_leaf_options demo_deps demo_env demo_receiver (demo_request $"leaf-7") 1000 5
      demo_receiver_ok demo_reachable ltac:(cbn; unfold kMax; width_lia)) as (s' & e & Hi & He).
    assert (match run (Ingest demo_leaf_options demo_deps demo_env (demo_request $"leaf-7") 1000 5) demo_receiver with
            | Some (s, Ends (Returned r)) => Some (status r, m_counters s leaf_id_conflicts) | _ => None end = Some (Accepted, 1)) as E
      by (vm_compute; reflexivity).
    rewrite Hi in E. destruct e as [[r|]|d]; [|discriminate..]. injection E as E1 E2. exists s', r.
    split; [exact Hi|]. split; [exact E1|]. split; [|exact E2]. destruct He as (_ & _ & _ & Ha & _).
    destruct Ha as (decoded & Hd & ->); [by rewrite E1|]. cbn in Hd. vm_compute in Hd. injection Hd as <-. reflexivity.
  - destruct (ingest_contract demo_leaf_options demo_deps foreign_env demo_receiver (demo_request $"leaf-7") 1000 5
      demo_receiver_ok (demo_reachable_in foreign_env) ltac:(cbn; unfold kMax; width_lia)) as (s' & e & Hi & He).
    assert (match run (Ingest demo_leaf_options demo_deps foreign_env (demo_request $"leaf-7") 1000 5) demo_receiver with
            | Some (_, Terminated (ForeignThrow _ _)) => true | _ => false end = true) as E by (vm_compute; reflexivity).
    rewrite Hi in E. destruct e as [[r|]|[n id|n]]; [discriminate..| |discriminate]. exists s', n, id. split; [exact Hi|exact He].
Defined.
Definition demo_calls : list (ReceiverOp (K:=nat)) :=
  demo_history [$"leaf-7"; $"stranger"; []] ++ [OpMarkShutDown] ++ demo_history [$"leaf-7"].
Lemma ingest_accounting_witness :
  ∃ s rs, run_receiver demo_leaf_options demo_deps demo_env demo_receiver demo_calls = Some (s, rs)
    ∧ (status <$> rs) = [Accepted; UnknownLeaf; UnknownLeaf; ShutDown]
    ∧ to_uint 64 (zsum (counter_values (Stats s)) payload_counters) = 4.
Proof.
  assert (option_map (λ p, status <$> snd p : list IngestStatus)
      (run_receiver demo_leaf_options demo_deps demo_env demo_receiver demo_calls)
    = Some [Accepted; UnknownLeaf; UnknownLeaf; ShutDown]) as E by (vm_compute; reflexivity).
  destruct (run_receiver demo_leaf_options demo_deps demo_env demo_receiver demo_calls) as [[s rs]|] eqn:Hr; [|discriminate].
  injection E as E. exists s, rs. split; [reflexivity|]. split; [exact E|].
  destruct (ingest_accounting demo_leaf_options demo_deps demo_env 0%nat demo_calls s rs demo_receiver_ok) as (Hl & _ & Hz & _);
    [|exact Hr|rewrite Hz; unfold size; rewrite Hl; reflexivity].
  apply Forall_app. split; [apply demo_history_typed|]. apply Forall_app. split; [by constructor|apply demo_history_typed].
Defined.
Lemma leaf_spans_typed_witness :
  ∃ s' r id new, run (Ingest demo_leaf_options demo_deps demo_env (demo_request $"leaf-7") 1000 5) demo_receiver = Some (s', Ends (Returned r))
    ∧ offered s' = new ∧ length new = 1%nat ∧ id = $"leaf-7"
    ∧ Forall (λ out, trace_flags (sr_context (fst (fst out))) = kSampled) new.
Proof.
  assert (match run (Ingest demo_leaf_options demo_deps demo_env (demo_request $"leaf-7") 1000 5) demo_receiver with Some (_, Ends (Returned _)) => true | _ => false end = true) as Ed
    by (vm_compute; reflexivity).
  destruct (run (Ingest demo_leaf_options demo_deps demo_env (demo_request $"leaf-7") 1000 5) demo_receiver) as [[s' [[r|]|]]|] eqn:Hi; [clear Ed|discriminate..].
  destruct (leaf_spans_typed demo_leaf_options demo_deps demo_env demo_receiver (demo_request $"leaf-7") 1000 5 s' r
    demo_receiver_ok demo_reachable ltac:(cbn; unfold kMax; width_lia) Hi) as (_ & id & sources & new & Hid & Ho & _ & Hf).
  exists s', r, id, new. split; [reflexivity|]. split; [exact Ho|].
  assert (((λ p, length (offered (fst p))) <$> run (Ingest demo_leaf_options demo_deps demo_env (demo_request $"leaf-7") 1000 5) demo_receiver)
    = Some 1%nat) as E by (vm_compute; reflexivity).
  rewrite Hi in E. cbn in E. rewrite Ho in E. injection E as E. split; [exact E|]. split; [by apply Hid|].
  eapply Forall2_Forall_r; [exact Hf|]. apply Forall_forall. intros src _ out H.
  by destruct H as (_ & _ & _ & _ & _ & _ & H & _).
Defined.
Lemma unknown_leaves_isolated_witness :
  ∃ s' r, run (Ingest demo_leaf_options demo_deps demo_env (demo_request $"stranger") 1000 5) demo_receiver = Some (s', Ends (Returned r))
    ∧ is_accepted (status r) = false ∧ view (m_recency (m_table s')) = [].
Proof.
  assert (match run (Ingest demo_leaf_options demo_deps demo_env (demo_request $"stranger") 1000 5) demo_receiver with Some (_, Ends (Returned _)) => true | _ => false end = true) as Ed
    by (vm_compute; reflexivity).
  destruct (run (Ingest demo_leaf_options demo_deps demo_env (demo_request $"stranger") 1000 5) demo_receiver) as [[s' [[r|]|]]|] eqn:Hi; [clear Ed|discriminate..].
  destruct (unknown_leaves_isolated demo_leaf_options demo_deps demo_env demo_receiver demo_receiver_ok demo_reachable eq_refl) as [_ H].
  destruct (H (demo_request $"stranger") 1000 5 s' r) as (H1 & _ & H2); [cbn; unfold kMax; width_lia|done| |exact Hi|].
  - intros [[c E]|(f & n & a & E & _)]; [vm_compute in E; discriminate|discriminate].
  - exists s', r. split; [reflexivity|]. split; [exact H1|exact H2].
Defined.
