(* ===== verification/LeafThreads.v ===== *)
(** * The leaf receiver under concurrent calls

    [SdkLeafReceiver::Ingest] is thread-safe: any number of threads may be inside it,
    while the pipeline behind the receiver moves.  A machine is the shared receiver and
    the calls under way, each a computation of [LeafReceiver] with its own [result]; an
    event starts a call, lets one call take its next atomic step (a lock-protected call
    of the table, of the cache or of the processor, an atomic counter, an allocation,
    one call of the resolver), raises the shutdown flag, or moves the pipeline.  Between
    any two steps of a call everything else may happen.

    A call is verified step by step against a shared state of which it may assume only
    [sound], which every step keeps ([steps]); the theorem follows by induction over the
    events. *)
From stdpp Require Import gmap sorting.
From S2P Require Import Prelude Trace TraceState Context Data AttributeSet SpanLimits BatchWorker SpanProcessor.
From S2P Require Import Double Sampler LeafTime IndexedList LeafTable LeafResource LeafOptions LeafReceiver.

(** ** The machine *)

Section machine.
Context {K : Type} `{!SpanSink K}.
Context (o : LeafReceiverOptions) (deps : LeafReceiverDeps) (env : Environment).

(** A call under way: what is left of it, its own [result], and the offers it made. *)
Record Thread := mkThread {
  t_call : M K IngestResult;
  t_result : IngestResult;
  t_offers : list (SpanRecord * InstrumentationScope * bool)
}.
Record Machine := mkMachine { shared : Receiver K; threads : list Thread }.
Inductive MachineEvent :=
| Enters (request : IngestRequest) (wall now : Z) | Resumes (i : nat) | ShutsDown | SinkMoves (f : K → K).

(** The next step of a call, on its own [result]. *)
Definition resume (s : Receiver K) (t : Thread) : option (Receiver K * Thread) :=
  match t_call t with
  | Step f =>
      '(s', call) ← f (set_result (t_result t) s);
      Some (set_result (result s) s', mkThread call (result s') (t_offers t ++ drop (length (offered s)) (offered s')))
  | _ => Some (s, t)
  end.
(** The process has ended inside this call. *)
Definition ended_process (t : Thread) : bool := match t_call t with Terminate _ => true | _ => false end.
Definition machine_step (m : Machine) (e : MachineEvent) : option Machine :=
  if existsb ended_process (threads m) then Some m
  else match e with
  | Enters request wall now =>
      Some (mkMachine (shared m) (threads m ++ [mkThread (Ingest o deps env request wall now) (mkIngestResult Accepted 0 0 0) []]))
  | Resumes i =>
      match threads m !! i with
      | None => Some m
      | Some t => '(s, t') ← resume (shared m) t; Some (mkMachine s (<[i := t']> (threads m)))
      end
  | ShutsDown => Some (mkMachine (MarkShutDown (shared m)) (threads m))
  | SinkMoves f => Some (mkMachine (with_sink (f (sink (shared m))) (shared m)) (threads m))
  end.
(** A run; [None] is undefined behaviour. *)
Fixpoint run_machine (m : Machine) (es : list MachineEvent) : option Machine :=
  match es with
  | [] => Some m
  | e :: es => m' ← machine_step m e; run_machine m' es
  end.
Definition machine_start (k : K) : Machine := mkMachine (SdkLeafReceiver o k) [].

Definition event_typed (e : MachineEvent) : Prop :=
  match e with Enters request wall _ => ReceivedNs request wall <= kMax | _ => True end.

(** ** Reasoning about one call among others *)

Abbreviation Offers := (list (SpanRecord * InstrumentationScope * bool)).

(** What every step of every thread keeps: table and cache are what they should be. *)
Definition sound (s : Receiver K) : Prop :=
  (∃ lru, sim (m_table s) lru) ∧ ∃ l, cache_sim kUnknownLeafCacheSize kUnknownLeafTtl (m_unknown s) l.
(** A result that says what became of the offers [l]. *)
Definition reports (r : IngestResult) (l : Offers) : Prop := spans_accepted r = taken_count l ∧ spans_dropped r = refused_count l.

(** One step of a call, from [s]: what it offers is what the shared receiver records
    and what its own result adds. *)
Record stepped (l new : Offers) (s s' : Receiver K) : Prop := {
  st_sound : sound s';
  st_offered : offered s' = offered s ++ new;
  st_sink : offers (sink s) new (sink s');
  st_reports : reports (result s') (l ++ new)
}.
(** A call that has offered [l]: each step is defined from every [sound] state and is
    [stepped]; at the end [Q] holds of all offers and of the value, or [E] of the
    offers if it throws. *)
Fixpoint steps {A} (Q : Offers → A → Prop) (E : Offers → Prop) (l : Offers) (m : M K A) : Prop :=
  match m with
  | Ret (Returned a) => Q l a
  | Ret Threw => E l
  | Terminate d => fatal env d
  | Step f => ∀ s, sound s → reports (result s) l →
      match f s with
      | None => False
      | Some (s', m') => ∃ new, stepped l new s s' ∧ steps Q E (l ++ new) m'
      end
  end.

Lemma steps_mono {A} (Q Q' : Offers → A → Prop) (E E' : Offers → Prop) l m :
  steps Q E l m → (∀ l a, Q l a → Q' l a) → (∀ l, E l → E' l) → steps Q' E' l m.
Proof.
  intros H HQ HE. revert l H. induction m as [[a|]|d|f IH] using M_induction; intros l; cbn [steps]; [auto..|].
  intros H s Hs Hr. specialize (H s Hs Hr). specialize (IH s). destruct (f s) as [[s' m']|]; [|done].
  destruct H as (new & H1 & H2). exists new. split; [done|]. by apply (IH s' m').
Qed.
Lemma steps_try {A B} Q E l (m : M K A) (f : A → M K B) (h : M K B) :
  steps (λ l a, steps Q E l (f a)) (λ l, steps Q E l h) l m → steps Q E l (try_with m f h).
Proof.
  revert l. induction m as [[a|]|d|g IH] using M_induction; intros l; cbn [steps try_with]; [done..|].
  intros H s Hs Hr. specialize (H s Hs Hr). specialize (IH s). destruct (g s) as [[s' m']|]; [|done].
  destruct H as (new & H1 & H2). exists new. split; [done|]. by apply (IH s' m').
Qed.
Lemma steps_bind {A B} Q E l (m : M K A) (f : A → M K B) :
  steps (λ l a, steps Q E l (f a)) E l m → steps Q E l (m ≫= f).
Proof. intros H. by apply steps_try. Qed.
Lemma steps_act {A} (f : Receiver K → option (Receiver K * LeafTable.Result A)) Q E l :
  (∀ s, sound s → reports (result s) l →
     match f s with
     | None => False
     | Some (s', r) => ∃ new, stepped l new s s' ∧ match r with Returned a => Q (l ++ new) a | Threw => E (l ++ new) end
     end) → steps Q E l (act f).
Proof. intros H s Hs Hr. specialize (H s Hs Hr). destruct (f s) as [[s' r]|]; [|done]. by destruct H as (new & H1 & H2), r; exists new. Qed.

(** *** Computations that offer nothing *)

Definition untouched (s s' : Receiver K) : Prop := offered s' = offered s ∧ sink s' = sink s ∧ result s' = result s.
Lemma untouched_stepped l s s' : sound s' → untouched s s' → reports (result s) l → stepped l [] s s'.
Proof. intros Hs (H1 & H2 & H3) Hr. split; rewrite ?app_nil_r; [done|done|by rewrite H2|by rewrite H3]. Qed.

Definition calm {A} (P : A → Prop) (m : M K A) : Prop := ∀ l, steps (λ l' a, l' = l ∧ P a) (λ l', l' = l) l m.
Lemma calm_mono {A} (P P' : A → Prop) m : calm P m → (∀ a, P a → P' a) → calm P' m.
Proof. intros H HP l. eapply steps_mono; [apply H| |done]. intros l' a [? ?]. auto. Qed.
Lemma calm_ret {A} (P : A → Prop) a : P a → calm P (mret a).
Proof. by intros H l. Qed.
Lemma calm_throw {A} (P : A → Prop) : calm P throw.
Proof. by intros l. Qed.
Lemma calm_bind {A B} (P : A → Prop) (P' : B → Prop) m f : calm P m → (∀ a, P a → calm P' (f a)) → calm P' (m ≫= f).
Proof.
  intros Hm Hf l. apply steps_bind. eapply steps_mono; [apply Hm| |done]. intros l' a [-> Ha]. by apply Hf.
Qed.
Lemma calm_act {A} (f : Receiver K → option (Receiver K * LeafTable.Result A)) (P : A → Prop) :
  (∀ s, sound s → match f s with
                  | None => False
                  | Some (s', r) => sound s' ∧ untouched s s' ∧ match r with Returned a => P a | Threw => True end
                  end) → calm P (act f).
Proof.
  intros H l. apply steps_act. intros s Hs Hr. specialize (H s Hs). destruct (f s) as [[s' r]|]; [|done].
  destruct H as (H1 & H2 & H3). exists []. split; [by apply untouched_stepped|]. rewrite app_nil_r. by destruct r.
Qed.
(** A calm computation where other offers are on record. *)
Lemma calm_steps {A} (P : A → Prop) (Q : Offers → A → Prop) (E : Offers → Prop) l m :
  calm P m → (∀ a, P a → Q l a) → E l → steps Q E l m.
Proof. intros H HQ HE. eapply steps_mono; [apply H| |by intros ? ->]. intros l' a [-> Ha]. auto. Qed.
Lemma calm_then {A B} (P : A → Prop) Q E l (m : M K A) (f : A → M K B) :
  calm P m → E l → (∀ a, P a → steps Q E l (f a)) → steps Q E l (m ≫= f).
Proof. intros Hm HE Hf. apply steps_bind. eapply calm_steps; [exact Hm| |done]. done. Qed.

Abbreviation quiet := (calm (λ _, True)).
Lemma quiet_modify f : (∀ s, sound s → sound (f s) ∧ untouched s (f s)) → quiet (modify f).
Proof. intros H. apply calm_act. intros s Hs. by destruct (H s Hs). Qed.
Lemma quiet_allocate : quiet (allocate env).
Proof. by apply calm_act. Qed.
Lemma quiet_may_throw : quiet (may_throw env).
Proof. eapply calm_bind; [apply quiet_allocate|]. intros [] _; [by apply calm_ret|apply calm_throw]. Qed.
Lemma quiet_add c n : quiet (add c n).
Proof. by apply quiet_modify. Qed.
Lemma quiet_must_allocate : quiet (must_allocate env).
Proof.
  intros l s Hs Hr. exists []. split; [by apply untouched_stepped|]. rewrite app_nil_r.
  by destruct (env_alloc env (allocs s)) eqn:Ea.
Qed.
Lemma quiet_LogImpl line : quiet (LogImpl env line).
Proof. eapply calm_bind; [apply quiet_must_allocate|]. intros _ _. by apply quiet_modify. Qed.
Lemma quiet_RecordDrop reason n : quiet (RecordDrop deps reason n).
Proof. by apply quiet_modify. Qed.
Lemma quiet_new_resource r : quiet (new_resource r).
Proof. by apply calm_act. Qed.
Lemma quiet_question : quiet question.
Proof. by apply calm_act. Qed.
Lemma calm_deref {A} (p : option A) a : p = Some a → calm (λ x, x = a) (deref p).
Proof. intros ->. by apply calm_ret. Qed.

(** A call of the table or of the cache, given that it does what the specification
    of the table says. *)
Lemma quiet_table {A} (f : LeafTable → option (LeafTable * LeafTable.Result A)) :
  (∀ t lru, sim t lru → ∃ t' r lru', f t = Some (t', r) ∧ sim t' lru') → quiet (table_op f).
Proof.
  intros H. apply calm_act. intros s [(lru & Hl) Hc]. destruct (H _ _ Hl) as (t' & r & lru' & -> & Hs').
  split; [split; [by exists lru'|done]|]. by destruct r.
Qed.
Lemma quiet_unknown {A} (f : UnknownLeafCache → option (UnknownLeafCache * LeafTable.Result A)) :
  (∀ u l, cache_sim kUnknownLeafCacheSize kUnknownLeafTtl u l →
     ∃ u' r l', f u = Some (u', r) ∧ cache_sim kUnknownLeafCacheSize kUnknownLeafTtl u' l') → quiet (unknown_op f).
Proof.
  intros H. apply calm_act. intros s [Hl (l & Hc)]. destruct (H _ _ Hc) as (u' & r & l' & -> & Hs').
  split; [split; [done|by exists l']|]. by destruct r.
Qed.
Ltac by_exec op :=
  let t := fresh "t" in let lru := fresh "lru" in let Hs := fresh "Hs" in
  apply quiet_table; intros t lru Hs;
  let He := fresh "He" in destruct (exec_sim t lru op Hs) as (? & He & ?); [done|];
  cbn [exec] in He.
Lemma quiet_Settings id now : quiet (table_op (λ t, no_throw (Settings t id now))).
Proof. by_exec (OpSettings id now). destruct (Settings t id now) as [[t' v]|]; cbn in He; simplify_eq. by eexists _, _, _. Qed.
Lemma quiet_Find id h now : quiet (table_op (λ t, no_throw (Find t id h now))).
Proof. by_exec (OpFind id h now). destruct (Find t id h now) as [[t' v]|]; cbn in He; simplify_eq. by eexists _, _, _. Qed.
Lemma quiet_Adopt id v now ok : quiet (table_op (λ t, AdoptSettings t id v now ok)).
Proof. by_exec (OpAdopt id v now ok). destruct (AdoptSettings t id v now ok) as [[t' r]|]; cbn in He; simplify_eq. by eexists _, _, _. Qed.
Lemma quiet_Insert id h p now ok : quiet (table_op (λ t, Insert t id h p now ok)).
Proof. by_exec (OpInsert id h p now ok). destruct (Insert t id h p now ok) as [[t' r]|]; cbn in He; simplify_eq. by eexists _, _, _. Qed.
Lemma quiet_Anchor id sample w now ok : bs_offset sample <= kMax → quiet (table_op (λ t, UpdateBootAnchor t id sample w now ok)).
Proof.
  intros Hb. by_exec (OpAnchor id sample w now ok).
  destruct (UpdateBootAnchor t id sample w now ok) as [[t' r]|]; cbn in He; simplify_eq. by eexists _, _, _.
Qed.
Lemma quiet_Contains id now : quiet (unknown_op (λ u, no_throw (Contains u id now))).
Proof.
  apply quiet_unknown. intros u l Hs. destruct (cache_exec_sim kUnknownLeafCacheSize kUnknownLeafTtl u l (OpContains id now) ltac:(done) Hs) as (u' & He & Hs'). cbn in He.
  destruct (Contains u id now) as [[u1 b]|]; cbn in He; simplify_eq. by eexists _, _, _.
Qed.
Lemma quiet_Remember id now ok : quiet (unknown_op (λ u, Unknown_Insert u id now ok)).
Proof.
  apply quiet_unknown. intros u l Hs. destruct (cache_exec_sim kUnknownLeafCacheSize kUnknownLeafTtl u l (OpRemember id now ok) ltac:(done) Hs) as (u' & He & Hs'). cbn in He.
  destruct (Unknown_Insert u id now ok) as [[u1 [[]|]]|]; cbn in He; simplify_eq; by eexists _, _, _.
Qed.

(** *** The helpers of [Ingest] *)

Ltac one_of := first
  [ apply calm_ret; done | apply calm_throw | apply quiet_allocate | apply quiet_may_throw | apply quiet_add
  | apply quiet_LogImpl | apply quiet_RecordDrop | apply quiet_new_resource | apply quiet_question | apply quiet_Settings
  | apply quiet_Find | apply quiet_Adopt | apply quiet_Insert | apply quiet_Contains | apply quiet_Remember
  | by apply quiet_Anchor ].
Ltac next := eapply calm_bind; [one_of|intros ? _].

Lemma quiet_AskResolver leaf : quiet (AskResolver env leaf).
Proof.
  unfold AskResolver. destruct (env_resolver env) as [f|] eqn:Ef; [|one_of]. eapply calm_bind; [one_of|]. intros n _.
  destruct (f n leaf) eqn:Ea; [one_of|one_of|do 2 next; one_of|]. intros l. by exists f.
Qed.
Lemma quiet_ResolveSettings leaf : quiet (ResolveSettings o env leaf).
Proof.
  unfold ResolveSettings. next. eapply calm_bind; [apply quiet_AskResolver|]. intros [answer|] _; [|one_of].
  next. destruct (MergeResolverResource _ _ _). next. one_of.
Qed.
Lemma quiet_SettingsFor leaf now : quiet (SettingsFor o env leaf now).
Proof.
  unfold SettingsFor. next. destruct a; [one_of|]. cbn zeta.
  eapply (calm_bind (λ _, True)); [destruct (unknown_leaf o); one_of|]. intros [] _; [one_of|].
  eapply calm_bind; [apply quiet_ResolveSettings|]. intros fresh _. destruct (_ && _); do 2 next; one_of.
Qed.
Lemma quiet_RefusedBeforeDecode request now : quiet (RefusedBeforeDecode o env request now).
Proof. unfold RefusedBeforeDecode. repeat case_match; one_of. Qed.
Lemma quiet_CountIdConflict request p : quiet (CountIdConflict o request p).
Proof. unfold CountIdConflict. cbn zeta. repeat case_match; one_of. Qed.
Lemma quiet_ModesAllowed p v : p_settings p = Some v → quiet (ModesAllowed o p).
Proof. intros Hv. unfold ModesAllowed. eapply calm_bind; [by apply calm_deref|]. intros ? _. one_of. Qed.
Lemma quiet_ResourceFor p v declared : p_settings p = Some v → quiet (ResourceFor o env p declared).
Proof.
  intros Hv. unfold ResourceFor. cbn zeta. next. destruct a; [one_of|]. eapply calm_bind; [by apply calm_deref|]. intros ? ->.
  destruct (Receiver_BudgetFor o v). next. destruct (ResolveLeafResource _). do 4 next.
  eapply (calm_bind (λ _, True)); [destruct (_ && _); [next|]; one_of|]. intros ? _. one_of.
Qed.
Lemma quiet_CorrectionFor p mode info fell_back : p_received p <= kMax → quiet (CorrectionFor o env p mode info fell_back).
Proof.
  intros Hrec. destruct mode; cbn [CorrectionFor]; [one_of|destruct (SyncRelative _ _ _ _); one_of| |one_of].
  next. eapply calm_bind; [apply quiet_Anchor, SaturatingSub_le, Hrec|]. intros ? _. one_of.
Qed.

(** A rejection, made before anything was offered. *)
Lemma reject_steps {A} st reason (Q : Offers → option A → Prop) E :
  E [] → Q [] None → steps Q E [] (_ ← Reject deps st reason; mret None).
Proof.
  intros HE HQ. unfold Reject. apply steps_bind. do 2 (eapply calm_then; [one_of|done|]; intros _ _). apply steps_act. intros s Hs Hr.
  exists []. split; [|exact HQ]. by split; rewrite ?app_nil_r.
Qed.

Definition nothing_yet (l : Offers) : Prop := l = [].
Lemma Admit_steps request p0 :
  steps (λ l r, l = [] ∧ match r with None => True | Some p => admitted o deps request p0 p end) nothing_yet [] (Admit o deps env request p0).
Proof.
  unfold Admit. destruct (_ <? _); [by apply reject_steps|]. destruct (_ <? _); [by apply reject_steps|].
  eapply calm_then; [apply quiet_RefusedBeforeDecode|done|]. intros [] _; [by apply reject_steps|].
  eapply calm_then; [one_of|done|]. intros _ _. destruct (d_decode _ _ _) as [[]|decoded] eqn:Ed; [by apply reject_steps..|].
  eapply calm_then; [one_of|done|]. intros _ _. cbn zeta. destruct (_ || _) eqn:E; [by apply reject_steps|].
  apply orb_false_iff in E as [E _]. apply orb_false_iff in E as [_ E]. apply negb_false_iff, Nat.eqb_eq in E. by split; [|split].
Qed.
Lemma Identify_steps request p0 :
  steps (λ l r, l = [] ∧ match r with
                         | None => True
                         | Some p => is_Some (p_settings p) ∧ p_decoded p = p_decoded p0 ∧ p_modes p = p_modes p0 ∧ p_received p = p_received p0
                         end) nothing_yet [] (Identify o deps env request p0).
Proof.
  unfold Identify. eapply calm_then; [one_of|done|]. intros _ _. cbn zeta. destruct (_ || _); [by apply reject_steps|].
  eapply calm_then; [apply quiet_SettingsFor|done|]. intros [v|] _; [|by apply reject_steps].
  eapply calm_then; [by apply (quiet_ModesAllowed _ v)|done|]. intros [] _; [|by apply reject_steps].
  eapply calm_then; [apply quiet_CountIdConflict|done|]. intros _ _. split; [done|]. split_and!; [by exists v|done..].
Qed.

(** *** Spans *)

Context (Hok : receiver_ok o deps).

(** Every count a call reports stays below [2^32]: it offers each span once. *)
Lemma reports_offer r l x (ok : bool) : reports r l → size l < u32_max →
  reports (if ok then add_counts r 1 0 0 else add_counts r 0 0 1) (l ++ [(x, ok)]).
Proof.
  intros [H1 H2] Hl. pose proof (new_counts l) as (Hs & ? & ?). unfold reports. rewrite taken_count_app, refused_count_app.
  destruct ok; cbn [spans_accepted spans_dropped add_counts]; rewrite H1, H2, !to_uint32_id by (width_lia); done.
Qed.
Lemma reports_sampled_out r l : reports r l → size l <= u32_max → reports (add_counts r 0 1 0) l.
Proof.
  intros [H1 H2] Hl. pose proof (new_counts l) as (Hs & ? & ?). unfold reports, add_counts. cbn.
  rewrite H1, H2, !Z.add_0_r, !to_uint32_id by (width_lia). done.
Qed.
(** At most [n] offers more. *)
Definition up_to (n : Z) (l l' : Offers) : Prop := size l' <= size l + n.
Lemma EnqueueSpan_steps span scope resource c E l : size l < u32_max → (∀ l', up_to 1 l l' → E l') →
  steps (λ l' _, up_to 1 l l') E l (EnqueueSpan deps env span scope resource c).
Proof.
  intros Hl HE. unfold EnqueueSpan. cbn zeta. unfold up_to in *. destruct (ApplySpanLimits _ _ _) as [span' calls].
  eapply calm_then; [by apply quiet_modify|apply HE; lia|]. intros _ _.
  match goal with |- context [ShouldSample (d_sampler deps) ?ctx] => destruct (rooted_total (d_sampler deps) ctx (ro_sampler _ _ Hok)) as [sampling ->] end.
  eapply calm_then; [by apply calm_deref|apply HE; lia|]. intros ? ->. destruct (negb _).
  - apply steps_act. intros s Hs Hr. exists []. split; [|rewrite app_nil_r; lia].
    split; rewrite ?app_nil_r; [done..|]. apply reports_sampled_out; [done|lia].
  - destruct (AppendAttributes _ _ _ _) as [attributes calls2]. eapply calm_then; [by apply quiet_modify|apply HE; lia|]. intros _ _.
    eapply calm_then; [apply quiet_must_allocate|apply HE; lia|]. intros _ _.
    apply steps_act. intros s Hs Hr. destruct (sink_offer (sink s) _) as [k ok] eqn:Eo.
    eexists [(_, ok)]. split; [|rewrite size_app; change (size [_]) with 1; lia].
    split; [done|done|cbn; by exists k|by apply reports_offer].
Qed.
Lemma enqueue_spans_steps spans scope resource c E l : size l + size spans <= u32_max →
  (∀ l', up_to (size spans) l l' → E l') →
  steps (λ l' _, up_to (size spans) l l') E l (enqueue_spans deps env spans scope resource c).
Proof.
  unfold up_to. revert l. induction spans as [|x spans IH]; intros l Hl HE; cbn [enqueue_spans]; [unfold size; cbn; lia|].
  rewrite size_cons in *. apply steps_bind. pose proof (size_nonneg spans).
  eapply steps_mono; [apply (EnqueueSpan_steps _ _ _ _ E); [lia|]|..]; unfold up_to; [intros; apply HE; lia| |done].
  intros l1 [] H1. eapply steps_mono; [apply IH; [lia|]|..]; cbv beta; [intros; apply HE; lia|intros; lia|done].
Qed.
Lemma EnqueueResourceSpans_steps scopes resource c E l : size l + size (scopes ≫= scope_spans) <= u32_max →
  (∀ l', up_to (size (scopes ≫= scope_spans)) l l' → E l') →
  steps (λ l' _, up_to (size (scopes ≫= scope_spans)) l l') E l (EnqueueResourceSpans deps env scopes resource c).
Proof.
  unfold up_to. revert l. induction scopes as [|sc scopes IH]; intros l Hl HE; cbn [EnqueueResourceSpans]; [unfold size; cbn; lia|].
  rewrite bind_cons, size_app in *. assert (size (scope_spans sc) = size (ds_spans sc)) as Es by (unfold scope_spans, size; by rewrite length_fmap).
  rewrite Es in *. pose proof (size_nonneg (scopes ≫= scope_spans)). apply steps_bind.
  eapply steps_mono; [apply (enqueue_spans_steps _ _ _ _ E); [lia|]|..]; unfold up_to; [intros; apply HE; lia| |done].
  intros l1 [] H1. eapply steps_mono; [apply IH; [lia|]|..]; cbv beta; [intros; apply HE; lia|intros; lia|done].
Qed.

Definition any_offers (l : Offers) : Prop := True.
Lemma Enqueue_loop_steps p v rest i fell_back l :
  p_settings p = Some v → p_received p <= kMax → length (p_modes p) = (i + length rest)%nat →
  size l + size (all_spans rest) <= u32_max →
  steps (λ _ _, True) any_offers l (Enqueue_loop o deps env p rest i fell_back).
Proof.
  intros Hv Hrec. revert i fell_back l. induction rest as [|rs rest IH]; intros i fb l Hlen Hl; cbn [Enqueue_loop]; [done|].
  unfold all_spans in *. rewrite bind_cons, size_app in Hl. cbn zeta. cbn in Hlen.
  do 3 (eapply calm_then; [one_of|done|]; intros _ _). destruct (lookup_lt_is_Some_2 (p_modes p) i) as [mode Hmode]; [lia|].
  eapply calm_then; [by apply calm_deref|done|]. intros ? ->. eapply calm_then; [by apply quiet_CorrectionFor|done|]. intros [c fb'] _.
  eapply calm_then; [by apply (quiet_ResourceFor _ v)|done|]. intros ptr _. apply steps_bind.
  pose proof (size_nonneg (rest ≫= resource_spans)). 
  eapply steps_mono; [apply (EnqueueResourceSpans_steps _ _ _ any_offers); [unfold resource_spans in *; lia|done]| |done].
  intros l1 [] H1. apply IH; [lia|]. unfold up_to, resource_spans in *. lia.
Qed.

(** *** A whole call *)

Lemma IngestOrThrow_steps request wall now : ReceivedNs request wall <= kMax →
  steps (λ _ _, True) any_offers [] (IngestOrThrow o deps env request wall now).
Proof.
  intros Hrec. unfold IngestOrThrow. cbn zeta. apply steps_bind. eapply steps_mono; [apply Admit_steps| |done].
  intros l [p1|]; [|done]. intros [-> Ha]. apply steps_bind. eapply steps_mono; [apply Identify_steps| |done].
  intros l [p2|]; [|done]. intros (-> & [v Hv] & Hd & Hm & Hr). apply steps_bind. unfold Enqueue. apply steps_bind.
  destruct (admitted_spans o deps (ro_decoder _ _ Hok) _ _ _ Ha) as [_ Hn].
  eapply steps_mono; [apply (Enqueue_loop_steps p2 v _ 0 false []); [done|by rewrite Hr, (ad_received _ _ _ _ _ Ha)|by rewrite Hm, Hd; eapply ad_length|]| |done].
  { rewrite Hd. change (size []) with 0. pose proof (ro_spans _ _ Hok) as [_ Hu]. lia. }
  intros l fb _. eapply (calm_steps (λ _, True)); [destruct fb; one_of| |done]. intros [] _.
  apply steps_bind, steps_act. intros s Hs Hrep. exists []. split; [by split; rewrite ?app_nil_r|]. rewrite app_nil_r.
  eapply calm_steps; [one_of|done|done].
Qed.
(** What a call hands back says what became of all its offers. *)
Lemma get_result_steps E l : steps (λ l r, reports r l) E l (get result).
Proof. apply steps_act. intros s Hs Hr. exists []. rewrite app_nil_r. by split; [split; rewrite ?app_nil_r|]. Qed.
Lemma LogImpl_steps line Q E l : Q l tt → steps Q E l (LogImpl env line).
Proof.
  intros HQ. apply steps_bind. intros s Hs Hr. exists []. split; [by apply untouched_stepped|]. rewrite app_nil_r.
  destruct (env_alloc env (allocs s)) eqn:Ea; [|done]. apply steps_act. intros s1 Hs1 Hr1. exists []. rewrite app_nil_r.
  split; [by apply untouched_stepped|done].
Qed.
Lemma Ingest_steps request wall now : ReceivedNs request wall <= kMax →
  steps (λ l r, reports r l) (λ _, False) [] (Ingest o deps env request wall now).
Proof.
  intros Hrec. unfold Ingest. apply steps_bind, steps_act. intros s0 Hs0 Hr0. exists []. split; [by apply untouched_stepped|]. cbn [app].
  destruct (m_shut_down s0).
  { apply steps_bind, steps_act. intros s Hs Hr. exists []. split; [by apply untouched_stepped|]. done. }
  apply steps_bind, steps_act. intros s Hs Hr. exists []. split; [by split; rewrite ?app_nil_r|]. rewrite app_nil_r.
  apply steps_try. eapply steps_mono; [by apply IngestOrThrow_steps|intros l [] _; apply get_result_steps|].
  intros l _. unfold RecordOutOfMemory. apply steps_bind, steps_bind, steps_act. intros s1 Hs1 Hr1. exists [].
  split; [by apply untouched_stepped|]. rewrite app_nil_r.
  assert (∀ l, steps (λ l r, reports r l) (λ _, False) l
    (_ ← modify (λ s, set_result (set_status OutOfMemory (result s)) s); get result)) as Hrest.
  { intros l1. apply steps_bind, steps_act. intros s2 Hs2 Hr2. exists []. split; [by split; rewrite ?app_nil_r|].
    rewrite app_nil_r. apply get_result_steps. }
  destruct (_ =? 0); [|apply Hrest]. by apply LogImpl_steps.
Qed.

(** ** The machine keeps its calls in order *)

(** The result of a call, so far or for good. *)
Definition reported (t : Thread) : IngestResult := match t_call t with Ret (Returned r) => r | _ => t_result t end.
Record thread_ok (t : Thread) : Prop := {
  th_reports : reports (t_result t) (t_offers t);
  th_steps : steps (λ l r, reports r l) (λ _, False) (t_offers t) (t_call t)
}.
Lemma reported_ok t : thread_ok t →
  t_call t ≠ Ret Threw ∧ (∀ d, t_call t = Terminate d → fatal env d) ∧ reports (reported t) (t_offers t).
Proof. intros [H1 H2]. unfold reported. destruct (t_call t) as [[r|]|d|f]; try done. split_and!; [done| |done]. by intros ? [= <-]. Qed.

Record machine_ok (m : Machine) : Prop := {
  mo_sound : sound (shared m);
  mo_threads : Forall thread_ok (threads m);
  mo_all : offered (shared m) ≡ₚ concat (t_offers <$> threads m);
  mo_order : Forall (λ t, t_offers t `sublist_of` offered (shared m)) (threads m)
}.
Lemma resume_ok s t : sound s → thread_ok t →
  ∃ s' t' new, resume s t = Some (s', t') ∧ thread_ok t' ∧ sound s' ∧ offered s' = offered s ++ new
    ∧ offers (sink s) new (sink s') ∧ t_offers t' = t_offers t ++ new.
Proof.
  intros Hs Ht. destruct t as [call r l]. unfold resume. cbn [t_call t_result t_offers].
  destruct call as [x|d|f]; [exists s; eexists; exists []; rewrite !app_nil_r; by split_and!..|].
  destruct Ht as [Hr Hst]. cbn [t_call t_result t_offers] in *. specialize (Hst (set_result r s) Hs Hr).
  destruct (f (set_result r s)) as [[s' call]|]; [|done]. destruct Hst as (new & [H1 H2 H3 H4] & H5). cbn in H2, H3.
  assert (drop (length (offered s)) (offered s') = new) as Hd by (by rewrite H2, drop_app_length).
  exists (set_result (result s) s'). eexists. exists new. cbn [mbind option_bind t_offers]. split; [reflexivity|]. cbn [t_offers]. rewrite Hd.
  by split_and!.
Qed.
Lemma concat_insert (ts : list Thread) i t t' new : ts !! i = Some t → t_offers t' = t_offers t ++ new →
  concat (t_offers <$> <[i := t']> ts) ≡ₚ concat (t_offers <$> ts) ++ new.
Proof.
  revert i. induction ts as [|x ts IH]; intros [|i]; cbn; [done|done| |].
  - intros [= ->] ->. rewrite <- !app_assoc. apply Permutation_app_head, Permutation_app_comm.
  - intros Hi Ht. rewrite (IH i Hi Ht). by rewrite app_assoc.
Qed.
Lemma machine_start_ok k : machine_ok (machine_start k).
Proof.
  split; [|constructor|done|constructor]. pose proof (SdkLeafReceiver_inv o env k) as [(lru & H & _) H2]. split; [by exists lru|done].
Qed.
Lemma machine_step_ok m e : machine_ok m → event_typed e →
  ∃ m' new, machine_step m e = Some m' ∧ machine_ok m' ∧ offered (shared m') = offered (shared m) ++ new
    ∧ (offers (sink (shared m)) new (sink (shared m')) ∨ (new = [] ∧ ∃ f, e = SinkMoves f ∧ sink (shared m') = f (sink (shared m)))).
Proof.
  intros Hm He. unfold machine_step. destruct (existsb ended_process (threads m)).
  { exists m, []. rewrite app_nil_r. split_and!; [done..|by left]. }
  destruct Hm as [M1 M2 M3 M4]. destruct e as [request wall now|i| |f].
  - eexists _, []. rewrite app_nil_r. split_and!; [done| |done|by left]. split; [done| | |].
    + apply Forall_app. split; [done|]. constructor; [|constructor]. split; [done|]. by apply Ingest_steps.
    + cbn [shared threads]. by rewrite fmap_app, concat_app, !app_nil_r.
    + apply Forall_app. split; [done|]. constructor; [apply sublist_nil_l|constructor].
  - destruct (threads m !! i) as [t|] eqn:Hi; [|exists m, []; rewrite app_nil_r; split_and!; [done|by split|done|by left]].
    pose proof (Forall_lookup_1 _ _ _ _ M2 Hi) as Ht. destruct (resume_ok _ _ M1 Ht) as (s' & t' & new & -> & R1 & R2 & R3 & R4 & R5).
    cbn [mbind option_bind]. eexists _, new. split; [done|]. cbn [shared threads]. split_and!; [|done|by left].
    pose proof (Forall_lookup_1 _ _ _ _ M4 Hi) as Hsub. split; cbn [shared threads]; [done| | |].
    + by apply Forall_insert.
    + rewrite R3, (concat_insert _ _ _ _ _ Hi R5). by apply Permutation_app_tail.
    + apply Forall_insert; rewrite R3.
      * eapply Forall_impl; [exact M4|]. intros x Hx. etrans; [exact Hx|]. by apply sublist_inserts_r.
      * rewrite R5. by apply sublist_app.
  - eexists _, []. rewrite app_nil_r. split_and!; [done|by split|done|by left].
  - eexists _, []. rewrite app_nil_r. split_and!; [done|by split|done|]. right. split; [done|]. by exists f.
Qed.
End machine.

(** ** The receiver in front of the batch processor *)

Section pipeline.
Context (limits : MemoryLimitOptions).
Abbreviation Q := (SpanQueue (max_record_bytes limits) (max_total_queue_bytes limits)).
Abbreviation Pipeline := (BatchWorker.State QueuedSpan Z * History QueuedSpan)%type.

(** [batch_sink] with the processor's history. *)
#[local] Instance history_sink : SpanSink Pipeline :=
  λ k x, (BatchWorker.step (Q:=Q) k (EvOffer x), snd (batch_sink limits (fst k) x)).
Definition queued (x : SpanRecord * InstrumentationScope * bool) : QueuedSpan := item_of (BatchQueue:=Q) (fst x).

Lemma offers_run (k k' : Pipeline) new : offers k new k' →
  k' = BatchWorker.run (Q:=Q) k (EvOffer ∘ fst <$> new)
  ∧ h_accepted (snd k') = h_accepted (snd k) ++ (queued <$> List.filter snd new).
Proof.
  revert k. induction new as [|[x ok] new IH]; intros k; cbn [offers]; [intros ->; by rewrite app_nil_r|].
  intros (k1 & Hk & Ho). unfold sink_offer, history_sink in Hk. injection Hk as Hk Hok.
  destruct (IH k1 Ho) as [E1 E2]. split; [rewrite E1, <- Hk; done|]. rewrite E2, <- Hk. clear -Hok.
  destruct k as [st h]. unfold batch_sink in Hok. cbn [BatchWorker.step fst snd] in *.
  destruct (BatchWorker.Enqueue st x) as [b st']. cbn [snd h_accepted] in *. subst b. destruct ok; cbn; [by rewrite <- app_assoc|by rewrite app_nil_r].
Qed.

Lemma step_accepted (k : Pipeline) e : h_accepted (snd k) `prefix_of` h_accepted (snd (BatchWorker.step (Q:=Q) k e)).
Proof.
  destruct k as [st h], e as [x|opts| | |]; cbn [BatchWorker.step snd]; [| | | |].
  - destruct (BatchWorker.Enqueue st x) as [ok st']. cbn. by eexists.
  - done.
  - destruct (ForceFlush_begin st) as [[]]; done.
  - done.
  - by repeat case_match.
Qed.

(** The pipeline's own moves: another producer, a flush, new options, shutdown, or the
    worker. *)
Definition pipeline_event (e : MachineEvent (K:=Pipeline)) : Prop :=
  match e with SinkMoves f => ∃ ev, ∀ k, f k = BatchWorker.step (Q:=Q) k ev | _ => True end.
Definition leaf_items (s : Receiver Pipeline) : list QueuedSpan := queued <$> List.filter snd (offered s).

Record piped opts diag (m : Machine (K:=Pipeline)) : Prop := {
  pp_run : ∃ es, sink (shared m) = span_run limits opts diag es;
  pp_items : leaf_items (shared m) `sublist_of` h_accepted (snd (sink (shared m)))
}.
Lemma piped_step o deps env opts diag m e : receiver_ok o deps → machine_ok env m → piped opts diag m → event_typed e → pipeline_event e →
  ∃ m', machine_step o deps env m e = Some m' ∧ machine_ok env m' ∧ piped opts diag m'.
Proof.
  intros Hok Hm [[es Hes] Hsub] Ht Hp. destruct (machine_step_ok o deps env Hok m e Hm Ht) as (m' & new & -> & Hm' & Ho & Hs).
  exists m'. split_and!; [done..|]. destruct Hs as [Hs|(-> & f & -> & Hs)].
  - destruct (offers_run _ _ _ Hs) as [E1 E2]. split.
    + exists (es ++ (EvOffer ∘ fst <$> new)). rewrite E1, Hes. unfold span_run, BatchWorker.run. by rewrite fold_left_app.
    + unfold leaf_items. rewrite Ho, E2, List.filter_app, fmap_app. by apply sublist_app.
  - destruct Hp as [ev Hev]. rewrite app_nil_r in Ho. split; unfold leaf_items; rewrite ?Ho, Hs, Hev.
    + exists (es ++ [ev]). rewrite Hes. unfold span_run, BatchWorker.run. by rewrite fold_left_app.
    + etrans; [exact Hsub|]. apply prefix_sublist, step_accepted.
Qed.
Lemma piped_run o deps env opts diag es m : receiver_ok o deps → machine_ok env m → piped opts diag m →
  Forall event_typed es → Forall pipeline_event es →
  ∃ m', run_machine o deps env m es = Some m' ∧ machine_ok env m' ∧ piped opts diag m'.
Proof.
  intros Hok. revert m. induction es as [|e es IH]; intros m Hm Hpp Ht Hp; cbn [run_machine]; [by exists m|].
  apply Forall_cons_1 in Ht as [He Ht]. apply Forall_cons_1 in Hp as [Hpe Hp].
  destruct (piped_step o deps env opts diag m e Hok Hm Hpp He Hpe) as (m1 & -> & Hm1 & Hpp1). by apply (IH m1).
Qed.
Lemma count_perm {A} (f : A → bool) l k : l ≡ₚ k → size (List.filter f l) = size (List.filter f k).
Proof.
  induction 1 as [|x l k _ IH|x y l|l k j _ IH1 _ IH2]; cbn; [done|destruct (f x); rewrite ?size_cons; lia| |congruence].
  destruct (f x), (f y); rewrite ?size_cons; lia.
Qed.
Lemma machine_counts env (m : Machine (K:=Pipeline)) : machine_ok env m →
  zsum (spans_accepted ∘ reported) (threads m) = size (List.filter snd (offered (shared m))).
Proof.
  intros [_ Ht Hall _]. transitivity (taken_count (concat (t_offers <$> threads m))).
  - clear Hall. induction Ht as [|t ts Hr _ IH]; [done|]. cbn [fmap list_fmap concat]. rewrite zsum_cons, taken_count_app, IH.
    f_equal. by destruct (reported_ok env t Hr) as (_ & _ & [H _]).
  - symmetry. by apply count_perm.
Qed.

(** C22: from the wire to the exporter, exactly once, with calls interleaved step by
    step.  Start any number of [Ingest] calls with the batch processor behind the
    receiver, let the shutdown flag rise at any time, and let the calls, other producers,
    flushes, shutdown and the worker move in any order, also between any two steps of a
    call.  No step is undefined behaviour.  Each call, finished or not, has told apart
    exactly the spans it offered: its accepted count is the number the processor took,
    its dropped count the number it refused; it throws nothing, and it ends the process
    only when the resolver threw something outside [std::exception] or an allocation
    failed inside a [noexcept] function.  The offers of all calls are all the offers
    there were, each call's in its order; the accepted ones are, in order, among those the
    processor accepted, and as many as the calls report; and every accepted span is still queued,
    was evicted (and counted), or was handed to the exporter once, in order. *)
Theorem ingest_exactly_once o deps env opts diag es :
  receiver_ok o deps → limits_ok limits → Forall event_typed es → Forall pipeline_event es →
  ∃ m, run_machine o deps env (machine_start o (span_start opts diag)) es = Some m ∧
    let s := shared m in let st := fst (sink s) in let h := snd (sink s) in
    Forall (λ t,
      t_call t ≠ Ret Threw
      ∧ (∀ n id, t_call t = Terminate (ForeignThrow n id) → ∃ resolver, env_resolver env = Some resolver ∧ resolver n id = ThrewForeign)
      ∧ (∀ n, t_call t = Terminate (NoexceptAllocation n) → env_alloc env n = false)
      ∧ spans_accepted (reported t) = size (List.filter snd (t_offers t))
      ∧ spans_dropped (reported t) = size (List.filter (negb ∘ snd) (t_offers t))
      ∧ t_offers t `sublist_of` offered s) (threads m)
    ∧ offered s ≡ₚ concat (t_offers <$> threads m)
    ∧ zsum (spans_accepted ∘ reported) (threads m) = size (List.filter snd (offered s))
    ∧ (queued <$> List.filter snd (offered s)) `sublist_of` h_accepted h
    ∧ h_accepted h = (snd <$> h_gone h) ++ m_queue st
    ∧ taken (h_gone h) = concat (exported st) ++ in_flight st.
Proof.
  intros Hok Hlim Ht Hp.
  destruct (piped_run o deps env opts diag es (machine_start o (span_start opts diag)) Hok (machine_start_ok o env _)) as (m & Hr & Hm & [[evs Hes] Hsub]);
    [split; [by exists []|apply sublist_nil_l]|done..|].
  exists m. split; [exact Hr|]. cbv zeta. split; [|split; [apply Hm|split; [by eapply machine_counts|split; [exact Hsub|]]]].
  - pose proof (mo_threads _ _ Hm) as M2. pose proof (mo_order _ _ Hm) as M4. rewrite Forall_forall in M2, M4. apply Forall_forall.
    intros t Hin. destruct (reported_ok env t (M2 t Hin)) as (H1 & H2 & [H3 H4]). split_and!; [done|by intros n id Hd%H2|by intros n Hd%H2|done|done|by apply M4].
  - rewrite Hes. destruct (span_run_inv limits opts diag evs Hlim). by split_and!.
Qed.
End pipeline.

(** ** Two calls at once *)

Definition demo_memory : MemoryLimitOptions := mkMemoryLimitOptions 65536 65536 0 0 0.
Abbreviation demo_moves e :=
  (SinkMoves (λ k, BatchWorker.step (Q:=SpanQueue (max_record_bytes demo_memory) (max_total_queue_bytes demo_memory)) k e)).
(** Two threads enter and take turns, the worker looks at the queue between their
    steps; then the processor is shut down and the worker drains it. *)
Definition demo_machine_events : list (MachineEvent (K:=BatchWorker.State QueuedSpan Z * History QueuedSpan)) :=
  [Enters (demo_request $"leaf-7") 1000 5; Enters (demo_request $"leaf-7") 1000 5]
  ++ concat (replicate 40 [Resumes 0; Resumes 1; demo_moves EvWorker])
  ++ [demo_moves EvShutdown] ++ replicate 6 (demo_moves EvWorker).
Definition demo_machine := run_machine (SpanSink0:=history_sink demo_memory) demo_leaf_options demo_deps demo_env
  (machine_start demo_leaf_options (span_start demo_opts true)) demo_machine_events.
Definition finished_as (t : Thread (K:=BatchWorker.State QueuedSpan Z * History QueuedSpan)) : option IngestStatus :=
  match t_call t with Ret (Returned r) => Some (status r) | _ => None end.
Lemma ingest_exactly_once_witness :
  ∃ m, demo_machine = Some m ∧ finished_as <$> threads m = [Some Accepted; Some Accepted]
    ∧ zsum (spans_accepted ∘ reported) (threads m) = 2 ∧ length (offered (shared m)) = 2%nat
    ∧ taken (h_gone (snd (sink (shared m)))) = concat (exported (fst (sink (shared m)))) ++ in_flight (fst (sink (shared m)))
    ∧ length (concat (exported (fst (sink (shared m))))) = 2%nat.
Proof.
  destruct (ingest_exactly_once demo_memory demo_leaf_options demo_deps demo_env demo_opts true demo_machine_events)
    as (m & Hr & _ & _ & Hz & _ & _ & Hx).
  - exact demo_receiver_ok.
  - split; cbn; width_lia.
  - repeat first [apply Forall_nil_2|apply Forall_cons_2; [cbn; unfold kMax; first [exact I|width_lia]|]].
  - repeat first [apply Forall_nil_2|apply Forall_cons_2; [cbn; first [exact I|eexists; reflexivity]|]].
  - exists m. split; [exact Hr|].
    assert (option_map (λ m, (length (List.filter snd (offered (shared m))), length (offered (shared m)),
        length (concat (exported (fst (sink (shared m))))), finished_as <$> threads m)) demo_machine
      = Some (2%nat, 2%nat, 2%nat, [Some Accepted; Some Accepted])) as E by (vm_compute; reflexivity).
    unfold demo_machine in E. rewrite Hr in E. cbn [option_map] in E. injection E as E1 E2 E3 E4.
    split; [exact E4|]. split; [etransitivity; [exact Hz|]; unfold size; by rewrite E1|]. split; [exact E2|]. split; [exact Hx|exact E3].
Defined.
