(* ===== verification/OtlpDecoder.v ===== *)
(** * The OTLP trace decoder

    Model of [src/wire/encoder/otlp_trace_decoder.cpp], the decoder behind the leaf
    receiver.  upb is a parameter: [upb_Decode] yields a status and a message, and may
    call the allocator it was given on the way; what it asks for and does with the
    answers is a [Prog], a tree of calls that branches on each answer.  The allocator
    is the code's: [CountingAllocFunc] over [realloc] and [free], whose live blocks and
    their sizes are explicit.

    A conversion that fails gives up the whole payload, so what it had written by
    then is not kept; counters of objects in memory are exact.

    The theorems: conversion of a value is exactly the relation [means]; a payload is
    accepted exactly when each of its spans is representable, and then every
    attribute is either there or counted; whatever upb does, the blocks it holds never
    exceed the cap; the decoder keeps the promise the leaf receiver relies on. *)
From stdpp Require Import gmap.
From S2P Require Import Prelude Trace Context Data BatchWorker SpanProcessor LeafReceiver ProtoReader OtlpMessages.

(** ** The allocator *)

Abbreviation Ptr := (option nat).
(** The live blocks of the C heap the arena obtained, with their sizes. *)
Abbreviation Mem := (gmap nat Z).
Record CountingAlloc := mkCountingAlloc { used : Z; cap : Z }.

Definition free (ptr : Ptr) (mem : Mem) : Mem := match ptr with Some p => delete p mem | None => mem end.
(** [std::realloc]: [got] is the address it finds; [None], or an address in use, is
    failure, which leaves the block alone. *)
Definition realloc (got : Ptr) (ptr : Ptr) (size : Z) (mem : Mem) : Ptr * Mem :=
  match got with
  | Some q => if bool_decide (q ∈ dom (free ptr mem)) then (None, mem) else (Some q, <[q := size]> (free ptr mem))
  | None => (None, mem)
  end.
Definition CountingAllocFunc (got : Ptr) (ptr : Ptr) (oldsize size : Z) (s : CountingAlloc * Mem) : Ptr * (CountingAlloc * Mem) :=
  let '(self, mem) := s in
  if size =? 0 then (None, (self, free ptr mem)) else
  let growth := if oldsize <? size then size - oldsize else 0 in
  if to_uint 64 (cap self - used self) <? growth then (None, (self, mem)) else
  match realloc got ptr size mem with
  | (Some q, mem) => (Some q, (mkCountingAlloc (to_uint 64 (used self + growth)) (cap self), mem))
  | (None, mem) => (None, (self, mem))
  end.

(** Code that allocates through the function pointer: it ends, or calls and goes on
    with the answer. *)
Inductive Prog (A : Type) :=
| Ret (a : A)
| Call (ptr : Ptr) (oldsize size : Z) (k : Ptr → Prog A).
Arguments Ret {A}.
Arguments Call {A}.
(** One call: its arguments, the blocks before, and the state after. *)
Record AllocCall := mkAllocCall { ac_ptr : Ptr; ac_oldsize : Z; ac_size : Z; ac_before : Mem; ac_after : CountingAlloc * Mem }.
(** Runs [p]; [got n] is what the [n]-th call of [realloc] finds.  Also the calls. *)
Fixpoint run_prog {A} (got : nat → Ptr) (p : Prog A) (n : nat) (s : CountingAlloc * Mem) : A * nat * (CountingAlloc * Mem) * list AllocCall :=
  match p with
  | Ret a => (a, n, s, [])
  | Call ptr oldsize size k =>
      let '(answer, s') := CountingAllocFunc (got n) ptr oldsize size s in
      let '(r, calls) := run_prog got (k answer) (S n) s' in (r, mkAllocCall ptr oldsize size (snd s) s' :: calls)
  end.

(** ** Scalars *)

Definition kMaxOtlpKind : Z := 5.
Definition kMaxOtlpStatus : Z := 2.
Definition kDigits : str := $"0123456789abcdef".
Definition ToHex (v : list Z) : str :=
  foldl (λ out byte, out ++ [nth (Z.to_nat (Z.shiftr byte 4)) kDigits "000"%char; nth (Z.to_nat (Z.land byte 15)) kDigits "000"%char]) [] v.
Definition ToTime (ns : Z) : option Z := if i64_max <? ns then None else Some (to_sint 64 ns).
Definition ToId (kSizeBytes : nat) (v : list Z) : option (list Z) := if bool_decide (length v = kSizeBytes) then Some v else None.

(** ** Attribute values *)

Definition ConvertScalar (v : UAnyValue) : option AttributeValue :=
  match v with
  | string_value s => Some (AvString s)
  | bool_value b => Some (AvBool b)
  | int_value z => Some (AvInt z)
  | double_value d => Some (AvDouble d)
  | bytes_value b => Some (AvString (ToHex b))
  | _ => None
  end.
(** [std::get_if] of the four element types. *)
Definition get_string (v : AttributeValue) : option str := match v with AvString s => Some s | _ => None end.
Definition get_bool (v : AttributeValue) : option bool := match v with AvBool b => Some b | _ => None end.
Definition get_int (v : AttributeValue) : option Z := match v with AvInt z => Some z | _ => None end.
Definition get_double (v : AttributeValue) : option Z := match v with AvDouble d => Some d | _ => None end.
Fixpoint CollectArray {T} (get_if : AttributeValue → option T) (values : list UAnyValue) (out : list T) : option (list T) :=
  match values with
  | [] => Some out
  | v :: values => scalar ← ConvertScalar v; typed ← get_if scalar; CollectArray get_if values (out ++ [typed])
  end.
Definition ConvertArray (values : list UAnyValue) : option AttributeValue :=
  match values with
  | [] => Some (AvStrings [])
  | first :: _ =>
      match first with
      | string_value _ => AvStrings <$> CollectArray get_string values []
      | bool_value _ => AvBools <$> CollectArray get_bool values []
      | int_value _ => AvInts <$> CollectArray get_int values []
      | double_value _ => AvDoubles <$> CollectArray get_double values []
      | _ => None
      end
  end.
Definition ConvertValue (v : option UAnyValue) : option AttributeValue :=
  match v with
  | None => None
  | Some (array_value values) => ConvertArray values
  | Some v => ConvertScalar v
  end.
(** The attributes appended to [out], and how many were dropped. *)
Definition ConvertAttributes (kvs : list UKeyValue) (out : list KeyValue) : list KeyValue * Z :=
  foldl (λ '(out, dropped) kv,
    match ConvertValue (uk_value kv) with
    | None => (out, dropped + 1)
    | Some value => (out ++ [mkKeyValue (uk_key kv) value], dropped)
    end) (out, 0) kvs.

(** ** Spans

    [false] is [None]; [dropped] is threaded. *)

Fixpoint ConvertEvents (events : list UEvent) (out : list SpanEvent) (dropped : Z) : option (list SpanEvent * Z) :=
  match events with
  | [] => Some (out, dropped)
  | e :: events =>
      match ToTime (ue_time_unix_nano e) with
      | None => None
      | Some when =>
          let '(attributes, n) := ConvertAttributes (ue_attributes e) [] in
          ConvertEvents events (out ++ [mkSpanEvent (ue_name e) when attributes]) (dropped + n)
      end
  end.
Definition linked (trace span : list Z) : SpanContext := mkSpanContext trace span 0 TraceState_default false.
Fixpoint ConvertLinks (links : list ULink) (out : list SpanLink) (dropped : Z) : option (list SpanLink * Z) :=
  match links with
  | [] => Some (out, dropped)
  | l :: links =>
      match ToId TraceId_kSizeBytes (ul_trace_id l), ToId SpanId_kSizeBytes (ul_span_id l) with
      | Some trace_id, Some span_id =>
          let '(attributes, n) := ConvertAttributes (ul_attributes l) [] in
          ConvertLinks links (out ++ [mkSpanLink (linked trace_id span_id) attributes]) (dropped + n)
      | _, _ => None
      end
  end.
(** [static_cast<SpanKind>] and [static_cast<StatusCode>] of values in range. *)
Definition span_kind_of (z : Z) : SpanKind :=
  if z =? 1 then KindServer else if z =? 2 then KindClient else if z =? 3 then KindProducer else if z =? 4 then KindConsumer else KindInternal.
Definition status_code_of (z : Z) : StatusCode := if z =? 1 then CodeOk else if z =? 2 then CodeError else CodeUnset.

(** The header of the span, with no attributes, events or links yet. *)
Definition ConvertHeader (span : USpan) : option SpanRecord :=
  let trace_id := ToId TraceId_kSizeBytes (usp_trace_id span) in
  let span_id := ToId SpanId_kSizeBytes (usp_span_id span) in
  let parent := usp_parent_span_id span in
  let parent_id := ToId SpanId_kSizeBytes parent in
  let kind := usp_kind span in
  let start := ToTime (usp_start_time_unix_nano span) in
  let end_ := ToTime (usp_end_time_unix_nano span) in
  match trace_id, span_id, start, end_ with
  | Some trace_id, Some span_id, Some start, Some end_ =>
      if (negb (size parent =? 0) && negb (if parent_id is Some _ then true else false)) || (kind <? 0) || (kMaxOtlpKind <? kind) then None else
      let parent_context := match parent_id with Some p => linked trace_id p | None => SpanContext_default end in
      let kind := if kind =? 0 then KindInternal else span_kind_of (kind - 1) in
      let rec code description := mkSpanRecord (linked trace_id span_id) parent_context (usp_name span) kind code description start end_ [] [] [] None in
      match usp_status span with
      | None => Some (rec CodeUnset [])
      | Some status =>
          let code := ut_code status in
          if (code <? 0) || (kMaxOtlpStatus <? code) then None else Some (rec (status_code_of code) (ut_message status))
      end
  | _, _, _, _ => None
  end.
Definition ConvertSpan (span : USpan) (dropped : Z) : option (SpanRecord * Z) :=
  rec ← ConvertHeader span;
  let '(attributes, n) := ConvertAttributes (usp_attributes span) (sr_attributes rec) in
  '(events, dropped) ← ConvertEvents (usp_events span) (sr_events rec) (dropped + n);
  '(links, dropped) ← ConvertLinks (usp_links span) (sr_links rec) dropped;
  Some (mkSpanRecord (sr_context rec) (sr_parent_context rec) (sr_name rec) (sr_kind rec) (sr_status_code rec) (sr_status_description rec)
    (sr_start_time rec) (sr_end_time rec) attributes events links (sr_resource rec), dropped).
Fixpoint ConvertSpans (spans : list USpan) (out : list SpanRecord) (dropped : Z) : option (list SpanRecord * Z) :=
  match spans with
  | [] => Some (out, dropped)
  | s :: spans => match ConvertSpan s dropped with None => None | Some (rec, dropped) => ConvertSpans spans (out ++ [rec]) dropped end
  end.
Definition ConvertScopeSpans (ss : UScopeSpans) (out : DecodedResourceSpans) : option DecodedResourceSpans :=
  let scope := match uss_scope ss with Some scope => mkScope (us_name scope) (us_version scope) | None => mkScope [] [] end in
  '(spans, dropped) ← ConvertSpans (uss_spans ss) [] (rs_dropped_span_attributes out);
  Some (mkDecodedResourceSpans (rs_resource out) (rs_scopes out ++ [mkDecodedScopeSpans scope spans]) dropped (rs_dropped_resource_attributes out)).
Fixpoint ConvertScopes (scopes : list UScopeSpans) (out : DecodedResourceSpans) : option DecodedResourceSpans :=
  match scopes with
  | [] => Some out
  | ss :: scopes => match ConvertScopeSpans ss out with None => None | Some out => ConvertScopes scopes out end
  end.
Definition ConvertResourceSpans (rs : UResourceSpans) : option DecodedResourceSpans :=
  let '(resource, n) := match urs_resource rs with Some res => ConvertAttributes (ur_attributes res) [] | None => ([], 0) end in
  ConvertScopes (urs_scope_spans rs) (mkDecodedResourceSpans resource [] 0 n).
Fixpoint ConvertRequest (rss : list UResourceSpans) : option (list DecodedResourceSpans) :=
  match rss with
  | [] => Some []
  | rs :: rss => out ← ConvertResourceSpans rs; rest ← ConvertRequest rss; Some (out :: rest)
  end.
Definition CountSpans (rss : list UResourceSpans) : Z :=
  foldl (λ total rs, foldl (λ total ss, total + size (uss_spans ss)) total (urs_scope_spans rs)) 0 rss.

(** ** [Decode] *)

Inductive DecodeStatus := StatusOk | StatusMalformed | StatusOutOfMemory | StatusBadUtf8 | StatusMaxDepthExceeded | StatusMissingRequired | StatusUnlinkedSubMessage.
Definition FailureFor (status : DecodeStatus) : DecodeFailure :=
  match status with StatusOutOfMemory | StatusMaxDepthExceeded => DecodeTooLarge | _ => DecodeMalformed end.
Definition upb_DecodeOptions_MaxDepth (depth : Z) : Z := to_uint 32 (Z.shiftl depth 16).
(** [static_cast<int>] of it. *)
Definition depth_option (limits : DecodeLimits) : Z := to_sint 32 (upb_DecodeOptions_MaxDepth (dl_max_depth limits)).

(** upb, over the allocator it is given: the arena's first block, the request message,
    the wire decoder, and releasing the arena. *)
Record Upb := mkUpb {
  Arena : Type;
  upb_Arena_Init : Prog (option Arena);
  request_new : Arena → Prog (bool * Arena);
  upb_Decode : str → Z → Arena → Prog (DecodeStatus * UTraceRequest * Arena);
  upb_Arena_Free : Arena → Prog unit
}.
Record ArenaStats := mkArenaStats { st_used : Z; st_cap : Z }.

Section decode.
Context (upb : Upb) (got : nat → Ptr).
Abbreviation Heap := (CountingAlloc * Mem)%type.

(** What [DecodeInArena] makes of the decoded message. *)
Definition decoded_of (status : DecodeStatus) (req : UTraceRequest) (limits : DecodeLimits) : DecodeFailure + list DecodedResourceSpans :=
  match status with
  | StatusOk =>
      let rss := utr_resource_spans req in
      if dl_max_spans limits <? CountSpans rss then inl DecodeTooLarge
      else match ConvertRequest rss with None => inl DecodeMalformed | Some out => inr out end
  | _ => inl (FailureFor status)
  end.
(** The result, the arena afterwards, and the calls of the allocator. *)
Definition DecodeInArena (arena : option (Arena upb)) (payload : str) (limits : DecodeLimits) (n : nat) (s : Heap)
    : (DecodeFailure + list DecodedResourceSpans) * option (Arena upb) * nat * Heap * list AllocCall :=
  match arena with
  | None => (inl DecodeTooLarge, None, n, s, [])
  | Some a =>
      let '((ok, a), n, s, v1) := run_prog got (request_new upb a) n s in
      if negb ok then (inl DecodeTooLarge, Some a, n, s, v1) else
      let '((status, req, a), n, s, v2) := run_prog got (upb_Decode upb payload (depth_option limits) a) n s in
      (decoded_of status req limits, Some a, n, s, v1 ++ v2)
  end.
(** [Decode]: the result, what [m_observe] is given, and the calls of the allocator,
    those of the arena's destructor last. *)
Definition DecodeRun (payload : str) (limits : DecodeLimits) : (DecodeFailure + list DecodedResourceSpans) * ArenaStats * list AllocCall :=
  let s := (mkCountingAlloc 0 (dl_max_arena_bytes limits), ∅) in
  let '(arena, n, s, v1) := run_prog got (upb_Arena_Init upb) 0 s in
  let '(result, arena, n, s, v2) := DecodeInArena arena payload limits n s in
  let stats := mkArenaStats (used (fst s)) (dl_max_arena_bytes limits) in
  let v3 := match arena with Some a => snd (run_prog got (upb_Arena_Free upb a) n s) | None => [] end in
  (result, stats, v1 ++ v2 ++ v3).
Definition Decode (payload : str) (limits : DecodeLimits) : DecodeFailure + list DecodedResourceSpans := fst (fst (DecodeRun payload limits)).
End decode.

(** ** Values

    What an [AnyValue] means as an attribute value.  An element of a string array
    other than the first may also be bytes, rendered in hex. *)
Inductive text : UAnyValue → str → Prop :=
| text_string s : text (string_value s) s
| text_bytes b : text (bytes_value b) (ToHex b).
Inductive means : UAnyValue → AttributeValue → Prop :=
| means_text v s : text v s → means v (AvString s)
| means_bool b : means (bool_value b) (AvBool b)
| means_int z : means (int_value z) (AvInt z)
| means_double d : means (double_value d) (AvDouble d)
| means_empty : means (array_value []) (AvStrings [])
| means_strings s vs ss : Forall2 text vs ss → means (array_value (string_value s :: vs)) (AvStrings (s :: ss))
| means_bools b bs : means (array_value (bool_value <$> b :: bs)) (AvBools (b :: bs))
| means_ints z zs : means (array_value (int_value <$> z :: zs)) (AvInts (z :: zs))
| means_doubles d ds : means (array_value (double_value <$> d :: ds)) (AvDoubles (d :: ds)).

Lemma ToHex_Trace b : Forall is_u8 b → ToHex b = Trace.ToHex b.
Proof.
  unfold ToHex. enough (∀ out, Forall is_u8 b → foldl (λ out byte, out ++ [nth (Z.to_nat (Z.shiftr byte 4)) kDigits "000"%char;
    nth (Z.to_nat (Z.land byte 15)) kDigits "000"%char]) out b = out ++ Trace.ToHex b) as H by exact (H []).
  induction b as [|x b IH]; intros out Hb; cbn [foldl]; [by rewrite app_nil_r|]. apply Forall_cons in Hb as [Hx Hb]. rewrite IH by done.
  rewrite <- app_assoc. f_equal. cbn [app]. unfold Trace.ToHex. cbn [BytesToLowerHex].
  pose proof (nibble_hi_range x Hx) as H1. pose proof (nibble_lo_range x) as H2.
  assert (∀ z, 0 <= z < 16 → nth (Z.to_nat z) kDigits "000"%char = NibbleToHex z) as Hd.
  { intros z Hz. pose proof (forall_below (λ z, nth (Z.to_nat z) kDigits "000"%char =c NibbleToHex z) 16 eq_refl z Hz) as H. by apply ceqb_true in H. }
  rewrite !Hd by done. done.
Qed.

Lemma collect_forall2 {T} (get_if : AttributeValue → option T) (R : UAnyValue → T → Prop) values out l :
  (∀ v t, ConvertScalar v ≫= get_if = Some t ↔ R v t) →
  CollectArray get_if values out = Some l ↔ ∃ l', l = out ++ l' ∧ Forall2 R values l'.
Proof.
  intros HR. revert out. induction values as [|v values IH]; intros out; cbn [CollectArray].
  - split; [intros [= ->]; exists []; by rewrite app_nil_r|]. intros (l' & -> & H). apply Forall2_nil_inv_l in H as ->. by rewrite app_nil_r.
  - specialize (HR v). destruct (ConvertScalar v) as [sc|]; cbn [mbind option_bind] in *.
    2:{ split; [done|]. intros (l' & _ & H). apply Forall2_cons_inv_l in H as (t & ? & H & _). by apply HR in H. }
    destruct (get_if sc) as [t|]; cbn [mbind option_bind].
    2:{ split; [done|]. intros (l' & _ & H). apply Forall2_cons_inv_l in H as (t & ? & H & _). by apply HR in H. }
    rewrite IH. split.
    + intros (l' & -> & H). exists (t :: l'). rewrite <- app_assoc. split; [done|]. constructor; [by apply HR|done].
    + intros (l' & -> & H). apply Forall2_cons_inv_l in H as (t' & l'' & H1 & H2 & ->). apply HR in H1 as [= <-].
      exists l''. by rewrite <- app_assoc.
Qed.
Lemma forall2_fmap {A} (f : A → UAnyValue) (l : list UAnyValue) (k : list A) : Forall2 (λ v a, v = f a) l k ↔ l = f <$> k.
Proof.
  revert k. induction l as [|v l IH]; intros [|a k]; split; intros H; try done; try (by inversion H).
  - apply Forall2_cons in H as [-> H]. cbn. f_equal. by apply IH.
  - cbn in H. injection H as -> ->. constructor; [done|]. by apply IH.
Qed.
Lemma scalar_text v s : ConvertScalar v ≫= get_string = Some s ↔ text v s.
Proof. split; [destruct v; cbn; try discriminate; intros [= <-]; constructor|by destruct 1]. Qed.
Ltac scalar_case := intros v t; split; [destruct v; cbn; try discriminate; by intros [= <-]|by intros ->].

Ltac inv_means H := inversion H; subst; try match goal with H' : text _ _ |- _ => solve [inversion H'; subst; done] end.

(** ConvertValue reads exactly the values an attribute can hold, and drops the others:
    no value, a key-value list, an array of arrays or of mixed types. *)
Lemma ConvertValue_means v av : ConvertValue (Some v) = Some av ↔ means v av.
Proof.
  destruct v as [|s|b|z|d|values|kvs|bs|i]; cbn [ConvertValue ConvertScalar]; try (split; [discriminate|intros H; by inv_means H]);
    try (split; [intros [= <-]; repeat constructor|intros H; by inv_means H]).
  unfold ConvertArray. destruct values as [|v values].
  { split; [intros [= <-]; constructor|intros H; by inv_means H]. }
  rewrite ?fmap_Some. destruct v as [|s|b|z|d|l|l|bs|i]; try (split; [discriminate|intros H; by inv_means H]).
  all: rewrite fmap_Some.
  - setoid_rewrite (collect_forall2 get_string text _ [] _ scalar_text). split.
    + intros (l & (l' & -> & H) & ->). apply Forall2_cons_inv_l in H as (t & l'' & H1 & H2 & ->). inversion H1; subst. by constructor.
    + intros H. inv_means H. eexists. split; [|done]. exists (s :: ss). split; [done|]. constructor; [constructor|done].
  - setoid_rewrite (collect_forall2 get_bool (λ v a, v = bool_value a)); [|scalar_case]. setoid_rewrite forall2_fmap. split.
    + intros (l & (l' & -> & H) & ->). destruct l' as [|b' l']; [done|]. cbn [app]. rewrite H. constructor.
    + intros H. inv_means H. eexists. split; [|done]. by exists (b :: bs).
  - setoid_rewrite (collect_forall2 get_int (λ v a, v = int_value a)); [|scalar_case]. setoid_rewrite forall2_fmap. split.
    + intros (l & (l' & -> & H) & ->). destruct l' as [|b' l']; [done|]. cbn [app]. rewrite H. constructor.
    + intros H. inv_means H. eexists. split; [|done]. by exists (z :: zs).
  - setoid_rewrite (collect_forall2 get_double (λ v a, v = double_value a)); [|scalar_case]. setoid_rewrite forall2_fmap. split.
    + intros (l & (l' & -> & H) & ->). destruct l' as [|b' l']; [done|]. cbn [app]. rewrite H. constructor.
    + intros H. inv_means H. eexists. split; [|done]. by exists (d :: ds).
Qed.

(** ** A reading of the message

    What the message says, with no early exit: the attributes with a meaning, how
    many have none, and the spans field by field. *)
Definition kept (kvs : list UKeyValue) : list KeyValue := omap (λ kv, mkKeyValue (uk_key kv) <$> ConvertValue (uk_value kv)) kvs.
Definition lost (kvs : list UKeyValue) : Z := zsum (λ kv, match ConvertValue (uk_value kv) with Some _ => 0 | None => 1 end) kvs.
Definition time_ok (ns : Z) : bool := ns <=? i64_max.
Definition id_ok (k : nat) (v : list Z) : bool := bool_decide (length v = k).
Definition event_ok (e : UEvent) : bool := time_ok (ue_time_unix_nano e).
Definition link_ok (l : ULink) : bool := id_ok TraceId_kSizeBytes (ul_trace_id l) && id_ok SpanId_kSizeBytes (ul_span_id l).
Definition status_ok (s : option UStatus) : bool := match s with Some s => (0 <=? ut_code s) && (ut_code s <=? kMaxOtlpStatus) | None => true end.
(** What a [SpanRecord] can represent. *)
Definition span_ok (s : USpan) : bool :=
  id_ok TraceId_kSizeBytes (usp_trace_id s) && id_ok SpanId_kSizeBytes (usp_span_id s)
  && ((size (usp_parent_span_id s) =? 0) || id_ok SpanId_kSizeBytes (usp_parent_span_id s))
  && (0 <=? usp_kind s) && (usp_kind s <=? kMaxOtlpKind) && time_ok (usp_start_time_unix_nano s) && time_ok (usp_end_time_unix_nano s)
  && status_ok (usp_status s) && forallb event_ok (usp_events s) && forallb link_ok (usp_links s).
Definition read_event (e : UEvent) : SpanEvent := mkSpanEvent (ue_name e) (to_sint 64 (ue_time_unix_nano e)) (kept (ue_attributes e)).
Definition read_link (l : ULink) : SpanLink := mkSpanLink (linked (ul_trace_id l) (ul_span_id l)) (kept (ul_attributes l)).
Definition read_span (s : USpan) : SpanRecord :=
  mkSpanRecord (linked (usp_trace_id s) (usp_span_id s))
    (if id_ok SpanId_kSizeBytes (usp_parent_span_id s) then linked (usp_trace_id s) (usp_parent_span_id s) else SpanContext_default)
    (usp_name s) (if usp_kind s =? 0 then KindInternal else span_kind_of (usp_kind s - 1))
    match usp_status s with Some st => status_code_of (ut_code st) | None => CodeUnset end
    match usp_status s with Some st => ut_message st | None => [] end
    (to_sint 64 (usp_start_time_unix_nano s)) (to_sint 64 (usp_end_time_unix_nano s))
    (kept (usp_attributes s)) (read_event <$> usp_events s) (read_link <$> usp_links s) None.
Definition span_lost (s : USpan) : Z :=
  lost (usp_attributes s) + zsum (λ e, lost (ue_attributes e)) (usp_events s) + zsum (λ l, lost (ul_attributes l)) (usp_links s).
Definition read_scope (ss : UScopeSpans) : DecodedScopeSpans :=
  mkDecodedScopeSpans match uss_scope ss with Some sc => mkScope (us_name sc) (us_version sc) | None => mkScope [] [] end (read_span <$> uss_spans ss).
Definition resource_kvs (rs : UResourceSpans) : list UKeyValue := match urs_resource rs with Some res => ur_attributes res | None => [] end.
Definition message_spans (rs : UResourceSpans) : list USpan := urs_scope_spans rs ≫= uss_spans.
Definition read_resource (rs : UResourceSpans) : DecodedResourceSpans :=
  mkDecodedResourceSpans (kept (resource_kvs rs)) (read_scope <$> urs_scope_spans rs) (zsum span_lost (message_spans rs)) (lost (resource_kvs rs)).

Lemma ConvertAttributes_spec kvs out : ConvertAttributes kvs out = (out ++ kept kvs, lost kvs).
Proof.
  unfold ConvertAttributes. enough (∀ d, foldl (λ '(out, dropped) kv, match ConvertValue (uk_value kv) with
    | None => (out, dropped + 1) | Some value => (out ++ [mkKeyValue (uk_key kv) value], dropped) end) (out, d) kvs = (out ++ kept kvs, d + lost kvs)) as H by exact (H 0).
  unfold kept, lost. revert out. induction kvs as [|kv kvs IH]; intros out d; cbn [foldl omap list_omap].
  { rewrite app_nil_r. f_equal. unfold zsum. cbn. lia. }
  rewrite zsum_cons. destruct (ConvertValue (uk_value kv)) as [v|]; cbn [fmap option_fmap option_map]; rewrite IH; [rewrite <- app_assoc|]; f_equal; lia.
Qed.
Lemma ToTime_spec ns : ToTime ns = if time_ok ns then Some (to_sint 64 ns) else None.
Proof. unfold ToTime, time_ok. rewrite Z.leb_antisym. by destruct (_ <? _). Qed.
Lemma ToId_spec k v : ToId k v = if id_ok k v then Some v else None.
Proof. done. Qed.
Lemma ConvertEvents_spec events out d :
  ConvertEvents events out d = if forallb event_ok events then Some (out ++ (read_event <$> events), d + zsum (λ e, lost (ue_attributes e)) events) else None.
Proof.
  revert out d. induction events as [|e events IH]; intros out d; cbn [ConvertEvents forallb].
  { rewrite app_nil_r. f_equal. f_equal. unfold zsum. cbn. lia. }
  rewrite ToTime_spec. unfold event_ok at 1. destruct (time_ok _); cbn [andb]; [|done]. rewrite ConvertAttributes_spec, IH, zsum_cons. cbn [app].
  destruct (forallb _ _); [|done]. rewrite <- app_assoc, Z.add_assoc. done.
Qed.
Lemma ConvertLinks_spec links out d :
  ConvertLinks links out d = if forallb link_ok links then Some (out ++ (read_link <$> links), d + zsum (λ l, lost (ul_attributes l)) links) else None.
Proof.
  revert out d. induction links as [|l links IH]; intros out d; cbn [ConvertLinks forallb].
  { rewrite app_nil_r. f_equal. f_equal. unfold zsum. cbn. lia. }
  rewrite !ToId_spec. unfold link_ok at 1. destruct (id_ok _ _), (id_ok _ _); cbn [andb]; try done. rewrite ConvertAttributes_spec, IH, zsum_cons. cbn [app].
  destruct (forallb _ _); [|done]. rewrite <- app_assoc, Z.add_assoc. done.
Qed.
Lemma ConvertSpan_spec s d : ConvertSpan s d = if span_ok s then Some (read_span s, d + span_lost s) else None.
Proof.
  unfold ConvertSpan, ConvertHeader, span_ok. rewrite !ToTime_spec, !ToId_spec.
  destruct (id_ok TraceId_kSizeBytes _) eqn:E1; cbn [andb mbind option_bind]; [|done].
  destruct (id_ok SpanId_kSizeBytes (usp_span_id s)) eqn:E2; cbn [andb mbind option_bind]; [|done].
  rewrite (Z.leb_antisym (usp_kind s) 0), (Z.leb_antisym kMaxOtlpKind (usp_kind s)).
  destruct (time_ok (usp_start_time_unix_nano s)); [|by rewrite !andb_false_r].
  destruct (time_ok (usp_end_time_unix_nano s)); [|by rewrite !andb_false_r]. rewrite !andb_true_r.
  destruct (id_ok SpanId_kSizeBytes (usp_parent_span_id s)) eqn:E3.
  all: destruct (size (usp_parent_span_id s) =? 0) eqn:E4; cbn [negb andb orb]; try done.
  all: destruct (usp_kind s <? 0); cbn [negb andb orb]; [done|].
  all: destruct (kMaxOtlpKind <? usp_kind s); cbn [negb andb orb]; [done|].
  all: destruct (usp_status s) as [[m c]|] eqn:E5; cbn [status_ok ut_code ut_message]; [rewrite (Z.leb_antisym c 0), (Z.leb_antisym kMaxOtlpStatus c);
    destruct (c <? 0); cbn [negb andb orb]; [done|]; destruct (kMaxOtlpStatus <? c); cbn [negb andb orb]; [done|]|].
  all: cbn [mbind option_bind sr_attributes sr_events sr_links]; rewrite ConvertAttributes_spec, ConvertEvents_spec; destruct (forallb event_ok _); cbn [andb mbind option_bind]; [|done].
  all: rewrite ConvertLinks_spec; destruct (forallb link_ok _); cbn [andb mbind option_bind]; [|done].
  all: unfold read_span, span_lost; rewrite E3, E5; cbn [app sr_context sr_parent_context sr_name sr_kind sr_status_code sr_status_description sr_start_time sr_end_time sr_resource ut_code ut_message];
    rewrite !Z.add_assoc; done.
Qed.
Lemma ConvertSpans_spec spans out d :
  ConvertSpans spans out d = if forallb span_ok spans then Some (out ++ (read_span <$> spans), d + zsum span_lost spans) else None.
Proof.
  revert out d. induction spans as [|s spans IH]; intros out d; cbn [ConvertSpans forallb].
  { rewrite app_nil_r. f_equal. f_equal. unfold zsum. cbn. lia. }
  rewrite ConvertSpan_spec. destruct (span_ok s); cbn [andb]; [|done]. rewrite IH, zsum_cons. destruct (forallb _ _); [|done]. by rewrite <- app_assoc, Z.add_assoc.
Qed.
Lemma ConvertScopes_spec scopes out :
  ConvertScopes scopes out = if forallb span_ok (scopes ≫= uss_spans) then Some (mkDecodedResourceSpans (rs_resource out) (rs_scopes out ++ (read_scope <$> scopes))
    (rs_dropped_span_attributes out + zsum span_lost (scopes ≫= uss_spans)) (rs_dropped_resource_attributes out)) else None.
Proof.
  revert out. induction scopes as [|ss scopes IH]; intros out; cbn [ConvertScopes].
  { cbn. rewrite app_nil_r. destruct out. do 2 f_equal. unfold zsum. cbn. lia. }
  rewrite bind_cons, forallb_app. unfold ConvertScopeSpans. rewrite ConvertSpans_spec. destruct (forallb span_ok (uss_spans ss)); cbn [andb mbind option_bind]; [|done].
  rewrite IH. cbn [rs_resource rs_scopes rs_dropped_span_attributes rs_dropped_resource_attributes]. destruct (forallb _ _); [|done].
  rewrite zsum_app, <- app_assoc, Z.add_assoc. done.
Qed.
Lemma ConvertResourceSpans_spec rs : ConvertResourceSpans rs = if forallb span_ok (message_spans rs) then Some (read_resource rs) else None.
Proof.
  unfold ConvertResourceSpans, read_resource, message_spans, resource_kvs. destruct (urs_resource rs) as [res|].
  - rewrite ConvertAttributes_spec, ConvertScopes_spec. cbn. by destruct (forallb _ _).
  - rewrite ConvertScopes_spec. cbn. by destruct (forallb _ _).
Qed.
Lemma ConvertRequest_spec rss : ConvertRequest rss = if forallb span_ok (rss ≫= message_spans) then Some (read_resource <$> rss) else None.
Proof.
  induction rss as [|rs rss IH]; [done|]. cbn [ConvertRequest]. rewrite bind_cons, forallb_app, ConvertResourceSpans_spec, IH.
  destruct (forallb span_ok (message_spans rs)); cbn; [|done]. by destruct (forallb _ _).
Qed.
Lemma CountSpans_spec rss : CountSpans rss = size (rss ≫= message_spans).
Proof.
  unfold CountSpans. enough (∀ t, foldl (λ total rs, foldl (λ total ss, total + size (uss_spans ss)) total (urs_scope_spans rs)) t rss = t + size (rss ≫= message_spans)) as H
    by (rewrite H; lia).
  assert (∀ sss t, foldl (λ total ss, total + size (uss_spans ss)) t sss = t + size (sss ≫= uss_spans)) as H1.
  { induction sss as [|ss sss IH]; intros t; [cbn; unfold size; cbn; lia|]. cbn [foldl]. rewrite IH, bind_cons, size_app. lia. }
  induction rss as [|rs rss IH]; intros t; [cbn; unfold size; cbn; lia|]. cbn [foldl]. rewrite H1, IH, bind_cons, size_app. change (message_spans rs) with (urs_scope_spans rs ≫= uss_spans). lia.
Qed.

(** ** Memory *)

(** The bytes of the live blocks. *)
Definition live (mem : Mem) : Z := zsum snd (map_to_list mem).
Definition block_size (ptr : Ptr) (mem : Mem) : option Z := match ptr with Some p => mem !! p | None => Some 0 end.
(** What upb promises of a call: a block it was given, with the size it asked for. *)
Definition honest_call (c : AllocCall) : Prop := block_size (ac_ptr c) (ac_before c) = Some (ac_oldsize c) ∧ is_u64 (ac_size c).
(** The counter never passes the cap. *)
Definition counted (limit : Z) (s : CountingAlloc * Mem) : Prop := cap (fst s) = limit ∧ 0 <= used (fst s) <= limit.
(** Nor do the blocks. *)
Definition covered (limit : Z) (s : CountingAlloc * Mem) : Prop :=
  counted limit s ∧ live (snd s) <= used (fst s) ∧ map_Forall (λ _ z, 0 <= z) (snd s).

Lemma live_insert mem q z : mem !! q = None → live (<[q := z]> mem) = z + live mem.
Proof. intros H. unfold live. rewrite (zsum_perm _ _ ((q, z) :: map_to_list mem)); [by rewrite zsum_cons|]. by apply map_to_list_insert. Qed.
Lemma live_delete mem q z : mem !! q = Some z → live mem = z + live (delete q mem).
Proof. intros H. rewrite <- (live_insert _ q z) by apply lookup_delete_eq. by rewrite insert_delete_id. Qed.
Lemma live_free ptr mem z : block_size ptr mem = Some z → live mem = z + live (free ptr mem).
Proof. destruct ptr as [p|]; cbn; [apply live_delete|]. intros [= <-]. lia. Qed.
Lemma free_sizes ptr mem : map_Forall (λ _ z, 0 <= z) mem → map_Forall (λ _ z, 0 <= z) (free ptr mem).
Proof. destruct ptr; cbn; [|done]. apply map_Forall_delete. Qed.
Lemma block_nonneg ptr mem z : map_Forall (λ _ z, 0 <= z) mem → block_size ptr mem = Some z → 0 <= z.
Proof. destruct ptr as [p|]; cbn; [intros H Hp; by eapply (H p)|]. by intros _ [= <-]. Qed.

Section allocator.
Context (limit : Z) (Hlimit : is_u64 limit).
Lemma room s : counted limit s → to_uint 64 (cap (fst s) - used (fst s)) = limit - used (fst s).
Proof. intros [-> ?]. apply to_uint64_id. width_lia. Qed.
Lemma counted_step got ptr oldsize size s : counted limit s → counted limit (snd (CountingAllocFunc got ptr oldsize size s)).
Proof.
  intros C. pose proof (room s C) as Hr. destruct s as [self mem], C as [Hc Hu]. cbn [fst] in *. unfold CountingAllocFunc. destruct (size =? 0); [done|].
  set (growth := if oldsize <? size then _ else _). assert (0 <= growth) by (subst growth; destruct (Z.ltb_spec oldsize size); lia).
  rewrite Hr. destruct (Z.ltb_spec (limit - used self) growth); [done|].
  destruct (realloc _ _ _ _) as [[q|] mem']; [|done]. split; cbn [fst snd cap used]; [done|]. rewrite to_uint64_id by width_lia. lia.
Qed.
Lemma covered_step got ptr oldsize size s :
  honest_call (mkAllocCall ptr oldsize size (snd s) (snd (CountingAllocFunc got ptr oldsize size s))) →
  covered limit s → covered limit (snd (CountingAllocFunc got ptr oldsize size s)).
Proof.
  intros [Hb Hz] (C & Hl & Hm). pose proof (counted_step got ptr oldsize size s C) as C'. split; [done|]. pose proof (room s C) as Hr.
  destruct s as [self mem], C as [Hc Hu]. cbn [ac_ptr ac_before ac_oldsize ac_size fst snd] in *. pose proof (live_free _ _ _ Hb) as Hf. pose proof (block_nonneg _ _ _ Hm Hb) as H0.
  unfold CountingAllocFunc. destruct (size =? 0); [cbn [fst snd]; split; [lia|by apply free_sizes]|].
  set (growth := if oldsize <? size then _ else _). assert (0 <= growth ∧ size - oldsize <= growth) by (subst growth; destruct (Z.ltb_spec oldsize size); lia).
  rewrite Hr. destruct (Z.ltb_spec (limit - used self) growth); [done|]. unfold realloc. destruct got as [q|]; [|done].
  case_bool_decide as Hq; [done|]. cbn [fst snd used]. rewrite to_uint64_id by width_lia. split.
  - rewrite live_insert by (by apply not_elem_of_dom). lia.
  - apply map_Forall_insert_2; [width_lia|by apply free_sizes].
Qed.
End allocator.

(** What every call keeps, every run keeps. *)
Lemma run_prog_keeps {A} (H : AllocCall → Prop) (P : CountingAlloc * Mem → Prop) got (p : Prog A) :
  (∀ g ptr oldsize size s, H (mkAllocCall ptr oldsize size (snd s) (snd (CountingAllocFunc g ptr oldsize size s))) →
     P s → P (snd (CountingAllocFunc g ptr oldsize size s))) →
  ∀ n s r n' s' calls, run_prog got p n s = (r, n', s', calls) → P s → Forall H calls → P s' ∧ Forall (λ c, P (ac_after c)) calls.
Proof.
  intros HP. induction p as [a|ptr oldsize size k IH]; intros n s r n' s' calls; cbn [run_prog]; intros E Ps Hc.
  - injection E as <- <- <- <-. by split.
  - specialize (HP (got n) ptr oldsize size s). destruct (CountingAllocFunc (got n) ptr oldsize size s) as [answer s1]. cbn [snd] in HP.
    destruct (run_prog got (k answer) (S n) s1) as [[[r1 n1] s2] calls1] eqn:E1. injection E as <- <- <- <-. apply Forall_cons in Hc as [Hc1 Hc2].
    specialize (HP Hc1 Ps). destruct (IH _ _ _ _ _ _ _ E1 HP Hc2) as [H1 H2]. split; [done|]. by constructor.
Qed.

(** ** What [Decode] promises *)

Lemma forallb_Forall {A} (P : A → bool) l : forallb P l = true ↔ Forall (λ x, P x = true) l.
Proof. rewrite forallb_forall, Forall_forall. by setoid_rewrite list_elem_of_In. Qed.
Lemma kept_lost kvs : size kvs = size (kept kvs) + lost kvs.
Proof.
  unfold kept, lost. induction kvs as [|kv kvs IH]; [done|]. rewrite zsum_cons, size_cons. cbn [omap list_omap].
  destruct (ConvertValue (uk_value kv)); cbn [fmap option_fmap option_map]; [rewrite size_cons|]; lia.
Qed.
Lemma kept_means kvs k v : mkKeyValue k v ∈ kept kvs ↔ ∃ u, mkUKeyValue k (Some u) ∈ kvs ∧ means u v.
Proof.
  unfold kept. rewrite list_elem_of_omap. split.
  - intros ([k' u] & Hin & H). cbn in H. apply fmap_Some in H as (v' & H & [= -> ->]). destruct u as [u|]; [|done].
    exists u. split; [done|]. by apply ConvertValue_means.
  - intros (u & Hin & H). eexists. split; [exact Hin|]. cbn [uk_key uk_value]. apply ConvertValue_means in H. by rewrite H.
Qed.

(** C19: The decoder accepts a payload exactly when upb parses it, it holds no more spans
    than the limit, and every one of its spans fits a SpanRecord; a bound that was hit is
    TooLarge and everything else Malformed.  What it returns is the message field by
    field, in payload order: an attribute with a value an attribute can hold is there, and
    every other one is counted as dropped. *)
Theorem trace_decode_exact status req limits :
  let spans := utr_resource_spans req ≫= message_spans in
  (∀ out, decoded_of status req limits = inr out ↔
     status = StatusOk ∧ size spans <= dl_max_spans limits ∧ Forall (λ s, span_ok s = true) spans ∧ out = read_resource <$> utr_resource_spans req)
  ∧ (decoded_of status req limits = inl DecodeTooLarge ↔
       status = StatusOutOfMemory ∨ status = StatusMaxDepthExceeded ∨ status = StatusOk ∧ dl_max_spans limits < size spans)
  ∧ ∀ kvs, size kvs = size (kept kvs) + lost kvs ∧ ∀ k v, mkKeyValue k v ∈ kept kvs ↔ ∃ u, mkUKeyValue k (Some u) ∈ kvs ∧ means u v.
Proof.
  intros spans. split_and!.
  - intros out. destruct status; cbn [decoded_of FailureFor]; try (split; [done|by intros [? _]]).
    rewrite CountSpans_spec, ConvertRequest_spec. fold spans. destruct (Z.ltb_spec (dl_max_spans limits) (size spans)).
    { split; [done|]. intros (_ & ? & _). lia. }
    destruct (forallb span_ok spans) eqn:E.
    + split; [intros [= <-]|by intros (_ & _ & _ & ->)]. split_and!; [done|lia|by apply forallb_Forall|done].
    + split; [done|]. intros (_ & _ & Hf & _). apply forallb_Forall in Hf. congruence.
  - destruct status; cbn [decoded_of FailureFor]; try (split; [done|]; by intros [?|[?|[? _]]]); try (split; [|done]; by auto).
    rewrite CountSpans_spec, ConvertRequest_spec. fold spans. destruct (Z.ltb_spec (dl_max_spans limits) (size spans)).
    + split; [|done]. auto.
    + split; [by destruct (forallb _ _)|]. intros [?|[?|[_ ?]]]; [done|done|lia].
  - intros kvs. split; [apply kept_lost|apply kept_means].
Qed.

(** What every call keeps holds when the counter is read, and after every call. *)
Lemma DecodeRun_keeps (H : AllocCall → Prop) (P : CountingAlloc * Mem → Prop) (Q : Z → Prop) upb got payload limits result stats calls :
  (∀ g ptr oldsize size s, H (mkAllocCall ptr oldsize size (snd s) (snd (CountingAllocFunc g ptr oldsize size s))) → P s → P (snd (CountingAllocFunc g ptr oldsize size s))) →
  P (mkCountingAlloc 0 (dl_max_arena_bytes limits), ∅) → (∀ s, P s → Q (used (fst s))) →
  DecodeRun upb got payload limits = (result, stats, calls) → Forall H calls → Q (st_used stats) ∧ Forall (λ c, P (ac_after c)) calls.
Proof.
  intros Hstep P0 HQ. pose proof (λ A, run_prog_keeps (A:=A) H P got) as K. unfold DecodeRun, DecodeInArena.
  destruct (run_prog got (upb_Arena_Init upb) 0 _) as [[[arena n1] s1] v1] eqn:E1. destruct arena as [a|].
  2:{ intros [= <- <- <-]. rewrite !app_nil_r. intros Hc. destruct (K _ _ Hstep _ _ _ _ _ _ E1 P0 Hc). split; [by apply HQ|done]. }
  destruct (run_prog got (request_new upb a) n1 s1) as [[[[ok a2] n2] s2] v2] eqn:E2. destruct ok; cbn [negb].
  - destruct (run_prog got (upb_Decode upb _ _ a2) n2 s2) as [[[[[status req] a3] n3] s3] v3] eqn:E3.
    destruct (run_prog got (upb_Arena_Free upb a3) n3 s3) as [[[u n4] s4] v4] eqn:E4. cbn [snd fst]. intros [= <- <- <-].
    intros [Hc1 [[Hc2 Hc3]%Forall_app Hc4]%Forall_app]%Forall_app. destruct (K _ _ Hstep _ _ _ _ _ _ E1 P0 Hc1) as [P1 F1].
    destruct (K _ _ Hstep _ _ _ _ _ _ E2 P1 Hc2) as [P2 F2]. destruct (K _ _ Hstep _ _ _ _ _ _ E3 P2 Hc3) as [P3 F3].
    destruct (K _ _ Hstep _ _ _ _ _ _ E4 P3 Hc4) as [P4 F4]. split; [by apply (HQ _ P3)|]. by rewrite !Forall_app.
  - destruct (run_prog got (upb_Arena_Free upb a2) n2 s2) as [[[u n3] s3] v3] eqn:E3. cbn [snd fst]. intros [= <- <- <-].
    intros [Hc1 [Hc2 Hc3]%Forall_app]%Forall_app. destruct (K _ _ Hstep _ _ _ _ _ _ E1 P0 Hc1) as [P1 F1].
    destruct (K _ _ Hstep _ _ _ _ _ _ E2 P1 Hc2) as [P2 F2]. destruct (K _ _ Hstep _ _ _ _ _ _ E3 P2 Hc3) as [P3 F3].
    split; [by apply (HQ _ P2)|]. by rewrite !Forall_app.
Qed.

(** C20: Whatever upb does with the allocator it is given, the counter a decode reports
    never passes the cap of the call; and as long as upb states the sizes of the blocks it
    resizes and frees, the blocks alive at any moment of the decode, the destruction of
    the arena included, never hold more bytes than the cap. *)
Theorem decode_memory_capped upb got payload limits result stats calls :
  is_u64 (dl_max_arena_bytes limits) → DecodeRun upb got payload limits = (result, stats, calls) →
  0 <= st_used stats <= dl_max_arena_bytes limits
  ∧ Forall (λ c, 0 <= used (fst (ac_after c)) <= dl_max_arena_bytes limits) calls
  ∧ (Forall honest_call calls → Forall (λ c, live (snd (ac_after c)) <= dl_max_arena_bytes limits) calls).
Proof.
  set (limit := dl_max_arena_bytes limits). intros Hlimit E.
  assert (counted limit (mkCountingAlloc 0 limit, ∅)) as C0 by (split; cbn; [done|width_lia]).
  destruct (DecodeRun_keeps (λ _, True) (counted limit) (λ u, 0 <= u <= limit) upb got payload limits result stats calls) as [Hs Hc];
    [intros; by apply counted_step|exact C0|by intros s []|exact E|by apply Forall_true|].
  split; [exact Hs|]. split.
  - eapply Forall_impl; [exact Hc|]. by intros c [].
  - intros Hh. destruct (DecodeRun_keeps honest_call (covered limit) (λ _, True) upb got payload limits result stats calls) as [_ Hl];
      [intros; by apply covered_step| |done|exact E|exact Hh|].
    + split; [done|]. split; [vm_compute; discriminate|apply map_Forall_empty].
    + eapply Forall_impl; [exact Hl|]. intros c ([_ ?] & ? & _). lia.
Qed.

(** What upb answers, if the arena gets its first blocks. *)
Definition answer (upb : Upb) (got : nat → Ptr) (payload : str) (limits : DecodeLimits) : option (DecodeStatus * UTraceRequest) :=
  let '(arena, n, s, _) := run_prog got (upb_Arena_Init upb) 0 (mkCountingAlloc 0 (dl_max_arena_bytes limits), ∅) in
  a ← arena;
  let '((ok, a), n, s, _) := run_prog got (request_new upb a) n s in
  if ok : bool then let '((status, req, _), _, _, _) := run_prog got (upb_Decode upb payload (depth_option limits) a) n s in Some (status, req) else None.
Lemma Decode_answer upb got payload limits :
  Decode upb got payload limits = match answer upb got payload limits with Some (status, req) => decoded_of status req limits | None => inl DecodeTooLarge end.
Proof.
  unfold Decode, DecodeRun, DecodeInArena, answer. destruct (run_prog got (upb_Arena_Init upb) _ _) as [[[arena n1] s1] v1].
  destruct arena as [a|]; cbn [mbind option_bind]; [|done]. destruct (run_prog got (request_new upb a) n1 s1) as [[[[ok a2] n2] s2] v2].
  destruct ok; cbn [negb]; [|done]. by destruct (run_prog got (upb_Decode upb _ _ a2) n2 s2) as [[[[[status req] a3] n3] s3] v3].
Qed.

(** The contract the leaf receiver asks of its decoder. *)
Lemma to_sint64_i64 z : is_i64 (to_sint 64 z).
Proof.
  unfold to_sint. cbv zeta. pose proof (Z.mod_pos_bound z (2 ^ 64) eq_refl) as H. change (2 ^ (64 - 1)) with 9223372036854775808.
  change (2 ^ 64) with 18446744073709551616 in *. destruct (Z.ltb_spec (z mod 18446744073709551616) 9223372036854775808); width_lia.
Qed.
Lemma read_resource_spans rs : (resource_spans (read_resource rs)).*1 = read_span <$> message_spans rs.
Proof.
  unfold resource_spans, message_spans, read_resource. cbn [rs_scopes]. induction (urs_scope_spans rs) as [|ss sss IH]; [done|].
  cbn [fmap list_fmap]. rewrite !bind_cons, !fmap_app, IH. f_equal. unfold scope_spans, read_scope. cbn [ds_spans ds_scope].
  rewrite <- list_fmap_compose. apply list_fmap_id.
Qed.
Lemma read_all_spans rss : (all_spans (read_resource <$> rss)).*1 = read_span <$> (rss ≫= message_spans).
Proof.
  unfold all_spans. induction rss as [|rs rss IH]; [done|]. cbn [fmap list_fmap]. rewrite !bind_cons, !fmap_app, <- IH, <- read_resource_spans. done.
Qed.
Theorem otlp_decoder_ok upb got deps : d_decode deps = Decode upb got → decoder_ok deps.
Proof.
  intros Hd payload limits decoded. rewrite Hd. intros E.
  rewrite Decode_answer in E. destruct (answer upb got payload limits) as [[status req]|]; [|done]. rename E into H.
  destruct status; cbn [decoded_of] in H; try done. rewrite CountSpans_spec, ConvertRequest_spec in H.
  destruct (Z.ltb_spec (dl_max_spans limits) (size (utr_resource_spans req ≫= message_spans))); [done|]. destruct (forallb _ _); [|done].
  injection H as <-. pose proof (read_all_spans (utr_resource_spans req)) as Ha. split.
  - rewrite <- (size_fmap fst), Ha, size_fmap. lia.
  - apply Forall_forall. intros x Hx. apply (list_elem_of_fmap_2 fst) in Hx. rewrite Ha in Hx. apply list_elem_of_fmap_1 in Hx as (s & Ex & _).
    constructor; rewrite Ex; cbn [read_span sr_start_time sr_end_time sr_events]; [apply to_sint64_i64..|].
    apply Forall_fmap, Forall_true. intros e. apply to_sint64_i64.
Qed.
