(* ===== verification/OtlpRoundtrip.v ===== *)
(** * OTLP round trips

    What survives the encoder.  Spans: the decoder of the leaf receiver reads back the
    batches of an export request, whatever their number, as [sent_span] of each span;
    lost are flags and trace state, whether a parent was remote and its trace id, a
    status description without a status, the element type of an empty array.  Log
    records and metrics have no decoder in the repository; their messages are read
    back by a reading function given here, which shows what they determine. *)
From S2P Require Import Prelude Trace Context Data Double Series Metrics ExpHistogram Meter BatchWorker SpanProcessor LogProcessor LeafReceiver ProtoReader.
From S2P Require Import Wire Exporter OtlpMessages OtlpEncoder OtlpDecoder.

(** ** Encoding as maps *)

Lemma foldl_snoc {A B} (f : A → B) l acc : foldl (λ l x, l ++ [f x]) acc l = acc ++ (f <$> l).
Proof. revert acc. induction l as [|x l IH]; intros acc; cbn [foldl]; [by rewrite app_nil_r|]. by rewrite IH, <- app_assoc. Qed.
Lemma foldl_snoc_id {A} (l : list A) : foldl (λ l x, l ++ [x]) [] l = l.
Proof. rewrite (foldl_snoc (λ x, x)). apply list_fmap_id. Qed.
Definition attribute_message (kv : KeyValue) : UKeyValue := mkUKeyValue (kv_key kv) (Some (EncodeAttrValue (kv_value kv))).
Lemma EncodeArray_spec {A} (item : A → UAnyValue) vec : EncodeArray item vec = array_value (item <$> vec).
Proof. unfold EncodeArray. by rewrite foldl_snoc. Qed.
Lemma EncodeAttributes_spec attrs kvs : EncodeAttributes attrs kvs = kvs ++ (attribute_message <$> attrs).
Proof. apply (foldl_snoc attribute_message). Qed.

(** The attribute as the wire carries it. *)
Definition normal_value (v : AttributeValue) : AttributeValue :=
  match v with AvBools [] | AvInts [] | AvDoubles [] => AvStrings [] | _ => v end.
Definition sent_attr (kv : KeyValue) : KeyValue := mkKeyValue (kv_key kv) (normal_value (kv_value kv)).
Lemma ConvertValue_EncodeAttrValue v : ConvertValue (Some (EncodeAttrValue v)) = Some (normal_value v).
Proof.
  apply ConvertValue_means. destruct v as [b|z|d|s|l|l|l|l]; cbn [EncodeAttrValue normal_value]; rewrite ?EncodeArray_spec;
    [constructor..|constructor; constructor| | | |]; destruct l as [|x l]; try constructor.
  induction l; constructor; [constructor|done].
Qed.
Lemma kept_encoded attrs : kept (EncodeAttributes attrs []) = sent_attr <$> attrs.
Proof.
  rewrite EncodeAttributes_spec. unfold kept. cbn [app]. induction attrs as [|kv attrs IH]; [done|].
  cbn [fmap list_fmap omap list_omap]. cbn [attribute_message uk_key uk_value]. rewrite ConvertValue_EncodeAttrValue. cbn. by f_equal.
Qed.
Lemma lost_encoded attrs : lost (EncodeAttributes attrs []) = 0.
Proof. pose proof (kept_lost (EncodeAttributes attrs [])) as H. rewrite kept_encoded, size_fmap in H. rewrite EncodeAttributes_spec in *. cbn [app] in *. rewrite size_fmap in H. lia. Qed.

(** ** Traces *)

Definition event_message (ev : SpanEvent) : UEvent := mkUEvent (ToNanos (ev_timestamp ev)) (ev_name ev) (EncodeAttributes (ev_attributes ev) []).
Definition link_message (l : SpanLink) : ULink := mkULink (trace_id (ln_context l)) (span_id (ln_context l)) (EncodeAttributes (ln_attributes l) []).
Definition status_message (rec : SpanRecord) : option UStatus :=
  match sr_status_code rec with CodeUnset => None | code => Some (mkUStatus (sr_status_description rec) (MapStatusCode code)) end.
Definition span_message (rec : SpanRecord) : USpan :=
  mkUSpan (trace_id (sr_context rec)) (span_id (sr_context rec))
    (if SpanContext_IsValid (sr_parent_context rec) then span_id (sr_parent_context rec) else []) (sr_name rec) (MapKind (sr_kind rec))
    (ToNanos (sr_start_time rec)) (ToNanos (sr_end_time rec)) (EncodeAttributes (sr_attributes rec) [])
    (event_message <$> sr_events rec) (link_message <$> sr_links rec) (status_message rec).

Lemma EncodeEvents_spec events span : foldl EncodeEvent span events =
  mkUSpan (usp_trace_id span) (usp_span_id span) (usp_parent_span_id span) (usp_name span) (usp_kind span) (usp_start_time_unix_nano span) (usp_end_time_unix_nano span)
    (usp_attributes span) (usp_events span ++ (event_message <$> events)) (usp_links span) (usp_status span).
Proof.
  revert span. induction events as [|e events IH]; intros span; cbn [foldl]; [rewrite app_nil_r; by destruct span|].
  rewrite IH. unfold EncodeEvent, add_event. cbn. by rewrite <- app_assoc.
Qed.
Lemma EncodeLinks_spec links span : foldl EncodeLink span links =
  mkUSpan (usp_trace_id span) (usp_span_id span) (usp_parent_span_id span) (usp_name span) (usp_kind span) (usp_start_time_unix_nano span) (usp_end_time_unix_nano span)
    (usp_attributes span) (usp_events span) (usp_links span ++ (link_message <$> links)) (usp_status span).
Proof.
  revert span. induction links as [|e links IH]; intros span; cbn [foldl]; [rewrite app_nil_r; by destruct span|].
  rewrite IH. unfold EncodeLink, add_link. cbn. by rewrite <- app_assoc.
Qed.
Lemma is_empty_id (s : str) : (if is_empty s then [] else s) = s.
Proof. by destruct s. Qed.
Lemma EncodeSpan_spec ss rec : EncodeSpan ss rec = mkUScopeSpans (uss_scope ss) (uss_spans ss ++ [span_message rec]).
Proof.
  unfold EncodeSpan. rewrite EncodeEvents_spec, EncodeLinks_spec. cbn [usp_trace_id usp_span_id usp_parent_span_id usp_name usp_kind usp_start_time_unix_nano
    usp_end_time_unix_nano usp_attributes usp_events usp_links usp_status app]. do 3 f_equal.
  unfold EncodeStatus, set_status, span_message, status_message. rewrite is_empty_id. by destruct (sr_status_code rec).
Qed.
Lemma EncodeSpans_spec spans ss : foldl EncodeSpan ss spans = mkUScopeSpans (uss_scope ss) (uss_spans ss ++ (span_message <$> spans)).
Proof.
  revert ss. induction spans as [|s spans IH]; intros ss; cbn [foldl]; [rewrite app_nil_r; by destruct ss|].
  rewrite IH, EncodeSpan_spec. cbn. by rewrite <- app_assoc.
Qed.

(** The span as the receiver of the request sees it. *)
Definition sent_context (c : SpanContext) : SpanContext := linked (trace_id c) (span_id c).
Definition sent_event (e : SpanEvent) : SpanEvent := mkSpanEvent (ev_name e) (ev_timestamp e) (sent_attr <$> ev_attributes e).
Definition sent_link (l : SpanLink) : SpanLink := mkSpanLink (sent_context (ln_context l)) (sent_attr <$> ln_attributes l).
Definition sent_span (rec : SpanRecord) : SpanRecord :=
  mkSpanRecord (sent_context (sr_context rec))
    (if SpanContext_IsValid (sr_parent_context rec) then linked (trace_id (sr_context rec)) (span_id (sr_parent_context rec)) else SpanContext_default)
    (sr_name rec) (sr_kind rec) (sr_status_code rec) match sr_status_code rec with CodeUnset => [] | _ => sr_status_description rec end
    (sr_start_time rec) (sr_end_time rec) (sent_attr <$> sr_attributes rec) (sent_event <$> sr_events rec) (sent_link <$> sr_links rec) None.
(** The C++ types of a span record. *)
Record span_wf (rec : SpanRecord) : Prop := {
  sw_context : wf_span_context (sr_context rec);
  sw_parent : wf_span_context (sr_parent_context rec);
  sw_start : is_i64 (sr_start_time rec);
  sw_end : is_i64 (sr_end_time rec);
  sw_events : Forall (λ e, is_i64 (ev_timestamp e)) (sr_events rec);
  sw_links : Forall (λ l, wf_span_context (ln_context l)) (sr_links rec)
}.
(** No time before 1970. *)
Definition after_epoch (rec : SpanRecord) : bool :=
  (0 <=? sr_start_time rec) && (0 <=? sr_end_time rec) && forallb (λ e, 0 <=? ev_timestamp e) (sr_events rec).

Lemma ToNanos_ok t : is_i64 t → time_ok (ToNanos t) = (0 <=? t).
Proof.
  intros H. unfold time_ok, ToNanos, to_uint. change (2 ^ 64) with 18446744073709551616. destruct (Z.leb_spec 0 t).
  - rewrite Z.mod_small by width_lia. apply Z.leb_le. width_lia.
  - apply Z.leb_gt. rewrite <- (Z.mod_unique t 18446744073709551616 (-1) (t + 18446744073709551616)); width_lia.
Qed.
Lemma ToNanos_back t : is_i64 t → to_sint 64 (ToNanos t) = t.
Proof. intros H. apply (to_sint_to_uint 64 64); [lia|]. change (2 ^ (64 - 1)) with 9223372036854775808. width_lia. Qed.
Lemma id_ok_wf k b : is_bytes k b → id_ok k b = true.
Proof. intros [H _]. unfold id_ok. by rewrite bool_decide_true. Qed.
Lemma kind_back k : (if MapKind k =? 0 then KindInternal else span_kind_of (MapKind k - 1)) = k.
Proof. by destruct k. Qed.

Lemma span_message_ok rec : span_wf rec → span_ok (span_message rec) = after_epoch rec.
Proof.
  intros [(H1 & H2 & _) (H3 & H4 & _) H5 H6 H7 H8]. unfold span_ok, span_message, after_epoch. cbn [usp_trace_id usp_span_id usp_parent_span_id usp_name usp_kind
    usp_start_time_unix_nano usp_end_time_unix_nano usp_attributes usp_events usp_links usp_status].
  rewrite !ToNanos_ok by done. rewrite (id_ok_wf _ _ H1), (id_ok_wf _ _ H2).
  replace (size (if SpanContext_IsValid _ then _ else _) =? 0) with (negb (SpanContext_IsValid (sr_parent_context rec))).
  2:{ destruct (SpanContext_IsValid _); [|done]. destruct H4 as [H4 _]. unfold size. by rewrite H4. }
  replace (negb _ || id_ok _ _) with true by (destruct (SpanContext_IsValid _); [by rewrite (id_ok_wf _ _ H4)|done]).
  replace (status_ok _) with true by (unfold status_message; by destruct (sr_status_code rec)).
  replace (forallb link_ok _) with true.
  2:{ symmetry. apply forallb_Forall, Forall_fmap. eapply Forall_impl; [exact H8|]. intros l (Hl1 & Hl2 & _). cbn. unfold link_ok. cbn.
      by rewrite (id_ok_wf _ _ Hl1), (id_ok_wf _ _ Hl2). }
  replace (0 <=? MapKind (sr_kind rec)) with true by (by destruct (sr_kind rec)). replace (MapKind (sr_kind rec) <=? kMaxOtlpKind) with true by (by destruct (sr_kind rec)).
  cbn [andb]. rewrite !andb_true_r. f_equal. induction H7 as [|e events He _ IH]; [done|]. cbn [fmap list_fmap forallb]. rewrite IH. f_equal.
  unfold event_ok, event_message. cbn. by apply ToNanos_ok.
Qed.
Lemma read_span_message rec : span_wf rec → read_span (span_message rec) = sent_span rec ∧ span_lost (span_message rec) = 0.
Proof.
  intros [(H1 & H2 & _) (H3 & H4 & _) H5 H6 H7 H8]. split.
  - unfold read_span, span_message, sent_span. cbn [usp_trace_id usp_span_id usp_parent_span_id usp_name usp_kind
      usp_start_time_unix_nano usp_end_time_unix_nano usp_attributes usp_events usp_links usp_status]. rewrite !ToNanos_back by done. rewrite kind_back, kept_encoded.
    f_equal.
    + destruct (SpanContext_IsValid _); [by rewrite (id_ok_wf _ _ H4)|done].
    + unfold status_message. by destruct (sr_status_code rec).
    + unfold status_message. by destruct (sr_status_code rec).
    + rewrite <- list_fmap_compose. induction H7 as [|e events He _ IH]; [done|]. cbn [fmap list_fmap]. f_equal; [|exact IH].
      unfold compose, read_event, event_message, sent_event. cbn. by rewrite ToNanos_back, kept_encoded.
    + rewrite <- list_fmap_compose. apply list_fmap_ext. intros _ l _. unfold compose, read_link, link_message, sent_link. cbn. by rewrite kept_encoded.
  - unfold span_lost, span_message. cbn [usp_attributes usp_events usp_links]. rewrite lost_encoded, !zsum_fmap.
    rewrite (zsum_ext _ (λ _, 0)), (zsum_ext (_ ∘ link_message) (λ _, 0)); [|intros l _; apply lost_encoded|intros e _; apply lost_encoded].
    clear. unfold zsum. induction (sr_events rec); induction (sr_links rec); cbn in *; lia.
Qed.

(** One batch with the Resource it names. *)
Definition batch_request (heap : list Resource) (b : BatchHandle) : option UTraceRequest :=
  (λ res, trace_request res (bh_scope b) (bh_records b)) <$> (bh_resource b ≫= (heap !!.)).
(** What one batch is to the receiver. *)
Definition sent_batch (heap : list Resource) (b : BatchHandle) : option DecodedResourceSpans :=
  (λ res, mkDecodedResourceSpans (sent_attr <$> m_attributes res) [mkDecodedScopeSpans (bh_scope b) (sent_span <$> bh_records b)] 0 0)
    <$> (bh_resource b ≫= (heap !!.)).
(** Protobuf: the concatenation of serialized requests parses to their union. *)
Definition parses_union (serialize : UTraceRequest → option Bytes) upb got (reqs : list UTraceRequest) : Prop :=
  ∀ parts payload limits req, Forall2 (λ r bytes, serialize r = Some bytes) reqs parts → code <$> payload = concat parts →
    answer upb got payload limits = Some (StatusOk, req) → req = mkUTraceRequest (reqs ≫= utr_resource_spans).

Lemma trace_request_spec res scope spans :
  trace_request res scope spans = mkUTraceRequest [mkUResourceSpans (Some (EncodeResource res)) [mkUScopeSpans (Some (EncodeScope scope)) (span_message <$> spans)]].
Proof. unfold trace_request. by rewrite EncodeSpans_spec. Qed.
Lemma sent_batch_some heap b res : bh_resource b ≫= (heap !!.) = Some res →
  sent_batch heap b = Some (mkDecodedResourceSpans (sent_attr <$> m_attributes res) [mkDecodedScopeSpans (bh_scope b) (sent_span <$> bh_records b)] 0 0).
Proof. unfold sent_batch. by intros ->. Qed.
Lemma encode_some serialize heap b res : bh_records b ≠ [] → bh_resource b ≫= (heap !!.) = Some res →
  Encode serialize heap b = Some (payload_of (serialize (trace_request res (bh_scope b) (bh_records b)))).
Proof. intros Hb Hres. unfold Encode. rewrite bool_decide_false by done. by rewrite Hres. Qed.
Lemma requests_spec heap batches reqs : mapM (batch_request heap) batches = Some reqs → Forall (λ b, Forall span_wf (bh_records b)) batches →
  ∃ sent, mapM (sent_batch heap) batches = Some sent
    ∧ read_resource <$> (reqs ≫= utr_resource_spans) = sent
    ∧ (reqs ≫= utr_resource_spans) ≫= message_spans = span_message <$> (batches ≫= bh_records).
Proof.
  revert reqs. induction batches as [|b batches IH]; intros reqs E Hwf; cbn in E; [injection E as <-; by exists []|].
  apply Forall_cons in Hwf as [Hb Hwf]. unfold batch_request in E. apply bind_Some in E as (r & Hr & E). apply bind_Some in E as (rs & Hrs & [= <-]).
  apply fmap_Some in Hr as (res & Hres & ->). destruct (IH _ Hrs Hwf) as (sent & E1 & E2 & E3). eexists. cbn [mapM].
  rewrite (sent_batch_some _ _ _ Hres). cbn [mbind option_bind]. rewrite E1. cbn [mbind option_bind]. split; [done|].
  rewrite !bind_cons, trace_request_spec. cbn [utr_resource_spans app fmap list_fmap]. split.
  - f_equal; [|exact E2]. unfold read_resource, resource_kvs, message_spans. cbn [urs_resource urs_scope_spans ur_attributes EncodeResource].
    rewrite kept_encoded, lost_encoded. cbn [fmap list_fmap]. rewrite bind_cons. cbn [mbind list_bind uss_spans]. rewrite app_nil_r.
    unfold read_scope. cbn [uss_scope uss_spans EncodeScope us_name us_version]. f_equal.
    + destruct (bh_scope b). do 2 f_equal. rewrite <- list_fmap_compose. clear -Hb. induction Hb as [|rec l Hrec _ IH']; [done|]. cbn [fmap list_fmap].
      f_equal; [|exact IH']. apply (proj1 (read_span_message rec Hrec)).
    + clear -Hb. induction Hb as [|rec l Hrec _ IH']; [done|]. cbn [fmap list_fmap]. rewrite zsum_cons, IH'. rewrite (proj2 (read_span_message rec Hrec)). done.
  - rewrite bind_cons, E3, fmap_app. f_equal. unfold message_spans. cbn. by rewrite app_nil_r.
Qed.
Lemma encode_requests serialize heap batches reqs parts : mapM (batch_request heap) batches = Some reqs →
  Forall2 (λ r bytes, serialize r = Some bytes ∧ bytes ≠ []) reqs parts → Forall (λ b, bh_records b ≠ []) batches → mapM (Encode serialize heap) batches = Some parts.
Proof.
  revert reqs parts. induction batches as [|b batches IH]; intros reqs parts E Hs Hne; cbn in E.
  { injection E as <-. by apply Forall2_nil_inv_l in Hs as ->. }
  apply Forall_cons in Hne as [Hb Hne]. apply bind_Some in E as (r & Hr & E). apply bind_Some in E as (rs & Hrs & [= <-]).
  apply Forall2_cons_inv_l in Hs as (bytes & parts' & [Hs Hn] & Hs' & ->). cbn [mapM].
  unfold batch_request in Hr. apply fmap_Some in Hr as (res & Hres & ->). rewrite (encode_some _ _ _ _ Hb Hres). cbn [mbind option_bind]. rewrite Hs, (IH _ _ Hrs Hs' Hne).
  cbn [mbind option_bind payload_of]. destruct bytes as [|x bytes]; [done|]. rewrite (proj2 (Z.ltb_lt _ _)); [done|]. rewrite size_cons. pose proof (size_nonneg bytes). lia.
Qed.

(** C18: Encoding and decoding traces are inverse, for one batch or for several joined into
    one request.  When upb parses the joined payloads as the union of the requests, the
    decoder of the leaf receiver returns the batches in order, each with its Resource, its
    scope and its spans, nothing dropped and nothing added; all that a span loses is what
    [sent_span] leaves out.  The exceptions are exact: a request over the span limit is too
    large, and a span with a time before 1970 makes the whole request malformed. *)
Theorem trace_roundtrip serialize upb got heap batches reqs parts payload limits status req :
  mapM (batch_request heap) batches = Some reqs →
  Forall (λ b, bh_records b ≠ [] ∧ Forall span_wf (bh_records b)) batches →
  Forall2 (λ r bytes, serialize r = Some bytes ∧ bytes ≠ []) reqs parts →
  parses_union serialize upb got reqs →
  code <$> payload = ConcatenateTraceRequests parts → answer upb got payload limits = Some (status, req) → status = StatusOk →
  mapM (Encode serialize heap) batches = Some parts
  ∧ ∃ sent, mapM (sent_batch heap) batches = Some sent
    ∧ Decode upb got payload limits =
        if dl_max_spans limits <? size (batches ≫= bh_records) then inl DecodeTooLarge
        else if forallb after_epoch (batches ≫= bh_records) then inr sent else inl DecodeMalformed.
Proof.
  intros Hreq Hb Hs Hu Hp Ha ->. apply Forall_and in Hb as [Hne Hwf]. split; [by eapply encode_requests|].
  destruct (requests_spec _ _ _ Hreq Hwf) as (sent & E1 & E2 & E3). exists sent. split; [done|].
  rewrite concatenate_concat in Hp. assert (Forall2 (λ r bytes, serialize r = Some bytes) reqs parts) as Hs' by (eapply Forall2_impl; [exact Hs|by intros ?? []]).
  rewrite Decode_answer, Ha, (Hu _ _ _ _ Hs' Hp Ha). cbn [decoded_of utr_resource_spans]. rewrite CountSpans_spec, ConvertRequest_spec, E2, E3, size_fmap.
  destruct (_ <? _); [done|]. replace (forallb span_ok _) with (forallb after_epoch (batches ≫= bh_records)); [by destruct (forallb _ _)|].
  assert (Forall span_wf (batches ≫= bh_records)) as Hall.
  { clear -Hwf. induction Hwf as [|b l Hb _ IH]; [constructor|]. rewrite bind_cons. by apply Forall_app. }
  clear -Hall. induction Hall as [|rec l Hrec _ IH]; [done|]. cbn [forallb fmap list_fmap]. by rewrite span_message_ok, IH.
Qed.

(** ** Logs *)

Definition read_log (u : ULogRecord) : LogRecord :=
  mkLogRecord (to_sint 64 (ulr_time_unix_nano u)) (to_sint 64 (ulr_observed_time_unix_nano u)) (ulr_severity_number u) (ulr_severity_text u)
    match ulr_body u with None => AvBool false | Some v => default (AvBool false) (ConvertValue (Some v)) end
    (kept (ulr_attributes u)) (ulr_dropped_attributes_count u)
    match ulr_trace_id u with [] => replicate TraceId_kSizeBytes 0 | b => b end
    match ulr_span_id u with [] => replicate SpanId_kSizeBytes 0 | b => b end
    (ulr_flags u) (ulr_event_name u).
(** Lost: span id and flags without a valid trace id, the type of an empty array. *)
Definition sent_log (r : LogRecord) : LogRecord :=
  let traced := Trace.IsValid (lr_trace_id r) in
  mkLogRecord (lr_time r) (lr_observed_time r) (lr_severity_number r) (lr_severity_text r) (normal_value (lr_body r)) (sent_attr <$> lr_attributes r)
    (lr_dropped_attributes_count r) (lr_trace_id r) (if traced then lr_span_id r else replicate SpanId_kSizeBytes 0)
    (if traced then lr_trace_flags r else 0) (lr_event_name r).
(** The C++ types of a log record. *)
Record log_wf (r : LogRecord) : Prop := {
  lw_time : is_i64 (lr_time r);
  lw_observed : is_i64 (lr_observed_time r);
  lw_dropped : is_u32 (lr_dropped_attributes_count r);
  lw_trace_id : wf_trace_id (lr_trace_id r);
  lw_span_id : wf_span_id (lr_span_id r)
}.
Definition log_message (r : LogRecord) : list ULogRecord := usl_log_records (EncodeLogRecord (mkUScopeLogs None []) r).

Lemma EncodeLogs_spec records sl : foldl EncodeLogRecord sl records = mkUScopeLogs (usl_scope sl) (usl_log_records sl ++ (records ≫= log_message)).
Proof.
  revert sl. induction records as [|r records IH]; intros sl; cbn [foldl]; [cbn; rewrite app_nil_r; by destruct sl|].
  rewrite IH, bind_cons, app_assoc. done.
Qed.
Lemma invalid_zero b n : is_bytes n b → Trace.IsValid b = false → b = replicate n 0.
Proof.
  intros [<- _]. induction b as [|x b IH]; [done|]. cbn [Trace.IsValid length replicate]. destruct (Z.eqb_spec x 0) as [->|]; cbn [negb]; [|done]. intros H. f_equal. by apply IH.
Qed.
Lemma read_log_message r : log_wf r → read_log <$> log_message r = [sent_log r].
Proof.
  intros [H1 H2 H3 H4 H5]. unfold log_message, EncodeLogRecord. cbn [usl_log_records app fmap list_fmap]. f_equal. unfold read_log, sent_log.
  cbn [ulr_time_unix_nano ulr_observed_time_unix_nano ulr_severity_number ulr_severity_text ulr_body ulr_attributes ulr_dropped_attributes_count ulr_flags ulr_trace_id ulr_span_id ulr_event_name].
  rewrite !ToNanos_back, kept_encoded, !is_empty_id by done. f_equal.
  - destruct (lr_body r) as [[]| | | | | | |] eqn:E; try done; by rewrite ConvertValue_EncodeAttrValue.
  - destruct (Z.ltb_spec 0 (lr_dropped_attributes_count r)); [done|]. width_lia.
  - destruct (Trace.IsValid (lr_trace_id r)) eqn:E; [|symmetry; by apply invalid_zero]. by destruct (lr_trace_id r).
  - destruct (Trace.IsValid (lr_trace_id r)) eqn:E; [|done]. destruct H5 as [H5 _]. by destruct (lr_span_id r).
Qed.

(** A log record survives encoding.  The request of a batch has the batch's Resource
    and scope, and one message for each record, in order, from which the record can be read
    back: times before 1970 included, the body with its type (no body standing for the
    default [false]), attributes, severity, trace id, event name; a record without a valid
    trace id loses its span id and flags, and an empty array its element type.  Nothing is
    encoded for an empty batch, and otherwise the payload is the serialized request. *)
Theorem log_roundtrip serialize heap batch res :
  Forall log_wf (lb_records batch) → lb_resource batch ≫= (heap !!.) = Some res →
  ∃ rl sl, logs_request res (lb_scope batch) (lb_records batch) = mkULogsRequest [mkUResourceLogs (Some rl) [sl]]
    ∧ kept (ur_attributes rl) = sent_attr <$> m_attributes res ∧ lost (ur_attributes rl) = 0
    ∧ usl_scope sl = Some (mkUScope (scope_name (lb_scope batch)) (scope_version (lb_scope batch)))
    ∧ read_log <$> usl_log_records sl = sent_log <$> lb_records batch
    ∧ EncodeLogs serialize heap batch = Some (if bool_decide (lb_records batch = []) then []
                                              else payload_of (serialize (mkULogsRequest [mkUResourceLogs (Some rl) [sl]]))).
Proof.
  intros Hwf Hres. eexists _, _. split; [done|]. unfold EncodeResource. cbn [ur_attributes]. split; [apply kept_encoded|]. split; [apply lost_encoded|].
  split; [by rewrite EncodeLogs_spec|]. split.
  - rewrite EncodeLogs_spec. cbn [usl_log_records app]. clear -Hwf. induction Hwf as [|r l Hr _ IH]; [done|].
    rewrite bind_cons, fmap_app, IH, read_log_message by done. done.
  - unfold EncodeLogs. rewrite Hres. cbn [mbind option_bind]. by destruct (bool_decide _).
Qed.

(** ** Metrics *)

Definition read_number (u : UNumber) : option MetricValue := match u with as_int z => Some (MvInt z) | as_double d => Some (MvDouble d) | number_NOT_SET => None end.
Definition read_number_point (u : UNumberDataPoint) : option NumberPoint :=
  (λ v, mkNumberPoint (kept (und_attributes u)) (to_sint 64 (und_start_time_unix_nano u)) (to_sint 64 (und_time_unix_nano u)) v []) <$> read_number (und_value u).
Definition read_histogram_point (u : UHistogramDataPoint) : option HistogramPoint :=
  (λ sum, mkHistogramPoint (kept (uhd_attributes u)) (to_sint 64 (uhd_start_time_unix_nano u)) (to_sint 64 (uhd_time_unix_nano u)) (uhd_count u) sum (uhd_min u) (uhd_max u)
    (uhd_bucket_counts u) (uhd_explicit_bounds u) []) <$> uhd_sum u.
Definition read_temporality (z : Z) : option AggregationTemporality := if z =? 1 then Some Delta else if z =? 2 then Some Cumulative else None.
Definition read_data (u : UMetricData) : option PointData :=
  match u with
  | data_NOT_SET => None
  | data_gauge points => PdGauge <$> mapM read_number_point points
  | data_sum points t mono => t ← read_temporality t; PdSum t mono <$> mapM read_number_point points
  | data_histogram points t => t ← read_temporality t; PdHistogram t <$> mapM read_histogram_point points
  end.
(** The data as sent: exemplars and exponential histograms are lost. *)
Definition sent_number (p : NumberPoint) : NumberPoint := mkNumberPoint (sent_attr <$> np_attributes p) (np_start_time p) (np_time p) (np_value p) [].
Definition sent_histogram (p : HistogramPoint) : HistogramPoint :=
  mkHistogramPoint (sent_attr <$> hp_attributes p) (hp_start_time p) (hp_time p) (hp_count p) (hp_sum p) (hp_min p) (hp_max p) (hp_bucket_counts p) (hp_explicit_bounds p) [].
Definition sent_data (d : PointData) : option PointData :=
  match d with
  | PdSum t mono points => Some (PdSum t mono (sent_number <$> points))
  | PdGauge points => Some (PdGauge (sent_number <$> points))
  | PdHistogram t points => Some (PdHistogram t (sent_histogram <$> points))
  | PdExponential _ _ => None
  end.
Definition data_wf (d : PointData) : Prop :=
  match d with
  | PdSum _ _ points | PdGauge points => Forall (λ p, is_i64 (np_start_time p) ∧ is_i64 (np_time p)) points
  | PdHistogram _ points => Forall (λ p, is_i64 (hp_start_time p) ∧ is_i64 (hp_time p)) points
  | PdExponential _ points => Forall (λ p, is_i64 (ep_start_time p) ∧ is_i64 (ep_time p)) points
  end.
Definition metric_message (r : MetricStreamRecord) : list UMetric := usm_metrics (EncodeMetricRecord (mkUScopeMetrics None []) r).

Lemma EncodeMetricRecords_spec metrics sm : foldl EncodeMetricRecord sm metrics = mkUScopeMetrics (usm_scope sm) (usm_metrics sm ++ (metrics ≫= metric_message)).
Proof.
  revert sm. induction metrics as [|r metrics IH]; intros sm; cbn [foldl]; [cbn; rewrite app_nil_r; by destruct sm|].
  rewrite IH, bind_cons, app_assoc. done.
Qed.
Lemma mapM_fmap_some {A B C} (f : A → B) (g : B → option C) (h : A → C) l : Forall (λ x, g (f x) = Some (h x)) l → mapM g (f <$> l) = Some (h <$> l).
Proof. induction 1 as [|x l Hx _ IH]; [done|]. cbn [fmap list_fmap mapM]. rewrite Hx. cbn [mbind option_bind]. by rewrite IH. Qed.
Lemma read_number_points points : Forall (λ p, is_i64 (np_start_time p) ∧ is_i64 (np_time p)) points →
  mapM read_number_point (EncodeNumberPoints points) = Some (sent_number <$> points).
Proof.
  intros H. unfold EncodeNumberPoints. rewrite foldl_snoc. cbn [app]. apply mapM_fmap_some. eapply Forall_impl; [exact H|]. intros p [Hs Ht].
  unfold read_number_point, EncodeNumberPoint, sent_number. cbn [und_attributes und_start_time_unix_nano und_time_unix_nano und_value].
  rewrite !ToNanos_back, kept_encoded by done. by destruct (np_value p).
Qed.
Lemma read_histogram_points points : Forall (λ p, is_i64 (hp_start_time p) ∧ is_i64 (hp_time p)) points →
  mapM read_histogram_point (foldl (λ dps pt, dps ++ [EncodeHistogramPoint pt]) [] points) = Some (sent_histogram <$> points).
Proof.
  intros H. rewrite foldl_snoc. cbn [app]. apply mapM_fmap_some. eapply Forall_impl; [exact H|]. intros p [Hs Ht].
  unfold read_histogram_point, EncodeHistogramPoint, sent_histogram. cbn [uhd_attributes uhd_start_time_unix_nano uhd_time_unix_nano uhd_sum uhd_count uhd_min uhd_max uhd_bucket_counts uhd_explicit_bounds].
  rewrite !ToNanos_back, kept_encoded, !foldl_snoc_id by done. done.
Qed.
Lemma read_temporality_map t : read_temporality (MapTemporality t) = Some t.
Proof. by destruct t. Qed.
Lemma read_metric_message r : data_wf (ms_data r) →
  (λ m, (um_name m, um_description m, um_unit m, read_data (um_data m))) <$> metric_message r = [(ms_name r, ms_description r, ms_unit r, sent_data (ms_data r))].
Proof.
  intros H. unfold metric_message, EncodeMetricRecord. cbn [usm_metrics app fmap list_fmap um_name um_description um_unit um_data]. do 2 f_equal.
  destruct (ms_data r) as [t mono points|points|t points|t points]; cbn [data_wf sent_data] in *; unfold EncodeSum, EncodeGauge, EncodeHistogram; cbn [read_data].
  - by rewrite read_temporality_map, read_number_points.
  - by rewrite read_number_points.
  - by rewrite read_temporality_map, read_histogram_points.
  - done.
Qed.

(** C21: A metric survives encoding, but for exemplars and exponential histograms.  The
    request of a batch has the Resource and the scope, and one message for each metric, in
    order, from which name, description, unit and data can be read back: temporality,
    monotonicity, and of every point the attributes, times, value or count, sum, extremes,
    buckets and bounds.  An exponential histogram is sent as a metric without data. *)
Theorem metric_roundtrip serialize res scope metrics :
  Forall (λ r, data_wf (ms_data r)) metrics →
  ∃ rm sm, metrics_request res scope metrics = mkUMetricsRequest [mkUResourceMetrics (Some rm) [sm]]
    ∧ kept (ur_attributes rm) = sent_attr <$> m_attributes res ∧ lost (ur_attributes rm) = 0
    ∧ usm_scope sm = Some (mkUScope (scope_name scope) (scope_version scope))
    ∧ (λ m, (um_name m, um_description m, um_unit m, read_data (um_data m))) <$> usm_metrics sm
      = (λ r, (ms_name r, ms_description r, ms_unit r, sent_data (ms_data r))) <$> metrics
    ∧ EncodeMetrics serialize (Some res) scope metrics = Some (if bool_decide (metrics = []) then []
                                                               else payload_of (serialize (mkUMetricsRequest [mkUResourceMetrics (Some rm) [sm]]))).
Proof.
  intros Hwf. eexists _, _. split; [done|]. unfold EncodeResource. cbn [ur_attributes]. split; [apply kept_encoded|]. split; [apply lost_encoded|].
  split; [by rewrite EncodeMetricRecords_spec|]. split.
  - rewrite EncodeMetricRecords_spec. cbn [usm_metrics app]. clear -Hwf. induction Hwf as [|r l Hr _ IH]; [done|].
    rewrite bind_cons, fmap_app, IH, read_metric_message by done. done.
  - unfold EncodeMetrics. cbn [mbind option_bind]. by destruct (bool_decide _).
Qed.

(** What the meters collect is sent with both times at zero, which OTLP reads as
    unknown: no storage and no instrument ever sets the time of a point. *)
Theorem metric_points_untimed d :
  match EncodeMetricRecord (mkUScopeMetrics None []) (collected_record (mkMetricRecord [] [] [] d)) with
  | mkUScopeMetrics _ [m] =>
      match um_data m with
      | data_gauge points | data_sum points _ _ => Forall (λ p, und_start_time_unix_nano p = 0 ∧ und_time_unix_nano p = 0) points
      | data_histogram points _ => Forall (λ p, uhd_start_time_unix_nano p = 0 ∧ uhd_time_unix_nano p = 0) points
      | data_NOT_SET => ∃ t points, d = ExponentialHistogramData t points
      end
  | _ => False
  end.
Proof.
  destruct d as [mono t points|points|t bounds points|t points]; cbn; unfold EncodeNumberPoints; rewrite ?foldl_snoc; cbn [app]; [..|by eexists _, _];
    apply Forall_fmap, Forall_fmap, Forall_true; done.
Qed.

(** ** Sample runs *)

(** A decoder over an arena of one block, which it grows once and frees at the end. *)
Definition ex_upb (req : UTraceRequest) : Upb :=
  mkUpb Ptr
    (Call None 0 64 (λ p, Ret match p with Some _ => Some p | None => None end))
    (λ a, Ret (true, a))
    (λ _ _ a, Call a 64 256 (λ p, match p with Some _ => Ret (StatusOk, req, p) | None => Ret (StatusOutOfMemory, mkUTraceRequest [], a) end))
    (λ a, Call a 256 0 (λ _, Ret tt)).
Definition ex_got (n : nat) : Ptr := Some (S n).
Definition ex_context : SpanContext := mkSpanContext (replicate 16 7) (replicate 8 9) 1 TraceState_default true.
Definition ex_attrs : list KeyValue := [mkKeyValue $"retries" (AvInt 3); mkKeyValue $"tags" (AvStrings [$"a"; $"b"]); mkKeyValue $"none" (AvInts [])].
Definition ex_span : SpanRecord :=
  mkSpanRecord ex_context ex_context $"GET" KindClient CodeError $"refused" 100 250 ex_attrs [mkSpanEvent $"retry" 120 []] [mkSpanLink ex_context []] None.
Definition ex_resource : Resource := mkResource [mkKeyValue $"service.name" (AvString $"shop")].
Definition ex_otlp_batch (name : str) : BatchHandle := mkBatchHandle [ex_span] (Some 0%nat) (mkScope name []).
Definition ex_otlp_batches : list BatchHandle := [ex_otlp_batch $"http"; ex_otlp_batch $"db"].
Definition ex_requests : list UTraceRequest := (λ b, trace_request ex_resource (bh_scope b) (bh_records b)) <$> ex_otlp_batches.
Definition ex_union : UTraceRequest := Eval vm_compute in mkUTraceRequest (ex_requests ≫= utr_resource_spans).
Definition ex_otlp_limits : DecodeLimits := mkDecodeLimits 10 16 1024.
Definition ex_payload : str := [ "010"%char; "001"%char; "010"%char; "001"%char ].

Lemma ex_upb_answer r got payload limits req : answer (ex_upb r) got payload limits = Some (StatusOk, req) → req = r.
Proof.
  unfold answer. cbn [run_prog ex_upb upb_Arena_Init request_new upb_Decode upb_Arena_Free].
  destruct (CountingAllocFunc (got 0%nat) _ _ _ _) as [[p|] s]; cbn [mbind option_bind run_prog]; [|done].
  destruct (CountingAllocFunc (got 1%nat) _ _ _ _) as [[q|] s']; cbn [run_prog]; congruence.
Qed.
Lemma ex_otlp_context_wf : wf_span_context ex_context.
Proof. split; [|split]; [split; [done|by apply Forall_replicate]..|done]. Qed.
Lemma ex_span_wf : span_wf ex_span.
Proof. pose proof ex_otlp_context_wf. constructor; try done; by repeat constructor. Qed.
Lemma trace_roundtrip_witness :
  ∃ sent, mapM (sent_batch [ex_resource]) ex_otlp_batches = Some sent ∧ Decode (ex_upb ex_union) ex_got ex_payload ex_otlp_limits = inr sent.
Proof.
  destruct (trace_roundtrip (λ _, Some [10; 1]) (ex_upb ex_union) ex_got [ex_resource] ex_otlp_batches ex_requests [[10; 1]; [10; 1]] ex_payload ex_otlp_limits StatusOk ex_union)
    as (_ & sent & H1 & H2).
  - reflexivity.
  - repeat constructor; try done; exact ex_span_wf.
  - repeat constructor; done.
  - intros parts payload limits req _ _ H. rewrite (ex_upb_answer _ _ _ _ _ H). vm_compute. reflexivity.
  - reflexivity.
  - vm_compute. reflexivity.
  - reflexivity.
  - exists sent. split; [exact H1|]. rewrite H2. reflexivity.
Defined.

Definition ex_decode_run := DecodeRun (ex_upb ex_union) ex_got ex_payload ex_otlp_limits.
Lemma decode_memory_capped_witness :
  length (snd ex_decode_run) = 3%nat ∧ Forall (λ c, live (snd (ac_after c)) <= 1024) (snd ex_decode_run).
Proof.
  split; [vm_compute; reflexivity|].
  refine (proj2 (proj2 (decode_memory_capped (ex_upb ex_union) ex_got ex_payload ex_otlp_limits _ _ _ _ (eq_refl : ex_decode_run = (_, _, _)))) _).
  - split; vm_compute; discriminate.
  - repeat constructor; vm_compute; try reflexivity; discriminate.
Defined.

Definition ex_log : LogRecord := mkLogRecord (-5) 7 9 $"INFO" (AvString $"up") ex_attrs 2 (replicate 16 0) (replicate 8 4) 1 $"boot".
Definition ex_log_batch : LogBatchHandle := mkLogBatchHandle [ex_log] (Some 0%nat) (mkScope $"app" []).
Lemma log_roundtrip_witness :
  ∃ rl sl, logs_request ex_resource (mkScope $"app" []) [ex_log] = mkULogsRequest [mkUResourceLogs (Some rl) [sl]]
    ∧ lr_time <$> (read_log <$> usl_log_records sl) = [-5] ∧ lr_span_id <$> (read_log <$> usl_log_records sl) = [replicate 8 0].
Proof.
  destruct (log_roundtrip (λ _, Some [10]) [ex_resource] ex_log_batch ex_resource) as (rl & sl & H1 & _ & _ & _ & H2 & _).
  - repeat constructor; try done; by apply Forall_replicate.
  - reflexivity.
  - exists rl, sl. split; [exact H1|]. rewrite H2. split; reflexivity.
Defined.
Definition ex_number : NumberPoint := mkNumberPoint ex_attrs 1 2 (MvInt 41) [].
Definition ex_metric : MetricStreamRecord := mkMetricStreamRecord $"requests" [] $"1" (PdSum Delta true [ex_number]).
Lemma metric_roundtrip_witness :
  ∃ rm sm, metrics_request ex_resource (mkScope $"app" []) [ex_metric] = mkUMetricsRequest [mkUResourceMetrics (Some rm) [sm]]
    ∧ (λ m, read_data (um_data m)) <$> usm_metrics sm = [Some (PdSum Delta true [sent_number ex_number])].
Proof.
  destruct (metric_roundtrip (λ _, Some [10]) ex_resource (mkScope $"app" []) [ex_metric]) as (rm & sm & H1 & _ & _ & _ & H2 & _).
  - repeat constructor; done.
  - exists rm, sm. split; [exact H1|]. apply (f_equal (fmap snd)) in H2. rewrite <- list_fmap_compose in H2. exact H2.
Defined.
