(* ===== verification/LeafKv.v ===== *)
(** * Attributes and identifiers of the leaf C library

    Model of the parts of [src/leaf/src/leaf_core.c] that need no record buffer:
    validation and packing of attributes, event payloads, and the generation of
    ids.  A C pointer with its length is a [cstr]; packed data is a list of byte
    values in the layout of the structs on a little-endian target ([kv_hdr] 24
    bytes, [event_hdr] 16), where a cast to [uint32_t] truncates.  A double is its
    64-bit pattern.

    The theorems: what is packed is read back; the id mixer is a bijection, so ids
    stay distinct even when the random source returns the same bytes for ever. *)
From stdpp Require Import gmap sorting.
From S2P Require Import Prelude Trace.

(** A pointer and a length: null, or bytes. *)
Inductive cstr := Null (len : Z) | Bytes (s : str).
(** The union is tagged by the type; [VOther] is a type outside the enum. *)
Inductive leaf_value := VBool (b : Z) | VInt64 (i : Z) | VDouble (bits : Z) | VString (s : cstr) | VOther.
Record leaf_kv := mkLeafKv { lk_key : cstr; lk_value : leaf_value }.

Definition cstr_len (c : cstr) : Z := match c with Null n => n | Bytes s => size s end.
Definition cstr_str (c : cstr) : str := match c with Null _ => [] | Bytes s => s end.

(** [kv_valid] and [kvs_valid]. *)
Definition kv_valid (kv : leaf_kv) : bool :=
  match lk_key kv with
  | Null _ => false
  | Bytes k =>
      negb (size k =? 0) && match lk_value kv with
                            | VOther => false
                            | VString (Null n) => n =? 0
                            | _ => true
                            end
  end.
Definition kvs_valid (kvs : list leaf_kv) : bool := forallb kv_valid kvs.

Definition kv_hdr_size : Z := 24.
Definition event_hdr_size : Z := 16.
(** [kv_str_len], [kv_size] and [kv_scalar]. *)
Definition kv_str (kv : leaf_kv) : str := match lk_value kv with VString s => cstr_str s | _ => [] end.
Definition kv_str_len (kv : leaf_kv) : Z := match lk_value kv with VString s => cstr_len s | _ => 0 end.
Definition kv_size (kv : leaf_kv) : Z := kv_hdr_size + cstr_len (lk_key kv) + kv_str_len kv.
Definition kv_scalar (v : leaf_value) : Z :=
  match v with
  | VBool b => if b =? 0 then 0 else 1
  | VInt64 i => to_uint 64 i
  | VDouble bits => bits
  | _ => 0
  end.
Definition value_type (v : leaf_value) : Z :=
  match v with VBool _ => 0 | VInt64 _ => 1 | VDouble _ => 2 | VString _ => 3 | VOther => 4 end.

(** [pack_kv]: the bytes written. *)
Definition pack_kv (kv : leaf_kv) : list Z :=
  le_bytes 8 (kv_scalar (lk_value kv)) ++ le_bytes 4 (to_uint 32 (cstr_len (lk_key kv)))
  ++ le_bytes 4 (to_uint 32 (kv_str_len kv)) ++ le_bytes 4 (value_type (lk_value kv)) ++ le_bytes 4 0
  ++ (code <$> cstr_str (lk_key kv)) ++ (code <$> kv_str kv).

(** A word read from memory; [None] past the end of what is there. *)
Definition of_le (l : list Z) : Z := fold_right (λ b v, b + 256 * v) 0 l.
Definition read_word (n : nat) (pos : Z) (src : list Z) : option Z :=
  let bytes := take n (drop (Z.to_nat pos) src) in
  if (length bytes =? n)%nat then Some (of_le bytes) else None.
Definition read_bytes (n pos : Z) (src : list Z) : option (list Z) :=
  let bytes := take (Z.to_nat n) (drop (Z.to_nat pos) src) in
  if size bytes =? n then Some bytes else None.

(** [unpack_kv]: the view and its size. *)
Definition unpack_kv (src : list Z) : option (leaf_kv * Z) :=
  scalar ← read_word 8 0 src;
  key_len ← read_word 4 8 src;
  str_len ← read_word 4 12 src;
  type ← read_word 4 16 src;
  key ← read_bytes key_len kv_hdr_size src;
  value ← (if type =? 0 then Some (VBool (if scalar =? 0 then 0 else 1))
           else if type =? 1 then Some (VInt64 (to_sint 64 scalar))
           else if type =? 2 then Some (VDouble scalar)
           else s ← read_bytes str_len (kv_hdr_size + key_len) src; Some (VString (Bytes (chr <$> s))));
  Some (mkLeafKv (Bytes (chr <$> key)) value, to_uint 32 (kv_hdr_size + key_len + str_len)).

(** [has_reserved_prefix]. *)
Definition k_reserved_prefix : str := $"microtel.leaf.".
Definition has_reserved_prefix (kv : leaf_kv) : bool := starts_with (cstr_str (lk_key kv)) k_reserved_prefix.

(** ** Event payloads *)

(** The payload [write_event] writes. *)
Definition pack_event (time : Z) (name : str) (attrs : list leaf_kv) : list Z :=
  le_bytes 8 time ++ le_bytes 4 (to_uint 32 (size name)) ++ le_bytes 4 (to_uint 32 (size attrs))
  ++ (code <$> name) ++ concat (pack_kv <$> attrs).
(** The size [microtel_leaf_span_add_event] asks for. *)
Definition event_size (name : str) (attrs : list leaf_kv) : Z := event_hdr_size + size name + zsum kv_size attrs.

(** [microtel_leaf_internal_next_event_attr], called [n] times. *)
Fixpoint unpack_kvs (n : nat) (src : list Z) : option (list leaf_kv) :=
  match n with
  | O => Some []
  | S n' => '(kv, size) ← unpack_kv src; rest ← unpack_kvs n' (drop (Z.to_nat size) src); Some (kv :: rest)
  end.
(** [microtel_leaf_internal_next_event] and its attributes. *)
Definition unpack_event (src : list Z) : option (Z * str * list leaf_kv) :=
  time ← read_word 8 0 src;
  name_len ← read_word 4 8 src;
  count ← read_word 4 12 src;
  name ← read_bytes name_len event_hdr_size src;
  attrs ← unpack_kvs (Z.to_nat count) (drop (Z.to_nat (event_hdr_size + name_len)) src);
  Some (time, (chr <$> (name : list Z)) : str, attrs).

(** ** Ids *)

Definition FNV_OFFSET : Z := 14695981039346656037.
Definition FNV_PRIME : Z := 1099511628211.
Definition SPLITMIX_GAMMA : Z := 11400714819323198485.
Definition SPLITMIX_MUL1 : Z := 13787848793156543929.
Definition SPLITMIX_MUL2 : Z := 10723151780598845931.

Definition fnv1a (h : Z) (data : list Z) : Z := fold_left (λ h b, to_uint 64 (Z.lxor h b * FNV_PRIME)) data h.
Definition xor_shift (k z : Z) : Z := Z.lxor z (Z.shiftr z k).
Definition splitmix64 (x : Z) : Z :=
  let z := to_uint 64 (x + SPLITMIX_GAMMA) in
  let z := to_uint 64 (xor_shift 30 z * SPLITMIX_MUL1) in
  let z := to_uint 64 (xor_shift 27 z * SPLITMIX_MUL2) in
  xor_shift 31 z.
Definition store_be64 (v : Z) : list Z := reverse (le_bytes 8 v).

(** [device_key]: one attribute, and the loop. *)
Definition hash_kv (h : Z) (kv : leaf_kv) : Z :=
  let h := fnv1a h (code <$> cstr_str (lk_key kv)) in
  let h := fnv1a h [value_type (lk_value kv)] in
  match lk_value kv with
  | VString s => fnv1a h (code <$> cstr_str s)
  | VBool _ => fnv1a h (le_bytes 1 (kv_scalar (lk_value kv)))
  | v => fnv1a h (le_bytes 8 (kv_scalar v))
  end.
Definition device_key (resource : list leaf_kv) (boot_id : Z) : Z :=
  splitmix64 (fnv1a (fold_left hash_kv resource FNV_OFFSET) (le_bytes 4 boot_id)).

(** The source of random bytes, by the number of the call. *)
Definition RandomBytes := nat → list Z.
(** What id generation keeps: the counter, and how often [random_bytes] was called. *)
Record IdState := mkIdState { id_counter : Z; id_calls : nat }.
(** [next_id_word]. *)
Definition next_id_word (random_bytes : RandomBytes) (key : Z) (s : IdState) : Z * IdState :=
  (Z.lxor (splitmix64 (key + id_counter s)) (of_le (random_bytes (id_calls s))),
   mkIdState (to_uint 64 (id_counter s + 1)) (S (id_calls s))).
(** [new_trace_id] and [new_span_id]; [fuel] bounds the rounds. *)
Fixpoint new_trace_id (fuel : nat) (random_bytes : RandomBytes) (key : Z) (s : IdState) : option (list Z * IdState) :=
  match fuel with
  | O => None
  | S fuel' =>
      let '(hi, s) := next_id_word random_bytes key s in
      let '(lo, s) := next_id_word random_bytes key s in
      if (hi =? 0) && (lo =? 0) then new_trace_id fuel' random_bytes key s
      else Some (store_be64 hi ++ store_be64 lo, s)
  end.
Fixpoint new_span_id (fuel : nat) (random_bytes : RandomBytes) (key : Z) (s : IdState) : option (list Z * IdState) :=
  match fuel with
  | O => None
  | S fuel' =>
      let '(w, s) := next_id_word random_bytes key s in
      if w =? 0 then new_span_id fuel' random_bytes key s else Some (store_be64 w, s)
  end.

(** ** Words and bytes *)

Lemma le_bytes_length n v : length (le_bytes n v) = n.
Proof. revert v. induction n; intros v; cbn; [done|]. by f_equal. Qed.
Lemma le_bytes_u8 n v : Forall is_u8 (le_bytes n v).
Proof.
  revert v. induction n; intros v; cbn; constructor; [|done].
  pose proof (Z.mod_pos_bound v 256 eq_refl). width_lia.
Qed.
Lemma of_le_le_bytes n v : of_le (le_bytes n v) = v mod 256 ^ Z.of_nat n.
Proof.
  revert v. induction n as [|n IH]; intros v; [by rewrite Z.mod_1_r|].
  cbn [le_bytes of_le fold_right]. fold (of_le (le_bytes n (v / 256))). rewrite IH.
  rewrite Nat2Z.inj_succ, Z.pow_succ_r by lia. rewrite Z.rem_mul_r by lia. done.
Qed.
Lemma of_le_range l : Forall is_u8 l → 0 <= of_le l < 256 ^ size l.
Proof.
  induction 1 as [|b l Hb _ IH]; [by split|]. cbn [of_le fold_right]. fold (of_le l).
  rewrite size_cons, Z.pow_add_r, Z.pow_1_r by (pose proof (size_nonneg l); lia). width_lia.
Qed.

Lemma read_word_skip n pos pre l : size pre <= pos → read_word n pos (pre ++ l) = read_word n (pos - size pre) l.
Proof.
  intros H. unfold read_word. rewrite drop_app_ge by (unfold size in H; lia).
  replace (Z.to_nat pos - length pre)%nat with (Z.to_nat (pos - size pre)) by (unfold size; lia). done.
Qed.
Lemma read_word_here n v l : read_word n 0 (le_bytes n v ++ l) = Some (v mod 256 ^ Z.of_nat n).
Proof.
  unfold read_word. change (Z.to_nat 0) with 0%nat. rewrite drop_0.
  rewrite take_app_length' by (by rewrite le_bytes_length). by rewrite le_bytes_length, Nat.eqb_refl, of_le_le_bytes.
Qed.
Lemma read_bytes_skip n pos pre l : size pre <= pos → read_bytes n pos (pre ++ l) = read_bytes n (pos - size pre) l.
Proof.
  intros H. unfold read_bytes. rewrite drop_app_ge by (unfold size in H; lia).
  replace (Z.to_nat pos - length pre)%nat with (Z.to_nat (pos - size pre)) by (unfold size; lia). done.
Qed.
Lemma read_bytes_here l k : read_bytes (size l) 0 (l ++ k) = Some l.
Proof.
  unfold read_bytes. change (Z.to_nat 0) with 0%nat. rewrite drop_0.
  rewrite take_app_length' by (unfold size; lia). by rewrite Z.eqb_refl.
Qed.
Lemma size_le_bytes n v : size (le_bytes n v) = Z.of_nat n.
Proof. unfold size. by rewrite le_bytes_length. Qed.
#[export] Hint Rewrite @size_fmap size_le_bytes : mt.

(** Reads at a constant offset: skip the fields in front, then read the one there. *)
Ltac read_fields :=
  repeat first
    [ rewrite read_word_here
    | rewrite read_word_skip by (autorewrite with mt; lia); autorewrite with mt;
      match goal with |- context [read_word _ ?p _] => let q := eval vm_compute in p in change p with q end ].

Lemma chr_codes (s : str) : chr <$> (code <$> s) = s.
Proof. induction s as [|c s IH]; cbn; [done|]. by rewrite chr_code, IH. Qed.

(** ** Packing *)

(** What a view says of an attribute: a bool is 0 or 1, an absent string is empty. *)
Definition normal_value (v : leaf_value) : leaf_value :=
  match v with
  | VBool b => VBool (if b =? 0 then 0 else 1)
  | VString (Null _) => VString (Bytes [])
  | v => v
  end.
Definition normal_kv (kv : leaf_kv) : leaf_kv := mkLeafKv (lk_key kv) (normal_value (lk_value kv)).
(** The ranges of the C types. *)
Definition value_wf (v : leaf_value) : Prop :=
  match v with VInt64 i => is_i64 i | VDouble bits => is_u64 bits | _ => True end.
(** An attribute whose packed size is below the largest buffer. *)
Record kv_fits (kv : leaf_kv) : Prop := {
  kf_valid : kv_valid kv = true;
  kf_wf : value_wf (lk_value kv);
  kf_size : kv_size kv <= u32_max
}.

Lemma cstr_len_nonneg_key kv : kv_valid kv = true → 0 <= cstr_len (lk_key kv).
Proof. unfold kv_valid. destruct (lk_key kv); [done|]. intros _. apply size_nonneg. Qed.
Lemma kv_valid_key kv : kv_valid kv = true → lk_key kv = Bytes (cstr_str (lk_key kv)).
Proof. unfold kv_valid. by destruct (lk_key kv). Qed.
Lemma kv_str_len_str kv : kv_valid kv = true → kv_str_len kv = size (kv_str kv).
Proof.
  unfold kv_valid, kv_str_len, kv_str. destruct (lk_key kv); [done|].
  destruct (lk_value kv) as [| | |[]|]; intros H; bool_hyps; done.
Qed.
Lemma kv_size_eq kv : kv_valid kv = true → kv_size kv = size (pack_kv kv).
Proof.
  intros H. unfold kv_size, pack_kv. rewrite (kv_str_len_str _ H). rewrite (kv_valid_key _ H) at 1.
  autorewrite with mt. unfold cstr_len, kv_hdr_size. lia.
Qed.
Lemma kv_scalar_u64 v : value_wf v → kv_scalar v mod 2 ^ 64 = kv_scalar v.
Proof.
  intros H. apply (to_uint64_id (kv_scalar v)). destruct v as [b| | | |]; cbn [kv_scalar].
  - destruct (b =? 0); width_lia.
  - apply to_uint_u64.
  - exact H.
  - width_lia.
  - width_lia.
Qed.

Lemma u32_twice v : is_u32 v → to_uint 32 v mod 2 ^ 32 = v.
Proof. intros H. rewrite to_uint32_id by done. by apply to_uint32_id. Qed.

Lemma pack_kv_key kv rest :
  kv_valid kv = true →
  read_bytes (cstr_len (lk_key kv)) kv_hdr_size (pack_kv kv ++ rest) = Some (code <$> cstr_str (lk_key kv)).
Proof.
  intros Hv. unfold pack_kv. rewrite <- !app_assoc. unfold kv_hdr_size. pose proof (kv_valid_key _ Hv) as E.
  do 5 rewrite read_bytes_skip by (autorewrite with mt; lia).
  autorewrite with mt. rewrite E at 1. cbn [cstr_len]. rewrite <- (size_fmap code). apply read_bytes_here.
Qed.
Lemma pack_kv_str kv rest :
  kv_valid kv = true →
  read_bytes (kv_str_len kv) (kv_hdr_size + cstr_len (lk_key kv)) (pack_kv kv ++ rest) = Some (code <$> kv_str kv).
Proof.
  intros Hv. unfold pack_kv. rewrite <- !app_assoc. unfold kv_hdr_size. pose proof (cstr_len_nonneg_key _ Hv) as H0.
  rewrite (kv_str_len_str _ Hv). pose proof (kv_valid_key _ Hv) as E.
  assert (cstr_len (lk_key kv) = size (code <$> cstr_str (lk_key kv))) as El by (rewrite E at 1; by rewrite size_fmap).
  do 6 rewrite read_bytes_skip by (rewrite ?El; autorewrite with mt; rewrite ?size_fmap; pose proof (size_nonneg (cstr_str (lk_key kv))); lia).
  rewrite El. autorewrite with mt.
  match goal with |- context [read_bytes _ ?p _] => replace p with 0 by lia end.
  rewrite <- (size_fmap code). apply read_bytes_here.
Qed.

(** What [unpack_kv] makes of the header fields. *)
Lemma unpack_value kv :
  kv_valid kv = true → value_wf (lk_value kv) →
  (if value_type (lk_value kv) =? 0 then Some (VBool (if kv_scalar (lk_value kv) =? 0 then 0 else 1))
   else if value_type (lk_value kv) =? 1 then Some (VInt64 (to_sint 64 (kv_scalar (lk_value kv))))
   else if value_type (lk_value kv) =? 2 then Some (VDouble (kv_scalar (lk_value kv)))
   else Some (VString (Bytes (kv_str kv)))) = Some (normal_value (lk_value kv)).
Proof.
  unfold kv_valid, kv_str. destruct (lk_key kv); [done|].
  destruct (lk_value kv) as [b|i|d|[]|]; intros H Hw; bool_hyps; cbn; try done.
  - by destruct (b =? 0).
  - rewrite to_sint_to_uint; [done|lia|]. cbn in Hw. change (2 ^ (64 - 1)) with 9223372036854775808. width_lia.
Qed.

Lemma unpack_pack kv rest : kv_fits kv → unpack_kv (pack_kv kv ++ rest) = Some (normal_kv kv, kv_size kv).
Proof.
  intros [Hv Hw Hs]. pose proof (kv_str_len_str _ Hv) as Estr.
  assert (is_u32 (cstr_len (lk_key kv)) ∧ is_u32 (kv_str_len kv)) as [Hk Hl].
  { pose proof (cstr_len_nonneg_key _ Hv). unfold kv_size, kv_hdr_size in Hs. rewrite Estr in *.
    pose proof (size_nonneg (kv_str kv)). width_lia. }
  assert (value_type (lk_value kv) mod 2 ^ 32 = value_type (lk_value kv)) as Et by (by destruct (lk_value kv)).
  pose proof (pack_kv_key kv rest Hv) as Rk. pose proof (pack_kv_str kv rest Hv) as Rs.
  unfold unpack_kv. set (src := pack_kv kv ++ rest) in *.
  assert (read_word 8 0 src = Some (kv_scalar (lk_value kv)) ∧ read_word 4 8 src = Some (cstr_len (lk_key kv))
          ∧ read_word 4 12 src = Some (kv_str_len kv) ∧ read_word 4 16 src = Some (value_type (lk_value kv))) as (-> & -> & -> & ->).
  { unfold src, pack_kv. rewrite <- !app_assoc. read_fields.
    change (256 ^ Z.of_nat 8) with (2 ^ 64). change (256 ^ Z.of_nat 4) with (2 ^ 32).
    by rewrite Et, kv_scalar_u64, !u32_twice by done. }
  cbn [mbind option_bind]. rewrite Rk, Rs. cbn [mbind option_bind]. rewrite !chr_codes, unpack_value by done.
  cbn [mbind option_bind]. rewrite to_uint32_id.
  - unfold normal_kv. by rewrite <- kv_valid_key.
  - unfold kv_size in Hs. pose proof (size_nonneg (kv_str kv)). rewrite Estr in *. unfold kv_hdr_size in *. width_lia.
Qed.

Lemma pack_kv_length kv : kv_valid kv = true → Z.to_nat (kv_size kv) = length (pack_kv kv).
Proof. intros H. rewrite kv_size_eq by done. unfold size. lia. Qed.
Lemma unpack_packs kvs rest :
  Forall kv_fits kvs → unpack_kvs (length kvs) (concat (pack_kv <$> kvs) ++ rest) = Some (normal_kv <$> kvs).
Proof.
  induction 1 as [|kv kvs Hkv _ IH]; [done|]. cbn [fmap list_fmap concat length unpack_kvs]. rewrite <- app_assoc.
  rewrite unpack_pack by done. cbn [mbind option_bind].
  rewrite drop_app_length' by (apply pack_kv_length, Hkv). rewrite IH. done.
Qed.
Lemma size_packs kvs : Forall kv_fits kvs → size (concat (pack_kv <$> kvs)) = zsum kv_size kvs.
Proof.
  induction 1 as [|kv kvs Hkv _ IH]; [done|]. cbn [fmap list_fmap concat]. rewrite size_app, zsum_cons, IH.
  by rewrite (kv_size_eq kv) by apply Hkv.
Qed.

(** An event that fits a chunk. *)
Record event_fits (time : Z) (name : str) (attrs : list leaf_kv) : Prop := {
  ef_time : is_u64 time;
  ef_valid : kvs_valid attrs = true;
  ef_wf : Forall (λ kv, value_wf (lk_value kv)) attrs;
  ef_size : event_size name attrs <= u32_max
}.
Lemma kv_size_lower kv : kv_valid kv = true → kv_hdr_size < kv_size kv.
Proof.
  intros H. pose proof (kv_str_len_str _ H) as E. pose proof (size_nonneg (kv_str kv)).
  unfold kv_size. rewrite E. unfold kv_valid in H. destruct (lk_key kv) as [|k]; [done|]. bool_hyps. cbn [cstr_len].
  pose proof (size_nonneg k). lia.
Qed.
Lemma kvs_size_lower kvs : kvs_valid kvs = true → 24 * size kvs <= zsum kv_size kvs ∧ Forall (λ kv, kv_size kv <= zsum kv_size kvs) kvs.
Proof.
  induction kvs as [|kv kvs IH]; cbn [kvs_valid forallb]; [by split|]. intros H. bool_hyps.
  destruct (IH ltac:(done)) as [IH1 IH2]. rewrite size_cons, zsum_cons.
  pose proof (kv_size_lower kv ltac:(done)). unfold kv_hdr_size in *. pose proof (size_nonneg kvs).
  split; [lia|]. constructor; [lia|]. eapply Forall_impl; [exact IH2|]. cbn. intros; lia.
Qed.
Lemma event_fits_attrs time name attrs :
  event_fits time name attrs → Forall kv_fits attrs ∧ is_u32 (size name) ∧ is_u32 (size attrs).
Proof.
  intros [Ht Hv Hw Hs]. destruct (kvs_size_lower _ Hv) as [Hn Ha]. unfold event_size, event_hdr_size in Hs.
  pose proof (size_nonneg name). pose proof (size_nonneg attrs). split_and!; try width_lia.
  apply Forall_forall. intros kv Hkv. rewrite Forall_forall in Hw, Ha. split; [by eapply forallb_elem|by apply Hw|].
  specialize (Ha _ Hkv). cbn in Ha. width_lia.
Qed.
Lemma size_pack_event time name attrs :
  Forall kv_fits attrs → size (pack_event time name attrs) = event_size name attrs.
Proof.
  intros H. unfold pack_event, event_size, event_hdr_size. autorewrite with mt. rewrite size_packs by done. lia.
Qed.

(** The fields of a packed event, and where its attributes start. *)
Lemma pack_event_reads time name attrs rest :
  event_fits time name attrs →
  let src := pack_event time name attrs ++ rest in
  read_word 8 0 src = Some time ∧ read_word 4 8 src = Some (size name) ∧ read_word 4 12 src = Some (size attrs)
  ∧ read_bytes (size name) event_hdr_size src = Some (code <$> name)
  ∧ drop (Z.to_nat (event_hdr_size + size name)) src = concat (pack_kv <$> attrs) ++ rest.
Proof.
  intros H src. pose proof (event_fits_attrs _ _ _ H) as (_ & Hn & Hc). destruct H as [Ht _ _ _]. unfold src, pack_event. clear src.
  rewrite <- !app_assoc. split_and!.
  - read_fields. change (256 ^ Z.of_nat 8) with (2 ^ 64). fold (to_uint 64 time). by rewrite to_uint64_id by width_lia.
  - read_fields. change (256 ^ Z.of_nat 4) with (2 ^ 32). by rewrite u32_twice.
  - read_fields. change (256 ^ Z.of_nat 4) with (2 ^ 32). by rewrite u32_twice.
  - unfold event_hdr_size. do 3 rewrite read_bytes_skip by (autorewrite with mt; lia). autorewrite with mt.
    change (16 - Z.of_nat 8 - Z.of_nat 4 - Z.of_nat 4) with 0. rewrite <- (size_fmap code). apply read_bytes_here.
  - unfold event_hdr_size. do 3 rewrite drop_app_ge by (rewrite ?length_app, ?le_bytes_length; pose proof (size_nonneg name); lia).
    by rewrite !le_bytes_length, drop_app_length' by (rewrite length_fmap; unfold size; lia).
Qed.

(** An event written by [add_event] is read back by the batch cursors. *)
Lemma unpack_pack_event time name attrs rest :
  event_fits time name attrs →
  unpack_event (pack_event time name attrs ++ rest) = Some (time, name, normal_kv <$> attrs).
Proof.
  intros H. pose proof (event_fits_attrs _ _ _ H) as (Ha & _). destruct (pack_event_reads time name attrs rest H) as (E1 & E2 & E3 & E4 & E5).
  unfold unpack_event. rewrite E1, E2, E3. cbn [mbind option_bind]. rewrite E4. cbn [mbind option_bind]. rewrite E5, chr_codes.
  replace (Z.to_nat (size attrs)) with (length attrs) by (unfold size; lia). by rewrite unpack_packs by done.
Qed.

(** What is packed is read back: an attribute and an event written into the
    record buffer come out of the cursors with the same key, type and value, at
    the same size, whatever bytes follow. *)
Theorem packing_roundtrip (kv : leaf_kv) (time : Z) (name : str) (attrs : list leaf_kv) (rest : list Z) :
  kv_fits kv → event_fits time name attrs →
  unpack_kv (pack_kv kv ++ rest) = Some (normal_kv kv, kv_size kv)
  ∧ unpack_event (pack_event time name attrs ++ rest) = Some (time, name, normal_kv <$> attrs)
  ∧ size (pack_kv kv) = kv_size kv ∧ size (pack_event time name attrs) = event_size name attrs.
Proof.
  intros Hk He. pose proof (event_fits_attrs _ _ _ He) as (Ha & _). split_and!.
  - by apply unpack_pack.
  - by apply unpack_pack_event.
  - by rewrite kv_size_eq by apply Hk.
  - by apply size_pack_event.
Qed.

Definition ex_string : leaf_kv := mkLeafKv (Bytes ($"room")) (VString (Bytes ($"kitchen"))).
Definition ex_int : leaf_kv := mkLeafKv (Bytes ($"delta")) (VInt64 (-5)).
Lemma packing_roundtrip_witness :
  unpack_kv (pack_kv ex_int ++ []) = Some (ex_int, 29)
  ∧ unpack_event (pack_event 12 ($"door") [ex_string; ex_int] ++ []) = Some (12, $"door", [ex_string; ex_int]).
Proof.
  destruct (packing_roundtrip ex_int 12 ($"door") [ex_string; ex_int] []) as (H1 & H2 & _).
  - split; [done|split; vm_compute; congruence|vm_compute; congruence].
  - split; [split; vm_compute; congruence|done| |vm_compute; congruence].
    repeat constructor; vm_compute; congruence.
  - by split.
Defined.

(** ** Ids *)

Lemma shiftr_fixed k d : 0 < k → 0 <= d → d = Z.shiftr d k → d = 0.
Proof.
  intros Hk Hd E. rewrite Z.shiftr_div_pow2 in E by lia.
  assert (2 <= 2 ^ k) by (change 2 with (2 ^ 1) at 1; apply Z.pow_le_mono_r; lia).
  destruct (Z.eq_dec d 0) as [|Hn]; [done|]. pose proof (Z.div_lt d (2 ^ k)). lia.
Qed.
Lemma xor_shift_inj k a b : 0 < k → 0 <= a → 0 <= b → xor_shift k a = xor_shift k b → a = b.
Proof.
  intros Hk Ha Hb E. unfold xor_shift in E. apply Z.lxor_eq.
  apply (shiftr_fixed k); [done|by apply Z.lxor_nonneg; lia|].
  rewrite Z.shiftr_lxor. apply Z.lxor_eq. rewrite Z.lxor_assoc.
  rewrite <- (Z.lxor_assoc b), (Z.lxor_comm b), Z.lxor_assoc, <- Z.lxor_assoc, E. apply Z.lxor_nilpotent.
Qed.
Lemma xor_shift_u64 k z : 0 <= k → is_u64 z → is_u64 (xor_shift k z).
Proof.
  intros Hk [H1 H2]. change u64_max with (2 ^ 64 - 1) in *. unfold xor_shift.
  assert (0 <= Z.shiftr z k < 2 ^ 64) as [S1 S2].
  { rewrite Z.shiftr_div_pow2 by done. pose proof (Z.pow_pos_nonneg 2 k eq_refl Hk).
    split; [apply Z.div_pos; lia|]. apply Z.div_lt_upper_bound; nia. }
  split; [by apply Z.lxor_nonneg|]. change u64_max with (2 ^ 64 - 1).
  enough (Z.lxor z (Z.shiftr z k) < 2 ^ 64) by lia.
  destruct (Z.eq_dec (Z.lxor z (Z.shiftr z k)) 0) as [->|Hn]; [done|].
  apply Z.log2_lt_pow2; [assert (0 <= Z.lxor z (Z.shiftr z k)) by (by apply Z.lxor_nonneg); lia|].
  eapply Z.le_lt_trans; [by apply Z.log2_lxor|]. apply Z.max_lub_lt.
  - destruct (Z.eq_dec z 0) as [->|]; [done|]. apply Z.log2_lt_pow2; lia.
  - destruct (Z.eq_dec (Z.shiftr z k) 0) as [->|]; [done|]. apply Z.log2_lt_pow2; lia.
Qed.

(** Multiplication by an odd constant is undone by its inverse. *)
Lemma mul_inv_inj c inv a b :
  to_uint 64 (c * inv) = 1 → is_u64 a → is_u64 b → to_uint 64 (a * c) = to_uint 64 (b * c) → a = b.
Proof.
  intros Hc Ha Hb E. rewrite <- (to_uint64_id a Ha), <- (to_uint64_id b Hb).
  assert (∀ z, to_uint 64 z = to_uint 64 (to_uint 64 (z * c) * inv)) as H.
  { intros z. unfold to_uint in *. rewrite Zmult_mod_idemp_l, <- Z.mul_assoc, <- Zmult_mod_idemp_r, Hc. by rewrite Z.mul_1_r. }
  by rewrite (H a), (H b), E.
Qed.
Lemma add_inj c a b : is_u64 a → is_u64 b → to_uint 64 (a + c) = to_uint 64 (b + c) → a = b.
Proof.
  intros Ha Hb E. rewrite <- (to_uint64_id a Ha), <- (to_uint64_id b Hb).
  assert (∀ z, to_uint 64 z = to_uint 64 (to_uint 64 (z + c) - c)) as H.
  { intros z. unfold to_uint. rewrite Zminus_mod_idemp_l. f_equal. lia. }
  by rewrite (H a), (H b), E.
Qed.

(** The mixer loses nothing. *)
Lemma splitmix64_inj x y : is_u64 x → is_u64 y → splitmix64 x = splitmix64 y → x = y.
Proof.
  intros Hx Hy E. unfold splitmix64 in E.
  pose proof to_uint_u64 as U.
  assert (∀ k z, 0 <= k → is_u64 (xor_shift k (to_uint 64 z))) as X by (intros; by apply xor_shift_u64).
  apply xor_shift_inj in E; [|done|apply U..].
  apply (mul_inv_inj _ 3573116690164977347) in E; [|vm_compute; reflexivity|by apply X..].
  apply xor_shift_inj in E; [|done|apply U..].
  apply (mul_inv_inj _ 10871156337175269513) in E; [|vm_compute; reflexivity|by apply X..].
  apply xor_shift_inj in E; [|done|apply U..].
  by apply add_inj in E.
Qed.

Lemma splitmix64_mod x : splitmix64 (to_uint 64 x) = splitmix64 x.
Proof. unfold splitmix64. by rewrite to_uint_add_l. Qed.
Lemma splitmix64_u64 x : is_u64 (splitmix64 x).
Proof. unfold splitmix64. apply xor_shift_u64; [done|]. apply to_uint_u64. Qed.

(** The id word at counter [c] when every draw returns [r]. *)
Definition word_at (key : Z) (r : list Z) (c : Z) : Z := Z.lxor (splitmix64 (key + c)) (of_le r).
Lemma lxor_u64 a b : is_u64 a → is_u64 b → is_u64 (Z.lxor a b).
Proof.
  intros Ha Hb. change u64_max with (2 ^ 64 - 1) in *. unfold is_u64 in *. change u64_max with (2 ^ 64 - 1) in *.
  assert (0 <= Z.lxor a b) as H0 by (by apply Z.lxor_nonneg; lia). split; [done|].
  destruct (Z.eq_dec (Z.lxor a b) 0) as [->|Hn]; [done|]. enough (Z.lxor a b < 2 ^ 64) by lia.
  apply Z.log2_lt_pow2; [lia|]. eapply Z.le_lt_trans; [apply Z.log2_lxor; lia|]. apply Z.max_lub_lt.
  - destruct (Z.eq_dec a 0) as [->|]; [done|]. apply Z.log2_lt_pow2; lia.
  - destruct (Z.eq_dec b 0) as [->|]; [done|]. apply Z.log2_lt_pow2; lia.
Qed.
Lemma word_at_u64 key r c : is_bytes 8 r → is_u64 (word_at key r c).
Proof.
  intros [Hl Hr]. apply lxor_u64; [apply splitmix64_u64|]. pose proof (of_le_range _ Hr) as H. unfold size in H.
  rewrite Hl in H. change (256 ^ Z.of_nat 8) with 18446744073709551616 in H. width_lia.
Qed.
Lemma word_at_inj key r a b : word_at key r a = word_at key r b → to_uint 64 a = to_uint 64 b.
Proof.
  unfold word_at. intros E.
  assert (splitmix64 (key + a) = splitmix64 (key + b)) as E'.
  { rewrite <- (Z.lxor_0_r (splitmix64 (key + a))), <- (Z.lxor_nilpotent (of_le r)), <- Z.lxor_assoc, E, Z.lxor_assoc.
    by rewrite Z.lxor_nilpotent, Z.lxor_0_r. }
  rewrite <- (splitmix64_mod (key + a)), <- (splitmix64_mod (key + b)) in E'.
  apply splitmix64_inj in E'; [|apply to_uint_u64..].
  rewrite (Z.add_comm key a), (Z.add_comm key b), <- (to_uint_add_l a), <- (to_uint_add_l b) in E'.
  apply add_inj in E'; [done|apply to_uint_u64..].
Qed.
Lemma store_be64_inj a b : is_u64 a → is_u64 b → store_be64 a = store_be64 b → a = b.
Proof.
  intros Ha Hb E. unfold store_be64 in E. apply (f_equal reverse) in E. rewrite !reverse_involutive in E.
  apply (f_equal of_le) in E. rewrite !of_le_le_bytes in E. change (256 ^ Z.of_nat 8) with (2 ^ 64) in E.
  by rewrite <- (to_uint64_id a), <- (to_uint64_id b).
Qed.
Lemma store_be64_bytes v : is_bytes 8 (store_be64 v).
Proof.
  unfold store_be64. split; [by rewrite length_reverse, le_bytes_length|]. apply Forall_reverse, le_bytes_u8.
Qed.
Lemma store_be64_nonzero v : is_u64 v → v ≠ 0 → Exists (λ b, b ≠ 0) (store_be64 v).
Proof.
  intros Hv Hn. apply Exists_exists.
  destruct (decide (Forall (λ b, b = 0) (store_be64 v))) as [H|H].
  - exfalso. apply Hn. apply store_be64_inj; [done|split; by vm_compute|].
    destruct (store_be64_bytes v) as [Hl _]. change (store_be64 0) with (replicate 8 0).
    symmetry. apply replicate_as_Forall_2; [done|]. eapply Forall_impl; [exact H|]. done.
  - apply not_Forall_Exists in H; [|solve_decision]. by apply Exists_exists.
Qed.

(** A valid id: of the right length and not all zero. *)
Definition valid_id (n : nat) (id : list Z) : Prop := is_bytes n id ∧ Exists (λ b, b ≠ 0) id.

(** [n] spans started one after the other. *)
Fixpoint span_ids (n fuel : nat) (random_bytes : RandomBytes) (key : Z) (s : IdState) : option (list (list Z) * IdState) :=
  match n with
  | O => Some ([], s)
  | S n' =>
      '(id, s) ← new_span_id fuel random_bytes key s;
      '(ids, s) ← span_ids n' fuel random_bytes key s;
      Some (id :: ids, s)
  end.

Lemma new_span_id_constant key r c d k :
  is_bytes 8 r → ∃ j k', d <= j < d + 2 ∧ word_at key r (to_uint 64 (c + j)) ≠ 0
  ∧ new_span_id 2 (λ _, r) key (mkIdState (to_uint 64 (c + d)) k)
    = Some (store_be64 (word_at key r (to_uint 64 (c + j))), mkIdState (to_uint 64 (c + (j + 1))) k').
Proof.
  intros Hr. cbn [new_span_id next_id_word id_counter id_calls]. fold (word_at key r (to_uint 64 (c + d))).
  destruct (Z.eq_dec (word_at key r (to_uint 64 (c + d))) 0) as [E|E].
  - rewrite E. cbn [Z.eqb]. rewrite to_uint_add_l. fold (word_at key r (to_uint 64 (c + d + 1))).
    exists (d + 1), (S (S k)).
    assert (word_at key r (to_uint 64 (c + d + 1)) ≠ 0) as E1.
    { intros E1. rewrite <- E in E1. apply word_at_inj in E1. rewrite !to_uint_twice in E1.
      replace (c + d + 1) with (1 + (c + d)) in E1 by lia. rewrite <- (Z.add_0_l (c + d)) in E1 at 2.
      by apply add_inj in E1. }
    split_and!; [lia|lia|by rewrite Z.add_assoc|].
    rewrite <- Z.add_assoc in *. apply Z.eqb_neq in E1. rewrite E1, to_uint_add_l. by rewrite !Z.add_assoc.
  - exists d, (S k). split_and!; [lia|lia|done|]. apply Z.eqb_neq in E. rewrite E, to_uint_add_l. by rewrite !Z.add_assoc.
Qed.

Lemma span_ids_constant key r c n : ∀ d k,
  is_bytes 8 r → ∃ js s', span_ids n 2 (λ _, r) key (mkIdState (to_uint 64 (c + d)) k)
    = Some ((λ j, store_be64 (word_at key r (to_uint 64 (c + j)))) <$> js, s')
  ∧ length js = n ∧ StronglySorted Z.lt js
  ∧ Forall (λ j, d <= j < d + 2 * Z.of_nat n ∧ word_at key r (to_uint 64 (c + j)) ≠ 0) js.
Proof.
  induction n as [|n IH]; intros d k Hr; [by eexists [], _; split_and!; [done|done|constructor|constructor]|].
  destruct (new_span_id_constant key r c d k Hr) as (j & k' & Hj & Hn & E).
  destruct (IH (j + 1) k' Hr) as (js & s' & Es & Hl & Hs & Hf).
  exists (j :: js), s'. cbn [span_ids]. rewrite E. cbn [mbind option_bind]. rewrite Es. split_and!.
  - done.
  - cbn. by rewrite Hl.
  - constructor; [done|]. eapply Forall_impl; [exact Hf|]. cbn. intros; lia.
  - constructor; [split; [lia|done]|]. eapply Forall_impl; [exact Hf|]. cbn. intros i [? ?]. split; [lia|done].
Qed.

Lemma counters_distinct c i j : 0 <= i < j → j < 2 ^ 64 → to_uint 64 (c + i) ≠ to_uint 64 (c + j).
Proof.
  intros Hij Hj E. rewrite (Z.add_comm c i), (Z.add_comm c j), <- (to_uint_add_r i), <- (to_uint_add_r j) in E.
  assert (is_u64 i ∧ is_u64 j) as [Hi1 Hj1] by (clear E; change (2 ^ 64) with 18446744073709551616 in Hj; unfold is_u64; split; change u64_max with 18446744073709551615; lia).
  apply (add_inj (to_uint 64 c)) in E; [lia|done..].
Qed.

(** Ids do not depend on a good random source.  Whatever eight bytes the source
    keeps returning, [new_span_id] needs at most two rounds and [new_trace_id] one;
    the ids are valid, and up to [2^63] consecutive span ids are all different. *)
Theorem weak_entropy_ids (key counter : Z) (r : list Z) (n k : nat) :
  is_u64 counter → is_bytes 8 r → Z.of_nat n < 2 ^ 63 →
  (∃ ids s', span_ids n 2 (λ _, r) key (mkIdState counter k) = Some (ids, s')
             ∧ length ids = n ∧ NoDup ids ∧ Forall (valid_id 8) ids)
  ∧ ∃ id s', new_trace_id 1 (λ _, r) key (mkIdState counter k) = Some (id, s') ∧ valid_id 16 id.
Proof.
  intros Hc Hr Hn. split.
  - destruct (span_ids_constant key r counter n 0 k Hr) as (js & s' & E & Hl & Hs & Hf).
    rewrite Z.add_0_r, to_uint64_id in E by done. eexists _, s'. split; [exact E|].
    rewrite length_fmap. split_and!; [done| |].
    + clear E Hl. induction Hs as [|j js _ IH Hj]; [constructor|]. cbn.
      apply Forall_cons in Hf as [[Hd _] Hf]. apply NoDup_cons. split; [|by apply IH].
      intros (i & Ei & Hi)%list_elem_of_fmap. apply store_be64_inj in Ei; [|by apply word_at_u64..].
      apply word_at_inj in Ei. rewrite !to_uint_twice in Ei. rewrite Forall_forall in Hj, Hf.
      specialize (Hj i Hi). destruct (Hf i Hi) as [Hi' _].
      apply (counters_distinct counter j i); [lia| |done]. change (2 ^ 64) with (2 * 2 ^ 63). lia.
    + apply Forall_fmap. eapply Forall_impl; [exact Hf|]. cbn. intros j [_ Hw]. split; [apply store_be64_bytes|].
      apply store_be64_nonzero; [by apply word_at_u64|done].
  - cbn [new_trace_id next_id_word id_counter id_calls]. fold (word_at key r counter). fold (word_at key r (to_uint 64 (counter + 1))).
    assert (word_at key r counter ≠ 0 ∨ word_at key r (to_uint 64 (counter + 1)) ≠ 0) as Hw.
    { destruct (Z.eq_dec (word_at key r counter) 0) as [E|]; [right|by left]. intros E1. rewrite <- E in E1.
      apply word_at_inj in E1. rewrite to_uint_twice in E1. rewrite <- (Z.add_0_r counter) in E1 at 2.
      by apply (counters_distinct counter 0 1). }
    destruct ((word_at key r counter =? 0) && (word_at key r (to_uint 64 (counter + 1)) =? 0)) eqn:Ez; [bool_hyps; tauto|].
    eexists _, _. split; [done|]. destruct (store_be64_bytes (word_at key r counter)) as [L1 F1].
    destruct (store_be64_bytes (word_at key r (to_uint 64 (counter + 1)))) as [L2 F2].
    split; [split; [by rewrite length_app, L1, L2|by apply Forall_app]|]. apply Exists_app.
    destruct Hw as [Hw|Hw]; [left|right]; (apply store_be64_nonzero; [by apply word_at_u64|done]).
Qed.

Definition ex_draw : list Z := replicate 8 170.
Lemma weak_entropy_ids_witness :
  ∃ ids s', span_ids 3 2 (λ _, ex_draw) (device_key [ex_string] 7) (mkIdState 0 0) = Some (ids, s') ∧ NoDup ids.
Proof.
  destruct (weak_entropy_ids (device_key [ex_string] 7) 0 ex_draw 3 0) as [(ids & s' & E & _ & Hd & _) _];
    [by split|by split; [|vm_compute; repeat constructor]|done|].
  exists ids, s'. split; assumption.
Defined.
