(* ===== verification/LeafMem.v ===== *)
(** * The record buffer of the leaf C library

    Model of the record buffer of [src/leaf/src/leaf_core.c]: the span table that
    grows from the front, the chunks that are allocated downward from the Resource,
    allocation and the three-pass compaction.

    The buffer is a memory of objects at byte offsets.  Reading needs an object of
    that type at exactly that offset, and writing one destroys every object it
    overlaps, as [memcpy] into a byte buffer does; what was never written, lies
    outside the part below the Resource, or was destroyed cannot be read ([None]).
    Offsets and sizes are exact: every one of them is at most [persist_off], which
    is below [2^32].

    The theorems: compaction never loses or mixes up a live chunk, although it
    overwrites the memory it reads; it removes exactly the dead ones and rewrites
    every reference. *)
From stdpp Require Import gmap sorting.
From S2P Require Import Prelude LeafKv.

Definition NONE32 : Z := 4294967295.
Definition NONE16 : Z := 65535.
Definition MAX_BUFFER : Z := 4294967280.
(** [sizeof(span_rec)] and [sizeof(chunk_hdr)]. *)
Definition span_rec_size : Z := 72.
Definition chunk_hdr_size : Z := 24.

Inductive span_state := SLOT_FREE | SLOT_OPEN | SLOT_ENDED.
Inductive chunk_kind := CHUNK_DEAD | CHUNK_NAME | CHUNK_ATTR | CHUNK_EVENT | CHUNK_STATUS.
#[export] Instance span_state_eq : EqDecision span_state.
Proof. solve_decision. Defined.
#[export] Instance chunk_kind_eq : EqDecision chunk_kind.
Proof. solve_decision. Defined.

Record span_rec := mkSpanRec {
  sr_start : Z; sr_end : Z; sr_trace_id : list Z; sr_span_id : list Z; sr_parent_span_id : list Z;
  sr_head : Z; sr_tail : Z; sr_gen : Z; sr_next_ended : Z; sr_attr_count : Z; sr_event_count : Z;
  sr_state : span_state; sr_kind : Z; sr_status_code : Z; sr_has_parent : bool
}.
Record chunk_hdr := mkHdr {
  ch_next : Z; ch_size : Z; ch_used : Z; ch_fwd : Z; ch_below : Z; ch_owner : Z; ch_kind : chunk_kind
}.
(** A chunk in memory: its header and the bytes after it ([-1]: never written). *)
Record chunk := mkChunk { c_hdr : chunk_hdr; c_data : list Z }.
Definition csize (c : chunk) : Z := ch_size (c_hdr c).

(** Field updates. *)
Definition set_links (head tail : Z) (r : span_rec) : span_rec :=
  mkSpanRec (sr_start r) (sr_end r) (sr_trace_id r) (sr_span_id r) (sr_parent_span_id r) head tail (sr_gen r)
    (sr_next_ended r) (sr_attr_count r) (sr_event_count r) (sr_state r) (sr_kind r) (sr_status_code r) (sr_has_parent r).
Definition set_next (n : Z) (h : chunk_hdr) : chunk_hdr :=
  mkHdr n (ch_size h) (ch_used h) (ch_fwd h) (ch_below h) (ch_owner h) (ch_kind h).
Definition set_used (n : Z) (h : chunk_hdr) : chunk_hdr :=
  mkHdr (ch_next h) (ch_size h) n (ch_fwd h) (ch_below h) (ch_owner h) (ch_kind h).
Definition set_plan (fwd below : Z) (h : chunk_hdr) : chunk_hdr :=
  mkHdr (ch_next h) (ch_size h) (ch_used h) fwd below (ch_owner h) (ch_kind h).
Definition set_chunk_kind (k : chunk_kind) (h : chunk_hdr) : chunk_hdr :=
  mkHdr (ch_next h) (ch_size h) (ch_used h) (ch_fwd h) (ch_below h) (ch_owner h) k.
Definition on_hdr (f : chunk_hdr → chunk_hdr) (c : chunk) : chunk := mkChunk (f (c_hdr c)) (c_data c).

(** The buffer below the Resource, with the fields of [leaf_state] that delimit it. *)
Record heap := mkHeap {
  slots : gmap Z span_rec; chunks : gmap Z chunk; slot_count : Z; data_low : Z; persist_off : Z
}.
Definition with_chunks (h : heap) (cm : gmap Z chunk) : heap :=
  mkHeap (slots h) cm (slot_count h) (data_low h) (persist_off h).
Definition with_data_low (h : heap) (low : Z) : heap :=
  mkHeap (slots h) (chunks h) (slot_count h) low (persist_off h).
Definition with_slot_count (h : heap) (n : Z) : heap :=
  mkHeap (slots h) (chunks h) n (data_low h) (persist_off h).

(** ** Buffer access *)

(** Writing the bytes of [[lo, hi)] destroys the objects there. *)
Definition clobber {A} (sz : A → Z) (lo hi : Z) (m : gmap Z A) : gmap Z A :=
  filter (λ p, p.1 + sz p.2 <= lo ∨ hi <= p.1) m.
Definition slot_off (slot : Z) : Z := slot * span_rec_size.
Definition table_end (h : heap) : Z := slot_off (slot_count h).
Definition get_slot (h : heap) (slot : Z) : option span_rec := slots h !! slot_off slot.
Definition put_slot (h : heap) (slot : Z) (r : span_rec) : option heap :=
  let lo := slot_off slot in
  let hi := lo + span_rec_size in
  if (0 <=? lo) && (hi <=? persist_off h)
  then Some (mkHeap (<[lo := r]> (clobber (λ _, span_rec_size) lo hi (slots h))) (clobber csize lo hi (chunks h))
               (slot_count h) (data_low h) (persist_off h))
  else None.
Definition get_chunk (h : heap) (off : Z) : option chunk_hdr := c_hdr <$> chunks h !! off.
(** [put_chunk] on a chunk that exists: only its header changes. *)
Definition put_chunk (h : heap) (off : Z) (hdr : chunk_hdr) : option heap :=
  c ← chunks h !! off;
  if ch_size hdr =? csize c then Some (with_chunks h (<[off := mkChunk hdr (c_data c)]> (chunks h))) else None.
(** A whole chunk written at [off]: by [memmove], or by the first [put_chunk]. *)
Definition store_chunk (h : heap) (off : Z) (c : chunk) : option heap :=
  let hi := off + csize c in
  if (0 <=? off) && (hi <=? persist_off h)
  then Some (mkHeap (clobber (λ _, span_rec_size) off hi (slots h)) (<[off := c]> (clobber csize off hi (chunks h)))
               (slot_count h) (data_low h) (persist_off h))
  else None.
(** [memcpy] to the start of [chunk_payload]. *)
Definition write_payload (h : heap) (off : Z) (bytes : list Z) : option heap :=
  c ← chunks h !! off;
  if size bytes <=? size (c_data c)
  then Some (with_chunks h (<[off := mkChunk (c_hdr c) (bytes ++ drop (length bytes) (c_data c))]> (chunks h)))
  else None.
Definition chunk_payload (h : heap) (off : Z) : option (list Z) := c_data <$> chunks h !! off.

(** ** Compaction *)

Definition chunk_live (h : heap) (hdr : chunk_hdr) : option bool :=
  if bool_decide (ch_kind hdr = CHUNK_DEAD) || (slot_count h <=? ch_owner hdr) then Some false
  else r ← get_slot h (ch_owner hdr); Some (bool_decide (sr_state r ≠ SLOT_FREE)).

(** The first loop of [compact_plan]: the bytes of the live chunks. *)
Fixpoint plan_live (fuel : nat) (h : heap) (off live : Z) : option Z :=
  match fuel with
  | O => None
  | S fuel' =>
      if off <? persist_off h then
        hdr ← get_chunk h off;
        l ← chunk_live h hdr;
        plan_live fuel' h (off + ch_size hdr) (live + (if l : bool then ch_size hdr else 0))
      else Some live
  end.
(** Its second loop: forwarding offsets and [below] links. *)
Fixpoint plan_mark (fuel : nat) (h : heap) (off pos below : Z) : option (heap * Z) :=
  match fuel with
  | O => None
  | S fuel' =>
      if off <? persist_off h then
        hdr ← get_chunk h off;
        l ← chunk_live h hdr;
        h ← put_chunk h off (set_plan (if l : bool then pos else NONE32) below hdr);
        plan_mark fuel' h (off + ch_size hdr) (pos + (if l : bool then ch_size hdr else 0)) off
      else Some (h, below)
  end.
(** Every chunk takes at least its header, so this many rounds are enough. *)
Definition walk_fuel (h : heap) : nat := S (Z.to_nat (persist_off h)).
Definition compact_plan (h : heap) : option (heap * Z * Z) :=
  live ← plan_live (walk_fuel h) h (data_low h) 0;
  let new_low := persist_off h - live in
  '(h, top) ← plan_mark (walk_fuel h) h (data_low h) new_low NONE32;
  Some (h, top, new_low).

Definition forward (h : heap) (off : Z) : option Z :=
  if off =? NONE32 then Some NONE32 else ch_fwd <$> get_chunk h off.
(** [compact_fix]: the slots [slot], [slot + 1], ..., then the chunks. *)
Fixpoint fix_slots (n : nat) (slot : Z) (h : heap) : option heap :=
  match n with
  | O => Some h
  | S n' =>
      r ← get_slot h slot;
      h ← (if bool_decide (sr_state r = SLOT_FREE) then Some h
           else head ← forward h (sr_head r);
                tail ← forward h (sr_tail r);
                put_slot h slot (set_links head tail r));
      fix_slots n' (slot + 1) h
  end.
Fixpoint fix_chunks (fuel : nat) (off : Z) (h : heap) : option heap :=
  match fuel with
  | O => None
  | S fuel' =>
      if off <? persist_off h then
        hdr ← get_chunk h off;
        h ← (if ch_fwd hdr =? NONE32 then Some h
             else next ← forward h (ch_next hdr); put_chunk h off (set_next next hdr));
        fix_chunks fuel' (off + ch_size hdr) h
      else Some h
  end.
Definition compact_fix (h : heap) : option heap :=
  h ← fix_slots (Z.to_nat (slot_count h)) 0 h;
  fix_chunks (walk_fuel h) (data_low h) h.

Fixpoint compact_move (fuel : nat) (off : Z) (h : heap) : option heap :=
  match fuel with
  | O => None
  | S fuel' =>
      if off =? NONE32 then Some h
      else
        c ← chunks h !! off;
        h ← (if (ch_fwd (c_hdr c) =? NONE32) || (ch_fwd (c_hdr c) =? off) then Some h
             else store_chunk h (ch_fwd (c_hdr c)) c);
        compact_move fuel' (ch_below (c_hdr c)) h
  end.
Definition compact (h : heap) : option heap :=
  '(h, top, new_low) ← compact_plan h;
  h ← compact_fix h;
  h ← compact_move (walk_fuel h) top h;
  Some (with_data_low h new_low).

(** ** Allocation *)

Definition fits_below (h : heap) (size : Z) : bool := table_end h + size <=? data_low h.
(** [None] inside: [NONE32]. *)
Definition alloc_chunk (h : heap) (owner : Z) (kind : chunk_kind) (payload : Z) : option (heap * option Z) :=
  let size := chunk_hdr_size + payload in
  h ← (if fits_below h size then Some h else compact h);
  if fits_below h size then
    let h := with_data_low h (data_low h - size) in
    h ← store_chunk h (data_low h) (mkChunk (mkHdr NONE32 size payload 0 0 owner kind) (replicate (Z.to_nat payload) (-1)));
    Some (h, Some (data_low h))
  else Some (h, None).

(** [link_chunk], [kill_chunk]. *)
Definition link_chunk (h : heap) (slot off : Z) : option heap :=
  r ← get_slot h slot;
  if sr_head r =? NONE32 then put_slot h slot (set_links off off r)
  else
    tail ← get_chunk h (sr_tail r);
    h ← put_chunk h (sr_tail r) (set_next off tail);
    put_slot h slot (set_links (sr_head r) off r).
Definition kill_chunk (h : heap) (off : Z) : option heap :=
  hdr ← get_chunk h off; put_chunk h off (set_chunk_kind CHUNK_DEAD hdr).
(** [alloc_string]. *)
Definition alloc_string (h : heap) (owner : Z) (kind : chunk_kind) (s : str) : option (heap * option Z) :=
  '(h, off) ← alloc_chunk h owner kind (size s);
  match off with
  | Some o => h ← write_payload h o (code <$> s); Some (h, off)
  | None => Some (h, None)
  end.

(** [splice_chunk]: [repl] takes the place of [old], which dies. *)
Definition splice_chunk (h : heap) (slot prev old repl : Z) : option heap :=
  r ← get_slot h slot;
  hdr ← get_chunk h repl;
  oldh ← get_chunk h old;
  h ← put_chunk h repl (set_next (ch_next oldh) hdr);
  h ← (if prev =? NONE32 then Some h
       else p ← get_chunk h prev; put_chunk h prev (set_next repl p));
  let head := if prev =? NONE32 then repl else sr_head r in
  let tail := if sr_tail r =? old then repl else sr_tail r in
  h ← put_slot h slot (set_links head tail r);
  kill_chunk h old.
(** [unlink_chunk]. *)
Definition unlink_chunk (h : heap) (slot prev off : Z) : option heap :=
  r ← get_slot h slot;
  hdr ← get_chunk h off;
  h ← (if prev =? NONE32 then Some h
       else p ← get_chunk h prev; put_chunk h prev (set_next (ch_next hdr) p));
  let head := if prev =? NONE32 then ch_next hdr else sr_head r in
  let tail := if sr_tail r =? off then prev else sr_tail r in
  h ← put_slot h slot (set_links head tail r);
  kill_chunk h off.

(** ** Memory lemmas *)

Lemma clobber_Some {A} (sz : A → Z) lo hi m o x :
  clobber sz lo hi m !! o = Some x ↔ m !! o = Some x ∧ (o + sz x <= lo ∨ hi <= o).
Proof. unfold clobber. by rewrite map_lookup_filter_Some. Qed.
Lemma slot_off_inj i j : slot_off i = slot_off j → i = j.
Proof. unfold slot_off, span_rec_size. lia. Qed.

(** Chunks side by side from [lo]. *)
Fixpoint place (lo : Z) (l : list chunk) : list (Z * chunk) :=
  match l with [] => [] | c :: l' => (lo, c) :: place (lo + csize c) l' end.
Abbreviation csizes := (zsum csize).
(** A chunk whose header tells its extent. *)
Record chunk_ok (c : chunk) : Prop := {
  ok_size : csize c = chunk_hdr_size + size (c_data c);
  ok_owner : 0 <= ch_owner (c_hdr c)
}.
Lemma chunk_ok_pos c : chunk_ok c → 24 <= csize c.
Proof. intros [-> _]. pose proof (size_nonneg (c_data c)). unfold chunk_hdr_size. lia. Qed.
Lemma csizes_nonneg l : Forall chunk_ok l → 0 <= csizes l.
Proof. intros H. apply zsum_nonneg. intros c Hc. rewrite Forall_forall in H. pose proof (chunk_ok_pos c (H c Hc)). lia. Qed.

Lemma place_app lo l k : place lo (l ++ k) = place lo l ++ place (lo + csizes l) k.
Proof.
  revert lo. induction l as [|c l IH]; intros lo; cbn [place app]; [by rewrite Z.add_0_r|].
  rewrite IH, zsum_cons, Z.add_assoc. done.
Qed.
Lemma place_range lo l o c :
  Forall chunk_ok l → (o, c) ∈ place lo l → lo <= o ∧ o + csize c <= lo + csizes l ∧ c ∈ l.
Proof.
  intros H. revert lo. induction H as [|d l Hd H IH]; intros lo; cbn [place]; [by intros ?%elem_of_nil|].
  rewrite zsum_cons. pose proof (csizes_nonneg l H). pose proof (chunk_ok_pos d Hd).
  intros [[= -> ->]|Hin]%elem_of_cons; [split_and!; [lia|lia|left]|].
  destruct (IH _ Hin) as (? & ? & ?). split_and!; [lia|lia|by right].
Qed.
Lemma place_snd lo l : (place lo l).*2 = l.
Proof. revert lo. induction l as [|c l IH]; intros lo; cbn; [done|]. by rewrite IH. Qed.
Lemma place_sorted lo l : Forall chunk_ok l → StronglySorted Z.lt (place lo l).*1.
Proof.
  intros H. revert lo. induction H as [|c l Hc H IH]; intros lo; cbn; constructor; [apply IH|].
  apply Forall_fmap, Forall_forall. intros [o d] Hin. pose proof (place_range _ _ _ _ H Hin).
  pose proof (chunk_ok_pos c Hc). cbn. lia.
Qed.
Lemma sorted_NoDup l : StronglySorted Z.lt l → NoDup l.
Proof.
  induction 1 as [|x l _ IH H]; constructor; [|done]. intros Hin. rewrite Forall_forall in H. specialize (H _ Hin). lia.
Qed.
Lemma place_NoDup lo l : Forall chunk_ok l → NoDup (place lo l).*1.
Proof. intros H. by apply sorted_NoDup, place_sorted. Qed.
Lemma place_fun lo l o c d : Forall chunk_ok l → (o, c) ∈ place lo l → (o, d) ∈ place lo l → c = d.
Proof.
  intros H. revert lo. induction H as [|e l He H IH]; intros lo; cbn [place]; [by intros ?%elem_of_nil|].
  pose proof (chunk_ok_pos e He).
  intros [[= -> ->]|Hc]%elem_of_cons [Hd|Hd]%elem_of_cons.
  - congruence.
  - apply place_range in Hd; [lia|done].
  - injection Hd as -> ->. apply place_range in Hc; [lia|done].
  - by eapply IH.
Qed.

(** The memory holds the chunks [l], side by side from [lo]. *)
Definition tiled (cm : gmap Z chunk) (lo : Z) (l : list chunk) : Prop :=
  Forall (λ p, cm !! p.1 = Some p.2) (place lo l).
Lemma tiled_nil cm lo : tiled cm lo [].
Proof. constructor. Qed.
Lemma tiled_cons cm lo c l : tiled cm lo (c :: l) ↔ cm !! lo = Some c ∧ tiled cm (lo + csize c) l.
Proof. unfold tiled. cbn [place]. by rewrite Forall_cons. Qed.
Lemma tiled_app cm lo l k : tiled cm lo (l ++ k) ↔ tiled cm lo l ∧ tiled cm (lo + csizes l) k.
Proof. unfold tiled. by rewrite place_app, Forall_app. Qed.
Lemma tiled_elem cm lo l o c : tiled cm lo l → (o, c) ∈ place lo l → cm !! o = Some c.
Proof. intros H Hin. unfold tiled in H. rewrite Forall_forall in H. apply (H _ Hin). Qed.
(** Memory that agrees where the chunks lie holds the same chunks. *)
Lemma tiled_mono cm cm' lo l :
  Forall chunk_ok l → tiled cm lo l →
  (∀ o c, lo <= o → o + csize c <= lo + csizes l → 24 <= csize c → cm !! o = Some c → cm' !! o = Some c) → tiled cm' lo l.
Proof.
  intros Hok H Hm. unfold tiled in *. rewrite !Forall_forall in *. intros [o c] Hin. cbn.
  rewrite <- Forall_forall in Hok. destruct (place_range _ _ _ _ Hok Hin) as (H1 & H2 & H3).
  rewrite Forall_forall in Hok. apply Hm; [done|done|by apply chunk_ok_pos, Hok|]. apply (H _ Hin).
Qed.
Lemma tiled_clobber cm lo l a b :
  Forall chunk_ok l → tiled cm lo l → b <= lo ∨ lo + csizes l <= a → tiled (clobber csize a b cm) lo l.
Proof.
  intros Hok H Hab. eapply tiled_mono; [done|done|]. intros o c H1 H2 H3 E. apply clobber_Some. split; [done|].
  destruct Hab; [right|left]; lia.
Qed.
Lemma tiled_insert cm lo l o c :
  Forall chunk_ok l → tiled cm lo l → o < lo ∨ lo + csizes l <= o → tiled (<[o := c]> cm) lo l.
Proof.
  intros Hok H Ho. eapply tiled_mono; [done|done|]. intros o' d H1 H2 H3 E. rewrite lookup_insert_ne by lia. done.
Qed.

(** *** Slots *)

(** Every slot of the table holds a record. *)
Definition slots_ok (h : heap) : Prop := ∀ i, 0 <= i < slot_count h → is_Some (get_slot h i).
(** The heap's delimiters. *)
Definition same_frame (h h' : heap) : Prop :=
  slot_count h' = slot_count h ∧ data_low h' = data_low h ∧ persist_off h' = persist_off h.
#[export] Instance same_frame_pre : PreOrder same_frame.
Proof. split; [by repeat split|]. intros ? ? ? (? & ? & ?) (? & ? & ?). repeat split; congruence. Qed.

Lemma put_slot_spec h i r :
  0 <= i → slot_off i + span_rec_size <= persist_off h →
  ∃ h', put_slot h i r = Some h' ∧ same_frame h h'
  ∧ (∀ j, get_slot h' j = if decide (j = i) then Some r else get_slot h j)
  ∧ chunks h' = clobber csize (slot_off i) (slot_off i + span_rec_size) (chunks h).
Proof.
  intros Hi Hp. unfold put_slot. assert (0 <= slot_off i) by (unfold slot_off, span_rec_size; lia).
  rewrite (proj2 (Z.leb_le 0 _)), (proj2 (Z.leb_le _ (persist_off h))) by done. cbn [andb].
  eexists. split; [done|]. split; [by repeat split|]. split; [|done]. intros j. unfold get_slot. cbn [slots].
  destruct (decide (j = i)) as [->|Hne]; [by rewrite lookup_insert_eq|].
  rewrite lookup_insert_ne by (intros E; apply Hne; symmetry; by apply slot_off_inj).
  apply option_eq. intros x. rewrite clobber_Some. split; [tauto|]. split; [done|].
  unfold slot_off, span_rec_size in *. lia.
Qed.

(** Header updates at a chunk. *)
Lemma put_chunk_spec h off hdr c :
  chunks h !! off = Some c → ch_size hdr = csize c →
  put_chunk h off hdr = Some (with_chunks h (<[off := mkChunk hdr (c_data c)]> (chunks h))).
Proof. intros E Hs. unfold put_chunk. rewrite E. cbn [mbind option_bind]. by rewrite Hs, Z.eqb_refl. Qed.
Lemma get_chunk_spec h off c : chunks h !! off = Some c → get_chunk h off = Some (c_hdr c).
Proof. unfold get_chunk. by intros ->. Qed.
Lemma store_chunk_spec h off c :
  0 <= off → off + csize c <= persist_off h → table_end h <= off → 0 <= slot_count h →
  ∃ h', store_chunk h off c = Some h' ∧ same_frame h h'
  ∧ (∀ j, 0 <= j < slot_count h → get_slot h' j = get_slot h j)
  ∧ chunks h' = <[off := c]> (clobber csize off (off + csize c) (chunks h)).
Proof.
  intros H0 Hp Ht Hn. unfold store_chunk. rewrite (proj2 (Z.leb_le 0 _)), (proj2 (Z.leb_le _ (persist_off h))) by done. cbn [andb].
  eexists. split; [done|]. split; [by repeat split|]. split; [|done]. intros j Hj. unfold get_slot. cbn [slots].
  apply option_eq. intros x. rewrite clobber_Some. split; [tauto|]. split; [done|].
  unfold table_end, slot_off, span_rec_size in *. lia.
Qed.

(** *** The liveness test *)

Definition alive (h : heap) (c : chunk) : bool := default false (chunk_live h (c_hdr c)).
Lemma chunk_live_alive h c : slots_ok h → chunk_ok c → chunk_live h (c_hdr c) = Some (alive h c).
Proof.
  intros Hs [_ Ho]. unfold alive, chunk_live. destruct (bool_decide _ || _) eqn:E; [done|]. bool_hyps.
  destruct (Hs (ch_owner (c_hdr c))) as [r ->]; [lia|]. done.
Qed.
Lemma alive_true h c :
  slots_ok h → chunk_ok c →
  alive h c = true ↔ ch_kind (c_hdr c) ≠ CHUNK_DEAD ∧ ch_owner (c_hdr c) < slot_count h
                     ∧ ∃ r, get_slot h (ch_owner (c_hdr c)) = Some r ∧ sr_state r ≠ SLOT_FREE.
Proof.
  intros Hs [_ Ho]. unfold alive, chunk_live. destruct (bool_decide (ch_kind _ = _)) eqn:Ed; bool_hyps; cbn [orb].
  { split; [done|]. intros [? _]. done. }
  destruct (slot_count h <=? ch_owner (c_hdr c)) eqn:El; bool_hyps; [split; [done|]; intros (_ & ? & _); lia|].
  destruct (Hs (ch_owner (c_hdr c))) as [r Er]; [lia|]. rewrite Er. cbn. split.
  - intros H. bool_hyps. eauto.
  - intros (_ & _ & r' & [= <-] & Hr). by apply bool_decide_eq_true.
Qed.

(** *** Pass 1 *)

Definition last_off (lo below : Z) (l : list chunk) : Z := default below (last ((place lo l).*1)).
Definition plan_chunk (live : bool) (pos below : Z) (c : chunk) : chunk :=
  on_hdr (set_plan (if live then pos else NONE32) below) c.
(** What [plan_mark] makes of the chunks [l] from [off]. *)
Fixpoint mark (live : chunk → bool) (off pos below : Z) (l : list chunk) : list chunk :=
  match l with
  | [] => []
  | c :: l' => plan_chunk (live c) pos below c
               :: mark live (off + csize c) (pos + (if live c then csize c else 0)) off l'
  end.
Definition live_sizes (live : chunk → bool) (l : list chunk) : Z := zsum (λ c, if live c then csize c else 0) l.

Lemma mark_app live off pos below l k :
  mark live off pos below (l ++ k)
  = mark live off pos below l ++ mark live (off + csizes l) (pos + live_sizes live l) (last_off off below l) k.
Proof.
  revert off pos below. induction l as [|c l IH]; intros off pos below; cbn [mark app].
  - unfold live_sizes, last_off. cbn. by rewrite !Z.add_0_r.
  - rewrite IH. unfold live_sizes. rewrite !zsum_cons, !Z.add_assoc. do 2 f_equal.
    unfold last_off. cbn [place fmap list_fmap fst]. rewrite last_cons. by destruct (last _).
Qed.
Lemma mark_sizes live off pos below l : csizes (mark live off pos below l) = csizes l.
Proof. revert off pos below. induction l as [|c l IH]; intros; [done|]. cbn [mark]. rewrite !zsum_cons, IH. done. Qed.
Lemma mark_length live off pos below l : length (mark live off pos below l) = length l.
Proof. revert off pos below. induction l as [|c l IH]; intros; [done|]. cbn. by rewrite IH. Qed.
Lemma mark_ok live off pos below l : Forall chunk_ok l → Forall chunk_ok (mark live off pos below l).
Proof.
  intros H. revert off pos below. induction H as [|c l [Hs Ho] H IH]; intros; cbn; constructor; [by split|apply IH].
Qed.

Lemma tile_count l : Forall chunk_ok l → 24 * Z.of_nat (length l) <= csizes l.
Proof.
  induction 1 as [|c l Hc H IH]; [done|]. rewrite zsum_cons. cbn [length]. pose proof (chunk_ok_pos c Hc). lia.
Qed.
Lemma walk_enough h lo l : Forall chunk_ok l → 0 <= lo → lo + csizes l <= persist_off h → (length l < walk_fuel h)%nat.
Proof. intros H H0 H1. pose proof (tile_count l H). unfold walk_fuel. lia. Qed.

Lemma plan_live_spec h live fuel : ∀ off acc l,
  tiled (chunks h) off l → Forall chunk_ok l → off + csizes l = persist_off h → (length l < fuel)%nat →
  (∀ c, c ∈ l → chunk_live h (c_hdr c) = Some (live c)) →
  plan_live fuel h off acc = Some (acc + live_sizes live l).
Proof.
  induction fuel as [|fuel IH]; intros off acc l Ht Hok Hsum Hf Hl; [lia|]. cbn [plan_live].
  destruct l as [|c l].
  { unfold live_sizes in *. cbn in *. rewrite (proj2 (Z.ltb_ge _ _)) by lia. f_equal. lia. }
  apply tiled_cons in Ht as [Ec Ht]. apply Forall_cons in Hok as [Hc Hok].
  rewrite zsum_cons in Hsum. pose proof (csizes_nonneg l Hok). pose proof (chunk_ok_pos c Hc).
  rewrite (proj2 (Z.ltb_lt _ _)) by lia. rewrite (get_chunk_spec _ _ _ Ec). cbn [mbind option_bind].
  rewrite (Hl c) by left. cbn [mbind option_bind]. fold (csize c). cbn [length] in Hf.
  rewrite (IH _ _ l); [|done|done|lia|lia|by intros; apply Hl; right].
  unfold live_sizes. rewrite zsum_cons, Z.add_assoc. done.
Qed.

Lemma plan_mark_spec live fuel : ∀ h off pos below l,
  tiled (chunks h) off l → Forall chunk_ok l → off + csizes l = persist_off h → (length l < fuel)%nat →
  (∀ c, c ∈ l → chunk_live h (c_hdr c) = Some (live c)) →
  ∃ cm', plan_mark fuel h off pos below = Some (with_chunks h cm', last_off off below l)
  ∧ tiled cm' off (mark live off pos below l) ∧ ∀ o, o < off → cm' !! o = chunks h !! o.
Proof.
  induction fuel as [|fuel IH]; intros h off pos below l Ht Hok Hsum Hf Hl; [lia|]. cbn [plan_mark].
  destruct l as [|c l].
  { cbn in *. rewrite (proj2 (Z.ltb_ge _ _)) by lia. exists (chunks h). split_and!; [by destruct h|apply tiled_nil|done]. }
  apply tiled_cons in Ht as [Ec Ht]. apply Forall_cons in Hok as [Hc Hok].
  rewrite zsum_cons in Hsum. pose proof (csizes_nonneg l Hok). pose proof (chunk_ok_pos c Hc).
  rewrite (proj2 (Z.ltb_lt _ _)) by lia. rewrite (get_chunk_spec _ _ _ Ec). cbn [mbind option_bind].
  rewrite (Hl c) by left. cbn [mbind option_bind].
  rewrite (put_chunk_spec _ _ _ c Ec) by done. cbn [mbind option_bind]. fold (csize c). cbn [length] in Hf.
  set (h1 := with_chunks h _).
  destruct (IH h1 (off + csize c) (pos + (if live c then csize c else 0)) off l) as (cm' & E & Ht' & Hlow).
  - apply tiled_insert; [done|done|lia].
  - done.
  - cbn. lia.
  - lia.
  - intros d Hd. unfold h1. cbn. by apply Hl; right.
  - exists cm'. rewrite E. split_and!.
    + unfold last_off. cbn [place fmap list_fmap fst]. rewrite last_cons. by destruct (last _).
    + cbn [mark]. apply tiled_cons. split; [|done]. rewrite Hlow by lia. cbn. by rewrite lookup_insert_eq.
    + intros o Ho. rewrite Hlow by lia. cbn. by rewrite lookup_insert_ne by lia.
Qed.

(** *** Pass 2 *)

Definition star (F : Z → Z) (o : Z) : Z := if o =? NONE32 then NONE32 else F o.
Definition fix_rec (F : Z → Z) (r : span_rec) : span_rec :=
  if bool_decide (sr_state r = SLOT_FREE) then r else set_links (star F (sr_head r)) (star F (sr_tail r)) r.
Definition fix_next (F : Z → Z) (c : chunk) : chunk :=
  if ch_fwd (c_hdr c) =? NONE32 then c else on_hdr (set_next (star F (ch_next (c_hdr c)))) c.
(** A reference: none, or to one of the offsets [os]. *)
Definition is_ref (os : list Z) (o : Z) : Prop := o = NONE32 ∨ o ∈ os.
(** The memory says [F] of the offsets [os]. *)
Definition fwd_at (cm : gmap Z chunk) (F : Z → Z) (os : list Z) : Prop :=
  ∀ o, o ∈ os → ∃ c, cm !! o = Some c ∧ ch_fwd (c_hdr c) = F o.

Lemma forward_spec h F os o : fwd_at (chunks h) F os → is_ref os o → forward h o = Some (star F o).
Proof.
  intros HF Ho. unfold forward, star. destruct (o =? NONE32) eqn:E; [done|]. bool_hyps.
  destruct Ho as [|Ho]; [done|]. destruct (HF o Ho) as (c & Ec & <-). by rewrite (get_chunk_spec _ _ _ Ec).
Qed.

Lemma fix_slots_spec F os lo l n : ∀ i h,
  slots_ok h → 0 <= i → i + Z.of_nat n <= slot_count h → table_end h <= lo → lo + csizes l = persist_off h →
  Forall chunk_ok l → tiled (chunks h) lo l → os ⊆ (place lo l).*1 → fwd_at (chunks h) F os →
  (∀ j r, i <= j < slot_count h → get_slot h j = Some r → sr_state r ≠ SLOT_FREE → is_ref os (sr_head r) ∧ is_ref os (sr_tail r)) →
  ∃ h', fix_slots n i h = Some h' ∧ same_frame h h' ∧ tiled (chunks h') lo l
  ∧ ∀ j, get_slot h' j = if bool_decide (i <= j < i + Z.of_nat n) then fix_rec F <$> get_slot h j else get_slot h j.
Proof.
  induction n as [|n IH]; intros i h Hs Hi Hn Hlo Hhi Hok Ht Hos HF Hr.
  { exists h. split_and!; [done|done|done|]. intros j. rewrite bool_decide_false by lia. done. }
  cbn [fix_slots]. destruct (Hs i) as [r Er]; [lia|]. rewrite Er. cbn [mbind option_bind].
  assert (∃ h1, (if bool_decide (sr_state r = SLOT_FREE) then Some h
                 else head ← forward h (sr_head r); tail ← forward h (sr_tail r); put_slot h i (set_links head tail r)) = Some h1
          ∧ same_frame h h1 ∧ tiled (chunks h1) lo l
          ∧ ∀ j, get_slot h1 j = if decide (j = i) then Some (fix_rec F r) else get_slot h j) as (h1 & -> & Hf1 & Ht1 & Hg1).
  { unfold fix_rec. destruct (bool_decide _) eqn:Ed.
    { exists h. split_and!; [done|done|done|]. intros j. destruct (decide (j = i)) as [->|]; [by rewrite Er|done]. }
    bool_hyps. destruct (Hr i r ltac:(lia) Er Ed) as [R1 R2].
    rewrite (forward_spec _ _ _ _ HF R1), (forward_spec _ _ _ _ HF R2). cbn [mbind option_bind].
    pose proof (csizes_nonneg l Hok).
    destruct (put_slot_spec h i (set_links (star F (sr_head r)) (star F (sr_tail r)) r)) as (h1 & E1 & Hf1 & Hg1 & Hc1);
      [done|unfold table_end, slot_off, span_rec_size in *; nia|].
    exists h1. split_and!; [done|done| |done]. rewrite Hc1. apply tiled_clobber; [done|done|].
    left. unfold table_end, slot_off, span_rec_size in *. nia. }
  cbn [mbind option_bind]. destruct Hf1 as (F1 & F2 & F3).
  destruct (IH (i + 1) h1) as (h' & E & Hf & Ht' & Hg).
  - intros j Hj. rewrite Hg1. destruct (decide (j = i)); [by eauto|]. apply Hs. lia.
  - lia.
  - lia.
  - unfold table_end in *. by rewrite F1.
  - by rewrite F3.
  - done.
  - done.
  - done.
  - intros o Ho. apply Hos in Ho as Hin. apply list_elem_of_fmap in Hin as ([o' c] & -> & Hin). cbn in *.
    exists c. split; [by eapply tiled_elem|]. destruct (HF o' Ho) as (c' & Ec & <-).
    pose proof (tiled_elem _ _ _ _ _ Ht Hin). congruence.
  - intros j rj Hj Ej. rewrite Hg1, decide_False in Ej by lia. apply (Hr j rj); [lia|done].
  - exists h'. rewrite E. split_and!; [done|by etransitivity; [|exact Hf]|done|].
    intros j. rewrite Hg, Hg1. destruct (decide (j = i)) as [->|Hne].
    + rewrite bool_decide_false, bool_decide_true, Er by lia. done.
    + destruct (bool_decide (i <= j < _)) eqn:B; [rewrite bool_decide_true|rewrite bool_decide_false]; bool_hyps; done || lia.
Qed.

Lemma fix_chunks_spec F os fuel : ∀ h off l,
  tiled (chunks h) off l → Forall chunk_ok l → off + csizes l = persist_off h → (length l < fuel)%nat →
  fwd_at (chunks h) F os →
  (∀ c, c ∈ l → ch_fwd (c_hdr c) ≠ NONE32 → is_ref os (ch_next (c_hdr c))) →
  ∃ cm', fix_chunks fuel off h = Some (with_chunks h cm') ∧ tiled cm' off (fix_next F <$> l)
  ∧ ∀ o, o < off → cm' !! o = chunks h !! o.
Proof.
  induction fuel as [|fuel IH]; intros h off l Ht Hok Hsum Hf HF Hr; [lia|]. cbn [fix_chunks].
  destruct l as [|c l].
  { cbn in *. rewrite (proj2 (Z.ltb_ge _ _)) by lia. exists (chunks h). split_and!; [by destruct h|apply tiled_nil|done]. }
  apply tiled_cons in Ht as [Ec Ht]. apply Forall_cons in Hok as [Hc Hok].
  rewrite zsum_cons in Hsum. pose proof (csizes_nonneg l Hok). pose proof (chunk_ok_pos c Hc).
  rewrite (proj2 (Z.ltb_lt _ _)) by lia. rewrite (get_chunk_spec _ _ _ Ec). cbn [mbind option_bind].
  assert (∃ cm1, (if ch_fwd (c_hdr c) =? NONE32 then Some h
                  else next ← forward h (ch_next (c_hdr c)); put_chunk h off (set_next next (c_hdr c))) = Some (with_chunks h cm1)
          ∧ cm1 = <[off := fix_next F c]> (chunks h)) as (cm1 & -> & ->).
  { unfold fix_next. destruct (ch_fwd (c_hdr c) =? NONE32) eqn:E; bool_hyps.
    - exists (chunks h). split; [by destruct h|]. by rewrite insert_id.
    - rewrite (forward_spec _ _ _ _ HF) by (apply Hr; [left|done]). cbn [mbind option_bind].
      rewrite (put_chunk_spec _ _ _ c Ec) by done. by eexists. }
  cbn [mbind option_bind length] in *. fold (csize c).
  assert (csize (fix_next F c) = csize c ∧ ch_fwd (c_hdr (fix_next F c)) = ch_fwd (c_hdr c)) as [Hsz Hfw].
  { unfold fix_next. by destruct (_ =? _). }
  destruct (IH (with_chunks h (<[off := fix_next F c]> (chunks h))) (off + csize c) l) as (cm' & E & Ht' & Hlow).
  - apply tiled_insert; [done|done|lia].
  - done.
  - cbn. lia.
  - lia.
  - intros o Ho. destruct (HF o Ho) as (d & Ed & Hd). cbn. destruct (decide (o = off)) as [->|Hne].
    + rewrite lookup_insert_eq. eexists. split; [done|]. rewrite Hfw. congruence.
    + rewrite lookup_insert_ne by done. eauto.
  - intros d Hd. apply Hr. by right.
  - exists cm'. rewrite E. split_and!; [done| |].
    + cbn [fmap list_fmap]. apply tiled_cons. rewrite Hsz. split; [|done]. rewrite Hlow by lia. cbn. by rewrite lookup_insert_eq.
    + intros o Ho. rewrite Hlow by lia. cbn. by rewrite lookup_insert_ne by lia.
Qed.

(** *** Pass 3 *)

Definition fwd_live (c : chunk) : bool := negb (ch_fwd (c_hdr c) =? NONE32).
Definition planned (F : Z → Z) (live : chunk → bool) (lo pos : Z) (l : list chunk) : list chunk :=
  fix_next F <$> mark live lo pos NONE32 l.
Lemma fix_next_csize F c : csize (fix_next F c) = csize c.
Proof. unfold fix_next. by destruct (_ =? _). Qed.
Lemma fix_next_ok F c : chunk_ok c → chunk_ok (fix_next F c).
Proof. intros [H1 H2]. unfold fix_next. destruct (_ =? _); by split. Qed.
Lemma planned_sizes F live lo pos l : csizes (planned F live lo pos l) = csizes l.
Proof. unfold planned. rewrite zsum_fmap, <- (mark_sizes live lo pos NONE32 l). apply zsum_ext. intros. apply fix_next_csize. Qed.
Lemma planned_ok F live lo pos l : Forall chunk_ok l → Forall chunk_ok (planned F live lo pos l).
Proof.
  intros H. apply Forall_fmap. eapply Forall_impl; [by apply (mark_ok live lo pos NONE32)|]. intros c Hc. by apply fix_next_ok.
Qed.
Lemma planned_snoc F live lo pos l c :
  planned F live lo pos (l ++ [c])
  = planned F live lo pos l ++ [fix_next F (plan_chunk (live c) (pos + live_sizes live l) (last_off lo NONE32 l) c)].
Proof. unfold planned. by rewrite mark_app, fmap_app. Qed.
Lemma last_off_snoc lo below l c : last_off lo below (l ++ [c]) = lo + csizes l.
Proof. unfold last_off. rewrite place_app, fmap_app, last_app. done. Qed.
Lemma live_sizes_app live l k : live_sizes live (l ++ k) = live_sizes live l + live_sizes live k.
Proof. apply zsum_app. Qed.
Lemma live_sizes_one live c : live_sizes live [c] = if live c then csize c else 0.
Proof. unfold live_sizes. cbn. lia. Qed.
Lemma live_sizes_range live l : Forall chunk_ok l → 0 <= live_sizes live l <= csizes l.
Proof.
  unfold live_sizes. induction 1 as [|c l Hc H IH]; [done|]. rewrite !zsum_cons. pose proof (chunk_ok_pos c Hc).
  destruct (live c); lia.
Qed.
Lemma store_keeps h off c h' lo l :
  chunks h' = <[off := c]> (clobber csize off (off + csize c) (chunks h)) → 0 <= csize c →
  Forall chunk_ok l → lo + csizes l <= off ∨ off + csize c <= lo → csize c ≠ 0 → tiled (chunks h) lo l → tiled (chunks h') lo l.
Proof.
  intros -> Hc Hok Hd Hn Ht. apply tiled_insert; [done| |destruct Hd; [right|left]; lia].
  apply tiled_clobber; [done|done|]. tauto.
Qed.

Lemma compact_move_spec F live lo pos : ∀ l fuel h k,
  Forall chunk_ok l → Forall chunk_ok k → (length l < fuel)%nat →
  tiled (chunks h) lo (planned F live lo pos l) → tiled (chunks h) (pos + live_sizes live l) k →
  lo + csizes l <= pos + live_sizes live l → pos + live_sizes live l + csizes k = persist_off h →
  0 <= slot_count h → table_end h <= lo → lo <= pos → persist_off h <= MAX_BUFFER →
  ∃ h', compact_move fuel (last_off lo NONE32 l) h = Some h' ∧ same_frame h h'
  ∧ (∀ j, 0 <= j < slot_count h → get_slot h' j = get_slot h j)
  ∧ tiled (chunks h') pos (List.filter fwd_live (planned F live lo pos l) ++ k).
Proof.
  induction l as [|c l IH] using rev_ind; intros fuel h k Hok Hk Hf Ht Htk Hle Hsum Hn Hlo Hpos Hmax;
    (destruct fuel as [|fuel]; [lia|]); cbn [compact_move].
  { exists h. unfold live_sizes in Htk. cbn in *. rewrite Z.add_0_r in Htk. by split_and!. }
  rewrite last_off_snoc. apply Forall_app in Hok as [Hok [Hc _]%Forall_cons].
  pose proof (csizes_nonneg k Hk). pose proof (csizes_nonneg l Hok). pose proof (chunk_ok_pos c Hc). pose proof (live_sizes_range live l Hok).
  rewrite live_sizes_app, live_sizes_one in *. unfold table_end, slot_off, span_rec_size, MAX_BUFFER in *.
  rewrite zsum_app in Hle. change (csizes [c]) with (csize c + 0) in Hle. rewrite length_app in Hf. cbn [length] in Hf.
  rewrite planned_snoc in *. apply tiled_app in Ht as [Ht Ht1]. apply tiled_cons in Ht1 as [Ec _]. rewrite planned_sizes in Ec.
  set (P := pos + live_sizes live l) in *. set (c1 := fix_next F _) in *.
  assert (csize c1 = csize c) as Hsz by (unfold c1; by rewrite fix_next_csize).
  assert (ch_below (c_hdr c1) = last_off lo NONE32 l ∧ ch_fwd (c_hdr c1) = if live c then P else NONE32) as [Hb Hw].
  { unfold c1, fix_next. by destruct (_ =? _). }
  assert (chunk_ok c1) as Hok1 by (apply fix_next_ok; destruct Hc; by split).
  assert (lo + csizes l ≠ NONE32) as Hne by (unfold NONE32; destruct (live c); lia).
  apply Z.eqb_neq in Hne. rewrite Hne, Ec. cbn [mbind option_bind].
  rewrite List.filter_app. cbn [List.filter]. unfold fwd_live at 2. rewrite Hb, Hw. destruct (live c).
  - assert (P ≠ NONE32) as HP by (unfold NONE32; lia). apply Z.eqb_neq in HP. rewrite HP. cbn [orb negb].
    rewrite <- app_assoc. cbn [app].
    assert (∃ h1, (if P =? lo + csizes l then Some h else store_chunk h P c1) = Some h1 ∧ same_frame h h1
            ∧ (∀ j, 0 <= j < slot_count h → get_slot h1 j = get_slot h j)
            ∧ tiled (chunks h1) lo (planned F live lo pos l) ∧ tiled (chunks h1) P (c1 :: k)) as (h1 & -> & Hfr & Hsl & Ht1 & Htk1).
    { destruct (P =? lo + csizes l) eqn:E; bool_hyps.
      - exists h. split_and!; [done|done|done|done|]. apply tiled_cons. split; [by rewrite E|].
        rewrite Hsz. by replace (P + csize c) with (pos + (live_sizes live l + csize c)) by (unfold P; lia).
      - destruct (store_chunk_spec h P c1) as (h1 & E1 & Hfr & Hsl & Hc1);
          [lia|lia|unfold table_end, slot_off, span_rec_size; lia|done|].
        exists h1. split_and!; [done|done|done| |].
        + eapply store_keeps; [exact Hc1|lia|by apply planned_ok|rewrite planned_sizes; lia|lia|done].
        + apply tiled_cons. split; [by rewrite Hc1, lookup_insert_eq|].
          eapply store_keeps; [exact Hc1|lia|done|lia|lia|]. rewrite Hsz.
          by replace (P + csize c) with (pos + (live_sizes live l + csize c)) by (unfold P; lia). }
    cbn [mbind option_bind]. pose proof Hfr as (F1 & F2 & F3).
    destruct (IH fuel h1 (c1 :: k)) as (h' & E & Hfr' & Hsl' & Ht');
      [done|by constructor|lia|done|done|lia|rewrite zsum_cons, F3; lia|lia|rewrite F1; lia|lia|lia|].
    exists h'. split_and!; [done|by etransitivity| |done]. intros j Hj. rewrite Hsl' by lia. by apply Hsl.
  - cbn [orb negb mbind option_bind]. rewrite app_nil_r. apply (IH fuel h k); try done; try lia.
    by replace P with (pos + (live_sizes live l + 0)) by (unfold P; lia).
Qed.

(** ** The contract of compaction *)

(** The buffer is well formed: the table, then free space, then the chunks [l]. *)
Record heap_ok (h : heap) (l : list chunk) : Prop := {
  hk_count : 0 <= slot_count h;
  hk_slots : slots_ok h;
  hk_low : table_end h <= data_low h;
  hk_tiles : tiled (chunks h) (data_low h) l;
  hk_chunks : Forall chunk_ok l;
  hk_sum : data_low h + csizes l = persist_off h;
  hk_max : persist_off h <= MAX_BUFFER
}.
Definition live_tiles (h : heap) (l : list chunk) : list (Z * chunk) :=
  List.filter (λ p, alive h p.2) (place (data_low h) l).
Definition live_offs (h : heap) (l : list chunk) : list Z := (live_tiles h l).*1.
(** Every reference of a live span or chunk is to a live chunk. *)
Record refs_ok (h : heap) (l : list chunk) : Prop := {
  rf_slots : ∀ j r, 0 <= j < slot_count h → get_slot h j = Some r → sr_state r ≠ SLOT_FREE →
             is_ref (live_offs h l) (sr_head r) ∧ is_ref (live_offs h l) (sr_tail r);
  rf_chunks : ∀ o c, (o, c) ∈ live_tiles h l → is_ref (live_offs h l) (ch_next (c_hdr c))
}.
(** The same chunk, but for its place and links. *)
Definition same_body (c d : chunk) : Prop :=
  c_data d = c_data c ∧ csize d = csize c ∧ ch_used (c_hdr d) = ch_used (c_hdr c)
  ∧ ch_owner (c_hdr d) = ch_owner (c_hdr c) ∧ ch_kind (c_hdr d) = ch_kind (c_hdr c).
(** A chunk and where [F] moves it. *)
Definition moved_to (F : Z → Z) (p q : Z * chunk) : Prop :=
  q.1 = F p.1 ∧ same_body p.2 q.2 ∧ ch_next (c_hdr q.2) = star F (ch_next (c_hdr p.2)).

Lemma place_mark_fst live lo off pos b l : (place lo (mark live off pos b l)).*1 = (place lo l).*1.
Proof. revert lo off pos b. induction l as [|c l IH]; intros; [done|]. cbn. by rewrite IH. Qed.
Lemma live_tiles_elem h l o c : (o, c) ∈ live_tiles h l ↔ (o, c) ∈ place (data_low h) l ∧ alive h c = true.
Proof. unfold live_tiles. rewrite !list_elem_of_In, filter_In. done. Qed.
Lemma live_offs_incl h l : live_offs h l ⊆ (place (data_low h) l).*1.
Proof.
  intros o ([o' c] & -> & Hin)%list_elem_of_fmap. apply live_tiles_elem in Hin as [Hin _]. by apply (list_elem_of_fmap_2 fst) in Hin.
Qed.

(** Each marked chunk with what it was before. *)
Lemma mark_elem live lo pos b l c' :
  c' ∈ mark live lo pos b l →
  ∃ o c, (o, c) ∈ place lo l ∧ ch_next (c_hdr c') = ch_next (c_hdr c) ∧ (ch_fwd (c_hdr c') ≠ NONE32 → live c = true).
Proof.
  revert lo pos b. induction l as [|c l IH]; intros lo pos b; cbn [mark]; [by intros ?%elem_of_nil|].
  intros [->|Hin]%elem_of_cons.
  - exists lo, c. split; [left|]. split; [done|]. cbn. by destruct (live c).
  - destruct (IH _ _ _ Hin) as (o & d & Hp & Hs). exists o, d. split; [by right|done].
Qed.

Lemma planned_moved F live : ∀ l lo pos b,
  Forall chunk_ok l → pos + live_sizes live l < NONE32 →
  (∀ o c, (o, c) ∈ place lo (mark live lo pos b l) → ch_fwd (c_hdr c) = F o) →
  Forall2 (moved_to F) (List.filter (λ p, live p.2) (place lo l))
    (place pos (List.filter fwd_live (fix_next F <$> mark live lo pos b l))).
Proof.
  induction l as [|c l IH]; intros lo pos b Hok Hp HF; [constructor|].
  apply Forall_cons in Hok as [Hc Hok]. pose proof (live_sizes_range live l Hok). pose proof (chunk_ok_pos c Hc).
  unfold live_sizes in *. rewrite zsum_cons in Hp. cbn [mark place fmap list_fmap List.filter snd].
  assert (HF' : ∀ o d, (o, d) ∈ place (lo + csize c) (mark live (lo + csize c) (pos + (if live c then csize c else 0)) lo l) → ch_fwd (c_hdr d) = F o).
  { intros o d Hin. apply HF. by right. }
  pose proof (HF lo (plan_chunk (live c) pos b c) ltac:(left)) as Hlo. cbn in Hlo.
  destruct (live c).
  - assert (pos ≠ NONE32) as Hne by lia. apply Z.eqb_neq in Hne.
    assert (fix_next F (plan_chunk true pos b c) = on_hdr (set_next (star F (ch_next (c_hdr c)))) (plan_chunk true pos b c)) as E.
    { unfold fix_next. cbn [plan_chunk on_hdr c_hdr set_plan ch_fwd]. by rewrite Hne. }
    rewrite E. unfold fwd_live at 1. cbn [plan_chunk on_hdr c_hdr set_plan set_next ch_fwd]. rewrite Hne. cbn [negb place].
    constructor; [split; [exact Hlo|split; [by repeat split|reflexivity]]|]. apply IH; [done|lia|done].
  - assert (fix_next F (plan_chunk false pos b c) = plan_chunk false pos b c) as -> by done.
    change (fwd_live (plan_chunk false pos b c)) with false. rewrite Z.add_0_r in *. apply IH; [done|lia|done].
Qed.

(** Chunks keep their liveness when slots keep their states. *)
Lemma alive_ext h h' c d :
  slots_ok h → slots_ok h' → chunk_ok c → chunk_ok d → same_body c d → slot_count h' = slot_count h →
  (∀ j r, 0 <= j < slot_count h → get_slot h j = Some r → ∃ r', get_slot h' j = Some r' ∧ sr_state r' = sr_state r) →
  alive h' d = alive h c.
Proof.
  intros Hs Hs' Hc Hd (_ & _ & _ & Eo & Ek) En Hj. apply eq_true_iff_eq. rewrite !alive_true by done. rewrite Eo, Ek, En.
  destruct Hc as [_ H0]. split; intros (H1 & H2 & r & Er & Hr); split_and!; try done.
  - destruct (Hs (ch_owner (c_hdr c))) as [r0 E0]; [lia|]. destruct (Hj (ch_owner (c_hdr c)) r0 ltac:(lia) E0) as (r' & Er' & Hst).
    exists r0. split; [done|]. congruence.
  - destruct (Hj (ch_owner (c_hdr c)) r ltac:(lia) Er) as (r' & Er' & Hst). exists r'. split; [done|]. congruence.
Qed.

Lemma get_slot_with_chunks h cm j : get_slot (with_chunks h cm) j = get_slot h j.
Proof. done. Qed.
Lemma chunk_live_with_chunks h cm hdr : chunk_live (with_chunks h cm) hdr = chunk_live h hdr.
Proof. done. Qed.

(** What compaction leaves: [l'] in place of [l], every live chunk moved as [F] says. *)
Record compacted (h : heap) (l : list chunk) (h' : heap) (l' : list chunk) (F : Z → Z) : Prop := {
  cp_ok : heap_ok h' l';
  cp_count : slot_count h' = slot_count h;
  cp_persist : persist_off h' = persist_off h;
  cp_low : data_low h' = persist_off h - live_sizes (alive h) l;
  cp_moved : Forall2 (moved_to F) (live_tiles h l) (place (data_low h') l');
  cp_slots : ∀ j, 0 <= j < slot_count h → get_slot h' j = fix_rec F <$> get_slot h j;
  cp_alive : ∀ c, c ∈ l' → alive h' c = true
}.

Lemma moved_alive h h' F l l' :
  heap_ok h l → slots_ok h' → Forall chunk_ok l' → slot_count h' = slot_count h →
  (∀ j, 0 <= j < slot_count h → get_slot h' j = fix_rec F <$> get_slot h j) →
  Forall2 (moved_to F) (live_tiles h l) (place (data_low h') l') → ∀ c, c ∈ l' → alive h' c = true.
Proof.
  intros Hh Hs' Hok En Hj HF c Hc. rewrite <- (place_snd (data_low h') l') in Hc.
  apply list_elem_of_fmap in Hc as ([o' c'] & -> & Hin). cbn.
  assert (∃ p, p ∈ live_tiles h l ∧ moved_to F p (o', c')) as ([o d] & Hp & _ & Hb & _).
  { clear - HF Hin. induction HF as [|p q ps qs Hpq _ IH]; [by apply elem_of_nil in Hin|].
    apply elem_of_cons in Hin as [<-|Hin]; [exists p; split; [left|done]|].
    destruct (IH Hin) as (r & ? & ?). exists r. split; [by right|done]. }
  apply live_tiles_elem in Hp as [Hpl Ha]. cbn in Hb.
  destruct (place_range _ _ _ _ (hk_chunks _ _ Hh) Hpl) as (_ & _ & Hdl).
  destruct (place_range _ _ _ _ Hok Hin) as (_ & _ & Hcl).
  pose proof (hk_chunks _ _ Hh) as Hokl. rewrite Forall_forall in Hok, Hokl.
  rewrite <- Ha. apply alive_ext; auto; [apply Hh|].
  intros j r Hr Er. rewrite Hj, Er by done. eexists. split; [done|]. unfold fix_rec. by destruct (bool_decide _).
Qed.

(** The run of the three passes. *)
Lemma compact_run h l :
  heap_ok h l → refs_ok h l →
  let pos := persist_off h - live_sizes (alive h) l in
  ∃ h' F, compact h = Some (with_data_low h' pos) ∧ slot_count h' = slot_count h ∧ persist_off h' = persist_off h
  ∧ (∀ j, 0 <= j < slot_count h → get_slot h' j = fix_rec F <$> get_slot h j)
  ∧ Forall2 (moved_to F) (live_tiles h l) (place pos (List.filter fwd_live (planned F (alive h) (data_low h) pos l)))
  ∧ tiled (chunks h') pos (List.filter fwd_live (planned F (alive h) (data_low h) pos l)).
Proof.
  intros [Hn Hs Hlow Ht Hok Hsum Hmax] [Hrs Hrc].
  set (lo := data_low h) in *. set (live := alive h).
  assert (0 <= lo) as H0 by (unfold table_end, slot_off, span_rec_size in *; lia).
  assert (Hl : ∀ c, c ∈ l → chunk_live h (c_hdr c) = Some (live c)).
  { intros c Hc. apply chunk_live_alive; [done|]. rewrite Forall_forall in Hok. by apply Hok. }
  pose proof (walk_enough h lo l Hok H0 ltac:(lia)) as Hfuel. pose proof (live_sizes_range live l Hok) as Hlive.
  intros pos.
  destruct (plan_mark_spec live (walk_fuel h) h lo pos NONE32 l Ht Hok Hsum Hfuel Hl) as (cm1 & E1 & Ht1 & _).
  set (l1 := mark live lo pos NONE32 l) in *.
  set (F := λ o, from_option (λ c, ch_fwd (c_hdr c)) NONE32 (cm1 !! o)).
  set (h1 := with_chunks h cm1) in *.
  assert (Forall chunk_ok l1) as Hok1 by (by apply mark_ok).
  assert (csizes l1 = csizes l) as Hsz1 by apply mark_sizes.
  assert (Hos : live_offs h l ⊆ (place lo l1).*1) by (unfold l1; rewrite place_mark_fst; apply live_offs_incl).
  assert (HF : ∀ cm, tiled cm lo l1 → fwd_at cm F (live_offs h l)).
  { intros cm Hcm o Ho. apply Hos in Ho. apply list_elem_of_fmap in Ho as ([o' c] & -> & Hin). exists c. cbn.
    split; [by eapply tiled_elem|]. unfold F. by rewrite (tiled_elem _ _ _ _ _ Ht1 Hin). }
  destruct (fix_slots_spec F (live_offs h l) lo l1 (Z.to_nat (slot_count h)) 0 h1) as (h2 & E2 & (F1 & F2 & F3) & Ht2 & Hg2);
    [exact Hs|lia|cbn; lia|done|cbn; lia|done|done|done|by apply HF|exact Hrs|].
  cbn [slot_count data_low persist_off h1 with_chunks] in F1, F2, F3.
  destruct (fix_chunks_spec F (live_offs h l) (walk_fuel h2) h2 lo l1) as (cm3 & E3 & Ht3 & _);
    [done|done|lia|unfold walk_fuel, l1; rewrite F3, mark_length; exact Hfuel|by apply HF| |].
  { intros c' Hc' Hfw. destruct (mark_elem _ _ _ _ _ _ Hc') as (o & c & Hp & -> & Hlv).
    apply (Hrc o), live_tiles_elem. split; [done|by apply Hlv]. }
  destruct (compact_move_spec F live lo pos l (walk_fuel (with_chunks h2 cm3)) (with_chunks h2 cm3) []) as (h4 & E4 & (G1 & G2 & G3) & Hg4 & Ht4);
    [done|done|unfold walk_fuel; cbn; rewrite F3; exact Hfuel|exact Ht3|apply tiled_nil|lia|cbn; rewrite F3; unfold pos; lia|cbn; lia
    |unfold table_end in *; cbn; by rewrite F1|lia|cbn; lia|].
  rewrite app_nil_r in Ht4. cbn [slot_count data_low persist_off with_chunks] in G1, G2, G3, Hg4.
  exists h4, F. split_and!; [|lia|lia| | |exact Ht4].
  - unfold compact, compact_plan. fold lo. rewrite (plan_live_spec h live _ lo 0 l) by done. cbn [mbind option_bind].
    rewrite Z.add_0_l. fold pos. rewrite E1. cbn [mbind option_bind]. unfold compact_fix. change (slot_count h1) with (slot_count h).
    rewrite E2. cbn [mbind option_bind]. rewrite F2. fold lo. change (data_low h1) with lo. rewrite E3. cbn [mbind option_bind].
    by rewrite E4.
  - intros j Hj. rewrite Hg4 by lia. change (get_slot (with_chunks h2 cm3) j) with (get_slot h2 j).
    by rewrite Hg2, bool_decide_true by lia.
  - apply planned_moved; [done|unfold pos, NONE32, MAX_BUFFER in *; fold live; lia|].
    intros o c Hin. unfold F. by rewrite (tiled_elem _ _ _ _ _ Ht1 Hin).
Qed.

Lemma live_tiles_sizes h l : zsum (λ p, csize p.2) (live_tiles h l) = live_sizes (alive h) l.
Proof.
  unfold live_tiles, live_sizes. generalize (data_low h). induction l as [|c l IH]; intros lo; [done|].
  cbn [place List.filter snd]. rewrite zsum_cons. destruct (alive h c); [rewrite zsum_cons|]; rewrite IH; cbn; lia.
Qed.
Lemma moved_sizes F xs ys : Forall2 (moved_to F) xs ys → zsum (λ p, csize p.2) ys = zsum (λ p, csize p.2) xs.
Proof. induction 1 as [|p q xs ys (_ & (_ & E & _) & _) _ IH]; [done|]. rewrite !zsum_cons, IH, E. done. Qed.
Lemma place_sizes lo l : zsum (λ p, csize p.2) (place lo l) = csizes l.
Proof. revert lo. induction l as [|c l IH]; intros lo; [done|]. cbn [place]. by rewrite !zsum_cons, IH. Qed.

Lemma compact_spec h l :
  heap_ok h l → refs_ok h l → ∃ h' l' F, compact h = Some h' ∧ compacted h l h' l' F.
Proof.
  intros Hh Hr. pose proof Hh as [Hn Hs Hlow Ht Hok Hsum Hmax].
  pose proof (compact_run h l Hh Hr) as (h4 & F & E & G1 & G3 & Hg & Hmoved & Ht4).
  set (pos := persist_off h - live_sizes (alive h) l) in *.
  set (l' := List.filter fwd_live (planned F (alive h) (data_low h) pos l)) in *.
  exists (with_data_low h4 pos), l', F. split; [done|].
  pose proof (live_sizes_range (alive h) l Hok) as Hlive.
  assert (Forall chunk_ok l') as Hok'.
  { apply Forall_forall. intros c Hc. apply list_elem_of_In, filter_In in Hc as [Hc _]. apply list_elem_of_In in Hc.
    pose proof (planned_ok F (alive h) (data_low h) pos l Hok) as H. rewrite Forall_forall in H. by apply H. }
  assert (csizes l' = live_sizes (alive h) l) as Hsz by (rewrite <- (place_sizes pos), (moved_sizes _ _ _ Hmoved); apply live_tiles_sizes).
  assert (Hs' : slots_ok (with_data_low h4 pos)).
  { intros j Hj. cbn in Hj. change (is_Some (get_slot h4 j)). rewrite Hg by lia. destruct (Hs j) as [r ->]; [lia|]. by eexists. }
  split; cbn [slot_count persist_off data_low chunks with_data_low]; try done.
  - split; cbn [slot_count persist_off data_low chunks with_data_low]; try done; try lia.
    unfold table_end in *. cbn. rewrite G1. lia.
  - apply (moved_alive h _ F l l'); try done.
Qed.
