(* ===== verification/LeafHeap.v ===== *)
(** * What the record buffer stores

    The abstraction of the record buffer of [LeafMem]: per slot nothing, or the
    list of the items of its span, each with the capacity of its chunk.  [rep] is
    the representation relation: chains of live chunks, one chain per span, and no
    live chunk outside a chain.

    The lemmas give, for every operation on the buffer, its effect on the items:
    allocation succeeds exactly when the live data leaves room, whatever the order
    of earlier allocations and releases. *)
From stdpp Require Import gmap sorting.
From S2P Require Import Prelude LeafKv LeafMem.

(** ** Items *)

Inductive item :=
| IName (s : str) | IAttr (kv : leaf_kv) | IEvent (time : Z) (name : str) (attrs : list leaf_kv) | IStatus (s : str).
Definition item_kind (i : item) : chunk_kind :=
  match i with IName _ => CHUNK_NAME | IAttr _ => CHUNK_ATTR | IEvent _ _ _ => CHUNK_EVENT | IStatus _ => CHUNK_STATUS end.
Definition item_bytes (i : item) : list Z :=
  match i with
  | IName s | IStatus s => code <$> s
  | IAttr kv => pack_kv kv
  | IEvent time name attrs => pack_event time name attrs
  end.
Definition item_ok (i : item) : Prop :=
  match i with
  | IName _ | IStatus _ => True
  | IAttr kv => kv_fits kv
  | IEvent time name attrs => event_fits time name attrs
  end.
(** An item and the size of its chunk, which an overwrite in place keeps. *)
Record cell := mkCell { cl_item : item; cl_cap : Z }.
Definition item_size (i : item) : Z := size (item_bytes i).

(** Chunk [c] belongs to [slot] and holds [x]. *)
Record holds (slot : Z) (c : chunk) (x : cell) : Prop := {
  ho_owner : ch_owner (c_hdr c) = slot;
  ho_kind : ch_kind (c_hdr c) = item_kind (cl_item x);
  ho_cap : csize c = cl_cap x;
  ho_used : ch_used (c_hdr c) = item_size (cl_item x);
  ho_data : ∃ junk, c_data c = item_bytes (cl_item x) ++ junk;
  ho_item : item_ok (cl_item x)
}.

(** ** Chains *)

(** A list segment from [off] to [fin]: its offsets and its cells. *)
Fixpoint seg (cm : gmap Z chunk) (slot off : Z) (os : list Z) (xs : list cell) (fin : Z) : Prop :=
  match os, xs with
  | [], [] => off = fin
  | o :: os', x :: xs' =>
      off = o ∧ o ≠ NONE32 ∧ ∃ c, cm !! o = Some c ∧ holds slot c x ∧ seg cm slot (ch_next (c_hdr c)) os' xs' fin
  | _, _ => False
  end.

Lemma seg_length cm slot off os xs fin : seg cm slot off os xs fin → length os = length xs.
Proof.
  revert off xs. induction os as [|o os IH]; intros off [|x xs]; cbn; try done.
  intros (_ & _ & c & _ & _ & H). f_equal. by eapply IH.
Qed.
Lemma seg_app cm slot off os1 os2 xs1 xs2 fin :
  length os1 = length xs1 →
  seg cm slot off (os1 ++ os2) (xs1 ++ xs2) fin ↔ ∃ m, seg cm slot off os1 xs1 m ∧ seg cm slot m os2 xs2 fin.
Proof.
  revert off xs1. induction os1 as [|o os1 IH]; intros off [|x xs1] Hl; cbn in *; try done.
  { split; [intros H; by exists off|by intros (m & -> & H)]. }
  injection Hl as Hl. split.
  - intros (-> & Hn & c & Ec & Hh & H). apply (IH _ _ Hl) in H as (m & H1 & H2). exists m. split; [|done]. split_and!; eauto.
  - intros (m & (-> & Hn & c & Ec & Hh & H1) & H2). split_and!; [done|done|]. exists c. split_and!; [done|done|].
    apply (IH _ _ Hl). eauto.
Qed.
Lemma seg_frame cm cm' slot off os xs fin :
  (∀ o, o ∈ os → cm' !! o = cm !! o) → seg cm slot off os xs fin → seg cm' slot off os xs fin.
Proof.
  revert off xs. induction os as [|o os IH]; intros off [|x xs] Hf; cbn; try done.
  intros (-> & Hn & c & Ec & Hh & H). split_and!; [done|done|]. exists c. rewrite Hf by left. split_and!; [done|done|].
  apply IH; [|done]. intros; apply Hf. by right.
Qed.
Lemma seg_elem cm slot off os xs fin o :
  seg cm slot off os xs fin → o ∈ os → o ≠ NONE32 ∧ ∃ c x, cm !! o = Some c ∧ x ∈ xs ∧ holds slot c x.
Proof.
  revert off xs. induction os as [|o' os IH]; intros off [|x xs]; cbn; [by intros _ ?%elem_of_nil|done|done|].
  intros (-> & Hn & c & Ec & Hh & H) [->|Ho]%elem_of_cons; [split; [done|]; exists c, x; split_and!; [done|left|done]|].
  destruct (IH _ _ H Ho) as (Hn' & d & y & Ed & Hy & Hd). split; [done|]. exists d, y. split_and!; [done|by right|done].
Qed.
(** The last chunk of a non-empty segment says where it ends. *)
Lemma seg_snoc cm slot off os xs fin o x :
  seg cm slot off (os ++ [o]) (xs ++ [x]) fin
  ↔ seg cm slot off os xs o ∧ o ≠ NONE32 ∧ ∃ c, cm !! o = Some c ∧ holds slot c x ∧ ch_next (c_hdr c) = fin.
Proof.
  split.
  - intros H. pose proof (seg_length _ _ _ _ _ _ H) as Hl. rewrite !length_app in Hl. cbn in Hl.
    apply seg_app in H as (m & H1 & H2); [|lia]. cbn in H2. destruct H2 as (-> & Hn & c & Ec & Hh & Hf).
    split_and!; [done|done|]. eauto.
  - intros (H & Hn & c & Ec & Hh & Hf). apply seg_app; [by eapply seg_length|]. exists o. cbn. split_and!; eauto.
Qed.
(** Redirecting the end. *)
Lemma holds_next slot c x n : holds slot c x → holds slot (on_hdr (set_next n) c) x.
Proof. intros []. by split. Qed.
Lemma seg_retarget cm slot off os xs fin fin' o c :
  NoDup (os ++ [o]) → seg cm slot off (os ++ [o]) xs fin → cm !! o = Some c →
  seg (<[o := on_hdr (set_next fin') c]> cm) slot off (os ++ [o]) xs fin'.
Proof.
  intros Hnd H Ec. pose proof (seg_length _ _ _ _ _ _ H) as Hl. rewrite length_app in Hl. cbn in Hl.
  destruct xs as [|x xs _] using rev_ind; [cbn in Hl; lia|]. apply seg_snoc in H as (H & Hn & c' & Ec' & Hh & _).
  assert (c' = c) as -> by congruence. apply seg_snoc. split_and!; [|done|].
  - eapply seg_frame; [|exact H]. intros o' Ho'. rewrite lookup_insert_ne; [done|].
    apply NoDup_app in Hnd as (_ & Hd & _). intros ->. apply (Hd _ Ho'). by left.
  - exists (on_hdr (set_next fin') c). rewrite lookup_insert_eq. split_and!; [done|by apply holds_next|done].
Qed.

(** ** Updates of a well-formed buffer *)

Definition replace_at (o : Z) (c' : chunk) (lo : Z) (l : list chunk) : list chunk :=
  (λ p, if decide (p.1 = o) then c' else p.2) <$> place lo l.
Lemma place_replace o c' lo l :
  (∀ d, (o, d) ∈ place lo l → csize d = csize c') →
  place lo (replace_at o c' lo l) = (λ p, (p.1, if decide (p.1 = o) then c' else p.2)) <$> place lo l.
Proof.
  revert lo. induction l as [|d l IH]; intros lo H; [done|]. unfold replace_at in *. cbn [place fmap list_fmap fst snd].
  assert (csize (if decide (lo = o) then c' else d) = csize d) as E.
  { destruct (decide (lo = o)) as [->|]; [|done]. symmetry. apply H. left. }
  rewrite E. f_equal. rewrite IH by (intros e He; apply H; by right). done.
Qed.
(** A chunk rewritten in place. *)
Lemma heap_ok_put h l o c c' :
  heap_ok h l → (o, c) ∈ place (data_low h) l → csize c' = csize c → chunk_ok c' →
  ∃ l', heap_ok (with_chunks h (<[o := c']> (chunks h))) l'
  ∧ ∀ o2 d, (o2, d) ∈ place (data_low h) l' ↔ (o2 = o ∧ d = c') ∨ (o2 ≠ o ∧ (o2, d) ∈ place (data_low h) l).
Proof.
  intros [Hn Hs Hlow Ht Hok Hsum Hmax] Hin Hsz Hc'. exists (replace_at o c' (data_low h) l).
  assert (Hpl : place (data_low h) (replace_at o c' (data_low h) l)
                = (λ p, (p.1, if decide (p.1 = o) then c' else p.2)) <$> place (data_low h) l).
  { apply place_replace. intros d Hd. by rewrite (place_fun _ _ _ _ _ Hok Hd Hin). }
  assert (Hmem : ∀ o2 d, (o2, d) ∈ place (data_low h) (replace_at o c' (data_low h) l) ↔ (o2 = o ∧ d = c') ∨ (o2 ≠ o ∧ (o2, d) ∈ place (data_low h) l)).
  { intros o2 d. rewrite Hpl, list_elem_of_fmap. split.
    - intros ([o3 e] & [= -> ->] & Hp). cbn. destruct (decide (o3 = o)); [by left|by right].
    - intros [[-> ->]|[Hne Hp]]; [exists (o, c)|exists (o2, d)]; cbn; (split; [|done]); [by rewrite decide_True|by rewrite decide_False]. }
  split; [|done]. split; cbn [slot_count slots data_low persist_off chunks with_chunks]; try done.
  - unfold tiled. apply Forall_forall. intros [o2 d] Hd. apply Hmem in Hd. cbn.
    destruct Hd as [[-> ->]|[Hne Hd]]; [by rewrite lookup_insert_eq|]. rewrite lookup_insert_ne by done. by eapply tiled_elem.
  - apply Forall_forall. intros d Hd. unfold replace_at in Hd. apply list_elem_of_fmap in Hd as ([o2 e] & -> & He). cbn.
    destruct (decide _); [done|]. destruct (place_range _ _ _ _ Hok He) as (_ & _ & Hel). rewrite Forall_forall in Hok. by apply Hok.
  - rewrite <- (place_sizes (data_low h)), Hpl, zsum_fmap, <- Hsum, <- (place_sizes (data_low h)). f_equal. apply zsum_ext.
    intros [o2 e] He. cbn. destruct (decide (o2 = o)) as [->|]; [|done]. by rewrite (place_fun _ _ _ _ _ Hok He Hin).
Qed.
(** A slot rewritten. *)
Lemma heap_ok_put_slot h l i r :
  heap_ok h l → 0 <= i < slot_count h →
  ∃ h', put_slot h i r = Some h' ∧ heap_ok h' l ∧ same_frame h h'
  ∧ (∀ j, get_slot h' j = if decide (j = i) then Some r else get_slot h j)
  ∧ (∀ o c, (o, c) ∈ place (data_low h) l → chunks h' !! o = chunks h !! o).
Proof.
  intros [Hn Hs Hlow Ht Hok Hsum Hmax] Hi. pose proof (csizes_nonneg l Hok).
  destruct (put_slot_spec h i r) as (h' & E & (F1 & F2 & F3) & Hg & Hc);
    [lia|unfold table_end, slot_off, span_rec_size in *; lia|].
  assert (tiled (chunks h') (data_low h) l) as Ht'.
  { rewrite Hc. apply tiled_clobber; [done|done|]. left. unfold table_end, slot_off, span_rec_size in *. lia. }
  exists h'. split_and!; try done.
  - split; rewrite ?F1, ?F2, ?F3; try done.
    + intros j Hj. rewrite Hg. destruct (decide _); [by eauto|]. apply Hs. lia.
    + unfold table_end in *. by rewrite F1.
  - intros o c Hin. by rewrite (tiled_elem _ _ _ _ _ Ht' Hin), (tiled_elem _ _ _ _ _ Ht Hin).
Qed.

(** ** The representation relation *)

(** Per slot: nothing, or the items of its span in emit order. *)
Abbreviation table := (list (option (list cell))).
Definition cells_size (xs : list cell) : Z := zsum cl_cap xs.
Definition live_bytes (A : table) : Z := zsum (λ a, from_option cells_size 0 a) A.

(** The buffer [h] stores [A]; [l] are its chunks and [os i] the offsets of span
    [i]'s; [extra] are chunks allocated and not yet linked. *)
Record rep_with (h : heap) (A : table) (l : list chunk) (os : nat → list Z) (extra : list Z) : Prop := {
  rw_heap : heap_ok h l;
  rw_count : slot_count h = size A;
  rw_free : ∀ i, A !! i = Some None → ∃ r, get_slot h (Z.of_nat i) = Some r ∧ sr_state r = SLOT_FREE;
  rw_span : ∀ i xs, A !! i = Some (Some xs) →
    ∃ r, get_slot h (Z.of_nat i) = Some r ∧ sr_state r ≠ SLOT_FREE
    ∧ seg (chunks h) (Z.of_nat i) (sr_head r) (os i) xs NONE32 ∧ sr_tail r = default NONE32 (last (os i))
    ∧ NoDup (os i) ∧ ∀ o, o ∈ os i → o ∉ extra ∧ ∃ c, (o, c) ∈ place (data_low h) l;
  rw_tiles : ∀ o c, (o, c) ∈ place (data_low h) l →
    ch_kind (c_hdr c) = CHUNK_DEAD ∨ o ∈ extra ∨ ∃ i xs, A !! i = Some (Some xs) ∧ o ∈ os i
}.
Definition rep (h : heap) (A : table) : Prop := ∃ l os, rep_with h A l os [].

Lemma rw_lookup h A l os e o c : rep_with h A l os e → (o, c) ∈ place (data_low h) l → chunks h !! o = Some c.
Proof. intros H. eapply tiled_elem. apply H. Qed.
Lemma rw_chunk_ok h A l os e o c : rep_with h A l os e → (o, c) ∈ place (data_low h) l → chunk_ok c.
Proof.
  intros H Hin. pose proof (hk_chunks _ _ (rw_heap _ _ _ _ _ H)) as Hok. destruct (place_range _ _ _ _ Hok Hin) as (_ & _ & Hc).
  rewrite Forall_forall in Hok. by apply Hok.
Qed.
Lemma rw_range h A l os e o c : rep_with h A l os e → (o, c) ∈ place (data_low h) l → data_low h <= o < persist_off h ∧ o ≠ NONE32.
Proof.
  intros H Hin. destruct (rw_heap _ _ _ _ _ H) as [_ _ _ _ Hok Hsum Hmax]. pose proof (chunk_ok_pos _ (rw_chunk_ok _ _ _ _ _ _ _ H Hin)).
  destruct (place_range _ _ _ _ Hok Hin) as (H1 & H2 & _). unfold NONE32, MAX_BUFFER in *. lia.
Qed.
(** A span's chunk: in its place, and holding an item of the span. *)
Lemma rw_chain_elem h A l os e i xs o :
  rep_with h A l os e → A !! i = Some (Some xs) → o ∈ os i →
  ∃ c x, (o, c) ∈ place (data_low h) l ∧ chunks h !! o = Some c ∧ x ∈ xs ∧ holds (Z.of_nat i) c x.
Proof.
  intros H Ei Ho. destruct (rw_span _ _ _ _ _ H i xs Ei) as (r & _ & _ & Hs & _ & _ & Hin).
  destruct (Hin o Ho) as (_ & c & Hc). pose proof (rw_lookup _ _ _ _ _ _ _ H Hc) as Ec.
  destruct (seg_elem _ _ _ _ _ _ _ Hs Ho) as (_ & c' & x & Ec' & Hx & Hh). assert (c' = c) as -> by congruence. eauto 10.
Qed.
Lemma rw_disjoint h A l os e i j xs ys o :
  rep_with h A l os e → A !! i = Some (Some xs) → A !! j = Some (Some ys) → o ∈ os i → o ∈ os j → i = j.
Proof.
  intros H Ei Ej Hi Hj. destruct (rw_chain_elem _ _ _ _ _ _ _ _ H Ei Hi) as (c & x & _ & Ec & _ & [Ho _ _ _ _ _]).
  destruct (rw_chain_elem _ _ _ _ _ _ _ _ H Ej Hj) as (d & y & _ & Ed & _ & [Ho' _ _ _ _ _]). assert (c = d) by congruence. subst. lia.
Qed.
Lemma item_kind_alive i : item_kind i ≠ CHUNK_DEAD.
Proof. by destruct i. Qed.

(** The unlinked chunks, if any, are not live: their slots have been released. *)
Definition dead_extra (h : heap) (l : list chunk) (e : list Z) : Prop :=
  ∀ o c, (o, c) ∈ place (data_low h) l → o ∈ e → alive h c = false.
Lemma dead_extra_nil h l : dead_extra h l [].
Proof. by intros o c _ ?%elem_of_nil. Qed.
#[local] Hint Resolve dead_extra_nil : core.

Lemma rw_alive h A l os e o c :
  rep_with h A l os e → dead_extra h l e → (o, c) ∈ place (data_low h) l →
  alive h c = true ↔ ∃ i xs, A !! i = Some (Some xs) ∧ o ∈ os i.
Proof.
  intros H He Hin. pose proof (rw_heap _ _ _ _ _ H) as Hh. split.
  - intros Ha. destruct (rw_tiles _ _ _ _ _ H _ _ Hin) as [Hd|[Hn|Ht]]; [|rewrite (He _ _ Hin Hn) in Ha; done|done].
    apply alive_true in Ha as [? _]; [done|apply Hh|by eapply rw_chunk_ok].
  - rewrite alive_true by (apply Hh || by eapply rw_chunk_ok). intros (i & xs & Ei & Ho). destruct (rw_chain_elem _ _ _ _ _ _ _ _ H Ei Ho) as (c' & x & _ & Ec & _ & [Hw Hk _ _ _ _]).
    rewrite (rw_lookup _ _ _ _ _ _ _ H Hin) in Ec. injection Ec as <-. rewrite Hw, Hk. split_and!; [apply item_kind_alive| |].
    + rewrite (rw_count _ _ _ _ _ H). unfold size. apply lookup_lt_Some in Ei. lia.
    + destruct (rw_span _ _ _ _ _ H i xs Ei) as (r & Er & Hr & _). eauto.
Qed.

(** All chains, one after the other. *)
Fixpoint chains (os : nat → list Z) (k : nat) (A : table) : list Z :=
  match A with [] => [] | a :: A' => (match a with Some _ => os k | None => [] end) ++ chains os (S k) A' end.
Lemma elem_of_chains os k A o : o ∈ chains os k A ↔ ∃ i xs, A !! i = Some (Some xs) ∧ o ∈ os (k + i)%nat.
Proof.
  revert k. induction A as [|a A IH]; intros k; cbn [chains].
  { split; [by intros ?%elem_of_nil|]. by intros (i & xs & ? & _). }
  rewrite elem_of_app, IH. split.
  - intros [H|(i & xs & Ei & Ho)].
    + destruct a as [xs|]; [|by apply elem_of_nil in H]. exists 0%nat, xs. by rewrite Nat.add_0_r.
    + exists (S i), xs. by rewrite Nat.add_succ_r.
  - intros ([|i] & xs & Ei & Ho); cbn in Ei.
    + injection Ei as ->. left. by rewrite Nat.add_0_r in Ho.
    + right. exists i, xs. by rewrite Nat.add_succ_r in Ho.
Qed.
Lemma chains_NoDup os k A :
  (∀ i xs, A !! i = Some (Some xs) → NoDup (os (k + i)%nat)) →
  (∀ i j xs ys o, A !! i = Some (Some xs) → A !! j = Some (Some ys) → o ∈ os (k + i)%nat → o ∈ os (k + j)%nat → i = j) →
  NoDup (chains os k A).
Proof.
  revert k. induction A as [|a A IH]; intros k Hn Hd; cbn [chains]; [constructor|].
  apply NoDup_app. split_and!.
  - destruct a as [xs|]; [|constructor]. specialize (Hn 0%nat xs eq_refl). by rewrite Nat.add_0_r in Hn.
  - intros o Ho Hc. destruct a as [xs|]; [|by apply elem_of_nil in Ho]. apply elem_of_chains in Hc as (i & ys & Ei & Hi).
    specialize (Hd 0%nat (S i) xs ys o eq_refl Ei). rewrite Nat.add_0_r, Nat.add_succ_r in Hd. by specialize (Hd Ho Hi).
  - apply IH.
    + intros i xs Ei. specialize (Hn (S i) xs Ei). by rewrite Nat.add_succ_r in Hn.
    + intros i j xs ys o Ei Ej. specialize (Hd (S i) (S j) xs ys o Ei Ej). rewrite !Nat.add_succ_r in Hd.
      intros H1 H2. by injection (Hd H1 H2).
Qed.
Lemma chains_sum f os k A :
  (∀ i xs, A !! i = Some (Some xs) → zsum f (os (k + i)%nat) = cells_size xs) → zsum f (chains os k A) = live_bytes A.
Proof.
  revert k. induction A as [|a A IH]; intros k H; [done|]. cbn [chains]. unfold live_bytes. rewrite zsum_app, zsum_cons.
  fold (live_bytes A). rewrite IH.
  - destruct a as [xs|]; [|done]. specialize (H 0%nat xs eq_refl). rewrite Nat.add_0_r in H. rewrite H. done.
  - intros i xs Ei. specialize (H (S i) xs Ei). by rewrite Nat.add_succ_r in H.
Qed.
Lemma seg_sizes cm slot off os xs fin :
  seg cm slot off os xs fin → zsum (λ o, from_option csize 0 (cm !! o)) os = cells_size xs.
Proof.
  revert off xs. induction os as [|o os IH]; intros off [|x xs]; cbn [seg]; try done.
  intros (_ & _ & c & Ec & Hh & H). unfold cells_size in *. rewrite !zsum_cons, (IH _ _ H), Ec. cbn. by rewrite (ho_cap _ _ _ Hh).
Qed.

(** The live chunks are the chains, so their bytes are the items' capacities. *)
Lemma rw_live h A l os e : rep_with h A l os e → dead_extra h l e → live_sizes (alive h) l = live_bytes A.
Proof.
  intros H He. set (f := λ o, from_option csize 0 (chunks h !! o)).
  assert (live_offs h l ≡ₚ chains os 0 A) as Hp.
  { apply NoDup_Permutation.
    - unfold live_offs, live_tiles. pose proof (place_NoDup (data_low h) l ltac:(apply H)) as Hnd. revert Hnd.
      generalize (place (data_low h) l). clear. induction l as [|p l IH]; cbn; [constructor|]. intros [Hp Hl]%NoDup_cons.
      destruct (alive h p.2); [|by apply IH]. cbn. apply NoDup_cons. split; [|by apply IH].
      intros (q & Eq & Hq)%list_elem_of_fmap. apply Hp. rewrite Eq. apply list_elem_of_fmap_2.
      apply list_elem_of_In, filter_In in Hq as [Hq _]. by apply list_elem_of_In.
    - apply chains_NoDup; intros; cbn [Nat.add] in *; [|by eapply rw_disjoint]. by edestruct (rw_span _ _ _ _ _ H) as (r & _ & _ & _ & _ & Hn & _).
    - intros o. rewrite elem_of_chains. unfold live_offs. rewrite list_elem_of_fmap. split.
      + intros ([o' c] & -> & Hin). apply live_tiles_elem in Hin as [Hin Ha]. by apply (rw_alive _ _ _ _ _ _ _ H He Hin).
      + intros (i & xs & Ei & Ho). destruct (rw_chain_elem _ _ _ _ _ _ _ _ H Ei Ho) as (c & x & Hin & _).
        exists (o, c). split; [done|]. apply live_tiles_elem. split; [done|]. apply (rw_alive _ _ _ _ _ _ _ H He Hin). eauto. }
  rewrite <- (chains_sum f os 0 A), <- (zsum_perm f _ _ Hp).
  - unfold live_offs. rewrite zsum_fmap, <- live_tiles_sizes. apply zsum_ext. intros [o c] Hin. apply live_tiles_elem in Hin as [Hin _].
    unfold f. cbn. by rewrite (rw_lookup _ _ _ _ _ _ _ H Hin).
  - intros i xs Ei. destruct (rw_span _ _ _ _ _ H i xs Ei) as (r & _ & _ & Hs & _). by eapply seg_sizes.
Qed.

(** ** Compaction *)

Definition strip (r : span_rec) : span_rec := set_links NONE32 NONE32 r.
(** The slots agree but for their chunk lists. *)
Definition slots_same (h h' : heap) : Prop :=
  slot_count h' = slot_count h ∧ persist_off h' = persist_off h
  ∧ ∀ j, 0 <= j < slot_count h → strip <$> get_slot h' j = strip <$> get_slot h j.
#[export] Instance slots_same_pre : PreOrder slots_same.
Proof.
  split; [by repeat split|]. intros h1 h2 h3 (A1 & A2 & A3) (B1 & B2 & B3). split_and!; [congruence|congruence|].
  intros j Hj. rewrite B3 by lia. by apply A3.
Qed.
Lemma slots_same_get h h' j r :
  slots_same h h' → 0 <= j < slot_count h → get_slot h j = Some r → ∃ r', get_slot h' j = Some r' ∧ strip r' = strip r.
Proof.
  intros (_ & _ & H) Hj E. specialize (H j Hj). rewrite E in H. cbn in H. apply fmap_Some in H as (r' & E' & Hr). eauto.
Qed.
Lemma strip_state r r' : strip r' = strip r → sr_state r' = sr_state r.
Proof. intros E. by apply (f_equal sr_state) in E. Qed.

Lemma seg_head_ref cm slot off os xs : seg cm slot off os xs NONE32 → is_ref os off.
Proof. destruct os, xs; cbn; try done; [by left|]. intros (-> & _). right. left. Qed.
Lemma seg_next_ref cm slot off os xs o c :
  seg cm slot off os xs NONE32 → o ∈ os → cm !! o = Some c → is_ref os (ch_next (c_hdr c)).
Proof.
  revert off xs. induction os as [|o' os IH]; intros off [|x xs]; cbn [seg]; try done; [by intros _ ?%elem_of_nil|].
  intros (-> & _ & d & Ed & _ & H) [->|Ho]%elem_of_cons E.
  - assert (d = c) as -> by congruence. destruct (seg_head_ref _ _ _ _ _ H); [by left|right; by right].
  - destruct (IH _ _ H Ho E); [by left|right; by right].
Qed.
Lemma is_ref_mono os os' o : os ⊆ os' → is_ref os o → is_ref os' o.
Proof. intros H [|]; [by left|right; by apply H]. Qed.
Lemma last_elem {A} (l : list A) x : last l = Some x → x ∈ l.
Proof. rewrite last_Some. intros [k ->]. apply elem_of_app. right. left. Qed.

Lemma rw_live_offs h A l os e i xs :
  rep_with h A l os e → dead_extra h l e → A !! i = Some (Some xs) → os i ⊆ live_offs h l.
Proof.
  intros H He Ei o Ho. destruct (rw_chain_elem _ _ _ _ _ _ _ _ H Ei Ho) as (c & x & Hin & _).
  unfold live_offs. apply list_elem_of_fmap. exists (o, c). split; [done|]. apply live_tiles_elem. split; [done|].
  apply (rw_alive _ _ _ _ _ _ _ H He Hin). eauto.
Qed.
Lemma rw_slot h A l os e j r :
  rep_with h A l os e → 0 <= j < slot_count h → get_slot h j = Some r → sr_state r ≠ SLOT_FREE →
  ∃ i xs, j = Z.of_nat i ∧ A !! i = Some (Some xs).
Proof.
  intros H Hj Er Hr. rewrite (rw_count _ _ _ _ _ H) in Hj. unfold size in Hj.
  destruct (lookup_lt_is_Some_2 A (Z.to_nat j)) as [a Ea]; [lia|]. destruct a as [xs|]; [exists (Z.to_nat j), xs; split; [lia|done]|].
  destruct (rw_free _ _ _ _ _ H _ Ea) as (r' & Er' & Hr'). rewrite Z2Nat.id in Er' by lia. congruence.
Qed.
Lemma rw_refs h A l os e : rep_with h A l os e → dead_extra h l e → refs_ok h l.
Proof.
  intros H He. split.
  - intros j r Hj Er Hr. destruct (rw_slot _ _ _ _ _ _ _ H Hj Er Hr) as (i & xs & -> & Ei).
    destruct (rw_span _ _ _ _ _ H i xs Ei) as (r' & Er' & _ & Hs & Ht & _). assert (r' = r) as -> by congruence.
    pose proof (rw_live_offs _ _ _ _ _ _ _ H He Ei) as Hi. split; (eapply is_ref_mono; [exact Hi|]); [by eapply seg_head_ref|].
    rewrite Ht. destruct (last (os i)) eqn:E; [right; by apply last_elem|by left].
  - intros o c Hin. apply live_tiles_elem in Hin as [Hin Ha]. apply (rw_alive _ _ _ _ _ _ _ H He Hin) in Ha as (i & xs & Ei & Ho).
    destruct (rw_span _ _ _ _ _ H i xs Ei) as (r & _ & _ & Hs & _). eapply is_ref_mono; [by eapply rw_live_offs|].
    eapply seg_next_ref; [done|done|]. by eapply rw_lookup.
Qed.

(** A chain whose chunks were all moved by [F]. *)
Lemma seg_moved cm cm' F slot off os xs :
  (∀ o c, o ∈ os → cm !! o = Some c → F o ≠ NONE32 ∧ ∃ c', cm' !! F o = Some c' ∧ same_body c c' ∧ ch_next (c_hdr c') = star F (ch_next (c_hdr c))) →
  seg cm slot off os xs NONE32 → seg cm' slot (star F off) (F <$> os) xs NONE32.
Proof.
  revert off xs. induction os as [|o os IH]; intros off [|x xs] HF; cbn [seg fmap list_fmap]; try done.
  - intros ->. done.
  - intros (-> & Hn & c & Ec & [Ho Hk Hc Hu Hd Hi] & H). destruct (HF o c ltac:(left) Ec) as (HFn & c' & Ec' & (D1 & D2 & D3 & D4 & D5) & Hnx).
    unfold star at 1. apply Z.eqb_neq in Hn. rewrite Hn. split_and!; [done|done|]. exists c'. split_and!; [done| |].
    + split; try congruence; by rewrite ?D1.
    + rewrite Hnx. apply IH; [|done]. intros; apply HF; [by right|done].
Qed.
Lemma moved_lookup F xs ys o c : Forall2 (moved_to F) xs ys → (o, c) ∈ xs → ∃ c', (F o, c') ∈ ys ∧ same_body c c' ∧ ch_next (c_hdr c') = star F (ch_next (c_hdr c)).
Proof.
  induction 1 as [|p [o' c'] xs ys (E & Hb & Hn) _ IH]; [by intros ?%elem_of_nil|].
  intros [<-|Hin]%elem_of_cons; [cbn in *; subst; exists c'; split_and!; [left|done|done]|].
  destruct (IH Hin) as (d & ? & ?). exists d. split; [by right|done].
Qed.
Lemma moved_fst F xs ys : Forall2 (moved_to F) xs ys → ys.*1 = F <$> xs.*1.
Proof. induction 1 as [|p q xs ys (E & _) _ IH]; [done|]. cbn. by rewrite IH, E. Qed.
Lemma NoDup_fmap_sub {B C} (F : B → C) os os' : NoDup (F <$> os') → NoDup os → os ⊆ os' → NoDup (F <$> os).
Proof.
  intros Hf Hn Hs. apply NoDup_fmap_2_strong; [|done]. intros x y Hx Hy E.
  apply Hs in Hx, Hy. apply list_elem_of_lookup_1 in Hx as [i Ei], Hy as [j Ej].
  assert (i = j); [|congruence]. eapply (NoDup_lookup _ _ _ (F x)); [exact Hf| |]; rewrite list_lookup_fmap; [by rewrite Ei|by rewrite Ej, E].
Qed.

Lemma rw_compact h A l os e :
  rep_with h A l os e → dead_extra h l e → ∃ h', compact h = Some h' ∧ rep h' A ∧ slots_same h h' ∧ data_low h' = persist_off h - live_bytes A.
Proof.
  intros H He. pose proof (rw_heap _ _ _ _ _ H) as Hh.
  destruct (compact_spec h l Hh (rw_refs _ _ _ _ _ H He)) as (h' & l' & F & E & [Hok Hn Hp Hlow Hm Hg Ha]).
  exists h'. split; [done|]. rewrite (rw_live _ _ _ _ _ H He) in Hlow.
  assert (Hst : slots_same h h').
  { split_and!; [done|done|]. intros j Hj. rewrite Hg by done. destruct (get_slot h j) as [r|]; [|done]. cbn. unfold fix_rec. by destruct (bool_decide _). }
  split; [|done]. exists l', (λ i, F <$> os i). split; [done|by rewrite Hn, (rw_count _ _ _ _ _ H)| | |].
  - intros i Ei. destruct (rw_free _ _ _ _ _ H i Ei) as (r & Er & Hr).
    destruct (slots_same_get h h' (Z.of_nat i) r Hst) as (r' & Er' & Hs); [rewrite (rw_count _ _ _ _ _ H); apply lookup_lt_Some in Ei; unfold size; lia|done|].
    exists r'. split; [done|]. by rewrite (strip_state _ _ Hs).
  - intros i xs Ei. destruct (rw_span _ _ _ _ _ H i xs Ei) as (r & Er & Hr & Hs & Ht & Hnd & Hin).
    pose proof (rw_live_offs _ _ _ _ _ _ _ H He Ei) as Hsub.
    assert (HF : ∀ o, o ∈ os i → ∃ c c', (o, c) ∈ place (data_low h) l ∧ (F o, c') ∈ place (data_low h') l' ∧ same_body c c' ∧ ch_next (c_hdr c') = star F (ch_next (c_hdr c))).
    { intros o Ho. apply Hsub in Ho. apply list_elem_of_fmap in Ho as ([o' c] & -> & Ho).
      destruct (moved_lookup _ _ _ _ _ Hm Ho) as (c' & Hc' & ?). apply live_tiles_elem in Ho as [Ho _]. eauto. }
    assert (Hnn : ∀ o c', (o, c') ∈ place (data_low h') l' → o ≠ NONE32).
    { intros o c' Hc'. destruct (place_range _ _ _ _ (hk_chunks _ _ Hok) Hc') as (_ & R & Rc). pose proof (hk_chunks _ _ Hok) as Hck.
      rewrite Forall_forall in Hck. pose proof (chunk_ok_pos _ (Hck _ Rc)). pose proof (hk_sum _ _ Hok). pose proof (hk_max _ _ Hok).
      unfold NONE32, MAX_BUFFER in *. lia. }
    exists (set_links (star F (sr_head r)) (star F (sr_tail r)) r). split_and!.
    + rewrite Hg, Er by (rewrite (rw_count _ _ _ _ _ H); apply lookup_lt_Some in Ei; unfold size; lia). cbn. unfold fix_rec. by rewrite bool_decide_false.
    + done.
    + cbn. eapply seg_moved; [|exact Hs]. intros o c Ho Ec. destruct (HF o Ho) as (d & c' & Hd & Hc' & Hb & Hx).
      rewrite (rw_lookup _ _ _ _ _ _ _ H Hd) in Ec. injection Ec as ->. split; [by eapply Hnn|]. exists c'. split_and!; [|done|done].
      eapply tiled_elem; [apply Hok|done].
    + cbn. rewrite Ht, fmap_last. destruct (last (os i)) as [o|] eqn:El; [|done]. cbn. unfold star.
      destruct (HF o (last_elem _ _ El)) as (c & _ & Hc & _). destruct (rw_range _ _ _ _ _ _ _ H Hc) as [_ Hne]. apply Z.eqb_neq in Hne. by rewrite Hne.
    + eapply NoDup_fmap_sub; [|exact Hnd|exact Hsub]. unfold live_offs. rewrite <- (moved_fst _ _ _ Hm). apply place_NoDup, Hok.
    + intros o (o' & -> & Ho)%list_elem_of_fmap. split; [apply not_elem_of_nil|]. destruct (HF o' Ho) as (_ & c' & _ & Hc' & _). eauto.
  - intros o c Hin. right. right.
    assert (o ∈ F <$> live_offs h l) as Ho by (unfold live_offs; rewrite <- (moved_fst _ _ _ Hm); by apply (list_elem_of_fmap_2 fst) in Hin).
    apply list_elem_of_fmap in Ho as (o' & -> & Ho). apply list_elem_of_fmap in Ho as ([o2 d] & -> & Ho). apply live_tiles_elem in Ho as [Ho Hal].
    apply (rw_alive _ _ _ _ _ _ _ H He Ho) in Hal as (i & xs & Ei & Hi). exists i, xs. split; [done|]. by apply list_elem_of_fmap_2.
Qed.

Lemma rep_compact h A :
  rep h A → ∃ h', compact h = Some h' ∧ rep h' A ∧ slots_same h h' ∧ data_low h' = persist_off h - live_bytes A.
Proof. intros (l & os & H). by eapply rw_compact. Qed.

(** ** Allocation *)

(** The data and a new chunk of [sz] bytes fit, wherever the chunks lie. *)
Definition room (h : heap) (A : table) (sz : Z) : bool := slot_off (size A) + live_bytes A + sz <=? persist_off h.
(** [o] holds [c], which no span refers to. *)
Definition pending (h : heap) (A : table) (o : Z) (c : chunk) : Prop :=
  ∃ l os, rep_with h A l os [o] ∧ (o, c) ∈ place (data_low h) l.
Definition fresh_chunk (owner : Z) (kind : chunk_kind) (payload : Z) : chunk :=
  mkChunk (mkHdr NONE32 (chunk_hdr_size + payload) payload 0 0 owner kind) (replicate (Z.to_nat payload) (-1)).

Lemma rw_fits h A l os sz : rep_with h A l os [] → fits_below h sz = true → room h A sz = true.
Proof.
  intros H Hf. unfold fits_below, room in *. bool_hyps. apply Z.leb_le. pose proof (rw_heap _ _ _ _ _ H) as [_ _ _ _ Hok Hsum _].
  pose proof (live_sizes_range (alive h) l Hok). rewrite (rw_live _ _ _ _ _ H) in * by done. unfold table_end in Hf. rewrite (rw_count _ _ _ _ _ H) in Hf. lia.
Qed.
Lemma fresh_chunk_ok i kind payload : 0 <= payload → chunk_ok (fresh_chunk (Z.of_nat i) kind payload) ∧ csize (fresh_chunk (Z.of_nat i) kind payload) = 24 + payload.
Proof.
  intros H. split; [|done]. split; cbn; [|lia]. unfold csize, size. cbn. rewrite length_replicate. lia.
Qed.

Lemma rw_push h A l os i kind payload :
  rep_with h A l os [] → 0 <= payload → fits_below h (chunk_hdr_size + payload) = true →
  let off := data_low h - (chunk_hdr_size + payload) in
  let c := fresh_chunk (Z.of_nat i) kind payload in
  ∃ h', store_chunk (with_data_low h off) off c = Some h' ∧ slots_same h h' ∧ data_low h' = off ∧ rep_with h' A (c :: l) os [off].
Proof.
  intros H Hpay Hf off c. unfold fits_below in Hf. bool_hyps. destruct (fresh_chunk_ok i kind payload Hpay) as [Hc Hsz]. fold c in Hc, Hsz.
  pose proof (rw_heap _ _ _ _ _ H) as [Hn Hs Hlow Ht Hok Hsum Hmax]. pose proof (csizes_nonneg l Hok).
  assert (0 <= table_end h) by (unfold table_end, slot_off, span_rec_size; lia).
  destruct (store_chunk_spec (with_data_low h off) off c) as (h' & E & (F1 & F2 & F3) & Hg & Hch);
    [unfold off; lia|rewrite Hsz; unfold off, chunk_hdr_size in *; cbn; lia|unfold table_end, off in *; cbn; lia|done|].
  cbn [slot_count data_low persist_off chunks with_data_low] in *. exists h'. split; [done|].
  assert (Hst : slots_same h h') by (split_and!; [done|done|]; intros j Hj; by rewrite Hg).
  assert (off + csize c = data_low h) as Hoff by (rewrite Hsz; unfold off, chunk_hdr_size; lia).
  assert (Ht' : tiled (chunks h') (data_low h) l) by (eapply store_keeps; [exact Hch|lia|done|lia|lia|done]).
  assert (Hsame : ∀ o d, (o, d) ∈ place (data_low h) l → chunks h' !! o = chunks h !! o).
  { intros o d Hin. by rewrite (tiled_elem _ _ _ _ _ Ht' Hin), (tiled_elem _ _ _ _ _ Ht Hin). }
  split_and!; [done|done|]. split.
  - split; rewrite ?F1, ?F2, ?F3; try done.
    + intros j Hj. rewrite F1 in Hj. destruct (Hs j Hj) as [r Er]. destruct (slots_same_get _ _ _ _ Hst Hj Er) as (r' & -> & _). by eexists.
    + unfold table_end in *. rewrite F1. unfold off. lia.
    + apply tiled_cons. rewrite Hoff. split; [by rewrite Hch, lookup_insert_eq|done].
    + by constructor.
    + rewrite zsum_cons. lia.
  - rewrite F1. apply H.
  - intros j Ej. destruct (rw_free _ _ _ _ _ H j Ej) as (r & Er & Hr). exists r. split; [|done]. rewrite Hg; [done|].
    rewrite (rw_count _ _ _ _ _ H). apply lookup_lt_Some in Ej. unfold size. lia.
  - intros j xs Ej. destruct (rw_span _ _ _ _ _ H j xs Ej) as (r & Er & Hr & Hsg & Htl & Hnd & Hin). exists r. split_and!; try done.
    + rewrite Hg; [done|]. rewrite (rw_count _ _ _ _ _ H). apply lookup_lt_Some in Ej. unfold size. lia.
    + eapply seg_frame; [|exact Hsg]. intros o Ho. destruct (Hin o Ho) as (_ & d & Hd). by eapply Hsame.
    + intros o Ho. destruct (Hin o Ho) as (_ & d & Hd). split.
      * intros ->%list_elem_of_singleton. apply place_range in Hd as (R & _); [|done]. unfold off, chunk_hdr_size in R. lia.
      * exists d. rewrite F2. cbn [place]. rewrite Hoff. by right.
  - rewrite F2. cbn [place]. rewrite Hoff. intros o d [[= -> ->]|Hin]%elem_of_cons; [right; left; by left|].
    destruct (rw_tiles _ _ _ _ _ H o d Hin) as [|[Hx|]]; [by left|by apply elem_of_nil in Hx|by right; right].
Qed.

Lemma rep_alloc h A i kind payload :
  rep h A → 0 <= payload →
  if room h A (chunk_hdr_size + payload)
  then ∃ h' o, alloc_chunk h (Z.of_nat i) kind payload = Some (h', Some o) ∧ slots_same h h'
       ∧ pending h' A o (fresh_chunk (Z.of_nat i) kind payload)
  else ∃ h', alloc_chunk h (Z.of_nat i) kind payload = Some (h', None) ∧ slots_same h h' ∧ rep h' A.
Proof.
  intros HR Hp. set (sz := chunk_hdr_size + payload).
  assert (Hgo : ∃ h1, (if fits_below h sz then Some h else compact h) = Some h1 ∧ rep h1 A ∧ slots_same h h1 ∧ fits_below h1 sz = room h A sz).
  { destruct (fits_below h sz) eqn:Ef.
    - exists h. split_and!; [done|done|done|]. destruct HR as (l & os & H). by rewrite (rw_fits _ _ _ _ _ H Ef).
    - destruct (rep_compact h A HR) as (h1 & E & HR1 & Hst & Hlow). exists h1. split_and!; [done|done|done|].
      destruct HR1 as (l & os & H). destruct Hst as (S1 & _ & _). unfold fits_below, room, table_end. rewrite Hlow, (rw_count _ _ _ _ _ H).
      apply eq_true_iff_eq. rewrite !Z.leb_le. lia. }
  destruct Hgo as (h1 & E1 & (l & os & H) & Hst & Ef). unfold alloc_chunk. fold sz. rewrite E1. cbn [mbind option_bind]. rewrite Ef.
  destruct (room h A sz) eqn:Er.
  - destruct (rw_push h1 A l os i kind payload H Hp) as (h2 & E2 & Hst2 & Hlow2 & H2); [by fold sz; rewrite Ef|]. fold sz in E2, Hlow2, H2.
    unfold fresh_chunk in E2. fold sz in E2. cbn [data_low with_data_low]. rewrite E2. cbn [mbind option_bind]. rewrite Hlow2.
    eexists _, _. split_and!; [done|by etransitivity|]. eexists _, _. split; [exact H2|]. rewrite Hlow2. cbn [place]. left.
  - exists h1. split_and!; [done|done|]. by exists l, os.
Qed.

(** ** Editing one span *)

(** The same chunks at the same places, but for the contents of those at [T]. *)
Record edit (h : heap) (l : list chunk) (h' : heap) (l' : list chunk) (T : list Z) : Prop := {
  ed_ok : heap_ok h' l';
  ed_frame : same_frame h h';
  ed_offs : ∀ o, o ∈ (place (data_low h) l).*1 ↔ o ∈ (place (data_low h) l').*1;
  ed_same : ∀ o c, o ∉ T → (o, c) ∈ place (data_low h) l → (o, c) ∈ place (data_low h) l'
}.
Lemma edit_trans h l h1 l1 h2 l2 T1 T2 : edit h l h1 l1 T1 → edit h1 l1 h2 l2 T2 → edit h l h2 l2 (T1 ++ T2).
Proof.
  intros [O1 F1 P1 S1] [O2 F2 P2 S2]. pose proof F1 as (_ & E & _). rewrite E in *. split; [done|by etransitivity| |].
  - intros o. by rewrite P1.
  - intros o c [Ho1 Ho2]%not_elem_of_app Hin. auto.
Qed.
Lemma edit_refl h l : heap_ok h l → edit h l h l [].
Proof. intros H. by split. Qed.
Lemma elem_place_fst lo l o : o ∈ (place lo l).*1 ↔ ∃ c, (o, c) ∈ place lo l.
Proof. rewrite list_elem_of_fmap. split; [intros ([o' c] & -> & H); eauto|intros (c & H); by exists (o, c)]. Qed.

Lemma edit_chunk h l o c c' :
  heap_ok h l → (o, c) ∈ place (data_low h) l → csize c' = csize c → chunk_ok c' →
  ∃ l', edit h l (with_chunks h (<[o := c']> (chunks h))) l' [o] ∧ (o, c') ∈ place (data_low h) l'.
Proof.
  intros H Hin Hs Hc. destruct (heap_ok_put h l o c c' H Hin Hs Hc) as (l' & H' & Hm). exists l'. split; [|apply Hm; by left].
  split; [done|done| |].
  - intros o2. rewrite !elem_place_fst. split.
    + intros (d & Hd). destruct (decide (o2 = o)) as [->|]; [exists c'; apply Hm; by left|exists d; apply Hm; by right].
    + intros (d & [[-> ->]|[_ Hd]]%Hm); eauto.
  - intros o2 d Ho Hd. apply Hm. right. split; [|done]. intros ->. apply Ho. by left.
Qed.
Lemma edit_put_chunk h l o c hdr :
  heap_ok h l → (o, c) ∈ place (data_low h) l → ch_size hdr = csize c → 0 <= ch_owner hdr →
  ∃ h' l', put_chunk h o hdr = Some h' ∧ edit h l h' l' [o] ∧ (o, mkChunk hdr (c_data c)) ∈ place (data_low h) l'
  ∧ chunks h' = <[o := mkChunk hdr (c_data c)]> (chunks h) ∧ ∀ j, get_slot h' j = get_slot h j.
Proof.
  intros H Hin Hs Ho. pose proof (tiled_elem _ _ _ _ _ (hk_tiles _ _ H) Hin) as Ec.
  destruct (edit_chunk h l o c (mkChunk hdr (c_data c)) H Hin Hs) as (l' & He & Hi).
  { destruct (place_range _ _ _ _ (hk_chunks _ _ H) Hin) as (_ & _ & Hc). pose proof (hk_chunks _ _ H) as Hok. rewrite Forall_forall in Hok.
    destruct (Hok _ Hc) as [Hz _]. split; [|done]. unfold csize in *. cbn. by rewrite Hs. }
  eexists _, l'. split; [by apply put_chunk_spec|]. done.
Qed.
Lemma edit_put_slot h l i r :
  heap_ok h l → 0 <= i < slot_count h →
  ∃ h', put_slot h i r = Some h' ∧ edit h l h' l [] ∧ (∀ j, get_slot h' j = if decide (j = i) then Some r else get_slot h j)
  ∧ (∀ o c, (o, c) ∈ place (data_low h) l → chunks h' !! o = chunks h !! o).
Proof.
  intros H Hi. destruct (heap_ok_put_slot h l i r H Hi) as (h' & E & H' & Hf & Hg & Hc). exists h'. split_and!; [done| |done|done].
  by split.
Qed.

Definition upd_os (os : nat → list Z) (i : nat) (v : list Z) (j : nat) : list Z := if decide (j = i) then v else os j.

(** After an edit that touches only span [i]'s chunks and unlinked ones, the
    buffer stores the new items of span [i]. *)
Lemma rw_edit h A l os e h' l' T i xs os' xs' r' e' :
  rep_with h A l os e → A !! i = Some (Some xs) → edit h l h' l' T → T ⊆ os i ++ e →
  (∀ o, o ∈ e → o ∈ (place (data_low h) l).*1) →
  (∀ j, 0 <= j < slot_count h → get_slot h' j = if decide (j = Z.of_nat i) then Some r' else get_slot h j) →
  sr_state r' ≠ SLOT_FREE → seg (chunks h') (Z.of_nat i) (sr_head r') os' xs' NONE32 → sr_tail r' = default NONE32 (last os') →
  NoDup os' → os' ⊆ os i ++ e → e' ⊆ e → (∀ o, o ∈ os' → o ∉ e') →
  (∀ o c, o ∈ os i ++ e → (o, c) ∈ place (data_low h) l' → o ∈ os' ∨ o ∈ e' ∨ ch_kind (c_hdr c) = CHUNK_DEAD) →
  rep_with h' (<[i := Some xs']> A) l' (upd_os os i os') e'.
Proof.
  intros H Ei He HT Hpe Hg Hr Hs Htl Hnd Hsub Hee Hoe Hcov. pose proof (ed_frame _ _ _ _ _ He) as (F1 & F2 & F3).
  pose proof (lookup_lt_Some _ _ _ Ei) as Hi.
  assert (Hlen : ∀ j a, A !! j = Some a → 0 <= Z.of_nat j < slot_count h).
  { intros j a Ej. rewrite (rw_count _ _ _ _ _ H). apply lookup_lt_Some in Ej. unfold size. lia. }
  assert (Hpi : ∀ j ys o, A !! j = Some (Some ys) → o ∈ os j → o ∈ (place (data_low h) l).*1).
  { intros j ys o Ej Ho. destruct (rw_span _ _ _ _ _ H j ys Ej) as (rj & _ & _ & _ & _ & _ & Hin). apply elem_place_fst. by destruct (Hin o Ho). }
  assert (Hp' : ∀ o, o ∈ (place (data_low h) l).*1 → ∃ c, (o, c) ∈ place (data_low h') l').
  { intros o Ho. rewrite F2, <- elem_place_fst. by apply (ed_offs _ _ _ _ _ He). }
  split.
  - apply He.
  - rewrite F1, (rw_count _ _ _ _ _ H). unfold size. by rewrite length_insert.
  - intros j Ej. rewrite list_lookup_insert_ne in Ej by (intros ->; rewrite list_lookup_insert_eq in Ej by done; done).
    destruct (rw_free _ _ _ _ _ H j Ej) as (r & Er & Hrj). exists r. split; [|done].
    rewrite Hg, decide_False by (eauto || (intros ?%Nat2Z.inj; subst; congruence)). done.
  - intros j ys Ej. unfold upd_os. destruct (decide (j = i)) as [->|Hne].
    + rewrite list_lookup_insert_eq in Ej by done. injection Ej as <-. exists r'. split_and!; try done.
      * rewrite Hg, decide_True by eauto. done.
      * intros o Ho. split; [by apply Hoe|]. apply Hp'. apply Hsub, elem_of_app in Ho as [Ho|Ho]; [by eapply Hpi|by apply Hpe].
    + rewrite list_lookup_insert_ne in Ej by done. destruct (rw_span _ _ _ _ _ H j ys Ej) as (r & Er & Hrj & Hsj & Htj & Hnj & Hinj).
      exists r. split_and!; try done.
      * rewrite Hg, decide_False by (eauto || lia). done.
      * eapply seg_frame; [|exact Hsj]. intros o Ho. destruct (Hinj o Ho) as (Hoe' & c & Hc). rewrite (rw_lookup _ _ _ _ _ _ _ H Hc).
        eapply tiled_elem; [apply (hk_tiles _ _ (ed_ok _ _ _ _ _ He))|]. rewrite F2. apply (ed_same _ _ _ _ _ He); [|done].
        intros Hx. apply HT, elem_of_app in Hx as [Hx|Hx]; [|done]. apply Hne. by eapply rw_disjoint.
      * intros o Ho. destruct (Hinj o Ho) as (Hoe' & c & Hc). split; [intros Hx; by apply Hoe', Hee|]. apply Hp'. by eapply Hpi.
  - intros o c Hin. rewrite F2 in Hin. destruct (decide (o ∈ os i ++ e)) as [Ho|Ho].
    + destruct (Hcov o c Ho Hin) as [Hx|[Hx|Hx]]; [|by right; left|by left]. right. right. exists i, xs'.
      rewrite list_lookup_insert_eq by done. unfold upd_os. by rewrite decide_True.
    + assert (o ∈ (place (data_low h) l).*1) as Hp by (apply (ed_offs _ _ _ _ _ He), elem_place_fst; eauto).
      apply elem_place_fst in Hp as (d & Hd). assert (o ∉ T) as HoT by (intros Hx; by apply Ho, HT).
      pose proof (ed_same _ _ _ _ _ He o d HoT Hd) as Hd'. pose proof (ed_ok _ _ _ _ _ He) as Hok'.
      assert (c = d) as -> by (eapply place_fun; [apply Hok'|exact Hin|exact Hd']).
      destruct (rw_tiles _ _ _ _ _ H o d Hd) as [|[Hx|(j & ys & Ej & Hx)]]; [by left|exfalso; apply Ho, elem_of_app; by right|].
      right. right. assert (j ≠ i) as Hne by (intros ->; apply Ho, elem_of_app; by left). exists j, ys.
      rewrite list_lookup_insert_ne by done. unfold upd_os. by rewrite decide_False.
Qed.
(** An edit of unlinked chunks only. *)
Lemma rw_edit_extra h A l os e h' l' T :
  rep_with h A l os e → edit h l h' l' T → T ⊆ e →
  (∀ j, 0 <= j < slot_count h → get_slot h' j = get_slot h j) → rep_with h' A l' os e.
Proof.
  intros H He HT Hg. pose proof (ed_frame _ _ _ _ _ He) as (F1 & F2 & F3).
  assert (Hlen : ∀ j a, A !! j = Some a → 0 <= Z.of_nat j < slot_count h).
  { intros j a Ej. rewrite (rw_count _ _ _ _ _ H). apply lookup_lt_Some in Ej. unfold size. lia. }
  assert (Hkeep : ∀ o c, o ∉ e → (o, c) ∈ place (data_low h) l → (o, c) ∈ place (data_low h) l').
  { intros o c Ho. apply (ed_same _ _ _ _ _ He). intros Hx. by apply Ho, HT. }
  split.
  - apply He.
  - by rewrite F1, (rw_count _ _ _ _ _ H).
  - intros j Ej. rewrite Hg by eauto. by apply (rw_free _ _ _ _ _ H).
  - intros j ys Ej. destruct (rw_span _ _ _ _ _ H j ys Ej) as (r & Er & Hrj & Hsj & Htj & Hnj & Hinj).
    exists r. split_and!; try done; [by rewrite Hg by eauto| |].
    + eapply seg_frame; [|exact Hsj]. intros o Ho. destruct (Hinj o Ho) as (Hoe & c & Hc). rewrite (rw_lookup _ _ _ _ _ _ _ H Hc).
      eapply tiled_elem; [apply (hk_tiles _ _ (ed_ok _ _ _ _ _ He))|]. rewrite F2. by apply Hkeep.
    + intros o Ho. destruct (Hinj o Ho) as (Hoe & c & Hc). split; [done|]. exists c. rewrite F2. by apply Hkeep.
  - intros o c Hin. rewrite F2 in Hin. destruct (decide (o ∈ e)) as [|Ho]; [by right; left|].
    assert (o ∈ (place (data_low h) l).*1) as Hp by (apply (ed_offs _ _ _ _ _ He), elem_place_fst; eauto).
    apply elem_place_fst in Hp as (d & Hd). pose proof (ed_ok _ _ _ _ _ He) as Hok'. pose proof (hk_chunks _ _ Hok') as Hc'.
    rewrite (place_fun _ _ _ _ _ Hc' Hin (Hkeep _ _ Ho Hd)). by apply (rw_tiles _ _ _ _ _ H).
Qed.

Lemma write_payload_spec h l o c bytes :
  heap_ok h l → (o, c) ∈ place (data_low h) l → size bytes <= size (c_data c) →
  let c' := mkChunk (c_hdr c) (bytes ++ drop (length bytes) (c_data c)) in
  ∃ l', write_payload h o bytes = Some (with_chunks h (<[o := c']> (chunks h)))
  ∧ edit h l (with_chunks h (<[o := c']> (chunks h))) l' [o] ∧ (o, c') ∈ place (data_low h) l'.
Proof.
  intros H Hin Hs c'. pose proof (tiled_elem _ _ _ _ _ (hk_tiles _ _ H) Hin) as Ec.
  destruct (edit_chunk h l o c c' H Hin) as (l' & He & Hi); [done| |].
  { destruct (place_range _ _ _ _ (hk_chunks _ _ H) Hin) as (_ & _ & Hc). pose proof (hk_chunks _ _ H) as Hok. rewrite Forall_forall in Hok.
    destruct (Hok _ Hc) as [Hz Hw]. split; [|done]. unfold csize in *. cbn. rewrite Hz. unfold size in *. rewrite length_app, length_drop. lia. }
  exists l'. split_and!; [|done|done]. unfold write_payload. rewrite Ec. cbn [mbind option_bind]. by rewrite (proj2 (Z.leb_le _ _) Hs).
Qed.
Lemma rep_write_pending h A o c bytes :
  pending h A o c → size bytes <= size (c_data c) →
  ∃ h', write_payload h o bytes = Some h' ∧ slots_same h h'
  ∧ pending h' A o (mkChunk (c_hdr c) (bytes ++ drop (length bytes) (c_data c))).
Proof.
  intros (l & os & H & Hin) Hs. destruct (write_payload_spec h l o c bytes (rw_heap _ _ _ _ _ H) Hin Hs) as (l' & E & He & Hi).
  eexists. split; [exact E|]. split; [by repeat split|]. exists l', os. split; [|exact Hi]. by eapply rw_edit_extra.
Qed.

(** A slot's record rewritten with the same links. *)
Lemma rep_put_slot h A i a r r' :
  rep h A → A !! i = Some a → get_slot h (Z.of_nat i) = Some r → sr_head r' = sr_head r → sr_tail r' = sr_tail r →
  (sr_state r' = SLOT_FREE ↔ sr_state r = SLOT_FREE) →
  ∃ h', put_slot h (Z.of_nat i) r' = Some h' ∧ rep h' A ∧ same_frame h h'
  ∧ ∀ j, get_slot h' j = if decide (j = Z.of_nat i) then Some r' else get_slot h j.
Proof.
  intros (l & os & H) Ei Er Hh Ht Hst. pose proof (lookup_lt_Some _ _ _ Ei) as Hi.
  destruct (edit_put_slot h l (Z.of_nat i) r' (rw_heap _ _ _ _ _ H)) as (h' & E & He & Hg & Hc); [rewrite (rw_count _ _ _ _ _ H); unfold size; lia|].
  exists h'. split_and!; [done| |by apply (ed_frame _ _ _ _ _ He)|done]. destruct a as [xs|].
  - destruct (rw_span _ _ _ _ _ H i xs Ei) as (ri & Eri & Hri & Hs & Htl & Hnd & Hin). assert (ri = r) as -> by congruence.
    exists l, (upd_os os i (os i)). rewrite <- (list_insert_id A i (Some xs)) by done.
    eapply (rw_edit h A l os []); [done|done|done|set_solver|set_solver|by intros; apply Hg|tauto| |by rewrite Ht|done|set_solver|done| |].
    + rewrite Hh. eapply seg_frame; [|exact Hs]. intros o Ho. destruct (Hin o Ho) as (_ & c & Hcc). by eapply Hc.
    + intros o _. apply not_elem_of_nil.
    + intros o c Ho _. left. by rewrite app_nil_r in Ho.
  - destruct (rw_free _ _ _ _ _ H i Ei) as (ri & Eri & Hri). assert (ri = r) as -> by congruence.
    exists l, os. pose proof (ed_frame _ _ _ _ _ He) as (F1 & F2 & F3). split.
    + apply He.
    + by rewrite F1, (rw_count _ _ _ _ _ H).
    + intros j Ej. rewrite Hg. destruct (decide _); [exists r'; tauto|by apply (rw_free _ _ _ _ _ H)].
    + intros j ys Ej. destruct (rw_span _ _ _ _ _ H j ys Ej) as (rj & Erj & Hrj & Hsj & Htj & Hnj & Hinj). exists rj.
      rewrite F2. split_and!; try done; [rewrite Hg, decide_False by (intros ?%Nat2Z.inj; subst; congruence); done|].
      eapply seg_frame; [|exact Hsj]. intros o Ho. destruct (Hinj o Ho) as (_ & c & Hcc). by eapply Hc.
    + rewrite F2. apply (rw_tiles _ _ _ _ _ H).
Qed.

(** ** Linking, splicing, unlinking *)

Lemma slots_same_put h h' i r r' :
  same_frame h h' → get_slot h (Z.of_nat i) = Some r → strip r' = strip r →
  (∀ j, 0 <= j < slot_count h → get_slot h' j = if decide (j = Z.of_nat i) then Some r' else get_slot h j) → slots_same h h'.
Proof.
  intros (F1 & F2 & F3) Er Hs Hg. split_and!; [done|done|]. intros j Hj. rewrite Hg by done.
  destruct (decide _) as [->|]; [|done]. rewrite Er. cbn. by rewrite Hs.
Qed.

Lemma rep_link h A i xs o c x :
  pending h A o c → A !! i = Some (Some xs) → holds (Z.of_nat i) c x → ch_next (c_hdr c) = NONE32 →
  ∃ h', link_chunk h (Z.of_nat i) o = Some h' ∧ rep h' (<[i := Some (xs ++ [x])]> A) ∧ slots_same h h'.
Proof.
  intros (l & os & H & Hin) Ei Hh Hnx. pose proof (lookup_lt_Some _ _ _ Ei) as Hi.
  destruct (rw_span _ _ _ _ _ H i xs Ei) as (r & Er & Hr & Hs & Htl & Hnd & Hini).
  pose proof (rw_heap _ _ _ _ _ H) as Hok. destruct (rw_range _ _ _ _ _ _ _ H Hin) as [_ Hno].
  assert (Hi' : 0 <= Z.of_nat i < slot_count h) by (rewrite (rw_count _ _ _ _ _ H); unfold size; lia).
  assert (Hnew : o ∉ os i) by (intros Ho; apply (Hini o Ho); left).
  assert (Hnd' : NoDup (os i ++ [o])) by (apply NoDup_app; split_and!; [done|set_solver|apply NoDup_singleton]).
  unfold link_chunk. rewrite Er. cbn [mbind option_bind].
  destruct (last (os i)) as [p|] eqn:El; [apply last_Some in El as [k Eo]|apply last_None in El as Eo].
  - cbn in Htl. destruct (Hini p) as (Hpo & cp & Hp); [rewrite Eo; set_solver|]. pose proof (rw_lookup _ _ _ _ _ _ _ H Hp) as Ecp.
    assert (sr_head r =? NONE32 = false) as ->.
    { apply Z.eqb_neq. rewrite Eo in Hs. destruct k as [|o0 k], xs as [|x0 xs]; cbn in Hs; try tauto; destruct Hs as (-> & ? & _); done. }
    rewrite Htl, (get_chunk_spec _ _ _ Ecp). cbn [mbind option_bind].
    destruct (edit_put_chunk h l p cp (set_next o (c_hdr cp)) Hok Hp) as (h1 & l1 & E1 & He1 & _ & Hc1 & Hg1); [done|by apply (rw_chunk_ok _ _ _ _ _ _ _ H Hp)|].
    rewrite E1. cbn [mbind option_bind]. pose proof (ed_frame _ _ _ _ _ He1) as (F1 & F2 & F3).
    destruct (edit_put_slot h1 l1 (Z.of_nat i) (set_links (sr_head r) o r) (ed_ok _ _ _ _ _ He1)) as (h2 & E2 & He2 & Hg2 & Hc2); [by rewrite F1|].
    exists h2. split; [done|]. pose proof (edit_trans _ _ _ _ _ _ _ _ He1 He2) as He.
    assert (Hg : ∀ j, 0 <= j < slot_count h → get_slot h2 j = if decide (j = Z.of_nat i) then Some (set_links (sr_head r) o r) else get_slot h j) by (intros; by rewrite Hg2, Hg1).
    split; [|by eapply slots_same_put; [apply He|done| |exact Hg]].
    exists l1, (upd_os os i (os i ++ [o])). eapply (rw_edit h A l os [o]); try done.
    + rewrite Eo. set_solver.
    + intros o' ->%list_elem_of_singleton. apply elem_place_fst. eauto.
    + cbn. apply (seg_frame (chunks h1)).
      { intros o' Ho'. assert (o' ∈ (place (data_low h) l).*1) as Hx.
        { apply elem_place_fst. apply elem_of_app in Ho' as [Ho'|Ho']; [by destruct (Hini o' Ho')|].
          apply list_elem_of_singleton in Ho'. subst. eauto. }
        apply (ed_offs _ _ _ _ _ He1), elem_place_fst in Hx as (d & Hd). apply (Hc2 o' d). by rewrite F2. }
      apply seg_snoc. split_and!; [|done|].
      * rewrite Hc1, Eo. apply seg_retarget with NONE32; [by rewrite <- Eo|by rewrite <- Eo|done].
      * exists c. rewrite Hc1, lookup_insert_ne by set_solver. split_and!; [by eapply rw_lookup|done|done].
    + by rewrite last_app.
    + set_solver.
    + set_solver.
    + set_solver.
  - rewrite Eo in Hs. destruct xs as [|]; [|done]. cbn in Hs. rewrite Hs, Z.eqb_refl.
    destruct (edit_put_slot h l (Z.of_nat i) (set_links o o r) Hok Hi') as (h2 & E2 & He2 & Hg2 & Hc2).
    exists h2. split; [done|]. split; [|eapply slots_same_put; [apply He2|done| |intros j _; exact (Hg2 j)]; done].
    exists l, (upd_os os i [o]). eapply (rw_edit h A l os [o]); try done.
    + set_solver.
    + intros o' ->%list_elem_of_singleton. apply elem_place_fst. eauto.
    + cbn. split_and!; [done|done|]. exists c. rewrite (Hc2 o c Hin). split_and!; [by eapply rw_lookup|done|done].
    + apply NoDup_singleton.
    + set_solver.
    + set_solver.
    + set_solver.
    + rewrite Eo. set_solver.
Qed.

(** A released slot taken for a new span without items. *)
Lemma rw_activate h A l os e i r :
  rep_with h A l os e → A !! i = Some None → sr_state r ≠ SLOT_FREE → sr_head r = NONE32 → sr_tail r = NONE32 →
  ∃ h', put_slot h (Z.of_nat i) r = Some h' ∧ rep_with h' (<[i := Some []]> A) l (upd_os os i []) e ∧ same_frame h h'
  ∧ ∀ j, get_slot h' j = if decide (j = Z.of_nat i) then Some r else get_slot h j.
Proof.
  intros H Ei Hr Hh Ht. pose proof (lookup_lt_Some _ _ _ Ei) as Hi.
  destruct (edit_put_slot h l (Z.of_nat i) r (rw_heap _ _ _ _ _ H)) as (h' & E & He & Hg & Hc); [rewrite (rw_count _ _ _ _ _ H); unfold size; lia|].
  exists h'. split; [done|]. pose proof (ed_frame _ _ _ _ _ He) as (F1 & F2 & F3). split; [|by split_and!]. split.
  - apply He.
  - rewrite F1, (rw_count _ _ _ _ _ H). unfold size. by rewrite length_insert.
  - intros j Ej. destruct (decide (j = i)) as [->|Hne]; [by rewrite list_lookup_insert_eq in Ej by done|].
    rewrite list_lookup_insert_ne in Ej by done. rewrite Hg, decide_False by lia. by apply (rw_free _ _ _ _ _ H).
  - intros j ys Ej. unfold upd_os. destruct (decide (j = i)) as [->|Hne].
    + rewrite list_lookup_insert_eq in Ej by done. injection Ej as <-. exists r. rewrite Hg, decide_True by done.
      split_and!; [done|done|by rewrite Hh|done|constructor|by intros ? ?%elem_of_nil].
    + rewrite list_lookup_insert_ne in Ej by done. destruct (rw_span _ _ _ _ _ H j ys Ej) as (rj & Erj & Hrj & Hsj & Htj & Hnj & Hinj).
      exists rj. rewrite F2, Hg, decide_False by lia. split_and!; try done.
      eapply seg_frame; [|exact Hsj]. intros o Ho. destruct (Hinj o Ho) as (_ & c & Hcc). by eapply Hc.
  - rewrite F2. intros o c Hin. destruct (rw_tiles _ _ _ _ _ H o c Hin) as [|[|(j & ys & Ej & Hx)]]; [by left|by right; left|].
    right. right. assert (j ≠ i) by congruence. exists j, ys. rewrite list_lookup_insert_ne by done. unfold upd_os. by rewrite decide_False.
Qed.

(** [prev] is the chunk before the first one of [os2]; both [splice_chunk] and
    [unlink_chunk] make it point elsewhere. *)
Definition prev_of (os1 : list Z) : Z := default NONE32 (last os1).
Definition redirect (h : heap) (prev new : Z) : option heap :=
  if prev =? NONE32 then Some h else p ← get_chunk h prev; put_chunk h prev (set_next new p).
Lemma redirect_spec h l slot head os1 xs1 old new :
  heap_ok h l → NoDup os1 → (∀ o, o ∈ os1 → ∃ c, (o, c) ∈ place (data_low h) l) →
  seg (chunks h) slot head os1 xs1 old →
  ∃ h' l', redirect h (prev_of os1) new = Some h' ∧ edit h l h' l' os1
  ∧ seg (chunks h') slot (if prev_of os1 =? NONE32 then new else head) os1 xs1 new
  ∧ (∀ o, o ∉ os1 → chunks h' !! o = chunks h !! o) ∧ ∀ j, get_slot h' j = get_slot h j.
Proof.
  intros Hok Hnd Hin Hs. unfold redirect, prev_of. destruct (last os1) as [p|] eqn:El.
  - apply last_Some in El as [k ->]. destruct (Hin p) as (c & Hc); [set_solver|]. cbn.
    assert (p =? NONE32 = false) as ->.
    { apply Z.eqb_neq. by destruct (seg_elem _ _ _ _ _ _ p Hs) as [Hn _]; [set_solver|]. }
    pose proof (tiled_elem _ _ _ _ _ (hk_tiles _ _ Hok) Hc) as Ec. rewrite (get_chunk_spec _ _ _ Ec). cbn [mbind option_bind].
    destruct (edit_put_chunk h l p c (set_next new (c_hdr c)) Hok Hc) as (h' & l' & E & He & _ & Hch & Hg); [done| |].
    { destruct (place_range _ _ _ _ (hk_chunks _ _ Hok) Hc) as (_ & _ & Hcl). pose proof (hk_chunks _ _ Hok) as Hck. rewrite Forall_forall in Hck.
      by destruct (Hck _ Hcl). }
    exists h', l'. split_and!; [done| |rewrite Hch; by eapply seg_retarget|intros o Ho; rewrite Hch, lookup_insert_ne; set_solver|done].
    destruct He as [A1 A2 A3 A4]. split; [done|done|done|]. intros o d Ho. apply A4. set_solver.
  - apply last_None in El as ->. cbn. exists h, l. destruct xs1; [|done]. by split_and!.
Qed.

Lemma last_middle {A} (os1 os2 : list A) (o : A) d : default d (last (os1 ++ o :: os2)) = default o (last os2).
Proof. rewrite last_app_cons. destruct os2 as [|o2 os2]; [done|]. rewrite last_cons_cons. destruct (last (o2 :: os2)) eqn:E; [done|]. by apply last_None in E. Qed.
(** The tail pointer after the chunk [old] is replaced by [new], or dropped. *)
Lemma tail_replace os1 os2 old new d :
  NoDup (os1 ++ old :: os2) →
  (if default d (last (os1 ++ old :: os2)) =? old then new else default d (last (os1 ++ old :: os2))) = default new (last os2).
Proof.
  intros Hnd. rewrite last_middle. destruct (last os2) as [t|] eqn:E; cbn; [|by rewrite Z.eqb_refl].
  assert (t ≠ old) as Hne.
  { intros ->. apply last_elem in E. apply NoDup_app in Hnd as (_ & _ & Hnd). apply NoDup_cons in Hnd as [Hx _]. done. }
  apply Z.eqb_neq in Hne. by rewrite Hne.
Qed.
Lemma last_drop os1 os2 : default (prev_of os1) (last os2) = default NONE32 (last (os1 ++ os2)).
Proof.
  rewrite last_app. unfold prev_of. by destruct (last os2).
Qed.

(** Killing a chunk. *)
Lemma kill_spec h l o c :
  heap_ok h l → (o, c) ∈ place (data_low h) l →
  ∃ h' l', kill_chunk h o = Some h' ∧ edit h l h' l' [o] ∧ (o, on_hdr (set_chunk_kind CHUNK_DEAD) c) ∈ place (data_low h) l'
  ∧ (∀ o', o' ≠ o → chunks h' !! o' = chunks h !! o') ∧ ∀ j, get_slot h' j = get_slot h j.
Proof.
  intros Hok Hin. pose proof (tiled_elem _ _ _ _ _ (hk_tiles _ _ Hok) Hin) as Ec. unfold kill_chunk.
  rewrite (get_chunk_spec _ _ _ Ec). cbn [mbind option_bind].
  destruct (edit_put_chunk h l o c (set_chunk_kind CHUNK_DEAD (c_hdr c)) Hok Hin) as (h' & l' & E & He & Hi & Hc & Hg); [done| |].
  { destruct (place_range _ _ _ _ (hk_chunks _ _ Hok) Hin) as (_ & _ & Hcl). pose proof (hk_chunks _ _ Hok) as Hck. rewrite Forall_forall in Hck.
    by destruct (Hck _ Hcl). }
  exists h', l'. split_and!; [done|done|done|intros o' Ho; by rewrite Hc, lookup_insert_ne|done].
Qed.

(** The end of both operations: the slot's links, then [old] dies. *)
Lemma finish_relink h l i old c0 r :
  heap_ok h l → 0 <= Z.of_nat i < slot_count h → (old, c0) ∈ place (data_low h) l →
  ∃ h' l', (h ← put_slot h (Z.of_nat i) r; kill_chunk h old) = Some h' ∧ edit h l h' l' [old]
  ∧ (∃ c, (old, c) ∈ place (data_low h) l' ∧ ch_kind (c_hdr c) = CHUNK_DEAD)
  ∧ (∀ o c, o ≠ old → (o, c) ∈ place (data_low h) l → chunks h' !! o = chunks h !! o)
  ∧ ∀ j, get_slot h' j = if decide (j = Z.of_nat i) then Some r else get_slot h j.
Proof.
  intros Hok Hi Hin. destruct (edit_put_slot h l (Z.of_nat i) r Hok Hi) as (h1 & E1 & He1 & Hg1 & Hc1). rewrite E1. cbn [mbind option_bind].
  pose proof (ed_frame _ _ _ _ _ He1) as (F1 & F2 & F3).
  destruct (kill_spec h1 l old c0 (ed_ok _ _ _ _ _ He1)) as (h2 & l2 & E2 & He2 & Hk & Hc2 & Hg2); [by rewrite F2|].
  exists h2, l2. split; [done|]. rewrite F2 in Hk. split_and!.
  - apply (edit_trans _ _ _ _ _ _ _ _ He1 He2).
  - eexists. split; [exact Hk|done].
  - intros o c Ho Hoc. rewrite Hc2 by done. by eapply Hc1.
  - intros j. by rewrite Hg2.
Qed.

Lemma seg_split cm slot off os1 old os2 xs1 x0 xs2 fin :
  length os1 = length xs1 → seg cm slot off (os1 ++ old :: os2) (xs1 ++ x0 :: xs2) fin →
  seg cm slot off os1 xs1 old ∧ old ≠ NONE32 ∧ ∃ c0, cm !! old = Some c0 ∧ holds slot c0 x0 ∧ seg cm slot (ch_next (c_hdr c0)) os2 xs2 fin.
Proof.
  intros Hl H. apply (seg_app _ _ _ _ _ _ _ _ Hl) in H as (m & H1 & -> & Hn & c0 & Ec & Hh & H2). eauto 10.
Qed.
Lemma seg_join cm slot off os1 os2 xs1 xs2 m fin :
  seg cm slot off os1 xs1 m → seg cm slot m os2 xs2 fin → seg cm slot off (os1 ++ os2) (xs1 ++ xs2) fin.
Proof. intros H1 H2. apply seg_app; [by eapply seg_length|]. eauto. Qed.

Lemma unlink_spec h A l os e i xs1 x0 xs2 os1 old os2 :
  rep_with h A l os e → (∀ o, o ∈ e → o ∈ (place (data_low h) l).*1) →
  A !! i = Some (Some (xs1 ++ x0 :: xs2)) → os i = os1 ++ old :: os2 → length os1 = length xs1 →
  ∃ h' l', unlink_chunk h (Z.of_nat i) (prev_of os1) old = Some h'
  ∧ rep_with h' (<[i := Some (xs1 ++ xs2)]> A) l' (upd_os os i (os1 ++ os2)) e ∧ slots_same h h'
  ∧ ∀ o c, o ∈ e → (o, c) ∈ place (data_low h) l → (o, c) ∈ place (data_low h') l'.
Proof.
  intros H Hpe Ei Eo Hl. pose proof (lookup_lt_Some _ _ _ Ei) as Hi. pose proof (rw_heap _ _ _ _ _ H) as Hok.
  destruct (rw_span _ _ _ _ _ H i _ Ei) as (r & Er & Hr & Hs & Htl & Hnd & Hini). rewrite Eo in *.
  assert (Hi' : 0 <= Z.of_nat i < slot_count h) by (rewrite (rw_count _ _ _ _ _ H); unfold size; lia).
  apply seg_split in Hs as (Hs1 & Hno & c0 & Ec0 & Hh0 & Hs2); [|done].
  pose proof Hnd as (Hnd1 & Hd1 & [Hold Hnd2]%NoDup_cons)%NoDup_app.
  destruct (redirect_spec h l (Z.of_nat i) (sr_head r) os1 xs1 old (ch_next (c_hdr c0)) Hok Hnd1) as (h1 & l1 & E1 & He1 & Hs1' & Hc1 & Hg1);
    [intros o Ho; destruct (Hini o); [set_solver|done]|done|].
  pose proof (ed_frame _ _ _ _ _ He1) as (F1 & F2 & F3).
  destruct (Hini old) as (Holde & c0' & Hold0); [set_solver|]. assert (c0' = c0) as -> by (pose proof (rw_lookup _ _ _ _ _ _ _ H Hold0); congruence).
  unfold unlink_chunk. rewrite Er. cbn [mbind option_bind]. rewrite (get_chunk_spec _ _ _ Ec0). cbn [mbind option_bind].
  fold (redirect h (prev_of os1) (ch_next (c_hdr c0))). rewrite E1. cbn [mbind option_bind].
  set (r' := set_links _ _ r).
  destruct (finish_relink h1 l1 i old c0 r' (ed_ok _ _ _ _ _ He1)) as (h2 & l2 & E2 & He2 & (cd & Hcd & Hdead) & Hc2 & Hg2);
    [by rewrite F1|rewrite F2; apply (ed_same _ _ _ _ _ He1); [set_solver|done]|].
  exists h2, l2. split; [exact E2|]. pose proof (edit_trans _ _ _ _ _ _ _ _ He1 He2) as He. rewrite F2 in *.
  assert (Hg : ∀ j, 0 <= j < slot_count h → get_slot h2 j = if decide (j = Z.of_nat i) then Some r' else get_slot h j) by (intros; by rewrite Hg2, Hg1).
  split_and!.
  - eapply (rw_edit h A l os e); try done; rewrite ?Eo.
    + set_solver.
    + cbn [sr_head set_links r']. apply (seg_frame (chunks h1)).
      * intros o Ho. assert (o ∈ (place (data_low h) l).*1) as Hx by (apply elem_place_fst; destruct (Hini o); [set_solver|done]).
        apply (ed_offs _ _ _ _ _ He1), elem_place_fst in Hx as (d & Hd). apply (Hc2 o d); [set_solver|done].
      * eapply seg_join; [exact Hs1'|]. eapply seg_frame; [|exact Hs2]. intros o Ho. apply Hc1. set_solver.
    + cbn [sr_tail set_links r']. rewrite Htl, tail_replace by done. apply last_drop.
    + apply NoDup_app. split_and!; [done|set_solver|done].
    + set_solver.
    + intros o Ho. destruct (Hini o); [set_solver|done].
    + intros o c Ho Hc. apply elem_of_app in Ho as [Ho|Ho]; [|by right; left].
      destruct (decide (o = old)) as [->|]; [|left; set_solver]. right. right.
      by rewrite (place_fun _ _ _ _ _ (hk_chunks _ _ (ed_ok _ _ _ _ _ He2)) Hc Hcd).
  - eapply slots_same_put; [apply He|done| |exact Hg]. done.
  - intros o c Ho Hc. rewrite (proj1 (proj2 (ed_frame _ _ _ _ _ He))). apply (ed_same _ _ _ _ _ He); [|done].
    intros Hx. destruct (Hini o); [set_solver|done].
Qed.

Lemma splice_spec h A l os i xs1 x0 xs2 os1 old os2 o c x :
  rep_with h A l os [o] → (o, c) ∈ place (data_low h) l → holds (Z.of_nat i) c x →
  A !! i = Some (Some (xs1 ++ x0 :: xs2)) → os i = os1 ++ old :: os2 → length os1 = length xs1 →
  ∃ h', splice_chunk h (Z.of_nat i) (prev_of os1) old o = Some h'
  ∧ rep h' (<[i := Some (xs1 ++ x :: xs2)]> A) ∧ slots_same h h'.
Proof.
  intros H Hino Hh Ei Eo Hl. pose proof (lookup_lt_Some _ _ _ Ei) as Hi. pose proof (rw_heap _ _ _ _ _ H) as Hok.
  destruct (rw_span _ _ _ _ _ H i _ Ei) as (r & Er & Hr & Hs & Htl & Hnd & Hini). rewrite Eo in *.
  assert (Hi' : 0 <= Z.of_nat i < slot_count h) by (rewrite (rw_count _ _ _ _ _ H); unfold size; lia).
  apply seg_split in Hs as (Hs1 & Hno & c0 & Ec0 & Hh0 & Hs2); [|done].
  pose proof Hnd as (Hnd1 & Hd1 & [Hold Hnd2]%NoDup_cons)%NoDup_app.
  assert (Hout : ∀ o', o' ∈ os1 ++ old :: os2 → o' ≠ o) by (intros o' Ho'; destruct (Hini o' Ho') as [Hx _]; set_solver).
  destruct (Hini old) as (_ & c0' & Hold0); [set_solver|]. assert (c0' = c0) as -> by (pose proof (rw_lookup _ _ _ _ _ _ _ H Hold0); congruence).
  unfold splice_chunk. rewrite Er. cbn [mbind option_bind].
  rewrite (get_chunk_spec _ _ _ (rw_lookup _ _ _ _ _ _ _ H Hino)), (get_chunk_spec _ _ _ Ec0). cbn [mbind option_bind].
  destruct (edit_put_chunk h l o c (set_next (ch_next (c_hdr c0)) (c_hdr c)) Hok Hino) as (h1 & l1 & E1 & He1 & Hin1 & Hch1 & Hg1);
    [done|by apply (rw_chunk_ok _ _ _ _ _ _ _ H Hino)|]. rewrite E1. cbn [mbind option_bind]. pose proof (ed_frame _ _ _ _ _ He1) as (F1 & F2 & F3).
  assert (Hc1 : ∀ o', o' ≠ o → chunks h1 !! o' = chunks h !! o') by (intros; by rewrite Hch1, lookup_insert_ne).
  destruct (redirect_spec h1 l1 (Z.of_nat i) (sr_head r) os1 xs1 old o (ed_ok _ _ _ _ _ He1) Hnd1) as (h2 & l2 & E2 & He2 & Hs1' & Hc2 & Hg2).
  { intros o' Ho'. destruct (Hini o') as (_ & d & Hd); [set_solver|]. exists d. rewrite F2. apply (ed_same _ _ _ _ _ He1); [|done].
    specialize (Hout o'). set_solver. }
  { eapply seg_frame; [|exact Hs1]. intros o' Ho'. apply Hc1, Hout. set_solver. }
  fold (redirect h1 (prev_of os1) o). rewrite E2. cbn [mbind option_bind]. pose proof (edit_trans _ _ _ _ _ _ _ _ He1 He2) as He12.
  pose proof (ed_frame _ _ _ _ _ He12) as (G1 & G2 & G3). set (r' := set_links _ _ r).
  destruct (finish_relink h2 l2 i old c0 r' (ed_ok _ _ _ _ _ He12)) as (h3 & l3 & E3 & He3 & (cd & Hcd & Hdead) & Hc3 & Hg3);
    [by rewrite G1|rewrite G2; apply (ed_same _ _ _ _ _ He12); [specialize (Hout old); set_solver|done]|].
  exists h3. split; [exact E3|]. pose proof (edit_trans _ _ _ _ _ _ _ _ He12 He3) as He. rewrite G2 in *.
  assert (Hg : ∀ j, 0 <= j < slot_count h → get_slot h3 j = if decide (j = Z.of_nat i) then Some r' else get_slot h j) by (intros; by rewrite Hg3, Hg2, Hg1).
  split; [|eapply slots_same_put; [apply He|done| |exact Hg]; done].
  exists l3, (upd_os os i (os1 ++ o :: os2)). eapply (rw_edit h A l os [o]); try done; rewrite ?Eo.
  - set_solver.
  - intros o' ->%list_elem_of_singleton. apply elem_place_fst. eauto.
  - cbn [sr_head set_links r']. apply (seg_frame (chunks h2)).
    + intros o' Ho'. assert (o' ∈ (place (data_low h) l).*1) as Hx.
      { apply elem_place_fst. destruct (decide (o' = o)) as [->|]; [eauto|]. destruct (Hini o'); [set_solver|done]. }
      apply (ed_offs _ _ _ _ _ He12), elem_place_fst in Hx as (d & Hd). apply (Hc3 o' d); [specialize (Hout old); set_solver|done].
    + eapply seg_join; [exact Hs1'|]. cbn [seg]. split_and!; [done|by destruct (rw_range _ _ _ _ _ _ _ H Hino)|].
      exists (on_hdr (set_next (ch_next (c_hdr c0))) c). split_and!.
      * rewrite Hc2 by (specialize (Hout o); set_solver). by rewrite Hch1, lookup_insert_eq.
      * by apply holds_next.
      * cbn. eapply seg_frame; [|exact Hs2]. intros o' Ho'. rewrite Hc2 by set_solver. apply Hc1, Hout. set_solver.
  - cbn [sr_tail set_links r']. rewrite Htl, tail_replace by done. by rewrite last_middle.
  - apply NoDup_app. split_and!; [done| |apply NoDup_cons; split; [|done]].
    + intros o' Ho' [->|Hx]%elem_of_cons; [by apply (Hout o); [set_solver|]|]. apply (Hd1 o' Ho'). by right.
    + intros Ho'. by apply (Hout o); [set_solver|].
  - set_solver.
  - set_solver.
  - set_solver.
  - intros o' c' Ho' Hc'. destruct (decide (o' = old)) as [->|]; [|left; set_solver]. right. right.
    by rewrite (place_fun _ _ _ _ _ (hk_chunks _ _ (ed_ok _ _ _ _ _ He3)) Hc' Hcd).
Qed.

(** An item overwritten in its chunk: the payload, then [used] in the header. *)
Lemma overwrite_spec h A l os i xs1 x0 xs2 os1 old os2 it :
  rep_with h A l os [] → A !! i = Some (Some (xs1 ++ x0 :: xs2)) → os i = os1 ++ old :: os2 → length os1 = length xs1 →
  item_ok it → item_kind it = item_kind (cl_item x0) → chunk_hdr_size + item_size it <= cl_cap x0 →
  ∃ c h1 h', chunks h !! old = Some c ∧ holds (Z.of_nat i) c x0 ∧ write_payload h old (item_bytes it) = Some h1
  ∧ put_chunk h1 old (set_used (item_size it) (c_hdr c)) = Some h'
  ∧ rep h' (<[i := Some (xs1 ++ mkCell it (cl_cap x0) :: xs2)]> A) ∧ slots_same h h'.
Proof.
  intros H Ei Eo Hl Hit Hk Hsz. pose proof (lookup_lt_Some _ _ _ Ei) as Hi. pose proof (rw_heap _ _ _ _ _ H) as Hok.
  destruct (rw_span _ _ _ _ _ H i _ Ei) as (r & Er & Hr & Hs & Htl & Hnd & Hini). rewrite Eo in *.
  apply seg_split in Hs as (Hs1 & Hno & c0 & Ec0 & Hh0 & Hs2); [|done].
  pose proof Hnd as (Hnd1 & Hd1 & [Hold Hnd2]%NoDup_cons)%NoDup_app.
  destruct (Hini old) as (_ & c0' & Hold0); [set_solver|]. assert (c0' = c0) as -> by (pose proof (rw_lookup _ _ _ _ _ _ _ H Hold0); congruence).
  destruct (rw_chunk_ok _ _ _ _ _ _ _ H Hold0) as [Hz Hw].
  destruct (write_payload_spec h l old c0 (item_bytes it) Hok Hold0) as (l1 & E1 & He1 & Hin1).
  { rewrite <- (ho_cap _ _ _ Hh0), Hz in Hsz. unfold item_size in Hsz. lia. }
  exists c0. eexists. set (c1 := mkChunk (c_hdr c0) _) in *. set (h1 := with_chunks h _) in *.
  destruct (edit_put_chunk h1 l1 old c1 (set_used (item_size it) (c_hdr c0)) (ed_ok _ _ _ _ _ He1)) as (h2 & l2 & E2 & He2 & Hin2 & Hc2 & Hg2); [done|done|done|].
  exists h2. pose proof (edit_trans _ _ _ _ _ _ _ _ He1 He2) as He. set (c2 := mkChunk _ (c_data c1)) in *.
  split_and!; [done|done|exact E1|exact E2| |].
  2:{ destruct He as [_ (F1 & F2 & F3) _ _]. split_and!; [done|done|]. intros j _. by rewrite Hg2. }
  assert (Hh2 : holds (Z.of_nat i) c2 (mkCell it (cl_cap x0))).
  { destruct Hh0 as [A1 A2 A3 A4 A5 A6]. split; try done; [by cbn; rewrite A2|by eexists]. }
  assert (Hsame : ∀ o, o ≠ old → chunks h2 !! o = chunks h !! o) by (intros o Ho; rewrite Hc2, lookup_insert_ne by done; cbn; by rewrite lookup_insert_ne).
  exists l2, (upd_os os i (os1 ++ old :: os2)). eapply (rw_edit h A l os [] _ _ _ _ _ _ _ r); try done; rewrite ?Eo.
  - set_solver.
  - set_solver.
  - intros j Hj. rewrite Hg2. cbn. destruct (decide (j = Z.of_nat i)) as [->|]; [exact Er|done].
  - eapply seg_join; [eapply seg_frame; [|exact Hs1]; intros o Ho; apply Hsame; intros ->; by apply (Hd1 _ Ho); left|].
    cbn [seg]. split_and!; [done|done|]. exists c2. split_and!; [by rewrite Hc2, lookup_insert_eq|done|].
    cbn. eapply seg_frame; [|exact Hs2]. intros o Ho. apply Hsame. by intros ->.
  - set_solver.
  - intros o _. apply not_elem_of_nil.
  - intros o c Ho _. left. by rewrite app_nil_r in Ho.
Qed.
