(* ===== verification/LeafCore.v ===== *)
(** * The leaf core: state and operations

    Model of [src/leaf/src/leaf_core.c] from the handles to [release_ended]: the
    leaf state, the life cycle, span building, ended spans, clock sync and
    counters.  A leaf is [NullLeaf], [NotInit] (never initialised, or freed) or
    [Init st].  An operation returns [None] where the C code would have undefined
    behaviour, or where [fuel] rounds of the id loop were not enough.

    The clock and the random source are functions of the number of the call, so a
    run is deterministic in them.  [leaf_env] holds the fields of [leaf_state] that
    the record buffer does not refer to. *)
From stdpp Require Import gmap sorting.
From S2P Require Import Prelude Trace LeafKv LeafMem.

Inductive leaf_status := OK | ERR_ARG | ERR_STATE | ERR_NO_SPACE | ERR_LIMIT | ERR_BUFFER_SMALL | ERR_ENCODE | ERR_CLOCK.
#[export] Instance leaf_status_eq : EqDecision leaf_status.
Proof. solve_decision. Defined.

Definition DEFAULT_MAX_ATTRS : Z := 16.
Definition DEFAULT_MAX_EVENTS : Z := 4.
Definition DEFAULT_MAX_EVENT_ATTRS : Z := 4.
Definition CONCENTRATOR_STAMPED : Z := 0.
Definition SYNC_RELATIVE : Z := 1.
Definition BOOT_RELATIVE : Z := 2.
Definition Clock := nat → Z.

Record leaf_counters := mkLeafCounters { dropped_spans : Z; dropped_attributes : Z; dropped_events : Z }.
Record leaf_env := mkLeafEnv {
  time_mode : Z; now_ns : option Clock; clock_calls : nat; random_bytes : RandomBytes; ids : IdState;
  resource_off : Z; resource_count : Z; scope_name_off : Z; scope_name_len : Z; scope_version_off : Z; scope_version_len : Z; persist : list Z;
  boot_id : Z; next_gen : Z; ended_count : Z; max_attrs : Z; max_events : Z; max_event_attrs : Z;
  env_key : Z; synced : bool; sync_unix : Z; sync_leaf : Z; counters : leaf_counters
}.
(** [persist] are the bytes of the Resource and the scope, from [resource_off] on. *)
Record leaf_state := mkLeafState { ls_heap : heap; ended_head : Z; ended_tail : Z; ls_env : leaf_env }.
Inductive leaf := NullLeaf | NotInit | Init (st : leaf_state).

Definition set_ids (s : IdState) (e : leaf_env) : leaf_env :=
  mkLeafEnv (time_mode e) (now_ns e) (clock_calls e) (random_bytes e) s (resource_off e) (resource_count e) (scope_name_off e) (scope_name_len e)
    (scope_version_off e) (scope_version_len e) (persist e) (boot_id e) (next_gen e) (ended_count e) (max_attrs e) (max_events e) (max_event_attrs e)
    (env_key e) (synced e) (sync_unix e) (sync_leaf e) (counters e).
Definition set_clock_calls (n : nat) (e : leaf_env) : leaf_env :=
  mkLeafEnv (time_mode e) (now_ns e) n (random_bytes e) (ids e) (resource_off e) (resource_count e) (scope_name_off e) (scope_name_len e)
    (scope_version_off e) (scope_version_len e) (persist e) (boot_id e) (next_gen e) (ended_count e) (max_attrs e) (max_events e) (max_event_attrs e)
    (env_key e) (synced e) (sync_unix e) (sync_leaf e) (counters e).
Definition set_gen (g : Z) (e : leaf_env) : leaf_env :=
  mkLeafEnv (time_mode e) (now_ns e) (clock_calls e) (random_bytes e) (ids e) (resource_off e) (resource_count e) (scope_name_off e) (scope_name_len e)
    (scope_version_off e) (scope_version_len e) (persist e) (boot_id e) g (ended_count e) (max_attrs e) (max_events e) (max_event_attrs e)
    (env_key e) (synced e) (sync_unix e) (sync_leaf e) (counters e).
Definition set_ended_count (n : Z) (e : leaf_env) : leaf_env :=
  mkLeafEnv (time_mode e) (now_ns e) (clock_calls e) (random_bytes e) (ids e) (resource_off e) (resource_count e) (scope_name_off e) (scope_name_len e)
    (scope_version_off e) (scope_version_len e) (persist e) (boot_id e) (next_gen e) n (max_attrs e) (max_events e) (max_event_attrs e)
    (env_key e) (synced e) (sync_unix e) (sync_leaf e) (counters e).
Definition set_sync (unix_ns leaf_ns : Z) (e : leaf_env) : leaf_env :=
  mkLeafEnv (time_mode e) (now_ns e) (clock_calls e) (random_bytes e) (ids e) (resource_off e) (resource_count e) (scope_name_off e) (scope_name_len e)
    (scope_version_off e) (scope_version_len e) (persist e) (boot_id e) (next_gen e) (ended_count e) (max_attrs e) (max_events e) (max_event_attrs e)
    (env_key e) true unix_ns leaf_ns (counters e).
Definition set_counters (c : leaf_counters) (e : leaf_env) : leaf_env :=
  mkLeafEnv (time_mode e) (now_ns e) (clock_calls e) (random_bytes e) (ids e) (resource_off e) (resource_count e) (scope_name_off e) (scope_name_len e)
    (scope_version_off e) (scope_version_len e) (persist e) (boot_id e) (next_gen e) (ended_count e) (max_attrs e) (max_events e) (max_event_attrs e)
    (env_key e) (synced e) (sync_unix e) (sync_leaf e) c.
(** The increments of the 32-bit counters. *)
Definition drop_span (e : leaf_env) : leaf_env :=
  let c := counters e in set_counters (mkLeafCounters (to_uint 32 (dropped_spans c + 1)) (dropped_attributes c) (dropped_events c)) e.
Definition drop_attributes (n : Z) (e : leaf_env) : leaf_env :=
  let c := counters e in set_counters (mkLeafCounters (dropped_spans c) (to_uint 32 (dropped_attributes c + n)) (dropped_events c)) e.
Definition drop_event (e : leaf_env) : leaf_env :=
  let c := counters e in set_counters (mkLeafCounters (dropped_spans c) (dropped_attributes c) (to_uint 32 (dropped_events c + 1))) e.

Definition with_heap (h : heap) (st : leaf_state) : leaf_state := mkLeafState h (ended_head st) (ended_tail st) (ls_env st).
Definition with_env (e : leaf_env) (st : leaf_state) : leaf_state := mkLeafState (ls_heap st) (ended_head st) (ended_tail st) e.

(** [check_leaf]. *)
Definition check_leaf (l : leaf) : leaf_status := match l with NullLeaf => ERR_ARG | NotInit => ERR_STATE | Init _ => OK end.

(** [read_clock]: the reading, and the call counted. *)
Definition read_clock (e : leaf_env) : Z * leaf_env :=
  match now_ns e with Some f => (f (clock_calls e), set_clock_calls (S (clock_calls e)) e) | None => (0, e) end.

(** ** Handles and lists *)

Definition handle_of (gen slot : Z) : Z := Z.lor (Z.shiftl gen 16) slot.
Definition handle_slot (handle : Z) : Z := Z.land handle 65535.
Definition handle_gen (handle : Z) : Z := Z.shiftr handle 16.
(** [resolve] and [resolve_open]. *)
Definition resolve (h : heap) (handle : Z) : option (option (Z * span_rec)) :=
  let index := handle_slot handle in
  if (slot_count h <=? index) || (handle_gen handle =? 0) then Some None
  else r ← get_slot h index;
       Some (if bool_decide (sr_state r = SLOT_FREE) || negb (sr_gen r =? handle_gen handle) then None else Some (index, r)).
Definition resolve_open (h : heap) (handle : Z) : option (option (Z * span_rec)) :=
  o ← resolve h handle;
  Some (match o with Some (i, r) => if bool_decide (sr_state r = SLOT_OPEN) then Some (i, r) else None | None => None end).

(** [chunk_matches] and [find_chunk]: the offset found and the one before it. *)
Definition chunk_matches (h : heap) (off : Z) (kind : chunk_kind) (key : option str) : option bool :=
  hdr ← get_chunk h off;
  if bool_decide (ch_kind hdr ≠ kind) then Some false
  else match key with
       | None => Some true
       | Some k => p ← chunk_payload h off;
                   '(found, _) ← unpack_kv p;
                   Some (cstr_str (lk_key found) =s k)
       end.
Fixpoint find_from (fuel : nat) (h : heap) (off prev : Z) (kind : chunk_kind) (key : option str) : option (Z * Z) :=
  match fuel with
  | O => None
  | S fuel' =>
      if off =? NONE32 then Some (NONE32, prev)
      else m ← chunk_matches h off kind key;
           if m : bool then Some (off, prev)
           else hdr ← get_chunk h off; find_from fuel' h (ch_next hdr) off kind key
  end.
Definition find_chunk (h : heap) (slot : Z) (kind : chunk_kind) (key : option str) : option (Z * Z) :=
  r ← get_slot h slot; find_from (walk_fuel h) h (sr_head r) NONE32 kind key.

(** [next_generation]. *)
Definition next_generation (e : leaf_env) : Z * leaf_env :=
  (next_gen e, set_gen (if next_gen e =? NONE16 then 1 else next_gen e + 1) e).

(** [acquire_slot]: the loop over the table, then growing it. *)
Fixpoint first_free (n : nat) (slot : Z) (h : heap) : option (option Z) :=
  match n with
  | O => Some None
  | S n' => r ← get_slot h slot; if bool_decide (sr_state r = SLOT_FREE) then Some (Some slot) else first_free n' (slot + 1) h
  end.
Definition zero_rec : span_rec := mkSpanRec 0 0 (replicate 16 0) (replicate 8 0) (replicate 8 0) 0 0 0 0 0 0 SLOT_FREE 0 0 false.
Definition acquire_slot (h : heap) : option (heap * option Z) :=
  f ← first_free (Z.to_nat (slot_count h)) 0 h;
  match f with
  | Some slot => Some (h, Some slot)
  | None =>
      if slot_count h =? NONE16 then Some (h, None)
      else
        h ← (if fits_below h span_rec_size then Some h else compact h);
        if fits_below h span_rec_size then
          let slot := slot_count h in
          h ← put_slot (with_slot_count h (slot + 1)) slot zero_rec;
          Some (h, Some slot)
        else Some (h, None)
  end.
(** [trim_slots]; [n] is the slot count. *)
Fixpoint trim_slots (n : nat) (h : heap) : option heap :=
  match n with
  | O => Some h
  | S n' => r ← get_slot h (slot_count h - 1);
            if bool_decide (sr_state r = SLOT_FREE) then trim_slots n' (with_slot_count h (slot_count h - 1)) else Some h
  end.
Definition trim (h : heap) : option heap := trim_slots (Z.to_nat (slot_count h)) h.

Definition set_attr_count (n : Z) (r : span_rec) : span_rec :=
  mkSpanRec (sr_start r) (sr_end r) (sr_trace_id r) (sr_span_id r) (sr_parent_span_id r) (sr_head r) (sr_tail r) (sr_gen r)
    (sr_next_ended r) n (sr_event_count r) (sr_state r) (sr_kind r) (sr_status_code r) (sr_has_parent r).
Definition set_event_count (n : Z) (r : span_rec) : span_rec :=
  mkSpanRec (sr_start r) (sr_end r) (sr_trace_id r) (sr_span_id r) (sr_parent_span_id r) (sr_head r) (sr_tail r) (sr_gen r)
    (sr_next_ended r) (sr_attr_count r) n (sr_state r) (sr_kind r) (sr_status_code r) (sr_has_parent r).
Definition set_status_code (n : Z) (r : span_rec) : span_rec :=
  mkSpanRec (sr_start r) (sr_end r) (sr_trace_id r) (sr_span_id r) (sr_parent_span_id r) (sr_head r) (sr_tail r) (sr_gen r)
    (sr_next_ended r) (sr_attr_count r) (sr_event_count r) (sr_state r) (sr_kind r) n (sr_has_parent r).
Definition set_next_ended (n : Z) (r : span_rec) : span_rec :=
  mkSpanRec (sr_start r) (sr_end r) (sr_trace_id r) (sr_span_id r) (sr_parent_span_id r) (sr_head r) (sr_tail r) (sr_gen r)
    n (sr_attr_count r) (sr_event_count r) (sr_state r) (sr_kind r) (sr_status_code r) (sr_has_parent r).
Definition set_end (time : Z) (r : span_rec) : span_rec :=
  mkSpanRec (sr_start r) time (sr_trace_id r) (sr_span_id r) (sr_parent_span_id r) (sr_head r) (sr_tail r) (sr_gen r)
    NONE16 (sr_attr_count r) (sr_event_count r) SLOT_ENDED (sr_kind r) (sr_status_code r) (sr_has_parent r).
Definition set_free (r : span_rec) : span_rec :=
  mkSpanRec (sr_start r) (sr_end r) (sr_trace_id r) (sr_span_id r) (sr_parent_span_id r) (sr_head r) (sr_tail r) (sr_gen r)
    (sr_next_ended r) (sr_attr_count r) (sr_event_count r) SLOT_FREE (sr_kind r) (sr_status_code r) (sr_has_parent r).

(** ** Life cycle *)

(** [scratch_set] says whether [scratch] is non-null. *)
Record leaf_config := mkLeafConfig {
  lc_struct_size_ok : bool; lc_time_mode : Z; lc_now_ns : option Clock; lc_random_bytes : option RandomBytes;
  lc_resource : option (list leaf_kv); lc_resource_count : Z; lc_scope_name : cstr; lc_scope_version : cstr;
  lc_max_attributes_per_span : Z; lc_max_events_per_span : Z; lc_max_attributes_per_event : Z;
  lc_boot_id : Z; lc_scratch_set : bool; lc_scratch_size : Z
}.
Definition config_scalars_valid (c : leaf_config) : bool :=
  match lc_random_bytes c with
  | None => false
  | Some _ =>
      (lc_time_mode c <=? BOOT_RELATIVE)
      && negb (bool_decide (lc_now_ns c = None) && negb (lc_time_mode c =? CONCENTRATOR_STAMPED))
      && Bool.eqb (negb (lc_scratch_set c)) (lc_scratch_size c =? 0)
  end.
(** A null string must be empty. *)
Definition cstr_valid (s : cstr) : bool := match s with Null n => n =? 0 | Bytes _ => true end.
Definition lc_kvs (c : leaf_config) : list leaf_kv := match lc_resource c with Some kvs => kvs | None => [] end.
Definition config_valid (c : leaf_config) : bool :=
  config_scalars_valid c
  && match lc_resource c with None => lc_resource_count c =? 0 | Some _ => true end
  && cstr_valid (lc_scope_name c) && cstr_valid (lc_scope_version c)
  && forallb (λ kv, kv_valid kv && negb (has_reserved_prefix kv)) (lc_kvs c).
Definition persistent_size (c : leaf_config) : Z :=
  cstr_len (lc_scope_name c) + cstr_len (lc_scope_version c) + zsum kv_size (lc_kvs c).
Definition cap_or (value fallback : Z) : Z := if value =? 0 then fallback else value.

(** [write_persistent]: the bytes at the top of the buffer. *)
Definition persistent_bytes (c : leaf_config) : list Z :=
  concat (pack_kv <$> lc_kvs c) ++ (code <$> cstr_str (lc_scope_name c)) ++ (code <$> cstr_str (lc_scope_version c)).
(** [init_state], then [write_persistent]. *)
Definition init_state (c : leaf_config) (rnd : RandomBytes) (buf_size size : Z) : leaf_state :=
  let off := buf_size - size in
  let name_off := off + zsum kv_size (lc_kvs c) in
  mkLeafState (mkHeap ∅ ∅ 0 off off) NONE16 NONE16
    (mkLeafEnv (lc_time_mode c) (lc_now_ns c) 0 rnd (mkIdState 0 0)
       off (Prelude.size (lc_kvs c)) name_off (cstr_len (lc_scope_name c)) (name_off + cstr_len (lc_scope_name c)) (cstr_len (lc_scope_version c)) (persistent_bytes c)
       (lc_boot_id c) 1 0 (cap_or (lc_max_attributes_per_span c) DEFAULT_MAX_ATTRS) (cap_or (lc_max_events_per_span c) DEFAULT_MAX_EVENTS)
       (cap_or (lc_max_attributes_per_event c) DEFAULT_MAX_EVENT_ATTRS) (device_key (lc_kvs c) (lc_boot_id c))
       false 0 0 (mkLeafCounters 0 0 0)).
(** [leaf_size_ok]: [leaf_size >= sizeof(microtel_leaf_t)]; [buffer]: the record
    buffer is non-null. *)
Definition microtel_leaf_init (l : leaf) (leaf_size_ok : bool) (config : option leaf_config) (buffer : bool) (buffer_size : Z) : leaf * leaf_status :=
  match l, config with
  | NullLeaf, _ | _, None => (l, ERR_ARG)
  | _, Some c =>
      if negb leaf_size_ok || negb buffer || negb (lc_struct_size_ok c) then (l, ERR_ARG)
      else match lc_random_bytes c with
           | None => (l, ERR_ARG)
           | Some rnd =>
               if negb (config_valid c) then (l, ERR_ARG)
               else let usable := if MAX_BUFFER <? buffer_size then MAX_BUFFER else buffer_size in
                    if usable <? persistent_size c then (l, ERR_NO_SPACE)
                    else (Init (init_state c rnd usable (persistent_size c)), OK)
           end
  end.
Definition microtel_leaf_free (l : leaf) : leaf := match l with NullLeaf => NullLeaf | _ => NotInit end.

(** ** Building spans *)

(** [start_span]; [trace_id] and [parent_id] are [span_ids]. *)
Definition start_span (fuel : nat) (st : leaf_state) (name : str) (kind : Z) (trace_id parent_id : option (list Z)) : option (leaf_state * leaf_status * option Z) :=
  '(h, slot) ← acquire_slot (ls_heap st);
  '(h, name_off) ← (match slot with
                    | Some s => if 0 <? size name then alloc_string h s CHUNK_NAME name else Some (h, None)
                    | None => Some (h, None)
                    end);
  match slot with
  | Some slot =>
      if (0 <? size name) && bool_decide (name_off = None) then
        h ← trim h; Some (with_env (drop_span (ls_env st)) (with_heap h st), ERR_NO_SPACE, None)
      else
        let e := ls_env st in
        '(tid, ids1) ← (match trace_id with Some t => Some (t, ids e) | None => new_trace_id fuel (random_bytes e) (env_key e) (ids e) end);
        '(sid, ids2) ← new_span_id fuel (random_bytes e) (env_key e) ids1;
        let '(gen, e) := next_generation (set_ids ids2 e) in
        let '(start, e) := read_clock e in
        let pid := match parent_id with Some p => p | None => replicate 8 0 end in
        let rec := mkSpanRec start 0 tid sid pid NONE32 NONE32 gen NONE16 0 0 SLOT_OPEN kind 0 (bool_decide (is_Some parent_id)) in
        h ← put_slot h slot rec;
        h ← (match name_off with Some off => link_chunk h slot off | None => Some h end);
        Some (with_env e (with_heap h st), OK, Some (handle_of gen slot))
  | None => h ← trim h; Some (with_env (drop_span (ls_env st)) (with_heap h st), ERR_NO_SPACE, None)
  end.

(** [start_args_valid], without the test that [out_span] is non-null. *)
Definition start_args_valid (name : cstr) (kind : Z) : bool := cstr_valid name && (1 <=? kind) && (kind <=? 5).
Definition lift_start (r : option (leaf_state * leaf_status * option Z)) : option (leaf * leaf_status * option Z) :=
  '(st, s, o) ← r; Some (Init st, s, o).
Definition microtel_leaf_span_start (fuel : nat) (l : leaf) (name : cstr) (kind : Z) (parent : option Z) : option (leaf * leaf_status * option Z) :=
  match l with
  | Init st =>
      if negb (start_args_valid name kind) then Some (l, ERR_ARG, None)
      else match parent with
           | None => lift_start (start_span fuel st (cstr_str name) kind None None)
           | Some handle =>
               o ← resolve (ls_heap st) handle;
               match o with
               | None => Some (l, ERR_STATE, None)
               | Some (_, r) => lift_start (start_span fuel st (cstr_str name) kind (Some (sr_trace_id r)) (Some (sr_span_id r)))
               end
           end
  | _ => Some (l, check_leaf l, None)
  end.
Definition all_zero (l : list Z) : bool := forallb (λ b, b =? 0) l.
Definition microtel_leaf_span_start_remote (fuel : nat) (l : leaf) (name : cstr) (kind : Z) (trace_id parent_id : option (list Z)) : option (leaf * leaf_status * option Z) :=
  match l with
  | Init st =>
      match trace_id, parent_id with
      | Some t, Some p =>
          if negb (start_args_valid name kind) || all_zero t || all_zero p then Some (l, ERR_ARG, None)
          else lift_start (start_span fuel st (cstr_str name) kind (Some t) (Some p))
      | _, _ => Some (l, ERR_ARG, None)
      end
  | _ => Some (l, check_leaf l, None)
  end.

(** ** Attributes, events, status *)

Definition overwrite_attr (st : leaf_state) (slot old : Z) (attr : leaf_kv) : option (leaf_state * leaf_status) :=
  let h := ls_heap st in
  hdr ← get_chunk h old;
  if kv_size attr <=? ch_size hdr - chunk_hdr_size then
    h ← write_payload h old (pack_kv attr);
    h ← put_chunk h old (set_used (kv_size attr) hdr);
    Some (with_heap h st, OK)
  else
    '(h, repl) ← alloc_chunk h slot CHUNK_ATTR (kv_size attr);
    match repl with
    | None => Some (with_env (drop_attributes 1 (ls_env st)) (with_heap h st), ERR_NO_SPACE)
    | Some repl =>
        h ← write_payload h repl (pack_kv attr);
        '(old, prev) ← find_chunk h slot CHUNK_ATTR (Some (cstr_str (lk_key attr)));
        h ← splice_chunk h slot prev old repl;
        Some (with_heap h st, OK)
    end.
Definition add_attr (st : leaf_state) (slot : Z) (attr : leaf_kv) : option (leaf_state * leaf_status) :=
  let h := ls_heap st in
  r ← get_slot h slot;
  if max_attrs (ls_env st) <=? sr_attr_count r then Some (with_env (drop_attributes 1 (ls_env st)) st, ERR_LIMIT)
  else
    '(h, off) ← alloc_chunk h slot CHUNK_ATTR (kv_size attr);
    match off with
    | None => Some (with_env (drop_attributes 1 (ls_env st)) (with_heap h st), ERR_NO_SPACE)
    | Some off =>
        h ← write_payload h off (pack_kv attr);
        h ← link_chunk h slot off;
        r ← get_slot h slot;
        h ← put_slot h slot (set_attr_count (to_uint 16 (sr_attr_count r + 1)) r);
        Some (with_heap h st, OK)
    end.
Definition set_attribute (st : leaf_state) (slot : Z) (attr : leaf_kv) : option (leaf_state * leaf_status) :=
  '(existing, _) ← find_chunk (ls_heap st) slot CHUNK_ATTR (Some (cstr_str (lk_key attr)));
  if existing =? NONE32 then add_attr st slot attr else overwrite_attr st slot existing attr.

(** The common prologue of the mutators, [open_span]: [f] runs on an open span. *)
Definition on_open_span (l : leaf) (span : Z) (f : leaf_state → Z → option (leaf_state * leaf_status)) : option (leaf * leaf_status) :=
  match l with
  | Init st =>
      o ← resolve_open (ls_heap st) span;
      match o with
      | None => Some (l, ERR_STATE)
      | Some (slot, _) => '(st, s) ← f st slot; Some (Init st, s)
      end
  | _ => Some (l, check_leaf l)
  end.
(** Arguments are checked after the leaf and before the handle. *)
Definition with_args (l : leaf) (valid : bool) (k : option (leaf * leaf_status)) : option (leaf * leaf_status) :=
  match l with Init _ => if valid then k else Some (l, ERR_ARG) | _ => Some (l, check_leaf l) end.

Definition microtel_leaf_span_set_attribute (l : leaf) (span : Z) (attr : option leaf_kv) : option (leaf * leaf_status) :=
  match attr with
  | None => with_args l false (Some (l, ERR_ARG))
  | Some a => with_args l (kv_valid a) (on_open_span l span (λ st slot, set_attribute st slot a))
  end.

Definition add_event (st : leaf_state) (slot : Z) (name : str) (attrs : list leaf_kv) : option (leaf_state * leaf_status) :=
  let h := ls_heap st in
  let e := ls_env st in
  r ← get_slot h slot;
  if max_events e <=? sr_event_count r then Some (with_env (drop_event e) st, ERR_LIMIT)
  else
    let kept := if size attrs <? max_event_attrs e then size attrs else max_event_attrs e in
    let attrs1 := take (Z.to_nat kept) attrs in
    '(h, off) ← alloc_chunk h slot CHUNK_EVENT (event_size name attrs1);
    match off with
    | None => Some (with_env (drop_event e) (with_heap h st), ERR_NO_SPACE)
    | Some off =>
        let '(time, e) := read_clock e in
        h ← write_payload h off (pack_event time name attrs1);
        h ← link_chunk h slot off;
        r ← get_slot h slot;
        h ← put_slot h slot (set_event_count (to_uint 16 (sr_event_count r + 1)) r);
        Some (with_env (drop_attributes (size attrs - kept) e) (with_heap h st), OK)
    end.
(** [attrs = None]: a null pointer, with [attr_count] elements claimed. *)
Definition microtel_leaf_span_add_event (l : leaf) (span : Z) (name : cstr) (attrs : option (list leaf_kv)) (attr_count : Z) : option (leaf * leaf_status) :=
  let valid := cstr_valid name && match attrs with None => attr_count =? 0 | Some kvs => kvs_valid kvs end in
  let kvs := match attrs with Some kvs => kvs | None => [] end in
  with_args l valid (on_open_span l span (λ st slot, add_event st slot (cstr_str name) kvs)).

Definition set_status_message (h : heap) (slot : Z) (message : str) : option (heap * leaf_status) :=
  '(old, prev) ← find_chunk h slot CHUNK_STATUS None;
  in_place ← (if old =? NONE32 then Some None
              else hdr ← get_chunk h old;
                   Some (if (0 <? size message) && (size message <=? ch_size hdr - chunk_hdr_size) then Some hdr else None));
  match in_place with
  | Some hdr =>
      h ← write_payload h old (code <$> message);
      h ← put_chunk h old (set_used (size message) hdr);
      Some (h, OK)
  | None =>
      if size message =? 0 then
        h ← (if old =? NONE32 then Some h else unlink_chunk h slot prev old); Some (h, OK)
      else
        '(h, repl) ← alloc_string h slot CHUNK_STATUS message;
        match repl with
        | None => Some (h, ERR_NO_SPACE)
        | Some repl =>
            '(old, prev) ← find_chunk h slot CHUNK_STATUS None;
            h ← (if old =? NONE32 then Some h else unlink_chunk h slot prev old);
            h ← link_chunk h slot repl;
            Some (h, OK)
        end
  end.
Definition set_status (st : leaf_state) (slot code : Z) (message : str) : option (leaf_state * leaf_status) :=
  '(h, s) ← set_status_message (ls_heap st) slot message;
  if bool_decide (s = OK) then
    r ← get_slot h slot;
    h ← put_slot h slot (set_status_code code r);
    Some (with_heap h st, s)
  else Some (with_heap h st, s).
Definition microtel_leaf_span_set_status (l : leaf) (span code : Z) (message : cstr) : option (leaf * leaf_status) :=
  with_args l ((code <=? 2) && cstr_valid message) (on_open_span l span (λ st slot, set_status st slot code (cstr_str message))).

(** ** Ending, clock sync, counters, release *)

Definition end_span (st : leaf_state) (slot : Z) : option (leaf_state * leaf_status) :=
  let h := ls_heap st in
  r ← get_slot h slot;
  let '(time, e) := read_clock (ls_env st) in
  h ← put_slot h slot (set_end time r);
  h ← (if ended_tail st =? NONE16 then Some h
       else t ← get_slot h (ended_tail st); put_slot h (ended_tail st) (set_next_ended slot t));
  Some (mkLeafState h (if ended_tail st =? NONE16 then slot else ended_head st) slot
          (set_ended_count (to_uint 32 (ended_count e + 1)) e), OK).
Definition microtel_leaf_span_end (l : leaf) (span : Z) : option (leaf * leaf_status) := on_open_span l span end_span.

Definition microtel_leaf_clock_sync (l : leaf) (unix_ns leaf_now_ns : Z) : leaf * leaf_status :=
  match l with
  | Init st =>
      match now_ns (ls_env st) with
      | None => (l, ERR_CLOCK)
      | Some _ =>
          if unix_ns =? 0 then (l, ERR_CLOCK)
          else let '(now, e) := read_clock (ls_env st) in
               if now <? leaf_now_ns then (Init (with_env e st), ERR_CLOCK)
               else (Init (with_env (set_sync unix_ns leaf_now_ns e) st), OK)
      end
  | _ => (l, check_leaf l)
  end.
(** [microtel_leaf_get_counters] into a whole [microtel_leaf_counters_t]; a null leaf writes nothing. *)
Definition microtel_leaf_get_counters (l : leaf) : option leaf_counters :=
  match l with NullLeaf => None | NotInit => Some (mkLeafCounters 0 0 0) | Init st => Some (counters (ls_env st)) end.

(** [release_ended]: the loop over the ended queue, then the rest. *)
Fixpoint free_ended (fuel : nat) (slot : Z) (h : heap) : option heap :=
  match fuel with
  | O => None
  | S fuel' =>
      if slot =? NONE16 then Some h
      else r ← get_slot h slot; h ← put_slot h slot (set_free r); free_ended fuel' (sr_next_ended r) h
  end.
Definition release_ended (st : leaf_state) : option leaf_state :=
  h ← free_ended (S (Z.to_nat (slot_count (ls_heap st)))) (ended_head st) (ls_heap st);
  h ← trim h;
  h ← compact h;
  Some (mkLeafState h NONE16 NONE16 (set_counters (mkLeafCounters 0 0 0) (set_ended_count 0 (ls_env st)))).
