(* ===== verification/LeafBatch.v ===== *)
(** * The batch view of the leaf core

    Model of the batch view of [src/leaf/src/leaf_core.c] and the cursors of
    [src/leaf/src/leaf_internal.h] that an encoder backend reads it with, of
    [encode_with] and of the size bound.

    A backend sees the core through the cursors only, and they do not change it, so
    a backend is a function of what they return: [read_batch] runs every cursor to
    its end, and [encode_with] hands the result to the backend.  An outer [None] is
    undefined behaviour. *)
From stdpp Require Import gmap sorting.
From S2P Require Import Prelude Trace LeafKv LeafMem LeafCore.

(** ** The batch *)

Record batch := mkBatch { reserved : list leaf_kv; time_offset : Z; span_count : Z; batch_resource_count : Z }.

Definition WIRE_PROTO_VERSION : Z := 1.
Definition k_key_proto : str := $"microtel.leaf.proto".
Definition k_key_time_mode : str := $"microtel.leaf.time_mode".
Definition k_key_encode_time : str := $"microtel.leaf.encode_time".
Definition k_key_sync_age : str := $"microtel.leaf.sync_age".
Definition k_key_boot_id : str := $"microtel.leaf.boot_id".
Definition k_key_dropped_spans : str := $"microtel.leaf.dropped_spans".
Definition k_key_dropped_items : str := $"microtel.leaf.dropped_items".
(** [add_reserved]: an [int64_t] value. *)
Definition reserved_kv (key : str) (v : Z) : leaf_kv := mkLeafKv (Bytes key) (VInt64 (to_sint 64 v)).

(** The mode of the payload: sync-relative needs a sync. *)
Definition effective_mode (e : leaf_env) : Z :=
  if (time_mode e =? SYNC_RELATIVE) && negb (synced e) then CONCENTRATOR_STAMPED else time_mode e.
Definition batch_offset (e : leaf_env) : Z :=
  if effective_mode e =? SYNC_RELATIVE then to_uint 64 (sync_unix e - sync_leaf e) else 0.
(** [build_batch] reads the clock once. *)
Definition build_batch (e : leaf_env) : batch * leaf_env :=
  let '(now, e) := read_clock e in
  let has_clock := bool_decide (now_ns e ≠ None) in
  let mode := effective_mode e in
  let offset := batch_offset e in
  let c := counters e in
  let dropped_items := dropped_attributes c + dropped_events c in
  let r :=
    [reserved_kv k_key_proto WIRE_PROTO_VERSION; reserved_kv k_key_time_mode mode]
    ++ (if has_clock then [reserved_kv k_key_encode_time (now + offset)] else [])
    ++ (if mode =? SYNC_RELATIVE then [reserved_kv k_key_sync_age (now - sync_leaf e)] else [])
    ++ (if mode =? BOOT_RELATIVE then [reserved_kv k_key_boot_id (boot_id e)] else [])
    ++ (if 0 <? dropped_spans c then [reserved_kv k_key_dropped_spans (dropped_spans c)] else [])
    ++ (if 0 <? dropped_items then [reserved_kv k_key_dropped_items dropped_items] else []) in
  (mkBatch r offset (ended_count e) (resource_count e + size r), e).

(** ** Cursors *)

Record cursor := mkCursor { cu_pos : Z; cu_index : Z }.
Definition start_cursor : cursor := mkCursor 0 0.
(** A cursor function: the next element and the cursor after it, or the end. *)
Definition Next (A : Type) := cursor → option (option (A * cursor)).
(** Running a cursor from its start to the end. *)
Fixpoint collect {A} (fuel : nat) (next : Next A) (c : cursor) : option (list A) :=
  match fuel with
  | O => None
  | S fuel' => r ← next c;
               match r with
               | None => Some []
               | Some (a, c) => rest ← collect fuel' next c; Some (a :: rest)
               end
  end.

Definition persist_at (e : leaf_env) (off : Z) : list Z := drop (Z.to_nat (off - resource_off e)) (persist e).
Definition next_resource_attr (e : leaf_env) (b : batch) : Next leaf_kv := λ c,
  let pos := if cu_index c =? 0 then resource_off e else cu_pos c in
  if cu_index c <? resource_count e then
    '(kv, size) ← unpack_kv (persist_at e pos);
    Some (Some (kv, mkCursor (pos + size) (cu_index c + 1)))
  else match reserved b !! Z.to_nat (cu_index c - resource_count e) with
       | Some kv => Some (Some (kv, mkCursor pos (cu_index c + 1)))
       | None => Some None
       end.

(** The bytes a chunk uses. *)
Definition chunk_string (c : chunk) : str := chr <$> take (Z.to_nat (ch_used (c_hdr c))) (c_data c).
(** [span_strings]: the name and the status message of a chunk list. *)
Fixpoint span_strings (fuel : nat) (h : heap) (off : Z) (name status : str) : option (str * str) :=
  match fuel with
  | O => None
  | S fuel' =>
      if off =? NONE32 then Some (name, status)
      else c ← chunks h !! off;
           let k := ch_kind (c_hdr c) in
           let name := if bool_decide (k = CHUNK_NAME) then chunk_string c else name in
           let status := if bool_decide (k = CHUNK_STATUS) then chunk_string c else status in
           span_strings fuel' h (ch_next (c_hdr c)) name status
  end.
(** [microtel_leaf_internal_span]; its field [chain], private to the core, goes beside it. *)
Record span_view := mkSpanView {
  sv_trace_id : list Z; sv_span_id : list Z; sv_parent_span_id : option (list Z); sv_name : str; sv_kind : Z;
  sv_start_time_unix_nano : Z; sv_end_time_unix_nano : Z; sv_has_status : bool; sv_status_code : Z; sv_status_message : str;
  sv_attr_count : Z; sv_event_count : Z
}.
Definition view_of (offset : Z) (r : span_rec) (name status : str) : span_view :=
  mkSpanView (sr_trace_id r) (sr_span_id r) (if sr_has_parent r then Some (sr_parent_span_id r) else None) name (sr_kind r)
    (to_uint 64 (sr_start r + offset)) (to_uint 64 (sr_end r + offset))
    (negb (sr_status_code r =? 0) || (0 <? size status)) (sr_status_code r) status (sr_attr_count r) (sr_event_count r).
Definition next_span (st : leaf_state) (b : batch) : Next (span_view * Z) := λ c,
  let slot := if cu_index c =? 0 then ended_head st else cu_pos c in
  if slot =? NONE16 then Some None
  else
    r ← get_slot (ls_heap st) slot;
    '(name, status) ← span_strings (walk_fuel (ls_heap st)) (ls_heap st) (sr_head r) [] [];
    Some (Some (view_of (time_offset b) r name status, sr_head r, mkCursor (sr_next_ended r) (cu_index c + 1))).

(** [next_of_kind]: the next chunk of [kind], and the position after it. *)
Fixpoint next_of_kind (fuel : nat) (h : heap) (off : Z) (kind : chunk_kind) : option (option (chunk * Z)) :=
  match fuel with
  | O => None
  | S fuel' =>
      if off =? NONE32 then Some None
      else c ← chunks h !! off;
           if bool_decide (ch_kind (c_hdr c) = kind) then Some (Some (c, ch_next (c_hdr c)))
           else next_of_kind fuel' h (ch_next (c_hdr c)) kind
  end.
Definition next_chunk (h : heap) (chain : Z) (kind : chunk_kind) : Next chunk := λ c,
  o ← next_of_kind (walk_fuel h) h (if cu_index c =? 0 then chain else cu_pos c) kind;
  Some (match o with Some (ch, next) => Some (ch, mkCursor next (cu_index c + 1)) | None => None end).
Definition next_attr (h : heap) (chain : Z) : Next leaf_kv := λ c,
  o ← next_chunk h chain CHUNK_ATTR c;
  match o with
  | None => Some None
  | Some (ch, c) => '(kv, _) ← unpack_kv (c_data ch); Some (Some (kv, c))
  end.
(** [microtel_leaf_internal_event]. *)
Record event_view := mkEventView { ev_time_unix_nano : Z; ev_name : str; ev_attr_count : Z; ev_attrs : list Z }.
Definition next_event (h : heap) (offset chain : Z) : Next event_view := λ c,
  o ← next_chunk h chain CHUNK_EVENT c;
  match o with
  | None => Some None
  | Some (ch, c) =>
      let p := c_data ch in
      time ← read_word 8 0 p;
      name_len ← read_word 4 8 p;
      count ← read_word 4 12 p;
      name ← read_bytes name_len event_hdr_size p;
      Some (Some (mkEventView (to_uint 64 (time + offset)) (chr <$> (name : list Z)) count (drop (Z.to_nat (event_hdr_size + name_len)) p), c))
  end.
Definition next_event_attr (ev : event_view) : Next leaf_kv := λ c,
  if ev_attr_count ev <=? cu_index c then Some None
  else '(kv, size) ← unpack_kv (drop (Z.to_nat (cu_pos c)) (ev_attrs ev));
       Some (Some (kv, mkCursor (cu_pos c + size) (cu_index c + 1))).

(** ** What a backend reads *)

Record emitted_event := mkEmittedEvent { ee_time : Z; ee_name : str; ee_attrs : list leaf_kv }.
Record emitted_span := mkEmittedSpan { es_span : span_view; es_attrs : list leaf_kv; es_events : list emitted_event }.
Record payload := mkPayload { p_resource : list leaf_kv; p_scope_name : str; p_scope_version : str; p_spans : list emitted_span }.

Definition event_fuel (ev : event_view) : nat := S (Z.to_nat (ev_attr_count ev)).
Definition read_event (ev : event_view) : option emitted_event :=
  attrs ← collect (event_fuel ev) (next_event_attr ev) start_cursor; Some (mkEmittedEvent (ev_time_unix_nano ev) (ev_name ev) attrs).
Definition read_span (h : heap) (offset : Z) (p : span_view * Z) : option emitted_span :=
  let '(s, chain) := p in
  attrs ← collect (walk_fuel h) (next_attr h chain) start_cursor;
  events ← collect (walk_fuel h) (next_event h offset chain) start_cursor;
  events ← mapM read_event events;
  Some (mkEmittedSpan s attrs events).
Definition read_batch (st : leaf_state) (b : batch) : option payload :=
  let e := ls_env st in
  resource ← collect (S (Z.to_nat (batch_resource_count b))) (next_resource_attr e b) start_cursor;
  name ← read_bytes (scope_name_len e) 0 (persist_at e (scope_name_off e));
  version ← read_bytes (scope_version_len e) 0 (persist_at e (scope_version_off e));
  spans ← collect (S (Z.to_nat (slot_count (ls_heap st)))) (next_span st b) start_cursor;
  spans ← mapM (read_span (ls_heap st) (time_offset b)) spans;
  Some (mkPayload resource (chr <$> (name : list Z)) (chr <$> (version : list Z)) spans).

(** ** Encoding *)

(** A backend and its sink: the status and [*written]. *)
Definition Backend := payload → leaf_status * Z.
(** [encode_with]. *)
Definition encode_with (backend : Backend) (st : leaf_state) : option (leaf_state * leaf_status * Z) :=
  let '(b, e) := build_batch (ls_env st) in
  let st := with_env e st in
  p ← read_batch st b;
  let '(status, written) := backend p in
  if bool_decide (status = OK) then st ← release_ended st; Some (st, status, written)
  else Some (st, status, written).
(** [microtel_leaf_encode] and [microtel_leaf_encode_to]; [args_ok]: the pointers
    they check are usable. *)
Definition microtel_leaf_encode (backend : Backend) (l : leaf) (args_ok : bool) : option (leaf * leaf_status) :=
  match l with
  | Init st => if args_ok then '(st, s, _) ← encode_with backend st; Some (Init st, s) else Some (l, ERR_ARG)
  | _ => Some (l, check_leaf l)
  end.
