(* ===== verification/LeafSpec.v ===== *)
(** * The leaf core refines its specification

    The specification of the leaf: a table of spans with their items in emit
    order, the queue of ended spans, and one capacity rule: an allocation succeeds
    exactly when table, live items and the new item fit below the Resource.  There
    are no offsets, links or dead chunks, and nothing moves.

    [refines] relates it to the record buffer of [LeafCore]; the theorems are one
    simulation per operation, so that every result and error of the C code is the
    specification's, and no operation has undefined behaviour. *)
From stdpp Require Import gmap sorting.
From S2P Require Import Prelude Trace LeafKv LeafMem LeafHeap LeafCore.

(** ** Searching a span *)

(** The first item that satisfies [p], with what is before and after it. *)
Fixpoint split_first (p : cell → bool) (xs : list cell) : option (list cell * cell * list cell) :=
  match xs with
  | [] => None
  | x :: xs' => if p x then Some ([], x, xs')
                else match split_first p xs' with Some (a, y, b) => Some (x :: a, y, b) | None => None end
  end.
(** Items of [kind], and for attributes of that key. *)
Definition cell_is (kind : chunk_kind) (key : option str) (x : cell) : bool :=
  bool_decide (item_kind (cl_item x) = kind)
  && match key with None => true | Some k => match cl_item x with IAttr kv => cstr_str (lk_key kv) =s k | _ => false end end.

Lemma split_first_Some p xs a y b : split_first p xs = Some (a, y, b) → xs = a ++ y :: b ∧ p y = true ∧ Forall (λ x, p x = false) a.
Proof.
  revert a y b. induction xs as [|x xs IH]; intros a y b; cbn; [done|]. destruct (p x) eqn:E; [intros [= <- <- <-]; by split_and!|].
  destruct (split_first p xs) as [[[a' y'] b']|]; [|done]. intros [= <- <- <-]. destruct (IH _ _ _ eq_refl) as (-> & Hy & Ha).
  split_and!; [done|done|by constructor].
Qed.
Lemma split_first_None p xs : split_first p xs = None → Forall (λ x, p x = false) xs.
Proof.
  induction xs as [|x xs IH]; cbn; [constructor|]. destruct (p x) eqn:E; [done|]. destruct (split_first p xs) as [[[? ?] ?]|]; [done|].
  intros _. constructor; [done|by apply IH].
Qed.

Lemma chunk_matches_spec h off c slot x kind key :
  chunks h !! off = Some c → holds slot c x → (key ≠ None → kind = CHUNK_ATTR) →
  chunk_matches h off kind key = Some (cell_is kind key x).
Proof.
  intros Ec [_ Hk _ _ [junk Hd] Hi] Hkey. unfold chunk_matches, cell_is. rewrite (get_chunk_spec _ _ _ Ec). cbn [mbind option_bind].
  rewrite Hk. destruct (decide (item_kind (cl_item x) = kind)) as [E|E].
  - rewrite (bool_decide_false (_ ≠ _)), (bool_decide_true (_ = _)) by tauto. destruct key as [k|]; [|done].
    unfold chunk_payload. rewrite Ec. cbn [fmap option_fmap option_map mbind option_bind].
    rewrite Hkey in E by done. destruct (cl_item x) as [| kv | |]; try done. rewrite Hd. cbn [item_bytes item_ok] in *.
    by rewrite unpack_pack.
  - rewrite (bool_decide_true (_ ≠ _)), (bool_decide_false (_ = _)) by done. done.
Qed.

Lemma find_from_spec h slot kind key fuel : ∀ off os xs prev,
  (key ≠ None → kind = CHUNK_ATTR) → seg (chunks h) slot off os xs NONE32 → (length os < fuel)%nat →
  match split_first (cell_is kind key) xs with
  | None => find_from fuel h off prev kind key = Some (NONE32, default prev (last os))
  | Some (xs1, x, xs2) => ∃ os1 o os2, os = os1 ++ o :: os2 ∧ length os1 = length xs1 ∧ o ≠ NONE32
      ∧ find_from fuel h off prev kind key = Some (o, default prev (last os1))
  end.
Proof.
  induction fuel as [|fuel IH]; intros off os xs prev Hkey Hs Hf; [lia|]. cbn [find_from].
  destruct os as [|o os], xs as [|x xs]; cbn [seg] in Hs; try done.
  - subst. done.
  - destruct Hs as (-> & Hn & c & Ec & Hh & Hs). apply Z.eqb_neq in Hn as Hn'. rewrite Hn', (chunk_matches_spec _ _ _ _ _ _ _ Ec Hh Hkey). cbn [mbind option_bind split_first].
    destruct (cell_is kind key x); [by exists [], o, os|]. rewrite (get_chunk_spec _ _ _ Ec). cbn [mbind option_bind length] in *.
    specialize (IH _ os xs o Hkey Hs ltac:(lia)). destruct (split_first (cell_is kind key) xs) as [[[xs1 y] xs2]|].
    + destruct IH as (os1 & o' & os2 & -> & Hl & Hno & ->). exists (o :: os1), o', os2. split_and!; [done|cbn; by rewrite Hl|done|].
      rewrite last_cons. by destruct (last os1).
    + rewrite IH, last_cons. by destruct (last os).
Qed.

Lemma rw_chain_length h A l os e i xs : rep_with h A l os e → A !! i = Some (Some xs) → (length (os i) < walk_fuel h)%nat.
Proof.
  intros H Ei. pose proof (rw_heap _ _ _ _ _ H) as Hok. destruct (rw_span _ _ _ _ _ H i xs Ei) as (r & _ & _ & _ & _ & Hnd & Hin).
  assert (os i ⊆ (place (data_low h) l).*1) as Hsub by (intros o Ho; apply elem_place_fst; by destruct (Hin o Ho)).
  pose proof (submseteq_length _ _ (NoDup_submseteq _ _ Hnd Hsub)) as Hle. rewrite length_fmap, <- (length_fmap snd), place_snd in Hle.
  pose proof (csizes_nonneg l (hk_chunks _ _ Hok)). pose proof (hk_sum _ _ Hok). pose proof (hk_low _ _ Hok). pose proof (hk_count _ _ Hok).
  pose proof (walk_enough h (data_low h) l (hk_chunks _ _ Hok)). unfold table_end, slot_off, span_rec_size in *. lia.
Qed.
Lemma rw_find h A l os e i xs kind key :
  rep_with h A l os e → A !! i = Some (Some xs) → (key ≠ None → kind = CHUNK_ATTR) →
  match split_first (cell_is kind key) xs with
  | None => find_chunk h (Z.of_nat i) kind key = Some (NONE32, prev_of (os i))
  | Some (xs1, x, xs2) => xs = xs1 ++ x :: xs2 ∧ ∃ os1 o os2, os i = os1 ++ o :: os2 ∧ length os1 = length xs1 ∧ o ≠ NONE32
      ∧ find_chunk h (Z.of_nat i) kind key = Some (o, prev_of os1)
  end.
Proof.
  intros H Ei Hkey. destruct (rw_span _ _ _ _ _ H i xs Ei) as (r & Er & _ & Hs & _). unfold find_chunk. rewrite Er. cbn [mbind option_bind].
  pose proof (find_from_spec h _ kind key (walk_fuel h) _ _ _ NONE32 Hkey Hs (rw_chain_length _ _ _ _ _ _ _ H Ei)) as Hf.
  destruct (split_first (cell_is kind key) xs) as [[[xs1 x] xs2]|] eqn:E; [|done].
  split; [by apply split_first_Some in E as [-> _]|done].
Qed.

(** ** The specification *)

(** A span: its record without links, and its items. *)
Record aspan := mkASpan { as_rec : span_rec; as_items : list cell }.
Record spec := mkSpec { sp_spans : list (option aspan); sp_ended : list nat; sp_room : Z; sp_env : leaf_env }.
Definition meta_of (r : span_rec) : span_rec := set_next_ended NONE16 (strip r).
Definition tbl (s : spec) : table := fmap (M:=option) as_items <$> sp_spans s.

Definition with_spans (sp : list (option aspan)) (s : spec) : spec := mkSpec sp (sp_ended s) (sp_room s) (sp_env s).
Definition with_sp_env (e : leaf_env) (s : spec) : spec := mkSpec (sp_spans s) (sp_ended s) (sp_room s) e.
Definition set_span (i : nat) (a : aspan) (s : spec) : spec := with_spans (<[i := Some a]> (sp_spans s)) s.
(** The capacity rule. *)
Definition sp_fits (s : spec) (sz : Z) : bool := slot_off (size (sp_spans s)) + live_bytes (tbl s) + sz <=? sp_room s.
Definition new_cell (it : item) : cell := mkCell it (chunk_hdr_size + item_size it).

Definition sp_resolve (s : spec) (handle : Z) : option (nat * aspan) :=
  if handle_gen handle =? 0 then None
  else match sp_spans s !! Z.to_nat (handle_slot handle) with
       | Some (Some a) => if sr_gen (as_rec a) =? handle_gen handle then Some (Z.to_nat (handle_slot handle), a) else None
       | _ => None
       end.
Definition sp_resolve_open (s : spec) (handle : Z) : option (nat * aspan) :=
  match sp_resolve s handle with
  | Some (i, a) => if bool_decide (sr_state (as_rec a) = SLOT_OPEN) then Some (i, a) else None
  | None => None
  end.

Definition on_rec (f : span_rec → span_rec) (a : aspan) : aspan := mkASpan (f (as_rec a)) (as_items a).
Definition sp_set_attribute (i : nat) (a : aspan) (attr : leaf_kv) (s : spec) : spec * leaf_status :=
  let full := (with_sp_env (drop_attributes 1 (sp_env s)) s, ERR_NO_SPACE) in
  let need := chunk_hdr_size + kv_size attr in
  match split_first (cell_is CHUNK_ATTR (Some (cstr_str (lk_key attr)))) (as_items a) with
  | Some (xs1, x, xs2) =>
      if need <=? cl_cap x then (set_span i (mkASpan (as_rec a) (xs1 ++ mkCell (IAttr attr) (cl_cap x) :: xs2)) s, OK)
      else if sp_fits s need then (set_span i (mkASpan (as_rec a) (xs1 ++ mkCell (IAttr attr) need :: xs2)) s, OK)
      else full
  | None =>
      if max_attrs (sp_env s) <=? sr_attr_count (as_rec a) then (with_sp_env (drop_attributes 1 (sp_env s)) s, ERR_LIMIT)
      else if sp_fits s need
      then (set_span i (mkASpan (set_attr_count (to_uint 16 (sr_attr_count (as_rec a) + 1)) (as_rec a)) (as_items a ++ [mkCell (IAttr attr) need])) s, OK)
      else full
  end.
Definition sp_add_event (i : nat) (a : aspan) (name : str) (attrs : list leaf_kv) (s : spec) : spec * leaf_status :=
  let e := sp_env s in
  if max_events e <=? sr_event_count (as_rec a) then (with_sp_env (drop_event e) s, ERR_LIMIT)
  else
    let kept := if size attrs <? max_event_attrs e then size attrs else max_event_attrs e in
    let attrs1 := take (Z.to_nat kept) attrs in
    let need := chunk_hdr_size + event_size name attrs1 in
    if sp_fits s need then
      let '(time, e) := read_clock e in
      (with_sp_env (drop_attributes (size attrs - kept) e)
         (set_span i (mkASpan (set_event_count (to_uint 16 (sr_event_count (as_rec a) + 1)) (as_rec a))
                        (as_items a ++ [mkCell (IEvent time name attrs1) need])) s), OK)
    else (with_sp_env (drop_event e) s, ERR_NO_SPACE).
Definition sp_set_status (i : nat) (a : aspan) (code : Z) (message : str) (s : spec) : spec * leaf_status :=
  let need := chunk_hdr_size + size message in
  let store items := (set_span i (mkASpan (set_status_code code (as_rec a)) items) s, OK) in
  match split_first (cell_is CHUNK_STATUS None) (as_items a) with
  | Some (xs1, x, xs2) =>
      if size message =? 0 then store (xs1 ++ xs2)
      else if need <=? cl_cap x then store (xs1 ++ mkCell (IStatus message) (cl_cap x) :: xs2)
      else if sp_fits s need then store ((xs1 ++ xs2) ++ [mkCell (IStatus message) need])
      else (s, ERR_NO_SPACE)
  | None =>
      if size message =? 0 then store (as_items a)
      else if sp_fits s need then store (as_items a ++ [mkCell (IStatus message) need])
      else (s, ERR_NO_SPACE)
  end.
Definition sp_end_span (i : nat) (a : aspan) (s : spec) : spec * leaf_status :=
  let '(time, e) := read_clock (sp_env s) in
  (mkSpec (<[i := Some (on_rec (set_end time) a)]> (sp_spans s)) (sp_ended s ++ [i]) (sp_room s)
     (set_ended_count (to_uint 32 (ended_count e + 1)) e), OK).

(** A free slot: the first of the table, or a new one. *)
Fixpoint free_index (l : list (option aspan)) : option nat :=
  match l with [] => None | None :: _ => Some 0%nat | Some _ :: l' => S <$> free_index l' end.
Definition sp_acquire (s : spec) : spec * option nat :=
  match free_index (sp_spans s) with
  | Some i => (s, Some i)
  | None => if size (sp_spans s) =? NONE16 then (s, None)
            else if sp_fits s span_rec_size then (with_spans (sp_spans s ++ [None]) s, Some (length (sp_spans s)))
            else (s, None)
  end.
(** The table without the free slots at its end. *)
Fixpoint trim_spans (l : list (option aspan)) : list (option aspan) :=
  match l with
  | [] => []
  | a :: l' => match a, trim_spans l' with None, [] => [] | _, t => a :: t end
  end.
Definition sp_trim (s : spec) : spec := with_spans (trim_spans (sp_spans s)) s.
Definition sp_start_span (fuel : nat) (s : spec) (name : str) (kind : Z) (trace_id parent_id : option (list Z)) : option (spec * leaf_status * option Z) :=
  let '(s1, slot) := sp_acquire s in
  let dropped := Some (with_sp_env (drop_span (sp_env s)) (sp_trim s1), ERR_NO_SPACE, None) in
  let need := chunk_hdr_size + size name in
  match slot with
  | None => dropped
  | Some i =>
      if (0 <? size name) && negb (sp_fits s1 need) then dropped
      else
        let e := sp_env s in
        '(tid, ids1) ← (match trace_id with Some t => Some (t, ids e) | None => new_trace_id fuel (random_bytes e) (env_key e) (ids e) end);
        '(sid, ids2) ← new_span_id fuel (random_bytes e) (env_key e) ids1;
        let '(gen, e) := next_generation (set_ids ids2 e) in
        let '(start, e) := read_clock e in
        let pid := match parent_id with Some p => p | None => replicate 8 0 end in
        let rec := mkSpanRec start 0 tid sid pid NONE32 NONE32 gen NONE16 0 0 SLOT_OPEN kind 0 (bool_decide (is_Some parent_id)) in
        let items := if 0 <? size name then [mkCell (IName name) need] else [] in
        Some (with_sp_env e (set_span i (mkASpan rec items) s1), OK, Some (handle_of gen (Z.of_nat i)))
  end.
Definition sp_release (s : spec) : spec :=
  sp_trim (mkSpec (fold_left (λ l i, <[i := None]> l) (sp_ended s) (sp_spans s)) [] (sp_room s)
             (set_counters (mkLeafCounters 0 0 0) (set_ended_count 0 (sp_env s)))).

(** ** The simulation relation *)

(** The ended queue, from the slot number [off]. *)
Fixpoint queue (h : heap) (off : Z) (q : list nat) : Prop :=
  match q with
  | [] => off = NONE16
  | i :: q' => off = Z.of_nat i ∧ Z.of_nat i < slot_count h ∧ ∃ r, get_slot h (Z.of_nat i) = Some r ∧ queue h (sr_next_ended r) q'
  end.
Record refines (st : leaf_state) (s : spec) : Prop := {
  rf_env : ls_env st = sp_env s;
  rf_rep : rep (ls_heap st) (tbl s);
  rf_meta : ∀ i a, sp_spans s !! i = Some (Some a) → ∃ r, get_slot (ls_heap st) (Z.of_nat i) = Some r ∧ meta_of r = as_rec a;
  rf_room : persist_off (ls_heap st) = sp_room s;
  rf_count : slot_count (ls_heap st) <= NONE16;
  rf_ended : queue (ls_heap st) (ended_head st) (sp_ended s);
  rf_tail : ended_tail st = default NONE16 (Z.of_nat <$> last (sp_ended s));
  rf_ended_open : NoDup (sp_ended s) ∧ ∀ i, i ∈ sp_ended s → ∃ a, sp_spans s !! i = Some (Some a) ∧ sr_state (as_rec a) = SLOT_ENDED
}.

(** ** Simulation lemmas *)

Lemma tbl_lookup s i a : sp_spans s !! i = Some (Some a) → tbl s !! i = Some (Some (as_items a)).
Proof. intros E. unfold tbl. by rewrite list_lookup_fmap, E. Qed.
Lemma tbl_free s i : sp_spans s !! i = Some None → tbl s !! i = Some None.
Proof. intros E. unfold tbl. by rewrite list_lookup_fmap, E. Qed.
Lemma tbl_set s i a : tbl (set_span i a s) = <[i := Some (as_items a)]> (tbl s).
Proof. unfold tbl, set_span. cbn. by rewrite list_fmap_insert. Qed.
Lemma tbl_env e s : tbl (with_sp_env e s) = tbl s.
Proof. done. Qed.
Lemma size_tbl s : size (tbl s) = size (sp_spans s).
Proof. unfold tbl. apply size_fmap. Qed.
Lemma rep_count h A : rep h A → slot_count h = size A.
Proof. intros (l & os & H). apply H. Qed.
Lemma rf_slots st s : refines st s → slot_count (ls_heap st) = size (sp_spans s).
Proof. intros H. by rewrite (rep_count _ _ (rf_rep _ _ H)), size_tbl. Qed.
Lemma rf_fits st s sz : refines st s → room (ls_heap st) (tbl s) sz = sp_fits s sz.
Proof. intros H. unfold room, sp_fits. by rewrite (rf_room _ _ H), size_tbl. Qed.
Lemma rf_index st s i a : refines st s → sp_spans s !! i = Some a → 0 <= Z.of_nat i < slot_count (ls_heap st).
Proof. intros H E. rewrite (rf_slots _ _ H). apply lookup_lt_Some in E. unfold size. lia. Qed.

Lemma meta_strip r r' : strip r' = strip r → meta_of r' = meta_of r.
Proof. unfold meta_of. by intros ->. Qed.
Lemma meta_state r a : meta_of r = as_rec a → sr_state (as_rec a) = sr_state r ∧ sr_gen (as_rec a) = sr_gen r
  ∧ sr_attr_count (as_rec a) = sr_attr_count r ∧ sr_event_count (as_rec a) = sr_event_count r
  ∧ sr_trace_id (as_rec a) = sr_trace_id r ∧ sr_span_id (as_rec a) = sr_span_id r.
Proof. by intros <-. Qed.

Lemma queue_same h h' off q : slots_same h h' → queue h off q → queue h' off q.
Proof.
  intros Hs. revert off. induction q as [|i q IH]; intros off; cbn; [done|]. intros (-> & Hi & r & Er & Hq). pose proof Hs as (F1 & _ & _).
  split; [done|]. split; [by rewrite F1|]. destruct (slots_same_get _ _ (Z.of_nat i) r Hs) as (r' & Er' & Hst); [lia|done|].
  exists r'. split; [done|]. apply (f_equal sr_next_ended) in Hst. cbn in Hst. rewrite Hst. by apply IH.
Qed.

Lemma refines_env st s e : refines st s → refines (with_env e st) (with_sp_env e s).
Proof. intros []. by split. Qed.

(** The items of one span changed, or the chunks only moved. *)
Lemma refines_items st s h' i a xs' :
  refines st s → sp_spans s !! i = Some (Some a) → rep h' (<[i := Some xs']> (tbl s)) → slots_same (ls_heap st) h' →
  refines (with_heap h' st) (set_span i (mkASpan (as_rec a) xs') s).
Proof.
  intros [R1 R2 R3 R4 R5 R6 R7 [R8 R9]] Ei Hr Hs. pose proof Hs as (F1 & F2 & _). pose proof (lookup_lt_Some _ _ _ Ei) as Hi.
  split; cbn [ls_env ls_heap ended_head ended_tail with_heap sp_env sp_spans sp_room sp_ended set_span with_spans]; try done.
  - by rewrite tbl_set.
  - intros j b Ej.
    assert (∃ a0, sp_spans s !! j = Some (Some a0) ∧ as_rec a0 = as_rec b) as (a0 & Ea0 & Erec).
    { destruct (decide (j = i)) as [->|]; [rewrite list_lookup_insert_eq in Ej by done; injection Ej as <-; eauto|].
      rewrite list_lookup_insert_ne in Ej by done. eauto. }
    destruct (R3 j a0 Ea0) as (r & Er & Hm). destruct (slots_same_get _ _ (Z.of_nat j) r Hs) as (r' & Er' & Hst);
      [rewrite (rep_count _ _ R2), size_tbl; apply lookup_lt_Some in Ea0; unfold size; lia|done|].
    exists r'. split; [done|]. by rewrite (meta_strip _ _ Hst), Hm.
  - congruence.
  - congruence.
  - by eapply queue_same.
  - split; [done|]. intros j Hj. destruct (R9 j Hj) as (b & Eb & Hb). destruct (decide (j = i)) as [->|].
    + rewrite list_lookup_insert_eq by done. eexists. split; [done|]. assert (b = a) as -> by congruence. done.
    + rewrite list_lookup_insert_ne by done. eauto.
Qed.
Lemma refines_moved st s h' : refines st s → rep h' (tbl s) → slots_same (ls_heap st) h' → refines (with_heap h' st) s.
Proof.
  intros [R1 R2 R3 R4 R5 R6 R7 R8] Hr Hs. pose proof Hs as (F1 & F2 & _).
  split; cbn [ls_env ls_heap ended_head ended_tail with_heap]; try done; try congruence; [|by eapply queue_same].
  intros j a Ej. destruct (R3 j a Ej) as (r & Er & Hm). destruct (slots_same_get _ _ (Z.of_nat j) r Hs) as (r' & Er' & Hst);
    [rewrite (rep_count _ _ R2), size_tbl; apply lookup_lt_Some in Ej; unfold size; lia|done|].
  exists r'. split; [done|]. by rewrite (meta_strip _ _ Hst), Hm.
Qed.

Lemma queue_put h h' i r r' off q :
  get_slot h (Z.of_nat i) = Some r → slot_count h' = slot_count h → sr_next_ended r' = sr_next_ended r →
  (∀ j, get_slot h' j = if decide (j = Z.of_nat i) then Some r' else get_slot h j) → queue h off q → queue h' off q.
Proof.
  intros Er En Ex Hg. revert off. induction q as [|j q IH]; intros off; cbn; [done|]. intros (-> & Hj & rj & Erj & Hq).
  split; [done|]. rewrite En. split; [done|]. rewrite Hg. destruct (decide (Z.of_nat j = Z.of_nat i)) as [E|].
  - exists r'. split; [done|]. rewrite E, Er in Erj. injection Erj as <-. rewrite Ex. by apply IH.
  - exists rj. split; [done|]. by apply IH.
Qed.
(** One record rewritten in place, links and state kept. *)
Lemma refines_put_slot st s i a f :
  refines st s → sp_spans s !! i = Some (Some a) →
  (∀ r, sr_head (f r) = sr_head r ∧ sr_tail (f r) = sr_tail r ∧ sr_state (f r) = sr_state r ∧ sr_next_ended (f r) = sr_next_ended r
        ∧ meta_of (f r) = f (meta_of r)) →
  ∃ r h', get_slot (ls_heap st) (Z.of_nat i) = Some r ∧ meta_of r = as_rec a
  ∧ put_slot (ls_heap st) (Z.of_nat i) (f r) = Some h' ∧ refines (with_heap h' st) (set_span i (on_rec f a) s).
Proof.
  intros R Ei Hf. pose proof R as [R1 R2 R3 R4 R5 R6 R7 [R8 R9]]. destruct (R3 i a Ei) as (r & Er & Hm). destruct (Hf r) as (Hh & Ht & Hst & Hx & Hmf).
  pose proof (lookup_lt_Some _ _ _ Ei) as Hi.
  destruct (rep_put_slot _ _ i _ r (f r) R2 (tbl_lookup _ _ _ Ei) Er Hh Ht) as (h' & E & Hr & (F1 & F2 & F3) & Hg); [by rewrite Hst|].
  exists r, h'. split_and!; [done|done|done|].
  split; cbn [ls_env ls_heap ended_head ended_tail with_heap sp_env sp_spans sp_room sp_ended set_span with_spans]; try done; try congruence.
  - fold (set_span i (on_rec f a) s). rewrite tbl_set. cbn. by rewrite list_insert_id by (by apply tbl_lookup).
  - intros j b Ej. rewrite Hg. destruct (decide (j = i)) as [->|Hne].
    + rewrite list_lookup_insert_eq in Ej by done. injection Ej as <-. rewrite decide_True by done. exists (f r). split; [done|].
      cbn. by rewrite Hmf, Hm.
    + rewrite list_lookup_insert_ne in Ej by done. rewrite decide_False by lia. by apply R3.
  - by eapply queue_put.
  - split; [done|]. intros j Hj. destruct (R9 j Hj) as (b & Eb & Hb). destruct (decide (j = i)) as [->|].
    + rewrite list_lookup_insert_eq by done. eexists. split; [done|]. assert (b = a) as -> by congruence. cbn. rewrite <- Hm, <- Hmf.
      destruct (meta_state _ _ Hm) as (Hs & _). cbn. congruence.
    + rewrite list_lookup_insert_ne by done. eauto.
Qed.

Lemma live_bytes_nonneg h A : rep h A → 0 <= live_bytes A.
Proof.
  intros (l & os & H). rewrite <- (rw_live _ _ _ _ _ H) by apply dead_extra_nil. apply live_sizes_range, H.
Qed.
Lemma rep_persist h A : rep h A → persist_off h <= MAX_BUFFER.
Proof. intros (l & os & H). apply H. Qed.
Lemma fits_small st s sz : refines st s → sp_fits s (chunk_hdr_size + sz) = true → sz <= u32_max.
Proof.
  intros R Hf. unfold sp_fits in Hf. bool_hyps. pose proof (live_bytes_nonneg _ _ (rf_rep _ _ R)). pose proof (rep_persist _ _ (rf_rep _ _ R)) as Hp.
  rewrite (rf_room _ _ R) in Hp. pose proof (size_nonneg (sp_spans s)).
  unfold slot_off, span_rec_size, MAX_BUFFER, chunk_hdr_size in *. width_lia.
Qed.
Lemma cap_small st s i a x : refines st s → sp_spans s !! i = Some (Some a) → x ∈ as_items a → cl_cap x <= MAX_BUFFER.
Proof.
  intros R Ei Hx. destruct (rf_rep _ _ R) as (l & os & H). pose proof (tbl_lookup _ _ _ Ei) as Et.
  destruct (rw_span _ _ _ _ _ H i _ Et) as (r & _ & _ & Hs & _ & _ & Hin).
  apply list_elem_of_split in Hx as (xs1 & xs2 & E). rewrite E in Hs. pose proof (seg_length _ _ _ _ _ _ Hs) as Hl.
  assert (∃ os1 o os2, os i = os1 ++ o :: os2 ∧ length os1 = length xs1) as (os1 & o & os2 & Eo & Hl1).
  { exists (take (length xs1) (os i)). rewrite length_app in Hl. cbn in Hl.
    destruct (drop (length xs1) (os i)) as [|o os2] eqn:Ed; [apply (f_equal length) in Ed; rewrite length_drop in Ed; cbn in Ed; lia|].
    exists o, os2. split; [by rewrite <- Ed, take_drop|]. rewrite length_take. lia. }
  rewrite Eo in Hs. apply seg_split in Hs as (_ & _ & c & Ec & Hh & _); [|done].
  destruct (Hin o) as (_ & d & Hd); [rewrite Eo; set_solver|]. pose proof (rw_lookup _ _ _ _ _ _ _ H Hd) as Ed. assert (d = c) as -> by congruence.
  rewrite <- (ho_cap _ _ _ Hh). destruct (rw_heap _ _ _ _ _ H) as [Hn _ Hlow _ Hok Hsum Hmax]. destruct (place_range _ _ _ _ Hok Hd) as (H1 & H2 & _).
  unfold table_end, slot_off, span_rec_size in Hlow. lia.
Qed.

Lemma sim_alloc st s i kind payload :
  refines st s → 0 <= payload →
  if sp_fits s (chunk_hdr_size + payload)
  then ∃ h o, alloc_chunk (ls_heap st) (Z.of_nat i) kind payload = Some (h, Some o) ∧ slots_same (ls_heap st) h
       ∧ pending h (tbl s) o (fresh_chunk (Z.of_nat i) kind payload)
  else ∃ h, alloc_chunk (ls_heap st) (Z.of_nat i) kind payload = Some (h, None) ∧ refines (with_heap h st) s.
Proof.
  intros R Hp. pose proof (rep_alloc _ _ i kind payload (rf_rep _ _ R) Hp) as Ha. rewrite (rf_fits _ _ _ R) in Ha.
  destruct (sp_fits s _).
  - done.
  - destruct Ha as (h & E & Hs & Hr). exists h. split; [done|]. by apply refines_moved.
Qed.
(** A chunk allocated for an item and filled with it. *)
Lemma pending_fill h A i o it :
  pending h A o (fresh_chunk (Z.of_nat i) (item_kind it) (item_size it)) → item_ok it →
  ∃ h' c, write_payload h o (item_bytes it) = Some h' ∧ slots_same h h' ∧ pending h' A o c
  ∧ holds (Z.of_nat i) c (new_cell it) ∧ ch_next (c_hdr c) = NONE32.
Proof.
  intros Hp Hit. destruct (rep_write_pending h A o _ (item_bytes it) Hp) as (h' & E & Hs & Hp').
  { cbn. unfold item_size, size. rewrite length_replicate. lia. }
  eexists h', _. split_and!; [done|done|exact Hp'| |done]. split; try done. by eexists.
Qed.
Lemma sim_append st s i a it :
  refines st s → sp_spans s !! i = Some (Some a) → item_ok it → sp_fits s (chunk_hdr_size + item_size it) = true →
  ∃ h1 o h2 h3, alloc_chunk (ls_heap st) (Z.of_nat i) (item_kind it) (item_size it) = Some (h1, Some o)
  ∧ write_payload h1 o (item_bytes it) = Some h2 ∧ link_chunk h2 (Z.of_nat i) o = Some h3
  ∧ refines (with_heap h3 st) (set_span i (mkASpan (as_rec a) (as_items a ++ [new_cell it])) s).
Proof.
  intros R Ei Hit Hf. pose proof (sim_alloc st s i (item_kind it) (item_size it) R (size_nonneg _)) as Ha. rewrite Hf in Ha.
  destruct Ha as (h1 & o & E1 & Hs1 & Hp1). destruct (pending_fill _ _ _ _ _ Hp1 Hit) as (h2 & c & E2 & Hs2 & Hp2 & Hh & Hn).
  destruct (rep_link h2 (tbl s) i (as_items a) o c (new_cell it) Hp2 (tbl_lookup _ _ _ Ei) Hh Hn) as (h3 & E3 & Hr & Hs3).
  exists h1, o, h2, h3. split_and!; [done..|]. eapply refines_items; [done|done|done|]. etransitivity; [done|]. by etransitivity.
Qed.

Lemma resolve_spec st s handle :
  refines st s →
  match sp_resolve s handle with
  | Some (i, a) => ∃ r, resolve (ls_heap st) handle = Some (Some (Z.of_nat i, r)) ∧ get_slot (ls_heap st) (Z.of_nat i) = Some r
                        ∧ meta_of r = as_rec a ∧ sp_spans s !! i = Some (Some a)
  | None => resolve (ls_heap st) handle = Some None
  end.
Proof.
  intros R. unfold sp_resolve, resolve. rewrite (rf_slots _ _ R). assert (0 <= handle_slot handle) as H0 by (apply Z.land_nonneg; by right).
  destruct (handle_gen handle =? 0); [by rewrite orb_true_r|]. rewrite orb_false_r.
  destruct (sp_spans s !! Z.to_nat (handle_slot handle)) as [[a|]|] eqn:E.
  - pose proof (lookup_lt_Some _ _ _ E) as Hi. rewrite (proj2 (Z.leb_gt _ _)) by (unfold size; lia).
    destruct (rf_meta _ _ R _ _ E) as (r & Er & Hm). rewrite Z2Nat.id in Er by done. rewrite Er. cbn [mbind option_bind].
    destruct (meta_state _ _ Hm) as (Hst & Hg & _). rewrite Hg.
    destruct (rf_rep _ _ R) as (l & os & H). destruct (rw_span _ _ _ _ _ H _ _ (tbl_lookup _ _ _ E)) as (r' & Er' & Hr & _).
    rewrite Z2Nat.id in Er' by done. assert (r' = r) as -> by congruence. rewrite bool_decide_false by done. cbn [orb].
    destruct (sr_gen r =? handle_gen handle); [|done]. exists r. rewrite Z2Nat.id by done. done.
  - pose proof (lookup_lt_Some _ _ _ E) as Hi. rewrite (proj2 (Z.leb_gt _ _)) by (unfold size; lia).
    destruct (rf_rep _ _ R) as (l & os & H). destruct (rw_free _ _ _ _ _ H _ (tbl_free _ _ E)) as (r & Er & Hr).
    rewrite Z2Nat.id in Er by done. rewrite Er. cbn [mbind option_bind]. by rewrite bool_decide_true.
  - apply lookup_ge_None in E. rewrite (proj2 (Z.leb_le _ _)) by (unfold size; lia). done.
Qed.
Lemma resolve_open_spec st s handle :
  refines st s →
  match sp_resolve_open s handle with
  | Some (i, a) => ∃ r, resolve_open (ls_heap st) handle = Some (Some (Z.of_nat i, r)) ∧ sp_spans s !! i = Some (Some a) ∧ sr_state (as_rec a) = SLOT_OPEN
  | None => resolve_open (ls_heap st) handle = Some None
  end.
Proof.
  intros R. pose proof (resolve_spec st s handle R) as H. unfold sp_resolve_open, resolve_open.
  destruct (sp_resolve s handle) as [[i a]|]; [|by rewrite H].
  destruct H as (r & -> & Er & Hm & Ei). cbn [mbind option_bind]. destruct (meta_state _ _ Hm) as (Hst & _). rewrite Hst.
  destruct (bool_decide (sr_state r = SLOT_OPEN)) eqn:Eb; bool_hyps; [|done]. exists r. split_and!; [done|done|congruence].
Qed.

(** ** One simulation per operation *)

(** [st'] and its result are what the specification says. *)
Definition simulates (r : option (leaf_state * leaf_status)) (p : spec * leaf_status) : Prop :=
  ∃ st', r = Some (st', p.2) ∧ refines st' p.1.

Lemma attr_fits attr :
  kv_valid attr = true → value_wf (lk_value attr) → kv_size attr <= u32_max → kv_fits attr ∧ item_size (IAttr attr) = kv_size attr.
Proof. intros Hv Hw Hs. split; [done|]. unfold item_size. cbn. by rewrite kv_size_eq. Qed.

Lemma sim_overwrite_attr st s i a attr xs1 x xs2 :
  refines st s → sp_spans s !! i = Some (Some a) → kv_valid attr = true → value_wf (lk_value attr) →
  split_first (cell_is CHUNK_ATTR (Some (cstr_str (lk_key attr)))) (as_items a) = Some (xs1, x, xs2) →
  ∃ old prev, find_chunk (ls_heap st) (Z.of_nat i) CHUNK_ATTR (Some (cstr_str (lk_key attr))) = Some (old, prev) ∧ old ≠ NONE32
  ∧ simulates (overwrite_attr st (Z.of_nat i) old attr) (sp_set_attribute i a attr s).
Proof.
  intros R Ei Hv Hw Hsp. pose proof (tbl_lookup _ _ _ Ei) as Et. destruct (rf_rep _ _ R) as (l & os & H).
  pose proof (rw_find _ _ _ _ _ _ _ CHUNK_ATTR (Some (cstr_str (lk_key attr))) H Et ltac:(done)) as Hf. rewrite Hsp in Hf.
  destruct Hf as (Exs & os1 & o & os2 & Eo & Hl & Hno & Hfind). exists o, (prev_of os1). split; [done|]. split; [done|].
  pose proof (split_first_Some _ _ _ _ _ Hsp) as (_ & Hx & _). unfold cell_is in Hx. bool_hyps.
  rewrite Exs in Et. destruct (rw_span _ _ _ _ _ H i _ Et) as (r & Er & _ & Hs & _). rewrite Eo in Hs.
  apply seg_split in Hs as (_ & _ & c & Ec & Hh & _); [|done].
  unfold simulates, overwrite_attr, sp_set_attribute. rewrite Hsp, (get_chunk_spec _ _ _ Ec). cbn [mbind option_bind].
  assert (ch_size (c_hdr c) = cl_cap x) as -> by (apply (ho_cap _ _ _ Hh)).
  assert (kv_size attr <=? cl_cap x - chunk_hdr_size = (chunk_hdr_size + kv_size attr <=? cl_cap x)) as -> by (apply eq_true_iff_eq; rewrite !Z.leb_le; lia).
  destruct (chunk_hdr_size + kv_size attr <=? cl_cap x) eqn:Ecap; bool_hyps.
  - pose proof (cap_small _ _ _ _ x R Ei ltac:(rewrite Exs; set_solver)) as Hcap.
    destruct (attr_fits attr Hv Hw) as [Hkv Hks]; [unfold MAX_BUFFER, chunk_hdr_size in *; width_lia|].
    destruct (overwrite_spec _ _ _ _ _ _ _ _ _ _ _ (IAttr attr) H Et Eo Hl Hkv) as (c' & h1 & h2 & Ec' & _ & E1 & E2 & Hr & Hsl); [done|by rewrite Hks|].
    assert (c' = c) as -> by congruence. cbn [item_bytes] in E1. rewrite E1. cbn [mbind option_bind]. rewrite Hks in E2. rewrite E2. cbn [mbind option_bind fst snd].
    eexists. split; [done|]. eapply refines_items; [done|done|done|done].
  - pose proof (sim_alloc st s i CHUNK_ATTR (kv_size attr) R ltac:(rewrite kv_size_eq by done; apply size_nonneg)) as Ha.
    destruct (sp_fits s _) eqn:Ef.
    + destruct (attr_fits attr Hv Hw (fits_small _ _ _ R Ef)) as [Hkv Hks].
      destruct Ha as (h1 & n & E1 & Hs1 & Hp1). rewrite <- Hks in Hp1. destruct (pending_fill h1 (tbl s) i n (IAttr attr) Hp1 Hkv) as (h2 & c2 & E2 & Hs2 & (l2 & os' & H2 & Hin2) & Hh2 & Hn2).
      rewrite E1. cbn [mbind option_bind item_bytes] in *. rewrite E2. cbn [mbind option_bind].
      pose proof (rw_find _ _ _ _ _ _ _ CHUNK_ATTR (Some (cstr_str (lk_key attr))) H2 (tbl_lookup _ _ _ Ei) ltac:(done)) as Hf2. rewrite Hsp in Hf2.
      destruct Hf2 as (_ & ps1 & o2 & ps2 & Eo2 & Hl2 & Hno2 & Hfind2). rewrite Hfind2. cbn [mbind option_bind].
      destruct (splice_spec _ _ _ _ _ _ _ _ _ _ _ _ _ _ H2 Hin2 Hh2 Et Eo2 Hl2) as (h3 & E3 & Hr & Hs3). rewrite E3. cbn [mbind option_bind fst snd].
      eexists. split; [done|]. unfold new_cell in Hr. rewrite Hks in Hr. eapply refines_items; [done|done|done|]. etransitivity; [done|]. by etransitivity.
    + destruct Ha as (h1 & E1 & R1). rewrite E1. cbn [mbind option_bind fst snd]. eexists. split; [done|].
      rewrite <- (rf_env _ _ R). apply (refines_env _ _ (drop_attributes 1 (ls_env st)) R1).
Qed.

Lemma with_heap_twice h h' st : with_heap h' (with_heap h st) = with_heap h' st.
Proof. done. Qed.
(** An item appended and counted in the record. *)
Lemma sim_append_counted st s i a it f :
  refines st s → sp_spans s !! i = Some (Some a) → item_ok it → sp_fits s (chunk_hdr_size + item_size it) = true →
  (∀ r, sr_head (f r) = sr_head r ∧ sr_tail (f r) = sr_tail r ∧ sr_state (f r) = sr_state r ∧ sr_next_ended (f r) = sr_next_ended r
        ∧ meta_of (f r) = f (meta_of r)) →
  ∃ h1 o h2 h3 r h4, alloc_chunk (ls_heap st) (Z.of_nat i) (item_kind it) (item_size it) = Some (h1, Some o)
  ∧ write_payload h1 o (item_bytes it) = Some h2 ∧ link_chunk h2 (Z.of_nat i) o = Some h3
  ∧ get_slot h3 (Z.of_nat i) = Some r ∧ meta_of r = as_rec a ∧ put_slot h3 (Z.of_nat i) (f r) = Some h4
  ∧ refines (with_heap h4 st) (set_span i (mkASpan (f (as_rec a)) (as_items a ++ [new_cell it])) s).
Proof.
  intros R Ei Hit Hf Hfr. destruct (sim_append st s i a it R Ei Hit Hf) as (h1 & o & h2 & h3 & E1 & E2 & E3 & R3).
  set (a' := mkASpan (as_rec a) (as_items a ++ [new_cell it])) in *.
  assert (sp_spans (set_span i a' s) !! i = Some (Some a')) as Ei' by (cbn; apply list_lookup_insert_eq; by eapply lookup_lt_Some).
  destruct (refines_put_slot _ _ i a' f R3 Ei' Hfr) as (r & h4 & Er & Hm & E4 & R4). cbn [ls_heap with_heap] in *.
  exists h1, o, h2, h3, r, h4. split_and!; try done. rewrite with_heap_twice in R4.
  unfold set_span, with_spans in *. cbn in R4. rewrite list_insert_insert_eq in R4. exact R4.
Qed.

Lemma sim_add_attr st s i a attr :
  refines st s → sp_spans s !! i = Some (Some a) → kv_valid attr = true → value_wf (lk_value attr) →
  split_first (cell_is CHUNK_ATTR (Some (cstr_str (lk_key attr)))) (as_items a) = None →
  simulates (add_attr st (Z.of_nat i) attr) (sp_set_attribute i a attr s).
Proof.
  intros R Ei Hv Hw Hsp. unfold simulates, add_attr, sp_set_attribute. rewrite Hsp.
  destruct (rf_meta _ _ R _ _ Ei) as (r & Er & Hm). destruct (meta_state _ _ Hm) as (_ & _ & Hac & _). rewrite Er. cbn [mbind option_bind].
  rewrite (rf_env _ _ R), Hac. destruct (max_attrs (sp_env s) <=? sr_attr_count r).
  { eexists. split; [done|]. by apply refines_env. }
  destruct (sp_fits s (chunk_hdr_size + kv_size attr)) eqn:Ef.
  - destruct (attr_fits attr Hv Hw (fits_small _ _ _ R Ef)) as [Hkv Hks].
    destruct (sim_append_counted st s i a (IAttr attr) (set_attr_count (to_uint 16 (sr_attr_count r + 1))) R Ei Hkv)
      as (h1 & o & h2 & h3 & r' & h4 & E1 & E2 & E3 & E4 & Hm' & E5 & R5); [by rewrite Hks|by repeat split|].
    cbn [item_bytes item_kind] in *. rewrite Hks in E1. rewrite E1. cbn [mbind option_bind]. rewrite E2. cbn [mbind option_bind]. rewrite E3. cbn [mbind option_bind].
    rewrite E4. cbn [mbind option_bind]. destruct (meta_state _ _ Hm') as (_ & _ & Hac' & _). rewrite <- Hac', Hac, E5. cbn [mbind option_bind].
    eexists. split; [done|]. unfold new_cell in R5. rewrite Hks in R5. exact R5.
  - pose proof (sim_alloc st s i CHUNK_ATTR (kv_size attr) R ltac:(rewrite kv_size_eq by done; apply size_nonneg)) as Ha. rewrite Ef in Ha.
    destruct Ha as (h1 & E1 & R1). rewrite E1. cbn [mbind option_bind fst snd]. eexists. split; [done|]. by apply (refines_env _ _ _ R1).
Qed.
Lemma sim_set_attribute st s i a attr :
  refines st s → sp_spans s !! i = Some (Some a) → kv_valid attr = true → value_wf (lk_value attr) →
  simulates (set_attribute st (Z.of_nat i) attr) (sp_set_attribute i a attr s).
Proof.
  intros R Ei Hv Hw. unfold set_attribute.
  destruct (split_first (cell_is CHUNK_ATTR (Some (cstr_str (lk_key attr)))) (as_items a)) as [[[xs1 x] xs2]|] eqn:E.
  - destruct (sim_overwrite_attr _ _ _ _ _ _ _ _ R Ei Hv Hw E) as (old & prev & -> & Hno & Hs). cbn [mbind option_bind].
    apply Z.eqb_neq in Hno. by rewrite Hno.
  - destruct (rf_rep _ _ R) as (l & os & H).
    pose proof (rw_find _ _ _ _ _ _ _ CHUNK_ATTR (Some (cstr_str (lk_key attr))) H (tbl_lookup _ _ _ Ei) ltac:(done)) as Hf. rewrite E in Hf.
    rewrite Hf. cbn [mbind option_bind]. rewrite Z.eqb_refl. by apply sim_add_attr.
Qed.

(** *** Events *)

Definition clock_wf (e : leaf_env) : Prop := match now_ns e with Some f => ∀ n, is_u64 (f n) | None => True end.
Lemma read_clock_u64 e : clock_wf e → is_u64 (read_clock e).1.
Proof. unfold clock_wf, read_clock. destruct (now_ns e); [intros H; apply H|cbn; width_lia]. Qed.
Lemma event_size_nonneg name attrs : kvs_valid attrs = true → 0 <= event_size name attrs.
Proof.
  intros H. destruct (kvs_size_lower _ H) as [H1 _]. pose proof (size_nonneg attrs). pose proof (size_nonneg name). unfold event_size, event_hdr_size. lia.
Qed.
Lemma kvs_valid_take n attrs : kvs_valid attrs = true → kvs_valid (take n attrs) = true.
Proof.
  unfold kvs_valid. intros H. rewrite <- (take_drop n attrs) in H. rewrite forallb_app in H. by bool_hyps.
Qed.

Lemma sim_add_event st s i a name attrs :
  refines st s → sp_spans s !! i = Some (Some a) → kvs_valid attrs = true → Forall (λ kv, value_wf (lk_value kv)) attrs → clock_wf (sp_env s) →
  simulates (add_event st (Z.of_nat i) name attrs) (sp_add_event i a name attrs s).
Proof.
  intros R Ei Hv Hw Hc. unfold simulates, add_event, sp_add_event.
  destruct (rf_meta _ _ R _ _ Ei) as (r & Er & Hm). destruct (meta_state _ _ Hm) as (_ & _ & _ & Hec & _). rewrite Er. cbn [mbind option_bind].
  rewrite (rf_env _ _ R), Hec. destruct (max_events (sp_env s) <=? sr_event_count r).
  { eexists. split; [done|]. by apply refines_env. }
  set (kept := if size attrs <? max_event_attrs (sp_env s) then size attrs else max_event_attrs (sp_env s)).
  set (attrs1 := take (Z.to_nat kept) attrs). pose proof (kvs_valid_take (Z.to_nat kept) attrs Hv : kvs_valid attrs1 = true) as Hv1.
  assert (Forall (λ kv, value_wf (lk_value kv)) attrs1) as Hw1 by (by apply Forall_take).
  destruct (sp_fits s (chunk_hdr_size + event_size name attrs1)) eqn:Ef.
  - pose proof (read_clock_u64 _ Hc) as Ht. destruct (read_clock (sp_env s)) as [time e] eqn:Erc. cbn [fst] in Ht.
    assert (event_fits time name attrs1) as Hev by (split; [done|done|done|by apply (fits_small _ _ _ R Ef)]).
    assert (item_size (IEvent time name attrs1) = event_size name attrs1) as Hsz.
    { unfold item_size. cbn. apply size_pack_event. by destruct (event_fits_attrs _ _ _ Hev). }
    destruct (sim_append_counted st s i a (IEvent time name attrs1) (set_event_count (to_uint 16 (sr_event_count r + 1))) R Ei Hev)
      as (h1 & o & h2 & h3 & r' & h4 & E1 & E2 & E3 & E4 & Hm' & E5 & R5); [by rewrite Hsz|by repeat split|].
    cbn [item_bytes item_kind] in *. rewrite Hsz in E1. rewrite E1. cbn [mbind option_bind]. rewrite E2. cbn [mbind option_bind]. rewrite E3. cbn [mbind option_bind].
    rewrite E4. cbn [mbind option_bind]. destruct (meta_state _ _ Hm') as (_ & _ & _ & Hec' & _). rewrite <- Hec', Hec, E5. cbn [mbind option_bind].
    eexists. split; [done|]. unfold new_cell in R5. rewrite Hsz in R5. by apply (refines_env _ _ _ R5).
  - pose proof (sim_alloc st s i CHUNK_EVENT (event_size name attrs1) R (event_size_nonneg _ _ Hv1)) as Ha. rewrite Ef in Ha.
    destruct Ha as (h1 & E1 & R1). rewrite E1. cbn [mbind option_bind fst snd]. eexists. split; [done|]. by apply (refines_env _ _ _ R1).
Qed.

(** *** Status *)

Lemma sim_alloc_string st s i it (m : str) :
  refines st s → item_ok it → item_bytes it = code <$> m →
  if sp_fits s (chunk_hdr_size + size m)
  then ∃ h o c, alloc_string (ls_heap st) (Z.of_nat i) (item_kind it) m = Some (h, Some o) ∧ slots_same (ls_heap st) h
       ∧ pending h (tbl s) o c ∧ holds (Z.of_nat i) c (mkCell it (chunk_hdr_size + size m)) ∧ ch_next (c_hdr c) = NONE32
  else ∃ h, alloc_string (ls_heap st) (Z.of_nat i) (item_kind it) m = Some (h, None) ∧ refines (with_heap h st) s.
Proof.
  intros R Hit Eb. assert (item_size it = size m) as Hsz by (unfold item_size; rewrite Eb; apply size_fmap).
  pose proof (sim_alloc st s i (item_kind it) (size m) R (size_nonneg _)) as Ha. unfold alloc_string. destruct (sp_fits s _).
  - destruct Ha as (h1 & o & E1 & Hs1 & Hp1). rewrite <- Hsz in Hp1. destruct (pending_fill _ _ _ _ _ Hp1 Hit) as (h2 & c & E2 & Hs2 & Hp2 & Hh & Hn).
    rewrite E1. cbn [mbind option_bind]. rewrite <- Eb, E2. cbn [mbind option_bind]. exists h2, o, c. unfold new_cell in Hh. rewrite Hsz in Hh.
    split_and!; [done|by etransitivity|done|done|done].
  - destruct Ha as (h1 & E1 & R1). rewrite E1. by exists h1.
Qed.

Definition sp_status_items (xs : list cell) (message : str) (fits : bool) : option (list cell) :=
  let need := chunk_hdr_size + size message in
  match split_first (cell_is CHUNK_STATUS None) xs with
  | Some (xs1, x, xs2) =>
      if size message =? 0 then Some (xs1 ++ xs2)
      else if need <=? cl_cap x then Some (xs1 ++ mkCell (IStatus message) (cl_cap x) :: xs2)
      else if fits then Some ((xs1 ++ xs2) ++ [mkCell (IStatus message) need]) else None
  | None =>
      if size message =? 0 then Some xs
      else if fits then Some (xs ++ [mkCell (IStatus message) need]) else None
  end.
Lemma sp_set_status_eq i a code message s :
  sp_set_status i a code message s
  = match sp_status_items (as_items a) message (sp_fits s (chunk_hdr_size + size message)) with
    | Some xs => (set_span i (mkASpan (set_status_code code (as_rec a)) xs) s, OK)
    | None => (s, ERR_NO_SPACE)
    end.
Proof.
  unfold sp_set_status, sp_status_items. destruct (split_first _ _) as [[[xs1 x] xs2]|]; repeat (destruct (_ =? _) || destruct (_ <=? _) || destruct (sp_fits _ _)); done.
Qed.

(** The rest of [set_status_message] when the message needs a new chunk. *)
Lemma sim_status_new st s i a message :
  refines st s → sp_spans s !! i = Some (Some a) →
  sp_fits s (chunk_hdr_size + size message) = true →
  let xs := match split_first (cell_is CHUNK_STATUS None) (as_items a) with Some (xs1, _, xs2) => xs1 ++ xs2 | None => as_items a end in
  ∃ h1 o h2 old prev h3, alloc_string (ls_heap st) (Z.of_nat i) CHUNK_STATUS message = Some (h1, Some o)
  ∧ find_chunk h1 (Z.of_nat i) CHUNK_STATUS None = Some (old, prev)
  ∧ (if old =? NONE32 then Some h1 else unlink_chunk h1 (Z.of_nat i) prev old) = Some h2
  ∧ link_chunk h2 (Z.of_nat i) o = Some h3
  ∧ refines (with_heap h3 st) (set_span i (mkASpan (as_rec a) (xs ++ [mkCell (IStatus message) (chunk_hdr_size + size message)])) s).
Proof.
  intros R Ei Hf xs. pose proof (sim_alloc_string st s i (IStatus message) message R I eq_refl) as Ha. rewrite Hf in Ha.
  destruct Ha as (h1 & o & c & E1 & Hs1 & (l & os & H & Hin) & Hh & Hn). pose proof (tbl_lookup _ _ _ Ei) as Et.
  pose proof (rw_find _ _ _ _ _ _ _ CHUNK_STATUS None H Et ltac:(done)) as Hfind. cbn [item_kind] in E1. unfold xs. clear xs.
  assert (Hfin : ∀ h2 ys, pending h2 (<[i := Some ys]> (tbl s)) o c → slots_same h1 h2 →
    ∃ h3, link_chunk h2 (Z.of_nat i) o = Some h3
    ∧ refines (with_heap h3 st) (set_span i (mkASpan (as_rec a) (ys ++ [mkCell (IStatus message) (chunk_hdr_size + size message)])) s)).
  { intros h2 ys Hp Hs2. destruct (rep_link h2 _ i ys o c _ Hp ltac:(apply list_lookup_insert_eq; by eapply lookup_lt_Some) Hh Hn) as (h3 & E3 & Hr & Hs3).
    exists h3. split; [done|]. rewrite list_insert_insert_eq in Hr. eapply refines_items; [done|done|done|]. etransitivity; [exact Hs1|]. by etransitivity. }
  destruct (split_first (cell_is CHUNK_STATUS None) (as_items a)) as [[[xs1 x] xs2]|].
  - destruct Hfind as (Exs & os1 & old & os2 & Eo & Hl & Hno & Hfind). rewrite Exs in Et.
    assert (∀ o', o' ∈ [o] → o' ∈ (place (data_low h1) l).*1) as Hpe by (intros o' ->%list_elem_of_singleton; apply elem_place_fst; eauto).
    destruct (unlink_spec _ _ _ _ _ _ _ _ _ _ _ _ H Hpe Et Eo Hl) as (h2 & l2 & E2 & H2 & Hs2 & Hkeep).
    destruct (Hfin h2 (xs1 ++ xs2)) as (h3 & E3 & R3); [eexists _, _; split; [exact H2|apply Hkeep; [left|done]]|done|].
    exists h1, o, h2, old, (prev_of os1), h3. apply Z.eqb_neq in Hno. rewrite Hno. by split_and!.
  - destruct (Hfin h1 (as_items a)) as (h3 & E3 & R3); [rewrite list_insert_id by done; by exists l, os|done|].
    exists h1, o, h1, NONE32, (prev_of (os i)), h3. by split_and!.
Qed.

Lemma sim_status_message st s i a message :
  refines st s → sp_spans s !! i = Some (Some a) →
  ∃ h, match sp_status_items (as_items a) message (sp_fits s (chunk_hdr_size + size message)) with
       | Some xs => set_status_message (ls_heap st) (Z.of_nat i) message = Some (h, OK) ∧ refines (with_heap h st) (set_span i (mkASpan (as_rec a) xs) s)
       | None => set_status_message (ls_heap st) (Z.of_nat i) message = Some (h, ERR_NO_SPACE) ∧ refines (with_heap h st) s
       end.
Proof.
  intros R Ei. pose proof (tbl_lookup _ _ _ Ei) as Et. destruct (rf_rep _ _ R) as (l & os & H).
  pose proof (rw_find _ _ _ _ _ _ _ CHUNK_STATUS None H Et ltac:(done)) as Hf. unfold set_status_message, sp_status_items.
  assert (0 <? size message = negb (size message =? 0)) as Hz.
  { pose proof (size_nonneg message). apply eq_true_iff_eq. rewrite negb_true_iff, Z.ltb_lt, Z.eqb_neq. lia. }
  assert (Hnew : size message =? 0 = false →
    let xs := match split_first (cell_is CHUNK_STATUS None) (as_items a) with Some (xs1, _, xs2) => xs1 ++ xs2 | None => as_items a end in
    ∃ h, let k := ('(h, repl) ← alloc_string (ls_heap st) (Z.of_nat i) CHUNK_STATUS message;
                   match repl with
                   | None => Some (h, ERR_NO_SPACE)
                   | Some repl => '(old, prev) ← find_chunk h (Z.of_nat i) CHUNK_STATUS None;
                                  h ← (if old =? NONE32 then Some h else unlink_chunk h (Z.of_nat i) prev old);
                                  h ← link_chunk h (Z.of_nat i) repl; Some (h, OK)
                   end) in
    if sp_fits s (chunk_hdr_size + size message)
    then k = Some (h, OK) ∧ refines (with_heap h st) (set_span i (mkASpan (as_rec a) (xs ++ [mkCell (IStatus message) (chunk_hdr_size + size message)])) s)
    else k = Some (h, ERR_NO_SPACE) ∧ refines (with_heap h st) s).
  { intros _ xs. destruct (sp_fits s _) eqn:Efit.
    - destruct (sim_status_new st s i a message R Ei Efit) as (h1 & o & h2 & old & prev & h3 & E1 & E2 & E3 & E4 & R3).
      exists h3. split; [|done]. rewrite E1. cbn [mbind option_bind]. rewrite E2. cbn [mbind option_bind]. rewrite E3. cbn [mbind option_bind].
      rewrite E4. done.
    - pose proof (sim_alloc_string st s i (IStatus message) message R I eq_refl) as Ha. rewrite Efit in Ha. destruct Ha as (h1 & E1 & R1).
      cbn [item_kind] in E1. exists h1. rewrite E1. done. }
  destruct (split_first (cell_is CHUNK_STATUS None) (as_items a)) as [[[xs1 x] xs2]|] eqn:Esp.
  - destruct Hf as (Exs & os1 & o & os2 & Eo & Hl & Hno & ->). cbn [mbind option_bind]. apply Z.eqb_neq in Hno. rewrite Hno.
    pose proof (split_first_Some _ _ _ _ _ Esp) as (_ & Hx & _). unfold cell_is in Hx. bool_hyps.
    rewrite Exs in Et. destruct (rw_span _ _ _ _ _ H i _ Et) as (r & Er & _ & Hs & _). rewrite Eo in Hs.
    apply seg_split in Hs as (_ & _ & c & Ec & Hh & _); [|done]. rewrite (get_chunk_spec _ _ _ Ec). cbn [mbind option_bind].
    assert (ch_size (c_hdr c) = cl_cap x) as -> by (apply (ho_cap _ _ _ Hh)).
    assert (size message <=? cl_cap x - chunk_hdr_size = (chunk_hdr_size + size message <=? cl_cap x)) as -> by (apply eq_true_iff_eq; rewrite !Z.leb_le; lia).
    rewrite Hz. destruct (size message =? 0) eqn:E0; cbn [negb andb].
    + destruct (unlink_spec _ _ _ _ _ _ _ _ _ _ _ _ H ltac:(by intros ? ?%elem_of_nil) Et Eo Hl) as (h2 & l2 & E2 & H2 & Hs2 & _).
      rewrite E2. exists h2. split; [done|]. eapply refines_items; [done|done|by eexists _, _|done].
    + destruct (chunk_hdr_size + size message <=? cl_cap x) eqn:Ecap; bool_hyps.
      * assert (item_size (IStatus message) = size message) as Hsz by apply size_fmap.
        destruct (overwrite_spec _ _ _ _ _ _ _ _ _ _ _ (IStatus message) H Et Eo Hl I) as (c' & h1 & h2 & Ec' & _ & E1 & E2 & Hr & Hsl); [done|by rewrite Hsz|].
        assert (c' = c) as -> by congruence. cbn [item_bytes] in E1. rewrite E1. cbn [mbind option_bind]. rewrite Hsz in E2. rewrite E2.
        exists h2. split; [done|]. by eapply refines_items.
      * destruct (Hnew eq_refl) as (h & Hk). exists h. destruct (sp_fits s _); exact Hk.
  - rewrite Hf. cbn [mbind option_bind]. rewrite Z.eqb_refl. destruct (size message =? 0) eqn:E0.
    + exists (ls_heap st). split; [done|]. eapply refines_items; [done|done| |done]. rewrite list_insert_id by done. by exists l, os.
    + destruct (Hnew eq_refl) as (h & Hk). exists h. destruct (sp_fits s _); exact Hk.
Qed.

Lemma sim_set_status st s i a code message :
  refines st s → sp_spans s !! i = Some (Some a) → simulates (set_status st (Z.of_nat i) code message) (sp_set_status i a code message s).
Proof.
  intros R Ei. rewrite sp_set_status_eq. unfold simulates, set_status. destruct (sim_status_message st s i a message R Ei) as (h & Hm).
  destruct (sp_status_items _ _ _) as [xs|]; destruct Hm as [-> R1]; cbn [mbind option_bind].
  - rewrite bool_decide_true by done. set (a' := mkASpan (as_rec a) xs) in *.
    assert (sp_spans (set_span i a' s) !! i = Some (Some a')) as Ei' by (cbn; apply list_lookup_insert_eq; by eapply lookup_lt_Some).
    destruct (refines_put_slot _ _ i a' (set_status_code code) R1 Ei') as (r & h4 & Er & _ & E4 & R4); [by repeat split|].
    cbn [ls_heap with_heap] in *. rewrite Er. cbn [mbind option_bind]. rewrite E4. cbn [mbind option_bind fst snd]. eexists. split; [done|].
    unfold set_span, with_spans in *. cbn in R4. rewrite list_insert_insert_eq in R4. exact R4.
  - rewrite bool_decide_false by done. by eexists.
Qed.

(** *** Ending a span *)

Lemma queue_snoc h h' i j q : ∀ off,
  queue h off (q ++ [j]) → slot_count h' = slot_count h → Z.of_nat i < slot_count h →
  (∀ k, k ∈ q → get_slot h' (Z.of_nat k) = get_slot h (Z.of_nat k)) →
  (∃ t, get_slot h' (Z.of_nat j) = Some t ∧ sr_next_ended t = Z.of_nat i) →
  (∃ r, get_slot h' (Z.of_nat i) = Some r ∧ sr_next_ended r = NONE16) → queue h' off ((q ++ [j]) ++ [i]).
Proof.
  intros off Hq En Hi Hk (t & Et & Ht) (r & Er & Hr). revert off Hq. induction q as [|k q IH]; intros off; cbn.
  - intros (-> & Hj & _). split; [done|]. rewrite En. split; [done|]. exists t. split; [done|]. rewrite Ht. split; [done|].
    split; [done|]. exists r. by rewrite Hr.
  - intros (-> & Hk' & rk & Erk & Hq). split; [done|]. rewrite En. split; [done|]. exists rk. rewrite Hk by left. split; [done|].
    apply IH; [|done]. intros; apply Hk. by right.
Qed.
Lemma queue_tail st s j : refines st s → last (sp_ended s) = Some j → ended_tail st = Z.of_nat j ∧ Z.of_nat j ≠ NONE16.
Proof.
  intros R El. rewrite (rf_tail _ _ R), El. split; [done|]. apply last_elem in El. destruct (rf_ended_open _ _ R) as [_ Ho].
  destruct (Ho j El) as (a & Ea & _). pose proof (rf_index _ _ _ _ R Ea). pose proof (rf_count _ _ R). lia.
Qed.

(** The slot of [i] and, if there is one, the last ended slot rewritten. *)
Lemma end_slots st s i a r r1 :
  refines st s → sp_spans s !! i = Some (Some a) → sr_state (as_rec a) = SLOT_OPEN → get_slot (ls_heap st) (Z.of_nat i) = Some r →
  sr_head r1 = sr_head r → sr_tail r1 = sr_tail r → sr_state r1 ≠ SLOT_FREE →
  ∃ h1 h2, put_slot (ls_heap st) (Z.of_nat i) r1 = Some h1
  ∧ (if ended_tail st =? NONE16 then Some h1 else t ← get_slot h1 (ended_tail st); put_slot h1 (ended_tail st) (set_next_ended (Z.of_nat i) t)) = Some h2
  ∧ rep h2 (tbl s) ∧ same_frame (ls_heap st) h2 ∧ get_slot h2 (Z.of_nat i) = Some r1
  ∧ (∀ j, j ≠ i → ∃ f, (f = id ∨ f = set_next_ended (Z.of_nat i)) ∧ get_slot h2 (Z.of_nat j) = f <$> get_slot (ls_heap st) (Z.of_nat j)
        ∧ (f = id ∨ last (sp_ended s) = Some j) ∧ (last (sp_ended s) = Some j → f = set_next_ended (Z.of_nat i))).
Proof.
  intros R Ei Hst Er Hh Ht Hs1. destruct (rf_meta _ _ R _ _ Ei) as (r' & Er' & Hm). assert (r' = r) as -> by congruence.
  destruct (meta_state _ _ Hm) as (Hs & _). pose proof (tbl_lookup _ _ _ Ei) as Et.
  destruct (rep_put_slot _ _ i _ r r1 (rf_rep _ _ R) Et Er Hh Ht) as (h1 & E1 & R1 & Hf1 & Hg1); [rewrite <- Hs, Hst; split; done|].
  exists h1. destruct (last (sp_ended s)) as [j|] eqn:El.
  - destruct (queue_tail _ _ _ R El) as [-> Hn]. apply Z.eqb_neq in Hn. rewrite Hn. pose proof (last_elem _ _ El) as Hj.
    destruct (rf_ended_open _ _ R) as [_ Ho]. destruct (Ho j Hj) as (b & Eb & Hb). destruct (rf_meta _ _ R _ _ Eb) as (t & Etj & Hmt).
    assert (j ≠ i) as Hji by (intros ->; congruence).
    assert (get_slot h1 (Z.of_nat j) = Some t) as Et1 by (rewrite Hg1, decide_False by lia; done). rewrite Et1. cbn [mbind option_bind].
    destruct (rep_put_slot h1 (tbl s) j _ t (set_next_ended (Z.of_nat i) t) R1 (tbl_lookup _ _ _ Eb) Et1) as (h2 & E2 & R2 & Hf2 & Hg2); [done|done|done|].
    exists h2. split_and!; [done|done|done|by etransitivity|rewrite Hg2, decide_False by lia; by rewrite Hg1, decide_True|].
    intros k Hk. destruct (decide (k = j)) as [->|Hkj].
    + exists (set_next_ended (Z.of_nat i)). rewrite Hg2, decide_True, Etj by done. split_and!; [by right|done|by right|done].
    + exists id. rewrite Hg2, decide_False by lia. rewrite Hg1, decide_False by lia. split_and!; [by left|by rewrite option_fmap_id|by left|congruence].
  - rewrite (rf_tail _ _ R), El, Z.eqb_refl. exists h1. split_and!; [done|done|done|done|by rewrite Hg1, decide_True|].
    intros k Hk. exists id. rewrite Hg1, decide_False by lia. split_and!; [by left|by rewrite option_fmap_id|by left|done].
Qed.

Lemma sim_end_span st s i a :
  refines st s → sp_spans s !! i = Some (Some a) → sr_state (as_rec a) = SLOT_OPEN → simulates (end_span st (Z.of_nat i)) (sp_end_span i a s).
Proof.
  intros R Ei Hst. pose proof (rf_meta _ _ R _ _ Ei) as (r & Er & Hm). unfold simulates, end_span, sp_end_span. rewrite Er. cbn [mbind option_bind].
  rewrite (rf_env _ _ R). destruct (read_clock (sp_env s)) as [time e].
  destruct (end_slots st s i a r (set_end time r) R Ei Hst Er) as (h1 & h2 & E1 & E2 & R2 & (F1 & F2 & F3) & Hgi & Hgj); [done|done|done|].
  rewrite E1. cbn [mbind option_bind]. rewrite E2. cbn [mbind option_bind fst snd]. eexists. split; [done|].
  pose proof (lookup_lt_Some _ _ _ Ei) as Hi. destruct (rf_ended_open _ _ R) as [Hnd Ho].
  assert (i ∉ sp_ended s) as Hni by (intros Hx; destruct (Ho i Hx) as (b & Eb & Hb); congruence).
  split; cbn [ls_env ls_heap ended_head ended_tail sp_env sp_spans sp_room sp_ended]; try done.
  - change (rep h2 (tbl (set_span i (on_rec (set_end time) a) s))). rewrite tbl_set. cbn. by rewrite list_insert_id by (by apply tbl_lookup).
  - intros j b Ej. destruct (decide (j = i)) as [->|Hne].
    + rewrite list_lookup_insert_eq in Ej by done. injection Ej as <-. eexists. split; [exact Hgi|]. cbn. rewrite <- Hm. done.
    + rewrite list_lookup_insert_ne in Ej by done. destruct (rf_meta _ _ R _ _ Ej) as (rj & Erj & Hmj). destruct (Hgj j Hne) as (f & Hf & -> & _).
      rewrite Erj. eexists. split; [done|]. by destruct Hf as [-> | ->].
  - by rewrite F3, (rf_room _ _ R).
  - rewrite F1. apply R.
  - assert (Hii : Z.of_nat i < slot_count (ls_heap st)) by (pose proof (rf_index _ _ _ _ R Ei); lia).
    destruct (last (sp_ended s)) as [j|] eqn:El.
    + destruct (queue_tail _ _ _ R El) as [-> Hn]. apply Z.eqb_neq in Hn. rewrite Hn. apply last_Some in El as El'. destruct El' as [q Eq].
      rewrite Eq. rewrite Eq in Hnd. apply NoDup_app in Hnd as (_ & Hd & _). pose proof (rf_ended _ _ R) as Hq. rewrite Eq in Hq.
      assert (j ≠ i) as Hji by (intros ->; apply Hni; rewrite Eq; set_solver).
      eapply queue_snoc; [exact Hq|done|done| | |].
      * intros k Hk. assert (k ≠ i) as Hki by (intros ->; apply Hni; rewrite Eq; set_solver). destruct (Hgj k Hki) as (f & _ & -> & [-> | Hx] & _).
        -- by rewrite option_fmap_id.
        -- injection Hx as ->. exfalso. apply (Hd _ Hk). left.
      * destruct (Hgj j Hji) as (f & _ & -> & _ & ->); [|done]. destruct (Ho j) as (b & Eb & _); [rewrite Eq; set_solver|].
        destruct (rf_meta _ _ R _ _ Eb) as (t & -> & _). eexists. split; [done|]. done.
      * eexists. split; [exact Hgi|done].
    + rewrite (rf_tail _ _ R), El, Z.eqb_refl. apply last_None in El. rewrite El. cbn. split; [done|]. rewrite F1. split; [done|].
      eexists. split; [exact Hgi|done].
  - by rewrite last_app.
  - split.
    + apply NoDup_app. split_and!; [done|set_solver|apply NoDup_singleton].
    + intros j [Hj | ->%list_elem_of_singleton]%elem_of_app.
      * destruct (Ho j Hj) as (b & Eb & Hb). assert (j ≠ i) by (intros ->; done). exists b. by rewrite list_lookup_insert_ne.
      * exists (on_rec (set_end time) a). by rewrite list_lookup_insert_eq.
Qed.
