(* ===== verification/LeafRefine.v ===== *)
(** * The leaf core refines its specification: slots

    The simulation of the operations that change the span table: starting a span and
    releasing the encoded ones, with the operations on an open span.  Encoding is in
    [LeafEncode], initialisation and whole runs are in [LeafRun]. *)
From stdpp Require Import gmap sorting.
From S2P Require Import Prelude Trace LeafKv LeafMem LeafHeap LeafCore LeafSpec.

(** ** The span table *)

(** A new free slot at the end of the table. *)
Lemma rw_grow h A l os :
  rep_with h A l os [] → fits_below h span_rec_size = true →
  ∃ h', put_slot (with_slot_count h (slot_count h + 1)) (slot_count h) zero_rec = Some h' ∧ rep h' (A ++ [None])
  ∧ persist_off h' = persist_off h ∧ slot_count h' = slot_count h + 1 ∧ ∀ j, 0 <= j < slot_count h → get_slot h' j = get_slot h j.
Proof.
  intros H Hf. pose proof (rw_heap _ _ _ _ _ H) as [Hn Hs Hlow Ht Hok Hsum Hmax]. unfold fits_below, table_end, slot_off, span_rec_size in *. bool_hyps.
  pose proof (csizes_nonneg l Hok).
  destruct (put_slot_spec (with_slot_count h (slot_count h + 1)) (slot_count h) zero_rec) as (h' & E & (F1 & F2 & F3) & Hg & Hc);
    [done|unfold slot_off, span_rec_size; cbn; lia|]. cbn [slot_count data_low persist_off chunks with_slot_count] in *.
  exists h'. split; [done|]. assert (tiled (chunks h') (data_low h) l) as Ht'.
  { rewrite Hc. apply tiled_clobber; [done|done|]. left. unfold slot_off, span_rec_size. lia. }
  assert (Hg' : ∀ j, 0 <= j < slot_count h → get_slot h' j = get_slot h j) by (intros j Hj; rewrite Hg, decide_False by lia; done).
  split; [|done]. exists l, os. split; [split| | | |]; unfold table_end, slot_off, span_rec_size in *; rewrite ?F1, ?F2, ?F3; try done; try lia.
  - intros j Hj. rewrite Hg. destruct (decide _); [by eexists|]. apply Hs. lia.
  - rewrite (rw_count _ _ _ _ _ H), size_app. done.
  - intros i Ei. rewrite lookup_app in Ei. destruct (A !! i) as [a|] eqn:Ea.
    + injection Ei as ->. rewrite Hg' by (rewrite (rw_count _ _ _ _ _ H); apply lookup_lt_Some in Ea; unfold size; lia).
      by apply (rw_free _ _ _ _ _ H).
    + apply lookup_ge_None in Ea. exists zero_rec. split; [|done]. rewrite Hg, decide_True; [done|]. rewrite (rw_count _ _ _ _ _ H). unfold size.
      destruct (i - length A)%nat eqn:E0; [lia|by destruct n].
  - intros i xs Ei. rewrite lookup_app in Ei. destruct (A !! i) as [a|] eqn:Ea; [|by destruct (i - length A)%nat as [|[]]]. injection Ei as ->.
    destruct (rw_span _ _ _ _ _ H i xs Ea) as (r & Er & Hr & Hsg & Htl & Hnd & Hin). exists r. rewrite Hg' by (rewrite (rw_count _ _ _ _ _ H); apply lookup_lt_Some in Ea; unfold size; lia).
    split_and!; try done. eapply seg_frame; [|exact Hsg]. intros o Ho. destruct (Hin o Ho) as (_ & c & Hcc).
    by rewrite (tiled_elem _ _ _ _ _ Ht' Hcc), (tiled_elem _ _ _ _ _ Ht Hcc).
  - intros o c Hin. destruct (rw_tiles _ _ _ _ _ H o c Hin) as [|[|(i & xs & Ei & Ho)]]; [by left|by right; left|].
    right. right. exists i, xs. split; [|done]. by apply lookup_app_l_Some.
Qed.

(** The last slot dropped. *)
Lemma rw_shrink h A l os e :
  rep_with h (A ++ [None]) l os e → rep_with (with_slot_count h (slot_count h - 1)) A l os e.
Proof.
  intros H. pose proof (rw_heap _ _ _ _ _ H) as [Hn Hs Hlow Ht Hok Hsum Hmax]. pose proof (rw_count _ _ _ _ _ H) as Hcn. rewrite size_app in Hcn.
  change (size [None]) with 1 in Hcn. pose proof (size_nonneg A).
  split; [split| | | |]; unfold table_end, slot_off, span_rec_size in *; cbn [slot_count data_low persist_off chunks with_slot_count]; try done; try lia.
  - intros j Hj. apply Hs. cbn in Hj. lia.
  - intros i Ei. apply (rw_free _ _ _ _ _ H i). by apply lookup_app_l_Some.
  - intros i xs Ei. apply (rw_span _ _ _ _ _ H i xs). by apply lookup_app_l_Some.
  - intros o c Hin. destruct (rw_tiles _ _ _ _ _ H o c Hin) as [|[|(i & xs & Ei & Ho)]]; [by left|by right; left|]. right. right.
    exists i, xs. split; [|done]. rewrite lookup_app in Ei. destruct (A !! i); [done|]. by destruct (i - length A)%nat as [|[]].
Qed.

Lemma trim_spans_none l : trim_spans (l ++ [None]) = trim_spans l.
Proof. induction l as [|a l IH]; [done|]. cbn. by rewrite IH. Qed.
Lemma trim_spans_some l a : trim_spans (l ++ [Some a]) = l ++ [Some a].
Proof. induction l as [|b l IH]; [done|]. cbn. rewrite IH. by destruct b, (l ++ [Some a]) eqn:E; try (by destruct l). Qed.

(** [trim_slots] on a table of spans [sp], whose items are [A]. *)
Lemma trim_spec (sp : list (option aspan)) : ∀ h l os e,
  rep_with h (fmap (M:=option) as_items <$> sp) l os e →
  ∃ n, trim_slots (length sp) h = Some (with_slot_count h n) ∧ n = size (trim_spans sp)
  ∧ rep_with (with_slot_count h n) (fmap (M:=option) as_items <$> trim_spans sp) l os e.
Proof.
  induction sp as [|a sp IH] using rev_ind; intros h l os e H.
  - exists (slot_count h). cbn. pose proof (rw_count _ _ _ _ _ H) as Hc. cbn in Hc. destruct h. cbn in *. by split_and!.
  - rewrite length_app, Nat.add_comm. cbn [length Nat.add trim_slots]. pose proof (rw_count _ _ _ _ _ H) as Hc. rewrite size_fmap, size_app in Hc.
    change (size [a]) with 1 in Hc. rewrite fmap_app in H. cbn [fmap list_fmap] in H.
    replace (slot_count h - 1) with (Z.of_nat (length sp)) by (unfold size in Hc; lia).
    assert (Hl : ((fmap (M:=option) as_items <$> sp) ++ [as_items <$> a]) !! length sp = Some (as_items <$> a)).
    { rewrite lookup_app_r by (by rewrite length_fmap). by rewrite length_fmap, Nat.sub_diag. }
    destruct a as [a|]; cbn in Hl.
    + destruct (rw_span _ _ _ _ _ H _ _ Hl) as (r & Er & Hr & _). rewrite Er. cbn [mbind option_bind]. rewrite bool_decide_false by done.
      exists (slot_count h). rewrite trim_spans_some. split; [by destruct h|]. split; [by rewrite size_app|]. rewrite fmap_app. by destruct h.
    + destruct (rw_free _ _ _ _ _ H _ Hl) as (r & Er & Hr). rewrite Er. cbn [mbind option_bind]. rewrite bool_decide_true by done.
      rewrite trim_spans_none. apply rw_shrink in H. replace (Z.of_nat (length sp)) with (slot_count h - 1) by (unfold size in Hc; lia).
      destruct (IH _ _ _ _ H) as (n & E & Hn & H'). exists n. rewrite E. split_and!; done.
Qed.

Lemma free_index_Some l i : free_index l = Some i → l !! i = Some None.
Proof.
  revert i. induction l as [|[a|] l IH]; intros i; cbn; [done| |by intros [= <-]].
  destruct (free_index l) as [j|]; [|done]. intros [= <-]. by apply IH.
Qed.
Lemma first_free_spec st s : refines st s → ∀ l k,
  sp_spans s = take k (sp_spans s) ++ l → length (take k (sp_spans s)) = k →
  first_free (length l) (Z.of_nat k) (ls_heap st) = Some (match free_index l with Some i => Some (Z.of_nat (k + i)) | None => None end).
Proof.
  intros R. induction l as [|a l IH]; intros k E Hk; [done|]. cbn [length first_free free_index].
  assert (Ek : sp_spans s !! k = Some a) by (rewrite E, lookup_app_r by lia; by rewrite Hk, Nat.sub_diag).
  destruct a as [a|].
  - destruct (rf_meta _ _ R _ _ Ek) as (r & Er & Hm). destruct (rf_rep _ _ R) as (lt & os & H).
    destruct (rw_span _ _ _ _ _ H _ _ (tbl_lookup _ _ _ Ek)) as (r' & Er' & Hr & _). assert (r' = r) as -> by congruence.
    rewrite Er. cbn [mbind option_bind]. rewrite bool_decide_false by done.
    replace (Z.of_nat k + 1) with (Z.of_nat (S k)) by lia.
    assert (take (S k) (sp_spans s) = take k (sp_spans s) ++ [Some a]) as Et by (by apply take_S_r).
    rewrite (IH (S k)).
    + destruct (free_index l) as [i|]; cbn; [|done]. do 3 f_equal. lia.
    + rewrite Et, <- app_assoc. exact E.
    + rewrite Et, length_app, Hk. cbn. lia.
  - destruct (rf_rep _ _ R) as (lt & os & H). destruct (rw_free _ _ _ _ _ H _ (tbl_free _ _ Ek)) as (r & Er & Hr).
    rewrite Er. cbn [mbind option_bind]. rewrite bool_decide_true by done. cbn. by rewrite Nat.add_0_r.
Qed.

Lemma sp_fits_room h sz A : slot_count h = size A → data_low h = persist_off h - live_bytes A → fits_below h sz = room h A sz.
Proof.
  intros Hc Hl. unfold fits_below, room, table_end. rewrite Hl, Hc. apply eq_true_iff_eq. rewrite !Z.leb_le. lia.
Qed.

Lemma sim_grow st s : refines st s → sp_fits s span_rec_size = true → size (sp_spans s) <> NONE16 →
  ∃ h1 h2, (if fits_below (ls_heap st) span_rec_size then Some (ls_heap st) else compact (ls_heap st)) = Some h1
  ∧ fits_below h1 span_rec_size = true ∧ slot_count h1 = size (sp_spans s)
  ∧ put_slot (with_slot_count h1 (slot_count h1 + 1)) (slot_count h1) zero_rec = Some h2
  ∧ refines (with_heap h2 st) (with_spans (sp_spans s ++ [None]) s).
Proof.
  intros R Hf Hn.
  assert (∃ h1, (if fits_below (ls_heap st) span_rec_size then Some (ls_heap st) else compact (ls_heap st)) = Some h1
    ∧ fits_below h1 span_rec_size = true ∧ refines (with_heap h1 st) s) as (h1 & E1 & Hf1 & R1).
  { destruct (fits_below (ls_heap st) span_rec_size) eqn:Ef; [exists (ls_heap st); split_and!; [done|done|by destruct st]|].
    destruct (rep_compact _ _ (rf_rep _ _ R)) as (h1 & E & Hr & Hs & Hlow). exists h1. split; [done|].
    rewrite <- (rf_fits _ _ _ R) in Hf. split; [|by apply refines_moved]. rewrite (sp_fits_room h1 _ (tbl s)).
    - unfold room in *. destruct Hs as (_ & -> & _). exact Hf.
    - by apply rep_count.
    - destruct Hs as (_ & -> & _). done. }
  pose proof (rf_slots _ _ R1) as Hc1. cbn [ls_heap with_heap] in Hc1.
  destruct (rf_rep _ _ R1) as (l & os & H). destruct (rw_grow h1 _ l os H Hf1) as (h2 & E2 & Hr2 & Hp2 & Hn2 & Hg2).
  exists h1, h2. split_and!; try done. destruct R1 as [A1 A2 A3 A4 A5 A6 A7 [A8 A9]]. cbn [ls_heap with_heap ended_head ended_tail ls_env] in *.
  split; cbn [ls_env ls_heap ended_head ended_tail with_heap sp_env sp_spans sp_room sp_ended with_spans]; try done.
  - unfold tbl. cbn. rewrite fmap_app. exact Hr2.
  - intros j a Ej. rewrite lookup_app in Ej. destruct (sp_spans s !! j) as [b|] eqn:Eb; [|by destruct (j - length _)%nat as [|[]]].
    injection Ej as ->. destruct (A3 j a Eb) as (r & Er & Hm). exists r. split; [|done]. rewrite Hg2; [done|].
    rewrite Hc1. apply lookup_lt_Some in Eb. unfold size. lia.
  - congruence.
  - rewrite Hn2. lia.
  - clear - A6 Hg2 Hn2. revert A6. generalize (ended_head st). induction (sp_ended s) as [|i q IH]; intros off; cbn; [done|].
    intros (-> & Hi & r & Er & Hq). split; [done|]. rewrite Hn2. split; [lia|]. exists r. rewrite Hg2 by lia. split; [done|by apply IH].
  - split; [done|]. intros j Hj. destruct (A9 j Hj) as (b & Eb & Hb). exists b. split; [by apply lookup_app_l_Some|done].
Qed.

Lemma sim_acquire st s :
  refines st s →
  ∃ h1, acquire_slot (ls_heap st) = Some (h1, Z.of_nat <$> (sp_acquire s).2) ∧ refines (with_heap h1 st) (sp_acquire s).1
  ∧ ∀ i, (sp_acquire s).2 = Some i → sp_spans (sp_acquire s).1 !! i = Some None.
Proof.
  intros R. unfold acquire_slot, sp_acquire. pose proof (rf_slots _ _ R) as Hc. rewrite Hc.
  assert (Z.to_nat (size (sp_spans s)) = length (sp_spans s)) as -> by (unfold size; lia).
  pose proof (first_free_spec st s R (sp_spans s) 0 ltac:(done) ltac:(done)) as Hff. change (Z.of_nat 0) with 0 in Hff; cbn [Nat.add] in Hff. rewrite Hff. cbn [mbind option_bind].
  destruct (free_index (sp_spans s)) as [i|] eqn:Ei.
  { exists (ls_heap st). split; [done|]. split; [by destruct st|]. intros j [= <-]. by apply free_index_Some. }
  destruct (size (sp_spans s) =? NONE16) eqn:En; bool_hyps.
  { exists (ls_heap st). split; [done|]. split; [by destruct st|done]. }
  destruct (sp_fits s span_rec_size) eqn:Ef.
  - destruct (sim_grow st s R Ef En) as (h1 & h2 & E1 & Hf1 & Hc1 & E2 & R2). rewrite E1. cbn [mbind option_bind]. rewrite Hf1, E2. cbn [mbind option_bind].
    exists h2. rewrite Hc1. unfold size at 1. split; [done|]. split; [done|]. intros j [= <-]. cbn. rewrite lookup_app_r by lia. by rewrite Nat.sub_diag.
  - assert (fits_below (ls_heap st) span_rec_size = false) as Hff2.
    { destruct (fits_below (ls_heap st) span_rec_size) eqn:E; [|done]. destruct (rf_rep _ _ R) as (l & os & H).
      apply (rw_fits _ _ _ _ _ H) in E. rewrite (rf_fits _ _ _ R) in E. congruence. }
    rewrite Hff2. destruct (rep_compact _ _ (rf_rep _ _ R)) as (h1 & E & Hr & Hs & Hlow). rewrite E. cbn [mbind option_bind].
    rewrite (sp_fits_room h1 _ (tbl s)); [|by apply rep_count|by destruct Hs as (_ & -> & _)].
    assert (room h1 (tbl s) span_rec_size = false) as ->.
    { rewrite <- (rf_fits _ _ _ R) in Ef. unfold room in *. by destruct Hs as (_ & -> & _). }
    exists h1. split; [done|]. split; [by apply refines_moved|done].
Qed.

Lemma trim_spans_lookup l i a : trim_spans l !! i = Some (Some a) ↔ l !! i = Some (Some a).
Proof.
  revert i. induction l as [|b l IH]; intros i; [done|]. cbn. destruct b as [b|].
  - destruct i; [done|]. cbn. apply IH.
  - destruct (trim_spans l) as [|c t] eqn:E.
    + destruct i as [|i]; cbn; [done|]. rewrite <- IH. by rewrite lookup_nil.
    + destruct i; [done|]. apply IH.
Qed.
Lemma queue_mono h h' off q :
  (∀ i, i ∈ q → Z.of_nat i < slot_count h' ∧ get_slot h' (Z.of_nat i) = get_slot h (Z.of_nat i)) → queue h off q → queue h' off q.
Proof.
  revert off. induction q as [|i q IH]; intros off Hq; cbn; [done|]. intros (-> & _ & r & Er & H).
  destruct (Hq i ltac:(left)) as [Hi Hg]. split; [done|]. split; [done|]. exists r. rewrite Hg. split; [done|]. apply IH; [|done]. intros; apply Hq. by right.
Qed.
Lemma sim_trim st s : refines st s → ∃ h', trim (ls_heap st) = Some h' ∧ refines (with_heap h' st) (sp_trim s).
Proof.
  intros R. destruct (rf_rep _ _ R) as (l & os & H). destruct (trim_spec (sp_spans s) _ _ _ _ H) as (n & E & Hn & H').
  exists (with_slot_count (ls_heap st) n). unfold trim. rewrite (rf_slots _ _ R).
  assert (Z.to_nat (size (sp_spans s)) = length (sp_spans s)) as -> by (unfold size; lia). split; [done|].
  destruct R as [A1 A2 A3 A4 A5 A6 A7 [A8 A9]]. split; cbn [ls_env ls_heap ended_head ended_tail with_heap sp_env sp_spans sp_room sp_ended sp_trim with_spans]; try done.
  - by exists l, os.
  - intros i a Ei. apply (A3 i a). by apply trim_spans_lookup.
  - pose proof (rw_count _ _ _ _ _ H') as Hc. pose proof (rw_count _ _ _ _ _ H) as Hc0. cbn [slot_count with_slot_count] in *.
    assert (size (trim_spans (sp_spans s)) <= size (sp_spans s)); [|unfold tbl in Hc0; rewrite size_fmap in Hc, Hc0; lia].
    clear. unfold size. induction (sp_spans s) as [|a l IH]; cbn; [lia|]. destruct a, (trim_spans l); cbn in *; lia.
  - eapply queue_mono; [|exact A6]. intros i Hi. split; [|done]. destruct (A9 i Hi) as (a & Ea & _).
    apply trim_spans_lookup, lookup_lt_Some in Ea. cbn. rewrite Hn. unfold size. lia.
  - split; [done|]. intros i Hi. destruct (A9 i Hi) as (a & Ea & Ha). exists a. split; [by apply trim_spans_lookup|done].
Qed.

(** ** Starting a span *)

(** The record written and the name linked. *)
Lemma sim_open_span st s i rec h1 name :
  refines st s → sp_spans s !! i = Some None → sr_state rec = SLOT_OPEN → sr_head rec = NONE32 → sr_tail rec = NONE32 → sr_next_ended rec = NONE16 →
  slots_same (ls_heap st) h1 →
  match name with
  | None => rep h1 (tbl s)
  | Some (o, it) => ∃ c, pending h1 (tbl s) o c ∧ holds (Z.of_nat i) c it ∧ ch_next (c_hdr c) = NONE32
  end →
  ∃ h2 h3, put_slot h1 (Z.of_nat i) rec = Some h2
  ∧ (match name with Some (o, _) => link_chunk h2 (Z.of_nat i) o | None => Some h2 end) = Some h3
  ∧ refines (with_heap h3 st) (set_span i (mkASpan rec (match name with Some (_, it) => [it] | None => [] end)) s).
Proof.
  intros R Ei Hst Hh Ht Hx Hs Hname. pose proof (tbl_free _ _ Ei) as Et. pose proof (lookup_lt_Some _ _ _ Ei) as Hi.
  assert (∃ h2 h3, put_slot h1 (Z.of_nat i) rec = Some h2
    ∧ (match name with Some (o, _) => link_chunk h2 (Z.of_nat i) o | None => Some h2 end) = Some h3
    ∧ rep h3 (<[i := Some (match name with Some (_, it) => [it] | None => [] end)]> (tbl s)) ∧ slots_same h2 h3 ∧ same_frame h1 h2
    ∧ ∀ j, get_slot h2 j = if decide (j = Z.of_nat i) then Some rec else get_slot h1 j) as (h2 & h3 & E2 & E3 & Hr & Hs3 & (F1 & F2 & F3) & Hg).
  { destruct name as [[o it]|].
    - destruct Hname as (c & (l & os & H & Hin) & Hhc & Hn). destruct (rw_activate h1 _ l os [o] i rec H Et) as (h2 & E2 & H2 & Hf & Hg); [congruence|done|done|].
      destruct (rep_link h2 (<[i := Some []]> (tbl s)) i [] o c it) as (h3 & E3 & Hr & Hs3);
        [eexists _, _; split; [exact H2|by rewrite (proj1 (proj2 Hf))]|apply list_lookup_insert_eq; by eapply lookup_lt_Some|done|done|].
      exists h2, h3. rewrite list_insert_insert_eq in Hr. by split_and!.
    - destruct Hname as (l & os & H). destruct (rw_activate h1 _ l os [] i rec H Et) as (h2 & E2 & H2 & Hf & Hg); [congruence|done|done|].
      exists h2, h2. split_and!; try done. by eexists _, _. }
  exists h2, h3. split_and!; [done|done|]. destruct R as [A1 A2 A3 A4 A5 A6 A7 [A8 A9]]. destruct Hs as (S1 & S2 & S3). destruct Hs3 as (T1 & T2 & T3).
  assert (Hstrip : ∀ j, 0 <= j < slot_count (ls_heap st) → j ≠ Z.of_nat i → strip <$> get_slot h3 j = strip <$> get_slot (ls_heap st) j).
  { intros j Hj Hne. rewrite T3, Hg, decide_False by lia. by apply S3. }
  assert (Hcount : slot_count (ls_heap st) = size (sp_spans s)) by (rewrite (rep_count _ _ A2); apply size_tbl).
  split; cbn [ls_env ls_heap ended_head ended_tail with_heap sp_env sp_spans sp_room sp_ended set_span with_spans]; try done; try congruence.
  - unfold tbl in *. cbn. rewrite list_fmap_insert. exact Hr.
  - intros j b Ej. destruct (decide (j = i)) as [->|Hne].
    + rewrite list_lookup_insert_eq in Ej by done. injection Ej as <-. assert (strip <$> get_slot h3 (Z.of_nat i) = strip <$> Some rec) as E.
      { rewrite T3, Hg, decide_True by (done || (unfold size in Hcount; lia)). done. }
      apply fmap_Some in E as (r & Er & Hr'). exists r. split; [done|]. unfold meta_of. rewrite <- Hr'. cbn. destruct rec; cbn in *. subst. done.
    + rewrite list_lookup_insert_ne in Ej by done. destruct (A3 j b Ej) as (r & Er & Hm). pose proof (lookup_lt_Some _ _ _ Ej) as Hj.
      pose proof (Hstrip (Z.of_nat j) ltac:(unfold size in Hcount; lia) ltac:(lia)) as E. rewrite Er in E. apply fmap_Some in E as (r' & Er' & Hr').
      exists r'. split; [done|]. rewrite <- Hm. by apply meta_strip.
  - clear - A6 A9 Hstrip T1 F1 S1 Ei. assert (Hni : ∀ j, j ∈ sp_ended s → j ≠ i) by (intros j Hj ->; destruct (A9 i Hj) as (a & Ea & _); congruence).
    revert A6 Hni. generalize (ended_head st). generalize (sp_ended s). induction l as [|j q IH]; intros off; cbn; [done|]. intros (-> & Hj & r & Er & Hq) Hni.
    split; [done|]. split; [congruence|]. pose proof (Hstrip (Z.of_nat j) ltac:(lia) ltac:(specialize (Hni j ltac:(left)); lia)) as E.
    rewrite Er in E. apply fmap_Some in E as (r' & Er' & Hr'). exists r'. split; [done|]. apply (f_equal sr_next_ended) in Hr'. cbn in Hr'. rewrite <- Hr'.
    apply IH; [done|]. intros; apply Hni. by right.
  - split; [done|]. intros j Hj. destruct (A9 j Hj) as (b & Eb & Hb). assert (j ≠ i) by congruence. exists b. by rewrite list_lookup_insert_ne.
Qed.

Lemma sp_acquire_env s : sp_env (sp_acquire s).1 = sp_env s.
Proof. unfold sp_acquire. destruct (free_index _); [done|]. destruct (_ =? _); [done|]. by destruct (sp_fits _ _). Qed.
Lemma sim_drop_span st s s1 h1 :
  refines (with_heap h1 st) s1 → sp_env s1 = sp_env s → ls_env st = sp_env s →
  ∃ st', (h ← trim h1; Some (with_env (drop_span (ls_env st)) (with_heap h st), ERR_NO_SPACE, None (A:=Z))) = Some (st', ERR_NO_SPACE, None)
  ∧ refines st' (with_sp_env (drop_span (sp_env s)) (sp_trim s1)).
Proof.
  intros R Es E. destruct (sim_trim _ _ R) as (h & Eh & R'). cbn [ls_heap with_heap] in Eh. rewrite Eh. cbn [mbind option_bind].
  eexists. split; [done|]. rewrite E. apply (refines_env _ _ (drop_span (sp_env s)) R').
Qed.

(** What a start must do: the same result, the same handle, or no result at all
    when the id loop runs out of fuel. *)
Definition starts (r : option (leaf_state * leaf_status * option Z)) (p : option (spec * leaf_status * option Z)) : Prop :=
  match p with
  | None => r = None
  | Some (s', status, handle) => ∃ st', r = Some (st', status, handle) ∧ refines st' s'
  end.

Lemma sim_start_span fuel st s name kind tid pid :
  refines st s → starts (start_span fuel st name kind tid pid) (sp_start_span fuel s name kind tid pid).
Proof.
  intros R. destruct (sim_acquire st s R) as (h1 & E1 & R1 & Hfree). unfold start_span, sp_start_span. rewrite E1. cbn [mbind option_bind].
  pose proof (sp_acquire_env s) as Henv. pose proof (rf_env _ _ R) as Ee. destruct (sp_acquire s) as [s1 slot]. cbn [fst snd] in *.
  destruct slot as [i|]; cbn [fmap option_fmap option_map]; [|cbn [mbind option_bind]; by apply sim_drop_span].
  specialize (Hfree i eq_refl). set (need := chunk_hdr_size + size name).
  assert (Hgo : ∀ h2 name_off items,
    (∀ rec, sr_state rec = SLOT_OPEN → sr_head rec = NONE32 → sr_tail rec = NONE32 → sr_next_ended rec = NONE16 →
      ∃ h3 h4, put_slot h2 (Z.of_nat i) rec = Some h3 ∧ (match name_off with Some off => link_chunk h3 (Z.of_nat i) off | None => Some h3 end) = Some h4
      ∧ refines (with_heap h4 (with_heap h1 st)) (set_span i (mkASpan rec items) s1)) →
    starts
      ('(tid, ids1) ← (match tid with Some t => Some (t, ids (ls_env st)) | None => new_trace_id fuel (random_bytes (ls_env st)) (env_key (ls_env st)) (ids (ls_env st)) end);
       '(sid, ids2) ← new_span_id fuel (random_bytes (ls_env st)) (env_key (ls_env st)) ids1;
       let '(gen, e) := next_generation (set_ids ids2 (ls_env st)) in
       let '(start, e) := read_clock e in
       let rec := mkSpanRec start 0 tid sid (match pid with Some p => p | None => replicate 8 0 end) NONE32 NONE32 gen NONE16 0 0 SLOT_OPEN kind 0 (bool_decide (is_Some pid)) in
       h ← put_slot h2 (Z.of_nat i) rec;
       h ← (match name_off with Some off => link_chunk h (Z.of_nat i) off | None => Some h end);
       Some (with_env e (with_heap h st), OK, Some (handle_of gen (Z.of_nat i))))
      ('(tid, ids1) ← (match tid with Some t => Some (t, ids (sp_env s)) | None => new_trace_id fuel (random_bytes (sp_env s)) (env_key (sp_env s)) (ids (sp_env s)) end);
       '(sid, ids2) ← new_span_id fuel (random_bytes (sp_env s)) (env_key (sp_env s)) ids1;
       let '(gen, e) := next_generation (set_ids ids2 (sp_env s)) in
       let '(start, e) := read_clock e in
       let rec := mkSpanRec start 0 tid sid (match pid with Some p => p | None => replicate 8 0 end) NONE32 NONE32 gen NONE16 0 0 SLOT_OPEN kind 0 (bool_decide (is_Some pid)) in
       Some (with_sp_env e (set_span i (mkASpan rec items) s1), OK, Some (handle_of gen (Z.of_nat i))))).
  { intros h2 name_off items Hrec. rewrite Ee. destruct (match tid with Some t => _ | None => _ end) as [[tid' ids1]|]; [|done]. cbn [mbind option_bind].
    destruct (new_span_id _ _ _ ids1) as [[sid ids2]|]; [|done]. cbn [mbind option_bind].
    destruct (next_generation (set_ids ids2 (sp_env s))) as [gen e1]. destruct (read_clock e1) as [start e2]. set (rec := mkSpanRec _ _ _ _ _ _ _ _ _ _ _ _ _ _ _).
    destruct (Hrec rec eq_refl eq_refl eq_refl eq_refl) as (h3 & h4 & E3 & E4 & R4). rewrite E3. cbn [mbind option_bind]. rewrite E4. cbn [mbind option_bind starts].
    eexists. split; [done|]. apply (refines_env _ _ e2 R4). }
  destruct (0 <? size name) eqn:E0; cbn [andb].
  - pose proof (sim_alloc_string (with_heap h1 st) s1 i (IName name) name R1 I eq_refl) as Ha. fold need in Ha. cbn [ls_heap with_heap item_kind] in Ha.
    destruct (sp_fits s1 need).
    + destruct Ha as (h2 & o & c & E2 & Hs2 & Hp & Hh & Hn). rewrite E2. cbn [mbind option_bind negb]. rewrite bool_decide_false by done.
      apply (Hgo h2 (Some o)). intros rec H1 H2 H3 H4.
      destruct (sim_open_span (with_heap h1 st) s1 i rec h2 (Some (o, mkCell (IName name) need)) R1 Hfree H1 H2 H3 H4 Hs2) as (h3 & h4 & E3 & E4 & R4); eauto 10.
    + destruct Ha as (h2 & E2 & R2). rewrite E2. cbn [mbind option_bind negb]. rewrite bool_decide_true by done. by apply sim_drop_span.
  - cbn [mbind option_bind]. apply (Hgo h1 None). intros rec H1 H2 H3 H4.
    destruct (sim_open_span (with_heap h1 st) s1 i rec h1 None R1 Hfree H1 H2 H3 H4) as (h3 & h4 & E3 & E4 & R4); [done|apply R1|]. eauto.
Qed.

(** ** Releasing the encoded spans *)

(** Unlinked chunks belong to slots that hold no span. *)
Definition orphans (h : heap) (A : table) (l : list chunk) (e : list Z) : Prop :=
  ∀ o c, (o, c) ∈ place (data_low h) l → o ∈ e → ∀ i xs, ch_owner (c_hdr c) = Z.of_nat i → A !! i ≠ Some (Some xs).
Lemma orphans_dead h A l os e : rep_with h A l os e → orphans h A l e → dead_extra h l e.
Proof.
  intros H Ho o c Hin He. destruct (alive h c) eqn:Ea; [|done]. exfalso.
  apply alive_true in Ea as (_ & Hlt & r & Er & Hr); [|apply H|by eapply rw_chunk_ok].
  pose proof (ok_owner _ (rw_chunk_ok _ _ _ _ _ _ _ H Hin)) as H0.
  destruct (rw_slot _ _ _ _ _ _ _ H (conj H0 Hlt) Er Hr) as (i & xs & Ei & Ex). by eapply Ho.
Qed.

Lemma rw_release h A l os e i xs r :
  rep_with h A l os e → orphans h A l e → A !! i = Some (Some xs) → get_slot h (Z.of_nat i) = Some r →
  ∃ h', put_slot h (Z.of_nat i) (set_free r) = Some h' ∧ same_frame h h'
  ∧ rep_with h' (<[i := None]> A) l os (os i ++ e) ∧ orphans h' (<[i := None]> A) l (os i ++ e)
  ∧ ∀ j, get_slot h' j = if decide (j = Z.of_nat i) then Some (set_free r) else get_slot h j.
Proof.
  intros H Horph Ei Er. pose proof (lookup_lt_Some _ _ _ Ei) as Hi.
  destruct (edit_put_slot h l (Z.of_nat i) (set_free r) (rw_heap _ _ _ _ _ H)) as (h' & E & He & Hg & Hc); [rewrite (rw_count _ _ _ _ _ H); unfold size; lia|].
  pose proof (ed_frame _ _ _ _ _ He) as (F1 & F2 & F3). exists h'. split_and!; [done|by split_and!| | |done].
  - split.
    + apply He.
    + rewrite F1, (rw_count _ _ _ _ _ H). unfold size. by rewrite length_insert.
    + intros j Ej. rewrite Hg. destruct (decide (Z.of_nat j = Z.of_nat i)) as [Eji|Hne]; [by eexists|].
      rewrite list_lookup_insert_ne in Ej by lia. by apply (rw_free _ _ _ _ _ H).
    + intros j ys Ej. assert (j ≠ i) as Hne by (intros ->; rewrite list_lookup_insert_eq in Ej by done; done).
      rewrite list_lookup_insert_ne in Ej by done. destruct (rw_span _ _ _ _ _ H j ys Ej) as (rj & Erj & Hrj & Hsj & Htj & Hnj & Hinj).
      exists rj. rewrite F2, Hg, decide_False by lia. split_and!; try done.
      * eapply seg_frame; [|exact Hsj]. intros o Ho. destruct (Hinj o Ho) as (_ & c & Hcc). by eapply Hc.
      * intros o Ho. destruct (Hinj o Ho) as (Hoe & Hp). split; [|done]. intros [Hx|Hx]%elem_of_app; [|done]. apply Hne. by eapply rw_disjoint.
    + rewrite F2. intros o c Hin. destruct (rw_tiles _ _ _ _ _ H o c Hin) as [|[|(j & ys & Ej & Hx)]]; [by left|right; left; apply elem_of_app; by right|].
      destruct (decide (j = i)) as [->|Hne]; [right; left; apply elem_of_app; by left|]. right. right. exists j, ys. by rewrite list_lookup_insert_ne.
  - rewrite <- F2 in *. intros o c Hin Ho k ys Ek. rewrite F2 in Hin. destruct (decide (k = i)) as [->|Hne]; [by rewrite list_lookup_insert_eq|].
    rewrite list_lookup_insert_ne by done. apply elem_of_app in Ho as [Ho|Ho]; [|by eapply Horph].
    destruct (rw_chain_elem _ _ _ _ _ _ _ _ H Ei Ho) as (d & x & Hd & _ & _ & Hh). pose proof (hk_chunks _ _ (rw_heap _ _ _ _ _ H)) as Hck.
    rewrite (place_fun _ _ _ _ _ Hck Hin Hd), (ho_owner _ _ _ Hh) in Ek. lia.
Qed.

Lemma free_ended_spec q : ∀ fuel h A l os e off,
  rep_with h A l os e → orphans h A l e → queue h off q → NoDup q → (∀ i, i ∈ q → ∃ xs, A !! i = Some (Some xs)) →
  slot_count h <= NONE16 → (length q < fuel)%nat →
  ∃ h' e', free_ended fuel off h = Some h' ∧ same_frame h h'
  ∧ rep_with h' (fold_left (λ A i, <[i := None]> A) q A) l os e' ∧ orphans h' (fold_left (λ A i, <[i := None]> A) q A) l e'
  ∧ ∀ j, j ∉ q → get_slot h' (Z.of_nat j) = get_slot h (Z.of_nat j).
Proof.
  induction q as [|i q IH]; intros fuel h A l os e off H Ho Hq Hnd Hx Hn Hf; (destruct fuel as [|fuel]; [cbn in Hf; lia|]); cbn [free_ended].
  { cbn in Hq. subst. exists h, e. by split_and!. }
  destruct Hq as (-> & Hi & r & Er & Hq). assert (Z.of_nat i ≠ NONE16) as Hne by lia. apply Z.eqb_neq in Hne. rewrite Hne, Er. cbn [mbind option_bind fold_left].
  apply NoDup_cons in Hnd as [Hni Hnd]. destruct (Hx i ltac:(left)) as (xs & Ei).
  destruct (rw_release h A l os e i xs r H Ho Ei Er) as (h1 & E1 & Hf1 & H1 & Ho1 & Hg1). rewrite E1. cbn [mbind option_bind].
  pose proof Hf1 as (F1 & F2 & F3).
  destruct (IH fuel h1 (<[i := None]> A) l os (os i ++ e) (sr_next_ended r)) as (h2 & e2 & E2 & Hf2 & H2 & Ho2 & Hg2); [done|done| |done| |lia|cbn in Hf; lia|].
  - eapply queue_mono; [|exact Hq]. intros j Hj. assert (j ≠ i) by (intros ->; done). rewrite F1, Hg1, decide_False by lia. split; [|done].
    destruct (Hx j ltac:(by right)) as (ys & Ej). rewrite (rw_count _ _ _ _ _ H). apply lookup_lt_Some in Ej. unfold size. lia.
  - intros j Hj. assert (j ≠ i) by (intros ->; done). rewrite list_lookup_insert_ne by done. apply Hx. by right.
  - exists h2, e2. split_and!; [done|by etransitivity|done|done|]. intros j Hj. apply not_elem_of_cons in Hj as [Hj1 Hj2]. rewrite Hg2 by done.
    by rewrite Hg1, decide_False by lia.
Qed.

Lemma fold_free_lookup q (sp : list (option aspan)) i a :
  fold_left (λ l i, <[i := None]> l) q sp !! i = Some (Some a) ↔ sp !! i = Some (Some a) ∧ i ∉ q.
Proof.
  revert sp. induction q as [|j q IH]; intros sp; cbn [fold_left]; [split; [intros H; split; [done|apply not_elem_of_nil]|tauto]|].
  rewrite IH, not_elem_of_cons. destruct (decide (i = j)) as [->|Hne].
  - split; [|tauto]. intros [E _]. destruct (decide (j < length sp)%nat); [by rewrite list_lookup_insert_eq in E|].
    rewrite list_insert_ge in E by lia. apply lookup_lt_Some in E. lia.
  - rewrite list_lookup_insert_ne by done. tauto.
Qed.
Lemma fold_free_tbl q (sp : list (option aspan)) :
  fmap (M:=option) as_items <$> fold_left (λ l i, <[i := None]> l) q sp = fold_left (λ A i, <[i := None]> A) q (fmap (M:=option) as_items <$> sp).
Proof. revert sp. induction q as [|j q IH]; intros sp; [done|]. cbn [fold_left]. rewrite IH, list_fmap_insert. done. Qed.

Lemma sim_release st s : refines st s → ∃ st', release_ended st = Some st' ∧ refines st' (sp_release s).
Proof.
  intros R. destruct (rf_rep _ _ R) as (l & os & H). destruct (rf_ended_open _ _ R) as [Hnd Hopen].
  assert (orphans (ls_heap st) (tbl s) l []) as Horph by (intros o c _ ?%elem_of_nil; done).
  assert (Hlen : (length (sp_ended s) < S (Z.to_nat (slot_count (ls_heap st))))%nat).
  { rewrite (rf_slots _ _ R). unfold size. assert (sp_ended s ⊆ seq 0 (length (sp_spans s))) as Hsub.
    { intros i Hi. destruct (Hopen i Hi) as (a & Ea & _). apply elem_of_seq. apply lookup_lt_Some in Ea. lia. }
    pose proof (submseteq_length _ _ (NoDup_submseteq _ _ Hnd Hsub)) as Hle. rewrite length_seq in Hle. lia. }
  destruct (free_ended_spec (sp_ended s) (S (Z.to_nat (slot_count (ls_heap st)))) _ _ _ _ _ (ended_head st) H Horph (rf_ended _ _ R) Hnd)
    as (h1 & e1 & E1 & (F1 & F2 & F3) & H1 & Ho1 & Hg1); [|apply R|done|].
  { intros i Hi. destruct (Hopen i Hi) as (a & Ea & _). exists (as_items a). by apply tbl_lookup. }
  set (sp1 := fold_left (λ l i, <[i := None]> l) (sp_ended s) (sp_spans s)). unfold tbl in H1, Ho1. rewrite <- fold_free_tbl in H1, Ho1. fold sp1 in H1, Ho1.
  destruct (trim_spec sp1 h1 l os e1 H1) as (n & E2 & Hn & H2).
  assert (orphans (with_slot_count h1 n) (fmap (M:=option) as_items <$> trim_spans sp1) l e1) as Ho2.
  { intros o c Hin Ho i xs Ei Ex. apply (Ho1 o c Hin Ho i xs Ei). rewrite list_lookup_fmap in *. destruct (trim_spans sp1 !! i) as [[a|]|] eqn:Ea; try done.
    apply (proj1 (trim_spans_lookup _ _ _)) in Ea. by rewrite Ea. }
  destruct (rw_compact _ _ _ _ _ H2 (orphans_dead _ _ _ _ _ H2 Ho2)) as (h3 & E3 & H3 & Hs3 & _). pose proof Hs3 as (G1 & G2 & _). cbn [slot_count persist_off with_slot_count] in G1, G2.
  unfold release_ended. rewrite E1. cbn [mbind option_bind].
  assert (trim h1 = Some (with_slot_count h1 n)) as ->.
  { unfold trim. rewrite (rw_count _ _ _ _ _ H1), size_fmap. unfold size. by rewrite Nat2Z.id. }
  cbn [mbind option_bind]. rewrite E3. cbn [mbind option_bind]. eexists. split; [done|].
  assert (Hnle : n <= slot_count h1).
  { pose proof (rw_count _ _ _ _ _ H1) as Hc. rewrite size_fmap in Hc. rewrite Hc, Hn. clear. unfold size. induction sp1 as [|a sp IH]; cbn; [lia|].
    destruct a, (trim_spans sp); cbn in *; lia. }
  split; cbn [ls_env ls_heap ended_head ended_tail sp_env sp_spans sp_room sp_ended sp_release sp_trim with_spans]; try done.
  - by rewrite (rf_env _ _ R).
  - intros i a Ea. pose proof (proj1 (trim_spans_lookup _ _ _) Ea) as Ea0. unfold sp1 in Ea0. apply fold_free_lookup in Ea0 as [Ea0 Hni]. destruct (rf_meta _ _ R _ _ Ea0) as (r & Er & Hm).
    destruct (slots_same_get _ _ (Z.of_nat i) r Hs3) as (r' & Er' & Hst).
    + cbn. rewrite Hn. apply lookup_lt_Some in Ea. unfold size. fold sp1 in Ea. lia.
    + change (get_slot h1 (Z.of_nat i) = Some r). by rewrite Hg1.
    + exists r'. split; [done|]. by rewrite (meta_strip _ _ Hst).
  - by rewrite G2, F3, (rf_room _ _ R).
  - rewrite G1. pose proof (rf_count _ _ R). lia.
  - split; [constructor|]. by intros i ?%elem_of_nil.
Qed.
