(* ===== verification/LeafEncode.v ===== *)
(** * What a leaf sends

    The batch view refines the specification: the cursors of [LeafBatch] return
    the ended spans in end order with their items as the specification has them.
    With the simulations of [LeafSpec] and [LeafRefine] this gives the theorems
    about whole runs of the C API. *)
From stdpp Require Import gmap sorting.
From S2P Require Import Prelude Trace LeafKv LeafMem LeafHeap LeafCore LeafBatch LeafSpec LeafRefine.

(** ** Cursors *)

(** [next], from [c] on, returns [l] and then the end. *)
Fixpoint yields {A} (next : Next A) (c : cursor) (l : list A) : Prop :=
  match l with [] => next c = Some None | a :: l' => ∃ c', next c = Some (Some (a, c')) ∧ yields next c' l' end.
Lemma collect_yields {A} (next : Next A) c l fuel : yields next c l → (length l < fuel)%nat → collect fuel next c = Some l.
Proof.
  revert c fuel. induction l as [|a l IH]; intros c fuel H Hf; (destruct fuel as [|fuel]; [cbn in Hf; lia|]); cbn [collect].
  - cbn in H. by rewrite H.
  - destruct H as (c' & -> & H). cbn [mbind option_bind]. cbn in Hf. rewrite (IH c' fuel H) by lia. done.
Qed.
(** A cursor that converts what another one returns. *)
Lemma yields_conv {A B} (next : Next A) (next' : Next B) (conv : A → option B) c l l' :
  (∀ c, next' c = o ← next c; match o with None => Some None | Some (a, c') => b ← conv a; Some (Some (b, c')) end) →
  yields next c l → Forall2 (λ a b, conv a = Some b) l l' → yields next' c l'.
Proof.
  intros Hn H HF. revert c H. induction HF as [|a b l l' Hab _ IH]; intros c; cbn.
  - intros H. by rewrite Hn, H.
  - intros (c' & H & H'). exists c'. rewrite Hn, H. cbn [mbind option_bind]. rewrite Hab. split; [done|by apply IH].
Qed.

Definition is_kind (kind : chunk_kind) (x : cell) : bool := bool_decide (item_kind (cl_item x) = kind).
Lemma next_of_kind_spec h slot kind fuel : ∀ off os xs,
  seg (chunks h) slot off os xs NONE32 → (length os < fuel)%nat →
  match List.filter (is_kind kind) xs with
  | [] => next_of_kind fuel h off kind = Some None
  | x :: xs' => ∃ c os' ys, next_of_kind fuel h off kind = Some (Some (c, ch_next (c_hdr c))) ∧ holds slot c x ∧ off ≠ NONE32
      ∧ seg (chunks h) slot (ch_next (c_hdr c)) os' ys NONE32 ∧ (length os' < length os)%nat ∧ xs' = List.filter (is_kind kind) ys
  end.
Proof.
  induction fuel as [|fuel IH]; intros off os xs H Hf; [lia|]. cbn [next_of_kind]. destruct os as [|o os], xs as [|x xs]; cbn [seg] in H; try done.
  - subst. done.
  - destruct H as (-> & Hn & c & Ec & Hh & H). apply Z.eqb_neq in Hn as Hn'. rewrite Hn', Ec. cbn [mbind option_bind List.filter length] in *.
    rewrite (ho_kind _ _ _ Hh). unfold is_kind at 1. destruct (bool_decide (item_kind (cl_item x) = kind)).
    + exists c, os, xs. split_and!; try done. lia.
    + specialize (IH _ os xs H ltac:(lia)). destruct (List.filter (is_kind kind) xs); [done|].
      destruct IH as (c' & os' & ys & E & Hh' & _ & Hs' & Hl & Hx). exists c', os', ys. split_and!; try done. lia.
Qed.
Lemma chunk_yields h slot kind chain n : ∀ off os xs c,
  (length os <= n)%nat → (length os < walk_fuel h)%nat → 0 <= cu_index c →
  seg (chunks h) slot off os xs NONE32 → (if cu_index c =? 0 then chain else cu_pos c) = off →
  ∃ l, yields (next_chunk h chain kind) c l ∧ Forall2 (holds slot) l (List.filter (is_kind kind) xs).
Proof.
  induction n as [|n IH]; intros off os xs c Hn Hf Hi Hs Hc;
    pose proof (next_of_kind_spec h slot kind (walk_fuel h) off os xs Hs Hf) as Hk; destruct (List.filter (is_kind kind) xs) as [|x xs'] eqn:Ef.
  1,3: exists []; split; [|by constructor]; change (next_chunk h chain kind c = Some None); unfold next_chunk; rewrite Hc, Hk; done.
  1: destruct Hk as (d & os' & ys & _ & _ & _ & _ & Hl & _); lia.
  destruct Hk as (d & os' & ys & E & Hh & _ & Hs' & Hl & ->).
  destruct (IH (ch_next (c_hdr d)) os' ys (mkCursor (ch_next (c_hdr d)) (cu_index c + 1))) as (l & Hy & HF); [lia|lia|cbn; lia|done| |].
  { cbn [cu_index cu_pos]. by rewrite (proj2 (Z.eqb_neq _ _)) by lia. }
  exists (d :: l). split; [|by constructor]. cbn [yields]. exists (mkCursor (ch_next (c_hdr d)) (cu_index c + 1)). split; [|done].
  unfold next_chunk. rewrite Hc, E. done.
Qed.

(** ** Items as a backend reads them *)

Definition sp_attrs (xs : list cell) : list leaf_kv := omap (λ x, match cl_item x with IAttr kv => Some (normal_kv kv) | _ => None end) xs.
Definition sp_events (offset : Z) (xs : list cell) : list emitted_event :=
  omap (λ x, match cl_item x with IEvent t name attrs => Some (mkEmittedEvent (to_uint 64 (t + offset)) name (normal_kv <$> attrs)) | _ => None end) xs.
Definition sp_name (xs : list cell) : str := fold_left (λ s x, match cl_item x with IName n => n | _ => s end) xs [].
Definition sp_status (xs : list cell) : str := fold_left (λ s x, match cl_item x with IStatus m => m | _ => s end) xs [].

Lemma holds_string slot c x s : holds slot c x → item_bytes (cl_item x) = code <$> s → chunk_string c = s.
Proof.
  intros [_ _ _ Hu [junk Hd] _] Eb. unfold chunk_string. rewrite Hu, Hd. unfold item_size, size. rewrite Nat2Z.id.
  rewrite take_app_length, Eb. apply chr_codes.
Qed.
Lemma span_strings_spec h slot fuel : ∀ off os xs name status,
  seg (chunks h) slot off os xs NONE32 → (length os < fuel)%nat →
  span_strings fuel h off name status
  = Some (fold_left (λ s x, match cl_item x with IName n => n | _ => s end) xs name,
          fold_left (λ s x, match cl_item x with IStatus m => m | _ => s end) xs status).
Proof.
  induction fuel as [|fuel IH]; intros off os xs name status H Hf; [lia|]. cbn [span_strings]. destruct os as [|o os], xs as [|x xs]; cbn [seg] in H; try done.
  - by subst.
  - destruct H as (-> & Hn & c & Ec & Hh & H). apply Z.eqb_neq in Hn as Hn'. rewrite Hn', Ec. cbn [mbind option_bind fold_left length] in *.
    rewrite (IH _ os xs _ _ H) by lia. rewrite (ho_kind _ _ _ Hh).
    destruct (cl_item x) eqn:E; cbn [item_kind]; rewrite ?(bool_decide_false (_ = CHUNK_NAME)), ?(bool_decide_false (_ = CHUNK_STATUS)), ?(bool_decide_true (_ = _)) by done; try done.
    + by rewrite (holds_string _ _ _ s Hh) by (by rewrite E).
    + by rewrite (holds_string _ _ _ s Hh) by (by rewrite E).
Qed.

Lemma attrs_conv slot l xs : Forall2 (holds slot) l (List.filter (is_kind CHUNK_ATTR) xs) → Forall2 (λ c kv, fst <$> unpack_kv (c_data c) = Some kv) l (sp_attrs xs).
Proof.
  revert l. induction xs as [|x xs IH]; intros l H; cbn [List.filter sp_attrs] in *; [by inversion H; constructor|].
  unfold is_kind in H at 1. unfold sp_attrs. cbn [omap list_omap]. destruct (cl_item x) eqn:E; cbn [item_kind] in H; try (by apply IH).
  rewrite bool_decide_true in H by done. inversion H as [|c ? l' ? Hh HF]; subst. constructor; [|by apply IH].
  destruct Hh as [_ _ _ _ [junk Hd] Hi]. rewrite Hd, E in *. cbn [item_bytes item_ok] in *. by rewrite unpack_pack.
Qed.

Lemma event_attrs_yields attrs : ∀ v junk c,
  Forall kv_fits attrs → 0 <= cu_pos c → cu_index c + size attrs = ev_attr_count v →
  drop (Z.to_nat (cu_pos c)) (ev_attrs v) = concat (pack_kv <$> attrs) ++ junk →
  yields (next_event_attr v) c (normal_kv <$> attrs).
Proof.
  induction attrs as [|kv attrs IH]; intros v junk c Hok Hp Hi Hd; cbn [fmap list_fmap yields].
  - unfold next_event_attr. change (size []) with 0 in Hi. rewrite (proj2 (Z.leb_le _ _)) by lia. done.
  - apply Forall_cons in Hok as [Hkv Hok]. rewrite size_cons in Hi. pose proof (size_nonneg attrs). unfold next_event_attr at 1.
    rewrite (proj2 (Z.leb_gt _ _)) by lia. rewrite Hd. cbn [fmap list_fmap concat]. rewrite <- app_assoc, unpack_pack by done. cbn [mbind option_bind].
    eexists. split; [done|]. pose proof (kv_size_lower kv ltac:(apply Hkv)). unfold kv_hdr_size in *.
    apply (IH v junk); cbn [cu_pos cu_index]; [done|lia|lia|].
    rewrite Z2Nat.inj_add, <- drop_drop, Hd by lia. cbn [fmap list_fmap concat]. rewrite <- app_assoc. apply drop_app_length'. by rewrite pack_kv_length by apply Hkv.
Qed.

Definition event_conv (offset : Z) (ch : chunk) : option event_view :=
  let p := c_data ch in
  time ← read_word 8 0 p;
  name_len ← read_word 4 8 p;
  count ← read_word 4 12 p;
  name ← read_bytes name_len event_hdr_size p;
  Some (mkEventView (to_uint 64 (time + offset)) (chr <$> (name : list Z)) count (drop (Z.to_nat (event_hdr_size + name_len)) p)).
Lemma event_conv_spec offset slot c x t name attrs :
  holds slot c x → cl_item x = IEvent t name attrs →
  ∃ v, event_conv offset c = Some v ∧ read_event v = Some (mkEmittedEvent (to_uint 64 (t + offset)) name (normal_kv <$> attrs)).
Proof.
  intros [_ _ _ _ [junk Hd] Hi] E. rewrite E in *. cbn [item_bytes item_ok] in *. pose proof (event_fits_attrs _ _ _ Hi) as (Ha & _ & Hc).
  destruct (pack_event_reads t name attrs junk Hi) as (E1 & E2 & E3 & E4 & E5). unfold event_conv. rewrite Hd, E1, E2, E3. cbn [mbind option_bind].
  rewrite E4. cbn [mbind option_bind]. rewrite E5, chr_codes. eexists. split; [done|]. unfold read_event.
  rewrite (collect_yields _ _ (normal_kv <$> attrs)); [done| |].
  - eapply (event_attrs_yields attrs _ junk); [done|done|cbn; lia|done].
  - rewrite length_fmap. unfold event_fuel. cbn. unfold size. lia.
Qed.
Lemma events_conv offset slot l xs :
  Forall2 (holds slot) l (List.filter (is_kind CHUNK_EVENT) xs) →
  ∃ vs, Forall2 (λ c v, event_conv offset c = Some v) l vs ∧ mapM read_event vs = Some (sp_events offset xs) ∧ length vs = length l.
Proof.
  revert l. induction xs as [|x xs IH]; intros l H; cbn [List.filter] in *; [inversion H; exists []; by split_and!; [constructor| |]|].
  unfold is_kind in H at 1. unfold sp_events. cbn [omap list_omap]. destruct (cl_item x) eqn:E; cbn [item_kind] in H; try (by apply IH).
  rewrite bool_decide_true in H by done. inversion H as [|c ? l' ? Hh HF]; subst. destruct (IH _ HF) as (vs & HF' & Em & El).
  destruct (event_conv_spec offset _ _ _ _ _ _ Hh E) as (v & Ev & Er). exists (v :: vs). split_and!; [by constructor| |cbn; by rewrite El].
  cbn [mapM]. rewrite Er. cbn [mbind option_bind]. fold (sp_events offset xs). rewrite Em. done.
Qed.

(** ** One span *)

Lemma filter_length_le (f : cell → bool) xs : (length (List.filter f xs) <= length xs)%nat.
Proof. induction xs as [|x xs IH]; cbn; [lia|]. destruct (f x); cbn; lia. Qed.
Lemma read_span_spec h slot off os xs offset v :
  seg (chunks h) slot off os xs NONE32 → (length os < walk_fuel h)%nat →
  read_span h offset (v, off) = Some (mkEmittedSpan v (sp_attrs xs) (sp_events offset xs)).
Proof.
  intros Hs Hf. pose proof (seg_length _ _ _ _ _ _ Hs) as Hl.
  destruct (chunk_yields h slot CHUNK_ATTR off (length os) off os xs start_cursor ltac:(done) Hf ltac:(done) Hs ltac:(done)) as (la & Hya & Hfa).
  destruct (chunk_yields h slot CHUNK_EVENT off (length os) off os xs start_cursor ltac:(done) Hf ltac:(done) Hs ltac:(done)) as (le & Hye & Hfe).
  pose proof (attrs_conv _ _ _ Hfa) as Hca. destruct (events_conv offset _ _ _ Hfe) as (vs & Hce & Em & Elv).
  pose proof (Forall2_length _ _ _ Hfa) as La. pose proof (Forall2_length _ _ _ Hca) as La'. pose proof (Forall2_length _ _ _ Hfe) as Le.
  pose proof (filter_length_le (is_kind CHUNK_ATTR) xs). pose proof (filter_length_le (is_kind CHUNK_EVENT) xs).
  unfold read_span. rewrite (collect_yields _ _ (sp_attrs xs)); [| |lia]; cbn [mbind option_bind].
  - rewrite (collect_yields _ _ vs); [| |lia]; cbn [mbind option_bind]; [by rewrite Em|].
    eapply (yields_conv _ _ (event_conv offset)); [|exact Hye|exact Hce]. intros c. unfold next_event, event_conv.
    destruct (next_chunk h off CHUNK_EVENT c) as [[[ch c']|]|]; try done. cbn [mbind option_bind].
    destruct (read_word 8 0 _); [|done]. cbn [mbind option_bind]. destruct (read_word 4 8 _) as [n|]; [|done]. cbn [mbind option_bind].
    destruct (read_word 4 12 _); [|done]. cbn [mbind option_bind]. by destruct (read_bytes n _ _).
  - eapply (yields_conv _ _ (λ ch, fst <$> unpack_kv (c_data ch))); [|exact Hya|exact Hca]. intros c. unfold next_attr.
    destruct (next_chunk h off CHUNK_ATTR c) as [[[ch c']|]|]; try done. cbn [mbind option_bind]. by destruct (unpack_kv (c_data ch)) as [[kv n]|].
Qed.

(** ** The whole batch *)

(** The environment keeps the configured Resource and scope. *)
Record configured (e : leaf_env) (kvs : list leaf_kv) (scope_name scope_version : str) : Prop := {
  cf_kvs : Forall kv_fits kvs;
  cf_persist : persist e = concat (pack_kv <$> kvs) ++ (code <$> scope_name) ++ (code <$> scope_version);
  cf_count : resource_count e = size kvs;
  cf_off : 0 <= resource_off e;
  cf_name_off : scope_name_off e = resource_off e + zsum kv_size kvs;
  cf_name_len : scope_name_len e = size scope_name;
  cf_version_off : scope_version_off e = scope_name_off e + size scope_name;
  cf_version_len : scope_version_len e = size scope_version
}.

(** What the specification emits for one span, and for all. *)
Definition sp_emit (offset : Z) (a : aspan) : emitted_span :=
  mkEmittedSpan (view_of offset (as_rec a) (sp_name (as_items a)) (sp_status (as_items a))) (sp_attrs (as_items a)) (sp_events offset (as_items a)).
Definition sp_ended_spans (s : spec) : list aspan := omap (λ i, mjoin (sp_spans s !! i)) (sp_ended s).
Definition sp_payload (kvs : list leaf_kv) (scope_name scope_version : str) (b : batch) (s : spec) : payload :=
  mkPayload ((normal_kv <$> kvs) ++ reserved b) scope_name scope_version (sp_emit (time_offset b) <$> sp_ended_spans s).

Lemma reserved_yields e b i : ∀ c l,
  0 <= resource_count e → reserved b = l ++ i → cu_index c = resource_count e + size l → yields (next_resource_attr e b) c i.
Proof.
  induction i as [|kv i IH]; intros c l Hn Er Hc; cbn [yields]; unfold next_resource_attr at 1;
    pose proof (size_nonneg l); rewrite (proj2 (Z.ltb_ge _ _)) by lia; rewrite Hc, Z.add_simpl_l; unfold size; rewrite Nat2Z.id, Er.
  - rewrite app_nil_r, lookup_ge_None_2 by lia. done.
  - rewrite list_lookup_middle by done. eexists. split; [done|]. apply (IH _ (l ++ [kv])); [done|by rewrite Er, <- app_assoc|]; cbn [cu_index];
      rewrite ?size_app; change (size [kv]) with 1; fold (size l); lia.
Qed.
Lemma resource_yields e b rest junk : ∀ c,
  Forall kv_fits rest → 0 <= cu_index c → cu_index c + size rest = resource_count e →
  persist_at e (if cu_index c =? 0 then resource_off e else cu_pos c) = concat (pack_kv <$> rest) ++ junk →
  resource_off e <= (if cu_index c =? 0 then resource_off e else cu_pos c) →
  yields (next_resource_attr e b) c ((normal_kv <$> rest) ++ reserved b).
Proof.
  induction rest as [|kv rest IH]; intros c Hok Hi Hn Hp Hpos; cbn [fmap list_fmap app].
  - change (size []) with 0 in Hn. apply (reserved_yields e b (reserved b) c []); [lia|done|change (size []) with 0; lia].
  - apply Forall_cons in Hok as [Hkv Hok]. rewrite size_cons in Hn. pose proof (size_nonneg rest). cbn [yields]. unfold next_resource_attr at 1.
    rewrite (proj2 (Z.ltb_lt _ _)) by lia. rewrite Hp. cbn [fmap list_fmap concat]. rewrite <- app_assoc, unpack_pack by done. cbn [mbind option_bind].
    eexists. split; [done|]. pose proof (kv_size_lower kv ltac:(apply Hkv)). unfold kv_hdr_size in *.
    apply IH; cbn [cu_pos cu_index]; rewrite ?(proj2 (Z.eqb_neq (cu_index c + 1) 0)) by lia; try done; try lia.
    unfold persist_at in *. set (pos := if cu_index c =? 0 then _ else _) in *. replace (Z.to_nat (pos + kv_size kv - resource_off e)) with (Z.to_nat (pos - resource_off e) + Z.to_nat (kv_size kv))%nat by lia.
    rewrite <- drop_drop, Hp. cbn [fmap list_fmap concat]. rewrite <- app_assoc. apply drop_app_length'. by rewrite pack_kv_length by apply Hkv.
Qed.

Lemma queue_yields st s b q : ∀ off c,
  refines st s → queue (ls_heap st) off q → (∀ i, i ∈ q → ∃ a, sp_spans s !! i = Some (Some a)) → 0 <= cu_index c →
  (if cu_index c =? 0 then ended_head st else cu_pos c) = off →
  ∃ l, yields (next_span st b) c l ∧ length l = length q
  ∧ mapM (read_span (ls_heap st) (time_offset b)) l = Some (sp_emit (time_offset b) <$> omap (λ i, mjoin (sp_spans s !! i)) q).
Proof.
  induction q as [|i q IH]; intros off c R Hq Hx Hi Hc; cbn [queue] in Hq.
  { exists []. split_and!; [|done|done]. cbn [yields]. unfold next_span. by rewrite Hc, Hq. }
  destruct Hq as (-> & Hlt & r & Er & Hq). destruct (Hx i ltac:(left)) as (a & Ea). pose proof (rf_count _ _ R).
  destruct (rf_meta _ _ R _ _ Ea) as (r' & Er' & Hm). assert (r' = r) as -> by congruence.
  destruct (rf_rep _ _ R) as (lt & os & H1). pose proof (tbl_lookup _ _ _ Ea) as Et. pose proof (rw_chain_length _ _ _ _ _ _ _ H1 Et) as Hlen.
  destruct (rw_span _ _ _ _ _ H1 i _ Et) as (r' & Er2 & _ & Hs & _). assert (r' = r) as -> by congruence.
  destruct (IH (sr_next_ended r) (mkCursor (sr_next_ended r) (cu_index c + 1)) R Hq) as (l & Hy & Hl & Hm'); [by intros; apply Hx; right|cbn; lia| |].
  { cbn [cu_index cu_pos]. by rewrite (proj2 (Z.eqb_neq _ _)) by lia. }
  set (v := view_of (time_offset b) r (sp_name (as_items a)) (sp_status (as_items a))).
  exists ((v, sr_head r) :: l). split_and!.
  - cbn [yields]. eexists. split; [|exact Hy]. unfold next_span. rewrite Hc. rewrite (proj2 (Z.eqb_neq _ _)) by lia. rewrite Er. cbn [mbind option_bind].
    rewrite (span_strings_spec _ _ _ _ _ _ [] [] Hs Hlen). done.
  - cbn. by rewrite Hl.
  - cbn [mapM omap list_omap]. rewrite Ea. cbn [mjoin option_join fmap list_fmap]. rewrite (read_span_spec _ _ _ _ _ _ v Hs Hlen). cbn [mbind option_bind].
    assert (sp_emit (time_offset b) a = mkEmittedSpan v (sp_attrs (as_items a)) (sp_events (time_offset b) (as_items a))) as -> by (unfold sp_emit; by rewrite <- Hm).
    by rewrite Hm'.
Qed.

Lemma read_batch_spec st s b kvs scope_name scope_version :
  refines st s → configured (ls_env st) kvs scope_name scope_version → batch_resource_count b = resource_count (ls_env st) + size (reserved b) →
  read_batch st b = Some (sp_payload kvs scope_name scope_version b s).
Proof.
  intros R [C1 C2 C3 C4 C5 C6 C7 C8] Hb. unfold read_batch. destruct (rf_ended_open _ _ R) as [Hnd Hopen].
  assert (0 <= zsum kv_size kvs) as Hz by (rewrite <- size_packs by done; apply size_nonneg).
  rewrite (collect_yields _ _ ((normal_kv <$> kvs) ++ reserved b)).
  2:{ eapply (resource_yields _ b kvs); [done|done|cbn; lia| |cbn; lia]. unfold persist_at. cbn [start_cursor cu_index Z.eqb].
      rewrite Z.sub_diag, drop_0. exact C2. }
  2:{ rewrite length_app, length_fmap, Hb, C3. unfold size. lia. }
  cbn [mbind option_bind]. unfold persist_at. rewrite C5, C6, C7, C8, C5.
  replace (resource_off (ls_env st) + zsum kv_size kvs - resource_off (ls_env st)) with (zsum kv_size kvs) by lia.
  replace (resource_off (ls_env st) + zsum kv_size kvs + size scope_name - resource_off (ls_env st)) with (zsum kv_size kvs + size scope_name) by lia.
  assert (Z.to_nat (zsum kv_size kvs) = length (concat (pack_kv <$> kvs))) as Hzl by (rewrite <- size_packs by done; unfold size; lia).
  rewrite C2. rewrite Z2Nat.inj_add by (done || apply size_nonneg). rewrite <- drop_drop, Hzl, drop_app_length.
  rewrite <- (size_fmap code scope_name), read_bytes_here. cbn [mbind option_bind].
  rewrite drop_app_length' by (unfold size; lia). rewrite <- (size_fmap code scope_version).
  assert (read_bytes (size (code <$> scope_version)) 0 (code <$> scope_version) = Some (code <$> scope_version)) as ->
    by (rewrite <- (app_nil_r (code <$> scope_version)) at 2; apply read_bytes_here). cbn [mbind option_bind]. rewrite !chr_codes.
  destruct (queue_yields st s b (sp_ended s) (ended_head st) start_cursor R (rf_ended _ _ R)) as (l & Hy & Hl & Hm); [|done|done|].
  { intros i Hi. destruct (Hopen i Hi) as (a & Ea & _). eauto. }
  rewrite (collect_yields _ _ l _ Hy); cbn [mbind option_bind]; [by rewrite Hm|].
  rewrite Hl, (rf_slots _ _ R). assert (sp_ended s ⊆ seq 0 (length (sp_spans s))) as Hsub.
  { intros i Hi. destruct (Hopen i Hi) as (a & Ea & _). apply elem_of_seq. apply lookup_lt_Some in Ea. lia. }
  pose proof (submseteq_length _ _ (NoDup_submseteq _ _ Hnd Hsub)) as Hle. rewrite length_seq in Hle. unfold size. lia.
Qed.

(** ** Encoding *)

(** What operations never change in the environment. *)
Definition static (e : leaf_env) :=
  (time_mode e, now_ns e, random_bytes e, (resource_off e, resource_count e, scope_name_off e, scope_name_len e, scope_version_off e, scope_version_len e),
   persist e, boot_id e, (max_attrs e, max_events e, max_event_attrs e), env_key e).
Lemma static_configured e e' kvs sn sv : static e' = static e → configured e kvs sn sv → configured e' kvs sn sv.
Proof. unfold static. intros E [? ? ? ? ? ? ? ?]. injection E as ? ? ? ? ? ? ? ? ? ? ? ? ? ? ?. split; try done; congruence. Qed.
Lemma static_clock e e' : static e' = static e → clock_wf e → clock_wf e'.
Proof. unfold static, clock_wf. intros E. injection E as ? E ? ? ? ? ? ? ? ? ? ? ? ? ?. by rewrite E. Qed.
Lemma static_read_clock e : static (read_clock e).2 = static e.
Proof. unfold read_clock. by destruct (now_ns e). Qed.

Section encode.
Context (kvs : list leaf_kv) (scope_name scope_version : str).

Definition sp_encode (backend : Backend) (s : spec) : spec * leaf_status :=
  let '(b, e) := build_batch (sp_env s) in
  let s := with_sp_env e s in
  let '(status, written) := backend (sp_payload kvs scope_name scope_version b s) in
  if bool_decide (status = OK) then (sp_release s, status) else (s, status).

Lemma build_batch_static e : static (build_batch e).2 = static e ∧ batch_resource_count (build_batch e).1 = resource_count e + size (reserved (build_batch e).1).
Proof.
  unfold build_batch. pose proof (static_read_clock e) as H. destruct (read_clock e) as [now e']. cbn [fst snd] in *. split; [done|].
  cbn. unfold static in H. injection H as ? ? ? ? H ? ? ? ? ? ? ? ? ? ?. by rewrite H.
Qed.
Lemma sim_encode backend st s :
  refines st s → configured (sp_env s) kvs scope_name scope_version →
  ∃ st' w, encode_with backend st = Some (st', (sp_encode backend s).2, w) ∧ refines st' (sp_encode backend s).1.
Proof.
  intros R Hc. unfold encode_with, sp_encode. rewrite (rf_env _ _ R). pose proof (build_batch_static (sp_env s)) as [Hs Hn].
  destruct (build_batch (sp_env s)) as [b e] eqn:Eb. cbn [fst snd] in *. pose proof (refines_env _ _ e R) as R1.
  rewrite (read_batch_spec (with_env e st) (with_sp_env e s) b kvs scope_name scope_version R1); cbn [ls_env with_env mbind option_bind].
  - destruct (backend _) as [status written]. destruct (bool_decide (status = OK)).
    + destruct (sim_release _ _ R1) as (st' & E & R'). rewrite E. by exists st', written.
    + by eexists _, written.
  - by apply (static_configured (sp_env s)).
  - rewrite Hn. unfold static in Hs. injection Hs as ? ? ? ? Hs ? ? ? ? ? ? ? ? ? ?. by rewrite Hs.
Qed.

(** ** The API, and whole runs *)

Inductive op :=
| OStart (name : cstr) (kind : Z) (parent : option Z)
| OStartRemote (name : cstr) (kind : Z) (trace_id parent_id : option (list Z))
| OSetAttribute (span : Z) (attr : option leaf_kv)
| OAddEvent (span : Z) (name : cstr) (attrs : option (list leaf_kv)) (attr_count : Z)
| OSetStatus (span code : Z) (message : cstr)
| OEnd (span : Z)
| OClockSync (unix_ns leaf_now_ns : Z)
| OEncode (backend : Backend) (args_ok : bool).
(** The ranges of the C types. *)
Definition op_wf (o : op) : Prop :=
  match o with
  | OSetAttribute _ (Some attr) => value_wf (lk_value attr)
  | OAddEvent _ _ (Some attrs) _ => Forall (λ kv, value_wf (lk_value kv)) attrs
  | _ => True
  end.
Definition no_handle (r : option (leaf * leaf_status)) : option (leaf * leaf_status * option Z) := '(l, s) ← r; Some (l, s, None).
Definition run_op (fuel : nat) (l : leaf) (o : op) : option (leaf * leaf_status * option Z) :=
  match o with
  | OStart name kind parent => microtel_leaf_span_start fuel l name kind parent
  | OStartRemote name kind t p => microtel_leaf_span_start_remote fuel l name kind t p
  | OSetAttribute span attr => no_handle (microtel_leaf_span_set_attribute l span attr)
  | OAddEvent span name attrs n => no_handle (microtel_leaf_span_add_event l span name attrs n)
  | OSetStatus span code m => no_handle (microtel_leaf_span_set_status l span code m)
  | OEnd span => no_handle (microtel_leaf_span_end l span)
  | OClockSync u n => let '(l, s) := microtel_leaf_clock_sync l u n in Some (l, s, None)
  | OEncode backend ok => no_handle (microtel_leaf_encode backend l ok)
  end.
Fixpoint run (fuel : nat) (l : leaf) (ops : list op) : option (leaf * list (leaf_status * option Z)) :=
  match ops with
  | [] => Some (l, [])
  | o :: ops' => '(l, s, h) ← run_op fuel l o; '(l, rs) ← run fuel l ops'; Some (l, (s, h) :: rs)
  end.

(** The same on the specification. *)
Definition sp_open (s : spec) (span : Z) (f : nat → aspan → spec * leaf_status) : option (spec * leaf_status * option Z) :=
  match sp_resolve_open s span with None => Some (s, ERR_STATE, None) | Some (i, a) => let '(s, r) := f i a in Some (s, r, None) end.
Definition sp_op (fuel : nat) (s : spec) (o : op) : option (spec * leaf_status * option Z) :=
  match o with
  | OStart name kind parent =>
      if negb (start_args_valid name kind) then Some (s, ERR_ARG, None)
      else match parent with
           | None => sp_start_span fuel s (cstr_str name) kind None None
           | Some handle => match sp_resolve s handle with
                            | None => Some (s, ERR_STATE, None)
                            | Some (_, a) => sp_start_span fuel s (cstr_str name) kind (Some (sr_trace_id (as_rec a))) (Some (sr_span_id (as_rec a)))
                            end
           end
  | OStartRemote name kind (Some t) (Some p) =>
      if negb (start_args_valid name kind) || all_zero t || all_zero p then Some (s, ERR_ARG, None)
      else sp_start_span fuel s (cstr_str name) kind (Some t) (Some p)
  | OStartRemote _ _ _ _ => Some (s, ERR_ARG, None)
  | OSetAttribute span (Some attr) => if kv_valid attr then sp_open s span (λ i a, sp_set_attribute i a attr s) else Some (s, ERR_ARG, None)
  | OSetAttribute _ None => Some (s, ERR_ARG, None)
  | OAddEvent span name attrs n =>
      if cstr_valid name && match attrs with None => n =? 0 | Some l => kvs_valid l end
      then sp_open s span (λ i a, sp_add_event i a (cstr_str name) (default [] attrs) s)
      else Some (s, ERR_ARG, None)
  | OSetStatus span code m =>
      if (code <=? 2) && cstr_valid m then sp_open s span (λ i a, sp_set_status i a code (cstr_str m) s) else Some (s, ERR_ARG, None)
  | OEnd span => sp_open s span (λ i a, sp_end_span i a s)
  | OClockSync u n =>
      Some (match now_ns (sp_env s) with
            | None => (s, ERR_CLOCK, None)
            | Some _ => if u =? 0 then (s, ERR_CLOCK, None)
                        else let '(now, e) := read_clock (sp_env s) in
                             if now <? n then (with_sp_env e s, ERR_CLOCK, None) else (with_sp_env (set_sync u n e) s, OK, None)
            end)
  | OEncode backend ok => Some (if ok then let '(s, r) := sp_encode backend s in (s, r, None) else (s, ERR_ARG, None))
  end.
Fixpoint sp_run (fuel : nat) (s : spec) (ops : list op) : option (spec * list (leaf_status * option Z)) :=
  match ops with
  | [] => Some (s, [])
  | o :: ops' => '(s, r, h) ← sp_op fuel s o; '(s, rs) ← sp_run fuel s ops'; Some (s, (r, h) :: rs)
  end.

(** An operation does what the specification says, or neither returns. *)
Definition agrees (r : option (leaf * leaf_status * option Z)) (p : option (spec * leaf_status * option Z)) : Prop :=
  match p with None => r = None | Some (s', status, h) => ∃ st', r = Some (Init st', status, h) ∧ refines st' s' end.

Lemma agrees_same st s r h : refines st s → agrees (Some (Init st, r, h)) (Some (s, r, h)).
Proof. intros R. by exists st. Qed.
Lemma agrees_start r p : starts r p → agrees (lift_start r) p.
Proof. unfold starts, agrees, lift_start. destruct p as [[[s' x] h]|]; [intros (st' & -> & R); by exists st'|by intros ->]. Qed.
Lemma agrees_open st s span f g :
  refines st s → (∀ i a, sp_spans s !! i = Some (Some a) → sr_state (as_rec a) = SLOT_OPEN → simulates (f st (Z.of_nat i)) (g i a)) →
  agrees (no_handle (on_open_span (Init st) span f)) (sp_open s span g).
Proof.
  intros R H. unfold on_open_span, sp_open. pose proof (resolve_open_spec st s span R) as Hr. destruct (sp_resolve_open s span) as [[i a]|].
  - destruct Hr as (r & -> & Ei & Ha). cbn [mbind option_bind]. destruct (H i a Ei Ha) as (st' & -> & R'). destruct (g i a) as [s' x]. cbn in *. by exists st'.
  - rewrite Hr. cbn. by apply agrees_same.
Qed.

Lemma sim_op fuel st s o :
  refines st s → configured (sp_env s) kvs scope_name scope_version → clock_wf (sp_env s) → op_wf o →
  agrees (run_op fuel (Init st) o) (sp_op fuel s o).
Proof.
  intros R Hc Hk Ho. destruct o as [name kind parent|name kind t p|span attr|span name attrs n|span code m|span|u n|backend ok]; cbn [run_op sp_op].
  - unfold microtel_leaf_span_start. destruct (negb _); [by apply agrees_same|]. destruct parent as [handle|]; [|by apply agrees_start, sim_start_span].
    pose proof (resolve_spec st s handle R) as Hr. destruct (sp_resolve s handle) as [[i a]|].
    + destruct Hr as (r & -> & _ & Hm & _). cbn [mbind option_bind]. destruct (meta_state _ _ Hm) as (_ & _ & _ & _ & -> & ->).
      by apply agrees_start, sim_start_span.
    + rewrite Hr. cbn. by apply agrees_same.
  - unfold microtel_leaf_span_start_remote. destruct t as [t|], p as [p|]; try by apply agrees_same.
    destruct (negb _ || _ || _); [by apply agrees_same|]. by apply agrees_start, sim_start_span.
  - unfold microtel_leaf_span_set_attribute, with_args. destruct attr as [attr|]; [|by apply agrees_same].
    destruct (kv_valid attr) eqn:Ev; [|by apply agrees_same]. apply agrees_open; [done|]. intros i a Ei _. by apply sim_set_attribute.
  - unfold microtel_leaf_span_add_event, with_args. destruct (cstr_valid name && _) eqn:Ev; [|by apply agrees_same].
    apply agrees_open; [done|]. intros i a Ei _. bool_hyps. destruct attrs as [l|]; cbn in *; apply sim_add_event; done.
  - unfold microtel_leaf_span_set_status, with_args. destruct ((code <=? 2) && _); [|by apply agrees_same].
    apply agrees_open; [done|]. intros i a Ei _. by apply sim_set_status.
  - apply agrees_open; [done|]. intros i a Ei Ha. by apply sim_end_span.
  - unfold microtel_leaf_clock_sync. rewrite (rf_env _ _ R). destruct (now_ns (sp_env s)); [|by apply agrees_same].
    destruct (u =? 0); [by apply agrees_same|]. destruct (read_clock (sp_env s)) as [now e]. destruct (now <? n); apply agrees_same, refines_env, R.
  - unfold microtel_leaf_encode. destruct ok; [|by apply agrees_same]. destruct (sim_encode backend st s R Hc) as (st' & w & -> & R').
    destruct (sp_encode backend s) as [s' x]. cbn in *. by exists st'.
Qed.

(** ** What operations never change *)

Lemma static_set_attribute i a attr s : static (sp_env (sp_set_attribute i a attr s).1) = static (sp_env s).
Proof. unfold sp_set_attribute. destruct (split_first _ _) as [[[? ?] ?]|]; repeat (case_match; try done). Qed.
Lemma static_add_event i a name attrs s : static (sp_env (sp_add_event i a name attrs s).1) = static (sp_env s).
Proof.
  unfold sp_add_event. pose proof (static_read_clock (sp_env s)) as H. destruct (_ <=? _); [done|]. destruct (sp_fits _ _); [|done].
  destruct (read_clock _) as [t e]. exact H.
Qed.
Lemma static_set_status i a code m s : static (sp_env (sp_set_status i a code m s).1) = static (sp_env s).
Proof. unfold sp_set_status. destruct (split_first _ _) as [[[? ?] ?]|]; repeat (case_match; try done). Qed.
Lemma static_end_span i a s : static (sp_env (sp_end_span i a s).1) = static (sp_env s).
Proof. unfold sp_end_span. pose proof (static_read_clock (sp_env s)) as H. destruct (read_clock _) as [t e]. exact H. Qed.
Lemma static_start_span fuel s name kind t p s' r h : sp_start_span fuel s name kind t p = Some (s', r, h) → static (sp_env s') = static (sp_env s).
Proof.
  unfold sp_start_span. pose proof (sp_acquire_env s) as Ha. destruct (sp_acquire s) as [s1 [i|]]; [|by intros [= <- _ _]].
  destruct (_ && _); [by intros [= <- _ _]|]. destruct (match t with Some _ => _ | None => _ end) as [[tid ids1]|]; cbn [mbind option_bind]; [|done].
  destruct (new_span_id _ _ _ _) as [[sid ids2]|]; cbn [mbind option_bind]; [|done]. cbn [next_generation].
  match goal with |- context [read_clock ?e] => pose proof (static_read_clock e) as H; destruct (read_clock e) as [now e1] end.
  intros [= <- _ _]. exact H.
Qed.
Lemma static_encode backend s : static (sp_env (sp_encode backend s).1) = static (sp_env s).
Proof.
  unfold sp_encode. destruct (build_batch_static (sp_env s)) as [H _]. destruct (build_batch _) as [b e]. destruct (backend _) as [st w].
  by destruct (bool_decide _).
Qed.
Lemma static_open s span f s' r h : (∀ i a, static (sp_env (f i a).1) = static (sp_env s)) → sp_open s span f = Some (s', r, h) → static (sp_env s') = static (sp_env s).
Proof.
  unfold sp_open. intros H. destruct (sp_resolve_open s span) as [[i a]|]; [|by intros [= <- _ _]].
  specialize (H i a). destruct (f i a). by intros [= <- _ _].
Qed.
Lemma static_op fuel s o s' r h : sp_op fuel s o = Some (s', r, h) → static (sp_env s') = static (sp_env s).
Proof.
  destruct o as [name kind parent|name kind t p|span attr|span name attrs n|span code m|span|u n|backend ok]; cbn [sp_op]; intros E.
  - destruct (negb _); [by injection E as <- _ _|]. destruct parent as [handle|]; [|by eapply static_start_span].
    destruct (sp_resolve s handle) as [[? ?]|]; [by eapply static_start_span|by injection E as <- _ _].
  - destruct t as [t|], p as [p|]; try (by injection E as <- _ _). destruct (_ || _); [by injection E as <- _ _|by eapply static_start_span].
  - destruct attr as [attr|]; [|by injection E as <- _ _]. destruct (kv_valid attr); [|by injection E as <- _ _].
    eapply static_open; [|exact E]. intros. apply static_set_attribute.
  - destruct (_ && _); [|by injection E as <- _ _]. eapply static_open; [|exact E]. intros. apply static_add_event.
  - destruct (_ && _); [|by injection E as <- _ _]. eapply static_open; [|exact E]. intros. apply static_set_status.
  - eapply static_open; [|exact E]. intros. apply static_end_span.
  - destruct (now_ns (sp_env s)); [|by injection E as <- _ _]. destruct (u =? 0); [by injection E as <- _ _|].
    pose proof (static_read_clock (sp_env s)) as H. destruct (read_clock (sp_env s)) as [now e]. destruct (now <? n); injection E as <- _ _; exact H.
  - destruct ok; [|by injection E as <- _ _]. pose proof (static_encode backend s) as H. destruct (sp_encode backend s). by injection E as <- _ _.
Qed.

(** ** Runs *)

Definition agrees_run (r : option (leaf * list (leaf_status * option Z))) (p : option (spec * list (leaf_status * option Z))) : Prop :=
  match p with None => r = None | Some (s', rs) => ∃ st', r = Some (Init st', rs) ∧ refines st' s' end.
Lemma sim_run fuel ops : ∀ st s,
  refines st s → configured (sp_env s) kvs scope_name scope_version → clock_wf (sp_env s) → Forall op_wf ops →
  agrees_run (run fuel (Init st) ops) (sp_run fuel s ops).
Proof.
  induction ops as [|o ops IH]; intros st s R Hc Hk Hw; cbn [run sp_run]; [by exists st|].
  apply Forall_cons in Hw as [Ho Hw]. pose proof (sim_op fuel st s o R Hc Hk Ho) as H. unfold agrees in H.
  destruct (sp_op fuel s o) as [[[s1 r] h]|] eqn:E; [|by rewrite H].
  destruct H as (st1 & -> & R1). cbn [mbind option_bind]. pose proof (static_op _ _ _ _ _ _ E) as Hs.
  specialize (IH st1 s1 R1 (static_configured _ _ _ _ _ Hs Hc) (static_clock _ _ Hs Hk) Hw). unfold agrees_run in *.
  destruct (sp_run fuel s1 ops) as [[s2 rs]|]; [|by rewrite IH]. destruct IH as (st2 & -> & R2). by exists st2.
Qed.
End encode.
