(* ===== verification/LeafRun.v ===== *)
(** * Runs of the leaf C API

    A leaf that [microtel_leaf_init] accepted starts in the state of the
    specification with an empty table, and every sequence of calls does what the
    specification says.  Here are the theorems about whole runs: refinement,
    totality, and what [microtel_leaf_encode] hands to its backend. *)
From stdpp Require Import gmap sorting.
From S2P Require Import Prelude Trace LeafKv LeafMem LeafHeap LeafCore LeafBatch LeafSpec LeafRefine LeafEncode.

(** ** A new leaf *)

(** The ranges of the C types of the configuration. *)
Definition config_wf (c : leaf_config) : Prop :=
  Forall (λ kv, value_wf (lk_value kv)) (lc_kvs c)
  ∧ match lc_now_ns c with Some f => ∀ n, is_u64 (f n) | None => True end
  ∧ 0 <= lc_max_attributes_per_span c <= NONE16 ∧ 0 <= lc_max_events_per_span c <= NONE16 ∧ 0 <= lc_max_attributes_per_event c <= NONE16.
Definition usable_size (buffer_size : Z) : Z := if MAX_BUFFER <? buffer_size then MAX_BUFFER else buffer_size.
(** The specification of a new leaf: no spans, and the room under the Resource. *)
Definition init_spec (c : leaf_config) (rnd : RandomBytes) (buffer_size : Z) : spec :=
  let usable := usable_size buffer_size in
  mkSpec [] [] (usable - persistent_size c) (ls_env (init_state c rnd usable (persistent_size c))).

Lemma heap_ok_empty off : 0 <= off <= MAX_BUFFER → heap_ok (mkHeap ∅ ∅ 0 off off) [].
Proof.
  intros H. split; cbn [slot_count data_low persist_off chunks]; try done; try (change (csizes []) with 0; lia).
  - intros i Hi. cbn in Hi. lia.
  - unfold table_end, slot_off. cbn. lia.
  - constructor.
Qed.
Lemma init_refines c rnd usable size :
  0 <= usable - size <= MAX_BUFFER →
  refines (init_state c rnd usable size) (mkSpec [] [] (usable - size) (ls_env (init_state c rnd usable size))).
Proof.
  intros H. split; cbn; try done.
  - exists [], (λ _, []). split; cbn; try done; [by apply heap_ok_empty|intros o d Hin; by apply elem_of_nil in Hin].
  - split; [constructor|]. intros i Hi. by apply elem_of_nil in Hi.
Qed.

Lemma kvs_fit kvs bound :
  forallb (λ kv, kv_valid kv && negb (has_reserved_prefix kv)) kvs = true → Forall (λ kv, value_wf (lk_value kv)) kvs →
  zsum kv_size kvs <= bound → bound <= u32_max → Forall kv_fits kvs ∧ 0 <= zsum kv_size kvs.
Proof.
  intros Hv Hw. revert bound. induction kvs as [|kv kvs IH]; intros bound Hs Hb; [split; [constructor|done]|].
  cbn [forallb] in Hv. rewrite zsum_cons in Hs. apply Forall_cons in Hw as [Hw1 Hw]. bool_hyps.
  assert (kv_hdr_size < kv_size kv) as Hl by by apply kv_size_lower. unfold kv_hdr_size in Hl.
  destruct (IH ltac:(assumption) Hw (bound - kv_size kv)) as [HF Hn]; [lia|lia|]. split; [|rewrite zsum_cons; lia].
  constructor; [|done]. split; [done|done|lia].
Qed.

Lemma cstr_valid_len s : cstr_valid s = true → cstr_len s = size (cstr_str s).
Proof. destruct s; [|done]. unfold cstr_valid. intros H%Z.eqb_eq. by rewrite H. Qed.
(** What [microtel_leaf_init] has checked when it returns [OK]. *)
Lemma init_ok l size_ok c buffer buffer_size st :
  microtel_leaf_init l size_ok (Some c) buffer buffer_size = (Init st, OK) →
  config_valid c = true ∧ (usable_size buffer_size <? persistent_size c) = false
  ∧ ∃ rnd, lc_random_bytes c = Some rnd ∧ st = init_state c rnd (usable_size buffer_size) (persistent_size c).
Proof.
  unfold microtel_leaf_init. intros E. destruct l as [| |st0]; [done| |];
    (destruct (negb size_ok || negb buffer || negb (lc_struct_size_ok c)); [done|]); destruct (lc_random_bytes c) as [rnd|]; try done;
    (destruct (config_valid c); [|done]); cbn [negb] in E; fold (usable_size buffer_size) in E;
    (destruct (usable_size buffer_size <? persistent_size c); [done|]); injection E as <-; split_and!; eauto.
Qed.
Lemma usable_max buffer_size : usable_size buffer_size <= MAX_BUFFER.
Proof. unfold usable_size. destruct (MAX_BUFFER <? buffer_size) eqn:E; [done|]. by apply Z.ltb_ge. Qed.
Lemma init_configured c rnd usable :
  config_valid c = true → config_wf c → persistent_size c <= usable → usable <= MAX_BUFFER →
  configured (ls_env (init_state c rnd usable (persistent_size c))) (lc_kvs c) (cstr_str (lc_scope_name c)) (cstr_str (lc_scope_version c))
  ∧ 0 <= usable - persistent_size c <= MAX_BUFFER.
Proof.
  intros Hv (Hw & _) Hs Hm. unfold config_valid in Hv. bool_hyps.
  match goal with H : cstr_valid (lc_scope_name c) = true |- _ => apply cstr_valid_len in H as Hn end.
  match goal with H : cstr_valid (lc_scope_version c) = true |- _ => apply cstr_valid_len in H as Hr end.
  pose proof (size_nonneg (cstr_str (lc_scope_name c))). pose proof (size_nonneg (cstr_str (lc_scope_version c))). unfold persistent_size in *.
  assert (MAX_BUFFER <= u32_max) as Hmm by done.
  edestruct (kvs_fit (lc_kvs c) MAX_BUFFER) as [HF Hz]; [assumption|done|lia|done|]. split; [|lia]. split; cbn; try done; lia.
Qed.

(** ** Ids from a constant source *)

Lemma next_word_nonzero key r c : word_at key r c = 0 → word_at key r (to_uint 64 (c + 1)) ≠ 0.
Proof.
  intros E E1. rewrite <- E in E1. apply word_at_inj in E1. rewrite to_uint_twice in E1. rewrite <- (Z.add_0_r c) in E1 at 2.
  by apply (counters_distinct c 0 1).
Qed.
Lemma constant_span_id fuel key r s : is_Some (new_span_id (S (S fuel)) (λ _, r) key s).
Proof.
  cbn [new_span_id next_id_word id_counter id_calls]. fold (word_at key r (id_counter s)).
  destruct (word_at key r (id_counter s) =? 0) eqn:E; [|done]. apply Z.eqb_eq, next_word_nonzero, Z.eqb_neq in E.
  unfold word_at in E. cbn [id_counter]. by rewrite E.
Qed.
Lemma constant_trace_id fuel key r s : is_Some (new_trace_id (S fuel) (λ _, r) key s).
Proof.
  cbn [new_trace_id next_id_word id_counter id_calls]. fold (word_at key r (id_counter s)) (word_at key r (to_uint 64 (id_counter s + 1))).
  destruct (word_at key r (id_counter s) =? 0) eqn:E; [|done]. apply Z.eqb_eq, next_word_nonzero, Z.eqb_neq in E. by rewrite E.
Qed.
Lemma sp_start_total fuel r s name kind t p : random_bytes (sp_env s) = (λ _, r) → is_Some (sp_start_span (S (S fuel)) s name kind t p).
Proof.
  intros Hr. unfold sp_start_span. destruct (sp_acquire s) as [s1 [i|]]; [|done]. destruct (_ && _); [done|]. rewrite Hr.
  assert (∀ e, is_Some (match t with Some t => Some (t, e) | None => new_trace_id (S (S fuel)) (λ _, r) (env_key (sp_env s)) e end)) as Ht
    by (intros; destruct t; [done|apply constant_trace_id]).
  destruct (Ht (ids (sp_env s))) as [[tid ids1] ->]. cbn [mbind option_bind].
  destruct (constant_span_id fuel (env_key (sp_env s)) r ids1) as [[sid ids2] ->]. cbn [mbind option_bind next_generation].
  by destruct (read_clock _).
Qed.
Lemma sp_open_total s span f : is_Some (sp_open s span f).
Proof. unfold sp_open. destruct (sp_resolve_open s span) as [[i a]|]; [|done]. by destruct (f i a). Qed.
Lemma sp_op_total kvs sn sv fuel r s o : random_bytes (sp_env s) = (λ _, r) → is_Some (sp_op kvs sn sv (S (S fuel)) s o).
Proof.
  intros Hr. destruct o as [name kind parent|name kind t p|span attr|span name attrs n|span code m|span|u n|backend ok]; cbn [sp_op].
  - destruct (negb _); [done|]. destruct parent as [h|]; [|by eapply sp_start_total]. destruct (sp_resolve s h) as [[? ?]|]; [by eapply sp_start_total|done].
  - destruct t as [t|], p as [p|]; try done. destruct (_ || _); [done|by eapply sp_start_total].
  - destruct attr as [attr|]; [|done]. destruct (kv_valid attr); [apply sp_open_total|done].
  - destruct (_ && _); [apply sp_open_total|done].
  - destruct (_ && _); [apply sp_open_total|done].
  - apply sp_open_total.
  - done.
  - done.
Qed.
Lemma sp_run_total kvs sn sv fuel r ops : ∀ s, random_bytes (sp_env s) = (λ _, r) → is_Some (sp_run kvs sn sv (S (S fuel)) s ops).
Proof.
  induction ops as [|o ops IH]; intros s Hr; cbn [sp_run]; [done|].
  destruct (sp_op_total kvs sn sv fuel r s o Hr) as [[[s1 x] h] E]. rewrite E. cbn [mbind option_bind].
  pose proof (static_op _ _ _ _ _ _ _ _ _ E) as Hs. unfold static in Hs. injection Hs as _ _ Hs _ _ _ _ _ _ _ _ _ _ _ _.
  destruct (IH s1) as [[s2 rs] E2]; [congruence|]. by rewrite E2.
Qed.

(** ** The theorems *)

Lemma init_run l size_ok c buffer buffer_size st fuel ops :
  microtel_leaf_init l size_ok (Some c) buffer buffer_size = (Init st, OK) → config_wf c → Forall op_wf ops →
  ∃ rnd, lc_random_bytes c = Some rnd
  ∧ agrees_run (run fuel (Init st) ops)
      (sp_run (lc_kvs c) (cstr_str (lc_scope_name c)) (cstr_str (lc_scope_version c)) fuel (init_spec c rnd buffer_size) ops).
Proof.
  intros E Hw Ho. destruct (init_ok _ _ _ _ _ _ E) as (Hv & Hs & rnd & Er & ->). exists rnd. split; [done|].
  apply Z.ltb_ge in Hs. destruct (init_configured c rnd (usable_size buffer_size) Hv Hw Hs (usable_max _)) as [Hc Hr].
  apply sim_run; [by apply init_refines|exact Hc| |done]. destruct Hw as (_ & Hk & _). exact Hk.
Qed.

(** C23: The leaf core refines its specification.  After a successful
    [microtel_leaf_init], any sequence of API calls, with any valid or invalid
    arguments and handles, returns the statuses and handles of the specification
    and ends in a state that represents the specification's: the table of spans
    with their items in emit order, the queue of ended spans, the counters.  The
    buffer's layout, its links and its compaction are not observable, and no call
    reads or writes outside an object of the buffer. *)
Theorem leaf_refines l size_ok c buffer buffer_size st fuel ops :
  microtel_leaf_init l size_ok (Some c) buffer buffer_size = (Init st, OK) → config_wf c → Forall op_wf ops →
  ∃ rnd, lc_random_bytes c = Some rnd
  ∧ agrees_run (run fuel (Init st) ops)
      (sp_run (lc_kvs c) (cstr_str (lc_scope_name c)) (cstr_str (lc_scope_version c)) fuel (init_spec c rnd buffer_size) ops).
Proof. apply init_run. Qed.

(** C27: Every run of the leaf API returns.  With the worst random source, one that
    returns the same eight bytes for ever, two rounds of the id loop are enough for
    any sequence of calls; no call has undefined behaviour, whatever the state of
    the buffer, and the leaf stays initialised. *)
Theorem leaf_total l size_ok c buffer buffer_size st fuel r ops :
  microtel_leaf_init l size_ok (Some c) buffer buffer_size = (Init st, OK) → config_wf c → Forall op_wf ops →
  lc_random_bytes c = Some (λ _, r) →
  ∃ st' results, run (S (S fuel)) (Init st) ops = Some (Init st', results) ∧ length results = length ops.
Proof.
  intros E Hw Ho Hr. destruct (init_run _ _ _ _ _ _ (S (S fuel)) ops E Hw Ho) as (rnd & Er & H). assert (rnd = λ _, r) as -> by congruence.
  destruct (sp_run_total (lc_kvs c) (cstr_str (lc_scope_name c)) (cstr_str (lc_scope_version c)) fuel r ops (init_spec c (λ _, r) buffer_size) eq_refl) as [[s' rs] E'].
  rewrite E' in H. destruct H as (st' & E1 & _). exists st', rs. split; [done|]. clear -E1.
  revert E1. generalize (Init st). revert rs. induction ops as [|o ops IH]; intros rs l; cbn [run]; [by intros [= _ <-]|].
  destruct (run_op _ l o) as [[[l1 x] h]|]; cbn [mbind option_bind]; [|done]. destruct (run _ l1 ops) as [[l2 rs']|] eqn:E2; cbn [mbind option_bind]; [|done].
  intros [= -> <-]. cbn. f_equal. by apply (IH rs' l1).
Qed.

(** Compaction loses nothing, and fragmentation costs nothing.  In any reachable
    buffer [compact] runs without a fault, keeps every span with its items in order,
    and leaves no dead bytes; so an allocation succeeds exactly when the slot table,
    the live chunks and the new chunk fit under the Resource, however the chunks
    were allocated, replaced and freed before. *)
Theorem compaction_complete h A :
  rep h A →
  (∃ h', compact h = Some h' ∧ rep h' A ∧ slots_same h h' ∧ data_low h' = persist_off h - live_bytes A)
  ∧ ∀ i kind payload, 0 <= payload → ∃ h' o, alloc_chunk h (Z.of_nat i) kind payload = Some (h', o) ∧ slots_same h h'
    ∧ (is_Some o ↔ slot_off (size A) + live_bytes A + (chunk_hdr_size + payload) <= persist_off h) ∧ (o = None → rep h' A).
Proof.
  intros H. split; [by apply rep_compact|]. intros i kind payload Hp. pose proof (rep_alloc h A i kind payload H Hp) as Ha.
  destruct (room h A (chunk_hdr_size + payload)) eqn:Er; unfold room in Er.
  - destruct Ha as (h' & o & E & Hs & _). exists h', (Some o). split_and!; [done|done| |done]. apply Z.leb_le in Er. by split; [intros _|].
  - destruct Ha as (h' & E & Hs & Hr). exists h', None. split_and!; [done|done| |done]. apply Z.leb_gt in Er. split; [intros [? ?]; done|lia].
Qed.

(** ** Generations *)

(** The generation the next span gets after [n] more spans were started. *)
Fixpoint gen_after (n : nat) (e : leaf_env) : Z := match n with O => next_gen e | S n' => gen_after n' (next_generation e).2 end.
Lemma gen_after_spec n : ∀ e, 1 <= next_gen e <= NONE16 → gen_after n e = (next_gen e - 1 + Z.of_nat n) mod NONE16 + 1.
Proof.
  induction n as [|n IH]; intros e He; cbn [gen_after].
  - rewrite Z.add_0_r, Z.mod_small by (unfold NONE16 in *; lia). lia.
  - rewrite IH; cbn [next_generation snd next_gen set_gen].
    + destruct (next_gen e =? NONE16) eqn:E.
      * apply Z.eqb_eq in E. rewrite E. replace (NONE16 - 1 + Z.of_nat (S n)) with (1 - 1 + Z.of_nat n + 1 * NONE16) by lia.
        by rewrite Z.mod_add.
      * f_equal. f_equal. lia.
    + destruct (next_gen e =? NONE16) eqn:E; [unfold NONE16; lia|]. apply Z.eqb_neq in E. lia.
Qed.
(** A handle is told apart from those of the next 65534 spans, whatever their slots,
    and generation 0 is never given; but the 65535th further span in the same slot
    gets the same handle again. *)
Theorem generation_reuse e n :
  1 <= next_gen e <= NONE16 →
  gen_after n e ≠ 0 ∧ (gen_after n e = next_gen e ↔ (NONE16 | Z.of_nat n)).
Proof.
  intros He. rewrite gen_after_spec by done. pose proof (Z.mod_pos_bound (next_gen e - 1 + Z.of_nat n) NONE16 eq_refl) as Hb. split; [lia|].
  assert ((next_gen e - 1) mod NONE16 = next_gen e - 1) as Hs by (apply Z.mod_small; lia). split.
  - intros E. apply Z.mod_divide; [done|]. assert ((next_gen e - 1 + Z.of_nat n) mod NONE16 = (next_gen e - 1) mod NONE16) as E' by lia.
    replace (Z.of_nat n) with (next_gen e - 1 + Z.of_nat n - (next_gen e - 1)) by lia. rewrite Zminus_mod, E', Z.sub_diag. done.
  - intros [k ->]. rewrite Z.mod_add by done. lia.
Qed.

(** ** An example *)

Definition ex_clock : Clock := λ n, 1000 + 10 * Z.of_nat n mod 1000.
Definition ex_config : leaf_config :=
  mkLeafConfig true SYNC_RELATIVE (Some ex_clock) (Some (λ _, ex_draw)) (Some [ex_string]) 1 (Bytes ($"app")) (Bytes ($"1")) 2 1 1 7 false 0.
Definition ex_leaf : leaf_state := init_state ex_config (λ _, ex_draw) 700 (persistent_size ex_config).
(** Two spans, one with a parent and one over the attribute limit; the first encode fails. *)
Definition ex_ops : list op :=
  [OStart (Bytes ($"a")) 1 None; OSetAttribute 65536 (Some ex_string); OSetAttribute 65536 (Some (mkLeafKv (Bytes ($"n")) (VInt64 3)));
   OSetAttribute 65536 (Some (mkLeafKv (Bytes ($"n")) (VString (Bytes ($"longer than before")))));
   OSetAttribute 65536 (Some (mkLeafKv (Bytes ($"k")) (VBool 1))); OStart (Bytes ($"b")) 2 (Some 65536);
   OAddEvent 65536 (Bytes ($"ev")) None 0; OSetStatus 65536 2 (Bytes ($"bad")); OEnd 131073; OEnd 65536; OEnd 65536;
   OClockSync 5000 900; OEncode (λ _, (ERR_ENCODE, 0)) true; OEncode (λ p, (OK, size (p_spans p))) true].
Definition ex_final : leaf_state := match run 2 (Init ex_leaf) ex_ops with Some (Init st, _) => st | _ => ex_leaf end.
Definition ex_statuses : list leaf_status := [OK; OK; OK; OK; ERR_LIMIT; OK; OK; OK; OK; OK; ERR_STATE; OK; ERR_ENCODE; OK].
Example ex_run_statuses : option_map (λ r, map fst (snd r)) (run 2 (Init ex_leaf) ex_ops) = Some ex_statuses.
Proof. vm_compute. reflexivity. Qed.
Lemma ex_config_wf : config_wf ex_config.
Proof. split_and!; cbn; try (unfold NONE16; lia); [by repeat constructor|]. intros n. unfold ex_clock. pose proof (Z.mod_pos_bound (10 * Z.of_nat n) 1000 eq_refl). width_lia. Qed.
Lemma ex_ops_wf : Forall op_wf ex_ops.
Proof. repeat constructor; cbn; width_lia. Qed.
Lemma ex_init : microtel_leaf_init NotInit true (Some ex_config) true 700 = (Init ex_leaf, OK).
Proof. reflexivity. Qed.

Lemma leaf_refines_witness :
  microtel_leaf_init NotInit true (Some ex_config) true 700 = (Init ex_leaf, OK)
  ∧ ∃ rnd, lc_random_bytes ex_config = Some rnd
  ∧ agrees_run (run 2 (Init ex_leaf) ex_ops) (sp_run [ex_string] ($"app") ($"1") 2 (init_spec ex_config rnd 700) ex_ops).
Proof.
  split; [apply ex_init|]. apply (leaf_refines NotInit true ex_config true 700 ex_leaf 2 ex_ops); [apply ex_init|apply ex_config_wf|apply ex_ops_wf].
Defined.
Lemma leaf_total_witness : ∃ st' results, run 2 (Init ex_leaf) ex_ops = Some (Init st', results) ∧ length results = 14%nat.
Proof.
  apply (leaf_total NotInit true ex_config true 700 ex_leaf 0 ex_draw ex_ops); [apply ex_init|apply ex_config_wf|apply ex_ops_wf|reflexivity].
Defined.
(** The buffer after the attribute that outgrew its chunk. *)
Definition ex_mid : heap := match run 2 (Init ex_leaf) (take 4 ex_ops) with Some (Init st, _) => ls_heap st | _ => ls_heap ex_leaf end.
Lemma ex_leaf_rep : rep (ls_heap ex_leaf) [].
Proof.
  assert (0 <= 700 - persistent_size ex_config <= MAX_BUFFER) as Hs by (vm_compute; split; intros [=]).
  pose proof (rf_rep _ _ (init_refines ex_config (λ _, ex_draw) 700 (persistent_size ex_config) Hs)) as H. exact H.
Qed.
Lemma ex_mid_rep : ∃ A, rep ex_mid A.
Proof.
  destruct (init_run NotInit true ex_config true 700 ex_leaf 2 (take 4 ex_ops) ex_init ex_config_wf) as (rnd & _ & H); [apply Forall_take, ex_ops_wf|].
  unfold ex_mid. unfold agrees_run in H. destruct (sp_run _ _ _ _ _ _) as [[s rs]|]; [destruct H as (st & -> & R); exists (tbl s); apply (rf_rep _ _ R)|].
  rewrite H. exists []. exact ex_leaf_rep.
Qed.
Lemma compaction_complete_witness : ∃ A h', rep ex_mid A ∧ compact ex_mid = Some h' ∧ rep h' A ∧ data_low ex_mid < data_low h'.
Proof.
  destruct ex_mid_rep as [A H]. destruct (compaction_complete ex_mid A H) as [(h' & E & H' & _ & _) _]. exists A, h'.
  split; [exact H|]. split; [exact E|]. split; [exact H'|].
  assert (option_map (λ h', data_low ex_mid <? data_low h') (compact ex_mid) = Some true) as El by (vm_compute; reflexivity).
  rewrite E in El. unfold option_map in El. apply (inj Some) in El. apply Z.ltb_lt. exact El.
Defined.
