(* ===== verification/LeafLimits.v ===== *)
(** * Limits and delivery of the leaf core

    Invariants of the specification of [LeafSpec], kept by every API call: span
    limits, unique attribute keys, exact counts, the ended queue.  With the
    refinement of [LeafRun] they hold of what the C core hands to an encoder
    backend; and every ended span is delivered exactly once, in end order. *)
From stdpp Require Import gmap sorting.
From S2P Require Import Prelude Trace LeafKv LeafMem LeafHeap LeafCore LeafBatch LeafSpec LeafRefine LeafEncode LeafRun.

(** ** Items of a span *)

Definition attr_keys (xs : list cell) : list str := omap (λ x, match cl_item x with IAttr kv => Some (cstr_str (lk_key kv)) | _ => None end) xs.
Definition count_kind (k : chunk_kind) (xs : list cell) : Z := size (List.filter (is_kind k) xs).
Definition event_small (n : Z) (x : cell) : Prop := match cl_item x with IEvent _ _ attrs => size attrs <= n | _ => True end.
Definition caps (e : leaf_env) : Z * Z * Z := (max_attrs e, max_events e, max_event_attrs e).
(** A span within the limits [l]. *)
Record span_wf (l : Z * Z * Z) (a : aspan) : Prop := {
  sw_keys : NoDup (attr_keys (as_items a));
  sw_attrs : sr_attr_count (as_rec a) = size (attr_keys (as_items a)) ∧ sr_attr_count (as_rec a) <= l.1.1;
  sw_events : sr_event_count (as_rec a) = count_kind CHUNK_EVENT (as_items a) ∧ sr_event_count (as_rec a) <= l.1.2;
  sw_small : Forall (event_small l.2) (as_items a);
  sw_single : count_kind CHUNK_STATUS (as_items a) <= 1 ∧ count_kind CHUNK_NAME (as_items a) <= 1
}.
Record spec_wf (s : spec) : Prop := {
  wf_span : ∀ i a, sp_spans s !! i = Some (Some a) → span_wf (caps (sp_env s)) a;
  wf_state : ∀ i a, sp_spans s !! i = Some (Some a) → sr_state (as_rec a) = if bool_decide (i ∈ sp_ended s) then SLOT_ENDED else SLOT_OPEN;
  wf_nodup : NoDup (sp_ended s);
  wf_ended : ∀ i, i ∈ sp_ended s → ∃ a, sp_spans s !! i = Some (Some a);
  wf_count : ended_count (sp_env s) = size (sp_ended s);
  wf_slots : size (sp_spans s) <= NONE16;
  wf_caps : 0 <= max_attrs (sp_env s) <= NONE16 ∧ 0 <= max_events (sp_env s) <= NONE16 ∧ 0 <= max_event_attrs (sp_env s)
}.

Lemma attr_keys_app xs ys : attr_keys (xs ++ ys) = attr_keys xs ++ attr_keys ys.
Proof. apply omap_app. Qed.
Lemma count_kind_app k xs ys : count_kind k (xs ++ ys) = count_kind k xs + count_kind k ys.
Proof. unfold count_kind. by rewrite List.filter_app, size_app. Qed.
Lemma count_kind_cons k x xs : count_kind k (x :: xs) = (if is_kind k x then 1 else 0) + count_kind k xs.
Proof. unfold count_kind. cbn. destruct (is_kind k x); [by rewrite size_cons|done]. Qed.
Lemma count_kind_nonneg k xs : 0 <= count_kind k xs.
Proof. apply size_nonneg. Qed.
(** An item in place of another of its kind and key. *)
Lemma span_wf_replace l r xs1 x y xs2 f :
  span_wf l (mkASpan r (xs1 ++ x :: xs2)) → item_kind (cl_item y) = item_kind (cl_item x) → attr_keys [y] = attr_keys [x] → event_small l.2 y →
  (sr_attr_count (f r) = sr_attr_count r ∧ sr_event_count (f r) = sr_event_count r) → span_wf l (mkASpan (f r) (xs1 ++ y :: xs2)).
Proof.
  intros [H1 H2 H3 H4 H5] Hk Hq Hs [Ea Ee]. cbn [as_items as_rec] in *.
  assert (attr_keys (xs1 ++ y :: xs2) = attr_keys (xs1 ++ x :: xs2)) as Eq.
  { change (y :: xs2) with ([y] ++ xs2). change (x :: xs2) with ([x] ++ xs2). by rewrite !attr_keys_app, Hq. }
  assert (∀ k, count_kind k (xs1 ++ y :: xs2) = count_kind k (xs1 ++ x :: xs2)) as Ec
    by (intros; rewrite !count_kind_app, !count_kind_cons; unfold is_kind; by rewrite Hk).
  split; cbn [as_items as_rec]; rewrite ?Eq, ?Ec, ?Ea, ?Ee; try done.
  apply Forall_app in H4 as [H4 [_ H4']%Forall_cons]. apply Forall_app. by split; [|constructor].
Qed.

(** ** One span changed *)

Lemma wf_set s i a a' :
  spec_wf s → sp_spans s !! i = Some (Some a) → span_wf (caps (sp_env s)) a' → sr_state (as_rec a') = sr_state (as_rec a) → spec_wf (set_span i a' s).
Proof.
  intros [W1 W2 W3 W4 W5 W6 W7] Ei Ha Hst. pose proof (lookup_lt_Some _ _ _ Ei) as Hi. split; cbn [set_span with_spans sp_spans sp_ended sp_env]; try done.
  - intros j b Hj. destruct (decide (j = i)) as [->|]; [rewrite list_lookup_insert_eq in Hj by done; by injection Hj as <-|].
    rewrite list_lookup_insert_ne in Hj by done. by apply (W1 j).
  - intros j b Hj. destruct (decide (j = i)) as [->|]; [rewrite list_lookup_insert_eq in Hj by done; injection Hj as <-; rewrite Hst; by apply W2|].
    rewrite list_lookup_insert_ne in Hj by done. by apply W2.
  - intros j Hj. destruct (W4 j Hj) as [b Eb]. destruct (decide (j = i)) as [->|]; [rewrite list_lookup_insert_eq by done; eauto|].
    rewrite list_lookup_insert_ne by done. eauto.
  - unfold size. by rewrite length_insert.
Qed.
Lemma wf_env s e : spec_wf s → caps e = caps (sp_env s) → ended_count e = ended_count (sp_env s) → spec_wf (with_sp_env e s).
Proof.
  intros [W1 W2 W3 W4 W5 W6 W7] Hc He. pose proof Hc as Hc'. unfold caps in Hc'. injection Hc' as Ha Hb Hd.
  split; cbn [with_sp_env sp_spans sp_ended sp_env]; try done; [by rewrite Hc|by rewrite He|by rewrite Ha, Hb, Hd].
Qed.
Lemma wf_read_clock e : caps (read_clock e).2 = caps e ∧ ended_count (read_clock e).2 = ended_count e.
Proof. unfold read_clock. by destruct (now_ns e). Qed.

Lemma wf_set_attribute s i a attr : spec_wf s → sp_spans s !! i = Some (Some a) → spec_wf (sp_set_attribute i a attr s).1.
Proof.
  intros W Ei. pose proof (wf_span _ W _ _ Ei) as Ha. unfold sp_set_attribute.
  destruct (split_first _ _) as [[[xs1 x] xs2]|] eqn:Es.
  - apply split_first_Some in Es as (Es & Hx & _).
    assert (∀ cap, spec_wf (set_span i (mkASpan (as_rec a) (xs1 ++ mkCell (IAttr attr) cap :: xs2)) s)) as H.
    { intros cap. apply (wf_set s i a); [done|done| |done]. apply (span_wf_replace _ _ _ x _ _ (λ r, r)); [rewrite <- Es; by destruct a| | |done|done];
        unfold cell_is in Hx; bool_hyps; destruct (cl_item x) eqn:E; try done. unfold attr_keys. cbn. rewrite E. f_equal. symmetry. by apply seqb_true. }
    destruct (_ <=? _); [apply H|]. destruct (sp_fits _ _); [apply H|]. by apply wf_env.
  - destruct (max_attrs (sp_env s) <=? sr_attr_count (as_rec a)) eqn:El; [by apply wf_env|]. destruct (sp_fits _ _); [|by apply wf_env].
    apply (wf_set s i a); [done|done| |done]. apply Z.leb_gt in El. destruct Ha as [H1 [H2 H2'] H3 H4 H5]. destruct (wf_caps _ W) as (Hcap & _).
    pose proof (size_nonneg (attr_keys (as_items a))). unfold NONE16 in *.
    assert (to_uint 16 (sr_attr_count (as_rec a) + 1) = sr_attr_count (as_rec a) + 1) as Eu by (apply Z.mod_small; lia).
    split; cbn [as_items as_rec sr_attr_count set_attr_count sr_event_count caps fst snd]; rewrite ?attr_keys_app, ?count_kind_app.
    + change (attr_keys [mkCell (IAttr attr) (chunk_hdr_size + kv_size attr)]) with [cstr_str (lk_key attr)].
      apply NoDup_app. split_and!; [done| |apply NoDup_singleton]. intros k (x & Hx & Ek)%list_elem_of_omap ->%list_elem_of_singleton.
      apply split_first_None in Es. rewrite Forall_forall in Es. specialize (Es x Hx). unfold cell_is in Es.
      destruct (cl_item x) eqn:E; try done. injection Ek as Ek. rewrite bool_decide_true in Es by done. rewrite Ek, seqb_refl in Es. done.
    + rewrite size_app. rewrite Eu, H2. split; [done|lia].
    + change (count_kind CHUNK_EVENT [mkCell (IAttr attr) (chunk_hdr_size + kv_size attr)]) with 0. by rewrite Z.add_0_r.
    + apply Forall_app. split; [done|]. by constructor.
    + rewrite !Z.add_0_r. done.
Qed.
Lemma wf_add_event s i a name attrs : spec_wf s → sp_spans s !! i = Some (Some a) → spec_wf (sp_add_event i a name attrs s).1.
Proof.
  intros W Ei. pose proof (wf_span _ W _ _ Ei) as Ha. unfold sp_add_event.
  destruct (max_events (sp_env s) <=? sr_event_count (as_rec a)) eqn:El; [by apply wf_env|]. destruct (sp_fits _ _); [|by apply wf_env].
  pose proof (wf_read_clock (sp_env s)) as [Hc Hn]. destruct (read_clock (sp_env s)) as [time e]. cbn [fst snd] in *.
  apply wf_env; [|done|done].
  apply (wf_set s i a); [done|done| |done]. apply Z.leb_gt in El. destruct Ha as [H1 H2 [H3 H3'] H4 H5]. destruct (wf_caps _ W) as (_ & Hcap & Hm).
  pose proof (count_kind_nonneg CHUNK_EVENT (as_items a)). unfold NONE16 in *.
  assert (to_uint 16 (sr_event_count (as_rec a) + 1) = sr_event_count (as_rec a) + 1) as Eu by (apply Z.mod_small; lia).
  set (kept := if size attrs <? max_event_attrs (sp_env s) then size attrs else max_event_attrs (sp_env s)).
  set (x := mkCell (IEvent time name (take (Z.to_nat kept) attrs)) (chunk_hdr_size + event_size name (take (Z.to_nat kept) attrs))).
  split; cbn [as_items as_rec sr_attr_count set_event_count sr_event_count caps fst snd]; rewrite ?attr_keys_app, ?count_kind_app; change (attr_keys [x]) with (@nil str);
    rewrite ?app_nil_r; try done.
  - change (count_kind CHUNK_EVENT [x]) with 1. rewrite Eu, H3. lia.
  - apply Forall_app. split; [done|]. constructor; [|constructor]. cbn. unfold size. rewrite length_take.
    destruct (size attrs <? max_event_attrs (sp_env s)) eqn:E; subst kept; [apply Z.ltb_lt in E; unfold size in *|]; lia.
  - change (count_kind CHUNK_STATUS [x]) with 0. change (count_kind CHUNK_NAME [x]) with 0. by rewrite !Z.add_0_r.
Qed.

(** The status item: removed, replaced or appended. *)
Lemma status_gone l a xs1 x xs2 f :
  span_wf l a → as_items a = xs1 ++ x :: xs2 → item_kind (cl_item x) = CHUNK_STATUS →
  (∀ r, sr_attr_count (f r) = sr_attr_count r ∧ sr_event_count (f r) = sr_event_count r) →
  span_wf l (mkASpan (f (as_rec a)) (xs1 ++ xs2)) ∧ count_kind CHUNK_STATUS (xs1 ++ xs2) <= 0.
Proof.
  intros [H1 H2 H3 H4 H5] E Hx Hf. destruct (Hf (as_rec a)) as [Ea Ee]. rewrite E in *.
  change (x :: xs2) with ([x] ++ xs2) in *. rewrite !attr_keys_app, !count_kind_app in *.
  assert (attr_keys [x] = []) as Ex by (unfold attr_keys; cbn; by destruct (cl_item x)). rewrite Ex in *. cbn [app] in *.
  assert (count_kind CHUNK_STATUS [x] = 1 ∧ count_kind CHUNK_EVENT [x] = 0 ∧ count_kind CHUNK_NAME [x] = 0) as (C1 & C2 & C3)
    by (unfold count_kind, is_kind; cbn; rewrite Hx; by split_and!).
  pose proof (count_kind_nonneg CHUNK_NAME xs1). rewrite C1, C2, C3 in *. split; [|lia].
  apply Forall_app in H4 as [H4 [_ H4']%Forall_cons].
  split; cbn [as_items as_rec]; rewrite ?Ea, ?Ee, ?attr_keys_app, ?count_kind_app; [done|done| |by apply Forall_app|lia]. destruct H3; split; [lia|done].
Qed.
Lemma status_added l r xs m cap :
  span_wf l (mkASpan r xs) → count_kind CHUNK_STATUS xs <= 0 → span_wf l (mkASpan r (xs ++ [mkCell (IStatus m) cap])).
Proof.
  intros [H1 H2 H3 H4 H5] Hc. cbn [as_items as_rec] in *. set (x := mkCell (IStatus m) cap).
  assert (attr_keys (xs ++ [x]) = attr_keys xs) as Ek by (rewrite attr_keys_app; apply app_nil_r).
  split; cbn [as_items as_rec]; rewrite ?Ek, ?count_kind_app; try done.
  - change (count_kind CHUNK_EVENT [x]) with 0. by rewrite Z.add_0_r.
  - apply Forall_app. split; [done|]. by constructor.
  - change (count_kind CHUNK_STATUS [x]) with 1. change (count_kind CHUNK_NAME [x]) with 0. lia.
Qed.
Lemma span_wf_rec l r xs f :
  span_wf l (mkASpan r xs) → (sr_attr_count (f r) = sr_attr_count r ∧ sr_event_count (f r) = sr_event_count r) → span_wf l (mkASpan (f r) xs).
Proof. intros [H1 H2 H3 H4 H5] [Ea Ee]. cbn [as_items as_rec] in *. split; cbn [as_items as_rec]; by rewrite ?Ea, ?Ee. Qed.
Lemma wf_set_status s i a code message : spec_wf s → sp_spans s !! i = Some (Some a) → spec_wf (sp_set_status i a code message s).1.
Proof.
  intros W Ei. pose proof (wf_span _ W _ _ Ei) as Ha. rewrite sp_set_status_eq. destruct (sp_status_items _ _ _) as [xs|] eqn:E; [|done]. cbn [fst].
  apply (wf_set s i a); [done|done| |done]. revert E. unfold sp_status_items. destruct (split_first _ _) as [[[xs1 x] xs2]|] eqn:Es.
  - apply split_first_Some in Es as (Es & Hx & _). unfold cell_is in Hx. bool_hyps.
    destruct (status_gone _ _ _ _ _ (set_status_code code) Ha Es) as [Hg Hc]; [done|done|].
    destruct (_ =? 0); [by intros [= <-]|]. destruct (_ <=? cl_cap x).
    + intros [= <-]. apply (span_wf_replace _ _ _ x); [rewrite <- Es; by destruct a|done| |done|done].
      unfold attr_keys. cbn. by destruct (cl_item x).
    + destruct (sp_fits _ _); [|done]. intros [= <-]. by apply status_added.
  - assert (span_wf (caps (sp_env s)) (mkASpan (set_status_code code (as_rec a)) (as_items a))) as Hg by (apply span_wf_rec; [by destruct a|done]).
    destruct (_ =? 0); [by intros [= <-]|]. destruct (sp_fits _ _); [|done]. intros [= <-]. apply status_added; [done|].
    apply split_first_None in Es. unfold count_kind. enough (List.filter (is_kind CHUNK_STATUS) (as_items a) = []) as -> by done.
    clear -Es. induction Es as [|x xs Hx _ IH]; [done|]. cbn [List.filter]. unfold cell_is in Hx. rewrite andb_true_r in Hx. fold (is_kind CHUNK_STATUS x) in Hx. rewrite Hx. exact IH.
Qed.

Lemma wf_ended_small s i a : spec_wf s → sp_spans s !! i = Some (Some a) → i ∉ sp_ended s → size (sp_ended s) < NONE16.
Proof.
  intros W Ei Hi. assert (i :: sp_ended s ⊆+ seq 0 (length (sp_spans s))) as Hs.
  { apply NoDup_submseteq; [apply NoDup_cons; split; [done|apply (wf_nodup _ W)]|]. intros j Hj. apply elem_of_seq.
    assert (∃ b, sp_spans s !! j = Some (Some b)) as [b Eb] by (apply elem_of_cons in Hj as [->|Hj]; [eauto|by apply (wf_ended _ W)]).
    apply lookup_lt_Some in Eb. lia. }
  apply submseteq_length in Hs. rewrite length_seq in Hs. pose proof (wf_slots _ W) as Hn. cbn in Hs. unfold size in *. lia.
Qed.
Lemma wf_end_span s i a :
  spec_wf s → sp_spans s !! i = Some (Some a) → sr_state (as_rec a) = SLOT_OPEN → spec_wf (sp_end_span i a s).1.
Proof.
  intros W Ei Hst. assert (i ∉ sp_ended s) as Hi by (intros H; pose proof (wf_state _ W _ _ Ei) as E; rewrite bool_decide_true in E by done; congruence).
  pose proof (wf_ended_small _ _ _ W Ei Hi) as Hsm. pose proof (size_nonneg (sp_ended s)). pose proof (lookup_lt_Some _ _ _ Ei) as Hl.
  unfold sp_end_span. pose proof (wf_read_clock (sp_env s)) as [Hc Hn]. destruct (read_clock (sp_env s)) as [time e]. cbn [fst snd] in *.
  pose proof W as [W1 W2 W3 W4 W5 W6 W7]. pose proof Hc as Hc'. unfold caps in Hc'. injection Hc' as Ea Eb Ed. unfold NONE16 in *.
  split; cbn [sp_spans sp_ended sp_env].
  - change (caps (set_ended_count (to_uint 32 (ended_count e + 1)) e)) with (caps e). rewrite Hc. intros j b Hj. destruct (decide (j = i)) as [->|].
    + rewrite list_lookup_insert_eq in Hj by done. injection Hj as <-. apply span_wf_rec; [destruct a; by apply (W1 i)|done].
    + rewrite list_lookup_insert_ne in Hj by done. by apply (W1 j).
  - intros j b Hj. destruct (decide (j = i)) as [->|].
    + rewrite list_lookup_insert_eq in Hj by done. injection Hj as <-. rewrite bool_decide_true by (apply elem_of_app; right; by apply list_elem_of_singleton). done.
    + rewrite list_lookup_insert_ne in Hj by done. rewrite (W2 j b Hj). case_bool_decide as Hin; case_bool_decide as Hin2; try done; exfalso.
      * apply Hin2, elem_of_app. by left.
      * apply elem_of_app in Hin2 as [?| ->%list_elem_of_singleton]; done.
  - apply NoDup_app. split_and!; [done| |apply NoDup_singleton]. intros j Hj ->%list_elem_of_singleton. done.
  - intros j [Hj| ->%list_elem_of_singleton]%elem_of_app; [|rewrite list_lookup_insert_eq by done; eauto].
    rewrite list_lookup_insert_ne by (intros ->; done). by apply W4.
  - cbn [ended_count set_ended_count]. rewrite Hn, W5, size_app. change (size [i]) with 1. apply Z.mod_small. lia.
  - unfold size. by rewrite length_insert.
  - cbn. by rewrite Ea, Eb, Ed.
Qed.

(** ** The table changed *)

(** Only free slots come and go. *)
Lemma wf_table s sp : spec_wf s → (∀ i a, sp !! i = Some (Some a) ↔ sp_spans s !! i = Some (Some a)) → size sp <= NONE16 → spec_wf (with_spans sp s).
Proof.
  intros [W1 W2 W3 W4 W5 W6 W7] H Hs. split; cbn [with_spans sp_spans sp_ended sp_env]; try done.
  - intros i a E%H. by apply (W1 i).
  - intros i a E%H. by apply W2.
  - intros i Hi. destruct (W4 i Hi) as [a Ea]. exists a. by apply H.
Qed.
Lemma trim_spans_size l : size (trim_spans l) <= size l.
Proof. unfold size. apply inj_le. induction l as [|a l IH]; [done|]. cbn. destruct a; [|destruct (trim_spans l)]; cbn in *; lia. Qed.
Lemma wf_trim s : spec_wf s → spec_wf (sp_trim s).
Proof. intros W. apply wf_table; [done|intros; apply trim_spans_lookup|]. pose proof (trim_spans_size (sp_spans s)). pose proof (wf_slots _ W). lia. Qed.
Lemma sp_acquire_spec s s1 slot : spec_wf s → sp_acquire s = (s1, slot) → spec_wf s1 ∧ match slot with Some i => sp_spans s1 !! i = Some None | None => True end.
Proof.
  intros W. unfold sp_acquire. destruct (free_index (sp_spans s)) as [i|] eqn:Ef; [intros [= <- <-]; split; [done|by apply free_index_Some]|].
  destruct (size (sp_spans s) =? NONE16) eqn:En; [by intros [= <- <-]|]. destruct (sp_fits _ _); [|by intros [= <- <-]]. intros [= <- <-].
  split; [|cbn; by apply list_lookup_middle]. apply wf_table; [done| |].
  - intros i a. destruct (decide (i < length (sp_spans s))%nat) as [H|H]; [by rewrite lookup_app_l|].
    rewrite lookup_app_r by lia. split; [intros [_ [=]]%list_lookup_singleton_Some|intros E%lookup_lt_Some; lia].
  - apply Z.eqb_neq in En. pose proof (wf_slots _ W). rewrite size_app. change (size [None]) with 1. lia.
Qed.
(** A new span in a free slot. *)
Lemma wf_new s i a :
  spec_wf s → sp_spans s !! i = Some None → span_wf (caps (sp_env s)) a → sr_state (as_rec a) = SLOT_OPEN → spec_wf (set_span i a s).
Proof.
  intros [W1 W2 W3 W4 W5 W6 W7] Ei Ha Hst. pose proof (lookup_lt_Some _ _ _ Ei) as Hl.
  assert (i ∉ sp_ended s) as Hi by (intros H; destruct (W4 i H) as [b Eb]; congruence).
  split; cbn [set_span with_spans sp_spans sp_ended sp_env]; try done.
  - intros j b Hj. destruct (decide (j = i)) as [->|]; [rewrite list_lookup_insert_eq in Hj by done; by injection Hj as <-|].
    rewrite list_lookup_insert_ne in Hj by done. by apply (W1 j).
  - intros j b Hj. destruct (decide (j = i)) as [->|]; [rewrite list_lookup_insert_eq in Hj by done; injection Hj as <-; by rewrite bool_decide_false|].
    rewrite list_lookup_insert_ne in Hj by done. by apply W2.
  - intros j Hj. rewrite list_lookup_insert_ne by (intros ->; done). by apply W4.
  - unfold size. by rewrite length_insert.
Qed.
Lemma wf_start s fuel name kind t p s' r h : spec_wf s → sp_start_span fuel s name kind t p = Some (s', r, h) → spec_wf s'.
Proof.
  intros W. unfold sp_start_span. pose proof (sp_acquire_env s) as He. destruct (sp_acquire s) as [s1 slot] eqn:Ea. cbn [fst] in He.
  destruct (sp_acquire_spec _ _ _ W Ea) as [W1 Hf].
  assert (spec_wf (with_sp_env (drop_span (sp_env s)) (sp_trim s1))) as Wd
    by (apply wf_env; [by apply wf_trim|change (sp_env (sp_trim s1)) with (sp_env s1); by rewrite He|change (sp_env (sp_trim s1)) with (sp_env s1); by rewrite He]).
  destruct slot as [i|]; [|by intros [= <- _ _]].
  destruct (_ && _); [by intros [= <- _ _]|]. destruct (match t with Some _ => _ | None => _ end) as [[tid ids1]|]; cbn [mbind option_bind]; [|done].
  destruct (new_span_id _ _ _ _) as [[sid ids2]|]; cbn [mbind option_bind]; [|done]. cbn [next_generation].
  match goal with |- context [read_clock ?e] => pose proof (wf_read_clock e) as [Hc Hn]; destruct (read_clock e) as [now e1] end.
  cbn [fst snd] in *. intros [= <- _ _].
  apply wf_env; [|cbn [set_span with_spans sp_env]; by rewrite Hc, He|cbn [set_span with_spans sp_env]; by rewrite Hn, He].
  apply wf_new; [done|done| |done]. destruct (wf_caps _ W1) as (? & ? & ?). unfold caps.
  split; cbn [as_rec as_items sr_attr_count sr_event_count fst snd]; destruct (0 <? size name); cbn; try done; try (split; [done|lia]); try constructor; try done; lia.
Qed.
Lemma wf_release s : spec_wf s → spec_wf (sp_release s).
Proof.
  intros [W1 W2 W3 W4 W5 W6 W7]. unfold sp_release. apply wf_trim.
  split; cbn [sp_spans sp_ended sp_env]; try done; try (by constructor).
  - intros i a [E _]%fold_free_lookup. apply (W1 i a E).
  - intros i a [E Hi]%fold_free_lookup. rewrite (W2 i a E), !bool_decide_false; [done|by apply not_elem_of_nil|done].
  - intros i Hi. by apply elem_of_nil in Hi.
  - enough (length (fold_left (λ l i, <[i:=None]> l) (sp_ended s) (sp_spans s)) = length (sp_spans s)) as El by (unfold size in *; by rewrite El).
    clear. generalize (sp_spans s). induction (sp_ended s) as [|j q IH]; intros l; [done|]. cbn [fold_left]. by rewrite IH, length_insert.
Qed.

(** ** Every operation *)

Lemma sp_resolve_lookup s span i a : sp_resolve_open s span = Some (i, a) → sp_spans s !! i = Some (Some a) ∧ sr_state (as_rec a) = SLOT_OPEN.
Proof.
  unfold sp_resolve_open, sp_resolve. destruct (_ =? 0); [done|]. destruct (sp_spans s !! _) as [[b|]|] eqn:E; try done.
  destruct (_ =? _); [|done]. case_bool_decide; [|done]. by intros [= <- <-].
Qed.
Lemma wf_open s span f s' r h :
  spec_wf s → (∀ i a, sp_spans s !! i = Some (Some a) → sr_state (as_rec a) = SLOT_OPEN → spec_wf (f i a).1) → sp_open s span f = Some (s', r, h) → spec_wf s'.
Proof.
  intros W H. unfold sp_open. destruct (sp_resolve_open s span) as [[i a]|] eqn:E; [|by intros [= <- _ _]].
  apply sp_resolve_lookup in E as [Ei Hs]. specialize (H i a Ei Hs). destruct (f i a). by intros [= <- _ _].
Qed.
Lemma wf_built s : spec_wf s → spec_wf (with_sp_env (build_batch (sp_env s)).2 s).
Proof.
  intros W. unfold build_batch. pose proof (wf_read_clock (sp_env s)) as [Hc Hn]. destruct (read_clock (sp_env s)) as [now e]. by apply wf_env.
Qed.
Lemma wf_encode kvs sn sv backend s : spec_wf s → spec_wf (sp_encode kvs sn sv backend s).1.
Proof.
  intros W. apply wf_built in W. unfold sp_encode. destruct (build_batch _) as [b e]. destruct (backend _) as [st w].
  destruct (bool_decide _); [by apply wf_release|done].
Qed.
Lemma wf_op kvs sn sv fuel s o s' r h : spec_wf s → sp_op kvs sn sv fuel s o = Some (s', r, h) → spec_wf s'.
Proof.
  intros W. destruct o as [name kind parent|name kind t p|span attr|span name attrs n|span code m|span|u n|backend ok]; cbn [sp_op]; intros E.
  - destruct (negb _); [by injection E as <- _ _|]. destruct parent as [handle|]; [|by eapply wf_start].
    destruct (sp_resolve s handle) as [[? ?]|]; [by eapply wf_start|by injection E as <- _ _].
  - destruct t as [t|], p as [p|]; try (by injection E as <- _ _). destruct (_ || _); [by injection E as <- _ _|by eapply wf_start].
  - destruct attr as [attr|]; [|by injection E as <- _ _]. destruct (kv_valid attr); [|by injection E as <- _ _].
    eapply wf_open; [done| |exact E]. intros. by apply wf_set_attribute.
  - destruct (_ && _); [|by injection E as <- _ _]. eapply wf_open; [done| |exact E]. intros. by apply wf_add_event.
  - destruct (_ && _); [|by injection E as <- _ _]. eapply wf_open; [done| |exact E]. intros. by apply wf_set_status.
  - eapply wf_open; [done| |exact E]. intros. by apply wf_end_span.
  - destruct (now_ns (sp_env s)); [|by injection E as <- _ _]. destruct (u =? 0); [by injection E as <- _ _|].
    pose proof (wf_read_clock (sp_env s)) as [Hc Hn]. destruct (read_clock (sp_env s)) as [now e]. destruct (now <? n); injection E as <- _ _; by apply wf_env.
  - destruct ok; [|by injection E as <- _ _]. pose proof (wf_encode kvs sn sv backend s W) as H. destruct (sp_encode _ _ _ backend s). by injection E as <- _ _.
Qed.
Lemma wf_run kvs sn sv fuel ops : ∀ s s' rs, spec_wf s → sp_run kvs sn sv fuel s ops = Some (s', rs) → spec_wf s'.
Proof.
  induction ops as [|o ops IH]; intros s s' rs W; cbn [sp_run]; [by intros [= <- _]|].
  destruct (sp_op kvs sn sv fuel s o) as [[[s1 r] h]|] eqn:E; cbn [mbind option_bind]; [|done]. apply wf_op in E; [|done].
  destruct (sp_run kvs sn sv fuel s1 ops) as [[s2 rs']|] eqn:E2; cbn [mbind option_bind]; [|done]. intros [= <- _]. by eapply IH.
Qed.
Lemma wf_init c rnd buffer_size : config_wf c → spec_wf (init_spec c rnd buffer_size).
Proof.
  intros (_ & _ & H1 & H2 & H3). split; cbn; try done; try (by constructor).
  - intros i Hi. by apply elem_of_nil in Hi.
  - unfold cap_or, DEFAULT_MAX_ATTRS, DEFAULT_MAX_EVENTS, DEFAULT_MAX_EVENT_ATTRS, NONE16 in *. repeat case_match; lia.
Qed.

(** ** Delivery *)

(** What a call ends, and what it delivers. *)
Definition ended_by (s : spec) (o : op) : list aspan :=
  match o with
  | OEnd span => match sp_resolve_open s span with Some (_, a) => [on_rec (set_end (read_clock (sp_env s)).1) a] | None => [] end
  | _ => []
  end.
Definition delivered_by (kvs : list leaf_kv) (sn sv : str) (s : spec) (o : op) : list aspan :=
  match o with
  | OEncode backend true => if bool_decide ((sp_encode kvs sn sv backend s).2 = OK) then sp_ended_spans s else []
  | _ => []
  end.
(** A run, with all the spans ended and all the spans delivered. *)
Fixpoint sp_log (kvs : list leaf_kv) (sn sv : str) (fuel : nat) (s : spec) (ops : list op) : option (spec * list aspan * list aspan) :=
  match ops with
  | [] => Some (s, [], [])
  | o :: ops' => '(s', _, _) ← sp_op kvs sn sv fuel s o;
                 '(s2, ended, delivered) ← sp_log kvs sn sv fuel s' ops';
                 Some (s2, ended_by s o ++ ended, delivered_by kvs sn sv s o ++ delivered)
  end.

(** Ended spans are as they were. *)
Definition keeps (s s' : spec) : Prop := sp_ended s' = sp_ended s ∧ ∀ i, i ∈ sp_ended s → sp_spans s' !! i = sp_spans s !! i.
Lemma omap_ext {A B} (f g : A → option B) (l : list A) : (∀ x, x ∈ l → f x = g x) → omap f l = omap g l.
Proof.
  induction l as [|x l IH]; intros H; [done|]. cbn. rewrite (H x) by left. rewrite IH by (intros; apply H; by right). done.
Qed.
Lemma keeps_ended s s' : keeps s s' → sp_ended_spans s' = sp_ended_spans s.
Proof. intros [E H]. unfold sp_ended_spans. rewrite E. apply omap_ext. intros i Hi. by rewrite H. Qed.
Lemma keeps_set s i a a' : spec_wf s → sp_spans s !! i = Some (Some a) → sr_state (as_rec a) = SLOT_OPEN → keeps s (set_span i a' s).
Proof.
  intros W Ei Hs. split; [done|]. intros j Hj. cbn. apply list_lookup_insert_ne. intros ->.
  pose proof (wf_state _ W _ _ Ei) as E. rewrite bool_decide_true in E by done. congruence.
Qed.
Lemma keeps_env s s' e : keeps s s' → keeps s (with_sp_env e s').
Proof. done. Qed.
Lemma keeps_open s span f s' r h :
  (∀ i a, sp_spans s !! i = Some (Some a) → sr_state (as_rec a) = SLOT_OPEN → keeps s (f i a).1) → sp_open s span f = Some (s', r, h) → keeps s s'.
Proof.
  intros H. unfold sp_open. destruct (sp_resolve_open s span) as [[i a]|] eqn:E; [|by intros [= <- _ _]].
  apply sp_resolve_lookup in E as [Ei Hs]. specialize (H i a Ei Hs). destruct (f i a). by intros [= <- _ _].
Qed.
Lemma keeps_set_attribute s i a attr : spec_wf s → sp_spans s !! i = Some (Some a) → sr_state (as_rec a) = SLOT_OPEN → keeps s (sp_set_attribute i a attr s).1.
Proof.
  intros W Ei Hs. unfold sp_set_attribute. destruct (split_first _ _) as [[[? ?] ?]|]; repeat case_match; try done; by eapply keeps_set.
Qed.
Lemma keeps_add_event s i a name attrs : spec_wf s → sp_spans s !! i = Some (Some a) → sr_state (as_rec a) = SLOT_OPEN → keeps s (sp_add_event i a name attrs s).1.
Proof.
  intros W Ei Hs. unfold sp_add_event. destruct (_ <=? _); [done|]. destruct (sp_fits _ _); [|done]. destruct (read_clock _) as [t e]. by eapply keeps_env, keeps_set.
Qed.
Lemma keeps_set_status s i a code m : spec_wf s → sp_spans s !! i = Some (Some a) → sr_state (as_rec a) = SLOT_OPEN → keeps s (sp_set_status i a code m s).1.
Proof. intros W Ei Hs. rewrite sp_set_status_eq. destruct (sp_status_items _ _ _); [by eapply keeps_set|done]. Qed.
(** The table changed in free slots only. *)
Lemma keeps_table s sp : spec_wf s → (∀ i a, sp_spans s !! i = Some (Some a) → sp !! i = Some (Some a)) → keeps s (with_spans sp s).
Proof. intros W H. split; [done|]. intros i Hi. destruct (wf_ended _ W i Hi) as [a Ea]. cbn. rewrite Ea. by apply H. Qed.
Lemma ended_keeps_compose s1 s2 s3 : keeps s1 s2 → keeps s2 s3 → keeps s1 s3.
Proof. intros [E1 H1] [E2 H2]. split; [congruence|]. intros i Hi. rewrite H2 by (by rewrite E1). by apply H1. Qed.
Lemma keeps_acquire s s1 slot : spec_wf s → sp_acquire s = (s1, slot) → keeps s s1.
Proof.
  intros W. unfold sp_acquire. destruct (free_index (sp_spans s)) as [i|]; [by intros [= <- _]|]. destruct (_ =? NONE16); [by intros [= <- _]|].
  destruct (sp_fits _ _); [|by intros [= <- _]]. intros [= <- _]. apply keeps_table; [done|]. intros j a Ej. by apply lookup_app_l_Some.
Qed.
Lemma keeps_trim s : spec_wf s → keeps s (sp_trim s).
Proof. intros W. apply keeps_table; [done|]. intros i a. apply trim_spans_lookup. Qed.
Lemma keeps_start s fuel name kind t p s' r h : spec_wf s → sp_start_span fuel s name kind t p = Some (s', r, h) → keeps s s'.
Proof.
  intros W. unfold sp_start_span. destruct (sp_acquire s) as [s1 slot] eqn:Ea. pose proof (keeps_acquire _ _ _ W Ea) as K.
  destruct (sp_acquire_spec _ _ _ W Ea) as [W1 Hf]. assert (keeps s (with_sp_env (drop_span (sp_env s)) (sp_trim s1))) as Kd
    by (eapply keeps_env, ended_keeps_compose; [done|by apply keeps_trim]).
  destruct slot as [i|]; [|by intros [= <- _ _]].
  destruct (_ && _); [by intros [= <- _ _]|]. destruct (match t with Some _ => _ | None => _ end) as [[tid ids1]|]; cbn [mbind option_bind]; [|done].
  destruct (new_span_id _ _ _ _) as [[sid ids2]|]; cbn [mbind option_bind]; [|done]. cbn [next_generation].
  destruct (read_clock _) as [now e1]. intros [= <- _ _]. apply keeps_env. eapply ended_keeps_compose; [exact K|]. split; [done|].
  intros j Hj. cbn. apply list_lookup_insert_ne. intros ->. destruct (wf_ended _ W1 _ Hj) as [a Ea']. congruence.
Qed.

(** One call: nothing ended is lost, doubled or changed. *)
Lemma log_op kvs sn sv fuel s o s' r h :
  spec_wf s → sp_op kvs sn sv fuel s o = Some (s', r, h) → sp_ended_spans s ++ ended_by s o = delivered_by kvs sn sv s o ++ sp_ended_spans s'.
Proof.
  intros W E. assert ((∀ span, o ≠ OEnd span) → (∀ b, o ≠ OEncode b true) → keeps s s') as Hk.
  { destruct o as [name kind parent|name kind t p|span attr|span name attrs n|span code m|span|u n|backend ok]; cbn [sp_op] in E; intros N1 N2.
    - destruct (negb _); [by injection E as <- _ _|]. destruct parent as [handle|]; [|by eapply keeps_start].
      destruct (sp_resolve s handle) as [[? ?]|]; [by eapply keeps_start|by injection E as <- _ _].
    - destruct t as [t|], p as [p|]; try (by injection E as <- _ _). destruct (_ || _); [by injection E as <- _ _|by eapply keeps_start].
    - destruct attr as [attr|]; [|by injection E as <- _ _]. destruct (kv_valid attr); [|by injection E as <- _ _].
      eapply keeps_open; [|exact E]. intros. by apply keeps_set_attribute.
    - destruct (_ && _); [|by injection E as <- _ _]. eapply keeps_open; [|exact E]. intros. by apply keeps_add_event.
    - destruct (_ && _); [|by injection E as <- _ _]. eapply keeps_open; [|exact E]. intros. by apply keeps_set_status.
    - by destruct (N1 span).
    - destruct (now_ns (sp_env s)); [|by injection E as <- _ _]. destruct (u =? 0); [by injection E as <- _ _|].
      destruct (read_clock (sp_env s)) as [now e]. destruct (now <? n); injection E as <- _ _; done.
    - destruct ok; [by destruct (N2 backend)|]. by injection E as <- _ _. }
  destruct o as [name kind parent|name kind t p|span attr|span name attrs n|span code m|span|u n|backend ok];
    try (rewrite (keeps_ended s s') by (by apply Hk); by rewrite app_nil_r).
  - clear Hk. cbn [sp_op ended_by delivered_by app] in *. unfold sp_open in E. destruct (sp_resolve_open s span) as [[i a]|] eqn:Er; [|injection E as <- _ _; by rewrite app_nil_r].
    apply sp_resolve_lookup in Er as [Ei Hs]. unfold sp_end_span in E. destruct (read_clock (sp_env s)) as [time e]. injection E as <- _ _.
    unfold sp_ended_spans. cbn [sp_spans sp_ended fst]. rewrite omap_app. f_equal.
    + apply omap_ext. intros j Hj. rewrite list_lookup_insert_ne; [done|]. intros ->. pose proof (wf_state _ W _ _ Ei) as E. rewrite bool_decide_true in E by done. congruence.
    + cbn. rewrite list_lookup_insert_eq by (by eapply lookup_lt_Some). done.
  - destruct ok; [|rewrite (keeps_ended s s') by (by apply Hk); by rewrite app_nil_r]. clear Hk. cbn [sp_op ended_by delivered_by] in *.
    rewrite app_nil_r. unfold sp_encode in *. destruct (build_batch (sp_env s)) as [b e]. destruct (backend _) as [status w].
    destruct (bool_decide (status = OK)) eqn:Eo; cbn [snd]; rewrite Eo; injection E as <- _ _; [by rewrite app_nil_r|done].
Qed.
Lemma log_run kvs sn sv fuel ops : ∀ s s' rs,
  spec_wf s → sp_run kvs sn sv fuel s ops = Some (s', rs) →
  ∃ ended delivered, sp_log kvs sn sv fuel s ops = Some (s', ended, delivered) ∧ sp_ended_spans s ++ ended = delivered ++ sp_ended_spans s'.
Proof.
  induction ops as [|o ops IH]; intros s s' rs W; cbn [sp_run sp_log]; [intros [= <- _]; exists [], []; by rewrite app_nil_r|].
  destruct (sp_op kvs sn sv fuel s o) as [[[s1 r] h]|] eqn:E; cbn [mbind option_bind]; [|done]. pose proof (log_op _ _ _ _ _ _ _ _ _ W E) as L.
  apply wf_op in E; [|done]. destruct (sp_run kvs sn sv fuel s1 ops) as [[s2 rs']|] eqn:E2; cbn [mbind option_bind]; [|done]. intros [= <- _].
  destruct (IH _ _ _ E E2) as (ended & delivered & -> & Eq). cbn [mbind option_bind]. eexists _, _. split; [done|].
  rewrite app_assoc, L, <- !app_assoc, Eq. done.
Qed.

(** ** What is emitted *)

Definition emitted_keys (es : emitted_span) : list str := (λ kv, cstr_str (lk_key kv)) <$> es_attrs es.
(** An emitted span within the limits [l], with the counts the view promises. *)
Record emitted_within (l : Z * Z * Z) (es : emitted_span) : Prop := {
  ew_keys : NoDup (emitted_keys es);
  ew_attrs : size (es_attrs es) = sv_attr_count (es_span es) ∧ size (es_attrs es) <= l.1.1;
  ew_events : size (es_events es) = sv_event_count (es_span es) ∧ size (es_events es) <= l.1.2;
  ew_small : Forall (λ ev, size (ee_attrs ev) <= l.2) (es_events es)
}.
Lemma emitted_attr_keys xs : (λ kv, cstr_str (lk_key kv)) <$> sp_attrs xs = attr_keys xs.
Proof. unfold sp_attrs, attr_keys. induction xs as [|x xs IH]; [done|]. cbn. destruct (cl_item x); cbn; rewrite ?IH; done. Qed.
Lemma emitted_events_count off xs : size (sp_events off xs) = count_kind CHUNK_EVENT xs.
Proof.
  induction xs as [|x xs IH]; [done|]. rewrite count_kind_cons, <- IH. unfold sp_events at 1. cbn [omap list_omap]. fold (sp_events off xs).
  unfold is_kind. destruct (cl_item x); cbn; rewrite ?size_cons; try done; lia.
Qed.
Lemma span_emitted_within l off a : span_wf l a → emitted_within l (sp_emit off a).
Proof.
  intros [H1 [H2 H2'] [H3 H3'] H4 _]. assert (size (sp_attrs (as_items a)) = size (attr_keys (as_items a))) as Es by (by rewrite <- emitted_attr_keys, size_fmap).
  split; unfold emitted_keys; cbn [sp_emit es_attrs es_events es_span sv_attr_count sv_event_count view_of]; rewrite ?emitted_attr_keys, ?emitted_events_count, ?Es; [done|lia|lia|].
  clear -H4. unfold sp_events. induction H4 as [|x xs Hx _ IH]; [constructor|]. cbn. unfold event_small in Hx. destruct (cl_item x) as [| |t n at0|]; try apply IH.
  constructor; [cbn; by rewrite size_fmap|apply IH].
Qed.

Lemma static_caps e e' : static e' = static e → caps e' = caps e.
Proof. unfold static, caps. intros E. injection E as _ _ _ _ _ _ _ _ _ _ _ E1 E2 E3 _. by rewrite E1, E2, E3. Qed.
Lemma static_count e e' : static e' = static e → resource_count e' = resource_count e.
Proof. unfold static. intros E. by injection E as _ _ _ _ E _ _ _ _ _ _ _ _ _ _. Qed.

(** A run of the leaf, its specification, and the invariant. *)
Lemma reached l size_ok c buffer buffer_size st fuel ops st' rs :
  microtel_leaf_init l size_ok (Some c) buffer buffer_size = (Init st, OK) → config_wf c → Forall op_wf ops →
  run fuel (Init st) ops = Some (Init st', rs) →
  ∃ rnd s', lc_random_bytes c = Some rnd
  ∧ sp_run (lc_kvs c) (cstr_str (lc_scope_name c)) (cstr_str (lc_scope_version c)) fuel (init_spec c rnd buffer_size) ops = Some (s', rs)
  ∧ refines st' s' ∧ spec_wf s' ∧ static (sp_env s') = static (sp_env (init_spec c rnd buffer_size))
  ∧ configured (sp_env s') (lc_kvs c) (cstr_str (lc_scope_name c)) (cstr_str (lc_scope_version c)).
Proof.
  intros E Hw Ho Er. destruct (init_run _ _ _ _ _ _ fuel ops E Hw Ho) as (rnd & Hr & H). exists rnd.
  destruct (init_ok _ _ _ _ _ _ E) as (Hv & Hs & rnd' & Hr' & ->). assert (rnd' = rnd) as -> by congruence. apply Z.ltb_ge in Hs.
  destruct (init_configured c rnd (usable_size buffer_size) Hv Hw Hs (usable_max _)) as [Hc _].
  destruct (sp_run _ _ _ _ _ _) as [[s' rs']|] eqn:Es; [|by rewrite H in Er]. destruct H as (st2 & E2 & R). rewrite E2 in Er. injection Er as -> ->.
  exists s'. assert (static (sp_env s') = static (sp_env (init_spec c rnd buffer_size))) as Hst.
  { clear -Es. revert Es. generalize (init_spec c rnd buffer_size). revert rs. induction ops as [|o ops IH]; intros rs s; cbn [sp_run]; [by intros [= <- _]|].
    destruct (sp_op _ _ _ _ _ _) as [[[s1 x] h]|] eqn:E; cbn [mbind option_bind]; [|done]. apply static_op in E.
    destruct (sp_run _ _ _ _ _ ops) as [[s2 rs']|] eqn:E2; cbn [mbind option_bind]; [|done]. intros [= <- _]. by rewrite (IH _ _ E2). }
  split_and!; [done|done|done| |done|].
  - eapply wf_run; [|exact Es]. by apply wf_init.
  - eapply static_configured; [exact Hst|exact Hc].
Qed.

(** What the leaf hands to an encoder backend is well formed.  After any
    sequence of calls the cursors of a batch read without a fault and return the
    configured Resource followed by the reserved attributes, the scope, and the
    ended spans in end order; each span has pairwise different attribute keys, as
    many attributes and events as its view says, and no more of them, nor of
    attributes per event, than configured; the batch's span and attribute counts
    are those of the cursors. *)
Theorem leaf_batch_within_limits l size_ok c buffer buffer_size st fuel ops st' rs :
  microtel_leaf_init l size_ok (Some c) buffer buffer_size = (Init st, OK) → config_wf c → Forall op_wf ops →
  run fuel (Init st) ops = Some (Init st', rs) →
  ∃ p, let '(b, e) := build_batch (ls_env st') in
  read_batch (with_env e st') b = Some p
  ∧ p_resource p = (normal_kv <$> lc_kvs c) ++ reserved b ∧ size (p_resource p) = batch_resource_count b
  ∧ p_scope_name p = cstr_str (lc_scope_name c) ∧ p_scope_version p = cstr_str (lc_scope_version c)
  ∧ size (p_spans p) = span_count b
  ∧ Forall (emitted_within (cap_or (lc_max_attributes_per_span c) DEFAULT_MAX_ATTRS, cap_or (lc_max_events_per_span c) DEFAULT_MAX_EVENTS,
                            cap_or (lc_max_attributes_per_event c) DEFAULT_MAX_EVENT_ATTRS)) (p_spans p).
Proof.
  intros E Hw Ho Er. destruct (reached _ _ _ _ _ _ _ _ _ _ E Hw Ho Er) as (rnd & s' & Hr & Es & R & W & Hst & Hc).
  rewrite (rf_env _ _ R). pose proof (build_batch_static (sp_env s')) as [Hb Hn]. pose proof (wf_built _ W) as Wb.
  assert (span_count (build_batch (sp_env s')).1 = size (sp_ended s')) as Hsc.
  { unfold build_batch. pose proof (wf_read_clock (sp_env s')) as [_ H]. destruct (read_clock (sp_env s')) as [now e]. cbn in *. by rewrite H, (wf_count _ W). }
  destruct (build_batch (sp_env s')) as [b e] eqn:Eb. cbn [fst snd] in *.
  assert (resource_count e = size (lc_kvs c) ∧ resource_count e = resource_count (sp_env s')) as [Hrc Hre].
  { rewrite (static_count _ _ Hb). split; [by apply (cf_count _ _ _ _ Hc)|done]. }
  exists (sp_payload (lc_kvs c) (cstr_str (lc_scope_name c)) (cstr_str (lc_scope_version c)) b s').
  rewrite (read_batch_spec (with_env e st') (with_sp_env e s') b (lc_kvs c) (cstr_str (lc_scope_name c)) (cstr_str (lc_scope_version c)));
    [|by apply refines_env|by apply (static_configured (sp_env s'))|cbn [ls_env with_env]; by rewrite Hn, Hre].
  cbn [sp_payload p_resource p_scope_name p_scope_version p_spans]. split_and!; [done|done| |done|done| |].
  - rewrite size_app, size_fmap, Hn, <- Hre, Hrc. done.
  - rewrite size_fmap, Hsc. unfold sp_ended_spans. change (sp_spans (with_sp_env e s')) with (sp_spans s').
    pose proof (wf_ended _ W) as Hen. clear -Hen. induction (sp_ended s') as [|i q IH]; [done|]. cbn [omap list_omap].
    destruct (Hen i ltac:(left)) as [a Ea]. rewrite Ea. cbn [mjoin option_join]. rewrite !size_cons. f_equal. apply IH. intros; apply Hen. by right.
  - pose proof (static_caps _ _ Hst) as Hcap.
    unfold caps at 2 in Hcap. cbn in Hcap. rewrite <- Hcap. apply Forall_fmap. unfold sp_ended_spans. apply Forall_forall. intros a Ha.
    apply list_elem_of_omap in Ha as (i & Hi & Ea). cbn. apply span_emitted_within. cbn in Ea.
    destruct (sp_spans s' !! i) as [[a0|]|] eqn:El; try done. injection Ea as ->. by apply (wf_span _ W i).
Qed.

(** C24: Ended spans are delivered exactly once, in the order they ended.  Along any
    run, the spans the successful encodes delivered, followed by those still
    queued, are the spans that were ended, each as it was when it ended.  An encode
    whose backend fails delivers nothing and loses nothing, and no later call
    changes or frees an ended span. *)
Theorem leaf_delivers_once l size_ok c buffer buffer_size st fuel ops st' rs :
  microtel_leaf_init l size_ok (Some c) buffer buffer_size = (Init st, OK) → config_wf c → Forall op_wf ops →
  run fuel (Init st) ops = Some (Init st', rs) →
  ∃ rnd s' ended delivered, lc_random_bytes c = Some rnd
  ∧ sp_log (lc_kvs c) (cstr_str (lc_scope_name c)) (cstr_str (lc_scope_version c)) fuel (init_spec c rnd buffer_size) ops = Some (s', ended, delivered)
  ∧ refines st' s' ∧ delivered ++ sp_ended_spans s' = ended.
Proof.
  intros E Hw Ho Er. destruct (reached _ _ _ _ _ _ _ _ _ _ E Hw Ho Er) as (rnd & s' & Hr & Es & R & _).
  destruct (log_run _ _ _ _ _ _ _ _ (wf_init c rnd buffer_size Hw) Es) as (ended & delivered & El & Eq).
  exists rnd, s', ended, delivered. split_and!; [done|done|done|]. by rewrite <- Eq.
Qed.

Lemma ex_run : ∃ results, run 2 (Init ex_leaf) ex_ops = Some (Init ex_final, results).
Proof. eexists. vm_compute. reflexivity. Qed.
Definition ex_before : list op := take 11 ex_ops.
Definition ex_queued : leaf_state := match run 2 (Init ex_leaf) ex_before with Some (Init st, _) => st | _ => ex_leaf end.
Lemma ex_run_before : ∃ results, run 2 (Init ex_leaf) ex_before = Some (Init ex_queued, results).
Proof. eexists. vm_compute. reflexivity. Qed.
Lemma leaf_batch_within_limits_witness :
  ∃ p, let '(b, e) := build_batch (ls_env ex_queued) in read_batch (with_env e ex_queued) b = Some p ∧ size (p_spans p) = 2.
Proof.
  destruct ex_run_before as [rs E].
  destruct (leaf_batch_within_limits NotInit true ex_config true 700 ex_leaf 2 ex_before ex_queued rs ex_init ex_config_wf (Forall_take _ _ _ ex_ops_wf) E) as [p H].
  exists p. destruct (build_batch (ls_env ex_queued)) as [b e] eqn:Eb. destruct H as (H & _ & _ & _ & _ & Hs & _). split; [exact H|].
  rewrite Hs. replace b with (build_batch (ls_env ex_queued)).1 by (rewrite Eb; reflexivity). vm_compute. reflexivity.
Defined.
Lemma leaf_delivers_once_witness :
  ∃ rnd s' ended delivered, sp_log [ex_string] ($"app") ($"1") 2 (init_spec ex_config rnd 700) ex_ops = Some (s', ended, delivered)
  ∧ refines ex_final s' ∧ delivered ++ sp_ended_spans s' = ended.
Proof.
  destruct ex_run as [rs E].
  destruct (leaf_delivers_once NotInit true ex_config true 700 ex_leaf 2 ex_ops ex_final rs ex_init ex_config_wf ex_ops_wf E) as (rnd & s' & ended & delivered & _ & H).
  exists rnd, s', ended, delivered. exact H.
Defined.
