(* ===== verification/Registry.v ===== *)
(** * The provider registry

    Model of [src/sdk/provider_registry.cpp]: [kMaxProfiles] slots holding the
    address of a provider or null.  A provider is a number; [names] is
    [ProfileName] of the provider at an address, immutable while it lives.

    [RegisterProvider], [DeregisterProvider], [FindProvider] and the fork sweep
    are first the functions they are when nothing else runs; they refine a map from
    names to providers with room for [kMaxProfiles] entries.  The second part is the
    transition system of the same code with one atomic access, or one read of
    another provider's name, per step.  [run] executes a schedule and is [None] when
    a destroyed provider's name is read.

    The theorems: the sequential refinement; racing registrations of one name among
    providers that stay give exactly one [Registered] when a slot is free, with a
    number of steps per thread that no schedule can exceed.  The examples at the end
    show what happens when a slot below is freed meanwhile. *)
From stdpp Require Import gmap.
From S2P Require Import Prelude.
Local Open Scope nat_scope.

Inductive RegistrationResult := Registered | DuplicateName | CapacityExhausted.
#[export] Instance RegistrationResult_eq : EqDecision RegistrationResult.
Proof. solve_decision. Defined.
Definition kMaxProfiles : nat := 8.
Abbreviation Slots := (list (option nat)).
Definition g_slots_init : Slots := replicate kMaxProfiles None.

Section registry.
Context (names : nat → str).

(** ** Sequential operations *)

Definition carries (name : str) (slot : option nat) : bool :=
  match slot with Some other => names other =s name | None => false end.
Definition NameIsTaken (name : str) (limit : nat) (g_slots : Slots) : bool := existsb (carries name) (take limit g_slots).
(** [None] for [kMaxProfiles]. *)
Fixpoint ClaimEmptySlot (provider : nat) (g_slots : Slots) : option (nat * Slots) :=
  match g_slots with
  | [] => None
  | None :: rest => Some (0, Some provider :: rest)
  | Some other :: rest => '(i, rest) ← ClaimEmptySlot provider rest; Some (S i, Some other :: rest)
  end.
Definition RegisterProvider (provider : nat) (g_slots : Slots) : RegistrationResult * Slots :=
  let name := names provider in
  if NameIsTaken name kMaxProfiles g_slots then (DuplicateName, g_slots)
  else match ClaimEmptySlot provider g_slots with
       | None => (CapacityExhausted, g_slots)
       | Some (claimed, g_slots) =>
           if NameIsTaken name claimed g_slots then (DuplicateName, <[claimed := None]> g_slots)
           else (Registered, g_slots)
       end.
Fixpoint DeregisterProvider (provider : nat) (g_slots : Slots) : Slots :=
  match g_slots with
  | [] => []
  | slot :: rest => if bool_decide (slot = Some provider) then None :: rest else slot :: DeregisterProvider provider rest
  end.
Fixpoint FindProvider (name : str) (g_slots : Slots) : option nat :=
  match g_slots with
  | [] => None
  | slot :: rest => if carries name slot then slot else FindProvider name rest
  end.
(** The providers marked, in order, the slots and [g_fork_sweep_runs]. *)
Definition MarkForkedChildProviders (g_slots : Slots) (sweeps : nat) : list nat * Slots * nat :=
  (omap id g_slots, (λ _, None) <$> g_slots, S sweeps).

Inductive RegistryCall := CallRegister (provider : nat) | CallDeregister (provider : nat) | CallFind (name : str) | CallFork.
Inductive RegistryAnswer := AnsRegister (r : RegistrationResult) | AnsDone | AnsFind (provider : option nat) | AnsFork (marked : list nat).
Definition call (c : RegistryCall) (g_slots : Slots) : RegistryAnswer * Slots :=
  match c with
  | CallRegister p => let '(r, s) := RegisterProvider p g_slots in (AnsRegister r, s)
  | CallDeregister p => (AnsDone, DeregisterProvider p g_slots)
  | CallFind n => (AnsFind (FindProvider n g_slots), g_slots)
  | CallFork => let '(marked, s, _) := MarkForkedChildProviders g_slots 0 in (AnsFork marked, s)
  end.
Fixpoint calls (cs : list RegistryCall) (g_slots : Slots) : list RegistryAnswer * Slots :=
  match cs with
  | [] => ([], g_slots)
  | c :: cs => let '(a, s) := call c g_slots in let '(l, s) := calls cs s in (a :: l, s)
  end.

(** ** The map it stands for *)

Definition spec_call (c : RegistryCall) (m : gmap str nat) : RegistryAnswer * gmap str nat :=
  match c with
  | CallRegister p =>
      match m !! names p with
      | Some _ => (AnsRegister DuplicateName, m)
      | None => if decide (base.size m < kMaxProfiles) then (AnsRegister Registered, <[names p := p]> m) else (AnsRegister CapacityExhausted, m)
      end
  | CallDeregister p => (AnsDone, if bool_decide (m !! names p = Some p) then delete (names p) m else m)
  | CallFind n => (AnsFind (m !! n), m)
  | CallFork => (AnsFork [], ∅)
  end.
(** The sweep marks every live provider, in slot order, which the map does not know. *)
Definition answer_ok (m : gmap str nat) (a b : RegistryAnswer) : Prop :=
  match a, b with
  | AnsFork marked, AnsFork _ => NoDup marked ∧ ∀ p, p ∈ marked ↔ m !! names p = Some p
  | _, _ => a = b
  end.
Fixpoint answers_ok (cs : list RegistryCall) (answers : list RegistryAnswer) (m : gmap str nat) : Prop :=
  match cs, answers with
  | [], [] => True
  | c :: cs, a :: answers => let '(b, m') := spec_call c m in answer_ok m a b ∧ answers_ok cs answers m'
  | _, _ => False
  end.

(** The providers in the slots. *)
Definition live (s : Slots) : list nat := omap id s.
Definition registry_map (s : Slots) : gmap str nat := list_to_map ((λ p, (names p, p)) <$> live s).
Definition registry_ok (s : Slots) : Prop := length s = kMaxProfiles ∧ NoDup (names <$> live s).

Lemma live_elem s p : p ∈ live s ↔ Some p ∈ s.
Proof. unfold live. rewrite list_elem_of_omap. split; [intros (x & H & E); cbn in E; by subst|intros H; by exists (Some p)]. Qed.
Lemma live_app s t : live (s ++ t) = live s ++ live t.
Proof. apply omap_app. Qed.
Lemma registry_map_lookup s n p : NoDup (names <$> live s) → registry_map s !! n = Some p ↔ p ∈ live s ∧ names p = n.
Proof.
  intros Hnd. unfold registry_map. rewrite <- elem_of_list_to_map.
  - rewrite list_elem_of_fmap. split; [intros (x & [= -> ->] & H); by split|intros [H <-]; by exists p].
  - by rewrite <- list_fmap_compose.
Qed.
Lemma registry_map_size s : NoDup (names <$> live s) → base.size (registry_map s) = length (live s).
Proof.
  intros Hnd. unfold registry_map. rewrite map_size_list_to_map by (by rewrite <- list_fmap_compose). by rewrite length_fmap.
Qed.
Lemma FindProvider_map s n : NoDup (names <$> live s) → FindProvider n s = registry_map s !! n.
Proof.
  unfold registry_map, live. induction s as [|[q|] s IH]; [done| |]; cbn; intros Hnd.
  - destruct (names q =s n) eqn:E.
    + apply seqb_true in E as <-. by rewrite lookup_insert_eq.
    + apply seqb_false in E. rewrite lookup_insert_ne by done. apply IH. by apply NoDup_cons in Hnd as [_ ?].
  - by apply IH.
Qed.
Lemma NameIsTaken_find s n limit : NameIsTaken n limit s = match FindProvider n (take limit s) with Some _ => true | None => false end.
Proof.
  unfold NameIsTaken. induction (take limit s) as [|[q|] l IH]; cbn; [done| |done]. by destruct (names q =s n).
Qed.
Lemma FindProvider_take_None s n k : FindProvider n s = None → FindProvider n (take k s) = None.
Proof. revert k. induction s as [|x s IH]; intros [|k]; cbn; try done. destruct (carries n x) eqn:E; [by destruct x|apply IH]. Qed.
Lemma ClaimEmptySlot_Some p s i s' :
  ClaimEmptySlot p s = Some (i, s') → ∃ s1 s2, s = s1 ++ None :: s2 ∧ s' = s1 ++ Some p :: s2 ∧ i = length s1 ∧ length (live s1) = length s1.
Proof.
  revert i s'. induction s as [|[q|] s IH]; intros i s'; cbn; [done| |].
  - intros H. apply bind_Some in H as ([j t] & Hc & [= <- <-]). destruct (IH _ _ Hc) as (s1 & s2 & -> & -> & -> & Hl).
    exists (Some q :: s1), s2. cbn. split_and!; [done..|]. change (length (live s1)) with (length (live s1)). f_equal. exact Hl.
  - intros [= <- <-]. by exists [], s.
Qed.
Lemma live_length s : length (live s) <= length s.
Proof. unfold live. induction s as [|[q|] s IH]; cbn in *; lia. Qed.
Lemma ClaimEmptySlot_None p s : ClaimEmptySlot p s = None ↔ length (live s) = length s.
Proof.
  induction s as [|[q|] s IH]; [done| |]; unfold live in *; cbn.
  - rewrite bind_None, IH. split; [intros [H|([j t] & _ & [=])]; lia|intros [= ?]; by left].
  - split; [done|]. pose proof (live_length s). unfold live in *. lia.
Qed.

Lemma registry_map_fresh s n : NoDup (names <$> live s) → FindProvider n s = None → n ∉ names <$> live s.
Proof.
  intros Hnd Hf (p & -> & Hp)%list_elem_of_fmap. rewrite FindProvider_map in Hf by done.
  assert (registry_map s !! names p = Some p) as E by (by apply registry_map_lookup). congruence.
Qed.
(** The re-scan of a registration that runs alone finds nothing. *)
Lemma RegisterProvider_cases p s :
  registry_ok s →
  match FindProvider (names p) s with
  | Some _ => RegisterProvider p s = (DuplicateName, s)
  | None => if decide (length (live s) < kMaxProfiles)
            then ∃ s1 s2, s = s1 ++ None :: s2 ∧ RegisterProvider p s = (Registered, s1 ++ Some p :: s2)
            else RegisterProvider p s = (CapacityExhausted, s)
  end.
Proof.
  intros [Hl Hnd]. unfold RegisterProvider. rewrite NameIsTaken_find, take_ge by lia.
  destruct (FindProvider (names p) s) as [q|] eqn:Hf; [done|].
  destruct (ClaimEmptySlot p s) as [[i s']|] eqn:Hc.
  - apply ClaimEmptySlot_Some in Hc as (s1 & s2 & -> & -> & -> & Hl1).
    rewrite live_app in *. cbn in *. rewrite !length_app in *. cbn in *. pose proof (live_length s2). unfold live in *.
    rewrite decide_True by lia. rewrite NameIsTaken_find, take_app_length.
    assert (FindProvider (names p) s1 = None) as ->; [|by eauto].
    apply (FindProvider_take_None _ _ (length s1)) in Hf. by rewrite take_app_length in Hf.
  - apply ClaimEmptySlot_None in Hc. by rewrite decide_False by lia.
Qed.

Lemma Deregister_split p s :
  DeregisterProvider p s = s ∧ p ∉ live s ∨ ∃ s1 s2, s = s1 ++ Some p :: s2 ∧ DeregisterProvider p s = s1 ++ None :: s2 ∧ p ∉ live s1.
Proof.
  induction s as [|x s IH]; cbn [DeregisterProvider]; [left; split; [done|apply not_elem_of_nil]|]. case_bool_decide as E.
  - subst x. right. exists [], s. split_and!; [done|done|apply not_elem_of_nil].
  - destruct IH as [[-> Hn]|(s1 & s2 & -> & -> & Hn)].
    + left. split; [done|]. rewrite live_elem, elem_of_cons in *. naive_solver.
    + right. exists (x :: s1), s2. split_and!; [done|done|]. rewrite live_elem, elem_of_cons in *. naive_solver.
Qed.
Lemma slots_live_insert s1 p s2 : live (s1 ++ Some p :: s2) ≡ₚ p :: live (s1 ++ None :: s2).
Proof. rewrite !live_app. symmetry. apply Permutation_middle. Qed.
Lemma registry_map_app s1 p s2 :
  NoDup (names <$> live (s1 ++ Some p :: s2)) →
  registry_map (s1 ++ Some p :: s2) = <[names p := p]> (registry_map (s1 ++ None :: s2)) ∧ registry_map (s1 ++ None :: s2) !! names p = None.
Proof.
  unfold registry_map. rewrite !live_app, fmap_app. change (live (Some p :: s2)) with (p :: live s2). change (live (None :: s2)) with (live s2).
  intros Hnd. rewrite !fmap_app. apply NoDup_app in Hnd as (H1 & H12 & [H2 H3]%NoDup_cons). cbn. split.
  - rewrite list_to_map_app, list_to_map_cons, <- insert_union_r, <- list_to_map_app; [done|].
    apply not_elem_of_list_to_map. rewrite <- list_fmap_compose. intros H. apply (H12 (names p)); [exact H|set_solver].
  - apply not_elem_of_list_to_map. rewrite fmap_app, <- !list_fmap_compose. intros [H|H]%elem_of_app; [|by apply H2].
    apply (H12 (names p)); [exact H|set_solver].
Qed.

Lemma call_refines c s :
  registry_ok s →
  let '(a, s') := call c s in let '(b, m') := spec_call c (registry_map s) in
  registry_ok s' ∧ answer_ok (registry_map s) a b ∧ registry_map s' = m'.
Proof.
  intros [Hl Hnd]. destruct c as [p|p|n|]; cbn.
  - pose proof (RegisterProvider_cases p s (conj Hl Hnd)) as H. rewrite <- FindProvider_map, registry_map_size by done.
    destruct (FindProvider (names p) s) as [q|] eqn:Hf; [rewrite H; by split_and!|].
    destruct (decide _) as [Hlt|Hge]; [destruct H as (s1 & s2 & -> & ->)|rewrite H; by split_and!].
    assert (NoDup (names <$> live (s1 ++ Some p :: s2))) as Hnd'.
    { rewrite slots_live_insert. apply NoDup_cons. split; [by apply registry_map_fresh|done]. }
    destruct (registry_map_app _ _ _ Hnd') as [E _]. split; [split; [by rewrite length_app in *|done]|]. by rewrite E.
  - destruct (Deregister_split p s) as [[-> Hn]|(s1 & s2 & -> & -> & Hn)].
    + rewrite bool_decide_eq_false_2; [by split; [split|]|]. intros [H _]%registry_map_lookup; [|done]. done.
    + destruct (registry_map_app _ _ _ Hnd) as [E Hnone]. rewrite E, lookup_insert_eq, bool_decide_eq_true_2 by done.
      rewrite length_app in Hl. split; [split; [by rewrite length_app|]|split; [done|by rewrite delete_insert_id]].
      rewrite slots_live_insert in Hnd. by apply NoDup_cons in Hnd as [_ ?].
  - split; [by split|]. split; [|done]. cbn. by rewrite FindProvider_map.
  - split; [split|split; [split|]].
    + by rewrite length_fmap.
    + clear. unfold live. induction s; cbn; [constructor|done].
    + by eapply NoDup_fmap_1.
    + intros p. change (omap id s) with (live s). rewrite registry_map_lookup by done. naive_solver.
    + clear. unfold registry_map, live. induction s; cbn; done.
Qed.
(** Run one after the other, the calls of the registry behave as a map from profile
    names to providers with room for kMaxProfiles entries: a name is registered
    only when free, refused with CapacityExhausted exactly when eight are live, found
    until its provider is deregistered, and the fork sweep marks each live provider
    once and empties the map. *)
Theorem registry_refines_map cs :
  let '(answers, s) := calls cs g_slots_init in
  answers_ok cs answers ∅ ∧ registry_ok s ∧ ∀ name p, FindProvider name s = Some p ↔ (Some p ∈ s ∧ names p = name).
Proof.
  assert (registry_ok g_slots_init) as Hok by (split; [done|constructor]).
  assert (registry_map g_slots_init = ∅) as <- by done. revert Hok. generalize g_slots_init.
  induction cs as [|c cs IH]; intros s Hok; cbn [calls answers_ok].
  - split_and!; [done|done|]. intros name p. destruct Hok as [_ Hnd]. by rewrite FindProvider_map, registry_map_lookup, live_elem.
  - pose proof (call_refines c s Hok) as H. destruct (call c s) as [a s'], (spec_call c (registry_map s)) as [b m'].
    destruct H as (Hok' & Ha & <-). specialize (IH s' Hok'). destruct (calls cs s') as [l s'']. by destruct IH as (H1 & H2 & H3).
Qed.

(** ** The same code, one access per step *)

(** Program counters of a thread inside [RegisterProvider] (the first scan, the
    claim, the second scan, the release) and of one destroying a provider
    ([DeregisterProvider] at the top of [~SdkProvider], then the rest of it). *)
Inductive Pc :=
| Scan (i : nat) | ScanName (i other : nat)
| Claim (i : nat)
| Rescan (i claimed : nat) | RescanName (i other claimed : nat)
| Release (claimed : nat)
| Finished (r : RegistrationResult)
| Dereg (i : nat) | Destroying | Destroyed.
Record World := mkWorld { w_slots : Slots; w_dead : list nat; w_threads : list (nat * Pc) }.
Inductive Outcome := Next (w : World) | Idle | UseAfterFree.

(** [g_slots.at(i).load()]: an index past the end would throw, no thread has one. *)
Definition load (i : nat) (w : World) : option nat := w_slots w !! i ≫= id.
Definition set_pc (t : nat) (p : nat) (pc : Pc) (w : World) : World :=
  mkWorld (w_slots w) (w_dead w) (<[t := (p, pc)]> (w_threads w)).
Definition store (i : nat) (v : option nat) (w : World) : World :=
  mkWorld (<[i := v]> (w_slots w)) (w_dead w) (w_threads w).
(** [other->ProfileName() == name]. *)
Definition read_name (other : nat) (name : str) (w : World) (yes no : World) : Outcome :=
  if bool_decide (other ∈ w_dead w) then UseAfterFree else Next (if names other =s name then yes else no).

Definition thread_step (t : nat) (w : World) : Outcome :=
  match w_threads w !! t with
  | None => Idle
  | Some (p, pc) =>
      let go pc := set_pc t p pc w in
      match pc with
      | Scan i => Next (go (if i <? kMaxProfiles then match load i w with Some other => ScanName i other | None => Scan (S i) end else Claim 0))
      | ScanName i other => read_name other (names p) w (go (Finished DuplicateName)) (go (Scan (S i)))
      | Claim i =>
          Next (if i <? kMaxProfiles
                then match load i w with Some _ => go (Claim (S i)) | None => store i (Some p) (go (Rescan 0 i)) end
                else go (Finished CapacityExhausted))
      | Rescan i claimed => Next (go (if i <? claimed then match load i w with Some other => RescanName i other claimed | None => Rescan (S i) claimed end else Finished Registered))
      | RescanName i other claimed => read_name other (names p) w (go (Release claimed)) (go (Rescan (S i) claimed))
      | Release claimed => Next (store claimed None (go (Finished DuplicateName)))
      | Dereg i => Next (if i <? kMaxProfiles
                         then if bool_decide (load i w = Some p) then store i None (go Destroying) else go (Dereg (S i))
                         else go Destroying)
      | Destroying => Next (mkWorld (w_slots w) (p :: w_dead w) (<[t := (p, Destroyed)]> (w_threads w)))
      | Finished _ | Destroyed => Idle
      end
  end.
(** A schedule: the thread that runs next; a thread that has returned does nothing. *)
Fixpoint run (schedule : list nat) (w : World) : option World :=
  match schedule with
  | [] => Some w
  | t :: schedule => match thread_step t w with Next w' => run schedule w' | Idle => run schedule w | UseAfterFree => None end
  end.
Definition start (s : Slots) (ps : list nat) : World := mkWorld s [] ((λ p, (p, Scan 0)) <$> ps).

(** How many own steps a thread can still make. *)
Definition budget (pc : Pc) : nat :=
  match pc with
  | Scan i => 2 * (kMaxProfiles - i) + 30
  | ScanName i _ => 2 * (kMaxProfiles - S i) + 31
  | Claim i => (kMaxProfiles - i) + 20
  | Rescan i claimed => 2 * (claimed - i) + 3
  | RescanName i _ claimed => 2 * (claimed - S i) + 4
  | Release _ => 1
  | Finished _ => 0
  | Dereg i => (kMaxProfiles - i) + 2
  | Destroying => 1
  | Destroyed => 0
  end.
Definition thread_budget (t : nat) (w : World) : nat := match w_threads w !! t with Some (_, pc) => budget pc | None => 0 end.
Definition has_returned (pc : Pc) : Prop := match pc with Finished _ | Destroyed => True | _ => False end.
Definition all_returned (w : World) : Prop := ∀ t p pc, w_threads w !! t = Some (p, pc) → has_returned pc.

Lemma set_pc_lookup t p pc w t' q pc' :
  w_threads (set_pc t p pc w) !! t' = Some (q, pc') →
  (t' = t ∧ q = p ∧ pc' = pc ∧ is_Some (w_threads w !! t)) ∨ (t' ≠ t ∧ w_threads w !! t' = Some (q, pc')).
Proof.
  cbn. intros H. destruct (decide (t' = t)) as [->|Hne]; [left|right; by rewrite list_lookup_insert_ne in H].
  pose proof (lookup_lt_Some _ _ _ H) as Hl. rewrite length_insert in Hl. rewrite list_lookup_insert_eq in H by done.
  split_and!; [done|congruence|congruence|by apply lookup_lt_is_Some].
Qed.

(** One step: the thread's own counter moves on, its budget falls. *)
Lemma thread_step_budget t w w' :
  thread_step t w = Next w' → ∃ p pc pc', w_threads w !! t = Some (p, pc) ∧ w_threads w' = <[t := (p, pc')]> (w_threads w) ∧ budget pc' < budget pc.
Proof.
  unfold thread_step, read_name, set_pc, store. destruct (w_threads w !! t) as [[p pc]|]; [|done].
  intros H. exists p, pc. destruct pc; repeat (split_if || split_match); simplify_eq; cbn [w_threads];
    repeat match goal with H : (_ <? _) = true |- _ => apply Nat.ltb_lt in H | H : (_ <? _) = false |- _ => apply Nat.ltb_ge in H end;
    (eexists; split; [done|]; split; [reflexivity|]); unfold budget, kMaxProfiles in *; lia.
Qed.
Lemma thread_step_idle t w : thread_step t w = Idle → thread_budget t w = 0.
Proof.
  unfold thread_step, thread_budget, read_name. destruct (w_threads w !! t) as [[p pc]|]; [|done].
  destruct pc; repeat (split_if || split_match); done.
Qed.
Lemma run_budget t schedule w w' : run schedule w = Some w' → thread_budget t w' <= thread_budget t w - count_occ Nat.eq_dec schedule t.
Proof.
  revert w. induction schedule as [|u l IH]; intros w; cbn [run]; [intros [= ->]; cbn; lia|].
  destruct (thread_step u w) as [w1| |] eqn:E; [| |done]; intros H; apply IH in H; cbn [count_occ].
  - apply thread_step_budget in E as (p & pc & pc' & Hu & Hw1 & Hb). destruct (Nat.eq_dec u t) as [->|Hne].
    + unfold thread_budget in H at 2. unfold thread_budget at 2. rewrite Hw1, list_lookup_insert_eq in H by (by eapply lookup_lt_Some).
      rewrite Hu. lia.
    + unfold thread_budget in *. rewrite Hw1, list_lookup_insert_ne in H by done. lia.
  - destruct (Nat.eq_dec u t) as [->|Hne]; [apply thread_step_idle in E|]; lia.
Qed.
Lemma budget_returned t w : thread_budget t w = 0 → ∀ p pc, w_threads w !! t = Some (p, pc) → has_returned pc.
Proof. unfold thread_budget. intros H p pc E. rewrite E in H. destruct pc; cbn in *; lia || done. Qed.

(** ** Registrations of one name race *)

Fixpoint first_free (s : Slots) : nat :=
  match s with [] => 0 | None :: _ => 0 | Some _ :: s => S (first_free s) end.
Lemma first_free_below s j : j < first_free s → ∃ q, s !! j = Some (Some q).
Proof. revert j. induction s as [|[q|] s IH]; cbn; intros j H; [lia| |lia]. destruct j; [by eexists|]. cbn. apply IH. lia. Qed.
Lemma first_free_slot s : first_free s = length s ∨ s !! first_free s = Some None.
Proof. induction s as [|[q|] s IH]; cbn; [by left| |by right]. destruct IH as [->|H]; [by left|by right]. Qed.

Section race.
Context (n : str) (s0 : Slots).
Let f1 : nat := first_free s0.
(** The slot a thread has claimed and not given back. *)
Definition holds (pc : Pc) : option nat :=
  match pc with
  | Rescan _ c | RescanName _ _ c | Release c => Some c
  | Finished Registered => Some (first_free s0)
  | _ => None
  end.
Definition taken (w : World) : Prop := ∃ q, w_slots w !! first_free s0 = Some (Some q).
Definition pc_ok (w : World) (pc : Pc) : Prop :=
  match pc with
  | Scan _ => True
  | ScanName _ other => taken w ∨ names other ≠ n
  | Claim i => taken w ∨ i <= first_free s0
  | Rescan i c => c = first_free s0 ∨ (first_free s0 < c ∧ i <= first_free s0 ∧ taken w)
  | RescanName i other c => (c = first_free s0 ∧ names other ≠ n) ∨ (first_free s0 < c ∧ i <= first_free s0 ∧ taken w ∧ (i = first_free s0 → names other = n))
  | Release c => first_free s0 < c ∧ taken w
  | Finished CapacityExhausted => taken w ∨ first_free s0 = kMaxProfiles
  | Finished _ => taken w
  | _ => False
  end.
Record race (w : World) : Prop := {
  rc_length : length (w_slots w) = kMaxProfiles;
  rc_alive : w_dead w = [];
  rc_static : ∀ j q, s0 !! j = Some (Some q) → w_slots w !! j = Some (Some q);
  rc_owner : ∀ j q, s0 !! j = Some None → w_slots w !! j = Some (Some q) → ∃ t pc, w_threads w !! t = Some (q, pc) ∧ holds pc = Some j;
  rc_thread : ∀ t p pc, w_threads w !! t = Some (p, pc) →
    names p = n ∧ pc_ok w pc ∧ ∀ c, holds pc = Some c → w_slots w !! c = Some (Some p) ∧ s0 !! c = Some None;
  rc_distinct : ∀ t t' p pc pc', w_threads w !! t = Some (p, pc) → w_threads w !! t' = Some (p, pc') → t = t'
}.
Hypothesis (Hlen : length s0 = kMaxProfiles) (Habsent : ∀ q, Some q ∈ s0 → names q ≠ n).

Lemma pc_ok_taken w w' pc : (taken w → taken w') → pc_ok w pc → pc_ok w' pc.
Proof. intros H. destruct pc as [| | | | | |[]| | |]; cbn; tauto. Qed.
(** What a loaded slot can hold. *)
Lemma race_load w i q : race w → load i w = Some q → (names q ≠ n ∧ s0 !! i = Some (Some q)) ∨ (names q = n ∧ s0 !! i = Some None).
Proof.
  intros R H. unfold load in H. apply bind_Some in H as (x & Hx & H). cbn in H. subst x.
  destruct (s0 !! i) as [[q'|]|] eqn:E.
  - pose proof (rc_static _ R _ _ E) as E'. left. assert (q' = q) as -> by congruence. split; [|done]. apply Habsent. by eapply list_elem_of_lookup_2.
  - right. split; [|done]. destruct (rc_owner _ R _ _ E Hx) as (t & pc & Ht & _). by apply (rc_thread _ R _ _ _ Ht).
  - apply lookup_ge_None in E. apply lookup_lt_Some in Hx. rewrite (rc_length _ R) in Hx. lia.
Qed.
Lemma race_load_None w i : race w → load i w = None → i < kMaxProfiles → s0 !! i = Some None ∧ w_slots w !! i = Some None.
Proof.
  intros R H Hi. unfold load in H. destruct (lookup_lt_is_Some_2 (w_slots w) i) as [x Hx]; [rewrite (rc_length _ R); done|].
  rewrite Hx in H. cbn in H. subst x. split; [|done]. destruct (lookup_lt_is_Some_2 s0 i) as [[q|] Hq]; [lia| |done].
  pose proof (rc_static _ R _ _ Hq). congruence.
Qed.
Lemma race_free i : s0 !! i = Some None → f1 <= i.
Proof. intros H. destruct (decide (i < f1)) as [Hlt|]; [|lia]. apply first_free_below in Hlt as [q Hq]. congruence. Qed.
Lemma race_same_thread w t p pc t' pc' : race w → w_threads w !! t = Some (p, pc) → w_threads w !! t' = Some (p, pc') → t = t' ∧ pc = pc'.
Proof. intros R H1 H2. pose proof (rc_distinct _ R _ _ _ _ _ H1 H2) as ->. by simplify_eq. Qed.
Lemma distinct_set w t p pc pc' s d :
  race w → w_threads w !! t = Some (p, pc) → ∀ u u' q pu pu', w_threads (set_pc t p pc' (mkWorld s d (w_threads w))) !! u = Some (q, pu) →
  w_threads (set_pc t p pc' (mkWorld s d (w_threads w))) !! u' = Some (q, pu') → u = u'.
Proof.
  intros R Ht u u' q pu pu' H1 H2. apply set_pc_lookup in H1 as [(-> & -> & -> & _)|[Hu H1]], H2 as [(-> & Hq & -> & _)|[Hu' H2]]; subst; try done.
  - by eapply (rc_distinct _ R).
  - by eapply (rc_distinct _ R).
  - by eapply (rc_distinct _ R).
Qed.

(** A step that leaves the slots alone. *)
Lemma race_move w t p pc pc' : race w → w_threads w !! t = Some (p, pc) → pc_ok w pc' → holds pc' = holds pc → race (set_pc t p pc' w).
Proof.
  intros R Ht Hok Hh. pose proof R as [Hl Ha Hs Ho Hth Hd]. split; cbn [set_pc w_slots w_dead w_threads]; [done|done|done| | |].
  - intros j q Hj Hq. destruct (Ho j q Hj Hq) as (u & pu & Hu & Hhu). destruct (decide (u = t)) as [->|Hne].
    + exists t, pc'. rewrite list_lookup_insert_eq by (by eapply lookup_lt_Some). simplify_eq. split; [done|congruence].
    + exists u, pu. by rewrite list_lookup_insert_ne.
  - intros u q pu Hu. apply (set_pc_lookup t p pc' w) in Hu as [(-> & -> & -> & _)|[Hne Hu]].
    + destruct (Hth _ _ _ Ht) as (Hn & _ & Hc). split_and!; [done|done|]. rewrite Hh. exact Hc.
    + apply (Hth _ _ _ Hu).
  - destruct w as [s d th]. by eapply (distinct_set (mkWorld s d th)).
Qed.
(** The claim of a free slot. *)
Lemma race_claim w t p i : race w → w_threads w !! t = Some (p, Claim i) → i < kMaxProfiles → load i w = None → race (store i (Some p) (set_pc t p (Rescan 0 i) w)).
Proof.
  intros R Ht Hi Hload. destruct (race_load_None _ _ R Hload Hi) as [H0 Hw]. pose proof R as [Hl Ha Hs Ho Hth Hd].
  assert (f1 <= i) as Hf by (by apply race_free). assert (i < length (w_slots w)) as Hil by (by rewrite Hl).
  destruct (Hth _ _ _ Ht) as (Hn & Hok & _). cbn in Hok. unfold f1 in Hf.
  assert (taken w → i ≠ first_free s0) as Hti by (intros [q Hq] ->; congruence).
  assert (∀ j, j ≠ i → <[i := Some p]> (w_slots w) !! j = w_slots w !! j) as Hne by (intros; by apply list_lookup_insert_ne).
  set (w' := store i (Some p) (set_pc t p (Rescan 0 i) w)).
  assert (taken w → taken w') as Hmono.
  { intros [q Hq]. exists q. cbn. rewrite Hne; [done|]. intros <-. congruence. }
  split; cbn [w' store set_pc w_slots w_dead w_threads].
  - by rewrite length_insert.
  - done.
  - intros j q Hj. rewrite Hne by congruence. by apply Hs.
  - intros j q Hj Hq. destruct (decide (j = i)) as [->|Hji].
    + rewrite list_lookup_insert_eq in Hq by done. simplify_eq. exists t, (Rescan 0 i). by rewrite list_lookup_insert_eq by (by eapply lookup_lt_Some).
    + rewrite Hne in Hq by done. destruct (Ho j q Hj Hq) as (u & pu & Hu & Hhu). exists u, pu. rewrite list_lookup_insert_ne; [done|].
      intros ->. rewrite Ht in Hu. by simplify_eq.
  - intros u q pu Hu. apply (set_pc_lookup t p (Rescan 0 i) w) in Hu as [(-> & -> & -> & _)|[Hne' Hu]].
    + split_and!; [done| |intros c [= <-]; by rewrite list_lookup_insert_eq]. cbn. destruct Hok as [Htk|Hle]; [|left; lia].
      right. specialize (Hti Htk). split_and!; [lia|lia|by apply Hmono].
    + destruct (Hth _ _ _ Hu) as (Hnu & Hpu & Hcu). split_and!; [done|by eapply pc_ok_taken|]. intros c Hc.
      destruct (Hcu c Hc) as [H1 H2]. rewrite Hne; [done|]. intros ->. congruence.
  - destruct w as [s d th]. by eapply (distinct_set (mkWorld s d th)).
Qed.
(** The release of a slot above the winner's. *)
Lemma race_release w t p c : race w → w_threads w !! t = Some (p, Release c) → race (store c None (set_pc t p (Finished DuplicateName) w)).
Proof.
  intros R Ht. pose proof R as [Hl Ha Hs Ho Hth Hd]. destruct (Hth _ _ _ Ht) as (Hn & [Hc Htk] & Hhold). destruct (Hhold c eq_refl) as [Hcp Hc0].
  assert (∀ j, j ≠ c → <[c := None]> (w_slots w) !! j = w_slots w !! j) as Hne by (intros; by apply list_lookup_insert_ne).
  assert (taken (store c None (set_pc t p (Finished DuplicateName) w))) as Htk'.
  { destruct Htk as [q Hq]. exists q. cbn. rewrite Hne; [done|lia]. }
  split; cbn [store set_pc w_slots w_dead w_threads].
  - by rewrite length_insert.
  - done.
  - intros j q Hj. rewrite Hne by congruence. by apply Hs.
  - intros j q Hj Hq. assert (j ≠ c) as Hjc.
    { intros ->. rewrite list_lookup_insert_eq in Hq by (by eapply lookup_lt_Some). done. }
    rewrite Hne in Hq by done. destruct (Ho j q Hj Hq) as (u & pu & Hu & Hhu). exists u, pu. rewrite list_lookup_insert_ne; [done|].
    intros ->. rewrite Ht in Hu. simplify_eq. cbn in Hhu. congruence.
  - intros u q pu Hu. apply (set_pc_lookup t p (Finished DuplicateName) w) in Hu as [(-> & -> & -> & _)|[Hne' Hu]]; [done|].
    destruct (Hth _ _ _ Hu) as (Hnu & Hpu & Hcu). split_and!; [done|by eapply pc_ok_taken|]. intros j Hj.
    destruct (Hcu j Hj) as [H1 H2]. rewrite Hne; [done|]. intros ->. rewrite Hcp in H1. simplify_eq.
    apply Hne'. by eapply (rc_distinct _ R).
  - destruct w as [s d th]. by eapply (distinct_set (mkWorld s d th)).
Qed.

Lemma taken_at_first w q : load (first_free s0) w = Some q → taken w.
Proof. intros Hl. unfold load in Hl. apply bind_Some in Hl as (x & Hx & Hq). cbn in Hq. subst x. by exists q. Qed.
(** A slot that was free at the start is only filled once the first one is. *)
Lemma taken_of_load w i q : race w → s0 !! i = Some None → load i w = Some q → taken w.
Proof.
  intros R H0 Hl. unfold load in Hl. apply bind_Some in Hl as (x & Hx & Hq). cbn in Hq. subst x.
  destruct (rc_owner _ R _ _ H0 Hx) as (t & pc & Ht & Hh). destruct (rc_thread _ R _ _ _ Ht) as (_ & Hok & Hc).
  destruct (Hc _ Hh) as [Hi _]. destruct pc as [| | | | | |[]| | |]; cbn in Hh, Hok; simplify_eq; try done.
  - destruct Hok as [->|(_ & _ & ?)]; [by exists q|done].
  - destruct Hok as [[-> _]|(_ & _ & ? & _)]; [by exists q|done].
  - apply Hok.
Qed.
Lemma race_scan_name w t p pc other yes no :
  race w → w_threads w !! t = Some (p, pc) → holds yes = holds pc → holds no = holds pc →
  (names other = n → pc_ok w yes) → (names other ≠ n → pc_ok w no) →
  ∃ w', read_name other (names p) w (set_pc t p yes w) (set_pc t p no w) = Next w' ∧ race w'.
Proof.
  intros R Ht Hy Hn Oy On. unfold read_name. rewrite (rc_alive _ R). cbn. destruct (rc_thread _ R _ _ _ Ht) as (-> & _ & _).
  destruct (names other =s n) eqn:E; [apply seqb_true in E|apply seqb_false in E]; eexists; (split; [reflexivity|]); eapply race_move; eauto.
Qed.
(** Reaching the winner's slot in the second scan. *)
Lemma race_taken_name w q : race w → taken w → load (first_free s0) w = Some q → names q = n.
Proof.
  intros R [q' Hq] Hl. destruct (race_load _ _ _ R Hl) as [[_ H]|[H _]]; [|done].
  destruct (first_free_slot s0) as [E|E]; [|congruence]. apply lookup_lt_Some in H. lia.
Qed.
Lemma race_step w t : race w → thread_step t w = Idle ∨ ∃ w', thread_step t w = Next w' ∧ race w'.
Proof.
  intros R. unfold thread_step. destruct (w_threads w !! t) as [[p pc]|] eqn:Ht; [|by left].
  destruct (rc_thread _ R _ _ _ Ht) as (Hn & Hok & Hc).
  destruct pc as [i|i other|i|i c|i other c|c|r|i| |]; cbn [pc_ok] in Hok; try done; try (by left); right.
  - eexists; split; [reflexivity|]. destruct (i <? kMaxProfiles) eqn:Hi; [|eapply race_move; [done..|right; lia|done]].
    destruct (load i w) as [q|] eqn:Hl; eapply race_move; try done. cbn.
    destruct (race_load _ _ _ R Hl) as [[? _]|[_ H0]]; [by right|left]. eapply taken_of_load; eauto.
  - eapply race_scan_name; eauto; cbn; [tauto|done].
  - eexists; split; [reflexivity|]. destruct (i <? kMaxProfiles) eqn:Hi; [apply Nat.ltb_lt in Hi|apply Nat.ltb_ge in Hi].
    + destruct (load i w) as [q|] eqn:Hl; [|by apply race_claim]. eapply race_move; try done. cbn.
      destruct Hok as [?|Hle]; [by left|]. destruct (decide (i = first_free s0)) as [->|]; [left|right; lia].
      eapply taken_at_first; eauto.
    + eapply race_move; try done. cbn. destruct Hok as [?|Hle]; [by left|right]. destruct (first_free_slot s0) as [E|E%lookup_lt_Some]; lia.
  - eexists; split; [reflexivity|]. destruct (Hc c eq_refl) as [Hcp Hc0]. destruct (i <? c) eqn:Hi; [apply Nat.ltb_lt in Hi|apply Nat.ltb_ge in Hi].
    + assert (i < kMaxProfiles) as Hi8 by (apply lookup_lt_Some in Hc0; lia).
      destruct (load i w) as [q|] eqn:Hl; eapply race_move; try done; cbn.
      * destruct Hok as [->|(H1 & H2 & H3)].
        -- left. split; [done|]. destruct (race_load _ _ _ R Hl) as [[? _]|[_ H0]]; [done|]. apply race_free in H0. lia.
        -- right. split_and!; [done..|]. intros ->. by eapply race_taken_name.
      * destruct Hok as [->|(H1 & H2 & H3)]; [by left|right]. split_and!; [done| |done].
        destruct (decide (i = first_free s0)) as [->|]; [|lia]. destruct H3 as [q Hq]. unfold load in Hl. by rewrite Hq in Hl.
    + assert (c = first_free s0) as -> by lia. eapply race_move; try done. by exists p.
  - destruct (Hc c eq_refl) as [Hcp Hc0]. eapply race_scan_name; eauto; cbn.
    + intros Hname. destruct Hok as [[-> H]|(H1 & H2 & H3 & H4)]; [done|by split].
    + intros Hname. destruct Hok as [[-> H]|(H1 & H2 & H3 & H4)]; [by left|right]. split_and!; [done| |done].
      destruct (decide (i = first_free s0)); [tauto|lia].
  - eexists; split; [reflexivity|]. by apply race_release.
Qed.

Lemma race_run schedule w : race w → ∃ w', run schedule w = Some w' ∧ race w' ∧ (w_threads w').*1 = (w_threads w).*1.
Proof.
  revert w. induction schedule as [|t l IH]; intros w R; cbn [run]; [by exists w|].
  destruct (race_step w t R) as [->|(w1 & Hs & R1)]; [by apply IH|]. rewrite Hs.
  destruct (IH w1 R1) as (w' & Hr & R' & Hf). exists w'. split_and!; [done|done|]. rewrite Hf.
  apply thread_step_budget in Hs as (p & pc & pc' & Ht & -> & _). rewrite list_fmap_insert. apply list_insert_id. by rewrite list_lookup_fmap, Ht.
Qed.
Lemma race_start ps : NoDup ps → (∀ p, p ∈ ps → names p = n) → race (start s0 ps).
Proof.
  intros Hnd Hps. assert (∀ t p pc, w_threads (start s0 ps) !! t = Some (p, pc) → ps !! t = Some p ∧ pc = Scan 0) as Ht.
  { intros t p pc H. cbn in H. rewrite list_lookup_fmap in H. destruct (ps !! t); [|done]. by simplify_eq/=. }
  split; cbn [start w_slots w_dead]; [done|done|done|congruence| |].
  - intros t p pc [H ->]%Ht. split_and!; [|done|done]. apply Hps. by eapply list_elem_of_lookup_2.
  - intros t t' p pc pc' [H _]%Ht [H' _]%Ht. by eapply NoDup_lookup.
Qed.

Definition result_of (w : World) (t : nat) : option RegistrationResult :=
  match w_threads w !! t with Some (_, Finished r) => Some r | _ => None end.
Lemma result_of_Some w t r : result_of w t = Some r ↔ ∃ p, w_threads w !! t = Some (p, Finished r).
Proof.
  unfold result_of. split; [|by intros [p ->]]. destruct (w_threads w !! t) as [[p pc]|]; [|done].
  destruct pc; try done. intros [= ->]. by exists p.
Qed.
Lemma race_winner w t p : race w → w_threads w !! t = Some (p, Finished Registered) → w_slots w !! first_free s0 = Some (Some p) ∧ s0 !! first_free s0 = Some None.
Proof. intros R H. destruct (rc_thread _ R _ _ _ H) as (_ & _ & Hc). by apply Hc. Qed.
Lemma race_one_winner w t t' : race w → result_of w t = Some Registered → result_of w t' = Some Registered → t = t'.
Proof.
  intros R [p H]%result_of_Some [p' H']%result_of_Some. destruct (race_winner _ _ _ R H) as [E _], (race_winner _ _ _ R H') as [E' _].
  assert (p' = p) as -> by congruence. by eapply (rc_distinct _ R).
Qed.
(** Everybody has returned: a filled slot belongs to its winner. *)
Lemma race_settled w : race w → (∀ t, t < length (w_threads w) → is_Some (result_of w t)) →
  (∀ j q, s0 !! j = Some None → w_slots w !! j = Some (Some q) → j = first_free s0 ∧ ∃ t, w_threads w !! t = Some (q, Finished Registered)).
Proof.
  intros R Hall j q H0 Hq. destruct (rc_owner _ R _ _ H0 Hq) as (t & pc & Ht & Hh).
  destruct (Hall t) as [r [p' Hr]%result_of_Some]; [by eapply lookup_lt_Some|]. rewrite Ht in Hr. simplify_eq.
  destruct r; cbn in Hh; simplify_eq. split; [done|by exists t].
Qed.
Lemma race_slots w s : race w → length s = kMaxProfiles → (∀ j, s0 !! j = Some None → w_slots w !! j = s !! j) → (∀ j q, s0 !! j = Some (Some q) → s !! j = Some (Some q)) → w_slots w = s.
Proof.
  intros R Hs Hf Hst. apply list_eq. intros j. destruct (s0 !! j) as [[q|]|] eqn:E; [|by apply Hf|].
  - rewrite (Hst _ _ E). by apply (rc_static _ R).
  - apply lookup_ge_None in E. rewrite !lookup_ge_None_2; [done|lia|rewrite (rc_length _ R); lia].
Qed.
Lemma race_final w : race w → w_threads w ≠ [] → (∀ t, t < length (w_threads w) → is_Some (result_of w t)) →
  if decide (first_free s0 < kMaxProfiles)
  then ∃ t p, w_threads w !! t = Some (p, Finished Registered) ∧ w_slots w = <[first_free s0 := Some p]> s0
  else (∀ t, t < length (w_threads w) → result_of w t = Some CapacityExhausted) ∧ w_slots w = s0.
Proof.
  intros R Hne Hall. pose proof (race_settled _ R Hall) as Hset.
  assert (∀ t p pc, w_threads w !! t = Some (p, pc) → taken w ∨ (first_free s0 = kMaxProfiles ∧ pc = Finished CapacityExhausted)) as Hcase.
  { intros t p pc Ht. destruct (Hall t) as [r [p' Hr]%result_of_Some]; [by eapply lookup_lt_Some|]. rewrite Ht in Hr. simplify_eq.
    destruct (rc_thread _ R _ _ _ Ht) as (_ & Hok & _). destruct r; cbn in Hok; tauto. }
  destruct (decide _) as [Hlt|Hge].
  - destruct (first_free_slot s0) as [?|H0]; [lia|]. destruct (w_threads w) as [|[p pc] l] eqn:El; [done|].
    destruct (Hcase 0 p pc) as [[q Hq]|[? _]]; [done| |lia]. destruct (Hset _ _ H0 Hq) as [_ [t Ht]]. exists t, q. split; [done|].
    apply race_slots; [done|by rewrite length_insert| |].
    + intros j Hj. destruct (decide (j = first_free s0)) as [->|Hjf].
      * rewrite Hq, list_lookup_insert_eq; [done|lia].
      * rewrite list_lookup_insert_ne, Hj by done. destruct (w_slots w !! j) as [[q'|]|] eqn:Ej; [|done|].
        -- by destruct (Hset _ _ Hj Ej) as [-> _].
        -- apply lookup_ge_None in Ej. rewrite (rc_length _ R) in Ej. apply lookup_lt_Some in Hj. lia.
    + intros j q' Hj. rewrite list_lookup_insert_ne; [done|congruence].
  - assert (first_free s0 = kMaxProfiles) as Hf by (destruct (first_free_slot s0) as [?|?%lookup_lt_Some]; lia).
    assert (¬ taken w) as Hnt. { intros [q Hq]. apply lookup_lt_Some in Hq. rewrite (rc_length _ R) in Hq. lia. }
    split.
    + intros t Ht. destruct (lookup_lt_is_Some_2 _ _ Ht) as [[p pc] Hp]. destruct (Hcase _ _ _ Hp) as [?|[_ ->]]; [done|].
      apply result_of_Some. by exists p.
    + apply race_slots; [done|done| |done]. intros j Hj. apply race_free in Hj as Hfj. apply lookup_lt_Some in Hj. unfold f1 in Hfj. lia.
Qed.
End race.

Lemma FindProvider_insert n s i p : (∀ q, Some q ∈ s → names q ≠ n) → names p = n → i < length s → FindProvider n (<[i := Some p]> s) = Some p.
Proof.
  intros H Hp. revert i. induction s as [|x s IH]; cbn; intros i Hi; [lia|]. destruct i as [|i]; cbn.
  - by rewrite Hp, seqb_refl.
  - assert (carries n x = false) as -> by (destruct x as [q|]; [|done]; apply seqb_false, H; left).
    apply IH; [|lia]. intros q Hq. apply H. by right.
Qed.

(** C35: threads that register providers under one name, absent so far, while no other
    provider comes or goes, never read a destroyed provider, never both get the
    name, and each return within 46 of their own steps whatever the others do.
    When all have returned and a slot was free, exactly one is Registered: it holds
    the lowest free slot, FindProvider finds it, and the others left nothing behind;
    with no free slot every one gets CapacityExhausted. *)
Theorem registration_race n s0 ps schedule
  (Hlen : length s0 = kMaxProfiles) (Habsent : ∀ q, Some q ∈ s0 → names q ≠ n)
  (Hne : ps ≠ []) (Hnd : NoDup ps) (Hps : ∀ p, p ∈ ps → names p = n) :
  ∃ w, run schedule (start s0 ps) = Some w
  ∧ (∀ t t', result_of w t = Some Registered → result_of w t' = Some Registered → t = t')
  ∧ (∀ t, t < length ps → 46 <= count_occ Nat.eq_dec schedule t → is_Some (result_of w t))
  ∧ ((∀ t, t < length ps → is_Some (result_of w t)) →
     if decide (first_free s0 < kMaxProfiles)
     then ∃ t p, ps !! t = Some p ∧ result_of w t = Some Registered ∧ w_slots w = <[first_free s0 := Some p]> s0 ∧ FindProvider n (w_slots w) = Some p
     else (∀ t, t < length ps → result_of w t = Some CapacityExhausted) ∧ w_slots w = s0).
Proof.
  destruct (race_run n s0 Hlen Habsent schedule _ (race_start n s0 Hlen ps Hnd Hps)) as (w & Hr & R & Hfst).
  assert ((w_threads w).*1 = ps) as Hw by (rewrite Hfst; cbn; rewrite <- list_fmap_compose; apply list_fmap_id).
  assert (length (w_threads w) = length ps) as Hl by (rewrite <- Hw; symmetry; apply length_fmap).
  exists w. split_and!; [done|by intros; eapply race_one_winner| |].
  - intros t Ht Hc. destruct (lookup_lt_is_Some_2 (w_threads w) t) as [[p pc] Hp]; [lia|].
    assert (thread_budget t w = 0) as Hb.
    { pose proof (run_budget t _ _ _ Hr) as H. unfold thread_budget in H at 2. cbn in H. rewrite list_lookup_fmap in H.
      destruct (lookup_lt_is_Some_2 _ _ Ht) as [p' Hp']. rewrite Hp' in H. cbn in H. unfold kMaxProfiles in H. lia. }
    pose proof (budget_returned _ _ Hb _ _ Hp) as Hret. destruct (rc_thread _ _ _ R _ _ _ Hp) as (_ & Hok & _).
    destruct pc; try done. exists r. apply result_of_Some. by exists p.
  - rewrite <- Hl. intros Hall. pose proof (race_final n s0 Hlen w R) as H. destruct (decide _) as [Hlt|Hge].
    + destruct H as (t & p & Ht & Hs); [by intros E; rewrite E in Hl; destruct ps|done|]. exists t, p. rewrite <- Hw, list_lookup_fmap, Ht.
      split_and!; [done|apply result_of_Some; by exists p|done|]. rewrite Hs. apply FindProvider_insert; [done| |lia].
      by apply (rc_thread _ _ _ R _ _ _ Ht).
    + apply H; [by intros E; rewrite E in Hl; destruct ps|done].
Qed.

(** ** A thread running alone computes the sequential function *)

Definition reaches (t : nat) (w w' : World) : Prop := ∃ k, run (replicate k t) w = Some w'.
Lemma reaches_refl t w : reaches t w w.
Proof. by exists 0. Qed.
Lemma reaches_step t w w1 w' : thread_step t w = Next w1 → reaches t w1 w' → reaches t w w'.
Proof. intros H [k Hk]. exists (S k). cbn. by rewrite H. Qed.
Lemma reaches_trans t w w1 w' : reaches t w w1 → reaches t w1 w' → reaches t w w'.
Proof.
  intros [k Hk] H. revert w Hk. induction k as [|k IH]; cbn; intros w Hk; [by simplify_eq|].
  destruct (thread_step t w) eqn:E; [|by apply IH|done]. eapply reaches_step; [done|]. by apply IH.
Qed.
(** Only this thread, about to run [pc] for [p]. *)
Definition alone (s : Slots) (p : nat) (pc : Pc) : World := mkWorld s [] [(p, pc)].
Lemma existsb_drop i s name : i < length s → existsb (carries name) (drop i s) = match s !! i with Some x => carries name x | None => false end || existsb (carries name) (drop (S i) s).
Proof. intros Hi. destruct (lookup_lt_is_Some_2 _ _ Hi) as [x Hx]. by rewrite (drop_S _ _ _ Hx), Hx. Qed.
Lemma ltb_lt_true a b : a < b → (a <? b) = true.
Proof. apply Nat.ltb_lt. Qed.
Lemma ltb_ge_false a b : b <= a → (a <? b) = false.
Proof. apply Nat.ltb_ge. Qed.
Lemma alone_scan s p i : length s = kMaxProfiles → i <= kMaxProfiles →
  reaches 0 (alone s p (Scan i)) (alone s p (if existsb (carries (names p)) (drop i s) then Finished DuplicateName else Claim 0)).
Proof.
  intros Hs Hi. remember (kMaxProfiles - i) as d eqn:Hd. revert i Hi Hd. induction d as [|d IH]; intros i Hi Hd.
  - rewrite drop_ge by lia. eapply reaches_step; [|apply reaches_refl]. unfold thread_step. cbn [alone w_threads lookup list_lookup].
    by rewrite ltb_ge_false by lia.
  - rewrite existsb_drop by lia. destruct (lookup_lt_is_Some_2 s i) as [x Hx]; [lia|]. rewrite Hx.
    eapply reaches_step; [unfold thread_step, load; cbn [alone w_threads w_slots lookup list_lookup]; rewrite ltb_lt_true, Hx by lia; reflexivity|].
    destruct x as [q|]; cbn [mbind option_bind id carries]; [|apply IH; lia].
    eapply reaches_step; [reflexivity|]. cbn. destruct (names q =s names p); [apply reaches_refl|apply IH; lia].
Qed.
Lemma take_S_existsb i s name x : s !! i = Some x → existsb (carries name) (take (S i) s) = existsb (carries name) (take i s) || carries name x.
Proof. intros Hx. rewrite (take_S_r _ _ _ Hx), existsb_app. cbn. by rewrite orb_false_r. Qed.
Lemma alone_rescan s p c i : length s = kMaxProfiles → c < kMaxProfiles → i <= c → existsb (carries (names p)) (take i s) = false →
  reaches 0 (alone s p (Rescan i c)) (if NameIsTaken (names p) c s then alone (<[c := None]> s) p (Finished DuplicateName) else alone s p (Finished Registered)).
Proof.
  unfold NameIsTaken. intros Hs Hc Hi. remember (c - i) as d eqn:Hd. revert i Hi Hd. induction d as [|d IH]; intros i Hi Hd Hpre.
  - assert (i = c) as -> by lia. rewrite Hpre. eapply reaches_step; [|apply reaches_refl]. unfold thread_step. cbn [alone w_threads lookup list_lookup].
    by rewrite ltb_ge_false by lia.
  - destruct (lookup_lt_is_Some_2 s i) as [x Hx]; [lia|]. pose proof (take_S_existsb i s (names p) x Hx) as E. rewrite Hpre in E. cbn [orb] in E.
    eapply reaches_step; [unfold thread_step, load; cbn [alone w_threads w_slots lookup list_lookup]; rewrite ltb_lt_true, Hx by lia; reflexivity|].
    destruct x as [q|]; cbn [mbind option_bind id carries] in *; [|apply IH; done || lia].
    eapply reaches_step; [reflexivity|]. cbn [carries] in E. cbn. destruct (names q =s names p); [|apply IH; done || lia].
    replace (existsb (carries (names p)) (take c s)) with true; [eapply reaches_step; [reflexivity|apply reaches_refl]|].
    rewrite <- (take_drop (S i) (take c s)), existsb_app, take_take, Nat.min_l, E by lia. done.
Qed.
Lemma ClaimEmptySlot_drop p s i : i < length s →
  ClaimEmptySlot p (drop i s) = match s !! i with
                                | Some None => Some (0, Some p :: drop (S i) s)
                                | Some (Some q) => '(j, r) ← ClaimEmptySlot p (drop (S i) s); Some (S j, Some q :: r)
                                | None => None
                                end.
Proof. intros Hi. destruct (lookup_lt_is_Some_2 _ _ Hi) as [x Hx]. rewrite (drop_S _ _ _ Hx), Hx. by destruct x. Qed.
Lemma alone_claim s p i : length s = kMaxProfiles → i <= kMaxProfiles →
  reaches 0 (alone s p (Claim i)) (match ClaimEmptySlot p (drop i s) with
                                   | Some (j, r) => alone (take i s ++ r) p (Rescan 0 (i + j))
                                   | None => alone s p (Finished CapacityExhausted)
                                   end).
Proof.
  intros Hs Hi. remember (kMaxProfiles - i) as d eqn:Hd. revert i Hi Hd. induction d as [|d IH]; intros i Hi Hd.
  - rewrite drop_ge by lia. eapply reaches_step; [|apply reaches_refl]. unfold thread_step. cbn [alone w_threads lookup list_lookup].
    by rewrite ltb_ge_false by lia.
  - rewrite ClaimEmptySlot_drop by lia. destruct (lookup_lt_is_Some_2 s i) as [x Hx]; [lia|]. rewrite Hx.
    eapply reaches_step; [unfold thread_step, load; cbn [alone w_threads w_slots lookup list_lookup]; rewrite ltb_lt_true, Hx by lia; reflexivity|].
    destruct x as [q|]; cbn [mbind option_bind id].
    + assert (S i <= kMaxProfiles) as Hi' by lia. specialize (IH (S i) Hi' ltac:(lia)).
      destruct (ClaimEmptySlot p (drop (S i) s)) as [[j r]|]; cbn [mbind option_bind]; [|exact IH].
      rewrite (take_S_r _ _ _ Hx), <- app_assoc in IH. by rewrite <- plus_n_Sm.
    + rewrite Nat.add_0_r. rewrite <- insert_take_drop by lia. apply reaches_refl.
Qed.
Lemma returned_idle t w : thread_budget t w = 0 → thread_step t w = Idle.
Proof.
  unfold thread_budget, thread_step. destruct (w_threads w !! t) as [[p pc]|]; [|done]. destruct pc; cbn; lia || done.
Qed.
Lemma schedule_app l1 l2 w w1 : run l1 w = Some w1 → run (l1 ++ l2) w = run l2 w1.
Proof.
  revert w. induction l1 as [|t l1 IH]; cbn; intros w H; [by simplify_eq|]. destruct (thread_step t w); auto; done.
Qed.
Lemma run_idle t m w : thread_budget t w = 0 → run (replicate m t) w = Some w.
Proof. intros H. induction m; cbn; [done|]. by rewrite returned_idle. Qed.
Lemma reaches_returned t w w' : reaches t w w' → thread_budget t w' = 0 → run (replicate (thread_budget t w) t) w = Some w'.
Proof.
  intros [k Hk]. revert w Hk. induction k as [|k IH]; cbn; intros w Hk Hb.
  - simplify_eq. by rewrite Hb.
  - destruct (thread_step t w) as [w1| |] eqn:E; [| |done].
    + apply thread_step_budget in E as Hs. destruct Hs as (p & pc & pc' & Ht & Ht' & Hlt).
      assert (thread_budget t w1 < thread_budget t w) as Hlt'.
      { unfold thread_budget. rewrite Ht', Ht, list_lookup_insert_eq by (by eapply lookup_lt_Some). done. }
      specialize (IH _ Hk Hb). destruct (thread_budget t w) as [|b]; [lia|]. cbn. rewrite E.
      assert (replicate b t = replicate (thread_budget t w1) t ++ replicate (b - thread_budget t w1) t) as ->.
      { rewrite <- replicate_add. f_equal. lia. }
      rewrite (schedule_app _ _ _ _ IH). by apply run_idle.
    + rewrite (thread_step_idle _ _ E). cbn. specialize (IH _ Hk Hb). by rewrite (thread_step_idle _ _ E) in IH.
Qed.
Lemma ClaimEmptySlot_at p s j r : ClaimEmptySlot p s = Some (j, r) → r = <[j := Some p]> s ∧ j < length s.
Proof.
  intros (s1 & s2 & -> & -> & -> & _)%ClaimEmptySlot_Some. rewrite length_app. cbn. split; [|lia].
  by rewrite insert_app_r_alt, Nat.sub_diag by lia.
Qed.
Lemma alone_register s p : length s = kMaxProfiles →
  reaches 0 (alone s p (Scan 0)) (let '(r, s') := RegisterProvider p s in alone s' p (Finished r)).
Proof.
  intros Hs. eapply reaches_trans; [apply alone_scan; [done|lia]|]. unfold RegisterProvider, NameIsTaken at 1. rewrite drop_0, take_ge by lia.
  destruct (existsb _ s) eqn:E; [apply reaches_refl|]. eapply reaches_trans; [apply alone_claim; [done|lia]|]. rewrite drop_0.
  destruct (ClaimEmptySlot p s) as [[j r]|] eqn:Hc; [|apply reaches_refl]. apply ClaimEmptySlot_at in Hc as [-> Hj].
  cbn [take app]. change (0 + j) with j. eapply reaches_trans.
  - apply (alone_rescan (<[j := Some p]> s) p j 0); [by rewrite length_insert|lia|lia|done].
  - destruct (NameIsTaken (names p) j _); apply reaches_refl.
Qed.
Lemma DeregisterProvider_drop p s i : i < length s →
  DeregisterProvider p (drop i s) = match s !! i with Some x => if bool_decide (x = Some p) then None :: drop (S i) s else x :: DeregisterProvider p (drop (S i) s) | None => [] end.
Proof. intros Hi. destruct (lookup_lt_is_Some_2 _ _ Hi) as [x Hx]. by rewrite (drop_S _ _ _ Hx), Hx. Qed.
Lemma alone_dereg s p i : length s = kMaxProfiles → i <= kMaxProfiles →
  reaches 0 (alone s p (Dereg i)) (alone (take i s ++ DeregisterProvider p (drop i s)) p Destroying).
Proof.
  intros Hs Hi. remember (kMaxProfiles - i) as d eqn:Hd. revert i Hi Hd. induction d as [|d IH]; intros i Hi Hd.
  - rewrite drop_ge, take_ge by lia. cbn [DeregisterProvider]. rewrite app_nil_r. eapply reaches_step; [|apply reaches_refl].
    unfold thread_step. cbn [alone w_threads lookup list_lookup]. by rewrite ltb_ge_false by lia.
  - rewrite DeregisterProvider_drop by lia. destruct (lookup_lt_is_Some_2 s i) as [x Hx]; [lia|]. rewrite Hx.
    eapply reaches_step; [unfold thread_step, load; cbn [alone w_threads w_slots lookup list_lookup]; rewrite ltb_lt_true, Hx by lia; reflexivity|].
    cbn [mbind option_bind id]. case_bool_decide as E.
    + rewrite <- insert_take_drop by lia. apply reaches_refl.
    + specialize (IH (S i) ltac:(lia) ltac:(lia)). by rewrite (take_S_r _ _ _ Hx), <- app_assoc in IH.
Qed.
(** The stepwise model and the sequential functions are the same code: run to the end
    with no other thread, a registration and a destruction give their results. *)
Theorem alone_is_sequential s p : length s = kMaxProfiles →
  run (replicate 46 0) (alone s p (Scan 0)) = Some (let '(r, s') := RegisterProvider p s in alone s' p (Finished r))
  ∧ run (replicate 10 0) (alone s p (Dereg 0)) = Some (mkWorld (DeregisterProvider p s) [p] [(p, Destroyed)]).
Proof.
  intros Hs. split.
  - apply (reaches_returned 0 (alone s p (Scan 0))); [by apply alone_register|]. by destruct (RegisterProvider p s).
  - apply (reaches_returned 0 (alone s p (Dereg 0))); [|done]. eapply reaches_trans; [apply alone_dereg; [done|lia]|].
    rewrite drop_0. eapply reaches_step; [reflexivity|apply reaches_refl].
Qed.
End registry.

(** ** Witness and schedules *)

Definition demo_names (p : nat) : str := match p with 0 | 1 | 2 => $"default" | 3 | 4 => $"audit" | _ => $"ops" end.
Lemma registration_race_witness :
  ∃ w, run demo_names (concat (replicate 46 [0; 1; 2])) (start (Some 3 :: replicate 7 None) [0; 1; 2]) = Some w
  ∧ ∃ t p, [0; 1; 2] !! t = Some p ∧ result_of w t = Some Registered ∧ FindProvider demo_names $"default" (w_slots w) = Some p.
Proof.
  destruct (registration_race demo_names $"default" (Some 3 :: replicate 7 None) [0; 1; 2] (concat (replicate 46 [0; 1; 2]))) as (w & Hr & _ & Hret & Hall).
  - reflexivity.
  - intros q Hq. apply elem_of_cons in Hq as [[= ->]|Hq]; [vm_compute; discriminate|]. apply elem_of_replicate in Hq as [[=] _].
  - discriminate.
  - repeat constructor; set_solver.
  - intros p Hp. rewrite !elem_of_cons in Hp. destruct Hp as [->|[->|[->|Hp]]]; [reflexivity..|]. by apply not_elem_of_nil in Hp.
  - exists w. split; [exact Hr|]. destruct Hall as (t & p & H1 & H2 & _ & H4).
    + intros t Ht. apply Hret; [exact Ht|]. cbn in Ht. do 3 (destruct t as [|t]; [vm_compute; lia|]). lia.
    + exists t, p. exact (conj H1 (conj H2 H4)).
Defined.

(** A slot below is freed between one registrant's first scan and its claim: both
    racers of one name are [Registered], and [FindProvider] answers the second. *)
Example two_providers_one_name :
  ∃ w, run demo_names (replicate 10 0 ++ replicate 10 1 ++ replicate 46 0 ++ replicate 10 2 ++ replicate 46 1)
         (mkWorld (Some 3 :: replicate 7 None) [] [(0, Scan 0); (1, Scan 0); (3, Dereg 0)]) = Some w
  ∧ result_of w 0 = Some Registered ∧ result_of w 1 = Some Registered ∧ FindProvider demo_names $"default" (w_slots w) = Some 1.
Proof. eexists. split; [vm_compute; reflexivity|]. split_and!; vm_compute; reflexivity. Qed.
(** The same without any destruction: the slot is freed by a registrant of another
    name that backs out. *)
Example two_providers_back_out :
  ∃ w, run demo_names (replicate 9 0 ++ replicate 9 1 ++ replicate 9 2 ++ replicate 9 3 ++ replicate 1 2 ++ replicate 2 3 ++ replicate 46 0 ++ replicate 46 3 ++ replicate 46 1)
         (mkWorld (replicate 8 None) [] [(0, Scan 0); (1, Scan 0); (3, Scan 0); (4, Scan 0)]) = Some w
  ∧ result_of w 0 = Some Registered ∧ result_of w 1 = Some Registered ∧ result_of w 3 = Some DuplicateName.
Proof. eexists. split; [vm_compute; reflexivity|]. split_and!; vm_compute; reflexivity. Qed.
(** A registration whose scan has loaded the address of a provider that is destroyed
    before its name is read. *)
Example scan_reads_destroyed :
  run demo_names ([0] ++ replicate 10 1 ++ [0]) (mkWorld (Some 3 :: replicate 7 None) [] [(0, Scan 0); (3, Dereg 0)]) = None.
Proof. vm_compute. reflexivity. Qed.
