(* ===== verification/Config.v ===== *)
(** * Configuration: data, tables and text forms

    Model of [src/common/config/config.hpp], [table_merge.cpp] and
    [concentrator_config.cpp].  [Config] keeps the groups its declaration is
    commented with as sub-records.  Durations are milliseconds, those of the
    concentrator seconds; a path is its text.

    The theorems: the header table keeps one entry per case-insensitive name, the
    last value set winning in place; a byte size is accepted exactly when its value
    fits 32 bits, and what is accepted is that value. *)
From S2P Require Import Prelude Context Data AttributeSet SpanLimits LeafTime LeafResource RetryEngine ProtoReader Wire Http2Connect.
From S2P Require LeafOptions.

Abbreviation LeafReceiverOptions := LeafOptions.LeafReceiverOptions.
Abbreviation LeafConfig := LeafOptions.LeafConfig.

(** ** [ConfigError] and the result of a step that may refuse *)

Inductive ErrorKind :=
| Unspecified | InvalidValue | UnknownKey | EnvParseFailure | FileNotFound | FileParseFailure
| TlsMaterialUnreadable | EndpointMalformed | ProtocolMismatch | InsecureDisallowed
| BuildAlreadyConsumed | DuplicateProfileName | ProfileLimitExceeded.
Record ConfigError := mkConfigError { ce_kind : ErrorKind; ce_field : str; ce_message : str }.
#[export] Instance ErrorKind_eq_dec : EqDecision ErrorKind.
Proof. solve_decision. Defined.

(** [microtel::Expected<A, ConfigError>]. *)
Abbreviation Result A := (ConfigError + A)%type.
Definition and_then {A B} (r : Result A) (k : A → Result B) : Result B :=
  match r with inl e => inl e | inr x => k x end.
Notation "'let?' x ':=' r 'in' k" := (and_then r (λ x, k)) (at level 200, x binder, r at level 100, k at level 200) : microtel_scope.
Lemma and_then_inr {A B} (r : Result A) (k : A → Result B) y : and_then r k = inr y ↔ ∃ x, r = inr x ∧ k x = inr y.
Proof. destruct r as [e|x]; cbn; [split; [done|by intros (? & ? & ?)]|naive_solver]. Qed.
Lemma and_then_inl {A B} (r : Result A) (k : A → Result B) e : and_then r k = inl e ↔ r = inl e ∨ ∃ x, r = inr x ∧ k x = inl e.
Proof. destruct r as [e'|x]; cbn; naive_solver. Qed.

(** The intermediate results of a step that succeeded. *)
Ltac chain :=
  repeat match goal with
  | H : and_then _ _ = inr _ |- _ => apply and_then_inr in H; destruct H as (? & ? & H)
  end.

(** ** [Config] *)

Inductive Protocol := Grpc | Http.
#[export] Instance Protocol_eq_dec : EqDecision Protocol.
Proof. solve_decision. Defined.
Inductive LogLevel := LevelTrace | LevelDebug | LevelInfo | LevelWarn | LevelError.
Inductive TemporalityPreference := PreferCumulative | PreferDelta | PreferLowMemory.
Inductive UnknownKeyMode := KeysError | KeysWarn | KeysIgnore.
Record ParsedEndpoint := mkParsedEndpoint { pe_scheme : str; pe_host : str; pe_port : Z; pe_path : str }.
Record TimeoutOptions := mkTimeouts {
  t_connect : Z; t_tls_handshake : Z; t_per_export : Z; t_retry_budget : Z; t_flush : Z; t_shutdown : Z }.

(** Endpoint and transport. *)
Record ExporterSettings := mkExporterSettings {
  endpoint_url : str; endpoint : ParsedEndpoint; protocol : Protocol; protocol_explicit : bool;
  compression_gzip : bool; headers : list KeyValue }.
(** Service and resource. *)
Record ServiceSettings := mkServiceSettings {
  service_name : str; service_version : str; resource_attrs : list KeyValue;
  service_name_defaulted : bool; resource_detectors_strict : bool }.
(** The nested option structs. *)
Record OptionStructs := mkOptionStructs {
  tls : TlsOptions; batch : BatchOptions; timeouts : TimeoutOptions;
  span_limits : SpanLimitOptions; memory_limits : MemoryLimitOptions }.
(** The rest: unknown keys, metrics, logging, concentrator. *)
Record Config := mkConfig {
  exporter : ExporterSettings; service : ServiceSettings; options : OptionStructs;
  unknown_key_mode : UnknownKeyMode; unknown_keys_warned : list str;
  metric_interval : Z; metric_temporality : TemporalityPreference;
  log_level : LogLevel; concentrator : LeafReceiverOptions }.

Definition TlsOptions_default : TlsOptions := mkTlsOptions false [] [] [] [].
Definition BatchOptions_default : BatchOptions := mkBatchOptions 8192 512 5000 DropNewest.
Definition TimeoutOptions_default : TimeoutOptions := mkTimeouts 10000 10000 10000 60000 5000 5000.
Definition MemoryLimitOptions_default : MemoryLimitOptions :=
  mkMemoryLimitOptions (16 * 1024 * 1024) (64 * 1024) (1 * 1024 * 1024) (64 * 1024) (4 * 1024 * 1024).
Definition LeafReceiverOptions_default : LeafReceiverOptions :=
  LeafOptions.mkLeafReceiverOptions true (64 * 1024) 512 1024 (2 * 1024) 3600 LeafOptions.AcceptUnknown $"device.id"
    None 3600 300 600 [] [] (16 * 1024).
Definition set_enabled (b : bool) (o : LeafReceiverOptions) : LeafReceiverOptions :=
  LeafOptions.mkLeafReceiverOptions b (LeafOptions.max_payload_bytes o) (LeafOptions.max_spans_per_payload o) (LeafOptions.max_leaves o)
    (LeafOptions.max_leaf_resource_bytes o) (LeafOptions.leaf_idle_timeout o) (LeafOptions.unknown_leaf o) (LeafOptions.leaf_id_attribute o)
    (LeafOptions.default_time_mode o) (LeafOptions.lo_max_sync_age o) (LeafOptions.lo_max_clock_skew o) (LeafOptions.boot_anchor_window o)
    (LeafOptions.leaf_defaults_resource o) (LeafOptions.leaves o) (LeafOptions.max_node_resource_bytes o).
Definition DefaultConcentratorOptions : LeafReceiverOptions := set_enabled false LeafReceiverOptions_default.
Definition Config_default : Config :=
  mkConfig (mkExporterSettings [] (mkParsedEndpoint [] [] 0 []) Http false false [])
    (mkServiceSettings [] [] [] false false)
    (mkOptionStructs TlsOptions_default BatchOptions_default TimeoutOptions_default SpanLimitOptions_default MemoryLimitOptions_default)
    KeysError [] 60000 PreferCumulative LevelInfo DefaultConcentratorOptions.

(** Assignments to a group of fields. *)
Definition on_exporter (f : ExporterSettings → ExporterSettings) (c : Config) : Config :=
  mkConfig (f (exporter c)) (service c) (options c) (unknown_key_mode c) (unknown_keys_warned c) (metric_interval c) (metric_temporality c) (log_level c) (concentrator c).
Definition on_service (f : ServiceSettings → ServiceSettings) (c : Config) : Config :=
  mkConfig (exporter c) (f (service c)) (options c) (unknown_key_mode c) (unknown_keys_warned c) (metric_interval c) (metric_temporality c) (log_level c) (concentrator c).
Definition on_options (f : OptionStructs → OptionStructs) (c : Config) : Config :=
  mkConfig (exporter c) (service c) (f (options c)) (unknown_key_mode c) (unknown_keys_warned c) (metric_interval c) (metric_temporality c) (log_level c) (concentrator c).
Definition on_concentrator (f : LeafReceiverOptions → LeafReceiverOptions) (c : Config) : Config :=
  mkConfig (exporter c) (service c) (options c) (unknown_key_mode c) (unknown_keys_warned c) (metric_interval c) (metric_temporality c) (log_level c) (f (concentrator c)).
Definition set_endpoint_url (v : str) : Config → Config :=
  on_exporter (λ e, mkExporterSettings v (endpoint e) (protocol e) (protocol_explicit e) (compression_gzip e) (headers e)).
Definition set_endpoint (v : ParsedEndpoint) : Config → Config :=
  on_exporter (λ e, mkExporterSettings (endpoint_url e) v (protocol e) (protocol_explicit e) (compression_gzip e) (headers e)).
Definition set_protocol (v : Protocol) (explicit : bool) : Config → Config :=
  on_exporter (λ e, mkExporterSettings (endpoint_url e) (endpoint e) v explicit (compression_gzip e) (headers e)).
Definition set_compression (v : bool) : Config → Config :=
  on_exporter (λ e, mkExporterSettings (endpoint_url e) (endpoint e) (protocol e) (protocol_explicit e) v (headers e)).
Definition set_headers (v : list KeyValue) : Config → Config :=
  on_exporter (λ e, mkExporterSettings (endpoint_url e) (endpoint e) (protocol e) (protocol_explicit e) (compression_gzip e) v).
Definition set_service_name (v : str) : Config → Config :=
  on_service (λ s, mkServiceSettings v (service_version s) (resource_attrs s) (service_name_defaulted s) (resource_detectors_strict s)).
Definition set_service_version (v : str) : Config → Config :=
  on_service (λ s, mkServiceSettings (service_name s) v (resource_attrs s) (service_name_defaulted s) (resource_detectors_strict s)).
Definition set_resource_attrs (v : list KeyValue) : Config → Config :=
  on_service (λ s, mkServiceSettings (service_name s) (service_version s) v (service_name_defaulted s) (resource_detectors_strict s)).
Definition set_name_defaulted (v : bool) : Config → Config :=
  on_service (λ s, mkServiceSettings (service_name s) (service_version s) (resource_attrs s) v (resource_detectors_strict s)).
Definition set_detectors_strict (v : bool) : Config → Config :=
  on_service (λ s, mkServiceSettings (service_name s) (service_version s) (resource_attrs s) (service_name_defaulted s) v).
Definition set_tls (v : TlsOptions) : Config → Config :=
  on_options (λ o, mkOptionStructs v (batch o) (timeouts o) (span_limits o) (memory_limits o)).
Definition set_batch (v : BatchOptions) : Config → Config :=
  on_options (λ o, mkOptionStructs (tls o) v (timeouts o) (span_limits o) (memory_limits o)).
Definition set_timeouts (v : TimeoutOptions) : Config → Config :=
  on_options (λ o, mkOptionStructs (tls o) (batch o) v (span_limits o) (memory_limits o)).
Definition set_span_limits (v : SpanLimitOptions) : Config → Config :=
  on_options (λ o, mkOptionStructs (tls o) (batch o) (timeouts o) v (memory_limits o)).
Definition set_memory_limits (v : MemoryLimitOptions) : Config → Config :=
  on_options (λ o, mkOptionStructs (tls o) (batch o) (timeouts o) (span_limits o) v).
Definition set_metric_interval (v : Z) (c : Config) : Config :=
  mkConfig (exporter c) (service c) (options c) (unknown_key_mode c) (unknown_keys_warned c) v (metric_temporality c) (log_level c) (concentrator c).
Definition set_metric_temporality (v : TemporalityPreference) (c : Config) : Config :=
  mkConfig (exporter c) (service c) (options c) (unknown_key_mode c) (unknown_keys_warned c) (metric_interval c) v (log_level c) (concentrator c).
Definition set_log_level (v : LogLevel) (c : Config) : Config :=
  mkConfig (exporter c) (service c) (options c) (unknown_key_mode c) (unknown_keys_warned c) (metric_interval c) (metric_temporality c) v (concentrator c).

(** What follows from the fields of one configuration alone. *)
Ltac cfg_eta c := destruct c as [[] [] [[] ? [] ? ?] ? ? ? ? ? []]; reflexivity.

(** [ParseLogLevel]. *)
Definition ParseLogLevel (text : str) : option LogLevel :=
  if text =s $"trace" then Some LevelTrace
  else if text =s $"debug" then Some LevelDebug
  else if text =s $"info" then Some LevelInfo
  else if text =s $"warn" then Some LevelWarn
  else if text =s $"error" then Some LevelError
  else None.

(** ** Tables: [table_merge.cpp] *)

(** [std::tolower] in the C locale, which the library never changes. *)
Definition to_lower (c : char) : char := if in_range "A" "Z" c then chr (code c + 32) else c.
Definition HeaderNameEquals (a b : str) : bool := (to_lower <$> a) =s (to_lower <$> b).
Definition same_name (kv e : KeyValue) : bool := HeaderNameEquals (kv_key e) (kv_key kv).
Fixpoint OverrideHeader (table : list KeyValue) (kv : KeyValue) : list KeyValue :=
  match table with
  | [] => [kv]
  | e :: rest => if same_name kv e then kv :: List.filter (λ e, negb (same_name kv e)) rest else e :: OverrideHeader rest kv
  end.
Definition MergeHeaders (base overriding : list KeyValue) : list KeyValue := fold_left OverrideHeader overriding base.
Definition MergeResourceAttrs (base overriding : list KeyValue) : list KeyValue :=
  m_attributes (Merge (mkResource base) (mkResource overriding)).

(** ** Text forms: [concentrator_config.cpp] *)

(** [std::from_chars] into a 64-bit integer, unsigned and signed: the value and the
    text after the digits. *)
Definition from_chars_u64 (s : str) : option (Z * str) :=
  match digits s with
  | [] => None
  | ds => if digits_value ds <=? u64_max then Some (digits_value ds, drop (length ds) s) else None
  end.
Definition from_chars_i64 (s : str) : option (Z * str) :=
  let '(neg, t) := match s with c :: s' => if c =c "-" then (true, s') else (false, s) | [] => (false, s) end in
  match digits t with
  | [] => None
  | ds => let v := if neg : bool then - digits_value ds else digits_value ds in
          if (- 2 ^ 63 <=? v) && (v <=? 2 ^ 63 - 1) then Some (v, drop (length ds) t) else None
  end.
Definition SplitNumber (text : str) : option (Z * str) := from_chars_u64 text.
Definition UnitOf (suffix : str) (units : list (str * Z)) : option Z := snd <$> find_key fst suffix units.
Definition kKiB : Z := 1024.
Definition kMiB : Z := kKiB * kKiB.
Definition byte_units : list (str * Z) := [([], 1); ($"B", 1); ($"KiB", kKiB); ($"MiB", kMiB)].
Definition ParseByteSize (text : str) : option Z :=
  '(value, suffix) ← SplitNumber text;
  unit_ ← UnitOf suffix byte_units;
  if u32_max / unit_ <? value then None else Some (value * unit_).
Definition duration_units : list (str * Z) := [($"s", 1); ($"m", 60); ($"h", 60 * 60)].
Definition ParseDuration (text : str) : option Z :=
  '(value, suffix) ← SplitNumber text;
  unit_ ← UnitOf suffix duration_units;
  if (2 ^ 63 - 1) / unit_ <? value then None else Some (value * unit_).
Definition ParseUnknownLeafPolicy (text : str) : option LeafOptions.UnknownLeafPolicy :=
  if text =s $"accept" then Some LeafOptions.AcceptUnknown
  else if text =s $"reject" then Some LeafOptions.RejectUnknown else None.
Definition ParseLeafTimeMode (text : str) : option LeafTimeMode :=
  if text =s $"concentrator_stamped" then Some ModeConcentratorStamped
  else if text =s $"sync_relative" then Some ModeSyncRelative
  else if text =s $"boot_relative" then Some ModeBootRelative
  else if text =s $"unix" then Some ModeUnix else None.
Definition ParseDefaultTimeMode (text : str) : option (option LeafTimeMode) :=
  if text =s $"auto" then Some None else Some <$> ParseLeafTimeMode text.

(** [MergeLeafReceiverOptions]: the code's options, with the two tables merged into
    those of the file and the environment. *)
Fixpoint merge_leaf (leaves : list (str * LeafConfig)) (id : str) (leaf : LeafConfig) : list (str * LeafConfig) :=
  match leaves with
  | [] => [(id, leaf)]
  | (id', old) :: rest =>
      if id' =s id
      then (id', LeafOptions.mkLeafConfig
                   (match LeafOptions.lc_time_mode leaf with Some m => Some m | None => LeafOptions.lc_time_mode old end)
                   (MergeResourceAttrs (LeafOptions.lc_resource old) (LeafOptions.lc_resource leaf))) :: rest
      else (id', old) :: merge_leaf rest id leaf
  end.
Definition set_tables (defaults : list KeyValue) (leaves : list (str * LeafConfig)) (o : LeafReceiverOptions) : LeafReceiverOptions :=
  LeafOptions.mkLeafReceiverOptions (LeafOptions.enabled o) (LeafOptions.max_payload_bytes o) (LeafOptions.max_spans_per_payload o) (LeafOptions.max_leaves o)
    (LeafOptions.max_leaf_resource_bytes o) (LeafOptions.leaf_idle_timeout o) (LeafOptions.unknown_leaf o) (LeafOptions.leaf_id_attribute o)
    (LeafOptions.default_time_mode o) (LeafOptions.lo_max_sync_age o) (LeafOptions.lo_max_clock_skew o) (LeafOptions.boot_anchor_window o)
    defaults leaves (LeafOptions.max_node_resource_bytes o).
Definition MergeLeafReceiverOptions (base code : LeafReceiverOptions) : LeafReceiverOptions :=
  set_tables (MergeResourceAttrs (LeafOptions.leaf_defaults_resource base) (LeafOptions.leaf_defaults_resource code))
    (fold_left (λ l p, merge_leaf l (fst p) (snd p)) (LeafOptions.leaves code) (LeafOptions.leaves base)) code.

(** ** The header table *)

Lemma HeaderNameEquals_true a b : HeaderNameEquals a b = true ↔ to_lower <$> a = to_lower <$> b.
Proof. apply seqb_true. Qed.
Lemma HeaderNameEquals_refl a : HeaderNameEquals a a = true.
Proof. by apply HeaderNameEquals_true. Qed.
(** The entries whose name is [name] up to case: what goes on the wire for it. *)
Definition entries_of (name : str) (table : list KeyValue) : list KeyValue := List.filter (λ e, HeaderNameEquals (kv_key e) name) table.
Lemma same_name_entries kv name e : same_name kv e = true → HeaderNameEquals (kv_key e) name = HeaderNameEquals (kv_key kv) name.
Proof.
  intros H. apply HeaderNameEquals_true in H. apply eq_true_iff_eq. rewrite !HeaderNameEquals_true. by rewrite H.
Qed.
Lemma entries_filter_same kv table : entries_of (kv_key kv) (List.filter (λ e, negb (same_name kv e)) table) = [].
Proof.
  induction table as [|e l IH]; cbn; [done|]. destruct (same_name kv e) eqn:E; cbn; [done|].
  unfold same_name in E. by rewrite E.
Qed.
Lemma entries_filter_other kv name table :
  HeaderNameEquals (kv_key kv) name = false → entries_of name (List.filter (λ e, negb (same_name kv e)) table) = entries_of name table.
Proof.
  intros Hn. induction table as [|e l IH]; cbn; [done|]. destruct (same_name kv e) eqn:E; cbn.
  - by rewrite (same_name_entries _ _ _ E), Hn.
  - unfold entries_of in *. cbn. by rewrite IH.
Qed.
Lemma OverrideHeader_entries table kv name :
  entries_of name (OverrideHeader table kv) = if HeaderNameEquals (kv_key kv) name then [kv] else entries_of name table.
Proof.
  destruct (HeaderNameEquals (kv_key kv) name) eqn:Hn.
  - induction table as [|e l IH]; cbn; [by rewrite Hn|]. destruct (same_name kv e) eqn:E; cbn.
    + rewrite Hn. apply HeaderNameEquals_true in Hn. f_equal. rewrite <- (entries_filter_same kv l). unfold entries_of.
      apply List.filter_ext. intros x. unfold HeaderNameEquals. by rewrite Hn.
    + destruct (HeaderNameEquals (kv_key e) name) eqn:He; [|exact IH]. exfalso.
      apply HeaderNameEquals_true in He, Hn. unfold same_name in E. apply not_true_iff_false in E. apply E, HeaderNameEquals_true. congruence.
  - induction table as [|e l IH]; cbn; [by rewrite Hn|]. destruct (same_name kv e) eqn:E; cbn.
    + rewrite Hn, (same_name_entries _ _ _ E), Hn. by apply entries_filter_other.
    + unfold entries_of in *. cbn. by rewrite IH.
Qed.
(** The last entry of the overriding table under a name. *)
Definition last_entry (name : str) (over : list KeyValue) : option KeyValue :=
  List.find (λ e, HeaderNameEquals (kv_key e) name) (reverse over).
(** Merging tables of request headers: a name set by the overriding table, in any
    letter case, ends with its last entry there and no other; every other name
    keeps what it had. *)
Theorem MergeHeaders_exact base over name :
  entries_of name (MergeHeaders base over) = match last_entry name over with Some kv => [kv] | None => entries_of name base end.
Proof.
  unfold MergeHeaders, last_entry. induction over as [|kv over IH] using rev_ind; [done|].
  rewrite fold_left_app, reverse_snoc. cbn [fold_left List.find]. rewrite OverrideHeader_entries, IH.
  by destruct (HeaderNameEquals (kv_key kv) name).
Qed.

(** ** Scaled numbers *)

Lemma digits_split s : s = digits s ++ drop (length (digits s)) s ∧ forallb is_digit (digits s) = true.
Proof.
  induction s as [|c s [IH1 IH2]]; cbn; [done|]. destruct (is_digit c) eqn:E; cbn; [|done].
  split; [by f_equal|by rewrite E, IH2].
Qed.
Lemma digits_app ds rest : forallb is_digit ds = true → starts_in is_digit rest = false → digits (ds ++ rest) = ds.
Proof.
  induction ds as [|c ds IH]; cbn.
  - intros _ H. destruct rest as [|c r]; [done|]. cbn in *. by rewrite H.
  - intros H Hr. bool_hyps. rewrite H. f_equal. by apply IH.
Qed.
Lemma digits_value_nonneg ds : forallb is_digit ds = true → 0 <= digits_value ds.
Proof.
  unfold digits_value. assert (∀ v, 0 <= v → forallb is_digit ds = true → 0 <= fold_left digit_step ds v) as H; [|intros; by apply H].
  induction ds as [|c ds IH]; cbn; intros v Hv H; [done|]. bool_hyps. apply IH; [|done].
  unfold digit_step. unfold is_digit, in_range in H. bool_hyps. lia.
Qed.
(** [text] is a numeral of value [n] followed by a unit worth [u]. *)
Inductive scaled (units : list (str * Z)) : str → Z → Z → Prop :=
| scaled_intro ds suffix u : ds ≠ [] → forallb is_digit ds = true → (suffix, u) ∈ units → scaled units (ds ++ suffix) (digits_value ds) u.
Definition good_units (units : list (str * Z)) : bool :=
  bool_decide (NoDup units.*1) && forallb (λ p, (0 <? snd p) && negb (starts_in is_digit (fst p))) units.
Lemma UnitOf_Some units suffix u : good_units units = true → UnitOf suffix units = Some u ↔ (suffix, u) ∈ units.
Proof.
  unfold good_units, UnitOf, find_key. intros H. bool_hyps. clear H0. induction units as [|[s v] l IH]; cbn.
  - split; [done|]. intros []%not_elem_of_nil.
  - cbn in H. apply NoDup_cons in H as [Hn Hd]. rewrite elem_of_cons. destruct (s =s suffix) eqn:E; cbn.
    + apply seqb_true in E as ->. split; [intros [= ->]; by left|intros [[= ->]|Hin]; [done|]]. destruct Hn. apply list_elem_of_fmap. by exists (suffix, u).
    + apply seqb_false in E. rewrite <- IH by done. naive_solver.
Qed.
Lemma scaled_read units max text v :
  good_units units = true → 0 <= max <= u64_max →
  ('(value, suffix) ← SplitNumber text; unit_ ← UnitOf suffix units; if max / unit_ <? value then None else Some (value * unit_)) = Some v
  ↔ ∃ n u, scaled units text n u ∧ v = n * u ∧ v <= max.
Proof.
  intros Hu Hmax. assert (∀ suffix u, (suffix, u) ∈ units → 0 < u ∧ starts_in is_digit suffix = false) as Hpos.
  { unfold good_units in Hu. bool_hyps. intros suffix u Hin. pose proof (forallb_elem _ _ _ H0 Hin) as Hp. cbn in Hp. by bool_hyps. }
  assert (∀ n u, 0 < u → 0 <= n → (max / u <? n) = false ↔ n * u <= max) as Hdiv.
  { intros n u Hu0 Hn. rewrite Z.ltb_ge. split; intros H; [|apply Z.div_le_lower_bound; lia]. pose proof (Z.mul_div_le max u Hu0). nia. }
  split.
  - intros H. apply bind_Some in H as ([n suffix] & Hs & (u & HU & Hv)%bind_Some). apply UnitOf_Some in HU; [|done].
    destruct (Hpos _ _ HU) as [Hu0 Hsf]. unfold SplitNumber, from_chars_u64 in Hs. destruct (digits_split text) as [Ht Hd].
    destruct (digits text) as [|c ds] eqn:Ed; [done|]. rewrite <- Ed in *. destruct (_ <=? _); [|done]. injection Hs as <- Hsuf.
    destruct (max / u <? digits_value (digits text)) eqn:E; [done|]. injection Hv as <-. apply Hdiv in E; [|done|by apply digits_value_nonneg].
    exists (digits_value (digits text)), u. split_and!; [|done|done]. rewrite Ht at 1. rewrite Hsuf. apply scaled_intro; [by rewrite Ed|done|done].
  - intros (n & u & [ds suffix u' Hne Hd Hin] & -> & Hle). destruct (Hpos _ _ Hin) as [Hu0 Hsf].
    pose proof (digits_value_nonneg _ Hd). unfold SplitNumber, from_chars_u64. rewrite digits_app by done.
    destruct ds as [|c ds'] eqn:Ed; [done|]. rewrite <- Ed in *. rewrite (proj2 (Z.leb_le _ _)) by nia. cbn [mbind option_bind].
    rewrite drop_app_length. rewrite (proj2 (UnitOf_Some _ _ _ Hu) Hin). cbn [mbind option_bind]. by rewrite (proj2 (Hdiv _ _ Hu0 H) Hle).
Qed.
(** A byte size is accepted exactly when it is a numeral and one of the units whose
    product fits 32 bits, and that product is the result: never wrapped. *)
Theorem ParseByteSize_exact text v :
  ParseByteSize text = Some v ↔ ∃ n u, scaled byte_units text n u ∧ v = n * u ∧ v <= u32_max.
Proof. apply scaled_read; [by vm_compute|width_lia]. Qed.
(** Likewise a duration, whose unit is never left out. *)
Theorem ParseDuration_exact text v :
  ParseDuration text = Some v ↔ ∃ n u, scaled duration_units text n u ∧ v = n * u ∧ v <= 2 ^ 63 - 1.
Proof. apply scaled_read; [by vm_compute|width_lia]. Qed.
Example byte_sizes : ParseByteSize <$> [$"65536"; $"64KiB"; $"4095MiB"; $"4096MiB"; $"KiB"; $"64kib"; $"-1"]
  = [Some 65536; Some 65536; Some 4293918720; None; None; None; None].
Proof. vm_compute. reflexivity. Qed.

(** ** Merging the leaf tables *)

Lemma merge_leaf_find leaves id leaf id' :
  find_key fst id' (merge_leaf leaves id leaf)
  = if id =s id' then Some (id, match snd <$> find_key fst id leaves with
                                | Some old => LeafOptions.mkLeafConfig
                                    (match LeafOptions.lc_time_mode leaf with Some m => Some m | None => LeafOptions.lc_time_mode old end)
                                    (MergeResourceAttrs (LeafOptions.lc_resource old) (LeafOptions.lc_resource leaf))
                                | None => leaf
                                end)
    else find_key fst id' leaves.
Proof.
  unfold find_key. induction leaves as [|[k old] l IH]; cbn; [by destruct (id =s id')|].
  destruct (k =s id) eqn:Ek; cbn.
  - apply seqb_true in Ek as ->. by destruct (id =s id').
  - destruct (k =s id') eqn:Ek'; [|exact IH]. apply seqb_true in Ek' as ->.
    apply seqb_false in Ek. destruct (id =s id') eqn:E; [|done]. apply seqb_true in E. congruence.
Qed.
