(* ===== verification/EnvResolver.v ===== *)
(** * The environment overlay

    Model of [src/common/config/env_resolver.cpp].  The environment is a function
    from names to values; [GetEnv] makes an unset variable and an empty one alike.
    Each [Overlay...] function takes the configuration and returns it changed, or
    the [ConfigError] that refuses the build.

    The theorems: the key=value list format (an encoder's output is read back
    exactly, the language accepted, and what an error may say), and the overlay as
    a whole: which variable decides which field. *)
From S2P Require Import Prelude Baggage Context Data AttributeSet SpanLimits LeafTime RetryEngine ProtoReader Wire Http2Connect Config.
From S2P Require LeafOptions.

(** ** Values *)

Definition env_failure (field message : str) : ConfigError := mkConfigError EnvParseFailure field message.
(** A name between double quotes, in messages. *)
Definition quoted (s : str) : str := chr 34 :: s ++ [chr 34].
Definition ParseMs (sv var_name : str) : Result Z :=
  match from_chars_i64 sv with
  | Some (ms, []) => inr ms
  | _ => inl (env_failure var_name (var_name ++ $": expected integer milliseconds"))
  end.
(** [find_first_not_of] and [find_last_not_of] over [kOws]. *)
Definition TrimOws (sv : str) : str := trim IsOptionalWhitespace sv.
(** The loop copies up to the next [%]; [std::from_chars] in base 16 must consume
    two characters. *)
Fixpoint PercentDecode (sv : str) : option str :=
  match sv with
  | [] => Some []
  | c :: rest =>
      if c =c "%"
      then match rest with
           | high :: low :: rest' =>
               if IsHexDigit high && IsHexDigit low
               then cons (chr (HexDigitValue high * 16 + HexDigitValue low)) <$> PercentDecode rest'
               else None
           | _ => None
           end
      else cons c <$> PercentDecode rest
  end.

(** [token.find('=')] and the two sides of it. *)
Definition split_eq (token : str) : option (str * str) :=
  (λ eq, (take eq token, drop (S eq) token)) <$> find_char "=" token.
Definition missing_eq (var_name : str) (entry : nat) : ConfigError :=
  env_failure var_name (var_name ++ $": entry " ++ decimal (Z.of_nat entry) ++ $" is not a key=value pair (missing '=')").
Definition bad_escape (var_name key : str) : ConfigError :=
  env_failure var_name (var_name ++ $": malformed percent-escape in the value of " ++ key ++ $" (expected %XX, two hex digits)").
(** One round of the loop for the text between two commas: no entry for an empty
    token. *)
Definition ParseEntry (var_name : str) (entry : nat) (text : str) : Result (list KeyValue) :=
  let token := TrimOws text in
  match token with
  | [] => inr []
  | _ =>
      match split_eq token with
      | None => inl (missing_eq var_name entry)
      | Some (k, v) =>
          let key := TrimOws k in
          match PercentDecode (TrimOws v) with
          | None => inl (bad_escape var_name key)
          | Some value => inr [mkKeyValue key (AvString value)]
          end
      end
  end.
Fixpoint ParseEntries (var_name : str) (entry : nat) (texts : list str) : Result (list KeyValue) :=
  match texts with
  | [] => inr []
  | text :: rest =>
      let? kvs := ParseEntry var_name entry text in
      let? tail := ParseEntries var_name (S entry) rest in
      inr (kvs ++ tail)
  end.
(** [segments] are the pieces the loop visits. *)
Definition ParseKeyValueList (sv var_name : str) : Result (list KeyValue) := ParseEntries var_name 1 (segments "," sv).

Definition ParseProtocol (sv : str) : Result Protocol :=
  if sv =s $"grpc" then inr Grpc
  else if (sv =s $"http/protobuf") || (sv =s $"http") then inr Http
  else inl (env_failure $"OTEL_EXPORTER_OTLP_PROTOCOL" ($"expected " ++ quoted $"grpc" ++ $" or " ++ quoted $"http/protobuf")).
Definition ParseBool (v : str) : option bool :=
  if (v =s $"true") || (v =s $"1") then Some true
  else if (v =s $"false") || (v =s $"0") then Some false else None.
Definition ParseCount (v : str) : option Z :=
  match from_chars_u32 v with Some (n, []) => Some n | _ => None end.

(** ** The overlay, one function per variable *)

Section overlay.
Context (getenv : str → option str).
Definition GetEnv (name : str) : str := default [] (getenv name).
(** [if (v.empty()) return {};] then [k v]. *)
Definition when_set (name : str) (cfg : Config) (k : str → Result Config) : Result Config :=
  match GetEnv name with [] => inr cfg | v => k v end.

Definition OverlayTimeout (cfg : Config) : Result Config :=
  when_set $"OTEL_EXPORTER_OTLP_TIMEOUT" cfg (λ v,
    let? ms := ParseMs v $"OTEL_EXPORTER_OTLP_TIMEOUT" in
    let t := timeouts (options cfg) in
    inr (set_timeouts (mkTimeouts (t_connect t) (t_tls_handshake t) ms (t_retry_budget t) (t_flush t) (t_shutdown t)) cfg)).
Definition OverlayHeaders (cfg : Config) : Result Config :=
  when_set $"OTEL_EXPORTER_OTLP_HEADERS" cfg (λ v,
    let? parsed := ParseKeyValueList v $"OTEL_EXPORTER_OTLP_HEADERS" in
    inr (set_headers (MergeHeaders (headers (exporter cfg)) parsed) cfg)).
Definition OverlayProtocol (cfg : Config) : Result Config :=
  when_set $"OTEL_EXPORTER_OTLP_PROTOCOL" cfg (λ v,
    let? proto := ParseProtocol v in inr (set_protocol proto true cfg)).
Definition OverlayMetricInterval (cfg : Config) : Result Config :=
  when_set $"OTEL_METRIC_EXPORT_INTERVAL" cfg (λ v,
    let? ms := ParseMs v $"OTEL_METRIC_EXPORT_INTERVAL" in inr (set_metric_interval ms cfg)).
Definition OverlayMetricTemporality (cfg : Config) : Result Config :=
  when_set $"OTEL_EXPORTER_OTLP_METRICS_TEMPORALITY_PREFERENCE" cfg (λ v,
    if v =s $"cumulative" then inr (set_metric_temporality PreferCumulative cfg)
    else if v =s $"delta" then inr (set_metric_temporality PreferDelta cfg)
    else if v =s $"lowmemory" then inr (set_metric_temporality PreferLowMemory cfg)
    else inl (env_failure $"OTEL_EXPORTER_OTLP_METRICS_TEMPORALITY_PREFERENCE"
                ($"expected " ++ quoted $"cumulative" ++ $", " ++ quoted $"delta" ++ $", or " ++ quoted $"lowmemory"))).
Definition OverlayResourceAttrs (cfg : Config) : Result Config :=
  when_set $"OTEL_RESOURCE_ATTRIBUTES" cfg (λ v,
    let? attrs := ParseKeyValueList v $"OTEL_RESOURCE_ATTRIBUTES" in
    inr (set_resource_attrs (MergeResourceAttrs (resource_attrs (service cfg)) attrs) cfg)).
Definition OverlayResourceDetectorsStrict (cfg : Config) : Result Config :=
  when_set $"MICROTEL_RESOURCE_DETECTORS_STRICT" cfg (λ v,
    if (v =s $"true") || (v =s $"1") then inr (set_detectors_strict true cfg)
    else if (v =s $"false") || (v =s $"0") then inr (set_detectors_strict false cfg)
    else inl (env_failure $"MICROTEL_RESOURCE_DETECTORS_STRICT"
                ($"expected " ++ quoted $"true" ++ $"/" ++ quoted $"1" ++ $" or " ++ quoted $"false" ++ $"/" ++ quoted $"0"))).
Definition OverlayLogLevel (cfg : Config) : Result Config :=
  when_set $"MICROTEL_LOG_LEVEL" cfg (λ v,
    match ParseLogLevel v with
    | None => inl (env_failure $"MICROTEL_LOG_LEVEL"
        ($"expected " ++ quoted $"trace" ++ $", " ++ quoted $"debug" ++ $", " ++ quoted $"info" ++ $", " ++ quoted $"warn" ++ $" or " ++ quoted $"error"))
    | Some level => inr (set_log_level level cfg)
    end).
(** [OverlayParsed] on one setting of the concentrator. *)
Definition OverlayParsed {T} (var_name : str) (parse : str → option T) (expected : str)
    (set : T → LeafReceiverOptions → LeafReceiverOptions) (cfg : Config) : Result Config :=
  when_set var_name cfg (λ v,
    match parse v with
    | None => inl (env_failure var_name (var_name ++ $": expected " ++ expected))
    | Some x => inr (on_concentrator (set x) cfg)
    end).
Import LeafOptions.
Definition set_max_payload (v : Z) (o : LeafReceiverOptions) : LeafReceiverOptions :=
  mkLeafReceiverOptions (enabled o) v (max_spans_per_payload o) (max_leaves o) (max_leaf_resource_bytes o) (leaf_idle_timeout o) (unknown_leaf o)
    (leaf_id_attribute o) (default_time_mode o) (lo_max_sync_age o) (lo_max_clock_skew o) (boot_anchor_window o) (leaf_defaults_resource o) (leaves o) (max_node_resource_bytes o).
Definition set_max_leaves (v : Z) (o : LeafReceiverOptions) : LeafReceiverOptions :=
  mkLeafReceiverOptions (enabled o) (max_payload_bytes o) (max_spans_per_payload o) v (max_leaf_resource_bytes o) (leaf_idle_timeout o) (unknown_leaf o)
    (leaf_id_attribute o) (default_time_mode o) (lo_max_sync_age o) (lo_max_clock_skew o) (boot_anchor_window o) (leaf_defaults_resource o) (leaves o) (max_node_resource_bytes o).
Definition set_unknown_leaf (v : UnknownLeafPolicy) (o : LeafReceiverOptions) : LeafReceiverOptions :=
  mkLeafReceiverOptions (enabled o) (max_payload_bytes o) (max_spans_per_payload o) (max_leaves o) (max_leaf_resource_bytes o) (leaf_idle_timeout o) v
    (leaf_id_attribute o) (default_time_mode o) (lo_max_sync_age o) (lo_max_clock_skew o) (boot_anchor_window o) (leaf_defaults_resource o) (leaves o) (max_node_resource_bytes o).
Definition set_default_time_mode (v : option LeafTimeMode) (o : LeafReceiverOptions) : LeafReceiverOptions :=
  mkLeafReceiverOptions (enabled o) (max_payload_bytes o) (max_spans_per_payload o) (max_leaves o) (max_leaf_resource_bytes o) (leaf_idle_timeout o) (unknown_leaf o)
    (leaf_id_attribute o) v (lo_max_sync_age o) (lo_max_clock_skew o) (boot_anchor_window o) (leaf_defaults_resource o) (leaves o) (max_node_resource_bytes o).
Definition time_mode_names : str :=
  quoted $"auto" ++ $", " ++ quoted $"concentrator_stamped" ++ $", " ++ quoted $"sync_relative" ++ $", " ++ quoted $"boot_relative" ++ $" or " ++ quoted $"unix".
Definition OverlayConcentratorEnv (cfg : Config) : Result Config :=
  let? cfg := OverlayParsed $"MICROTEL_CONCENTRATOR_ENABLED" ParseBool
    (quoted $"true" ++ $"/" ++ quoted $"1" ++ $" or " ++ quoted $"false" ++ $"/" ++ quoted $"0") set_enabled cfg in
  let? cfg := OverlayParsed $"MICROTEL_CONCENTRATOR_MAX_PAYLOAD_BYTES" ParseByteSize
    $"a byte count, optionally with a B, KiB or MiB suffix" set_max_payload cfg in
  let? cfg := OverlayParsed $"MICROTEL_CONCENTRATOR_MAX_LEAVES" ParseCount $"a decimal integer" set_max_leaves cfg in
  let? cfg := OverlayParsed $"MICROTEL_CONCENTRATOR_UNKNOWN_LEAF" ParseUnknownLeafPolicy
    (quoted $"accept" ++ $" or " ++ quoted $"reject") set_unknown_leaf cfg in
  let? cfg := OverlayParsed $"MICROTEL_CONCENTRATOR_DEFAULT_TIME_MODE" ParseDefaultTimeMode time_mode_names set_default_time_mode cfg in
  when_set $"MICROTEL_CONCENTRATOR_RESOURCE_ATTRIBUTES" cfg (λ v,
    let? attrs := ParseKeyValueList v $"MICROTEL_CONCENTRATOR_RESOURCE_ATTRIBUTES" in
    inr (on_concentrator (λ o, set_tables (MergeResourceAttrs (leaf_defaults_resource o) attrs) (leaves o) o) cfg)).

Definition OverlayExporterEnv (cfg : Config) : Result Config :=
  let? cfg := when_set $"OTEL_EXPORTER_OTLP_ENDPOINT" cfg (λ v, inr (set_endpoint_url v cfg)) in
  let? cfg := OverlayProtocol cfg in
  let? cfg := OverlayHeaders cfg in
  let? cfg := OverlayTimeout cfg in
  let? cfg := when_set $"OTEL_EXPORTER_OTLP_COMPRESSION" cfg (λ v, inr (set_compression (v =s $"gzip") cfg)) in
  when_set $"OTEL_EXPORTER_OTLP_CERTIFICATE" cfg (λ v,
    let t := tls (options cfg) in
    inr (set_tls (mkTlsOptions (to_insecure t) v (to_client_cert t) (to_client_key t) (to_sni_override t)) cfg)).
Definition OverlayResourceAndMetricEnv (cfg : Config) : Result Config :=
  let? cfg := when_set $"OTEL_SERVICE_NAME" cfg (λ v, inr (set_service_name v cfg)) in
  let? cfg := OverlayResourceAttrs cfg in
  let? cfg := OverlayResourceDetectorsStrict cfg in
  let? cfg := OverlayMetricInterval cfg in
  let? cfg := OverlayMetricTemporality cfg in
  OverlayLogLevel cfg.
Definition OverlayEnv (cfg : Config) : Result Config :=
  let? cfg := OverlayExporterEnv cfg in
  let? cfg := OverlayResourceAndMetricEnv cfg in
  OverlayConcentratorEnv cfg.
End overlay.

(** ** Trimming around the '=' *)

Abbreviation ows := IsOptionalWhitespace.
Lemma drop_while_app_stop p a c b : p c = false → drop_while p (a ++ c :: b) = drop_while p a ++ c :: b.
Proof. intros Hc. induction a as [|x a IH]; cbn; [by rewrite Hc|]. by destruct (p x). Qed.
Lemma drop_while_back_app_stop p a c b : p c = false → drop_while_back p (a ++ c :: b) = a ++ c :: drop_while_back p b.
Proof.
  intros Hc. unfold drop_while_back. rewrite reverse_app, reverse_cons, <- app_assoc. cbn [app].
  rewrite drop_while_app_stop by done. rewrite reverse_app, reverse_cons, reverse_involutive, <- app_assoc. done.
Qed.
Lemma trim_around p a c b : p c = false → trim p (a ++ c :: b) = drop_while p a ++ c :: drop_while_back p b.
Proof. intros Hc. unfold trim. rewrite drop_while_app_stop by done. by apply drop_while_back_app_stop. Qed.
Lemma drop_while_idem p s : drop_while p (drop_while p s) = drop_while p s.
Proof. apply drop_while_id, drop_while_starts. Qed.
Lemma drop_while_all p s : forallb p s = true → drop_while p s = [].
Proof. induction s as [|c s IH]; cbn; [done|]. intros H. bool_hyps. rewrite H. auto. Qed.
Lemma drop_while_split p s : ∃ w, s = w ++ drop_while p s ∧ forallb p w = true.
Proof.
  induction s as [|c s (w & E & Hw)]; cbn; [by exists []|]. destruct (p c) eqn:Ec; [|by exists []].
  exists (c :: w). cbn. split; [by f_equal|by rewrite Ec, Hw].
Qed.
(** The two ends are dropped in either order. *)
Lemma drop_while_back_nil p s : drop_while_back p s = [] ↔ forallb p s = true.
Proof.
  unfold drop_while_back. rewrite <- (forallb_reverse p s). destruct (drop_while_split p (reverse s)) as (w & E & Hw). split; intros H.
  - rewrite <- (reverse_involutive (drop_while p (reverse s))), H in E. cbn in E. rewrite app_nil_r in E. by rewrite E.
  - by rewrite drop_while_all.
Qed.
Lemma drop_while_back_cons p c s : p c = false → drop_while_back p (c :: s) = c :: drop_while_back p s.
Proof. intros H. apply (drop_while_back_app_stop p [] c s H). Qed.
Lemma trim_drop_back p s : trim p (drop_while_back p s) = trim p s.
Proof.
  unfold trim. destruct (drop_while_split p s) as (w & E & Hw). remember (drop_while p s) as m eqn:Em.
  assert (starts_in p m = false) as Hm by (rewrite Em; apply drop_while_starts). rewrite E. clear s E Em.
  destruct m as [|c m].
  - rewrite app_nil_r. rewrite (proj2 (drop_while_back_nil p w) Hw). done.
  - cbn in Hm. rewrite drop_while_back_app_stop by done. rewrite drop_while_app_stop by done. rewrite drop_while_all by done. cbn [app].
    rewrite !drop_while_back_cons by done. f_equal. unfold drop_while_back at 1. rewrite reverse_involutive || idtac.
    unfold drop_while_back. by rewrite reverse_involutive, drop_while_idem.
Qed.
Lemma trim_drop_front p s : trim p (drop_while p s) = trim p s.
Proof. unfold trim. by rewrite drop_while_idem. Qed.
Lemma trim_pad p w1 s w2 : forallb p w1 = true → forallb p w2 = true → starts_in p s = false → ends_in p s = false → trim p (w1 ++ s ++ w2) = s.
Proof.
  intros H1 H2 Hs He. unfold trim. destruct s as [|c s].
  - rewrite drop_while_all by (cbn; by rewrite forallb_app, H1, H2). done.
  - cbn in Hs. cbn [app]. rewrite drop_while_app_stop, drop_while_all by done. cbn [app]. unfold drop_while_back.
    rewrite app_comm_cons, reverse_app. assert (∀ w t, forallb p w = true → starts_in p t = false → drop_while p (w ++ t) = t) as Hd.
    { intros w t Hw Ht. induction w as [|x w IH]; cbn; [by apply drop_while_id|]. cbn in Hw. bool_hyps. rewrite H. auto. }
    rewrite Hd; [apply reverse_involutive|by rewrite forallb_reverse|exact He].
Qed.

(** ** One entry *)

Lemma ows_eq : ows "=" = false.
Proof. by vm_compute. Qed.
(** What an entry means, without the trimming of the token. *)
Lemma ParseEntry_eq var_name entry a b :
  "="%char ∉ a →
  ParseEntry var_name entry (a ++ "="%char :: b) = match PercentDecode (TrimOws b) with
                                              | None => inl (bad_escape var_name (TrimOws a))
                                              | Some value => inr [mkKeyValue (TrimOws a) (AvString value)]
                                              end.
Proof.
  intros Ha. unfold ParseEntry. cbv zeta. unfold TrimOws at 1 2. rewrite trim_around by exact ows_eq.
  assert ("="%char ∉ drop_while ows a) as Ha'.
  { destruct (drop_while_suffix ows a) as [w E]. rewrite E in Ha. set_solver. }
  destruct (drop_while ows a ++ "="%char :: drop_while_back ows b) as [|c t] eqn:E; [by destruct (drop_while ows a)|].
  rewrite <- E. unfold split_eq. rewrite find_char_app by exact Ha'. cbn [fmap option_fmap option_map]. rewrite take_app_length, drop_past_app.
  unfold TrimOws. by rewrite trim_drop_front, trim_drop_back.
Qed.
Lemma ParseEntry_no_eq var_name entry text :
  "="%char ∉ text → ParseEntry var_name entry text = if bool_decide (TrimOws text = []) then inr [] else inl (missing_eq var_name entry).
Proof.
  intros Ht. unfold ParseEntry. assert ("="%char ∉ TrimOws text) as H by (intros H%trim_elem; done).
  destruct (TrimOws text) as [|c t] eqn:E; [done|]. rewrite bool_decide_eq_false_2 by done.
  unfold split_eq. by rewrite (proj2 (find_char_None _ _) H).
Qed.
Lemma split_at_eq text : (∃ a b, text = a ++ "="%char :: b ∧ "="%char ∉ a) ∨ "="%char ∉ text.
Proof.
  destruct (find_char "=" text) as [n|] eqn:E; [left|right; by apply find_char_None].
  apply find_char_Some in E as [E H]. by exists (take n text), (drop (S n) text).
Qed.

(** ** The list *)

(** What a piece of the list between two commas contributes. *)
Inductive entry_means : str → list KeyValue → Prop :=
| means_blank text : TrimOws text = [] → entry_means text []
| means_pair a b value : "="%char ∉ a → PercentDecode (TrimOws b) = Some value →
    entry_means (a ++ "="%char :: b) [mkKeyValue (TrimOws a) (AvString value)].
(** Why one is refused: neither error carries any of the text after the '='. *)
Inductive entry_faulty (var_name : str) (entry : nat) : str → ConfigError → Prop :=
| faulty_no_eq text : "="%char ∉ text → TrimOws text ≠ [] → entry_faulty var_name entry text (missing_eq var_name entry)
| faulty_escape a b : "="%char ∉ a → PercentDecode (TrimOws b) = None → entry_faulty var_name entry (a ++ "="%char :: b) (bad_escape var_name (TrimOws a)).
Lemma ParseEntry_means var_name entry text :
  match ParseEntry var_name entry text with
  | inr kvs => entry_means text kvs
  | inl e => entry_faulty var_name entry text e
  end.
Proof.
  destruct (split_at_eq text) as [(a & b & -> & Ha)|Ht].
  - rewrite ParseEntry_eq by done. destruct (PercentDecode (TrimOws b)) eqn:E; by constructor.
  - rewrite ParseEntry_no_eq by done. case_bool_decide; by constructor.
Qed.
Lemma ParseEntries_means var_name n texts :
  match ParseEntries var_name n texts with
  | inr kvs => ∃ parts, Forall2 entry_means texts parts ∧ kvs = concat parts
  | inl e => ∃ pre text post parts, texts = pre ++ text :: post ∧ Forall2 entry_means pre parts ∧ entry_faulty var_name (n + length pre) text e
  end.
Proof.
  revert n. induction texts as [|text texts IH]; intros n; cbn [ParseEntries]; [by exists []|].
  pose proof (ParseEntry_means var_name n text) as H. destruct (ParseEntry var_name n text) as [e|kvs]; cbn [and_then].
  - exists [], text, texts, []. split_and!; [done|constructor|]. by rewrite Nat.add_0_r.
  - specialize (IH (S n)). destruct (ParseEntries var_name (S n) texts) as [e|tail]; cbn [and_then].
    + destruct IH as (pre & t & post & parts & -> & Hp & Hf). exists (text :: pre), t, post, (kvs :: parts).
      split_and!; [done|by constructor|]. cbn [length]. by rewrite <- plus_n_Sm.
    + destruct IH as (parts & Hp & ->). exists (kvs :: parts). split; [by constructor|done].
Qed.
(** A key=value list is accepted exactly when every piece between commas is blank
    or a key, '=' and a value whose percent escapes are well formed, and then
    contributes its pairs in order; otherwise the first faulty piece is reported by
    its position, or by its key, and no error contains any text from a value. *)
Theorem key_value_list_exact sv var_name :
  match ParseKeyValueList sv var_name with
  | inr kvs => ∃ parts, Forall2 entry_means (segments "," sv) parts ∧ kvs = concat parts
  | inl e => ∃ pre text post parts, segments "," sv = pre ++ text :: post ∧ Forall2 entry_means pre parts
             ∧ entry_faulty var_name (S (length pre)) text e
  end.
Proof. exact (ParseEntries_means var_name 1 (segments "," sv)). Qed.

(** ** Round trip *)

Lemma hex_or h l : IsHexDigit h = true → IsHexDigit l = true →
  Z.lor (HexDigitValue h * 2 ^ 4) (HexDigitValue l) = HexDigitValue h * 16 + HexDigitValue l.
Proof.
  assert (∀ c, IsHexDigit c = true → HexDigitValue c ∈ seqZ 0 16) as Hr.
  { intros c. by_octet_cases c (λ c, implb (IsHexDigit c) (bool_decide (HexDigitValue c ∈ seqZ 0 16))). }
  assert (forallb (λ a, forallb (λ b, Z.lor (a * 2 ^ 4) b =? a * 16 + b) (seqZ 0 16)) (seqZ 0 16) = true) as Hall by (vm_compute; reflexivity).
  intros Hh%Hr Hl%Hr. pose proof (forallb_elem _ _ _ Hall Hh) as H. cbn beta in H. pose proof (forallb_elem _ _ _ H Hl) as H'. by apply Z.eqb_eq.
Qed.
Lemma PercentDecode_of_DecodeValue s v : DecodeValue s = Some v → PercentDecode s = Some v.
Proof.
  revert v. induction s as [s IH] using (induction_ltof1 _ (@length ascii)). unfold ltof in IH. intros v. destruct s as [|c rest]; [done|].
  cbn [DecodeValue PercentDecode]. destruct (negb (IsBaggageOctet c)); [done|]. change kEscapePrefix with "%"%char.
  destruct (c =c "%") eqn:Ec; cbn [negb].
  - destruct rest as [|h [|l rest]]; [done..|]. destruct (IsHexDigit h) eqn:Eh, (IsHexDigit l) eqn:El; cbn; try done.
    intros H. apply fmap_Some in H as (t & Ht & ->). apply IH in Ht; [|cbn; lia]. rewrite Ht. cbn. do 3 f_equal.
    rewrite Z.shiftl_mul_pow2 by lia. symmetry. apply (hex_or h l Eh El).
  - intros H. apply fmap_Some in H as (t & Ht & ->). apply IH in Ht; [|cbn; lia]. by rewrite Ht.
Qed.
(** An entry as a careful operator writes it: any spaces and tabs around key and
    value, the value percent-encoded as W3C Baggage encodes one. *)
Record ListEntry := mkListEntry { le_pad : str * str * str * str; le_key : str; le_value : str }.
Definition render_entry (e : ListEntry) : str :=
  let '(w1, w2, w3, w4) := le_pad e in
  (w1 ++ le_key e ++ w2) ++ "="%char :: (w3 ++ AppendEncoded (le_value e) ++ w4).
Definition entry_ok (e : ListEntry) : bool :=
  let '(w1, w2, w3, w4) := le_pad e in
  forallb ows w1 && forallb ows w2 && forallb ows w3 && forallb ows w4
  && forallb (λ c, negb (c =c "=") && negb (c =c ",")) (le_key e) && negb (starts_in ows (le_key e)) && negb (ends_in ows (le_key e)).
Definition entry_kv (e : ListEntry) : KeyValue := mkKeyValue (le_key e) (AvString (le_value e)).
Lemma ows_plain w c : forallb ows w = true → c = "="%char ∨ c = ","%char → c ∉ w.
Proof. intros Hw Hc Hin. pose proof (forallb_elem _ _ _ Hw Hin) as H. destruct Hc as [-> | ->]; vm_compute in H; done. Qed.
Lemma octet_not_ows c : IsBaggageOctet c = true → ows c = false.
Proof. by_octet_cases c (λ c, implb (IsBaggageOctet c) (negb (ows c))). Qed.
Lemma render_entry_ok var_name n e : entry_ok e = true →
  ParseEntry var_name n (render_entry e) = inr [entry_kv e] ∧ render_entry e ≠ [] ∧ ","%char ∉ render_entry e.
Proof.
  unfold entry_ok, render_entry, entry_kv. destruct e as [[[[w1 w2] w3] w4] k v]. cbn [le_pad le_key le_value]. intros H. bool_hyps.
  pose proof (encoded_octets v) as Hv.
  assert (∀ c, c = "="%char ∨ c = ","%char → c ∉ k) as Hk.
  { intros c Hc Hin. pose proof (forallb_elem _ _ _ H2 Hin) as Hx. cbn in Hx. by destruct Hc as [-> | ->]. }
  split_and!.
  - rewrite ParseEntry_eq.
    + unfold TrimOws. rewrite !trim_pad; try done.
      * by rewrite (PercentDecode_of_DecodeValue _ _ (decode_encode v)).
      * apply (starts_in_forallb _ _ _ octet_not_ows Hv).
      * apply (ends_in_forallb _ _ _ octet_not_ows Hv).
    + rewrite !not_elem_of_app. split_and!; [eapply ows_plain; eauto|apply Hk; by left|eapply ows_plain; eauto].
  - by destruct (w1 ++ k ++ w2).
  - rewrite !not_elem_of_app, not_elem_of_cons, !not_elem_of_app.
    split_and!; try (eapply ows_plain; eauto; fail); [apply Hk; by right|done|].
    intros Hin. pose proof (forallb_elem _ _ _ Hv Hin) as Hx. by vm_compute in Hx.
Qed.
(** A list written with any optional whitespace and with values encoded the way
    W3C Baggage encodes them is read back pair by pair, whatever bytes the values
    have. *)
Theorem key_value_list_roundtrip entries var_name :
  forallb entry_ok entries = true →
  ParseKeyValueList (join "," (render_entry <$> entries)) var_name = inr (entry_kv <$> entries).
Proof.
  intros H. unfold ParseKeyValueList. rewrite segments_join.
  - generalize 1%nat. induction entries as [|e l IH]; intros n; [done|]. cbn in H. bool_hyps. cbn [fmap list_fmap ParseEntries].
    destruct (render_entry_ok var_name n e H) as (-> & _). cbn [and_then]. by rewrite IH.
  - apply Forall_fmap, Forall_forall. intros e He. pose proof (forallb_elem _ _ _ H He) as Hok.
    by apply (render_entry_ok var_name 0 e) in Hok as (_ & ? & ?).
Qed.
Definition demo_entries : list ListEntry :=
  [mkListEntry ($" ", [], $"  ", []) $"x-api-key" $"a, b=c %"; mkListEntry ([], $" ", [], $" ") $"tenant" []].
Lemma key_value_list_roundtrip_witness :
  join "," (render_entry <$> demo_entries) = $" x-api-key=  a%2C%20b=c%20%25,tenant = "
  ∧ ParseKeyValueList (join "," (render_entry <$> demo_entries)) $"OTEL_EXPORTER_OTLP_HEADERS" = inr (entry_kv <$> demo_entries).
Proof. split; [vm_compute; reflexivity|]. apply (key_value_list_roundtrip demo_entries). vm_compute. reflexivity. Defined.

(** ** The overlay as a whole *)

(** The variables. *)
Abbreviation n_endpoint := ($"OTEL_EXPORTER_OTLP_ENDPOINT").
Abbreviation n_protocol := ($"OTEL_EXPORTER_OTLP_PROTOCOL").
Abbreviation n_headers := ($"OTEL_EXPORTER_OTLP_HEADERS").
Abbreviation n_timeout := ($"OTEL_EXPORTER_OTLP_TIMEOUT").
Abbreviation n_compression := ($"OTEL_EXPORTER_OTLP_COMPRESSION").
Abbreviation n_certificate := ($"OTEL_EXPORTER_OTLP_CERTIFICATE").
Abbreviation n_service := ($"OTEL_SERVICE_NAME").
Abbreviation n_attributes := ($"OTEL_RESOURCE_ATTRIBUTES").
Abbreviation n_strict := ($"MICROTEL_RESOURCE_DETECTORS_STRICT").
Abbreviation n_interval := ($"OTEL_METRIC_EXPORT_INTERVAL").
Abbreviation n_temporality := ($"OTEL_EXPORTER_OTLP_METRICS_TEMPORALITY_PREFERENCE").
Abbreviation n_level := ($"MICROTEL_LOG_LEVEL").
Abbreviation n_enabled := ($"MICROTEL_CONCENTRATOR_ENABLED").
Abbreviation n_payload := ($"MICROTEL_CONCENTRATOR_MAX_PAYLOAD_BYTES").
Abbreviation n_leaves := ($"MICROTEL_CONCENTRATOR_MAX_LEAVES").
Abbreviation n_unknown := ($"MICROTEL_CONCENTRATOR_UNKNOWN_LEAF").
Abbreviation n_mode := ($"MICROTEL_CONCENTRATOR_DEFAULT_TIME_MODE").
Abbreviation n_leaf_attributes := ($"MICROTEL_CONCENTRATOR_RESOURCE_ATTRIBUTES").
Section overlay_spec.
Context (getenv : str → option str).
(** The value a variable gives a setting: the old one when unset or empty. *)
Definition overlaid {T} (name : str) (parse : str → option T) (old new : T) : Prop :=
  match GetEnv getenv name with [] => new = old | v => parse v = Some new end.
Definition to_option {T} (r : Result T) : option T := match r with inl _ => None | inr x => Some x end.
Definition pairs_of (name v : str) : option (list KeyValue) := to_option (ParseKeyValueList v name).
Definition temporality_of (v : str) : option TemporalityPreference :=
  if v =s $"cumulative" then Some PreferCumulative else if v =s $"delta" then Some PreferDelta
  else if v =s $"lowmemory" then Some PreferLowMemory else None.

(** One variable, one setting: what each function of the overlay does. *)
Definition assigns {T} (name : str) (parse : Config → str → option T) (get : Config → T) (set : T → Config → Config) (step : Config → Result Config) : Prop :=
  (∀ cfg cfg', step cfg = inr cfg' ↔ ∃ new, overlaid name (parse cfg) (get cfg) new ∧ cfg' = set new cfg)
  ∧ (∀ cfg e, step cfg = inl e → ce_kind e = EnvParseFailure ∧ ce_field e = name ∧ GetEnv getenv name ≠ []).
Lemma assigns_intro {T} name (parse : Config → str → option T) get set (k : Config → str → Result Config) :
  (∀ cfg, set (get cfg) cfg = cfg) →
  (∀ cfg v, match parse cfg v with Some x => k cfg v = inr (set x cfg) | None => ∃ e, k cfg v = inl e ∧ ce_kind e = EnvParseFailure ∧ ce_field e = name end) →
  assigns name parse get set (λ cfg, when_set getenv name cfg (k cfg)).
Proof.
  intros Hid Hk. unfold assigns, overlaid, when_set. split.
  - intros cfg cfg'. destruct (GetEnv getenv name) as [|c v]; [split|].
    + intros [= <-]. exists (get cfg). by rewrite Hid.
    + intros (new & -> & ->). by rewrite Hid.
    + specialize (Hk cfg (c :: v)). destruct (parse cfg (c :: v)) as [x|]; [rewrite Hk; naive_solver|].
      destruct Hk as (e & -> & _). naive_solver.
  - intros cfg e. destruct (GetEnv getenv name) as [|c v]; [done|]. specialize (Hk cfg (c :: v)).
    destruct (parse cfg (c :: v)) as [x|]; [by rewrite Hk|]. destruct Hk as (e' & -> & H1 & H2). intros [= <-]. done.
Qed.
Lemma ParseKeyValueList_error sv name e : ParseKeyValueList sv name = inl e → ce_kind e = EnvParseFailure ∧ ce_field e = name.
Proof.
  intros H. pose proof (ParseEntries_means name 1 (segments "," sv)) as Hm. unfold ParseKeyValueList in H. rewrite H in Hm.
  destruct Hm as (? & ? & ? & ? & _ & _ & Hf). by destruct Hf.
Qed.
Lemma ParseMs_cases sv name : (∃ ms, ParseMs sv name = inr ms) ∨ ParseMs sv name = inl (env_failure name (name ++ $": expected integer milliseconds")).
Proof. unfold ParseMs. destruct (from_chars_i64 sv) as [[ms [|]]|]; eauto. Qed.

Ltac by_ms v := match goal with |- context [ParseMs v ?name] => destruct (ParseMs_cases v name) as [[ms ->]| ->]; cbn; [done|by eexists] end.
Ltac by_pairs v := unfold pairs_of; match goal with |- context [ParseKeyValueList v ?name] => destruct (ParseKeyValueList v name) as [e|l] eqn:E; cbn; [exists e; split; [done|by eapply ParseKeyValueList_error]|done] end.
Ltac by_table := repeat split_if; cbn; done || by eexists.

Definition variables : list str :=
  [n_endpoint; n_protocol; n_headers; n_timeout; n_compression; n_certificate; n_service; n_attributes; n_strict; n_interval;
   n_temporality; n_level; n_enabled; n_payload; n_leaves; n_unknown; n_mode; n_leaf_attributes].

Definition ms_of (name v : str) : option Z := to_option (ParseMs v name).
Definition protocol_of (v : str) : option (Protocol * bool) := (λ p, (p, true)) <$> to_option (ParseProtocol v).
Definition get_per_export (c : Config) : Z := t_per_export (timeouts (options c)).
Definition set_per_export (ms : Z) (c : Config) : Config :=
  let t := timeouts (options c) in set_timeouts (mkTimeouts (t_connect t) (t_tls_handshake t) ms (t_retry_budget t) (t_flush t) (t_shutdown t)) c.
Definition get_ca_bundle (c : Config) : str := to_ca_bundle (tls (options c)).
Definition set_ca_bundle (v : str) (c : Config) : Config :=
  let t := tls (options c) in set_tls (mkTlsOptions (to_insecure t) v (to_client_cert t) (to_client_key t) (to_sni_override t)) c.

Lemma a_endpoint : assigns n_endpoint (λ _, Some) (λ c, endpoint_url (exporter c)) set_endpoint_url
  (λ cfg, when_set getenv n_endpoint cfg (λ v, inr (set_endpoint_url v cfg))).
Proof. apply (assigns_intro _ _ _ set_endpoint_url (λ cfg v, inr (set_endpoint_url v cfg))); [|done]. intros c. cfg_eta c. Qed.
Lemma a_protocol : assigns n_protocol (λ _, protocol_of) (λ c, (protocol (exporter c), protocol_explicit (exporter c))) (λ p, set_protocol (fst p) (snd p)) (OverlayProtocol getenv).
Proof.
  apply (assigns_intro _ _ _ (λ p, set_protocol (fst p) (snd p))); [intros c; cfg_eta c|]. intros cfg v. unfold protocol_of, ParseProtocol. by_table.
Qed.
Lemma a_headers : assigns n_headers (λ c v, MergeHeaders (headers (exporter c)) <$> pairs_of n_headers v) (λ c, headers (exporter c)) set_headers (OverlayHeaders getenv).
Proof. apply (assigns_intro _ _ _ set_headers); [intros c; cfg_eta c|]. intros cfg v. by_pairs v. Qed.
Lemma a_timeout : assigns n_timeout (λ _, ms_of n_timeout) get_per_export set_per_export (OverlayTimeout getenv).
Proof. apply (assigns_intro _ _ _ set_per_export); [intros c; cfg_eta c|]. intros cfg v. unfold ms_of. by_ms v. Qed.
Lemma a_compression : assigns n_compression (λ _ v, Some (v =s $"gzip")) (λ c, compression_gzip (exporter c)) set_compression
  (λ cfg, when_set getenv n_compression cfg (λ v, inr (set_compression (v =s $"gzip") cfg))).
Proof. apply (assigns_intro _ _ _ set_compression (λ cfg v, inr (set_compression (v =s $"gzip") cfg))); [|done]. intros c. cfg_eta c. Qed.
Lemma a_certificate : assigns n_certificate (λ _, Some) get_ca_bundle set_ca_bundle
  (λ cfg, when_set getenv n_certificate cfg (λ v, inr (set_ca_bundle v cfg))).
Proof. apply (assigns_intro _ _ _ set_ca_bundle (λ cfg v, inr (set_ca_bundle v cfg))); [|done]. intros c. cfg_eta c. Qed.
Lemma a_service : assigns n_service (λ _, Some) (λ c, service_name (service c)) set_service_name
  (λ cfg, when_set getenv n_service cfg (λ v, inr (set_service_name v cfg))).
Proof. apply (assigns_intro _ _ _ set_service_name (λ cfg v, inr (set_service_name v cfg))); [|done]. intros c. cfg_eta c. Qed.
Lemma a_attributes : assigns n_attributes (λ c v, MergeResourceAttrs (resource_attrs (service c)) <$> pairs_of n_attributes v) (λ c, resource_attrs (service c)) set_resource_attrs (OverlayResourceAttrs getenv).
Proof. apply (assigns_intro _ _ _ set_resource_attrs); [intros c; cfg_eta c|]. intros cfg v. by_pairs v. Qed.
Lemma a_strict : assigns n_strict (λ _, ParseBool) (λ c, resource_detectors_strict (service c)) set_detectors_strict (OverlayResourceDetectorsStrict getenv).
Proof. apply (assigns_intro _ _ _ set_detectors_strict); [intros c; cfg_eta c|]. intros cfg v. unfold ParseBool. by_table. Qed.
Lemma a_interval : assigns n_interval (λ _, ms_of n_interval) metric_interval set_metric_interval (OverlayMetricInterval getenv).
Proof. apply (assigns_intro _ _ _ set_metric_interval); [intros c; cfg_eta c|]. intros cfg v. unfold ms_of. by_ms v. Qed.
Lemma a_temporality : assigns n_temporality (λ _, temporality_of) metric_temporality set_metric_temporality (OverlayMetricTemporality getenv).
Proof. apply (assigns_intro _ _ _ set_metric_temporality); [intros c; cfg_eta c|]. intros cfg v. unfold temporality_of. by_table. Qed.
Lemma a_level : assigns n_level (λ _, ParseLogLevel) log_level set_log_level (OverlayLogLevel getenv).
Proof. apply (assigns_intro _ _ _ set_log_level); [intros c; cfg_eta c|]. intros cfg v. cbn. destruct (ParseLogLevel v); [done|by eexists]. Qed.
Lemma a_parsed {T} name (parse : str → option T) expected get (set : T → LeafReceiverOptions → LeafReceiverOptions) :
  (∀ o, set (get o) o = o) → assigns name (λ _, parse) (λ c, get (concentrator c)) (λ x, on_concentrator (set x)) (OverlayParsed getenv name parse expected set).
Proof.
  intros Hid. apply (assigns_intro _ _ _ (λ x, on_concentrator (set x))).
  - intros c. unfold on_concentrator. rewrite Hid. cfg_eta c.
  - intros cfg v. cbn. destruct (parse v); [done|by eexists].
Qed.
Definition get_leaf_defaults (c : Config) : list KeyValue := LeafOptions.leaf_defaults_resource (concentrator c).
Definition set_leaf_defaults (l : list KeyValue) : Config → Config := on_concentrator (λ o, set_tables l (LeafOptions.leaves o) o).
Lemma a_leaf_attributes : assigns n_leaf_attributes (λ c v, MergeResourceAttrs (get_leaf_defaults c) <$> pairs_of n_leaf_attributes v) get_leaf_defaults set_leaf_defaults
  (λ cfg, when_set getenv n_leaf_attributes cfg (λ v,
    let? attrs := ParseKeyValueList v n_leaf_attributes in
    inr (on_concentrator (λ o, set_tables (MergeResourceAttrs (LeafOptions.leaf_defaults_resource o) attrs) (LeafOptions.leaves o) o) cfg))).
Proof. eapply (assigns_intro _ _ _ set_leaf_defaults); [intros c; cfg_eta c|]. intros cfg v. by_pairs v. Qed.

(** What no variable sets. *)
Definition kept (c : Config) :=
  let o := concentrator c in let t := timeouts (options c) in let m := tls (options c) in
  (endpoint (exporter c), service_version (service c), service_name_defaulted (service c),
   (to_insecure m, to_client_cert m, to_client_key m, to_sni_override m), batch (options c),
   (t_connect t, t_tls_handshake t, t_retry_budget t, t_flush t, t_shutdown t), span_limits (options c), memory_limits (options c),
   unknown_key_mode c, unknown_keys_warned c,
   (LeafOptions.max_spans_per_payload o, LeafOptions.max_leaf_resource_bytes o, LeafOptions.leaf_idle_timeout o, LeafOptions.leaf_id_attribute o,
    LeafOptions.lo_max_sync_age o, LeafOptions.lo_max_clock_skew o, LeafOptions.boot_anchor_window o, LeafOptions.leaves o, LeafOptions.max_node_resource_bytes o)).
(** A setting keeps its old value when its variable is unset or empty; otherwise the
    value is what the variable's text means.  Nothing else changes. *)
Record overlay_of (cfg cfg' : Config) : Prop := {
  ov_endpoint : overlaid n_endpoint Some (endpoint_url (exporter cfg)) (endpoint_url (exporter cfg'));
  ov_protocol : overlaid n_protocol protocol_of (protocol (exporter cfg), protocol_explicit (exporter cfg)) (protocol (exporter cfg'), protocol_explicit (exporter cfg'));
  ov_headers : overlaid n_headers (λ v, MergeHeaders (headers (exporter cfg)) <$> pairs_of n_headers v) (headers (exporter cfg)) (headers (exporter cfg'));
  ov_timeout : overlaid n_timeout (ms_of n_timeout) (get_per_export cfg) (get_per_export cfg');
  ov_compression : overlaid n_compression (λ v, Some (v =s $"gzip")) (compression_gzip (exporter cfg)) (compression_gzip (exporter cfg'));
  ov_certificate : overlaid n_certificate Some (get_ca_bundle cfg) (get_ca_bundle cfg');
  ov_service : overlaid n_service Some (service_name (service cfg)) (service_name (service cfg'));
  ov_attributes : overlaid n_attributes (λ v, MergeResourceAttrs (resource_attrs (service cfg)) <$> pairs_of n_attributes v) (resource_attrs (service cfg)) (resource_attrs (service cfg'));
  ov_strict : overlaid n_strict ParseBool (resource_detectors_strict (service cfg)) (resource_detectors_strict (service cfg'));
  ov_interval : overlaid n_interval (ms_of n_interval) (metric_interval cfg) (metric_interval cfg');
  ov_temporality : overlaid n_temporality temporality_of (metric_temporality cfg) (metric_temporality cfg');
  ov_level : overlaid n_level ParseLogLevel (log_level cfg) (log_level cfg');
  ov_enabled : overlaid n_enabled ParseBool (LeafOptions.enabled (concentrator cfg)) (LeafOptions.enabled (concentrator cfg'));
  ov_payload : overlaid n_payload ParseByteSize (LeafOptions.max_payload_bytes (concentrator cfg)) (LeafOptions.max_payload_bytes (concentrator cfg'));
  ov_leaves : overlaid n_leaves ParseCount (LeafOptions.max_leaves (concentrator cfg)) (LeafOptions.max_leaves (concentrator cfg'));
  ov_unknown : overlaid n_unknown ParseUnknownLeafPolicy (LeafOptions.unknown_leaf (concentrator cfg)) (LeafOptions.unknown_leaf (concentrator cfg'));
  ov_mode : overlaid n_mode ParseDefaultTimeMode (LeafOptions.default_time_mode (concentrator cfg)) (LeafOptions.default_time_mode (concentrator cfg'));
  ov_leaf_attributes : overlaid n_leaf_attributes (λ v, MergeResourceAttrs (get_leaf_defaults cfg) <$> pairs_of n_leaf_attributes v) (get_leaf_defaults cfg) (get_leaf_defaults cfg');
  ov_kept : kept cfg' = kept cfg
}.

Lemma a_enabled expected : assigns n_enabled (λ _, ParseBool) (λ c, LeafOptions.enabled (concentrator c)) (λ x, on_concentrator (set_enabled x)) (OverlayParsed getenv n_enabled ParseBool expected set_enabled).
Proof. apply a_parsed. by intros []. Qed.
Lemma a_payload expected : assigns n_payload (λ _, ParseByteSize) (λ c, LeafOptions.max_payload_bytes (concentrator c)) (λ x, on_concentrator (set_max_payload x)) (OverlayParsed getenv n_payload ParseByteSize expected set_max_payload).
Proof. apply a_parsed. by intros []. Qed.
Lemma a_leaves expected : assigns n_leaves (λ _, ParseCount) (λ c, LeafOptions.max_leaves (concentrator c)) (λ x, on_concentrator (set_max_leaves x)) (OverlayParsed getenv n_leaves ParseCount expected set_max_leaves).
Proof. apply a_parsed. by intros []. Qed.
Lemma a_unknown expected : assigns n_unknown (λ _, ParseUnknownLeafPolicy) (λ c, LeafOptions.unknown_leaf (concentrator c)) (λ x, on_concentrator (set_unknown_leaf x)) (OverlayParsed getenv n_unknown ParseUnknownLeafPolicy expected set_unknown_leaf).
Proof. apply a_parsed. by intros []. Qed.
Lemma a_mode expected : assigns n_mode (λ _, ParseDefaultTimeMode) (λ c, LeafOptions.default_time_mode (concentrator c)) (λ x, on_concentrator (set_default_time_mode x)) (OverlayParsed getenv n_mode ParseDefaultTimeMode expected set_default_time_mode).
Proof. apply a_parsed. by intros []. Qed.
Ltac read a :=
  match goal with H : _ = inr _ |- _ =>
    let H' := fresh in pose proof (proj1 (proj1 a _ _) H) as H'; clear H; destruct H' as (? & ? & ->) end.
Ltac read_parsed a :=
  match goal with H : _ = inr _ |- _ =>
    let H' := fresh in pose proof (proj1 (proj1 (a _) _ _) H) as H'; clear H; destruct H' as (? & ? & ->) end.
Lemma OverlayEnv_inr cfg cfg' : OverlayEnv getenv cfg = inr cfg' → overlay_of cfg cfg'.
Proof.
  unfold OverlayEnv. intros H. chain. unfold OverlayExporterEnv, OverlayResourceAndMetricEnv, OverlayConcentratorEnv in *. chain.
  read a_endpoint.
  read a_protocol.
  read a_headers.
  read a_timeout.
  read a_compression.
  read a_certificate.
  read a_service.
  read a_attributes.
  read a_strict.
  read a_interval.
  read a_temporality.
  read a_level.
  read_parsed a_enabled.
  read_parsed a_payload.
  read_parsed a_leaves.
  read_parsed a_unknown.
  read_parsed a_mode.
  read a_leaf_attributes.
  match goal with p : (Protocol * bool)%type |- _ => destruct p end. split; (assumption || reflexivity).
Qed.
Lemma overlay_rebuild cfg cfg' : kept cfg' = kept cfg →
  cfg' = set_leaf_defaults (get_leaf_defaults cfg') (on_concentrator (set_default_time_mode (LeafOptions.default_time_mode (concentrator cfg')))
    (on_concentrator (set_unknown_leaf (LeafOptions.unknown_leaf (concentrator cfg'))) (on_concentrator (set_max_leaves (LeafOptions.max_leaves (concentrator cfg')))
    (on_concentrator (set_max_payload (LeafOptions.max_payload_bytes (concentrator cfg'))) (on_concentrator (set_enabled (LeafOptions.enabled (concentrator cfg')))
    (set_log_level (log_level cfg') (set_metric_temporality (metric_temporality cfg') (set_metric_interval (metric_interval cfg')
    (set_detectors_strict (resource_detectors_strict (service cfg')) (set_resource_attrs (resource_attrs (service cfg')) (set_service_name (service_name (service cfg'))
    (set_ca_bundle (get_ca_bundle cfg') (set_compression (compression_gzip (exporter cfg')) (set_per_export (get_per_export cfg')
    (set_headers (headers (exporter cfg')) (set_protocol (protocol (exporter cfg')) (protocol_explicit (exporter cfg')) (set_endpoint_url (endpoint_url (exporter cfg')) cfg))))))))))))))))).
Proof.
  destruct cfg as [[] [] [[] ? [] ? ?] ? ? ? ? ? []], cfg' as [[] [] [[] ? [] ? ?] ? ? ? ? ? []]. unfold kept. cbn. intros H. simplify_eq. reflexivity.
Qed.
(** Taking a step whose setting is known. *)
Lemma take_step {T} name (parse : Config → str → option T) get set step cfg new (k : Config → Result Config) cfg' :
  assigns name parse get set step → overlaid name (parse cfg) (get cfg) new → k (set new cfg) = inr cfg' → and_then (step cfg) k = inr cfg'.
Proof. intros [Ha _] Ho Hk. apply and_then_inr. exists (set new cfg). split; [|done]. apply Ha. by exists new. Qed.
Lemma and_then_assoc {A B C} (r : Result A) (k : A → Result B) (h : B → Result C) : and_then (and_then r k) h = and_then r (λ x, and_then (k x) h).
Proof. by destruct r. Qed.
Lemma and_then_ret {A} (r : Result A) : @and_then A A r inr = r.
Proof. by destruct r. Qed.
Ltac take a new := cbv beta; rewrite ?and_then_assoc; eapply (take_step _ _ _ _ _ _ new _ _ a); [assumption|].
Lemma OverlayEnv_of cfg cfg' : overlay_of cfg cfg' → OverlayEnv getenv cfg = inr cfg'.
Proof.
  intros []. rewrite <- (and_then_ret (OverlayEnv getenv cfg)). unfold OverlayEnv, OverlayExporterEnv, OverlayResourceAndMetricEnv, OverlayConcentratorEnv.
  take a_endpoint (endpoint_url (exporter cfg')).
  take a_protocol (protocol (exporter cfg'), protocol_explicit (exporter cfg')).
  take a_headers (headers (exporter cfg')).
  take a_timeout (get_per_export cfg').
  take a_compression (compression_gzip (exporter cfg')).
  take a_certificate (get_ca_bundle cfg').
  take a_service (service_name (service cfg')).
  take a_attributes (resource_attrs (service cfg')).
  take a_strict (resource_detectors_strict (service cfg')).
  take a_interval (metric_interval cfg').
  take a_temporality (metric_temporality cfg').
  take a_level (log_level cfg').
  take (a_enabled (quoted $"true" ++ $"/" ++ quoted $"1" ++ $" or " ++ quoted $"false" ++ $"/" ++ quoted $"0")) (LeafOptions.enabled (concentrator cfg')).
  take (a_payload $"a byte count, optionally with a B, KiB or MiB suffix") (LeafOptions.max_payload_bytes (concentrator cfg')).
  take (a_leaves $"a decimal integer") (LeafOptions.max_leaves (concentrator cfg')).
  take (a_unknown (quoted $"accept" ++ $" or " ++ quoted $"reject")) (LeafOptions.unknown_leaf (concentrator cfg')).
  take (a_mode time_mode_names) (LeafOptions.default_time_mode (concentrator cfg')).
  take a_leaf_attributes (get_leaf_defaults cfg').
  symmetry. f_equal. by apply overlay_rebuild.
Qed.
(** A refusal names a variable that is set. *)
Definition blames (r : Result Config) : Prop :=
  ∀ e, r = inl e → ce_kind e = EnvParseFailure ∧ ce_field e ∈ variables ∧ GetEnv getenv (ce_field e) ≠ [].
Lemma blames_step {T} name (parse : Config → str → option T) get set step cfg :
  assigns name parse get set step → name ∈ variables → blames (step cfg).
Proof. intros [_ Ha] Hin e He. destruct (Ha _ _ He) as (H1 & <- & H3). done. Qed.
Lemma blames_then r (k : Config → Result Config) : blames r → (∀ c, blames (k c)) → blames (and_then r k).
Proof. intros Hr Hk e [He|(x & _ & He)]%and_then_inl; [by apply Hr|by apply (Hk x)]. Qed.
Lemma OverlayEnv_blames cfg : blames (OverlayEnv getenv cfg).
Proof.
  assert (∀ n, bool_decide (n ∈ variables) = true → n ∈ variables) as Hin by (intros n H; by apply bool_decide_eq_true in H).
  unfold OverlayEnv, OverlayExporterEnv, OverlayResourceAndMetricEnv, OverlayConcentratorEnv.
  repeat first
    [ apply blames_then; [|intros ?]
    | apply (blames_step _ _ _ _ _ _ a_endpoint); apply Hin; vm_compute; reflexivity
    | apply (blames_step _ _ _ _ _ _ a_protocol); apply Hin; vm_compute; reflexivity
    | apply (blames_step _ _ _ _ _ _ a_headers); apply Hin; vm_compute; reflexivity
    | apply (blames_step _ _ _ _ _ _ a_timeout); apply Hin; vm_compute; reflexivity
    | apply (blames_step _ _ _ _ _ _ a_compression); apply Hin; vm_compute; reflexivity
    | apply (blames_step _ _ _ _ _ _ a_certificate); apply Hin; vm_compute; reflexivity
    | apply (blames_step _ _ _ _ _ _ a_service); apply Hin; vm_compute; reflexivity
    | apply (blames_step _ _ _ _ _ _ a_attributes); apply Hin; vm_compute; reflexivity
    | apply (blames_step _ _ _ _ _ _ a_strict); apply Hin; vm_compute; reflexivity
    | apply (blames_step _ _ _ _ _ _ a_interval); apply Hin; vm_compute; reflexivity
    | apply (blames_step _ _ _ _ _ _ a_temporality); apply Hin; vm_compute; reflexivity
    | apply (blames_step _ _ _ _ _ _ a_level); apply Hin; vm_compute; reflexivity
    | apply (blames_step _ _ _ _ _ _ (a_enabled _)); apply Hin; vm_compute; reflexivity
    | apply (blames_step _ _ _ _ _ _ (a_payload _)); apply Hin; vm_compute; reflexivity
    | apply (blames_step _ _ _ _ _ _ (a_leaves _)); apply Hin; vm_compute; reflexivity
    | apply (blames_step _ _ _ _ _ _ (a_unknown _)); apply Hin; vm_compute; reflexivity
    | apply (blames_step _ _ _ _ _ _ (a_mode _)); apply Hin; vm_compute; reflexivity
    | apply (blames_step _ _ _ _ _ _ a_leaf_attributes); apply Hin; vm_compute; reflexivity
    ].
Qed.
End overlay_spec.

(** The environment overlay either succeeds, and then each of the eighteen
    variables that is set and not empty gives its setting the value its text means
    (headers and resource attributes merged over the old tables), each other
    setting keeps its value and nothing else changes; or it fails, exactly when the
    text of some set variable means nothing, with an EnvParseFailure naming a set
    variable. *)
Theorem env_overlay_exact getenv cfg :
  match OverlayEnv getenv cfg with
  | inr cfg' => ∀ c, overlay_of getenv cfg c ↔ c = cfg'
  | inl e => (∀ c, ¬ overlay_of getenv cfg c)
             ∧ ce_kind e = EnvParseFailure ∧ ce_field e ∈ variables ∧ GetEnv getenv (ce_field e) ≠ []
  end.
Proof.
  destruct (OverlayEnv getenv cfg) as [e|cfg'] eqn:E.
  - split; [|by apply (OverlayEnv_blames getenv cfg)]. intros c H%OverlayEnv_of. congruence.
  - intros c. split; [intros H%OverlayEnv_of; congruence|intros ->; by apply OverlayEnv_inr].
Qed.
Definition demo_env (name : str) : option str :=
  if name =s $"OTEL_EXPORTER_OTLP_PROTOCOL" then Some $"grpc"
  else if name =s $"OTEL_EXPORTER_OTLP_TIMEOUT" then Some $"-1"
  else if name =s $"OTEL_EXPORTER_OTLP_HEADERS" then Some $"a=1,A=%32"
  else if name =s $"MICROTEL_CONCENTRATOR_MAX_PAYLOAD_BYTES" then Some $"1MiB" else None.
(** Settings read from a small environment; a negative timeout is accepted. *)
Example overlay_demo :
  (λ c, (protocol (exporter c), headers (exporter c), t_per_export (timeouts (options c)), LeafOptions.max_payload_bytes (concentrator c)))
    <$> to_option (OverlayEnv demo_env Config_default)
  = Some (Grpc, [mkKeyValue $"A" (AvString $"2")], -1, 1048576).
Proof. vm_compute. reflexivity. Qed.
