(* ===== verification/ConfigValidator.v ===== *)
(** * Validation of the configuration

    Model of [src/common/config/config_validator.cpp].  The file system is the
    function [is_file] ([std::filesystem::is_regular_file] without an error) and the
    macro [MICROTEL_FORBID_INSECURE_TLS] the flag [forbid_insecure].  [Validate]
    returns the configuration it leaves when it accepts; on a refusal the caller
    discards the half-changed one.

    The theorems: the language of endpoint URLs and what they parse to; [Validate]
    accepts exactly the configurations [valid_config] describes; what it accepts as
    request headers HTTP/2 can carry. *)
From S2P Require Import Prelude Context Data AttributeSet SpanLimits LeafTime RetryEngine ProtoReader Wire Http2Connect Config.
From S2P Require LogProcessor.

(** ** URLs *)

(** [s.find(pat)]: what is before the first occurrence and after it. *)
Fixpoint split_str (pat s : str) : option (str * str) :=
  if starts_with s pat then Some ([], drop (length pat) s)
  else match s with
       | [] => None
       | c :: s' => (λ p, (c :: fst p, snd p)) <$> split_str pat s'
       end.
Definition kSchemeSep : str := $"://".
Definition ExtractScheme (url : str) : str := match split_str kSchemeSep url with Some (scheme, _) => scheme | None => [] end.
(** Only called when the separator is there. *)
Definition StripScheme (url : str) : str := match split_str kSchemeSep url with Some (_, rest) => rest | None => url end.
Record AuthorityPath := mkAuthorityPath { ap_host : str; ap_port_str : str; ap_path : str }.
Definition SplitAuthorityPath (authority_and_path : str) : AuthorityPath :=
  let '(authority, path) := match find_char "/" authority_and_path with
                            | None => (authority_and_path, [])
                            | Some slash => (take slash authority_and_path, drop slash authority_and_path)
                            end in
  match rsplit ":" authority with
  | None => mkAuthorityPath authority [] path
  | Some (host, port_str) => mkAuthorityPath host port_str path
  end.
Definition malformed (message : str) : ConfigError := mkConfigError EndpointMalformed $"exporter.endpoint" message.
Definition kDefaultPortGrpc : Z := 4317.
Definition kDefaultPortHttp : Z := 4318.
Definition kPortMax : Z := 65535.
Definition default_port (p : Protocol) : Z := match p with Grpc => kDefaultPortGrpc | Http => kDefaultPortHttp end.
Definition ParsePort (port_str : str) (p : Protocol) : Result Z :=
  match port_str with
  | [] => inr (default_port p)
  | _ =>
      let bad := malformed $"invalid port in endpoint URL" in
      match from_chars_u32 port_str with
      | Some (parsed, []) => if (kPortMax <? parsed) || (parsed =? 0) then inl bad else inr parsed
      | _ => inl bad
      end
  end.
(** [https] and [grpcs] become [https], [http] and [grpc] become [http]. *)
Definition ResolveScheme (scheme : str) : option str :=
  if (scheme =s $"https") || (scheme =s $"grpcs") then Some $"https"
  else if (scheme =s $"http") || (scheme =s $"grpc") then Some $"http" else None.
Definition ParseEndpointUrl (url : str) (p : Protocol) : Result ParsedEndpoint :=
  match url with
  | [] => inl (malformed $"endpoint URL is empty")
  | _ =>
      match ExtractScheme url with
      | [] => inl (malformed $"endpoint URL missing scheme (expected https:// or http://)")
      | scheme =>
          match ResolveScheme scheme with
          | None => inl (malformed ($"unsupported scheme: " ++ scheme))
          | Some resolved =>
              let ap := SplitAuthorityPath (StripScheme url) in
              match ap_host ap with
              | [] => inl (malformed $"endpoint URL has empty host")
              | host =>
                  let? port := ParsePort (ap_port_str ap) p in
                  inr (mkParsedEndpoint resolved host port (if ap_path ap =s $"/" then [] else ap_path ap))
              end
          end
      end
  end.
Definition ResolveProtocol (cfg : Config) : Result Protocol :=
  let scheme := ExtractScheme (endpoint_url (exporter cfg)) in
  if negb (scheme =s $"grpc") && negb (scheme =s $"grpcs") then inr (protocol (exporter cfg))
  else if protocol_explicit (exporter cfg) && negb (bool_decide (protocol (exporter cfg) = Grpc))
  then inl (mkConfigError ProtocolMismatch $"exporter.protocol"
         ($"endpoint scheme " ++ [chr 34] ++ scheme ++ $"://" ++ [chr 34] ++ $" selects OTLP/gRPC but protocol is set to "
          ++ [chr 34] ++ $"http" ++ [chr 34] ++ $"; use an http:// or https:// endpoint, or drop the explicit protocol"))
  else inr Grpc.

(** ** TLS material *)

Section files.
Context (is_file : str → bool) (forbid_insecure : bool).
Definition IsReadable (p : str) : bool := match p with [] => true | _ => is_file p end.
Definition CheckInsecureAllowed (cfg : Config) : Result unit :=
  if forbid_insecure && to_insecure (tls (options cfg))
  then inl (mkConfigError InsecureDisallowed $"tls.insecure"
         $"tls.insecure = true is refused: this build was compiled with MICROTEL_FORBID_INSECURE_TLS=ON")
  else inr tt.
Definition is_set (s : str) : bool := match s with [] => false | _ => true end.
Definition ValidateTlsMaterial (cfg : Config) : Result unit :=
  let t := tls (options cfg) in
  let has_cert := is_set (to_client_cert t) in
  let has_key := is_set (to_client_key t) in
  if negb (IsReadable (to_ca_bundle t))
  then inl (mkConfigError TlsMaterialUnreadable $"tls.ca_bundle" ($"CA bundle not readable: " ++ to_ca_bundle t))
  else if has_cert && negb has_key
  then inl (mkConfigError InvalidValue $"tls.client_key" $"client_cert is set but client_key is missing")
  else if has_key && negb has_cert
  then inl (mkConfigError InvalidValue $"tls.client_cert" $"client_key is set but client_cert is missing")
  else if has_cert && negb (IsReadable (to_client_cert t))
  then inl (mkConfigError TlsMaterialUnreadable $"tls.client_cert" ($"client cert not readable: " ++ to_client_cert t))
  else if has_key && negb (IsReadable (to_client_key t))
  then inl (mkConfigError TlsMaterialUnreadable $"tls.client_key" ($"client key not readable: " ++ to_client_key t))
  else inr tt.
End files.

(** ** Static request headers *)

Definition kConnectionSpecificHeaders : list str := [$"connection"; $"keep-alive"; $"proxy-connection"; $"transfer-encoding"; $"upgrade"; $"te"].
Definition kGrpcCodecHeaders : list str := [$"content-type"; $"user-agent"; $"grpc-encoding"; $"grpc-accept-encoding"].
Definition kHttpCodecHeaders : list str := [$"content-type"; $"content-length"; $"content-encoding"; $"accept-encoding"].
Definition kTokenPunctuation : str := $"!#$%&'*+-.^_`|~".
Definition is_alnum (c : char) : bool := in_range "0" "9" c || in_range "a" "z" c || in_range "A" "Z" c.
Definition IsTokenChar (c : char) : bool := is_alnum c || bool_decide (c ∈ kTokenPunctuation).
Definition IsToken (n : str) : bool := is_set n && forallb IsTokenChar n.
(** The same comparison as in [table_merge.cpp]. *)
Definition EqualsIgnoreCase (a b : str) : bool := HeaderNameEquals a b.
Definition IsOneOf (n : str) (set : list str) : bool := existsb (EqualsIgnoreCase n) set.
Definition set_by_microtel : str := $"is set by microtel for this protocol".
Definition ProtocolHeaderFault (n : str) (p : Protocol) : option str :=
  match p with
  | Http => if IsOneOf n kHttpCodecHeaders then Some set_by_microtel else None
  | Grpc =>
      if IsOneOf n kGrpcCodecHeaders then Some set_by_microtel
      else if EqualsIgnoreCase n $"content-length" then Some $"cannot be fixed on gRPC, where every request body has its own length"
      else None
  end.
Definition HeaderNameFault (n : str) (p : Protocol) : option str :=
  if negb (IsToken n) then Some $"is not a valid header name (RFC 9110 token); pseudo-headers are set by microtel"
  else if IsOneOf n kConnectionSpecificHeaders then Some $"is connection-specific, which HTTP/2 forbids in a request (RFC 9113 §8.2.2)"
  else if EqualsIgnoreCase n $"host" then Some $"is set by microtel from the endpoint, as :authority"
  else ProtocolHeaderFault n p.
Definition HeaderError (n reason : str) : ConfigError :=
  mkConfigError InvalidValue ($"exporter.headers." ++ n) ($"header " ++ [chr 34] ++ n ++ [chr 34] ++ $" " ++ reason).
Definition kForbiddenValueChars : str := [chr 0; chr 13; chr 10].
Definition is_edge_whitespace (c : char) : bool := bool_decide (c ∈ [" "%char; chr 9]).
Definition FieldValueFault (value : str) : option str :=
  if existsb (λ c, bool_decide (c ∈ kForbiddenValueChars)) value
  then Some $"value contains CR, LF or NUL, which HTTP/2 forbids (RFC 9113 §8.2.1)"
  else if starts_in is_edge_whitespace value || ends_in is_edge_whitespace value
  then Some $"value starts or ends with a space or tab, which HTTP/2 forbids (RFC 9113 §8.2.1)"
  else None.
Definition HeaderValueFault (v : AttributeValue) : option str :=
  match v with AvString s => FieldValueFault s | _ => None end.
Fixpoint check_headers (l : list KeyValue) (p : Protocol) : Result unit :=
  match l with
  | [] => inr tt
  | header :: rest =>
      match HeaderNameFault (kv_key header) p with
      | Some fault => inl (HeaderError (kv_key header) fault)
      | None =>
          match HeaderValueFault (kv_value header) with
          | Some fault => inl (HeaderError (kv_key header) fault)
          | None => check_headers rest p
          end
      end
  end.
Definition ValidateHeaders (cfg : Config) : Result unit := check_headers (headers (exporter cfg)) (protocol (exporter cfg)).
Fixpoint CheckNoStaticAuthorization (l : list KeyValue) : Result unit :=
  match l with
  | [] => inr tt
  | header :: rest =>
      if EqualsIgnoreCase (kv_key header) $"authorization"
      then inl (HeaderError (kv_key header) $"is set by the WithAuthProvider callback; set one or the other")
      else CheckNoStaticAuthorization rest
  end.

(** ** [Validate] *)

Section validate.
Context (is_file : str → bool) (forbid_insecure : bool).
Definition kUnknownService : str := $"unknown_service".
Definition Validate (cfg : Config) : Result Config :=
  let? p := ResolveProtocol cfg in
  let cfg := set_protocol p (protocol_explicit (exporter cfg)) cfg in
  let? ep := ParseEndpointUrl (endpoint_url (exporter cfg)) p in
  if bool_decide (p = Grpc) && is_set (pe_path ep)
  then inl (mkConfigError ProtocolMismatch $"exporter.endpoint" $"gRPC endpoint URLs must not include a path")
  else
    let cfg := set_endpoint ep cfg in
    let? _ := CheckInsecureAllowed forbid_insecure cfg in
    let? _ := ValidateTlsMaterial is_file cfg in
    let? _ := ValidateHeaders cfg in
    match LogProcessor.CheckBatchOptions (batch (options cfg)) with
    | Some (field, message) => inl (mkConfigError InvalidValue field message)
    | None =>
        let defaulted := negb (is_set (service_name (service cfg))) in
        let cfg := set_name_defaulted defaulted cfg in
        inr (if defaulted then set_service_name kUnknownService cfg else cfg)
    end.
End validate.

(** ** The language of endpoint URLs *)

(** [path] is empty or starts with a slash; [authority] is [host] or [host:port]. *)
Definition path_shape (path : str) : Prop := path = [] ∨ ∃ p, path = "/"%char :: p.
Definition authority_parts (authority host port : str) : Prop :=
  (authority = host ∧ port = [] ∧ ":"%char ∉ host) ∨ (authority = host ++ ":"%char :: port ∧ ":"%char ∉ port).
Definition port_means (p : Protocol) (text : str) (port : Z) : Prop :=
  (text = [] ∧ port = default_port p) ∨ (text ≠ [] ∧ forallb is_digit text = true ∧ port = digits_value text ∧ 1 <= port <= 65535).
(** What a URL means under a protocol. *)
Definition url_means (p : Protocol) (url : str) (ep : ParsedEndpoint) : Prop :=
  ∃ scheme authority path port_text,
    url = scheme ++ kSchemeSep ++ authority ++ path ∧ ResolveScheme scheme = Some (pe_scheme ep)
    ∧ "/"%char ∉ authority ∧ path_shape path ∧ authority_parts authority (pe_host ep) port_text ∧ pe_host ep ≠ []
    ∧ port_means p port_text (pe_port ep) ∧ pe_path ep = (if path =s $"/" then [] else path).

Lemma starts_with_app s p : starts_with s p = true → s = p ++ drop (length p) s.
Proof. intros [k ->]%starts_with_prefix. by rewrite drop_app_length. Qed.
Lemma split_str_Some pat s a b : split_str pat s = Some (a, b) → s = a ++ pat ++ b.
Proof.
  revert a b. induction s as [|c s IH]; intros a b; cbn [split_str].
  - destruct (starts_with [] pat) eqn:E; [|done]. intros [= <- <-]. by apply starts_with_app in E.
  - destruct (starts_with (c :: s) pat) eqn:E; [intros [= <- <-]; by apply starts_with_app in E|].
    intros H. apply fmap_Some in H as ([a' b'] & H & [= -> ->]). cbn. f_equal. by apply IH.
Qed.
Lemma ResolveScheme_Some scheme r : ResolveScheme scheme = Some r →
  (scheme = $"https" ∨ scheme = $"grpcs") ∧ r = $"https" ∨ (scheme = $"http" ∨ scheme = $"grpc") ∧ r = $"http".
Proof.
  unfold ResolveScheme. repeat split_if; intros H; simplify_eq; repeat match goal with H : _ || _ = true |- _ => apply orb_true_iff in H end;
    rewrite !seqb_true in *; tauto.
Qed.
Lemma split_known scheme r rest : ResolveScheme scheme = Some r → split_str kSchemeSep (scheme ++ kSchemeSep ++ rest) = Some (scheme, rest).
Proof. intros [[[-> | ->] _]|[[-> | ->] _]]%ResolveScheme_Some; cbn; destruct rest; reflexivity. Qed.
Lemma find_char_path authority path : "/"%char ∉ authority → path_shape path →
  match find_char "/" (authority ++ path) with
  | None => (authority ++ path, [])
  | Some slash => (take slash (authority ++ path), drop slash (authority ++ path))
  end = (authority, path).
Proof.
  intros Ha [-> | [p ->]].
  - rewrite app_nil_r. by rewrite (proj2 (find_char_None _ _) Ha).
  - rewrite find_char_app by done. by rewrite take_app_length, drop_app_length.
Qed.
Lemma SplitAuthorityPath_parts authority path host port :
  "/"%char ∉ authority → path_shape path → authority_parts authority host port →
  SplitAuthorityPath (authority ++ path) = mkAuthorityPath host port path.
Proof.
  intros Ha Hp Hparts. unfold SplitAuthorityPath. rewrite find_char_path by done.
  destruct Hparts as [(-> & -> & Hc)|(-> & Hc)]; [by rewrite rsplit_none|by rewrite rsplit_app].
Qed.
Lemma rsplit_Some c s a b : rsplit c s = Some (a, b) → s = a ++ c :: b ∧ c ∉ b.
Proof.
  revert a b. induction s as [|d s IH]; intros a b; cbn; [done|]. destruct (rsplit c s) as [[a' b']|] eqn:E.
  - intros [= <- <-]. destruct (IH _ _ eq_refl) as [-> ?]. done.
  - destruct (d =c c) eqn:Ed; [|done]. intros [= <- <-]. apply ceqb_true in Ed as ->. split; [done|].
    clear IH. induction s as [|x s IH]; [apply not_elem_of_nil|]. cbn in E. destruct (rsplit c s) as [[]|]; [done|].
    destruct (x =c c) eqn:Ex; [done|]. apply ceqb_false in Ex. apply not_elem_of_cons. split; [congruence|auto].
Qed.
Lemma rsplit_None c s : rsplit c s = None → c ∉ s.
Proof.
  induction s as [|d s IH]; cbn; [intros _; apply not_elem_of_nil|]. destruct (rsplit c s) as [[]|]; [done|].
  destruct (d =c c) eqn:E; [done|]. apply ceqb_false in E. intros _. apply not_elem_of_cons. split; [congruence|auto].
Qed.
Lemma SplitAuthorityPath_inv s : ∃ authority, s = authority ++ ap_path (SplitAuthorityPath s) ∧ "/"%char ∉ authority
  ∧ path_shape (ap_path (SplitAuthorityPath s)) ∧ authority_parts authority (ap_host (SplitAuthorityPath s)) (ap_port_str (SplitAuthorityPath s)).
Proof.
  unfold SplitAuthorityPath. assert (∀ authority path, s = authority ++ path → "/"%char ∉ authority → path_shape path →
    ∃ a, s = a ++ ap_path (match rsplit ":" authority with None => mkAuthorityPath authority [] path | Some (h, p) => mkAuthorityPath h p path end)
    ∧ "/"%char ∉ a ∧ path_shape (ap_path (match rsplit ":" authority with None => mkAuthorityPath authority [] path | Some (h, p) => mkAuthorityPath h p path end))
    ∧ authority_parts a (ap_host (match rsplit ":" authority with None => mkAuthorityPath authority [] path | Some (h, p) => mkAuthorityPath h p path end))
        (ap_port_str (match rsplit ":" authority with None => mkAuthorityPath authority [] path | Some (h, p) => mkAuthorityPath h p path end))) as H.
  { intros authority path Hs Ha Hp. exists authority. destruct (rsplit ":" authority) as [[h p]|] eqn:E; cbn; split_and!; try done.
    - right. by apply rsplit_Some in E.
    - left. split_and!; [done|done|by apply rsplit_None]. }
  destruct (find_char "/" s) as [n|] eqn:E.
  - apply find_char_Some in E as [E Hn]. apply H; [by rewrite take_drop|done|]. right. exists (drop (S n) s).
    rewrite E at 1. rewrite drop_app_length' by (rewrite length_take; apply (f_equal length) in E; rewrite length_app in E; cbn in E; rewrite length_take, length_drop in E; lia). done.
  - apply H; [by rewrite app_nil_r|by apply find_char_None|by left].
Qed.
Lemma ParsePort_means text p port : ParsePort text p = inr port ↔ port_means p text port.
Proof.
  unfold ParsePort, port_means. destruct text as [|c t]; [naive_solver|]. remember (c :: t) as s eqn:Es.
  assert (s ≠ []) as Hne by (by rewrite Es). clear Es c t. unfold from_chars_u32. destruct (digits_split s) as [Hs Hd]. split.
  - destruct (digits s) as [|d ds] eqn:E; [done|]. rewrite <- E in *. destruct (_ <=? _) eqn:Eu; [|done].
    destruct (drop (length (digits s)) s) as [|] eqn:Ed; [|done]. rewrite app_nil_r in Hs. destruct ((kPortMax <? _) || _) eqn:Ep; [done|].
    intros [= <-]. right. bool_hyps. unfold kPortMax in *. rewrite <- Hs in *. pose proof (digits_value_nonneg _ Hd). split_and!; [done|done|done|lia|lia].
  - intros [[? _]|(_ & Hall & -> & Hr)]; [done|]. pose proof (digits_app s [] Hall eq_refl) as E. rewrite app_nil_r in E. rewrite E.
    destruct s as [|d ds] eqn:Es; [done|]. rewrite <- Es in *. rewrite (proj2 (Z.leb_le _ _)) by width_lia. rewrite drop_all.
    unfold kPortMax. by rewrite (proj2 (Z.ltb_ge _ _)), (proj2 (Z.eqb_neq _ _)) by lia.
Qed.
Lemma ParseEndpointUrl_means url p ep : ParseEndpointUrl url p = inr ep ↔ url_means p url ep.
Proof.
  split.
  - unfold ParseEndpointUrl, ExtractScheme, StripScheme. destruct url as [|c0 u]; [done|]. remember (c0 :: u) as url eqn:Eu. clear Eu c0 u.
    destruct (split_str kSchemeSep url) as [[scheme rest]|] eqn:E; [|done]. apply split_str_Some in E as ->. destruct scheme as [|s0 sc] eqn:Es; [done|]. rewrite <- Es.
    destruct (ResolveScheme scheme) as [r|] eqn:Er; [|done]. destruct (SplitAuthorityPath_inv rest) as (authority & Erest & Ha & Hp & Hparts).
    set (ap := SplitAuthorityPath rest) in *. destruct (ap_host ap) as [|h0 h] eqn:Eh; [done|]. rewrite <- Eh in *.
    intros (port & Hport & [= <-])%and_then_inr. apply ParsePort_means in Hport. exists scheme, authority, (ap_path ap), (ap_port_str ap). cbn [pe_scheme pe_host pe_port pe_path].
    split_and!; try done; [by rewrite Erest at 1|by rewrite Eh].
  - intros (scheme & authority & path & port_text & -> & Hr & Ha & Hp & Hparts & Hh & Hport & Hpath).
    unfold ParseEndpointUrl, ExtractScheme, StripScheme. rewrite (split_known _ _ _ Hr), (SplitAuthorityPath_parts _ _ _ _ Ha Hp Hparts). cbn [ap_host ap_port_str ap_path].
    apply ParsePort_means in Hport. destruct ep as [sch host port pth]. cbn [pe_scheme pe_host pe_port pe_path] in *.
    assert (scheme ≠ []) as Hsn by (intros ->; done). destruct scheme as [|s0 sc]; [done|]. rewrite Hr, Hport. cbn [app and_then].
    destruct host as [|h0 h]; [done|]. by rewrite Hpath.
Qed.

(** ** Request headers *)

(** A field HTTP/2 may carry in a request beside the ones microtel sets itself. *)
Record legal_name (p : Protocol) (n : str) : Prop := {
  ln_token : n ≠ [] ∧ ∀ c, c ∈ n → IsTokenChar c = true;
  ln_connection : (to_lower <$> n) ∉ kConnectionSpecificHeaders;
  ln_host : (to_lower <$> n) ≠ $"host";
  ln_protocol : (to_lower <$> n) ∉ match p with Http => kHttpCodecHeaders | Grpc => $"content-length" :: kGrpcCodecHeaders end
}.
Record legal_value (v : str) : Prop := {
  lv_chars : ∀ c, c ∈ v → code c ≠ 0 ∧ code c ≠ 10 ∧ code c ≠ 13;
  lv_first : ∀ c rest, v = c :: rest → code c ≠ 32 ∧ code c ≠ 9;
  lv_last : ∀ c rest, v = rest ++ [c] → code c ≠ 32 ∧ code c ≠ 9
}.
Definition legal_header (p : Protocol) (kv : KeyValue) : Prop :=
  legal_name p (kv_key kv) ∧ match kv_value kv with AvString s => legal_value s | _ => True end.

(** The names of the tables are in lower case already. *)
Lemma lower_table (l : list str) : forallb (λ s, (to_lower <$> s) =s s) l = true → ∀ n, IsOneOf n l = bool_decide ((to_lower <$> n) ∈ l).
Proof.
  intros Hl n. unfold IsOneOf. apply eq_true_iff_eq. rewrite bool_decide_eq_true, existsb_exists. split.
  - intros (s & Hs%list_elem_of_In & H%HeaderNameEquals_true). pose proof (forallb_elem _ _ _ Hl Hs) as E. apply seqb_true in E. by rewrite H, E.
  - intros H. exists (to_lower <$> n). split; [by apply list_elem_of_In|]. pose proof (forallb_elem _ _ _ Hl H) as E. apply seqb_true in E.
    by apply HeaderNameEquals_true.
Qed.
Lemma IsOneOf_one n s : (to_lower <$> s) = s → EqualsIgnoreCase n s = bool_decide ((to_lower <$> n) = s).
Proof. intros Hs. apply eq_true_iff_eq. rewrite bool_decide_eq_true. unfold EqualsIgnoreCase. rewrite HeaderNameEquals_true. by rewrite Hs. Qed.
Lemma HeaderNameFault_None n p : HeaderNameFault n p = None ↔ legal_name p n.
Proof.
  unfold HeaderNameFault, ProtocolHeaderFault. rewrite !lower_table, !IsOneOf_one by (vm_compute; reflexivity). split.
  - intros H. destruct (IsToken n) eqn:Et; [|done]. unfold IsToken in Et. apply andb_true_iff in Et as [Es Et]. revert H. cbn [negb].
    do 2 (case_bool_decide; [done|]). intros Hp. split; [split; [by destruct n|intros c Hc; by apply (forallb_elem _ _ _ Et)]|done|done|].
    destruct p; repeat (case_bool_decide; [done|]); [by apply not_elem_of_cons|done].
  - intros [[Hn Ht] Hc Hh Hp]. assert (IsToken n = true) as -> by (unfold IsToken; rewrite (forallb_elem_2 _ _ Ht); by destruct n). cbn [negb].
    rewrite !bool_decide_eq_false_2 by done. destruct p; [apply not_elem_of_cons in Hp as [? ?]|]; by rewrite !bool_decide_eq_false_2.
Qed.
Lemma chars_of (l : list Z) c : Forall (λ z, 0 <= z < 256) l → bool_decide (c ∈ (chr <$> l)) = bool_decide (code c ∈ l).
Proof.
  intros Hl. apply bool_decide_ext. rewrite list_elem_of_fmap. split; [intros (z & -> & Hz)|intros H; exists (code c); by rewrite chr_code].
  rewrite code_chr; [done|]. by eapply Forall_forall in Hl.
Qed.
Lemma ends_in_snoc p s c : ends_in p (s ++ [c]) = p c.
Proof. unfold ends_in. by rewrite reverse_snoc. Qed.
Lemma edge_whitespace c : is_edge_whitespace c = false ↔ code c ≠ 32 ∧ code c ≠ 9.
Proof.
  unfold is_edge_whitespace. change [" "%char; chr 9] with (chr <$> [32; 9]). rewrite chars_of by (repeat constructor; lia).
  rewrite bool_decide_eq_false, not_elem_of_cons, list_elem_of_singleton. done.
Qed.
Lemma FieldValueFault_None v : FieldValueFault v = None ↔ legal_value v.
Proof.
  unfold FieldValueFault. assert (∀ c, bool_decide (c ∈ kForbiddenValueChars) = false ↔ code c ≠ 0 ∧ code c ≠ 10 ∧ code c ≠ 13) as Hc.
  { intros c. change kForbiddenValueChars with (chr <$> [0; 13; 10]). rewrite chars_of by (repeat constructor; lia).
    rewrite bool_decide_eq_false, !not_elem_of_cons. pose proof (not_elem_of_nil (code c)). tauto. }
  split.
  - destruct (existsb _ v) eqn:E; [done|]. destruct (_ || _) eqn:Ew; [done|]. intros _. bool_hyps. split.
    + intros c Hin. apply Hc. apply not_true_iff_false. intros Hb. apply not_true_iff_false in E. apply E, existsb_exists. exists c. by split; [apply list_elem_of_In|].
    + intros c rest ->. by apply edge_whitespace.
    + intros c rest ->. rewrite ends_in_snoc in *. by apply edge_whitespace.
  - intros [H1 H2 H3]. assert (existsb (λ c, bool_decide (c ∈ kForbiddenValueChars)) v = false) as ->.
    { apply not_true_iff_false. intros (c & Hin%list_elem_of_In & Hb)%existsb_exists. apply H1, Hc in Hin. congruence. }
    assert (starts_in is_edge_whitespace v = false) as -> by (destruct v as [|c r]; [done|]; cbn; eapply edge_whitespace, H2; done).
    assert (ends_in is_edge_whitespace v = false) as ->; [|done].
    destruct v as [|c r] using rev_ind; [done|]. rewrite ends_in_snoc. eapply edge_whitespace, H3. done.
Qed.
Lemma check_headers_ok l p : (∃ u, check_headers l p = inr u) ↔ Forall (legal_header p) l.
Proof.
  induction l as [|kv l IH]; cbn [check_headers]; [split; [constructor|by exists tt]|]. rewrite Forall_cons, <- IH. unfold legal_header at 1.
  rewrite <- HeaderNameFault_None. destruct (HeaderNameFault _ _); [naive_solver|].
  unfold HeaderValueFault. destruct (kv_value kv); try tauto. rewrite <- FieldValueFault_None. destruct (FieldValueFault s); naive_solver.
Qed.
Lemma check_authorization_ok l : (∃ u, CheckNoStaticAuthorization l = inr u) ↔ ∀ kv, kv ∈ l → (to_lower <$> kv_key kv) ≠ $"authorization".
Proof.
  induction l as [|kv l IH]; cbn [CheckNoStaticAuthorization]; [split; [by intros _ kv []%not_elem_of_nil|by exists tt]|].
  rewrite IsOneOf_one by (vm_compute; reflexivity). case_bool_decide as E.
  - split; [intros [u [=]]|]. intros H. destruct (H kv); [by left|done].
  - rewrite IH. setoid_rewrite elem_of_cons. naive_solver.
Qed.

(** ** What [Validate] accepts *)

Section accepts.
Context (is_file : str → bool) (forbid_insecure : bool).
Definition readable (p : str) : Prop := p = [] ∨ is_file p = true.
Definition batch_coherent (b : BatchOptions) : Prop :=
  max_queue_size b ≠ 0 ∧ max_export_batch_size b ≠ 0 ∧ max_export_batch_size b <= max_queue_size b ∧ 0 < schedule_delay b.
(** The URL itself asks for gRPC. *)
Definition grpc_scheme (url : str) : bool := starts_with url $"grpc://" || starts_with url $"grpcs://".
(** [cfg'] is [cfg] accepted: protocol, endpoint, name and the record of where the
    name comes from are filled in, and nothing else is changed. *)
Record valid_config (cfg cfg' : Config) : Prop := {
  vc_protocol : protocol (exporter cfg') = (if grpc_scheme (endpoint_url (exporter cfg)) then Grpc else protocol (exporter cfg));
  vc_agrees : grpc_scheme (endpoint_url (exporter cfg)) = true → protocol_explicit (exporter cfg) = true → protocol (exporter cfg) = Grpc;
  vc_endpoint : url_means (protocol (exporter cfg')) (endpoint_url (exporter cfg)) (endpoint (exporter cfg'));
  vc_no_path : protocol (exporter cfg') = Grpc → pe_path (endpoint (exporter cfg')) = [];
  vc_insecure : forbid_insecure = true → to_insecure (tls (options cfg)) = false;
  vc_ca : readable (to_ca_bundle (tls (options cfg)));
  vc_pair : to_client_cert (tls (options cfg)) = [] ↔ to_client_key (tls (options cfg)) = [];
  vc_cert : readable (to_client_cert (tls (options cfg)));
  vc_key : readable (to_client_key (tls (options cfg)));
  vc_headers : Forall (legal_header (protocol (exporter cfg'))) (headers (exporter cfg));
  vc_batch : batch_coherent (batch (options cfg));
  vc_name : service_name (service cfg') = (if is_set (service_name (service cfg)) then service_name (service cfg) else $"unknown_service");
  vc_defaulted : service_name_defaulted (service cfg') = negb (is_set (service_name (service cfg)));
  vc_kept : cfg' = set_service_name (service_name (service cfg')) (set_name_defaulted (service_name_defaulted (service cfg'))
              (set_endpoint (endpoint (exporter cfg')) (set_protocol (protocol (exporter cfg')) (protocol_explicit (exporter cfg)) cfg)))
}.

Lemma scheme_starts url scheme r : ResolveScheme scheme = Some r → (ExtractScheme url =s scheme) = starts_with url (scheme ++ kSchemeSep).
Proof.
  intros Hr. apply eq_true_iff_eq. rewrite seqb_true, starts_with_prefix. unfold ExtractScheme. split.
  - destruct (split_str kSchemeSep url) as [[a b]|] eqn:E; [|by intros <-]. intros <-. apply split_str_Some in E as ->. exists b. by rewrite <- app_assoc.
  - intros [k ->]. rewrite <- app_assoc. by rewrite (split_known _ _ _ Hr).
Qed.
Lemma ResolveProtocol_spec cfg :
  match ResolveProtocol cfg with
  | inr p => p = (if grpc_scheme (endpoint_url (exporter cfg)) then Grpc else protocol (exporter cfg))
             ∧ (grpc_scheme (endpoint_url (exporter cfg)) = true → protocol_explicit (exporter cfg) = true → protocol (exporter cfg) = Grpc)
  | inl _ => grpc_scheme (endpoint_url (exporter cfg)) = true ∧ protocol_explicit (exporter cfg) = true ∧ protocol (exporter cfg) ≠ Grpc
  end.
Proof.
  unfold ResolveProtocol, grpc_scheme. set (url := endpoint_url (exporter cfg)).
  rewrite (scheme_starts url $"grpc" $"http" eq_refl), (scheme_starts url $"grpcs" $"https" eq_refl).
  change ($"grpc" ++ kSchemeSep) with ($"grpc://"). change ($"grpcs" ++ kSchemeSep) with ($"grpcs://").
  generalize ($"grpc://") ($"grpcs://"). intros s1 s2.
  destruct (starts_with url s1), (starts_with url s2), (protocol_explicit (exporter cfg)); cbn [negb andb orb]; try done;
    (case_bool_decide; cbn [negb]; [done|by split_and!]).
Qed.
Lemma IsReadable_readable p : IsReadable is_file p = true ↔ readable p.
Proof. unfold IsReadable, readable. destruct p; naive_solver. Qed.
Lemma is_set_true s : is_set s = true ↔ s ≠ [].
Proof. by destruct s. Qed.
Lemma is_set_false s : is_set s = false ↔ s = [].
Proof. by destruct s. Qed.
Lemma ValidateTlsMaterial_ok cfg : (∃ u, ValidateTlsMaterial is_file cfg = inr u) ↔
  let t := tls (options cfg) in
  readable (to_ca_bundle t) ∧ (to_client_cert t = [] ↔ to_client_key t = []) ∧ readable (to_client_cert t) ∧ readable (to_client_key t).
Proof.
  unfold ValidateTlsMaterial. cbv zeta. set (t := tls (options cfg)). rewrite <- !IsReadable_readable, <- !is_set_false.
  assert (∀ s, is_set s = false → IsReadable is_file s = true) as Hr by (by intros []).
  destruct (IsReadable is_file (to_ca_bundle t)); cbn [negb]; [|naive_solver].
  destruct (is_set (to_client_cert t)) eqn:Ec, (is_set (to_client_key t)) eqn:Ek; cbn [negb andb]; try naive_solver.
  destruct (IsReadable is_file (to_client_cert t)), (IsReadable is_file (to_client_key t)); naive_solver.
Qed.
Lemma CheckBatchOptions_ok b : LogProcessor.CheckBatchOptions b = None ↔ batch_coherent b.
Proof.
  unfold LogProcessor.CheckBatchOptions, batch_coherent. repeat split_if; bool_hyps; split; try done; intros; try lia.
Qed.
Lemma Validate_valid cfg cfg' : Validate is_file forbid_insecure cfg = inr cfg' ↔ valid_config cfg cfg'.
Proof.
  unfold Validate. cbv zeta. pose proof (ResolveProtocol_spec cfg) as Hp. destruct (ResolveProtocol cfg) as [e|p]; cbn [and_then].
  { split; [done|]. intros []. destruct Hp as (H1 & H2 & H3). by destruct (H3 (vc_agrees0 H1 H2)). }
  destruct Hp as [Hp Hag].
  change (endpoint_url (exporter (set_protocol p (protocol_explicit (exporter cfg)) cfg))) with (endpoint_url (exporter cfg)). split.
  - intros (ep & Hep & H)%and_then_inr. apply ParseEndpointUrl_means in Hep. destruct (bool_decide (p = Grpc) && is_set (pe_path ep)) eqn:Eg; [done|].
    apply and_then_inr in H as ([] & Hin & ([] & Htls & ([] & Hh & H)%and_then_inr)%and_then_inr).
    assert (∃ u, ValidateTlsMaterial is_file (set_endpoint ep (set_protocol p (protocol_explicit (exporter cfg)) cfg)) = inr u) as Ht by eauto.
    apply ValidateTlsMaterial_ok in Ht. destruct Ht as (Hca & Hpair & Hcert & Hkey).
    assert (∃ u, check_headers (headers (exporter cfg)) p = inr u) as Hhs%check_headers_ok by (by exists tt).
    destruct (LogProcessor.CheckBatchOptions _) as [[]|] eqn:Eb; [done|]. apply CheckBatchOptions_ok in Eb. injection H as <-.
    unfold CheckInsecureAllowed in Hin. split; try assumption.
    all: destruct (is_set (service_name (service cfg))) eqn:Es; cbn in Es |- *; rewrite ?Es; cbn; try done.
    all: try (intros ->; cbn in Eg; by apply is_set_false).
    all: try (intros ->; cbn in Hin; by destruct (to_insecure (tls (options cfg)))).
    all: by destruct cfg as [[] [] ? ? ? ? ? ? ?].
  - intros V. destruct V. assert (protocol (exporter cfg') = p) as Hpp by congruence. rewrite Hpp in *.
    apply and_then_inr. exists (endpoint (exporter cfg')). split; [by apply ParseEndpointUrl_means|].
    assert (bool_decide (p = Grpc) && is_set (pe_path (endpoint (exporter cfg'))) = false) as ->.
    { case_bool_decide; [|done]. apply is_set_false. auto. }
    apply and_then_inr. exists tt. split; [unfold CheckInsecureAllowed; cbn; destruct forbid_insecure; [by rewrite vc_insecure0|done]|].
    destruct (proj2 (ValidateTlsMaterial_ok (set_endpoint (endpoint (exporter cfg')) (set_protocol p (protocol_explicit (exporter cfg)) cfg)))) as [[] ->]; [done|].
    destruct (proj2 (check_headers_ok _ _) vc_headers0) as [[] Hh]. unfold ValidateHeaders. cbn [and_then].
    change (headers _) with (headers (exporter cfg)). change (protocol (exporter (set_endpoint _ _))) with p. rewrite Hh. cbn [and_then].
    change (batch _) with (batch (options cfg)). rewrite (proj2 (CheckBatchOptions_ok _) vc_batch0). f_equal. symmetry. rewrite vc_kept0 at 1.
    rewrite vc_name0, vc_defaulted0. cbn [service set_endpoint set_protocol on_exporter].
    destruct (is_set (service_name (service cfg))) eqn:Es; cbn [negb]; [|done]. by destruct cfg as [[] [] ? ? ? ? ? ? ?].
Qed.
End accepts.
(** C32: validate accepts exactly the configurations of [valid_config]: a well-formed
    URL of a known scheme with a port in range, a protocol that agrees with it, no
    path for gRPC, readable and paired TLS material, no insecure TLS where the build
    forbids it, only headers HTTP/2 may carry and microtel does not set, coherent
    batch options; and it then only fills in protocol, endpoint and service name. *)
Theorem validate_exact is_file forbid_insecure cfg :
  match Validate is_file forbid_insecure cfg with
  | inr cfg' => ∀ c, valid_config is_file forbid_insecure cfg c ↔ c = cfg'
  | inl _ => ∀ c, ¬ valid_config is_file forbid_insecure cfg c
  end.
Proof.
  destruct (Validate is_file forbid_insecure cfg) as [e|cfg'] eqn:E; intros c.
  - intros H%Validate_valid. congruence.
  - rewrite <- Validate_valid, E. naive_solver.
Qed.
(** A gRPC shorthand, an authority whose host holds a colon, and some refusals. *)
Example endpoint_demo :
  (λ p, match ParseEndpointUrl (fst p) (snd p) with inr e => Some (pe_scheme e, pe_host e, pe_port e, pe_path e) | inl _ => None end)
  <$> [($"grpc://collector", Grpc); ($"https://[::1]:4318/base", Http); ($"http://h:/", Http); ($"https://h:65536", Http); ($"ftp://h", Http); ($"https://:1", Http)]
  = [Some ($"http", $"collector", 4317, []); Some ($"https", $"[::1]", 4318, $"/base"); Some ($"http", $"h", 4318, []); None; None; None].
Proof. vm_compute. reflexivity. Qed.
