(* ===== verification/TomlLoader.v ===== *)
(** * microtel.toml

    Model of [src/common/config/toml_loader.cpp] on the tree toml++ makes of a
    file.  A table is its entries in the order toml++ visits them.  toml++'s
    [node::value<T>()], which may convert between types, is the record
    [TomlValues], with its documented behaviour in [TomlLaws]; its parser is a
    parameter of [LoadToml].

    Each section parser takes the configuration and returns it changed, the list of
    unknown keys included, or the [ConfigError].

    The theorems: which keys are refused, reported or skipped; a configuration
    written out as a document is read back. *)
From S2P Require Import Prelude Context Data AttributeSet SpanLimits LeafTime RetryEngine ProtoReader Wire Http2Connect Config.
From S2P Require LeafOptions EnvResolver.

(** ** Documents *)

Inductive TomlNode :=
| TString (s : str) | TInteger (z : Z) | TFloat (bits : Z) | TBoolean (b : bool)
| TTable (entries : list (str * TomlNode))
| TOther.                                            (* arrays, dates and times *)
Abbreviation TomlTable := (list (str * TomlNode)).
Definition get (key : str) (t : TomlTable) : option TomlNode := snd <$> find_key fst key t.
Definition as_table (n : TomlNode) : option TomlTable := match n with TTable t => Some t | _ => None end.
Definition as_string (n : TomlNode) : option str := match n with TString s => Some s | _ => None end.
Definition as_integer (n : TomlNode) : option Z := match n with TInteger z => Some z | _ => None end.
Definition as_boolean (n : TomlNode) : option bool := match n with TBoolean b => Some b | _ => None end.
(** [root[key].as_table()]. *)
Definition section_of (key : str) (root : TomlTable) : option TomlTable := get key root ≫= as_table.

(** [node::value<T>()]. *)
Record TomlValues := mkTomlValues {
  value_string : TomlNode → option str; value_bool : TomlNode → option bool;
  value_u32 : TomlNode → option Z; value_i64 : TomlNode → option Z }.
Class TomlLaws (v : TomlValues) := {
  law_string : ∀ n, value_string v n = as_string n;
  law_bool : ∀ b, value_bool v (TBoolean b) = Some b;
  law_u32 : ∀ z, is_u32 z → value_u32 v (TInteger z) = Some z;
  law_i64 : ∀ z, value_i64 v (TInteger z) = Some z
}.
(** One such: no conversions at all. *)
Definition exact_values : TomlValues :=
  mkTomlValues as_string as_boolean
    (λ n, z ← as_integer n; if (0 <=? z) && (z <=? u32_max) then Some z else None) as_integer.
#[export] Instance exact_laws : TomlLaws exact_values.
Proof.
  split; try done. intros z [H1 H2]. cbn. by rewrite (proj2 (Z.leb_le _ _) H1), (proj2 (Z.leb_le _ _) H2).
Qed.

(** ** Unknown keys *)

Definition dotted (section key : str) : str := match section with [] => key | _ => section ++ $"." ++ key end.
Definition set_warned (l : list str) (c : Config) : Config :=
  mkConfig (exporter c) (service c) (options c) (unknown_key_mode c) l (metric_interval c) (metric_temporality c) (log_level c) (concentrator c).
Definition set_key_mode (m : UnknownKeyMode) (c : Config) : Config :=
  mkConfig (exporter c) (service c) (options c) m (unknown_keys_warned c) (metric_interval c) (metric_temporality c) (log_level c) (concentrator c).
Definition unknown_key (field : str) : ConfigError := mkConfigError UnknownKey field ($"Unknown configuration key: " ++ field).
(** The loop of [CheckUnknown] once the mode is not [Ignore]; [warned] is the vector
    the policy points to. *)
Fixpoint check_keys (warn : bool) (section : str) (known : list str) (tbl : TomlTable) (warned : list str) : Result (list str) :=
  match tbl with
  | [] => inr warned
  | (key, _) :: rest =>
      if bool_decide (key ∈ known) then check_keys warn section known rest warned
      else if warn then check_keys warn section known rest (warned ++ [dotted section key])
      else inl (unknown_key (dotted section key))
  end.
Definition CheckUnknown (tbl : TomlTable) (section : str) (known : list str) (cfg : Config) : Result Config :=
  match unknown_key_mode cfg with
  | KeysIgnore => inr cfg
  | mode =>
      let? warned := check_keys (match mode with KeysWarn => true | _ => false end) section known tbl (unknown_keys_warned cfg) in
      inr (set_warned warned cfg)
  end.

(** ** Reading one key *)

(** [if (const auto v = node.value<T>()) set]. *)
Definition with_value {T} (value : TomlNode → option T) (key : str) (tbl : TomlTable) (set : T → Config → Config) (cfg : Config) : Config :=
  match get key tbl ≫= value with Some v => set v cfg | None => cfg end.
(** The same with a table of allowed texts. *)
Definition with_choice {T} (value : TomlNode → option str) (key : str) (tbl : TomlTable) (parse : str → option T) (error : ConfigError)
    (set : T → Config → Config) (cfg : Config) : Result Config :=
  match get key tbl ≫= value with
  | None => inr cfg
  | Some v => match parse v with Some x => inr (set x cfg) | None => inl error end
  end.
Definition invalid (field message : str) : ConfigError := mkConfigError InvalidValue field message.

Section loader.
Context (vals : TomlValues).
Abbreviation quoted := EnvResolver.quoted.

Definition key_mode_of (v : str) : option UnknownKeyMode :=
  if v =s $"error" then Some KeysError else if v =s $"warn" then Some KeysWarn else if v =s $"ignore" then Some KeysIgnore else None.
Definition ParseConfigSection (root : TomlTable) (cfg : Config) : Result Config :=
  match section_of $"config" root with
  | None => inr cfg
  | Some sec =>
      let? cfg := with_choice (value_string vals) $"unknown_keys" sec key_mode_of
        (invalid $"config.unknown_keys" ($"must be " ++ quoted $"error" ++ $", " ++ quoted $"warn" ++ $", or " ++ quoted $"ignore")) set_key_mode cfg in
      CheckUnknown sec $"config" [$"unknown_keys"] cfg
  end.
Definition protocol_name (v : str) : option Protocol := if v =s $"grpc" then Some Grpc else if v =s $"http" then Some Http else None.
Definition ParseExporterSection (root : TomlTable) (cfg : Config) : Result Config :=
  match section_of $"exporter" root with
  | None => inr cfg
  | Some sec =>
      let? cfg := CheckUnknown sec $"exporter" [$"endpoint"; $"protocol"; $"compression"; $"headers"] cfg in
      let cfg := with_value (value_string vals) $"endpoint" sec set_endpoint_url cfg in
      let? cfg := with_choice (value_string vals) $"protocol" sec protocol_name
        (invalid $"exporter.protocol" ($"must be " ++ quoted $"http" ++ $" or " ++ quoted $"grpc")) (λ p, set_protocol p true) cfg in
      inr (with_value (value_string vals) $"compression" sec (λ v, set_compression (v =s $"gzip")) cfg)
  end.
(** The entries of a table that are strings. *)
Definition string_entries (tbl : TomlTable) : list KeyValue :=
  omap (λ p, (λ s, mkKeyValue (fst p) (AvString s)) <$> value_string vals (snd p)) tbl.
Definition ParseExporterHeaders (root : TomlTable) (cfg : Config) : Result Config :=
  inr match section_of $"exporter" root ≫= section_of $"headers" with
      | None => cfg
      | Some tbl => set_headers (string_entries tbl) cfg
      end.
Definition ParseServiceSection (root : TomlTable) (cfg : Config) : Result Config :=
  match section_of $"service" root with
  | None => inr cfg
  | Some sec =>
      let? cfg := CheckUnknown sec $"service" [$"name"; $"version"] cfg in
      let cfg := with_value (value_string vals) $"name" sec set_service_name cfg in
      inr (with_value (value_string vals) $"version" sec set_service_version cfg)
  end.
Definition ParseResourceSection (root : TomlTable) (cfg : Config) : Result Config :=
  inr match section_of $"resource" root with
      | None => cfg
      | Some sec => set_resource_attrs (string_entries sec) cfg
      end.
Definition on_tls (f : TlsOptions → TlsOptions) (c : Config) : Config := set_tls (f (tls (options c))) c.
Definition ParseTlsSection (root : TomlTable) (cfg : Config) : Result Config :=
  match section_of $"tls" root with
  | None => inr cfg
  | Some sec =>
      let? cfg := CheckUnknown sec $"tls" [$"insecure"; $"ca_bundle"; $"client_cert"; $"client_key"; $"sni_override"] cfg in
      let cfg := with_value (value_bool vals) $"insecure" sec
        (λ v, on_tls (λ t, mkTlsOptions v (to_ca_bundle t) (to_client_cert t) (to_client_key t) (to_sni_override t))) cfg in
      let cfg := with_value (value_string vals) $"ca_bundle" sec
        (λ v, on_tls (λ t, mkTlsOptions (to_insecure t) v (to_client_cert t) (to_client_key t) (to_sni_override t))) cfg in
      let cfg := with_value (value_string vals) $"client_cert" sec
        (λ v, on_tls (λ t, mkTlsOptions (to_insecure t) (to_ca_bundle t) v (to_client_key t) (to_sni_override t))) cfg in
      let cfg := with_value (value_string vals) $"client_key" sec
        (λ v, on_tls (λ t, mkTlsOptions (to_insecure t) (to_ca_bundle t) (to_client_cert t) v (to_sni_override t))) cfg in
      inr (with_value (value_string vals) $"sni_override" sec
        (λ v, on_tls (λ t, mkTlsOptions (to_insecure t) (to_ca_bundle t) (to_client_cert t) (to_client_key t) v)) cfg)
  end.
Definition on_batch (f : BatchOptions → BatchOptions) (c : Config) : Config := set_batch (f (batch (options c))) c.
Definition drop_policy_of (v : str) : option DropPolicy :=
  if v =s $"newest" then Some DropNewest else if v =s $"oldest" then Some DropOldest else None.
Definition ParseSdkSection (root : TomlTable) (cfg : Config) : Result Config :=
  match section_of $"sdk" root with
  | None => inr cfg
  | Some sec =>
      let? cfg := CheckUnknown sec $"sdk"
        [$"max_queue_size"; $"max_export_batch_size"; $"schedule_delay_ms"; $"drop_policy"; $"resource_detectors_strict"] cfg in
      let cfg := with_value (value_bool vals) $"resource_detectors_strict" sec set_detectors_strict cfg in
      let cfg := with_value (value_u32 vals) $"max_queue_size" sec
        (λ v, on_batch (λ b, mkBatchOptions v (max_export_batch_size b) (schedule_delay b) (drop_policy b))) cfg in
      let cfg := with_value (value_u32 vals) $"max_export_batch_size" sec
        (λ v, on_batch (λ b, mkBatchOptions (max_queue_size b) v (schedule_delay b) (drop_policy b))) cfg in
      let cfg := with_value (value_i64 vals) $"schedule_delay_ms" sec
        (λ v, on_batch (λ b, mkBatchOptions (max_queue_size b) (max_export_batch_size b) v (drop_policy b))) cfg in
      with_choice (value_string vals) $"drop_policy" sec drop_policy_of
        (invalid $"sdk.drop_policy" ($"must be " ++ quoted $"newest" ++ $" or " ++ quoted $"oldest"))
        (λ v, on_batch (λ b, mkBatchOptions (max_queue_size b) (max_export_batch_size b) (schedule_delay b) v)) cfg
  end.
Definition ParseLoggingSection (root : TomlTable) (cfg : Config) : Result Config :=
  match section_of $"logging" root with
  | None => inr cfg
  | Some sec =>
      let? cfg := CheckUnknown sec $"logging" [$"level"] cfg in
      with_choice (value_string vals) $"level" sec ParseLogLevel
        (invalid $"logging.level" ($"must be " ++ quoted $"trace" ++ $", " ++ quoted $"debug" ++ $", " ++ quoted $"info" ++ $", "
                                   ++ quoted $"warn" ++ $" or " ++ quoted $"error")) set_log_level cfg
  end.
Definition on_timeouts (f : TimeoutOptions → TimeoutOptions) (c : Config) : Config := set_timeouts (f (timeouts (options c))) c.
Definition ParseTimeoutsSection (root : TomlTable) (cfg : Config) : Result Config :=
  match section_of $"timeouts" root with
  | None => inr cfg
  | Some sec =>
      let? cfg := CheckUnknown sec $"timeouts" [$"connect_ms"; $"tls_ms"; $"per_export_ms"; $"retry_budget_ms"; $"flush_ms"; $"shutdown_ms"] cfg in
      let cfg := with_value (value_i64 vals) $"connect_ms" sec
        (λ v, on_timeouts (λ t, mkTimeouts v (t_tls_handshake t) (t_per_export t) (t_retry_budget t) (t_flush t) (t_shutdown t))) cfg in
      let cfg := with_value (value_i64 vals) $"tls_ms" sec
        (λ v, on_timeouts (λ t, mkTimeouts (t_connect t) v (t_per_export t) (t_retry_budget t) (t_flush t) (t_shutdown t))) cfg in
      let cfg := with_value (value_i64 vals) $"per_export_ms" sec
        (λ v, on_timeouts (λ t, mkTimeouts (t_connect t) (t_tls_handshake t) v (t_retry_budget t) (t_flush t) (t_shutdown t))) cfg in
      let cfg := with_value (value_i64 vals) $"retry_budget_ms" sec
        (λ v, on_timeouts (λ t, mkTimeouts (t_connect t) (t_tls_handshake t) (t_per_export t) v (t_flush t) (t_shutdown t))) cfg in
      let cfg := with_value (value_i64 vals) $"flush_ms" sec
        (λ v, on_timeouts (λ t, mkTimeouts (t_connect t) (t_tls_handshake t) (t_per_export t) (t_retry_budget t) v (t_shutdown t))) cfg in
      inr (with_value (value_i64 vals) $"shutdown_ms" sec
        (λ v, on_timeouts (λ t, mkTimeouts (t_connect t) (t_tls_handshake t) (t_per_export t) (t_retry_budget t) (t_flush t) v)) cfg)
  end.

(** ** [concentrator] *)

Definition InvalidAt (section key message : str) : ConfigError :=
  let field := section ++ $"." ++ key in invalid field (field ++ $": " ++ message).
(** [ConcentratorKey]: the table, its name and the key; each reader keeps [old] when
    the key is absent. *)
Record ConcentratorKey := mkKey { ck_table : TomlTable; ck_section : str; ck_key : str }.
Definition node_at (k : ConcentratorKey) : option TomlNode := get (ck_key k) (ck_table k).
Definition refuse {T} (k : ConcentratorKey) (message : str) : Result T := inl (InvalidAt (ck_section k) (ck_key k) message).
Definition ReadBool (k : ConcentratorKey) (old : bool) : Result bool :=
  match node_at k with
  | None => inr old
  | Some n => match as_boolean n with Some b => inr b | None => refuse k $"must be true or false" end
  end.
Definition ReadCount (k : ConcentratorKey) (old : Z) : Result Z :=
  match node_at k with
  | None => inr old
  | Some n =>
      match as_integer n with
      | Some i => if (0 <=? i) && (i <=? u32_max) then inr i else refuse k $"must be an integer from 0 to 4294967295"
      | None => refuse k $"must be an integer from 0 to 4294967295"
      end
  end.
Definition ReadByteSize (k : ConcentratorKey) (old : Z) : Result Z :=
  match node_at k with
  | None | Some (TInteger _) => ReadCount k old
  | Some n =>
      match as_string n ≫= ParseByteSize with
      | Some v => inr v
      | None => refuse k ($"must be a byte count or a string such as " ++ quoted $"64KiB" ++ $" (B, KiB, MiB)")
      end
  end.
(** A string key whose text [parse] turns into a value; [ReadDuration] and
    [ReadEnum]. *)
Definition ReadEnum {T} (k : ConcentratorKey) (parse : str → option T) (expected : str) (old : T) : Result T :=
  match node_at k with
  | None => inr old
  | Some n => match as_string n ≫= parse with Some v => inr v | None => refuse k expected end
  end.
Definition ReadDuration (k : ConcentratorKey) (old : Z) : Result Z :=
  ReadEnum k ParseDuration ($"must be a string such as " ++ quoted $"30s" ++ $", " ++ quoted $"5m" ++ $" or " ++ quoted $"1h") old.
Definition ReadString (k : ConcentratorKey) (old : str) : Result str :=
  match node_at k with
  | None => inr old
  | Some n => match as_string n with Some s => inr s | None => refuse k $"must be a string" end
  end.
Definition ResourceValue (n : TomlNode) : option AttributeValue :=
  match n with
  | TString s => Some (AvString s)
  | TInteger i => Some (AvInt i)
  | TFloat d => Some (AvDouble d)
  | TBoolean b => Some (AvBool b)
  | _ => None
  end.
Fixpoint resource_entries (k : ConcentratorKey) (tbl : TomlTable) : Result (list KeyValue) :=
  match tbl with
  | [] => inr []
  | (key, n) :: rest =>
      match ResourceValue n with
      | None => refuse k ($"'" ++ key ++ $"' must be a string, integer, float or boolean (quote dotted keys: " ++ quoted $"service.name" ++ $" = ...)")
      | Some v => let? attrs := resource_entries k rest in inr (mkKeyValue key v :: attrs)
      end
  end.
Definition ReadResource (k : ConcentratorKey) (old : list KeyValue) : Result (list KeyValue) :=
  match node_at k with
  | None => inr old
  | Some n => match as_table n with None => refuse k $"must be a table" | Some tbl => resource_entries k tbl end
  end.
Definition kConcentrator : str := $"concentrator".
Import LeafOptions.
Definition ReadConcentratorLimits (sec : TomlTable) (o : LeafReceiverOptions) : Result LeafReceiverOptions :=
  let at_ key := mkKey sec kConcentrator key in
  let? en := ReadBool (at_ $"enabled") (enabled o) in
  let? mpb := ReadByteSize (at_ $"max_payload_bytes") (max_payload_bytes o) in
  let? msp := ReadCount (at_ $"max_spans_per_payload") (max_spans_per_payload o) in
  let? ml := ReadCount (at_ $"max_leaves") (max_leaves o) in
  let? mlr := ReadByteSize (at_ $"max_leaf_resource_bytes") (max_leaf_resource_bytes o) in
  let? mnr := ReadByteSize (at_ $"max_node_resource_bytes") (max_node_resource_bytes o) in
  let? idle := ReadDuration (at_ $"leaf_idle_timeout") (leaf_idle_timeout o) in
  inr (mkLeafReceiverOptions en mpb msp ml mlr idle (unknown_leaf o) (leaf_id_attribute o) (default_time_mode o) (lo_max_sync_age o)
         (lo_max_clock_skew o) (boot_anchor_window o) (leaf_defaults_resource o) (leaves o) mnr).
Definition ReadConcentratorPolicies (sec : TomlTable) (o : LeafReceiverOptions) : Result LeafReceiverOptions :=
  let at_ key := mkKey sec kConcentrator key in
  let? ul := ReadEnum (at_ $"unknown_leaf") ParseUnknownLeafPolicy ($"must be " ++ quoted $"accept" ++ $" or " ++ quoted $"reject") (unknown_leaf o) in
  let? lid := ReadString (at_ $"leaf_id_attribute") (leaf_id_attribute o) in
  let? mode := ReadEnum (at_ $"default_time_mode") ParseDefaultTimeMode ($"must be " ++ EnvResolver.time_mode_names) (default_time_mode o) in
  let? age := ReadDuration (at_ $"max_sync_age") (lo_max_sync_age o) in
  let? skew := ReadDuration (at_ $"max_clock_skew") (lo_max_clock_skew o) in
  let? anchor := ReadDuration (at_ $"boot_anchor_window") (boot_anchor_window o) in
  inr (mkLeafReceiverOptions (enabled o) (max_payload_bytes o) (max_spans_per_payload o) (max_leaves o) (max_leaf_resource_bytes o) (leaf_idle_timeout o)
         ul lid mode age skew anchor (leaf_defaults_resource o) (leaves o) (max_node_resource_bytes o)).
(** The sub-tables also record unknown keys, so they take the configuration. *)
Definition ReadLeafDefaults (sec : TomlTable) (cfg : Config) : Result Config :=
  match get $"leaf_defaults" sec with
  | None => inr cfg
  | Some n =>
      match as_table n with
      | None => inl (InvalidAt kConcentrator $"leaf_defaults" $"must be a table")
      | Some tbl =>
          let section := $"concentrator.leaf_defaults" in
          let? cfg := CheckUnknown tbl section [$"resource"] cfg in
          let? attrs := ReadResource (mkKey tbl section $"resource") (leaf_defaults_resource (concentrator cfg)) in
          inr (on_concentrator (λ o, set_tables attrs (leaves o) o) cfg)
      end
  end.
Definition ReadLeaf (n : TomlNode) (section : str) (cfg : Config) : Result (LeafConfig * Config) :=
  match as_table n with
  | None => inl (invalid section (section ++ $": must be a table"))
  | Some tbl =>
      let? cfg := CheckUnknown tbl section [$"time_mode"; $"resource"] cfg in
      let at_ key := mkKey tbl section key in
      (* [LeafTimeMode{}] when the key is absent *)
      let? time_mode := ReadEnum (at_ $"time_mode") ParseLeafTimeMode
        ($"must be " ++ quoted $"concentrator_stamped" ++ $", " ++ quoted $"sync_relative" ++ $", " ++ quoted $"boot_relative" ++ $" or " ++ quoted $"unix")
        ModeConcentratorStamped in
      let mode := match get $"time_mode" tbl with Some _ => Some time_mode | None => None end in
      let? attrs := ReadResource (at_ $"resource") [] in
      inr (mkLeafConfig mode attrs, cfg)
  end.
Fixpoint read_leaves (tbl : TomlTable) (cfg : Config) : Result Config :=
  match tbl with
  | [] => inr cfg
  | (id, value) :: rest =>
      let? r := ReadLeaf value ($"concentrator.leaves." ++ id) cfg in
      let '(leaf, cfg) := r in
      read_leaves rest (on_concentrator (λ o, set_tables (leaf_defaults_resource o) (leaves o ++ [(id, leaf)]) o) cfg)
  end.
Definition ReadLeaves (sec : TomlTable) (cfg : Config) : Result Config :=
  match get $"leaves" sec with
  | None => inr cfg
  | Some n => match as_table n with None => inl (InvalidAt kConcentrator $"leaves" $"must be a table") | Some tbl => read_leaves tbl cfg end
  end.
Definition concentrator_keys : list str :=
  [$"enabled"; $"max_payload_bytes"; $"max_spans_per_payload"; $"max_leaves"; $"max_leaf_resource_bytes"; $"max_node_resource_bytes";
   $"leaf_idle_timeout"; $"unknown_leaf"; $"leaf_id_attribute"; $"default_time_mode"; $"max_sync_age"; $"max_clock_skew"; $"boot_anchor_window";
   $"leaf_defaults"; $"leaves"].
Definition ParseConcentratorSection (root : TomlTable) (cfg : Config) : Result Config :=
  match section_of $"concentrator" root with
  | None => inr cfg
  | Some sec =>
      let? cfg := CheckUnknown sec kConcentrator concentrator_keys cfg in
      let? o := ReadConcentratorLimits sec (concentrator cfg) in
      let? o := ReadConcentratorPolicies sec o in
      let? cfg := ReadLeafDefaults sec (on_concentrator (λ _, o) cfg) in
      ReadLeaves sec cfg
  end.

(** ** The document *)

Definition top_level : list str :=
  [$"config"; $"exporter"; $"service"; $"resource"; $"tls"; $"sdk"; $"timeouts"; $"logging"; $"concentrator"].
Definition kSections : list (TomlTable → Config → Result Config) :=
  [ParseExporterSection; ParseExporterHeaders; ParseServiceSection; ParseResourceSection; ParseTlsSection; ParseSdkSection;
   ParseLoggingSection; ParseTimeoutsSection; ParseConcentratorSection].
Fixpoint run_sections (l : list (TomlTable → Config → Result Config)) (root : TomlTable) (cfg : Config) : Result Config :=
  match l with
  | [] => inr cfg
  | parse :: rest => let? cfg := parse root cfg in run_sections rest root cfg
  end.
Definition ParseTable (root : TomlTable) : Result Config :=
  let? cfg := ParseConfigSection root Config_default in
  let? cfg := CheckUnknown root [] top_level cfg in
  run_sections kSections root cfg.
(** [inl] is the description of a [toml::parse_error]. *)
Definition ParseTomlString (parsed : str + TomlTable) : Result Config :=
  match parsed with
  | inl description => inl (Config.mkConfigError FileParseFailure [] description)
  | inr root => ParseTable root
  end.
Definition LoadToml (exists_ : str → bool) (parse_file : str → str + TomlTable) (path : str) : Result Config :=
  if negb (exists_ path) then inl (Config.mkConfigError FileNotFound [] ($"Config file not found: " ++ path))
  else ParseTomlString (parse_file path).
End loader.

(** ** What happens to unknown keys *)

(** The dotted paths of the keys no section knows, in the order they are met. *)
Definition unknown_in (section : str) (known : list str) (tbl : TomlTable) : list str :=
  dotted section <$> List.filter (λ k, negb (bool_decide (k ∈ known))) tbl.*1.
Definition paths_of (key : str) (known : list str) (root : TomlTable) : list str :=
  match section_of key root with Some sec => unknown_in key known sec | None => [] end.
Definition leaf_paths (p : str * TomlNode) : list str :=
  match as_table (snd p) with Some t => unknown_in ($"concentrator.leaves." ++ fst p) [$"time_mode"; $"resource"] t | None => [] end.
Definition concentrator_paths (root : TomlTable) : list str :=
  match section_of $"concentrator" root with
  | None => []
  | Some sec =>
      unknown_in kConcentrator concentrator_keys sec
      ++ match section_of $"leaf_defaults" sec with Some t => unknown_in $"concentrator.leaf_defaults" [$"resource"] t | None => [] end
      ++ match section_of $"leaves" sec with Some t => concat (leaf_paths <$> t) | None => [] end
  end.
Definition unknown_paths (root : TomlTable) : list str :=
  paths_of $"config" [$"unknown_keys"] root
  ++ unknown_in [] top_level root
  ++ paths_of $"exporter" [$"endpoint"; $"protocol"; $"compression"; $"headers"] root
  ++ paths_of $"service" [$"name"; $"version"] root
  ++ paths_of $"tls" [$"insecure"; $"ca_bundle"; $"client_cert"; $"client_key"; $"sni_override"] root
  ++ paths_of $"sdk" [$"max_queue_size"; $"max_export_batch_size"; $"schedule_delay_ms"; $"drop_policy"; $"resource_detectors_strict"] root
  ++ paths_of $"logging" [$"level"] root
  ++ paths_of $"timeouts" [$"connect_ms"; $"tls_ms"; $"per_export_ms"; $"retry_budget_ms"; $"flush_ms"; $"shutdown_ms"] root
  ++ concentrator_paths root.

(** A step that treats [paths], and no other, as unknown keys. *)
Definition reported (paths : list str) (cfg : Config) (r : Result Config) : Prop :=
  match r with
  | inr cfg' =>
      unknown_key_mode cfg' = unknown_key_mode cfg
      ∧ match unknown_key_mode cfg with
        | KeysError => paths = [] ∧ unknown_keys_warned cfg' = unknown_keys_warned cfg
        | KeysWarn => unknown_keys_warned cfg' = unknown_keys_warned cfg ++ paths
        | KeysIgnore => unknown_keys_warned cfg' = unknown_keys_warned cfg
        end
  | inl e => ce_kind e = UnknownKey → unknown_key_mode cfg = KeysError ∧ ∃ p rest, paths = p :: rest ∧ e = unknown_key p
  end.
Definition reports (paths : list str) (f : Config → Result Config) : Prop := ∀ cfg, reported paths cfg (f cfg).
Definition quiet (g : Config → Config) : Prop := ∀ c, unknown_key_mode (g c) = unknown_key_mode c ∧ unknown_keys_warned (g c) = unknown_keys_warned c.
Definition not_unknown {A} (r : Result A) : Prop := ∀ e, r = inl e → ce_kind e ≠ UnknownKey.

Lemma reports_then p q f k : reports p f → reports q k → reports (p ++ q) (λ cfg, and_then (f cfg) k).
Proof.
  intros Hf Hk cfg. specialize (Hf cfg). unfold reported in *. destruct (f cfg) as [e|c1]; cbn [and_then].
  - intros He. destruct (Hf He) as (Hm & p' & rest & -> & ->). split; [done|]. by exists p', (rest ++ q).
  - destruct Hf as [Hm Hw]. specialize (Hk c1). unfold reported in Hk. rewrite Hm in Hk. destruct (k c1) as [e|c2].
    + intros He. destruct (Hk He) as (Hm' & p' & rest & -> & ->). rewrite Hm' in *. destruct Hw as [-> _]. split; [done|]. by exists p', rest.
    + destruct Hk as [Hm2 Hw2]. split; [congruence|]. destruct (unknown_key_mode cfg).
      * destruct Hw as [-> ?], Hw2 as [-> ?]. split; [done|congruence].
      * by rewrite Hw2, Hw, app_assoc.
      * congruence.
Qed.
Lemma reports_quiet g : quiet g → reports [] (λ cfg, inr (g cfg)).
Proof. intros Hg cfg. cbn. destruct (Hg cfg) as [H1 H2]. split; [done|]. destruct (unknown_key_mode cfg); rewrite H2; [done|by rewrite app_nil_r|done]. Qed.
Lemma reports_after_quiet p g f : quiet g → reports p f → reports p (λ cfg, f (g cfg)).
Proof.
  intros Hg Hf cfg. specialize (Hf (g cfg)). destruct (Hg cfg) as [H1 H2]. unfold reported in *. by rewrite H1, H2 in Hf.
Qed.
Lemma reports_read {A} p (r : Config → Result A) (k : A → Config → Result Config) :
  (∀ cfg, not_unknown (r cfg)) → (∀ x, reports p (k x)) → reports p (λ cfg, and_then (r cfg) (λ x, k x cfg)).
Proof.
  intros Hr Hk cfg. specialize (Hr cfg). unfold not_unknown in Hr. unfold reported. destruct (r cfg) as [e|x] eqn:E; cbn [and_then]; [by intros He%(Hr e)|].
  apply Hk.
Qed.
Lemma check_keys_spec warn section known tbl warned :
  check_keys warn section known tbl warned
  = if warn then inr (warned ++ unknown_in section known tbl)
    else match unknown_in section known tbl with [] => inr warned | p :: _ => inl (unknown_key p) end.
Proof.
  unfold unknown_in. revert warned. induction tbl as [|[key n] tbl IH]; intros warned; cbn [check_keys fmap list_fmap fst List.filter].
  - by destruct warn; rewrite ?app_nil_r.
  - destruct (bool_decide (key ∈ known)); cbn [negb]; [apply IH|]. destruct warn; [|done]. rewrite IH. cbn. by rewrite <- app_assoc.
Qed.
Lemma reports_check tbl section known : reports (unknown_in section known tbl) (CheckUnknown tbl section known).
Proof.
  intros cfg. unfold CheckUnknown, reported. destruct (unknown_key_mode cfg) eqn:E; cbn [and_then]; [| |by rewrite E].
  - rewrite check_keys_spec. destruct (unknown_in section known tbl) as [|p rest]; cbn [and_then]; [by rewrite <- E|]. intros _. split; [done|]. by exists p, rest.
  - rewrite check_keys_spec. cbn. by rewrite E.
Qed.
Lemma quiet_with_value {T} (value : TomlNode → option T) key tbl set : (∀ v, quiet (set v)) → quiet (with_value value key tbl set).
Proof. intros H c. unfold with_value. by destruct (get key tbl ≫= value); [apply H|]. Qed.
Lemma reports_choice {T} value key tbl (parse : str → option T) field message set :
  (∀ v, quiet (set v)) → reports [] (with_choice value key tbl parse (invalid field message) set).
Proof.
  intros H cfg. unfold with_choice. destruct (get key tbl ≫= value) as [v|]; [destruct (parse v) as [x|]|].
  - by apply (reports_quiet (set x)).
  - done.
  - by apply (reports_quiet id).
Qed.
Lemma reports_section key known root (body : TomlTable → Config → Result Config) :
  (∀ sec, reports [] (body sec)) →
  reports (paths_of key known root) (λ cfg, match section_of key root with
                                            | None => inr cfg
                                            | Some sec => and_then (CheckUnknown sec key known cfg) (body sec)
                                            end).
Proof.
  intros Hb. unfold paths_of. destruct (section_of key root) as [sec|]; [|by apply (reports_quiet id)].
  rewrite <- (app_nil_r (unknown_in _ _ _)). apply (reports_then _ [] (CheckUnknown sec key known) (body sec)); [apply reports_check|apply Hb].
Qed.

Lemma reports_ext p f g : (∀ cfg, f cfg = g cfg) → reports p g → reports p f.
Proof. intros H Hg cfg. rewrite H. apply Hg. Qed.
Lemma reports_fail p e : ce_kind e ≠ UnknownKey → reports p (λ _, inl e).
Proof. intros He cfg H. done. Qed.
(** Readers of the concentrator's keys refuse with InvalidValue only. *)
Lemma not_unknown_then {A B} (r : Result A) (k : A → Result B) : not_unknown r → (∀ x, not_unknown (k x)) → not_unknown (and_then r k).
Proof. intros Hr Hk e [He|(x & _ & He)]%and_then_inl; [by apply Hr|by apply (Hk x)]. Qed.
Lemma not_unknown_inr {A} (x : A) : not_unknown (inr x).
Proof. done. Qed.
Lemma not_unknown_refuse {A} k message : not_unknown (@refuse A k message).
Proof. by intros e [= <-]. Qed.
#[local] Hint Resolve not_unknown_inr not_unknown_refuse : core.
Ltac by_cases := repeat first [by eauto | split_match | split_if]; eauto.
Lemma ReadBool_nu k old : not_unknown (ReadBool k old).
Proof. unfold ReadBool. by_cases. Qed.
Lemma ReadCount_nu k old : not_unknown (ReadCount k old).
Proof. unfold ReadCount. by_cases. Qed.
Lemma ReadByteSize_nu k old : not_unknown (ReadByteSize k old).
Proof. unfold ReadByteSize. pose proof (ReadCount_nu k old). destruct (node_at k) as [[]|]; by_cases. Qed.
Lemma ReadEnum_nu {T} k (parse : str → option T) expected old : not_unknown (ReadEnum k parse expected old).
Proof. unfold ReadEnum. by_cases. Qed.
Lemma ReadString_nu k old : not_unknown (ReadString k old).
Proof. unfold ReadString. by_cases. Qed.
Lemma resource_entries_nu k tbl : not_unknown (resource_entries k tbl).
Proof.
  induction tbl as [|[key n] tbl IH]; cbn; [done|]. destruct (ResourceValue n); [|done]. by apply not_unknown_then.
Qed.
Lemma ReadResource_nu k old : not_unknown (ReadResource k old).
Proof. unfold ReadResource. destruct (node_at k) as [n|]; [|done]. destruct (as_table n); [apply resource_entries_nu|done]. Qed.
#[local] Hint Resolve ReadBool_nu ReadCount_nu ReadByteSize_nu ReadEnum_nu ReadString_nu ReadResource_nu : core.
Lemma ReadConcentratorLimits_nu sec o : not_unknown (ReadConcentratorLimits sec o).
Proof. unfold ReadConcentratorLimits, ReadDuration. repeat (apply not_unknown_then; [eauto|intros ?]). done. Qed.
Lemma ReadConcentratorPolicies_nu sec o : not_unknown (ReadConcentratorPolicies sec o).
Proof. unfold ReadConcentratorPolicies, ReadDuration. repeat (apply not_unknown_then; [eauto|intros ?]). done. Qed.

Lemma quiet_concentrator f : quiet (on_concentrator f).
Proof. done. Qed.
Lemma reports_leaf_defaults sec :
  reports (match section_of $"leaf_defaults" sec with Some t => unknown_in $"concentrator.leaf_defaults" [$"resource"] t | None => [] end) (ReadLeafDefaults sec).
Proof.
  unfold section_of, ReadLeafDefaults. destruct (get _ sec) as [n|]; cbn [mbind option_bind]; [|by apply (reports_quiet id)].
  destruct (as_table n) as [t|]; [|by apply reports_fail]. rewrite <- (app_nil_r (unknown_in _ _ _)).
  eapply (reports_then _ [] (CheckUnknown _ _ _)); [apply reports_check|].
  eapply (reports_read [] (λ cfg, ReadResource _ _) (λ attrs cfg, inr (on_concentrator (λ o, set_tables attrs (LeafOptions.leaves o) o) cfg))); [eauto|].
  intros x. by apply reports_quiet.
Qed.
Lemma reports_read_leaves tbl : reports (concat (leaf_paths <$> tbl)) (read_leaves tbl).
Proof.
  induction tbl as [|[id n] tbl IH]; [by apply (reports_quiet id)|]. cbn [read_leaves fmap list_fmap concat].
  unfold leaf_paths at 1, ReadLeaf. cbn [fst snd]. destruct (as_table n) as [t|]; [|by apply reports_fail].
  eapply reports_ext; [intros cfg; rewrite EnvResolver.and_then_assoc; reflexivity|]. eapply (reports_then _ _ (CheckUnknown t _ _)); [apply reports_check|].
  eapply reports_ext; [intros cfg; rewrite EnvResolver.and_then_assoc; reflexivity|]. eapply (reports_read _ (λ cfg, ReadEnum _ _ _ _) (λ x cfg, _)); [eauto|]. intros mode.
  eapply reports_ext; [intros cfg; rewrite EnvResolver.and_then_assoc; reflexivity|]. eapply (reports_read _ (λ cfg, ReadResource _ _) (λ x cfg, _)); [eauto|]. intros attrs.
  cbn [and_then]. apply (reports_after_quiet _ (on_concentrator _) (read_leaves tbl)); [done|exact IH].
Qed.
Lemma reports_leaves sec : reports (match section_of $"leaves" sec with Some t => concat (leaf_paths <$> t) | None => [] end) (ReadLeaves sec).
Proof.
  unfold section_of, ReadLeaves. destruct (get _ sec) as [n|]; cbn [mbind option_bind]; [|by apply (reports_quiet id)].
  destruct (as_table n) as [t|]; [apply reports_read_leaves|by apply reports_fail].
Qed.
Lemma reports_concentrator root : reports (concentrator_paths root) (ParseConcentratorSection root).
Proof.
  unfold concentrator_paths, ParseConcentratorSection. destruct (section_of $"concentrator" root) as [sec|]; [|by apply (reports_quiet id)].
  eapply (reports_then _ _ (CheckUnknown _ _ _)); [apply reports_check|].
  eapply (reports_read _ (λ cfg, ReadConcentratorLimits sec (concentrator cfg)) (λ o cfg, _)); [intros; apply ReadConcentratorLimits_nu|]. intros o.
  eapply (reports_read _ (λ cfg, ReadConcentratorPolicies sec o) (λ o cfg, _)); [intros; apply ReadConcentratorPolicies_nu|]. intros o'.
  eapply (reports_then _ _ (λ cfg, ReadLeafDefaults sec (on_concentrator (λ _, o') cfg))); [|apply reports_leaves].
  apply (reports_after_quiet _ (on_concentrator (λ _, o')) (ReadLeafDefaults sec)); [done|apply reports_leaf_defaults].
Qed.

Section sections.
Context (vals : TomlValues).
Lemma reports_exporter root : reports (paths_of $"exporter" [$"endpoint"; $"protocol"; $"compression"; $"headers"] root) (ParseExporterSection vals root).
Proof.
  apply reports_section. intros sec.
  eapply (reports_then [] [] (λ cfg, with_choice _ _ _ _ _ _ (with_value _ _ _ _ cfg))); [|apply reports_quiet, quiet_with_value; done].
  apply (reports_after_quiet [] (with_value _ _ _ _) (with_choice _ _ _ _ _ _)); [by apply quiet_with_value|by apply reports_choice].
Qed.
Lemma reports_headers root : reports [] (ParseExporterHeaders vals root).
Proof. apply (reports_quiet (λ cfg, match _ with None => cfg | Some tbl => set_headers (string_entries vals tbl) cfg end)). intros c. by destruct (_ ≫= _). Qed.
Lemma reports_service root : reports (paths_of $"service" [$"name"; $"version"] root) (ParseServiceSection vals root).
Proof.
  apply reports_section. intros sec.
  apply (reports_quiet (λ cfg, with_value _ _ _ _ (with_value _ _ _ _ cfg))). intros c. unfold with_value. by repeat split_match.
Qed.
Lemma reports_resource root : reports [] (ParseResourceSection vals root).
Proof. apply (reports_quiet (λ cfg, match _ with None => cfg | Some sec => set_resource_attrs (string_entries vals sec) cfg end)). intros c. by destruct (section_of _ _). Qed.
Lemma quiet_comp f g : quiet f → quiet g → quiet (λ c, f (g c)).
Proof. intros Hf Hg c. destruct (Hf (g c)), (Hg c). split; congruence. Qed.
Ltac by_values := repeat (apply (quiet_comp (with_value _ _ _ _)); [by apply quiet_with_value|]); by intros ?.
Lemma reports_tls root :
  reports (paths_of $"tls" [$"insecure"; $"ca_bundle"; $"client_cert"; $"client_key"; $"sni_override"] root) (ParseTlsSection vals root).
Proof. apply reports_section. intros sec. eapply (reports_quiet (λ cfg, with_value _ _ _ _ (with_value _ _ _ _ (with_value _ _ _ _ (with_value _ _ _ _ (with_value _ _ _ _ cfg)))))). by_values. Qed.
Lemma reports_sdk root :
  reports (paths_of $"sdk" [$"max_queue_size"; $"max_export_batch_size"; $"schedule_delay_ms"; $"drop_policy"; $"resource_detectors_strict"] root) (ParseSdkSection vals root).
Proof.
  apply reports_section. intros sec.
  eapply (reports_after_quiet [] (λ cfg, with_value _ _ _ _ (with_value _ _ _ _ (with_value _ _ _ _ (with_value _ _ _ _ cfg)))) (with_choice _ _ _ _ _ _)); [by_values|by apply reports_choice].
Qed.
Lemma reports_logging root : reports (paths_of $"logging" [$"level"] root) (ParseLoggingSection vals root).
Proof. apply reports_section. intros sec. by apply reports_choice. Qed.
Lemma reports_timeouts root :
  reports (paths_of $"timeouts" [$"connect_ms"; $"tls_ms"; $"per_export_ms"; $"retry_budget_ms"; $"flush_ms"; $"shutdown_ms"] root) (ParseTimeoutsSection vals root).
Proof.
  apply reports_section. intros sec.
  eapply (reports_quiet (λ cfg, with_value _ _ _ _ (with_value _ _ _ _ (with_value _ _ _ _ (with_value _ _ _ _ (with_value _ _ _ _ (with_value _ _ _ _ cfg))))))). by_values.
Qed.
Lemma reports_sections root :
  reports (paths_of $"exporter" [$"endpoint"; $"protocol"; $"compression"; $"headers"] root
    ++ paths_of $"service" [$"name"; $"version"] root
    ++ paths_of $"tls" [$"insecure"; $"ca_bundle"; $"client_cert"; $"client_key"; $"sni_override"] root
    ++ paths_of $"sdk" [$"max_queue_size"; $"max_export_batch_size"; $"schedule_delay_ms"; $"drop_policy"; $"resource_detectors_strict"] root
    ++ paths_of $"logging" [$"level"] root
    ++ paths_of $"timeouts" [$"connect_ms"; $"tls_ms"; $"per_export_ms"; $"retry_budget_ms"; $"flush_ms"; $"shutdown_ms"] root
    ++ concentrator_paths root) (run_sections (kSections vals) root).
Proof.
  cbn [kSections run_sections]. apply (reports_then _ _ (ParseExporterSection vals root)); [apply reports_exporter|].
  apply (reports_then [] _ (ParseExporterHeaders vals root)); [apply reports_headers|].
  apply (reports_then _ _ (ParseServiceSection vals root)); [apply reports_service|].
  apply (reports_then [] _ (ParseResourceSection vals root)); [apply reports_resource|].
  apply (reports_then _ _ (ParseTlsSection vals root)); [apply reports_tls|].
  apply (reports_then _ _ (ParseSdkSection vals root)); [apply reports_sdk|].
  apply (reports_then _ _ (ParseLoggingSection vals root)); [apply reports_logging|].
  apply (reports_then _ _ (ParseTimeoutsSection vals root)); [apply reports_timeouts|].
  rewrite <- (app_nil_r (concentrator_paths root)).
  apply (reports_then _ [] (ParseConcentratorSection root)); [apply reports_concentrator|by apply (reports_quiet id)].
Qed.
End sections.

(** The mode a document asks for; unset is "error". *)
Definition declared_mode (vals : TomlValues) (root : TomlTable) : option UnknownKeyMode :=
  match sec ← section_of $"config" root; get $"unknown_keys" sec ≫= value_string vals with None => Some KeysError | Some v => key_mode_of v end.
(** A document is refused for an unknown key exactly under the mode "error", naming
    the dotted path of the first one in the order the sections are read; under
    "warn" it is accepted with the list of all of them, each once and in that order,
    and under "ignore" with none. *)
Theorem toml_unknown_keys vals root :
  match ParseTable vals root with
  | inr cfg =>
      declared_mode vals root = Some (unknown_key_mode cfg)
      ∧ match unknown_key_mode cfg with
        | KeysError => unknown_paths root = [] ∧ unknown_keys_warned cfg = []
        | KeysWarn => unknown_keys_warned cfg = unknown_paths root
        | KeysIgnore => unknown_keys_warned cfg = []
        end
  | inl e => ce_kind e = UnknownKey → declared_mode vals root = Some KeysError ∧ ∃ path rest, unknown_paths root = path :: rest ∧ e = unknown_key path
  end.
Proof.
  set (rest := λ c, let? c := CheckUnknown root [] top_level c in run_sections (kSections vals) root c).
  assert (reports (unknown_paths root) (λ c, let? c := (match section_of $"config" root with None => inr c | Some sec => CheckUnknown sec $"config" [$"unknown_keys"] c end) in rest c)) as Hrest.
  { apply (reports_then _ _ (λ c, match section_of $"config" root with None => inr c | Some sec => CheckUnknown sec $"config" [$"unknown_keys"] c end)).
    - unfold paths_of. destruct (section_of _ root); [apply reports_check|by apply (reports_quiet id)].
    - apply (reports_then _ _ (CheckUnknown root [] top_level)); [apply reports_check|apply reports_sections]. }
  assert (∀ m, declared_mode vals root = Some m →
    ParseTable vals root = (let? c := (match section_of $"config" root with None => inr (set_key_mode m Config_default) | Some sec => CheckUnknown sec $"config" [$"unknown_keys"] (set_key_mode m Config_default) end) in rest c)) as Hm.
  { intros m. unfold ParseTable, ParseConfigSection, declared_mode, with_choice. destruct (section_of $"config" root) as [sec|]; cbn [mbind option_bind]; [|by intros [= <-]].
    destruct (get $"unknown_keys" sec ≫= value_string vals) as [v|]; [|by intros [= <-]]. intros ->. done. }
  destruct (declared_mode vals root) as [m|] eqn:Em.
  - rewrite (Hm m eq_refl). specialize (Hrest (set_key_mode m Config_default)). unfold reported in Hrest. cbn [set_key_mode unknown_key_mode unknown_keys_warned Config_default] in Hrest.
    destruct (and_then _ rest) as [e|cfg].
    + intros He. by destruct (Hrest He) as [-> H].
    + destruct Hrest as [-> H]. split; [done|]. exact H.
  - unfold ParseTable, ParseConfigSection, with_choice. unfold declared_mode in Em. destruct (section_of $"config" root) as [sec|]; cbn [mbind option_bind] in Em; [|done].
    destruct (get $"unknown_keys" sec ≫= value_string vals) as [v|]; [|done]. rewrite Em. done.
Qed.

(** ** A configuration written as a document *)

Section document.
Context (vals : TomlValues) `{!TomlLaws vals}.
Definition text_entries (l : list KeyValue) : TomlTable := (λ kv, (kv_key kv, match kv_value kv with AvString s => TString s | _ => TOther end)) <$> l.
Definition value_node (v : AttributeValue) : TomlNode :=
  match v with AvString s => TString s | AvInt i => TInteger i | AvDouble d => TFloat d | AvBool b => TBoolean b | _ => TOther end.
Definition resource_node (l : list KeyValue) : TomlNode := TTable ((λ kv, (kv_key kv, value_node (kv_value kv))) <$> l).
Definition seconds (n : Z) : TomlNode := TString (decimal n ++ $"s").
Definition mode_text (m : LeafTimeMode) : str :=
  match m with ModeConcentratorStamped => $"concentrator_stamped" | ModeSyncRelative => $"sync_relative" | ModeBootRelative => $"boot_relative" | ModeUnix => $"unix" end.
Definition level_text (l : LogLevel) : str :=
  match l with LevelTrace => $"trace" | LevelDebug => $"debug" | LevelInfo => $"info" | LevelWarn => $"warn" | LevelError => $"error" end.
Definition leaf_node (leaf : LeafConfig) : TomlNode :=
  TTable (match LeafOptions.lc_time_mode leaf with Some m => [($"time_mode", TString (mode_text m))] | None => [] end
          ++ [($"resource", resource_node (LeafOptions.lc_resource leaf))]).
Definition concentrator_table (o : LeafReceiverOptions) : TomlTable :=
  [($"enabled", TBoolean (LeafOptions.enabled o));
   ($"max_payload_bytes", TInteger (LeafOptions.max_payload_bytes o));
   ($"max_spans_per_payload", TInteger (LeafOptions.max_spans_per_payload o));
   ($"max_leaves", TInteger (LeafOptions.max_leaves o));
   ($"max_leaf_resource_bytes", TInteger (LeafOptions.max_leaf_resource_bytes o));
   ($"max_node_resource_bytes", TInteger (LeafOptions.max_node_resource_bytes o));
   ($"leaf_idle_timeout", seconds (LeafOptions.leaf_idle_timeout o));
   ($"unknown_leaf", TString (match LeafOptions.unknown_leaf o with LeafOptions.AcceptUnknown => $"accept" | LeafOptions.RejectUnknown => $"reject" end));
   ($"leaf_id_attribute", TString (LeafOptions.leaf_id_attribute o));
   ($"default_time_mode", TString (match LeafOptions.default_time_mode o with Some m => mode_text m | None => $"auto" end));
   ($"max_sync_age", seconds (LeafOptions.lo_max_sync_age o));
   ($"max_clock_skew", seconds (LeafOptions.lo_max_clock_skew o));
   ($"boot_anchor_window", seconds (LeafOptions.boot_anchor_window o));
   ($"leaf_defaults", TTable [($"resource", resource_node (LeafOptions.leaf_defaults_resource o))]);
   ($"leaves", TTable ((λ p, (fst p, leaf_node (snd p))) <$> LeafOptions.leaves o))].
Definition document (c : Config) : TomlTable :=
  let e := exporter c in let s := service c in let t := tls (options c) in let b := batch (options c) in let m := timeouts (options c) in
  [($"exporter", TTable [($"endpoint", TString (endpoint_url e)); ($"protocol", TString (match protocol e with Grpc => $"grpc" | Http => $"http" end));
      ($"compression", TString (if compression_gzip e then $"gzip" else $"none")); ($"headers", TTable (text_entries (headers e)))]);
   ($"service", TTable [($"name", TString (service_name s)); ($"version", TString (service_version s))]);
   ($"resource", TTable (text_entries (resource_attrs s)));
   ($"tls", TTable [($"insecure", TBoolean (to_insecure t)); ($"ca_bundle", TString (to_ca_bundle t)); ($"client_cert", TString (to_client_cert t));
      ($"client_key", TString (to_client_key t)); ($"sni_override", TString (to_sni_override t))]);
   ($"sdk", TTable [($"max_queue_size", TInteger (max_queue_size b)); ($"max_export_batch_size", TInteger (max_export_batch_size b));
      ($"schedule_delay_ms", TInteger (schedule_delay b)); ($"drop_policy", TString (match drop_policy b with DropNewest => $"newest" | DropOldest => $"oldest" end));
      ($"resource_detectors_strict", TBoolean (resource_detectors_strict s))]);
   ($"timeouts", TTable [($"connect_ms", TInteger (t_connect m)); ($"tls_ms", TInteger (t_tls_handshake m)); ($"per_export_ms", TInteger (t_per_export m));
      ($"retry_budget_ms", TInteger (t_retry_budget m)); ($"flush_ms", TInteger (t_flush m)); ($"shutdown_ms", TInteger (t_shutdown m))]);
   ($"logging", TTable [($"level", TString (level_text (log_level c)))]);
   ($"concentrator", TTable (concentrator_table (concentrator c)))].

(** What has a TOML form: the settings with no key of their own are at their
    defaults, and the values fit the types the keys are read as. *)
Definition scalar (v : AttributeValue) : bool := match v with AvString _ | AvInt _ | AvDouble _ | AvBool _ => true | _ => false end.
Definition textual (v : AttributeValue) : bool := match v with AvString _ => true | _ => false end.
Definition is_u32b (z : Z) : bool := (0 <=? z) && (z <=? u32_max).
Definition duration_b (z : Z) : bool := (0 <=? z) && (z <=? 2 ^ 63 - 1).
Definition expressible_leaves (o : LeafReceiverOptions) : bool :=
  forallb is_u32b [LeafOptions.max_payload_bytes o; LeafOptions.max_spans_per_payload o; LeafOptions.max_leaves o;
                   LeafOptions.max_leaf_resource_bytes o; LeafOptions.max_node_resource_bytes o]
  && forallb duration_b [LeafOptions.leaf_idle_timeout o; LeafOptions.lo_max_sync_age o; LeafOptions.lo_max_clock_skew o; LeafOptions.boot_anchor_window o]
  && forallb (λ kv, scalar (kv_value kv)) (LeafOptions.leaf_defaults_resource o)
  && forallb (λ p, forallb (λ kv, scalar (kv_value kv)) (LeafOptions.lc_resource (snd p))) (LeafOptions.leaves o).
Record expressible (c : Config) : Prop := {
  ex_kept : endpoint (exporter c) = endpoint (exporter Config_default) ∧ protocol_explicit (exporter c) = true ∧ service_name_defaulted (service c) = false
    ∧ span_limits (options c) = SpanLimitOptions_default ∧ memory_limits (options c) = MemoryLimitOptions_default
    ∧ unknown_key_mode c = KeysError ∧ unknown_keys_warned c = [] ∧ metric_interval c = 60000 ∧ metric_temporality c = PreferCumulative;
  ex_batch : is_u32 (max_queue_size (batch (options c))) ∧ is_u32 (max_export_batch_size (batch (options c)));
  ex_texts : forallb (λ kv, textual (kv_value kv)) (headers (exporter c)) = true ∧ forallb (λ kv, textual (kv_value kv)) (resource_attrs (service c)) = true;
  ex_leaves : expressible_leaves (concentrator c) = true
}.

Lemma with_string key tbl s set cfg : get key tbl = Some (TString s) → with_value (value_string vals) key tbl set cfg = set s cfg.
Proof. unfold with_value. intros ->. cbn. by rewrite law_string. Qed.
Lemma with_bool key tbl b set cfg : get key tbl = Some (TBoolean b) → with_value (value_bool vals) key tbl set cfg = set b cfg.
Proof. unfold with_value. intros ->. cbn. by rewrite law_bool. Qed.
Lemma with_i64 key tbl z set cfg : get key tbl = Some (TInteger z) → with_value (value_i64 vals) key tbl set cfg = set z cfg.
Proof. unfold with_value. intros ->. cbn. by rewrite law_i64. Qed.
Lemma with_u32 key tbl z set cfg : is_u32 z → get key tbl = Some (TInteger z) → with_value (value_u32 vals) key tbl set cfg = set z cfg.
Proof. unfold with_value. intros Hz ->. cbn. by rewrite law_u32. Qed.
Lemma with_choice_string {T} key tbl s (parse : str → option T) x e set cfg :
  get key tbl = Some (TString s) → parse s = Some x → with_choice (value_string vals) key tbl parse e set cfg = inr (set x cfg).
Proof. unfold with_choice. intros ->. cbn. rewrite law_string. cbn. by intros ->. Qed.
Lemma CheckUnknown_known tbl section known cfg : unknown_in section known tbl = [] → CheckUnknown tbl section known cfg = inr cfg.
Proof.
  intros H. unfold CheckUnknown. destruct (unknown_key_mode cfg) eqn:E; [| |done]; rewrite check_keys_spec, H; cbn; rewrite ?app_nil_r; by destruct cfg.
Qed.
Lemma string_entries_texts l : forallb (λ kv, textual (kv_value kv)) l = true → string_entries vals (text_entries l) = l.
Proof.
  unfold string_entries, text_entries. induction l as [|[k v] l IH]; cbn; [done|]. intros H. apply andb_true_iff in H as [Hv H].
  destruct v; try done. rewrite law_string. cbn. by rewrite IH.
Qed.
Lemma ParseDuration_seconds n : duration_b n = true → ParseDuration (decimal n ++ $"s") = Some n.
Proof.
  unfold duration_b. intros H. bool_hyps. apply ParseDuration_exact. exists n, 1. destruct (decimal_read n H) as (Hd & Hv & Hne). split_and!; [|lia|done].
  rewrite <- Hv at 2. apply scaled_intro; [done| |left]. rewrite <- Hd. apply digits_split.
Qed.
Lemma ReadDuration_seconds k n old : duration_b n = true → node_at k = Some (seconds n) → ReadDuration k old = inr n.
Proof. unfold ReadDuration, ReadEnum. intros Hn ->. cbn [as_string seconds mbind option_bind]. by rewrite ParseDuration_seconds. Qed.
Lemma ReadCount_integer k n old : is_u32b n = true → node_at k = Some (TInteger n) → ReadCount k old = inr n.
Proof. unfold ReadCount, is_u32b. intros Hn ->. cbn. by rewrite Hn. Qed.
Lemma ReadByteSize_integer k n old : is_u32b n = true → node_at k = Some (TInteger n) → ReadByteSize k old = inr n.
Proof. intros Hn Hk. unfold ReadByteSize. rewrite Hk. by apply ReadCount_integer. Qed.
Lemma ReadResource_node k l old : forallb (λ kv, scalar (kv_value kv)) l = true → node_at k = Some (resource_node l) → ReadResource k old = inr l.
Proof.
  unfold ReadResource, resource_node. intros Hl ->. cbn [as_table]. induction l as [|[key v] l IH]; cbn; [done|]. cbn in Hl. apply andb_true_iff in Hl as [Hv Hl].
  destruct v; try done; cbn; by rewrite IH.
Qed.
Lemma ParseLeafTimeMode_text m : ParseLeafTimeMode (mode_text m) = Some m.
Proof. by destruct m. Qed.
Lemma ReadLeaf_node id leaf cfg :
  forallb (λ kv, scalar (kv_value kv)) (LeafOptions.lc_resource leaf) = true → ReadLeaf (leaf_node leaf) ($"concentrator.leaves." ++ id) cfg = inr (leaf, cfg).
Proof.
  intros Hl. unfold ReadLeaf, leaf_node. cbn [as_table]. destruct leaf as [[m|] res]; cbn [LeafOptions.lc_time_mode LeafOptions.lc_resource app] in *.
  - rewrite CheckUnknown_known by reflexivity. cbn [and_then]. unfold ReadEnum. change (node_at _) with (Some (TString (mode_text m))). cbn [as_string mbind option_bind].
    rewrite ParseLeafTimeMode_text. cbn [and_then]. rewrite (ReadResource_node _ res) by (done || reflexivity). reflexivity.
  - rewrite CheckUnknown_known by reflexivity. cbn [and_then]. unfold ReadEnum. change (node_at _) with (@None TomlNode). cbn [and_then].
    rewrite (ReadResource_node _ res) by (done || reflexivity). reflexivity.
Qed.
Lemma read_leaves_nodes l cfg : forallb (λ p, forallb (λ kv, scalar (kv_value kv)) (LeafOptions.lc_resource (snd p))) l = true →
  read_leaves ((λ p, (fst p, leaf_node (snd p))) <$> l) cfg
  = inr (on_concentrator (λ o, set_tables (LeafOptions.leaf_defaults_resource o) (LeafOptions.leaves o ++ l) o) cfg).
Proof.
  revert cfg. induction l as [|[id leaf] l IH]; intros cfg H.
  - cbn [read_leaves fmap list_fmap]. destruct cfg as [? ? ? ? ? ? ? ? []]. unfold on_concentrator, set_tables. cbn. by rewrite app_nil_r.
  - cbn [forallb fst snd fmap list_fmap] in *. apply andb_true_iff in H as [Hl H]. cbn [read_leaves]. rewrite ReadLeaf_node by done. cbn [and_then].
    rewrite IH by done. unfold on_concentrator. cbn. by rewrite <- app_assoc.
Qed.

Ltac known := rewrite CheckUnknown_known by reflexivity; cbn [and_then].
Lemma ReadLimits_table o o0 : expressible_leaves o = true →
  ReadConcentratorLimits (concentrator_table o) o0
  = inr (LeafOptions.mkLeafReceiverOptions (LeafOptions.enabled o) (LeafOptions.max_payload_bytes o) (LeafOptions.max_spans_per_payload o) (LeafOptions.max_leaves o)
      (LeafOptions.max_leaf_resource_bytes o) (LeafOptions.leaf_idle_timeout o) (LeafOptions.unknown_leaf o0) (LeafOptions.leaf_id_attribute o0) (LeafOptions.default_time_mode o0)
      (LeafOptions.lo_max_sync_age o0) (LeafOptions.lo_max_clock_skew o0) (LeafOptions.boot_anchor_window o0) (LeafOptions.leaf_defaults_resource o0) (LeafOptions.leaves o0)
      (LeafOptions.max_node_resource_bytes o)).
Proof.
  unfold expressible_leaves. cbn [forallb]. intros H. bool_hyps. unfold ReadConcentratorLimits.
  change (ReadBool _ _) with (@inr ConfigError _ (LeafOptions.enabled o)). cbn [and_then].
  rewrite (ReadByteSize_integer _ (LeafOptions.max_payload_bytes o)) by (done || reflexivity). cbn [and_then].
  rewrite (ReadCount_integer _ (LeafOptions.max_spans_per_payload o)) by (done || reflexivity). cbn [and_then].
  rewrite (ReadCount_integer _ (LeafOptions.max_leaves o)) by (done || reflexivity). cbn [and_then].
  rewrite (ReadByteSize_integer _ (LeafOptions.max_leaf_resource_bytes o)) by (done || reflexivity). cbn [and_then].
  rewrite (ReadByteSize_integer _ (LeafOptions.max_node_resource_bytes o)) by (done || reflexivity). cbn [and_then].
  rewrite (ReadDuration_seconds _ (LeafOptions.leaf_idle_timeout o)) by (done || reflexivity). reflexivity.
Qed.
Lemma ReadPolicies_table o o0 : expressible_leaves o = true →
  ReadConcentratorPolicies (concentrator_table o) o0
  = inr (LeafOptions.mkLeafReceiverOptions (LeafOptions.enabled o0) (LeafOptions.max_payload_bytes o0) (LeafOptions.max_spans_per_payload o0) (LeafOptions.max_leaves o0)
      (LeafOptions.max_leaf_resource_bytes o0) (LeafOptions.leaf_idle_timeout o0) (LeafOptions.unknown_leaf o) (LeafOptions.leaf_id_attribute o) (LeafOptions.default_time_mode o)
      (LeafOptions.lo_max_sync_age o) (LeafOptions.lo_max_clock_skew o) (LeafOptions.boot_anchor_window o) (LeafOptions.leaf_defaults_resource o0) (LeafOptions.leaves o0)
      (LeafOptions.max_node_resource_bytes o0)).
Proof.
  unfold expressible_leaves. cbn [forallb]. intros H. bool_hyps. unfold ReadConcentratorPolicies.
  assert (∀ expected old, ReadEnum (mkKey (concentrator_table o) kConcentrator $"unknown_leaf") ParseUnknownLeafPolicy expected old = inr (LeafOptions.unknown_leaf o)) as ->.
  { intros. unfold ReadEnum. change (node_at _) with (Some (TString (match LeafOptions.unknown_leaf o with LeafOptions.AcceptUnknown => $"accept" | LeafOptions.RejectUnknown => $"reject" end))). by destruct (LeafOptions.unknown_leaf o). }
  cbn [and_then]. change (ReadString _ _) with (@inr ConfigError _ (LeafOptions.leaf_id_attribute o)). cbn [and_then].
  assert (∀ expected old, ReadEnum (mkKey (concentrator_table o) kConcentrator $"default_time_mode") ParseDefaultTimeMode expected old = inr (LeafOptions.default_time_mode o)) as ->.
  { intros. unfold ReadEnum. change (node_at _) with (Some (TString (match LeafOptions.default_time_mode o with Some m => mode_text m | None => $"auto" end))).
    by destruct (LeafOptions.default_time_mode o) as [[]|]. }
  cbn [and_then].
  rewrite (ReadDuration_seconds _ (LeafOptions.lo_max_sync_age o)) by (done || reflexivity). cbn [and_then].
  rewrite (ReadDuration_seconds _ (LeafOptions.lo_max_clock_skew o)) by (done || reflexivity). cbn [and_then].
  rewrite (ReadDuration_seconds _ (LeafOptions.boot_anchor_window o)) by (done || reflexivity). reflexivity.
Qed.
Lemma ParseConcentrator_document c cfg : expressible_leaves (concentrator c) = true → LeafOptions.leaves (concentrator cfg) = [] →
  ParseConcentratorSection (document c) cfg = inr (on_concentrator (λ _, concentrator c) cfg).
Proof.
  intros He Hl. unfold ParseConcentratorSection. change (section_of $"concentrator" (document c)) with (Some (concentrator_table (concentrator c))). cbv iota. known.
  rewrite ReadLimits_table by done. cbn [and_then]. rewrite ReadPolicies_table by done. cbn [and_then].
  unfold expressible_leaves in He. apply andb_true_iff in He as [He Hleaves]. apply andb_true_iff in He as [He Hdefaults].
  unfold ReadLeafDefaults. change (get $"leaf_defaults" _) with (Some (TTable [($"resource", resource_node (LeafOptions.leaf_defaults_resource (concentrator c)))])).
  cbn [as_table]. known. rewrite (ReadResource_node _ (LeafOptions.leaf_defaults_resource (concentrator c))) by (done || reflexivity). cbn [and_then].
  unfold ReadLeaves. change (get $"leaves" _) with (Some (TTable ((λ p, (fst p, leaf_node (snd p))) <$> LeafOptions.leaves (concentrator c)))). cbn [as_table].
  rewrite read_leaves_nodes by done. unfold on_concentrator, set_tables. cbn. rewrite Hl. cbn [app]. by destruct c as [? ? ? ? ? ? ? ? []].
Qed.

Lemma on_timeouts_comp f g cfg : on_timeouts f (on_timeouts g cfg) = on_timeouts (λ t, f (g t)) cfg.
Proof. done. Qed.
Lemma on_timeouts_const f m cfg : (∀ t, f t = m) → inr (on_timeouts f cfg) = @inr ConfigError _ (set_timeouts m cfg).
Proof. intros H. unfold on_timeouts. by rewrite H. Qed.
Lemma on_tls_comp f g cfg : on_tls f (on_tls g cfg) = on_tls (λ t, f (g t)) cfg.
Proof. done. Qed.
Lemma on_tls_const f m cfg : (∀ t, f t = m) → inr (on_tls f cfg) = @inr ConfigError _ (set_tls m cfg).
Proof. intros H. unfold on_tls. by rewrite H. Qed.
Lemma on_batch_comp f g cfg : on_batch f (on_batch g cfg) = on_batch (λ t, f (g t)) cfg.
Proof. done. Qed.
Lemma on_batch_const f m cfg : (∀ t, f t = m) → inr (on_batch f cfg) = @inr ConfigError _ (set_batch m cfg).
Proof. intros H. unfold on_batch. by rewrite H. Qed.
Lemma exporter_document c cfg : forallb (λ kv, textual (kv_value kv)) (headers (exporter c)) = true →
  (let? cfg := ParseExporterSection vals (document c) cfg in ParseExporterHeaders vals (document c) cfg)
  = inr (on_exporter (λ e, mkExporterSettings (endpoint_url (exporter c)) (endpoint e) (protocol (exporter c)) true (compression_gzip (exporter c)) (headers (exporter c))) cfg).
Proof.
  intros Ht. unfold ParseExporterSection, ParseExporterHeaders.
  set (sec := [($"endpoint", TString (endpoint_url (exporter c))); ($"protocol", TString (match protocol (exporter c) with Grpc => $"grpc" | Http => $"http" end));
      ($"compression", TString (if compression_gzip (exporter c) then $"gzip" else $"none")); ($"headers", TTable (text_entries (headers (exporter c))))]).
  change (section_of $"exporter" (document c)) with (Some sec). cbv iota. known.
  rewrite (with_string $"endpoint" _ (endpoint_url (exporter c))) by reflexivity.
  rewrite (with_choice_string _ _ (match protocol (exporter c) with Grpc => $"grpc" | Http => $"http" end) _ (protocol (exporter c))) by (reflexivity || by destruct (protocol (exporter c))).
  cbn [and_then]. rewrite (with_string $"compression" _ (if compression_gzip (exporter c) then $"gzip" else $"none")) by reflexivity.
  cbn [mbind option_bind]. change (section_of $"headers" sec) with (Some (text_entries (headers (exporter c)))). cbv iota. rewrite string_entries_texts by done.
  by destruct (compression_gzip (exporter c)).
Qed.
Lemma service_document c cfg : ParseServiceSection vals (document c) cfg = inr (set_service_version (service_version (service c)) (set_service_name (service_name (service c)) cfg)).
Proof.
  unfold ParseServiceSection. set (sec := [($"name", TString (service_name (service c))); ($"version", TString (service_version (service c)))]).
  change (section_of $"service" (document c)) with (Some sec). cbv iota. known.
  rewrite (with_string $"name" _ (service_name (service c))) by reflexivity. by rewrite (with_string $"version" _ (service_version (service c))) by reflexivity.
Qed.
Lemma resource_document c cfg : forallb (λ kv, textual (kv_value kv)) (resource_attrs (service c)) = true →
  ParseResourceSection vals (document c) cfg = inr (set_resource_attrs (resource_attrs (service c)) cfg).
Proof.
  intros H. unfold ParseResourceSection. change (section_of $"resource" (document c)) with (Some (text_entries (resource_attrs (service c)))). cbv iota.
  by rewrite string_entries_texts.
Qed.
Lemma tls_document c cfg : ParseTlsSection vals (document c) cfg = inr (set_tls (tls (options c)) cfg).
Proof.
  unfold ParseTlsSection. set (t := tls (options c)).
  change (section_of $"tls" (document c)) with (Some [($"insecure", TBoolean (to_insecure t)); ($"ca_bundle", TString (to_ca_bundle t)); ($"client_cert", TString (to_client_cert t));
      ($"client_key", TString (to_client_key t)); ($"sni_override", TString (to_sni_override t))]). cbv iota. known.
  rewrite (with_bool $"insecure" _ (to_insecure t)) by reflexivity. rewrite (with_string $"ca_bundle" _ (to_ca_bundle t)) by reflexivity. rewrite (with_string $"client_cert" _ (to_client_cert t)) by reflexivity.
  rewrite (with_string $"client_key" _ (to_client_key t)) by reflexivity. rewrite (with_string $"sni_override" _ (to_sni_override t)) by reflexivity. rewrite !on_tls_comp. apply on_tls_const. intros t'. by destruct t.
Qed.
Lemma sdk_document c cfg : is_u32 (max_queue_size (batch (options c))) → is_u32 (max_export_batch_size (batch (options c))) →
  ParseSdkSection vals (document c) cfg = inr (set_batch (batch (options c)) (set_detectors_strict (resource_detectors_strict (service c)) cfg)).
Proof.
  intros H1 H2. unfold ParseSdkSection. set (b := batch (options c)) in *. set (strict := resource_detectors_strict (service c)).
  change (section_of $"sdk" (document c)) with (Some [($"max_queue_size", TInteger (max_queue_size b)); ($"max_export_batch_size", TInteger (max_export_batch_size b));
      ($"schedule_delay_ms", TInteger (schedule_delay b)); ($"drop_policy", TString (match drop_policy b with DropNewest => $"newest" | DropOldest => $"oldest" end));
      ($"resource_detectors_strict", TBoolean strict)]). cbv iota. known.
  rewrite (with_bool $"resource_detectors_strict" _ strict) by reflexivity. rewrite (with_u32 $"max_queue_size" _ (max_queue_size b)) by (done || reflexivity).
  rewrite (with_u32 $"max_export_batch_size" _ (max_export_batch_size b)) by (done || reflexivity). rewrite (with_i64 $"schedule_delay_ms" _ (schedule_delay b)) by reflexivity.
  rewrite (with_choice_string _ _ (match drop_policy b with DropNewest => $"newest" | DropOldest => $"oldest" end) _ (drop_policy b)) by (reflexivity || by destruct (drop_policy b)).
  rewrite !on_batch_comp. apply on_batch_const. intros b'. by destruct b.
Qed.
Lemma logging_document c cfg : ParseLoggingSection vals (document c) cfg = inr (set_log_level (log_level c) cfg).
Proof.
  unfold ParseLoggingSection. change (section_of $"logging" (document c)) with (Some [($"level", TString (level_text (log_level c)))]). cbv iota. known.
  by rewrite (with_choice_string _ _ (level_text (log_level c)) _ (log_level c)) by (reflexivity || by destruct (log_level c)).
Qed.
Lemma timeouts_document c cfg : ParseTimeoutsSection vals (document c) cfg = inr (set_timeouts (timeouts (options c)) cfg).
Proof.
  unfold ParseTimeoutsSection. set (m := timeouts (options c)).
  change (section_of $"timeouts" (document c)) with (Some [($"connect_ms", TInteger (t_connect m)); ($"tls_ms", TInteger (t_tls_handshake m)); ($"per_export_ms", TInteger (t_per_export m));
      ($"retry_budget_ms", TInteger (t_retry_budget m)); ($"flush_ms", TInteger (t_flush m)); ($"shutdown_ms", TInteger (t_shutdown m))]). cbv iota. known.
  rewrite (with_i64 $"connect_ms" _ (t_connect m)) by reflexivity. rewrite (with_i64 $"tls_ms" _ (t_tls_handshake m)) by reflexivity. rewrite (with_i64 $"per_export_ms" _ (t_per_export m)) by reflexivity.
  rewrite (with_i64 $"retry_budget_ms" _ (t_retry_budget m)) by reflexivity. rewrite (with_i64 $"flush_ms" _ (t_flush m)) by reflexivity. rewrite (with_i64 $"shutdown_ms" _ (t_shutdown m)) by reflexivity.
  rewrite !on_timeouts_comp. apply on_timeouts_const. intros t. by destruct m.
Qed.
Lemma ParseTable_document c : expressible c → ParseTable vals (document c) = inr c.
Proof.
  intros [(H1 & H2 & H3 & H4 & H5 & H6 & H7 & H8 & H9) [Hq Hb] [Hh Hr] Hl]. unfold ParseTable.
  change (ParseConfigSection vals (document c) Config_default) with (@inr ConfigError _ Config_default). cbn [and_then]. known.
  unfold kSections. cbn [run_sections]. rewrite <- EnvResolver.and_then_assoc, exporter_document by done. cbn [and_then]. rewrite service_document. cbn [and_then].
  rewrite resource_document by done. cbn [and_then]. rewrite tls_document. cbn [and_then]. rewrite sdk_document by done. cbn [and_then].
  rewrite logging_document. cbn [and_then]. rewrite timeouts_document. cbn [and_then]. rewrite ParseConcentrator_document by done. cbn [and_then]. f_equal.
  destruct c as [[] [] [] ? ? ? ? ? ?]. cbn in *. by subst.
Qed.
End document.

(** C33: every configuration that a document can express is read back from the document
    that writes it out, setting by setting, whatever toml++'s conversions between
    types are, as long as a value of the expected type is returned unchanged. *)
Theorem toml_document_roundtrip vals c : TomlLaws vals → expressible c → ParseTable vals (document c) = inr c.
Proof. intros Hv. by apply ParseTable_document. Qed.
Definition demo_config : Config :=
  set_headers [mkKeyValue $"x-tenant" (AvString $"7")] (set_protocol Grpc true (set_endpoint_url $"grpcs://collector"
    (on_concentrator (λ o, set_tables [mkKeyValue $"site" (AvInt 3)] [($"10.0.0.1:4000", LeafOptions.mkLeafConfig (Some ModeUnix) [mkKeyValue $"f" (AvBool true)])] (set_enabled true o))
      (set_log_level LevelDebug Config_default)))).
Lemma toml_document_roundtrip_witness :
  get $"concentrator" (document demo_config) ≠ None ∧ ParseTable exact_values (document demo_config) = inr demo_config.
Proof.
  split; [vm_compute; discriminate|]. apply (toml_document_roundtrip exact_values demo_config exact_laws).
  split; [repeat split|split; vm_compute; split; discriminate|split; vm_compute; reflexivity|vm_compute; reflexivity].
Defined.
(** Under the default mode an unknown key anywhere is an error, but a section that is
    not a table at all is passed over in silence. *)
Example unknown_and_mistyped :
  (ParseTable exact_values [($"exporter", TTable [($"endpiont", TString $"https://c")])],
   match ParseTable exact_values [($"exporter", TString $"https://c"); ($"concentrator", TBoolean true)] with inr c => Some (endpoint_url (exporter c), LeafOptions.enabled (concentrator c)) | inl _ => None end)
  = (inl (unknown_key $"exporter.endpiont"), Some ([], false)).
Proof. vm_compute. reflexivity. Qed.
