(* ===== verification/ResourceBuilder.v ===== *)
(** * Composing the Resource

    Model of [src/sdk/resource_builder.cpp]: the layers of the Resource and the one
    log line that shows it.  A detector is its name and what its [Detect] answers;
    [std::format] of a double is the parameter [format_double].  The log lines are
    returned, with their level, in order.

    The theorems: which layer decides each attribute and when the build is refused;
    escaping is injective and leaves nothing that could break the line, and a long
    value is cut between two escapes; a redacted value has no influence on the
    line. *)
From stdpp Require Import sorting.
From S2P Require Import Prelude Baggage Context Data AttributeSet SpanLimits LeafTime LeafResource RetryEngine ProtoReader Wire Http2Connect Config.

(** ** Layers *)

Definition DefaultsLayer (cfg : Config) : Resource :=
  if negb (service_name_defaulted (service cfg)) then mkResource []
  else mkResource [mkKeyValue $"service.name" (AvString (service_name (service cfg)))].
Definition ConfigLayer (cfg : Config) : Resource :=
  let s := service cfg in
  mkResource ((if negb (service_name_defaulted s) then [mkKeyValue $"service.name" (AvString (service_name s))] else [])
              ++ (match service_version s with [] => [] | v => [mkKeyValue $"service.version" (AvString v)] end)
              ++ resource_attrs s).
Record Detector := mkDetector { det_name : str; det_answer : ConfigError + Resource }.
Definition DescribeFailure (d : Detector) (e : ConfigError) : str :=
  $"resource detector " ++ [chr 34] ++ det_name d ++ [chr 34] ++ $" failed: " ++ ce_message e.

(** ** The log line *)

Definition kRedacted : str := $"<redacted>".
Definition kEllipsis : str := $"...".
Definition kSecretKeyFragments : list str :=
  [$"authorization"; $"secret"; $"token"; $"password"; $"passwd"; $"credential"; $"api_key"; $"apikey"].
(** [s.find(fragment) != npos]. *)
Fixpoint contains (fragment s : str) : bool :=
  starts_with s fragment || match s with [] => false | _ :: s' => contains fragment s' end.
Definition IsSecretKey (key : str) : bool := existsb (λ f, contains f (to_lower <$> key)) kSecretKeyFragments.

Definition AppendEscaped (c : char) : str :=
  if c =c "\" then $"\\"
  else if code c =? 34 then [chr 92; chr 34]
  else if code c =? 10 then $"\n"
  else if code c =? 13 then $"\r"
  else if code c =? 9 then $"\t"
  else if (code c <? 32) || (code c =? 127)
  then $"\x" ++ [hex_digit (Z.shiftr (code c) 4); hex_digit (Z.land (code c) 15)]
  else [c].
Definition Escape (text : str) : str := concat (AppendEscaped <$> text).
(** The loop of [SafeCutPoint], one round per unit of fuel. *)
Fixpoint safe_cut (fuel : nat) (rendered : str) (cap pos : Z) : Z :=
  match fuel with
  | O => pos
  | S fuel =>
      if pos <? size rendered then
        let rest := drop (Z.to_nat pos) rendered in
        let len := if starts_with rest $"\x" then 4 else if starts_with rest $"\" then 2 else 1 in
        if cap <? pos + len then pos else safe_cut fuel rendered cap (pos + len)
      else pos
  end.
Definition SafeCutPoint (rendered : str) (cap : Z) : Z := safe_cut (length rendered) rendered cap 0.
Definition kMaxLoggedResourceAttributes : nat := 32.
Definition kMaxLoggedResourceValueChars : Z := 128.

Abbreviation LogLines := (list (LogLevel * str)).
Section log.
Context (format_double : Z → str).
Definition render_text (s : str) : str := [chr 34] ++ Escape s ++ [chr 34].
Definition render_bool (b : bool) : str := if b then $"true" else $"false".
Fixpoint join_comma (l : list str) : str :=
  match l with [] => [] | [x] => x | x :: l => x ++ $", " ++ join_comma l end.
Definition render_list {A} (render : A → str) (l : list A) : str := $"[" ++ join_comma (render <$> l) ++ $"]".
Definition Render (v : AttributeValue) : str :=
  match v with
  | AvBool b => render_bool b
  | AvInt z => to_string z
  | AvDouble d => format_double d
  | AvString s => render_text s
  | AvBools l => render_list render_bool l
  | AvInts l => render_list to_string l
  | AvDoubles l => render_list format_double l
  | AvStrings l => render_list render_text l
  end.
Definition LoggedValue (kv : KeyValue) : str :=
  if IsSecretKey (kv_key kv) then kRedacted
  else
    let rendered := Render (kv_value kv) in
    if kMaxLoggedResourceValueChars <? size rendered
    then take (Z.to_nat (SafeCutPoint rendered kMaxLoggedResourceValueChars)) rendered ++ kEllipsis
    else rendered.
Definition ResourceLine (resource : Resource) (profile_name : str) : str :=
  let sorted := merge_sort key_le (m_attributes resource) in
  let shown := take kMaxLoggedResourceAttributes sorted in
  $"resolved resource ("
  ++ (match profile_name with [] => [] | p => $"profile " ++ [chr 34] ++ p ++ [chr 34] ++ $", " end)
  ++ decimal (size sorted) ++ $" attributes):"
  ++ (match shown with [] => [] | _ => $" " ++ join_comma ((λ kv, Escape (kv_key kv) ++ $"=" ++ LoggedValue kv) <$> shown) end)
  ++ (if (length shown <? length sorted)%nat then $", " ++ kEllipsis ++ $"and " ++ decimal (size sorted - Z.of_nat (length shown)) ++ $" more" else []).
Definition level_rank (l : LogLevel) : Z :=
  match l with LevelTrace => 0 | LevelDebug => 1 | LevelInfo => 2 | LevelWarn => 3 | LevelError => 4 end.
Definition LogResolvedResource (min_level : LogLevel) (resource : Resource) (profile_name : str) : LogLines :=
  if level_rank LevelInfo <? level_rank min_level then [] else [(LevelInfo, ResourceLine resource profile_name)].

(** ** [BuildResource] *)

Definition skipped (d : Detector) (e : ConfigError) : str :=
  DescribeFailure d e ++ $" - skipping its contribution (set sdk.resource_detectors_strict to fail Build instead)".
Fixpoint run_detectors (strict : bool) (detectors : list Detector) (detected : Resource) : LogLines * Result Resource :=
  match detectors with
  | [] => ([], inr detected)
  | d :: rest =>
      match det_answer d with
      | inr contribution => run_detectors strict rest (Merge detected contribution)
      | inl e =>
          if strict then ([], inl (mkConfigError (ce_kind e) (ce_field e) (DescribeFailure d e)))
          else let '(lines, r) := run_detectors strict rest detected in ((LevelWarn, skipped d e) :: lines, r)
      end
  end.
Definition BuildResource (min_level : LogLevel) (cfg : Config) (detectors : list Detector) (profile_name : str) : LogLines * Result Resource :=
  match run_detectors (resource_detectors_strict (service cfg)) detectors (mkResource []) with
  | (lines, inl e) => (lines, inl e)
  | (lines, inr detected) =>
      let resolved := Merge (Merge (DefaultsLayer cfg) detected) (ConfigLayer cfg) in
      (lines ++ LogResolvedResource min_level resolved profile_name, inr resolved)
  end.
End log.

(** ** Which layer decides *)

(** What the detectors contribute for a key: the last successful one that names it,
    with its own last value. *)
Fixpoint detected_attr (k : str) (detectors : list Detector) : option AttributeValue :=
  match detectors with
  | [] => None
  | d :: rest =>
      match detected_attr k rest with
      | Some v => Some v
      | None => match det_answer d with inr r => last_attr k (m_attributes r) | inl _ => None end
      end
  end.
(** The detectors that refused, in order. *)
Fixpoint failures (detectors : list Detector) : list (Detector * ConfigError) :=
  match detectors with
  | [] => []
  | d :: rest => match det_answer d with inl e => (d, e) :: failures rest | inr _ => failures rest end
  end.
Definition warning (f : Detector * ConfigError) : LogLevel * str := (LevelWarn, skipped (fst f) (snd f)).
Definition refusal (f : Detector * ConfigError) : ConfigError :=
  mkConfigError (ce_kind (snd f)) (ce_field (snd f)) (DescribeFailure (fst f) (snd f)).
Lemma run_detectors_exact strict detectors detected :
  match (if strict : bool then failures detectors else []) with
  | f :: _ => run_detectors strict detectors detected = ([], inl (refusal f))
  | [] =>
      ∃ r, run_detectors strict detectors detected = (warning <$> failures detectors, inr r)
           ∧ (∀ k, lookup_attr k (m_attributes r) = match detected_attr k detectors with Some v => Some v | None => lookup_attr k (m_attributes detected) end)
           ∧ (NoDup (kv_key <$> m_attributes detected) → NoDup (kv_key <$> m_attributes r))
  end.
Proof.
  revert detected. induction detectors as [|d rest IH]; intros detected; cbn.
  { destruct strict; by exists detected. }
  destruct (det_answer d) as [e|c]; cbn.
  - destruct strict; [done|]. destruct (IH detected) as (r & -> & Hr & Hd). exists r. split_and!; [done| |done].
    intros k. rewrite Hr. by destruct (detected_attr k rest).
  - specialize (IH (Merge detected c)). destruct (if strict then failures rest else []); [|done].
    destruct IH as (r & -> & Hr & Hd). exists r. split_and!; [done| |].
    + intros k. rewrite Hr. destruct (detected_attr k rest); [done|]. apply merge_fold_lookup.
    + intros H. apply Hd. by apply merge_fold_keys.
Qed.

(** The value a configuration gives a key: the attributes of the environment, the
    file and the code first, then the two service fields. *)
Definition configured_attr (cfg : Config) (k : str) : option AttributeValue :=
  match last_attr k (resource_attrs (service cfg)) with
  | Some v => Some v
  | None =>
      if (k =s $"service.version") && negb (is_empty (service_version (service cfg))) then Some (AvString (service_version (service cfg)))
      else if (k =s $"service.name") && negb (service_name_defaulted (service cfg)) then Some (AvString (service_name (service cfg)))
      else None
  end.
Definition default_attr (cfg : Config) (k : str) : option AttributeValue :=
  if (k =s $"service.name") && service_name_defaulted (service cfg) then Some (AvString (service_name (service cfg))) else None.
Lemma ConfigLayer_attr cfg k : last_attr k (m_attributes (ConfigLayer cfg)) = configured_attr cfg k.
Proof.
  unfold ConfigLayer, configured_attr. cbn [m_attributes]. rewrite !last_attr_app. destruct (last_attr k (resource_attrs _)); [done|].
  destruct (service_version (service cfg)) as [|c v] eqn:Ev; cbn [is_empty negb]; rewrite ?andb_false_r, ?andb_true_r.
  - destruct (service_name_defaulted _); cbn [negb]; rewrite ?andb_false_r, ?andb_true_r; [done|]. rewrite last_attr_one. by rewrite seqb_sym.
  - rewrite last_attr_one. cbn [kv_key kv_value]. rewrite (seqb_sym $"service.version"). destruct (k =s $"service.version"); [done|].
    destruct (service_name_defaulted _); cbn [negb]; rewrite ?andb_false_r, ?andb_true_r; [done|]. rewrite last_attr_one. by rewrite seqb_sym.
Qed.
Lemma DefaultsLayer_attr cfg k : lookup_attr k (m_attributes (DefaultsLayer cfg)) = default_attr cfg k.
Proof.
  unfold DefaultsLayer, default_attr. rewrite seqb_sym. destruct (service_name_defaulted _); cbn [negb]; rewrite ?andb_false_r, ?andb_true_r; [|done].
  unfold lookup_attr, find_key. cbn [m_attributes find kv_key]. by destruct (_ =s k).
Qed.
(** What [BuildResource] composes.  A strict build is refused by the first
    detector that fails, with its kind and field and a message that names it, and
    logs nothing.  Otherwise the warnings name the skipped detectors in order, the
    result has each key once, and its value is the configuration's if there is one,
    else that of the last detector that knows the key, else the default service
    name. *)
Theorem build_resource_exact format_double min_level cfg detectors profile_name :
  match (if resource_detectors_strict (service cfg) then failures detectors else []) with
  | f :: _ => BuildResource format_double min_level cfg detectors profile_name = ([], inl (refusal f))
  | [] =>
      ∃ r, BuildResource format_double min_level cfg detectors profile_name
           = ((warning <$> failures detectors) ++ LogResolvedResource format_double min_level r profile_name, inr r)
           ∧ NoDup (kv_key <$> m_attributes r)
           ∧ ∀ k, lookup_attr k (m_attributes r)
                  = match configured_attr cfg k with
                    | Some v => Some v
                    | None => match detected_attr k detectors with Some v => Some v | None => default_attr cfg k end
                    end
  end.
Proof.
  unfold BuildResource. pose proof (run_detectors_exact (resource_detectors_strict (service cfg)) detectors (mkResource [])) as H.
  destruct (if resource_detectors_strict _ then _ else _); [|by rewrite H]. destruct H as (r & -> & Hr & Hd).
  eexists. split; [done|]. split.
  - apply merge_fold_keys. apply merge_fold_keys. unfold DefaultsLayer. destruct (negb _); cbn; [apply NoDup_nil_2|apply NoDup_singleton].
  - intros k. cbn [Merge m_attributes]. rewrite merge_fold_lookup, ConfigLayer_attr. destruct (configured_attr cfg k); [done|].
    rewrite merge_fold_lookup, (last_attr_NoDup k) by (by apply Hd, NoDup_nil_2). rewrite Hr, DefaultsLayer_attr. by destruct (detected_attr k detectors).
Qed.
(** A service name set in code, and [service.name=other] in
    [OTEL_RESOURCE_ATTRIBUTES]: the environment's wins. *)
Example code_name_overridden :
  let cfg := set_resource_attrs [mkKeyValue $"service.name" (AvString $"other")] (set_service_name $"mine" Config_default) in
  configured_attr cfg $"service.name" = Some (AvString $"other").
Proof. reflexivity. Qed.

(** ** The log line cannot be broken *)

Definition printable (c : char) : bool := (32 <=? code c) && negb (code c =? 127).
Abbreviation clean s := (forallb printable s = true).
(** One escape sequence, or one character that starts none. *)
Inductive chunk : str → Prop :=
| chunk_plain c : c ≠ "\"%char → chunk [c]
| chunk_two x : x ≠ "x"%char → chunk ["\"%char; x]
| chunk_hex h l : chunk ["\"%char; "x"%char; h; l].
(** What an escape reads back to. *)
Definition unescape_one (x : char) : char :=
  if x =c "n" then chr 10 else if x =c "r" then chr 13 else if x =c "t" then chr 9 else x.
Fixpoint Unescape (s : str) : option str :=
  match s with
  | [] => Some []
  | c :: rest =>
      if negb (c =c "\") then cons c <$> Unescape rest
      else match rest with
           | [] => None
           | x :: rest' =>
               if negb (x =c "x") then cons (unescape_one x) <$> Unescape rest'
               else match rest' with
                    | h :: l :: rest'' => cons (chr (Z.lor (Z.shiftl (HexDigitValue h) 4) (HexDigitValue l))) <$> Unescape rest''
                    | _ => None
                    end
           end
  end.
Lemma chunk_bool u :
  match u with
  | [c] => negb (c =c "\") | [b; x] => (b =c "\") && negb (x =c "x") | [b; x; _; _] => (b =c "\") && (x =c "x") | _ => false
  end = true → chunk u.
Proof.
  destruct u as [|b [|x [|h [|l [|]]]]]; try done; intros H; bool_hyps;
    repeat match goal with
    | H : (_ =c _) = true |- _ => apply ceqb_true in H
    | H : (_ =c _) = false |- _ => apply ceqb_false in H
    end; subst; by constructor.
Qed.
Lemma AppendEscaped_chunk c : chunk (AppendEscaped c) ∧ clean (AppendEscaped c).
Proof.
  pose (P := λ c, forallb printable (AppendEscaped c)
    && match AppendEscaped c with
       | [c] => negb (c =c "\") | [b; x] => (b =c "\") && negb (x =c "x") | [b; x; _; _] => (b =c "\") && (x =c "x") | _ => false
       end).
  assert (P c = true) as H by (apply (forall_octets P); vm_compute; reflexivity).
  unfold P in H. apply andb_true_iff in H as [H1 H2]. split; [by apply chunk_bool|done].
Qed.
Lemma Unescape_one c rest : Unescape (AppendEscaped c ++ rest) = cons c <$> Unescape rest.
Proof.
  pose (P := λ c, match AppendEscaped c with
    | [x] => x =c c | [b; x] => unescape_one x =c c
    | [b; x; h; l] => chr (Z.lor (Z.shiftl (HexDigitValue h) 4) (HexDigitValue l)) =c c | _ => false end).
  assert (P c = true) as H by (apply (forall_octets P); vm_compute; reflexivity).
  unfold P in H. destruct (AppendEscaped_chunk c) as [Hc _]. destruct Hc as [x Hx|x Hx|h l]; apply ceqb_true in H; subst.
  - cbn. by rewrite (proj2 (ceqb_false _ _) Hx).
  - cbn. by rewrite (proj2 (ceqb_false _ _) Hx).
  - done.
Qed.
Lemma Unescape_Escape s : Unescape (Escape s) = Some s.
Proof.
  unfold Escape. induction s as [|c s IH]; [done|]. change (concat (AppendEscaped <$> c :: s)) with (AppendEscaped c ++ concat (AppendEscaped <$> s)).
  by rewrite Unescape_one, IH.
Qed.
Lemma Escape_clean s : clean (Escape s).
Proof.
  unfold Escape. induction s as [|c s IH]; [done|]. change (concat (AppendEscaped <$> c :: s)) with (AppendEscaped c ++ concat (AppendEscaped <$> s)).
  rewrite forallb_app, IH. by rewrite (proj2 (AppendEscaped_chunk c)).
Qed.

(** *** Cutting *)

(** The leading chunks that fit in [cap] characters. *)
Fixpoint fit (cap : Z) (us : list str) : list str :=
  match us with [] => [] | u :: us => if cap <? size u then [] else u :: fit (cap - size u) us end.
Lemma chunk_len u rest :
  chunk u →
  (if starts_with (u ++ rest) $"\x" then 4 else if starts_with (u ++ rest) $"\" then 2 else 1) = size u ∧ 1 <= size u.
Proof.
  intros [c Hc|x Hx|h l].
  - split; [|done]. apply ceqb_false in Hc. cbn [app starts_with]. unfold lit. cbn. by rewrite Hc.
  - split; [|done]. apply ceqb_false in Hx. cbn. by rewrite Hx.
  - split; [|done]. by destruct rest.
Qed.
Lemma safe_cut_fit us fuel pre cap :
  Forall chunk us → (length us <= fuel)%nat →
  safe_cut fuel (pre ++ concat us) cap (size pre) = size pre + size (concat (fit (cap - size pre) us)).
Proof.
  revert fuel pre. induction us as [|u us IH]; intros fuel pre Hus Hf.
  - cbn [concat fit]. change (size []) with 0. rewrite app_nil_r, Z.add_0_r. destruct fuel; cbn [safe_cut]; [done|]. by rewrite Z.ltb_irrefl.
  - apply Forall_cons in Hus as [Hu Hus]. destruct fuel as [|fuel]; cbn in Hf; [lia|]. cbn [safe_cut concat].
    destruct (chunk_len u (concat us) Hu) as [Hl Hu1]. rewrite (proj2 (Z.ltb_lt _ _)) by (autorewrite with mt; pose proof (size_nonneg (concat us)); lia).
    replace (Z.to_nat (size pre)) with (length pre) by (symmetry; apply Nat2Z.id). rewrite drop_app_length. cbv zeta. rewrite Hl. cbn [fit].
    destruct (Z.ltb_spec cap (size pre + size u)), (Z.ltb_spec (cap - size pre) (size u)); try lia; [cbn [concat]; change (size []) with 0; lia|].
    rewrite app_assoc. rewrite <- size_app. rewrite IH by (done || lia). cbn [concat]. autorewrite with mt.
    replace (cap - (size pre + size u)) with (cap - size pre - size u) by lia. lia.
Qed.
Lemma fit_prefix cap us : ∃ k, fit cap us = take k us ∧ (0 <= cap → size (concat (take k us)) <= cap)
  ∧ ((k < length us)%nat → ∃ u, us !! k = Some u ∧ cap < size (concat (take k us)) + size u).
Proof.
  revert cap. induction us as [|u us IH]; intros cap; [exists O; split; [done|]; split; [done|cbn; lia]|]. cbn [fit].
  destruct (Z.ltb_spec cap (size u)).
  - exists O. split; [done|]. split; [done|]. intros _. by exists u.
  - destruct (IH (cap - size u)) as (k & -> & H1 & H2). exists (S k). split; [done|]. cbn [take concat length]. autorewrite with mt.
    split; [lia|]. intros Hk. destruct H2 as (v & Hv & Hc); [lia|]. exists v. split; [done|]. lia.
Qed.

(** *** A text value *)

Definition quote : str := [chr 34].
Lemma text_chunks s : render_text s = concat (quote :: (AppendEscaped <$> s) ++ [quote]) ∧ Forall chunk (quote :: (AppendEscaped <$> s) ++ [quote]).
Proof.
  split; [by unfold render_text, Escape, quote; cbn [concat]; rewrite concat_app|].
  assert (chunk quote) as Hq by (by constructor). constructor; [done|]. apply Forall_app. split; [|by constructor].
  apply Forall_fmap, Forall_true. intros c. apply AppendEscaped_chunk.
Qed.
Lemma chunk_count us : Forall chunk us → (length us <= length (concat us))%nat.
Proof. induction 1 as [|u us Hu Hus IH]; [done|]. cbn [concat]. rewrite length_app. destruct Hu; cbn; lia. Qed.
Lemma chunk_short u : chunk u → size u <= 4.
Proof. by destruct 1. Qed.
Lemma take_size_app {A} (l rest full : list A) : full = l ++ rest → take (Z.to_nat (size l)) full = l.
Proof. intros ->. unfold size. rewrite Nat2Z.id. apply take_app_length. Qed.
Lemma cut_text s k :
  let us := quote :: (AppendEscaped <$> s) ++ [quote] in
  128 < size (quote ++ Escape s ++ quote) → size (concat (take k us)) <= 128 →
  ((k < length us)%nat → ∃ u, us !! k = Some u ∧ 128 < size (concat (take k us)) + size u) →
  ∃ j, (j <= length s)%nat ∧ concat (take k us) = quote ++ Escape (take j s) ∧ 125 <= size (quote ++ Escape (take j s)) <= 128.
Proof.
  intros us H Hle Hmax. destruct (text_chunks s) as [Hc Hch]. change (render_text s) with (quote ++ Escape s ++ quote) in Hc. fold us in Hc, Hch.
  assert (k < length us)%nat as Hk. { destruct (decide (k < length us)%nat); [done|]. rewrite take_ge in Hle by lia. rewrite Hc in H. lia. }
  destruct (Hmax Hk) as (u & Hu & Hsz). pose proof (chunk_short u ltac:(by eapply Forall_lookup_1)) as Hu4.
  destruct k as [|j]; [change (size (concat (take 0 us))) with 0 in Hsz; lia|]. exists j.
  assert (j <= length s)%nat as Hj. { unfold us in Hk. cbn in Hk. rewrite length_app, length_fmap in Hk. cbn in Hk. lia. }
  assert (concat (take (S j) us) = quote ++ Escape (take j s)) as E.
  { unfold us, Escape. cbn [take concat]. rewrite take_app_le by (rewrite length_fmap; lia). by rewrite fmap_take. }
  rewrite E in *. split; [done|]. split; [done|]. lia.
Qed.
(** A text value in the log line: escaping is reversible and leaves only
    printable characters, a rendering of at most 128 characters is shown whole, and
    a longer one is the opening quote, the escape of a prefix of the text and three
    dots, between 125 and 128 characters of it: no escape is cut in half. *)
Theorem logged_text_exact format_double key s :
  IsSecretKey key = false →
  let line := LoggedValue format_double (mkKeyValue key (AvString s)) in
  Unescape (Escape s) = Some s ∧ clean line
  ∧ (size (quote ++ Escape s ++ quote) <= 128 → line = quote ++ Escape s ++ quote)
  ∧ (128 < size (quote ++ Escape s ++ quote) →
     ∃ k, (k <= length s)%nat ∧ line = quote ++ Escape (take k s) ++ kEllipsis ∧ 125 <= size (quote ++ Escape (take k s)) <= 128).
Proof.
  intros Hk line. split; [apply Unescape_Escape|]. subst line. unfold LoggedValue. cbn [kv_key kv_value]. rewrite Hk. cbn [Render].
  change (render_text s) with (quote ++ Escape s ++ quote). unfold kMaxLoggedResourceValueChars. destruct (Z.ltb_spec 128 (size (quote ++ Escape s ++ quote))) as [H|H].
  - destruct (text_chunks s) as [Hc Hch]. pose proof (chunk_count _ Hch) as Hn. rewrite <- Hc in Hn. change (render_text s) with (quote ++ Escape s ++ quote) in *.
    unfold SafeCutPoint. pose proof (safe_cut_fit _ (length (quote ++ Escape s ++ quote)) [] 128 Hch Hn) as Hcut. rewrite <- Hc in Hcut. cbn [app] in Hcut.
    change (size []) with 0 in Hcut. rewrite Z.add_0_l, Z.sub_0_r in Hcut. rewrite Hcut. clear Hcut.
    destruct (fit_prefix 128 (quote :: (AppendEscaped <$> s) ++ [quote])) as (k & Hfit & Hle & Hmax).
    destruct (cut_text s k H) as (j & Hj & Htk & Hu); [by apply Hle|exact Hmax|].
    rewrite Hfit, Htk in *. rewrite take_size_app with (rest := concat (drop k (quote :: (AppendEscaped <$> s) ++ [quote]))).
    + split; [by rewrite !forallb_app, Escape_clean|]. split; [lia|]. intros _. exists j. by rewrite <- app_assoc.
    + rewrite <- Htk, <- concat_app, take_drop. by rewrite <- Hc.
  - split; [|by split; [|lia]]. rewrite !forallb_app, Escape_clean. done.
Qed.

(** *** The whole line *)

Lemma digits_clean s : forallb is_digit s = true → clean s.
Proof.
  rewrite !forallb_forall. intros H c Hc. specialize (H c Hc). unfold is_digit, in_range in H. bool_hyps. unfold printable.
  change (code "0") with 48 in *. change (code "9") with 57 in *. apply andb_true_iff. split; [apply Z.leb_le|apply negb_true_iff, Z.eqb_neq]; lia.
Qed.
Lemma decimal_clean z : 0 <= z → clean (decimal z).
Proof. intros H. destruct (decimal_read z H) as (Hd & _ & _). apply digits_clean. rewrite <- Hd. apply digits_split. Qed.
Lemma clean_app s t : clean s → clean t → clean (s ++ t).
Proof. intros H1 H2. by rewrite forallb_app, H1, H2. Qed.
Lemma to_string_clean z : clean (to_string z).
Proof. unfold to_string. destruct (Z.ltb_spec z 0); [cbn [forallb]|]; by rewrite decimal_clean by lia. Qed.
Lemma join_clean l : Forall (λ s, clean s) l → clean (join_comma l).
Proof.
  induction l as [|x [|y l] IH]; intros H; [done|by apply Forall_cons in H as [H _]|]. apply Forall_cons in H as [Hx H].
  change (join_comma (x :: y :: l)) with (x ++ $", " ++ join_comma (y :: l)). by rewrite !forallb_app, Hx, IH.
Qed.
Lemma take_clean n s : clean s → clean (take n s).
Proof. rewrite !forallb_forall. intros H c Hc. apply H. rewrite <- (take_drop n s). apply in_or_app. by left. Qed.
Lemma render_list_clean {A} (render : A → str) l : (∀ x, clean (render x)) → clean (render_list render l).
Proof. intros H. unfold render_list. rewrite !forallb_app, join_clean; [done|]. apply Forall_fmap, Forall_true. exact H. Qed.
Lemma render_text_clean s : clean (render_text s).
Proof. unfold render_text. by rewrite !forallb_app, Escape_clean. Qed.

Section line.
Context (format_double : Z → str) (format_double_clean : ∀ d, clean (format_double d)).
Lemma Render_clean v : clean (Render format_double v).
Proof.
  destruct v as [[]| | | | | | |]; cbn [Render]; try done; try apply to_string_clean; try apply render_text_clean; try apply render_list_clean.
  - by intros [].
  - apply to_string_clean.
  - exact format_double_clean.
  - apply render_text_clean.
Qed.
Lemma LoggedValue_clean kv : clean (LoggedValue format_double kv).
Proof.
  unfold LoggedValue. destruct (IsSecretKey _); [done|]. cbv zeta. destruct (_ <? _); [|apply Render_clean].
  by rewrite forallb_app, take_clean by apply Render_clean.
Qed.
End line.

(** The attributes as an observer that may not see secrets: their values replaced. *)
Definition mask (kv : KeyValue) : KeyValue := if IsSecretKey (kv_key kv) then mkKeyValue (kv_key kv) (AvBool false) else kv.
Lemma mask_key kv : kv_key (mask kv) = kv_key kv.
Proof. unfold mask. by destruct (IsSecretKey _). Qed.
Lemma mask_logged format_double kv : LoggedValue format_double (mask kv) = LoggedValue format_double kv.
Proof. unfold LoggedValue. rewrite mask_key. unfold mask. by destruct (IsSecretKey _). Qed.
Section sort_fmap.
Context {A B} (R : A → A → Prop) (Q : B → B → Prop) `{∀ x y, Decision (R x y)} `{∀ x y, Decision (Q x y)}.
Context (f : A → B) (f_mono : ∀ x y, R x y ↔ Q (f x) (f y)).
Lemma list_merge_fmap l1 l2 : list_merge Q (f <$> l1) (f <$> l2) = f <$> list_merge R l1 l2.
Proof.
  revert l2. induction l1 as [|x1 l1 IH1]; intros l2; [by destruct l2|]. induction l2 as [|x2 l2 IH2]; [done|]. cbn.
  destruct (decide (R x1 x2)) as [HR|HR].
  - rewrite decide_True by (by apply f_mono). cbn. f_equal. apply (IH1 (x2 :: l2)).
  - rewrite decide_False by (by rewrite <- f_mono). cbn. f_equal. exact IH2.
Qed.
Definition fmap_stack (st : list (option (list A))) : list (option (list B)) := option_map (list_fmap A B f) <$> st.
Lemma merge_list_to_stack_fmap st (l : list A) : merge_list_to_stack Q (fmap_stack st) (f <$> l) = fmap_stack (merge_list_to_stack R st l).
Proof. revert l. induction st as [|[l'|] st IH]; intros l; cbn; [done| |done]. f_equal. rewrite <- IH. f_equal. apply list_merge_fmap. Qed.
Lemma merge_stack_fmap st : merge_stack Q (fmap_stack st) = f <$> merge_stack R st.
Proof. induction st as [|[l'|] st IH]; cbn; [done| |done]. rewrite <- list_merge_fmap, <- IH. done. Qed.
Lemma merge_sort_fmap l : merge_sort Q (f <$> l) = f <$> merge_sort R l.
Proof.
  unfold merge_sort. change (@nil (option (list B))) with (fmap_stack []).
  generalize (@nil (option (list A))). induction l as [|x l IH]; intros st; cbn; [by rewrite merge_stack_fmap|].
  rewrite <- IH. by rewrite <- (merge_list_to_stack_fmap st [x]).
Qed.
End sort_fmap.
(** The log line of a Resource, when numbers and the profile name are printed
    with printable characters: it has no other, so no key or value can break it,
    and the values of secret keys have no influence on it. *)
Theorem resource_line_safe format_double r profile_name :
  (∀ d, clean (format_double d)) → clean profile_name →
  clean (ResourceLine format_double r profile_name)
  ∧ ResourceLine format_double (mkResource (mask <$> m_attributes r)) profile_name = ResourceLine format_double r profile_name.
Proof.
  intros Hd Hp. split.
  - unfold ResourceLine. cbv zeta. set (shown := take _ _).
    assert (clean (join_comma ((λ kv, Escape (kv_key kv) ++ $"=" ++ LoggedValue format_double kv) <$> shown))) as H.
    { apply join_clean, Forall_fmap, Forall_true. intros kv. cbn. rewrite !forallb_app, Escape_clean. cbn. by apply LoggedValue_clean. }
    repeat apply clean_app; try done.
    + destruct profile_name as [|c p]; [done|]. by repeat apply clean_app.
    + apply decimal_clean, size_nonneg.
    + destruct shown; [done|]. by apply clean_app.
    + destruct (_ <? _)%nat eqn:E; [|done]. apply Nat.ltb_lt in E. repeat apply clean_app; try done. apply decimal_clean. unfold size. lia.
  - unfold ResourceLine. cbn [m_attributes]. cbv zeta.
    rewrite (merge_sort_fmap key_le key_le mask) by (intros; unfold key_le; by rewrite !mask_key).
    rewrite size_fmap, length_fmap, <- fmap_take, length_fmap. do 3 f_equal. f_equal.
    destruct (take _ _) as [|kv l]; [done|]. rewrite fmap_cons. f_equal. change (mask kv :: (mask <$> l)) with (mask <$> kv :: l).
    rewrite <- list_fmap_compose. f_equal. f_equal. apply list_fmap_ext. intros _ x _. cbn. by rewrite mask_key, mask_logged.
Qed.
Lemma resource_line_safe_witness :
  clean (ResourceLine (λ _, $"0.5") (mkResource [mkKeyValue $"api_key" (AvString $"s3cret"); mkKeyValue ["a"%char; chr 10] (AvDouble 1)]) $"default").
Proof. apply resource_line_safe; [by intros|reflexivity]. Defined.
Example line_demo :
  ResourceLine (λ _, []) (mkResource [mkKeyValue $"z" (AvBools [true; false]); mkKeyValue $"Api_Key" (AvString $"s3cret"); mkKeyValue ["a"%char; chr 10] (AvInt 7)]) []
  = $"resolved resource (3 attributes): Api_Key=<redacted>, a\n=7, z=[true, false]".
Proof. vm_compute. reflexivity. Qed.
