(* ===== verification/Auth.v ===== *)
(** * Auth providers

    Model of [src/common/config/auth_providers.cpp].  [GetAuthorization] holds the
    mutex throughout, so a run is the sequence of its calls; what the user callback
    does when it is called is an input.  The steady clock counts nanoseconds, the
    time to live is in milliseconds, and the comparison converts it: [None] is the
    undefined behaviour of an overflow there.

    The theorem says when the callback is called, which value each call hands out,
    and that HTTP/2 can carry every one of them. *)
From S2P Require Import Prelude Context Data AttributeSet SpanLimits LeafTime RetryEngine ProtoReader Wire Http2Connect Config ConfigValidator.

(** What [GetAuthorization] returns; a success first, as in [Wire.World]. *)
Abbreviation AuthResult := (option str + Error)%type.

(** [StaticHeadersAuthProvider]. *)
Definition Static_GetAuthorization (m_token : str) : AuthResult :=
  if is_set m_token then inl (Some m_token) else inl None.

(** ** [CallbackAuthProvider] *)

(** The user callback returns, throws an [std::exception], or something else. *)
Inductive CallbackOutcome := Returned (r : str + Error) | ThrewStd (what : str) | ThrewOther.
Definition kThrewPrefix : str := $"auth callback threw: ".
Definition kBadValuePrefix : str := $"auth callback returned an invalid authorization header: ".
Definition InvokeCallback (o : CallbackOutcome) : str + Error :=
  match o with
  | Returned r => r
  | ThrewStd what => inr (mkError KInternalFailure (kThrewPrefix ++ what) 0)
  | ThrewOther => inr (mkError KInternalFailure (kThrewPrefix ++ $"non-std exception") 0)
  end.
Record CallbackAuthProvider := mkAuth { m_ttl : Z; m_cached : option str; m_last_refresh : Z; m_has_cached : bool }.
Definition CallbackAuthProvider_new (cache_ttl : Z) : CallbackAuthProvider := mkAuth cache_ttl None 0 false.
(** [now - m_last_refresh < m_ttl] in nanoseconds. *)
Definition within_ttl (now last ttl : Z) : option bool :=
  let age := now - last in
  let ttl_ns := ttl * 1000000 in
  if bool_decide (is_i64 age) && bool_decide (is_i64 ttl_ns) then Some (age <? ttl_ns) else None.
(** The answer, the new state, and whether the callback was called. *)
Definition GetAuthorization (now : Z) (o : CallbackOutcome) (st : CallbackAuthProvider) : option (AuthResult * CallbackAuthProvider * bool) :=
  hit ← (if m_has_cached st then within_ttl now (m_last_refresh st) (m_ttl st) else Some false);
  if hit : bool then Some (inl (m_cached st), st, false)
  else
    match InvokeCallback o with
    | inr e => Some (inr e, st, true)
    | inl v =>
        match FieldValueFault v with
        | Some fault => Some (inr (mkError KMalformed (kBadValuePrefix ++ fault) 0), st, true)
        | None => Some (inl (Some v), mkAuth (m_ttl st) (Some v) now true, true)
        end
    end.

(** ** Sequences of calls *)

Record Call := mkCall { c_now : Z; c_outcome : CallbackOutcome; c_answer : AuthResult; c_invoked : bool }.
Fixpoint history (calls : list (Z * CallbackOutcome)) (st : CallbackAuthProvider) : option (list Call) :=
  match calls with
  | [] => Some []
  | (now, o) :: rest =>
      '(answer, st, invoked) ← GetAuthorization now o st;
      h ← history rest st;
      Some (mkCall now o answer invoked :: h)
  end.

(** The value a call renews the cache with: what the callback returned, if it was
    called and its value is one HTTP/2 can carry. *)
Definition usable (o : CallbackOutcome) : option str :=
  match o with Returned (inl v) => match FieldValueFault v with None => Some v | Some _ => None end | _ => None end.
Definition renewal (c : Call) : option (Z * str) := if c_invoked c then pair (c_now c) <$> usable (c_outcome c) else None.
Definition last_renewal (h : list Call) : option (Z * str) := last (omap renewal h).
(** A renewal that is young enough at [now]. *)
Definition fresh (ttl now : Z) (r : option (Z * str)) : option str :=
  '(t, v) ← r; if now - t <? ttl * 1000000 then Some v else None.
(** The answer of a call that reaches the callback. *)
Definition answer_of (o : CallbackOutcome) : AuthResult :=
  match InvokeCallback o with
  | inr e => inr e
  | inl v => match FieldValueFault v with Some fault => inr (mkError KMalformed (kBadValuePrefix ++ fault) 0) | None => inl (Some v) end
  end.
Definition state_of (ttl : Z) (r : option (Z * str)) : CallbackAuthProvider :=
  match r with Some (t, v) => mkAuth ttl (Some v) t true | None => CallbackAuthProvider_new ttl end.

Section auth.
Context (ttl : Z) (Httl : is_i64 (ttl * 1000000)).
Lemma GetAuthorization_step now o r :
  0 <= now <= i64_max → (∀ t v, r = Some (t, v) → 0 <= t <= i64_max) →
  ∃ c, GetAuthorization now o (state_of ttl r) = Some (c_answer c, state_of ttl (match renewal c with Some x => Some x | None => r end), c_invoked c)
    ∧ c_now c = now ∧ c_outcome c = o
    ∧ match fresh ttl now r with
      | Some v => c_invoked c = false ∧ c_answer c = inl (Some v)
      | None => c_invoked c = true ∧ c_answer c = answer_of o
      end.
Proof.
  intros Hnow Hr.
  assert (∀ st, st = state_of ttl r → fresh ttl now r = None →
    (if m_has_cached st then within_ttl now (m_last_refresh st) (m_ttl st) else Some false) = Some false →
    ∃ c, GetAuthorization now o st = Some (c_answer c, state_of ttl (match renewal c with Some x => Some x | None => r end), c_invoked c)
    ∧ c_now c = now ∧ c_outcome c = o ∧ c_invoked c = true ∧ c_answer c = answer_of o) as Hmiss.
  { intros st -> _ Hm. exists (mkCall now o (answer_of o) true). split; [|done]. unfold GetAuthorization. rewrite Hm. cbn [mbind option_bind].
    unfold renewal, usable, answer_of. cbn [c_invoked c_outcome c_now c_answer]. destruct o as [[v|e]|what|]; cbn [InvokeCallback]; [|by destruct r as [[]|]..].
    destruct (FieldValueFault v); [by destruct r as [[]|]|]. by destruct r as [[]|]. }
  destruct r as [[t v]|]; cbn [fresh mbind option_bind].
  - pose proof (Hr t v eq_refl) as Ht. assert (within_ttl now t ttl = Some (now - t <? ttl * 1000000)) as Hw.
    { unfold within_ttl. rewrite !bool_decide_true; [done|done|width_lia]. }
    destruct (now - t <? ttl * 1000000) eqn:E.
    + exists (mkCall now o (inl (Some v)) false). split; [|done]. unfold GetAuthorization. cbn [state_of m_has_cached m_last_refresh m_ttl m_cached].
      by rewrite Hw.
    + apply Hmiss; [done|cbn; by rewrite E|exact Hw].
  - by apply Hmiss.
Qed.
End auth.

(** From [history]'s point of view: [pre] has been called already. *)
Lemma history_exact ttl calls pre :
  is_i64 (ttl * 1000000) → Forall (λ p, 0 <= fst p <= i64_max) calls → (∀ t v, last_renewal pre = Some (t, v) → 0 <= t <= i64_max) →
  ∃ h, history calls (state_of ttl (last_renewal pre)) = Some h
    ∧ (λ c, (c_now c, c_outcome c)) <$> h = calls
    ∧ ∀ before c after, h = before ++ c :: after →
        match fresh ttl (c_now c) (last_renewal (pre ++ before)) with
        | Some v => c_invoked c = false ∧ c_answer c = inl (Some v)
        | None => c_invoked c = true ∧ c_answer c = answer_of (c_outcome c)
        end.
Proof.
  intros Httl Hc. revert pre. induction Hc as [|[now o] rest Hnow _ IH]; intros pre Hpre.
  { exists []. split; [done|]. split; [done|]. by intros []. }
  destruct (GetAuthorization_step ttl Httl now o (last_renewal pre) Hnow Hpre) as (c & Hg & Hn & Ho & Hspec).
  assert (last_renewal (pre ++ [c]) = match renewal c with Some x => Some x | None => last_renewal pre end) as Hl.
  { unfold last_renewal. rewrite omap_app, last_app. cbn. by destruct (renewal c). }
  destruct (IH (pre ++ [c])) as (h & Hh & Hf & Hs).
  { rewrite Hl. intros t v. destruct (renewal c) as [x|] eqn:Er; [|apply Hpre]. unfold renewal in Er. destruct (c_invoked c); [|done].
    apply fmap_Some in Er as (y & _ & ->). intros [= <- _]. by rewrite Hn. }
  exists (c :: h). cbn [history]. rewrite Hg. cbn [mbind option_bind]. rewrite Hl in Hh. rewrite Hh. cbn [mbind option_bind].
  split; [by destruct c; cbn in *; subst|]. split; [by rewrite fmap_cons, Hf, Hn, Ho|].
  intros [|b before] c' after [= <- ->].
  - rewrite app_nil_r, Hn, Ho. exact Hspec.
  - specialize (Hs before c' after eq_refl). by rewrite <- app_assoc in Hs.
Qed.
Lemma usable_legal o v : answer_of o = inl (Some v) → legal_value v.
Proof.
  unfold answer_of. destruct (InvokeCallback o) as [w|e]; [|done]. destruct (FieldValueFault w) eqn:E; [done|]. intros [= ->]. by apply FieldValueFault_None.
Qed.
Lemma last_renewal_legal h t v : last_renewal h = Some (t, v) → legal_value v.
Proof.
  unfold last_renewal. intros H. apply last_Some_elem_of, list_elem_of_omap in H as (c & _ & Hr). unfold renewal in Hr.
  destruct (c_invoked c); [|done]. apply fmap_Some in Hr as (w & Hw & [= _ <-]). unfold usable in Hw.
  destruct (c_outcome c) as [[x|]|x|]; try done. destruct (FieldValueFault x) eqn:E; [done|]. injection Hw as ->. by apply FieldValueFault_None.
Qed.
(** C34: for a time to live that fits nanoseconds, whatever the callback does and
    however the calls' clock readings are ordered, every call returns.  The callback
    is called exactly when no usable value obtained by the latest call that got one
    is younger than the time to live; otherwise that value is handed out again.  A
    call that reaches the callback answers with its value, its error, an internal
    failure if it threw, or Malformed; errors are never remembered, and every value
    handed out is one HTTP/2 can carry. *)
Theorem auth_cache_exact ttl calls :
  is_i64 (ttl * 1000000) → Forall (λ p, 0 <= fst p <= i64_max) calls →
  ∃ h, history calls (CallbackAuthProvider_new ttl) = Some h
    ∧ (λ c, (c_now c, c_outcome c)) <$> h = calls
    ∧ ∀ before c after, h = before ++ c :: after →
        match fresh ttl (c_now c) (last_renewal before) with
        | Some v => c_invoked c = false ∧ c_answer c = inl (Some v)
        | None => c_invoked c = true ∧ c_answer c = answer_of (c_outcome c)
        end
        ∧ ∀ v, c_answer c = inl (Some v) → legal_value v.
Proof.
  intros Httl Hc. destruct (history_exact ttl calls [] Httl Hc) as (h & Hh & Hf & Hs); [done|]. exists h. split; [done|]. split; [done|].
  intros before c after Heq. specialize (Hs before c after Heq). split; [exact Hs|]. intros v Hv. cbn [app] in Hs.
  destruct (fresh _ _ _) as [w|] eqn:E; destruct Hs as [_ Ha]; rewrite Ha in Hv; [|by eapply usable_legal].
  injection Hv as ->. unfold fresh in E. destruct (last_renewal before) as [[t x]|] eqn:El; cbn in E; [|done].
  destruct (_ <? _); [|done]. injection E as ->. by eapply last_renewal_legal.
Qed.
Definition demo_calls : list (Z * CallbackOutcome) :=
  [(5, ThrewOther); (10, Returned (inl $"Bearer a")); (1000009, Returned (inl $"Bearer b")); (1000010, Returned (inl $"Bearer b "));
   (1000010, Returned (inl $"Bearer b"))].
Lemma auth_cache_exact_witness :
  is_i64 (1 * 1000000)
  ∧ ∃ h, history demo_calls (CallbackAuthProvider_new 1) = Some h ∧ c_invoked <$> h = [true; true; false; true; true].
Proof.
  split; [vm_compute; split; discriminate|].
  destruct (auth_cache_exact 1 demo_calls) as (h & Hh & _); [vm_compute; split; discriminate|repeat constructor; vm_compute; discriminate|].
  exists h. split; [exact Hh|]. vm_compute in Hh. injection Hh as <-. reflexivity.
Defined.
(** A time to live meant as "for ever" overflows the conversion on the second call. *)
Example ttl_overflows :
  history [(0, Returned (inl $"Bearer a")); (1, ThrewOther)] (CallbackAuthProvider_new i64_max) = None.
Proof. vm_compute. reflexivity. Qed.
