(* ===== verification/Builder.v ===== *)
(** * Building a provider

    Model of [src/sdk/sdk_builder.cpp]: what [SdkBuilder] collects, how file,
    environment and code become one configuration, and what [Build] makes of it.
    The pipeline is described by the arguments its parts are constructed with
    ([SdkProviderArgs]); pointers between the parts are left out.  What lies
    outside is the record [Host]: environment, files, toml++, detectors' doubles,
    build options, and whether reactor and transport can be created.  A user
    callback, an application transport and a provider are identities.  What [Build]
    moves out of the builder is not tracked: a second [Build] is refused before it
    reads anything.

    The theorems: for every setting which source decides it; the endpoint text is
    read back by the transport as validated; every header a codec built from an
    accepted configuration sends is legal and none is sent twice beside the codec's
    own; a custom transport is isolated from exporter settings; a build registers
    the provider it returns, or leaves the registry alone. *)
From stdpp Require Import gmap.
From S2P Require Import Prelude Context Data AttributeSet SpanLimits LeafTime LeafResource RetryEngine ProtoReader Wire Http2Connect Config EnvResolver ConfigValidator TomlLoader ResourceBuilder Auth.
From S2P Require Registry GrpcCodec HttpCodec Views Sampler LeafOptions.

(** ** The builder *)

Record ExportTransportOptions := mkExportTransportOptions { et_traces : bool; et_metrics : bool; et_logs : bool; et_max_request_bytes : Z }.
Record ExporterCalls := mkExporterCalls {
  b_endpoint : option str; b_protocol : option Protocol; b_compression_gzip : option bool; b_headers : option (list KeyValue); b_tls : option TlsOptions;
  b_auth_cb : option nat; b_auth_cache_ttl : Z }.
Record ResourceCalls := mkResourceCalls {
  b_service_name : option str; b_service_version : option str; b_resource_attrs : option (list KeyValue); b_resource_detectors : list Detector }.
Record StructCalls := mkStructCalls {
  b_batch : option BatchOptions; b_span_limits : option SpanLimitOptions; b_memory_limits : option MemoryLimitOptions; b_timeouts : option TimeoutOptions }.
Record MetricCalls := mkMetricCalls {
  b_metric_interval : option Z; b_metric_temporality : option TemporalityPreference; b_metric_limits : option Z; b_views : list Views.ViewConfig }.
Record Impl := mkImpl {
  b_file_path : option str; b_exporter : ExporterCalls; b_resource : ResourceCalls; b_structs : StructCalls; b_metrics : MetricCalls;
  b_sampler : option Sampler.Sampler; b_profile_name : option str; b_leaf_receiver : option LeafReceiverOptions;
  b_export_transport : option nat; b_export_transport_opts : option ExportTransportOptions; b_consumed : bool }.
Definition SdkBuilder_new : Impl :=
  mkImpl None (mkExporterCalls None None None None None None 60000) (mkResourceCalls None None None []) (mkStructCalls None None None None)
    (mkMetricCalls None None None []) (Some Sampler.AlwaysOn) None None None None false.

(** *** [WithXxx] *)

Definition on_exporter_calls (f : ExporterCalls → ExporterCalls) (b : Impl) : Impl :=
  mkImpl (b_file_path b) (f (b_exporter b)) (b_resource b) (b_structs b) (b_metrics b) (b_sampler b) (b_profile_name b) (b_leaf_receiver b) (b_export_transport b) (b_export_transport_opts b) (b_consumed b).
Definition on_resource_calls (f : ResourceCalls → ResourceCalls) (b : Impl) : Impl :=
  mkImpl (b_file_path b) (b_exporter b) (f (b_resource b)) (b_structs b) (b_metrics b) (b_sampler b) (b_profile_name b) (b_leaf_receiver b) (b_export_transport b) (b_export_transport_opts b) (b_consumed b).
Definition on_struct_calls (f : StructCalls → StructCalls) (b : Impl) : Impl :=
  mkImpl (b_file_path b) (b_exporter b) (b_resource b) (f (b_structs b)) (b_metrics b) (b_sampler b) (b_profile_name b) (b_leaf_receiver b) (b_export_transport b) (b_export_transport_opts b) (b_consumed b).
Definition on_metric_calls (f : MetricCalls → MetricCalls) (b : Impl) : Impl :=
  mkImpl (b_file_path b) (b_exporter b) (b_resource b) (b_structs b) (f (b_metrics b)) (b_sampler b) (b_profile_name b) (b_leaf_receiver b) (b_export_transport b) (b_export_transport_opts b) (b_consumed b).
Definition FromFile (path : str) (b : Impl) : Impl :=
  mkImpl (Some path) (b_exporter b) (b_resource b) (b_structs b) (b_metrics b) (b_sampler b) (b_profile_name b) (b_leaf_receiver b) (b_export_transport b) (b_export_transport_opts b) (b_consumed b).
Definition WithEndpoint (v : str) : Impl → Impl :=
  on_exporter_calls (λ e, mkExporterCalls (Some v) (b_protocol e) (b_compression_gzip e) (b_headers e) (b_tls e) (b_auth_cb e) (b_auth_cache_ttl e)).
Definition WithProtocol (v : Protocol) : Impl → Impl :=
  on_exporter_calls (λ e, mkExporterCalls (b_endpoint e) (Some v) (b_compression_gzip e) (b_headers e) (b_tls e) (b_auth_cb e) (b_auth_cache_ttl e)).
Definition WithCompressionGzip (v : bool) : Impl → Impl :=
  on_exporter_calls (λ e, mkExporterCalls (b_endpoint e) (b_protocol e) (Some v) (b_headers e) (b_tls e) (b_auth_cb e) (b_auth_cache_ttl e)).
Definition WithHeaders (v : list KeyValue) : Impl → Impl :=
  on_exporter_calls (λ e, mkExporterCalls (b_endpoint e) (b_protocol e) (b_compression_gzip e) (Some v) (b_tls e) (b_auth_cb e) (b_auth_cache_ttl e)).
Definition WithTls (v : TlsOptions) : Impl → Impl :=
  on_exporter_calls (λ e, mkExporterCalls (b_endpoint e) (b_protocol e) (b_compression_gzip e) (b_headers e) (Some v) (b_auth_cb e) (b_auth_cache_ttl e)).
Definition WithAuthProvider (cb : nat) (cache_ttl : Z) : Impl → Impl :=
  on_exporter_calls (λ e, mkExporterCalls (b_endpoint e) (b_protocol e) (b_compression_gzip e) (b_headers e) (b_tls e) (Some cb) cache_ttl).
Definition WithServiceName (v : str) : Impl → Impl :=
  on_resource_calls (λ r, mkResourceCalls (Some v) (b_service_version r) (b_resource_attrs r) (b_resource_detectors r)).
Definition WithServiceVersion (v : str) : Impl → Impl :=
  on_resource_calls (λ r, mkResourceCalls (b_service_name r) (Some v) (b_resource_attrs r) (b_resource_detectors r)).
Definition WithResource (v : list KeyValue) : Impl → Impl :=
  on_resource_calls (λ r, mkResourceCalls (b_service_name r) (b_service_version r) (Some v) (b_resource_detectors r)).
(** A null detector is dropped. *)
Definition WithResourceDetector (d : option Detector) (b : Impl) : Impl :=
  match d with
  | None => b
  | Some d => on_resource_calls (λ r, mkResourceCalls (b_service_name r) (b_service_version r) (b_resource_attrs r) (b_resource_detectors r ++ [d])) b
  end.
Definition WithBatch (v : BatchOptions) : Impl → Impl :=
  on_struct_calls (λ s, mkStructCalls (Some v) (b_span_limits s) (b_memory_limits s) (b_timeouts s)).
Definition WithSpanLimits (v : SpanLimitOptions) : Impl → Impl :=
  on_struct_calls (λ s, mkStructCalls (b_batch s) (Some v) (b_memory_limits s) (b_timeouts s)).
Definition WithMemoryLimits (v : MemoryLimitOptions) : Impl → Impl :=
  on_struct_calls (λ s, mkStructCalls (b_batch s) (b_span_limits s) (Some v) (b_timeouts s)).
Definition WithTimeouts (v : TimeoutOptions) : Impl → Impl :=
  on_struct_calls (λ s, mkStructCalls (b_batch s) (b_span_limits s) (b_memory_limits s) (Some v)).
Definition WithMetricInterval (v : Z) : Impl → Impl :=
  on_metric_calls (λ m, mkMetricCalls (Some v) (b_metric_temporality m) (b_metric_limits m) (b_views m)).
Definition WithMetricTemporality (v : TemporalityPreference) : Impl → Impl :=
  on_metric_calls (λ m, mkMetricCalls (b_metric_interval m) (Some v) (b_metric_limits m) (b_views m)).
Definition WithMetricLimits (v : Z) : Impl → Impl :=
  on_metric_calls (λ m, mkMetricCalls (b_metric_interval m) (b_metric_temporality m) (Some v) (b_views m)).
Definition WithView (v : Views.ViewConfig) : Impl → Impl :=
  on_metric_calls (λ m, mkMetricCalls (b_metric_interval m) (b_metric_temporality m) (b_metric_limits m) (b_views m ++ [v])).
Definition WithSampler (v : option Sampler.Sampler) (b : Impl) : Impl :=
  mkImpl (b_file_path b) (b_exporter b) (b_resource b) (b_structs b) (b_metrics b) v (b_profile_name b) (b_leaf_receiver b) (b_export_transport b) (b_export_transport_opts b) (b_consumed b).
Definition WithProfileName (v : str) (b : Impl) : Impl :=
  mkImpl (b_file_path b) (b_exporter b) (b_resource b) (b_structs b) (b_metrics b) (b_sampler b) (Some v) (b_leaf_receiver b) (b_export_transport b) (b_export_transport_opts b) (b_consumed b).
Definition WithLeafReceiver (v : LeafReceiverOptions) (b : Impl) : Impl :=
  mkImpl (b_file_path b) (b_exporter b) (b_resource b) (b_structs b) (b_metrics b) (b_sampler b) (b_profile_name b) (Some v) (b_export_transport b) (b_export_transport_opts b) (b_consumed b).
Definition WithExportTransport (transport : option nat) (opts : ExportTransportOptions) (b : Impl) : Impl :=
  mkImpl (b_file_path b) (b_exporter b) (b_resource b) (b_structs b) (b_metrics b) (b_sampler b) (b_profile_name b) (b_leaf_receiver b) transport (Some opts) (b_consumed b).
Definition set_consumed (b : Impl) : Impl :=
  mkImpl (b_file_path b) (b_exporter b) (b_resource b) (b_structs b) (b_metrics b) (b_sampler b) (b_profile_name b) (b_leaf_receiver b) (b_export_transport b) (b_export_transport_opts b) true.

(** ** Loading the configuration *)

Record Host := mkHost {
  h_getenv : str → option str; h_values : TomlValues; h_exists : str → bool; h_parse_file : str → str + TomlTable; h_is_file : str → bool;
  h_forbid_insecure : bool; h_with_concentrator : bool; h_format_double : Z → str }.
Definition kExportTransportField : str := $"exporter.transport".
Definition kCustomTransportPlaceholderEndpoint : str := $"https://localhost:4318".
Definition isSome {A} (o : option A) : bool := match o with Some _ => true | None => false end.
Definition transport_conflict (name : str) : ConfigError :=
  mkConfigError InvalidValue kExportTransportField
    (name ++ $" has no meaning with WithExportTransport, which replaces the HTTP/2 exporter; set one or the other").
(** The first check that is set, as [for (const auto& [set, name] : ...)]. *)
Fixpoint first_set (checks : list (bool * str)) : option str :=
  match checks with [] => None | (set, name) :: rest => if set : bool then Some name else first_set rest end.
Definition conflicts (b : Impl) : list (bool * str) :=
  let e := b_exporter b in
  [(isSome (b_endpoint e), $"WithEndpoint"); (isSome (b_protocol e), $"WithProtocol"); (isSome (b_headers e), $"WithHeaders");
   (isSome (b_tls e), $"WithTls"); (isSome (b_auth_cb e), $"WithAuthProvider"); (isSome (b_compression_gzip e), $"WithCompressionGzip")].
Definition CheckExportTransport (b : Impl) : Result unit :=
  match b_export_transport_opts b with
  | None => inr tt
  | Some _ =>
      match b_export_transport b with
      | None => inl (mkConfigError InvalidValue kExportTransportField $"WithExportTransport needs a non-null ExportTransport")
      | Some _ => match first_set (conflicts b) with Some name => inl (transport_conflict name) | None => inr tt end
      end
  end.
Definition TlsConfigured (t : TlsOptions) : bool :=
  to_insecure t || is_set (to_ca_bundle t) || is_set (to_client_cert t) || is_set (to_client_key t) || is_set (to_sni_override t).
(** The configuration without them, and the names of those that were set. *)
Definition DropExporterSettings (cfg : Config) : Config * list str :=
  let e := exporter cfg in
  let checks := [(is_set (endpoint_url e), $"endpoint"); (protocol_explicit e, $"protocol"); (match headers e with [] => false | _ => true end, $"headers");
                 (compression_gzip e, $"compression"); (TlsConfigured (tls (options cfg)), $"tls")] in
  (set_tls TlsOptions_default (set_compression false (set_headers [] (set_protocol (protocol (exporter Config_default)) false
     (set_endpoint_url kCustomTransportPlaceholderEndpoint cfg)))),
   snd <$> List.filter fst checks).
Definition with_opt {A} (o : option A) (set : A → Config → Config) (cfg : Config) : Config := match o with Some v => set v cfg | None => cfg end.
Definition ApplyExporterOverrides (b : Impl) (cfg : Config) : Config :=
  let e := b_exporter b in
  let cfg := with_opt (b_endpoint e) set_endpoint_url cfg in
  let cfg := with_opt (b_protocol e) (λ p, set_protocol p true) cfg in
  let cfg := with_opt (b_compression_gzip e) set_compression cfg in
  let cfg := with_opt (b_headers e) (λ h c, set_headers (MergeHeaders (headers (exporter c)) h) c) cfg in
  let cfg := with_opt (b_tls e) set_tls cfg in
  let cfg := with_opt (b_metric_interval (b_metrics b)) set_metric_interval cfg in
  with_opt (b_metric_temporality (b_metrics b)) set_metric_temporality cfg.
Definition ApplyResourceOverrides (b : Impl) (cfg : Config) : Config :=
  let r := b_resource b in
  let s := b_structs b in
  let cfg := with_opt (b_service_name r) set_service_name cfg in
  let cfg := with_opt (b_service_version r) set_service_version cfg in
  let cfg := with_opt (b_resource_attrs r) (λ a c, set_resource_attrs (MergeResourceAttrs (resource_attrs (service c)) a) c) cfg in
  let cfg := with_opt (b_batch s) set_batch cfg in
  let cfg := with_opt (b_span_limits s) set_span_limits cfg in
  let cfg := with_opt (b_memory_limits s) set_memory_limits cfg in
  with_opt (b_timeouts s) set_timeouts cfg.
(** The configuration, and the names of the settings a custom transport drops. *)
Definition LoadConfig (h : Host) (b : Impl) : Result (Config * list str) :=
  let? cfg := match b_file_path b with Some path => LoadToml (h_values h) (h_exists h) (h_parse_file h) path | None => inr Config_default end in
  let? cfg := OverlayEnv (h_getenv h) cfg in
  let '(cfg, ignored) := match b_export_transport_opts b with Some _ => DropExporterSettings cfg | None => (cfg, []) end in
  let cfg := ApplyResourceOverrides b (ApplyExporterOverrides b cfg) in
  let cfg := with_opt (b_leaf_receiver b) (λ o, on_concentrator (λ base, MergeLeafReceiverOptions base o)) cfg in
  let? cfg := Validate (h_is_file h) (h_forbid_insecure h) cfg in
  let? _ := match b_auth_cb (b_exporter b) with Some _ => CheckNoStaticAuthorization (headers (exporter cfg)) | None => inr tt end in
  inr (cfg, ignored).

(** ** The pipeline *)

(** [std::stoull] on the whole text: blanks, a sign that negates modulo 2^64, and
    digits whose value fits. *)
Definition is_space (c : char) : bool := (code c =? 32) || ((9 <=? code c) && (code c <=? 13)).
Fixpoint skip_space (s : str) : str := match s with c :: s' => if is_space c then skip_space s' else s | [] => [] end.
Definition stoull (s : str) : option Z :=
  let s := skip_space s in
  let '(neg, t) := match s with c :: s' => if c =c "-" then (true, s') else if c =c "+" then (false, s') else (false, s) | [] => (false, s) end in
  match from_chars_u64 t with
  | Some (v, []) => Some (if neg : bool then to_uint 64 (- v) else v)
  | _ => None
  end.
Definition ParseEnvCardinality (getenv : str → option str) : option Z :=
  raw ← getenv $"MICROTEL_METRIC_CARDINALITY_LIMIT";
  v ← stoull raw;
  if v =? 0 then None else Some v.
Definition kDefaultMaxCardinality : Z := 2000.
Definition ResolveMaxCardinality (getenv : str → option str) (explicit_limits : option Z) : Z :=
  match explicit_limits with
  | Some cap => cap
  | None => match ParseEnvCardinality getenv with Some cap => cap | None => kDefaultMaxCardinality end
  end.
(** The options the builder sets; the others keep their in-class values. *)
Record ConnectOptions := mkConnectOptions {
  co_endpoint : str; co_protocol : Protocol; co_connect_timeout : Z; co_tls_handshake_timeout : Z; co_tls : TlsOptions;
  co_max_response_bytes : Z; co_max_trailer_bytes : Z }.
Definition host_port (cfg : Config) : str := pe_host (endpoint (exporter cfg)) ++ ":"%char :: to_string (pe_port (endpoint (exporter cfg))).
Definition BuildConnectOptions (cfg : Config) : ConnectOptions :=
  mkConnectOptions (pe_scheme (endpoint (exporter cfg)) ++ $"://" ++ host_port cfg) (protocol (exporter cfg))
    (t_connect (timeouts (options cfg))) (t_tls_handshake (timeouts (options cfg))) (tls (options cfg))
    (max_response_bytes (memory_limits (options cfg))) (max_trailer_bytes (memory_limits (options cfg))).
Definition ToHeaderFields (kvs : list KeyValue) : list HeaderField :=
  omap (λ kv, match kv_value kv with AvString s => Some (mkHeaderField (kv_key kv) s) | _ => None end) kvs.

Inductive ExportSignal := SignalTraces | SignalMetrics | SignalLogs.
(** A codec is its configuration, its transport, and whether it asks an auth
    provider; the application's codec knows its signal and its cap. *)
Inductive WireCodec :=
| GrpcWireCodec (config : GrpcCodec.GrpcWireCodecConfig) (auth : bool) (opts : ConnectOptions)
| HttpWireCodec (config : HttpCodec.HttpWireCodecConfig) (auth : bool) (opts : ConnectOptions)
| ExportTransportCodec (channel : nat) (signal : ExportSignal) (max_request_bytes : Z).
Definition kHttpMetricsPath : str := $"/v1/metrics".
Definition kGrpcMetricsPath : str := $"/opentelemetry.proto.collector.metrics.v1.MetricsService/Export".
Definition kHttpLogsPath : str := $"/v1/logs".
Definition kGrpcLogsPath : str := $"/opentelemetry.proto.collector.logs.v1.LogsService/Export".
Definition BuildWireCodec (cfg : Config) (extra_headers : list HeaderField) (auth : bool) (signal_path : str) : WireCodec :=
  let e := exporter cfg in
  match protocol e with
  | Grpc =>
      GrpcWireCodec (GrpcCodec.mkGrpcConfig (host_port cfg) (pe_scheme (endpoint e)) extra_headers signal_path (compression_gzip e)
                       (max_decompressed_bytes (memory_limits (options cfg)))) auth (BuildConnectOptions cfg)
  | Http =>
      HttpWireCodec (HttpCodec.mkHttpConfig (host_port cfg) (pe_scheme (endpoint e)) (pe_path (endpoint e)) signal_path extra_headers (compression_gzip e)
                       (max_decompressed_bytes (memory_limits (options cfg)))) auth (BuildConnectOptions cfg)
  end.
(** [RetryPolicyConfig] with its in-class defaults and the configured budget. *)
Definition one_point_five : Double.double := SpecFloat.S754_finite false 6755399441055744 (-52).
Definition zero_point_two : Double.double := SpecFloat.S754_finite false 7205759403792794 (-55).
Definition SharedRetryPolicy (cfg : Config) : RetryPolicyConfig :=
  mkRetryPolicyConfig 5 1000 32000 one_point_five zero_point_two (t_retry_budget (timeouts (options cfg))).
Record OtlpExporterConfig := mkOtlpExporterConfig {
  ec_max_queue_size : Z; ec_max_queued_spans : Z; ec_export_deadline : Z; ec_retry_policy : RetryPolicyConfig;
  ec_max_spans_per_request : Z; ec_max_request_bytes : Z; ec_cancels_channel : bool }.
(** [OtlpMetricExporterConfig] and [OtlpLogExporterConfig]. *)
Record SignalExporterConfig := mkSignalExporterConfig { sc_export_deadline : Z; sc_retry_policy : RetryPolicyConfig; sc_cancels_channel : bool }.
Definition kQueuedFullBatches : Z := 256.
Definition QueuedSpanBudget (max_export_batch_size : Z) : Z := to_uint 64 (kQueuedFullBatches * max_export_batch_size).
Definition TraceExporterConfig (cfg : Config) : OtlpExporterConfig :=
  let queued_spans := QueuedSpanBudget (max_export_batch_size (batch (options cfg))) in
  mkOtlpExporterConfig queued_spans queued_spans (t_per_export (timeouts (options cfg))) (SharedRetryPolicy cfg)
    (max_export_batch_size (batch (options cfg))) 0 false.
Definition signal_config (cfg : Config) (cancels : bool) : SignalExporterConfig :=
  mkSignalExporterConfig (t_per_export (timeouts (options cfg))) (SharedRetryPolicy cfg) cancels.
Record ExporterPack := mkExporterPack {
  ep_codec : WireCodec; ep_exporter : OtlpExporterConfig;
  ep_metric : option (WireCodec * SignalExporterConfig); ep_log : option (WireCodec * SignalExporterConfig) }.
Definition BuildExporters (auth : bool) (cfg : Config) : ExporterPack :=
  let fields := ToHeaderFields (headers (exporter cfg)) in
  let metric_path := match protocol (exporter cfg) with Grpc => kGrpcMetricsPath | Http => kHttpMetricsPath end in
  let log_path := match protocol (exporter cfg) with Grpc => kGrpcLogsPath | Http => kHttpLogsPath end in
  mkExporterPack (BuildWireCodec cfg fields auth []) (TraceExporterConfig cfg)
    (Some (BuildWireCodec cfg fields auth metric_path, signal_config cfg false))
    (Some (BuildWireCodec cfg fields auth log_path, signal_config cfg false)).
Definition BuildCustomExporters (channel : nat) (opts : ExportTransportOptions) (cfg : Config) : ExporterPack :=
  let c := TraceExporterConfig cfg in
  mkExporterPack (ExportTransportCodec channel SignalTraces (et_max_request_bytes opts))
    (mkOtlpExporterConfig (ec_max_queue_size c) (ec_max_queued_spans c) (ec_export_deadline c) (ec_retry_policy c) (ec_max_spans_per_request c)
       (et_max_request_bytes opts) true)
    (if et_metrics opts then Some (ExportTransportCodec channel SignalMetrics 0, signal_config cfg true) else None)
    (if et_logs opts then Some (ExportTransportCodec channel SignalLogs 0, signal_config cfg true) else None).
Definition BuildViewRegistry (views : list Views.ViewConfig) : Views.ViewRegistry := fold_left (λ reg v, Views.ViewRegistry_Add v reg) views [].
Definition BuildAuthProvider (cb : option nat) (cache_ttl : Z) : option (nat * CallbackAuthProvider) := (λ cb, (cb, CallbackAuthProvider_new cache_ttl)) <$> cb.
(** What [BuildSpanProcessor] passes on. *)
Record SpanProcessorConfig := mkSpanProcessorConfig { sp_batch : BatchOptions; sp_max_record_bytes : Z; sp_max_total_queue_bytes : Z }.
Definition BuildSpanProcessor (cfg : Config) : SpanProcessorConfig :=
  mkSpanProcessorConfig (batch (options cfg)) (max_record_bytes (memory_limits (options cfg))) (max_total_queue_bytes (memory_limits (options cfg))).
Definition MakeLeafDecoder (h : Host) (enabled : bool) : bool := h_with_concentrator h && enabled.
Definition leaf_error (e : LeafOptions.ConfigError) : ConfigError := mkConfigError InvalidValue (LeafOptions.ce_field e) (LeafOptions.ce_message e).
Definition CheckLeafReceiver (h : Host) (opts : LeafReceiverOptions) : Result unit :=
  if negb (LeafOptions.enabled opts) then inr tt
  else if h_with_concentrator h
  then match LeafOptions.ValidateLeafReceiverOptions opts with Some e => inl (leaf_error e) | None => inr tt end
  else inl (mkConfigError InvalidValue $"concentrator.enabled"
         $"the leaf receiver is not compiled into this build of microtel; rebuild with -DMICROTEL_WITH_CONCENTRATOR=ON").
Record SdkProviderArgs := mkProviderArgs {
  pa_auth : option (nat * CallbackAuthProvider); pa_http2 : bool; pa_channel : option nat; pa_exporters : ExporterPack; pa_processor : SpanProcessorConfig;
  pa_resource : Resource; pa_sampler : option Sampler.Sampler; pa_span_limits : SpanLimitOptions; pa_connect_opts : ConnectOptions;
  pa_metric_interval : Z; pa_metric_temporality : TemporalityPreference; pa_metric_max_cardinality : Z; pa_view_registry : Views.ViewRegistry;
  pa_log_batch_opts : BatchOptions; pa_profile_name : str; pa_leaf_receiver : option LeafReceiverOptions; pa_leaf_decoder : bool }.

(** ** Warnings *)

Definition WarnOnUnknownKeys (cfg : Config) : LogLines :=
  (λ key, (LevelWarn, $"unknown configuration key " ++ [chr 34] ++ key ++ [chr 34] ++ $" ignored ([config] unknown_keys = " ++ [chr 34] ++ $"warn" ++ [chr 34] ++ $")"))
    <$> unknown_keys_warned cfg.
Definition plaintext_warning : str :=
  $"plaintext OTLP/HTTP (http:// with protocol=http) is HTTP/2 with prior knowledge and cannot reach an HTTP/1.1-only OTLP receiver such as a stock OpenTelemetry Collector - use https:// or OTLP/gRPC; see docs/compatibility-matrix.md".
Definition insecure_warning : str :=
  $"tls.insecure = true - TLS certificate verification is disabled and any certificate will be accepted, including an attacker's. Not for production; see docs/compatibility-matrix.md".
Definition WarnOnRiskyConfig (cfg : Config) : LogLines :=
  (if bool_decide (protocol (exporter cfg) = Http) && (pe_scheme (endpoint (exporter cfg)) =s $"http") then [(LevelWarn, plaintext_warning)] else [])
  ++ (if to_insecure (tls (options cfg)) then [(LevelWarn, insecure_warning)] else []).
Definition WarnOnCustomTransport (ignored : list str) (opts : ExportTransportOptions) : LogLines :=
  (match ignored with
   | [] => []
   | _ => [(LevelWarn, $"export transport: exporter settings from the environment or file are ignored with a custom transport: " ++ join_comma ignored)]
   end)
  ++ (if negb (et_traces opts)
      then [(LevelWarn, $"export transport: traces are off in ExportTransportOptions; the sampler is always-off and no span is recorded")] else []).

(** ** [Build] *)

Definition kProfileNameField : str := $"profile_name".
Definition kDefaultProfileName : str := $"default".
Definition DuplicateProfileNameError (name : str) : ConfigError :=
  mkConfigError DuplicateProfileName kProfileNameField
    ($"a live provider is already registered under profile name '" ++ name ++ $"'; shutting a provider down does not release its name, destroying it does").
(** The process: the registry with the name of each provider, the minimum level of
    the internal log, and the calls to the log. *)
Record Process := mkProcess { p_slots : Registry.Slots; p_names : nat → str; p_min_level : LogLevel; p_log : LogLines }.
Definition set_min_level (l : LogLevel) (w : Process) : Process := mkProcess (p_slots w) (p_names w) l (p_log w).
Definition log_lines (lines : LogLines) (w : Process) : Process := mkProcess (p_slots w) (p_names w) (p_min_level w) (p_log w ++ lines).
Definition ResolveProfileName (w : Process) (configured : option str) : Result str :=
  let name := default kDefaultProfileName configured in
  if negb (is_set name)
  then inl (mkConfigError InvalidValue kProfileNameField $"profile name must not be empty; omit WithProfileName to build the default profile")
  else match Registry.FindProvider (p_names w) name (p_slots w) with Some _ => inl (DuplicateProfileNameError name) | None => inr name end.
Definition RegistrationError (result : Registry.RegistrationResult) (name : str) : ConfigError :=
  match result with
  | Registry.CapacityExhausted =>
      mkConfigError ProfileLimitExceeded kProfileNameField
        ($"the process already holds the maximum of " ++ decimal (Z.of_nat Registry.kMaxProfiles) ++ $" live providers")
  | _ => DuplicateProfileNameError name
  end.
(** [CreateTransport]. *)
Inductive TransportAnswer := TransportOk | ReactorFailed (message : str) | TransportFailed (message : str).
Definition CreateTransportUnless (custom : bool) (a : TransportAnswer) : Result bool :=
  if custom then inr false
  else match a with
       | TransportOk => inr true
       | ReactorFailed m => inl (mkConfigError Unspecified [] ($"reactor init failed: " ++ m))
       | TransportFailed m => inl (mkConfigError Unspecified [] ($"transport init failed: " ++ m))
       end.
(** [PrepareCustomTransport]: the warnings, and the sampler afterwards. *)
Definition PrepareCustomTransport (b : Impl) (opts : ExportTransportOptions) (ignored : list str) : LogLines * option Sampler.Sampler :=
  (WarnOnCustomTransport ignored opts, if negb (et_traces opts) then Some Sampler.AlwaysOff else b_sampler b).
(** The new provider is [p]; a refused one is destroyed again. *)
Definition Assemble (h : Host) (b : Impl) (cfg : Config) (resource : Resource) (auth : option (nat * CallbackAuthProvider)) (http2 : bool)
    (sampler : option Sampler.Sampler) (profile_name : str) (p : nat) (w : Process) : Result (nat * SdkProviderArgs) * Process :=
  let enabled := LeafOptions.enabled (concentrator cfg) in
  let '(channel, exporters) :=
    match b_export_transport_opts b, b_export_transport b with
    | Some opts, Some transport => (Some transport, BuildCustomExporters transport opts cfg)
    | _, _ => (None, BuildExporters (isSome auth) cfg)
    end in
  let args := mkProviderArgs auth http2 channel exporters (BuildSpanProcessor cfg) resource sampler (span_limits (options cfg)) (BuildConnectOptions cfg)
    (metric_interval cfg) (metric_temporality cfg) (ResolveMaxCardinality (h_getenv h) (b_metric_limits (b_metrics b))) (BuildViewRegistry (b_views (b_metrics b)))
    (batch (options cfg)) profile_name (if enabled then Some (concentrator cfg) else None) (MakeLeafDecoder h enabled) in
  let names := λ q, if (q =? p)%nat then profile_name else p_names w q in
  match Registry.RegisterProvider names p (p_slots w) with
  | (Registry.Registered, slots) => (inr (p, args), mkProcess slots names (p_min_level w) (p_log w))
  | (refused, slots) => (inl (RegistrationError refused profile_name), mkProcess (Registry.DeregisterProvider p slots) (p_names w) (p_min_level w) (p_log w))
  end.
Definition Build (h : Host) (transport : TransportAnswer) (p : nat) (b : Impl) (w : Process) : Result (nat * SdkProviderArgs) * Impl * Process :=
  if b_consumed b then (inl (mkConfigError BuildAlreadyConsumed [] $"SdkBuilder::Build() called more than once"), b, w)
  else
    let b := set_consumed b in
    match ResolveProfileName w (b_profile_name b) with
    | inl e => (inl e, b, w)
    | inr profile =>
        match CheckExportTransport b with
        | inl e => (inl e, b, w)
        | inr _ =>
            match LoadConfig h b with
            | inl e => (inl e, b, w)
            | inr (cfg, ignored) =>
                let w := log_lines (WarnOnUnknownKeys cfg) (set_min_level (log_level cfg) w) in
                let '(lines, sampler) := match b_export_transport_opts b with
                                         | Some opts => PrepareCustomTransport b opts ignored
                                         | None => (WarnOnRiskyConfig cfg, b_sampler b)
                                         end in
                let w := log_lines lines w in
                match CheckLeafReceiver h (concentrator cfg) with
                | inl e => (inl e, b, w)
                | inr _ =>
                    match BuildResource (h_format_double h) (p_min_level w) cfg (b_resource_detectors (b_resource b)) profile with
                    | (lines, inl e) => (inl e, b, log_lines lines w)
                    | (lines, inr resource) =>
                        let w := log_lines lines w in
                        let auth := BuildAuthProvider (b_auth_cb (b_exporter b)) (b_auth_cache_ttl (b_exporter b)) in
                        match CreateTransportUnless (isSome (b_export_transport_opts b)) transport with
                        | inl e => (inl e, b, w)
                        | inr http2 => let '(r, w) := Assemble h b cfg resource auth http2 sampler profile p w in (r, b, w)
                        end
                    end
                end
            end
        end
    end.

(** ** Which source decides *)

Definition file_config (h : Host) (b : Impl) : Result Config :=
  match b_file_path b with Some path => LoadToml (h_values h) (h_exists h) (h_parse_file h) path | None => inr Config_default end.
(** What the code layer makes of a configuration. *)
Definition overridden (b : Impl) (cfg : Config) : Config :=
  with_opt (b_leaf_receiver b) (λ o, on_concentrator (λ base, MergeLeafReceiverOptions base o)) (ApplyResourceOverrides b (ApplyExporterOverrides b cfg)).
Lemma LoadConfig_inr h b cfg ignored :
  LoadConfig h b = inr (cfg, ignored) →
  ∃ base mid, file_config h b = inr base ∧ overlay_of (h_getenv h) base mid
    ∧ valid_config (h_is_file h) (h_forbid_insecure h)
        (overridden b (match b_export_transport_opts b with Some _ => fst (DropExporterSettings mid) | None => mid end)) cfg
    ∧ ignored = match b_export_transport_opts b with Some _ => snd (DropExporterSettings mid) | None => [] end
    ∧ (isSome (b_auth_cb (b_exporter b)) = true → CheckNoStaticAuthorization (headers (exporter cfg)) = inr tt).
Proof.
  unfold LoadConfig. intros H. chain. rename x into base, x0 into mid. exists base, mid. split; [done|]. split; [by apply OverlayEnv_inr|].
  destruct (b_export_transport_opts b) as [opts|]; [destruct (DropExporterSettings mid) as [dropped names]|].
  all: chain; injection H as -> <-; split; [apply Validate_valid; assumption|]; split; [done|]; intros Ha; destruct (b_auth_cb _); [|done].
  all: by destruct x0.
Qed.

(** An assignment that may not happen, as one that keeps the old value. *)
Lemma with_opt_get {A} (get : Config → A) (set : A → Config → Config) o cfg :
  (∀ c, set (get c) c = c) → with_opt o set cfg = set (default (get cfg) o) cfg.
Proof. intros H. destruct o; [done|]. symmetry. apply H. Qed.
Definition merged_headers (o : option (list KeyValue)) (old : list KeyValue) : list KeyValue := match o with Some h => MergeHeaders old h | None => old end.
Definition merged_attrs (o : option (list KeyValue)) (old : list KeyValue) : list KeyValue := match o with Some a => MergeResourceAttrs old a | None => old end.
Lemma ApplyExporterOverrides_fields b c :
  let e := b_exporter b in
  ApplyExporterOverrides b c
  = set_metric_temporality (default (metric_temporality c) (b_metric_temporality (b_metrics b)))
      (set_metric_interval (default (metric_interval c) (b_metric_interval (b_metrics b)))
      (set_tls (default (tls (options c)) (b_tls e))
      (set_headers (merged_headers (b_headers e) (headers (exporter c)))
      (set_compression (default (compression_gzip (exporter c)) (b_compression_gzip e))
      (set_protocol (default (protocol (exporter c)) (b_protocol e)) (isSome (b_protocol e) || protocol_explicit (exporter c))
      (set_endpoint_url (default (endpoint_url (exporter c)) (b_endpoint e)) c)))))).
Proof.
  cbv zeta. unfold ApplyExporterOverrides.
  rewrite (with_opt_get metric_temporality set_metric_temporality) by (intros d; cfg_eta d).
  rewrite (with_opt_get metric_interval set_metric_interval) by (intros d; cfg_eta d).
  rewrite (with_opt_get (λ c, tls (options c)) set_tls) by (intros d; cfg_eta d).
  rewrite (with_opt_get (λ c, compression_gzip (exporter c)) set_compression) by (intros d; cfg_eta d).
  rewrite (with_opt_get (λ c, endpoint_url (exporter c)) set_endpoint_url) by (intros d; cfg_eta d).
  by destruct (b_protocol (b_exporter b)), (b_headers (b_exporter b)), c as [[]].
Qed.
Lemma ApplyResourceOverrides_fields b c :
  let r := b_resource b in let s := b_structs b in
  ApplyResourceOverrides b c
  = set_timeouts (default (timeouts (options c)) (b_timeouts s))
      (set_memory_limits (default (memory_limits (options c)) (b_memory_limits s))
      (set_span_limits (default (span_limits (options c)) (b_span_limits s))
      (set_batch (default (batch (options c)) (b_batch s))
      (set_resource_attrs (merged_attrs (b_resource_attrs r) (resource_attrs (service c)))
      (set_service_version (default (service_version (service c)) (b_service_version r))
      (set_service_name (default (service_name (service c)) (b_service_name r)) c)))))).
Proof.
  cbv zeta. unfold ApplyResourceOverrides.
  rewrite (with_opt_get (λ c, timeouts (options c)) set_timeouts) by (intros d; cfg_eta d).
  rewrite (with_opt_get (λ c, memory_limits (options c)) set_memory_limits) by (intros d; cfg_eta d).
  rewrite (with_opt_get (λ c, span_limits (options c)) set_span_limits) by (intros d; cfg_eta d).
  rewrite (with_opt_get (λ c, batch (options c)) set_batch) by (intros d; cfg_eta d).
  rewrite (with_opt_get (λ c, service_version (service c)) set_service_version) by (intros d; cfg_eta d).
  rewrite (with_opt_get (λ c, service_name (service c)) set_service_name) by (intros d; cfg_eta d).
  by destruct (b_resource_attrs (b_resource b)), c as [? []].
Qed.
Lemma overridden_fields b c :
  overridden b c = on_concentrator (λ base, match b_leaf_receiver b with Some o => MergeLeafReceiverOptions base o | None => base end)
                     (ApplyResourceOverrides b (ApplyExporterOverrides b c)).
Proof. unfold overridden. destruct (b_leaf_receiver b); [done|]. cbn. by destruct (ApplyResourceOverrides _ _). Qed.

Section precedence.
Context (h : Host) (b : Impl).
(** Code first, then the variable, then what the file (or the default) left. *)
Definition chosen {A} (code : option A) (name : str) (parse : str → option A) (old new : A) : Prop :=
  match code with Some v => new = v | None => overlaid (h_getenv h) name parse old new end.
Definition env_pairs (name : str) : list KeyValue := match GetEnv (h_getenv h) name with [] => [] | v => default [] (pairs_of name v) end.
Record decided (base cfg : Config) : Prop := {
  de_url : chosen (b_endpoint (b_exporter b)) n_endpoint Some (endpoint_url (exporter base)) (endpoint_url (exporter cfg));
  de_protocol : ∃ p explicit,
    chosen ((λ p, (p, true)) <$> b_protocol (b_exporter b)) n_protocol protocol_of (protocol (exporter base), protocol_explicit (exporter base)) (p, explicit)
    ∧ protocol_explicit (exporter cfg) = explicit ∧ protocol (exporter cfg) = if grpc_scheme (endpoint_url (exporter cfg)) then Grpc else p;
  de_compression : chosen (b_compression_gzip (b_exporter b)) n_compression (λ v, Some (v =s $"gzip")) (compression_gzip (exporter base)) (compression_gzip (exporter cfg));
  de_headers : ∀ name, entries_of name (headers (exporter cfg))
    = match last_entry name (default [] (b_headers (b_exporter b))) with
      | Some kv => [kv]
      | None => match last_entry name (env_pairs n_headers) with Some kv => [kv] | None => entries_of name (headers (exporter base)) end
      end;
  de_tls : match b_tls (b_exporter b) with
           | Some t => tls (options cfg) = t
           | None => ∃ ca, overlaid (h_getenv h) n_certificate Some (to_ca_bundle (tls (options base))) ca
                     ∧ tls (options cfg) = let t := tls (options base) in mkTlsOptions (to_insecure t) ca (to_client_cert t) (to_client_key t) (to_sni_override t)
           end;
  de_name : ∃ name, chosen (b_service_name (b_resource b)) n_service Some (service_name (service base)) name
    ∧ service_name_defaulted (service cfg) = negb (is_set name) ∧ service_name (service cfg) = if is_set name then name else $"unknown_service";
  de_version : service_version (service cfg) = default (service_version (service base)) (b_service_version (b_resource b));
  de_attrs : ∀ k, lookup_attr k (resource_attrs (service cfg))
    = match last_attr k (default [] (b_resource_attrs (b_resource b))) with
      | Some v => Some v
      | None => match last_attr k (env_pairs n_attributes) with Some v => Some v | None => lookup_attr k (resource_attrs (service base)) end
      end;
  de_strict : overlaid (h_getenv h) n_strict ParseBool (resource_detectors_strict (service base)) (resource_detectors_strict (service cfg));
  de_batch : batch (options cfg) = default (batch (options base)) (b_batch (b_structs b));
  de_span_limits : span_limits (options cfg) = default (span_limits (options base)) (b_span_limits (b_structs b));
  de_memory_limits : memory_limits (options cfg) = default (memory_limits (options base)) (b_memory_limits (b_structs b));
  de_timeouts : match b_timeouts (b_structs b) with
                | Some t => timeouts (options cfg) = t
                | None => ∃ ms, overlaid (h_getenv h) n_timeout (ms_of n_timeout) (t_per_export (timeouts (options base))) ms
                          ∧ timeouts (options cfg) = let t := timeouts (options base) in mkTimeouts (t_connect t) (t_tls_handshake t) ms (t_retry_budget t) (t_flush t) (t_shutdown t)
                end;
  de_interval : chosen (b_metric_interval (b_metrics b)) n_interval (ms_of n_interval) (metric_interval base) (metric_interval cfg);
  de_temporality : chosen (b_metric_temporality (b_metrics b)) n_temporality temporality_of (metric_temporality base) (metric_temporality cfg);
  de_level : overlaid (h_getenv h) n_level ParseLogLevel (log_level base) (log_level cfg);
  de_concentrator : ∃ mid, overlay_of (h_getenv h) base mid
    ∧ concentrator cfg = match b_leaf_receiver b with Some o => MergeLeafReceiverOptions (concentrator mid) o | None => concentrator mid end;
  de_unknown : unknown_key_mode cfg = unknown_key_mode base ∧ unknown_keys_warned cfg = unknown_keys_warned base
}.
Lemma chosen_default {A} (code : option A) name parse old new :
  overlaid (h_getenv h) name parse old new → chosen code name parse old (default new code).
Proof. by destruct code. Qed.
Lemma merged_headers_entries o old name :
  entries_of name (merged_headers o old) = match last_entry name (default [] o) with Some kv => [kv] | None => entries_of name old end.
Proof. destruct o; [apply MergeHeaders_exact|done]. Qed.
Lemma merged_attrs_lookup o old k :
  lookup_attr k (merged_attrs o old) = match last_attr k (default [] o) with Some v => Some v | None => lookup_attr k old end.
Proof. destruct o; [apply merge_fold_lookup|done]. Qed.
(** The pairs of a variable, merged over a table. *)
Lemma overlaid_pairs {T} name (merge : list KeyValue → list KeyValue) (look : list KeyValue → T) (over : list KeyValue → option T) old new :
  (look old = match over [] with Some v => v | None => look old end) →
  (∀ pairs, look (merge pairs) = match over pairs with Some v => v | None => look old end) →
  overlaid (h_getenv h) name (λ v, merge <$> pairs_of name v) old new →
  look new = match over (env_pairs name) with Some v => v | None => look old end.
Proof.
  intros H0 H1. unfold overlaid, env_pairs. destruct (GetEnv (h_getenv h) name) as [|c v]; [by intros ->|].
  intros (pairs & E & ->)%fmap_Some. rewrite E. apply H1.
Qed.
Lemma overridden_decided base mid cfg :
  overlay_of (h_getenv h) base mid → valid_config (h_is_file h) (h_forbid_insecure h) (overridden b mid) cfg → decided base cfg.
Proof.
  intros Omid V. pose proof Omid as O. pose proof (vc_kept _ _ _ _ V) as K. pose proof (vc_protocol _ _ _ _ V) as VP. pose proof (vc_name _ _ _ _ V) as VN. pose proof (vc_defaulted _ _ _ _ V) as VD.
  assert (grpc_scheme (endpoint_url (exporter cfg)) = grpc_scheme (endpoint_url (exporter (overridden b mid)))) as VG by (by rewrite K).
  rewrite <- VG in VP. clear VG V.
  rewrite overridden_fields, ApplyResourceOverrides_fields, ApplyExporterOverrides_fields in K, VP, VN, VD.
  destruct O as [O1 O2 O3 O4 O5 O6 O7 O8 O9 O10 O11 O12 _ _ _ _ _ _ Ok]. unfold kept in Ok. cbv zeta in Ok.
  assert (service_version (service mid) = service_version (service base) ∧ batch (options mid) = batch (options base)
    ∧ span_limits (options mid) = span_limits (options base) ∧ memory_limits (options mid) = memory_limits (options base)
    ∧ unknown_key_mode mid = unknown_key_mode base ∧ unknown_keys_warned mid = unknown_keys_warned base) as (Kv & Kb & Ks & Km & Ku & Kw) by (split_and!; congruence).
  split.
  - rewrite K. by apply chosen_default.
  - exists (default (protocol (exporter mid)) (b_protocol (b_exporter b))), (isSome (b_protocol (b_exporter b)) || protocol_explicit (exporter mid)).
    split_and!; [|by rewrite K|exact VP]. by destruct (b_protocol (b_exporter b)).
  - rewrite K. by apply chosen_default.
  - intros name. rewrite K. etrans; [apply merged_headers_entries|]. destruct (last_entry name _); [done|].
    etrans; [apply (overlaid_pairs n_headers (MergeHeaders (headers (exporter base))) (entries_of name) (λ p, (λ kv, [kv]) <$> last_entry name p) (headers (exporter base)))|].
    + done.
    + intros pairs. rewrite MergeHeaders_exact. by destruct (last_entry name pairs).
    + exact O3.
    + by destruct (last_entry name (env_pairs n_headers)).
  - destruct (b_tls (b_exporter b)) as [t|] eqn:Et; [by rewrite K|]. exists (to_ca_bundle (tls (options mid))). split; [exact O6|].
    rewrite K. cbn. destruct (tls (options mid)), (tls (options base)). cbn in *. congruence.
  - eexists. split; [|split; [exact VD|exact VN]]. by apply chosen_default.
  - rewrite K, <- Kv. done.
  - intros k. rewrite K. etrans; [apply merged_attrs_lookup|]. destruct (last_attr k _); [done|].
    etrans; [apply (overlaid_pairs n_attributes (MergeResourceAttrs (resource_attrs (service base))) (lookup_attr k) (λ p, Some <$> last_attr k p) (resource_attrs (service base)))|].
    + done.
    + intros pairs. etrans; [apply merge_fold_lookup|]. cbn [m_attributes]. by destruct (last_attr k pairs).
    + exact O8.
    + by destruct (last_attr k (env_pairs n_attributes)).
  - rewrite K. exact O9.
  - rewrite K, <- Kb. done.
  - rewrite K, <- Ks. done.
  - rewrite K, <- Km. done.
  - destruct (b_timeouts (b_structs b)) as [t|] eqn:Et; [by rewrite K|]. exists (t_per_export (timeouts (options mid))). split; [exact O4|].
    rewrite K. cbn. destruct (timeouts (options mid)), (timeouts (options base)). cbn in *. congruence.
  - rewrite K. by apply chosen_default.
  - rewrite K. by apply chosen_default.
  - rewrite K. exact O12.
  - exists mid. split; [exact Omid|]. by rewrite K.
  - rewrite K, <- Ku, <- Kw. done.
Qed.
End precedence.

(** C29: precedence.  In a build without a custom transport whose configuration is
    accepted, every setting is what the code set, else what its environment variable
    says, else what the file (or the default) left.  Tables are merged by key in the
    same order.  Exceptions: a set TLS or timeout structure replaces the whole, with
    what the environment put into it; a gRPC scheme fixes the protocol; an empty
    service name becomes unknown_service and is recorded as defaulted. *)
Theorem config_precedence h b cfg ignored :
  b_export_transport_opts b = None → LoadConfig h b = inr (cfg, ignored) →
  ∃ base, file_config h b = inr base ∧ decided h b base cfg ∧ ignored = [].
Proof.
  intros Ho H. apply LoadConfig_inr in H as (base & mid & Hf & O & V & -> & _). rewrite Ho in *. exists base.
  split; [done|]. split; [by eapply overridden_decided|done].
Qed.
Definition demo_host : Host :=
  mkHost (λ n, if n =s $"OTEL_EXPORTER_OTLP_ENDPOINT" then Some $"http://env:1" else if n =s $"OTEL_EXPORTER_OTLP_PROTOCOL" then Some $"http"
               else if n =s $"OTEL_EXPORTER_OTLP_HEADERS" then Some $"a=env,b=env"
               else if n =s $"OTEL_EXPORTER_OTLP_CERTIFICATE" then Some $"/ca" else if n =s $"OTEL_SERVICE_NAME" then Some $"env" else None)
    exact_values (λ _, true)
    (λ _, inr [($"service", TTable [($"name", TString $"file"); ($"version", TString $"7")]); ($"sdk", TTable [($"max_queue_size", TInteger 1024)])])
    (λ p, p =s $"/ca") false true (λ _, $"0.5").
Definition demo_builder : Impl :=
  WithHeaders [mkKeyValue $"A" (AvString $"code")] (WithEndpoint $"https://collector" (FromFile $"/etc/microtel.toml" SdkBuilder_new)).
Lemma config_precedence_witness :
  match LoadConfig demo_host demo_builder with
  | inr (cfg, _) =>
      ∃ base, decided demo_host demo_builder base cfg
      ∧ endpoint (exporter cfg) = mkParsedEndpoint $"https" $"collector" 4318 [] ∧ service_name (service cfg) = $"env" ∧ service_version (service cfg) = $"7"
      ∧ headers (exporter cfg) = [mkKeyValue $"A" (AvString $"code"); mkKeyValue $"b" (AvString $"env")] ∧ max_queue_size (batch (options cfg)) = 1024
  | inl _ => False
  end.
Proof.
  destruct (LoadConfig demo_host demo_builder) as [e|[cfg ignored]] eqn:E; [vm_compute in E; discriminate E|].
  destruct (config_precedence demo_host demo_builder cfg ignored eq_refl E) as (base & _ & D & _). exists base. split; [exact D|].
  vm_compute in E. injection E as <- <-. split_and!; reflexivity.
Defined.
(** A TLS structure set in code hides the CA bundle of the environment. *)
Example tls_replaced_whole :
  (λ r, to_ca_bundle (tls (options (fst r)))) <$> to_option (LoadConfig demo_host (WithTls (mkTlsOptions false [] [] [] $"sni") demo_builder)) = Some [].
Proof. vm_compute. reflexivity. Qed.

(** ** What the transport is told *)

Lemma accepted_endpoint is_file forbid cfg0 cfg :
  valid_config is_file forbid cfg0 cfg →
  (pe_scheme (endpoint (exporter cfg)) = $"https" ∨ pe_scheme (endpoint (exporter cfg)) = $"http")
  ∧ pe_host (endpoint (exporter cfg)) ≠ [] ∧ 1 <= pe_port (endpoint (exporter cfg)) <= 65535.
Proof.
  intros V. destruct (vc_endpoint _ _ _ _ V) as (scheme & authority & path & port_text & _ & Hs & _ & _ & _ & Hh & Hp & _).
  split_and!; try done.
  - apply ResolveScheme_Some in Hs as [[_ ->]|[_ ->]]; auto.
  - destruct Hp as [[_ ->]|(_ & _ & _ & ?)]; [|lia]. destruct (protocol (exporter cfg)); vm_compute; discriminate.
  - destruct Hp as [[_ ->]|(_ & _ & _ & ?)]; [|lia]. destruct (protocol (exporter cfg)); vm_compute; discriminate.
Qed.
Lemma digits_no_colon s : digits s = s → ":"%char ∉ s.
Proof.
  intros H Hin. assert (forallb is_digit s = true) as Hd by (rewrite <- H; apply digits_split). by pose proof (forallb_elem _ _ _ Hd Hin).
Qed.
(** What the validator accepted is what the transport dials: the endpoint text
    built from an accepted configuration is read by [ParseEndpoint] as the same host,
    a port text with the same value, and TLS exactly for the https and grpcs
    schemes, whatever the insecure flag says; both codecs send the same
    authority. *)
Theorem built_endpoint_dialed h b cfg ignored insecure :
  LoadConfig h b = inr (cfg, ignored) →
  let ep := endpoint (exporter cfg) in
  ∃ port, ParseEndpoint (co_endpoint (BuildConnectOptions cfg)) insecure = inr (mkEndpoint (pe_host ep) port (pe_scheme ep =s $"https"))
    ∧ forallb is_digit port = true ∧ digits_value port = pe_port ep ∧ 1 <= pe_port ep <= 65535
    ∧ ∀ extra auth path, match BuildWireCodec cfg extra auth path with
      | GrpcWireCodec config _ opts => GrpcCodec.host config = pe_host ep ++ ":"%char :: port ∧ GrpcCodec.scheme config = pe_scheme ep ∧ opts = BuildConnectOptions cfg
      | HttpWireCodec config _ opts => HttpCodec.host config = pe_host ep ++ ":"%char :: port ∧ HttpCodec.scheme config = pe_scheme ep ∧ opts = BuildConnectOptions cfg
      | ExportTransportCodec _ _ _ => False
      end.
Proof.
  intros H ep. apply LoadConfig_inr in H as (base & mid & _ & _ & V & _). apply accepted_endpoint in V as (Hs & Hh & Hp). fold ep in Hs, Hh, Hp.
  destruct (decimal_read (pe_port ep)) as (Hd & Hv & Hn); [lia|]. exists (decimal (pe_port ep)).
  assert (to_string (pe_port ep) = decimal (pe_port ep)) as Et by (unfold to_string; destruct (Z.ltb_spec (pe_port ep) 0); [lia|done]).
  split.
  - unfold BuildConnectOptions, host_port. cbn [co_endpoint]. fold ep. rewrite Et.
    pose proof (ParseEndpoint_reads (Some (pe_scheme ep =s $"https")) insecure (pe_host ep) (decimal (pe_port ep)) Hh Hn (digits_no_colon _ Hd)) as HP.
    etrans; [|by apply HP]. f_equal. by destruct Hs as [-> | ->].
  - split; [rewrite <- Hd; apply digits_split|]. split; [done|]. split; [done|]. intros extra auth path. unfold BuildWireCodec, host_port. fold ep. rewrite Et.
    by destruct (protocol (exporter cfg)).
Qed.
Lemma built_endpoint_dialed_witness :
  ∃ cfg, ParseEndpoint (co_endpoint (BuildConnectOptions cfg)) false = inr (mkEndpoint $"collector" $"4318" true)
    ∧ endpoint (exporter cfg) = mkParsedEndpoint $"https" $"collector" 4318 [].
Proof.
  destruct (LoadConfig demo_host demo_builder) as [e|[cfg ignored]] eqn:E; [vm_compute in E; discriminate E|]. exists cfg.
  destruct (built_endpoint_dialed demo_host demo_builder cfg ignored false E) as (port & HP & _).
  vm_compute in E. injection E as <- <-. split; [|reflexivity]. vm_compute in HP. injection HP as <-. vm_compute. reflexivity.
Defined.
(** The base path of the endpoint reaches the trace codec only. *)
Example metrics_ignore_base_path :
  (λ r, let cfg := fst r in (λ path, match BuildWireCodec cfg [] false path with HttpWireCodec c _ _ => HttpCodec.ResolvePath c | _ => [] end) <$> [[]; kHttpMetricsPath; kHttpLogsPath])
    <$> to_option (LoadConfig demo_host (WithEndpoint $"https://collector/otlp" demo_builder))
  = Some [$"/otlp/v1/traces"; $"/v1/metrics"; $"/v1/logs"].
Proof. vm_compute. reflexivity. Qed.

(** ** What a codec sends *)

(** The request headers of a codec: the [i]th of an HTTP batch, of [len] octets. *)
Definition request_headers (c : WireCodec) (w : World) (i : nat) (len : Z) (compressed : bool) : option (list HeaderField + Error) :=
  match c with
  | GrpcWireCodec config auth _ => Some (GrpcCodec.BuildHeaders config w compressed)
  | HttpWireCodec config auth _ => Some (HttpCodec.BuildHeaders config w i len compressed)
  | ExportTransportCodec _ _ _ => None
  end.
Definition without_auth (w : World) : World := mkWorld (connected w) (connect_error w) false (authorization w) (answer w).
Definition lower_name (h : HeaderField) : str := to_lower <$> hf_name h.
(** The codec's own headers: without static ones and without an auth provider. *)
Definition own_headers (cfg : Config) (path : str) (w : World) (i : nat) (len : Z) (compressed : bool) : list HeaderField :=
  match request_headers (BuildWireCodec cfg [] false path) (without_auth w) i len compressed with Some (inl l) => l | _ => [] end.
Definition auth_headers (w : World) (i : nat) : list HeaderField :=
  if has_auth w then match authorization w i with inl (Some token) => [mkHeaderField $"authorization" token] | _ => [] end else [].
Lemma request_headers_split cfg extra auth path w i len compressed hs :
  request_headers (BuildWireCodec cfg extra auth path) w i len compressed = Some (inl hs) →
  hs = own_headers cfg path w i len compressed ++ extra ++ auth_headers w (if protocol (exporter cfg) is Grpc then 0%nat else i).
Proof.
  unfold own_headers, BuildWireCodec, auth_headers. destruct (protocol (exporter cfg)); cbn [request_headers]; intros H; injection H as H;
    unfold GrpcCodec.BuildHeaders, HttpCodec.BuildHeaders, AppendAuthHeader in *; cbn [has_auth without_auth negb];
    cbn [GrpcCodec.extra_headers GrpcCodec.host GrpcCodec.scheme GrpcCodec.service_path HttpCodec.extra_headers HttpCodec.host HttpCodec.scheme HttpCodec.path HttpCodec.signal_path] in *;
    (destruct (has_auth w); cbn [negb] in H; [destruct (authorization w _) as [[token|]|e]|]); try discriminate H; injection H as <-;
    rewrite ?app_nil_r, <- ?app_assoc; done.
Qed.
(** The names the codec uses itself, in lower case. *)
Definition own_names (p : Protocol) : list str :=
  match p with
  | Grpc => [$":method"; $":scheme"; $":authority"; $":path"; $"te"; $"content-type"; $"user-agent"; $"grpc-accept-encoding"; $"grpc-encoding"]
  | Http => [$":method"; $":scheme"; $":path"; $":authority"; $"content-type"; $"content-length"; $"accept-encoding"; $"content-encoding"]
  end.
Lemma own_headers_names cfg path w i len compressed :
  (lower_name <$> own_headers cfg path w i len compressed) `sublist_of` own_names (protocol (exporter cfg)).
Proof.
  unfold own_headers, BuildWireCodec. destruct (protocol (exporter cfg)); cbn [request_headers];
    unfold GrpcCodec.BuildHeaders, HttpCodec.BuildHeaders, AppendAuthHeader; cbn [has_auth without_auth negb GrpcCodec.extra_headers HttpCodec.extra_headers];
    rewrite ?app_nil_r; destruct compressed; cbn; repeat constructor.
Qed.
Lemma own_names_NoDup p : NoDup (own_names p).
Proof. destruct p; apply (bool_decide_unpack _); vm_compute; exact I. Qed.
Lemma legal_name_not_own p n : legal_name p n → (to_lower <$> n) ∉ own_names p ∧ (p = Grpc → (to_lower <$> n) ≠ $"content-length").
Proof.
  intros [[Hne Htok] Hconn Hhost Hproto]. split; [|intros ->; set_solver].
  assert (∀ rest, (to_lower <$> n) ≠ ":"%char :: rest) as Hcolon.
  { intros rest E. destruct n as [|c n]; [done|]. cbn in E. injection E as E _. assert (IsTokenChar c = true) as Hc by (apply Htok; left).
    assert (∀ c, (IsTokenChar c && (to_lower c =c ":")) = false) as Hno.
    { intros d. apply negb_true_iff. revert d. apply forall_octets. vm_compute. reflexivity. }
    specialize (Hno c). rewrite Hc, E in Hno. discriminate Hno. }
  destruct p; unfold own_names; rewrite !not_elem_of_cons; split_and!; try apply not_elem_of_nil; try apply Hcolon; intros E; rewrite E in *.
  all: first [apply Hproto; apply (bool_decide_unpack _); vm_compute; exact I | apply Hconn; apply (bool_decide_unpack _); vm_compute; exact I].
Qed.
(** C30: the requests of a codec built from an accepted configuration: the codec's own
    headers, whose names are distinct, then the static headers, then the
    authorization if the provider gives one.  Every static header has a name and a
    value HTTP/2 can carry, and none repeats a name the codec uses itself; the
    authorization value is legal whenever the provider's is, and where there is a
    provider no static header is an authorization. *)
Theorem built_requests_legal h b cfg ignored path w i len compressed hs :
  LoadConfig h b = inr (cfg, ignored) →
  has_auth w = isSome (b_auth_cb (b_exporter b)) → (∀ j v, authorization w j = inl (Some v) → legal_value v) →
  request_headers (BuildWireCodec cfg (ToHeaderFields (headers (exporter cfg))) (has_auth w) path) w i len compressed = Some (inl hs) →
  ∃ own auth, hs = own ++ ToHeaderFields (headers (exporter cfg)) ++ auth
    ∧ request_headers (BuildWireCodec cfg [] false path) (without_auth w) i len compressed = Some (inl own)
    ∧ NoDup (lower_name <$> own)
    ∧ Forall (λ f, legal_name (protocol (exporter cfg)) (hf_name f) ∧ legal_value (hf_value f) ∧ lower_name f ∉ lower_name <$> own) (ToHeaderFields (headers (exporter cfg)))
    ∧ (auth = [] ∨ ∃ v, auth = [mkHeaderField $"authorization" v] ∧ legal_value v ∧ Forall (λ f, lower_name f ≠ $"authorization") (ToHeaderFields (headers (exporter cfg)))).
Proof.
  intros H Hw Hlegal Hreq. apply LoadConfig_inr in H as (base & mid & _ & _ & V & _ & Hauth).
  exists (own_headers cfg path w i len compressed), (auth_headers w (if protocol (exporter cfg) is Grpc then 0%nat else i)).
  split; [by eapply request_headers_split|].
  assert (Forall (legal_header (protocol (exporter cfg))) (headers (exporter cfg))) as Hh.
  { pose proof (vc_headers _ _ _ _ V) as Hh. rewrite (vc_kept _ _ _ _ V) at 2. exact Hh. }
  assert (∀ f, f ∈ ToHeaderFields (headers (exporter cfg)) → ∃ kv, kv ∈ headers (exporter cfg) ∧ kv_key kv = hf_name f ∧ kv_value kv = AvString (hf_value f)) as Hfields.
  { intros f (kv & Hkv & Hf)%list_elem_of_omap. exists kv. split; [done|]. by destruct (kv_value kv); try discriminate Hf; injection Hf as <-. }
  pose proof (own_headers_names cfg path w i len compressed) as Hsub. split; [|split; [|split]].
  - unfold own_headers, BuildWireCodec. by destruct (protocol (exporter cfg)).
  - eapply sublist_NoDup; [|exact Hsub]. apply own_names_NoDup.
  - apply Forall_forall. intros f (kv & Hin & Hk & Hv)%Hfields. rewrite Forall_forall in Hh. destruct (Hh kv Hin) as [Hn Hval]. rewrite Hk in Hn. rewrite Hv in Hval.
    split; [done|]. split; [done|]. intros Hbad. apply (proj1 (legal_name_not_own _ _ Hn)). by eapply elem_of_sublist.
  - unfold auth_headers. destruct (has_auth w); [|by left]. destruct (authorization w _) as [[v|]|e] eqn:Ea; [|by left..]. right. exists v.
    split; [done|]. split; [by eapply Hlegal|]. symmetry in Hw. specialize (Hauth Hw). apply Forall_forall. intros f (kv & Hin & Hk & _)%Hfields.
    pose proof (proj1 (check_authorization_ok _) (ex_intro _ tt Hauth) kv Hin) as Hne. by rewrite Hk in Hne.
Qed.
Definition demo_world : World := mkWorld true None true (λ _, inl (Some $"Bearer t")) (λ _, None).
Lemma built_requests_legal_witness :
  ∃ hs, lower_name <$> hs
    = [$":method"; $":scheme"; $":path"; $":authority"; $"content-type"; $"content-length"; $"accept-encoding"; $"a"; $"b"; $"authorization"]
    ∧ ∃ auth, auth ≠ [] ∧ Forall (λ f, legal_value (hf_value f)) auth ∧ ∃ rest, hs = rest ++ auth.
Proof.
  destruct (LoadConfig demo_host (WithAuthProvider 0 60000 demo_builder)) as [e|[cfg ignored]] eqn:E; [vm_compute in E; discriminate E|].
  destruct (request_headers (BuildWireCodec cfg (ToHeaderFields (headers (exporter cfg))) true []) demo_world 0 5 false) as [[hs|]|] eqn:Eh.
  - destruct (built_requests_legal demo_host (WithAuthProvider 0 60000 demo_builder) cfg ignored [] demo_world 0 5 false hs E eq_refl) as (own & auth & Hs & Hown & _ & _ & Ha).
    + intros j v. intros [= <-]. apply FieldValueFault_None. vm_compute. reflexivity.
    + exact Eh.
    + exists hs. vm_compute in E. injection E as <- <-. vm_compute in Eh. injection Eh as <-. split; [vm_compute; reflexivity|].
      exists auth. destruct Ha as [->|(v & -> & Hv & _)].
      * exfalso. vm_compute in Hown. injection Hown as <-. vm_compute in Hs. discriminate Hs.
      * split; [discriminate|]. split; [by constructor|]. rewrite app_assoc in Hs. by eexists.
  - exfalso. vm_compute in E. injection E as <- <-. vm_compute in Eh. discriminate Eh.
  - exfalso. vm_compute in E. injection E as <- <-. vm_compute in Eh. discriminate Eh.
Defined.

(** ** [Build] *)

(** The parts of a build that succeeded. *)
Lemma Build_inr h transport p b w q args b' w' :
  Build h transport p b w = (inr (q, args), b', w') →
  b_consumed b = false ∧ b' = set_consumed b
  ∧ ∃ profile cfg ignored sampler resource http2 lines,
      ResolveProfileName w (b_profile_name b) = inr profile ∧ CheckExportTransport b = inr tt ∧ LoadConfig h b = inr (cfg, ignored)
      ∧ CheckLeafReceiver h (concentrator cfg) = inr tt
      ∧ sampler = match b_export_transport_opts b with Some opts => snd (PrepareCustomTransport b opts ignored) | None => b_sampler b end
      ∧ CreateTransportUnless (isSome (b_export_transport_opts b)) transport = inr http2
      ∧ Assemble h (set_consumed b) cfg resource (BuildAuthProvider (b_auth_cb (b_exporter b)) (b_auth_cache_ttl (b_exporter b))) http2 sampler profile p
          (mkProcess (p_slots w) (p_names w) (log_level cfg) (p_log w ++ lines)) = (inr (q, args), w').
Proof.
  unfold Build. destruct (b_consumed b); [done|]. change (b_profile_name (set_consumed b)) with (b_profile_name b).
  destruct (ResolveProfileName w _) as [e|profile]; [done|]. change (CheckExportTransport (set_consumed b)) with (CheckExportTransport b).
  destruct (CheckExportTransport b) as [e|[]]; [done|]. change (LoadConfig h (set_consumed b)) with (LoadConfig h b).
  destruct (LoadConfig h b) as [e|[cfg ignored]] eqn:El; [done|]. change (b_export_transport_opts (set_consumed b)) with (b_export_transport_opts b).
  change (PrepareCustomTransport (set_consumed b)) with (PrepareCustomTransport b). change (b_sampler (set_consumed b)) with (b_sampler b).
  destruct (match b_export_transport_opts b with Some opts => _ | None => _ end) as [lines sampler] eqn:Es.
  destruct (CheckLeafReceiver h (concentrator cfg)) as [e|[]] eqn:Ec; [done|].
  destruct (BuildResource _ _ _ _ _) as [rl [e|resource]]; [done|]. destruct (CreateTransportUnless _ _) as [e|http2] eqn:Et; [done|].
  change (b_exporter (set_consumed b)) with (b_exporter b).
  destruct (Assemble _ _ _ _ _ _ _ _ _ _) as [r w''] eqn:Ea. intros [= -> <- <-]. split; [done|]. split; [done|].
  exists profile, cfg, ignored, sampler, resource, http2. eexists. split_and!; try done.
  - destruct (b_export_transport_opts b); injection Es; done.
  - rewrite <- Ea. unfold log_lines, set_min_level. cbn [p_slots p_names p_min_level p_log]. by rewrite <- !app_assoc.
Qed.

(** Only the names of the live providers matter. *)
Lemma FindProvider_ext names names' n s :
  (∀ q, q ∈ Registry.live s → names q = names' q) → Registry.FindProvider names n s = Registry.FindProvider names' n s.
Proof.
  induction s as [|[q|] s IH]; [done| |exact IH]. intros H. cbn. rewrite (H q) by (cbn; left). destruct (names' q =s n); [done|].
  apply IH. intros q' Hq'. apply H. by right.
Qed.
Lemma registry_ok_ext names names' s :
  (∀ q, q ∈ Registry.live s → names q = names' q) → Registry.registry_ok names s → Registry.registry_ok names' s.
Proof.
  intros H [Hl Hn]. split; [done|]. replace (names' <$> Registry.live s) with (names <$> Registry.live s); [done|].
  apply list_fmap_ext. intros i q Hq. apply H. by eapply list_elem_of_lookup_2.
Qed.
Lemma FindProvider_claimed names n s1 p s2 :
  NoDup (names <$> Registry.live (s1 ++ Some p :: s2)) →
  Registry.FindProvider names n (s1 ++ Some p :: s2) = if names p =s n then Some p else Registry.FindProvider names n (s1 ++ None :: s2).
Proof.
  intros H. destruct (Registry.registry_map_app names s1 p s2 H) as [E _].
  rewrite !Registry.FindProvider_map, E; [|by rewrite Registry.slots_live_insert in H; apply NoDup_cons in H as [_ ?]|done].
  destruct (names p =s n) eqn:En.
  - apply seqb_true in En as <-. by rewrite lookup_insert_eq.
  - apply seqb_false in En. by rewrite lookup_insert_ne.
Qed.
Definition with_name (p : nat) (name : str) (names : nat → str) : nat → str := λ q, if (q =? p)%nat then name else names q.
Lemma with_name_other p name names s : p ∉ Registry.live s → ∀ q, q ∈ Registry.live s → names q = with_name p name names q.
Proof. intros Hp q Hq. unfold with_name. by rewrite (proj2 (Nat.eqb_neq q p)) by (intros ->; contradiction). Qed.
Lemma Assemble_cases h b cfg resource auth http2 sampler profile p w :
  Registry.registry_ok (p_names w) (p_slots w) → p ∉ Registry.live (p_slots w) →
  let r := Assemble h b cfg resource auth http2 sampler profile p w in
  (∃ e, r = (inl e, w))
  ∨ Registry.FindProvider (p_names w) profile (p_slots w) = None
    ∧ ∃ args s1 s2, r = (inr (p, args), mkProcess (s1 ++ Some p :: s2) (with_name p profile (p_names w)) (p_min_level w) (p_log w))
      ∧ p_slots w = s1 ++ None :: s2 ∧ pa_profile_name args = profile.
Proof.
  intros Hok Hp r. subst r. unfold Assemble. set (names := with_name p profile (p_names w)). change (λ q, if (q =? p)%nat then profile else p_names w q) with names.
  pose proof (with_name_other p profile (p_names w) _ Hp) as Hn. fold names in Hn.
  pose proof (Registry.RegisterProvider_cases names p (p_slots w) (registry_ok_ext _ _ _ Hn Hok)) as H.
  assert (names p = profile) as E by (unfold names, with_name; by rewrite Nat.eqb_refl). rewrite E, <- (FindProvider_ext _ _ profile _ Hn) in H.
  assert (Registry.DeregisterProvider p (p_slots w) = p_slots w) as Hd.
  { destruct (Registry.Deregister_split names p (p_slots w)) as [[? _]|(s1 & s2 & Hs & _)]; [done|]. destruct Hp. rewrite Hs, Registry.live_elem, elem_of_app. right. left. }
  destruct (match b_export_transport_opts b with Some opts => _ | None => _ end) as [channel exporters].
  destruct (Registry.FindProvider (p_names w) profile (p_slots w)) as [q|].
  - left. rewrite H, Hd. eexists. by destruct w.
  - destruct (decide _) as [Hlt|Hge]; [|left; rewrite H, Hd; eexists; by destruct w]. destruct H as (s1 & s2 & Hs & H). right. split; [done|].
    rewrite H. by eexists _, s1, s2.
Qed.
Lemma Build_inl h transport p b w e b' w' :
  Registry.registry_ok (p_names w) (p_slots w) → p ∉ Registry.live (p_slots w) →
  Build h transport p b w = (inl e, b', w') →
  (b_consumed b = true ∧ ce_kind e = BuildAlreadyConsumed ∧ b' = b ∧ w' = w)
  ∨ (b_consumed b = false ∧ b' = set_consumed b ∧ p_slots w' = p_slots w ∧ p_names w' = p_names w).
Proof.
  intros Hok Hp. unfold Build. destruct (b_consumed b); [intros [= <- <- <-]; by left|]. intros H. right. split; [done|].
  destruct (ResolveProfileName w _) as [e'|profile]; [by injection H as <- <- <-|].
  destruct (CheckExportTransport _) as [e'|[]]; [by injection H as <- <- <-|].
  destruct (LoadConfig h _) as [e'|[cfg ignored]]; [by injection H as <- <- <-|].
  destruct (match b_export_transport_opts (set_consumed b) with Some opts => _ | None => _ end) as [lines sampler].
  destruct (CheckLeafReceiver h _) as [e'|[]]; [by injection H as <- <- <-|].
  destruct (BuildResource _ _ _ _ _) as [rl [e'|resource]]; [by injection H as <- <- <-|].
  destruct (CreateTransportUnless _ _) as [e'|http2]; [by injection H as <- <- <-|].
  set (w1 := log_lines rl _) in H.
  destruct (Assemble_cases h (set_consumed b) cfg resource (BuildAuthProvider (b_auth_cb (b_exporter (set_consumed b))) (b_auth_cache_ttl (b_exporter (set_consumed b)))) http2 sampler profile p w1 Hok Hp)
    as [[e' Ha]|(_ & args & s1 & s2 & Ha & _)]; rewrite Ha in H; [by injection H as <- <- <-|done].
Qed.
(** C31: the registry across a build, whatever it returns.  The builder is consumed, and
    a builder consumed before returns BuildAlreadyConsumed and changes nothing.  A
    refused build leaves the registry as it was.  A build that returns a provider
    has a non-empty profile name no live provider carried, occupies one free slot,
    is found under that name, and every other lookup answers as before. *)
Theorem build_registers h transport p b w :
  Registry.registry_ok (p_names w) (p_slots w) → p ∉ Registry.live (p_slots w) →
  let '(r, b', w') := Build h transport p b w in
  b_consumed b' = true ∧ Registry.registry_ok (p_names w') (p_slots w')
  ∧ (b_consumed b = true → (∃ e, r = inl e ∧ ce_kind e = BuildAlreadyConsumed) ∧ b' = b ∧ w' = w)
  ∧ match r with
    | inl _ => p_slots w' = p_slots w ∧ p_names w' = p_names w
    | inr (q, args) =>
        q = p ∧ b_consumed b = false ∧ pa_profile_name args = default kDefaultProfileName (b_profile_name b) ∧ pa_profile_name args ≠ []
        ∧ Registry.FindProvider (p_names w) (pa_profile_name args) (p_slots w) = None
        ∧ (∃ s1 s2, p_slots w = s1 ++ None :: s2 ∧ p_slots w' = s1 ++ Some p :: s2)
        ∧ ∀ n, Registry.FindProvider (p_names w') n (p_slots w')
               = if pa_profile_name args =s n then Some p else Registry.FindProvider (p_names w) n (p_slots w)
    end.
Proof.
  intros Hok Hp. destruct (Build h transport p b w) as [[r b'] w'] eqn:E. destruct r as [e|[q args]].
  - destruct (Build_inl _ _ _ _ _ _ _ _ Hok Hp E) as [(Hc & He & -> & ->)|(Hc & -> & Hs & Hn)].
    + split; [done|]. split; [done|]. split; [|done]. intros _. split; [by exists e|done].
    + split; [done|]. rewrite Hs, Hn. split; [done|]. split; [by rewrite Hc|done].
  - apply Build_inr in E as (Hc & -> & profile & cfg & ignored & sampler & resource & http2 & lines & Hr & _ & _ & _ & _ & _ & Ha).
    set (w1 := mkProcess _ _ _ _) in Ha.
    destruct (Assemble_cases h (set_consumed b) cfg resource (BuildAuthProvider (b_auth_cb (b_exporter b)) (b_auth_cache_ttl (b_exporter b))) http2 sampler profile p w1 Hok Hp)
      as [[e Ha']|(Hf & args' & s1 & s2 & Ha' & Hs & Hname)]; rewrite Ha in Ha'; [done|]. injection Ha' as -> <- ->. cbn [p_slots p_names w1] in *.
    assert (profile = default kDefaultProfileName (b_profile_name b) ∧ profile ≠ []) as [Hd Hne].
    { unfold ResolveProfileName in Hr. destruct (default _ _) as [|c n] eqn:En; [done|]. cbn [is_set negb] in Hr.
      destruct (Registry.FindProvider _ _ _); [done|]. injection Hr as <-. done. }
    pose proof (with_name_other p profile (p_names w) _ Hp) as Hn. set (names := with_name p profile (p_names w)) in *.
    assert (names p = profile) as Epn by (unfold names, with_name; by rewrite Nat.eqb_refl).
    pose proof (registry_ok_ext _ _ _ Hn Hok) as [Hl Hnd].
    assert (NoDup (names <$> Registry.live (s1 ++ Some p :: s2))) as Hnd'.
    { rewrite Registry.slots_live_insert, <- Hs. apply NoDup_cons. split; [|done]. rewrite Epn. apply Registry.registry_map_fresh; [done|].
      by rewrite <- (FindProvider_ext _ _ profile _ Hn). }
    split; [done|]. split; [split; [|exact Hnd']|]. { rewrite Hs in Hl. by rewrite length_app in *. }
    split; [by rewrite Hc|]. rewrite Hname. split_and!; try done; [by eexists s1, s2|].
    intros n. rewrite FindProvider_claimed by done. rewrite Epn, <- Hs. by rewrite (FindProvider_ext _ _ n _ Hn).
Qed.
Definition demo_process : Process := mkProcess Registry.g_slots_init (λ _, []) LevelInfo [].
Lemma build_registers_witness :
  let '(r, b', w') := Build demo_host TransportOk 7 (WithProfileName $"audit" demo_builder) demo_process in
  match r with
  | inr (q, args) => q = 7%nat ∧ Registry.FindProvider (p_names w') $"audit" (p_slots w') = Some 7%nat
  | inl _ => False
  end.
Proof.
  pose proof (build_registers demo_host TransportOk 7 (WithProfileName $"audit" demo_builder) demo_process) as H.
  destruct (Build demo_host TransportOk 7 (WithProfileName $"audit" demo_builder) demo_process) as [[r b'] w'] eqn:E.
  destruct H as (_ & _ & _ & H); [split; [reflexivity|apply NoDup_nil_2]|apply not_elem_of_nil|].
  destruct r as [e|[q args]]; [vm_compute in E; discriminate E|]. destruct H as (Hq & _ & Hn & _ & _ & _ & Hf). split; [exact Hq|].
  rewrite Hf, Hn. vm_compute. reflexivity.
Defined.

(** ** A custom transport *)

Lemma url_means_unique p url ep ep' : url_means p url ep → url_means p url ep' → ep = ep'.
Proof. intros H1%ParseEndpointUrl_means H2%ParseEndpointUrl_means. congruence. Qed.
Lemma CheckExportTransport_ok b opts :
  b_export_transport_opts b = Some opts → CheckExportTransport b = inr tt →
  (∃ channel, b_export_transport b = Some channel)
  ∧ let e := b_exporter b in b_endpoint e = None ∧ b_protocol e = None ∧ b_headers e = None ∧ b_tls e = None ∧ b_auth_cb e = None ∧ b_compression_gzip e = None.
Proof.
  intros Ho. unfold CheckExportTransport. rewrite Ho. destruct (b_export_transport b) as [c|]; [|done]. unfold conflicts. cbn [first_set].
  destruct (b_endpoint _); [done|]. destruct (b_protocol _); [done|]. destruct (b_headers _); [done|]. destruct (b_tls _); [done|].
  destruct (b_auth_cb _); [done|]. destruct (b_compression_gzip _); [done|]. intros _. split; [by eexists|done].
Qed.
Lemma custom_config h b opts cfg ignored :
  b_export_transport_opts b = Some opts → CheckExportTransport b = inr tt → LoadConfig h b = inr (cfg, ignored) →
  exporter cfg = mkExporterSettings kCustomTransportPlaceholderEndpoint (mkParsedEndpoint $"https" $"localhost" 4318 []) Http false false []
  ∧ tls (options cfg) = TlsOptions_default.
Proof.
  intros Ho Hc H. destruct (CheckExportTransport_ok b opts Ho Hc) as (_ & He & Hp & Hh & Ht & _ & Hz).
  apply LoadConfig_inr in H as (base & mid & _ & _ & V & _). rewrite Ho in V.
  pose proof (vc_kept _ _ _ _ V) as K. pose proof (vc_protocol _ _ _ _ V) as VP. pose proof (vc_endpoint _ _ _ _ V) as VE.
  rewrite overridden_fields, ApplyResourceOverrides_fields, ApplyExporterOverrides_fields, He, Hp, Hh, Ht, Hz in K, VP, VE.
  assert (protocol (exporter cfg) = Http) as EP by (rewrite VP; reflexivity). rewrite EP in VE.
  assert (endpoint (exporter cfg) = mkParsedEndpoint $"https" $"localhost" 4318 []) as EE.
  { eapply url_means_unique; [exact VE|]. apply ParseEndpointUrl_means. vm_compute. reflexivity. }
  split; [|rewrite K; reflexivity]. rewrite EP, EE in K. rewrite K. reflexivity.
Qed.
(** A custom transport takes the place of the whole HTTP/2 exporter: a build that
    returns a provider has no transport of its own, no auth provider, and only the
    application's codec, for traces and for the signals switched on; with traces off
    the sampler is always-off.  The exporter settings of file and environment have
    no influence, the outcome of creating a transport is not asked for, and every
    exporter cancels the channel on a shutdown that times out. *)
Theorem custom_transport_isolated h transport p b w opts q args b' w' :
  b_export_transport_opts b = Some opts →
  Build h transport p b w = (inr (q, args), b', w') →
  ∃ channel cfg ignored, b_export_transport b = Some channel ∧ LoadConfig h b = inr (cfg, ignored)
    ∧ pa_channel args = Some channel ∧ pa_http2 args = false ∧ pa_auth args = None
    ∧ (et_traces opts = false → pa_sampler args = Some Sampler.AlwaysOff) ∧ (et_traces opts = true → pa_sampler args = b_sampler b)
    ∧ (let e := pa_exporters args in
       ep_codec e = ExportTransportCodec channel SignalTraces (et_max_request_bytes opts) ∧ ec_cancels_channel (ep_exporter e) = true
       ∧ ep_metric e = (if et_metrics opts then Some (ExportTransportCodec channel SignalMetrics 0, signal_config cfg true) else None)
       ∧ ep_log e = (if et_logs opts then Some (ExportTransportCodec channel SignalLogs 0, signal_config cfg true) else None))
    ∧ exporter cfg = mkExporterSettings kCustomTransportPlaceholderEndpoint (mkParsedEndpoint $"https" $"localhost" 4318 []) Http false false []
    ∧ tls (options cfg) = TlsOptions_default
    ∧ ∀ answer', Build h answer' p b w = (inr (q, args), b', w').
Proof.
  intros Ho HB. pose proof HB as E. apply Build_inr in E as (Hc & -> & profile & cfg & ignored & sampler & resource & http2 & lines & Hr & Hx & Hl & Hleaf & Hs & Ht & Ha).
  destruct (CheckExportTransport_ok b opts Ho Hx) as ((channel & Hch) & _ & _ & _ & _ & Hcb & _). exists channel, cfg, ignored.
  rewrite Ho in Hs, Ht. cbn in Hs, Ht. injection Ht as <-. rewrite Hcb in Ha. unfold Assemble in Ha.
  change (b_export_transport_opts (set_consumed b)) with (b_export_transport_opts b) in Ha. change (b_export_transport (set_consumed b)) with (b_export_transport b) in Ha.
  rewrite Ho, Hch in Ha. destruct (Registry.RegisterProvider _ _ _) as [[] slots]; try discriminate Ha. injection Ha as <- <- <-.
  pose proof (custom_config h b opts cfg ignored Ho Hx Hl) as [Hcfg Htls]. split_and!; try done.
  - intros Hf. cbn. by rewrite Hs, Hf.
  - intros Hf. cbn. by rewrite Hs, Hf.
  - intros answer'. rewrite <- HB. unfold Build. rewrite Hc. change (b_export_transport_opts (set_consumed b)) with (b_export_transport_opts b). by rewrite Ho.
Qed.
Definition custom_builder : Impl := WithExportTransport (Some 3%nat) (mkExportTransportOptions false true false 1000) SdkBuilder_new.
Lemma custom_transport_isolated_witness :
  match Build demo_host (ReactorFailed $"no epoll") 7 custom_builder demo_process with
  | (inr (_, args), _, w') =>
      pa_channel args = Some 3%nat ∧ pa_sampler args = Some Sampler.AlwaysOff ∧ ep_log (pa_exporters args) = None
      ∧ fst <$> p_log w' = [LevelWarn; LevelWarn; LevelInfo]
  | _ => False
  end.
Proof.
  destruct (Build demo_host (ReactorFailed $"no epoll") 7 custom_builder demo_process) as [[[e|[q args]] b'] w'] eqn:E; [vm_compute in E; discriminate E|].
  destruct (custom_transport_isolated demo_host (ReactorFailed $"no epoll") 7 custom_builder demo_process _ _ _ _ _ eq_refl E)
    as (channel & cfg & ignored & Hch & _ & Hc & _ & _ & Hs & _ & He & _).
  injection Hch as <-. split; [exact Hc|]. split; [by apply Hs|]. split; [by destruct He as (_ & _ & _ & ->)|].
  vm_compute in E. injection E as _ _ _ <-. reflexivity.
Defined.
(** Settings a custom transport ignores are still parsed: a protocol it gives no
    meaning to, inherited from the environment, refuses the build. *)
Example ignored_but_parsed :
  match LoadConfig (mkHost (λ n, if n =s $"OTEL_EXPORTER_OTLP_PROTOCOL" then Some $"http/json" else None) exact_values (λ _, false) (λ _, inr []) (λ _, false) false true (λ _, []))
          custom_builder with
  | inl e => ce_field e = $"OTEL_EXPORTER_OTLP_PROTOCOL"
  | inr _ => False
  end.
Proof. vm_compute. reflexivity. Qed.
(** A cardinality limit with a sign is accepted, modulo 2^64. *)
Example negative_cardinality : ResolveMaxCardinality (λ _, Some $" -5") None = 2 ^ 64 - 5.
Proof. vm_compute. reflexivity. Qed.
