(* ===== verification/ExportTransport.v ===== *)
(** * The application's own transport

    Model of [src/wire/custom/export_transport_codec.cpp].  [ExportTransportChannel]
    is shared by up to three exporter workers and the thread that shuts the provider
    down: it is a transition system with a program counter per call.  A body under
    [m_mu] is one step, so is each access to [m_state] ([NoteOutcome]'s loop, with
    weak compare-exchange failing at the scheduler's will), each reading of the clock
    and each call of the application's code, whose answers are inputs.
    [ExportTransportCodec] runs alone on its worker; its [Send] is a function.

    Times and deadlines are exact integers in nanoseconds.

    [Gate] is what a caller may rely on, one entry at a time: who may enter, the
    deadline each request gets, the one [Cancel], the connection state.  The theorems:
    under every schedule the log of the channel is one the gate accepts and the
    channel's fields are the gate's; [Cancel] is called at most once, only when a
    [Send] was in flight, and nothing enters after it; deadlines; the results the
    exporters see. *)
From stdpp Require Import gmap.
From S2P Require Import Prelude Data RetryEngine ProtoReader.
From S2P Require Http2 Exporter Builder.
Import Http2(ConnectionState(..)).
#[local] Existing Instance Http2.ConnectionState_eq_dec.

(** ** One [Send] of the application *)

Inductive SendOutcome := OutcomeSuccess | OutcomeRetryable | OutcomeNonRetryable.
Record SendResult := mkSendResult { outcome : SendOutcome; sr_retry_after : option Z; rejected : Z; message : str }.
Record ExportRequest := mkExportRequest { rq_signal : Builder.ExportSignal; rq_bytes : Bytes; rq_deadline : Z }.
#[export] Instance ExportSignal_eq : EqDecision Builder.ExportSignal.
Proof. solve_decision. Defined.
(** What a call of [ExportTransport::Send] does: it returns, throws a
    [std::exception], or throws something else. *)
Inductive Answer := Answered (r : SendResult) | ThrewStd (what : str) | ThrewOther.

Definition kThrewPrefix : str := $"ExportTransport::Send threw: ".
Definition Failure (retryable : bool) (kind : ErrorKind) (message : str) : WireResult :=
  mkWireResult false retryable None 0 (Some (mkError kind message 0)) [].
Definition DefaultMessage (o : SendOutcome) : str :=
  match o with OutcomeRetryable => $"export transport: retryable send failure" | _ => $"export transport: send failed" end.
Definition MapResult (result : SendResult) : WireResult :=
  match outcome result with
  | OutcomeSuccess => mkWireResult true false None (rejected result) None []
  | o =>
      let text := match message result with [] => DefaultMessage o | text => text end in
      let r := Failure match o with OutcomeRetryable => true | _ => false end KNetwork text in
      if retryable r then mkWireResult (success r) (retryable r) (sr_retry_after result) (partial_success_rejected r) (error r) (response_excerpt r)
      else r
  end.
Definition InvokeTransport (a : Answer) : WireResult :=
  match a with
  | Answered result => MapResult result
  | ThrewStd what => Failure false KInternalFailure (kThrewPrefix ++ what)
  | ThrewOther => Failure false KInternalFailure (kThrewPrefix ++ $"non-std exception")
  end.
Definition refused : WireResult := Failure false KNetwork $"export transport: shut down".

(** The body of [NoteOutcome]'s loop: the state to store, or [None] to return. *)
Definition note (current : ConnectionState) (success : bool) : option ConnectionState :=
  match current, success with
  | Closed, _ => None
  | _, true => Some Connected
  | Connected, false => Some Reconnecting
  | _, false => None
  end.

(** ** The channel *)

Record Request := mkRequest { signal : Builder.ExportSignal; bytes : Bytes; per_export : Z }.
#[export] Instance Request_eq : EqDecision Request.
Proof. solve_decision. Defined.
Inductive Call := CallSend (rq : Request) | CallBeginShutdown (timeout : Z) | CallCancelInFlight | CallMarkClosed.
(** Program counters: of [Send] with [NoteOutcome], of [BeginShutdown], and of
    [CancelInFlight]; [None] at the end of [Send] is an exception. *)
Inductive Pc :=
| SendClock (rq : Request) | SendEnter (rq : Request) (now : Z) | SendClamp (rq : Request) (now : Z) | SendCall (rq : Request) (deadline : Z)
| SendInside | SendLoad (r : WireResult) | SendNote (r : WireResult) (current : ConnectionState) | SendLeave (r : option WireResult)
| SendDone (r : option WireResult)
| BeginClock (timeout : Z) | BeginStore (deadline : Z) | CancelMark | CancelCall | CloseStore | Returned.
Inductive Entry :=
| LRefused (tid : nat) (now : Z) | LEnter (tid : nat) (now : Z) | LClamp (tid : nat) (rq : Request) (now deadline : Z)
| LSend (tid : nat) (request : ExportRequest) | LAnswer (tid : nat) (ok : bool) | LThrown (tid : nat) | LNote (tid : nat) (ok : bool) | LLeave (tid : nat)
| LBegin (deadline : Z) | LCancelled (wake : bool) | LCancel | LClosed.
Record Channel := mkChannel {
  m_in_flight : Z; m_cancelled : bool; m_shutdown_deadline : option Z; m_state : ConnectionState; threads : list Pc; log : list Entry }.
Definition Channel_new : Channel := mkChannel 0 false None Disconnected [] [].

Inductive Action :=
| AStart (c : Call)                          (* a thread enters a method *)
| AClock (tid : nat) (now : Z)               (* the thread reads the clock *)
| AStep (tid : nat) (spurious : bool)        (* its next step; a compare-exchange may fail spuriously *)
| AAnswer (tid : nat) (a : Answer)           (* the application's [Send] ends *)
| AEscape (tid : nat).                       (* composing the error message throws *)

Definition set_pc (i : nat) (pc : Pc) (s : Channel) : Channel :=
  mkChannel (m_in_flight s) (m_cancelled s) (m_shutdown_deadline s) (m_state s) (<[i := pc]> (threads s)) (log s).
Definition emit (e : Entry) (s : Channel) : Channel :=
  mkChannel (m_in_flight s) (m_cancelled s) (m_shutdown_deadline s) (m_state s) (threads s) (log s ++ [e]).
Definition set_in_flight (n : Z) (s : Channel) : Channel :=
  mkChannel n (m_cancelled s) (m_shutdown_deadline s) (m_state s) (threads s) (log s).
Definition set_cancelled (s : Channel) : Channel :=
  mkChannel (m_in_flight s) true (m_shutdown_deadline s) (m_state s) (threads s) (log s).
Definition set_deadline (d : Z) (s : Channel) : Channel :=
  mkChannel (m_in_flight s) (m_cancelled s) (Some d) (m_state s) (threads s) (log s).
Definition set_state (c : ConnectionState) (s : Channel) : Channel :=
  mkChannel (m_in_flight s) (m_cancelled s) (m_shutdown_deadline s) c (threads s) (log s).

Definition enter (c : Call) : Pc :=
  match c with CallSend rq => SendClock rq | CallBeginShutdown timeout => BeginClock timeout | CallCancelInFlight => CancelMark | CallMarkClosed => CloseStore end.
Definition past (deadline : option Z) (now : Z) : bool := match deadline with Some d => d <=? now | None => false end.
(** [Enter]. *)
Definition closed_to (s : Channel) (now : Z) : bool := m_cancelled s || past (m_shutdown_deadline s) now.
Definition clamp (deadline : Z) (shutdown_deadline : option Z) : Z := match shutdown_deadline with Some d => Z.min deadline d | None => deadline end.
Definition ms (d : Z) : Z := d * 1000000.
(** [NoteOutcome] with the value of [m_state] it has just read. *)
Definition note_or_leave (i : nat) (r : WireResult) (s : Channel) : Channel :=
  match note (m_state s) (success r) with
  | None => emit (LNote i (success r)) (set_pc i (SendLeave (Some r)) s)
  | Some _ => set_pc i (SendNote r (m_state s)) s
  end.
Definition run_thread (i : nat) (spurious : bool) (s : Channel) : option Channel :=
  match threads s !! i with
  | Some (SendEnter rq now) =>
      Some (if closed_to s now then emit (LRefused i now) (set_pc i (SendDone (Some refused)) s)
            else emit (LEnter i now) (set_pc i (SendClamp rq now) (set_in_flight (to_uint 32 (m_in_flight s + 1)) s)))
  | Some (SendClamp rq now) =>
      let deadline := clamp (now + ms (per_export rq)) (m_shutdown_deadline s) in
      Some (emit (LClamp i rq now deadline) (set_pc i (SendCall rq deadline) s))
  | Some (SendCall rq deadline) => Some (emit (LSend i (mkExportRequest (signal rq) (bytes rq) deadline)) (set_pc i SendInside s))
  | Some (SendLoad r) => Some (note_or_leave i r s)
  | Some (SendNote r current) =>
      match note current (success r) with
      | Some next =>
          Some (if bool_decide (m_state s = current) && negb spurious
                then emit (LNote i (success r)) (set_pc i (SendLeave (Some r)) (set_state next s))
                else note_or_leave i r s)
      | None => None
      end
  | Some (SendLeave r) => Some (emit (LLeave i) (set_pc i (SendDone r) (set_in_flight (to_uint 32 (m_in_flight s - 1)) s)))
  | Some (BeginStore deadline) =>
      Some (emit (LBegin deadline) (set_pc i Returned (match m_shutdown_deadline s with None => set_deadline deadline s | Some _ => s end)))
  | Some CancelMark =>
      Some (if m_cancelled s then set_pc i Returned s
            else let call_cancel := 0 <? m_in_flight s in
                 emit (LCancelled call_cancel) (set_pc i (if call_cancel then CancelCall else Returned) (set_cancelled s)))
  | Some CancelCall => Some (emit LCancel (set_pc i Returned s))
  | Some CloseStore => Some (emit LClosed (set_pc i Returned (set_state Closed s)))
  | _ => None
  end.
Definition exec (a : Action) (s : Channel) : option Channel :=
  match a with
  | AStart c => Some (mkChannel (m_in_flight s) (m_cancelled s) (m_shutdown_deadline s) (m_state s) (threads s ++ [enter c]) (log s))
  | AClock i now =>
      match threads s !! i with
      | Some (SendClock rq) => Some (set_pc i (SendEnter rq now) s)
      | Some (BeginClock timeout) => Some (set_pc i (BeginStore (now + ms timeout)) s)
      | _ => None
      end
  | AStep i spurious => run_thread i spurious s
  | AAnswer i a =>
      match threads s !! i with
      | Some SendInside => let r := InvokeTransport a in Some (emit (LAnswer i (success r)) (set_pc i (SendLoad r) s))
      | _ => None
      end
  | AEscape i =>
      match threads s !! i with
      | Some SendInside => Some (emit (LThrown i) (set_pc i (SendLeave None) s))
      | _ => None
      end
  end.
Definition exec_all (actions : list Action) (s : Channel) : option Channel := foldl (λ s a, s ≫= exec a) (Some s) actions.

(** ** What the channel promises *)

(** Where an entered [Send] is. *)
Inductive Phase := Entered | Clamped (rq : Request) (deadline : Z) | Calling | Answering (ok : bool) | Leaving.
#[export] Instance Phase_eq : EqDecision Phase.
Proof. solve_decision. Defined.
#[export] Instance ExportRequest_eq : EqDecision ExportRequest.
Proof. solve_decision. Defined.
Record Gate := mkGate {
  g_inside : gmap nat Phase; g_cancelled : bool; g_owed : bool (** a [Cancel] is due *); g_deadline : option Z; g_state : ConnectionState }.
Definition gate_open : Gate := mkGate ∅ false false None Disconnected.
(** One [Send] moves on, if it is where it should be. *)
Definition moves (i : nat) (p p' : option Phase) (st : ConnectionState) (g : Gate) : option Gate :=
  if bool_decide (g_inside g !! i = p)
  then Some (mkGate (partial_alter (λ _, p') i (g_inside g)) (g_cancelled g) (g_owed g) (g_deadline g) st) else None.
Definition gate_step (e : Entry) (g : Gate) : option Gate :=
  let stopped now := g_cancelled g || past (g_deadline g) now in
  match e with
  | LRefused i now => if stopped now && bool_decide (g_inside g !! i = None) then Some g else None
  | LEnter i now => if stopped now then None else moves i None (Some Entered) (g_state g) g
  | LClamp i rq now deadline =>
      if bool_decide (deadline = clamp (now + ms (per_export rq)) (g_deadline g))
      then moves i (Some Entered) (Some (Clamped rq deadline)) (g_state g) g else None
  | LSend i r =>
      match g_inside g !! i with
      | Some (Clamped rq deadline) =>
          if bool_decide (r = mkExportRequest (signal rq) (bytes rq) deadline)
          then moves i (Some (Clamped rq deadline)) (Some Calling) (g_state g) g else None
      | _ => None
      end
  | LAnswer i ok => moves i (Some Calling) (Some (Answering ok)) (g_state g) g
  | LThrown i => moves i (Some Calling) (Some Leaving) (g_state g) g
  | LNote i ok => moves i (Some (Answering ok)) (Some Leaving) (default (g_state g) (note (g_state g) ok)) g
  | LLeave i => moves i (Some Leaving) None (g_state g) g
  | LBegin deadline =>
      Some (mkGate (g_inside g) (g_cancelled g) (g_owed g) (Some (default deadline (g_deadline g))) (g_state g))
  | LCancelled wake =>
      if negb (g_cancelled g) && bool_decide (wake = bool_decide (g_inside g ≠ ∅))
      then Some (mkGate (g_inside g) true wake (g_deadline g) (g_state g)) else None
  | LCancel => if g_owed g then Some (mkGate (g_inside g) (g_cancelled g) false (g_deadline g) (g_state g)) else None
  | LClosed => Some (mkGate (g_inside g) (g_cancelled g) (g_owed g) (g_deadline g) Closed)
  end.
Definition word (l : list Entry) : option Gate := foldl (λ g e, g ≫= gate_step e) (Some gate_open) l.

(** Where a program counter is. *)
Definition phase_of (pc : Pc) : option Phase :=
  match pc with
  | SendClamp _ _ => Some Entered
  | SendCall rq deadline => Some (Clamped rq deadline)
  | SendInside => Some Calling
  | SendLoad r | SendNote r _ => Some (Answering (success r))
  | SendLeave _ => Some Leaving
  | _ => None
  end.
Definition owes (pc : Pc) : bool := match pc with CancelCall => true | _ => false end.
(** What a [Send] that has not entered, or is in its loop, carries. *)
Definition pc_ok (pc : Pc) : Prop := match pc with SendNote r current => note current (success r) ≠ None | _ => True end.
Record agrees (s : Channel) (g : Gate) : Prop := mkAgrees {
  ag_inside : ∀ i, g_inside g !! i = threads s !! i ≫= phase_of;
  ag_count : m_in_flight s = to_uint 32 (Z.of_nat (base.size (g_inside g)));
  ag_cancelled : g_cancelled g = m_cancelled s;
  ag_deadline : g_deadline g = m_shutdown_deadline s;
  ag_state : g_state g = m_state s;
  ag_owed : size (List.filter owes (threads s)) = bz (g_owed g);
  ag_owes : g_owed g = true → g_cancelled g = true;
  ag_pc : ∀ i pc, threads s !! i = Some pc → pc_ok pc
}.

Lemma word_snoc l e : word (l ++ [e]) = word l ≫= gate_step e.
Proof. unfold word. by rewrite foldl_app. Qed.
Lemma channel_exec_snoc acts a s : exec_all (acts ++ [a]) s = exec_all acts s ≫= exec a.
Proof. unfold exec_all. by rewrite foldl_app. Qed.
Definition inside (pc : Pc) : bool := bool_decide (is_Some (phase_of pc)).
Lemma size_moved (m : gmap nat Phase) i (p p' : option Phase) : m !! i = p →
  Z.of_nat (base.size (partial_alter (λ _, p') i m))
  = Z.of_nat (base.size m) + bz (bool_decide (is_Some p')) - bz (bool_decide (is_Some p)).
Proof.
  intros Hi. destruct p' as [x|].
  - change (partial_alter (λ _, Some x) i m) with (<[i := x]> m). rewrite map_size_insert, Hi.
    destruct p; cbn; lia.
  - change (partial_alter (λ _, None) i m) with (base.delete i m). rewrite map_size_delete, Hi. destruct p; cbn; [|lia].
    assert (base.size m ≠ 0%nat) as H0; [|lia]. intros ->%map_size_empty_iff. by rewrite lookup_empty in Hi.
Qed.
Lemma agrees_moved s g s' g' i pc pc' :
  agrees s g → threads s !! i = Some pc → threads s' = <[i := pc']> (threads s) →
  g_inside g' = partial_alter (λ _, phase_of pc') i (g_inside g) →
  m_in_flight s' = to_uint 32 (m_in_flight s + bz (inside pc') - bz (inside pc)) →
  g_cancelled g' = m_cancelled s' → g_deadline g' = m_shutdown_deadline s' → g_state g' = m_state s' →
  bz (g_owed g') = bz (g_owed g) + bz (owes pc') - bz (owes pc) → (g_owed g' = true → g_cancelled g' = true) → pc_ok pc' → agrees s' g'.
Proof.
  intros A Hi Ht Hg Hc E1 E2 E3 Ho Hw Hp. pose proof (lookup_lt_Some _ _ _ Hi) as Hl. split; [| |done..| |done|].
  - intros j. rewrite Ht, Hg. destruct (decide (j = i)) as [->|Hne].
    + by rewrite lookup_partial_alter_eq, list_lookup_insert_eq.
    + rewrite lookup_partial_alter_ne, list_lookup_insert_ne by done. apply A.
  - rewrite Hc, Hg, (size_moved _ _ (phase_of pc)) by (rewrite (ag_inside _ _ A), Hi; done).
    rewrite (ag_count _ _ A). fold (inside pc) (inside pc'). unfold to_uint.
    rewrite <- Zminus_mod_idemp_l. rewrite Zplus_mod_idemp_l. rewrite Zminus_mod_idemp_l. done.
  - rewrite Ht, (count_insert _ _ _ _ _ Hi), (ag_owed _ _ A). unfold bz in *. destruct (owes pc), (owes pc'); lia.
  - intros j pj. rewrite Ht. intros [[-> ->]|[_ Hj]]%lookup_moved; [done|by eapply (ag_pc _ _ A)].
Qed.
Lemma agrees_range s g : agrees s g → to_uint 32 (m_in_flight s) = m_in_flight s.
Proof. intros A. rewrite (ag_count _ _ A). unfold to_uint. by rewrite Zmod_mod. Qed.
Lemma agrees_quiet s g i pc pc' :
  agrees s g → threads s !! i = Some pc → phase_of pc' = phase_of pc → owes pc' = owes pc → pc_ok pc' → agrees (set_pc i pc' s) g.
Proof.
  intros A Hi Hp Ho Hok. assert (inside pc' = inside pc) as Hin by (unfold inside; by rewrite Hp).
  apply (agrees_moved s g _ g i pc pc' A Hi); [done| | |apply A|apply A|apply A| |apply A|done].
  - apply map_eq. intros j. destruct (decide (j = i)) as [->|]; [|by rewrite lookup_partial_alter_ne].
    by rewrite lookup_partial_alter_eq, Hp, (ag_inside _ _ A), Hi.
  - rewrite Hin. cbn. rewrite <- (agrees_range _ _ A) at 1. f_equal. lia.
  - rewrite Ho. lia.
Qed.
Lemma moves_Some i p p' st g : g_inside g !! i = p →
  moves i p p' st g = Some (mkGate (partial_alter (λ _, p') i (g_inside g)) (g_cancelled g) (g_owed g) (g_deadline g) st).
Proof. intros H. unfold moves. by rewrite bool_decide_true. Qed.
(** The gate follows one move of one [Send]. *)
Lemma followed s g s1 i pc pc' e st :
  agrees s g → threads s !! i = Some pc → word (log s) = Some g → gate_step e g = moves i (phase_of pc) (phase_of pc') st g →
  threads s1 = threads s → log s1 = log s → m_cancelled s1 = m_cancelled s → m_shutdown_deadline s1 = m_shutdown_deadline s → m_state s1 = st →
  m_in_flight s1 = to_uint 32 (m_in_flight s + bz (inside pc') - bz (inside pc)) → owes pc' = owes pc → pc_ok pc' →
  ∃ g', word (log (emit e (set_pc i pc' s1))) = Some g' ∧ agrees (emit e (set_pc i pc' s1)) g'.
Proof.
  intros A Hi Hw He Ht Hl Hc Hd Hs Hn Ho Hp. eexists. cbn [emit log set_pc].
  rewrite Hl, word_snoc, Hw. cbn [mbind option_bind]. rewrite He, moves_Some by (by rewrite (ag_inside _ _ A), Hi). split; [done|].
  eapply (agrees_moved _ _ _ _ _ _ _ A Hi); cbn; rewrite ?Ht, ?Hc, ?Hd; try done; try apply A. rewrite Ho. lia.
Qed.

Lemma note_followed i r s g pc :
  agrees s g → threads s !! i = Some pc → phase_of pc = Some (Answering (success r)) → owes pc = false → word (log s) = Some g →
  ∃ g', word (log (note_or_leave i r s)) = Some g' ∧ agrees (note_or_leave i r s) g'.
Proof.
  intros A Hi Hp Ho Hw. unfold note_or_leave. destruct (note (m_state s) (success r)) as [next|] eqn:En.
  - exists g. split; [done|]. apply (agrees_quiet _ _ _ pc); try done. by cbn; rewrite En.
  - apply (followed s g s i pc (SendLeave (Some r)) _ (m_state s) A Hi Hw); try done.
    + cbn. by rewrite Hp, (ag_state _ _ A), En.
    + unfold inside. rewrite Hp. cbn. rewrite <- (agrees_range _ _ A) at 1. f_equal. lia.
Qed.
Lemma agrees_size s g : agrees s g → Z.of_nat (base.size (g_inside g)) <= size (threads s).
Proof.
  intros A. rewrite <- size_dom. unfold size. apply Nat2Z.inj_le.
  transitivity (base.size (list_to_set (seq 0 (length (threads s))) : gset nat)).
  - apply subseteq_size. intros i [p Hp]%elem_of_dom. rewrite (ag_inside _ _ A) in Hp. apply bind_Some in Hp as (pc & Hpc & _).
    apply elem_of_list_to_set, elem_of_seq. apply lookup_lt_Some in Hpc. lia.
  - rewrite size_list_to_set by apply NoDup_seq. by rewrite length_seq.
Qed.
Lemma in_flight_inside s g : agrees s g → size (threads s) < 2 ^ 32 → (0 <? m_in_flight s) = bool_decide (g_inside g ≠ ∅).
Proof.
  intros A Hs. pose proof (agrees_size _ _ A) as Hle. rewrite (ag_count _ _ A). unfold to_uint. rewrite Z.mod_small by lia.
  pose proof (map_size_non_empty_iff (g_inside g)) as Hne. case_bool_decide as H; [apply Hne in H|assert (base.size (g_inside g) = 0%nat) by (apply dec_stable; tauto)]; lia.
Qed.

Lemma agrees_emit e s g : agrees s g → agrees (emit e s) g.
Proof. by intros []. Qed.
(** A step of a thread that is in no [Send]. *)
Lemma agrees_outside s g s' g' i pc pc' :
  agrees s g → threads s !! i = Some pc → phase_of pc = None → phase_of pc' = None → threads s' = <[i := pc']> (threads s) →
  g_inside g' = g_inside g → m_in_flight s' = m_in_flight s →
  g_cancelled g' = m_cancelled s' → g_deadline g' = m_shutdown_deadline s' → g_state g' = m_state s' →
  bz (g_owed g') = bz (g_owed g) + bz (owes pc') - bz (owes pc) → (g_owed g' = true → g_cancelled g' = true) → pc_ok pc' → agrees s' g'.
Proof.
  intros A Hi Hp Hp' Ht Hg Hn. apply (agrees_moved _ _ _ _ _ _ _ A Hi Ht).
  - rewrite Hg. apply map_eq. intros j. destruct (decide (j = i)) as [->|]; [|by rewrite lookup_partial_alter_ne].
    by rewrite lookup_partial_alter_eq, Hp', (ag_inside _ _ A), Hi.
  - unfold inside. rewrite Hp, Hp', Hn. cbn. rewrite <- (agrees_range _ _ A) at 1. f_equal. lia.
Qed.
Lemma owed_while_cancelling s g i : agrees s g → threads s !! i = Some CancelCall → g_owed g = true.
Proof.
  intros A Hi. pose proof (count_pos owes _ _ _ Hi eq_refl) as Hc. rewrite (ag_owed _ _ A) in Hc. by destruct (g_owed g).
Qed.
Lemma cancel_followed s g i :
  agrees s g → threads s !! i = Some CancelMark → size (threads s) < 2 ^ 32 → word (log s) = Some g →
  ∀ s', run_thread i false s = Some s' → ∃ g', word (log s') = Some g' ∧ agrees s' g'.
Proof.
  intros A Hi Hs Hw s'. unfold run_thread. rewrite Hi. intros [= <-]. destruct (m_cancelled s) eqn:Ec.
  - exists g. split; [done|]. by apply (agrees_quiet _ _ _ CancelMark).
  - eexists. cbn [emit log set_pc set_cancelled]. rewrite word_snoc, Hw. cbn [mbind option_bind gate_step].
    rewrite (in_flight_inside _ _ A Hs), (ag_cancelled _ _ A), Ec, bool_decide_true by done. split; [done|].
    assert (g_owed g = false) as Howed.
    { destruct (g_owed g) eqn:E; [|done]. apply (ag_owes _ _ A) in E. rewrite (ag_cancelled _ _ A) in E. congruence. }
    apply (agrees_outside _ _ _ _ _ _ (if bool_decide (g_inside g ≠ ∅) then CancelCall else Returned) A Hi); try done; try apply A.
    all: try (by destruct (bool_decide _)). rewrite Howed. by cbn; destruct (bool_decide _).
Qed.
Lemma step_followed s g i spurious s' :
  agrees s g → size (threads s) < 2 ^ 32 → word (log s) = Some g → run_thread i spurious s = Some s' →
  ∃ g', word (log s') = Some g' ∧ agrees s' g'.
Proof.
  intros A Hs Hw Hr. destruct (threads s !! i) as [pc|] eqn:Hi; [|unfold run_thread in Hr; by rewrite Hi in Hr].
  pose proof (ag_pc _ _ A _ _ Hi) as Hok. pose proof (ag_inside _ _ A i) as Hin. rewrite Hi in Hin. cbn in Hin.

  pose proof (agrees_range _ _ A) as Hn. unfold run_thread in Hr. rewrite Hi in Hr.
  destruct pc as [rq|rq now|rq now|rq deadline| |r|r current|r|r|timeout|deadline| | | |]; try done; cbn in Hin.
  - injection Hr as <-. assert (closed_to s now = g_cancelled g || past (g_deadline g) now) as Hc
      by (unfold closed_to; by rewrite (ag_cancelled _ _ A), (ag_deadline _ _ A)).
    destruct (closed_to s now) eqn:Ec.
    + exists g. cbn [emit log set_pc]. rewrite word_snoc, Hw. cbn [mbind option_bind gate_step]. rewrite <- Hc, bool_decide_true by done.
      split; [done|]. by apply agrees_emit, (agrees_quiet _ _ _ _ (SendDone (Some refused)) A Hi).
    + apply (followed s g _ i _ (SendClamp rq now) _ (g_state g) A Hi Hw); try done; [cbn; by rewrite <- Hc|by rewrite (ag_state _ _ A)|].
      cbn. f_equal. lia.
  - injection Hr as <-. apply (followed s g s i _ (SendCall rq _) _ (g_state g) A Hi Hw); try done; [cbn|by rewrite (ag_state _ _ A)|].
    + by rewrite (ag_deadline _ _ A), bool_decide_true.
    + cbn. rewrite <- Hn at 1. f_equal. lia.
  - injection Hr as <-. apply (followed s g s i _ SendInside _ (g_state g) A Hi Hw); try done; [cbn|by rewrite (ag_state _ _ A)|].
    + by rewrite Hin, bool_decide_true.
    + cbn. rewrite <- Hn at 1. f_equal. lia.
  - injection Hr as <-. by apply (note_followed i r s g (SendLoad r)).
  - destruct (note current (success r)) as [next|] eqn:En; [|done]. injection Hr as <-.
    destruct (bool_decide (m_state s = current) && negb spurious) eqn:Ec; [|by apply (note_followed i r s g (SendNote r current))].
    apply andb_true_iff in Ec as [Ec _]. apply bool_decide_eq_true in Ec.
    apply (followed s g (set_state next s) i _ (SendLeave (Some r)) _ next A Hi Hw); try done; cbn.
    + by rewrite (ag_state _ _ A), Ec, En.
    + rewrite <- Hn at 1. f_equal. lia.
  - injection Hr as <-. apply (followed s g _ i _ (SendDone r) _ (g_state g) A Hi Hw); try done; [by rewrite (ag_state _ _ A)|].
    cbn. f_equal. lia.
  - injection Hr as <-. pose proof (ag_deadline _ _ A) as Hd.
    destruct (m_shutdown_deadline s) eqn:Ed; cbn [emit log set_pc set_deadline]; rewrite word_snoc, Hw; cbn [mbind option_bind gate_step];
      eexists; (split; [done|]); apply agrees_emit, (agrees_outside _ _ _ _ _ _ Returned A Hi); cbn; try done; try apply A; rewrite ?Hd, ?Ed; (done || lia).
  - by apply (cancel_followed s g i A Hi Hs Hw); unfold run_thread; rewrite Hi.
  - injection Hr as <-. pose proof (owed_while_cancelling _ _ _ A Hi) as Ho. eexists. cbn [emit log set_pc].
    rewrite word_snoc, Hw. cbn [mbind option_bind gate_step]. rewrite Ho. split; [done|]. apply agrees_emit.
    apply (agrees_outside _ _ _ _ _ _ Returned A Hi); cbn; try done; try apply A. by rewrite Ho.
  - injection Hr as <-. eexists. cbn [emit log set_pc set_state]. rewrite word_snoc, Hw. cbn [mbind option_bind gate_step]. split; [done|].
    apply agrees_emit, (agrees_outside _ _ _ _ _ _ Returned A Hi); cbn; try done; try apply A. lia.
Qed.
Lemma exec_followed a s g s' :
  agrees s g → size (threads s) < 2 ^ 32 → word (log s) = Some g → exec a s = Some s' → ∃ g', word (log s') = Some g' ∧ agrees s' g'.
Proof.
  intros A Hs Hw. destruct a as [c|i now|i spurious|i a|i]; cbn.
  - intros [= <-]. exists g. split; [done|]. destruct A as [H1 H2 H3 H4 H5 H6 H7 H8]. split; try done; cbn.
    + intros i. rewrite H1. destruct (decide (i < length (threads s))%nat); [by rewrite lookup_app_l|].
      rewrite (proj2 (lookup_ge_None (threads s) i)) by lia. rewrite lookup_app_r by lia. destruct (i - length (threads s))%nat; by destruct c.
    + rewrite count_snoc, H6. destruct c; cbn; lia.
    + intros i pc [[Hi _]|[-> ->]]%lookup_joined; [by eapply H8|by destruct c].
  - destruct (threads s !! i) as [pc|] eqn:Hi; [|done]. destruct pc; try done; intros [= <-]; exists g; (split; [done|]); by apply (agrees_quiet _ _ _ _ _ A Hi).
  - by apply (step_followed s g i spurious).
  - destruct (threads s !! i) as [pc|] eqn:Hi; [|done]. destruct pc; try done. intros [= <-].
    apply (followed s g s i _ (SendLoad (InvokeTransport a)) _ (g_state g) A Hi Hw); try done; [by rewrite (ag_state _ _ A)|].
    cbn. rewrite <- (agrees_range _ _ A) at 1. f_equal. lia.
  - destruct (threads s !! i) as [pc|] eqn:Hi; [|done]. destruct pc; try done. intros [= <-].
    apply (followed s g s i _ (SendLeave None) _ (g_state g) A Hi Hw); try done; [by rewrite (ag_state _ _ A)|].
    cbn. rewrite <- (agrees_range _ _ A) at 1. f_equal. lia.
Qed.
Lemma set_pc_length i pc s : length (threads (set_pc i pc s)) = length (threads s).
Proof. apply length_insert. Qed.
Lemma exec_threads a s s' : exec a s = Some s' → (length (threads s) <= length (threads s'))%nat.
Proof.
  assert (∀ i r, length (threads (note_or_leave i r s)) = length (threads s)) as Hn
    by (intros i r; unfold note_or_leave; destruct (note _ _); apply length_insert).
  destruct a as [c|i now|i spurious|i a|i]; cbn.
  - intros [= <-]. cbn. rewrite length_app. lia.
  - destruct (threads s !! i) as [[]|]; try done; intros [= <-]; by rewrite set_pc_length.
  - unfold run_thread. destruct (threads s !! i) as [[rq|rq now|rq now|rq deadline| |r|r current|r|r|timeout|deadline| | | |]|]; try done.
    7: by intros [= <-]; destruct (m_shutdown_deadline s); cbn; rewrite length_insert.
    5: destruct (note _ _); [|done].
    all: intros [= <-]; rewrite ?Hn; repeat case_match; rewrite ?Hn; cbn; rewrite ?length_insert; lia.
  - destruct (threads s !! i) as [[]|]; try done; intros [= <-]; cbn; by rewrite length_insert.
  - destruct (threads s !! i) as [[]|]; try done; intros [= <-]; cbn; by rewrite length_insert.
Qed.
Lemma channel_refines acts s : exec_all acts Channel_new = Some s → size (threads s) < 2 ^ 32 → ∃ g, word (log s) = Some g ∧ agrees s g.
Proof.
  revert s. induction acts as [|a acts IH] using rev_ind; intros s.
  - intros [= <-] _. exists gate_open. split; [done|]. by split.
  - rewrite channel_exec_snoc. intros (s0 & H0 & Ha)%bind_Some Hs. pose proof (exec_threads _ _ _ Ha) as Hle.
    assert (size (threads s0) < 2 ^ 32) as Hs0 by (unfold size in *; lia). destruct (IH _ H0 Hs0) as (g & Hw & A).
    by apply (exec_followed a s0 g).
Qed.

(** ** Reading a log *)

(** The [Send] of thread [i] has entered and not left. *)
Definition in_flight (i : nat) (l : list Entry) : bool :=
  foldl (λ b e, match e with LEnter j _ => b || bool_decide (j = i) | LLeave j => b && bool_decide (j ≠ i) | _ => b end) false l.
Definition is_cancelled (e : Entry) : bool := match e with LCancelled _ => true | _ => false end.
Definition cancelled (l : list Entry) : bool := existsb is_cancelled l.
(** The first [BeginShutdown] fixes the deadline. *)
Definition begins (e : Entry) : option Z := match e with LBegin d => Some d | _ => None end.
Definition first_deadline (l : list Entry) : option Z := head (omap begins l).
Definition wakes (e : Entry) : bool := match e with LCancelled wake => wake | _ => false end.
Definition calls_cancel (e : Entry) : bool := match e with LCancel => true | _ => false end.
(** What each [NoteOutcome] reported, and whether [MarkClosed] ran. *)
Definition outcome_of (e : Entry) : option bool := match e with LNote _ ok => Some ok | _ => None end.
Definition outcomes (l : list Entry) : list bool := omap outcome_of l.
Definition is_closed (e : Entry) : bool := match e with LClosed => true | _ => false end.
Definition closed (l : list Entry) : bool := existsb is_closed l.
(** "Sends are succeeding": [Disconnected] until the first success, then
    [Connected] or [Reconnecting] by the last outcome, and [Closed] for good. *)
Definition described (l : list Entry) : ConnectionState :=
  if closed l then Closed
  else match existsb id (outcomes l), last (outcomes l) with
       | true, Some true => Connected
       | true, _ => Reconnecting
       | false, _ => Disconnected
       end.

Record reads (l : list Entry) (g : Gate) : Prop := mkReads {
  rd_inside : ∀ i, in_flight i l = bool_decide (is_Some (g_inside g !! i));
  rd_request : ∀ i rq d, g_inside g !! i = Some (Clamped rq d) → ∃ now, LClamp i rq now d ∈ l;
  rd_answer : ∀ i ok, g_inside g !! i = Some (Answering ok) → LAnswer i ok ∈ l;
  rd_cancelled : cancelled l = g_cancelled g;
  rd_owed : size (List.filter wakes l) = size (List.filter calls_cancel l) + bz (g_owed g);
  rd_wakes : size (List.filter wakes l) <= bz (g_cancelled g);
  rd_deadline : first_deadline l = g_deadline g;
  rd_state : described l = g_state g
}.

Lemma in_flight_snoc i l e :
  in_flight i (l ++ [e]) = match e with LEnter j _ => in_flight i l || bool_decide (j = i) | LLeave j => in_flight i l && bool_decide (j ≠ i) | _ => in_flight i l end.
Proof. unfold in_flight. by rewrite foldl_app. Qed.
Lemma first_deadline_snoc l e :
  first_deadline (l ++ [e]) = match e with LBegin d => Some (default d (first_deadline l)) | _ => first_deadline l end.
Proof.
  unfold first_deadline. rewrite omap_app. destruct (omap begins l) as [|d ds] eqn:E; [by destruct e|]. cbn. by destruct e.
Qed.
Lemma cancelled_snoc l e : cancelled (l ++ [e]) = cancelled l || is_cancelled e.
Proof. unfold cancelled. rewrite existsb_app. cbn. by rewrite orb_false_r. Qed.
Lemma described_snoc l e :
  described (l ++ [e]) = match e with LNote _ ok => default (described l) (note (described l) ok) | LClosed => Closed | _ => described l end.
Proof.
  unfold described, closed, outcomes. rewrite existsb_app, omap_app, existsb_app.
  destruct e; cbn [omap list_omap existsb outcome_of is_closed]; rewrite ?orb_false_r, ?app_nil_r; try done.
  - rewrite last_snoc. destruct (existsb is_closed l), (existsb id (omap outcome_of l)), ok, (last (omap outcome_of l)) as [[]|]; done.
  - by rewrite orb_true_r.
Qed.
Lemma reads_init : reads [] gate_open.
Proof. split; try done. Qed.
(** The entries [LEnter] and [LLeave] move the bound of [in_flight], the others do not. *)
Lemma reads_moved l g e i p p' st :
  reads l g → gate_step e g = moves i p p' st g → g_inside g !! i = p →
  (∀ j, in_flight j (l ++ [e]) = if decide (j = i) then bool_decide (is_Some p') else in_flight j l) →
  is_cancelled e = false → wakes e = false → calls_cancel e = false → begins e = None →
  st = default (g_state g) (outcome_of e ≫= note (g_state g)) → is_closed e = false →
  (∀ rq d, p' = Some (Clamped rq d) → ∃ now, e = LClamp i rq now d) → (∀ ok, p' = Some (Answering ok) → e = LAnswer i ok) →
  ∀ g', gate_step e g = Some g' → reads (l ++ [e]) g'.
Proof.
  intros [R1 R2 R3 R4 R5 R6 R7 R8] He Hi Hf Hc Hw Hcc Hb Hst Hcl Hrq Hok g'. rewrite He, moves_Some by done. intros [= <-].
  split; cbn [g_inside g_cancelled g_owed g_deadline g_state].
  - intros j. rewrite Hf. destruct (decide (j = i)) as [->|Hne]; [by rewrite lookup_partial_alter_eq|by rewrite lookup_partial_alter_ne].
  - intros j rq d. destruct (decide (j = i)) as [->|Hne].
    + rewrite lookup_partial_alter_eq. intros H. destruct (Hrq _ _ H) as (now & ->). exists now. set_solver.
    + rewrite lookup_partial_alter_ne by done. intros H. destruct (R2 _ _ _ H) as (now & H'). exists now. set_solver.
  - intros j ok. destruct (decide (j = i)) as [->|Hne].
    + rewrite lookup_partial_alter_eq. intros ->%Hok. set_solver.
    + rewrite lookup_partial_alter_ne by done. intros H%R3. set_solver.
  - unfold cancelled in *. rewrite existsb_app, R4. cbn. by rewrite Hc, !orb_false_r.
  - rewrite !count_snoc, Hw, Hcc. lia.
  - rewrite count_snoc, Hw. lia.
  - rewrite first_deadline_snoc. destruct e; done.
  - rewrite described_snoc, R8, Hst. destruct e; done.
Qed.
Lemma moves_inv i p p' st g g' : moves i p p' st g = Some g' → g_inside g !! i = p.
Proof. unfold moves. case_bool_decide; congruence. Qed.
Lemma reads_same l g e g' :
  reads l g → (∀ j, in_flight j (l ++ [e]) = in_flight j l) → g_inside g' = g_inside g →
  cancelled (l ++ [e]) = g_cancelled g' → bz (wakes e) + bz (g_owed g) = bz (calls_cancel e) + bz (g_owed g') →
  bz (g_cancelled g) + bz (wakes e) <= bz (g_cancelled g') →
  first_deadline (l ++ [e]) = g_deadline g' → described (l ++ [e]) = g_state g' → reads (l ++ [e]) g'.
Proof.
  intros [R1 R2 R3 R4 R5 R6 R7 R8] Hf Hi Hc Ho Hw Hd Hs. split; unfold bz in *; rewrite ?Hi, ?count_snoc; [| | |done| | |done|done].
  - intros j. by rewrite Hf.
  - intros j rq d H. destruct (R2 _ _ _ H) as (now & H'). exists now. set_solver.
  - intros j ok H%R3. set_solver.
  - lia.
  - lia.
Qed.
Ltac read_same l g R :=
  apply (reads_same l g _ _ R);
  [intros j; by rewrite in_flight_snoc|done
  |rewrite cancelled_snoc, (rd_cancelled _ _ R)|..|rewrite first_deadline_snoc, (rd_deadline _ _ R)|rewrite described_snoc, ?(rd_state _ _ R)];
  cbn; rewrite ?orb_false_r, ?orb_true_r; try done; try lia.
Lemma in_flight_at l g i p : reads l g → g_inside g !! i = p → in_flight i l = bool_decide (is_Some p).
Proof. intros R <-. apply R. Qed.
Ltac read_moved l g i p p' st R He Hp :=
  apply (reads_moved l g _ i p p' st R He Hp); [|try done..|first [assumption|by rewrite He]];
  [intros j; rewrite in_flight_snoc; destruct (decide (j = i)) as [->|Hne]; [rewrite (in_flight_at _ _ _ _ R Hp); cbn; rewrite ?bool_decide_true, ?bool_decide_false by (done || auto); try done|
   rewrite ?(bool_decide_false (i = j)), ?(bool_decide_true (i ≠ j)), ?orb_false_r, ?andb_true_r by congruence; done]
  |..]; intros; simplify_eq; eauto.
Lemma reads_step l g e g' : reads l g → gate_step e g = Some g' → reads (l ++ [e]) g'.
Proof.
  intros R Hg.
  assert (∀ i p p' st, gate_step e g = moves i p p' st g → g_inside g !! i = p) as Hin by (intros i p p' st E; rewrite Hg in E; by eapply moves_inv).
  destruct e as [i now|i now|i rq now d|i r|i ok|i|i ok|i|d|wake| |]; cbn in Hg.
  - destruct (_ && _) in Hg; [|done]. injection Hg as <-. read_same l g R.
  - destruct (_ || _) eqn:E in Hg; [done|]. assert (gate_step (LEnter i now) g = moves i None (Some Entered) (g_state g) g) as He by (cbn; by rewrite E).
    specialize (Hin _ _ _ _ He). read_moved l g i (None (A:=Phase)) (Some Entered) (g_state g) R He Hin.
  - destruct (bool_decide (d = _)) eqn:E in Hg; [|done].
    assert (gate_step (LClamp i rq now d) g = moves i (Some Entered) (Some (Clamped rq d)) (g_state g) g) as He by (cbn; by rewrite E).
    specialize (Hin _ _ _ _ He). read_moved l g i (Some Entered) (Some (Clamped rq d)) (g_state g) R He Hin.
  - destruct (g_inside g !! i) as [[|rq d| | |]|] eqn:Ei; try done. destruct (bool_decide (r = _)) eqn:E in Hg; [|done].
    assert (gate_step (LSend i r) g = moves i (Some (Clamped rq d)) (Some Calling) (g_state g) g) as He by (cbn; by rewrite Ei, E).
    read_moved l g i (Some (Clamped rq d)) (Some Calling) (g_state g) R He Ei.
  - specialize (Hin i _ _ _ eq_refl). read_moved l g i (Some Calling) (Some (Answering ok)) (g_state g) R (eq_refl : gate_step (LAnswer i ok) g = _) Hin.
  - specialize (Hin i _ _ _ eq_refl). read_moved l g i (Some Calling) (Some Leaving) (g_state g) R (eq_refl : gate_step (LThrown i) g = _) Hin.
  - specialize (Hin i _ _ _ eq_refl).
    read_moved l g i (Some (Answering ok)) (Some Leaving) (default (g_state g) (note (g_state g) ok)) R (eq_refl : gate_step (LNote i ok) g = _) Hin.
  - specialize (Hin i _ _ _ eq_refl). read_moved l g i (Some Leaving) (None (A:=Phase)) (g_state g) R (eq_refl : gate_step (LLeave i) g = _) Hin.
  - injection Hg as <-. read_same l g R.
  - destruct (_ && _) eqn:E in Hg; [|done]. injection Hg as <-. apply andb_true_iff in E as [E _]. apply negb_true_iff in E.
    assert (g_owed g = false) as Ho.
    { pose proof (rd_owed _ _ R) as H1. pose proof (rd_wakes _ _ R) as H2. rewrite E in H2. cbn in H2.
      pose proof (size_nonneg (List.filter calls_cancel l)). destruct (g_owed g); cbn in H1; [lia|done]. }
    read_same l g R; rewrite ?Ho, ?E; by destruct wake.
  - destruct (g_owed g) eqn:E; [|done]. injection Hg as <-. read_same l g R. by rewrite E.
  - injection Hg as <-. read_same l g R.
Qed.
Lemma word_reads l g : word l = Some g → reads l g.
Proof.
  revert g. induction l as [|e l IH] using rev_ind; intros g; [intros [= <-]; apply reads_init|].
  rewrite word_snoc. intros (g0 & H0 & He)%bind_Some. by eapply reads_step; [apply IH|].
Qed.
Lemma word_prefix l1 l2 g : word (l1 ++ l2) = Some g → ∃ g1, word l1 = Some g1.
Proof.
  revert g. induction l2 as [|e l IH] using rev_ind; intros g; [rewrite app_nil_r; by eexists|].
  rewrite app_assoc, word_snoc. intros (g0 & H0 & _)%bind_Some. by eapply IH.
Qed.
(** One entry of an accepted log, with what the gate reads before it. *)
Lemma word_entry l1 e l2 g : word (l1 ++ e :: l2) = Some g → ∃ g1 g2, reads l1 g1 ∧ gate_step e g1 = Some g2.
Proof.
  rewrite (cons_middle e l1 l2), app_assoc. intros (g2 & H2)%word_prefix. rewrite word_snoc in H2.
  apply bind_Some in H2 as (g1 & H1 & He). exists g1, g2. by split; [apply word_reads|].
Qed.

(** ** What the callers get *)

Section runs.
Context (acts : list Action) (s : Channel) (Hrun : exec_all acts Channel_new = Some s) (Hthreads : size (threads s) < 2 ^ 32).

Lemma log_entry l1 e l2 : log s = l1 ++ e :: l2 → ∃ g1 g2, reads l1 g1 ∧ gate_step e g1 = Some g2.
Proof. intros E. destruct (channel_refines _ _ Hrun Hthreads) as (g & Hw & _). rewrite E in Hw. by eapply word_entry. Qed.
Lemma stopped_reads l g now : reads l g → g_cancelled g || past (g_deadline g) now = cancelled l || past (first_deadline l) now.
Proof. intros R. by rewrite (rd_cancelled _ _ R), (rd_deadline _ _ R). Qed.
Lemma inside_reads l g : reads l g → g_inside g ≠ ∅ ↔ ∃ i, in_flight i l = true.
Proof.
  intros R. split.
  - intros (i & x & Hi)%map_choose. exists i. rewrite (rd_inside _ _ R), Hi. done.
  - intros (i & Hi) E. rewrite (rd_inside _ _ R), E, lookup_empty in Hi. done.
Qed.
Lemma cancelled_entry l1 wake l2 : log s = l1 ++ LCancelled wake :: l2 → cancelled l1 = false ∧ (wake = true ↔ ∃ i, in_flight i l1 = true).
Proof.
  intros (g1 & g2 & R & Hg)%log_entry. cbn in Hg. destruct (_ && _) eqn:E in Hg; [|done]. apply andb_true_iff in E as [E1 E2].
  apply negb_true_iff in E1. apply bool_decide_eq_true in E2. rewrite (rd_cancelled _ _ R), E2, <- (inside_reads _ _ R). split; [done|apply bool_decide_eq_true].
Qed.
Lemma count_elem {A} (f : A → bool) l x : x ∈ l → f x = true → 1 <= size (List.filter f l).
Proof. intros (i & Hi)%list_elem_of_lookup Hf. by eapply count_pos. Qed.
Lemma cancel_entry l1 l2 : log s = l1 ++ LCancel :: l2 → LCancel ∉ l1 ∧ ∃ l0 l0' i, l1 = l0 ++ LCancelled true :: l0' ∧ in_flight i l0 = true.
Proof.
  intros Hlog. destruct (log_entry _ _ _ Hlog) as (g1 & g2 & R & Hg). cbn in Hg. destruct (g_owed g1) eqn:Eo; [|done].
  pose proof (rd_owed _ _ R) as H1. pose proof (rd_wakes _ _ R) as H2. rewrite Eo in H1. unfold bz in *. split.
  - intros Hin. pose proof (count_elem calls_cancel _ _ Hin eq_refl). destruct (g_cancelled g1); lia.
  - assert (∃ e, e ∈ l1 ∧ wakes e = true) as (e & Hin & He).
    { destruct (List.filter wakes l1) as [|e k] eqn:Ef; [unfold size in H1; cbn in H1; lia|].
      exists e. rewrite !list_elem_of_In. apply filter_In. rewrite Ef. by left. }
    destruct e as [| | | | | | | | |[]| |]; try done. apply list_elem_of_split in Hin as (l0 & l0' & ->). rewrite <- app_assoc in Hlog.
    destruct (proj1 (proj2 (cancelled_entry _ _ _ Hlog)) eq_refl) as (i & Hi). by exists l0, l0', i.
Qed.

(** C37: the channel keeps its promises under every schedule of any number of sends,
    shutdowns and cancellations.  A [Send] enters exactly while the channel is neither
    cancelled nor past the deadline of the first [BeginShutdown]; every request has the
    caller's bytes and the earlier of its own and that deadline; what [NoteOutcome]
    records is what the application answered.  [CancelInFlight] takes effect once, and
    the application's [Cancel] is called at most once, only after that moment, and
    only if a [Send] was in flight then. *)
Theorem export_channel_log l1 e l2 :
  log s = l1 ++ e :: l2 →
  match e with
  | LEnter i now => in_flight i l1 = false ∧ cancelled l1 = false ∧ past (first_deadline l1) now = false
  | LRefused i now => cancelled l1 = true ∨ past (first_deadline l1) now = true
  | LClamp i rq now d => in_flight i l1 = true ∧ d = clamp (now + ms (per_export rq)) (first_deadline l1)
  | LSend i r => in_flight i l1 = true ∧ ∃ rq now d, LClamp i rq now d ∈ l1 ∧ r = mkExportRequest (signal rq) (bytes rq) d
  | LNote i ok => in_flight i l1 = true ∧ LAnswer i ok ∈ l1
  | LCancelled wake => cancelled l1 = false ∧ (wake = true ↔ ∃ i, in_flight i l1 = true)
  | LCancel => LCancel ∉ l1 ∧ ∃ l0 l0' i, l1 = l0 ++ LCancelled true :: l0' ∧ in_flight i l0 = true
  | LAnswer i _ | LThrown i | LLeave i => in_flight i l1 = true
  | LBegin _ | LClosed => True
  end.
Proof.
  intros Hlog. destruct (log_entry _ _ _ Hlog) as (g1 & g2 & R & Hg).
  assert (∀ i p p' st, moves i p p' st g1 = Some g2 → in_flight i l1 = bool_decide (is_Some p)) as Hin
    by (intros i p p' st E%moves_inv; by apply (in_flight_at l1 g1)).
  destruct e as [i now|i now|i rq now d|i r|i ok|i|i ok|i|d|wake| |]; cbn in Hg; try done.
  - rewrite (stopped_reads _ _ _ R) in Hg. destruct (_ && _) eqn:E in Hg; [|done]. by apply andb_true_iff in E as [E%orb_true_iff _].
  - rewrite (stopped_reads _ _ _ R) in Hg. destruct (_ || _) eqn:E in Hg; [done|]. apply orb_false_iff in E as [E1 E2]. split; [by apply Hin in Hg|done].
  - destruct (bool_decide _) eqn:E in Hg; [|done]. apply bool_decide_eq_true in E. split; [by apply Hin in Hg|by rewrite (rd_deadline _ _ R)].
  - destruct (g_inside g1 !! i) as [[|rq d| | |]|] eqn:Ei; try done. destruct (bool_decide _) eqn:E in Hg; [|done]. apply bool_decide_eq_true in E.
    split; [by apply Hin in Hg|]. destruct (rd_request _ _ R _ _ _ Ei) as (now & H). by exists rq, now, d.
  - by apply Hin in Hg.
  - by apply Hin in Hg.
  - split; [by apply Hin in Hg|]. apply moves_inv in Hg. by apply (rd_answer _ _ R).
  - by apply Hin in Hg.
  - by apply (cancelled_entry _ _ _ Hlog).
  - by apply (cancel_entry _ _ Hlog).
Qed.

(** The connection state means "sends are succeeding": whatever the
    interleaving of the lock-free updates, [m_state] is [Disconnected] until a first
    success was reported, then [Connected] or [Reconnecting] by the last outcome
    reported, and [Closed] for good once [MarkClosed] ran; the fields under the lock
    are those of the log, and [m_in_flight] is zero exactly when nothing is in
    flight. *)
Theorem export_connection_state :
  m_state s = described (log s) ∧ m_cancelled s = cancelled (log s) ∧ m_shutdown_deadline s = first_deadline (log s)
  ∧ (m_in_flight s = 0 ↔ ∀ i, in_flight i (log s) = false).
Proof.
  destruct (channel_refines _ _ Hrun Hthreads) as (g & Hw & A). pose proof (word_reads _ _ Hw) as R.
  rewrite (rd_state _ _ R), (rd_cancelled _ _ R), (rd_deadline _ _ R), (ag_state _ _ A), (ag_cancelled _ _ A), (ag_deadline _ _ A). split_and!; try done.
  pose proof (in_flight_inside _ _ A Hthreads) as Hf. pose proof (inside_reads _ _ R) as Hi.
  assert (0 <= m_in_flight s) by (rewrite (ag_count _ _ A); apply Z.mod_pos_bound; lia). split.
  - intros E i. destruct (in_flight i (log s)) eqn:Ei; [|done]. rewrite bool_decide_true in Hf by (apply Hi; by exists i). lia.
  - intros Hall. rewrite bool_decide_false in Hf; [lia|]. rewrite Hi. intros (i & Hi'). by rewrite Hall in Hi'.
Qed.
(** No call is ever stuck: it has returned, or waits for the clock or for the
    application, or can step. *)
Lemma export_channel_progress i pc : threads s !! i = Some pc →
  match pc with
  | SendClock _ | BeginClock _ | SendInside | SendDone _ | Returned => True
  | _ => is_Some (run_thread i false s)
  end.
Proof.
  intros Hi. destruct (channel_refines _ _ Hrun Hthreads) as (g & _ & A). pose proof (ag_pc _ _ A _ _ Hi) as Hok.
  unfold run_thread. rewrite Hi. destruct pc; cbn in *; try done. by destruct (note _ _).
Qed.
End runs.

(** ** The codec *)

(** One call of [ExportTransportChannel::Send] with no other thread running: the
    request handed to the application, if any, and the result. *)
Definition NoteOutcome (success : bool) (c : ConnectionState) : ConnectionState := default c (note c success).
Definition Channel_Send (rq : Request) (now : Z) (a : Answer) (s : Channel) : option ExportRequest * WireResult * ConnectionState :=
  if closed_to s now then (None, refused, m_state s)
  else
    let deadline := clamp (now + ms (per_export rq)) (m_shutdown_deadline s) in
    let result := InvokeTransport a in
    (Some (mkExportRequest (signal rq) (bytes rq) deadline), result, NoteOutcome (success result) (m_state s)).

Section codec.
Context (m_signal : Builder.ExportSignal) (m_max_request_bytes : Z).
Definition kOversizeWarnInterval : Z := 60 * 1000000000.
Record Codec := mkCodec { m_last_oversize_warn : option Z; codec_log : list (Config.LogLevel * str) }.
Definition oversize_message (size : Z) : str :=
  $"export transport: a " ++ to_string size ++ $"-byte trace request exceeds max_request_bytes (" ++ to_string m_max_request_bytes
  ++ $") and is sent whole; a single batch is never split - lower BatchOptions::max_export_batch_size to bound it".
Definition WarnIfOversized (size now : Z) (c : Codec) : Codec :=
  if (m_max_request_bytes =? 0) || (size <=? m_max_request_bytes) then c
  else if match m_last_oversize_warn c with Some last => now - last <? kOversizeWarnInterval | None => false end then c
  else mkCodec (Some now) (codec_log c ++ [(Config.LevelWarn, oversize_message size)]).
(** What one call sees: the clock where the codec reads it and where the channel
    does, and the application's answer. *)
Record Sight := mkSight { at_codec : Z; at_channel : Z; answer : Answer }.
Definition Codec_Send (payload : Bytes) (deadline : Z) (k : Sight) (c : Codec) (s : Channel)
    : option ExportRequest * WireResult * Codec * Channel :=
  match payload with
  | [] => (None, Failure true KInternalFailure $"export transport: empty encoding", c, s)
  | _ =>
      let '(request, result, state) := Channel_Send (mkRequest m_signal payload deadline) (at_channel k) (answer k) s in
      (request, result, WarnIfOversized (size payload) (at_codec k) c, set_state state s)
  end.
(** [IWireCodec::SendAll]: the default, a loop; call [k] sees [sight k]. *)
Fixpoint Codec_SendAll (payloads : list Bytes) (deadline : Z) (sight : nat → Sight) (k : nat) (c : Codec) (s : Channel)
    : list (option ExportRequest * WireResult) * Codec * Channel :=
  match payloads with
  | [] => ([], c, s)
  | p :: rest =>
      let '(request, result, c, s) := Codec_Send p deadline (sight k) c s in
      let '(sent, c, s) := Codec_SendAll rest deadline sight (S k) c s in
      ((request, result) :: sent, c, s)
  end.

Lemma Codec_SendAll_length payloads deadline sight k c s : length (Codec_SendAll payloads deadline sight k c s).1.1 = length payloads.
Proof.
  revert k c s. induction payloads as [|p rest IH]; intros k c s; [done|]. cbn.
  destruct (Codec_Send p deadline (sight k) c s) as [[[request result] c1] s1]. specialize (IH (S k) c1 s1).
  destruct (Codec_SendAll rest deadline sight (S k) c1 s1) as [[sent c2] s2]. cbn in *. lia.
Qed.
Lemma codec_results_length deadline sight c s payloads : length (snd <$> (Codec_SendAll payloads deadline sight 0 c s).1.1) = length payloads.
Proof. rewrite length_fmap. apply Codec_SendAll_length. Qed.
(** The third codec the exporters can be given. *)
#[export] Instance custom_codec deadline sight c s : Exporter.IWireCodec := {
  codec_send_all payloads := snd <$> (Codec_SendAll payloads deadline sight 0 c s).1.1;
  codec_send_all_length := codec_results_length deadline sight c s
}.

(** A result the retry engine can settle. *)
Definition settled (r : WireResult) : Prop :=
  if success r then retryable r = false ∧ retry_after r = None ∧ error r = None
  else partial_success_rejected r = 0 ∧ (is_Some (retry_after r) → retryable r = true)
       ∧ ∃ e, error r = Some e ∧ error_message e ≠ [].
Lemma InvokeTransport_settled a : settled (InvokeTransport a).
Proof.
  destruct a as [[o after rej m]|what|]; cbn.
  - destruct o; cbn; [done|..]; destruct m; cbn; (split_and!; [done| |eexists; split; [done|]; done]); try done; by intros [].
  - split_and!; [done|by intros []|]. eexists. by split.
  - split_and!; [done|by intros []|]. eexists. by split.
Qed.

(** What one [Send] of the custom codec does.  The application is called at most
    once, with exactly the encoded bytes, never with none, and with a deadline that is
    neither gone nor later than the export timeout or the shutdown deadline; its
    answer, return or throw, becomes a result the retry engine can settle: a success
    without error, or a failure with a message, retryable only when the application or
    an empty encoding says so.  A [Warn] about size is at most one a minute. *)
Theorem custom_send_contract payload deadline k c s :
  let '(request, result, c', s') := Codec_Send payload deadline k c s in
  settled result
  ∧ match request with
    | Some r =>
        rq_bytes r = payload ∧ payload ≠ [] ∧ rq_signal r = m_signal ∧ rq_deadline r <= at_channel k + ms deadline
        ∧ (∀ d, m_shutdown_deadline s = Some d → at_channel k < d ∧ rq_deadline r <= d)
        ∧ m_cancelled s = false ∧ result = InvokeTransport (answer k)
    | None => retryable result = bool_decide (payload = []) ∧ (payload = [] ∨ closed_to s (at_channel k) = true)
    end
  ∧ (c' = c ∨ (0 <> m_max_request_bytes ∧ m_max_request_bytes < size payload
               ∧ (∀ last, m_last_oversize_warn c = Some last → kOversizeWarnInterval <= at_codec k - last)
               ∧ c' = mkCodec (Some (at_codec k)) (codec_log c ++ [(Config.LevelWarn, oversize_message (size payload))]))).
Proof.
  assert (∀ n now, WarnIfOversized n now c = c ∨ (0 <> m_max_request_bytes ∧ m_max_request_bytes < n
    ∧ (∀ last, m_last_oversize_warn c = Some last → kOversizeWarnInterval <= now - last)
    ∧ WarnIfOversized n now c = mkCodec (Some now) (codec_log c ++ [(Config.LevelWarn, oversize_message n)]))) as Hw.
  { intros n now. unfold WarnIfOversized. destruct (m_max_request_bytes =? 0) eqn:E1; [by left|]. destruct (n <=? m_max_request_bytes) eqn:E2; [by left|].
    cbn [orb]. destruct (m_last_oversize_warn c) as [last|] eqn:El.
    - destruct (now - last <? kOversizeWarnInterval) eqn:E3; [by left|]. right. split_and!; [lia|lia|intros ? [= <-]; lia|done].
    - right. split_and!; [lia|lia|done|done]. }
  unfold Codec_Send. destruct payload as [|b payload].
  - split_and!; [|done|by left|by left]. cbn. split_and!; [done|by intros []|]. eexists. by split.
  - unfold Channel_Send. destruct (closed_to s (at_channel k)) eqn:Ec.
    + split_and!; [|done|by right|apply Hw]. cbn. split_and!; [done|by intros []|]. eexists. by split.
    + unfold closed_to in Ec. apply orb_false_iff in Ec as [E1 E2]. cbn. split; [apply InvokeTransport_settled|]. split; [|apply Hw].
      unfold clamp, past in *. destruct (m_shutdown_deadline s) as [d|]; split_and!; try done; try lia. intros ? [= <-]. lia.
Qed.
(** The function is what the transition system does when the call runs alone. *)
Lemma Channel_Send_runs rq now a s : is_u32 (m_in_flight s) →
  let '(request, result, state) := Channel_Send rq now a s in
  ∃ acts l, exec_all acts s
    = Some (mkChannel (m_in_flight s) (m_cancelled s) (m_shutdown_deadline s) state (threads s ++ [SendDone (Some result)]) (log s ++ l))
    ∧ omap (λ e, match e with LSend _ r => Some r | _ => None end) l = match request with Some r => [r] | None => [] end.
Proof.
  intros Hn. destruct s as [n can sd st ts l0]. cbn [m_in_flight threads m_cancelled m_shutdown_deadline log] in *. set (i := length ts).
  set (S n st pc l := mkChannel n can sd st (ts ++ [pc]) (l0 ++ l)).
  assert (∀ n st pc l, threads (S n st pc l) !! i = Some pc) as Hl by (intros; by apply list_lookup_middle).
  assert (∀ n st pc pc' l e, emit e (set_pc i pc' (S n st pc l)) = S n st pc' (l ++ [e])) as He.
  { intros. unfold emit, set_pc, S. cbn. rewrite insert_app_r_alt, Nat.sub_diag, app_assoc by (unfold i; lia). done. }
  assert (∀ n st pc pc' l, set_pc i pc' (S n st pc l) = S n st pc' l) as Hp.
  { intros. unfold set_pc, S. cbn. rewrite insert_app_r_alt, Nat.sub_diag by (unfold i; lia). done. }
  set (r := InvokeTransport a). set (d := clamp (now + ms (per_export rq)) sd).
  assert (H0 : exec_all [AStart (CallSend rq); AClock i now] (mkChannel n can sd st ts l0) = Some (S n st (SendEnter rq now) [])).
  { assert (exec (AStart (CallSend rq)) (mkChannel n can sd st ts l0) = Some (S n st (SendClock rq) [])) as E by (unfold S; cbn; by rewrite app_nil_r).
    unfold exec_all. cbn [foldl mbind option_bind]. rewrite E. cbn [mbind option_bind exec].
    by rewrite Hl, Hp. }
  unfold Channel_Send. destruct (closed_to _ now) eqn:Ec; unfold closed_to in Ec; cbn in Ec.
  - exists ([AStart (CallSend rq); AClock i now] ++ [AStep i false]), [LRefused i now]. split; [|done].
    rewrite channel_exec_snoc, H0. cbn. unfold run_thread. rewrite Hl. unfold closed_to. cbn [m_cancelled m_shutdown_deadline S]. rewrite Ec, He. done.
  - set (l1 := [LEnter i now; LClamp i rq now d; LSend i (mkExportRequest (signal rq) (bytes rq) d); LAnswer i (success r)]).
    assert (E1 : exec (AStep i false) (S n st (SendEnter rq now) []) = Some (S (to_uint 32 (n + 1)) st (SendClamp rq now) [LEnter i now])).
    { cbn [exec]. unfold run_thread. rewrite Hl. unfold closed_to. cbn [m_cancelled m_shutdown_deadline S]. rewrite Ec.
      change (set_in_flight _ _) with (S (to_uint 32 (n + 1)) st (SendEnter rq now) []). by rewrite He. }
    assert (E2 : ∀ n st l, exec (AStep i false) (S n st (SendClamp rq now) l) = Some (S n st (SendCall rq d) (l ++ [LClamp i rq now d])))
      by (intros; cbn [exec]; unfold run_thread; by rewrite Hl, He).
    assert (E3 : ∀ n st l, exec (AStep i false) (S n st (SendCall rq d) l) = Some (S n st SendInside (l ++ [LSend i (mkExportRequest (signal rq) (bytes rq) d)])))
      by (intros; cbn [exec]; unfold run_thread; by rewrite Hl, He).
    assert (E4 : ∀ n st l, exec (AAnswer i a) (S n st SendInside l) = Some (S n st (SendLoad r) (l ++ [LAnswer i (success r)])))
      by (intros; cbn [exec]; by rewrite Hl, He).
    assert (E5 : ∀ n st l, exec (AStep i false) (S n st (SendLoad r) l) = Some (match note st (success r) with
        | None => S n st (SendLeave (Some r)) (l ++ [LNote i (success r)]) | Some _ => S n st (SendNote r st) l end)).
    { intros. cbn [exec]. unfold run_thread. rewrite Hl. unfold note_or_leave. cbn [m_state S]. destruct (note st0 _); by rewrite ?He, ?Hp. }
    assert (E6 : ∀ n st next l, note st (success r) = Some next →
      exec (AStep i false) (S n st (SendNote r st) l) = Some (S n next (SendLeave (Some r)) (l ++ [LNote i (success r)]))).
    { intros ???? E. cbn [exec]. unfold run_thread. rewrite Hl, E. cbn [m_state S]. rewrite bool_decide_true by done. cbn [andb negb].
      change (set_state next _) with (S n0 next (SendNote r st0) l). by rewrite He. }
    assert (E7 : ∀ st l, exec (AStep i false) (S (to_uint 32 (n + 1)) st (SendLeave (Some r)) l) = Some (S n st (SendDone (Some r)) (l ++ [LLeave i]))).
    { intros. cbn [exec]. unfold run_thread. rewrite Hl. change (set_in_flight _ _) with (S (to_uint 32 (to_uint 32 (n + 1) - 1)) st0 (SendLeave (Some r)) l).
      rewrite He. do 2 f_equal. unfold to_uint. rewrite Zminus_mod_idemp_l. replace (n + 1 - 1) with n by lia. apply Z.mod_small. unfold is_u32, u32_max in Hn. lia. }
    assert (H1 : exec_all ([AStart (CallSend rq); AClock i now] ++ [AStep i false; AStep i false; AStep i false; AAnswer i a; AStep i false]) (mkChannel n can sd st ts l0)
            = Some (match note st (success r) with
                    | None => S (to_uint 32 (n + 1)) st (SendLeave (Some r)) (l1 ++ [LNote i (success r)]) | Some _ => S (to_uint 32 (n + 1)) st (SendNote r st) l1 end)).
    { unfold exec_all in *. rewrite foldl_app, H0. cbn [foldl mbind option_bind]. rewrite E1. cbn [mbind option_bind]. rewrite E2. cbn [mbind option_bind].
      rewrite E3. cbn [mbind option_bind]. rewrite E4. cbn [mbind option_bind]. by rewrite E5. }
    unfold NoteOutcome. cbn [m_state]. fold r. destruct (note st (success r)) as [next|] eqn:En.
    + eexists (_ ++ [AStep i false; AStep i false]), (l1 ++ [LNote i (success r); LLeave i]). split; [|done].
      unfold exec_all in *. rewrite foldl_app, H1. cbn [foldl mbind option_bind]. rewrite (E6 _ _ _ _ En). cbn [mbind option_bind]. rewrite E7. by rewrite <- app_assoc.
    + eexists (_ ++ [AStep i false]), (l1 ++ [LNote i (success r); LLeave i]). split; [|done].
      unfold exec_all in *. rewrite foldl_app, H1. cbn [foldl mbind option_bind]. rewrite E7. by rewrite <- app_assoc.
Qed.
End codec.

(** ** A sample run *)

(** A send in flight when the shutdown deadline is fixed and the channel cancelled;
    a second send is refused; [Cancel] wakes the first. *)
Definition ex_request : Request := mkRequest Builder.SignalTraces [1; 2; 3] 10.
Definition ex_acts : list Action :=
  [AStart (CallBeginShutdown 5); AClock 0 100; AStart (CallSend ex_request); AClock 1 120; AStep 0 false; AStep 1 false; AStep 1 false; AStep 1 false;
   AStart CallCancelInFlight; AStep 2 false; AStart (CallSend ex_request); AClock 3 200; AStep 3 false; AStep 2 false;
   AAnswer 1 (Answered (mkSendResult OutcomeSuccess None 0 [])); AStep 1 false; AStep 1 true; AStep 1 false; AStep 1 false;
   AStart CallMarkClosed; AStep 4 false].
Definition ex_channel : Channel := Eval vm_compute in default Channel_new (exec_all ex_acts Channel_new).
Example ex_log : log ex_channel =
  [LBegin 5000100; LEnter 1 120; LClamp 1 ex_request 120 5000100; LSend 1 (mkExportRequest Builder.SignalTraces [1; 2; 3] 5000100); LCancelled true;
   LRefused 3 200; LCancel; LAnswer 1 true; LNote 1 true; LLeave 1; LClosed].
Proof. reflexivity. Qed.

Lemma export_channel_log_witness : LCancel ∉ take 6 (log ex_channel) ∧ ∃ i, in_flight i (take 4 (log ex_channel)) = true.
Proof.
  assert (exec_all ex_acts Channel_new = Some ex_channel) as Hrun by (vm_compute; reflexivity).
  assert (size (threads ex_channel) < 2 ^ 32) as Hs by (vm_compute; reflexivity).
  split; [apply (export_channel_log ex_acts ex_channel Hrun Hs (take 6 (log ex_channel)) LCancel (drop 7 (log ex_channel)) eq_refl)|].
  apply (export_channel_log ex_acts ex_channel Hrun Hs (take 4 (log ex_channel)) (LCancelled true) (drop 5 (log ex_channel)) eq_refl). done.
Defined.
Lemma export_connection_state_witness : m_state ex_channel = Closed ∧ described (take 10 (log ex_channel)) = Connected ∧ m_in_flight ex_channel = 0.
Proof.
  assert (exec_all ex_acts Channel_new = Some ex_channel) as Hrun by (vm_compute; reflexivity).
  assert (size (threads ex_channel) < 2 ^ 32) as Hs by (vm_compute; reflexivity).
  destruct (export_connection_state ex_acts ex_channel Hrun Hs) as (Hst & _ & _ & Hn).
  split_and!; [by rewrite Hst; vm_compute|by vm_compute|]. apply Hn. intros i. destruct i as [|[|i]]; reflexivity.
Defined.
